(* ===== verification/_CoqProject ===== *)
-Q . S2P
Prelude.v
Strconv.v
Utf8.v
Json.v
Floats.v
Config.v
Resp.v
RespParser.v
Util.v
ConcurrentMap.v
Locks.v
ListStruct.v
HashStruct.v
SetStruct.v
StreamStruct.v
BTree.v
ZSet.v
Db.v
Keys.v
StringCmds.v
ListCmds.v
HashCmds.v
SetCmds.v
StreamCmds.v
SortedSetCmds.v
Commands.v
Server.v
PubSub.v
Quorum.v
RaftPb.v
RaftStorage.v
RaftLog.v
Tracker.v
ConfChange.v
ConfRestore.v
RaftWire.v
RaftCodec.v
RaftNode.v
RawNode.v
RaftElection.v
RaftSafety.v
WalPb.v
PageWriter.v
Wal.v
WalRun.v
WalSnaps.v
Snap.v
RaftStream.v
Transport.v
RaftGlue.v
RaftRecovery.v
Cluster.v
