(* ===== verification/Prelude.v ===== *)
(** * RedisGO: a verification development

    RedisGO (src/) is a Redis server in Go. A client's bytes go through a RESP
    parser to a connection loop, which looks the command up in a table and runs
    its handler on an in-memory database; the reply is encoded and written back.
    In cluster mode commands go through a raft log before they are executed: a
    node proposes them as JSON, raft replicates them over a transport of streams and
    keeps them in a write-ahead log and in snapshots, and every node executes what
    is committed.

    ** How Go is modelled

    This file has the shared vocabulary. A string or byte slice is a list of
    [ascii]; a [slice] also has its spare capacity where the code reslices. An
    [int] or [int64] is a [Z], wrapped with [i64] where the code can overflow;
    [float64] is [spec_float] with correct rounding (Floats.v). Code with state
    is in the monad [M S A]: a run returns a value and a state, panics (which
    ends the process) or blocks (waits for ever or loops for ever). [wp pn m Q s]
    is its weakest precondition, [pn] saying whether a panic is allowed. What Go
    leaves open is the class [GoRuntime]: the order of map iterations, spare
    capacity after [append], Unicode case mapping. Theorems hold for every
    instance; [plain_runtime] is one.

    ** Files and what they model

    - Strconv.v, Floats.v, Utf8.v, Json.v: what is used of [strconv], [strings],
      [unicode/utf8] and [encoding/json]; round trips of integers, floats and JSON
      strings. Config.v (config/config.go): flags, configuration file and the JSON
      of a cluster.
    - Resp.v (resp/structure.go), RespParser.v (resp/parser.go): data, encoder
      and stream parser. Any sequence of values parses back from its encoding;
      the parser ends on every input and resumes after malformed lines.
    - Util.v (util/util.go): key hashing and KEYS patterns, compared with a
      reference semantics of globs.
    - ConcurrentMap.v (memdb/concurrentmap.go): the sharded map refines a finite
      map; interleaved writers can lose a count. Locks.v (memdb/dblock.go):
      striped locks, for one goroutine and for any number of interleaved ones
      (mutual exclusion, no deadlock).
    - ListStruct.v (memdb/list_struct.go): the linked list on a heap refines a
      sequence. HashStruct.v, SetStruct.v (hash_struct.go, sets_struct.go): maps
      and sets. StreamStruct.v (stream_struct.go): streams as logs of entries.
      BTree.v (btree.go, sorted_set_struct.go): the tree of sorted sets, its
      order invariant and its operations; ZSet.v: its refinement to an ordered
      list when scores are distinct.
    - Db.v (memdb/db.go): [World], the state of a database with its clock, timer
      goroutines and locks; the invariant [Inv]; expiry. The handlers of a
      command file are one definition each: Keys.v, StringCmds.v, ListCmds.v,
      HashCmds.v, SetCmds.v, StreamCmds.v, SortedSetCmds.v (memdb/keys.go,
      string.go, list.go, hash.go, sets.go, stream.go, sorted_set.go).
    - Commands.v (memdb/command.go, db.go, main.go): the command table and the
      reachable states of a database. Server.v (server/db_manager.go,
      cmd_middleware.go): connection loops. PubSub.v (memdb/pubsub.go,
      pubsub_struct.go).
    - The raft library (src/etcd/raft), which the cluster mode is built on.
      Quorum.v (quorum/): commit index and vote result. RaftPb.v: the structs of
      raftpb and [LogView], the abstract log. RaftStorage.v (storage.go): the
      interface [Storage] as a class with laws, and MemoryStorage. RaftLog.v
      (log.go, log_unstable.go). Tracker.v (tracker/): progress of followers.
      ConfChange.v, ConfRestore.v (confchange/): membership changes. RaftWire.v,
      RaftCodec.v (raftpb/raft.pb.go): the wire format. RaftNode.v (raft.go,
      read_only.go): the state machine of a node, [Step]. RawNode.v (rawnode.go,
      node.go, bootstrap.go, status.go): its interface and the loop of its
      goroutine. RaftElection.v: what a call may do to an election. RaftSafety.v:
      groups of nodes.
    - What raft stands on. WalPb.v (walpb/, snappb/, pkg/crc): records and their
      checksum. PageWriter.v (pkg/ioutil/pagewriter.go): the class [Writer] and the
      buffer in front of a file. Wal.v (etcd/server/storage/wal): the write-ahead
      log on segments of bytes; WalRun.v: its refinement to an abstract log;
      WalSnaps.v: the snapshots it knows. Snap.v (api/snap/snapshotter.go): snapshot
      files. RaftStream.v, Transport.v (api/rafthttp): message streams, peers with
      their queues, and the transport.
    - The cluster mode. RaftGlue.v (raftexample/raft.go): the loop between raft,
      disk, transport and server, and the start from disk. RaftRecovery.v: crashes
      and snapshots. Cluster.v (server/server.go, memdb/raft_command.go): executing
      committed commands, and the commands that change the membership.

    ** What is shown

    Every handler keeps [Inv] and releases its locks ([safe]; the lemmas
    [keys_safe], [strings_safe], ... and their use in Commands.v): in every
    reachable state no lock is held and no command blocks, apart from the two
    that loop for ever on certain arguments (HRANDFIELD with a huge negative
    count, XADD with the option "~"), which [served] excludes. On top of that
    the command files state what each important command does to the database,
    as an equation for the reply and the new contents, deadlines included.
    [pipeline] composes parser, dispatch and encoder for a whole connection.

    For raft: the routines with loops and buffers are equal to a specification
    by quorums, sequences or sets ([committed_index_spec], [vote_result_spec],
    [inflights_refines], [persist_spec], [maybe_append_spec]); membership changes
    keep their invariant and the quorums before and after one meet
    ([quorums_overlap]); messages round-trip and no input crashes a decoder. On
    the whole node, through every handler of [Step], RaftElection.v shows what a
    call can do to term, vote, role and messages; RaftSafety.v runs nodes over a
    network that loses, delays, repeats and reorders messages, with applications
    that save before they send and with restarts from what was saved:
    [one_leader_per_term] and [leader_for_ever].

    For the cluster mode: the write-ahead log refines an abstract log over any
    number of segments, restarts and crashes ([wal_refines]); what a node has
    synced is what it starts with after a crash ([recovery]); snapshots are taken
    without an error and the newest one is found ([snapshot_taken],
    [newest_snapshot_loaded]); committed commands are delivered once and in order
    ([published_once]), so that replicas agree ([replicas_agree]) unless a command
    leaves its result to the runtime ([replicas_diverge]); messages arrive as they
    were sent ([delivered]), and nothing a node does brings its transport down
    ([transport_safe]).

    Where the code misbehaves the theorem says so: lone_LF_panics,
    PattenMatch_star_panics, lost_count, lost_subscriber, zadd_crashes,
    zrem_loses_members, overwritten_entry_returns, cut_record_error,
    snapshot_not_loaded, rconf_works_once, rconf_add_crashes and others.

    ** Bounds and fuel

    Recursion that is not structural takes fuel, and a lemma says how much is
    enough: one unit per input byte for the parser ([parse_terminates]) and per
    pattern byte for [PattenMatch] ([pm_loop_no_block]); decimal printing takes
    one unit per bit ([fmt_fuel_enough]). Deadlines are exact up to
    [max_deadline] seconds, where the timer's duration would overflow. Shard
    numbers are positive and below 2^62, so that doubling them does not wrap.
    A varint has at most ten bytes, so its loops have fuel eleven; a decoder has
    one unit per byte, and [unmarshal_never_panics] excludes that it runs out.
    The leader's loop that fills a follower's window ([send_all]) has one unit per
    free place in the window and two more. Terms stay below 2^64-1, where
    the next campaign would wrap. [Write] of a page writer calls itself once, so it
    has fuel two. A record of the write-ahead log takes at least eight bytes and a
    message of a stream at least one, so the loops that read them have a unit per
    byte ([read_fuel], [decodeLoop]); the loop over the lines of the configuration
    has one per byte ([Parse_reads_lines]). Records are below 2^55 and messages at
    most 2^42 bytes, so that sizes do not wrap and [make] does not panic.

    ** Not modelled

    Sockets, signals and logging (server/server.go apart from the commit loop,
    logger/), because they only do I/O, and the HTTP requests of the transport, which
    here fail or not. Files are bytes with a name: writes to them do not fail, and
    crashes are those while no buffer holds anything unsynced. [types.NewURLs] is a parameter;
    GetSnapshot is the bytes it returns; util/chan_pump.go and the example programs
    of raftexample/ (kvstore.go, httpapi.go) are not used. The rest of the etcd
    server, client and tools copied under src/etcd is not called by the program.
    proto.Equal, which is third-party code, and the random source are parameters
    ([RaftEnv]). The replication of the log across a group is modelled, but its
    safety is not proved here, only that of the log operations and of elections, so
    that [replicas_agree] takes the committed log as given; a group may change its
    configuration as long as quorums meet. A node that restarts without a snapshot learns its
    configuration again from the log; the steps in between, in which it is in a
    configuration that is not one of the group's, are not covered. Time does
    not pass inside a command, and commands of different clients are interleaved
    as wholes, which the locks of a command justify key by key; the interleaving
    inside multi-key operations is modelled in Locks.v and ConcurrentMap.v. *)

From Stdlib Require Export Ascii String.
From stdpp Require Export base gmap strings list fin_maps sorting.
From Stdlib Require Export ZArith Lia.

#[global] Open Scope Z_scope.
#[global] Open Scope list_scope.

(* ===================================================================== *)
(** ** Bytes and Go integers                                             *)
(* ===================================================================== *)

Abbreviation byte := Ascii.ascii (only parsing).
Abbreviation bytes := (list Ascii.ascii) (only parsing).

(** Go string literals. *)
Definition bs (s : string) : bytes := list_ascii_of_string s.
Arguments bs s%_string.

(** The unsigned value of a byte, [int(b)] in Go. *)
Definition byteval (c : byte) : Z := Z.of_N (N_of_ascii c).

Definition zbyte (z : Z) : byte := ascii_of_N (Z.to_N (z mod 256)).

(** Go's [==] on strings and [bytes.Equal]. *)
Definition beq (x y : bytes) : bool := bool_decide (x = y).

(** Go's [len], an [int]. *)
Definition zlen {A} (l : list A) : Z := Z.of_nat (length l).

(** [int] and [int64] are 64-bit two's complement; arithmetic wraps. *)
Definition i64 (z : Z) : Z := (z + 2 ^ 63) mod 2 ^ 64 - 2 ^ 63.

Definition MaxInt64 : Z := 2 ^ 63 - 1.
Definition MinInt64 : Z := - 2 ^ 63.

Definition in_i64 (z : Z) : Prop := MinInt64 <= z <= MaxInt64.

Lemma i64_id z : in_i64 z -> i64 z = z.
Proof.
  unfold in_i64, i64, MinInt64, MaxInt64. intros H.
  rewrite Z.mod_small; lia.
Qed.

Lemma i64_range z : in_i64 (i64 z).
Proof.
  unfold in_i64, i64, MinInt64, MaxInt64.
  pose proof (Z.mod_pos_bound (z + 2 ^ 63) (2 ^ 64)). lia.
Qed.

Lemma i64_idem z : i64 (i64 z) = i64 z.
Proof. apply i64_id, i64_range. Qed.

(** [uint64]. *)
Definition u64 (z : Z) : Z := z mod 2 ^ 64.

Definition MaxUint64 : Z := 2 ^ 64 - 1.

Lemma u64_id z : 0 <= z < 2 ^ 64 -> u64 z = z.
Proof. apply Z.mod_small. Qed.

Lemma u64_range z : 0 <= u64 z < 2 ^ 64.
Proof. by apply Z.mod_pos_bound. Qed.

Lemma zlen_nil {A} : zlen (@nil A) = 0.
Proof. done. Qed.

Lemma zlen_cons {A} (x : A) l : zlen (x :: l) = zlen l + 1.
Proof. unfold zlen. simpl. lia. Qed.

Lemma zlen_app {A} (l k : list A) : zlen (l ++ k) = zlen l + zlen k.
Proof. unfold zlen. rewrite length_app. lia. Qed.

Lemma zlen_snoc {A} (l : list A) x : zlen (l ++ [x]) = zlen l + 1.
Proof. by rewrite zlen_app. Qed.

Lemma zlen_nonneg {A} (l : list A) : 0 <= zlen l.
Proof. unfold zlen. lia. Qed.

Lemma beq_true x y : beq x y = true <-> x = y.
Proof. unfold beq. apply bool_decide_eq_true. Qed.

Lemma beq_false x y : beq x y = false <-> x <> y.
Proof. unfold beq. apply bool_decide_eq_false. Qed.

Lemma beq_refl x : beq x x = true.
Proof. by apply beq_true. Qed.

Lemma byteval_range c : 0 <= byteval c < 256.
Proof.
  unfold byteval. pose proof (N_ascii_bounded c). lia.
Qed.

Lemma byteval_inj c d : byteval c = byteval d -> c = d.
Proof.
  unfold byteval. intros H%N2Z.inj.
  by rewrite <- (ascii_N_embedding c), <- (ascii_N_embedding d), H.
Qed.

(* ===================================================================== *)
(** ** Outcomes and the state monad of Go code                           *)
(* ===================================================================== *)

(** A piece of Go code either returns, panics (the process dies: nothing in
    the repository recovers), or blocks for ever on a lock. *)
Inductive outcome (A : Type) : Type :=
| Ret (a : A)
| Panic
| Block.
Arguments Ret {A} a.
Arguments Panic {A}.
Arguments Block {A}.

Definition M (S A : Type) : Type := S -> outcome (A * S).

#[export] Instance M_ret S : MRet (M S) := fun A a s => Ret (a, s).
#[export] Instance M_bind S : MBind (M S) := fun A B f m s =>
  match m s with
  | Ret (a, s') => f a s'
  | Panic => Panic
  | Block => Block
  end.

Definition panic {S A} : M S A := fun _ => Panic.
Definition block {S A} : M S A := fun _ => Block.
Definition get {S} : M S S := fun s => Ret (s, s).
Definition gets {S A} (f : S -> A) : M S A := fun s => Ret (f s, s).
Definition modify {S} (f : S -> S) : M S unit := fun s => Ret (tt, f s).

(** [x[i]] and slicing panic when the index is out of range. *)
Definition or_panic {S A} (o : option A) : M S A :=
  match o with Some a => mret a | None => panic end.

(** A Go [for] over the elements of a slice, threading an accumulator. *)
Fixpoint foldM {S A B} (f : B -> A -> M S B) (acc : B) (l : list A) : M S B :=
  match l with
  | [] => mret acc
  | x :: l' => acc' ← f acc x; foldM f acc' l'
  end.

Definition forM {S A} (l : list A) (f : A -> M S unit) : M S unit :=
  foldM (fun _ x => f x) tt l.

(** [m[i]] for an [int] index. *)
Definition znth {A} (l : list A) (i : Z) : option A :=
  if i <? 0 then None else l !! Z.to_nat i.

(* ===================================================================== *)
(** ** A program logic for the monad                                     *)
(* ===================================================================== *)

(** [wp pn m Q s]: from [s], [m] does not block, and if it returns then [Q]
    holds of the result; it may panic only when [pn] is [true]. With
    [pn = false] this is total correctness. *)
Definition wp {S A} (pn : bool) (m : M S A) (Q : A -> S -> Prop) (s : S) : Prop :=
  match m s with
  | Ret (a, s') => Q a s'
  | Panic => pn = true
  | Block => False
  end.

Section wp.
Context {S : Type}.

Lemma wp_ret {A} pn (a : A) (Q : A -> S -> Prop) s : Q a s -> wp pn (mret a) Q s.
Proof. done. Qed.

Lemma wp_bind {A B} pn (m : M S A) (k : A -> M S B) (Q : B -> S -> Prop) s :
  wp pn m (fun a s' => wp pn (k a) Q s') s -> wp pn (m ≫= k) Q s.
Proof. unfold wp, mbind, M_bind. by destruct (m s) as [[]| |]. Qed.

Lemma wp_mono {A} pn (m : M S A) (Q R : A -> S -> Prop) s :
  (forall a s', Q a s' -> R a s') -> wp pn m Q s -> wp pn m R s.
Proof. unfold wp. intros H. destruct (m s) as [[]| |]; auto. Qed.

Lemma wp_weaken_panic {A} (m : M S A) (Q : A -> S -> Prop) pn s :
  wp false m Q s -> wp pn m Q s.
Proof. unfold wp. destruct (m s) as [[]| |]; by auto. Qed.

Lemma wp_get pn (Q : S -> S -> Prop) s : Q s s -> wp pn get Q s.
Proof. done. Qed.

Lemma wp_gets {A} pn (f : S -> A) (Q : A -> S -> Prop) s :
  Q (f s) s -> wp pn (gets f) Q s.
Proof. done. Qed.

Lemma wp_modify pn (f : S -> S) (Q : unit -> S -> Prop) s :
  Q tt (f s) -> wp pn (modify f) Q s.
Proof. done. Qed.

Lemma wp_panic {A} (Q : A -> S -> Prop) s : wp true panic Q s.
Proof. done. Qed.

Lemma wp_or_panic {A} pn (o : option A) (Q : A -> S -> Prop) s :
  (forall a, o = Some a -> Q a s) -> (o = None -> pn = true) ->
  wp pn (or_panic o) Q s.
Proof. destruct o; simpl; intros; [by apply wp_ret; auto|]. unfold wp, panic. auto. Qed.

(** Loops: an invariant on the remaining elements, accumulator and state. *)
Lemma wp_foldM {A B} pn (f : B -> A -> M S B) (I : list A -> B -> S -> Prop)
    (Q : B -> S -> Prop) l acc s :
  (forall x l' acc s, I (x :: l') acc s -> wp pn (f acc x) (fun b s' => I l' b s') s) ->
  (forall acc s, I [] acc s -> Q acc s) ->
  I l acc s -> wp pn (foldM f acc l) Q s.
Proof.
  intros Hstep Hend. revert acc s. induction l as [|x l IH]; intros acc s HI; simpl.
  - apply wp_ret. auto.
  - apply wp_bind. eapply wp_mono; [|by apply Hstep]. simpl. auto.
Qed.

(** [wp] describes the run: total correctness gives the result. *)
Lemma wp_run {A} (m : M S A) (Q : A -> S -> Prop) s :
  wp false m Q s -> exists a s', m s = Ret (a, s') /\ Q a s'.
Proof. unfold wp. destruct (m s) as [[a s']| |]; try done. eauto. Qed.

Lemma wp_bind_inv {A B} pn (m : M S A) (k : A -> M S B) (Q : B -> S -> Prop) s :
  wp pn (m ≫= k) Q s -> wp pn m (fun a s' => wp pn (k a) Q s') s.
Proof. unfold wp, mbind, M_bind. by destruct (m s) as [[]| |]. Qed.

Lemma wp_returns {A} (m : M S A) a (P : S -> Prop) s :
  wp false m (fun a' s' => a' = a /\ P s') s -> exists s', m s = Ret (a, s') /\ P s'.
Proof. intros (a' & s' & E & -> & H)%wp_run. eauto. Qed.
End wp.

(* ===================================================================== *)
(** ** Running an operation of a component on a field of a larger state  *)
(* ===================================================================== *)

(** A field of a record: how to read and to replace it. *)
Record lens (S T : Type) : Type := mkLens { view : S -> T; put : T -> S -> S }.
Arguments mkLens {S T} view put.
Arguments view {S T} l s.
Arguments put {S T} l t s.

Definition zoom {S T A} (L : lens S T) (m : M T A) : M S A := fun s =>
  match m (view L s) with
  | Ret (a, t) => Ret (a, put L t s)
  | Panic => Panic
  | Block => Block
  end.

Lemma wp_zoom {S T A} (L : lens S T) (pn : bool) (m : M T A) (Q : A -> S -> Prop) s :
  wp pn m (fun a t => Q a (put L t s)) (view L s) -> wp pn (zoom L m) Q s.
Proof. unfold wp, zoom. by destruct (m (view L s)) as [[]| |]. Qed.

(** Lift an outcome that does not touch the state. *)
Definition lift {S A} (o : outcome A) : M S A := fun s =>
  match o with Ret a => Ret (a, s) | Panic => Panic | Block => Block end.

Lemma wp_lift {S A} (pn : bool) (o : outcome A) (Q : A -> S -> Prop) s :
  (forall a, o = Ret a -> Q a s) -> (o = Panic -> pn = true) -> o <> Block -> wp pn (lift o) Q s.
Proof. unfold wp, lift. destruct o; auto. Qed.

Lemma wp_eval {S A} (pn : bool) (m : M S A) (Q : A -> S -> Prop) s a s' :
  m s = Ret (a, s') -> Q a s' -> wp pn m Q s.
Proof. unfold wp. by intros ->. Qed.

(** What holds unless there is a panic holds when there is none. *)
Lemma wp_no_panic {S A} (m : M S A) (Q : A -> S -> Prop) s :
  wp true m Q s -> wp false m (fun _ _ => True) s -> wp false m Q s.
Proof. unfold wp. by destruct (m s) as [[]| |]. Qed.

(* ===================================================================== *)
(** ** Lists                                                             *)
(* ===================================================================== *)

Lemma list_filter_keep {A} (P : A -> Prop) `{!forall x, Decision (P x)} (l : list A) :
  (forall x, x ∈ l -> P x) -> filter P l = l.
Proof.
  induction l as [|x l IH]; intros HP; [done|]. rewrite filter_cons_True by (apply HP; by left).
  rewrite IH; [done|]. intros y Hy. apply HP. by right.
Qed.

Lemma list_filter_none {A} (P : A -> Prop) `{!forall x, Decision (P x)} (l : list A) :
  (forall x, x ∈ l -> ~ P x) -> filter P l = [].
Proof.
  induction l as [|x l IH]; intros HP; [done|]. rewrite filter_cons_False by (apply HP; by left).
  apply IH. intros y Hy. apply HP. by right.
Qed.

(* ===================================================================== *)
(** ** Go slices of bytes                                                *)
(* ===================================================================== *)

(** A [[]byte] value: nil, or the visible elements together with the rest of
    its backing array up to its capacity. *)
Inductive slice : Type :=
| NilSlice
| Slice (vis spare : bytes).

#[export] Instance slice_eq_dec : EqDecision slice.
Proof. solve_decision. Defined.

(** [string(s)]. *)
Definition str (s : slice) : bytes :=
  match s with NilSlice => [] | Slice v _ => v end.

Definition spare (s : slice) : bytes :=
  match s with NilSlice => [] | Slice _ r => r end.

Definition slen (s : slice) : Z := zlen (str s).
Definition scap (s : slice) : Z := zlen (str s) + zlen (spare s).

Definition zero_byte : byte := ascii_of_N 0.

(** [s[lo:hi]]: the bounds are checked against the capacity, not the length. *)
Definition subslice (s : slice) (lo hi : Z) : option slice :=
  if (0 <=? lo) && (lo <=? hi) && (hi <=? scap s) then
    match s with
    | NilSlice => Some NilSlice
    | Slice v r =>
        let buf := (v ++ r)%list in
        Some (Slice (take (Z.to_nat (hi - lo)) (drop (Z.to_nat lo) buf))
                    (drop (Z.to_nat hi) buf))
    end
  else None.

(** What the language leaves to the runtime: how much [append] and the
    conversion [[]byte(string)] over-allocate, the order in which [range]
    visits a map (a fresh order for every loop, indexed by a counter), and the
    case mapping of non-ASCII text in [strings.ToLower]. *)
Class GoRuntime := {
  append_extra : nat -> nat -> nat;
  conv_extra : nat -> nat;
  range_order : nat -> gset (list ascii) -> list (list ascii);
  range_order_perm : forall n X, range_order n X ≡ₚ elements X;
  range_ids : nat -> gset Z -> list Z;
  range_ids_perm : forall n X, range_ids n X ≡ₚ elements X;
  unicode_lower : list ascii -> list ascii
}.

(** A runtime that never over-allocates and visits maps in one fixed order. *)
Definition plain_runtime : GoRuntime := {|
  append_extra := fun _ _ => 0%nat;
  conv_extra := fun _ => 0%nat;
  range_order := fun _ X => elements X;
  range_order_perm := fun _ _ => Permutation_refl _;
  range_ids := fun _ X => elements X;
  range_ids_perm := fun _ _ => Permutation_refl _;
  unicode_lower := id
|}.

Section slices.
Context {rt : GoRuntime}.

(** [append(s, xs...)]. *)
Definition sappend (s : slice) (xs : bytes) : slice :=
  match xs with
  | [] => s
  | _ =>
      let n := (length (str s) + length xs)%nat in
      let c := (length (str s) + length (spare s))%nat in
      if (n <=? c)%nat then Slice (str s ++ xs) (drop (length xs) (spare s))
      else Slice (str s ++ xs) (replicate (append_extra c n) zero_byte)
  end.

(** [[]byte(s)]. *)
Definition of_string (s : bytes) : slice :=
  Slice s (replicate (conv_extra (length s)) zero_byte).

Lemma str_sappend s xs : str (sappend s xs) = str s ++ xs.
Proof.
  unfold sappend. destruct xs as [|x xs]; [by rewrite app_nil_r|].
  by case_match.
Qed.

Lemma str_of_string s : str (of_string s) = s.
Proof. done. Qed.
End slices.

Lemma subslice_str s lo hi s' :
  0 <= lo -> hi <= slen s -> subslice s lo hi = Some s' ->
  str s' = take (Z.to_nat (hi - lo)) (drop (Z.to_nat lo) (str s)).
Proof.
  unfold subslice, slen. intros Hlo Hhi.
  destruct (_ && _) eqn:E; [|done].
  apply andb_prop in E as [[E1 E2]%andb_prop E3].
  destruct s as [|v r]; intros [= <-]; simpl in *.
  { by rewrite drop_nil, take_nil. }
  unfold zlen in Hhi.
  rewrite drop_app_le by lia. rewrite take_app_le; [done|].
  rewrite length_drop. lia.
Qed.

(* ===================================================================== *)
(** ** Tactics                                                           *)
(* ===================================================================== *)

(** Evaluate the integer tests of the goal that [lia] decides. *)
Ltac zb :=
  repeat match goal with
  | |- context [Z.ltb ?a ?b] =>
      first [rewrite (proj2 (Z.ltb_lt a b)) by lia | rewrite (proj2 (Z.ltb_ge a b)) by lia]
  | |- context [Z.leb ?a ?b] =>
      first [rewrite (proj2 (Z.leb_le a b)) by lia | rewrite (proj2 (Z.leb_gt a b)) by lia]
  | |- context [Z.eqb ?a ?b] =>
      first [rewrite (proj2 (Z.eqb_eq a b)) by lia | rewrite (proj2 (Z.eqb_neq a b)) by lia]
  end; cbn [andb orb negb].

(** Decide the byte and string tests of the goal. *)
Ltac bdec :=
  repeat match goal with
  | |- context [bool_decide ?P] =>
      first [rewrite (bool_decide_true P) by done | rewrite (bool_decide_false P) by done]
  end; cbn [andb orb negb].
