(* ===== verification/Strconv.v ===== *)
(** * Strconv: what RedisGO uses of Go's [strconv] and [strings]

    Decimal conversion of 64-bit integers ([strconv.Atoi], [ParseInt],
    [ParseUint], [FormatInt], [Itoa]), [strings.ToLower], [strings.Split] and
    [strings.Join]. They are standard library functions, so nothing here is
    mapped to the repository; the components below call them. *)

From S2P Require Import Prelude.

(* ===================================================================== *)
(** ** Decimal integers                                                  *)
(* ===================================================================== *)

Definition is_digit (c : byte) : bool := (48 <=? byteval c) && (byteval c <=? 57).
Definition digit_val (c : byte) : Z := byteval c - 48.
Definition digit_char (d : Z) : byte := zbyte (48 + d).

Fixpoint parse_digits (acc : Z) (s : bytes) : option Z :=
  match s with
  | [] => Some acc
  | c :: s' => if is_digit c then parse_digits (acc * 10 + digit_val c) s' else None
  end.

(** A non-empty run of digits, as [strconv.ParseUint(s, 10, 64)] before its
    range check. *)
Definition parse_nat (s : bytes) : option Z :=
  match s with [] => None | _ => parse_digits 0 s end.

(** [strconv.ParseUint(s, 10, 64)]; [None] is any error. *)
Definition ParseUint (s : bytes) : option Z :=
  match parse_nat s with
  | Some n => if n <? 2 ^ 64 then Some n else None
  | None => None
  end.

(** [strconv.ParseInt(s, 10, 64)]; [None] is any error (syntax or range). *)
Definition ParseInt (s : bytes) : option Z :=
  match s with
  | [] => None
  | c :: s' =>
      let neg := bool_decide (c = "-"%char) in
      let sign := neg || bool_decide (c = "+"%char) in
      match parse_nat (if sign then s' else s) with
      | None => None
      | Some n =>
          if neg then (if n <=? 2 ^ 63 then Some (- n) else None)
          else if n <? 2 ^ 63 then Some n else None
      end
  end.

(** [strconv.Atoi]: [int] has 64 bits. *)
Definition Atoi (s : bytes) : option Z := ParseInt s.

Fixpoint fmt_digits (fuel : nat) (n : Z) (acc : bytes) : bytes :=
  match fuel with
  | O => acc
  | S f =>
      let acc' := digit_char (n mod 10) :: acc in
      if n <? 10 then acc' else fmt_digits f (n / 10) acc'
  end.

(** One digit per bit is more than enough fuel: see [fmt_fuel_enough]. *)
Definition fmt_fuel (n : Z) : nat := S (Z.to_nat (Z.log2 n)).

Definition FormatNat (n : Z) : bytes := fmt_digits (fmt_fuel n) n [].

(** [strconv.FormatInt(z, 10)] and [strconv.Itoa]. *)
Definition FormatInt (z : Z) : bytes :=
  if z <? 0 then "-"%char :: FormatNat (- z) else FormatNat z.

Definition Itoa (z : Z) : bytes := FormatInt z.

(* ===================================================================== *)
(** ** Strings                                                           *)
(* ===================================================================== *)

Definition is_ascii (c : byte) : bool := byteval c <? 128.

Definition lower_byte (c : byte) : byte :=
  if (65 <=? byteval c) && (byteval c <=? 90) then zbyte (byteval c + 32) else c.

(** [strings.ToLower]: byte-wise on ASCII text, Unicode case mapping otherwise. *)
Definition ToLower {rt : GoRuntime} (s : bytes) : bytes :=
  if forallb is_ascii s then map lower_byte s else unicode_lower s.

(** [strings.Split(s, sep)] for a one-byte separator: always at least one field. *)
Fixpoint Split (sep : byte) (s : bytes) : list bytes :=
  match s with
  | [] => [[]]
  | c :: s' =>
      if bool_decide (c = sep) then [] :: Split sep s'
      else match Split sep s' with
           | [] => [[c]]
           | f :: fs => (c :: f) :: fs
           end
  end.

(** [strings.Join(fs, sep)]. *)
Fixpoint Join (sep : bytes) (fs : list bytes) : bytes :=
  match fs with
  | [] => []
  | [f] => f
  | f :: fs' => f ++ sep ++ Join sep fs'
  end.

(** [strings.Contains(s, c)] for a one-byte substring. *)
Definition Contains (s : bytes) (c : byte) : bool := existsb (fun d => bool_decide (d = c)) s.

(* ===================================================================== *)
(** ** Lemmas                                                            *)
(* ===================================================================== *)

Lemma byteval_zbyte z : 0 <= z < 256 -> byteval (zbyte z) = z.
Proof.
  intros H. unfold byteval, zbyte. rewrite Z.mod_small by lia.
  rewrite N_ascii_embedding by lia. lia.
Qed.

Lemma digit_char_val d : 0 <= d < 10 -> byteval (digit_char d) = 48 + d.
Proof. intros H. apply byteval_zbyte. lia. Qed.

Lemma is_digit_char d : 0 <= d < 10 -> is_digit (digit_char d) = true.
Proof. intros H. unfold is_digit. rewrite digit_char_val by done. lia. Qed.

Lemma digit_val_char d : 0 <= d < 10 -> digit_val (digit_char d) = d.
Proof. intros H. unfold digit_val. rewrite digit_char_val by done. lia. Qed.

Lemma parse_fmt_digits fuel n rest :
  0 <= n < 10 ^ Z.of_nat fuel ->
  (0 < fuel)%nat ->
  parse_digits 0 (fmt_digits fuel n rest) = parse_digits n rest.
Proof.
  revert n rest. induction fuel as [|f IH]; intros n rest Hn Hf; [lia|].
  rewrite Nat2Z.inj_succ, Z.pow_succ_r in Hn by lia.
  pose proof (Z.mod_pos_bound n 10). pose proof (Z.div_mod n 10).
  cbn [fmt_digits]. destruct (Z.ltb_spec n 10).
  - rewrite Z.mod_small by lia. cbn [parse_digits].
    rewrite is_digit_char, digit_val_char by lia. done.
  - assert (n / 10 < 10 ^ Z.of_nat f) by (apply Z.div_lt_upper_bound; lia).
    assert (0 < n / 10) by (apply Z.div_str_pos; lia).
    destruct f as [|f']; [simpl in *; lia|].
    rewrite IH by lia. cbn [parse_digits].
    rewrite is_digit_char, digit_val_char by lia. f_equal. lia.
Qed.

Lemma fmt_fuel_enough n : 0 <= n -> 0 <= n < 10 ^ Z.of_nat (fmt_fuel n).
Proof.
  intros Hn. split; [done|]. unfold fmt_fuel.
  rewrite Nat2Z.inj_succ, Z2Nat.id by apply Z.log2_nonneg.
  destruct (Z.eq_dec n 0) as [->|]; [done|].
  pose proof (Z.log2_spec n). pose proof (Z.log2_nonneg n).
  assert (2 ^ Z.succ (Z.log2 n) <= 10 ^ Z.succ (Z.log2 n)).
  { apply Z.pow_le_mono_l. lia. }
  lia.
Qed.

Lemma fmt_digits_ne fuel n acc : (0 < fuel)%nat -> fmt_digits fuel n acc <> [].
Proof.
  revert n acc. induction fuel as [|f IH]; intros n acc Hf; [lia|].
  cbn [fmt_digits]. destruct (n <? 10); [done|].
  destruct f; [done|]. apply IH. lia.
Qed.

Lemma FormatNat_ne n : FormatNat n <> [].
Proof. apply fmt_digits_ne. unfold fmt_fuel. lia. Qed.

Lemma parse_FormatNat n : 0 <= n -> parse_nat (FormatNat n) = Some n.
Proof.
  intros Hn. unfold parse_nat.
  destruct (FormatNat n) eqn:E; [by apply FormatNat_ne in E|]. rewrite <- E.
  unfold FormatNat. rewrite parse_fmt_digits; [done|by apply fmt_fuel_enough|].
  unfold fmt_fuel. lia.
Qed.

Lemma fmt_digits_Forall (P : byte -> Prop) fuel n acc :
  (forall d, 0 <= d < 10 -> P (digit_char d)) -> Forall P acc ->
  Forall P (fmt_digits fuel n acc).
Proof.
  intros Hd. revert n acc. induction fuel as [|f IH]; intros n acc Hacc; [done|].
  cbn [fmt_digits].
  assert (P (digit_char (n mod 10))) by (apply Hd, Z.mod_pos_bound; lia).
  destruct (n <? 10); [by constructor|]. apply IH. by constructor.
Qed.

Lemma FormatNat_digits n : Forall (fun c => is_digit c = true) (FormatNat n).
Proof. apply fmt_digits_Forall; [apply is_digit_char|constructor]. Qed.

(** Decimal text starts with a digit, so it is never mistaken for a sign. *)
Lemma FormatNat_cons n : exists c s, FormatNat n = c :: s /\ is_digit c = true.
Proof.
  pose proof (FormatNat_digits n) as H. destruct (FormatNat n) as [|c s] eqn:E.
  - by apply FormatNat_ne in E.
  - inversion H; subst. eauto.
Qed.

Lemma digit_not_sign c : is_digit c = true -> c <> "-"%char /\ c <> "+"%char.
Proof. split; intros ->; by vm_compute in H. Qed.

(** [strconv.ParseInt] inverts [strconv.FormatInt] on every [int64]. *)
Lemma ParseInt_FormatInt z : in_i64 z -> ParseInt (FormatInt z) = Some z.
Proof.
  unfold in_i64, MinInt64, MaxInt64. intros Hz. unfold FormatInt.
  destruct (Z.ltb_spec z 0).
  - cbn [ParseInt]. rewrite bool_decide_true by done. cbn [orb].
    rewrite parse_FormatNat by lia.
    destruct (Z.leb_spec (- z) (2 ^ 63)); [f_equal; lia|lia].
  - destruct (FormatNat_cons z) as (c & s & E & Hc).
    destruct (digit_not_sign c Hc) as [N1 N2].
    rewrite E. cbn [ParseInt]. rewrite !bool_decide_false by done. cbn [orb].
    rewrite <- E, parse_FormatNat by lia.
    destruct (Z.ltb_spec z (2 ^ 63)); [done|lia].
Qed.

Lemma parse_digits_nonneg s acc n : 0 <= acc -> parse_digits acc s = Some n -> 0 <= n.
Proof.
  revert acc. induction s as [|c s IH]; intros acc Ha; simpl; [by intros [= <-]|].
  destruct (is_digit c) eqn:E; [|done]. apply IH.
  unfold is_digit in E. unfold digit_val. lia.
Qed.

Lemma parse_nat_nonneg s n : parse_nat s = Some n -> 0 <= n.
Proof. destruct s; [done|]. apply parse_digits_nonneg. lia. Qed.

(** Whatever [ParseInt] accepts fits in an [int64]. *)
Lemma ParseInt_range s z : ParseInt s = Some z -> in_i64 z.
Proof.
  unfold in_i64, MinInt64, MaxInt64. destruct s as [|c s]; [done|]. cbn [ParseInt].
  destruct (parse_nat _) as [n|] eqn:E; [|done].
  apply parse_nat_nonneg in E.
  repeat case_match; intros [= <-]; lia.
Qed.

Lemma ToLower_id {rt : GoRuntime} s :
  Forall (fun c => is_ascii c = true /\ lower_byte c = c) s -> ToLower s = s.
Proof.
  intros H. unfold ToLower.
  assert (forallb is_ascii s = true) as ->.
  { apply forallb_forall. intros c Hc%list_elem_of_In.
    rewrite Forall_forall in H. by apply H. }
  induction H as [|c s [_ Hc] _ IH]; simpl; by rewrite ?Hc, ?IH.
Qed.

Lemma Split_ne sep s : Split sep s <> [].
Proof. destruct s; simpl; [done|]. repeat case_match; done. Qed.

(** Joining then splitting on a byte that occurs in no field gives the fields
    back. *)
Lemma Split_app_sep sep f s :
  sep ∉ f -> Split sep (f ++ sep :: s) = f :: Split sep s.
Proof.
  induction f as [|c f IH]; intros H; simpl.
  - by rewrite bool_decide_true.
  - rewrite bool_decide_false by set_solver.
    rewrite IH by set_solver. done.
Qed.

Lemma Split_nosep sep f : sep ∉ f -> Split sep f = [f].
Proof.
  induction f as [|c f IH]; intros H; simpl; [done|].
  rewrite bool_decide_false by set_solver. by rewrite IH by set_solver.
Qed.

Lemma Split_Join sep fs :
  fs <> [] -> Forall (fun f => sep ∉ f) fs -> Split sep (Join [sep] fs) = fs.
Proof.
  induction fs as [|f fs IH]; intros Hne Hf; [done|].
  inversion Hf as [|? ? H1 H2]; subst.
  destruct fs as [|g fs]; [by apply Split_nosep|].
  change (Join [sep] (f :: g :: fs)) with (f ++ [sep] ++ Join [sep] (g :: fs)).
  cbn [app]. rewrite Split_app_sep by done. by rewrite IH.
Qed.
