(* ===== verification/Utf8.v ===== *)
(** * Utf8: the functions of the package utf8 that are used

    [DecodeRune] takes one rune from the front of a string; a byte that does not
    start a rune is [RuneError] with length one. [runes] splits a string the way
    a loop over [DecodeRune] does, and [sanitize] is what becomes of a string
    that is written rune by rune: every byte that is not part of valid UTF-8 is
    replaced. *)

From S2P Require Import Prelude Strconv.

Definition RuneError : Z := 0xFFFD.
Definition MaxRune : Z := 0x10FFFF.

(** How many bytes follow the first one, and the range of the second byte. *)
Definition first_info (b : Z) : option (nat * Z * Z) :=
  if (0xC2 <=? b) && (b <=? 0xDF) then Some (1%nat, 0x80, 0xBF)
  else if b =? 0xE0 then Some (2%nat, 0xA0, 0xBF)
  else if b =? 0xED then Some (2%nat, 0x80, 0x9F)
  else if (0xE1 <=? b) && (b <=? 0xEF) then Some (2%nat, 0x80, 0xBF)
  else if b =? 0xF0 then Some (3%nat, 0x90, 0xBF)
  else if b =? 0xF4 then Some (3%nat, 0x80, 0x8F)
  else if (0xF1 <=? b) && (b <=? 0xF3) then Some (3%nat, 0x80, 0xBF)
  else None.

Definition in_range (lo hi : Z) (b : byte) : bool := (lo <=? byteval b) && (byteval b <=? hi).
Definition low6 (b : byte) : Z := byteval b - 0x80.

Definition DecodeRune (s : bytes) : Z * nat :=
  match s with
  | [] => (RuneError, 0%nat)
  | b0 :: s1 =>
      let v := byteval b0 in
      if v <? 0x80 then (v, 1%nat) else
      match first_info v, s1 with
      | Some (1%nat, lo, hi), b1 :: _ =>
          if in_range lo hi b1 then ((v - 0xC0) * 64 + low6 b1, 2%nat) else (RuneError, 1%nat)
      | Some (2%nat, lo, hi), b1 :: b2 :: _ =>
          if in_range lo hi b1 && in_range 0x80 0xBF b2
          then (((v - 0xE0) * 64 + low6 b1) * 64 + low6 b2, 3%nat) else (RuneError, 1%nat)
      | Some (3%nat, lo, hi), b1 :: b2 :: b3 :: _ =>
          if in_range lo hi b1 && in_range 0x80 0xBF b2 && in_range 0x80 0xBF b3
          then ((((v - 0xF0) * 64 + low6 b1) * 64 + low6 b2) * 64 + low6 b3, 4%nat) else (RuneError, 1%nat)
      | _, _ => (RuneError, 1%nat)
      end
  end.

Definition EncodeRune (r : Z) : bytes :=
  if (0 <=? r) && (r <=? 0x7F) then [zbyte r]
  else if (0 <=? r) && (r <=? 0x7FF) then [zbyte (0xC0 + r / 64); zbyte (0x80 + r mod 64)]
  else if (r <? 0) || (MaxRune <? r) || ((0xD800 <=? r) && (r <=? 0xDFFF)) then [zbyte 0xEF; zbyte 0xBF; zbyte 0xBD]
  else if r <=? 0xFFFF then [zbyte (0xE0 + r / 4096); zbyte (0x80 + r / 64 mod 64); zbyte (0x80 + r mod 64)]
  else [zbyte (0xF0 + r / 262144); zbyte (0x80 + r / 4096 mod 64); zbyte (0x80 + r / 64 mod 64); zbyte (0x80 + r mod 64)].

Fixpoint runes_loop (fuel : nat) (s : bytes) : list (Z * bytes) :=
  match fuel, s with
  | S fuel', _ :: _ => let '(r, n) := DecodeRune s in (r, take n s) :: runes_loop fuel' (drop n s)
  | _, _ => []
  end.

(** The runes of a string, each with the bytes it was read from. *)
Definition runes (s : bytes) : list (Z * bytes) := runes_loop (length s) s.

Definition sanitize (s : bytes) : bytes := concat ((fun c => EncodeRune c.1) <$> runes s).

(** [utf8.Valid]. *)
Definition Valid (s : bytes) : bool := forallb (fun c => negb ((c.1 =? RuneError) && (zlen c.2 =? 1))) (runes s).

(* ===================================================================== *)
(** ** Lemmas                                                            *)
(* ===================================================================== *)

Lemma zbyte_byteval b : zbyte (byteval b) = b.
Proof. apply byteval_inj. rewrite byteval_zbyte; [done|apply byteval_range]. Qed.

Lemma zbyte_eq z b : byteval b = z -> zbyte z = b.
Proof. intros <-. apply zbyte_byteval. Qed.

Lemma DecodeRune_length b s : let '(r, n) := DecodeRune (b :: s) in (1 <= n <= length (b :: s))%nat.
Proof.
  unfold DecodeRune. destruct (_ <? _); [cbn; lia|].
  destruct (first_info _) as [[[[|[|[|[|n]]]] lo] hi]|]; destruct s as [|b1 [|b2 [|b3 s]]]; cbn [length]; try lia;
    destruct (in_range lo hi b1); cbn [andb length]; try lia; destruct (in_range _ _ b2); cbn [andb length]; try lia;
    destruct (in_range _ _ b3); cbn [andb length]; lia.
Qed.

(** What the fast cases of [first_info] mean. *)
Lemma first_info_spec b n lo hi : first_info b = Some (n, lo, hi) ->
  (n = 1%nat /\ 0xC2 <= b <= 0xDF /\ lo = 0x80 /\ hi = 0xBF) \/
  (n = 2%nat /\ 0xE0 <= b <= 0xEF /\ 0x80 <= lo /\ hi <= 0xBF /\ (b = 0xE0 -> lo = 0xA0) /\ (b = 0xED -> hi = 0x9F)) \/
  (n = 3%nat /\ 0xF0 <= b <= 0xF4 /\ 0x80 <= lo /\ hi <= 0xBF /\ (b = 0xF0 -> lo = 0x90) /\ (b = 0xF4 -> hi = 0x8F)).
Proof. unfold first_info. intros H. repeat case_match; zb; simplify_eq; lia. Qed.

Lemma in_range_spec lo hi b : in_range lo hi b = true <-> lo <= byteval b <= hi.
Proof. unfold in_range. rewrite andb_true_iff, !Z.leb_le. done. Qed.

(** Bytes of a rune, from its bits. *)
Ltac rune_bytes :=
  repeat match goal with |- _ :: _ = _ :: _ => f_equal end; try done; apply zbyte_eq; unfold low6 in *;
  Z.div_mod_to_equations; lia.

Lemma Encode1 r : 0 <= r <= 0x7F -> EncodeRune r = [zbyte r].
Proof. intros H. unfold EncodeRune. by rewrite !(proj2 (Z.leb_le _ _)) by lia. Qed.

Lemma Encode2 r : 0x80 <= r <= 0x7FF -> EncodeRune r = [zbyte (0xC0 + r / 64); zbyte (0x80 + r mod 64)].
Proof. intros H. unfold EncodeRune. by rewrite (proj2 (Z.leb_gt r _)), !(proj2 (Z.leb_le _ _)) by lia. Qed.

Lemma Encode3 r : 0x800 <= r <= 0xFFFF -> ~ (0xD800 <= r <= 0xDFFF) ->
  EncodeRune r = [zbyte (0xE0 + r / 4096); zbyte (0x80 + r / 64 mod 64); zbyte (0x80 + r mod 64)].
Proof.
  intros H Hs. unfold EncodeRune, MaxRune.
  destruct (Z.leb_spec r 0x7F), (Z.leb_spec r 0x7FF), (Z.ltb_spec r 0), (Z.ltb_spec 0x10FFFF r),
    (Z.leb_spec 0xD800 r), (Z.leb_spec r 0xDFFF), (Z.leb_spec r 0xFFFF); try lia; by rewrite ?andb_false_r.
Qed.

Lemma Encode4 r : 0x10000 <= r <= MaxRune ->
  EncodeRune r = [zbyte (0xF0 + r / 262144); zbyte (0x80 + r / 4096 mod 64); zbyte (0x80 + r / 64 mod 64); zbyte (0x80 + r mod 64)].
Proof.
  unfold MaxRune. intros H. unfold EncodeRune, MaxRune.
  destruct (Z.leb_spec r 0x7F), (Z.leb_spec r 0x7FF), (Z.ltb_spec r 0), (Z.ltb_spec 0x10FFFF r),
    (Z.leb_spec 0xD800 r), (Z.leb_spec r 0xDFFF), (Z.leb_spec r 0xFFFF); try lia; by rewrite ?andb_false_r.
Qed.

(** A rune that was read is written back as the bytes it was read from, unless
    it stands for a byte that is no rune. *)
Lemma EncodeRune_DecodeRune s r n : DecodeRune s = (r, n) -> (r = RuneError -> n <> 1%nat) -> s <> [] ->
  EncodeRune r = take n s.
Proof.
  destruct s as [|b0 s]; [done|]. intros H Hne _. pose proof (byteval_range b0). unfold DecodeRune in H.
  destruct (Z.ltb_spec (byteval b0) 0x80).
  { injection H as <- <-. rewrite Encode1 by lia. cbn. by rewrite zbyte_byteval. }
  destruct (first_info _) as [[[n' lo] hi]|] eqn:Ef; [|injection H as <- <-; by destruct Hne].
  apply first_info_spec in Ef as [(-> & ? & -> & ->)|[(-> & ? & ? & ? & ? & ?)|(-> & ? & ? & ? & ? & ?)]].
  - destruct s as [|b1 s]; [injection H as <- <-; by destruct Hne|].
    destruct (in_range _ _ b1) eqn:E1; [|injection H as <- <-; by destruct Hne]. injection H as <- <-.
    apply in_range_spec in E1. rewrite Encode2 by (unfold low6; lia). cbn. rune_bytes.
  - destruct s as [|b1 [|b2 s]]; [injection H as <- <-; by destruct Hne..|].
    destruct (in_range lo _ b1) eqn:E1, (in_range _ _ b2) eqn:E2; cbn in H; try (injection H as <- <-; by destruct Hne).
    injection H as <- <-. apply in_range_spec in E1, E2. rewrite Encode3 by (unfold low6; lia). cbn. rune_bytes.
  - destruct s as [|b1 [|b2 [|b3 s]]]; [injection H as <- <-; by destruct Hne..|].
    destruct (in_range lo _ b1) eqn:E1, (in_range _ _ b2) eqn:E2, (in_range _ _ b3) eqn:E3; cbn in H;
      try (injection H as <- <-; by destruct Hne).
    injection H as <- <-. apply in_range_spec in E1, E2, E3. rewrite Encode4 by (unfold low6, MaxRune; lia). cbn. rune_bytes.
Qed.

(** A single byte is either ASCII or no rune. *)
Lemma DecodeRune_one b s r : DecodeRune (b :: s) = (r, 1%nat) ->
  (byteval b < 0x80 /\ r = byteval b) \/ (0x80 <= byteval b /\ r = RuneError).
Proof.
  intros H. pose proof (byteval_range b). unfold DecodeRune in H.
  destruct (Z.ltb_spec (byteval b) 0x80); [left; by injection H|right]. split; [lia|].
  destruct (first_info _) as [[[[|[|[|[|n]]]] lo] hi]|]; destruct s as [|b1 [|b2 [|b3 s]]]; cbn in H;
    repeat match goal with H : context [if ?x then _ else _] |- _ => destruct x end; congruence.
Qed.

Lemma runes_loop_enough fuel fuel' s : (length s <= fuel)%nat -> (length s <= fuel')%nat -> runes_loop fuel s = runes_loop fuel' s.
Proof.
  revert fuel' s. induction fuel as [|fuel IH]; intros [|fuel'] [|b s] H H'; cbn in H, H'; try done; try lia.
  cbn [runes_loop]. pose proof (DecodeRune_length b s) as Hn. destruct (DecodeRune (b :: s)) as [r n]. f_equal.
  apply IH; rewrite length_drop; cbn [length] in *; lia.
Qed.

Lemma runes_cons b s r n : DecodeRune (b :: s) = (r, n) -> runes (b :: s) = (r, take n (b :: s)) :: runes (drop n (b :: s)).
Proof.
  intros H. unfold runes at 1. cbn [length runes_loop]. rewrite H. f_equal. pose proof (DecodeRune_length b s) as Hn. rewrite H in Hn.
  apply runes_loop_enough; rewrite length_drop; cbn [length] in *; lia.
Qed.

(** Induction over the runes of a string. *)
Lemma runes_ind (P : bytes -> Prop) : P [] ->
  (forall b s r n, DecodeRune (b :: s) = (r, n) -> P (drop n (b :: s)) -> P (b :: s)) -> forall s, P s.
Proof.
  intros H0 H1 s. remember (length s) as k eqn:Hk. revert s Hk. induction (lt_wf k) as [k _ IH]. intros [|b s] ->; [done|].
  pose proof (DecodeRune_length b s) as Hn. destruct (DecodeRune (b :: s)) as [r n] eqn:E. eapply H1; [exact E|].
  eapply IH; [|reflexivity]. rewrite length_drop. cbn [length] in *. lia.
Qed.

(** Valid UTF-8 is not changed. *)
Lemma sanitize_valid s : Valid s = true -> sanitize s = s.
Proof.
  unfold Valid, sanitize. induction s as [|b s r n E IH] using runes_ind; [done|]. rewrite (runes_cons _ _ _ _ E). cbn [forallb].
  rewrite andb_true_iff. intros [Hv Hs]. cbn [fmap list_fmap concat fst snd] in *. rewrite IH by done.
  rewrite (EncodeRune_DecodeRune (b :: s) r n E); [apply take_drop| |done].
  intros -> ->. cbn in Hv. done.
Qed.
