(* ===== verification/Json.v ===== *)
(** * Json: what the program uses of encoding/json

    [quote] writes a string as [Marshal] does, with its HTML escapes. [Unmarshal]
    first parses the whole input, and then assigns the members of an object to
    the fields of a struct: a member names a field exactly or up to case, a value
    of the wrong kind is skipped and remembered as an error, and [null] changes
    nothing. Numbers and strings are kept as they are written until they are
    assigned. *)

From S2P Require Import Prelude Strconv Utf8.

Inductive json : Type :=
| JNull
| JBool (b : bool)
| JNumber (raw : bytes)
| JString (raw : bytes)
| JArray (l : list json)
| JObject (l : list (bytes * json)).

(* ===================================================================== *)
(** ** Writing strings                                                   *)
(* ===================================================================== *)

Definition hex_digit (n : Z) : byte := if n <? 10 then zbyte (48 + n) else zbyte (87 + n).

Definition quote_mark : byte := zbyte 34.
Definition backslash : byte := zbyte 92.

(** [htmlSafeSet]: printable ASCII but the quote, the backslash and & < >. *)
Definition htmlSafe (c : Z) : bool :=
  (32 <=? c) && negb (c =? 34) && negb (c =? 92) && negb (c =? 38) && negb (c =? 60) && negb (c =? 62).

Definition quote_byte (c : Z) : bytes :=
  if htmlSafe c then [zbyte c]
  else if (c =? 92) || (c =? 34) then [backslash; zbyte c]
  else if c =? 10 then bs "\n"
  else if c =? 13 then bs "\r"
  else if c =? 9 then bs "\t"
  else bs "\u00" ++ [hex_digit (c / 16); hex_digit (c mod 16)].

Definition quote_rune '((r, b) : Z * bytes) : bytes :=
  if r <? 0x80 then quote_byte r
  else if (r =? RuneError) && (zlen b =? 1) then bs "\ufffd"
  else if (r =? 0x2028) || (r =? 0x2029) then bs "\u202" ++ [hex_digit (r mod 16)]
  else b.

Definition quote_body (s : bytes) : bytes := concat (quote_rune <$> runes s).

Definition quote (s : bytes) : bytes := quote_mark :: quote_body s ++ [quote_mark].

(** [Marshal] of a struct whose fields are strings. *)
Definition quote_member '((k, v) : bytes * bytes) : bytes := quote k ++ bs ":" ++ quote v.

Definition MarshalStrings (l : list (bytes * bytes)) : bytes := bs "{" ++ Join (bs ",") (quote_member <$> l) ++ bs "}".

(* ===================================================================== *)
(** ** Reading strings                                                   *)
(* ===================================================================== *)

Definition hexval (c : byte) : option Z :=
  let v := byteval c in
  if (48 <=? v) && (v <=? 57) then Some (v - 48)
  else if (97 <=? v) && (v <=? 102) then Some (v - 87)
  else if (65 <=? v) && (v <=? 70) then Some (v - 55)
  else None.

(** The value of four hexadecimal digits. *)
Definition hex4 (s : bytes) : option Z :=
  match s with
  | a :: b :: c :: d :: _ =>
      a ← hexval a; b ← hexval b; c ← hexval c; d ← hexval d;
      Some (((a * 16 + b) * 16 + c) * 16 + d)
  | _ => None
  end.

(** [getu4]: the value of an escape with four digits at the front. *)
Definition getu4 (s : bytes) : option Z :=
  match s with
  | a :: b :: s' => if (byteval a =? 92) && (byteval b =? 117) then hex4 s' else None
  | _ => None
  end.

Definition IsSurrogate (r : Z) : bool := (0xD800 <=? r) && (r <? 0xE000).

(** [utf16.DecodeRune]. *)
Definition utf16_DecodeRune (r1 r2 : Z) : Z :=
  if (0xD800 <=? r1) && (r1 <? 0xDC00) && (0xDC00 <=? r2) && (r2 <? 0xE000)
  then (r1 - 0xD800) * 1024 + (r2 - 0xDC00) + 0x10000 else RuneError.

Definition simple_escape (c : Z) : option Z :=
  if (c =? 34) || (c =? 92) || (c =? 47) || (c =? 39) then Some c
  else if c =? 98 then Some 8
  else if c =? 102 then Some 12
  else if c =? 110 then Some 10
  else if c =? 114 then Some 13
  else if c =? 116 then Some 9
  else None.

(** [unquoteBytes] of what is between the quotes. *)
Fixpoint unquote_loop (fuel : nat) (s : bytes) : option bytes :=
  match fuel, s with
  | _, [] => Some []
  | O, _ => None
  | S fuel', c :: s' =>
      let v := byteval c in
      if v =? 92 then
        match s' with
        | [] => None
        | e :: s'' =>
            match simple_escape (byteval e) with
            | Some x => app [zbyte x] <$> unquote_loop fuel' s''
            | None =>
                rr ← getu4 s;
                let rest := drop 6 s in
                if IsSurrogate rr then
                  let dec := match getu4 rest with Some rr1 => utf16_DecodeRune rr rr1 | None => RuneError end in
                  if negb (dec =? RuneError) then app (EncodeRune dec) <$> unquote_loop fuel' (drop 6 rest)
                  else app (EncodeRune RuneError) <$> unquote_loop fuel' rest
                else app (EncodeRune rr) <$> unquote_loop fuel' rest
            end
        end
      else if (v =? 34) || (v <? 32) then None
      else if v <? 0x80 then app [c] <$> unquote_loop fuel' s'
      else let '(r, n) := DecodeRune s in app (EncodeRune r) <$> unquote_loop fuel' (drop n s)
  end.

Definition unquote (s : bytes) : option bytes := unquote_loop (length s) s.

(* ===================================================================== *)
(** ** Parsing                                                           *)
(* ===================================================================== *)

Definition is_space (c : byte) : bool :=
  let v := byteval c in (v =? 32) || (v =? 9) || (v =? 13) || (v =? 10).

Fixpoint skip_space (s : bytes) : bytes :=
  match s with
  | c :: s' => if is_space c then skip_space s' else s
  | [] => []
  end.

Definition is_hex (c : byte) : bool := match hexval c with Some _ => true | None => false end.

(** The rest of a string behind its opening quote: what is inside, and what
    follows the closing quote. *)
Fixpoint scan_string (s : bytes) : option (bytes * bytes) :=
  match s with
  | [] => None
  | c :: s1 =>
      let v := byteval c in
      if v =? 34 then Some ([], s1)
      else if v =? 92 then
        match s1 with
        | [] => None
        | e :: s2 =>
            let w := byteval e in
            if (w =? 117) then
              match s2 with
              | h1 :: h2 :: h3 :: h4 :: s3 =>
                  if is_hex h1 && is_hex h2 && is_hex h3 && is_hex h4
                  then prod_map (app [c; e; h1; h2; h3; h4]) id <$> scan_string s3 else None
              | _ => None
              end
            else if bool_decide (is_Some (simple_escape w)) && negb (w =? 39)
            then prod_map (app [c; e]) id <$> scan_string s2 else None
        end
      else if v <? 32 then None
      else prod_map (app [c]) id <$> scan_string s1
  end.

Fixpoint take_digits (s : bytes) : bytes * bytes :=
  match s with
  | c :: s' => if is_digit c then prod_map (cons c) id (take_digits s') else ([], s)
  | [] => ([], [])
  end.

(** At least one digit. *)
Definition digits1 (s : bytes) : option (bytes * bytes) :=
  match take_digits s with ([], _) => None | r => Some r end.

Definition scan_int (s : bytes) : option (bytes * bytes) :=
  match s with
  | c :: s' =>
      if byteval c =? 48 then Some ([c], s')
      else digits1 s
  | [] => None
  end.

Definition scan_frac (s : bytes) : option (bytes * bytes) :=
  match s with
  | c :: s' => if byteval c =? 46 then prod_map (cons c) id <$> digits1 s' else Some ([], s)
  | [] => Some ([], [])
  end.

Definition scan_exp (s : bytes) : option (bytes * bytes) :=
  match s with
  | c :: s' =>
      if (byteval c =? 101) || (byteval c =? 69) then
        match s' with
        | d :: s'' =>
            if (byteval d =? 43) || (byteval d =? 45) then prod_map (app [c; d]) id <$> digits1 s''
            else prod_map (cons c) id <$> digits1 s'
        | [] => None
        end
      else Some ([], s)
  | [] => Some ([], [])
  end.

Definition scan_number (s : bytes) : option (bytes * bytes) :=
  let '(sign, s0) := match s with c :: s' => if byteval c =? 45 then ([c], s') else ([], s) | [] => ([], s) end in
  '(i, s1) ← scan_int s0;
  '(f, s2) ← scan_frac s1;
  '(e, s3) ← scan_exp s2;
  Some (sign ++ i ++ f ++ e, s3).

(** [s] without the word [w] at its front. *)
Fixpoint strip (w s : bytes) : option bytes :=
  match w, s with
  | [], _ => Some s
  | c :: w', d :: s' => if bool_decide (c = d) then strip w' s' else None
  | _ :: _, [] => None
  end.

(** Objects and arrays may be nested this deep. *)
Definition maxNestingDepth : Z := 10000.

(** A value, the members of an object and the elements of an array behind the
    opening bracket; [depth] is how many more brackets may be opened. *)
Fixpoint parse_value (fuel : nat) (depth : Z) (s : bytes) : option (json * bytes) :=
  match fuel with
  | O => None
  | S fuel' =>
      match skip_space s with
      | [] => None
      | c :: s1 =>
          let v := byteval c in
          if v =? 123 then
            if depth <=? 0 then None else
            match skip_space s1 with
            | d :: s2 => if byteval d =? 125 then Some (JObject [], s2)
                         else prod_map JObject id <$> parse_members fuel' (depth - 1) s1
            | [] => None
            end
          else if v =? 91 then
            if depth <=? 0 then None else
            match skip_space s1 with
            | d :: s2 => if byteval d =? 93 then Some (JArray [], s2)
                         else prod_map JArray id <$> parse_elements fuel' (depth - 1) s1
            | [] => None
            end
          else if v =? 34 then prod_map JString id <$> scan_string s1
          else if v =? 116 then pair (JBool true) <$> strip (bs "rue") s1
          else if v =? 102 then pair (JBool false) <$> strip (bs "alse") s1
          else if v =? 110 then pair JNull <$> strip (bs "ull") s1
          else prod_map JNumber id <$> scan_number (c :: s1)
      end
  end
with parse_members (fuel : nat) (depth : Z) (s : bytes) : option (list (bytes * json) * bytes) :=
  match fuel with
  | O => None
  | S fuel' =>
      match skip_space s with
      | c :: s1 =>
          if negb (byteval c =? 34) then None else
          '(k, s2) ← scan_string s1;
          match skip_space s2 with
          | d :: s3 =>
              if negb (byteval d =? 58) then None else
              '(v, s4) ← parse_value fuel' depth s3;
              match skip_space s4 with
              | e :: s5 =>
                  if byteval e =? 44 then prod_map (cons (k, v)) id <$> parse_members fuel' depth s5
                  else if byteval e =? 125 then Some ([(k, v)], s5) else None
              | [] => None
              end
          | [] => None
          end
      | [] => None
      end
  end
with parse_elements (fuel : nat) (depth : Z) (s : bytes) : option (list json * bytes) :=
  match fuel with
  | O => None
  | S fuel' =>
      '(v, s1) ← parse_value fuel' depth s;
      match skip_space s1 with
      | e :: s2 =>
          if byteval e =? 44 then prod_map (cons v) id <$> parse_elements fuel' depth s2
          else if byteval e =? 93 then Some ([v], s2) else None
      | [] => None
      end
  end.

(** A value and nothing behind it but space. *)
Definition parse (s : bytes) : option json :=
  '(v, rest) ← parse_value (S (2 * length s)) maxNestingDepth s;
  match skip_space rest with [] => Some v | _ => None end.

(* ===================================================================== *)
(** ** Assigning to a struct                                             *)
(* ===================================================================== *)

(** [caseMask]. *)
Definition upper (c : Z) : Z := Z.land c 0xDF.
Definition is_letter (c : Z) : bool := (65 <=? upper c) && (upper c <=? 90).

(** [equalFoldRight]: K and S also match the Kelvin sign and the long s. *)
Fixpoint equalFoldRight (name key : bytes) : bool :=
  match name with
  | [] => bool_decide (key = [])
  | sb :: name' =>
      match key with
      | [] => false
      | tb :: key' =>
          let s := byteval sb in let t := byteval tb in
          if t <? 0x80 then
            if (s =? t) || (is_letter s && (upper s =? upper t)) then equalFoldRight name' key' else false
          else
            let '(tr, size) := DecodeRune key in
            if ((upper s =? 83) && (tr =? 0x17F)) || ((upper s =? 75) && (tr =? 0x212A))
            then equalFoldRight name' (drop size key) else false
      end
  end.

(** [asciiEqualFold] and [simpleLetterEqualFold]. *)
Definition asciiEqualFold (name key : bytes) : bool :=
  (zlen name =? zlen key) &&
  forallb (fun '(s, t) => (byteval s =? byteval t) || (is_letter (byteval s) && (upper (byteval s) =? upper (byteval t)))) (zip name key).

Definition simpleLetterEqualFold (name key : bytes) : bool :=
  (zlen name =? zlen key) && forallb (fun '(s, t) => upper (byteval s) =? upper (byteval t)) (zip name key).

(** [foldFunc]. *)
Definition equalFold (name key : bytes) : bool :=
  if existsb (fun c => (upper (byteval c) =? 75) || (upper (byteval c) =? 83)) name then equalFoldRight name key
  else if forallb (fun c => is_letter (byteval c)) name then simpleLetterEqualFold name key
  else asciiEqualFold name key.

(** A field: its name, and the assignment of a value, which may fail. *)
Record field (A : Type) : Type := mkField { fname : bytes; fstore : json -> A -> A * bool }.
Arguments mkField {A}.
Arguments fname {A}.
Arguments fstore {A}.

Definition find_field {A} (fs : list (field A)) (key : bytes) : option (field A) :=
  match List.find (fun f => beq (fname f) key) fs with
  | Some f => Some f
  | None => List.find (fun f => equalFold (fname f) key) fs
  end.

(** The struct after the assignments, and whether there was an error. *)
Definition store_member {A} (fs : list (field A)) '((a, e) : A * bool) '((k, v) : bytes * json) : A * bool :=
  match unquote k ≫= find_field fs with
  | None => (a, e)
  | Some f => let '(a', e') := fstore f v a in (a', e || e')
  end.

Definition decode {A} (fs : list (field A)) (v : json) (a : A) : A * bool :=
  match v with
  | JNull => (a, false)
  | JObject l => fold_left (store_member fs) l (a, false)
  | _ => (a, true)
  end.

Definition Unmarshal {A} (fs : list (field A)) (data : bytes) (a : A) : A * bool :=
  match parse data with
  | None => (a, true)
  | Some v => decode fs v a
  end.

(** Fields of the basic types. *)
Definition string_field {A} (name : bytes) (set : bytes -> A -> A) : field A := mkField name (fun v a =>
  match v with
  | JNull => (a, false)
  | JString raw => match unquote raw with Some s => (set s a, false) | None => (a, true) end
  | _ => (a, true)
  end).

Definition bool_field {A} (name : bytes) (set : bool -> A -> A) : field A := mkField name (fun v a =>
  match v with JNull => (a, false) | JBool b => (set b a, false) | _ => (a, true) end).

Definition int_field {A} (name : bytes) (set : Z -> A -> A) : field A := mkField name (fun v a =>
  match v with
  | JNull => (a, false)
  | JNumber raw => match ParseInt raw with Some n => (set n a, false) | None => (a, true) end
  | _ => (a, true)
  end).

(* ===================================================================== *)
(** ** The fuel of the parser is enough                                  *)
(* ===================================================================== *)

Lemma skip_space_length s : (length (skip_space s) <= length s)%nat.
Proof. induction s as [|c s IH]; cbn; [done|]. destruct (is_space c); cbn; lia. Qed.

Lemma scan_string_length s x rest : scan_string s = Some (x, rest) -> (length rest < length s)%nat.
Proof.
  revert x rest. induction s as [s IH] using (induction_ltof1 _ length). unfold ltof in IH. intros x rest.
  destruct s as [|c s1]; [done|]. cbn [scan_string]. intros H.
  assert (IHt : forall t g, (length t < length (c :: s1))%nat -> prod_map g id <$> scan_string t = Some (x, rest) ->
    (length rest < length (c :: s1))%nat).
  { intros t g Ht [[y r] [Ey E]]%fmap_Some. injection E as -> ->. pose proof (IH t Ht y r Ey). lia. }
  repeat case_match; simplify_eq; cbn [length] in *; try lia; (eapply IHt; [|exact H]; cbn; lia).
Qed.

Lemma strip_length w s rest : strip w s = Some rest -> (length rest <= length s)%nat.
Proof.
  revert s. induction w as [|c w IH]; intros s H; cbn in H; [injection H as ->; done|].
  destruct s as [|d s]; [done|]. destruct (bool_decide _); [|done]. apply IH in H. cbn. lia.
Qed.

Lemma take_digits_length s x rest : take_digits s = (x, rest) -> (length x + length rest = length s)%nat.
Proof.
  revert x. induction s as [|c s IH]; intros x H; cbn in H; [by injection H as <- <-|].
  destruct (is_digit c); [|injection H as <- <-; done].
  destruct (take_digits s) as [y r]. injection H as <- ->. cbn. f_equal. by apply IH.
Qed.

Lemma digits1_length s x rest : digits1 s = Some (x, rest) -> (length rest < length s)%nat.
Proof.
  unfold digits1. destruct (take_digits s) as [[|d y] r] eqn:E; [done|]. injection 1 as <- ->.
  apply take_digits_length in E. cbn in E. lia.
Qed.

(** A parser that gives back what it did not read. *)
Ltac rest_length :=
  repeat match goal with
  | H : _ <$> _ = Some _ |- _ => apply fmap_Some in H as [[? ?] [? H]]
  | H : _ ≫= _ = Some _ |- _ => apply bind_Some in H as [[? ?] [? H]]
  | H : digits1 _ = Some _ |- _ => apply digits1_length in H
  | H : scan_string _ = Some _ |- _ => apply scan_string_length in H
  | H : strip _ _ = Some _ |- _ => apply strip_length in H
  | _ => case_match
  end; unfold prod_map, id in *; cbn [length fst snd] in *; simplify_eq; cbn [length] in *; try lia.

Lemma scan_int_length s x rest : scan_int s = Some (x, rest) -> (length rest < length s)%nat.
Proof. unfold scan_int. intros H. rest_length. Qed.

Lemma scan_frac_length s x rest : scan_frac s = Some (x, rest) -> (length rest <= length s)%nat.
Proof. unfold scan_frac. intros H. rest_length. Qed.

Lemma scan_exp_length s x rest : scan_exp s = Some (x, rest) -> (length rest <= length s)%nat.
Proof. unfold scan_exp. intros H. rest_length. Qed.

Lemma scan_number_length s x rest : scan_number s = Some (x, rest) -> (length rest < length s)%nat.
Proof.
  unfold scan_number. intros H. destruct (match s with [] => _ | _ => _ end) as [sign s0] eqn:E0.
  apply bind_Some in H as [[i s1] [E1%scan_int_length H]]. apply bind_Some in H as [[f s2] [E2%scan_frac_length H]].
  apply bind_Some in H as [[e s3] [E3%scan_exp_length H]]. injection H as <- <-.
  assert (length s0 <= length s)%nat; [|lia]. clear -E0. repeat case_match; simplify_eq; cbn; lia.
Qed.

(** Every parser leaves less than it was given. *)
Lemma parse_lengths fuel :
  (forall depth s v rest, parse_value fuel depth s = Some (v, rest) -> (length rest < length s)%nat) /\
  (forall depth s l rest, parse_members fuel depth s = Some (l, rest) -> (length rest < length s)%nat) /\
  (forall depth s l rest, parse_elements fuel depth s = Some (l, rest) -> (length rest < length s)%nat).
Proof.
  induction fuel as [|fuel (IHv & IHm & IHe)]; [done|]. split_and!; intros depth s v rest H; cbn [parse_value parse_members parse_elements] in H.
  - pose proof (skip_space_length s). destruct (skip_space s) as [|c s1] eqn:Es; [done|]. cbn [length] in *.
    pose proof (skip_space_length s1). 
    repeat match type of H with context [if ?b then _ else _] => destruct b end; try done.
    1,2: destruct (skip_space s1) as [|d s2]; [done|]; destruct (_ =? _); [injection H as <- <-; cbn in *; lia|].
    + apply fmap_Some in H as [[l r] [E%IHm H]]. injection H as -> ->. lia.
    + apply fmap_Some in H as [[l r] [E%IHe H]]. injection H as -> ->. lia.
    + rest_length.
    + apply fmap_Some in H as [r [E%strip_length H]]. injection H as -> ->. lia.
    + apply fmap_Some in H as [r [E%strip_length H]]. injection H as -> ->. lia.
    + apply fmap_Some in H as [r [E%strip_length H]]. injection H as -> ->. lia.
    + apply fmap_Some in H as [[l r] [E%scan_number_length H]]. injection H as -> ->. cbn in E. lia.
  - pose proof (skip_space_length s). destruct (skip_space s) as [|c s1]; [done|]. destruct (negb _); [done|].
    apply bind_Some in H as [[k s2] [Ek%scan_string_length H]]. pose proof (skip_space_length s2).
    destruct (skip_space s2) as [|d s3]; [done|]. destruct (negb _); [done|].
    apply bind_Some in H as [[w s4] [Ew%IHv H]]. pose proof (skip_space_length s4).
    destruct (skip_space s4) as [|e s5]; [done|]. cbn [length] in *. repeat case_match; try done.
    + apply fmap_Some in H as [[l r] [E%IHm H]]. injection H as -> ->. lia.
    + injection H as <- <-. lia.
  - apply bind_Some in H as [[w s4] [Ew%IHv H]]. pose proof (skip_space_length s4).
    destruct (skip_space s4) as [|e s5]; [done|]. cbn [length] in *. repeat case_match; try done.
    + apply fmap_Some in H as [[l r] [E%IHe H]]. injection H as -> ->. lia.
    + injection H as <- <-. lia.
Qed.

Lemma option_bind_ext_in {A B} (x : option A) (f g : A -> option B) : (forall a, x = Some a -> f a = g a) -> x ≫= f = x ≫= g.
Proof. destruct x; cbn; auto. Qed.

(** With fuel for twice the length the result no longer depends on it, so
    [parse] never fails for want of fuel. *)
Lemma parse_enough fuel : forall fuel',
  (forall depth s, (2 * length s < fuel)%nat -> (2 * length s < fuel')%nat -> parse_value fuel depth s = parse_value fuel' depth s) /\
  (forall depth s, (2 * length s < fuel)%nat -> (2 * length s < fuel')%nat -> parse_members fuel depth s = parse_members fuel' depth s) /\
  (forall depth s, (2 * length s + 1 < fuel)%nat -> (2 * length s + 1 < fuel')%nat -> parse_elements fuel depth s = parse_elements fuel' depth s).
Proof.
  induction fuel as [|fuel IH]; intros [|fuel']; [split_and!; intros; lia..|].
  destruct (IH fuel') as (IHv & IHm & IHe). split_and!; intros depth s Hf Hf'; cbn [parse_value parse_members parse_elements].
  - pose proof (skip_space_length s). destruct (skip_space s) as [|c s1]; [done|]. cbn [length] in *.
    rewrite (IHm _ s1), (IHe _ s1) by lia. done.
  - pose proof (skip_space_length s). destruct (skip_space s) as [|c s1]; [done|]. cbn [length] in *.
    destruct (negb _); [done|]. apply option_bind_ext_in. intros [k s2] Ek%scan_string_length. pose proof (skip_space_length s2).
    destruct (skip_space s2) as [|d s3]; [done|]. cbn [length] in *. destruct (negb _); [done|].
    rewrite (IHv _ s3) by lia. apply option_bind_ext_in. intros [w s4] Ew%(parse_lengths fuel'). pose proof (skip_space_length s4).
    destruct (skip_space s4) as [|e s5]; [done|]. cbn [length] in *. rewrite (IHm _ s5) by lia. done.
  - rewrite (IHv _ s) by lia. apply option_bind_ext_in. intros [w s4] Ew%(parse_lengths fuel'). pose proof (skip_space_length s4).
    destruct (skip_space s4) as [|e s5]; [done|]. cbn [length] in *. rewrite (IHe _ s5) by lia. done.
Qed.

(* ===================================================================== *)
(** ** A string that is written is read back                             *)
(* ===================================================================== *)

Lemma DecodeRune_app s r n t : DecodeRune s = (r, n) -> (2 <= n)%nat -> DecodeRune (take n s ++ t) = (r, n).
Proof.
  intros H Hn. destruct s as [|b0 s]; [injection H as <- <-; lia|]. unfold DecodeRune in H.
  destruct (byteval b0 <? 0x80) eqn:E0; [injection H as <- <-; lia|].
  destruct (first_info (byteval b0)) as [[[[|[|[|[|k]]]] lo] hi]|] eqn:Ef; destruct s as [|b1 [|b2 [|b3 s]]];
    repeat match type of H with context [if ?b then _ else _] => destruct b eqn:? end; injection H as <- <-; try lia;
    unfold DecodeRune; cbn [take app]; rewrite E0, Ef;
    repeat match goal with H : _ = true |- _ => rewrite H end; done.
Qed.

(** A rune with more than one byte starts with a byte beyond ASCII. *)
Lemma DecodeRune_high b s r n : DecodeRune (b :: s) = (r, n) -> (2 <= n)%nat -> 0x80 <= r /\ Forall (fun c => 0x80 <= byteval c) (take n (b :: s)).
Proof.
  intros H Hn. unfold DecodeRune in H. destruct (Z.ltb_spec (byteval b) 0x80); [injection H as <- <-; lia|].
  destruct (first_info (byteval b)) as [[[k lo] hi]|] eqn:Ef; [|injection H as <- <-; lia].
  apply first_info_spec in Ef.
  destruct k as [|[|[|[|k]]]]; destruct s as [|b1 [|b2 [|b3 s]]];
    repeat match type of H with context [if ?b then _ else _] => destruct b eqn:? end; injection H as <- <-; try lia;
    repeat match goal with H : _ && _ = true |- _ => apply andb_true_iff in H as [? ?] | H : in_range _ _ _ = true |- _ => apply in_range_spec in H end;
    cbn [take]; unfold low6; (split; [lia|repeat constructor; lia]).
Qed.


(** The ways a rune is written in a string. *)
Inductive chunk : bytes -> Z -> Prop :=
| chunk_plain b : 32 <= byteval b < 128 -> byteval b <> 34 -> byteval b <> 92 -> chunk [b] (byteval b)
| chunk_escape e x : simple_escape (byteval e) = Some x -> byteval e <> 39 -> 0 <= x < 128 -> chunk [backslash; e] x
| chunk_hex h1 h2 h3 h4 r : hex4 [h1; h2; h3; h4] = Some r -> IsSurrogate r = false -> chunk (backslash :: zbyte 117 :: [h1; h2; h3; h4]) r
| chunk_high b s r n : DecodeRune (b :: s) = (r, n) -> (2 <= n)%nat -> chunk (take n (b :: s)) r.

Lemma hexval_digit n : 0 <= n < 16 -> hexval (hex_digit n) = Some n.
Proof.
  intros H. unfold hex_digit, hexval. destruct (Z.ltb_spec n 10); rewrite byteval_zbyte by lia.
  - rewrite !(proj2 (Z.leb_le _ _)) by lia. cbn [andb]. f_equal. lia.
  - rewrite (proj2 (Z.leb_gt (87 + n) 57)), !(proj2 (Z.leb_le _ _)) by lia. cbn [andb]. f_equal. lia.
Qed.

Lemma hex_pair c : 0 <= c < 128 -> hex4 ["0"; "0"; hex_digit (c / 16); hex_digit (c mod 16)]%char = Some c.
Proof.
  intros H. unfold hex4. rewrite !hexval_digit by (Z.div_mod_to_equations; lia). change (hexval "0") with (Some 0). cbn [mbind option_bind].
  f_equal. pose proof (Z.div_mod c 16). lia.
Qed.

Lemma quote_byte_chunk c : 0 <= c < 128 -> chunk (quote_byte c) c.
Proof.
  intros Hc. unfold quote_byte. destruct (htmlSafe c) eqn:Hs.
  - unfold htmlSafe in Hs. replace c with (byteval (zbyte c)) at 2 by (apply byteval_zbyte; lia).
    zb. apply chunk_plain; rewrite byteval_zbyte; lia.
  - clear Hs. destruct (Z.eqb_spec c 92) as [->|]; [by apply chunk_escape|]. destruct (Z.eqb_spec c 34) as [->|]; [by apply chunk_escape|].
    destruct (Z.eqb_spec c 10) as [->|]; [by apply chunk_escape|]. destruct (Z.eqb_spec c 13) as [->|]; [by apply chunk_escape|].
    destruct (Z.eqb_spec c 9) as [->|]; [by apply chunk_escape|].
    apply (chunk_hex "0" "0"); [by apply hex_pair|]. unfold IsSurrogate. by rewrite (proj2 (Z.leb_gt _ _)) by lia.
Qed.

Lemma quote_rune_chunk b s r n : DecodeRune (b :: s) = (r, n) -> chunk (quote_rune (r, take n (b :: s))) r.
Proof.
  intros E. pose proof (DecodeRune_length b s) as Hn. rewrite E in Hn. unfold quote_rune.
  destruct (decide (n = 1%nat)) as [->|].
  - pose proof (byteval_range b). apply DecodeRune_one in E as [[H1 ->]|[H1 ->]].
    + rewrite (proj2 (Z.ltb_lt _ _)) by lia. apply quote_byte_chunk. lia.
    + by apply (chunk_hex "f" "f" "f" "d").
  - destruct (DecodeRune_high b s r n E) as [Hr _]; [lia|]. rewrite (proj2 (Z.ltb_ge _ _)) by lia.
    assert (zlen (take n (b :: s)) =? 1 = false) as ->.
    { apply Z.eqb_neq. unfold zlen. rewrite length_take. lia. }
    rewrite andb_false_r.
    destruct (Z.eqb_spec r 0x2028) as [->|]; [by apply (chunk_hex "2" "0" "2" "8")|].
    destruct (Z.eqb_spec r 0x2029) as [->|]; [by apply (chunk_hex "2" "0" "2" "9")|].
    apply chunk_high; [done|lia].
Qed.

Lemma scan_high t rest : Forall (fun c => 0x80 <= byteval c) t -> scan_string (t ++ rest) = prod_map (app t) id <$> scan_string rest.
Proof.
  induction 1 as [|c t Hc Ht IH]; cbn [app scan_string]; [by destruct (scan_string rest) as [[? ?]|]|].
  rewrite !(proj2 (Z.eqb_neq _ _)), (proj2 (Z.ltb_ge _ _)) by lia. rewrite IH. by destruct (scan_string rest) as [[? ?]|].
Qed.

Lemma hex4_is_hex a b c d r : hex4 [a; b; c; d] = Some r -> is_hex a && is_hex b && is_hex c && is_hex d = true.
Proof. unfold hex4, is_hex. by destruct (hexval a), (hexval b), (hexval c), (hexval d). Qed.

Lemma simple_escape_not_u w x : simple_escape w = Some x -> w <> 117.
Proof. by intros H ->. Qed.

Lemma scan_chunk t r rest : chunk t r -> scan_string (t ++ rest) = prod_map (app t) id <$> scan_string rest.
Proof.
  destruct 1 as [b Hb H34 H92|e x He H39 Hx|h1 h2 h3 h4 r Hh _|b s r n E Hn]; cbn [app scan_string].
  - by rewrite !(proj2 (Z.eqb_neq _ _)), (proj2 (Z.ltb_ge _ _)) by lia.
  - change (byteval backslash) with 92. cbn [Z.eqb Pos.eqb]. pose proof (simple_escape_not_u _ _ He).
    rewrite !(proj2 (Z.eqb_neq _ _)) by lia. by rewrite bool_decide_true by (by rewrite He).
  - change (byteval backslash) with 92. change (byteval (zbyte 117)) with 117. cbn [Z.eqb Pos.eqb].
    by rewrite (hex4_is_hex _ _ _ _ _ Hh).
  - by apply scan_high, (DecodeRune_high b s r n E Hn).
Qed.

Lemma scan_quote_body s rest : scan_string (quote_body s ++ quote_mark :: rest) = Some (quote_body s, rest).
Proof.
  unfold quote_body. induction s as [|b s r n E IH] using runes_ind; [done|]. rewrite (runes_cons _ _ _ _ E).
  cbn [fmap list_fmap concat]. rewrite <- app_assoc, (scan_chunk _ r) by (by apply quote_rune_chunk). by rewrite IH.
Qed.

Lemma unquote_enough fuel fuel' s : (length s <= fuel)%nat -> (length s <= fuel')%nat -> unquote_loop fuel s = unquote_loop fuel' s.
Proof.
  revert fuel' s. induction fuel as [|fuel IH]; intros [|fuel'] [|b s] H H'; cbn [length] in H, H'; try done; try lia.
  assert (IHd : forall k, (1 <= k)%nat -> unquote_loop fuel (drop k (b :: s)) = unquote_loop fuel' (drop k (b :: s))).
  { intros k Hk. apply IH; rewrite length_drop; cbn [length]; lia. }
  cbn [unquote_loop]. pose proof (IHd 1%nat ltac:(lia)) as E1. pose proof (IHd 2%nat ltac:(lia)) as E2. cbn [drop] in E1, E2.
  destruct (byteval b =? 92).
  - destruct s as [|e s]; [done|]. cbn [drop] in E2. rewrite drop_0 in E2. destruct (simple_escape _); [by rewrite E2|].
    apply option_bind_ext_in. intros rr _. rewrite !drop_drop, !IHd by lia. done.
  - rewrite drop_0 in E1. rewrite E1. pose proof (DecodeRune_length b s) as Hn. destruct (DecodeRune _) as [r n]. by rewrite IHd by lia.
Qed.

(** [unquote] by its first rune. *)
Lemma unquote_cons c s : unquote (c :: s) =
  let v := byteval c in
  if v =? 92 then
    match s with
    | [] => None
    | e :: s'' =>
        match simple_escape (byteval e) with
        | Some x => app [zbyte x] <$> unquote s''
        | None =>
            rr ← getu4 (c :: s);
            let rest := drop 6 (c :: s) in
            if IsSurrogate rr then
              let dec := match getu4 rest with Some rr1 => utf16_DecodeRune rr rr1 | None => RuneError end in
              if negb (dec =? RuneError) then app (EncodeRune dec) <$> unquote (drop 6 rest)
              else app (EncodeRune RuneError) <$> unquote rest
            else app (EncodeRune rr) <$> unquote rest
        end
    end
  else if (v =? 34) || (v <? 32) then None
  else if v <? 0x80 then app [c] <$> unquote s
  else let '(r, n) := DecodeRune (c :: s) in app (EncodeRune r) <$> unquote (drop n (c :: s)).
Proof.
  assert (IHd : forall k, (1 <= k)%nat -> unquote_loop (length s) (drop k (c :: s)) = unquote (drop k (c :: s))).
  { intros k Hk. apply unquote_enough; rewrite length_drop; cbn [length]; lia. }
  unfold unquote at 1. cbn [length unquote_loop]. pose proof (IHd 2%nat ltac:(lia)) as E2. cbn [drop] in E2.
  destruct (byteval c =? 92); cbv zeta.
  - destruct s as [|e s]; [done|]. cbn [drop] in E2. rewrite drop_0 in E2. destruct (simple_escape _); [by rewrite E2|].
    apply option_bind_ext_in. intros rr _. rewrite !drop_drop, !IHd by lia. done.
  - pose proof (DecodeRune_length c s) as Hn. destruct (DecodeRune _) as [r n]. by rewrite IHd by lia.
Qed.

Lemma unquote_chunk t r rest : chunk t r -> unquote (t ++ rest) = app (EncodeRune r) <$> unquote rest.
Proof.
  destruct 1 as [b Hb H34 H92|e x He H39 Hx|h1 h2 h3 h4 r Hh Hs|b s r n E Hn]; cbn [app].
  - rewrite unquote_cons. cbv zeta. rewrite !(proj2 (Z.eqb_neq _ _)), (proj2 (Z.ltb_ge _ _)), (proj2 (Z.ltb_lt _ _)) by lia.
    cbn [orb]. by rewrite Encode1, zbyte_byteval by lia.
  - rewrite unquote_cons. change (byteval backslash =? 92) with true. cbv zeta iota. by rewrite He, (Encode1 x) by lia.
  - rewrite unquote_cons. change (byteval backslash =? 92) with true. cbv zeta iota.
    change (simple_escape (byteval (zbyte 117))) with (@None Z).
    assert (getu4 (backslash :: zbyte 117 :: h1 :: h2 :: h3 :: h4 :: rest) = Some r) as -> by exact Hh.
    cbn [mbind option_bind drop]. by rewrite Hs, drop_0.
  - pose proof (DecodeRune_app _ _ _ rest E Hn) as Ea. destruct (DecodeRune_high b s r n E Hn) as [_ Hh].
    pose proof (DecodeRune_length b s) as Hl. rewrite E in Hl.
    assert (Henc : EncodeRune r = take n (b :: s)) by (apply EncodeRune_DecodeRune; [done|lia|done]).
    destruct n as [|n]; [lia|]. cbn [take app] in *. inversion Hh as [|? ? Hb _]; subst.
    rewrite unquote_cons. cbv zeta. rewrite Ea, !(proj2 (Z.eqb_neq _ _)), !(proj2 (Z.ltb_ge _ _)) by lia. cbn [orb drop].
    by rewrite drop_app_length' by (rewrite length_take; cbn [length] in *; lia).
Qed.

(** Reading what [quote] wrote gives the string with every invalid byte replaced. *)
Lemma unquote_quote_body s : unquote (quote_body s) = Some (sanitize s).
Proof.
  unfold quote_body, sanitize. induction s as [|b s r n E IH] using runes_ind; [done|]. rewrite (runes_cons _ _ _ _ E).
  cbn [fmap list_fmap concat fst]. rewrite (unquote_chunk _ r) by (by apply quote_rune_chunk). by rewrite IH.
Qed.

(** ** Objects of strings *)

Definition string_member '((k, v) : bytes * bytes) : bytes * json := (quote_body k, JString (quote_body v)).

Lemma parse_string_value fuel depth s rest : parse_value (S fuel) depth (quote s ++ rest) = Some (JString (quote_body s), rest).
Proof.
  unfold quote. cbn [parse_value app skip_space]. change (is_space quote_mark) with false. cbv zeta iota.
  change (byteval quote_mark) with 34. cbn [Z.eqb Pos.eqb]. rewrite <- app_assoc. cbn [app]. by rewrite scan_quote_body.
Qed.

Lemma parse_quoted_members l depth fuel : l <> [] -> (length l < fuel)%nat ->
  forall rest, parse_members fuel depth (Join (bs ",") (quote_member <$> l) ++ bs "}" ++ rest) = Some (string_member <$> l, rest).
Proof.
  intros Hne. revert fuel. induction l as [|[k v] l IH]; [done|]. intros [|[|fuel]] Hf rest; cbn [length] in Hf; try lia.
  assert (Hstep : forall t, parse_members (S (S fuel)) depth (quote_member (k, v) ++ t) =
    match skip_space t with
    | e :: s5 => if byteval e =? 44 then prod_map (cons (string_member (k, v))) id <$> parse_members (S fuel) depth s5
                 else if byteval e =? 125 then Some ([string_member (k, v)], s5) else None
    | [] => None
    end).
  { intros t. unfold quote_member. rewrite <- !app_assoc. unfold quote at 1. remember (S fuel) as f eqn:Ef. cbn [parse_members app skip_space].
    change (is_space quote_mark) with false. cbv zeta iota. change (byteval quote_mark) with 34. cbn [Z.eqb Pos.eqb negb].
    rewrite <- app_assoc. cbn [app]. rewrite scan_quote_body. change (bs ":") with [":"%char].
    cbn [mbind option_bind app skip_space].
    change (is_space ":") with false. cbv iota. change (byteval ":") with 58. cbn [Z.eqb Pos.eqb negb].
    subst f. by rewrite (parse_string_value fuel depth v t). }
  destruct l as [|kv l].
  - cbn [fmap list_fmap Join]. by rewrite Hstep.
  - change (Join (bs ",") (quote_member <$> (k, v) :: kv :: l)) with
      (quote_member (k, v) ++ bs "," ++ Join (bs ",") (quote_member <$> (kv :: l))).
    rewrite <- !app_assoc, Hstep. change (bs "," ++ ?t) with (","%char :: t). cbn [skip_space]. change (is_space ",") with false. cbv iota.
    change (byteval "," =? 44) with true. cbv iota. rewrite IH by (cbn [length] in *; lia || done). done.
Qed.

Lemma Join_members_length l : (length l <= length (Join (bs ",") (quote_member <$> l)))%nat.
Proof.
  induction l as [|[k v] [|kv l] IH]; [done|cbn; lia|].
  change (Join (bs ",") (quote_member <$> (k, v) :: kv :: l)) with
    (quote_member (k, v) ++ bs "," ++ Join (bs ",") (quote_member <$> (kv :: l))).
  rewrite !length_app. change (length (bs ",")) with 1%nat. cbn [length] in *. lia.
Qed.

Lemma parse_MarshalStrings l : parse (MarshalStrings l) = Some (JObject (string_member <$> l)).
Proof.
  destruct l as [|[k v] l]; [done|]. unfold parse. set (s := MarshalStrings _).
  assert (Hv : parse_value (S (2 * length s)) maxNestingDepth s = Some (JObject (string_member <$> (k, v) :: l), [])); [|by rewrite Hv].
  assert (Hl : (length ((k, v) :: l) < length s)%nat).
  { subst s. unfold MarshalStrings. rewrite !length_app. pose proof (Join_members_length ((k, v) :: l)).
    change (length (bs "{")) with 1%nat. cbn [length] in *. lia. }
  subst s. unfold MarshalStrings in *. set (t := Join _ _ ++ _) in *.
  change (bs "{" ++ t) with ("{"%char :: t) in *. cbn [parse_value skip_space]. change (is_space "{") with false. cbv zeta iota.
  change (byteval "{") with 123. cbn [Z.eqb Pos.eqb]. change (maxNestingDepth <=? 0) with false. cbv iota.
  pose proof (parse_quoted_members ((k, v) :: l) (maxNestingDepth - 1) (2 * length ("{"%char :: t)) ltac:(done) ltac:(cbn [length] in *; lia) []) as Hm.
  rewrite app_nil_r in Hm. fold t in Hm. rewrite Hm.
  assert (Hq : exists u, t = quote_mark :: u) by (subst t; by destruct l; eexists). destruct Hq as [u Hu].
  rewrite Hu. cbn [skip_space]. change (is_space quote_mark) with false. cbv iota. done.
Qed.
