(* ===== verification/Floats.v ===== *)
(** * Floats: what RedisGO uses of Go's [float64]

    A [float64] is a [spec_float] of the Standard Library: a sign, a mantissa
    and an exponent, or zero, infinity, NaN. Comparison is [SFcompare]. The
    operations that round ([+], [strconv.ParseFloat]) go through [round_ratio],
    the IEEE 754 rounding of an exact quotient to 53 bits, to nearest with ties
    to even. [FormatFloat_short] is [strconv.FormatFloat(x, 'f', -1, 64)], the
    shortest decimal that reads back as [x]; [FormatFloat_6] is what
    [fmt.Sprintf] makes of the verb f, six digits after the point. These are
    standard library functions, so nothing here is mapped to the repository. *)

From Stdlib Require Export SpecFloat.
From S2P Require Import Prelude Strconv.

Abbreviation float64 := spec_float.

#[export] Instance float64_eq_dec : EqDecision float64.
Proof. solve_decision. Defined.

(** The comparisons of Go; all are false on NaN, except that [!=] is true. *)
Definition flt (x y : float64) : bool := SFltb x y.
Definition fle (x y : float64) : bool := SFleb x y.
Definition feq (x y : float64) : bool := SFeqb x y.

Definition is_nan (x : float64) : bool := match x with S754_nan => true | _ => false end.

(* ===================================================================== *)
(** ** Rounding                                                          *)
(* ===================================================================== *)

(** The smallest and the largest exponent of a 53-bit mantissa. *)
Definition emin : Z := -1074.
Definition emax : Z := 971.

(** [a * 2 ^ p] compared with [b * 2 ^ q], [a] and [b] integers. *)
Definition ratio_lt (num den p : Z) : bool :=
  (** num / den < 2 ^ p *)
  num * 2 ^ Z.max 0 (- p) <? den * 2 ^ Z.max 0 p.

(** The exponent of the leading bit of [num / den]. *)
Definition lead (num den : Z) : Z :=
  let k := Z.log2 num - Z.log2 den in
  if ratio_lt num den k then k - 1 else k.

(** [n / d] to the nearest integer, ties to even. *)
Definition div_even (n d : Z) : Z :=
  let q := n / d in
  let r := n mod d in
  if 2 * r <? d then q
  else if d <? 2 * r then q + 1
  else if Z.even q then q else q + 1.

(** [num / den / 2 ^ e] to the nearest integer, ties to even. *)
Definition mantissa (num den e : Z) : Z :=
  div_even (num * 2 ^ Z.max 0 (- e)) (den * 2 ^ Z.max 0 e).

(** [num / den], both positive, rounded to a mantissa and an exponent. *)
Definition round_ratio (num den : Z) : Z * Z :=
  let e := Z.max emin (lead num den - 52) in
  let m := mantissa num den e in
  if m =? 2 ^ 53 then (2 ^ 52, e + 1) else (m, e).

Definition of_ratio (s : bool) (num den : Z) : float64 :=
  if num <=? 0 then S754_zero s
  else
    let '(m, e) := round_ratio num den in
    match m with
    | Zpos p => if emax <? e then S754_infinity s else S754_finite s p e
    | _ => S754_zero s
    end.

(** [x + y]. *)
Definition fadd (x y : float64) : float64 :=
  match x, y with
  | S754_nan, _ | _, S754_nan => S754_nan
  | S754_infinity s, S754_infinity t => if eqb s t then x else S754_nan
  | S754_infinity _, _ => x
  | _, S754_infinity _ => y
  | S754_zero s, S754_zero t => S754_zero (s && t)
  | S754_zero _, _ => y
  | _, S754_zero _ => x
  | S754_finite s m e, S754_finite t n f =>
      let k := Z.min e f in
      let z := cond_Zopp s (Zpos m) * 2 ^ (e - k) + cond_Zopp t (Zpos n) * 2 ^ (f - k) in
      if z =? 0 then S754_zero false
      else of_ratio (z <? 0) (Z.abs z * 2 ^ Z.max 0 k) (2 ^ Z.max 0 (- k))
  end.

(* ===================================================================== *)
(** ** Reading                                                           *)
(* ===================================================================== *)

(** The names of the special values, in any case of letters. *)
Definition special (s : bytes) : option float64 :=
  let inf (s : bytes) := let l := map lower_byte s in beq l (bs "inf") || beq l (bs "infinity") in
  match s with
  | [] => None
  | c :: s' =>
      if beq (map lower_byte s) (bs "nan") then Some S754_nan
      else if inf s then Some (S754_infinity false)
      else if bool_decide (c = "+"%char) && inf s' then Some (S754_infinity false)
      else if bool_decide (c = "-"%char) && inf s' then Some (S754_infinity true)
      else None
  end.

Definition hex_val (c : byte) : option Z :=
  let l := byteval (lower_byte c) in
  if is_digit c then Some (digit_val c)
  else if (97 <=? l) && (l <=? 102) then Some (l - 87) else None.

Definition digit_of (hex : bool) (c : byte) : option Z :=
  if hex then hex_val c else if is_digit c then Some (digit_val c) else None.

Record mant_state : Type := mkMant {
  mant : Z;        (* the digits read so far, as an integer *)
  frac : Z;        (* how many of them come after the point *)
  sawdot : bool;
  sawdigits : bool
}.

(** The digits, the point and the underscores of a mantissa, up to the first
    other byte. *)
Fixpoint read_mant (hex : bool) (st : mant_state) (s : bytes) : mant_state * bytes :=
  match s with
  | [] => (st, [])
  | c :: s' =>
      if bool_decide (c = "_"%char) then read_mant hex st s'
      else if bool_decide (c = "."%char) then
        if sawdot st then (st, s)
        else read_mant hex (mkMant (mant st) (frac st) true (sawdigits st)) s'
      else
        match digit_of hex c with
        | Some d =>
            read_mant hex
              (mkMant (mant st * (if hex then 16 else 10) + d)
                 (if sawdot st then frac st + 1 else frac st) (sawdot st) true) s'
        | None => (st, s)
        end
  end.

(** The digits of an exponent; past 10000 they do not count any more. *)
Fixpoint read_exp (e : Z) (s : bytes) : Z * bytes :=
  match s with
  | [] => (e, [])
  | c :: s' =>
      if bool_decide (c = "_"%char) then read_exp e s'
      else if is_digit c then read_exp (if e <? 10000 then e * 10 + digit_val c else e) s'
      else (e, s)
  end.

(** An underscore stands between digits, the prefix 0x counting as one. The
    last byte seen was a digit ([saw = 0]), an underscore (1) or another (2). *)
Fixpoint underscores (hex : bool) (saw : Z) (s : bytes) : bool :=
  match s with
  | [] => negb (saw =? 1)
  | c :: s' =>
      if match digit_of hex c with Some _ => true | None => false end then underscores hex 0 s'
      else if bool_decide (c = "_"%char) then (saw =? 0) && underscores hex 1 s'
      else negb (saw =? 1) && underscores hex 2 s'
  end.

(** An optional sign. *)
Definition cut_sign (s : bytes) : bool * bytes :=
  match s with
  | c :: s' =>
      if bool_decide (c = "+"%char) then (false, s')
      else if bool_decide (c = "-"%char) then (true, s') else (false, s)
  | [] => (false, [])
  end.

Definition cut_prefix (s : bytes) : option bytes :=
  match s with
  | "0"%char :: x :: (_ :: _) as s' =>
      if bool_decide (lower_byte x = "x"%char) then Some (drop 2 s) else None
  | _ => None
  end.

(** The exponent part, if any: its value and what is left. *)
Definition exponent (hex : bool) (s : bytes) : option (Z * bytes) :=
  match s with
  | [] => if hex then None else Some (0, [])
  | c :: s1 =>
      if bool_decide (lower_byte c = (if hex then "p" else "e")%char) then
        let '(neg, s2) := cut_sign s1 in
        match s2 with
        | d :: _ => if is_digit d then let '(e, rest) := read_exp 0 s2 in Some (if neg then - e else e, rest) else None
        | [] => None
        end
      else if hex then None else Some (0, s)
  end.

(** A number too large for a [float64] is a range error. *)
Definition in_range (x : float64) : option float64 :=
  match x with S754_infinity _ => None | _ => Some x end.

(** [strconv.ParseFloat(s, 64)]; [None] is any error (syntax or range). *)
Definition ParseFloat (s : bytes) : option float64 :=
  match special s with
  | Some x => Some x
  | None =>
      let '(neg, s0) := cut_sign s in
      let '(hex, s1) := match cut_prefix s0 with Some s1 => (true, s1) | None => (false, s0) end in
      let '(st, s2) := read_mant hex (mkMant 0 0 false false) s1 in
      if negb (sawdigits st) then None
      else
        match exponent hex s2 with
        | Some (e, []) =>
            if underscores hex (if hex then 0 else 2) s1 then
              in_range
                (if hex then
                   let k := e - 4 * frac st in
                   of_ratio neg (mant st * 2 ^ Z.max 0 k) (2 ^ Z.max 0 (- k))
                 else
                   let k := e - frac st in
                   of_ratio neg (mant st * 10 ^ Z.max 0 k) (10 ^ Z.max 0 (- k)))
            else None
        | _ => None
        end
  end.

(* ===================================================================== *)
(** ** Writing                                                           *)
(* ===================================================================== *)

(** The last [k] digits of [n], zeros in front included. *)
Fixpoint fixed_digits (k : nat) (n : Z) (acc : bytes) : bytes :=
  match k with
  | O => acc
  | S k' => fixed_digits k' (n / 10) (digit_char (n mod 10) :: acc)
  end.

(** The decimal [c * 10 ^ q] without an exponent. *)
Definition fmt_decimal (c q : Z) : bytes :=
  if 0 <=? q then FormatNat (c * 10 ^ q)
  else FormatNat (c / 10 ^ (- q)) ++ "."%char :: fixed_digits (Z.to_nat (- q)) (c mod 10 ^ (- q)) [].

(** Whether [c * 10 ^ q] rounds to [m * 2 ^ e]: in quarters of the last bit,
    the neighbours are half a bit away, but below a power of two only a
    quarter; the ends belong to the interval if the mantissa is even. *)
Definition in_interval (m e c q : Z) : bool :=
  let a := c * 10 ^ Z.max 0 q * 2 ^ Z.max 0 (2 - e) in
  let b := 10 ^ Z.max 0 (- q) * 2 ^ Z.max 0 (e - 2) in
  let lo := if (m =? 2 ^ 52) && (emin <? e) then 4 * m - 1 else 4 * m - 2 in
  let hi := 4 * m + 2 in
  if Z.even m then (lo * b <=? a) && (a <=? hi * b) else (lo * b <? a) && (a <? hi * b).

(** The number of decimal digits in front of the point (negative for zeros
    behind it), searched upwards from an estimate. *)
Fixpoint decimal_point (fuel : nat) (num den dp : Z) : Z :=
  match fuel with
  | O => dp
  | S f =>
      if num * 10 ^ Z.max 0 (- dp) <? den * 10 ^ Z.max 0 dp then dp else decimal_point f num den (dp + 1)
  end.

(** The two decimals with [n] digits around [m * 2 ^ e]: the one below, the one
    above, and the nearer one if both read back. *)
Definition pick (m e num den dp n : Z) : option (Z * Z) :=
  let q := dp - n in
  let a := num * 10 ^ Z.max 0 (- q) in
  let b := den * 10 ^ Z.max 0 q in
  let down := a / b in
  match in_interval m e down q, in_interval m e (down + 1) q with
  | true, true =>
      let c := div_even a b in if in_interval m e c q then Some (c, q) else None
  | true, false => Some (down, q)
  | false, true => Some (down + 1, q)
  | false, false => None
  end.

Fixpoint shortest_from (fuel : nat) (m e num den dp n : Z) : option (Z * Z) :=
  match fuel with
  | O => None
  | S f =>
      match pick m e num den dp n with
      | Some r => Some r
      | None => shortest_from f m e num den dp (n + 1)
      end
  end.

Fixpoint strip_zeros (fuel : nat) (c q : Z) : Z * Z :=
  match fuel with
  | O => (c, q)
  | S f => if c mod 10 =? 0 then strip_zeros f (c / 10) (q + 1) else (c, q)
  end.

(** The shortest decimal that reads back as [m * 2 ^ e]: 17 digits are always
    enough; the exact decimal is the default. *)
Definition shortest (m e : Z) : Z * Z :=
  let num := m * 2 ^ Z.max 0 e in
  let den := 2 ^ Z.max 0 (- e) in
  let dp := decimal_point 8 num den (lead num den * 30103 / 100000 - 1) in
  match shortest_from 17 m e num den dp 1 with
  | Some (c, q) => strip_zeros 17 c q
  | None => if 0 <=? e then (m * 2 ^ e, 0) else (m * 5 ^ (- e), e)
  end.

Definition sign_text (s : bool) : bytes := if s then bs "-" else [].

Definition inf_text (s : bool) : bytes := if s then bs "-Inf" else bs "+Inf".

(** [strconv.FormatFloat(x, 'f', -1, 64)]. *)
Definition FormatFloat_short (x : float64) : bytes :=
  match x with
  | S754_nan => bs "NaN"
  | S754_infinity s => inf_text s
  | S754_zero s => sign_text s ++ bs "0"
  | S754_finite s m e => let '(c, q) := shortest (Zpos m) e in sign_text s ++ fmt_decimal c q
  end.

(** [fmt.Sprintf] with the verb f. *)
Definition FormatFloat_6 (x : float64) : bytes :=
  match x with
  | S754_nan => bs "NaN"
  | S754_infinity s => inf_text s
  | S754_zero s => sign_text s ++ bs "0.000000"
  | S754_finite s m e =>
      sign_text s ++
      fmt_decimal (div_even (Zpos m * 2 ^ Z.max 0 e * 10 ^ 6) (2 ^ Z.max 0 (- e))) (-6)
  end.

(* ===================================================================== *)
(** ** Comparison is a total order off NaN                               *)
(* ===================================================================== *)

(** Where a number lies on the line: its class and sign, then the exponent and
    the mantissa, in lexicographic order. *)
Definition fkey (x : float64) : Z * Z * Z :=
  match x with
  | S754_nan => (3, 0, 0)
  | S754_infinity s => (if s then -2 else 2, 0, 0)
  | S754_zero _ => (0, 0, 0)
  | S754_finite s m e => if s then (-1, - e, - Zpos m) else (1, e, Zpos m)
  end.

Definition klt (a b : Z * Z * Z) : Prop :=
  a.1.1 < b.1.1 \/ (a.1.1 = b.1.1 /\ (a.1.2 < b.1.2 \/ (a.1.2 = b.1.2 /\ a.2 < b.2))).

Lemma SFcompare_key x y :
  match SFcompare x y with
  | None => is_nan x = true \/ is_nan y = true
  | Some Lt => is_nan x = false /\ is_nan y = false /\ klt (fkey x) (fkey y)
  | Some Gt => is_nan x = false /\ is_nan y = false /\ klt (fkey y) (fkey x)
  | Some Eq => is_nan x = false /\ is_nan y = false /\ fkey x = fkey y
  end.
Proof.
  destruct x as [[]|[]| |[] m e], y as [[]|[]| |[] n f]; cbn; unfold klt; cbn; auto with lia;
    destruct (Z.compare_spec e f) as [->|H|H]; cbn; auto with lia;
    fold (Pos.compare m n); destruct (Pos.compare_spec m n) as [->|H|H]; cbn;
    repeat split; try done; try lia.
Qed.

Lemma klt_trans a b c : klt a b -> klt b c -> klt a c.
Proof. unfold klt. lia. Qed.

Lemma klt_irrefl a : ~ klt a a.
Proof. unfold klt. lia. Qed.

Lemma flt_iff x y : flt x y = true <-> is_nan x = false /\ is_nan y = false /\ klt (fkey x) (fkey y).
Proof.
  unfold flt, SFltb. pose proof (SFcompare_key x y) as H.
  destruct (SFcompare x y) as [[]|]; (split; [try done; naive_solver|]); try done.
  - intros (_ & _ & Hk). destruct H as (_ & _ & E). rewrite E in Hk. by apply klt_irrefl in Hk.
  - intros (_ & _ & Hk). destruct H as (_ & _ & E). destruct (klt_irrefl _ (klt_trans _ _ _ Hk E)).
  - intros (H1 & H2 & _). destruct H; congruence.
Qed.

Lemma flt_trans x y z : flt x y = true -> flt y z = true -> flt x z = true.
Proof. rewrite !flt_iff. intros (? & ? & ?) (? & ? & ?). eauto using klt_trans. Qed.

Lemma flt_irrefl x : flt x x = false.
Proof. apply not_true_iff_false. rewrite flt_iff. intros (_ & _ & H). by apply klt_irrefl in H. Qed.

Lemma flt_asym x y : flt x y = true -> flt y x = false.
Proof.
  intros H. apply not_true_iff_false. intros H'. pose proof (flt_trans _ _ _ H H') as E.
  by rewrite flt_irrefl in E.
Qed.

Lemma feq_iff x y : feq x y = true <-> is_nan x = false /\ is_nan y = false /\ fkey x = fkey y.
Proof.
  unfold feq, SFeqb. pose proof (SFcompare_key x y) as H.
  destruct (SFcompare x y) as [[]|]; (split; [try done; naive_solver|]); try done.
  - intros (_ & _ & E). destruct H as (_ & _ & Hk). rewrite E in Hk. by apply klt_irrefl in Hk.
  - intros (_ & _ & E). destruct H as (_ & _ & Hk). rewrite E in Hk. by apply klt_irrefl in Hk.
  - intros (H1 & H2 & _). destruct H; congruence.
Qed.

Lemma flt_nan_l x y : is_nan x = true -> flt x y = false.
Proof. intros H. apply not_true_iff_false. rewrite flt_iff. intros (E & _). congruence. Qed.

Lemma flt_nan_r x y : is_nan y = true -> flt x y = false.
Proof. intros H. apply not_true_iff_false. rewrite flt_iff. intros (_ & E & _). congruence. Qed.

(** Numbers are comparable. *)
Lemma flt_total x y : is_nan x = false -> is_nan y = false ->
  flt x y = true \/ flt y x = true \/ fkey x = fkey y.
Proof.
  intros Hx Hy. pose proof (SFcompare_key x y) as H. rewrite !flt_iff.
  destruct (SFcompare x y) as [[]|]; naive_solver congruence.
Qed.

(** Equal places on the line compare alike with everything. *)
Lemma flt_key_l x x' y : is_nan x = is_nan x' -> fkey x = fkey x' -> flt x y = flt x' y.
Proof. intros H1 H2. apply eq_true_iff_eq. by rewrite !flt_iff, H1, H2. Qed.

Lemma flt_key_r x y y' : is_nan y = is_nan y' -> fkey y = fkey y' -> flt x y = flt x y'.
Proof. intros H1 H2. apply eq_true_iff_eq. by rewrite !flt_iff, H1, H2. Qed.

(* ===================================================================== *)
(** ** Rounding to nearest                                               *)
(* ===================================================================== *)

Lemma div_even_unique n d m : 0 < d ->
  (2 * m - 1) * d <= 2 * n <= (2 * m + 1) * d ->
  (Z.even m = false -> (2 * m - 1) * d < 2 * n < (2 * m + 1) * d) ->
  div_even n d = m.
Proof.
  intros Hd Hb Hs. unfold div_even. pose proof (Z.div_mod n d). pose proof (Z.mod_pos_bound n d).
  set (q := n / d) in *. set (r := n mod d) in *.
  assert (Hn : n = d * q + r) by lia. assert (Hr : 0 <= r < d) by lia.
  assert (H1 : q <= m) by (apply Z.lt_succ_r, (Z.mul_lt_mono_pos_r d); nia).
  assert (H2 : m - 1 <= q) by (apply Z.lt_succ_r, (Z.mul_lt_mono_pos_r d); nia).
  assert (Hq : q = m \/ q = m - 1) by lia. clear H H0.
  destruct (Z.ltb_spec (2 * r) d), (Z.ltb_spec d (2 * r)); try nia.
  assert (2 * r = d) by lia. destruct Hq as [->|Hq].
  - destruct (Z.even m) eqn:E; [done|]. specialize (Hs eq_refl). nia.
  - rewrite Hq, Z.even_sub. destruct (Z.even m) eqn:E; cbn; [lia|]. specialize (Hs eq_refl). nia.
Qed.

Lemma div_even_bounds n d : 0 < d -> (2 * div_even n d - 1) * d <= 2 * n <= (2 * div_even n d + 1) * d.
Proof.
  intros Hd. unfold div_even. pose proof (Z.div_mod n d). pose proof (Z.mod_pos_bound n d).
  set (q := n / d) in *. set (r := n mod d) in *.
  destruct (Z.ltb_spec (2 * r) d), (Z.ltb_spec d (2 * r)); try nia. case_match; nia.
Qed.

Lemma pow2_pos p : 0 < 2 ^ Z.max 0 p.
Proof. apply Z.pow_pos_nonneg; lia. Qed.

(** Comparisons of quotients with powers of two, over a common scale [2 ^ K]. *)
Lemma scale_lt n d p K : 0 <= K -> 0 <= p + K ->
  n * 2 ^ Z.max 0 (- p) < d * 2 ^ Z.max 0 p <-> n * 2 ^ K < d * 2 ^ (p + K).
Proof.
  intros HK HpK.
  assert (E1 : 2 ^ K = 2 ^ Z.max 0 (- p) * 2 ^ (K - Z.max 0 (- p))) by (rewrite <- Z.pow_add_r by lia; f_equal; lia).
  assert (E2 : 2 ^ (p + K) = 2 ^ Z.max 0 p * 2 ^ (K - Z.max 0 (- p))) by (rewrite <- Z.pow_add_r by lia; f_equal; lia).
  assert (0 < 2 ^ (K - Z.max 0 (- p))) by (apply Z.pow_pos_nonneg; lia).
  rewrite E1, E2, !Z.mul_assoc. apply Z.mul_lt_mono_pos_r. done.
Qed.

Lemma scale_le n d p K : 0 <= K -> 0 <= p + K ->
  n * 2 ^ Z.max 0 (- p) <= d * 2 ^ Z.max 0 p <-> n * 2 ^ K <= d * 2 ^ (p + K).
Proof.
  intros HK HpK.
  assert (E1 : 2 ^ K = 2 ^ Z.max 0 (- p) * 2 ^ (K - Z.max 0 (- p))) by (rewrite <- Z.pow_add_r by lia; f_equal; lia).
  assert (E2 : 2 ^ (p + K) = 2 ^ Z.max 0 p * 2 ^ (K - Z.max 0 (- p))) by (rewrite <- Z.pow_add_r by lia; f_equal; lia).
  assert (0 < 2 ^ (K - Z.max 0 (- p))) by (apply Z.pow_pos_nonneg; lia).
  rewrite E1, E2, !Z.mul_assoc. apply Z.mul_le_mono_pos_r. done.
Qed.

(** [lead] is the exponent of the leading bit. *)
Lemma lead_spec n d K : 0 < n -> 0 < d -> 0 <= K -> 0 <= lead n d + K -> 
  d * 2 ^ (lead n d + K) <= n * 2 ^ K < d * 2 ^ (lead n d + K + 1).
Proof.
  intros Hn Hd HK. unfold lead, ratio_lt.
  pose proof (Z.log2_spec n Hn) as [Ln1 Ln2]. pose proof (Z.log2_spec d Hd) as [Ld1 Ld2].
  pose proof (Z.log2_nonneg n). pose proof (Z.log2_nonneg d).
  set (a := Z.log2 n) in *. set (b := Z.log2 d) in *. rewrite Z.pow_succ_r in Ln2, Ld2 by lia.
  set (k := a - b). intros HL.
  assert (Hk : 0 <= k + K) by (revert HL; case_match; lia).
  assert (Ea : forall c, 0 <= c -> 2 ^ (c + K) = 2 ^ c * 2 ^ K) by (intros; by rewrite Z.pow_add_r by lia).
  assert (Eab : 2 ^ b * 2 ^ (k + K) = 2 ^ (a + K)) by (rewrite <- Z.pow_add_r by lia; f_equal; lia).
  rewrite (Ea a) in Eab by lia. assert (0 < 2 ^ K) by (apply Z.pow_pos_nonneg; lia).
  assert (0 < 2 ^ (k + K)) by (apply Z.pow_pos_nonneg; lia).
  destruct (Z.ltb_spec (n * 2 ^ Z.max 0 (- k)) (d * 2 ^ Z.max 0 k)) as [Hlt|Hge].
  - apply (scale_lt n d k K) in Hlt; [|lia|lia]. 
    replace (k - 1 + K + 1) with (k + K) by lia. split; [|done].
    assert (Hhalf : 2 ^ (k + K) = 2 * 2 ^ (k - 1 + K)) by (rewrite <- Z.pow_succ_r by lia; f_equal; lia).
    apply Z.lt_le_incl, Z.lt_le_trans with (2 ^ a * 2 ^ K); [|by apply Z.mul_le_mono_nonneg_r; lia].
    rewrite <- Eab, Hhalf. nia.
  - pose proof (scale_le d n (- k) (k + K)) as Hs. rewrite Z.opp_involutive in Hs. apply Hs in Hge; [|lia|lia].
    replace (- k + (k + K)) with K in Hge by lia. split; [done|].
    rewrite (Z.pow_add_r 2 (k + K) 1) by lia. nia.
Qed.

Lemma pow2_split q K D : 0 <= q + K -> 0 <= D -> 2 ^ (q + (K + D)) = 2 ^ (q + K) * 2 ^ D.
Proof. intros. by rewrite Z.add_assoc, Z.pow_add_r by lia. Qed.

(** Bounds on [lead] from bounds on the quotient. *)
Lemma lead_lt n d p K : 0 < n -> 0 < d -> 0 <= K -> 0 <= p + K -> n * 2 ^ K < d * 2 ^ (p + K) -> lead n d < p.
Proof.
  intros Hn Hd HK HpK H. set (D := Z.abs (lead n d)).
  destruct (lead_spec n d (K + D) Hn Hd) as [L1 _]; [lia|lia|].
  pose proof (pow2_split 0 K D) as E0. rewrite !Z.add_0_l in E0. rewrite E0 in L1 by lia.
  assert (HP : 0 < 2 ^ D) by (apply Z.pow_pos_nonneg; lia).
  assert (Hc : d * 2 ^ (lead n d + (K + D)) < d * 2 ^ (p + (K + D))).
  { rewrite (pow2_split p) by lia. eapply Z.le_lt_trans; [exact L1|]. nia. }
  apply Z.mul_lt_mono_pos_l, Z.pow_lt_mono_r_iff in Hc; lia.
Qed.

Lemma lead_ge n d p K : 0 < n -> 0 < d -> 0 <= K -> 0 <= p + K -> d * 2 ^ (p + K) <= n * 2 ^ K -> p <= lead n d.
Proof.
  intros Hn Hd HK HpK H. set (D := Z.abs (lead n d)).
  destruct (lead_spec n d (K + D) Hn Hd) as [_ L2]; [lia|lia|].
  pose proof (pow2_split 0 K D) as E0. rewrite !Z.add_0_l in E0. rewrite E0 in L2 by lia.
  assert (HP : 0 < 2 ^ D) by (apply Z.pow_pos_nonneg; lia).
  assert (Hc : d * 2 ^ (p + (K + D)) < d * 2 ^ (lead n d + (K + D) + 1)).
  { rewrite (pow2_split p) by lia. eapply Z.le_lt_trans; [|exact L2]. nia. }
  apply Z.mul_lt_mono_pos_l, Z.pow_lt_mono_r_iff in Hc; lia.
Qed.

(** A mantissa and an exponent as [round_ratio] gives them: a full mantissa, or
    the smallest exponent. *)
Definition canonical (m e : Z) : Prop :=
  0 < m < 2 ^ 53 /\ emin <= e <= emax /\ (2 ^ 52 <= m \/ e = emin).

Definition valid (x : float64) : Prop :=
  match x with S754_finite _ m e => canonical (Zpos m) e | _ => True end.

(** [2 * num / den] against [z * 2 ^ e], over the scale [2 ^ K]. *)
Lemma mantissa_unique num den e m K : 0 < den -> 0 <= K -> 0 <= e + K ->
  (2 * m - 1) * (den * 2 ^ (e + K)) <= 2 * (num * 2 ^ K) <= (2 * m + 1) * (den * 2 ^ (e + K)) ->
  (Z.even m = false ->
   (2 * m - 1) * (den * 2 ^ (e + K)) < 2 * (num * 2 ^ K) < (2 * m + 1) * (den * 2 ^ (e + K))) ->
  mantissa num den e = m.
Proof.
  intros Hd HK HeK Hb Hs. unfold mantissa.
  assert (E1 : 2 ^ K = 2 ^ Z.max 0 (- e) * 2 ^ (K - Z.max 0 (- e))) by (rewrite <- Z.pow_add_r by lia; f_equal; lia).
  assert (E2 : 2 ^ (e + K) = 2 ^ Z.max 0 e * 2 ^ (K - Z.max 0 (- e))) by (rewrite <- Z.pow_add_r by lia; f_equal; lia).
  assert (HP : 0 < 2 ^ (K - Z.max 0 (- e))) by (apply Z.pow_pos_nonneg; lia).
  rewrite E1, E2 in Hb, Hs. pose proof (pow2_pos e). pose proof (pow2_pos (- e)).
  set (P := 2 ^ (K - Z.max 0 (- e))) in *. set (A := 2 ^ Z.max 0 (- e)) in *. set (B := 2 ^ Z.max 0 e) in *.
  apply div_even_unique; [nia| |].
  - split; apply (Z.mul_le_mono_pos_r _ _ P HP); [destruct Hb as [Hb _]|destruct Hb as [_ Hb]];
      (etrans; [|etrans; [exact Hb|]]); lia.
  - intros Hm. specialize (Hs Hm). split; apply (Z.mul_lt_mono_pos_r P _ _ HP);
      [destruct Hs as [Hs _]|destruct Hs as [_ Hs]]; lia.
Qed.

(** Whatever lies in the rounding interval of [m * 2 ^ e] is rounded to it.
    [u] is a quarter of the last bit, over the scale [2 ^ K]. *)
Lemma round_ratio_interval m e num den K : canonical m e -> 0 < num -> 0 < den -> 2 <= e + K -> 2 <= K ->
  let u := den * 2 ^ (e - 2 + K) in
  let lo := if (m =? 2 ^ 52) && (emin <? e) then 4 * m - 1 else 4 * m - 2 in
  lo * u <= num * 2 ^ K <= (4 * m + 2) * u ->
  (Z.even m = false -> lo * u < num * 2 ^ K < (4 * m + 2) * u) ->
  round_ratio num den = (m, e).
Proof.
  intros (Hm & He & Hc) Hn Hd HeK HK u lo Hb Hs.
  assert (Hu : forall j, 0 <= j -> den * 2 ^ (e - 2 + K + j) = 2 ^ j * u)
    by (intros; unfold u; rewrite Z.pow_add_r by lia; ring).
  assert (0 < u) by (unfold u; apply Z.mul_pos_pos; [done|]; apply Z.pow_pos_nonneg; lia).
  assert (Hup : lead num den < e + 53).
  { apply (lead_lt _ _ _ K); [lia..|]. replace (e + 53 + K) with (e - 2 + K + 55) by lia. rewrite Hu by lia.
    assert ((4 * m + 2) * u < 2 ^ 55 * u) by (apply Z.mul_lt_mono_pos_r; lia). lia. }
  unfold round_ratio. destruct (decide (m = 2 ^ 52 /\ emin < e /\ num * 2 ^ K < 2 ^ 54 * u)) as [(E & Hlt & Hx)|Hcase].
  - assert (Hl : lead num den = e + 51).
    { apply Z.le_antisymm.
      - apply Z.lt_succ_r, (lead_lt _ _ _ K); [lia..|]. replace (Z.succ (e + 51) + K) with (e - 2 + K + 54) by lia.
        by rewrite Hu.
      - apply (lead_ge _ _ _ K); [lia..|]. replace (e + 51 + K) with (e - 2 + K + 53) by lia. rewrite Hu by lia.
        assert (2 ^ 53 * u <= lo * u); [|lia]. apply Z.mul_le_mono_nonneg_r; [lia|]. unfold lo. case_match; lia. }
    rewrite Hl, Z.max_r by lia. rewrite (mantissa_unique _ _ _ (2 ^ 53) K); [|lia..| |done].
    + rewrite Z.eqb_refl, E. f_equal. lia.
    + replace (e + 51 - 52 + K) with (e - 2 + K + 1) by lia. rewrite Hu by lia.
      revert Hb. unfold lo. rewrite E, Z.eqb_refl. zb. lia.
  - assert (Hl : Z.max emin (lead num den - 52) = e).
    { destruct Hc as [Hc|Hc]; [|lia]. destruct (decide (e = emin)) as [|Hne]; [lia|].
      assert (e + 52 <= lead num den); [|lia]. apply (lead_ge _ _ _ K); [lia..|].
      replace (e + 52 + K) with (e - 2 + K + 54) by lia. rewrite Hu by lia.
      destruct (decide (m = 2 ^ 52)); [lia|]. assert (2 ^ 54 * u <= lo * u); [|lia].
      apply Z.mul_le_mono_nonneg_r; [lia|]. unfold lo. case_match; lia. }
    rewrite Hl. assert (Hlo : (4 * m - 2) * u <= lo * u) by (apply Z.mul_le_mono_nonneg_r; [lia|]; unfold lo; case_match; lia).
    rewrite (mantissa_unique _ _ _ m K); [by zb|lia..| |].
    + replace (e + K) with (e - 2 + K + 2) by lia. rewrite Hu by lia. lia.
    + intros Ho. specialize (Hs Ho). replace (e + K) with (e - 2 + K + 2) by lia. rewrite Hu by lia. lia.
Qed.

Lemma round_ratio_shape num den m e : 0 < num -> 0 < den -> round_ratio num den = (m, e) ->
  0 <= m < 2 ^ 53 /\ emin <= e /\ (2 ^ 52 <= m \/ e = emin).
Proof.
  intros Hn Hd. unfold round_ratio. set (e0 := Z.max emin (lead num den - 52)).
  pose proof (div_even_bounds (num * 2 ^ Z.max 0 (- e0)) (den * 2 ^ Z.max 0 e0)) as Hb.
  fold (mantissa num den e0) in Hb. set (m0 := mantissa num den e0) in *.
  pose proof (pow2_pos e0). assert (Hd' : 0 < den * 2 ^ Z.max 0 e0) by nia. specialize (Hb Hd').
  assert (HK : Z.max 0 e0 = e0 + Z.max 0 (- e0)) by lia. rewrite HK in Hb, Hd'.
  set (K := Z.max 0 (- e0)) in *. set (d := den * 2 ^ (e0 + K)) in *.
  assert (Hd2 : den * 2 ^ (e0 + 53 + K) = 2 ^ 53 * d /\ den * 2 ^ (e0 + 52 + K) = 2 ^ 52 * d).
  { unfold d. replace (e0 + 53 + K) with (53 + (e0 + K)) by lia. replace (e0 + 52 + K) with (52 + (e0 + K)) by lia.
    rewrite !(Z.pow_add_r 2 _ (e0 + K)) by lia. split; ring. }
  assert (Hup : num * 2 ^ K < 2 ^ 53 * d).
  { rewrite <- (proj1 Hd2). apply Z.nle_gt. intros Hc. apply lead_ge in Hc; lia. }
  assert (Hm : 0 <= m0 <= 2 ^ 53).
  { assert (0 <= num * 2 ^ K) by (apply Z.mul_nonneg_nonneg; [lia|]; apply Z.pow_nonneg; lia).
    split; [|apply Z.lt_succ_r]; apply (Z.mul_lt_mono_pos_r (2 * d)) || apply Z.lt_succ_r, (Z.mul_lt_mono_pos_r (2 * d)); lia. }
  assert (Hlow : emin <= lead num den - 52 -> 2 ^ 52 <= m0).
  { intros Hl. assert (2 ^ 52 * d <= num * 2 ^ K).
    { rewrite <- (proj2 Hd2). apply Z.nlt_ge. intros Hc. apply lead_lt in Hc; lia. }
    apply Z.lt_succ_r, (Z.mul_lt_mono_pos_r (2 * d)); lia. }
  destruct (Z.eqb_spec m0 (2 ^ 53)); intros [= <- <-]; lia.
Qed.

Lemma of_ratio_valid s num den : 0 < den -> valid (of_ratio s num den).
Proof.
  intros Hd. unfold of_ratio. destruct (Z.leb_spec num 0); [done|].
  destruct (round_ratio num den) as [m e] eqn:E. destruct (round_ratio_shape _ _ _ _ H Hd E) as (? & ? & ?).
  destruct m as [|p|p]; [done| |done]. destruct (Z.ltb_spec emax e); [done|]. cbn. unfold canonical. lia.
Qed.

Lemma pow10_pos p : 0 < 10 ^ Z.max 0 p.
Proof. apply Z.pow_pos_nonneg; lia. Qed.

Lemma of_ratio_interval s m e c q : canonical (Zpos m) e -> 0 < c -> in_interval (Zpos m) e c q = true ->
  of_ratio s (c * 10 ^ Z.max 0 q) (10 ^ Z.max 0 (- q)) = S754_finite s m e.
Proof.
  intros Hc Hpos Hi. pose proof (pow10_pos q). pose proof (pow10_pos (- q)).
  set (num := c * 10 ^ Z.max 0 q) in *. set (den := 10 ^ Z.max 0 (- q)) in *.
  assert (Hn : 0 < num) by (unfold num; nia). set (K := 2 + Z.abs e).
  assert (Hle : forall z, z * (den * 2 ^ Z.max 0 (e - 2)) <= num * 2 ^ Z.max 0 (2 - e) <-> z * (den * 2 ^ (e - 2 + K)) <= num * 2 ^ K).
  { intros z. pose proof (scale_le (z * den) num (2 - e) (e - 2 + K)) as Hz.
    replace (- (2 - e)) with (e - 2) in Hz by lia. replace (2 - e + (e - 2 + K)) with K in Hz by lia.
    rewrite !Z.mul_assoc. apply Hz; lia. }
  assert (Hge : forall z, num * 2 ^ Z.max 0 (2 - e) <= z * (den * 2 ^ Z.max 0 (e - 2)) <-> num * 2 ^ K <= z * (den * 2 ^ (e - 2 + K))).
  { intros z. pose proof (scale_le num (z * den) (e - 2) K) as Hz. replace (- (e - 2)) with (2 - e) in Hz by lia.
    rewrite !Z.mul_assoc. apply Hz; lia. }
  assert (Er : round_ratio num den = (Zpos m, e)).
  { apply (round_ratio_interval _ _ _ _ K); [done|done|done|lia|lia| |]; unfold in_interval in Hi; fold num den in Hi;
      set (lo := if _ && _ then _ else _) in *.
    - destruct (Z.even (Zpos m)); apply andb_prop in Hi as [H1 H2]; rewrite <- Hle, <- Hge; lia.
    - intros Ho. rewrite Ho in Hi. apply andb_prop in Hi as [H1%Z.ltb_lt H2%Z.ltb_lt].
      rewrite <- Z.nle_gt, <- Hge, <- (Z.nle_gt _ (num * _)), <- Hle. lia. }
  unfold of_ratio. zb. rewrite Er. destruct Hc as (_ & He & _). by zb.
Qed.

(* ===================================================================== *)
(** ** Reading back what was written                                     *)
(* ===================================================================== *)

Lemma fixed_digits_parse k n acc a : 0 <= n < 10 ^ Z.of_nat k ->
  parse_digits a (fixed_digits k n acc) = parse_digits (a * 10 ^ Z.of_nat k + n) acc.
Proof.
  revert n acc. induction k as [|k IH]; intros n acc Hn; cbn [fixed_digits].
  { f_equal. change (10 ^ Z.of_nat 0) with 1 in *. lia. }
  rewrite Nat2Z.inj_succ, Z.pow_succ_r in * by lia.
  pose proof (Z.mod_pos_bound n 10). pose proof (Z.div_mod n 10).
  rewrite IH by (split; [apply Z.div_pos; lia|apply Z.div_lt_upper_bound; lia]).
  cbn [parse_digits]. rewrite is_digit_char, digit_val_char by lia. f_equal. nia.
Qed.

Lemma fixed_digits_length k n acc : length (fixed_digits k n acc) = (k + length acc)%nat.
Proof. revert n acc. induction k as [|k IH]; intros n acc; cbn; [done|]. rewrite IH. cbn. lia. Qed.

Lemma parse_digits_all a s v : parse_digits a s = Some v -> Forall (fun c => is_digit c = true) s.
Proof.
  revert a. induction s as [|c s IH]; intros a; cbn; [by constructor|].
  destruct (is_digit c) eqn:E; [|done]. intros H. constructor; eauto.
Qed.

Lemma read_mant_digits s rest a v f dot sd : parse_digits a s = Some v ->
  read_mant false (mkMant a f dot sd) (s ++ rest) =
  read_mant false (mkMant v (if dot then f + zlen s else f) dot (sd || negb (bool_decide (s = [])))) rest.
Proof.
  revert a f sd. induction s as [|c s IH]; intros a f sd; cbn [parse_digits app].
  { intros [= ->]. rewrite zlen_nil, Z.add_0_r, orb_false_r. by destruct dot. }
  destruct (is_digit c) eqn:E; [|done]. intros H. cbn [read_mant digit_of mant frac sawdot sawdigits].
  rewrite !bool_decide_false by (intros ->; done). rewrite E.
  rewrite IH by done. f_equal. rewrite zlen_cons, orb_true_r. destruct dot; f_equal; try lia; by rewrite ?orb_true_r.
Qed.

(** What [fmt_decimal] writes: digits and points. *)
Definition plain (c : byte) : bool := is_digit c || bool_decide (c = "."%char).

Lemma plain_not c d : plain d = false -> plain c = true -> c <> d.
Proof. congruence. Qed.

Lemma underscores_plain hex saw s : saw <> 1 -> Forall (fun c => plain c = true) s -> underscores hex saw s = true.
Proof.
  intros Hs H. revert saw Hs. induction H as [|c s Hc _ IH]; intros saw Hs; cbn [underscores]; [lia|].
  case_match; [by apply IH|]. rewrite bool_decide_false by (by apply plain_not). rewrite IH by done. lia.
Qed.

Lemma cut_prefix_plain s : Forall (fun c => plain c = true) s -> cut_prefix s = None.
Proof.
  intros H. destruct s as [|a [|b [|c s]]]; try (by unfold cut_prefix; repeat case_match).
  apply Forall_cons in H as [_ [H _]%Forall_cons].
  assert (E : bool_decide (lower_byte b = "x"%char) = false).
  { apply bool_decide_eq_false. revert H. destruct b as [[] [] [] [] [] [] [] []]; by vm_compute. }
  unfold cut_prefix. rewrite E. by repeat case_match.
Qed.

(** A text that starts with a digit names no special value. *)
Lemma special_digit c s : is_digit c = true -> special (c :: s) = None /\ special ("-"%char :: c :: s) = None.
Proof.
  intros H. assert (Hl : lower_byte c = c).
  { unfold lower_byte, is_digit in *. destruct (Z.leb_spec 65 (byteval c)); [|done]. lia. }
  unfold special, beq. cbn [map]. rewrite Hl.
  assert (Hne : forall d, is_digit d = false -> c <> d) by congruence.
  cbn [bs list_ascii_of_string]. split; repeat match goal with
  | |- context [bool_decide (c :: ?l = ?r)] =>
      rewrite (bool_decide_false (c :: l = r)) by (intros E; apply (f_equal head) in E; injection E as E; revert E; by apply Hne)
  | |- context [bool_decide (c = ?r)] => rewrite (bool_decide_false (c = r)) by (by apply Hne)
  | |- context [bool_decide (lower_byte "-" :: ?l = ?r)] =>
      rewrite (bool_decide_false (lower_byte "-" :: l = r)) by (intros E; by apply (f_equal head) in E)
  end; cbn [andb orb]; rewrite ?andb_false_r; by repeat case_match.
Qed.

Lemma fmt_decimal_plain c q : exists d s, fmt_decimal c q = d :: s /\ is_digit d = true /\
  Forall (fun c => plain c = true) (fmt_decimal c q).
Proof.
  assert (Hd : forall l, Forall (fun c => is_digit c = true) l -> Forall (fun c => plain c = true) l).
  { intros l H. eapply Forall_impl; [exact H|]. intros x Hx. unfold plain. by rewrite Hx. }
  unfold fmt_decimal. destruct (0 <=? q).
  - destruct (FormatNat_cons (c * 10 ^ q)) as (d & s & E & H). exists d, s. split; [done|]. split; [done|].
    apply Hd, FormatNat_digits.
  - destruct (FormatNat_cons (c / 10 ^ (- q))) as (d & s & E & H). rewrite E. exists d. eexists. split; [reflexivity|].
    split; [done|].
    rewrite <- E. apply Forall_app. split; [apply Hd, FormatNat_digits|]. apply Forall_cons. split; [done|]. apply Hd.
    assert (Hf : forall k n acc, Forall (fun c => is_digit c = true) acc ->
      Forall (fun c => is_digit c = true) (fixed_digits k n acc)); [|by apply Hf].
    induction k as [|k IH]; intros n acc Ha; cbn; [done|]. apply IH. constructor; [|done].
    apply is_digit_char, Z.mod_pos_bound. lia.
Qed.

Lemma fmt_decimal_read c q : 0 <= c ->
  exists dot, read_mant false (mkMant 0 0 false false) (fmt_decimal c q) =
    (mkMant (if 0 <=? q then c * 10 ^ q else c) (if 0 <=? q then 0 else - q) dot true, []).
Proof.
  intros Hc. assert (Hp : forall n, 0 <= n -> parse_digits 0 (FormatNat n) = Some n).
  { intros n Hn. pose proof (parse_FormatNat n Hn) as H. unfold parse_nat in H. by destruct (FormatNat n). }
  unfold fmt_decimal. destruct (Z.leb_spec 0 q).
  - exists false. rewrite <- (app_nil_r (FormatNat _)), (read_mant_digits _ _ _ (c * 10 ^ q)).
    + rewrite bool_decide_false by apply FormatNat_ne. done.
    + apply Hp, Z.mul_nonneg_nonneg; [done|]. apply Z.pow_nonneg. lia.
  - exists true. assert (0 < 10 ^ (- q)) by (apply Z.pow_pos_nonneg; lia).
    rewrite (read_mant_digits _ _ _ (c / 10 ^ (- q))) by (apply Hp, Z.div_pos; lia).
    rewrite bool_decide_false by apply FormatNat_ne. cbn [read_mant negb orb sawdot mant frac sawdigits].
    rewrite bool_decide_false, bool_decide_true by done.
    rewrite <- (app_nil_r (fixed_digits _ _ _)), (read_mant_digits _ _ _ c).
    + cbn [read_mant orb]. unfold zlen. rewrite fixed_digits_length. cbn [length]. do 2 f_equal. lia.
    + rewrite fixed_digits_parse.
      * cbn [parse_digits]. f_equal. rewrite Z2Nat.id by lia. pose proof (Z.div_mod c (10 ^ (- q))). lia.
      * rewrite Z2Nat.id by lia. apply Z.mod_pos_bound. lia.
Qed.

(** Reading a decimal gives the rounded quotient. *)
Lemma ParseFloat_decimal s c q : 0 <= c ->
  ParseFloat (sign_text s ++ fmt_decimal c q) =
  in_range (of_ratio s (c * 10 ^ Z.max 0 q) (10 ^ Z.max 0 (- q))).
Proof.
  intros Hc. destruct (fmt_decimal_plain c q) as (d & t & E & Hd & Hp).
  destruct (fmt_decimal_read c q Hc) as [dot Hr].
  assert (Hsp : special (sign_text s ++ fmt_decimal c q) = None).
  { rewrite E. destruct s; by apply special_digit. }
  assert (Hsign : cut_sign (sign_text s ++ fmt_decimal c q) = (s, fmt_decimal c q)).
  { destruct s; [done|]. cbn [sign_text app]. rewrite E. destruct (digit_not_sign d Hd) as [H1 H2].
    unfold cut_sign. by rewrite !bool_decide_false by done. }
  unfold ParseFloat. rewrite Hsp, Hsign, cut_prefix_plain, Hr by done. cbn [sawdigits negb exponent mant frac].
  rewrite underscores_plain by done.
  destruct (Z.leb_spec 0 q).
  - rewrite (Z.max_r 0 q), (Z.max_l 0 (- q)) by lia. change (Z.max 0 (0 - 0)) with 0.
    change (Z.max 0 (- (0 - 0))) with 0. by rewrite Z.pow_0_r, Z.mul_1_r.
  - replace (0 - - q) with q by lia. done.
Qed.

Lemma in_interval_exact m e c q : canonical m e ->
  c * 10 ^ Z.max 0 q * 2 ^ Z.max 0 (- e) = m * 2 ^ Z.max 0 e * 10 ^ Z.max 0 (- q) -> in_interval m e c q = true.
Proof.
  intros (Hm & _) E. unfold in_interval. pose proof (pow10_pos (- q)).
  assert (Hp2 : 2 ^ Z.max 0 (2 - e) * 2 ^ Z.max 0 e = 4 * (2 ^ Z.max 0 (- e) * 2 ^ Z.max 0 (e - 2))).
  { change 4 with (2 ^ 2). rewrite <- !Z.pow_add_r by lia. f_equal. lia. }
  pose proof (pow2_pos e). pose proof (pow2_pos (- e)). pose proof (pow2_pos (e - 2)). pose proof (pow2_pos (2 - e)).
  set (A := 2 ^ Z.max 0 e) in *. set (B := 2 ^ Z.max 0 (- e)) in *. set (C := 2 ^ Z.max 0 (2 - e)) in *.
  set (D := 2 ^ Z.max 0 (e - 2)) in *. set (T := 10 ^ Z.max 0 (- q)) in *. set (x := c * 10 ^ Z.max 0 q) in *.
  assert (Ex : x * C = 4 * m * (T * D)).
  { apply (Z.mul_reg_r _ _ (A * B)); [nia|].
    transitivity ((x * B) * (C * A)); [ring|]. rewrite E, Hp2. ring. }
  rewrite Ex. assert (0 < T * D) by nia. set (b := T * D) in *.
  set (lo := if (m =? 2 ^ 52) && (emin <? e) then 4 * m - 1 else 4 * m - 2).
  assert (lo < 4 * m) by (unfold lo; case_match; lia).
  destruct (Z.even m); apply andb_true_intro; split; try apply Z.leb_le; try apply Z.ltb_lt; nia.
Qed.

Lemma pick_interval m e num den dp n c q : pick m e num den dp n = Some (c, q) -> in_interval m e c q = true.
Proof.
  unfold pick. cbv zeta. set (down := _ / _).
  destruct (in_interval m e down _) eqn:E1, (in_interval m e (down + 1) _) eqn:E2.
  - case_match eqn:E; [|done]. by intros [= <- <-].
  - by intros [= <- <-].
  - by intros [= <- <-].
  - done.
Qed.

Lemma shortest_from_interval fuel m e num den dp n c q :
  shortest_from fuel m e num den dp n = Some (c, q) -> in_interval m e c q = true.
Proof.
  revert n. induction fuel as [|f IH]; intros n; cbn [shortest_from]; [done|].
  destruct (pick _ _ _ _ _ _) as [[]|] eqn:E; [|apply IH]. intros [= <- <-]. by eapply pick_interval.
Qed.

Lemma in_interval_pos m e c q : 0 < m -> in_interval m e c q = true -> 0 < c.
Proof.
  intros Hm Hi. apply Z.nle_gt. intros Hc. unfold in_interval in Hi.
  pose proof (pow10_pos q). pose proof (pow10_pos (- q)). pose proof (pow2_pos (2 - e)). pose proof (pow2_pos (e - 2)).
  set (lo := if _ && _ then _ else _) in *. assert (0 < lo) by (clear Hi; unfold lo; case_match; lia).
  set (b := 10 ^ Z.max 0 (- q) * 2 ^ Z.max 0 (e - 2)) in *. assert (0 < b) by (unfold b; nia).
  assert (c * 10 ^ Z.max 0 q * 2 ^ Z.max 0 (2 - e) <= 0)
    by (apply Z.mul_nonpos_nonneg; [apply Z.mul_nonpos_nonneg|]; lia).
  destruct (Z.even m); apply andb_prop in Hi as [Hi _]; nia.
Qed.

(** Dropping trailing zeros keeps the value, so the interval too. *)
Lemma in_interval_shift m e c q : c mod 10 = 0 -> in_interval m e (c / 10) (q + 1) = in_interval m e c q.
Proof.
  intros Hc. assert (Ec : c = 10 * (c / 10)) by (pose proof (Z.div_mod c 10); lia).
  set (c' := c / 10) in *. rewrite Ec. unfold in_interval. cbv zeta. set (lo := if _ && _ then _ else _).
  set (A := 2 ^ Z.max 0 (2 - e)). set (B := 2 ^ Z.max 0 (e - 2)). pose proof (pow10_pos q). pose proof (pow10_pos (- q)).
  destruct (Z.leb_spec 0 q).
  - replace (Z.max 0 (q + 1)) with (Z.succ (Z.max 0 q)) by lia. rewrite Z.pow_succ_r by lia.
    replace (Z.max 0 (- (q + 1))) with (Z.max 0 (- q)) by lia. by replace (c' * (10 * 10 ^ Z.max 0 q)) with (10 * c' * 10 ^ Z.max 0 q) by ring.
  - replace (Z.max 0 (q + 1)) with (Z.max 0 q) by lia. replace (Z.max 0 (- q)) with (Z.succ (Z.max 0 (- (q + 1)))) by lia.
    rewrite Z.pow_succ_r by lia. set (P := 10 ^ Z.max 0 q). set (T := 10 ^ Z.max 0 (- (q + 1))).
    replace (10 * c' * P * A) with (10 * (c' * P * A)) by ring.
    replace (lo * (10 * T * B)) with (10 * (lo * (T * B))) by ring.
    replace ((4 * m + 2) * (10 * T * B)) with (10 * ((4 * m + 2) * (T * B))) by ring.
    set (x := c' * P * A). set (y := lo * (T * B)). set (z := (4 * m + 2) * (T * B)).
    destruct (Z.even m); f_equal; apply eq_true_iff_eq; rewrite ?Z.leb_le, ?Z.ltb_lt; lia.
Qed.

Lemma strip_zeros_interval fuel m e c q c' q' : strip_zeros fuel c q = (c', q') ->
  in_interval m e c' q' = in_interval m e c q.
Proof.
  revert c q. induction fuel as [|f IH]; intros c q; cbn [strip_zeros]; [by intros [= <- <-]|].
  destruct (Z.eqb_spec (c mod 10) 0); [|by intros [= <- <-]]. intros H. rewrite (IH _ _ H). by apply in_interval_shift.
Qed.

Lemma shortest_interval m e c q : canonical m e -> shortest m e = (c, q) -> in_interval m e c q = true.
Proof.
  intros Hc. unfold shortest. cbv zeta. destruct (shortest_from _ _ _ _ _ _ _) as [[c0 q0]|] eqn:E.
  - intros H. rewrite (strip_zeros_interval _ _ _ _ _ _ _ H). by eapply shortest_from_interval.
  - destruct (Z.leb_spec 0 e); intros [= <- <-]; apply in_interval_exact; try done.
    + rewrite (Z.max_r 0 e), (Z.max_l 0 (- e)) by lia. change (Z.max 0 (- 0)) with 0. change (Z.max 0 0) with 0. ring.
    + rewrite (Z.max_l 0 e), (Z.max_r 0 (- e)) by lia. rewrite !Z.mul_1_r.
      rewrite <- Z.mul_assoc, <- Z.pow_mul_l. done.
Qed.

(** What [FormatFloat] writes [ParseFloat] reads back, bit by bit. *)
Lemma ParseFloat_FormatFloat x : valid x -> ParseFloat (FormatFloat_short x) = Some x.
Proof.
  destruct x as [s|s| |s m e]; intros Hv; [by destruct s|by destruct s|done|].
  unfold FormatFloat_short. destruct (shortest (Zpos m) e) as [c q] eqn:E.
  pose proof (shortest_interval _ _ _ _ Hv E) as Hi. pose proof (in_interval_pos _ _ _ _ (Pos2Z.is_pos m) Hi).
  rewrite ParseFloat_decimal by lia. by rewrite (of_ratio_interval s m e c q).
Qed.

Lemma ParseFloat_valid s x : ParseFloat s = Some x -> valid x.
Proof.
  unfold ParseFloat. destruct (special s) as [y|] eqn:E.
  { intros [= <-]. unfold special in E. repeat case_match; by simplify_eq. }
  destruct (cut_sign s) as [neg s0]. destruct (cut_prefix s0) as [s1|];
  destruct (read_mant _ _ _) as [st s2]; case_match; try done; case_match; try done; case_match; case_match; try done;
    case_match; try done; cbv zeta.
  all: match goal with |- context [of_ratio ?a ?b ?d] => pose proof (of_ratio_valid a b d) as Hv; destruct (of_ratio a b d) end;
    intros [= <-]; apply Hv; first [apply pow2_pos|apply pow10_pos].
Qed.

Lemma fadd_valid x y : valid x -> valid y -> valid (fadd x y).
Proof.
  intros Hx Hy. destruct x as [s|s| |s m e], y as [t|t| |t n f]; cbn [fadd]; try done; try (by destruct (eqb s t)).
  case_match; [done|]. apply of_ratio_valid, pow2_pos.
Qed.
