(* ===== verification/Config.v ===== *)
(** * Config: the configuration of the server (src/config/config.go)

    The configuration file, the JSON file of a cluster node and the checks of
    [Setup]. [Fields] and [ParseIP] are what the code uses of the packages strings
    and net (as of Go 1.19); the command line is the list of the flags that are set
    on it. A file that cannot be opened is [None], other errors of the disk are not
    modelled, [log.Fatal] is a panic. *)

From S2P Require Import Prelude Strconv Floats Utf8 Json.

(* ===================================================================== *)
(** ** strings.Fields                                                    *)
(* ===================================================================== *)

(** [unicode.IsSpace] *)
Definition IsSpace (r : Z) : bool :=
  (r =? 9) || (r =? 10) || (r =? 11) || (r =? 12) || (r =? 13) || (r =? 32) || (r =? 0x85) || (r =? 0xA0) ||
  (r =? 0x1680) || ((0x2000 <=? r) && (r <=? 0x200a)) || (r =? 0x2028) || (r =? 0x2029) || (r =? 0x202f) ||
  (r =? 0x205f) || (r =? 0x3000).

(** The field that is being read, and the ones before it. *)
Definition fields_step '((cur, fs) : bytes * list bytes) '((r, b) : Z * bytes) : bytes * list bytes :=
  if IsSpace r then ([], if zlen cur =? 0 then fs else fs ++ [cur]) else (cur ++ b, fs).

Definition Fields (s : bytes) : list bytes :=
  let '(cur, fs) := fold_left fields_step (runes s) ([], []) in
  if zlen cur =? 0 then fs else fs ++ [cur].

(* ===================================================================== *)
(** ** net.ParseIP                                                       *)
(* ===================================================================== *)

Definition big : Z := 0xFFFFFF.

(** [dtoi] and [xtoi]: a number, the rest, and how many bytes were read. *)
Fixpoint toi_loop (digit : byte -> option Z) (base n : Z) (i : nat) (s : bytes) : option (Z * nat * bytes) :=
  match s with
  | [] => if (i =? 0)%nat then None else Some (n, i, s)
  | c :: s' =>
    match digit c with
    | None => if (i =? 0)%nat then None else Some (n, i, s)
    | Some d => if big <=? n * base + d then None else toi_loop digit base (n * base + d) (S i) s'
    end
  end.

Definition dtoi (s : bytes) : option (Z * nat * bytes) :=
  toi_loop (fun c => if is_digit c then Some (digit_val c) else None) 10 0 0 s.

Definition xtoi (s : bytes) : option (Z * nat * bytes) := toi_loop hexval 16 0 0 s.

(** [parseIPv4]: [k] octets follow, the first of them after a dot if [dot]. *)
Fixpoint parseIPv4_loop (k : nat) (dot : bool) (s : bytes) : bool :=
  match k with
  | O => zlen s =? 0
  | S k =>
    match s with
    | [] => false
    | c :: s' =>
      if dot && negb (bool_decide (c = "."%char)) then false
      else
        let s := if dot then s' else s in
        match dtoi s with
        | None => false
        | Some (n, i, rest) =>
          if 0xFF <? n then false
          else if (1 <? i)%nat && bool_decide (head s = Some "0"%char) then false
          else parseIPv4_loop k true rest
        end
    end
  end.

Definition parseIPv4 (s : bytes) : bool := parseIPv4_loop 4 false s.

(** [parseIPv6] after the leading ellipsis: [i] bytes of the address are known,
    [ellipsis] tells whether one was seen; [k] bounds the rounds. *)
Fixpoint parseIPv6_loop (k : nat) (i : Z) (ellipsis : bool) (s : bytes) : bool :=
  let finish i ellipsis s := (zlen s =? 0) && (if i <? 16 then ellipsis else negb ellipsis) in
  match k with
  | O => finish i ellipsis s
  | S k =>
    if 16 <=? i then finish i ellipsis s
    else
      match xtoi s with
      | None => false
      | Some (n, _, rest) =>
        if 0xFFFF <? n then false
        else if bool_decide (head rest = Some "."%char) then
          if negb ellipsis && negb (i =? 12) then false
          else if 16 <? i + 4 then false
          else if parseIPv4 s then finish (i + 4) ellipsis [] else false
        else
          let i := i + 2 in
          match rest with
          | [] => finish i ellipsis []
          | c :: rest =>
            if negb (bool_decide (c = ":"%char)) || (zlen rest =? 0) then false
            else if bool_decide (head rest = Some ":"%char) then
              if ellipsis then false
              else if zlen (tail rest) =? 0 then finish i true []
              else parseIPv6_loop k i true (tail rest)
            else parseIPv6_loop k i ellipsis rest
          end
      end
  end.

Definition parseIPv6 (s : bytes) : bool :=
  if bool_decide (take 2 s = bs "::") then
    let s := drop 2 s in
    if zlen s =? 0 then true else parseIPv6_loop 9 0 true s
  else parseIPv6_loop 9 0 false s.

(** Whether the result is an address, not nil. *)
Definition ParseIP (s : bytes) : bool :=
  match List.find (fun c => bool_decide (c = "."%char) || bool_decide (c = ":"%char)) s with
  | None => false
  | Some c => if bool_decide (c = "."%char) then parseIPv4 s else parseIPv6 s
  end.

(* ===================================================================== *)
(** ** The configuration                                                 *)
(* ===================================================================== *)

(** A value of [Others]: a string of the configuration file or a value of JSON. *)
Inductive any : Type :=
| AString (s : bytes)
| AJson (v : json).

Record Config : Type := mkConfig {
  ConfFile : bytes;
  Host : bytes;
  Port : Z;
  LogDir : bytes;
  LogLevel : bytes;
  ShardNum : Z;
  ChanBufferSize : Z;
  Databases : Z;
  Others : option (gmap bytes any);
  ClusterConfigPath : bytes;
  IsCluster : bool;
  PeerAddrs : bytes;
  PeerIDs : bytes;
  RaftAddr : bytes;
  NodeID : Z;
  KVPort : Z;
  JoinCluster : bool
}.

Definition set_ConfFile (v : bytes) (c : Config) : Config :=
  mkConfig v (Host c) (Port c) (LogDir c) (LogLevel c) (ShardNum c) (ChanBufferSize c) (Databases c) (Others c)
    (ClusterConfigPath c) (IsCluster c) (PeerAddrs c) (PeerIDs c) (RaftAddr c) (NodeID c) (KVPort c) (JoinCluster c).
Definition set_Host (v : bytes) (c : Config) : Config :=
  mkConfig (ConfFile c) v (Port c) (LogDir c) (LogLevel c) (ShardNum c) (ChanBufferSize c) (Databases c) (Others c)
    (ClusterConfigPath c) (IsCluster c) (PeerAddrs c) (PeerIDs c) (RaftAddr c) (NodeID c) (KVPort c) (JoinCluster c).
Definition set_Port (v : Z) (c : Config) : Config :=
  mkConfig (ConfFile c) (Host c) v (LogDir c) (LogLevel c) (ShardNum c) (ChanBufferSize c) (Databases c) (Others c)
    (ClusterConfigPath c) (IsCluster c) (PeerAddrs c) (PeerIDs c) (RaftAddr c) (NodeID c) (KVPort c) (JoinCluster c).
Definition set_LogDir (v : bytes) (c : Config) : Config :=
  mkConfig (ConfFile c) (Host c) (Port c) v (LogLevel c) (ShardNum c) (ChanBufferSize c) (Databases c) (Others c)
    (ClusterConfigPath c) (IsCluster c) (PeerAddrs c) (PeerIDs c) (RaftAddr c) (NodeID c) (KVPort c) (JoinCluster c).
Definition set_LogLevel (v : bytes) (c : Config) : Config :=
  mkConfig (ConfFile c) (Host c) (Port c) (LogDir c) v (ShardNum c) (ChanBufferSize c) (Databases c) (Others c)
    (ClusterConfigPath c) (IsCluster c) (PeerAddrs c) (PeerIDs c) (RaftAddr c) (NodeID c) (KVPort c) (JoinCluster c).
Definition set_ShardNum (v : Z) (c : Config) : Config :=
  mkConfig (ConfFile c) (Host c) (Port c) (LogDir c) (LogLevel c) v (ChanBufferSize c) (Databases c) (Others c)
    (ClusterConfigPath c) (IsCluster c) (PeerAddrs c) (PeerIDs c) (RaftAddr c) (NodeID c) (KVPort c) (JoinCluster c).
Definition set_ChanBufferSize (v : Z) (c : Config) : Config :=
  mkConfig (ConfFile c) (Host c) (Port c) (LogDir c) (LogLevel c) (ShardNum c) v (Databases c) (Others c)
    (ClusterConfigPath c) (IsCluster c) (PeerAddrs c) (PeerIDs c) (RaftAddr c) (NodeID c) (KVPort c) (JoinCluster c).
Definition set_Databases (v : Z) (c : Config) : Config :=
  mkConfig (ConfFile c) (Host c) (Port c) (LogDir c) (LogLevel c) (ShardNum c) (ChanBufferSize c) v (Others c)
    (ClusterConfigPath c) (IsCluster c) (PeerAddrs c) (PeerIDs c) (RaftAddr c) (NodeID c) (KVPort c) (JoinCluster c).
Definition set_Others (v : option (gmap bytes any)) (c : Config) : Config :=
  mkConfig (ConfFile c) (Host c) (Port c) (LogDir c) (LogLevel c) (ShardNum c) (ChanBufferSize c) (Databases c) v
    (ClusterConfigPath c) (IsCluster c) (PeerAddrs c) (PeerIDs c) (RaftAddr c) (NodeID c) (KVPort c) (JoinCluster c).
Definition set_ClusterConfigPath (v : bytes) (c : Config) : Config :=
  mkConfig (ConfFile c) (Host c) (Port c) (LogDir c) (LogLevel c) (ShardNum c) (ChanBufferSize c) (Databases c)
    (Others c) v (IsCluster c) (PeerAddrs c) (PeerIDs c) (RaftAddr c) (NodeID c) (KVPort c) (JoinCluster c).
Definition set_IsCluster (v : bool) (c : Config) : Config :=
  mkConfig (ConfFile c) (Host c) (Port c) (LogDir c) (LogLevel c) (ShardNum c) (ChanBufferSize c) (Databases c)
    (Others c) (ClusterConfigPath c) v (PeerAddrs c) (PeerIDs c) (RaftAddr c) (NodeID c) (KVPort c) (JoinCluster c).
Definition set_PeerAddrs (v : bytes) (c : Config) : Config :=
  mkConfig (ConfFile c) (Host c) (Port c) (LogDir c) (LogLevel c) (ShardNum c) (ChanBufferSize c) (Databases c)
    (Others c) (ClusterConfigPath c) (IsCluster c) v (PeerIDs c) (RaftAddr c) (NodeID c) (KVPort c) (JoinCluster c).
Definition set_PeerIDs (v : bytes) (c : Config) : Config :=
  mkConfig (ConfFile c) (Host c) (Port c) (LogDir c) (LogLevel c) (ShardNum c) (ChanBufferSize c) (Databases c)
    (Others c) (ClusterConfigPath c) (IsCluster c) (PeerAddrs c) v (RaftAddr c) (NodeID c) (KVPort c) (JoinCluster c).
Definition set_RaftAddr (v : bytes) (c : Config) : Config :=
  mkConfig (ConfFile c) (Host c) (Port c) (LogDir c) (LogLevel c) (ShardNum c) (ChanBufferSize c) (Databases c)
    (Others c) (ClusterConfigPath c) (IsCluster c) (PeerAddrs c) (PeerIDs c) v (NodeID c) (KVPort c) (JoinCluster c).
Definition set_NodeID (v : Z) (c : Config) : Config :=
  mkConfig (ConfFile c) (Host c) (Port c) (LogDir c) (LogLevel c) (ShardNum c) (ChanBufferSize c) (Databases c)
    (Others c) (ClusterConfigPath c) (IsCluster c) (PeerAddrs c) (PeerIDs c) (RaftAddr c) v (KVPort c) (JoinCluster c).
Definition set_KVPort (v : Z) (c : Config) : Config :=
  mkConfig (ConfFile c) (Host c) (Port c) (LogDir c) (LogLevel c) (ShardNum c) (ChanBufferSize c) (Databases c)
    (Others c) (ClusterConfigPath c) (IsCluster c) (PeerAddrs c) (PeerIDs c) (RaftAddr c) (NodeID c) v (JoinCluster c).
Definition set_JoinCluster (v : bool) (c : Config) : Config :=
  mkConfig (ConfFile c) (Host c) (Port c) (LogDir c) (LogLevel c) (ShardNum c) (ChanBufferSize c) (Databases c)
    (Others c) (ClusterConfigPath c) (IsCluster c) (PeerAddrs c) (PeerIDs c) (RaftAddr c) (NodeID c) (KVPort c) v.

Definition defaultHost : bytes := bs "127.0.0.1".
Definition defaultPort : Z := 6380.
Definition defaultLogDir : bytes := bs "./".
Definition defaultLogLevel : bytes := bs "info".
Definition defaultShardNum : Z := 1024.
Definition defaultChanBufferSize : Z := 10.
Definition configFile : bytes := bs "./redis.conf".

(** The struct at the start of [Setup]. *)
Definition initial : Config :=
  mkConfig configFile defaultHost defaultPort defaultLogDir defaultLogLevel defaultShardNum defaultChanBufferSize 16
    (Some ∅) [] false [] [] [] (-1) 0 false.

(** [flagInit] stores the default of each flag. *)
Definition flagInit (c : Config) : Config :=
  set_JoinCluster false (set_KVPort 6380 (set_NodeID (-1) (set_PeerAddrs (bs "http://127.0.0.1:16380") (set_IsCluster false
    (set_ClusterConfigPath (bs "./cluster_config.json") (set_ChanBufferSize defaultChanBufferSize (set_LogLevel defaultLogLevel
    (set_LogDir defaultLogDir (set_Port defaultPort (set_Host defaultHost (set_ConfFile configFile c))))))))))).

(** A flag on the command line. *)
Inductive flag_arg : Type :=
| Fconfig (s : bytes)
| Fhost (s : bytes)
| Fport (n : Z)
| Flogdir (s : bytes)
| Floglevel (s : bytes)
| FchanBufSize (n : Z)
| FClusterConfigPath (s : bytes)
| FIsCluster (b : bool)
| FPeerAddrs (s : bytes)
| FNodeID (n : Z)
| FKVPort (n : Z)
| FJoin (b : bool).

Definition set_flag (c : Config) (f : flag_arg) : Config :=
  match f with
  | Fconfig s => set_ConfFile s c
  | Fhost s => set_Host s c
  | Fport n => set_Port n c
  | Flogdir s => set_LogDir s c
  | Floglevel s => set_LogLevel s c
  | FchanBufSize n => set_ChanBufferSize n c
  | FClusterConfigPath s => set_ClusterConfigPath s c
  | FIsCluster b => set_IsCluster b c
  | FPeerAddrs s => set_PeerAddrs s c
  | FNodeID n => set_NodeID n c
  | FKVPort n => set_KVPort n c
  | FJoin b => set_JoinCluster b c
  end.

Inductive cfg_error : Type :=
| ErrOpen
| ErrIP (given : bytes)
| ErrPort (given : Z)
| ErrAtoi
| ErrClusterPath
| ErrJsonFile
| ErrJsonFields.

Section config.
Context {rt : GoRuntime}.

(** The value that [strconv.Atoi] returns with an error does not matter where it
    is followed by a panic. *)
Definition Parse_field (fields : list bytes) : M Config (option cfg_error) :=
  match fields with
  | name :: value :: _ =>
    let cfgName := ToLower name in
    if beq cfgName (bs "host") then
      cfg ← get;
      if negb (ParseIP value) then mret (Some (ErrIP (Host cfg)))
      else modify (set_Host value);; mret None
    else if beq cfgName (bs "port") then
      match Atoi value with
      | None => mret (Some ErrAtoi)
      | Some port =>
        if (port <=? 1024) || (65535 <=? port) then mret (Some (ErrPort port))
        else modify (set_Port port);; mret None
      end
    else if beq cfgName (bs "logdir") then modify (set_LogDir (ToLower value));; mret None
    else if beq cfgName (bs "loglevel") then modify (set_LogLevel (ToLower value));; mret None
    else if beq cfgName (bs "shardnum") then
      n ← or_panic (Atoi value);
      modify (set_ShardNum n);; mret None
    else if beq cfgName (bs "databases") then
      n ← or_panic (Atoi value);
      modify (set_Databases n);;
      if n <=? 0 then panic else mret None
    else
      cfg ← get;
      others ← or_panic (Others cfg);
      modify (set_Others (Some (<[cfgName := AString value]> others)));; mret None
  | _ => mret None
  end.

(** [reader.ReadString('\n')]: the line, the rest, and whether the file ended. *)
Fixpoint ReadString (s : bytes) : bytes * bytes * bool :=
  match s with
  | [] => ([], [], true)
  | c :: s' =>
    if bool_decide (byteval c = 10) then ([c], s', false)
    else let '(line, rest, eof) := ReadString s' in (c :: line, rest, eof)
  end.

(** The loop of [Parse]. After a comment the end of the file is not checked, which
    the next round makes up for. *)
Fixpoint Parse_loop (fuel : nat) (s : bytes) : M Config (option cfg_error) :=
  match fuel with
  | O => block
  | S fuel =>
    let '(line, rest, eof) := ReadString s in
    if bool_decide (head line = Some "#"%char) then Parse_loop fuel rest
    else
      err ← Parse_field (Fields line);
      match err with
      | Some e => mret (Some e)
      | None => if (eof : bool) then mret None else Parse_loop fuel rest
      end
  end.

Definition Parse (file : option bytes) : M Config (option cfg_error) :=
  match file with
  | None => mret (Some ErrOpen)
  | Some s => Parse_loop (S (S (length s))) s
  end.

(** A number that does not fit into a [float64] is an error. *)
Fixpoint any_error (v : json) : bool :=
  match v with
  | JNumber raw => match ParseFloat raw with Some _ => false | None => true end
  | JArray l => existsb any_error l
  | JObject l => existsb (fun '(_, v) => any_error v) l
  | _ => false
  end.

(** The field [Others]. *)
Definition others_field : field Config := mkField (bs "Others") (fun v c =>
  match v with
  | JNull => (set_Others None c, false)
  | JObject l =>
    fold_left (fun '(c, e) '(k, v) =>
      match unquote k with
      | None => (c, true)
      | Some k => (set_Others (Some (<[k := AJson v]> (default ∅ (Others c)))) c, e || any_error v)
      end) l (set_Others (Some (default ∅ (Others c))) c, false)
  | _ => (c, true)
  end).

Definition config_fields : list (field Config) :=
  [string_field (bs "ConfFile") set_ConfFile; string_field (bs "Host") set_Host; int_field (bs "Port") set_Port;
   string_field (bs "LogDir") set_LogDir; string_field (bs "LogLevel") set_LogLevel; int_field (bs "ShardNum") set_ShardNum;
   int_field (bs "ChanBufferSize") set_ChanBufferSize; int_field (bs "Databases") set_Databases; others_field;
   string_field (bs "ClusterConfigPath") set_ClusterConfigPath; bool_field (bs "IsCluster") set_IsCluster;
   string_field (bs "PeerAddrs") set_PeerAddrs; string_field (bs "PeerIDs") set_PeerIDs;
   string_field (bs "RaftAddr") set_RaftAddr; int_field (bs "NodeID") set_NodeID; int_field (bs "KVPort") set_KVPort;
   bool_field (bs "JoinCluster") set_JoinCluster].

Definition ParseConfigJson (file : option bytes) : M Config (option cfg_error) :=
  match file with
  | None => mret (Some ErrJsonFile)
  | Some data =>
    cfg ← get;
    let '(cfg, failed) := Unmarshal config_fields data cfg in
    modify (fun _ => cfg);;
    if NodeID cfg <=? 0 then panic
    else if (failed : bool) then mret (Some ErrJsonFields)
    else
      (if beq (RaftAddr cfg) [] then
         addr ← or_panic (znth (Split "," (PeerAddrs cfg)) (NodeID cfg - 1));
         modify (set_RaftAddr addr)
       else mret tt);;
      modify (set_Databases 1);;
      mret None
  end.

(** [Setup] after the flags are read; [files] is the file system. *)
Definition Setup_checks (files : bytes -> option bytes) : M Config (option cfg_error) :=
  cfg ← get;
  err ← (if negb (beq (ConfFile cfg) []) then Parse (files (ConfFile cfg))
         else if negb (ParseIP (Host cfg)) then mret (Some (ErrIP (Host cfg)))
         else if (Port cfg <=? 1024) || (65535 <=? Port cfg) then mret (Some (ErrPort (Port cfg)))
         else mret None);
  match err with
  | Some e => mret (Some e)
  | None =>
    cfg ← get;
    if IsCluster cfg then
      if beq (ClusterConfigPath cfg) [] then mret (Some ErrClusterPath)
      else ParseConfigJson (files (ClusterConfigPath cfg))
    else mret None
  end.

Definition Setup (args : list flag_arg) (files : bytes -> option bytes) : outcome (option cfg_error * Config) :=
  Setup_checks files (fold_left set_flag args (flagInit initial)).
End config.

(* ===================================================================== *)
(** ** The lines of a file                                               *)
(* ===================================================================== *)

Definition newline : byte := zbyte 10.

(** The specification: the lines, without their ends, one after the other. *)
Fixpoint parse_lines {rt : GoRuntime} (ls : list bytes) : M Config (option cfg_error) :=
  match ls with
  | [] => mret None
  | l :: ls =>
    if bool_decide (head l = Some "#"%char) then parse_lines ls
    else
      err ← Parse_field (Fields l);
      match err with
      | Some e => mret (Some e)
      | None => parse_lines ls
      end
  end.

Lemma in_range_ascii lo hi c : 0x80 <= lo -> byteval c < 128 -> in_range lo hi c = false.
Proof. intros. unfold in_range. by rewrite (proj2 (Z.leb_gt _ _)) by lia. Qed.

Lemma first_info_lo v k lo hi : first_info v = Some (k, lo, hi) -> 0x80 <= lo /\ (k = 1 \/ k = 2 \/ k = 3)%nat.
Proof. unfold first_info. repeat case_match; intros [= <- <- <-]; lia. Qed.

(** A byte of ASCII is never a part of a longer rune. *)
Lemma DecodeRune_ascii b s c : byteval c < 128 -> DecodeRune (b :: s ++ [c]) = DecodeRune (b :: s).
Proof.
  intros Hc. cbn [DecodeRune]. destruct (_ <? _); [done|]. destruct (first_info (byteval b)) as [[[k lo] hi]|] eqn:E; [|by destruct s].
  apply first_info_lo in E as [Hlo Hk]. pose proof (in_range_ascii lo hi c Hlo Hc). pose proof (in_range_ascii 0x80 0xBF c ltac:(lia) Hc).
  destruct Hk as [->|[->| ->]]; destruct s as [|b1 [|b2 [|b3 s]]]; cbn [app]; rewrite ?H, ?H0, ?andb_false_r; done.
Qed.

Lemma runes_snoc s c : byteval c < 128 -> runes (s ++ [c]) = runes s ++ [(byteval c, [c])].
Proof.
  intros Hc. induction s as [|b s r n E IH] using runes_ind.
  { unfold runes. cbn [app length runes_loop DecodeRune]. rewrite (proj2 (Z.ltb_lt _ _)) by lia. done. }
  pose proof (DecodeRune_length b s) as Hn. rewrite E in Hn. cbn [snd length] in Hn.
  rewrite (runes_cons b s r n E). change ((b :: s) ++ [c]) with (b :: s ++ [c]).
  rewrite (runes_cons b (s ++ [c]) r n) by (by rewrite DecodeRune_ascii). change (b :: s ++ [c]) with ((b :: s) ++ [c]).
  rewrite take_app_le, drop_app_le by (cbn; lia). cbn [app]. by rewrite IH.
Qed.

(** The end of a line does not change its fields. *)
Lemma Fields_newline s : Fields (s ++ [newline]) = Fields s.
Proof.
  unfold Fields. rewrite runes_snoc by done. rewrite fold_left_app. destruct (fold_left fields_step (runes s) ([], [])) as [cur fs].
  change (fold_left fields_step [(byteval newline, [newline])] (cur, fs)) with (@nil ascii, if zlen cur =? 0 then fs else fs ++ [cur]). done.
Qed.

(** A line and what follows it, where the lines are those of [Split]. *)
Lemma ReadString_spec s : match Split newline s with
  | [] => False
  | [l] => ReadString s = (l, [], true)
  | l :: ls => exists rest, ReadString s = (l ++ [newline], rest, false) /\ Split newline rest = ls /\ (length rest < length s)%nat
  end.
Proof.
  induction s as [|c s IH]; [done|]. cbn [Split ReadString].
  assert (bool_decide (byteval c = 10) = bool_decide (c = newline)) as ->.
  { apply bool_decide_ext. split; [|by intros ->]. intros E. rewrite <- (ascii_N_embedding c). unfold byteval in E.
    replace (N_of_ascii c) with 10%N by lia. reflexivity. }
  case_bool_decide as Hc; destruct (Split newline s) as [|l [|l' ls]] eqn:Es; try done.
  - exists s. subst c. split; [done|]. split; [done|]. cbn. lia.
  - exists s. subst c. split; [done|]. split; [done|]. cbn. lia.
  - by rewrite IH.
  - destruct IH as (rest & -> & ? & ?). exists rest. split; [done|]. split; [done|]. cbn. lia.
Qed.

Section parse.
Context {rt : GoRuntime}.

Lemma head_newline l : bool_decide (head (l ++ [newline]) = Some "#"%char) = bool_decide (head l = Some "#"%char).
Proof. by destruct l. Qed.

(** At the end of the file a round does nothing. *)
Lemma Parse_loop_nil fuel c : Parse_loop (S fuel) [] c = Ret (None, c).
Proof. reflexivity. Qed.

Lemma Parse_loop_lines fuel s c : (S (length s) < fuel)%nat -> Parse_loop fuel s c = parse_lines (Split newline s) c.
Proof.
  revert s c. induction fuel as [|fuel IH]; intros s c Hf; [lia|]. cbn [Parse_loop]. pose proof (ReadString_spec s) as Hr.
  destruct (Split newline s) as [|l [|l' ls]] eqn:Es; [done| |].
  - rewrite Hr. cbn [parse_lines]. destruct (bool_decide _); [destruct fuel; [lia|done]|]. cbv [mbind M_bind].
    destruct (Parse_field (Fields l) c) as [[[e|] c']| |]; done.
  - destruct Hr as (rest & Hr & Hs & Hl). rewrite Hr. rewrite head_newline, Fields_newline. remember (l' :: ls) as ls' eqn:E'. cbn [parse_lines].
    destruct (bool_decide _); [by rewrite IH, Hs by lia|]. cbv [mbind M_bind].
    destruct (Parse_field (Fields l) c) as [[[e|] c']| |]; try done. by rewrite IH, Hs by lia.
Qed.
End parse.

(** The configuration file is read line by line to its end: the loop over the
    buffered reader ends for every file, also for one whose last line is a comment
    without an end of line, and does for the lines of the file, in order and up to
    the first error, what they say; comments and lines of less than two fields are
    passed over. *)
Theorem Parse_reads_lines {rt : GoRuntime} (s : bytes) (c : Config) : Parse (Some s) c = parse_lines (Split newline s) c.
Proof. apply Parse_loop_lines. lia. Qed.

(* ===================================================================== *)
(** ** What a configuration can be                                       *)
(* ===================================================================== *)

(** After the configuration file, where [c0] is the configuration before it. *)
Definition file_wf (c0 c : Config) : Prop :=
  0 < Databases c /\ is_Some (Others c) /\ IsCluster c = IsCluster c0 /\
  (ParseIP (Host c) = true \/ Host c = Host c0) /\ (1024 < Port c < 65535 \/ Port c = Port c0).

Section wf.
Context {rt : GoRuntime}.

Lemma wp_may_panic {A} (o : option A) (Q : A -> Config -> Prop) c : (forall a, o = Some a -> Q a c) -> wp true (or_panic o) Q c.
Proof. intros H. by apply wp_or_panic. Qed.

Lemma Parse_field_wf c0 fields c : file_wf c0 c -> wp true (Parse_field fields) (fun _ => file_wf c0) c.
Proof.
  intros Hwf. unfold Parse_field. destruct fields as [|name [|value fields]]; [by apply wp_ret..|]. cbv zeta.
  destruct Hwf as (Hd & [o Ho] & Hc & Hh & Hp).
  destruct (beq _ (bs "host")). { apply wp_bind, wp_get. destruct (ParseIP value) eqn:E; cbn [negb]; [apply wp_bind, wp_modify|]; apply wp_ret; split_and!; cbn; eauto. }
  destruct (beq _ (bs "port")).
  { destruct (Atoi value) as [n|]; [|apply wp_ret; split_and!; eauto]. destruct (Z.leb_spec n 1024), (Z.leb_spec 65535 n); cbn [orb];
      try (apply wp_ret; split_and!; by eauto). apply wp_bind, wp_modify, wp_ret. split_and!; cbn; eauto. }
  destruct (beq _ (bs "logdir")); [apply wp_bind, wp_modify, wp_ret; split_and!; cbn; eauto|].
  destruct (beq _ (bs "loglevel")); [apply wp_bind, wp_modify, wp_ret; split_and!; cbn; eauto|].
  destruct (beq _ (bs "shardnum")); [apply wp_bind, wp_may_panic; intros n _; apply wp_bind, wp_modify, wp_ret; split_and!; cbn; eauto|].
  destruct (beq _ (bs "databases")).
  { apply wp_bind, wp_may_panic. intros n _. apply wp_bind, wp_modify. destruct (Z.leb_spec n 0); [done|]. apply wp_ret. split_and!; cbn; eauto. }
  apply wp_bind, wp_get. rewrite Ho. apply wp_bind, wp_may_panic. intros o' _. apply wp_bind, wp_modify, wp_ret. split_and!; cbn; eauto.
Qed.

Lemma parse_lines_wf c0 ls c : file_wf c0 c -> wp true (parse_lines ls) (fun _ => file_wf c0) c.
Proof.
  revert c. induction ls as [|l ls IH]; intros c Hwf; cbn [parse_lines]; [by apply wp_ret|]. destruct (bool_decide _); [by apply IH|].
  apply wp_bind. eapply wp_mono; [|by apply Parse_field_wf]. intros [e|] c' Hc'; [by apply wp_ret|by apply IH].
Qed.

Lemma ParseConfigJson_wf file c : wp true (ParseConfigJson file) (fun err c' => err = None ->
  0 < NodeID c' /\ Databases c' = 1 /\ (RaftAddr c' <> [] \/ znth (Split "," (PeerAddrs c')) (NodeID c' - 1) = Some (RaftAddr c'))) c.
Proof.
  unfold ParseConfigJson. destruct file as [data|]; [|by apply wp_ret]. apply wp_bind, wp_get.
  destruct (Unmarshal config_fields data c) as [c1 failed]. apply wp_bind, wp_modify. destruct (Z.leb_spec (NodeID c1) 0); [done|].
  destruct failed; [by apply wp_ret|]. apply wp_bind. destruct (beq (RaftAddr c1) []) eqn:E.
  - apply wp_bind, wp_may_panic. intros addr Ha. apply wp_modify. apply wp_bind, wp_modify, wp_ret. intros _. cbn. split; [done|]. split; [done|]. by right.
  - apply wp_ret. apply wp_bind, wp_modify, wp_ret. intros _. cbn. split; [done|]. split; [done|]. left. intros E'. rewrite E' in E. done.
Qed.
End wf.

(** An accepted configuration, where [c0] is the one after the command line. *)
Definition accepted (c0 c : Config) : Prop :=
  0 < Databases c /\
  if IsCluster c0 then
    0 < NodeID c /\ Databases c = 1 /\ (RaftAddr c <> [] \/ znth (Split "," (PeerAddrs c)) (NodeID c - 1) = Some (RaftAddr c))
  else
    (ParseIP (Host c) = true \/ ConfFile c0 <> [] /\ Host c = Host c0) /\
    (1024 < Port c < 65535 \/ ConfFile c0 <> [] /\ Port c = Port c0).

Lemma Setup_checks_wf {rt : GoRuntime} files c0 : file_wf c0 c0 -> wp true (Setup_checks files) (fun err c => err = None -> accepted c0 c) c0.
Proof.
  intros Hwf. unfold Setup_checks. apply wp_bind, wp_get, wp_bind.
  apply wp_mono with (Q := fun err c => err = None -> file_wf c0 c /\ (ConfFile c0 = [] -> ParseIP (Host c) = true /\ 1024 < Port c < 65535)).
  - intros [e|] c Hc; [by apply wp_ret|]. destruct (Hc eq_refl) as [(Hd & _ & Hi & Hh & Hp) Hnf]. apply wp_bind, wp_get. rewrite Hi.
    destruct (IsCluster c0) eqn:Ei.
    + destruct (beq _ []); [by apply wp_ret|]. eapply wp_mono; [|apply ParseConfigJson_wf]. intros err c' H E.
      specialize (H E). unfold accepted. rewrite Ei. split; [|done]. destruct H as (_ & -> & _). lia.
    + apply wp_ret. intros _. unfold accepted. rewrite Ei. split; [done|]. destruct (decide (ConfFile c0 = [])) as [E|E]; [destruct (Hnf E); auto|].
      split; [destruct Hh|destruct Hp]; auto.
  - destruct (beq (ConfFile c0) []) eqn:E; cbn [negb].
    + destruct (ParseIP (Host c0)) eqn:Ep; cbn [negb]; [|by apply wp_ret].
      destruct (Z.leb_spec (Port c0) 1024), (Z.leb_spec 65535 (Port c0)); cbn [orb]; apply wp_ret; intros ?; try discriminate; (split; [done|]); intros _; (split; [done|lia]).
    + assert (ConfFile c0 <> []) as Hne by (intros E'; rewrite E' in E; done). unfold Parse. destruct (files (ConfFile c0)) as [s|]; [|by apply wp_ret].
      eapply wp_mono; [|unfold wp; rewrite Parse_loop_lines by lia; exact (parse_lines_wf c0 (Split newline s) c0 Hwf)]. intros err c Hc _. split; [exact Hc|done].
Qed.

Lemma flags_wf args : file_wf (fold_left set_flag args (flagInit initial)) (fold_left set_flag args (flagInit initial)).
Proof.
  assert (0 < Databases (flagInit initial) /\ is_Some (Others (flagInit initial))) as H by (cbn; split; [lia|done]).
  revert H. generalize (flagInit initial). induction args as [|f args IH]; intros c H; [|apply IH; by destruct f].
  destruct H. split_and!; auto.
Qed.

