(* ===== verification/Resp.v ===== *)
(** * Resp: the reply and command data of RESP (src/resp/structure.go)

    [RedisData] has one constructor per Go type that implements the
    [RedisData] interface. [ToBytes] is the wire encoding, [ByteData] the
    argument a command sees. A nil [*ArrayData] payload is [ArrayData None]. *)

From S2P Require Import Prelude Strconv.

Definition CRLF : bytes := [ascii_of_N 13; ascii_of_N 10].

Inductive RedisData : Type :=
| StringData (data : bytes)
| BulkData (data : slice)
| IntData (data : Z)
| ErrorData (data : bytes)
| ArrayData (data : option (list RedisData))
| PlainData (data : bytes).

Definition NIL : bytes := bs "$-1" ++ CRLF.

Definition MakeBulkData (data : slice) : RedisData := BulkData data.
Definition MakeStringData (data : bytes) : RedisData := StringData data.
Definition MakeIntData (data : Z) : RedisData := IntData data.

(** [MakeErrorData(data...)] concatenates its arguments. *)
Definition MakeErrorData (data : list bytes) : RedisData := ErrorData (concat data).

Definition MakeWrongType : RedisData :=
  ErrorData (bs "WRONGTYPE Operation against a key holding the wrong kind of value").

Definition MakeWrongNumberArgs (name : bytes) : RedisData :=
  ErrorData (bs "ERR wrong number of arguments for '" ++ name ++ bs "' command").

Definition MakeArrayData (data : list RedisData) : RedisData := ArrayData (Some data).
Definition MakeEmptyArrayData : RedisData := ArrayData (Some []).
Definition MakePlainData (data : bytes) : RedisData := PlainData data.

(** [BulkData.ToBytes]. *)
Definition bulk_ToBytes (data : slice) : bytes :=
  match data with
  | NilSlice => NIL
  | Slice v _ => bs "$" ++ Itoa (zlen v) ++ CRLF ++ v ++ CRLF
  end.

Fixpoint ToBytes (d : RedisData) : bytes :=
  match d with
  | StringData s => bs "+" ++ s ++ CRLF
  | BulkData s => bulk_ToBytes s
  | IntData z => bs ":" ++ FormatInt z ++ CRLF
  | ErrorData s => bs "-" ++ s ++ CRLF
  | ArrayData None => bs "*-1" ++ CRLF
  | ArrayData (Some l) => bs "*" ++ Itoa (zlen l) ++ CRLF ++ concat (map ToBytes l)
  | PlainData s => s ++ CRLF
  end.

Section bytedata.
Context {rt : GoRuntime}.

(** [ByteData]; on an array it concatenates the elements' byte data into a
    fresh non-nil slice. *)
Fixpoint ByteData (d : RedisData) : slice :=
  match d with
  | StringData s => of_string s
  | BulkData s => s
  | IntData z => of_string (FormatInt z)
  | ErrorData s => of_string s
  | ArrayData None => Slice [] []
  | ArrayData (Some l) => fold_left (fun acc v => sappend acc (str (ByteData v))) l (Slice [] [])
  | PlainData s => of_string s
  end.

(** [(r *ArrayData) ToCommand]. *)
Definition ToCommand (l : option (list RedisData)) : list slice :=
  map ByteData (default [] l).

(** [(r *ArrayData) ToStringCommand]. *)
Definition ToStringCommand (l : option (list RedisData)) : list bytes :=
  map (fun v => str (ByteData v)) (default [] l).

(** [String]: the text of a datum. An array joins its elements with blanks. *)
Definition String (d : RedisData) : bytes :=
  match d with
  | StringData s => s
  | BulkData s => str s
  | IntData z => FormatInt z
  | ErrorData s => s
  | ArrayData l => Join (bs " ") (ToStringCommand l)
  | PlainData s => s
  end.

Lemma ToStringCommand_spec l : ToStringCommand l = map str (ToCommand l).
Proof. unfold ToStringCommand, ToCommand. by rewrite map_map. Qed.
End bytedata.

(** A client's command: an array of bulk strings. *)
Definition bulks (args : list bytes) : RedisData :=
  ArrayData (Some (map (fun a => BulkData (Slice a [])) args)).
