(* ===== verification/RespParser.v ===== *)
(** * RespParser: the RESP stream parser (src/resp/parser.go)

    The goroutine [parse] reads from a buffered reader and sends a
    [ParsedRes] for every complete datum. The reader is the list of bytes the
    connection delivers before EOF; the channel is the list of results in the
    order they are sent. One loop iteration is [parse_iter]; [parse_loop] runs it
    with fuel, and a run that needs more fuel than given is [Block]. Each
    iteration consumes input or stops, so [S (length input)] iterations are
    always enough ([parse_terminates]). *)

From S2P Require Import Prelude Strconv Resp.

Inductive perr : Type :=
| EOF
| UnexpectedEOF
| ProtoErr (text : bytes)
| StrconvErr (text : bytes).

Record ParsedRes := mkParsed { Data : option RedisData; Err : option perr }.

Definition sendData (d : RedisData) : ParsedRes := mkParsed (Some d) None.
Definition sendErr (e : perr) : ParsedRes := mkParsed None (Some e).

Record readState := mkState {
  bulkLen : Z;
  arrayLen : Z;
  multiLine : bool;
  arrayData : list RedisData;
  inArray : bool
}.

Definition readState0 : readState := mkState 0 0 false [] false.

Definition set_bulk (st : readState) (n : Z) (ml : bool) : readState :=
  mkState n (arrayLen st) ml (arrayData st) (inArray st).

Definition set_array (st : readState) (n : Z) : readState :=
  mkState (bulkLen st) n (multiLine st) [] true.

Definition push_array (st : readState) (d : RedisData) : readState :=
  mkState (bulkLen st) (arrayLen st) (multiLine st) (arrayData st ++ [d]) (inArray st).

Definition LF : byte := ascii_of_N 10.
Definition CR : byte := ascii_of_N 13.

(** [reader.ReadBytes('\n')]: the bytes up to and including the first line
    feed, or everything with EOF. *)
Fixpoint ReadBytes (input : bytes) : option (bytes * bytes) :=
  match input with
  | [] => None
  | c :: input' =>
      if bool_decide (c = LF) then Some ([c], input')
      else match ReadBytes input' with
           | Some (l, r) => Some (c :: l, r)
           | None => None
           end
  end.

(** The largest object the Go runtime will allocate on a 64-bit machine;
    [make] panics above it. *)
Definition maxAlloc : Z := 2 ^ 48.

Definition invalid_msg (msg : bytes) : perr :=
  ProtoErr (bs "Protocol error. Stream message " ++ msg ++ bs " is invalid.").

(** [msg[i]], counted from the end: [last_nth 0] is the last byte. *)
Definition from_end (msg : bytes) (i : nat) : option byte := reverse msg !! i.

(** [readLine]: the message or the error, the new state and the rest. *)
Definition readLine (st : readState) (input : bytes)
  : outcome ((bytes + perr) * readState * bytes) :=
  if multiLine st && (0 <=? bulkLen st) then
    let n := i64 (bulkLen st + 2) in
    if (n <? 0) || (maxAlloc <? n) then Panic
    else if zlen input <? n then
      Ret (inr (if bool_decide (input = []) then EOF else UnexpectedEOF), st, [])
    else
      let msg := take (Z.to_nat n) input in
      let rest := drop (Z.to_nat n) input in
      let st' := set_bulk st 0 (multiLine st) in
      match from_end msg 0, from_end msg 1 with
      | Some b0, Some b1 =>
          if bool_decide (b0 = LF) && bool_decide (b1 = CR)
          then Ret (inl msg, st', rest)
          else Ret (inr (invalid_msg msg), st', rest)
      | _, _ => Panic
      end
  else
    match ReadBytes input with
    | None => Ret (inr EOF, st, [])
    | Some (msg, rest) =>
        match from_end msg 1 with
        | None => Panic
        | Some b1 =>
            if bool_decide (b1 = CR) then Ret (inl msg, st, rest)
            else Ret (inr (invalid_msg msg), st, rest)
        end
    end.

(** [string(msg[lo : len(msg)-2])]. *)
Definition msg_body (msg : bytes) (lo : Z) : option bytes :=
  let hi := zlen msg - 2 in
  if lo <=? hi then Some (take (Z.to_nat (hi - lo)) (drop (Z.to_nat lo) msg)) else None.

Definition parseSingleLine (msg : bytes) : outcome (RedisData + perr) :=
  match msg with
  | [] => Panic
  | msgType :: _ =>
      if zlen msg <? 3 then
        Ret (inr (ProtoErr (bs "msg too short, possibly due to a http connection to redis port. ")))
      else
        match msg_body msg 1 with
        | None => Panic
        | Some msgData =>
            if bool_decide (msgType = "+"%char) then Ret (inl (MakeStringData msgData))
            else if bool_decide (msgType = "-"%char) then Ret (inl (MakeErrorData [msgData]))
            else if bool_decide (msgType = ":"%char) then
              match ParseInt msgData with
              | Some z => Ret (inl (MakeIntData z))
              | None => Ret (inr (StrconvErr msgData))
              end
            else Ret (inl (MakePlainData msgData))
        end
  end.

Definition parseMultiLine (msg : bytes) : outcome (RedisData + perr) :=
  if zlen msg <? 2 then Ret (inr (ProtoErr (bs "protocol error: invalid bulk string")))
  else match subslice (Slice msg []) 0 (zlen msg - 2) with
       | Some s => Ret (inl (MakeBulkData s))
       | None => Panic
       end.

Definition header_err (msg : bytes) : perr := ProtoErr (bs "Protocol error: " ++ msg).

Definition parseArrayHeader (msg : bytes) (st : readState) : outcome (option perr * readState) :=
  match msg_body msg 1 with
  | None => Panic
  | Some body =>
      match Atoi body with
      | Some n => if n <? 0 then Ret (Some (header_err msg), st) else Ret (None, set_array st n)
      | None => Ret (Some (header_err msg), st)
      end
  end.

Definition parseBulkHeader (msg : bytes) (st : readState) : outcome (option perr * readState) :=
  match msg_body msg 1 with
  | None => Panic
  | Some body =>
      match ParseInt body with
      | Some n => if n <? -1 then Ret (Some (header_err msg), st) else Ret (None, set_bulk st n true)
      | None => Ret (Some (header_err msg), st)
      end
  end.

(** The end of an iteration that produced a datum: append it to the array
    being read, or send it. *)
Definition deliver (st : readState) (res : RedisData) : readState * list ParsedRes :=
  if inArray st then
    let st' := push_array st res in
    if zlen (arrayData st') =? arrayLen st'
    then (readState0, [sendData (ArrayData (Some (arrayData st')))])
    else (st', [])
  else (st, [sendData res]).

Inductive iter : Type :=
| Stop (out : list ParsedRes)
| Continue (st : readState) (rest : bytes) (out : list ParsedRes).

(** The part of an iteration after [readLine] returned a message. *)
Definition parse_msg (st : readState) (msg : bytes) : outcome (readState * list ParsedRes) :=
  let finish (st : readState) (r : outcome (RedisData + perr)) :=
    match r with
    | Ret (inl res) => Ret (deliver st res)
    | Ret (inr e) => Ret (readState0, [sendErr e])
    | Panic => Panic
    | Block => Block
    end in
  if negb (multiLine st) then
    match msg with
    | [] => Panic
    | c :: _ =>
        if bool_decide (c = "*"%char) then
          match parseArrayHeader msg st with
          | Ret (Some e, _) => Ret (readState0, [sendErr e])
          | Ret (None, st') =>
              if arrayLen st' =? -1 then Ret (readState0, [sendData (ArrayData None)])
              else if arrayLen st' =? 0 then Ret (readState0, [sendData (ArrayData (Some []))])
              else Ret (st', [])
          | Panic => Panic
          | Block => Block
          end
        else if bool_decide (c = "$"%char) then
          match parseBulkHeader msg st with
          | Ret (Some e, _) => Ret (readState0, [sendErr e])
          | Ret (None, st') =>
              if bulkLen st' =? -1 then Ret (deliver (set_bulk st' 0 false) (MakeBulkData NilSlice))
              else Ret (st', [])
          | Panic => Panic
          | Block => Block
          end
        else finish st (parseSingleLine msg)
    end
  else finish (set_bulk st 0 false) (parseMultiLine msg).

(** One iteration of the [for] loop of [parse]. [ctxErr] says whether the
    server is shutting down. *)
Definition parse_iter (ctxErr : bool) (st : readState) (input : bytes) : outcome iter :=
  match readLine st input with
  | Ret (inr EOF, _, _) => Ret (Stop [sendErr EOF])
  | Ret (inr e, _, rest) =>
      if ctxErr then Ret (Stop []) else Ret (Continue readState0 rest [sendErr e])
  | Ret (inl msg, st', rest) =>
      match parse_msg st' msg with
      | Ret (st'', out) => Ret (Continue st'' rest out)
      | Panic => Panic
      | Block => Block
      end
  | Panic => Panic
  | Block => Block
  end.

Fixpoint parse_loop (fuel : nat) (ctxErr : bool) (st : readState) (input : bytes)
  : outcome (list ParsedRes) :=
  match fuel with
  | O => Block
  | S f =>
      match parse_iter ctxErr st input with
      | Ret (Stop out) => Ret out
      | Ret (Continue st' rest out) =>
          match parse_loop f ctxErr st' rest with
          | Ret out' => Ret (out ++ out')
          | o => o
          end
      | Panic => Panic
      | Block => Block
      end
  end.

(** [ParseStream]: everything the parser sends for the given input. *)
Definition ParseStream (ctxErr : bool) (input : bytes) : outcome (list ParsedRes) :=
  parse_loop (S (length input)) ctxErr readState0 input.

Example parse_ping :
  ParseStream false (bs "*1" ++ CRLF ++ bs "$4" ++ CRLF ++ bs "PING" ++ CRLF)
  = Ret [sendData (ArrayData (Some [BulkData (Slice (bs "PING") CRLF)])); sendErr EOF].
Proof. vm_compute. reflexivity. Qed.

(* ===================================================================== *)
(** ** Progress: every iteration consumes input or stops                 *)
(* ===================================================================== *)

Lemma ReadBytes_split input l r : ReadBytes input = Some (l, r) -> input = l ++ r /\ l <> [].
Proof.
  revert l r. induction input as [|c input IH]; intros l r; simpl; [done|].
  case_bool_decide; [by intros [= <- <-]|].
  destruct (ReadBytes input) as [[l' r']|]; [|done].
  intros [= <- <-]. destruct (IH l' r') as [-> _]; done.
Qed.

Lemma readLine_shrinks st input r st' rest :
  readLine st input = Ret (r, st', rest) ->
  r = inr EOF \/ (length rest < length input)%nat.
Proof.
  unfold readLine. destruct (multiLine st && _) eqn:Em.
  - apply andb_prop in Em as [_ Eb].
    destruct (_ || _) eqn:En; [done|]. apply orb_false_iff in En as [En1 En2].
    set (n := i64 (bulkLen st + 2)) in *.
    destruct (Z.ltb_spec (zlen input) n) as [Hs|Hs].
    + intros [= <- <- <-]. case_bool_decide; [by left|right].
      destruct input; [done|simpl; lia].
    + unfold from_end.
      destruct (reverse (take (Z.to_nat n) input) !! 0%nat) as [b0|] eqn:E0; [|done].
      destruct (_ !! 1%nat) as [b1|] eqn:E1; [|done].
      intros H. right. apply lookup_lt_Some in E1.
      rewrite length_reverse, length_take in E1. unfold zlen in Hs.
      destruct (_ && _); injection H as <- <- <-; rewrite length_drop; lia.
  - destruct (ReadBytes input) as [[msg rest']|] eqn:E; [|intros [= <- <- <-]; by left].
    apply ReadBytes_split in E as [-> Hne].
    destruct (from_end msg 1); [|done]. intros H. right.
    rewrite length_app. destruct msg; [done|].
    destruct (bool_decide _); injection H as <- <- <-; simpl; lia.
Qed.

Lemma readLine_no_block st input : readLine st input <> Block.
Proof. unfold readLine. repeat case_match; try done; congruence. Qed.

Lemma parseSingleLine_no_block msg : parseSingleLine msg <> Block.
Proof. unfold parseSingleLine. repeat case_match; try done; congruence. Qed.

Lemma parseMultiLine_no_block msg : parseMultiLine msg <> Block.
Proof. unfold parseMultiLine. repeat case_match; try done; congruence. Qed.

Lemma parse_msg_no_block st msg : parse_msg st msg <> Block.
Proof.
  unfold parse_msg, parseArrayHeader, parseBulkHeader.
  pose proof (parseSingleLine_no_block msg). pose proof (parseMultiLine_no_block msg).
  repeat case_match; try done; congruence.
Qed.

Lemma parse_iter_shrinks c st input st' rest out :
  parse_iter c st input = Ret (Continue st' rest out) -> (length rest < length input)%nat.
Proof.
  unfold parse_iter.
  destruct (readLine st input) as [[[r st1] rest1]| |] eqn:E; [|done|done].
  apply readLine_shrinks in E as [->|E]; [done|].
  destruct r as [msg|e].
  - destruct (parse_msg st1 msg) as [[st2 out2]| |]; [|done|done]. by intros [= <- <- <-].
  - destruct e; [done|destruct c; [done|]..]; by intros [= <- <- <-].
Qed.

Lemma parse_iter_no_block c st input : parse_iter c st input <> Block.
Proof.
  unfold parse_iter. pose proof (readLine_no_block st input).
  destruct (readLine st input) as [[[r st1] rest1]| |]; [|done|done].
  destruct r as [msg|e].
  - pose proof (parse_msg_no_block st1 msg). by destruct (parse_msg st1 msg) as [[]| |].
  - by destruct e, c.
Qed.

(** More units of fuel than input bytes are enough. *)
Lemma parse_loop_fuel fuel c st input :
  (length input < fuel)%nat -> parse_loop fuel c st input <> Block.
Proof.
  revert st input. induction fuel as [|f IH]; intros st input Hf; [lia|]. simpl.
  pose proof (parse_iter_no_block c st input).
  destruct (parse_iter c st input) as [[out|st' rest out]| |] eqn:E; [done| |done|done].
  apply parse_iter_shrinks in E. specialize (IH st' rest ltac:(lia)).
  by destruct (parse_loop f c st' rest).
Qed.

Lemma parse_loop_mono fuel k c st input :
  parse_loop fuel c st input <> Block ->
  parse_loop (fuel + k) c st input = parse_loop fuel c st input.
Proof.
  revert st input. induction fuel as [|f IH]; intros st input Hf; [done|]. simpl in *.
  destruct (parse_iter c st input) as [[out|st' rest out]| |]; [done| |done|done].
  destruct (parse_loop f c st' rest) eqn:E; [| |done];
    rewrite IH by (by rewrite E); by rewrite E.
Qed.

(** The parser from an arbitrary state, with the fuel it needs. *)
Definition run (c : bool) (st : readState) (input : bytes) : outcome (list ParsedRes) :=
  parse_loop (S (length input)) c st input.

Definition prepend (out : list ParsedRes) (o : outcome (list ParsedRes)) :=
  match o with Ret out' => Ret (out ++ out') | o => o end.

Lemma run_unfold c st input :
  run c st input =
  match parse_iter c st input with
  | Ret (Stop out) => Ret out
  | Ret (Continue st' rest out) => prepend out (run c st' rest)
  | Panic => Panic
  | Block => Block
  end.
Proof.
  unfold run at 1. cbn [parse_loop].
  destruct (parse_iter c st input) as [[out|st' rest out]| |] eqn:E; try done.
  apply parse_iter_shrinks in E. unfold run.
  replace (length input) with (S (length rest) + (length input - S (length rest)))%nat by lia.
  rewrite parse_loop_mono by (apply parse_loop_fuel; lia). unfold prepend. by case_match.
Qed.

Lemma prepend_app a b o : prepend a (prepend b o) = prepend (a ++ b) o.
Proof. destruct o; simpl; by rewrite ?app_assoc. Qed.

(* ===================================================================== *)
(** ** Round trip with the encoder                                       *)
(* ===================================================================== *)

(** Data the parser can read back as one datum: lines hold no line feed,
    integers fit, bulk strings can be allocated. Nested arrays are not
    supported by [readState], and a plain line loses its first byte. *)
Definition wf_elem (d : RedisData) : Prop :=
  match d with
  | StringData s | ErrorData s => LF ∉ s
  | IntData z => in_i64 z
  | BulkData NilSlice => True
  | BulkData (Slice v _) => zlen v <= maxAlloc - 2
  | ArrayData _ | PlainData _ => False
  end.

Definition wf_data (d : RedisData) : Prop :=
  match d with
  | ArrayData (Some l) => Forall wf_elem l /\ zlen l <= MaxInt64
  | ArrayData None => False
  | _ => wf_elem d
  end.

(** What the parser hands over: a bulk payload still owns the two bytes of its
    terminator as spare capacity. *)
Definition elem_parsed (d : RedisData) : RedisData :=
  match d with
  | BulkData (Slice v _) => BulkData (Slice v CRLF)
  | _ => d
  end.

Definition as_parsed (d : RedisData) : RedisData :=
  match d with
  | ArrayData (Some l) => ArrayData (Some (map elem_parsed l))
  | _ => elem_parsed d
  end.

Lemma ReadBytes_line s rest :
  LF ∉ s -> ReadBytes (s ++ CRLF ++ rest) = Some (s ++ CRLF, rest).
Proof.
  induction s as [|c s IH]; intros H; cbn [app].
  - done.
  - cbn [ReadBytes]. rewrite bool_decide_false by set_solver.
    rewrite IH by set_solver. done.
Qed.

Lemma from_end_CRLF s : from_end (s ++ CRLF) 0 = Some LF /\ from_end (s ++ CRLF) 1 = Some CR.
Proof. unfold from_end. by rewrite reverse_app. Qed.

Lemma msg_body_line c s : msg_body (c :: s ++ CRLF) 1 = Some s.
Proof.
  unfold msg_body. rewrite zlen_cons, zlen_app. change (zlen CRLF) with 2.
  pose proof (zlen_nonneg s). zb.
  f_equal. change (Z.to_nat 1) with 1%nat. cbn [skipn].
  replace (Z.to_nat _) with (length s) by (unfold zlen; lia).
  by rewrite drop_0, take_app_length.
Qed.

Lemma FormatInt_no_LF z : LF ∉ FormatInt z.
Proof.
  assert (forall n, LF ∉ FormatNat n) as Hn.
  { intros n Hin. pose proof (FormatNat_digits n) as H.
    rewrite Forall_forall in H. by specialize (H _ Hin). }
  unfold FormatInt. case_match; [|apply Hn].
  rewrite not_elem_of_cons. split; [done|apply Hn].
Qed.

(** A state between two elements. *)
Definition idle (st : readState) : Prop := multiLine st = false /\ bulkLen st = 0.

Lemma idle_deliver st d : idle st -> idle (fst (deliver st d)).
Proof. intros [H1 H2]. unfold deliver. repeat case_match; done. Qed.

Lemma run_line c st ch s rest st' out :
  multiLine st = false -> LF ∉ s -> ch <> LF ->
  parse_msg st (ch :: s ++ CRLF) = Ret (st', out) ->
  run c st (ch :: s ++ CRLF ++ rest) = prepend out (run c st' rest).
Proof.
  intros Hm Hs Hch Hp. rewrite run_unfold. unfold parse_iter, readLine. rewrite Hm. cbn [andb].
  change (ch :: s ++ CRLF ++ rest) with ((ch :: s) ++ CRLF ++ rest).
  rewrite ReadBytes_line by set_solver.
  rewrite (proj2 (from_end_CRLF (ch :: s))). bdec.
  cbn [app]. by rewrite Hp.
Qed.

Lemma run_bulk_payload c st v rest :
  multiLine st = true -> bulkLen st = zlen v -> zlen v <= maxAlloc - 2 ->
  run c st (v ++ CRLF ++ rest) =
  let '(st', out) := deliver (set_bulk st 0 false) (BulkData (Slice v CRLF)) in
  prepend out (run c st' rest).
Proof.
  intros Hm Hb Hv. pose proof (zlen_nonneg v).
  rewrite run_unfold. unfold parse_iter, readLine. rewrite Hm, Hb. cbn [andb].
  zb.
  assert (i64 (zlen v + 2) = zlen v + 2) as ->.
  { apply i64_id. unfold in_i64, MinInt64, MaxInt64, maxAlloc in *. lia. }
  assert ((zlen (v ++ CRLF ++ rest) <? zlen v + 2) = false) as ->.
  { rewrite !zlen_app. change (zlen CRLF) with 2. pose proof (zlen_nonneg rest). lia. }
  unfold maxAlloc in *. zb.
  assert (length (v ++ CRLF) = Z.to_nat (zlen v + 2)) as HL.
  { rewrite length_app. simpl. unfold zlen. lia. }
  rewrite app_assoc, <- HL, take_app_length, drop_app_length.
  destruct (from_end_CRLF v) as [-> ->]. bdec. cbn [andb].
  unfold parse_msg. cbn [multiLine set_bulk negb].
  assert (parseMultiLine (v ++ CRLF) = Ret (inl (BulkData (Slice v CRLF)))) as ->.
  { unfold parseMultiLine. rewrite zlen_app. change (zlen CRLF) with 2.
    zb.
    unfold subslice, scap. cbn [str spare]. rewrite zlen_app. change (zlen CRLF) with 2.
    change (zlen (@nil ascii)) with 0.
    zb.
    rewrite app_nil_r. replace (Z.to_nat 0) with 0%nat by done. rewrite drop_0.
    replace (Z.to_nat _) with (length v) by (unfold zlen; lia).
    replace (Z.to_nat _) with (length v) by (unfold zlen; lia).
    by rewrite take_app_length, drop_app_length. }
  by destruct (deliver _ _).
Qed.

(** Running on after a datum has been delivered. *)
Definition after (c : bool) (st : readState) (d : RedisData) (rest : bytes) :=
  prepend (snd (deliver st d)) (run c (fst (deliver st d)) rest).

Lemma run_single c st ch s d rest :
  multiLine st = false -> LF ∉ s -> ch <> LF -> ch <> "*"%char -> ch <> "$"%char ->
  parseSingleLine (ch :: s ++ CRLF) = Ret (inl d) ->
  run c st (ch :: s ++ CRLF ++ rest) = after c st d rest.
Proof.
  intros Hm Hs H1 H2 H3 Hp. apply run_line; [done..|].
  unfold parse_msg. rewrite Hm. cbn [negb]. bdec. rewrite Hp. by destruct (deliver _ _).
Qed.

Lemma parseSingleLine_eq ch s :
  parseSingleLine (ch :: s ++ CRLF) =
  if bool_decide (ch = "+"%char) then Ret (inl (MakeStringData s))
  else if bool_decide (ch = "-"%char) then Ret (inl (MakeErrorData [s]))
  else if bool_decide (ch = ":"%char) then
    match ParseInt s with
    | Some z => Ret (inl (MakeIntData z))
    | None => Ret (inr (StrconvErr s))
    end
  else Ret (inl (MakePlainData s)).
Proof.
  unfold parseSingleLine. rewrite zlen_cons, zlen_app, msg_body_line. change (zlen CRLF) with 2.
  pose proof (zlen_nonneg s). by zb.
Qed.

Lemma run_bulk_header c st s n rest :
  multiLine st = false -> LF ∉ s -> ParseInt s = Some n -> 0 <= n ->
  run c st ("$"%char :: s ++ CRLF ++ rest) = run c (set_bulk st n true) rest.
Proof.
  intros Hm Hs Hn Hpos. rewrite run_line with (st' := set_bulk st n true) (out := []); [|done..|].
  - by destruct (run _ _ _).
  - unfold parse_msg. rewrite Hm. cbn [negb]. bdec.
    unfold parseBulkHeader. rewrite msg_body_line, Hn. zb.
    cbn [bulkLen set_bulk]. by zb.
Qed.

Lemma run_null_bulk c st rest :
  idle st -> run c st (NIL ++ rest) = after c st (BulkData NilSlice) rest.
Proof.
  intros [Hm Hb]. change (NIL ++ rest) with ("$"%char :: bs "-1" ++ CRLF ++ rest).
  apply run_line; [done|vm_compute; set_solver|done|].
  unfold parse_msg. rewrite Hm. cbn [negb]. bdec. unfold parseBulkHeader. rewrite msg_body_line.
  change (ParseInt (bs "-1")) with (Some (-1)). cbv beta iota. zb.
  change (bulkLen (set_bulk st (-1) true) =? -1) with true.
  assert (set_bulk (set_bulk st (-1) true) 0 false = st) as ->.
  { destruct st; simpl in *; by subst. }
  by destruct (deliver _ _).
Qed.

(** Reading one encoded element in an idle state delivers it. *)
Lemma run_elem c st d rest :
  idle st -> wf_elem d -> run c st (ToBytes d ++ rest) = after c st (elem_parsed d) rest.
Proof.
  intros Hi Hd. destruct Hi as [Hm Hb] eqn:EHi.
  destruct d as [s|[|v r]|z|s|l|s]; simpl in Hd; try done;
    cbn [ToBytes elem_parsed]; rewrite <- ?app_assoc.
  - apply run_single; [done..|]. by rewrite parseSingleLine_eq.
  - by apply run_null_bulk.
  - unfold bulk_ToBytes. rewrite <- !app_assoc. pose proof (zlen_nonneg v).
    change (bs "$") with ["$"%char]. cbn [app].
    rewrite run_bulk_header with (n := zlen v); [|done|apply FormatInt_no_LF| |lia].
    + rewrite run_bulk_payload by done.
      assert (set_bulk (set_bulk st (zlen v) true) 0 false = st) as ->.
      { destruct st; simpl in *; by subst. }
      unfold after. by destruct (deliver _ _).
    + apply ParseInt_FormatInt. unfold in_i64, MinInt64, MaxInt64, maxAlloc in *. lia.
  - apply run_single; [done|apply FormatInt_no_LF|done..|].
    rewrite parseSingleLine_eq. bdec. by rewrite ParseInt_FormatInt.
  - apply run_single; [done..|]. rewrite parseSingleLine_eq. bdec.
    unfold MakeErrorData. cbn [concat]. by rewrite app_nil_r.
Qed.

(** Reading the remaining elements of an array completes it and returns to
    the initial state. *)
Lemma run_elems c st l rest :
  idle st -> inArray st = true -> l <> [] -> Forall wf_elem l ->
  arrayLen st = zlen (arrayData st) + zlen l ->
  run c st (concat (map ToBytes l) ++ rest) =
  prepend [sendData (ArrayData (Some (arrayData st ++ map elem_parsed l)))]
          (run c readState0 rest).
Proof.
  revert st. induction l as [|d l IH]; intros st Hi Ha Hne Hf Hlen; [done|].
  inversion Hf as [|? ? Hd Hl]; subst. cbn [map concat]. rewrite <- app_assoc.
  rewrite run_elem by done. unfold after, deliver. rewrite Ha.
  cbn [push_array arrayData arrayLen].
  rewrite zlen_app, zlen_cons, Hlen, zlen_cons. change (zlen (@nil RedisData)) with 0 in *.
  destruct l as [|d' l].
  - change (zlen (@nil RedisData)) with 0. zb. done.
  - pose proof (zlen_nonneg l). rewrite zlen_cons in *. zb. cbn [fst snd prepend].
    rewrite IH; [|by destruct Hi|done|done|done|].
    + unfold push_array. cbn [arrayData map]. rewrite <- app_assoc. by destruct (run _ _ _).
    + cbn [arrayData arrayLen push_array]. rewrite zlen_app, !zlen_cons in *. change (zlen (@nil RedisData)) with 0 in *. lia.
Qed.

Lemma run_array_header c s n rest :
  LF ∉ s -> ParseInt s = Some n -> 0 <= n ->
  run c readState0 ("*"%char :: s ++ CRLF ++ rest) =
  if n =? 0 then prepend [sendData (ArrayData (Some []))] (run c readState0 rest)
  else run c (set_array readState0 n) rest.
Proof.
  intros Hs Hn Hpos.
  rewrite run_line with
    (st' := if n =? 0 then readState0 else set_array readState0 n)
    (out := if n =? 0 then [sendData (ArrayData (Some []))] else []); [|done..|].
  - case_match; [done|]. by destruct (run _ _ _).
  - unfold parse_msg. cbn [multiLine readState0 negb]. bdec.
    unfold parseArrayHeader. rewrite msg_body_line. unfold Atoi. rewrite Hn. zb.
    cbn [arrayLen set_array]. zb. by case_match.
Qed.

Lemma run_data c d rest :
  wf_data d -> run c readState0 (ToBytes d ++ rest) =
  prepend [sendData (as_parsed d)] (run c readState0 rest).
Proof.
  destruct d as [s|s|z|s|[l|]|s]; try done;
    try (intros Hd; rewrite run_elem by done; reflexivity).
  intros [Hf Hl]. cbn [ToBytes as_parsed]. rewrite <- !app_assoc.
  change (bs "*") with ["*"%char]. cbn [app]. pose proof (zlen_nonneg l).
  rewrite run_array_header with (n := zlen l); [|apply FormatInt_no_LF| |done].
  - destruct l as [|d l]; [done|]. pose proof (zlen_nonneg l).
    rewrite zlen_cons in *. zb. rewrite run_elems; [done..| |done| |]; [done|done|].
    cbn [arrayLen arrayData set_array]. rewrite zlen_cons. change (zlen (@nil RedisData)) with 0. lia.
  - apply ParseInt_FormatInt. unfold in_i64, MinInt64 in *. lia.
Qed.

Lemma run_stream c ds rest :
  Forall wf_data ds ->
  run c readState0 (concat (map ToBytes ds) ++ rest) =
  prepend (map (fun d => sendData (as_parsed d)) ds) (run c readState0 rest).
Proof.
  induction 1 as [|d ds Hd _ IH]; cbn [map concat app].
  - by destruct (run _ _ _).
  - rewrite <- app_assoc, run_data by done. rewrite IH, prepend_app. done.
Qed.

Lemma run_nil c : run c readState0 [] = Ret [sendErr EOF].
Proof. done. Qed.

Lemma ReadBytes_bad s rest :
  LF ∉ s -> ReadBytes (s ++ LF :: rest) = Some (s ++ [LF], rest).
Proof.
  induction s as [|c s IH]; intros H; cbn [app ReadBytes].
  - by rewrite bool_decide_true.
  - rewrite bool_decide_false by set_solver. by rewrite IH by set_solver.
Qed.

(* ===================================================================== *)
(** ** Properties                                                        *)
(* ===================================================================== *)


(** C5: round trip with the encoder. Any sequence of RESP data written back to
    back with [ToBytes] (a pipeline) is read back as exactly that sequence, in
    order, each datum once, followed by EOF, and bulk strings may hold any bytes,
    CR and LF included. The only difference is the spare capacity of the bulk
    payloads. *)
Theorem parse_roundtrip (ctxErr : bool) (ds : list RedisData) :
  Forall wf_data ds ->
  ParseStream ctxErr (concat (map ToBytes ds)) =
  Ret (map (fun d => sendData (as_parsed d)) ds ++ [sendErr EOF]).
Proof.
  intros Hds. change (ParseStream ctxErr ?i) with (run ctxErr readState0 i).
  rewrite <- (app_nil_r (concat _)), run_stream by done. by rewrite run_nil.
Qed.

Lemma parse_roundtrip_witness :
  ParseStream false (concat (map ToBytes
    [bulks [bs "SET"; CRLF; []]; IntData (-7); ArrayData (Some [BulkData NilSlice; StringData (bs "OK")])]))
  = Ret (map (fun d => sendData (as_parsed d))
    [bulks [bs "SET"; CRLF; []]; IntData (-7); ArrayData (Some [BulkData NilSlice; StringData (bs "OK")])]
    ++ [sendErr EOF]).
Proof.
  apply parse_roundtrip. repeat constructor; try (vm_compute; congruence).
  all: try (vm_compute; intros H; repeat (inversion H as [|? ? ? H']; subst; clear H; rename H' into H)).
Defined.

(** a malformed line costs exactly one protocol error: the parser drops it
    and goes on with the next line in its initial state, forgetting any array
    it was in the middle of. *)
Theorem parse_resync (st : readState) (s rest : bytes) (b : byte) :
  multiLine st = false -> LF ∉ s ++ [b] -> b <> CR ->
  run false st (s ++ b :: LF :: rest) =
  prepend [sendErr (invalid_msg (s ++ [b; LF]))] (run false readState0 rest).
Proof.
  intros Hm Hs Hb. rewrite run_unfold. unfold parse_iter, readLine. rewrite Hm. cbn [andb].
  replace (s ++ b :: LF :: rest) with ((s ++ [b]) ++ LF :: rest) by by rewrite <- app_assoc.
  rewrite ReadBytes_bad by done.
  assert (from_end ((s ++ [b]) ++ [LF]) 1 = Some b) as ->.
  { unfold from_end. by rewrite !reverse_app. }
  rewrite bool_decide_false by done. rewrite <- app_assoc. done.
Qed.

Lemma parse_resync_witness :
  run false readState0 (bs "GET x" ++ LF :: bs "+OK" ++ CRLF) =
  prepend [sendErr (invalid_msg (bs "GET x" ++ [LF]))] (run false readState0 (bs "+OK" ++ CRLF)).
Proof.
  apply (parse_resync readState0 (bs "GET ") (bs "+OK" ++ CRLF) "x"%char).
  - reflexivity.
  - vm_compute. intros H. repeat (inversion H as [|? ? ? H']; subst; clear H; rename H' into H).
  - intros [=].
Defined.

(** an empty line, a single LF, kills the server: [readLine] indexes
    [msg[len(msg)-2]] in a message of length one. *)
Theorem lone_LF_panics (ctxErr : bool) (rest : bytes) :
  ParseStream ctxErr (LF :: rest) = Panic.
Proof. change (ParseStream ctxErr ?i) with (run ctxErr readState0 i). by rewrite run_unfold. Qed.
