(* ===== verification/Util.v ===== *)
(** * Util: key hashing and KEYS patterns (src/util/util.go)

    [HashKey] is 32-bit FNV-1 of the key between two fixed strings.
    [PattenMatch] is translated on the unread suffixes of pattern and source:
    [pattern[patPos:]] and [src[srcPos:]]; the class loop also keeps the byte
    before the current one, [pattern[patPos-1]]. Its result is an [outcome]
    because the slice expression [src[srcPos+1:]] can be out of range. The
    recursion is on the pattern; [S (length pattern)] is enough fuel
    ([pm_loop_no_block]).

    The reference semantics is [gmatch] on a tokenised pattern. *)

From S2P Require Import Prelude.

(* ===================================================================== *)
(** ** HashKey                                                           *)
(* ===================================================================== *)

Definition fnv_offset : Z := 2166136261.
Definition fnv_prime : Z := 16777619.

(** [sum32.Write]: multiply, then xor, in 32 bits. *)
Definition fnv_step (h : Z) (c : byte) : Z := Z.lxor ((h * fnv_prime) mod 2 ^ 32) (byteval c).

Definition fnv32 (s : bytes) : Z := fold_left fnv_step s fnv_offset.

Definition HashKey (key : bytes) : Z := fnv32 (bs "@#&" ++ key ++ bs "*^%$").

(* ===================================================================== *)
(** ** PattenMatch                                                       *)
(* ===================================================================== *)

Definition star : byte := "*"%char.
Definition quest : byte := "?"%char.
Definition lbrack : byte := "["%char.
Definition rbrack : byte := "]"%char.
Definition backslash : byte := "\"%char.
Definition caret : byte := "^"%char.
Definition dash : byte := "-"%char.

Definition ceq (a b : byte) : bool := bool_decide (a = b).

Fixpoint skip_stars (pat : bytes) : bytes :=
  match pat with
  | c :: pat' => if ceq c star then skip_stars pat' else pat
  | [] => []
  end.

(** The loop over a bracket class for source byte [c]: the match flag and the
    pattern after the closing bracket, or [None] for a syntax error. *)
Fixpoint class_loop (prev : byte) (pat : bytes) (c : byte) (m : bool) : option (bool * bytes) :=
  match pat with
  | [] => None
  | x :: pat' =>
      if ceq x backslash then
        match pat' with
        | [] => None
        | y :: pat'' => class_loop y pat'' c (m || ceq y c)
        end
      else if ceq x rbrack then Some (m, pat')
      else if ceq x dash then
        match pat' with
        | [] => None
        | y :: pat'' =>
            if ceq y rbrack then None
            else class_loop y pat'' c
                   (m || ((byteval prev <=? byteval c) && (byteval c <=? byteval y)))
        end
      else class_loop x pat' c (m || ceq x c)
  end.

(** The search of the star case: [p] is the byte after the stars, [rec] the
    recursive call on the pattern after it. Running off the end of the source
    while looking for [p] makes [src[srcPos+1:]] panic. *)
Fixpoint star_scan (rec : bytes -> outcome bool) (p : byte) (src : bytes) : outcome bool :=
  match src with
  | [] => Panic
  | c :: src' =>
      if ceq c p then
        match rec src' with
        | Ret true => Ret true
        | Ret false => match src' with [] => Ret false | _ => star_scan rec p src' end
        | o => o
        end
      else star_scan rec p src'
  end.

(** [PattenMatch]'s tests before the loop; [loop] is the loop. *)
Definition pm_entry (loop : bytes -> bytes -> outcome bool) (pat src : bytes) : outcome bool :=
  match pat with
  | [] => Ret (match src with [] => true | _ => false end)
  | _ =>
      match src with
      | [] => Ret (forallb (fun c => ceq c star) pat)
      | _ => loop pat src
      end
  end.

(** The end of an iteration: is the source consumed, is the pattern? *)
Definition pm_next (loop : bytes -> bytes -> outcome bool) (pat src : bytes) : outcome bool :=
  match src with
  | [] => Ret (match skip_stars pat with [] => true | _ => false end)
  | _ => match pat with [] => Ret false | _ => loop pat src end
  end.

(** The main loop at [pattern[patPos:] = pat], [src[srcPos:] = src], [src] not
    empty. *)
Fixpoint pm_loop (fuel : nat) (pat src : bytes) : outcome bool :=
  match fuel with
  | O => Block
  | S f =>
      match src with
      | [] => Panic
      | s :: src' =>
          match pat with
          | [] => Ret false
          | x :: pat' =>
              if ceq x star then
                match skip_stars pat' with
                | [] => Ret true
                | p :: ps => star_scan (pm_entry (pm_loop f) ps) p src
                end
              else if ceq x quest then pm_next (pm_loop f) pat' src'
              else if ceq x lbrack then
                match pat' with
                | [] => Ret false
                | y :: pat'' =>
                    let neg := ceq y caret in
                    match class_loop (if neg then y else x) (if neg then pat'' else pat') s false with
                    | None => Ret false
                    | Some (m, rest) =>
                        if xorb neg m then pm_next (pm_loop f) rest src' else Ret false
                    end
                end
              else if ceq x backslash then
                match pat' with
                | [] => Ret false
                | _ :: pat'' => pm_next (pm_loop f) pat'' src (* no [fallthrough]: [srcPos] stays *)
                end
              else if ceq x s then pm_next (pm_loop f) pat' src' else Ret false
          end
      end
  end.

Definition PattenMatch (pattern src : bytes) : outcome bool :=
  pm_entry (pm_loop (S (length pattern))) pattern src.

(** The repository's own test cases. *)
Example pm_test1 : map (fun s => PattenMatch (bs "h*llo") (bs s)) ["hello"; "haabbllo"; "hllo"]%string
                   = [Ret true; Ret true; Ret true].
Proof. vm_compute. reflexivity. Qed.

Example pm_test2 : map (fun p => PattenMatch (bs p) (bs "hello"))
                     ["h[ae]llo"; "h[^e]llo"; "h[e-]llo"; "h[ello"; "h?llo"]%string
                   = [Ret true; Ret false; Ret false; Ret false; Ret true].
Proof. vm_compute. reflexivity. Qed.

(* ===================================================================== *)
(** ** Reference semantics of patterns                                   *)
(* ===================================================================== *)

Inductive item : Type :=
| ILit (c : byte)
| IRange (lo hi : byte).

Inductive tok : Type :=
| TLit (c : byte)
| TEsc (c : byte)
| TAny
| TStar
| TClass (neg : bool) (items : list item).

Definition item_match (i : item) (c : byte) : bool :=
  match i with
  | ILit d => ceq d c
  | IRange lo hi => (byteval lo <=? byteval c) && (byteval c <=? byteval hi)
  end.

(** The items of a bracket class and the pattern after it. *)
Fixpoint class_items (prev : byte) (pat : bytes) : option (list item * bytes) :=
  match pat with
  | [] => None
  | x :: pat' =>
      if ceq x backslash then
        match pat' with
        | [] => None
        | y :: pat'' =>
            match class_items y pat'' with
            | Some (its, r) => Some (ILit y :: its, r)
            | None => None
            end
        end
      else if ceq x rbrack then Some ([], pat')
      else if ceq x dash then
        match pat' with
        | [] => None
        | y :: pat'' =>
            if ceq y rbrack then None
            else match class_items y pat'' with
                 | Some (its, r) => Some (IRange prev y :: its, r)
                 | None => None
                 end
        end
      else match class_items x pat' with
           | Some (its, r) => Some (ILit x :: its, r)
           | None => None
           end
  end.

(** A pattern's tokens; [None] is a syntax error. *)
Fixpoint tokenize (fuel : nat) (pat : bytes) : option (list tok) :=
  match fuel, pat with
  | _, [] => Some []
  | O, _ => None
  | S f, x :: pat' =>
      if ceq x star then (TStar ::.) <$> tokenize f pat'
      else if ceq x quest then (TAny ::.) <$> tokenize f pat'
      else if ceq x lbrack then
        match pat' with
        | [] => None
        | y :: pat'' =>
            let neg := ceq y caret in
            match class_items (if neg then y else x) (if neg then pat'' else pat') with
            | Some (its, rest) => (TClass neg its ::.) <$> tokenize f rest
            | None => None
            end
        end
      else if ceq x backslash then
        match pat' with
        | [] => None
        | y :: pat'' => (TEsc y ::.) <$> tokenize f pat''
        end
      else (TLit x ::.) <$> tokenize f pat'
  end.

Definition tokens (pat : bytes) : option (list tok) := tokenize (length pat) pat.

(** Does one token other than a star accept a byte? *)
Definition tok_match (t : tok) (c : byte) : bool :=
  match t with
  | TLit d | TEsc d => ceq d c
  | TAny => true
  | TStar => false
  | TClass neg its => xorb neg (existsb (fun i => item_match i c) its)
  end.

Fixpoint gmatch (ts : list tok) : bytes -> bool :=
  match ts with
  | [] => fun s => match s with [] => true | _ => false end
  | TStar :: ts' =>
      fix any (s : bytes) : bool :=
        gmatch ts' s || match s with [] => false | _ :: s' => any s' end
  | t :: ts' =>
      fun s => match s with [] => false | c :: s' => tok_match t c && gmatch ts' s' end
  end.

(** The patterns on which the code implements the documented syntax: no escape
    outside brackets, and a run of stars is followed by the end of the pattern
    or by an ordinary byte. *)
Fixpoint supported (ts : list tok) : bool :=
  match ts with
  | [] => true
  | TEsc _ :: _ => false
  | TStar :: ts' =>
      match ts' with
      | [] | TStar :: _ | TLit _ :: _ => supported ts'
      | _ => false
      end
  | _ :: ts' => supported ts'
  end.

Definition is_star (t : tok) : bool := match t with TStar => true | _ => false end.

(* ===================================================================== *)
(** ** Lemmas                                                            *)
(* ===================================================================== *)

Lemma ceq_refl c : ceq c c = true.
Proof. by apply bool_decide_eq_true. Qed.

Lemma ceq_eq c d : ceq c d = true -> c = d.
Proof. apply bool_decide_eq_true_1. Qed.

(** Induction on a pattern whose recursive calls drop at least one byte. *)
Lemma bytes_len_ind (P : bytes -> Prop) :
  (forall l, (forall k, (length k < length l)%nat -> P k) -> P l) -> forall l, P l.
Proof.
  intros H l. remember (length l) as n eqn:E. revert l E.
  induction (lt_wf n) as [n _ IH]. intros l ->. apply H. intros k Hk. by eapply IH.
Qed.

Lemma class_loop_items c pat prev m :
  class_loop prev pat c m =
  match class_items prev pat with
  | Some (its, r) => Some (m || existsb (fun i => item_match i c) its, r)
  | None => None
  end.
Proof.
  revert prev m. induction pat as [[|x pat] IH] using bytes_len_ind; [done|].
  intros prev m. cbn [class_loop class_items].
  destruct (ceq x backslash) eqn:E1.
  { destruct pat as [|y pat]; [done|]. rewrite IH by (simpl; lia).
    destruct (class_items y pat) as [[]|]; [|done]. cbn. by rewrite orb_assoc. }
  destruct (ceq x rbrack) eqn:E2; [cbn; by rewrite orb_false_r|].
  destruct (ceq x dash) eqn:E3.
  { destruct pat as [|y pat]; [done|]. destruct (ceq y rbrack); [done|].
    rewrite IH by (simpl; lia).
    destruct (class_items y pat) as [[]|]; [|done]. cbn. by rewrite orb_assoc. }
  rewrite IH by (simpl; lia).
  destruct (class_items x pat) as [[]|]; [|done]. cbn. by rewrite orb_assoc.
Qed.

Lemma class_items_shorter pat prev its r :
  class_items prev pat = Some (its, r) -> (length r < length pat)%nat.
Proof.
  revert prev its r. induction pat as [[|x pat] IH] using bytes_len_ind; [done|].
  intros prev its r. cbn [class_items].
  repeat case_match; intros; simplify_eq; simpl in *; try lia;
    match goal with H : class_items ?p ?l = Some _ |- _ => apply IH in H; simpl in *; lia end.
Qed.

Lemma tokenize_fuel f g pat :
  (length pat <= f)%nat -> (length pat <= g)%nat -> tokenize f pat = tokenize g pat.
Proof.
  revert g pat. induction f as [|f IH]; intros g [|x pat] Hf Hg; destruct g as [|g];
    simpl in Hf, Hg; try done; try lia.
  cbn [tokenize].
  rewrite (IH g pat) by lia.
  repeat case_match; try done; f_equal; try (apply IH; cbn [length] in *; try lia);
    match goal with H : class_items _ _ = Some _ |- _ =>
      apply class_items_shorter in H; cbn [length] in *; lia end.
Qed.

Lemma tokenize_tokens f pat : (length pat <= f)%nat -> tokenize f pat = tokens pat.
Proof. intros. by apply tokenize_fuel. Qed.

(** What a star accepts: the rest of the pattern matches some suffix. *)
Lemma gmatch_star ts s :
  gmatch (TStar :: ts) s = true <-> exists s', s' `suffix_of` s /\ gmatch ts s' = true.
Proof.
  split.
  - induction s as [|c s IH]; simpl; intros H.
    + exists []. rewrite orb_false_r in H. split; [done|done].
    + apply orb_prop in H as [H|H]; [by exists (c :: s)|].
      destruct (IH H) as (s' & ? & ?). exists s'. split; [by apply suffix_cons_r|done].
  - intros (s' & [k ->] & H). induction k as [|c k IH]; cbn [app].
    + destruct s' as [|d s']; simpl; by rewrite H.
    + change (gmatch ts (c :: k ++ s') || gmatch (TStar :: ts) (k ++ s') = true).
      by rewrite IH, orb_true_r.
Qed.

Lemma gmatch_nonstar t ts c s :
  is_star t = false -> gmatch (t :: ts) (c :: s) = tok_match t c && gmatch ts s.
Proof. by destruct t. Qed.

Lemma gmatch_nonstar_nil t ts : is_star t = false -> gmatch (t :: ts) [] = false.
Proof. by destruct t. Qed.

(** The result [o] of the code on tokens [ts] and source [s]: the reference
    verdict, or a panic, and then no suffix of [s] matches. *)
Definition verdict (ts : list tok) (s : bytes) (o : outcome bool) : Prop :=
  match o with
  | Ret b => b = gmatch ts s
  | Panic => existsb is_star ts = true /\ forall s', s' `suffix_of` s -> gmatch ts s' = false
  | Block => False
  end.

Lemma verdict_step t ts c s o :
  is_star t = false -> tok_match t c = true ->
  verdict ts s o -> verdict (t :: ts) (c :: s) o.
Proof.
  intros Ht Hc. destruct o as [b| |]; cbn [verdict]; [|intros [Hs Hf]|done].
  - intros ->. by rewrite gmatch_nonstar, Hc.
  - split; [cbn; rewrite Hs; apply orb_true_r|]. intros [|d s'] Hsuf.
    { by apply gmatch_nonstar_nil. }
    rewrite gmatch_nonstar, Hf; [apply andb_false_r| |done].
    apply suffix_cons_inv in Hsuf as [[= -> ->]|Hsuf]; [done|].
    by eapply suffix_cons_l.
Qed.

Lemma suffix_cons_cases {A} (c : A) s s' :
  s' `suffix_of` c :: s -> s' = c :: s \/ s' `suffix_of` s.
Proof. intros [[|d k] E]; [by left|]. injection E as -> ->. right. by exists k. Qed.

Lemma verdict_star_cons ts c s o :
  gmatch ts (c :: s) = false ->
  verdict (TStar :: ts) s o -> verdict (TStar :: ts) (c :: s) o.
Proof.
  intros Hf. destruct o as [b| |]; cbn [verdict]; [|intros [_ H]|done].
  - intros ->. change (gmatch (TStar :: ts) (c :: s))
      with (gmatch ts (c :: s) || gmatch (TStar :: ts) s). by rewrite Hf.
  - split; [done|]. intros s' [->|Hs]%suffix_cons_cases; [|by apply H].
    change (gmatch ts (c :: s) || gmatch (TStar :: ts) s = false). by rewrite Hf, H.
Qed.

Lemma star_scan_verdict rec p ts src :
  (forall s, verdict ts s (rec s)) ->
  verdict (TStar :: TLit p :: ts) src (star_scan rec p src).
Proof.
  intros Hrec. induction src as [|c src IH].
  { split; [done|]. by intros s' ->%suffix_nil_inv. }
  cbn [star_scan]. destruct (ceq c p) eqn:Ec.
  - apply ceq_eq in Ec as ->. specialize (Hrec src).
    destruct (rec src) as [[]| |]; cbn [verdict] in Hrec; [| | |done].
    + cbn. by rewrite ceq_refl, <- Hrec.
    + assert (Hf : gmatch (TLit p :: ts) (p :: src) = false) by (cbn; by rewrite ceq_refl).
      destruct src; apply verdict_star_cons; done.
    + destruct Hrec as [_ Hf]. split; [done|]. intros s' Hs.
      apply not_true_is_false. intros (s2 & Hs2 & Hm)%gmatch_star.
      destruct s2 as [|d s2]; [done|]. cbn in Hm. rewrite Hf in Hm; [by rewrite andb_false_r in Hm|].
      assert (d :: s2 `suffix_of` p :: src) as [[= -> ->]|H]%suffix_cons_inv by (by etrans); [done|].
      by eapply suffix_cons_l.
  - apply verdict_star_cons; [|done]. cbn. unfold ceq in *.
    by rewrite bool_decide_eq_false_2 by (intros ->; by rewrite bool_decide_true in Ec).
Qed.

(** [tokenize] one token at a time, without the fuel. *)
Lemma tokens_cons x pat :
  tokens (x :: pat) =
  if ceq x star then (TStar ::.) <$> tokens pat
  else if ceq x quest then (TAny ::.) <$> tokens pat
  else if ceq x lbrack then
    match pat with
    | [] => None
    | y :: pat'' =>
        let neg := ceq y caret in
        match class_items (if neg then y else x) (if neg then pat'' else pat) with
        | Some (its, rest) => (TClass neg its ::.) <$> tokens rest
        | None => None
        end
    end
  else if ceq x backslash then
    match pat with [] => None | y :: pat'' => (TEsc y ::.) <$> tokens pat'' end
  else (TLit x ::.) <$> tokens pat.
Proof.
  unfold tokens at 1. cbn [length tokenize]. rewrite (tokenize_tokens (length pat)) by done.
  destruct (ceq x star); [done|]. destruct (ceq x quest); [done|].
  destruct pat as [|y pat]; [done|]. cbv zeta.
  destruct (class_items _ _) as [[its rest]|] eqn:E.
  - rewrite (tokenize_tokens _ rest), (tokenize_tokens _ pat) by
      (apply class_items_shorter in E; destruct (ceq y caret); cbn [length] in *; lia). done.
  - by rewrite (tokenize_tokens _ pat) by (cbn; lia).
Qed.

Lemma tokens_Some x pat ts :
  tokens (x :: pat) = Some ts ->
  exists t ts', ts = t :: ts' /\ is_star t = ceq x star /\
    (if ceq x star then tokens pat = Some ts' else True).
Proof.
  rewrite tokens_cons. cbv zeta. destruct (ceq x star).
  { intros (ts' & ? & ->)%fmap_Some. by exists TStar, ts'. }
  repeat case_match; intros H'; try done; apply fmap_Some in H' as (ts' & _ & ->); eauto.
Qed.

(** An exhausted source is accepted by stars only. *)
Lemma gmatch_empty pat ts :
  tokens pat = Some ts -> gmatch ts [] = forallb (fun c => ceq c star) pat.
Proof.
  revert ts. induction pat as [|x pat IH]; intros ts Ht; [by injection Ht as <-|].
  apply tokens_Some in Ht as (t & ts' & -> & Hx & Ht). cbn [forallb].
  destruct (ceq x star); [|by apply gmatch_nonstar_nil].
  destruct t; try done. cbn. by rewrite orb_false_r, (IH ts').
Qed.

Lemma skip_stars_forallb pat :
  match skip_stars pat with [] => true | _ => false end = forallb (fun c => ceq c star) pat.
Proof. induction pat as [|c pat IH]; [done|]. cbn. by destruct (ceq c star). Qed.

(** A run of stars is one star, and an ordinary byte follows it. *)
Lemma skip_stars_tokens pat ts :
  tokens pat = Some ts -> supported (TStar :: ts) = true ->
  match skip_stars pat with
  | [] => forall s, gmatch (TStar :: ts) s = true
  | p :: ps => exists ts', tokens ps = Some ts' /\ supported ts' = true /\
                 forall s, gmatch (TStar :: ts) s = gmatch (TStar :: TLit p :: ts') s
  end.
Proof.
  revert ts. induction pat as [|x pat IH]; intros ts Ht Hs.
  { injection Ht as <-. intros s. apply gmatch_star. exists []. split; [apply suffix_nil|done]. }
  cbn [skip_stars]. pose proof (tokens_Some _ _ _ Ht) as (t & ts' & -> & Hx & Ht').
  destruct (ceq x star) eqn:Ex.
  - destruct t; try done. cbn [supported] in Hs. specialize (IH ts' Ht' Hs).
    assert (Hd : forall s, gmatch (TStar :: TStar :: ts') s = gmatch (TStar :: ts') s).
    { intros s. apply eq_true_iff_eq. rewrite !gmatch_star. split.
      - intros (u & Hu & (v & Hv & Hm)%gmatch_star). exists v. split; [by etrans|done].
      - intros (u & Hu & Hm). exists u. split; [done|]. apply gmatch_star. by exists u. }
    destruct (skip_stars pat) as [|p ps]; [intros s; by rewrite Hd|].
    destruct IH as (ts2 & ? & ? & Hg). exists ts2. split; [done|]. split; [done|].
    intros s. by rewrite Hd, Hg.
  - clear IH. rewrite tokens_cons, Ex in Ht. cbv zeta in Ht. destruct t; try done.
    repeat case_match; try done; apply fmap_Some in Ht as (ts2 & ? & [= -> ->]); eauto.
Qed.

Lemma skip_stars_length pat : (length (skip_stars pat) <= length pat)%nat.
Proof. induction pat as [|c pat IH]; [done|]. cbn. destruct (ceq c star); cbn; lia. Qed.

Definition loop_ok (f : nat) : Prop := forall pat src ts,
  (length pat < f)%nat -> src <> [] -> tokens pat = Some ts -> supported ts = true ->
  verdict ts src (pm_loop f pat src).

Lemma pm_entry_verdict f pat src ts :
  loop_ok f -> (length pat < f)%nat -> tokens pat = Some ts -> supported ts = true ->
  verdict ts src (pm_entry (pm_loop f) pat src).
Proof.
  intros IH Hf Ht Hs. destruct pat as [|x pat].
  { injection Ht as <-. by destruct src. }
  destruct src as [|c src]; [|by apply IH].
  cbn [pm_entry verdict]. by rewrite (gmatch_empty _ _ Ht).
Qed.

Lemma pm_next_verdict f pat src ts :
  loop_ok f -> (length pat < f)%nat -> tokens pat = Some ts -> supported ts = true ->
  verdict ts src (pm_next (pm_loop f) pat src).
Proof.
  intros IH Hf Ht Hs. unfold pm_next. destruct src as [|c src].
  { cbn [verdict]. by rewrite (gmatch_empty _ _ Ht), skip_stars_forallb. }
  destruct pat as [|x pat]; [by injection Ht as <-|by apply IH].
Qed.

Lemma pm_token f t ts pat c src :
  loop_ok f -> (length pat < f)%nat -> tokens pat = Some ts ->
  supported (t :: ts) = true -> is_star t = false ->
  verdict (t :: ts) (c :: src) (if tok_match t c then pm_next (pm_loop f) pat src else Ret false).
Proof.
  intros IH Hf Ht Hs Hst. assert (supported ts = true) by (by destruct t).
  destruct (tok_match t c) eqn:E.
  - apply verdict_step; [done..|]. by apply pm_next_verdict.
  - cbn [verdict]. by rewrite gmatch_nonstar, E.
Qed.

Lemma pm_loop_verdict f : loop_ok f.
Proof.
  induction f as [|f IH]; intros pat src ts Hf Hsrc Ht Hs; [lia|].
  destruct src as [|c src]; [done|]. destruct pat as [|x pat]; [by injection Ht as <-|].
  cbn [length] in Hf. assert (Hp : (length pat < f)%nat) by lia.
  cbn [pm_loop]. rewrite tokens_cons in Ht.
  destruct (ceq x star) eqn:E1.
  { apply fmap_Some in Ht as (ts1 & Ht & ->).
    pose proof (skip_stars_tokens _ _ Ht Hs) as Hk. pose proof (skip_stars_length pat) as Hl.
    destruct (skip_stars pat) as [|p ps]; [symmetry; apply Hk|].
    destruct Hk as (ts2 & Ht2 & Hs2 & Hg). cbn in Hl.
    assert (Hv : verdict (TStar :: TLit p :: ts2) (c :: src)
                   (star_scan (pm_entry (pm_loop f) ps) p (c :: src))).
    { apply star_scan_verdict. intros s. apply pm_entry_verdict; [done|lia|done..]. }
    revert Hv. generalize (star_scan (pm_entry (pm_loop f) ps) p (c :: src)).
    intros [b| |]; cbn [verdict]; [by rewrite Hg| |done].
    intros [_ H]. split; [done|]. intros. rewrite Hg. auto. }
  destruct (ceq x quest) eqn:E2.
  { apply fmap_Some in Ht as (ts1 & Ht & ->). by apply (pm_token f TAny). }
  destruct (ceq x lbrack) eqn:E3.
  { destruct pat as [|y pat]; [done|]. cbv zeta in *. rewrite class_loop_items.
    destruct (class_items _ _) as [[its rest]|] eqn:Ec; [|done].
    apply fmap_Some in Ht as (ts1 & Ht & ->). apply class_items_shorter in Ec.
    apply (pm_token f (TClass (ceq y caret) its)); [done| |done..].
    destruct (ceq y caret); cbn [length] in *; lia. }
  destruct (ceq x backslash) eqn:E4.
  { destruct pat; [done|]. by apply fmap_Some in Ht as (ts1 & Ht & ->). }
  apply fmap_Some in Ht as (ts1 & Ht & ->). by apply (pm_token f (TLit x)).
Qed.

Lemma PattenMatch_verdict pat src ts :
  tokens pat = Some ts -> supported ts = true -> verdict ts src (PattenMatch pat src).
Proof. intros. apply pm_entry_verdict; [apply pm_loop_verdict|lia|done..]. Qed.

(** The fuel is enough for every pattern. *)
Lemma star_scan_no_block rec p src :
  (forall s, rec s <> Block) -> star_scan rec p src <> Block.
Proof.
  intros Hr. induction src as [|c src IH]; [done|]. cbn. specialize (Hr src).
  destruct (ceq c p); [|done]. destruct (rec src) as [[]| |]; try done. by destruct src.
Qed.

Lemma pm_entry_no_block loop pat src :
  (src <> [] -> loop pat src <> Block) -> pm_entry loop pat src <> Block.
Proof. intros H. destruct pat, src; try done. by apply H. Qed.

Lemma pm_next_no_block loop pat src :
  (src <> [] -> loop pat src <> Block) -> pm_next loop pat src <> Block.
Proof. intros H. destruct pat, src; try done; by apply H. Qed.

Lemma pm_loop_no_block f pat src : (length pat < f)%nat -> pm_loop f pat src <> Block.
Proof.
  revert pat src. induction f as [|f IH]; intros pat [|c src] Hf; try done; try lia.
  destruct pat as [|x pat]; [done|]. cbn [pm_loop length] in *.
  pose proof (skip_stars_length pat) as Hl.
  assert (Hn : forall p s, (length p <= length pat)%nat -> pm_next (pm_loop f) p s <> Block).
  { intros. apply pm_next_no_block. intros _. apply IH. lia. }
  destruct (ceq x star).
  { destruct (skip_stars pat); [done|]. apply star_scan_no_block. intros s.
    apply pm_entry_no_block. intros _. apply IH. cbn in *. lia. }
  destruct (ceq x quest); [by apply Hn|]. destruct (ceq x lbrack).
  { destruct pat as [|y pat]; [done|]. rewrite class_loop_items.
    destruct (class_items _ _) as [[its r]|] eqn:Ec; [|done]. destruct (xorb _ _); [|done].
    apply class_items_shorter in Ec. apply Hn. destruct (ceq y caret); cbn [length] in *; lia. }
  destruct (ceq x backslash); [destruct pat; [done|]; apply Hn; cbn; lia|].
  destruct (ceq x c); [by apply Hn|done].
Qed.

Lemma PattenMatch_no_block pat src : PattenMatch pat src <> Block.
Proof. apply pm_entry_no_block. intros _. apply pm_loop_no_block. lia. Qed.

(* ===================================================================== *)
(** ** Properties                                                        *)
(* ===================================================================== *)

(** on a well-formed pattern in the supported syntax, [PattenMatch] accepts
    exactly the keys the pattern denotes: it returns [true] if and only if the
    reference semantics matches; backtracking loses no match. *)
Theorem PattenMatch_accepts (pat src : bytes) (ts : list tok)
  (Ht : tokens pat = Some ts) (Hs : supported ts = true) :
  PattenMatch pat src = Ret true <-> gmatch ts src = true.
Proof.
  pose proof (PattenMatch_verdict pat src ts Ht Hs) as H.
  destruct (PattenMatch pat src) as [b| |]; cbn [verdict] in H.
  - subst b. split; [by intros [=]|by intros ->].
  - destruct H as [_ H]. by rewrite (H src).
  - done.
Qed.

Lemma PattenMatch_accepts_witness :
  PattenMatch (bs "h*l[a-c]o?") (bs "hlloxlbox") = Ret true /\
  gmatch [TLit "h"%char; TStar; TLit "l"%char;
          TClass false [ILit "a"%char; IRange "a"%char "c"%char]; TLit "o"%char; TAny]
    (bs "hlloxlbox") = true.
Proof.
  split; [|vm_compute; reflexivity].
  eapply PattenMatch_accepts; vm_compute; reflexivity.
Defined.

(** without stars the verdict is total: [PattenMatch] returns the reference
    verdict and cannot panic. *)
Theorem PattenMatch_starfree (pat src : bytes) (ts : list tok)
  (Ht : tokens pat = Some ts) (Hs : supported ts = true) (Hn : existsb is_star ts = false) :
  PattenMatch pat src = Ret (gmatch ts src).
Proof.
  pose proof (PattenMatch_verdict pat src ts Ht Hs) as H.
  destruct (PattenMatch pat src) as [b| |]; cbn [verdict] in H; [by rewrite H| |done].
  destruct H as [H _]. congruence.
Qed.

Lemma PattenMatch_starfree_witness :
  PattenMatch (bs "h[^e]llo") (bs "hallo") = Ret true.
Proof.
  rewrite (PattenMatch_starfree (bs "h[^e]llo") (bs "hallo")
    [TLit "h"%char; TClass true [ILit "e"%char]; TLit "l"%char; TLit "l"%char; TLit "o"%char]);
    vm_compute; reflexivity.
Defined.

(** a star whose following byte does not occur in the key makes the match
    panic: [src[srcPos+1:]] is evaluated with [srcPos = srcLen]. So [KEYS *x]
    stops the server as soon as one key has no [x]. *)
Theorem PattenMatch_star_panics (p : byte) (ps src : bytes)
  (Hp : p <> star) (Hne : src <> []) (Hsrc : p ∉ src) :
  PattenMatch (star :: p :: ps) src = Panic.
Proof.
  unfold PattenMatch. destruct src as [|c src]; [done|]. cbn [pm_entry pm_loop].
  rewrite ceq_refl. cbn [skip_stars]. unfold ceq at 1. rewrite bool_decide_false by done.
  clear Hne. generalize (pm_entry (pm_loop (length (star :: p :: ps))) ps). intros rec.
  induction (c :: src) as [|d l IH]; [done|]. cbn [star_scan]. unfold ceq.
  rewrite bool_decide_false by (intros ->; apply Hsrc; left).
  apply IH. intros ?. apply Hsrc. by right.
Qed.

Lemma PattenMatch_star_panics_witness : PattenMatch (bs "*x") (bs "key") = Panic.
Proof.
  apply (PattenMatch_star_panics "x"%char [] (bs "key")); [done|done|].
  apply (bool_decide_unpack _). vm_compute. exact I.
Defined.

(** an escape outside brackets consumes no byte of the key, because the Go
    [switch] case does not fall through: [\c] matches the empty string. *)
Theorem PattenMatch_escape_skips (c d : byte) (pat src : bytes) (Hpat : pat <> []) :
  PattenMatch (backslash :: c :: pat) (d :: src) = pm_loop (S (S (length pat))) pat (d :: src).
Proof. unfold PattenMatch. destruct pat; done. Qed.

Lemma PattenMatch_escape_skips_witness :
  PattenMatch (bs "\*a") (bs "a") = Ret true /\ PattenMatch (bs "\*a") (bs "*a") = Ret false.
Proof.
  split; [|vm_compute; reflexivity].
  etransitivity; [apply (PattenMatch_escape_skips star "a"%char ["a"%char] []); done|].
  vm_compute. reflexivity.
Defined.

(** [HashKey] is a 32-bit value, so a shard index computed from it is never
    negative. *)
Lemma fnv_step_range h c : 0 <= h -> 0 <= fnv_step h c < 2 ^ 32.
Proof.
  intros Hh. unfold fnv_step. pose proof (Z.mod_pos_bound (h * fnv_prime) (2 ^ 32)).
  pose proof (byteval_range c).
  assert (0 <= Z.lxor ((h * fnv_prime) mod 2 ^ 32) (byteval c)) by (apply Z.lxor_nonneg; lia).
  split; [done|]. apply Z.log2_lt_cancel. eapply Z.le_lt_trans; [apply Z.log2_lxor; lia|].
  apply Z.max_lub_lt; (eapply Z.le_lt_trans; [apply Z.log2_le_mono with (b := 2 ^ 32 - 1); lia|done]).
Qed.

Lemma HashKey_range key : 0 <= HashKey key < 2 ^ 32.
Proof.
  unfold HashKey, fnv32. set (s := bs "@#&" ++ _). clearbody s.
  assert (H : 0 <= fnv_offset < 2 ^ 32) by (unfold fnv_offset; lia). revert H.
  generalize fnv_offset. induction s as [|c s IH]; intros h H; [done|].
  cbn [fold_left]. apply IH, fnv_step_range. lia.
Qed.
