(* ===== verification/ConcurrentMap.v ===== *)
(** * ConcurrentMap: the sharded hash map (src/memdb/concurrentmap.go)

    The table is a list of shards, each a finite map; a key lives in the shard
    [HashKey key % size]. Every operation takes the lock of one shard for its
    whole body and no other lock inside, so the sequential model has no lock
    state of its own. Indexing the table panics out of range.

    [to_map] forgets the sharding. Under the invariant [WF], which every
    operation preserves, each operation implements the operation of the same
    name on [to_map] and does not panic: the [wp_*] lemmas, which are all that
    the rest of the development uses. *)

From S2P Require Import Prelude Util.

Definition MaxConSize : Z := 2 ^ 31 - 1.

Record ConcurrentMap (V : Type) : Type := mkCMap {
  table : list (gmap bytes V);
  size : Z;
  count : Z
}.
Arguments mkCMap {V} table size count.
Arguments table {V} c.
Arguments size {V} c.
Arguments count {V} c.

Section cmap.
Context {V : Type}.
Implicit Types (m : ConcurrentMap V) (k : bytes) (v : V).

Definition NewConcurrentMap (size : Z) : ConcurrentMap V :=
  let size := if (size <=? 0) || (MaxConSize <? size) then MaxConSize else size in
  mkCMap (replicate (Z.to_nat size) ∅) size 0.

Definition getKeyPos m k : Z := Z.rem (HashKey k) (size m).

(** [m.table[m.getKeyPos(key)]]. *)
Definition getShard (k : bytes) : M (ConcurrentMap V) (gmap bytes V) :=
  m ← get; or_panic (znth (table m) (getKeyPos m k)).

(** [shard.item = ...] for the shard of [k], and [m.count += d]. *)
Definition putShard (k : bytes) (item : gmap bytes V) : M (ConcurrentMap V) unit :=
  modify (fun m => mkCMap (<[Z.to_nat (getKeyPos m k) := item]> (table m)) (size m) (count m)).

Definition addCount (d : Z) : M (ConcurrentMap V) unit :=
  modify (fun m => mkCMap (table m) (size m) (i64 (count m + d))).

Definition Set_ (k : bytes) (v : V) : M (ConcurrentMap V) Z :=
  item ← getShard k;
  match item !! k with
  | None => addCount 1 ;; putShard k (<[k := v]> item) ;; mret 1
  | Some _ => putShard k (<[k := v]> item) ;; mret 0
  end.

Definition SetIfExist (k : bytes) (v : V) : M (ConcurrentMap V) Z :=
  item ← getShard k;
  match item !! k with
  | Some _ => putShard k (<[k := v]> item) ;; mret 1
  | None => mret 0
  end.

Definition SetIfNotExist (k : bytes) (v : V) : M (ConcurrentMap V) Z :=
  item ← getShard k;
  match item !! k with
  | None => addCount 1 ;; putShard k (<[k := v]> item) ;; mret 1
  | Some _ => mret 0
  end.

Definition Get (k : bytes) : M (ConcurrentMap V) (option V) :=
  item ← getShard k; mret (item !! k).

Definition Delete (k : bytes) : M (ConcurrentMap V) Z :=
  item ← getShard k;
  match item !! k with
  | Some _ => putShard k (delete k item) ;; addCount (-1) ;; mret 1
  | None => mret 0
  end.

Definition Len : M (ConcurrentMap V) Z := gets count.

Definition Clear : M (ConcurrentMap V) unit := modify (fun m => NewConcurrentMap (size m)).

(** [Keys]: a slice of [count] empty strings, filled shard by shard; [n] is
    the runtime's counter of map iterations. Writing past the slice panics. *)
Fixpoint shard_keys `{GoRuntime} (n : nat) (t : list (gmap bytes V)) : list bytes :=
  match t with
  | [] => []
  | sh :: t' => range_order n (dom sh) ++ shard_keys (S n) t'
  end.

Definition Keys `{GoRuntime} (n : nat) : M (ConcurrentMap V) (list bytes) :=
  m ← get;
  let written := shard_keys n (table m) in
  if (count m <? 0) || (count m <? zlen written) then panic
  else mret (written ++ replicate (Z.to_nat (count m) - length written) []).

Definition KeyVals : M (ConcurrentMap V) (gmap bytes V) :=
  gets (fun m => fold_left (fun res sh => sh ∪ res) (table m) ∅).

(* ===================================================================== *)
(** ** Abstraction and invariant                                         *)
(* ===================================================================== *)

Definition to_map m : gmap bytes V := foldr (∪) ∅ (table m).

Definition placed (sz : Z) (t : list (gmap bytes V)) (off : nat) : Prop :=
  forall i sh k, t !! i = Some sh -> is_Some (sh !! k) -> Z.rem (HashKey k) sz = Z.of_nat (off + i).

Record WF m : Prop := {
  WF_size : 0 < size m <= MaxConSize;
  WF_length : zlen (table m) = size m;
  WF_placed : placed (size m) (table m) 0;
  WF_count : count m = i64 (Z.of_nat (base.size (to_map m)))
}.

Lemma getKeyPos_range m k : 0 < size m -> 0 <= getKeyPos m k < size m.
Proof.
  intros H. unfold getKeyPos. pose proof (HashKey_range k). apply Z.rem_bound_pos; lia.
Qed.

Lemma lookup_foldr_union sz t off k :
  placed sz t off ->
  foldr (∪) ∅ t !! k =
  (if (Z.of_nat off <=? Z.rem (HashKey k) sz) then t !! (Z.to_nat (Z.rem (HashKey k) sz) - off)%nat
   else None) ≫= (fun sh => sh !! k).
Proof.
  revert off. induction t as [|sh t IH]; intros off Hp; cbn [foldr].
  { rewrite lookup_empty. by case_match. }
  assert (Hp' : placed sz t (S off)).
  { intros i sh' k' Hi Hk. rewrite (Hp (S i) sh' k' Hi Hk). lia. }
  specialize (IH _ Hp'). rewrite lookup_union, IH. clear IH.
  destruct (sh !! k) as [v|] eqn:E.
  - pose proof (Hp 0%nat sh k eq_refl (ex_intro _ v E)) as Hz. rewrite Hz. zb.
    rewrite !Nat2Z.id. replace (off + 0 - off)%nat with 0%nat by lia. simpl.
    by rewrite E.
  - rewrite left_id by apply _.
    destruct (Z.of_nat (S off) <=? Z.rem (HashKey k) sz) eqn:E1.
    + apply Z.leb_le in E1. zb.
      by replace (Z.to_nat (Z.rem (HashKey k) sz) - off)%nat
        with (S (Z.to_nat (Z.rem (HashKey k) sz) - S off)) by lia.
    + destruct (Z.of_nat off <=? Z.rem (HashKey k) sz) eqn:E2; [|done].
      apply Z.leb_le in E2. apply Z.leb_gt in E1.
      replace (Z.to_nat (Z.rem (HashKey k) sz) - off)%nat with 0%nat by lia. cbn. by rewrite E.
Qed.

Lemma znth_shard m k :
  WF m -> exists sh, znth (table m) (getKeyPos m k) = Some sh /\ to_map m !! k = sh !! k.
Proof.
  intros [Hs Hl Hp _]. pose proof (getKeyPos_range m k ltac:(lia)) as Hr.
  unfold znth. zb. destruct (lookup_lt_is_Some_2 (table m) (Z.to_nat (getKeyPos m k))) as [sh E].
  { unfold zlen in Hl. lia. }
  exists sh. split; [done|]. unfold to_map. rewrite (lookup_foldr_union (size m) _ 0) by done.
  fold (getKeyPos m k). zb. by rewrite Nat.sub_0_r, E.
Qed.

(** Replacing the shard of [k] by one that differs at [k] only. *)
Lemma placed_update m k sh o :
  WF m -> znth (table m) (getKeyPos m k) = Some sh ->
  placed (size m) (<[Z.to_nat (getKeyPos m k) := partial_alter (fun _ => o) k sh]> (table m)) 0.
Proof.
  intros [Hs Hl Hp _] E i sh' k' Hi Hk. pose proof (getKeyPos_range m k ltac:(lia)) as Hr.
  revert E. unfold znth. zb. intros E.
  apply list_lookup_insert_Some in Hi as [(<- & <- & _)|[_ Hi]]; [|by eapply Hp].
  destruct (decide (k = k')) as [->|Hne]; [unfold getKeyPos in *; lia|].
  rewrite lookup_partial_alter_ne in Hk by done. by eapply Hp.
Qed.

Lemma to_map_update m k sh o c :
  WF m -> znth (table m) (getKeyPos m k) = Some sh ->
  to_map (mkCMap (<[Z.to_nat (getKeyPos m k) := partial_alter (fun _ => o) k sh]> (table m)) (size m) c)
  = partial_alter (fun _ => o) k (to_map m).
Proof.
  intros HWF E. pose proof (placed_update m k sh o HWF E) as Hp'. destruct HWF as [Hs Hl Hp _].
  pose proof (getKeyPos_range m k ltac:(lia)) as Hr. revert E. unfold znth. zb. intros E.
  apply map_eq. intros k'. unfold to_map. cbn [table].
  rewrite (lookup_foldr_union (size m) _ 0) by done.
  pose proof (getKeyPos_range m k' ltac:(lia)) as Hr'. fold (getKeyPos m k').
  zb. rewrite Nat.sub_0_r. destruct (decide (k = k')) as [<-|Hne].
  - rewrite lookup_partial_alter_eq, list_lookup_insert_eq; [|by apply lookup_lt_is_Some_1; eauto].
    cbn. by rewrite lookup_partial_alter_eq.
  - rewrite lookup_partial_alter_ne by done.
    rewrite (lookup_foldr_union (size m) _ 0) by done. fold (getKeyPos m k'). zb.
    rewrite Nat.sub_0_r. destruct (decide (getKeyPos m k = getKeyPos m k')) as [Heq|Hd].
    + rewrite <- Heq, E, list_lookup_insert_eq; [|by apply lookup_lt_is_Some_1; eauto].
      cbn. by rewrite lookup_partial_alter_ne.
    + by rewrite list_lookup_insert_ne by lia.
Qed.

(* ===================================================================== *)
(** ** Operations implement the map operations                           *)
(* ===================================================================== *)

(** The write of one entry, with the count it needs. *)
Lemma WF_update m k sh o c :
  WF m -> znth (table m) (getKeyPos m k) = Some sh ->
  c = i64 (Z.of_nat (base.size (partial_alter (fun _ => o) k (to_map m)))) ->
  let m' := mkCMap (<[Z.to_nat (getKeyPos m k) := partial_alter (fun _ => o) k sh]> (table m)) (size m) c in
  WF m' /\ to_map m' = partial_alter (fun _ => o) k (to_map m).
Proof.
  intros HWF E Hc m'. pose proof (to_map_update m k sh o c HWF E) as Ht.
  split; [|done]. destruct HWF as [Hs Hl Hp Hcnt] eqn:HW. constructor; cbn [size table count m'].
  - done.
  - unfold zlen in *. by rewrite length_insert.
  - by apply placed_update.
  - fold m' in Ht. by rewrite Ht.
Qed.

Lemma i64_add_l a b : i64 (i64 a + b) = i64 (a + b).
Proof.
  unfold i64. f_equal.
  replace ((a + 2 ^ 63) mod 2 ^ 64 - 2 ^ 63 + b + 2 ^ 63) with ((a + 2 ^ 63) mod 2 ^ 64 + b) by lia.
  rewrite Zplus_mod_idemp_l. f_equal. lia.
Qed.

Lemma count_insert m k v :
  WF m -> to_map m !! k = None ->
  i64 (count m + 1) = i64 (Z.of_nat (base.size (<[k := v]> (to_map m)))).
Proof.
  intros [_ _ _ ->] Hk. rewrite map_size_insert_None by done. rewrite i64_add_l. f_equal. lia.
Qed.

Lemma count_insert_same m k v v' :
  WF m -> to_map m !! k = Some v' -> count m = i64 (Z.of_nat (base.size (<[k := v]> (to_map m)))).
Proof. intros [_ _ _ ->] Hk. by rewrite map_size_insert_Some by (eexists; done). Qed.

Lemma count_delete m k v :
  WF m -> to_map m !! k = Some v ->
  i64 (count m + -1) = i64 (Z.of_nat (base.size (delete k (to_map m)))).
Proof.
  intros [_ _ _ ->] Hk. rewrite map_size_delete_Some by (eexists; done). rewrite i64_add_l. f_equal.
  assert (base.size (to_map m) <> 0%nat); [|lia].
  intros Hz%map_size_empty_inv. by rewrite Hz, lookup_empty in Hk.
Qed.

Lemma wp_getShard (pn : bool) k m (Q : gmap bytes V -> ConcurrentMap V -> Prop) :
  WF m ->
  (forall sh, znth (table m) (getKeyPos m k) = Some sh -> to_map m !! k = sh !! k -> Q sh m) ->
  wp pn (getShard k) Q m.
Proof.
  intros HWF HQ. destruct (znth_shard m k HWF) as (sh & E & Hk).
  unfold getShard. apply wp_bind, wp_get. rewrite E. apply wp_ret. auto.
Qed.

Lemma wp_Get (pn : bool) k m (Q : option V -> ConcurrentMap V -> Prop) :
  WF m -> Q (to_map m !! k) m -> wp pn (Get k) Q m.
Proof.
  intros HWF HQ. unfold Get. apply wp_bind, wp_getShard; [done|]. intros sh _ E.
  apply wp_ret. by rewrite <- E.
Qed.

(** [Set]: 1 when the key is new. *)
Lemma wp_map_Set (pn : bool) k v m (Q : Z -> ConcurrentMap V -> Prop) :
  WF m ->
  (forall m', WF m' -> to_map m' = <[k := v]> (to_map m) ->
     Q (if to_map m !! k is Some _ then 0 else 1) m') ->
  wp pn (Set_ k v) Q m.
Proof.
  intros HWF HQ. unfold Set_. apply wp_bind, wp_getShard; [done|]. intros sh E Hk.
  rewrite <- Hk. destruct (to_map m !! k) as [v'|] eqn:Hm.
  - edestruct (WF_update m k sh (Some v)) as [H1 H2]; [done..|by eapply count_insert_same|].
    by apply (HQ _ H1).
  - edestruct (WF_update m k sh (Some v)) as [H1 H2]; [done..|by apply count_insert|].
    by apply (HQ _ H1).
Qed.

Lemma wp_SetIfExist (pn : bool) k v m (Q : Z -> ConcurrentMap V -> Prop) :
  WF m ->
  (forall m' v', to_map m !! k = Some v' -> WF m' -> to_map m' = <[k := v]> (to_map m) -> Q 1 m') ->
  (to_map m !! k = None -> Q 0 m) ->
  wp pn (SetIfExist k v) Q m.
Proof.
  intros HWF H1 H0. unfold SetIfExist. apply wp_bind, wp_getShard; [done|]. intros sh E Hk.
  rewrite <- Hk. destruct (to_map m !! k) as [v'|] eqn:Hm; [|by apply H0].
  edestruct (WF_update m k sh (Some v)) as [HW Ht]; [done..|by eapply count_insert_same|].
  by apply (H1 _ v').
Qed.

Lemma wp_SetIfNotExist (pn : bool) k v m (Q : Z -> ConcurrentMap V -> Prop) :
  WF m ->
  (forall m', to_map m !! k = None -> WF m' -> to_map m' = <[k := v]> (to_map m) -> Q 1 m') ->
  (forall v', to_map m !! k = Some v' -> Q 0 m) ->
  wp pn (SetIfNotExist k v) Q m.
Proof.
  intros HWF H1 H0. unfold SetIfNotExist. apply wp_bind, wp_getShard; [done|]. intros sh E Hk.
  rewrite <- Hk. destruct (to_map m !! k) as [v'|] eqn:Hm; [by apply (H0 v')|].
  edestruct (WF_update m k sh (Some v)) as [HW Ht]; [done..|by apply count_insert|].
  by apply H1.
Qed.

Lemma wp_Delete (pn : bool) k m (Q : Z -> ConcurrentMap V -> Prop) :
  WF m ->
  (forall m', WF m' -> to_map m' = delete k (to_map m) -> Q (if to_map m !! k is Some _ then 1 else 0) m') ->
  wp pn (Delete k) Q m.
Proof.
  intros HWF HQ. unfold Delete. apply wp_bind, wp_getShard; [done|]. intros sh E Hk.
  rewrite <- Hk. destruct (to_map m !! k) as [v'|] eqn:Hm.
  - edestruct (WF_update m k sh None) as [H1 H2]; [done..|by eapply count_delete|].
    by apply (HQ _ H1).
  - apply HQ; [done|]. by rewrite delete_id.
Qed.

Lemma wp_Len (pn : bool) m (Q : Z -> ConcurrentMap V -> Prop) :
  WF m -> Q (i64 (Z.of_nat (base.size (to_map m)))) m -> wp pn Len Q m.
Proof. intros HWF HQ. apply wp_gets. by rewrite (WF_count _ HWF). Qed.

Lemma foldr_union_empty n : foldr (∪) ∅ (replicate n (∅ : gmap bytes V)) = ∅.
Proof. induction n as [|n IH]; [done|]. cbn. by rewrite IH, (left_id_L ∅ (∪)). Qed.

Lemma WF_New n : WF (NewConcurrentMap n) /\ to_map (NewConcurrentMap n) = ∅.
Proof.
  unfold NewConcurrentMap. set (z := if _ || _ then _ else n).
  assert (Hr : 0 < z <= MaxConSize).
  { unfold z. destruct (_ || _) eqn:E; [unfold MaxConSize; lia|].
    apply orb_false_iff in E as [E1 E2]. apply Z.leb_gt in E1. apply Z.ltb_ge in E2. lia. }
  clearbody z. assert (Ht : to_map (mkCMap (replicate (Z.to_nat z) ∅) z 0) = ∅)
    by apply foldr_union_empty.
  split; [|exact Ht]. constructor; cbn [size table count].
  - exact Hr.
  - unfold zlen. rewrite length_replicate. lia.
  - intros i sh k Hi [v Hk]. apply lookup_replicate in Hi as [-> _].
    by rewrite lookup_empty in Hk.
  - by rewrite Ht, map_size_empty.
Qed.

Lemma wp_map_Clear (pn : bool) m (Q : unit -> ConcurrentMap V -> Prop) :
  (forall m', WF m' -> to_map m' = ∅ -> Q tt m') -> wp pn Clear Q m.
Proof. intros HQ. apply wp_modify. destruct (WF_New (size m)) as [H1 H2]. exact (HQ _ H1 H2). Qed.

(** Shards hold disjoint keys. *)
Lemma placed_disjoint sz sh t off :
  placed sz (sh :: t) off -> sh ##ₘ foldr (∪) ∅ t /\ placed sz t (S off).
Proof.
  intros Hp. assert (Hp' : placed sz t (S off)).
  { intros i sh' k' Hi Hk. rewrite (Hp (S i) sh' k' Hi Hk). lia. }
  split; [|done]. apply map_disjoint_spec. intros k v v' H1 H2.
  rewrite (lookup_foldr_union sz t (S off)) in H2 by done.
  rewrite (Hp 0%nat sh k eq_refl (ex_intro _ v H1)) in H2.
  destruct (Z.of_nat (S off) <=? Z.of_nat (off + 0)) eqn:E; [|done]. apply Z.leb_le in E. lia.
Qed.

Lemma shard_keys_perm `{GoRuntime} sz n t off :
  placed sz t off -> shard_keys n t ≡ₚ elements (dom (foldr (∪) ∅ t)).
Proof.
  revert n off. induction t as [|sh t IH]; intros n off Hp; cbn.
  { by rewrite dom_empty_L, elements_empty. }
  apply placed_disjoint in Hp as [Hd Hp]. rewrite dom_union_L, elements_disj_union.
  - by rewrite range_order_perm, (IH (S n) (S off)).
  - by apply map_disjoint_dom.
Qed.

Lemma shard_keys_length `{GoRuntime} n t :
  length (shard_keys n t) = sum_list_with (fun sh => length (elements (dom sh))) t.
Proof.
  revert n. induction t as [|sh t IH]; intros n; [done|].
  cbn. by rewrite length_app, IH, range_order_perm.
Qed.

Lemma KeyVals_fold sz t off acc :
  placed sz t off -> fold_left (fun res sh => sh ∪ res) t acc = foldr (∪) ∅ t ∪ acc.
Proof.
  revert off acc. induction t as [|sh t IH]; intros off acc Hp; cbn.
  { by rewrite (left_id_L ∅ (∪)). }
  apply placed_disjoint in Hp as [Hd Hp]. rewrite (IH (S off)) by done.
  by rewrite (assoc_L (∪)), (map_union_comm sh) by done.
Qed.

Lemma wp_KeyVals (pn : bool) m (Q : gmap bytes V -> ConcurrentMap V -> Prop) :
  WF m -> Q (to_map m) m -> wp pn KeyVals Q m.
Proof.
  intros [_ _ Hp _] HQ. apply wp_gets. rewrite (KeyVals_fold (size m) _ 0) by done.
  by rewrite (right_id_L ∅ (∪)).
Qed.

(** [Keys] lists every key once, as long as the counter has not wrapped. *)
Lemma wp_Keys `{GoRuntime} (pn : bool) n m (Q : list bytes -> ConcurrentMap V -> Prop) :
  WF m -> Z.of_nat (base.size (to_map m)) <= MaxInt64 ->
  (forall ks, ks ≡ₚ elements (dom (to_map m)) -> Q ks m) ->
  wp pn (Keys n) Q m.
Proof.
  intros [_ _ Hp Hc] Hb HQ. unfold Keys. apply wp_bind, wp_get.
  pose proof (shard_keys_perm _ n _ _ Hp) as Hk. fold (to_map m) in Hk.
  assert (Hl : length (shard_keys n (table m)) = base.size (to_map m)).
  { rewrite Hk. change (length (elements (dom (to_map m)))) with (base.size (dom (to_map m))).
    apply size_dom. }
  rewrite i64_id in Hc by (unfold in_i64, MinInt64; lia).
  unfold zlen. rewrite Hl. zb. apply wp_ret. rewrite Hc, Nat2Z.id, Nat.sub_diag.
  cbn. rewrite app_nil_r. by apply HQ.
Qed.

(* ===================================================================== *)
(** ** Refinement: any sequence of operations                            *)
(* ===================================================================== *)

Inductive op : Type :=
| OSet (k : bytes) (v : V)
| OSetIfExist (k : bytes) (v : V)
| OSetIfNotExist (k : bytes) (v : V)
| OGet (k : bytes)
| ODelete (k : bytes)
| OLen
| OClear.

Inductive reply : Type :=
| RInt (n : Z)
| RVal (o : option V)
| RUnit.

Definition run_op (o : op) : M (ConcurrentMap V) reply :=
  match o with
  | OSet k v => n ← Set_ k v; mret (RInt n)
  | OSetIfExist k v => n ← SetIfExist k v; mret (RInt n)
  | OSetIfNotExist k v => n ← SetIfNotExist k v; mret (RInt n)
  | OGet k => v ← Get k; mret (RVal v)
  | ODelete k => n ← Delete k; mret (RInt n)
  | OLen => n ← Len; mret (RInt n)
  | OClear => Clear ;; mret RUnit
  end.

(** What a plain map does. *)
Definition spec_op (o : op) (f : gmap bytes V) : reply * gmap bytes V :=
  match o with
  | OSet k v => (RInt (if f !! k is Some _ then 0 else 1), <[k := v]> f)
  | OSetIfExist k v => if f !! k is Some _ then (RInt 1, <[k := v]> f) else (RInt 0, f)
  | OSetIfNotExist k v => if f !! k is Some _ then (RInt 0, f) else (RInt 1, <[k := v]> f)
  | OGet k => (RVal (f !! k), f)
  | ODelete k => (RInt (if f !! k is Some _ then 1 else 0), delete k f)
  | OLen => (RInt (i64 (Z.of_nat (base.size f))), f)
  | OClear => (RUnit, ∅)
  end.

Fixpoint run_ops (os : list op) : M (ConcurrentMap V) (list reply) :=
  match os with
  | [] => mret []
  | o :: os' => r ← run_op o; rs ← run_ops os'; mret (r :: rs)
  end.

Fixpoint spec_ops (os : list op) (f : gmap bytes V) : list reply * gmap bytes V :=
  match os with
  | [] => ([], f)
  | o :: os' =>
      let '(r, f1) := spec_op o f in
      let '(rs, f2) := spec_ops os' f1 in (r :: rs, f2)
  end.

Lemma wp_run_op (pn : bool) o m :
  WF m ->
  wp pn (run_op o) (fun r m' => WF m' /\ spec_op o (to_map m) = (r, to_map m')) m.
Proof.
  intros HWF. destruct o; cbn [run_op spec_op]; apply wp_bind;
    [apply wp_map_Set|apply wp_SetIfExist|apply wp_SetIfNotExist|apply wp_Get|apply wp_Delete
    |apply wp_Len|apply wp_map_Clear]; try done; intros; apply wp_ret;
    repeat match goal with H : to_map _ = _ |- _ => rewrite H | H : to_map _ !! _ = _ |- _ => rewrite H end;
    done.
Qed.

Lemma wp_run_ops (pn : bool) os m :
  WF m ->
  wp pn (run_ops os) (fun rs m' => WF m' /\ spec_ops os (to_map m) = (rs, to_map m')) m.
Proof.
  revert m. induction os as [|o os IH]; intros m HWF; cbn [run_ops spec_ops]; [by apply wp_ret|].
  apply wp_bind. eapply wp_mono; [|by apply wp_run_op]. cbn. intros r m1 [H1 ->].
  apply wp_bind. eapply wp_mono; [|by apply IH]. cbn. intros rs m2 [H2 ->]. by apply wp_ret.
Qed.

(** C14: the sharded map implements a plain map. From a new map of any
    requested size, every sequence of operations runs to completion without an
    index panic, each reply is the one a plain finite map gives, the invariant
    (placement, count) still holds, and the contents are the plain map's. *)
Theorem cmap_refines (n : Z) (os : list op) :
  exists rs m', run_ops os (NewConcurrentMap n) = Ret (rs, m') /\ WF m' /\
    spec_ops os ∅ = (rs, to_map m').
Proof.
  destruct (WF_New n) as [HW Ht].
  destruct (wp_run _ _ _ (wp_run_ops false os _ HW)) as (rs & m' & E & H1 & H2).
  rewrite Ht in H2. eauto.
Qed.
End cmap.

(** [Keys] on a well-formed map returns every key exactly once, in the
    runtime's order, and changes nothing; it cannot run past the slice it
    allocates from [count]. *)
Theorem Keys_exact {V} `{GoRuntime} (m : ConcurrentMap V) (n : nat)
  (HWF : WF m) (Hb : Z.of_nat (base.size (to_map m)) <= MaxInt64) :
  exists ks, Keys n m = Ret (ks, m) /\ NoDup ks /\ forall k, k ∈ ks <-> is_Some (to_map m !! k).
Proof.
  destruct (wp_run (Keys n) (fun ks m' => m' = m /\ ks ≡ₚ elements (dom (to_map m))) m)
    as (ks & m' & E & -> & Hp).
  { by apply wp_Keys. }
  exists ks. split; [done|]. split; [rewrite Hp; apply NoDup_elements|].
  intros k. by rewrite Hp, elem_of_elements, elem_of_dom.
Qed.

Lemma Keys_exact_witness :
  exists ks, @Keys Z plain_runtime 0 (NewConcurrentMap 4) = Ret (ks, NewConcurrentMap 4) /\ NoDup ks /\
    forall k, k ∈ ks <-> is_Some (to_map (V := Z) (NewConcurrentMap 4) !! k).
Proof.
  apply (@Keys_exact Z plain_runtime (NewConcurrentMap 4) 0).
  - apply (proj1 (WF_New 4)).
  - rewrite (proj2 (WF_New 4)), map_size_empty. unfold MaxInt64. lia.
Defined.

(* ===================================================================== *)
(** ** Concurrent [Set]s: the counter is not protected                   *)
(* ===================================================================== *)

(** [Set] run by several goroutines, one memory access at a time. [count] is
    shared by all shards but [m.count++] runs under one shard's lock only. *)
Module Race.

Inductive pc : Type :=
| Start
| Locked
| Loaded (c : Z)
| Counted
| Done.

Record thread (V : Type) : Type := mkThread { t_key : list ascii; t_val : V; t_pc : pc }.
Arguments mkThread {V} t_key t_val t_pc.
Arguments t_key {V} t.
Arguments t_val {V} t.
Arguments t_pc {V} t.

Definition holds_lock {V} (t : thread V) : bool :=
  match t_pc t with Start | Done => false | _ => true end.

Definition at_pc {V} (t : thread V) (p : pc) : thread V := mkThread (t_key t) (t_val t) p.

Section race.
Context {V : Type}.
Implicit Types (m : ConcurrentMap V) (ts : list (thread V)).

(** Thread [i] takes one step; [None] when it cannot. *)
Definition step (i : nat) (st : ConcurrentMap V * list (thread V)) :
    option (ConcurrentMap V * list (thread V)) :=
  let '(m, ts) := st in
  t ← ts !! i;
  let go m' p := Some (m', <[i := at_pc t p]> ts) in
  let pos := getKeyPos m (t_key t) in
  sh ← znth (table m) pos;
  match t_pc t with
  | Start =>
      if existsb (fun u => holds_lock u && (getKeyPos m (t_key u) =? pos)) ts then None
      else go m Locked
  | Locked => go m (match sh !! t_key t with Some _ => Counted | None => Loaded (count m) end)
  | Loaded c => go (mkCMap (table m) (size m) (i64 (c + 1))) Counted
  | Counted =>
      go (mkCMap (<[Z.to_nat pos := <[t_key t := t_val t]> sh]> (table m)) (size m) (count m)) Done
  | Done => None
  end.

Definition run (sched : list nat) (st : ConcurrentMap V * list (thread V)) :
    option (ConcurrentMap V * list (thread V)) :=
  fold_left (fun o i => st ← o; step i st) sched (Some st).
End race.

Definition two_sets : ConcurrentMap Z * list (thread Z) :=
  (NewConcurrentMap 16, [mkThread (bs "a") 1 Start; mkThread (bs "b") 2 Start]).

(** two concurrent [Set]s of new keys in different shards can lose an
    increment of [count]; a later [Keys] then writes past its slice and
    panics, under every runtime. *)
Theorem lost_count (rt : GoRuntime) (n : nat) :
  exists m ts, run [0; 0; 1; 1; 0; 1; 0; 1]%nat two_sets = Some (m, ts) /\
    Forall (fun t => t_pc t = Done) ts /\ count m = 1 /\ base.size (to_map m) = 2%nat /\
    Keys n m = Panic.
Proof.
  destruct (run [0; 0; 1; 1; 0; 1; 0; 1]%nat two_sets) as [[m ts]|] eqn:E;
    vm_compute in E; [|discriminate].
  injection E as <- <-. eexists _, _. split; [reflexivity|].
  split; [by repeat constructor|]. split; [reflexivity|]. split; [vm_compute; reflexivity|].
  unfold Keys, get, mbind, M_bind. cbv beta iota.
  unfold zlen. cbn [table count]. rewrite shard_keys_length. vm_compute. reflexivity.
Qed.
End Race.
