(* ===== verification/Locks.v ===== *)
(** * Locks: the striped key locks (src/memdb/dblock.go)

    [Locks] is an array of [sync.RWMutex]; a key is guarded by the mutex
    [HashKey key % len]. Commands lock the mutexes of all their keys in
    increasing order ([LockMulti], [RLockMulti]).

    The first part runs the operations for one goroutine: locking a mutex that
    is held blocks for ever, unlocking a free one is a fatal error. The second
    part ([Protocol]) interleaves any number of goroutines that follow the
    discipline of [LockMulti] and shows mutual exclusion and the absence of
    deadlock. *)

From S2P Require Import Prelude Util.

Record RWMutex : Type := mkRW { writer : bool; readers : Z }.

#[export] Instance RWMutex_eq_dec : EqDecision RWMutex.
Proof. solve_decision. Defined.

Definition mu_free : RWMutex := mkRW false 0.

Abbreviation Locks := (list RWMutex).

Definition NewLocks (size : Z) : outcome Locks :=
  if size <? 0 then Panic else Ret (replicate (Z.to_nat size) mu_free).

(** [pos % len(l.locks)]: division by zero panics. *)
Definition GetKeyPos (key : bytes) : M Locks Z :=
  l ← get;
  if zlen l =? 0 then panic else mret (Z.rem (HashKey key) (zlen l)).

(** One method call on [l.locks[pos]]. *)
Definition at_pos (f : RWMutex -> outcome RWMutex) (pos : Z) : M Locks unit := fun l =>
  match znth l pos with
  | None => Panic
  | Some mu =>
      match f mu with
      | Ret mu' => Ret (tt, <[Z.to_nat pos := mu']> l)
      | Panic => Panic
      | Block => Block
      end
  end.

(** [sync.RWMutex]. *)
Definition mu_Lock (mu : RWMutex) : outcome RWMutex :=
  if writer mu || (0 <? readers mu) then Block else Ret (mkRW true (readers mu)).
Definition mu_Unlock (mu : RWMutex) : outcome RWMutex :=
  if writer mu then Ret (mkRW false (readers mu)) else Panic.
Definition mu_RLock (mu : RWMutex) : outcome RWMutex :=
  if writer mu then Block else Ret (mkRW false (readers mu + 1)).
Definition mu_RUnlock (mu : RWMutex) : outcome RWMutex :=
  if 0 <? readers mu then Ret (mkRW (writer mu) (readers mu - 1)) else Panic.

Definition Lock (key : bytes) : M Locks unit :=
  pos ← GetKeyPos key;
  if pos =? -1 then mret tt else at_pos mu_Lock pos.

Definition UnLock (key : bytes) : M Locks unit :=
  pos ← GetKeyPos key; at_pos mu_Unlock pos.

Definition RLock (key : bytes) : M Locks unit :=
  pos ← GetKeyPos key; at_pos mu_RLock pos.

Definition RUnLock (key : bytes) : M Locks unit :=
  pos ← GetKeyPos key; at_pos mu_RUnlock pos.

Fixpoint key_poses (keys : list bytes) : M Locks (option (list Z)) :=
  match keys with
  | [] => mret (Some [])
  | key :: keys' =>
      pos ← GetKeyPos key;
      if pos =? -1 then mret None
      else rest ← key_poses keys'; mret ((pos ::.) <$> rest)
  end.

(** [sort.Ints] of the distinct positions; the map's iteration order does not
    survive the sort. *)
Definition sort_poses (ps : list Z) : list Z :=
  merge_sort Z.le (elements (list_to_set ps : gset Z)).

Definition sortedLockPoses (keys : list bytes) : M Locks (option (list Z)) :=
  ps ← key_poses keys; mret (sort_poses <$> ps).

Definition each_pos (f : RWMutex -> outcome RWMutex) (keys : list bytes) : M Locks unit :=
  ps ← sortedLockPoses keys;
  match ps with
  | None => mret tt
  | Some ps => forM ps (at_pos f)
  end.

Definition LockMulti (keys : list bytes) : M Locks unit := each_pos mu_Lock keys.
Definition UnLockMulti (keys : list bytes) : M Locks unit := each_pos mu_Unlock keys.
Definition RLockMulti (keys : list bytes) : M Locks unit := each_pos mu_RLock keys.
Definition RUnLockMulti (keys : list bytes) : M Locks unit := each_pos mu_RUnlock keys.

(* ===================================================================== *)
(** ** One goroutine: acquire, then release                              *)
(* ===================================================================== *)

Definition all_free (l : Locks) : Prop := l <> [] /\ Forall (.= mu_free) l.

Definition poses (n : Z) (keys : list bytes) : list Z :=
  sort_poses (map (fun k => Z.rem (HashKey k) n) keys).

Lemma key_pos_range k n : 0 < n -> 0 <= Z.rem (HashKey k) n < n.
Proof. intros. pose proof (HashKey_range k). apply Z.rem_bound_pos; lia. Qed.

Lemma zlen_pos {A} (l : list A) : l <> [] -> 0 < zlen l.
Proof. destruct l; [done|]. intros _. rewrite zlen_cons. pose proof (zlen_nonneg l). lia. Qed.

Lemma GetKeyPos_run key l : l <> [] -> GetKeyPos key l = Ret (Z.rem (HashKey key) (zlen l), l).
Proof.
  intros Hl%zlen_pos. unfold GetKeyPos, get, mbind, M_bind. cbv beta iota. by zb.
Qed.

Lemma key_poses_run keys l :
  l <> [] -> key_poses keys l = Ret (Some (map (fun k => Z.rem (HashKey k) (zlen l)) keys), l).
Proof.
  intros Hl. induction keys as [|k keys IH]; [done|].
  cbn [key_poses]. unfold mbind, M_bind. rewrite GetKeyPos_run by done.
  pose proof (key_pos_range k (zlen l) (zlen_pos _ Hl)). zb. by rewrite IH.
Qed.

Lemma each_pos_run f keys l : l <> [] -> each_pos f keys l = forM (poses (zlen l) keys) (at_pos f) l.
Proof.
  intros Hl. unfold each_pos, sortedLockPoses, mbind, M_bind. by rewrite key_poses_run.
Qed.

Lemma sort_poses_elem p ps : p ∈ sort_poses ps <-> p ∈ ps.
Proof. unfold sort_poses. by rewrite merge_sort_Permutation, elem_of_elements, elem_of_list_to_set. Qed.

Lemma sort_poses_NoDup ps : NoDup (sort_poses ps).
Proof. unfold sort_poses. rewrite merge_sort_Permutation. apply NoDup_elements. Qed.

Lemma sort_poses_sorted ps : StronglySorted Z.lt (sort_poses ps).
Proof.
  assert (Hs : StronglySorted Z.le (sort_poses ps)).
  { apply (StronglySorted_merge_sort Z.le). }
  pose proof (sort_poses_NoDup ps) as Hn. induction Hs as [|x l Hs IH Hx]; [constructor|].
  apply NoDup_cons in Hn as [Hni Hn]. constructor; [auto|].
  rewrite Forall_forall in *. intros y Hy. specialize (Hx y Hy).
  assert (x <> y) by (by intros ->). lia.
Qed.

Lemma poses_range n keys p : 0 < n -> p ∈ poses n keys -> 0 <= p < n.
Proof.
  intros Hn. unfold poses. rewrite sort_poses_elem. intros (k & -> & _)%list_elem_of_fmap.
  by apply key_pos_range.
Qed.

(** All the mutexes at [ps] set to [mu]. *)
Definition put_all (mu : RWMutex) (ps : list Z) (l : Locks) : Locks :=
  fold_left (fun l p => <[Z.to_nat p := mu]> l) ps l.

Lemma put_all_cons mu p ps l : put_all mu (p :: ps) l = put_all mu ps (<[Z.to_nat p := mu]> l).
Proof. done. Qed.

Lemma length_put_all mu ps l : length (put_all mu ps l) = length l.
Proof.
  revert l. induction ps as [|p ps IH]; intros l; [done|].
  rewrite put_all_cons, IH. apply length_insert.
Qed.

Lemma lookup_put_all_ne mu ps l i :
  (forall p, p ∈ ps -> Z.to_nat p <> i) -> put_all mu ps l !! i = l !! i.
Proof.
  revert l. induction ps as [|p ps IH]; intros l Hi; [done|].
  rewrite put_all_cons, IH by (intros q Hq; apply Hi; by right).
  rewrite list_lookup_insert_ne; [done|]. apply Hi. left.
Qed.

Lemma lookup_put_all_in mu ps l p :
  p ∈ ps -> (Z.to_nat p < length l)%nat -> put_all mu ps l !! Z.to_nat p = Some mu.
Proof.
  revert l p. induction ps as [|q ps IH]; intros l p Hp Hl; [by apply elem_of_nil in Hp|].
  rewrite put_all_cons.
  destruct (decide (Exists (fun r => Z.to_nat r = Z.to_nat p) ps)) as [He|Hne].
  - apply Exists_exists in He as (r & Hr & E). rewrite <- E. apply IH; [done|].
    rewrite length_insert. lia.
  - rewrite lookup_put_all_ne by (intros r Hr E; apply Hne, Exists_exists; eauto).
    apply elem_of_cons in Hp as [->|Hp]; [by apply list_lookup_insert_eq|].
    exfalso. apply Hne, Exists_exists. eauto.
Qed.

Lemma forM_at_pos f mu mu' ps l :
  f mu = Ret mu' -> NoDup ps ->
  (forall p, p ∈ ps -> 0 <= p /\ l !! Z.to_nat p = Some mu) ->
  forM ps (at_pos f) l = Ret (tt, put_all mu' ps l).
Proof.
  intros Hf Hn. revert l. induction Hn as [|p ps Hp Hn IH]; intros l Hl; [done|].
  destruct (Hl p) as [Hp0 Hlp]; [left|].
  unfold forM. cbn [foldM]. unfold mbind, M_bind at 1. unfold at_pos at 1. unfold znth. zb.
  rewrite Hlp, Hf. apply IH. intros q Hq. destruct (Hl q) as [Hq0 Hlq]; [by right|].
  split; [done|]. rewrite list_lookup_insert_ne; [done|].
  intros Hpq. apply Hp. by replace p with q by lia.
Qed.

(** Acquiring the mutexes at [ps] and releasing them gives the state back. *)
Lemma acquire_release f g mu' ps l :
  f mu_free = Ret mu' -> g mu' = Ret mu_free -> NoDup ps ->
  (forall p, p ∈ ps -> 0 <= p /\ l !! Z.to_nat p = Some mu_free) ->
  forM ps (at_pos f) l = Ret (tt, put_all mu' ps l) /\
  forM ps (at_pos g) (put_all mu' ps l) = Ret (tt, l).
Proof.
  intros Hf Hg Hn Hl. split; [by eapply forM_at_pos|].
  rewrite (forM_at_pos g mu' mu_free); [|done..|].
  - do 2 f_equal. apply list_eq. intros i.
    destruct (decide (Exists (fun r => Z.to_nat r = i) ps)) as [He|Hne].
    + apply Exists_exists in He as (r & Hr & <-). destruct (Hl r Hr) as [_ E].
      rewrite lookup_put_all_in; [done|done|]. rewrite length_put_all. by eapply lookup_lt_Some.
    + assert (forall p, p ∈ ps -> Z.to_nat p <> i)
        by (intros q Hq E; apply Hne, Exists_exists; eauto).
      by rewrite !lookup_put_all_ne.
  - intros p Hp. destruct (Hl p Hp) as [? E]. split; [done|].
    apply lookup_put_all_in; [done|]. by eapply lookup_lt_Some.
Qed.

Lemma all_free_poses l keys p :
  all_free l -> p ∈ poses (zlen l) keys -> 0 <= p /\ l !! Z.to_nat p = Some mu_free.
Proof.
  intros [Hne Hf] Hp. apply poses_range in Hp; [|by apply zlen_pos]. split; [lia|].
  destruct (lookup_lt_is_Some_2 l (Z.to_nat p)) as [mu E]; [unfold zlen in Hp; lia|].
  rewrite E. f_equal. by eapply (Forall_lookup_1 _ _ _ _ Hf).
Qed.

(** [lock keys] then [unlock keys] around code that leaves the locks alone. *)
Definition balanced (lock unlock : M Locks unit) (l : Locks) : Prop :=
  exists l', lock l = Ret (tt, l') /\ unlock l' = Ret (tt, l).

Lemma balanced_multi f g mu' keys l :
  f mu_free = Ret mu' -> g mu' = Ret mu_free -> all_free l ->
  balanced (each_pos f keys) (each_pos g keys) l.
Proof.
  intros Hf Hg Hl. destruct (acquire_release f g mu' (poses (zlen l) keys) l) as [E1 E2];
    [done..|apply sort_poses_NoDup|by intros; eapply all_free_poses|].
  exists (put_all mu' (poses (zlen l) keys) l).
  assert (put_all mu' (poses (zlen l) keys) l <> []).
  { destruct Hl as [Hl _]. intros E%(f_equal length). rewrite length_put_all in E. by destruct l. }
  rewrite !each_pos_run; [|done|by apply Hl].
  unfold zlen in *. by rewrite length_put_all.
Qed.

Lemma balanced_single f g mu' key l :
  f mu_free = Ret mu' -> g mu' = Ret mu_free -> all_free l ->
  balanced (pos ← GetKeyPos key; at_pos f pos) (pos ← GetKeyPos key; at_pos g pos) l.
Proof.
  intros Hf Hg Hl. set (p := Z.rem (HashKey key) (zlen l)).
  destruct (acquire_release f g mu' [p] l) as [E1 E2]; [done..|apply NoDup_singleton| |].
  { intros q ->%list_elem_of_singleton. apply (all_free_poses l [key]); [done|].
    unfold poses. rewrite sort_poses_elem. left. }
  exists (put_all mu' [p] l). split.
  - unfold mbind, M_bind. rewrite GetKeyPos_run by apply Hl. fold p.
    revert E1. unfold forM. cbn [foldM]. unfold mbind, M_bind. by destruct (at_pos f p l) as [[[] ?]| |].
  - assert (put_all mu' [p] l <> []).
    { destruct Hl as [Hl _]. intros E%(f_equal length). rewrite length_put_all in E. by destruct l. }
    unfold mbind, M_bind. rewrite GetKeyPos_run by done.
    unfold zlen. rewrite length_put_all. fold (zlen l). fold p.
    revert E2. unfold forM. cbn [foldM]. unfold mbind, M_bind.
    by destruct (at_pos g p _) as [[[] ?]| |].
Qed.

(** The three pairs the commands use. *)
Lemma balanced_LockMulti keys l : all_free l -> balanced (LockMulti keys) (UnLockMulti keys) l.
Proof. by apply balanced_multi with (mkRW true 0). Qed.

Lemma balanced_RLockMulti keys l : all_free l -> balanced (RLockMulti keys) (RUnLockMulti keys) l.
Proof. by apply balanced_multi with (mkRW false 1). Qed.

Lemma balanced_RLock key l : all_free l -> balanced (RLock key) (RUnLock key) l.
Proof. by apply balanced_single with (mkRW false 1). Qed.

Lemma balanced_Lock key l : all_free l -> balanced (Lock key) (UnLock key) l.
Proof.
  intros Hl. destruct (balanced_single mu_Lock mu_Unlock (mkRW true 0) key l) as (l' & E1 & E2);
    [done..|]. exists l'. split; [|done]. revert E1. unfold Lock, mbind, M_bind.
  rewrite GetKeyPos_run by apply Hl.
  pose proof (key_pos_range key (zlen l) (zlen_pos _ (proj1 Hl))). by zb.
Qed.

(** a command that locks several keys and unlocks the same keys finds the
    lock table as it left it, even when keys repeat or collide on one mutex:
    [sortedLockPoses] visits each mutex once. *)
Theorem LockMulti_UnLockMulti (keys : list bytes) (l : Locks) (Hl : all_free l) :
  exists l', LockMulti keys l = Ret (tt, l') /\
    (forall k, k ∈ keys -> l' !! Z.to_nat (Z.rem (HashKey k) (zlen l)) = Some (mkRW true 0)) /\
    UnLockMulti keys l' = Ret (tt, l).
Proof.
  destruct (balanced_LockMulti keys l Hl) as (l' & E1 & E2). exists l'. split; [done|].
  split; [|done]. intros k Hk. unfold LockMulti in E1. rewrite each_pos_run in E1 by apply Hl.
  rewrite (forM_at_pos mu_Lock mu_free (mkRW true 0)) in E1;
    [|done|apply sort_poses_NoDup|by intros; eapply all_free_poses].
  assert (Hin : Z.rem (HashKey k) (zlen l) ∈ poses (zlen l) keys).
  { unfold poses. rewrite sort_poses_elem. by apply (list_elem_of_fmap_2 (fun k => Z.rem (HashKey k) (zlen l))). }
  injection E1 as <-. apply lookup_put_all_in; [done|].
  destruct (all_free_poses _ _ _ Hl Hin) as [_ E]. by eapply lookup_lt_Some.
Qed.

Lemma LockMulti_UnLockMulti_witness :
  exists l', LockMulti [bs "a"; bs "b"; bs "a"] (replicate 4 mu_free) = Ret (tt, l') /\
    (forall k, k ∈ [bs "a"; bs "b"; bs "a"] ->
       l' !! Z.to_nat (Z.rem (HashKey k) (zlen (replicate 4 mu_free))) = Some (mkRW true 0)) /\
    UnLockMulti [bs "a"; bs "b"; bs "a"] l' = Ret (tt, replicate 4 mu_free).
Proof.
  apply (LockMulti_UnLockMulti [bs "a"; bs "b"; bs "a"] (replicate 4 mu_free)).
  split; [done|]. apply Forall_replicate. reflexivity.
Defined.

(* ===================================================================== *)
(** ** Many goroutines                                                   *)
(* ===================================================================== *)

Module Protocol.

Inductive mode : Type := R | W.

#[export] Instance mode_eq_dec : EqDecision mode.
Proof. solve_decision. Defined.

(** A goroutine inside a command: the mutexes it holds and those it has still
    to acquire, in the order of [LockMulti] or [RLockMulti]. Idle when both are
    empty. *)
Record thread : Type := mkT { md : mode; held : list Z; todo : list Z }.

Definition idle : thread := mkT R [] [].
Definition busy (t : thread) : Prop := held t <> [] \/ todo t <> [].

(** No holder of [p] conflicts with a request in mode [m] (a request by the
    holder itself included: [RWMutex] is not reentrant for writers). *)
Definition grantable (ts : list thread) (m : mode) (p : Z) : Prop :=
  Forall (fun u => p ∈ held u -> m = R /\ md u = R) ts.

(** A reader is also held up by a writer that already waits for [p]; a request
    that is [due] succeeds whichever waiting writers have announced
    themselves. *)
Definition due (ts : list thread) (m : mode) (p : Z) : Prop :=
  grantable ts m p /\ (m = R -> Forall (fun u => md u = W -> head (todo u) <> Some p) ts).

Section protocol.
Context (n : Z) (Hn : 0 < n).

Inductive step : list thread -> list thread -> Prop :=
| step_start ts i t m keys :
    ts !! i = Some t -> held t = [] -> todo t = [] ->
    step ts (<[i := mkT m [] (poses n keys)]> ts)
| step_acquire ts i t p ps :
    ts !! i = Some t -> todo t = p :: ps -> grantable ts (md t) p ->
    step ts (<[i := mkT (md t) (held t ++ [p]) ps]> ts)
| step_release ts i t p ps :
    ts !! i = Some t -> todo t = [] -> held t = p :: ps ->
    step ts (<[i := mkT (md t) ps []]> ts).

Definition reachable (ts : list thread) : Prop := exists k, rtc step (replicate k idle) ts.

Definition ordered (t : thread) : Prop :=
  todo t <> [] -> StronglySorted Z.lt (held t ++ todo t) /\ Forall (fun p => 0 <= p < n) (todo t).

Definition exclusive (ts : list thread) : Prop := forall i j t u p,
  i <> j -> ts !! i = Some t -> ts !! j = Some u -> p ∈ held t -> p ∈ held u ->
  md t = R /\ md u = R.

Definition Inv (ts : list thread) : Prop := Forall ordered ts /\ exclusive ts.

Lemma ordered_start m keys : ordered (mkT m [] (poses n keys)).
Proof.
  intros _. split; [apply sort_poses_sorted|]. apply Forall_forall. intros p. by apply poses_range.
Qed.

Lemma exclusive_update ts i t t' :
  exclusive ts -> ts !! i = Some t ->
  (forall p, p ∈ held t' -> p ∈ held t /\ md t' = md t \/
     forall j u, j <> i -> ts !! j = Some u -> p ∈ held u -> md t' = R /\ md u = R) ->
  exclusive (<[i := t']> ts).
Proof.
  intros He Hi Hp a b x y p Hab Ha Hb Hx Hy.
  apply list_lookup_insert_Some in Ha as [(<- & <- & _)|[Hia Ha]];
    apply list_lookup_insert_Some in Hb as [(<- & <- & _)|[Hib Hb]].
  - done.
  - destruct (Hp p Hx) as [[Ht ->]|Hc]; [by eapply (He i b)|]. by eapply Hc.
  - destruct (Hp p Hy) as [[Ht ->]|Hc]; [by eapply (He a i)|]. apply and_comm. by eapply Hc.
  - by eapply (He a b).
Qed.

Lemma step_Inv ts ts' : step ts ts' -> Inv ts -> Inv ts'.
Proof.
  intros Hs [Ho He]. destruct Hs as [ts i t m keys Hi Hh Ht|ts i t p ps Hi Ht Hg|ts i t p ps Hi Ht Hh].
  - split; [apply Forall_insert; [done|]; apply ordered_start|].
    eapply exclusive_update; [done..|]. cbn. by intros p Hp%elem_of_nil.
  - split.
    + apply Forall_insert; [done|]. intros _. cbn [held todo].
      destruct (Forall_lookup_1 _ _ _ _ Ho Hi) as [H1 H2]; [by rewrite Ht|].
      rewrite Ht in H1, H2. rewrite <- (assoc_L (++)). apply Forall_cons in H2 as [_ H2]. done.
    + eapply exclusive_update; [done..|]. cbn [held md]. intros q [Hq|Hq]%elem_of_app; [by left|].
      right. intros j u Hj Hu Hqu. apply list_elem_of_singleton in Hq as ->.
      by apply (Forall_lookup_1 _ _ _ _ Hg Hu).
  - split; [by apply Forall_insert|]. eapply exclusive_update; [done..|].
    cbn [held md]. intros q Hq. left. rewrite Hh. split; [by right|done].
Qed.

Lemma reachable_Inv ts : reachable ts -> Inv ts.
Proof.
  intros [k Hr]. remember (replicate k idle) as ts0 eqn:E0.
  assert (H0 : Inv ts0).
  { subst. split; [by apply Forall_replicate|].
    intros i j t u p _ Hi _ Hp _. apply lookup_replicate in Hi as [-> _]. by apply elem_of_nil in Hp. }
  clear E0. induction Hr; [done|]. eauto using step_Inv.
Qed.

(** A goroutine that can take its next step now. *)
Definition can_step (ts : list thread) : Prop := exists i t, ts !! i = Some t /\
  ((todo t = [] /\ held t <> []) \/ exists p ps, todo t = p :: ps /\ due ts (md t) p).

Lemma waiting_progress ts d : Inv ts -> forall i t p ps,
  n - p <= Z.of_nat d -> ts !! i = Some t -> todo t = p :: ps -> can_step ts.
Proof.
  intros [Ho He]. induction d as [|d IH]; intros i t p ps Hd Hi Ht.
  { destruct (Forall_lookup_1 _ _ _ _ Ho Hi) as [_ H]; [by rewrite Ht|].
    rewrite Ht in H. apply Forall_cons in H as [H _]. lia. }
  destruct (decide (Exists (fun u => p ∈ held u) ts)) as [Hx|Hx].
  - apply Exists_exists in Hx as (u & Hu & Hpu).
    apply list_elem_of_lookup in Hu as [j Hj]. destruct (todo u) as [|q qs] eqn:Hq.
    + exists j, u. split; [done|]. left. split; [done|]. intros E. rewrite E in Hpu. by apply elem_of_nil in Hpu.
    + apply (IH j u q qs); [|done|done].
      destruct (Forall_lookup_1 _ _ _ _ Ho Hj) as [Hs _]; [by rewrite Hq|]. rewrite Hq in Hs.
      assert (p < q); [|lia]. eapply (StronglySorted_app_1_elem_of Z.lt); [done|done|left].
  - assert (Hg : forall m, grantable ts m p).
    { intros m. apply Forall_forall. intros u Hu Hp. exfalso. apply Hx, Exists_exists. eauto. }
    destruct (decide (Exists (fun u => md u = W /\ head (todo u) = Some p) ts)) as [Hw|Hw].
    + apply Exists_exists in Hw as (u & Hu & Hmd & Hh). apply list_elem_of_lookup in Hu as [j Hj].
      exists j, u. split; [done|]. right. destruct (todo u) as [|q qs]; [done|]. injection Hh as ->.
      exists p, qs. split; [done|]. split; [done|]. by rewrite Hmd.
    + exists i, t. split; [done|]. right. exists p, ps. split; [done|]. split; [done|].
      intros _. apply Forall_forall. intros u Hu Hmd Hh. apply Hw, Exists_exists. eauto.
Qed.

Lemma no_deadlock_aux ts : reachable ts -> Exists busy ts -> can_step ts.
Proof.
  intros Hr (t & Hin & Hb)%Exists_exists. apply reachable_Inv in Hr.
  apply list_elem_of_lookup in Hin as [i Hi]. destruct (todo t) as [|p ps] eqn:Ht.
  - exists i, t. split; [done|]. left. destruct Hb as [Hb|Hb]; done.
  - apply (waiting_progress ts (Z.to_nat (n - p)) Hr i t p ps); [lia|done..].
Qed.
End protocol.

(** C27: no deadlock. Whatever commands the goroutines run and however they are
    interleaved, as long as some goroutine is inside a command one of them can
    take its next step, even if every waiting writer is served before readers. *)
Theorem no_deadlock (n : Z) (Hn : 0 < n) (ts : list thread)
  (Hr : reachable n ts) (Hb : Exists busy ts) : can_step ts.
Proof. by eapply no_deadlock_aux. Qed.

Definition demo : list thread := [mkT W [] (poses 4 [bs "a"; bs "b"]); idle].

Lemma demo_reachable : reachable 4 demo.
Proof.
  exists 2%nat. eapply rtc_l; [|apply rtc_refl].
  exact (step_start 4 [idle; idle] 0 idle W [bs "a"; bs "b"] eq_refl eq_refl eq_refl).
Qed.

Lemma no_deadlock_witness : can_step demo.
Proof.
  apply (no_deadlock 4 ltac:(lia) demo demo_reachable).
  left. right. vm_compute. discriminate.
Defined.


Definition reader (h t : list Z) : thread := mkT R h t.
Definition key_b : list Z := poses 2 [bs "b"].
Definition two_readers : list thread := [reader key_b []; reader key_b []].

Lemma two_readers_reachable : reachable 2 two_readers.
Proof.
  assert (Hb : key_b = [HashKey (bs "b") `rem` 2]) by (vm_compute; reflexivity).
  exists 2%nat. change (replicate 2 idle) with [idle; idle].
  eapply rtc_l; [by apply (step_start 2 [idle; idle] 0 idle R [bs "b"])|].
  eapply rtc_l; [by apply (step_start 2 [reader [] key_b; idle] 1 idle R [bs "b"])|].
  unfold two_readers. cbn [list_insert insert]. fold key_b. rewrite Hb.
  eapply rtc_l; [eapply (step_acquire 2 _ 0); [done|done|]|].
  { by repeat constructor. }
  eapply rtc_l; [eapply (step_acquire 2 _ 1); [done|done|]|].
  { by repeat constructor. }
  apply rtc_refl.
Qed.

End Protocol.
