(* ===== verification/ListStruct.v ===== *)
(** * ListStruct: the doubly linked list (src/memdb/list_struct.go)

    A list owns its nodes: [heap] maps a node's address to the node, [None] is
    the nil pointer, and dereferencing it panics. [Head] and [Tail] are
    sentinels that carry no element. The operations follow the pointer
    assignments of the source one by one.

    [rep l vs] says that the forward and backward links between the sentinels
    spell the values [vs]; it is preserved by every operation, and each
    operation implements its counterpart on [vs]. [Len] is a field of its own:
    [RemoveElement] and the two inserts do not maintain it, so the theorems say
    which operations keep [Len = length vs] ([wfl]).

    [AddSubscribe] has no caller; [LSubscriptions] holds the channels in the
    order [range] visits them, and [sent] the values sent to them. *)

From S2P Require Import Prelude.

Abbreviation loc := nat.

Record ListNode : Type := mkNode {
  Prev : option loc;
  Next : option loc;
  Val : slice
}.

Record List : Type := mkList {
  heap : gmap loc ListNode;
  fresh : loc;
  Head : loc;
  Tail : loc;
  Len : Z;
  LSubscriptions : list nat;
  sent : list (nat * slice)
}.

Definition NewList : List :=
  let head := mkNode None (Some 1%nat) NilSlice in
  let tail := mkNode (Some 0%nat) None NilSlice in
  mkList (<[1%nat := tail]> (<[0%nat := head]> ∅)) 2 0 1 0 [] [].

Definition set_heap (h : gmap loc ListNode) (l : List) : List :=
  mkList h (fresh l) (Head l) (Tail l) (Len l) (LSubscriptions l) (sent l).
Definition set_Len (n : Z) (l : List) : List :=
  mkList (heap l) (fresh l) (Head l) (Tail l) n (LSubscriptions l) (sent l).

(* ===================================================================== *)
(** ** Pointer operations                                                *)
(* ===================================================================== *)

(** [*p]. *)
Definition deref (p : option loc) : M List (loc * ListNode) :=
  l ← get;
  or_panic (a ← p; nd ← heap l !! a; Some (a, nd)).

Definition getNext (p : option loc) : M List (option loc) := '(_, nd) ← deref p; mret (Next nd).
Definition getPrev (p : option loc) : M List (option loc) := '(_, nd) ← deref p; mret (Prev nd).
Definition getVal (p : option loc) : M List slice := '(_, nd) ← deref p; mret (Val nd).

Definition putNode (a : loc) (nd : ListNode) : M List unit :=
  modify (fun l => set_heap (<[a := nd]> (heap l)) l).

Definition setNext (p : option loc) (q : option loc) : M List unit :=
  '(a, nd) ← deref p; putNode a (mkNode (Prev nd) q (Val nd)).
Definition setPrev (p : option loc) (q : option loc) : M List unit :=
  '(a, nd) ← deref p; putNode a (mkNode q (Next nd) (Val nd)).
Definition setVal (p : option loc) (v : slice) : M List unit :=
  '(a, nd) ← deref p; putNode a (mkNode (Prev nd) (Next nd) v).

(** [&ListNode{...}]. *)
Definition alloc (nd : ListNode) : M List (option loc) := fun l =>
  Ret (Some (fresh l),
       mkList (<[fresh l := nd]> (heap l)) (S (fresh l)) (Head l) (Tail l) (Len l)
              (LSubscriptions l) (sent l)).

Definition getHead : M List (option loc) := gets (fun l => Some (Head l)).
Definition getTail : M List (option loc) := gets (fun l => Some (Tail l)).
Definition getLen : M List Z := gets Len.
Definition putLen (n : Z) : M List unit := modify (set_Len (i64 n)).

(* ===================================================================== *)
(** ** Operations                                                        *)
(* ===================================================================== *)

(** [for i := 0; i < n; i++ { node = f(node) }]. *)
Fixpoint walk (f : option loc -> M List (option loc)) (n : nat) (p : option loc) : M List (option loc) :=
  match n with
  | O => mret p
  | S n' => p' ← f p; walk f n' p'
  end.

Definition Index (index : Z) : M List (option loc) :=
  len ← getLen;
  if index <? 0 then
    if len <? i64 (- index) then mret None
    else
      t ← getTail; node ← getPrev t;
      walk getPrev (Z.to_nat (-1 - index)) node
  else if len <=? index then mret None
  else
    h ← getHead; node ← getNext h;
    walk getNext (Z.to_nat index) node.

Definition loop_fuel : M List nat := gets (fun l => S (size (heap l))).

(** The scan from [Head.Next] up to [Tail] for the first node that holds
    [tar], with its position; [fuel] bounds the nodes. *)
Fixpoint find_loop (fuel : nat) (tar : slice) (now : option loc) (pos : Z) :
    M List (option (option loc * Z)) :=
  match fuel with
  | O => block
  | S f =>
      t ← getTail;
      if bool_decide (now = t) then mret None
      else
        v ← getVal now;
        if beq (str v) (str tar) then mret (Some (now, pos))
        else next ← getNext now; find_loop f tar next (pos + 1)
  end.

Definition Pos (val : slice) : M List Z :=
  fuel ← loop_fuel; h ← getHead; now ← getNext h;
  r ← find_loop fuel val now 0;
  mret (match r with Some (_, pos) => pos | None => -1 end).

Definition LPop : M List (option loc) :=
  len ← getLen;
  if len =? 0 then mret None
  else
    h ← getHead;
    node ← getNext h;
    n1 ← getNext node;
    setNext h n1 ;;
    n2 ← getNext node;
    setPrev n2 h ;;
    setPrev node None ;;
    setNext node None ;;
    len' ← getLen;
    putLen (len' - 1) ;;
    mret node.

Definition RPop : M List (option loc) :=
  len ← getLen;
  if len =? 0 then mret None
  else
    t ← getTail;
    node ← getPrev t;
    p1 ← getPrev node;
    setPrev t p1 ;;
    p2 ← getPrev node;
    setNext p2 t ;;
    setPrev node None ;;
    setNext node None ;;
    len' ← getLen;
    putLen (len' - 1) ;;
    mret node.

(** [val := l.LPop().Val; out <- val] for the first subscription. *)
Definition serve_subscription : M List unit :=
  l ← get;
  match LSubscriptions l with
  | [] => mret tt
  | out :: _ =>
      node ← LPop; v ← getVal node;
      modify (fun l => mkList (heap l) (fresh l) (Head l) (Tail l) (Len l) (LSubscriptions l)
                              (sent l ++ [(out, v)]))
  end.

Definition LPush (val : slice) : M List unit :=
  h ← getHead;
  hn ← getNext h;
  node ← alloc (mkNode h hn val);
  setNext h node ;;
  nn ← getNext node;
  setPrev nn node ;;
  len ← getLen;
  putLen (len + 1) ;;
  serve_subscription.

Definition RPush (val : slice) : M List unit :=
  t ← getTail;
  tp ← getPrev t;
  node ← alloc (mkNode tp t val);
  setPrev t node ;;
  np ← getPrev node;
  setNext np node ;;
  len ← getLen;
  putLen (len + 1) ;;
  serve_subscription.

(** [for node != stop && index < 0 { node = node.Prev; index++ }], and its
    mirror image: [n] is the number of steps left. *)
Fixpoint set_walk (f : option loc -> M List (option loc)) (stop : option loc) (n : nat)
    (node : option loc) : M List (option loc) :=
  match n with
  | O => mret node
  | S n' =>
      if bool_decide (node = stop) then mret node
      else node' ← f node; set_walk f stop n' node'
  end.

Definition Set_ (index : Z) (val : slice) : M List bool :=
  len ← getLen;
  h ← getHead;
  t ← getTail;
  if index <? 0 then
    if len <? i64 (- index) then mret false
    else
      node ← set_walk getPrev h (Z.to_nat (- index)) t;
      setVal node val ;; mret true
  else if len <=? index then mret false
  else
    node ← set_walk getNext t (Z.to_nat (index + 1)) h;
    setVal node val ;; mret true.

(** [for i := 0; i <= end; i++]: [n] iterations are left, [i] is done next. *)
Fixpoint range_loop (n : nat) (i start : Z) (node : option loc) (res : list slice) :
    M List (list slice) :=
  match n with
  | O => mret res
  | S n' =>
      node' ← getNext node;
      if start <=? i then
        v ← getVal node'; range_loop n' (i + 1) start node' (res ++ [v])
      else range_loop n' (i + 1) start node' res
  end.

(** The clamping of Range and Trim: [None] when the range is empty. *)
Definition clamp_range (len start end_ : Z) : option (Z * Z) :=
  let start := if start <? 0 then i64 (len + start) else start in
  let end_ := if end_ <? 0 then i64 (len + end_) else end_ in
  if (end_ <? start) || (len <=? start) || (end_ <? 0) then None
  else Some (if start <? 0 then 0 else start, if len <=? end_ then len - 1 else end_).

(** [nil] is [None]. *)
Definition Range (start end_ : Z) : M List (option (list slice)) :=
  len ← getLen;
  match clamp_range len start end_ with
  | None => mret None
  | Some (s, e) =>
      h ← getHead;
      res ← range_loop (Z.to_nat (e + 1)) 0 s h [];
      mret (Some res)
  end.

Definition InsertBefore (val tar : slice) : M List Z :=
  fuel ← loop_fuel; h ← getHead; first ← getNext h;
  r ← find_loop fuel tar first 0;
  match r with
  | None => mret (-1)
  | Some (now, pos) =>
      p ← getPrev now;
      node ← alloc (mkNode p now val);
      setPrev now node ;;
      np ← getPrev node;
      setNext np node ;;
      mret pos
  end.

Definition InsertAfter (val tar : slice) : M List Z :=
  fuel ← loop_fuel; h ← getHead; first ← getNext h;
  r ← find_loop fuel tar first 0;
  match r with
  | None => mret (-1)
  | Some (now, pos) =>
      n ← getNext now;
      node ← alloc (mkNode now n val);
      setNext now node ;;
      nn ← getNext node;
      setPrev nn node ;;
      mret (pos + 1)
  end.

(** The four assignments that take [now] out of the list. *)
Definition unlink (now : option loc) : M List unit :=
  p1 ← getPrev now; n1 ← getNext now; setNext p1 n1 ;;
  n2 ← getNext now; p2 ← getPrev now; setPrev n2 p2 ;;
  setPrev now None ;;
  setNext now None.

(** The loop of RemoveElement; [step] is Next (or Prev), [stop] the sentinel. *)
Fixpoint remove_loop (fuel : nat) (step : option loc -> M List (option loc)) (stop : option loc)
    (val : slice) (count removed : Z) (now : option loc) : M List Z :=
  match fuel with
  | O => block
  | S f =>
      if bool_decide (now <> stop) && (removed <? count) then
        v ← getVal now;
        if beq (str v) (str val) then
          tem ← step now;
          unlink now ;;
          remove_loop f step stop val count (removed + 1) tem
        else next ← step now; remove_loop f step stop val count removed next
      else mret removed
  end.

Definition RemoveElement (val : slice) (count : Z) : M List Z :=
  len ← getLen;
  if len =? 0 then mret 0
  else
    let count := if count =? 0 then len - 1 else count in
    fuel ← loop_fuel; h ← getHead; t ← getTail;
    if 0 <=? count then
      now ← getNext h; remove_loop fuel getNext t val count 0 now
    else
      now ← getPrev t; remove_loop fuel getPrev h val (i64 (- count)) 0 now.

Definition Clear : M List unit :=
  len ← getLen;
  if len =? 0 then mret tt
  else
    h ← getHead; t ← getTail;
    fist ← getNext h;
    last ← getPrev t;
    setNext h t ;;
    setPrev t h ;;
    putLen 0 ;;
    setPrev fist None ;;
    setNext last None.

(** The search of Trim for the nodes at positions [start] and [end]. *)
Fixpoint trim_loop (fuel : nat) (start end_ pos : Z) (now startNode : option loc) :
    M List (option loc * option loc) :=
  match fuel with
  | O => block
  | S f =>
      t ← getTail;
      if bool_decide (now = t) then mret (startNode, None)
      else
        let startNode := if pos =? start then now else startNode in
        if pos =? end_ then mret (startNode, now)
        else next ← getNext now; trim_loop f start end_ (pos + 1) next startNode
  end.

Definition Trim (start end_ : Z) : M List unit :=
  len ← getLen;
  if len =? 0 then mret tt
  else
    match clamp_range len start end_ with
    | None => Clear
    | Some (s, e) =>
        fuel ← loop_fuel; h ← getHead; t ← getTail;
        first ← getNext h;
        '(startNode, endNode) ← trim_loop fuel s e 0 first None;
        hn ← getNext h; setPrev hn None ;;
        tp ← getPrev t; setNext tp None ;;
        sp ← getPrev startNode;
        (if bool_decide (sp <> None) then setNext sp None else mret tt) ;;
        en ← getNext endNode;
        (if bool_decide (en <> None) then setPrev en None else mret tt) ;;
        setNext h startNode ;;
        setPrev startNode h ;;
        setPrev t endNode ;;
        setNext endNode t ;;
        putLen (e - s + 1)
    end.

(* ===================================================================== *)
(** ** Representation                                                    *)
(* ===================================================================== *)

Abbreviation node_path := (list (loc * slice)).

Definition first_of (path : node_path) (n : option loc) : option loc :=
  match path with [] => n | (a, _) :: _ => Some a end.

Fixpoint last_of (p : option loc) (path : node_path) : option loc :=
  match path with [] => p | (a, _) :: path' => last_of (Some a) path' end.

(** [path] is linked in [h] in both directions, from [p] to [n]. *)
Fixpoint seg (h : gmap loc ListNode) (p : option loc) (path : node_path) (n : option loc) : Prop :=
  match path with
  | [] => True
  | (a, v) :: path' => h !! a = Some (mkNode p (first_of path' n) v) /\ seg h (Some a) path' n
  end.

Definition full (l : List) (hv : slice) (path : node_path) (tv : slice) : node_path :=
  (Head l, hv) :: path ++ [(Tail l, tv)].

Record rep (l : List) (hv : slice) (path : node_path) (tv : slice) : Prop := mkRep {
  rep_seg : seg (heap l) None (full l hv path tv) None;
  rep_nodup : NoDup (full l hv path tv).*1;
  rep_fresh : Forall (fun a => a < fresh l)%nat (full l hv path tv).*1;
  rep_subs : LSubscriptions l = []
}.

Lemma first_of_app l1 l2 n : first_of (l1 ++ l2) n = first_of l1 (first_of l2 n).
Proof. by destruct l1 as [|[]]. Qed.

Lemma last_of_app p l1 l2 : last_of p (l1 ++ l2) = last_of (last_of p l1) l2.
Proof. revert p. induction l1 as [|[a v] l1 IH]; intros p; [done|]. apply IH. Qed.

Lemma seg_app h p l1 l2 n :
  seg h p (l1 ++ l2) n <-> seg h p l1 (first_of l2 n) /\ seg h (last_of p l1) l2 n.
Proof.
  revert p. induction l1 as [|[a v] l1 IH]; intros p; cbn [app seg last_of]; [tauto|].
  rewrite IH, first_of_app. tauto.
Qed.

Lemma seg_frame h p path n a nd :
  a ∉ path.*1 -> seg h p path n -> seg (<[a := nd]> h) p path n.
Proof.
  revert p. induction path as [|[b v] path IH]; intros p Ha; [done|].
  cbn in *. apply not_elem_of_cons in Ha as [Hne Ha]. intros [H1 H2].
  rewrite lookup_insert_ne by done. auto.
Qed.

Lemma seg_in h p path n a v : seg h p path n -> (a, v) ∈ path -> exists q r, h !! a = Some (mkNode q r v).
Proof.
  revert p. induction path as [|[b w] path IH]; intros p; cbn [seg]; [by intros _ ?%elem_of_nil|].
  intros [H1 H2] [[= -> ->]|Hin]%elem_of_cons; eauto.
Qed.

(** A duplicate-free path has at most as many nodes as the heap. *)
Lemma seg_size h p path n : seg h p path n -> NoDup path.*1 -> (length path <= size h)%nat.
Proof.
  intros Hs Hn. rewrite <- (length_fmap fst path). rewrite <- size_dom.
  rewrite <- (size_list_to_set (C := gset loc)) by done. apply subseteq_size.
  intros a [[a' v] [-> Hin]]%elem_of_list_to_set%list_elem_of_fmap.
  destruct (seg_in _ _ _ _ _ _ Hs Hin) as (q & r & E). apply elem_of_dom. cbn. eauto.
Qed.

(** Splitting the path around two neighbours. *)
Lemma seg_split h l1 a va b vb l2 :
  seg h None (l1 ++ (a, va) :: (b, vb) :: l2) None <->
  seg h None l1 (Some a) /\
  h !! a = Some (mkNode (last_of None l1) (Some b) va) /\
  h !! b = Some (mkNode (Some a) (first_of l2 None) vb) /\
  seg h (Some b) l2 None.
Proof. rewrite seg_app. cbn. tauto. Qed.

Lemma seg_split3 h l1 a va x v b vb l2 :
  seg h None (l1 ++ (a, va) :: (x, v) :: (b, vb) :: l2) None <->
  seg h None l1 (Some a) /\
  h !! a = Some (mkNode (last_of None l1) (Some x) va) /\
  h !! x = Some (mkNode (Some a) (Some b) v) /\
  h !! b = Some (mkNode (Some x) (first_of l2 None) vb) /\
  seg h (Some b) l2 None.
Proof. rewrite seg_app. cbn. tauto. Qed.

Lemma NoDup_split (l1 l2 : node_path) a va b vb :
  NoDup (l1 ++ (a, va) :: (b, vb) :: l2).*1 ->
  a <> b /\ (a ∉ l1.*1) /\ (b ∉ l1.*1) /\ (a ∉ l2.*1) /\ (b ∉ l2.*1) /\ NoDup (l1 ++ l2).*1.
Proof.
  rewrite !fmap_app. cbn. intros (H1 & H2 & H3)%NoDup_app.
  apply NoDup_cons in H3 as [H3 [H4 H5]%NoDup_cons]. apply not_elem_of_cons in H3 as [H3 H6].
  repeat split; try done.
  - intros Ha. apply (H2 _ Ha). left.
  - intros Hb. apply (H2 _ Hb). right. left.
  - apply NoDup_app. split; [done|]. split; [|done]. intros y Hy Hy2. apply (H2 y Hy). by do 2 right.
Qed.

(** Linking the fresh node [x] between neighbours [a] and [b]. *)
Lemma seg_link h l1 a va x v b vb l2 :
  x ∉ (l1 ++ (a, va) :: (b, vb) :: l2).*1 -> NoDup (l1 ++ (a, va) :: (b, vb) :: l2).*1 ->
  seg h None (l1 ++ (a, va) :: (b, vb) :: l2) None ->
  seg (<[b := mkNode (Some x) (first_of l2 None) vb]>
        (<[a := mkNode (last_of None l1) (Some x) va]>
          (<[x := mkNode (Some a) (Some b) v]> h)))
      None (l1 ++ (a, va) :: (x, v) :: (b, vb) :: l2) None.
Proof.
  intros Hx (Hab & Ha1 & Hb1 & Ha2 & Hb2 & _)%NoDup_split.
  rewrite fmap_app in Hx. cbn in Hx.
  apply not_elem_of_app in Hx as [Hx1 [Hxa [Hxb Hx2]%not_elem_of_cons]%not_elem_of_cons].
  rewrite seg_split3, seg_split. intros (S1 & Ea & Eb & S2).
  split; [by repeat apply seg_frame|]. split; [by simplify_map_eq|].
  split; [by simplify_map_eq|]. split; [by simplify_map_eq|]. by repeat apply seg_frame.
Qed.

(** Taking [x] out: its own pointers are cleared. *)
Lemma seg_unlink h l1 a va x v b vb l2 nd :
  NoDup (l1 ++ (a, va) :: (x, v) :: (b, vb) :: l2).*1 ->
  seg h None (l1 ++ (a, va) :: (x, v) :: (b, vb) :: l2) None ->
  seg (<[x := nd]>
        (<[b := mkNode (Some a) (first_of l2 None) vb]>
          (<[a := mkNode (last_of None l1) (Some b) va]> h)))
      None (l1 ++ (a, va) :: (b, vb) :: l2) None.
Proof.
  intros Hn. rewrite seg_split3, seg_split. intros (S1 & Ea & Ex & Eb & S2).
  pose proof (NoDup_split _ _ _ _ _ _ Hn) as (Hax & Ha1 & Hx1 & Ha2 & Hx2 & Hn2).
  cbn in Ha2, Hx2. apply not_elem_of_cons in Ha2 as [Hab Ha2], Hx2 as [Hxb Hx2].
  rewrite fmap_app in Hn2. cbn in Hn2. apply NoDup_app in Hn2 as (_ & Hb1 & [Hb2 _]%NoDup_cons).
  assert (b ∉ l1.*1) by (intros Hb; apply (Hb1 _ Hb); left).
  split; [by repeat apply seg_frame|]. split; [by simplify_map_eq|].
  split; [by simplify_map_eq|]. by repeat apply seg_frame.
Qed.

(* ===================================================================== *)
(** ** Rules for the pointer operations                                  *)
(* ===================================================================== *)

Section rules.
Context {A : Type} (pn : bool).

Lemma wp_getNext a nd l (Q : option loc -> List -> Prop) :
  heap l !! a = Some nd -> Q (Next nd) l -> wp pn (getNext (Some a)) Q l.
Proof. unfold wp, getNext, deref, get, mbind, M_bind. cbn. by intros ->. Qed.

Lemma wp_getPrev a nd l (Q : option loc -> List -> Prop) :
  heap l !! a = Some nd -> Q (Prev nd) l -> wp pn (getPrev (Some a)) Q l.
Proof. unfold wp, getPrev, deref, get, mbind, M_bind. cbn. by intros ->. Qed.

Lemma wp_getVal a nd l (Q : slice -> List -> Prop) :
  heap l !! a = Some nd -> Q (Val nd) l -> wp pn (getVal (Some a)) Q l.
Proof. unfold wp, getVal, deref, get, mbind, M_bind. cbn. by intros ->. Qed.

Lemma wp_setNext a q nd l (Q : unit -> List -> Prop) :
  heap l !! a = Some nd ->
  Q tt (set_heap (<[a := mkNode (Prev nd) q (Val nd)]> (heap l)) l) ->
  wp pn (setNext (Some a) q) Q l.
Proof. unfold wp, setNext, deref, get, mbind, M_bind. cbn. by intros ->. Qed.

Lemma wp_setPrev a q nd l (Q : unit -> List -> Prop) :
  heap l !! a = Some nd ->
  Q tt (set_heap (<[a := mkNode q (Next nd) (Val nd)]> (heap l)) l) ->
  wp pn (setPrev (Some a) q) Q l.
Proof. unfold wp, setPrev, deref, get, mbind, M_bind. cbn. by intros ->. Qed.

Lemma wp_setVal a v nd l (Q : unit -> List -> Prop) :
  heap l !! a = Some nd ->
  Q tt (set_heap (<[a := mkNode (Prev nd) (Next nd) v]> (heap l)) l) ->
  wp pn (setVal (Some a) v) Q l.
Proof. unfold wp, setVal, deref, get, mbind, M_bind. cbn. by intros ->. Qed.

Lemma wp_alloc nd l (Q : option loc -> List -> Prop) :
  Q (Some (fresh l)) (mkList (<[fresh l := nd]> (heap l)) (S (fresh l)) (Head l) (Tail l) (Len l)
                        (LSubscriptions l) (sent l)) ->
  wp pn (alloc nd) Q l.
Proof. done. Qed.
End rules.

(** Run pointer code whose nodes are known: lookups go through the preceding
    updates of other nodes. *)
Ltac ptr_lookup :=
  cbn [heap set_heap set_Len Next Prev Val];
  repeat first [ apply lookup_insert_eq | rewrite lookup_insert_ne by congruence ];
  first [ eassumption | reflexivity ].

Ltac ptr_step :=
  cbn beta;
  lazymatch goal with
  | |- wp _ (mbind _ _) _ _ => apply wp_bind
  | |- wp _ (mret _) _ _ => apply wp_ret
  | |- wp _ (gets _) _ _ => apply wp_gets
  | |- wp _ (modify _) _ _ => apply wp_modify
  | |- wp _ (alloc _) _ _ => apply wp_alloc
  | |- wp _ (getNext _) _ _ => eapply wp_getNext; [ptr_lookup|]
  | |- wp _ (getPrev _) _ _ => eapply wp_getPrev; [ptr_lookup|]
  | |- wp _ (getVal _) _ _ => eapply wp_getVal; [ptr_lookup|]
  | |- wp _ (setNext _ _) _ _ => eapply wp_setNext; [ptr_lookup|]
  | |- wp _ (setPrev _ _) _ _ => eapply wp_setPrev; [ptr_lookup|]
  | |- wp _ (setVal _ _) _ _ => eapply wp_setVal; [ptr_lookup|]
  end;
  cbn [Next Prev Val].

Ltac ptr := repeat ptr_step.

(* ===================================================================== *)
(** ** Push and pop                                                      *)
(* ===================================================================== *)

Lemma full_first l (path : node_path) tv :
  exists b vb l2, path ++ [(Tail l, tv)] = (b, vb) :: l2.
Proof. destruct path as [|[b vb] path]; cbn; eauto. Qed.

Lemma full_last {A} (a : A) path : exists l1 b, a :: path = l1 ++ [b].
Proof.
  destruct path as [|c path] using rev_ind; [by exists [], a|]. exists (a :: path), c. done.
Qed.

Lemma wp_serve (pn : bool) l (Q : unit -> List -> Prop) :
  LSubscriptions l = [] -> Q tt l -> wp pn serve_subscription Q l.
Proof. intros E HQ. unfold serve_subscription. apply wp_bind, wp_get. by rewrite E. Qed.

Lemma fresh_not_in l hv path tv : rep l hv path tv -> fresh l ∉ (full l hv path tv).*1.
Proof. intros [_ _ Hf _] Hin. rewrite Forall_forall in Hf. specialize (Hf _ Hin). cbn in Hf. lia. Qed.

(** The bookkeeping of a fresh node in the middle of the path. *)
Lemma insert_bookkeeping (l1 l2 : node_path) x v fr :
  x = fr -> Forall (fun a => a < fr)%nat (l1 ++ l2).*1 -> NoDup (l1 ++ l2).*1 ->
  NoDup (l1 ++ (x, v) :: l2).*1 /\ Forall (fun a => a < S fr)%nat (l1 ++ (x, v) :: l2).*1.
Proof.
  intros -> Hf Hn. assert (Hx : fr ∉ (l1 ++ l2).*1).
  { intros Hin. rewrite Forall_forall in Hf. specialize (Hf _ Hin). cbn in Hf. lia. }
  rewrite !fmap_app in *. cbn. split.
  - rewrite <- Permutation_middle. by constructor.
  - rewrite <- Permutation_middle. constructor; [lia|].
    eapply Forall_impl; [done|]. cbn. lia.
Qed.

Lemma wp_LPush (pn : bool) v l hv path tv (Q : unit -> List -> Prop) :
  rep l hv path tv ->
  (forall l', rep l' hv ((fresh l, v) :: path) tv -> Len l' = i64 (Len l + 1) -> Q tt l') ->
  wp pn (LPush v) Q l.
Proof.
  intros Hr HQ. pose proof (fresh_not_in _ _ _ _ Hr) as Hx. destruct Hr as [Hs Hn Hf Hsub].
  unfold full in *. destruct (full_first l path tv) as (b & vb & l2 & E).
  rewrite E in *. pose proof (NoDup_split [] l2 _ _ _ _ Hn) as (Hab & _).
  pose proof (proj1 (seg_split _ [] _ _ _ _ _) Hs) as (_ & Ea & Eb & _).
  cbn in Hx. apply not_elem_of_cons in Hx as [Hxa Hx]. apply not_elem_of_cons in Hx as [Hxb Hx].
  unfold LPush, getHead, getLen, putLen. ptr. apply wp_serve; [done|].
  apply HQ; [|done].
  destruct (insert_bookkeeping [(Head l, hv)] ((b, vb) :: l2) (fresh l) v (fresh l)) as [H1 H2]; [done..|].
  split; unfold full; cbn [heap Head Tail fresh app set_heap set_Len LSubscriptions]; rewrite ?E; try done.
  apply (seg_link _ []); [|done..]. cbn. rewrite !not_elem_of_cons. auto.
Qed.

Lemma wp_RPush (pn : bool) v l hv path tv (Q : unit -> List -> Prop) :
  rep l hv path tv ->
  (forall l', rep l' hv (path ++ [(fresh l, v)]) tv -> Len l' = i64 (Len l + 1) -> Q tt l') ->
  wp pn (RPush v) Q l.
Proof.
  intros Hr HQ. pose proof (fresh_not_in _ _ _ _ Hr) as Hx. destruct Hr as [Hs Hn Hf Hsub].
  unfold full in *. destruct (full_last (Head l, hv) path) as (l1 & [a va] & E).
  rewrite app_comm_cons, E, <- (assoc_L (++)) in *. cbn [app] in *.
  pose proof (NoDup_split l1 [] _ _ _ _ Hn) as (Hab & _).
  pose proof (proj1 (seg_split _ l1 _ _ _ _ _) Hs) as (_ & Ea & Eb & _).
  pose proof Hx as Hx'. rewrite fmap_app in Hx'. cbn in Hx'.
  apply not_elem_of_app in Hx' as [_ [Hxa [Hxb _]%not_elem_of_cons]%not_elem_of_cons].
  unfold RPush, getTail, getLen, putLen. ptr. apply wp_serve; [done|].
  apply HQ; [|done].
  destruct (insert_bookkeeping (l1 ++ [(a, va)]) [(Tail l, tv)] (fresh l) v (fresh l)) as [H1 H2];
    [done|by rewrite <- (assoc_L (++))..|].
  rewrite <- (assoc_L (++)) in H1, H2.
  split; unfold full; cbn [heap Head Tail fresh set_heap set_Len LSubscriptions];
    rewrite ?app_comm_cons, ?E, <- ?(assoc_L (++)); try done.
  cbn [app]. rewrite (insert_insert_ne _ a (Tail l)) by done. by apply (seg_link _ l1 _ _ _ _ _ _ []).
Qed.

(** The bookkeeping of a node taken out of the path. *)
Lemma remove_bookkeeping (l1 l2 : node_path) e fr :
  NoDup (l1 ++ e :: l2).*1 -> Forall (fun a => a < fr)%nat (l1 ++ e :: l2).*1 ->
  NoDup (l1 ++ l2).*1 /\ Forall (fun a => a < fr)%nat (l1 ++ l2).*1.
Proof.
  rewrite !fmap_app. cbn. rewrite <- !Permutation_middle. intros [_ Hn]%NoDup_cons [_ Hf]%Forall_cons.
  done.
Qed.

Lemma wp_LPop (pn : bool) x v l hv path tv (Q : option loc -> List -> Prop) :
  rep l hv ((x, v) :: path) tv -> Len l <> 0 ->
  (forall l', rep l' hv path tv -> heap l' !! x = Some (mkNode None None v) ->
     Len l' = i64 (Len l - 1) -> Q (Some x) l') ->
  wp pn LPop Q l.
Proof.
  intros [Hs Hn Hf Hsub] HL HQ. unfold full in *. cbn [app] in *.
  destruct (full_first l path tv) as (b & vb & l2 & E). rewrite E in *.
  pose proof (NoDup_split [] ((b, vb) :: l2) _ _ _ _ Hn) as (Hax & _ & _ & Ha2 & Hx2 & _).
  cbn in Ha2, Hx2. apply not_elem_of_cons in Ha2 as [Hab _], Hx2 as [Hxb _].
  pose proof (proj1 (seg_split3 _ [] _ _ _ _ _ _ _) Hs) as (_ & Ea & Ex & Eb & _).
  unfold LPop, getHead, getLen, putLen. ptr. zb. ptr.
  destruct (remove_bookkeeping [(Head l, hv)] ((b, vb) :: l2) (x, v) (fresh l)) as [H1 H2]; [done..|].
  cbn [heap set_heap]. rewrite insert_insert_eq. apply HQ; [|by cbn; apply lookup_insert_eq|done].
  split; unfold full; cbn [heap Head Tail fresh set_heap set_Len LSubscriptions app]; rewrite ?E; try done.
  eapply (seg_unlink _ [] _ _ x); done.
Qed.

Lemma wp_RPop (pn : bool) x v l hv path tv (Q : option loc -> List -> Prop) :
  rep l hv (path ++ [(x, v)]) tv -> Len l <> 0 ->
  (forall l', rep l' hv path tv -> heap l' !! x = Some (mkNode None None v) ->
     Len l' = i64 (Len l - 1) -> Q (Some x) l') ->
  wp pn RPop Q l.
Proof.
  intros [Hs Hn Hf Hsub] HL HQ. unfold full in *.
  destruct (full_last (Head l, hv) path) as (l1 & [a va] & E).
  rewrite !app_comm_cons, E, <- !(assoc_L (++)) in *. cbn [app] in *.
  pose proof (NoDup_split l1 [(Tail l, tv)] _ _ _ _ Hn) as (Hax & _ & _ & Ha2 & Hx2 & _).
  cbn in Ha2, Hx2. apply not_elem_of_cons in Ha2 as [Hab _], Hx2 as [Hxb _].
  pose proof (proj1 (seg_split3 _ l1 _ _ _ _ _ _ _) Hs) as (_ & Ea & Ex & Eb & _).
  unfold RPop, getTail, getLen, putLen. ptr. zb. ptr.
  destruct (remove_bookkeeping (l1 ++ [(a, va)]) [(Tail l, tv)] (x, v) (fresh l)) as [H1 H2];
    [by rewrite <- (assoc_L (++))..|]. rewrite <- (assoc_L (++)) in H1, H2.
  cbn [heap set_heap]. rewrite insert_insert_eq, (insert_insert_ne _ a (Tail l)) by done.
  apply HQ; [|by cbn; apply lookup_insert_eq|done].
  split; unfold full; cbn [heap Head Tail fresh set_heap set_Len LSubscriptions];
    rewrite ?app_comm_cons, ?E, <- ?(assoc_L (++)); try done.
  by eapply (seg_unlink _ l1 _ _ x _ _ _ []).
Qed.

Lemma wp_LPop_zero (pn : bool) l (Q : option loc -> List -> Prop) :
  Len l = 0 -> Q None l -> wp pn LPop Q l.
Proof. intros E HQ. unfold LPop, getLen. ptr. by rewrite E. Qed.

Lemma wp_RPop_zero (pn : bool) l (Q : option loc -> List -> Prop) :
  Len l = 0 -> Q None l -> wp pn RPop Q l.
Proof. intros E HQ. unfold RPop, getLen. ptr. by rewrite E. Qed.

(** A stale length makes a pop of the empty list dereference nil. *)
Lemma LPop_stale l hv tv : rep l hv [] tv -> Len l <> 0 -> LPop l = Panic.
Proof.
  intros [Hs Hn _ _] HL. unfold full in *. cbn [app] in *.
  pose proof (proj1 (seg_split _ [] _ _ _ _ _) Hs) as (_ & Ea & Eb & _). cbn in Ea, Eb.
  assert (Hne : Head l <> Tail l) by (intros E; rewrite E in Hn; inversion Hn as [|?? Hin]; apply Hin; left).
  unfold LPop, getLen, getHead, getNext, setNext, setPrev, deref, putNode, gets, get, modify, mbind, M_bind.
  cbv beta iota. zb. cbn. rewrite Ea. cbn. rewrite Eb. cbn. rewrite Ea. cbn.
  by rewrite lookup_insert_ne, Eb by done.
Qed.

(* ===================================================================== *)
(** ** Walking                                                           *)
(* ===================================================================== *)

(** The address at position [i] of the whole path. *)
Definition at_path (path : node_path) (i : nat) : option loc := fst <$> path !! i.

Lemma seg_lookup h p path n i a v :
  seg h p path n -> path !! i = Some (a, v) ->
  exists q, h !! a = Some (mkNode q (match path !! S i with Some (b, _) => Some b | None => n end) v).
Proof.
  revert p i. induction path as [|[b w] path IH]; intros p i; [done|]. cbn [seg].
  intros [H1 H2]. destruct i as [|i]; cbn.
  - intros [= -> ->]. exists p. rewrite H1. by destruct path as [|[]].
  - by eapply IH.
Qed.

Lemma seg_lookup_prev h p path n i a v :
  seg h p path n -> path !! i = Some (a, v) ->
  exists r, h !! a = Some (mkNode (match i with O => p | S j => at_path path j end) r v).
Proof.
  revert p i. induction path as [|[b w] path IH]; intros p i; [done|]. cbn [seg].
  intros [H1 H2]. destruct i as [|i]; cbn.
  - intros [= -> ->]. eauto.
  - intros Hi. destruct (IH _ _ H2 Hi) as [r E]. exists r. rewrite E. by destruct i.
Qed.

Lemma wp_full_next (pn : bool) i l hv path tv (Q : option loc -> List -> Prop) :
  rep l hv path tv -> (S i < length (full l hv path tv))%nat ->
  Q (at_path (full l hv path tv) (S i)) l ->
  wp pn (getNext (at_path (full l hv path tv) i)) Q l.
Proof.
  intros Hr Hlt HQ.
  destruct (lookup_lt_is_Some_2 (full l hv path tv) i) as [[a v] Ei]; [lia|].
  destruct (lookup_lt_is_Some_2 (full l hv path tv) (S i)) as [[b w] Ei']; [lia|].
  destruct (seg_lookup _ _ _ _ _ _ _ (rep_seg _ _ _ _ Hr) Ei) as [q E]. rewrite Ei' in E.
  unfold at_path in *. rewrite Ei. rewrite Ei' in HQ. eapply wp_getNext; [done|]. done.
Qed.

Lemma wp_full_prev (pn : bool) i l hv path tv (Q : option loc -> List -> Prop) :
  rep l hv path tv -> (S i < length (full l hv path tv))%nat ->
  Q (at_path (full l hv path tv) i) l ->
  wp pn (getPrev (at_path (full l hv path tv) (S i))) Q l.
Proof.
  intros Hr Hlt HQ.
  destruct (lookup_lt_is_Some_2 (full l hv path tv) (S i)) as [[a v] Ei]; [lia|].
  destruct (seg_lookup_prev _ _ _ _ _ _ _ (rep_seg _ _ _ _ Hr) Ei) as [r E].
  unfold at_path at 1. rewrite Ei. eapply wp_getPrev; [done|]. done.
Qed.

(** Walking [k] nodes inside the path. *)
Lemma wp_walk_next (pn : bool) k i l hv path tv (Q : option loc -> List -> Prop) :
  rep l hv path tv -> (i + k < length (full l hv path tv))%nat ->
  Q (at_path (full l hv path tv) (i + k)) l ->
  wp pn (walk getNext k (at_path (full l hv path tv) i)) Q l.
Proof.
  intros Hr. revert i. induction k as [|k IH]; intros i Hlt HQ; cbn [walk].
  { apply wp_ret. by rewrite Nat.add_0_r in HQ. }
  apply wp_bind, wp_full_next; [done|lia|]. apply IH; [lia|].
  by replace (S i + k)%nat with (i + S k)%nat by lia.
Qed.

Lemma wp_walk_prev (pn : bool) k i l hv path tv (Q : option loc -> List -> Prop) :
  rep l hv path tv -> (k + i < length (full l hv path tv))%nat ->
  Q (at_path (full l hv path tv) i) l ->
  wp pn (walk getPrev k (at_path (full l hv path tv) (k + i))) Q l.
Proof.
  intros Hr. revert i. induction k as [|k IH]; intros i Hlt HQ; cbn [walk].
  { by apply wp_ret. }
  apply wp_bind, (wp_full_prev pn (k + i)); [done|lia|]. apply IH; [lia|done].
Qed.

Lemma full_lookup l hv path tv i : full l hv path tv !! S i = (path ++ [(Tail l, tv)]) !! i.
Proof. done. Qed.

Lemma full_length l hv path tv : length (full l hv path tv) = S (S (length path)).
Proof. unfold full. cbn. rewrite length_app. cbn. lia. Qed.

Lemma at_full_in l hv path tv i :
  (i < length path)%nat -> at_path (full l hv path tv) (S i) = at_path path i.
Proof. intros Hi. unfold at_path. rewrite full_lookup. by rewrite lookup_app_l. Qed.

Lemma at_full_tail l hv path tv : at_path (full l hv path tv) (S (length path)) = Some (Tail l).
Proof. unfold at_path. rewrite full_lookup, lookup_app_r, Nat.sub_diag by lia. done. Qed.

(* ===================================================================== *)
(** ** Values                                                            *)
(* ===================================================================== *)

(** The list is well formed, holds [vs], and [Len] is right. *)
Definition wfl (l : List) (vs : list slice) : Prop :=
  exists hv path tv, rep l hv path tv /\ path.*2 = vs /\ Len l = zlen vs /\ zlen vs <= MaxInt64.

Definition norm_index (len i : Z) : Z := if i <? 0 then len + i else i.

Lemma znth_fmap {A B} (f : A -> B) l i : znth (f <$> l) i = f <$> znth l i.
Proof. unfold znth. case_match; [done|]. by rewrite list_lookup_fmap. Qed.

Lemma znth_lt {A} (l : list A) i : 0 <= i < zlen l -> exists x, znth l i = Some x /\ l !! Z.to_nat i = Some x.
Proof.
  intros Hi. unfold znth, zlen in *. zb.
  destruct (lookup_lt_is_Some_2 l (Z.to_nat i)) as [x E]; [lia|]. eauto.
Qed.

Lemma znth_none {A} (l : list A) i : i < 0 \/ zlen l <= i -> znth l i = None.
Proof.
  intros Hi. unfold znth, zlen in *. destruct (i <? 0) eqn:E; [done|]. apply Z.ltb_ge in E.
  apply lookup_ge_None_2. lia.
Qed.

Lemma i64_neg z : MinInt64 < z <= MaxInt64 -> i64 (- z) = - z.
Proof. intros. apply i64_id. unfold in_i64, MinInt64, MaxInt64 in *. lia. Qed.

Lemma wp_Index (pn : bool) index l hv path tv (Q : option loc -> List -> Prop) :
  rep l hv path tv -> Len l = zlen path -> MinInt64 < index <= MaxInt64 ->
  (forall a v, znth path (norm_index (zlen path) index) = Some (a, v) -> Q (Some a) l) ->
  (znth path (norm_index (zlen path) index) = None -> Q None l) ->
  wp pn (Index index) Q l.
Proof.
  intros Hr HL Hi HS HN. unfold Index, getLen, getTail, getHead. ptr. rewrite HL.
  unfold norm_index in *. pose proof (full_length l hv path tv) as Hlen.
  destruct (index <? 0) eqn:E; [apply Z.ltb_lt in E|apply Z.ltb_ge in E].
  - rewrite i64_neg by lia. destruct (zlen path <? - index) eqn:E2.
    { apply Z.ltb_lt in E2. ptr. apply HN, znth_none. lia. }
    apply Z.ltb_ge in E2. ptr. destruct (znth_lt path (zlen path + index)) as ([a v] & Ez & El); [lia|].
    rewrite <- (at_full_tail l hv path tv). apply wp_full_prev; [done|lia|].
    set (k := Z.to_nat (-1 - index)). unfold zlen in *.
    replace (at_path (full l hv path tv) (length path))
      with (at_path (full l hv path tv) (k + (length path - k))) by (f_equal; lia).
    apply wp_walk_prev; [done|lia|].
    replace (length path - k)%nat with (S (Z.to_nat (Z.of_nat (length path) + index))) by lia.
    rewrite at_full_in by lia. unfold at_path. rewrite El. by apply (HS a v).
  - destruct (zlen path <=? index) eqn:E2.
    { apply Z.leb_le in E2. ptr. apply HN, znth_none. lia. }
    apply Z.leb_gt in E2. ptr. destruct (znth_lt path index) as ([a v] & Ez & El); [lia|].
    unfold zlen in *.
    change (Some (Head l)) with (at_path (full l hv path tv) 0).
    apply wp_full_next; [done|lia|]. apply wp_walk_next; [done|lia|].
    cbn [Nat.add]. rewrite at_full_in by lia. unfold at_path. rewrite El. by apply (HS a v).
Qed.

Lemma at_path_fmap path i : at_path path i = path.*1 !! i.
Proof. unfold at_path. by rewrite list_lookup_fmap. Qed.

Lemma at_path_inj l hv path tv i j a :
  rep l hv path tv -> at_path (full l hv path tv) i = Some a ->
  at_path (full l hv path tv) j = Some a -> i = j.
Proof.
  intros Hr. rewrite !at_path_fmap. intros Hi Hj. by eapply (NoDup_lookup _ _ _ _ (rep_nodup _ _ _ _ Hr)).
Qed.

Lemma wp_set_walk_prev (pn : bool) k i l hv path tv (Q : option loc -> List -> Prop) :
  rep l hv path tv -> (k + i < length (full l hv path tv))%nat ->
  Q (at_path (full l hv path tv) i) l ->
  wp pn (set_walk getPrev (Some (Head l)) k (at_path (full l hv path tv) (k + i))) Q l.
Proof.
  intros Hr. induction k as [|k IH]; intros Hlt HQ; cbn [set_walk]; [by apply wp_ret|].
  rewrite bool_decide_false; [apply wp_bind, (wp_full_prev pn (k + i)); [done|lia|]; apply IH; [lia|done]|].
  intros E. by apply (at_path_inj _ _ _ _ (S k + i) 0 _ Hr) in E.
Qed.

Lemma wp_set_walk_next (pn : bool) k i l hv path tv (Q : option loc -> List -> Prop) :
  rep l hv path tv -> (i + k < length (full l hv path tv))%nat ->
  Q (at_path (full l hv path tv) (i + k)) l ->
  wp pn (set_walk getNext (Some (Tail l)) k (at_path (full l hv path tv) i)) Q l.
Proof.
  intros Hr. revert i. induction k as [|k IH]; intros i Hlt HQ; cbn [set_walk].
  { apply wp_ret. by rewrite Nat.add_0_r in HQ. }
  rewrite bool_decide_false.
  - apply wp_bind, wp_full_next; [done|lia|]. apply IH; [lia|].
    by replace (S i + k)%nat with (i + S k)%nat by lia.
  - intros E. apply (at_path_inj _ _ _ _ i (S (length path)) _ Hr) in E; [|apply at_full_tail].
    rewrite full_length in Hlt. lia.
Qed.

(** Writing the value of the node at position [i]. *)
Lemma seg_update h p path n i a w v nd :
  NoDup path.*1 -> seg h p path n -> path !! i = Some (a, w) -> h !! a = Some nd ->
  seg (<[a := mkNode (Prev nd) (Next nd) v]> h) p (<[i := (a, v)]> path) n.
Proof.
  revert p i. induction path as [|[b u] path IH]; intros p i; [done|]. cbn [seg].
  intros Hn [H1 H2] Hi Ha. cbn in Hn. apply NoDup_cons in Hn as [Hb Hn]. destruct i as [|i]; cbn in Hi.
  - injection Hi as -> ->. cbn. rewrite H1 in Ha. injection Ha as <-. cbn.
    rewrite lookup_insert_eq. split; [done|]. by apply seg_frame.
  - cbn [insert list_insert seg]. rewrite lookup_insert_ne.
    + split; [|by apply IH]. rewrite H1. do 2 f_equal. clear - Hi.
      by destruct path as [|[] path], i as [|i]; cbn in *; simplify_eq.
    + intros ->. apply Hb. apply list_elem_of_fmap. exists (b, w). split; [done|].
      by eapply list_elem_of_lookup_2.
Qed.

Lemma rep_update l hv path tv i a w v nd :
  rep l hv path tv -> path !! i = Some (a, w) -> heap l !! a = Some nd ->
  rep (set_heap (<[a := mkNode (Prev nd) (Next nd) v]> (heap l)) l) hv (<[i := (a, v)]> path) tv.
Proof.
  intros [Hs Hn Hf Hsub] Hi Ha. pose proof (lookup_lt_Some _ _ _ Hi) as Hlt.
  assert (Hfull : full l hv (<[i := (a, v)]> path) tv = <[S i := (a, v)]> (full l hv path tv)).
  { unfold full. change (<[S i := (a, v)]> ((Head l, hv) :: path ++ [(Tail l, tv)]))
      with ((Head l, hv) :: <[i := (a, v)]> (path ++ [(Tail l, tv)])). by rewrite insert_app_l. }
  assert (Hfst : (full l hv (<[i := (a, v)]> path) tv).*1 = (full l hv path tv).*1).
  { rewrite Hfull, list_fmap_insert, list_insert_id; [done|].
    rewrite <- at_path_fmap, at_full_in by done. unfold at_path. by rewrite Hi. }
  split; unfold full; cbn [heap set_heap Head Tail fresh LSubscriptions].
  - fold (full l hv (<[i := (a, v)]> path) tv). rewrite Hfull. eapply seg_update; [done..| |done].
    rewrite full_lookup, lookup_app_l by done. done.
  - unfold full in Hfst. by rewrite Hfst.
  - unfold full in Hfst. by rewrite Hfst.
  - done.
Qed.

Lemma wp_setVal_at (pn : bool) i a w v l hv path tv (Q : unit -> List -> Prop) :
  rep l hv path tv -> path !! i = Some (a, w) ->
  (forall l', rep l' hv (<[i := (a, v)]> path) tv -> Len l' = Len l -> Q tt l') ->
  wp pn (setVal (at_path (full l hv path tv) (S i)) v) Q l.
Proof.
  intros Hr Hi HQ. rewrite at_full_in by (by eapply lookup_lt_Some). unfold at_path. rewrite Hi. cbn.
  assert (Hf : full l hv path tv !! S i = Some (a, w)).
  { rewrite full_lookup, lookup_app_l; [done|by eapply lookup_lt_Some]. }
  destruct (seg_lookup _ _ _ _ _ _ _ (rep_seg _ _ _ _ Hr) Hf) as [q E].
  eapply wp_setVal; [done|]. apply HQ; [|done]. by eapply rep_update.
Qed.

Lemma wp_Set (pn : bool) index v l hv path tv (Q : bool -> List -> Prop) :
  rep l hv path tv -> Len l = zlen path -> MinInt64 < index <= MaxInt64 ->
  (forall l' a w, znth path (norm_index (zlen path) index) = Some (a, w) ->
     rep l' hv (<[Z.to_nat (norm_index (zlen path) index) := (a, v)]> path) tv ->
     Len l' = Len l -> Q true l') ->
  (znth path (norm_index (zlen path) index) = None -> Q false l) ->
  wp pn (Set_ index v) Q l.
Proof.
  intros Hr HL Hi HS HN. unfold Set_, getLen, getTail, getHead. ptr. rewrite HL.
  unfold norm_index in *. pose proof (full_length l hv path tv) as Hlen.
  destruct (index <? 0) eqn:E; [apply Z.ltb_lt in E|apply Z.ltb_ge in E].
  - rewrite i64_neg by lia. destruct (zlen path <? - index) eqn:E2.
    { apply Z.ltb_lt in E2. ptr. apply HN, znth_none. lia. }
    apply Z.ltb_ge in E2. destruct (znth_lt path (zlen path + index)) as ([a w] & Ez & El); [lia|].
    apply wp_bind. rewrite <- (at_full_tail l hv path tv). unfold zlen in *.
    set (i := Z.to_nat (Z.of_nat (length path) + index)) in *.
    replace (S (length path)) with (Z.to_nat (- index) + S i)%nat by lia.
    apply wp_set_walk_prev; [done|lia|]. apply wp_bind. eapply wp_setVal_at; [done..|].
    intros l' Hr' HL'. ptr. by eapply HS.
  - destruct (zlen path <=? index) eqn:E2.
    { apply Z.leb_le in E2. ptr. apply HN, znth_none. lia. }
    apply Z.leb_gt in E2. destruct (znth_lt path index) as ([a w] & Ez & El); [lia|].
    apply wp_bind. unfold zlen in *.
    change (Some (Head l)) with (at_path (full l hv path tv) 0).
    apply wp_set_walk_next; [done|lia|]. cbn [Nat.add].
    replace (Z.to_nat (index + 1)) with (S (Z.to_nat index)) by lia.
    apply wp_bind. eapply wp_setVal_at; [done..|]. intros l' Hr' HL'. ptr. by eapply HS.
Qed.

(* ===================================================================== *)
(** ** Ranges                                                            *)
(* ===================================================================== *)

Lemma wp_getVal_at (pn : bool) i a v l hv path tv (Q : slice -> List -> Prop) :
  rep l hv path tv -> path !! i = Some (a, v) -> Q v l ->
  wp pn (getVal (at_path (full l hv path tv) (S i))) Q l.
Proof.
  intros Hr Hi HQ. rewrite at_full_in by (by eapply lookup_lt_Some). unfold at_path. rewrite Hi. cbn.
  assert (Hf : full l hv path tv !! S i = Some (a, v)).
  { rewrite full_lookup, lookup_app_l; [done|by eapply lookup_lt_Some]. }
  destruct (seg_lookup _ _ _ _ _ _ _ (rep_seg _ _ _ _ Hr) Hf) as [q E].
  eapply wp_getVal; [done|]. done.
Qed.

Lemma wp_range_loop (pn : bool) n i start res l hv path tv (Q : list slice -> List -> Prop) :
  rep l hv path tv -> (i + n <= length path)%nat ->
  Q (res ++ drop (Z.to_nat (start - Z.of_nat i)) (take n (drop i path.*2))) l ->
  wp pn (range_loop n (Z.of_nat i) start (at_path (full l hv path tv) i) res) Q l.
Proof.
  intros Hr. revert i res. induction n as [|n IH]; intros i res Hlt HQ; cbn [range_loop].
  { apply wp_ret. by rewrite take_0, drop_nil, app_nil_r in HQ. }
  apply wp_bind, wp_full_next; [done|rewrite full_length; lia|].
  destruct (lookup_lt_is_Some_2 path i) as [[a v] Ei]; [lia|].
  assert (Ed : drop i path.*2 = v :: drop (S i) path.*2).
  { apply drop_S. rewrite list_lookup_fmap, Ei. done. }
  rewrite Ed in HQ. cbn [take] in HQ. replace (Z.of_nat i + 1) with (Z.of_nat (S i)) by lia.
  destruct (start <=? Z.of_nat i) eqn:E; [apply Z.leb_le in E|apply Z.leb_gt in E].
  - apply wp_bind. eapply wp_getVal_at; [done..|]. apply IH; [lia|].
    replace (Z.to_nat (start - Z.of_nat i)) with 0%nat in HQ by lia.
    replace (Z.to_nat (start - Z.of_nat (S i))) with 0%nat by lia.
    by rewrite drop_0 in *; rewrite <- (assoc_L (++)).
  - apply IH; [lia|].
    by replace (Z.to_nat (start - Z.of_nat i)) with (S (Z.to_nat (start - Z.of_nat (S i)))) in HQ by lia.
Qed.

(** The elements between two positions, both included. *)
Definition between {A} (s e : Z) (vs : list A) : list A :=
  drop (Z.to_nat s) (take (Z.to_nat (e + 1)) vs).

Lemma clamp_range_bounds len start end_ s e :
  0 <= len -> clamp_range len start end_ = Some (s, e) -> 0 <= s <= e + 1 /\ e < len.
Proof.
  unfold clamp_range. intros Hl. repeat case_match; intros; simplify_eq;
    repeat match goal with
    | H : (_ || _) = false |- _ => apply orb_false_iff in H as [? ?]
    | H : (_ <? _) = true |- _ => apply Z.ltb_lt in H
    | H : (_ <? _) = false |- _ => apply Z.ltb_ge in H
    | H : (_ <=? _) = true |- _ => apply Z.leb_le in H
    | H : (_ <=? _) = false |- _ => apply Z.leb_gt in H
    end; lia.
Qed.

Lemma wp_Range (pn : bool) start end_ l hv path tv (Q : option (list slice) -> List -> Prop) :
  rep l hv path tv -> Len l = zlen path ->
  Q ((fun '(s, e) => between s e path.*2) <$> clamp_range (zlen path) start end_) l ->
  wp pn (Range start end_) Q l.
Proof.
  intros Hr HL HQ. unfold Range, getLen, getHead. ptr. rewrite HL.
  destruct (clamp_range _ start end_) as [[s e]|] eqn:E; [|by ptr].
  apply clamp_range_bounds in E; [|apply zlen_nonneg]. ptr. unfold zlen in *.
  change (Some (Head l)) with (at_path (full l hv path tv) 0).
  apply (wp_range_loop pn _ 0); [done|lia|]. ptr.
  cbn [app]. rewrite drop_0. by replace (s - Z.of_nat 0) with s by lia.
Qed.

(* ===================================================================== *)
(** ** Searching and inserting                                           *)
(* ===================================================================== *)

Definition holds (tar : slice) (e : loc * slice) : Prop := str e.2 = str tar.

#[export] Instance holds_dec tar e : Decision (holds tar e).
Proof. unfold holds. apply _. Defined.

Lemma wp_find_loop (pn : bool) fuel tar k pos l hv path tv
    (Q : option (option loc * Z) -> List -> Prop) :
  rep l hv path tv -> (k <= length path)%nat -> (length path - k < fuel)%nat ->
  match list_find (holds tar) (drop k path) with
  | Some (j, (a, _)) => Q (Some (Some a, pos + Z.of_nat j)) l
  | None => Q None l
  end ->
  wp pn (find_loop fuel tar (at_path (full l hv path tv) (S k)) pos) Q l.
Proof.
  intros Hr. revert k pos. induction fuel as [|fuel IH]; intros k pos Hk Hf HQ; [lia|].
  cbn [find_loop]. unfold getTail. apply wp_bind, wp_gets.
  destruct (decide (k = length path)) as [->|Hne].
  { rewrite at_full_tail, bool_decide_true by done. apply wp_ret. by rewrite drop_all in HQ. }
  destruct (lookup_lt_is_Some_2 path k) as [[a v] Ei]; [lia|].
  rewrite bool_decide_false.
  2:{ rewrite <- (at_full_tail l hv path tv). intros E.
      rewrite at_full_in in E by lia. unfold at_path in E at 1. rewrite Ei in E. cbn in E.
      apply Hne. enough (S k = S (length path)) by lia.
      eapply (at_path_inj _ _ _ _ _ _ a Hr); [|done].
      rewrite at_full_in by lia. unfold at_path. by rewrite Ei. }
  apply wp_bind. eapply wp_getVal_at; [done..|].
  rewrite (drop_S path (a, v) k Ei) in HQ. cbn [list_find] in HQ.
  unfold beq. case_bool_decide as Hv.
  - rewrite decide_True in HQ by done. apply wp_ret.
    rewrite at_full_in by lia. unfold at_path. rewrite Ei. cbn.
    by replace (pos + Z.of_nat 0) with pos in HQ by lia.
  - rewrite decide_False in HQ by done. apply wp_bind, wp_full_next; [done|rewrite full_length; lia|].
    apply IH; [lia|lia|]. destruct (list_find _ (drop (S k) path)) as [[j [b w]]|]; cbn in HQ; [|done].
    by replace (pos + 1 + Z.of_nat j) with (pos + Z.of_nat (S j)) by lia.
Qed.

(** The common start of Pos, InsertBefore and InsertAfter. *)
Lemma wp_find (pn : bool) {B} tar l hv path tv (k : option (option loc * Z) -> M List B)
    (Q : B -> List -> Prop) :
  rep l hv path tv ->
  match list_find (holds tar) path with
  | Some (j, (a, _)) => wp pn (k (Some (Some a, Z.of_nat j))) Q l
  | None => wp pn (k None) Q l
  end ->
  wp pn (fuel ← loop_fuel; h ← getHead; first ← getNext h; r ← find_loop fuel tar first 0; k r) Q l.
Proof.
  intros Hr HQ. unfold loop_fuel, getHead. ptr.
  change (Some (Head l)) with (at_path (full l hv path tv) 0).
  apply wp_full_next; [done|rewrite full_length; lia|]. apply wp_bind, (wp_find_loop _ _ _ 0); [done|lia| |].
  - pose proof (seg_size _ _ _ _ (rep_seg _ _ _ _ Hr) (rep_nodup _ _ _ _ Hr)) as H.
    rewrite full_length in H. lia.
  - rewrite drop_0. destruct (list_find _ path) as [[j [a v]]|]; done.
Qed.

Definition pos_of (tar : slice) (path : node_path) : Z :=
  match list_find (holds tar) path with Some (j, _) => Z.of_nat j | None => -1 end.

Lemma wp_Pos (pn : bool) val l hv path tv (Q : Z -> List -> Prop) :
  rep l hv path tv -> Q (pos_of val path) l -> wp pn (Pos val) Q l.
Proof.
  intros Hr HQ. eapply wp_find; [done|]. unfold pos_of in HQ.
  destruct (list_find _ path) as [[j [a v]]|]; by apply wp_ret.
Qed.

(** Around position [j] of the path. *)
Lemma full_around l hv path tv j a v :
  path !! j = Some (a, v) ->
  exists l1 p pv b bv l2, full l hv path tv = l1 ++ (p, pv) :: (a, v) :: (b, bv) :: l2 /\
    (Head l, hv) :: take j path = l1 ++ [(p, pv)] /\
    drop (S j) path ++ [(Tail l, tv)] = (b, bv) :: l2.
Proof.
  intros Hj. destruct (full_last (Head l, hv) (take j path)) as (l1 & [p pv] & E1).
  destruct (full_first l (drop (S j) path) tv) as (b & bv & l2 & E2).
  exists l1, p, pv, b, bv, l2. split; [|done]. unfold full.
  rewrite <- (take_drop_middle path j (a, v) Hj) at 1. rewrite <- (assoc_L (++)), app_comm_cons, E1.
  cbn [app]. rewrite E2, <- (assoc_L (++)). done.
Qed.

Lemma wp_InsertBefore (pn : bool) val tar l hv path tv (Q : Z -> List -> Prop) :
  rep l hv path tv ->
  match list_find (holds tar) path with
  | Some (j, _) => forall l', rep l' hv (take j path ++ (fresh l, val) :: drop j path) tv ->
                     Len l' = Len l -> Q (Z.of_nat j) l'
  | None => Q (-1) l
  end ->
  wp pn (InsertBefore val tar) Q l.
Proof.
  intros Hr HQ. eapply wp_find; [done|].
  destruct (list_find _ path) as [[j [a v]]|] eqn:Ef; [|by apply wp_ret].
  apply list_find_Some in Ef as (Ej & _ & _).
  destruct (full_around l hv path tv j a v Ej) as (l1 & p & pv & b & bv & l2 & Efull & E1 & E2).
  pose proof (fresh_not_in _ _ _ _ Hr) as Hx. destruct Hr as [Hs Hn Hf Hsub].
  rewrite Efull in *. pose proof (NoDup_split l1 ((b, bv) :: l2) _ _ _ _ Hn) as (Hpa & _).
  pose proof (proj1 (seg_split _ l1 _ _ _ _ _) Hs) as (_ & Ep & Ea & _). cbn in Ea.
  pose proof Hx as Hx'. rewrite fmap_app in Hx'. cbn in Hx'.
  apply not_elem_of_app in Hx' as [_ [Hxp [Hxa _]%not_elem_of_cons]%not_elem_of_cons].
  ptr. apply HQ; [|done].
  destruct (insert_bookkeeping (l1 ++ [(p, pv)]) ((a, v) :: (b, bv) :: l2) (fresh l) val (fresh l))
    as [H1 H2]; [done|by rewrite <- (assoc_L (++))..|]. rewrite <- (assoc_L (++)) in H1, H2.
  assert (E' : (Head l, hv) :: (take j path ++ (fresh l, val) :: drop j path) ++ [(Tail l, tv)]
               = l1 ++ (p, pv) :: (fresh l, val) :: (a, v) :: (b, bv) :: l2).
  { rewrite (drop_S path (a, v) j Ej), <- (assoc_L (++)), app_comm_cons, E1, <- (assoc_L (++)).
    cbn [app]. by rewrite E2. }
  split; unfold full; cbn [heap Head Tail fresh set_heap set_Len LSubscriptions]; rewrite ?E'; try done.
  rewrite (insert_insert_ne _ p a) by done. by apply (seg_link _ l1 _ _ _ _ _ _ ((b, bv) :: l2)).
Qed.

Lemma wp_InsertAfter (pn : bool) val tar l hv path tv (Q : Z -> List -> Prop) :
  rep l hv path tv ->
  match list_find (holds tar) path with
  | Some (j, _) => forall l', rep l' hv (take (S j) path ++ (fresh l, val) :: drop (S j) path) tv ->
                     Len l' = Len l -> Q (Z.of_nat j + 1) l'
  | None => Q (-1) l
  end ->
  wp pn (InsertAfter val tar) Q l.
Proof.
  intros Hr HQ. eapply wp_find; [done|].
  destruct (list_find _ path) as [[j [a v]]|] eqn:Ef; [|by apply wp_ret].
  apply list_find_Some in Ef as (Ej & _ & _).
  destruct (full_around l hv path tv j a v Ej) as (l1 & p & pv & b & bv & l2 & Efull & E1 & E2).
  pose proof (fresh_not_in _ _ _ _ Hr) as Hx. destruct Hr as [Hs Hn Hf Hsub].
  rewrite Efull in *. replace (l1 ++ (p, pv) :: (a, v) :: (b, bv) :: l2)
    with ((l1 ++ [(p, pv)]) ++ (a, v) :: (b, bv) :: l2) in * by (by rewrite <- (assoc_L (++))).
  pose proof (NoDup_split _ l2 _ _ _ _ Hn) as (Hab & _).
  pose proof (proj1 (seg_split _ _ _ _ _ _ _) Hs) as (_ & Ea & Eb & _).
  pose proof Hx as Hx'. rewrite fmap_app in Hx'. cbn in Hx'.
  apply not_elem_of_app in Hx' as [_ [Hxa [Hxb _]%not_elem_of_cons]%not_elem_of_cons].
  ptr. apply HQ; [|done].
  destruct (insert_bookkeeping ((l1 ++ [(p, pv)]) ++ [(a, v)]) ((b, bv) :: l2) (fresh l) val (fresh l))
    as [H1 H2]; [done|by rewrite <- (assoc_L (++))..|]. rewrite <- (assoc_L (++) _ [(a, v)]) in H1, H2.
  assert (E' : (Head l, hv) :: (take (S j) path ++ (fresh l, val) :: drop (S j) path) ++ [(Tail l, tv)]
               = (l1 ++ [(p, pv)]) ++ (a, v) :: (fresh l, val) :: (b, bv) :: l2).
  { rewrite (take_S_r path j (a, v) Ej), <- !(assoc_L (++)), app_comm_cons, E1, <- (assoc_L (++)).
    cbn [app]. by rewrite E2. }
  split; unfold full; cbn [heap Head Tail fresh set_heap set_Len LSubscriptions]; rewrite ?E'; try done.
  by apply (seg_link _ (l1 ++ [(p, pv)])).
Qed.

(* ===================================================================== *)
(** ** Removing                                                          *)
(* ===================================================================== *)

(** Remove the first [k] elements that satisfy [f]; the number removed. *)
Fixpoint rem_first {A} (f : A -> bool) (k : Z) (l : list A) : list A * Z :=
  match l with
  | [] => ([], 0)
  | x :: l' =>
      if 0 <? k then
        if f x then let '(r, c) := rem_first f (k - 1) l' in (r, c + 1)
        else let '(r, c) := rem_first f k l' in (x :: r, c)
      else (l, 0)
  end.

Definition rem_last {A} (f : A -> bool) (k : Z) (l : list A) : list A * Z :=
  let '(r, c) := rem_first f k (reverse l) in (reverse r, c).

Definition is_val (val v : slice) : bool := beq (str v) (str val).

Lemma rem_first_fmap {A B} (g : A -> B) (f : B -> bool) k l :
  rem_first f k (g <$> l) = prod_map (fmap g) id (rem_first (f ∘ g) k l).
Proof.
  revert k. induction l as [|x l IH]; intros k; [done|]. cbn. destruct (0 <? k); [|done].
  destruct (f (g x)); rewrite IH; by destruct (rem_first _ _ l).
Qed.

Lemma rem_last_fmap {A B} (g : A -> B) (f : B -> bool) k l :
  rem_last f k (g <$> l) = prod_map (fmap g) id (rem_last (f ∘ g) k l).
Proof.
  unfold rem_last. rewrite <- fmap_reverse, rem_first_fmap.
  destruct (rem_first _ _ (reverse l)). cbn. by rewrite fmap_reverse.
Qed.

Lemma rem_first_stop {A} (f : A -> bool) k l : k <= 0 -> rem_first f k l = (l, 0).
Proof. intros Hk. destruct l; [done|]. cbn. by zb. Qed.

Lemma at_full_app l hv dn x v r tv :
  at_path (full l hv (dn ++ (x, v) :: r) tv) (S (length dn)) = Some x.
Proof.
  rewrite at_full_in by (rewrite length_app; cbn; lia).
  unfold at_path. by rewrite lookup_app_r, Nat.sub_diag by lia.
Qed.

Lemma at_full_next l hv dn r tv :
  at_path (full l hv (dn ++ r) tv) (S (length dn)) = first_of r (Some (Tail l)).
Proof.
  destruct r as [|[x v] r]; [rewrite app_nil_r; apply at_full_tail|apply at_full_app].
Qed.

Lemma last_of_snoc p (r : node_path) x v : last_of p (r ++ [(x, v)]) = Some x.
Proof. by rewrite last_of_app. Qed.

Lemma at_full_prev l hv r dn tv :
  at_path (full l hv (r ++ dn) tv) (length r) = last_of (Some (Head l)) r.
Proof.
  destruct r as [|[x v] r _] using rev_ind; [done|]. rewrite last_of_snoc, length_app. cbn [length].
  replace (length r + 1)%nat with (S (length r)) by lia. rewrite <- (assoc_L (++)). apply at_full_app.
Qed.

Lemma wp_unlink (pn : bool) x v l hv p1 p2 tv (Q : unit -> List -> Prop) :
  rep l hv (p1 ++ (x, v) :: p2) tv ->
  (forall l', rep l' hv (p1 ++ p2) tv -> Len l' = Len l -> Head l' = Head l -> Tail l' = Tail l ->
     heap l' !! x = Some (mkNode None None v) -> Q tt l') ->
  wp pn (unlink (Some x)) Q l.
Proof.
  intros [Hs Hn Hf Hsub] HQ.
  assert (Ej : (p1 ++ (x, v) :: p2) !! length p1 = Some (x, v)).
  { by rewrite lookup_app_r, Nat.sub_diag by lia. }
  destruct (full_around l hv _ tv _ x v Ej) as (l1 & a & va & b & vb & l2 & Efull & E1 & E2).
  rewrite Efull in *. rewrite take_app_length in E1.
  rewrite (drop_app_ge p1) in E2 by lia. replace (S (length p1) - length p1)%nat with 1%nat in E2 by lia.
  cbn [drop] in E2. rewrite drop_0 in E2.
  pose proof (NoDup_split l1 ((b, vb) :: l2) _ _ _ _ Hn) as (Hax & _ & _ & Ha2 & Hx2 & _).
  cbn in Ha2, Hx2. apply not_elem_of_cons in Ha2 as [Hab _], Hx2 as [Hxb _].
  pose proof (proj1 (seg_split3 _ l1 _ _ _ _ _ _ _) Hs) as (_ & Ea & Ex & Eb & _).
  unfold unlink. ptr.
  destruct (remove_bookkeeping (l1 ++ [(a, va)]) ((b, vb) :: l2) (x, v) (fresh l)) as [H1 H2];
    [by rewrite <- (assoc_L (++))..|]. rewrite <- (assoc_L (++)) in H1, H2.
  cbn [heap set_heap]. rewrite insert_insert_eq.
  apply HQ; [|done|done|done|by cbn; apply lookup_insert_eq].
  assert (E' : (Head l, hv) :: (p1 ++ p2) ++ [(Tail l, tv)] = l1 ++ (a, va) :: (b, vb) :: l2).
  { rewrite <- (assoc_L (++)), app_comm_cons, E1, <- (assoc_L (++)). cbn [app]. by rewrite E2. }
  split; unfold full; cbn [heap Head Tail fresh set_heap set_Len LSubscriptions]; rewrite ?E'; try done.
  by eapply (seg_unlink _ l1 _ _ x).
Qed.

Lemma not_sentinel l hv path tv x v :
  rep l hv path tv -> (x, v) ∈ path -> x <> Head l /\ x <> Tail l.
Proof.
  intros [_ Hn _ _] Hin. unfold full in Hn. cbn in Hn. rewrite fmap_app in Hn.
  assert (Hx : x ∈ path.*1) by (apply list_elem_of_fmap; by exists (x, v)).
  apply NoDup_cons in Hn as [Hh [_ [Ht _]]%NoDup_app]. split; intros ->.
  - apply Hh, elem_of_app. by left.
  - apply (Ht _ Hx). left.
Qed.

Lemma rem_first_cons {A} (f : A -> bool) k x l :
  0 < k -> rem_first f k (x :: l) =
    if f x then let '(r, c) := rem_first f (k - 1) l in (r, c + 1)
    else let '(r, c) := rem_first f k l in (x :: r, c).
Proof. intros. cbn. by zb. Qed.

Lemma wp_remove_next (pn : bool) fuel val count removed rest l hv dn tv t (Q : Z -> List -> Prop) :
  rep l hv (dn ++ rest) tv -> Tail l = t -> (length rest < fuel)%nat ->
  (forall l' rest' c, rep l' hv (dn ++ rest') tv -> Len l' = Len l ->
     rem_first (is_val val ∘ snd) (count - removed) rest = (rest', c) -> Q (removed + c) l') ->
  wp pn (remove_loop fuel getNext (Some t) val count removed (first_of rest (Some t))) Q l.
Proof.
  revert removed rest l dn Q. induction fuel as [|fuel IH]; intros removed rest l dn Q Hr <- Hf HQ; [lia|].
  cbn [remove_loop].
  assert (Hstop : rem_first (is_val val ∘ snd) (count - removed) rest = (rest, 0) -> Q removed l).
  { intros E. replace removed with (removed + 0) by lia. by eapply HQ. }
  destruct rest as [|[x v] rest].
  { cbn [first_of]. rewrite bool_decide_false by naive_solver. apply wp_ret. by apply Hstop. }
  destruct (not_sentinel _ _ _ _ x v Hr) as [_ Hxt]; [apply elem_of_app; right; left|].
  cbn [first_of]. rewrite bool_decide_true by congruence. cbn [andb].
  destruct (removed <? count) eqn:Ec; [apply Z.ltb_lt in Ec|apply Z.ltb_ge in Ec].
  2:{ apply wp_ret, Hstop, rem_first_stop. lia. }
  assert (Hfr : forall d, rem_first (is_val val ∘ snd) (count - removed) ((x, v) :: d) =
    if is_val val v then let '(r, c) := rem_first (is_val val ∘ snd) (count - (removed + 1)) d in (r, c + 1)
    else let '(r, c) := rem_first (is_val val ∘ snd) (count - removed) d in ((x, v) :: r, c)).
  { intros d. rewrite rem_first_cons by lia. by replace (count - removed - 1) with (count - (removed + 1)) by lia. }
  pose proof (at_full_app l hv dn x v rest tv) as Hat.
  assert (Hj : (dn ++ (x, v) :: rest) !! length dn = Some (x, v))
    by (by rewrite lookup_app_r, Nat.sub_diag by lia).
  pose proof (at_full_next l hv (dn ++ [(x, v)]) rest tv) as Hnx.
  rewrite <- (assoc_L (++)), length_app, Nat.add_1_r in Hnx. cbn [app] in Hnx.
  rewrite <- Hat. apply wp_bind. eapply wp_getVal_at; [done..|]. fold (is_val val v).
  assert (Hlt : (S (S (length dn)) < length (full l hv (dn ++ (x, v) :: rest) tv))%nat)
    by (rewrite full_length, length_app; cbn; lia).
  specialize (Hfr rest). destruct (is_val val v) eqn:Ev; apply wp_bind, wp_full_next; try done; rewrite Hnx.
  - apply wp_bind. rewrite Hat. apply (wp_unlink pn x v l hv dn rest tv); [done|].
    intros l' Hr' HL' _ Ht' _. apply (IH _ _ _ dn); [done|done|cbn in Hf; lia|].
    intros l2 r2 c Hr2 HL2 E. rewrite E in Hfr.
    replace (removed + 1 + c) with (removed + (c + 1)) by lia. eapply HQ; [done|congruence|done].
  - apply (IH _ _ _ (dn ++ [(x, v)])); [by rewrite <- (assoc_L (++))|done|cbn in Hf; lia|].
    intros l2 r2 c Hr2 HL2 E. rewrite E in Hfr. rewrite <- (assoc_L (++)) in Hr2.
    eapply HQ; done.
Qed.

Lemma wp_remove_prev (pn : bool) fuel val count removed rest l hv dn tv h (Q : Z -> List -> Prop) :
  rep l hv (reverse rest ++ dn) tv -> Head l = h -> (length rest < fuel)%nat ->
  (forall l' rest' c, rep l' hv (reverse rest' ++ dn) tv -> Len l' = Len l ->
     rem_first (is_val val ∘ snd) (count - removed) rest = (rest', c) -> Q (removed + c) l') ->
  wp pn (remove_loop fuel getPrev (Some h) val count removed (last_of (Some h) (reverse rest))) Q l.
Proof.
  revert removed rest l dn Q. induction fuel as [|fuel IH]; intros removed rest l dn Q Hr <- Hf HQ; [lia|].
  cbn [remove_loop].
  assert (Hstop : rem_first (is_val val ∘ snd) (count - removed) rest = (rest, 0) -> Q removed l).
  { intros E. replace removed with (removed + 0) by lia. by eapply HQ. }
  destruct rest as [|[x v] rest].
  { cbn. rewrite bool_decide_false by naive_solver. apply wp_ret. by apply Hstop. }
  rewrite reverse_cons in *. rewrite last_of_snoc.
  destruct (not_sentinel _ _ _ _ x v Hr) as [Hxh _];
    [apply elem_of_app; left; apply elem_of_app; right; left|].
  rewrite bool_decide_true by congruence. cbn [andb].
  destruct (removed <? count) eqn:Ec; [apply Z.ltb_lt in Ec|apply Z.ltb_ge in Ec].
  2:{ apply wp_ret, Hstop, rem_first_stop. lia. }
  assert (Hfr : forall d, rem_first (is_val val ∘ snd) (count - removed) ((x, v) :: d) =
    if is_val val v then let '(r, c) := rem_first (is_val val ∘ snd) (count - (removed + 1)) d in (r, c + 1)
    else let '(r, c) := rem_first (is_val val ∘ snd) (count - removed) d in ((x, v) :: r, c)).
  { intros d. rewrite rem_first_cons by lia. by replace (count - removed - 1) with (count - (removed + 1)) by lia. }
  rewrite <- (assoc_L (++)) in Hr. cbn [app] in Hr.
  pose proof (at_full_app l hv (reverse rest) x v dn tv) as Hat.
  assert (Hj : (reverse rest ++ (x, v) :: dn) !! length (reverse rest) = Some (x, v))
    by (by rewrite lookup_app_r, Nat.sub_diag by lia).
  pose proof (at_full_prev l hv (reverse rest) ((x, v) :: dn) tv) as Hpx.
  rewrite <- Hat. apply wp_bind. eapply wp_getVal_at; [done..|]. fold (is_val val v).
  assert (Hlt : (S (length (reverse rest)) < length (full l hv (reverse rest ++ (x, v) :: dn) tv))%nat)
    by (rewrite full_length, length_app; cbn; lia).
  specialize (Hfr rest). destruct (is_val val v) eqn:Ev; apply wp_bind, wp_full_prev; try done; rewrite Hpx.
  - apply wp_bind. rewrite Hat. apply (wp_unlink pn x v l hv (reverse rest) dn tv); [done|].
    intros l' Hr' HL' Hh' _ _. apply (IH _ _ _ dn); [done|done|cbn in Hf; lia|].
    intros l2 r2 c Hr2 HL2 E. rewrite E in Hfr.
    replace (removed + 1 + c) with (removed + (c + 1)) by lia. eapply HQ; [done|congruence|done].
  - apply (IH _ _ _ ((x, v) :: dn)); [done|done|cbn in Hf; lia|].
    intros l2 r2 c Hr2 HL2 E. rewrite E in Hfr.
    eapply (HQ l2 ((x, v) :: r2)); [by rewrite reverse_cons, <- (assoc_L (++))|done|done].
Qed.

(** What RemoveElement takes out of a list of length field [len]. *)
Definition removal (len count : Z) (val : slice) (vs : list slice) : list slice * Z :=
  if len =? 0 then (vs, 0)
  else
    let count := if count =? 0 then len - 1 else count in
    if 0 <=? count then rem_first (is_val val) count vs else rem_last (is_val val) (i64 (- count)) vs.

Lemma wp_RemoveElement (pn : bool) val count l hv path tv (Q : Z -> List -> Prop) :
  rep l hv path tv ->
  (forall l' path' c, rep l' hv path' tv -> Len l' = Len l ->
     removal (Len l) count val path.*2 = (path'.*2, c) -> Q c l') ->
  wp pn (RemoveElement val count) Q l.
Proof.
  intros Hr HQ. unfold RemoveElement, removal, getLen, getHead, getTail, loop_fuel in *. ptr.
  destruct (Len l =? 0) eqn:E0; [ptr; by eapply HQ|].
  pose proof (seg_size _ _ _ _ (rep_seg _ _ _ _ Hr) (rep_nodup _ _ _ _ Hr)) as Hsz.
  rewrite full_length in Hsz. cbv zeta in *. ptr.
  set (cnt := if count =? 0 then Len l - 1 else count) in *. destruct (0 <=? cnt).
  - ptr. change (Some (Head l)) with (at_path (full l hv path tv) 0).
    apply wp_full_next; [done|rewrite full_length; lia|].
    pose proof (at_full_next l hv [] path tv) as Hnx. cbn [app length] in Hnx. rewrite Hnx.
    eapply (wp_remove_next _ _ _ _ _ _ _ _ []); [done|done|lia|].
    intros l' r c Hr' HL' E. eapply (HQ l' r c); [done..|].
    rewrite rem_first_fmap. replace (cnt - 0) with cnt in E by lia. by rewrite E.
  - ptr. rewrite <- (at_full_tail l hv path tv) at 1.
    apply wp_full_prev; [done|rewrite full_length; lia|].
    replace (at_path (full l hv path tv) (length path)) with (last_of (Some (Head l)) path)
      by (rewrite <- (at_full_prev l hv path [] tv), app_nil_r; done).
    rewrite <- (reverse_involutive path) at 1.
    eapply (wp_remove_prev _ _ _ _ _ _ _ _ []); [|done|rewrite length_reverse; lia|].
    { by rewrite reverse_involutive, app_nil_r. }
    intros l' r c Hr' HL' E. rewrite app_nil_r in Hr'. eapply (HQ l' (reverse r) c); [done..|].
    rewrite rem_last_fmap. unfold rem_last. replace (i64 (- cnt) - 0) with (i64 (- cnt)) in E by lia.
    by rewrite E.
Qed.

(** Clear keeps the sentinels and drops every node. *)
Lemma wp_Clear (pn : bool) l hv path tv (Q : unit -> List -> Prop) :
  rep l hv path tv -> Len l = zlen path ->
  (forall l', rep l' hv [] tv -> Len l' = 0 -> Q tt l') ->
  wp pn Clear Q l.
Proof.
  intros Hr HL HQ. unfold Clear, getLen, getHead, getTail, putLen. ptr. rewrite HL.
  destruct path as [|[x v] path]; [ptr; by apply HQ|].
  rewrite zlen_cons. pose proof (zlen_nonneg path). zb.
  destruct (full_last (x, v) path) as (l1 & [y w] & Ey).
  assert (Hx : (x, v) ∈ (x, v) :: path) by left.
  assert (Hy : (y, w) ∈ (x, v) :: path) by (rewrite Ey; apply elem_of_app; right; left).
  destruct (not_sentinel _ _ _ _ _ _ Hr Hx) as [Hxh Hxt].
  destruct (not_sentinel _ _ _ _ _ _ Hr Hy) as [Hyh Hyt].
  destruct Hr as [Hs Hn Hf Hsub].
  assert (Hht : Head l <> Tail l).
  { intros E. unfold full in Hn. cbn in Hn. apply NoDup_cons in Hn as [Hin _]. apply Hin.
    rewrite fmap_app, E. right. apply elem_of_app. right. left. }
  destruct (seg_in _ _ _ _ _ _ Hs ltac:(right; apply elem_of_app; left; exact Hx)) as (qx & rx & Ex).
  destruct (seg_in _ _ _ _ _ _ Hs ltac:(right; apply elem_of_app; left; exact Hy)) as (qy & ry & Ewy).
  assert (Eh : heap l !! Head l = Some (mkNode None (Some x) hv)) by apply Hs.
  assert (Et : heap l !! Tail l = Some (mkNode (Some y) None tv)).
  { revert Hs. unfold full. rewrite Ey, app_comm_cons, seg_app. cbn [seg first_of last_of].
    rewrite last_of_app. intros [_ [E _]]. exact E. }
  assert (Hfin : forall h', h' !! Head l = Some (mkNode None (Some (Tail l)) hv) ->
            h' !! Tail l = Some (mkNode (Some (Head l)) None tv) ->
            rep (set_heap h' (set_Len 0 l)) hv [] tv).
  { intros h' E1 E2. split; unfold full; cbn.
    - by rewrite E1, E2.
    - apply NoDup_cons. split; [by intros E%list_elem_of_singleton|apply NoDup_singleton].
    - unfold full in Hf. rewrite app_comm_cons, fmap_app in Hf. apply Forall_app in Hf as [H1 H2].
      apply Forall_cons in H1 as [H1 _]. by constructor.
    - done. }
  ptr. destruct (decide (x = y)) as [->|Hxy]; ptr; (apply HQ; [|done]);
    apply Hfin; cbn [heap set_heap set_Len]; by simplify_map_eq.
Qed.

(* ===================================================================== *)
(** ** Trim                                                              *)
(* ===================================================================== *)

Definition next_at (h : gmap loc ListNode) (a : loc) : option (option loc) := Next <$> h !! a.
Definition prev_at (h : gmap loc ListNode) (a : loc) : option (option loc) := Prev <$> h !! a.
Definition val_at (h : gmap loc ListNode) (a : loc) : option slice := Val <$> h !! a.

Definition upd_next (q : option loc) (nd : ListNode) : ListNode := mkNode (Prev nd) q (Val nd).
Definition upd_prev (q : option loc) (nd : ListNode) : ListNode := mkNode q (Next nd) (Val nd).

(** The field assignments as updates of one field of the heap. *)
Lemma wp_setNext_at (pn : bool) a q l (Q : unit -> List -> Prop) :
  is_Some (heap l !! a) -> Q tt (set_heap (alter (upd_next q) a (heap l)) l) ->
  wp pn (setNext (Some a) q) Q l.
Proof.
  intros [nd E] HQ. eapply wp_setNext; [done|]. cbn.
  replace (<[a := mkNode (Prev nd) q (Val nd)]> (heap l)) with (alter (upd_next q) a (heap l)); [done|].
  apply map_eq. intros b. destruct (decide (a = b)) as [<-|]; by simplify_map_eq.
Qed.

Lemma wp_setPrev_at (pn : bool) a q l (Q : unit -> List -> Prop) :
  is_Some (heap l !! a) -> Q tt (set_heap (alter (upd_prev q) a (heap l)) l) ->
  wp pn (setPrev (Some a) q) Q l.
Proof.
  intros [nd E] HQ. eapply wp_setPrev; [done|]. cbn.
  replace (<[a := mkNode q (Next nd) (Val nd)]> (heap l)) with (alter (upd_prev q) a (heap l)); [done|].
  apply map_eq. intros b. destruct (decide (a = b)) as [<-|]; by simplify_map_eq.
Qed.

Lemma wp_getNext_at (pn : bool) a q l (Q : option loc -> List -> Prop) :
  next_at (heap l) a = Some q -> Q q l -> wp pn (getNext (Some a)) Q l.
Proof. intros (nd & E & ->)%fmap_Some HQ. by eapply wp_getNext. Qed.

Lemma wp_getPrev_at (pn : bool) a q l (Q : option loc -> List -> Prop) :
  prev_at (heap l) a = Some q -> Q q l -> wp pn (getPrev (Some a)) Q l.
Proof. intros (nd & E & ->)%fmap_Some HQ. by eapply wp_getPrev. Qed.

Section fields.
Context (h : gmap loc ListNode).

Lemma next_at_prev q a b : next_at (alter (upd_prev q) a h) b = next_at h b.
Proof. unfold next_at. destruct (decide (a = b)) as [<-|]; simplify_map_eq; [|done]. by destruct (h !! a). Qed.
Lemma prev_at_next q a b : prev_at (alter (upd_next q) a h) b = prev_at h b.
Proof. unfold prev_at. destruct (decide (a = b)) as [<-|]; simplify_map_eq; [|done]. by destruct (h !! a). Qed.
Lemma val_at_prev q a b : val_at (alter (upd_prev q) a h) b = val_at h b.
Proof. unfold val_at. destruct (decide (a = b)) as [<-|]; simplify_map_eq; [|done]. by destruct (h !! a). Qed.
Lemma val_at_next q a b : val_at (alter (upd_next q) a h) b = val_at h b.
Proof. unfold val_at. destruct (decide (a = b)) as [<-|]; simplify_map_eq; [|done]. by destruct (h !! a). Qed.
Lemma next_at_ne q a b : a <> b -> next_at (alter (upd_next q) a h) b = next_at h b.
Proof. intros. unfold next_at. by simplify_map_eq. Qed.
Lemma prev_at_ne q a b : a <> b -> prev_at (alter (upd_prev q) a h) b = prev_at h b.
Proof. intros. unfold prev_at. by simplify_map_eq. Qed.
Lemma next_at_eq q a : is_Some (h !! a) -> next_at (alter (upd_next q) a h) a = Some q.
Proof. intros [nd E]. unfold next_at. simplify_map_eq. done. Qed.
Lemma prev_at_eq q a : is_Some (h !! a) -> prev_at (alter (upd_prev q) a h) a = Some q.
Proof. intros [nd E]. unfold prev_at. simplify_map_eq. done. Qed.
Lemma alter_is_Some f a b : is_Some (alter f a h !! b) <-> is_Some (h !! b).
Proof. apply lookup_alter_is_Some. Qed.

Lemma node_fields a p n v :
  h !! a = Some (mkNode p n v) <->
  prev_at h a = Some p /\ next_at h a = Some n /\ val_at h a = Some v.
Proof.
  unfold prev_at, next_at, val_at. split; [by intros ->|].
  destruct (h !! a) as [[]|]; cbn; [|naive_solver]. intros (H1 & H2 & H3). by simplify_eq.
Qed.
End fields.

(** A path whose inner links survive is linked again between new ends. *)
Lemma seg_ext h h' p path n p' n' :
  NoDup path.*1 -> seg h p path n ->
  (forall a v, (a, v) ∈ path -> val_at h' a = val_at h a /\
     (last_of None path <> Some a -> next_at h' a = next_at h a) /\
     (first_of path None <> Some a -> prev_at h' a = prev_at h a)) ->
  (forall a, first_of path None = Some a -> prev_at h' a = Some p') ->
  (forall a, last_of None path = Some a -> next_at h' a = Some n') ->
  seg h' p' path n'.
Proof.
  revert p p'. induction path as [|[x v] path IH]; intros p p' Hn Hs Hk Hfst Hlst; [done|].
  cbn [seg] in *. destruct Hs as [Hx Hs]. rewrite fmap_cons in Hn. apply NoDup_cons in Hn as [Hni Hn].
  apply node_fields in Hx as (Hxp & Hxn & Hxv).
  destruct (Hk x v) as (Hv & Hnx & _); [left|].
  assert (Hlast : path <> [] -> forall q, last_of q path <> Some x).
  { intros Hne q Hl. apply Hni. destruct path as [|[z w] r _] using rev_ind; [done|].
    rewrite last_of_snoc in Hl. injection Hl as ->. rewrite fmap_app. apply elem_of_app. right. left. }
  split.
  - apply node_fields. split; [by apply Hfst|]. split; [|congruence].
    destruct path as [|[y w] path]; [by apply Hlst|]. rewrite Hnx, Hxn; [done|]. by apply (Hlast ltac:(done) (Some x)).
  - destruct path as [|[y w] path]; [done|].
    assert (Hl2 : forall q, last_of None ((y, w) :: path) = last_of q ((y, w) :: path)) by done.
    apply (IH (Some x)); [done|done| | |].
    + intros a u Ha. destruct (Hk a u) as (H1 & H2 & H3); [by right|]. split; [done|].
      split; [exact H2|]. intros _. apply H3. cbn. intros [= ->]. apply Hni.
      apply list_elem_of_fmap. by exists (a, u).
    + cbn. intros a [= <-]. destruct (Hk y w) as (_ & _ & H3); [right; left|].
      rewrite H3; [|cbn; intros [= ->]; apply Hni; left].
      cbn in Hs. destruct Hs as [Hy _]. by apply node_fields in Hy as (? & _ & _).
    + intros a Ha. apply Hlst. exact Ha.
Qed.

Lemma clamp_range_pos len start end_ s e :
  0 < len -> clamp_range len start end_ = Some (s, e) -> 0 <= s <= e /\ e < len.
Proof.
  unfold clamp_range. intros Hl. repeat case_match; intros; simplify_eq;
    repeat match goal with
    | H : (_ || _) = false |- _ => apply orb_false_iff in H as [? ?]
    | H : (_ <? _) = true |- _ => apply Z.ltb_lt in H
    | H : (_ <? _) = false |- _ => apply Z.ltb_ge in H
    | H : (_ <=? _) = true |- _ => apply Z.leb_le in H
    | H : (_ <=? _) = false |- _ => apply Z.leb_gt in H
    end; lia.
Qed.

Lemma wp_trim_loop (pn : bool) fuel s e k sn l hv path tv (Q : option loc * option loc -> List -> Prop) :
  rep l hv path tv -> (s <= e)%nat -> (e < length path)%nat -> (k <= e)%nat ->
  (length path - k < fuel)%nat -> ((s < k)%nat -> sn = at_path path s) ->
  Q (at_path path s, at_path path e) l ->
  wp pn (trim_loop fuel (Z.of_nat s) (Z.of_nat e) (Z.of_nat k) (at_path (full l hv path tv) (S k)) sn) Q l.
Proof.
  intros Hr Hse He. revert k sn. induction fuel as [|fuel IH]; intros k sn Hk Hf Hsn HQ; [lia|].
  cbn [trim_loop]. unfold getTail. apply wp_bind, wp_gets.
  assert (Hat : at_path (full l hv path tv) (S k) = at_path path k) by (apply at_full_in; lia).
  destruct (lookup_lt_is_Some_2 path k) as [[a v] Ek]; [lia|].
  rewrite bool_decide_false.
  2:{ intros E. destruct (not_sentinel _ _ _ _ a v Hr) as [_ Ht]; [by eapply list_elem_of_lookup_2|].
      rewrite Hat in E. unfold at_path in E. rewrite Ek in E. cbn in E. congruence. }
  destruct (Z.of_nat k =? Z.of_nat s) eqn:Es; [apply Z.eqb_eq in Es|apply Z.eqb_neq in Es];
    (destruct (Z.of_nat k =? Z.of_nat e) eqn:Ee; [apply Z.eqb_eq in Ee|apply Z.eqb_neq in Ee]).
  - apply wp_ret. rewrite Hat. by replace k with s in * by lia; replace e with s in * by lia.
  - apply wp_bind, wp_full_next; [done|rewrite full_length; lia|].
    replace (Z.of_nat k + 1) with (Z.of_nat (S k)) by lia. apply IH; [lia|lia| |done].
    intros _. rewrite Hat. by replace k with s by lia.
  - apply wp_ret. rewrite Hat, Hsn by lia. by replace k with e by lia.
  - apply wp_bind, wp_full_next; [done|rewrite full_length; lia|].
    replace (Z.of_nat k + 1) with (Z.of_nat (S k)) by lia. apply IH; [lia|lia| |done].
    intros ?. apply Hsn. lia.
Qed.

(** Updates that spare the inner links of [mid] (from [sn] to [en]) and the
    outer links of the sentinels. *)
Section junk.
Context (l : List) (mid : node_path) (sn en : loc).

Record junk (h' : gmap loc ListNode) : Prop := {
  junk_val : forall a, val_at h' a = val_at (heap l) a;
  junk_some : forall a, is_Some (h' !! a) <-> is_Some (heap l !! a);
  junk_next : forall a v, (a, v) ∈ mid -> a <> en -> next_at h' a = next_at (heap l) a;
  junk_prev : forall a v, (a, v) ∈ mid -> a <> sn -> prev_at h' a = prev_at (heap l) a;
  junk_head : prev_at h' (Head l) = prev_at (heap l) (Head l);
  junk_tail : next_at h' (Tail l) = next_at (heap l) (Tail l)
}.

Lemma junk_refl : junk (heap l).
Proof. done. Qed.

Lemma junk_upd_prev h' x q :
  junk h' -> x <> Head l -> (forall v, (x, v) ∈ mid -> x = sn) -> junk (alter (upd_prev q) x h').
Proof.
  intros [H1 H2 H3 H4 H5 H6] Hx Hm. split; intros.
  - by rewrite val_at_prev.
  - by rewrite alter_is_Some.
  - rewrite next_at_prev. eauto.
  - rewrite prev_at_ne; [eauto|]. intros ->. naive_solver.
  - by rewrite prev_at_ne.
  - by rewrite next_at_prev.
Qed.

Lemma junk_upd_next h' x q :
  junk h' -> x <> Tail l -> (forall v, (x, v) ∈ mid -> x = en) -> junk (alter (upd_next q) x h').
Proof.
  intros [H1 H2 H3 H4 H5 H6] Hx Hm. split; intros.
  - by rewrite val_at_next.
  - by rewrite alter_is_Some.
  - rewrite next_at_ne; [eauto|]. intros ->. naive_solver.
  - rewrite prev_at_next. eauto.
  - by rewrite prev_at_next.
  - by rewrite next_at_ne.
Qed.
End junk.

(** Linking [mid] to the sentinels. *)
Lemma relink l hv path tv p1 mid p2 sn en h' :
  rep l hv path tv -> path = p1 ++ mid ++ p2 ->
  first_of mid None = Some sn -> last_of None mid = Some en ->
  junk l mid sn en h' ->
  seg (alter (upd_next (Some (Tail l))) en
        (alter (upd_prev (Some en)) (Tail l)
          (alter (upd_prev (Some (Head l))) sn
            (alter (upd_next (Some sn)) (Head l) h'))))
      None (full l hv mid tv) None /\
  NoDup (full l hv mid tv).*1 /\ Forall (fun a => a < fresh l)%nat (full l hv mid tv).*1.
Proof.
  intros Hr -> Hsn Hen [J1 J2 J3 J4 J5 J6].
  assert (Hsub : (full l hv mid tv).*1 `sublist_of` (full l hv (p1 ++ mid ++ p2) tv).*1).
  { apply fmap_sublist. unfold full. apply sublist_skip.
    apply sublist_app; [|done]. apply sublist_inserts_l, sublist_inserts_r. done. }
  pose proof (sublist_NoDup _ _ (rep_nodup _ _ _ _ Hr) Hsub) as Hnd.
  split; [|split; [done|]].
  2:{ apply Forall_forall. intros a Ha. apply (proj1 (Forall_forall _ _) (rep_fresh _ _ _ _ Hr)).
      by eapply elem_of_sublist. }
  assert (Hm : forall a v, (a, v) ∈ mid -> a <> Head l /\ a <> Tail l /\ is_Some (h' !! a)).
  { intros a v Ha. assert (Ha' : (a, v) ∈ p1 ++ mid ++ p2) by (rewrite !elem_of_app; auto).
    destruct (not_sentinel _ _ _ _ a v Hr Ha') as [? ?].
    destruct (seg_in _ _ _ _ a v (rep_seg _ _ _ _ Hr)) as (q & r & E);
      [right; apply elem_of_app; by left|]. rewrite J2, E. eauto. }
  assert (Hsn' : exists v, (sn, v) ∈ mid).
  { destruct mid as [|[x v] mid]; [done|]. injection Hsn as ->. exists v. left. }
  assert (Hen' : exists v, (en, v) ∈ mid).
  { destruct mid as [|[x v] mid _] using rev_ind; [done|]. rewrite last_of_snoc in Hen.
    injection Hen as ->. exists v. apply elem_of_app. right. left. }
  destruct Hsn' as [sv Hs], Hen' as [ev He].
  destruct (Hm _ _ Hs) as (Hs1 & Hs2 & Hs3), (Hm _ _ He) as (He1 & He2 & He3).
  destruct (rep_seg _ _ _ _ Hr) as [Hh0 Hrest]. fold full in Hh0. cbn in Hh0.
  assert (Ht0 : heap l !! Tail l = Some (mkNode (last_of (Some (Head l)) (p1 ++ mid ++ p2)) None tv)).
  { apply seg_app in Hrest as [_ [E _]]. exact E. }
  rewrite seg_app in Hrest. destruct Hrest as [Hrest _].
  rewrite !seg_app in Hrest. destruct Hrest as (_ & Hmid & _).
  apply node_fields in Hh0 as (HhP & _ & HhV), Ht0 as (_ & HtN & HtV).
  assert (HHs : is_Some (h' !! Head l)) by (apply J2; unfold prev_at in HhP; by destruct (heap l !! Head l)).
  assert (HTs : is_Some (h' !! Tail l)) by (apply J2; unfold next_at in HtN; by destruct (heap l !! Tail l)).
  assert (Hht : Head l <> Tail l).
  { unfold full in Hnd. rewrite fmap_cons, fmap_app in Hnd. apply NoDup_cons in Hnd as [Hh _].
    intros E. apply Hh. cbn. rewrite E. apply elem_of_app. right. left. }
  unfold full in *. rewrite fmap_cons, fmap_app in Hnd. apply NoDup_cons in Hnd as [_ [Hnd _]%NoDup_app].
  assert (Hf1 : first_of (mid ++ [(Tail l, tv)]) None = Some sn)
    by (rewrite first_of_app; by destruct mid as [|[]]).
  assert (Hl1 : last_of (Some (Head l)) mid = Some en) by (by destruct mid as [|[]]).
  cbn [seg]. rewrite Hf1, seg_app, Hl1. cbn [seg first_of]. split; [|split; [|split; [|done]]].
  - apply node_fields. rewrite val_at_next, !val_at_prev, val_at_next, J1, HhV.
    rewrite prev_at_next, !prev_at_ne, prev_at_next, J5, HhP by done.
    rewrite next_at_ne, !next_at_prev, next_at_eq by done. done.
  - eapply seg_ext; [done|exact Hmid| | |].
    + intros a v Ha. destruct (Hm a v Ha) as (Ha1 & Ha2 & Ha3).
      split; [by rewrite val_at_next, !val_at_prev, val_at_next, J1|]. split.
      * rewrite Hen. intros Hne. rewrite next_at_ne, !next_at_prev, next_at_ne by congruence.
        apply (J3 a v); congruence.
      * rewrite Hsn. intros Hne. rewrite prev_at_next, !prev_at_ne, prev_at_next by congruence.
        apply (J4 a v); congruence.
    + rewrite Hsn. intros a [= <-]. rewrite prev_at_next, prev_at_ne, prev_at_eq; [done| |done].
      by rewrite alter_is_Some.
    + rewrite Hen. intros a [= <-]. apply next_at_eq. by rewrite !alter_is_Some.
  - apply node_fields. rewrite val_at_next, !val_at_prev, val_at_next, J1, HtV.
    rewrite prev_at_next, prev_at_eq by (by rewrite !alter_is_Some).
    by rewrite next_at_ne, !next_at_prev, next_at_ne, J6, HtN by done.
Qed.

Lemma between_split {A} (path : list A) s e :
  (s <= e)%nat -> (e < length path)%nat ->
  path = take s path ++ drop s (take (S e) path) ++ drop (S e) path.
Proof.
  intros Hse He. rewrite <- (take_drop (S e) path) at 1. rewrite (assoc_L (++)). f_equal.
  rewrite <- (take_drop s (take (S e) path)) at 1. rewrite take_take. by rewrite Nat.min_l by lia.
Qed.

Lemma first_between (path : node_path) s e :
  (s <= e)%nat -> (e < length path)%nat -> first_of (drop s (take (S e) path)) None = at_path path s.
Proof.
  intros Hse He. destruct (lookup_lt_is_Some_2 path s) as [[a v] Es]; [lia|].
  rewrite (drop_S _ (a, v)); [unfold at_path; by rewrite Es|]. by rewrite lookup_take_lt by lia.
Qed.

Lemma last_between (path : node_path) s e :
  (s <= e)%nat -> (e < length path)%nat -> last_of None (drop s (take (S e) path)) = at_path path e.
Proof.
  intros Hse He. destruct (lookup_lt_is_Some_2 path e) as [[a v] Ee]; [lia|].
  rewrite (take_S_r path e (a, v)) by done.
  rewrite drop_app_le by (rewrite length_take; lia). rewrite last_of_snoc. unfold at_path. by rewrite Ee.
Qed.

(** A neighbour outside [mid] that Trim detaches. *)
Lemma wp_detach (pn : bool) (set : option loc -> option loc -> M List unit) o l (Q : unit -> List -> Prop) :
  (o = None -> Q tt l) ->
  (forall x, o = Some x -> wp pn (set (Some x) None) Q l) ->
  wp pn (if bool_decide (o <> None) then set o None else mret tt) Q l.
Proof.
  intros H1 H2. destruct o as [x|]; [rewrite bool_decide_true by done; by apply H2|].
  rewrite bool_decide_false by naive_solver. apply wp_ret. auto.
Qed.

Lemma first_of_in (path : node_path) n : path <> [] -> exists x v, (x, v) ∈ path /\ first_of path n = Some x.
Proof. destruct path as [|[x v] path]; [done|]. exists x, v. split; [left|done]. Qed.

Lemma last_of_in (path : node_path) p : path <> [] -> exists x v, (x, v) ∈ path /\ last_of p path = Some x.
Proof.
  destruct path as [|[x v] path _] using rev_ind; [done|]. exists x, v.
  split; [apply elem_of_app; right; left|apply last_of_snoc].
Qed.

Lemma NoDup_disjoint (l1 l2 : node_path) a v w :
  NoDup (l1 ++ l2).*1 -> (a, v) ∈ l1 -> (a, w) ∈ l2 -> False.
Proof.
  rewrite fmap_app. intros (_ & H & _)%NoDup_app H1 H2.
  apply (H a); apply list_elem_of_fmap; by eexists (a, _).
Qed.

(** What the trimmed-off ends look like: the first node [x0], the last node
    [y0], and the neighbours of [sn] and [en]. *)
Lemma mid_ends l hv path tv p1 mid p2 sn en :
  rep l hv path tv -> path = p1 ++ mid ++ p2 ->
  first_of mid None = Some sn -> last_of None mid = Some en ->
  exists x0 y0,
    (next_at (heap l) (Head l) = Some (Some x0) /\ x0 <> Head l /\
       (forall v, (x0, v) ∈ mid -> x0 = sn) /\ is_Some (heap l !! x0) /\ x0 <> Tail l) /\
    (prev_at (heap l) (Tail l) = Some (Some y0) /\ y0 <> Tail l /\
       (forall v, (y0, v) ∈ mid -> y0 = en) /\ is_Some (heap l !! y0)) /\
    (x0 <> sn -> exists z, prev_at (heap l) sn = Some (Some z) /\ z <> Tail l /\
       (forall v, (z, v) ∉ mid) /\ is_Some (heap l !! z)) /\
    (y0 <> en -> exists z, next_at (heap l) en = Some (Some z) /\ z <> Head l /\
       (forall v, (z, v) ∉ mid) /\ is_Some (heap l !! z)) /\
    (is_Some (heap l !! Head l) /\ is_Some (heap l !! Tail l) /\ is_Some (heap l !! sn) /\
     ((exists ev, (en, ev) ∈ mid) /\ is_Some (heap l !! en))).
Proof.
  intros Hr Hp Hsn Hen.
  assert (Hin : forall a v, (a, v) ∈ path -> a <> Head l /\ a <> Tail l /\ is_Some (heap l !! a)).
  { intros a v Ha. destruct (not_sentinel _ _ _ _ a v Hr Ha) as [? ?].
    destruct (seg_in _ _ _ _ a v (rep_seg _ _ _ _ Hr)) as (q & r & E);
      [right; apply elem_of_app; by left|]. rewrite E. eauto. }
  assert (Hnd : NoDup path.*1).
  { pose proof (rep_nodup _ _ _ _ Hr) as H. unfold full in H. rewrite fmap_cons, fmap_app in H.
    by apply NoDup_cons in H as [_ [H _]%NoDup_app]. }
  assert (Hmid : mid <> []) by (by intros ->). assert (Hpath : path <> []).
  { subst path. intros [_ [? _]%app_nil]%app_nil. done. }
  destruct (first_of_in path (Some (Tail l)) Hpath) as (x0 & xv & Hx & Efx).
  destruct (last_of_in path (Some (Head l)) Hpath) as (y0 & yv & Hy & Ely).
  destruct (rep_seg _ _ _ _ Hr) as [Hh Hrest]. rewrite first_of_app in Hh. cbn [first_of] in Hh.
  rewrite Efx in Hh. rewrite seg_app in Hrest. destruct Hrest as [Hpth [Ht _]]. rewrite Ely in Ht.
  apply node_fields in Hh as (HhP & HhN & HhV), Ht as (HtP & HtN & HtV).
  cbn [first_of] in Hpth. subst path. rewrite !seg_app in Hpth. destruct Hpth as (_ & Hm & _).
  assert (Hin1 : forall a v, (a, v) ∈ p1 -> (a, v) ∈ p1 ++ mid ++ p2) by (intros; apply elem_of_app; by left).
  assert (Hin2 : forall a v, (a, v) ∈ mid -> (a, v) ∈ p1 ++ mid ++ p2)
    by (intros; apply elem_of_app; right; apply elem_of_app; by left).
  assert (Hin3 : forall a v, (a, v) ∈ p2 -> (a, v) ∈ p1 ++ mid ++ p2)
    by (intros; apply elem_of_app; right; apply elem_of_app; by right).
  assert (Hd1 : forall a v w, (a, v) ∈ p1 -> (a, w) ∈ mid -> False).
  { intros a v w H1 H2. eapply (NoDup_disjoint p1 (mid ++ p2)); [done..|]. apply elem_of_app. by left. }
  assert (Hd2 : forall a v w, (a, v) ∈ p2 -> (a, w) ∈ mid -> False).
  { intros a v w H1 H2. eapply (NoDup_disjoint (p1 ++ mid) p2); [by rewrite <- (assoc_L (++))| |done].
    apply elem_of_app. by right. }
  exists x0, y0. split; [|split; [|split; [|split]]].
  - split; [done|]. split; [by apply (Hin x0 xv)|]. split; [|split; by apply (Hin x0 xv)].
    intros v Hv. destruct p1 as [|[a w] p1]; [|exfalso; injection Efx as ->; eapply Hd1; [left|done]].
    cbn [app] in Efx. rewrite first_of_app in Efx. destruct mid as [|[]]; [done|]. cbn in *. congruence.
  - split; [done|]. split; [by apply (Hin y0 yv)|]. split; [|by apply (Hin y0 yv)].
    intros v Hv. destruct p2 as [|[a w] p2 _] using rev_ind.
    + rewrite app_nil_r, last_of_app in Ely. destruct mid as [|[]]; [done|]. cbn in *. congruence.
    + exfalso. rewrite !(assoc_L (++)), last_of_snoc in Ely. injection Ely as ->.
      eapply Hd2; [|done]. apply elem_of_app. right. left.
  - intros Hne. assert (Hp1 : p1 <> []).
    { intros ->. apply Hne. cbn [app] in Efx. rewrite first_of_app in Efx. destruct mid as [|[]]; [done|].
      cbn in *. congruence. }
    destruct (last_of_in p1 (Some (Head l)) Hp1) as (z & w & Hz & Ez). exists z.
    split; [|split; [by apply (Hin z w), Hin1|split; [by intros v Hv; eapply Hd1|by apply (Hin z w), Hin1]]].
    destruct mid as [|[a u] mid]; [done|]. injection Hsn as ->. destruct Hm as [E _].
    apply node_fields in E as (E & _ & _). by rewrite E, Ez.
  - intros Hne. assert (Hp2 : p2 <> []).
    { intros ->. apply Hne. rewrite app_nil_r, last_of_app in Ely. destruct mid as [|[]]; [done|].
      cbn in *. congruence. }
    destruct (first_of_in p2 (Some (Tail l)) Hp2) as (z & w & Hz & Ez). exists z.
    split; [|split; [by apply (Hin z w), Hin3|split; [by intros v Hv; eapply Hd2|by apply (Hin z w), Hin3]]].
    destruct mid as [|[a u] mid _] using rev_ind; [done|]. rewrite last_of_snoc in Hen. injection Hen as ->.
    rewrite seg_app in Hm. destruct Hm as [_ [E _]]. apply node_fields in E as (_ & E & _). cbn in E. by rewrite E, Ez.
  - assert (Hso : forall a o, next_at (heap l) a = Some o -> is_Some (heap l !! a)).
    { intros a o. unfold next_at. by destruct (heap l !! a). }
    split; [by eapply Hso|]. split; [by eapply Hso|].
    destruct (first_of_in mid None Hmid) as (a & v & Ha & Ea). destruct (last_of_in mid None Hmid) as (b & w & Hb & Eb).
    rewrite Hsn in Ea. rewrite Hen in Eb. injection Ea as ->. injection Eb as ->.
    split; [by apply (Hin a v), Hin2|]. split; [by exists w|]. by apply (Hin b w), Hin2.
Qed.

(** The pointer code of Trim once the two nodes are found. *)
Lemma wp_trim_links (pn : bool) l hv path tv p1 mid p2 sn en (k : M List unit) (Q : unit -> List -> Prop) :
  rep l hv path tv -> path = p1 ++ mid ++ p2 ->
  first_of mid None = Some sn -> last_of None mid = Some en ->
  (forall h', seg h' None (full l hv mid tv) None -> NoDup (full l hv mid tv).*1 ->
     Forall (fun a => a < fresh l)%nat (full l hv mid tv).*1 -> wp pn k Q (set_heap h' l)) ->
  let h := Some (Head l) in let t := Some (Tail l) in
  wp pn (hn ← getNext h; setPrev hn None ;;
         tp ← getPrev t; setNext tp None ;;
         sp ← getPrev (Some sn);
         (if bool_decide (sp <> None) then setNext sp None else mret tt) ;;
         en' ← getNext (Some en);
         (if bool_decide (en' <> None) then setPrev en' None else mret tt) ;;
         setNext h (Some sn) ;; setPrev (Some sn) h ;;
         setPrev t (Some en) ;; setNext (Some en) t ;; k) Q l.
Proof.
  intros Hr Hp Hsn Hen HQ h t. subst h t.
  pose proof (fun h' => relink l hv path tv p1 mid p2 sn en h' Hr Hp Hsn Hen) as Hrel.
  destruct (mid_ends l hv path tv p1 mid p2 sn en Hr Hp Hsn Hen)
    as (x0 & y0 & (Hx1 & Hx2 & Hx3 & Hx4) & (Hy1 & Hy2 & Hy3 & Hy4) & Hsp & Hep & (HH & HT & HS & HE)).
  apply wp_bind. eapply wp_getNext_at; [exact Hx1|].
  apply wp_bind, wp_setPrev_at; [apply Hx4|]. cbn [heap set_heap].
  apply wp_bind. eapply wp_getPrev_at; [cbn [heap set_heap]; rewrite prev_at_ne by apply Hx4; exact Hy1|].
  apply wp_bind, wp_setNext_at; [cbn [heap set_heap]; rewrite alter_is_Some; apply Hy4|]. cbn [heap set_heap].
  assert (J2 : junk l mid sn en (alter (upd_next None) y0 (alter (upd_prev None) x0 (heap l)))).
  { apply junk_upd_next; [apply junk_upd_prev; [apply junk_refl|done|done]|done|done]. }
  set (h2 := alter (upd_next None) y0 _) in *.
  (* the node before [sn] *)
  assert (Hs2 : exists sp, prev_at h2 sn = Some sp /\ forall z, sp = Some z ->
            z <> Tail l /\ (forall v, (z, v) ∉ mid) /\ is_Some (h2 !! z)).
  { destruct (decide (x0 = sn)) as [->|Hne].
    - exists None. split; [|done]. unfold h2. rewrite prev_at_next. by apply prev_at_eq.
    - destruct (Hsp Hne) as (z & E & Hz1 & Hz2 & Hz3). exists (Some z).
      unfold h2. rewrite prev_at_next, prev_at_ne by done. split; [done|]. intros ? [= <-].
      by rewrite !alter_is_Some. }
  destruct Hs2 as (sp & Esp & Hsp2). apply wp_bind. eapply wp_getPrev_at; [exact Esp|].
  assert (J3 : exists h3, junk l mid sn en h3 /\ next_at h3 en = next_at h2 en /\
    forall R, wp pn R Q (set_heap h3 l) ->
      wp pn ((if bool_decide (sp <> None) then setNext sp None else mret tt) ;; R) Q (set_heap h2 l)).
  { destruct sp as [z|].
    - destruct (Hsp2 z eq_refl) as (Hz1 & Hz2 & Hz3). exists (alter (upd_next None) z h2).
      split; [apply junk_upd_next; [done|done|intros v Hv; by destruct (Hz2 v)]|].
      split; [apply next_at_ne; intros ->; destruct HE as [[ev He] _]; by apply (Hz2 ev)|].
      intros R HR. apply wp_bind. rewrite bool_decide_true by done. apply wp_setNext_at; [done|]. exact HR.
    - exists h2. split; [done|]. split; [done|]. intros R HR. apply wp_bind.
      rewrite bool_decide_false by naive_solver. apply wp_ret. exact HR. }
  destruct J3 as (h3 & J3 & En3 & Hstep3). apply Hstep3. clear Hstep3.
  assert (He3 : exists en', next_at h3 en = Some en' /\ forall z, en' = Some z ->
            z <> Head l /\ (forall v, (z, v) ∉ mid) /\ is_Some (h3 !! z)).
  { rewrite En3. unfold h2. destruct (decide (y0 = en)) as [->|Hne].
    - exists None. split; [|done]. apply next_at_eq. by rewrite alter_is_Some.
    - destruct (Hep Hne) as (z & E & Hz1 & Hz2 & Hz3). exists (Some z).
      rewrite next_at_ne, next_at_prev by done. split; [done|]. intros ? [= <-].
      split; [done|]. split; [done|]. by apply J3. }
  destruct He3 as (en' & Een & Hen2). apply wp_bind. eapply wp_getNext_at; [exact Een|].
  assert (J4 : exists h4, junk l mid sn en h4 /\
    forall R, wp pn R Q (set_heap h4 l) ->
      wp pn ((if bool_decide (en' <> None) then setPrev en' None else mret tt) ;; R) Q (set_heap h3 l)).
  { destruct en' as [z|].
    - destruct (Hen2 z eq_refl) as (Hz1 & Hz2 & Hz3). exists (alter (upd_prev None) z h3).
      split; [apply junk_upd_prev; [done|done|intros v Hv; by destruct (Hz2 v)]|].
      intros R HR. apply wp_bind. rewrite bool_decide_true by done. apply wp_setPrev_at; [done|]. exact HR.
    - exists h3. split; [done|]. intros R HR. apply wp_bind.
      rewrite bool_decide_false by naive_solver. apply wp_ret. exact HR. }
  destruct J4 as (h4 & J4 & Hstep4). apply Hstep4. clear Hstep4.
  assert (Hsome : forall a, is_Some (heap l !! a) -> is_Some (h4 !! a)) by (intros a; apply J4).
  apply wp_bind, wp_setNext_at; [by apply Hsome|].
  apply wp_bind, wp_setPrev_at; [cbn [heap set_heap]; rewrite alter_is_Some; by apply Hsome|].
  apply wp_bind, wp_setPrev_at; [cbn [heap set_heap]; rewrite !alter_is_Some; by apply Hsome|].
  apply wp_bind, wp_setNext_at; [cbn [heap set_heap]; rewrite !alter_is_Some; apply Hsome, HE|].
  destruct (Hrel h4 J4) as (R1 & R2 & R3). exact (HQ _ R1 R2 R3).
Qed.

Lemma wp_Trim (pn : bool) start end_ l hv path tv (Q : unit -> List -> Prop) :
  rep l hv path tv -> Len l = zlen path -> zlen path <= MaxInt64 ->
  match clamp_range (zlen path) start end_ with
  | Some (s, e) => forall l', rep l' hv (between s e path) tv -> Len l' = zlen (between s e path) -> Q tt l'
  | None => forall l', rep l' hv [] tv -> Len l' = 0 -> Q tt l'
  end ->
  (path = [] -> Q tt l) ->
  wp pn (Trim start end_) Q l.
Proof.
  intros Hr HL Hb HQ HQ0. unfold Trim, getLen, getHead, getTail, loop_fuel. ptr. rewrite HL.
  destruct (zlen path =? 0) eqn:E0; [apply Z.eqb_eq in E0|apply Z.eqb_neq in E0].
  { ptr. apply HQ0. destruct path; [done|]. rewrite zlen_cons in E0. pose proof (zlen_nonneg path). lia. }
  destruct (clamp_range _ start end_) as [[s e]|] eqn:E; [|by eapply wp_Clear].
  pose proof (zlen_nonneg path). apply clamp_range_pos in E; [|lia]. unfold zlen in *.
  assert (Hs : (Z.to_nat s <= Z.to_nat e)%nat) by lia. assert (He : (Z.to_nat e < length path)%nat) by lia.
  ptr. change (Some (Head l)) with (at_path (full l hv path tv) 0) at 1.
  apply wp_full_next; [done|rewrite full_length; lia|]. ptr.
  replace s with (Z.of_nat (Z.to_nat s)) at 1 by lia. replace e with (Z.of_nat (Z.to_nat e)) at 1 by lia.
  apply (wp_trim_loop _ _ (Z.to_nat s) (Z.to_nat e) 0); [done|lia|lia|lia| |lia|].
  { pose proof (seg_size _ _ _ _ (rep_seg _ _ _ _ Hr) (rep_nodup _ _ _ _ Hr)) as Hsz.
    rewrite full_length in Hsz. lia. }
  pose proof (first_between path _ _ Hs He) as Hf. pose proof (last_between path _ _ Hs He) as Hl.
  destruct (lookup_lt_is_Some_2 path (Z.to_nat s)) as [[sn sv] Es]; [lia|].
  destruct (lookup_lt_is_Some_2 path (Z.to_nat e)) as [[en ev] Ee]; [lia|].
  unfold at_path in *. rewrite Es in *. rewrite Ee in *. cbn in Hf, Hl. cbn [fmap option_fmap option_map fst].
  apply (wp_trim_links pn l hv path tv (take (Z.to_nat s) path) (drop (Z.to_nat s) (take (S (Z.to_nat e)) path))
           (drop (S (Z.to_nat e)) path)); [done|by apply between_split|done|done|].
  intros h' R1 R2 R3. unfold putLen. apply wp_modify.
  assert (Hbt : between s e path = drop (Z.to_nat s) (take (S (Z.to_nat e)) path)).
  { unfold between. by replace (Z.to_nat (e + 1)) with (S (Z.to_nat e)) by lia. }
  apply HQ.
  - rewrite Hbt. split; [exact R1|exact R2|exact R3|apply Hr].
  - rewrite Hbt, length_drop, length_take. cbn [Len set_Len set_heap]. rewrite i64_id; [lia|]. unfold in_i64, MinInt64, MaxInt64 in *. lia.
Qed.

(* ===================================================================== *)
(** ** Every operation, whatever [Len] says                              *)
(* ===================================================================== *)

(** The links are consistent; nothing is said of [Len]. *)
Definition linked (l : List) : Prop := exists hv path tv, rep l hv path tv.

(** [lsafe m]: on consistent links [m] ends, with consistent links unless it
    panics. [same m]: [m] ends without changing anything. [steady m]: from any
    list, [m] ends and keeps [Len]. *)
Definition lsafe {A} (m : M List A) : Prop := forall l, linked l -> wp true m (fun _ => linked) l.
Definition same {A} (m : M List A) : Prop := forall l, wp true m (fun _ l' => l' = l) l.
Definition steady {A} (m : M List A) : Prop := forall l, wp true m (fun _ l' => Len l' = Len l) l.

Lemma same_bind {A B} (m : M List A) (k : A -> M List B) : same m -> (forall a, same (k a)) -> same (m ≫= k).
Proof. intros Hm Hk l. apply wp_bind. eapply wp_mono; [|apply Hm]. intros a l' ->. apply Hk. Qed.

Lemma same_ret {A} (a : A) : same (mret a).
Proof. done. Qed.

Lemma same_gets {A} (f : List -> A) : same (gets f).
Proof. done. Qed.

Lemma same_deref p : same (deref p).
Proof. intros l. apply wp_bind, wp_get. by apply wp_or_panic. Qed.

Lemma same_getNext p : same (getNext p).
Proof. apply same_bind; [apply same_deref|]. by intros []. Qed.

Lemma same_getPrev p : same (getPrev p).
Proof. apply same_bind; [apply same_deref|]. by intros []. Qed.

Lemma same_getVal p : same (getVal p).
Proof. apply same_bind; [apply same_deref|]. by intros []. Qed.

Lemma same_walk f n p : (forall p, same (f p)) -> same (walk f n p).
Proof. intros Hf. revert p. induction n as [|n IH]; intros p; [done|]. by apply same_bind. Qed.

Lemma same_range_loop n i s p res : same (range_loop n i s p res).
Proof.
  revert i p res. induction n as [|n IH]; intros i p res; [done|].
  apply same_bind; [apply same_getNext|]. intros q. case_match; [|apply IH].
  apply same_bind; [apply same_getVal|]. intros v. apply IH.
Qed.

Lemma same_lsafe {A} (m : M List A) : same m -> lsafe m.
Proof. intros Hm l Hl. eapply wp_mono; [|apply Hm]. by intros a l' ->. Qed.

Lemma lsafe_bind {A B} (m : M List A) (k : A -> M List B) :
  lsafe m -> (forall a, lsafe (k a)) -> lsafe (m ≫= k).
Proof. intros Hm Hk l Hl. apply wp_bind. eapply wp_mono; [|by apply Hm]. intros a l'. apply Hk. Qed.

Lemma steady_bind {A B} (m : M List A) (k : A -> M List B) :
  steady m -> (forall a, steady (k a)) -> steady (m ≫= k).
Proof.
  intros Hm Hk l. apply wp_bind. eapply wp_mono; [|apply Hm]. intros a l1 H1.
  eapply wp_mono; [|apply Hk]. cbn. congruence.
Qed.

Lemma same_steady {A} (m : M List A) : same m -> steady m.
Proof. intros Hm l. eapply wp_mono; [|apply Hm]. by intros a l' ->. Qed.

Lemma steady_putNode a nd : steady (putNode a nd).
Proof. done. Qed.

Lemma steady_setNext p q : steady (setNext p q).
Proof. apply steady_bind; [apply same_steady, same_deref|]. by intros []. Qed.

Lemma steady_setPrev p q : steady (setPrev p q).
Proof. apply steady_bind; [apply same_steady, same_deref|]. by intros []. Qed.

(** A computation after one that cannot block. *)
Lemma wp_after {A B} (m : M List A) (k : A -> M List B) Q l :
  steady m -> (forall a l', wp true (k a) Q l') -> wp true (m ≫= k) Q l.
Proof. intros Hm Hk. apply wp_bind. eapply wp_mono; [|apply Hm]. intros a l' _. apply Hk. Qed.

Create HintDb linked.
#[export] Hint Resolve same_ret same_gets same_getNext same_getPrev same_getVal same_walk same_range_loop
  same_steady steady_setNext steady_setPrev : linked.

Ltac solve_same :=
  repeat lazymatch goal with
  | |- same (mbind _ _) => apply same_bind; [|intros ?]
  | |- same (match ?x with _ => _ end) => destruct x
  | |- same _ => solve [auto with linked]
  end.

Lemma lsafe_Index i : lsafe (Index i).
Proof. apply same_lsafe. unfold Index, getLen, getTail, getHead. solve_same. Qed.

Lemma lsafe_Range s e : lsafe (Range s e).
Proof. apply same_lsafe. unfold Range, getLen, getHead. solve_same. Qed.

Lemma lsafe_Pos v : lsafe (Pos v).
Proof. intros l (hv & path & tv & Hr). eapply wp_Pos; [done|]. by exists hv, path, tv. Qed.

Lemma lsafe_LPush v : lsafe (LPush v).
Proof. intros l (hv & path & tv & Hr). eapply wp_LPush; [done|]. intros l' Hr' _. by do 3 eexists. Qed.

Lemma lsafe_RPush v : lsafe (RPush v).
Proof. intros l (hv & path & tv & Hr). eapply wp_RPush; [done|]. intros l' Hr' _. by do 3 eexists. Qed.

Lemma lsafe_RemoveElement v n : lsafe (RemoveElement v n).
Proof. intros l (hv & path & tv & Hr). eapply wp_RemoveElement; [done|]. intros l' p c Hr' _ _. by do 3 eexists. Qed.

Lemma RPop_stale l hv tv : rep l hv [] tv -> Len l <> 0 -> RPop l = Panic.
Proof.
  intros [Hs Hn _ _] HL. unfold full in *. cbn [app] in *.
  pose proof (proj1 (seg_split _ [] _ _ _ _ _) Hs) as (_ & Ea & Eb & _). cbn in Ea, Eb.
  assert (Hne : Tail l <> Head l) by (intros E; rewrite E in Hn; inversion Hn as [|?? Hin]; apply Hin; left).
  unfold RPop, getLen, getTail, getPrev, setNext, setPrev, deref, putNode, gets, get, modify, mbind, M_bind.
  cbv beta iota. zb. cbn. rewrite Eb. cbn. rewrite Ea. cbn. rewrite Eb. cbn.
  by rewrite lookup_insert_ne, Ea by done.
Qed.

Lemma snoc_cases {A} (l : list A) : l = [] \/ exists l1 x, l = l1 ++ [x].
Proof. destruct l as [|y l] using rev_ind; eauto. Qed.

(** A popped node keeps its value. *)
Lemma wp_LPop_any l (Q : option loc -> List -> Prop) : linked l ->
  (Len l = 0 -> Q None l) ->
  (forall x nd l', linked l' -> heap l' !! x = Some nd -> Q (Some x) l') -> wp true LPop Q l.
Proof.
  intros (hv & path & tv & Hr) H0 H1. destruct (decide (Len l = 0)); [by apply wp_LPop_zero; auto|].
  destruct path as [|[x v] path]; [unfold wp; by erewrite LPop_stale|].
  eapply wp_LPop; [done..|]. intros l' Hr' Hx _. eapply H1; [by do 3 eexists|done].
Qed.

Lemma wp_RPop_any l (Q : option loc -> List -> Prop) : linked l ->
  (Len l = 0 -> Q None l) ->
  (forall x nd l', linked l' -> heap l' !! x = Some nd -> Q (Some x) l') -> wp true RPop Q l.
Proof.
  intros (hv & path & tv & Hr) H0 H1. destruct (decide (Len l = 0)); [by apply wp_RPop_zero; auto|].
  destruct (snoc_cases path) as [->|(p1 & [x v] & ->)]; [unfold wp; by erewrite RPop_stale|].
  eapply wp_RPop; [done..|]. intros l' Hr' Hx _. eapply H1; [by do 3 eexists|done].
Qed.

Lemma lsafe_LPop : lsafe LPop.
Proof. intros l Hl. by apply wp_LPop_any. Qed.

Lemma lsafe_RPop : lsafe RPop.
Proof. intros l Hl. by apply wp_RPop_any. Qed.

(** A walk that stops at a sentinel stays on the path. *)
Lemma wp_set_walk_prev_any k i l hv path tv (Q : option loc -> List -> Prop) :
  rep l hv path tv -> (i < length (full l hv path tv))%nat ->
  (forall j, (j < length (full l hv path tv))%nat -> Q (at_path (full l hv path tv) j) l) ->
  wp true (set_walk getPrev (Some (Head l)) k (at_path (full l hv path tv) i)) Q l.
Proof.
  intros Hr. revert i. induction k as [|k IH]; intros i Hi HQ; cbn [set_walk]; [apply wp_ret; auto|].
  case_bool_decide as E; [apply wp_ret; auto|]. destruct i as [|i]; [done|].
  apply wp_bind, wp_full_prev; [done|lia|]. apply IH; [lia|done].
Qed.

Lemma wp_set_walk_next_any k i l hv path tv (Q : option loc -> List -> Prop) :
  rep l hv path tv -> (i < length (full l hv path tv))%nat ->
  (forall j, (j < length (full l hv path tv))%nat -> Q (at_path (full l hv path tv) j) l) ->
  wp true (set_walk getNext (Some (Tail l)) k (at_path (full l hv path tv) i)) Q l.
Proof.
  intros Hr. revert i. induction k as [|k IH]; intros i Hi HQ; cbn [set_walk]; [apply wp_ret; auto|].
  case_bool_decide as E; [apply wp_ret; auto|].
  assert (i <> S (length path)) by (intros ->; by rewrite at_full_tail in E).
  rewrite full_length in *. apply wp_bind, wp_full_next; [done|rewrite full_length; lia|]. apply IH; [lia|done].
Qed.

(** Writing the value of any node, sentinels included. *)
Lemma rep_update_full l hv path tv i a w v nd :
  rep l hv path tv -> full l hv path tv !! i = Some (a, w) -> heap l !! a = Some nd ->
  linked (set_heap (<[a := mkNode (Prev nd) (Next nd) v]> (heap l)) l).
Proof.
  intros Hr Hi Ha. destruct i as [|i]; [|destruct (decide (i < length path)%nat) as [Hlt|Hge]].
  - cbn in Hi. injection Hi as <- <-. exists v, path, tv. destruct Hr as [Hs Hn Hf Hsub].
    split; [|done..]. exact (seg_update _ _ _ _ 0 _ _ v _ Hn Hs eq_refl Ha).
  - rewrite full_lookup, lookup_app_l in Hi by done. exists hv, (<[i := (a, v)]> path), tv. by eapply rep_update.
  - assert (E : i = length path) by (apply lookup_lt_Some in Hi; rewrite full_length in Hi; lia).
    subst i. pose proof Hi as Hi2. rewrite full_lookup, lookup_app_r, Nat.sub_diag in Hi2 by lia. cbn in Hi2.
    injection Hi2 as <- <-. exists hv, path, v. destruct Hr as [Hs Hn Hf Hsub].
    assert (E : full l hv path v = <[S (length path) := (Tail l, v)]> (full l hv path tv)).
    { unfold full. change (<[S (length path) := (Tail l, v)]> ((Head l, hv) :: path ++ [(Tail l, tv)]))
        with ((Head l, hv) :: <[length path := (Tail l, v)]> (path ++ [(Tail l, tv)])).
      by rewrite insert_app_r_alt, Nat.sub_diag by lia. }
    assert (E1 : (full l hv path v).*1 = (full l hv path tv).*1) by (unfold full; cbn; by rewrite !fmap_app).
    split; unfold full in *; cbn [heap set_heap Head Tail fresh LSubscriptions]; [|by rewrite E1..|done].
    rewrite E. by eapply seg_update.
Qed.

Lemma wp_setVal_any j v l hv path tv :
  rep l hv path tv -> (j < length (full l hv path tv))%nat ->
  wp true (setVal (at_path (full l hv path tv) j) v) (fun _ => linked) l.
Proof.
  intros Hr Hj. destruct (lookup_lt_is_Some_2 _ _ Hj) as [[a w] E]. unfold at_path. rewrite E. cbn.
  destruct (seg_lookup _ _ _ _ _ _ _ (rep_seg _ _ _ _ Hr) E) as [q Ea].
  eapply wp_setVal; [done|]. by eapply rep_update_full.
Qed.

Lemma lsafe_Set i v : lsafe (Set_ i v).
Proof.
  intros l (hv & path & tv & Hr). unfold Set_, getLen, getTail, getHead. ptr.
  assert (Hl : linked l) by (by do 3 eexists). pose proof (full_length l hv path tv) as Hlen.
  destruct (i <? 0); case_match; try by apply wp_ret.
  - apply wp_bind. rewrite <- (at_full_tail l hv path tv). apply wp_set_walk_prev_any; [done|lia|].
    intros j Hj. apply wp_bind. eapply wp_mono; [|by apply wp_setVal_any]. done.
  - apply wp_bind. change (Some (Head l)) with (at_path (full l hv path tv) 0).
    apply wp_set_walk_next_any; [done|lia|].
    intros j Hj. apply wp_bind. eapply wp_mono; [|by apply wp_setVal_any]. done.
Qed.

(** Whatever the positions searched for, the nodes found are on the path. *)
Lemma wp_trim_loop_any fuel s e k sn l hv path tv (Q : option loc * option loc -> List -> Prop) :
  rep l hv path tv -> (k <= length path)%nat -> (length path - k < fuel)%nat ->
  (sn = None \/ exists i, (i < k)%nat /\ sn = at_path path i) ->
  (forall sn', Q (sn', None) l) ->
  (forall j, Q (None, at_path path j) l) ->
  (forall i j, (i <= j)%nat -> (j < length path)%nat -> Q (at_path path i, at_path path j) l) ->
  wp true (trim_loop fuel s e (Z.of_nat k) (at_path (full l hv path tv) (S k)) sn) Q l.
Proof.
  intros Hr. revert k sn. induction fuel as [|fuel IH]; intros k sn Hk Hf Hsn H1 H2 H3; [lia|].
  cbn [trim_loop]. unfold getTail. apply wp_bind, wp_gets. case_bool_decide as Et; [by apply wp_ret|].
  assert (Hlt : (k < length path)%nat).
  { destruct (decide (k = length path)) as [->|]; [by rewrite at_full_tail in Et|lia]. }
  rewrite at_full_in by done. cbv zeta. set (sn1 := if _ =? s then _ else sn).
  assert (Hsn1 : sn1 = None \/ exists i, (i < S k)%nat /\ sn1 = at_path path i).
  { unfold sn1. case_match; [right; exists k; split; [lia|done]|].
    destruct Hsn as [|(i & ? & ?)]; [by left|right; exists i; split; [lia|done]]. }
  case_match.
  - apply wp_ret. destruct Hsn1 as [->|(i & Hi & ->)]; [apply H2|apply H3; lia].
  - apply wp_bind. rewrite <- (at_full_in l hv path tv) by done.
    apply wp_full_next; [done|rewrite full_length; lia|].
    replace (Z.of_nat k + 1) with (Z.of_nat (S k)) by lia. apply IH; [lia|lia|done..].
Qed.

(** Clear leaves [Len = 0] on any list. *)
Lemma wp_Clear_any l : wp true Clear (fun _ l' => Len l' = 0) l.
Proof.
  unfold Clear, getLen, getHead, getTail, putLen. apply wp_bind, wp_gets.
  destruct (Len l =? 0) eqn:E; [by apply wp_ret, Z.eqb_eq|].
  do 2 apply wp_bind, wp_gets. do 4 (apply wp_after; [auto with linked|intros ? ?]).
  apply wp_bind, wp_modify. apply wp_bind. eapply wp_mono; [|apply steady_setPrev]. intros ? l1 H1.
  eapply wp_mono; [|apply steady_setNext]. intros ? l2 H2. cbn beta in *. rewrite H2, H1. done.
Qed.

Lemma wp_Trim_any s e l : linked l -> wp true (Trim s e) (fun _ l' => linked l' \/ Len l' = 0) l.
Proof.
  intros (hv & path & tv & Hr). unfold Trim, getLen, getHead, getTail, loop_fuel. ptr.
  destruct (Len l =? 0) eqn:E0; [apply wp_ret; left; by do 3 eexists|].
  destruct (clamp_range _ s e) as [[s' e']|]; [|eapply wp_mono; [|apply wp_Clear_any]; by right].
  ptr. change (Some (Head l)) with (at_path (full l hv path tv) 0) at 1.
  apply wp_full_next; [done|rewrite full_length; lia|]. ptr.
  apply (wp_trim_loop_any _ s' e' 0); [done|lia| |by left|..].
  { pose proof (seg_size _ _ _ _ (rep_seg _ _ _ _ Hr) (rep_nodup _ _ _ _ Hr)) as Hsz.
    rewrite full_length in Hsz. lia. }
  - intros sn. cbn beta iota. do 6 (apply wp_after; [first [solve [auto with linked]|case_match; auto with linked]|intros ? ?]).
    done.
  - intros j. cbn beta iota. do 4 (apply wp_after; [auto with linked|intros ? ?]). done.
  - intros i j Hij Hj. cbn beta iota.
    pose proof (first_between path _ _ Hij Hj) as Hf. pose proof (last_between path _ _ Hij Hj) as Hl.
    destruct (lookup_lt_is_Some_2 path i) as [[sn sv] Es]; [lia|].
    destruct (lookup_lt_is_Some_2 path j) as [[en ev] Ee]; [lia|].
    unfold at_path in *. rewrite Es in *. rewrite Ee in *. cbn in Hf, Hl. cbn [fmap option_fmap option_map fst].
    apply (wp_trim_links true l hv path tv (take i path) (drop i (take (S j) path)) (drop (S j) path));
      [done|by apply between_split|done|done|].
    intros h' R1 R2 R3. unfold putLen. apply wp_modify. left.
    exists hv, (drop i (take (S j) path)), tv. split; [exact R1|exact R2|exact R3|apply Hr].
Qed.

#[export] Hint Resolve lsafe_Index lsafe_Range lsafe_Pos lsafe_LPush lsafe_RPush lsafe_RemoveElement
  lsafe_LPop lsafe_RPop lsafe_Set : linked.

(* ===================================================================== *)
(** ** Refinement: any sequence of operations on a new list              *)
(* ===================================================================== *)

Inductive lop : Type :=
| OLPush (v : slice)
| ORPush (v : slice)
| OLPop
| ORPop
| OIndex (i : Z)
| OPos (v : slice)
| OSet (i : Z) (v : slice)
| ORange (s e : Z)
| OTrim (s e : Z)
| OClear.

Inductive lreply : Type :=
| LUnit
| LBool (b : bool)
| LInt (n : Z)
| LVal (v : option slice)
| LVals (vs : option (list slice)).

(** A node pointer as its users see it: nil, or the value it holds. *)
Definition node_val (p : option loc) : M List (option slice) :=
  match p with
  | None => mret None
  | Some a => v ← getVal (Some a); mret (Some v)
  end.

Definition run_lop (o : lop) : M List lreply :=
  match o with
  | OLPush v => LPush v ;; mret LUnit
  | ORPush v => RPush v ;; mret LUnit
  | OLPop => p ← LPop; v ← node_val p; mret (LVal v)
  | ORPop => p ← RPop; v ← node_val p; mret (LVal v)
  | OIndex i => p ← Index i; v ← node_val p; mret (LVal v)
  | OPos v => n ← Pos v; mret (LInt n)
  | OSet i v => b ← Set_ i v; mret (LBool b)
  | ORange s e => r ← Range s e; mret (LVals r)
  | OTrim s e => Trim s e ;; mret LUnit
  | OClear => Clear ;; mret LUnit
  end.

(** The same operations on a plain list of values. *)
Definition spec_pos (tar : slice) (vs : list slice) : Z :=
  match list_find (fun v => str v = str tar) vs with Some (j, _) => Z.of_nat j | None => -1 end.

Definition spec_lop (o : lop) (vs : list slice) : lreply * list slice :=
  match o with
  | OLPush v => (LUnit, v :: vs)
  | ORPush v => (LUnit, vs ++ [v])
  | OLPop => (LVal (head vs), tail vs)
  | ORPop => (LVal (last vs), take (length vs - 1) vs)
  | OIndex i => (LVal (znth vs (norm_index (zlen vs) i)), vs)
  | OPos v => (LInt (spec_pos v vs), vs)
  | OSet i v =>
      match znth vs (norm_index (zlen vs) i) with
      | Some _ => (LBool true, <[Z.to_nat (norm_index (zlen vs) i) := v]> vs)
      | None => (LBool false, vs)
      end
  | ORange s e => (LVals ((fun '(s, e) => between s e vs) <$> clamp_range (zlen vs) s e), vs)
  | OTrim s e =>
      (LUnit, match clamp_range (zlen vs) s e with Some (s, e) => between s e vs | None => [] end)
  | OClear => (LUnit, [])
  end.

(** Indices as [Atoi] delivers them, except the smallest integer. *)
Definition lop_ok (o : lop) : Prop :=
  match o with OIndex i | OSet i _ => MinInt64 < i <= MaxInt64 | _ => True end.

Fixpoint run_lops (os : list lop) : M List (list lreply) :=
  match os with
  | [] => mret []
  | o :: os' => r ← run_lop o; rs ← run_lops os'; mret (r :: rs)
  end.

Fixpoint spec_lops (os : list lop) (vs : list slice) : list lreply * list slice :=
  match os with
  | [] => ([], vs)
  | o :: os' =>
      let '(r, vs1) := spec_lop o vs in
      let '(rs, vs2) := spec_lops os' vs1 in (r :: rs, vs2)
  end.

Lemma zlen_fmap {A B} (f : A -> B) l : zlen (f <$> l) = zlen l.
Proof. unfold zlen. by rewrite length_fmap. Qed.

Lemma mk_wfl l hv path tv : rep l hv path tv -> Len l = zlen path -> zlen path <= MaxInt64 -> wfl l path.*2.
Proof. intros Hr HL Hb. exists hv, path, tv. by rewrite zlen_fmap. Qed.

Lemma between_fmap {A B} (f : A -> B) s e l : between s e (f <$> l) = f <$> between s e l.
Proof. unfold between. by rewrite <- fmap_take, <- fmap_drop. Qed.

Lemma zlen_between {A} s e (l : list A) : zlen (between s e l) <= zlen l.
Proof. unfold zlen, between. rewrite length_drop, length_take. lia. Qed.

Lemma wp_node_val (pn : bool) l hv path tv i a v (Q : option slice -> List -> Prop) :
  rep l hv path tv -> znth path i = Some (a, v) -> Q (Some v) l -> wp pn (node_val (Some a)) Q l.
Proof.
  intros Hr Hi HQ. unfold znth in Hi. destruct (i <? 0); [done|].
  destruct (seg_in _ _ _ _ a v (rep_seg _ _ _ _ Hr)) as (q & r & E).
  { right. apply elem_of_app. left. by eapply list_elem_of_lookup_2. }
  cbn. apply wp_bind. eapply wp_getVal; [done|]. by apply wp_ret.
Qed.

(** The state after one operation, seen as a list of values. *)
Definition lpost (o : lop) (vs : list slice) (r : lreply) (l' : List) : Prop :=
  exists vs', spec_lop o vs = (r, vs') /\ wfl l' vs' /\ zlen vs' <= zlen vs + 1.

Section run_lop.
Context (pn : bool) (l : List) (hv tv : slice) (path : node_path).
Context (Hr : rep l hv path tv) (HL : Len l = zlen path) (Hb : zlen path < MaxInt64).

Lemma lpost_intro o r l' path' :
  rep l' hv path' tv -> Len l' = zlen path' -> spec_lop o path.*2 = (r, path'.*2) ->
  zlen path' <= zlen path + 1 -> lpost o path.*2 r l'.
Proof using Hb.
  intros Hr' HL' Hs Hz. exists path'.*2. split; [done|]. rewrite !zlen_fmap. split; [|done].
  apply (mk_wfl l' hv path' tv); [done|done|lia].
Qed.

Lemma lpost_same o r : spec_lop o path.*2 = (r, path.*2) -> lpost o path.*2 r l.
Proof using All. intros Hs. apply (lpost_intro o r l path); [done|done|done|lia]. Qed.

Lemma len_small z : 0 <= z <= MaxInt64 -> i64 z = z.
Proof using. intros. apply i64_id. unfold in_i64, MinInt64, MaxInt64 in *. lia. Qed.

Lemma run_LPush v : wp pn (run_lop (OLPush v)) (lpost (OLPush v) path.*2) l.
Proof using All.
  apply wp_bind. eapply wp_LPush; [done|]. intros l' Hr' HL'. apply wp_ret.
  pose proof (zlen_nonneg path). rewrite HL, len_small in HL' by lia.
  eapply lpost_intro; [done| |done|]; rewrite zlen_cons; lia.
Qed.

Lemma run_RPush v : wp pn (run_lop (ORPush v)) (lpost (ORPush v) path.*2) l.
Proof using All.
  apply wp_bind. eapply wp_RPush; [done|]. intros l' Hr' HL'. apply wp_ret.
  pose proof (zlen_nonneg path). rewrite HL, len_small in HL' by lia.
  eapply lpost_intro; [done| |by rewrite fmap_app|]; rewrite zlen_snoc; lia.
Qed.

Lemma run_LPop : wp pn (run_lop OLPop) (lpost OLPop path.*2) l.
Proof using All.
  apply wp_bind. pose proof (zlen_nonneg path).
  assert (Hc : path = [] \/ exists x v p, path = (x, v) :: p) by (destruct path as [|[]]; eauto 6).
  destruct Hc as [Ep|(x & v & p & Ep)].
  { apply wp_LPop_zero; [by rewrite HL, Ep|]. apply wp_bind, wp_ret, wp_ret, lpost_same. by rewrite Ep. }
  pose proof (f_equal zlen Ep) as Hz. rewrite zlen_cons in Hz.
  pose proof Hr as Hr1. rewrite Ep in Hr1. pose proof (zlen_nonneg p).
  eapply wp_LPop; [done|lia|]. intros l' Hr' Hx HL'. apply wp_bind. cbn [node_val].
  apply wp_bind. eapply wp_getVal; [done|]. do 2 apply wp_ret. rewrite HL, len_small in HL' by lia.
  eapply lpost_intro; [done|lia|by rewrite Ep|lia].
Qed.

Lemma run_RPop : wp pn (run_lop ORPop) (lpost ORPop path.*2) l.
Proof using All.
  apply wp_bind. pose proof (zlen_nonneg path).
  assert (Hc : path = [] \/ exists x v p, path = p ++ [(x, v)])
    by (destruct path as [|[] p _] using rev_ind; eauto 6).
  destruct Hc as [Ep|(x & v & p & Ep)].
  { apply wp_RPop_zero; [by rewrite HL, Ep|]. apply wp_bind, wp_ret, wp_ret, lpost_same. by rewrite Ep. }
  pose proof (f_equal zlen Ep) as Hz. rewrite zlen_snoc in Hz.
  pose proof Hr as Hr1. rewrite Ep in Hr1. pose proof (zlen_nonneg p).
  eapply wp_RPop; [done|lia|]. intros l' Hr' Hx HL'. apply wp_bind. cbn [node_val].
  apply wp_bind. eapply wp_getVal; [done|]. do 2 apply wp_ret. rewrite HL, len_small in HL' by lia.
  eapply lpost_intro; [done|lia| |lia].
  rewrite Ep, fmap_app. cbn [spec_lop fmap list_fmap]. rewrite last_snoc, length_app.
  cbn. by rewrite Nat.add_sub, take_app_length.
Qed.

Lemma run_Index i : lop_ok (OIndex i) -> wp pn (run_lop (OIndex i)) (lpost (OIndex i) path.*2) l.
Proof using All.
  intros Hok. apply wp_bind. eapply wp_Index; [done..| |].
  - intros a v E. apply wp_bind. eapply wp_node_val; [done..|]. apply wp_ret, lpost_same.
    cbn [spec_lop]. by rewrite zlen_fmap, znth_fmap, E.
  - intros E. apply wp_bind, wp_ret, wp_ret, lpost_same. cbn [spec_lop]. by rewrite zlen_fmap, znth_fmap, E.
Qed.

Lemma run_Pos v : wp pn (run_lop (OPos v)) (lpost (OPos v) path.*2) l.
Proof using All.
  apply wp_bind. eapply wp_Pos; [done|]. apply wp_ret, lpost_same.
  cbn. unfold spec_pos, pos_of. rewrite list_find_fmap. unfold holds, compose.
  by destruct (list_find _ path) as [[]|].
Qed.

Lemma run_Set i v : lop_ok (OSet i v) -> wp pn (run_lop (OSet i v)) (lpost (OSet i v) path.*2) l.
Proof using All.
  intros Hok. apply wp_bind. eapply wp_Set; [done..| |].
  - intros l' a w E Hr' HL'. apply wp_ret.
    assert (Hz : zlen (<[Z.to_nat (norm_index (zlen path) i) := (a, v)]> path) = zlen path)
      by (unfold zlen; by rewrite length_insert).
    eapply lpost_intro; [done|lia| |lia]. cbn [spec_lop]. by rewrite zlen_fmap, znth_fmap, E, list_fmap_insert.
  - intros E. apply wp_ret, lpost_same. cbn [spec_lop]. by rewrite zlen_fmap, znth_fmap, E.
Qed.

Lemma run_Range s e : wp pn (run_lop (ORange s e)) (lpost (ORange s e) path.*2) l.
Proof using All.
  apply wp_bind. eapply wp_Range; [done..|]. apply wp_ret, lpost_same. cbn [spec_lop]. by rewrite zlen_fmap.
Qed.

Lemma run_Trim s e : wp pn (run_lop (OTrim s e)) (lpost (OTrim s e) path.*2) l.
Proof using All.
  pose proof (zlen_nonneg path).
  apply wp_bind. eapply wp_Trim; [done|done|lia| |].
  - destruct (clamp_range (zlen path) s e) as [[s' e']|] eqn:E; intros l' Hr' HL'; apply wp_ret.
    + pose proof (zlen_between s' e' path). eapply lpost_intro; [done|done| |lia].
      cbn [spec_lop]. by rewrite zlen_fmap, E, between_fmap.
    + eapply lpost_intro; [done|done| |change (zlen (@nil (loc * slice))) with 0; lia].
      cbn [spec_lop]. by rewrite zlen_fmap, E.
  - intros Ep. apply wp_ret, lpost_same. rewrite Ep. cbn [spec_lop].
    destruct (clamp_range _ s e) as [[]|]; [|done]. unfold between. rewrite fmap_nil. by rewrite take_nil, drop_nil.
Qed.

Lemma run_Clear : wp pn (run_lop OClear) (lpost OClear path.*2) l.
Proof using All.
  pose proof (zlen_nonneg path).
  apply wp_bind. eapply wp_Clear; [done..|]. intros l' Hr' HL'. apply wp_ret.
  eapply lpost_intro; [done|done|done|]. change (zlen (@nil (loc * slice))) with 0. lia.
Qed.
End run_lop.

Lemma wp_run_lop (pn : bool) o l vs :
  wfl l vs -> zlen vs < MaxInt64 -> lop_ok o -> wp pn (run_lop o) (lpost o vs) l.
Proof.
  intros (hv & path & tv & Hr & <- & HL & _) Hb Hok. rewrite zlen_fmap in *.
  destruct o; eauto using run_LPush, run_RPush, run_LPop, run_RPop, run_Index, run_Pos, run_Set,
    run_Range, run_Trim, run_Clear.
Qed.

Lemma wp_run_lops (pn : bool) os l vs :
  wfl l vs -> zlen vs + zlen os <= MaxInt64 -> Forall lop_ok os ->
  wp pn (run_lops os) (fun rs l' => exists vs', spec_lops os vs = (rs, vs') /\ wfl l' vs') l.
Proof.
  revert l vs. induction os as [|o os IH]; intros l vs Hl Hb Hok; cbn [run_lops spec_lops].
  { apply wp_ret. by exists vs. }
  apply Forall_cons in Hok as [Ho Hok]. rewrite zlen_cons in Hb. pose proof (zlen_nonneg os).
  apply wp_bind. eapply wp_mono; [|apply wp_run_lop; [done|lia|done]].
  intros r l1 (vs1 & E1 & Hl1 & Hz). rewrite E1.
  apply wp_bind. eapply wp_mono; [|apply (IH l1 vs1); [done|lia|done]].
  intros rs l2 (vs2 & E2 & Hl2). rewrite E2. apply wp_ret. eauto.
Qed.

Lemma wfl_NewList : wfl NewList [].
Proof.
  exists NilSlice, [], NilSlice. split; [|done]. split; try done.
  - repeat constructor; set_solver.
  - cbn. repeat constructor.
Qed.

(** C15: the pointer list implements a list. From [NewList], every sequence of
    pushes, pops, index reads and writes, searches, ranges, trims and clears
    runs without a nil dereference and without exhausting a scan, returns what
    the same operations return on a plain list, and leaves a list whose forward
    and backward links spell that list and whose [Len] is its length. *)
Theorem list_refines (os : list lop) (Hb : zlen os <= MaxInt64) (Hok : Forall lop_ok os) :
  exists rs l' vs', run_lops os NewList = Ret (rs, l') /\ spec_lops os [] = (rs, vs') /\ wfl l' vs'.
Proof.
  destruct (wp_run _ _ _ (wp_run_lops false os NewList [] wfl_NewList Hb Hok)) as (rs & l' & E & vs' & H1 & H2).
  eauto 10.
Qed.

Definition demo_lops : list lop :=
  [OLPush (Slice (bs "b") []); OLPush (Slice (bs "a") []); ORPush (Slice (bs "c") []);
   OTrim 1 (-1); OIndex (-1); ORPop; OLPop; OLPop].

Lemma list_refines_witness :
  exists rs l' vs', run_lops demo_lops NewList = Ret (rs, l') /\
    spec_lops demo_lops [] = (rs, vs') /\ wfl l' vs'.
Proof.
  apply (list_refines demo_lops); [vm_compute; discriminate|].
  repeat constructor; vm_compute; done.
Defined.

(** [RemoveElement] takes out exactly the first (or last) [count] matching
    elements and reports how many, but it leaves [Len] as it was; a list it
    empties keeps a positive [Len], and the next [LPop] dereferences nil. *)
Theorem RemoveElement_stale (l : List) (vs : list slice) (val : slice) (count : Z) (Hl : wfl l vs) :
  exists l' hv path tv, RemoveElement val count l = Ret ((removal (zlen vs) count val vs).2, l') /\
    rep l' hv path tv /\ path.*2 = (removal (zlen vs) count val vs).1 /\ Len l' = zlen vs /\
    (path = [] -> vs <> [] -> LPop l' = Panic).
Proof.
  destruct Hl as (hv & path & tv & Hr & Hp & HL & _).
  destruct (wp_run (RemoveElement val count) (fun c l' => exists path', rep l' hv path' tv /\
     Len l' = Len l /\ removal (Len l) count val path.*2 = (path'.*2, c)) l) as (c & l' & E & path' & H1 & H2 & H3).
  { eapply wp_RemoveElement; [done|]. eauto. }
  exists l', hv, path', tv. rewrite HL, Hp in H3. rewrite H3. split; [done|]. split; [done|]. split; [done|].
  split; [congruence|]. intros -> Hne. eapply LPop_stale; [done|]. rewrite H2, HL.
  destruct vs; [done|]. rewrite zlen_cons. pose proof (zlen_nonneg vs). lia.
Qed.

Lemma RemoveElement_stale_witness :
  exists l' hv path tv, RemoveElement (Slice (bs "x") []) 1 NewList = Ret (0, l') /\
    rep l' hv path tv /\ path.*2 = [] /\ Len l' = 0 /\ (path = [] -> ([] : list slice) <> [] -> LPop l' = Panic).
Proof.
  exact (RemoveElement_stale NewList [] (Slice (bs "x") []) 1 wfl_NewList).
Defined.
