(* ===== verification/HashStruct.v ===== *)
(** * HashStruct: the hash value (src/memdb/hash_struct.go)

    A Go map from field to value. Operations that range over the map take the
    runtime's iteration counter [n]; a loop that starts over uses the orders
    [n], [n+1], ... *)

From S2P Require Import Prelude Strconv Floats.

Abbreviation Hash := (gmap bytes slice).

Definition NewHash : Hash := ∅.

Definition Set_ (key : bytes) (value : slice) (h : Hash) : Hash := <[key := value]> h.

(** [h.table[key]]: the nil slice when the field is missing. *)
Definition Get (key : bytes) (h : Hash) : slice := default NilSlice (h !! key).

Definition Exist (key : bytes) (h : Hash) : bool := bool_decide (is_Some (h !! key)).

Definition Del (key : bytes) (h : Hash) : Z * Hash :=
  if Exist key h then (1, delete key h) else (0, h).

Definition Len (h : Hash) : Z := Z.of_nat (size h).

Definition Clear (h : Hash) : Hash := ∅.
Definition IsEmpty (h : Hash) : bool := Len h =? 0.
Definition StrLen (key : bytes) (h : Hash) : Z := slen (Get key h).
Definition Table (h : Hash) : Hash := h.

Section runtime.
Context {rt : GoRuntime}.

(** The visits of one [range h.table]. *)
Definition entries (n : nat) (h : Hash) : list (bytes * slice) :=
  map (fun k => (k, Get k h)) (range_order n (dom h)).

Definition Keys (n : nat) (h : Hash) : list bytes := map fst (entries n h).
Definition Values (n : nat) (h : Hash) : list slice := map snd (entries n h).

(** [for { for key := range h.table { ...; if len(res) == want { return } } }]:
    whole passes over the map until [want] entries are collected; every pass
    adds an entry, so [want] passes suffice. *)
Fixpoint cycle_entries (passes n : nat) (want : nat) (h : Hash) : list (bytes * slice) :=
  match passes with
  | O => []
  | S p =>
      let pass := entries n h in
      if (want <=? length pass)%nat then take want pass
      else pass ++ cycle_entries p (S n) (want - length pass) h
  end.

(** The entries Random and RandomWithValue return. For the smallest integer
    [-count] overflows and the loop never ends. *)
Definition random_entries (n : nat) (count : Z) (h : Hash) : outcome (list (bytes * slice)) :=
  if (count =? 0) || (Len h =? 0) then Ret []
  else if 0 <? count then
    let count := if Len h <? count then Len h else count in
    Ret (take (Z.to_nat count) (entries n h))
  else if count =? MinInt64 then Block
  else Ret (cycle_entries (Z.to_nat (- count)) n (Z.to_nat (- count)) h).

Definition Random (n : nat) (count : Z) (h : Hash) : outcome (list bytes) :=
  match random_entries n count h with
  | Ret es => Ret (map fst es)
  | Panic => Panic
  | Block => Block
  end.

(** [count *= 2] wraps: below [-2^62] the test [len(res) == -count] is met by
    the wrapped bound, or never. *)
Definition RandomWithValue (n : nat) (count : Z) (h : Hash) : outcome (list slice) :=
  if (count =? 0) || (Len h =? 0) then Ret []
  else
    let flat es := concat (map (fun '(k, v) => [of_string k; v]) es) in
    if 0 <? count then
      let count := if Len h <? count then Len h else count in
      Ret (flat (take (Z.to_nat count) (entries n h)))
    else
      let want := i64 (- i64 (count * 2)) in
      if want <=? 0 then Block
      else Ret (flat (cycle_entries (Z.to_nat (want / 2)) n (Z.to_nat (want / 2)) h)).

Definition IncrBy (key : bytes) (incr : Z) (h : Hash) : (Z * bool) * Hash :=
  let tem := Get key h in
  if slen tem =? 0 then ((incr, true), Set_ key (of_string (Itoa incr)) h)
  else
    match Atoi (str tem) with
    | None => ((0, false), h)
    | Some value =>
        let value := i64 (value + incr) in
        ((value, true), Set_ key (of_string (Itoa value)) h)
    end.

Definition IncrByFloat (key : bytes) (incr : float64) (h : Hash) : (float64 * bool) * Hash :=
  let tem := Get key h in
  if slen tem =? 0 then ((incr, true), Set_ key (of_string (FormatFloat_short incr)) h)
  else
    match ParseFloat (str tem) with
    | None => ((S754_zero false, false), h)
    | Some value =>
        let value := fadd value incr in
        ((value, true), Set_ key (of_string (FormatFloat_short value)) h)
    end.

(* ===================================================================== *)
(** ** Lemmas                                                            *)
(* ===================================================================== *)

Lemma entries_perm n h : entries n h ≡ₚ map_to_list h.
Proof.
  unfold entries. rewrite range_order_perm.
  induction h as [|k v h Hk IH] using map_ind.
  { by rewrite dom_empty_L, elements_empty, map_to_list_empty. }
  rewrite dom_insert_L, elements_union_singleton by (by apply not_elem_of_dom).
  rewrite map_to_list_insert by done. cbn. unfold Get at 1. rewrite lookup_insert_eq. cbn.
  constructor. rewrite <- IH. apply reflexive_eq, map_ext_in. intros k' Hk'. f_equal.
  unfold Get. rewrite lookup_insert_ne; [done|]. intros ->.
  apply list_elem_of_In, elem_of_elements, elem_of_dom in Hk'. by rewrite Hk in Hk'; destruct Hk'.
Qed.

Lemma length_entries n h : length (entries n h) = size h.
Proof. rewrite entries_perm. apply length_map_to_list. Qed.

Lemma length_cycle passes n want h :
  h <> ∅ -> (want <= passes)%nat -> length (cycle_entries passes n want h) = want.
Proof.
  intros Hne. revert n want. induction passes as [|p IH]; intros n want Hw; cbn; [lia|].
  pose proof (length_entries n h) as Hl.
  assert (size h <> 0%nat) by (by intros ?%map_size_empty_inv).
  destruct (want <=? _)%nat eqn:E.
  - apply Nat.leb_le in E. rewrite length_take. lia.
  - apply Nat.leb_gt in E. rewrite length_app, IH; lia.
Qed.

Lemma cycle_subset passes n want h e : e ∈ cycle_entries passes n want h -> h !! e.1 = Some e.2.
Proof.
  assert (He : forall m, e ∈ entries m h -> h !! e.1 = Some e.2).
  { intros m. rewrite entries_perm. destruct e. apply elem_of_map_to_list. }
  revert n want. induction passes as [|p IH]; intros n want; cbn; [by intros ?%elem_of_nil|].
  destruct (want <=? _)%nat.
  - intros [i Hi]%list_elem_of_lookup. apply lookup_take_Some in Hi as [Hi _].
    eapply He, list_elem_of_lookup_2, Hi.
  - intros [H|H]%elem_of_app; [by eapply He|by eapply IH].
Qed.
End runtime.
