(* ===== verification/SetStruct.v ===== *)
(** * SetStruct: the set value (src/memdb/sets_struct.go)

    A Go [map[string]void] is a finite set of strings. Loops over the map
    follow the runtime's order for iteration counter [n]; the theorems show
    that the set operations do not depend on it. *)

From S2P Require Import Prelude.

Abbreviation Set_t := (gset bytes).

Definition NewSet : Set_t := ∅.

Definition Has (key : bytes) (s : Set_t) : bool := bool_decide (key ∈ s).

Definition Add (key : bytes) (s : Set_t) : Z * Set_t :=
  if Has key s then (0, s) else (1, {[key]} ∪ s).

Definition Remove (key : bytes) (s : Set_t) : Z * Set_t :=
  if Has key s then (1, s ∖ {[key]}) else (0, s).

Definition Len (s : Set_t) : Z := Z.of_nat (size s).

Definition Clear (s : Set_t) : Set_t := ∅.

Section runtime.
Context {rt : GoRuntime}.
Implicit Types (n : nat) (k : bytes).

(** The first key of the iteration, or the empty string. *)
Definition Pop (n : nat) (s : Set_t) : bytes * Set_t :=
  match range_order n s with
  | key :: _ => (key, (Remove key s).2)
  | [] => ([], s)
  end.

Definition Members (n : nat) (s : Set_t) : list bytes := range_order n s.

(** [for key := range s.table { res.Add(key) }] and the same with Remove. *)
Definition add_all (n : nat) (s res : Set_t) : Set_t :=
  fold_left (fun r k => (Add k r).2) (range_order n s) res.

Definition remove_all (n : nat) (s res : Set_t) : Set_t :=
  fold_left (fun r k => (Remove k r).2) (range_order n s) res.

(** [for key := range res.table { if !set.Has(key) { res.Remove(key) } }]; Go
    visits every key that was in the map when the loop started. *)
Definition retain (n : nat) (set res : Set_t) : Set_t :=
  fold_left (fun r k => if Has k set then r else (Remove k r).2) (range_order n res) res.

(** Fold over [sets...], each loop with an order of its own. *)
Fixpoint each_set (f : nat -> Set_t -> Set_t -> Set_t) (n : nat) (sets : list Set_t) (res : Set_t) : Set_t :=
  match sets with
  | [] => res
  | set :: sets' => each_set f (S n) sets' (f n set res)
  end.

Definition Union (n : nat) (s : Set_t) (sets : list Set_t) : Set_t :=
  each_set add_all (S n) sets (add_all n s NewSet).

Definition Intersect (n : nat) (s : Set_t) (sets : list Set_t) : Set_t :=
  each_set retain (S n) sets (add_all n s NewSet).

Definition Difference (n : nat) (s : Set_t) (sets : list Set_t) : Set_t :=
  each_set remove_all (S n) sets (add_all n s NewSet).

Definition IsSubset (n : nat) (s set : Set_t) : bool :=
  forallb (fun k => Has k set) (range_order n s).

(** [for len(res) < -count { for key := range s.table { ... } }]. *)
Fixpoint cycle_members (passes n want : nat) (s : Set_t) : list bytes :=
  match passes with
  | O => []
  | S p =>
      let pass := range_order n s in
      if (want <=? length pass)%nat then take want pass
      else pass ++ cycle_members p (S n) (want - length pass) s
  end.

(** The largest capacity [make([]string, 0, n)] accepts: a string header has
    16 bytes and the address space 2^48. The detour over float64 cannot bring a
    larger count below it. *)
Definition max_strings : Z := 2 ^ 44.

(** With the smallest integer [-count] is negative and nothing is collected,
    but the allocation has already failed. *)
Definition Random (n : nat) (count : Z) (s : Set_t) : outcome (list bytes) :=
  if max_strings <? Z.abs count then Panic
  else if (count =? 0) || (Len s =? 0) then Ret []
  else if 0 <? count then
    let count := if Len s <? count then Len s else count in
    Ret (take (Z.to_nat count) (range_order n s))
  else Ret (cycle_members (Z.to_nat (- count)) n (Z.to_nat (- count)) s).

(* ===================================================================== *)
(** ** The loops compute the set operations                              *)
(* ===================================================================== *)

Lemma Add_spec k s : (Add k s).2 = {[k]} ∪ s.
Proof. unfold Add, Has. case_bool_decide; cbn; [set_solver|done]. Qed.

Lemma Remove_spec k s : (Remove k s).2 = s ∖ {[k]}.
Proof. unfold Remove, Has. case_bool_decide; cbn; [done|set_solver]. Qed.

Lemma range_order_elem n (s : Set_t) k : k ∈ range_order n s <-> k ∈ s.
Proof. rewrite range_order_perm. apply elem_of_elements. Qed.

Lemma fold_add_spec l res : fold_left (fun r k => (Add k r).2) l res = list_to_set l ∪ res.
Proof.
  revert res. induction l as [|k l IH]; intros res; cbn; [set_solver|].
  rewrite IH, Add_spec. set_solver.
Qed.

Lemma fold_remove_spec (p : bytes -> bool) l res :
  fold_left (fun r k => if p k then r else (Remove k r).2) l res =
  res ∖ list_to_set (filter (fun k => p k = false) l).
Proof.
  revert res. induction l as [|k l IH]; intros res; cbn; [set_solver|].
  rewrite IH. destruct (p k) eqn:E.
  - by rewrite decide_False by congruence.
  - rewrite decide_True by done. rewrite Remove_spec. set_solver.
Qed.

Lemma add_all_spec n s res : add_all n s res = s ∪ res.
Proof.
  unfold add_all. rewrite fold_add_spec. apply set_eq. intros k.
  rewrite !elem_of_union, elem_of_list_to_set, range_order_elem. done.
Qed.

Lemma remove_all_spec n s res : remove_all n s res = res ∖ s.
Proof.
  unfold remove_all. rewrite (fold_remove_spec (fun _ => false)). apply set_eq. intros k.
  rewrite !elem_of_difference, elem_of_list_to_set, list_elem_of_filter, range_order_elem. tauto.
Qed.

Lemma retain_spec n set res : retain n set res = res ∩ set.
Proof.
  unfold retain. rewrite fold_remove_spec. apply set_eq. intros k.
  rewrite elem_of_difference, elem_of_intersection, elem_of_list_to_set, list_elem_of_filter, range_order_elem.
  unfold Has. destruct (decide (k ∈ set)).
  - rewrite bool_decide_true by done. naive_solver.
  - rewrite bool_decide_false by done. tauto.
Qed.

Lemma each_set_elem (f : nat -> Set_t -> Set_t -> Set_t) (step : Set_t -> Set_t -> Set_t) n sets res :
  (forall m s r, f m s r = step s r) -> each_set f n sets res = fold_left (fun r s => step s r) sets res.
Proof.
  intros Hf. revert n res. induction sets as [|s sets IH]; intros n res; [done|]. cbn. by rewrite IH, Hf.
Qed.

Lemma Union_spec n s sets : Union n s sets = s ∪ ⋃ sets.
Proof.
  unfold Union. rewrite (each_set_elem _ (fun s r => s ∪ r)) by apply add_all_spec.
  rewrite add_all_spec. unfold NewSet. rewrite (right_id_L ∅ (∪)).
  revert s. induction sets as [|t sets IH]; intros s; cbn; [set_solver|]. rewrite IH. set_solver.
Qed.

Lemma Intersect_spec n s sets k : k ∈ Intersect n s sets <-> k ∈ s /\ Forall (fun t => k ∈ t) sets.
Proof.
  unfold Intersect. rewrite (each_set_elem _ (fun s r => r ∩ s)) by apply retain_spec.
  rewrite add_all_spec. unfold NewSet. rewrite (right_id_L ∅ (∪)).
  revert s. induction sets as [|t sets IH]; intros s; cbn.
  { rewrite Forall_nil. tauto. }
  rewrite IH, Forall_cons. set_solver.
Qed.

Lemma Difference_spec n s sets : Difference n s sets = s ∖ ⋃ sets.
Proof.
  unfold Difference. rewrite (each_set_elem _ (fun s r => r ∖ s)) by apply remove_all_spec.
  rewrite add_all_spec. unfold NewSet. rewrite (right_id_L ∅ (∪)).
  revert s. induction sets as [|t sets IH]; intros s; cbn; [set_solver|]. rewrite IH. set_solver.
Qed.

Lemma IsSubset_spec n s set : IsSubset n s set = bool_decide (s ⊆ set).
Proof.
  apply eq_true_iff_eq. unfold IsSubset. rewrite forallb_forall, bool_decide_eq_true.
  setoid_rewrite <- list_elem_of_In. setoid_rewrite range_order_elem. unfold Has.
  split; intros H k Hk.
  - exact (bool_decide_eq_true_1 _ (H k Hk)).
  - exact (bool_decide_eq_true_2 _ (H k Hk)).
Qed.

Lemma Pop_spec n s : s <> ∅ -> exists k, k ∈ s /\ Pop n s = (k, s ∖ {[k]}).
Proof.
  intros Hs. unfold Pop. destruct (range_order n s) as [|k l] eqn:E.
  - destruct Hs. apply set_eq. intros k. rewrite <- (range_order_elem n), E. set_solver.
  - exists k. split; [rewrite <- (range_order_elem n), E; left|]. by rewrite Remove_spec.
Qed.

Lemma length_cycle_members passes n want s :
  s <> ∅ -> (want <= passes)%nat -> length (cycle_members passes n want s) = want.
Proof.
  intros Hne. revert n want. induction passes as [|p IH]; intros n want Hw; cbn; [lia|].
  assert (Hl : length (range_order n s) = size s) by (by rewrite range_order_perm).
  assert (size s <> 0%nat) by (by intros ?%size_empty_inv%leibniz_equiv).
  destruct (want <=? _)%nat eqn:E.
  - apply Nat.leb_le in E. rewrite length_take. lia.
  - apply Nat.leb_gt in E. rewrite length_app, IH; lia.
Qed.

Lemma cycle_members_subset passes n want s k : k ∈ cycle_members passes n want s -> k ∈ s.
Proof.
  revert n want. induction passes as [|p IH]; intros n want; cbn; [by intros ?%elem_of_nil|].
  destruct (want <=? _)%nat.
  - intros [i Hi]%list_elem_of_lookup. apply lookup_take_Some in Hi as [Hi _].
    apply (range_order_elem n). by eapply list_elem_of_lookup_2.
  - intros [H|H]%elem_of_app; [by apply (range_order_elem n)|by eapply IH].
Qed.
End runtime.

(** the set algebra is right and does not depend on the order in which
    the runtime iterates maps: union, intersection and difference of a set with
    a list of sets are the mathematical ones, for every runtime and every
    iteration counter. *)
Theorem set_algebra (rt : GoRuntime) (n : nat) (s : Set_t) (sets : list Set_t) :
  Union n s sets = s ∪ ⋃ sets /\
  Difference n s sets = s ∖ ⋃ sets /\
  (forall k, k ∈ Intersect n s sets <-> k ∈ s /\ Forall (fun t => k ∈ t) sets).
Proof.
  split; [apply Union_spec|]. split; [apply Difference_spec|]. intros k. apply Intersect_spec.
Qed.

(** [Random] returns members only; distinct ones and as many as the set
    has, up to [count], for a positive count; exactly [-count], with
    repetitions, for a negative one. *)
Theorem Random_members (rt : GoRuntime) (n : nat) (count : Z) (s : Set_t)
  (Hne : s <> ∅) (Hc : Z.abs count <= max_strings) (Hc0 : count <> 0) :
  exists res, Random n count s = Ret res /\ (forall k, k ∈ res -> k ∈ s) /\
    (0 < count -> NoDup res /\ zlen res = Z.min count (Len s)) /\
    (count < 0 -> zlen res = - count).
Proof.
  assert (Hs : size s <> 0%nat) by (by intros ?%size_empty_inv%leibniz_equiv).
  unfold Random, Len. zb. destruct (0 <? count) eqn:E; [apply Z.ltb_lt in E|apply Z.ltb_ge in E].
  - eexists. split; [done|].
    assert (Hlen : length (range_order n s) = size s) by (by rewrite range_order_perm).
    split; [|split; [|lia]].
    + intros k [i Hi]%list_elem_of_lookup. apply lookup_take_Some in Hi as [Hi _].
      apply (range_order_elem n). by eapply list_elem_of_lookup_2.
    + intros _. split.
      * eapply sublist_NoDup; [|apply sublist_take]. rewrite range_order_perm. apply NoDup_elements.
      * unfold zlen. rewrite length_take, Hlen. destruct (_ <? _) eqn:E2;
          [apply Z.ltb_lt in E2|apply Z.ltb_ge in E2]; lia.
  - eexists. split; [done|]. split; [intros k; apply cycle_members_subset|]. split; [lia|].
    intros _. unfold zlen. rewrite length_cycle_members by (done || lia). lia.
Qed.

Lemma Random_members_witness :
  exists res, @Random plain_runtime 0 (-5) {[bs "a"; bs "b"]} = Ret res /\
    (forall k, k ∈ res -> k ∈ ({[bs "a"; bs "b"]} : Set_t)) /\
    (0 < -5 -> NoDup res /\ zlen res = Z.min (-5) (Len {[bs "a"; bs "b"]})) /\
    (-5 < 0 -> zlen res = - -5).
Proof.
  apply (Random_members plain_runtime 0 (-5) {[bs "a"; bs "b"]}); [|unfold max_strings; lia|lia].
  apply (bool_decide_unpack _). vm_compute. exact I.
Defined.
