(* ===== verification/StreamStruct.v ===== *)
(** * StreamStruct: streams (src/memdb/stream_struct.go)

    A stream is the list of its IDs in order of arrival and a Go map from the
    text of an ID to the fields of the entry. The lock of a stream is taken and
    released inside each method, under the lock of the stream's key; it is not
    part of the model. [AddEntry] completes the ID it is given: the model
    returns the completed ID. *)

From S2P Require Import Prelude Strconv.

Record StreamID : Type := mkID { time : Z; seqNum : Z }.

Record Stream : Type := mkStream {
  entry : gmap bytes (list bytes);
  timeStamps : list StreamID
}.

#[export] Instance StreamID_eq_dec : EqDecision StreamID.
Proof. solve_decision. Defined.

Definition NewStream : Stream := mkStream ∅ [].

(** [fmt.Sprintf("%d-%d", i.time, i.seqNum)]. *)
Definition Format (i : StreamID) : bytes := FormatInt (time i) ++ bs "-" ++ FormatInt (seqNum i).

Definition GreaterEqual (i ID : StreamID) : bool := (time ID <=? time i) && (seqNum ID <=? seqNum i).

(** [None] is the error. *)
Definition Parse (text : bytes) : option StreamID :=
  match Split "-" text with
  | [t] => t' ← ParseInt t; Some (mkID t' 0)
  | [t; n] => t' ← ParseInt t; n' ← ParseInt n; Some (mkID t' n')
  | _ => None
  end.

(** [s.timeStamps = append(s.timeStamps, ID); s.entry[ID.Format()] = val]. *)
Definition put_entry (ID : StreamID) (val : list bytes) (s : Stream) : Stream :=
  mkStream (<[Format ID := val]> (entry s)) (timeStamps s ++ [ID]).

(** [None] is the error for an ID that is too small; [now] is
    [time.Now().UnixMilli()]. *)
Definition AddEntry (now : Z) (ID : StreamID) (val : list bytes) (s : Stream) : option (StreamID * Stream) :=
  let ID := if time ID =? -1 then mkID now (seqNum ID) else ID in
  match last (timeStamps s) with
  | None =>
      let ID := mkID (time ID) 0 in
      Some (ID, put_entry ID val s)
  | Some top =>
      if time ID <? time top then None
      else if (time ID =? time top) && (seqNum ID =? -1) then
        let ID := mkID (time ID) (i64 (seqNum top + 1)) in
        Some (ID, put_entry ID val s)
      else if (time ID =? time top) && (seqNum ID <? seqNum top) then None
      else Some (ID, put_entry ID val s)
  end.

(** The entry of an ID as a Range reports it; a missing map key reads as nil. *)
Definition message (s : Stream) (k : StreamID) : StreamID * list bytes := (k, default [] (entry s !! Format k)).

(** The linear search of Range. *)
Fixpoint range_loop (start end_ : StreamID) (flag : bool) (ks : list StreamID) : list StreamID :=
  match ks with
  | [] => []
  | k :: ks' =>
      if ((time end_ <? time k) && negb (time end_ =? -1)) ||
         ((time k =? time end_) && (seqNum end_ <=? seqNum k)) then []
      else
        let flag := flag || ((time start <=? time k) && ((seqNum start <=? seqNum k) || (seqNum start =? -1))) in
        if flag then k :: range_loop start end_ flag ks' else range_loop start end_ flag ks'
  end.

(** The IDs and the entries, paired. *)
Definition Range (start end_ : StreamID) (s : Stream) : list (StreamID * list bytes) :=
  if (time start =? -1) && (time end_ =? -1) then map (message s) (timeStamps s)
  else map (message s) (range_loop start end_ false (timeStamps s)).

(** [delete(s.entry, t.Format())] for each [t]. *)
Definition drop_entries (ts : list StreamID) (m : gmap bytes (list bytes)) : gmap bytes (list bytes) :=
  fold_left (fun m t => delete (Format t) m) ts m.

Definition DropFirst (s : Stream) : Z * Stream :=
  match timeStamps s with
  | [] => (0, s)
  | stamp :: ts => (zlen ts, mkStream (delete (Format stamp) (entry s)) ts)
  end.

(** The slice expression panics for a negative [n]. *)
Definition DropFirstN (n : Z) (s : Stream) : outcome (Z * Stream) :=
  let length := zlen (timeStamps s) in
  if n =? 0 then Ret (length, s)
  else if length <=? n then Ret (0, NewStream)
  else if n <? 0 then Panic
  else
    let ts := drop (Z.to_nat n) (timeStamps s) in
    Ret (zlen ts, mkStream (drop_entries (take (Z.to_nat n) (timeStamps s)) (entry s)) ts).

(* ===================================================================== *)
(** ** The text of an ID                                                 *)
(* ===================================================================== *)

Lemma FormatInt_nosep z : 0 <= z -> "-"%char ∉ FormatInt z.
Proof.
  intros Hz. unfold FormatInt. zb. intros Hin.
  pose proof (FormatNat_digits z) as H. rewrite Forall_forall in H. by apply H in Hin.
Qed.

(** IDs with a time that is not negative print and parse back. *)
Lemma Parse_Format i : 0 <= time i -> 0 <= seqNum i -> in_i64 (time i) -> in_i64 (seqNum i) ->
  Parse (Format i) = Some i.
Proof.
  intros Ht Hs Ht' Hs'. unfold Parse, Format. change (bs "-" ++ ?x) with ("-"%char :: x).
  rewrite Split_app_sep by by apply FormatInt_nosep.
  rewrite Split_nosep by by apply FormatInt_nosep. cbn. rewrite !ParseInt_FormatInt by done. by destruct i.
Qed.

Lemma app_sep_inj (c : byte) (a a' b b' : bytes) :
  c ∉ a -> c ∉ a' -> a ++ c :: b = a' ++ c :: b' -> a = a' /\ b = b'.
Proof.
  revert a'. induction a as [|x a IH]; intros [|x' a'] Ha Ha' E; cbn in E; simplify_eq; [done|set_solver..|].
  apply not_elem_of_cons in Ha as [_ Ha]. apply not_elem_of_cons in Ha' as [_ Ha'].
  by destruct (IH a') as [-> ->].
Qed.

(** An ID as the program makes them: its parts fit in 64 bits, and no text and
    no clock gives a negative time. *)
Definition id_ok (i : StreamID) : Prop := 0 <= time i <= MaxInt64 /\ in_i64 (seqNum i).

Lemma FormatInt_inj x y : in_i64 x -> in_i64 y -> FormatInt x = FormatInt y -> x = y.
Proof.
  intros Hx Hy E. apply (f_equal ParseInt) in E. rewrite !ParseInt_FormatInt in E by done. by simplify_eq.
Qed.

Lemma Format_inj i j : id_ok i -> id_ok j -> Format i = Format j -> i = j.
Proof.
  destruct i as [ti si], j as [tj sj]. intros [Hti Hsi] [Htj Hsj] E. unfold Format in E. cbn in *.
  apply app_sep_inj in E as [E1 E2]; [|apply FormatInt_nosep; lia..].
  apply FormatInt_inj in E1; [|unfold in_i64, MinInt64; lia..]. apply FormatInt_inj in E2; [|done..].
  by subst.
Qed.

(* ===================================================================== *)
(** ** A stream as a log of entries                                      *)
(* ===================================================================== *)

(** The order of IDs. *)
Definition id_lt (i j : StreamID) : Prop := time i < time j \/ (time i = time j /\ seqNum i < seqNum j).

(** The invariant: IDs are well formed and their times never decrease. *)
Record stream_ok (s : Stream) : Prop := mkStreamOk {
  so_ids : Forall id_ok (timeStamps s);
  so_times : StronglySorted (fun i j => time i <= time j) (timeStamps s)
}.

(** The contract of a stream: an append-only log [l] of entries with strictly
    increasing IDs. *)
Record is_log (s : Stream) (l : list (StreamID * list bytes)) : Prop := mkHolds {
  h_ids : timeStamps s = l.*1;
  h_entry : Forall (fun e => entry s !! Format e.1 = Some e.2) l;
  h_ok : Forall id_ok l.*1;
  h_sorted : StronglySorted id_lt l.*1
}.

Lemma sid_lt_irrefl i : ~ id_lt i i.
Proof. intros [H|[_ H]]; lia. Qed.

Lemma sid_lt_trans i j k : id_lt i j -> id_lt j k -> id_lt i k.
Proof. unfold id_lt. lia. Qed.

Lemma nil_or_snoc {A} (l : list A) : l = [] \/ exists l' x, l = l' ++ [x].
Proof. destruct l as [|x l] using rev_ind; [by left|right; by exists l, x]. Qed.

Lemma StronglySorted_app_one {A} (R : A -> A -> Prop) l x :
  StronglySorted R l -> Forall (fun y => R y x) l -> StronglySorted R (l ++ [x]).
Proof.
  induction 1 as [|y l H1 IH H2]; intros Hx; cbn; [by repeat constructor|].
  apply Forall_cons in Hx as [Hy Hx]. constructor; [by apply IH|]. apply Forall_app. split; [done|by constructor].
Qed.

Lemma StronglySorted_last {A} (R : A -> A -> Prop) `{!Transitive R} l x y :
  StronglySorted R (l ++ [x]) -> R x y -> Forall (fun z => R z y) (l ++ [x]).
Proof.
  intros H Hxy. apply Forall_app. split; [|by constructor]. apply Forall_forall. intros z Hz.
  etrans; [|exact Hxy]. apply list_elem_of_split in Hz as (l1 & l2 & ->).
  rewrite <- app_assoc in H. cbn in H. apply StronglySorted_app_1_r in H.
  inversion H as [|? ? _ HF]. subst. apply Forall_app in HF as [_ HF]. by inversion HF.
Qed.

Lemma StronglySorted_weaken {A} (R R' : A -> A -> Prop) l :
  (forall x y, R x y -> R' x y) -> StronglySorted R l -> StronglySorted R' l.
Proof. intros HR. induction 1 as [|x l _ IH H]; constructor; [done|]. eapply Forall_impl; [exact H|]. apply HR. Qed.

Lemma StronglySorted_drop {A} (R : A -> A -> Prop) n l : StronglySorted R l -> StronglySorted R (drop n l).
Proof. intros H. rewrite <- (take_drop n l) in H. by apply StronglySorted_app_1_r in H. Qed.

#[export] Instance id_lt_Transitive : Transitive id_lt.
Proof. exact sid_lt_trans. Qed.

Lemma is_log_ok s l : is_log s l -> stream_ok s.
Proof.
  intros [H1 _ H3 H4]. split; rewrite H1; [done|]. eapply StronglySorted_weaken; [|exact H4].
  intros i j [H|[H _]]; lia.
Qed.

Lemma is_log_NewStream : is_log NewStream [].
Proof. split; by constructor. Qed.

Lemma is_log_NoDup s l : is_log s l -> NoDup l.*1.
Proof.
  intros [_ _ _ H]. induction H as [|i l0 H1 IH H2]; constructor; [|done].
  intros Hi. rewrite Forall_forall in H2. by apply H2, sid_lt_irrefl in Hi.
Qed.

(** An entry with a larger ID joins the log at its end. *)
Lemma is_log_put s l ID val : is_log s l -> id_ok ID -> Forall (fun e => id_lt e.1 ID) l ->
  is_log (put_entry ID val s) (l ++ [(ID, val)]).
Proof.
  intros [H1 H2 H3 H4] Hok Hlt. split; cbn; rewrite ?fmap_app.
  - by rewrite H1.
  - apply Forall_app. split; [|constructor; [by rewrite lookup_insert_eq|done]].
    rewrite Forall_forall in H2. rewrite Forall_forall in H3. rewrite Forall_forall in Hlt.
    apply Forall_forall. intros e He. rewrite lookup_insert_ne; [by apply H2|].
    intros E. apply Format_inj in E; [|done|apply H3; by apply list_elem_of_fmap_2].
    apply (sid_lt_irrefl ID). rewrite E at 1. by apply Hlt.
  - apply Forall_app. split; [done|by constructor].
  - apply StronglySorted_app_one; [done|]. by rewrite Forall_fmap.
Qed.

Lemma range_all s l i j : is_log s l -> time i = -1 -> time j = -1 -> Range i j s = l.
Proof.
  intros [H1 H2 _ _] Hi Hj. unfold Range. rewrite Hi, Hj, H1. cbn. rewrite <- list_fmap_compose. clear H1.
  induction H2 as [|[k v] l E _ IH]; [done|]. cbn in *. rewrite IH. unfold message. by rewrite E.
Qed.

(* ===================================================================== *)
(** ** AddEntry                                                          *)
(* ===================================================================== *)

(** The ID an entry gets on top of a log: [*] takes the clock's time, a stream's
    first entry has number 0, and a time that is already on top continues the
    numbering. *)
Definition completed (now : Z) (ID : StreamID) (top : option StreamID) : StreamID :=
  let ID := if time ID =? -1 then mkID now (seqNum ID) else ID in
  match top with
  | None => mkID (time ID) 0
  | Some top =>
      if (time ID =? time top) && (seqNum ID =? -1) then mkID (time ID) (i64 (seqNum top + 1)) else ID
  end.

Lemma completed_ok now ID top : 0 <= now <= MaxInt64 -> (time ID = -1 \/ 0 <= time ID <= MaxInt64) ->
  in_i64 (seqNum ID) -> id_ok (completed now ID top).
Proof.
  intros Hnow Ht Hs. unfold completed, id_ok.
  destruct top as [top|]; [destruct (andb _ _)|]; cbn; destruct (Z.eqb_spec (time ID) (-1)); cbn;
    split; try done; try lia; try apply i64_range; unfold in_i64, MinInt64, MaxInt64; lia.
Qed.

(** What AddEntry returns, on each branch. *)
Lemma AddEntry_cases now ID val s :
  match AddEntry now ID val s with
  | Some (ID', s') => ID' = completed now ID (last (timeStamps s)) /\ s' = put_entry ID' val s /\
      forall top, last (timeStamps s) = Some top -> time top <= time ID'
  | None => exists top, last (timeStamps s) = Some top /\
      let ID' := completed now ID (Some top) in
      time ID' < time top \/ (time ID' = time top /\ seqNum ID' < seqNum top)
  end.
Proof.
  unfold AddEntry, completed. destruct (last (timeStamps s)) as [top|]; [|done]. cbv zeta.
  set (ID' := if time ID =? -1 then mkID now (seqNum ID) else ID). clearbody ID'.
  destruct (Z.ltb_spec (time ID') (time top)) as [H1|H1].
  { exists top. split; [done|]. left. destruct (andb _ _); cbn; lia. }
  destruct (Z.eqb_spec (time ID') (time top)) as [H2|H2], (Z.eqb_spec (seqNum ID') (-1)) as [H3|H3]; cbn;
    try (split; [done|]; split; [done|]; intros ? [= <-]; cbn; lia).
  destruct (Z.ltb_spec (seqNum ID') (seqNum top)) as [H4|H4].
  - exists top. split; [done|]. rewrite andb_false_r. by right.
  - split; [done|]. split; [done|]. intros ? [= <-]. lia.
Qed.

Lemma stream_ok_AddEntry now ID val s ID' s' :
  0 <= now <= MaxInt64 -> (time ID = -1 \/ 0 <= time ID <= MaxInt64) -> in_i64 (seqNum ID) ->
  stream_ok s -> AddEntry now ID val s = Some (ID', s') -> stream_ok s'.
Proof.
  intros Hnow Ht Hs [H1 H2] E. pose proof (AddEntry_cases now ID val s) as H. rewrite E in H.
  destruct H as (HID & -> & Htop). split; cbn.
  - apply Forall_app. split; [done|]. constructor; [|done]. rewrite HID. by apply completed_ok.
  - destruct (nil_or_snoc (timeStamps s)) as [HE|(l & top & HE)]; rewrite HE in *; [by repeat constructor|].
    rewrite last_snoc in Htop. apply StronglySorted_app_one; [done|]. refine (StronglySorted_last (fun i j => time i <= time j) _ _ _ H2 (Htop _ eq_refl)).
    intros a b c. lia.
Qed.

(** An entry whose completed ID is above the top is accepted, and becomes the
    last one of the log. *)
Lemma AddEntry_log now ID val s l ID' :
  is_log s l -> ID' = completed now ID (last l.*1) -> id_ok ID' ->
  (forall top, last l.*1 = Some top -> id_lt top ID') ->
  exists s', AddEntry now ID val s = Some (ID', s') /\ is_log s' (l ++ [(ID', val)]).
Proof.
  intros Hs HID Hok Htop. pose proof (AddEntry_cases now ID val s) as H. rewrite (h_ids _ _ Hs) in H.
  rewrite <- HID in H. destruct (AddEntry now ID val s) as [[i s']|].
  - destruct H as (-> & -> & _). exists (put_entry ID' val s). split; [done|]. apply is_log_put; [done..|].
    rewrite <- (Forall_fmap fst (fun i => id_lt i ID')). pose proof (h_sorted _ _ Hs) as Hsd.
    destruct (nil_or_snoc l.*1) as [HE|(l0 & top & HE)]; rewrite HE in Htop, Hsd |- *; [done|].
    rewrite last_snoc in Htop. apply (StronglySorted_last id_lt); [done|by apply Htop].
  - destruct H as (top & HE & Hlt). exfalso. rewrite HE in HID. rewrite <- HID in Hlt.
    apply Htop in HE. unfold id_lt in HE. cbv zeta in Hlt. lia.
Qed.

(* ===================================================================== *)
(** ** Trimming                                                          *)
(* ===================================================================== *)

Lemma drop_entries_ne ts m k : k ∉ map Format ts -> drop_entries ts m !! k = m !! k.
Proof.
  unfold drop_entries. revert m. induction ts as [|t ts IH]; intros m Hk; [done|].
  cbn in Hk |- *. apply not_elem_of_cons in Hk as [Hne Hk]. rewrite IH by done. by rewrite lookup_delete_ne.
Qed.

Lemma take_drop_disjoint {A} n (l : list A) x : NoDup l -> x ∈ drop n l -> x ∉ take n l.
Proof. intros H Hd Ht. rewrite <- (take_drop n l) in H. apply NoDup_app in H as (_ & H & _). by eapply H. Qed.

Lemma is_log_drop s l n : is_log s l ->
  is_log (mkStream (drop_entries (take n (timeStamps s)) (entry s)) (drop n (timeStamps s))) (drop n l).
Proof.
  intros Hs. pose proof (is_log_NoDup _ _ Hs) as Hnd. destruct Hs as [H1 H2 H3 H4].
  split; cbn; rewrite ?H1, ?fmap_drop; [done| |by apply Forall_drop|by apply StronglySorted_drop].
  rewrite Forall_forall in H2. rewrite Forall_forall in H3. apply Forall_forall. intros e He.
  assert (Hel : e ∈ l) by by eapply (subseteq_drop n l).
  rewrite drop_entries_ne; [by apply H2|].
  intros (i & E & Hi)%list_elem_of_fmap. apply Format_inj in E.
  - subst i. eapply take_drop_disjoint; [exact Hnd| |exact Hi]. rewrite <- fmap_drop. by apply list_elem_of_fmap_2.
  - apply H3. by apply list_elem_of_fmap_2.
  - apply H3. by eapply subseteq_take.
Qed.

(** DropFirstN of a log: the first [n] entries go. *)
Lemma DropFirstN_log s l n : is_log s l -> 0 <= n ->
  exists z s', DropFirstN n s = Ret (z, s') /\ is_log s' (drop (Z.to_nat n) l).
Proof.
  intros Hs Hn. unfold DropFirstN. cbv zeta. pose proof (h_ids _ _ Hs) as Hids.
  assert (Hz : zlen (timeStamps s) = zlen l) by (rewrite Hids; unfold zlen; by rewrite length_fmap).
  destruct (Z.eqb_spec n 0) as [->|H0]; [by eauto|].
  destruct (Z.leb_spec (zlen (timeStamps s)) n) as [H1|H1].
  - eexists _, _. split; [done|]. rewrite drop_ge; [apply is_log_NewStream|]. unfold zlen in *. lia.
  - zb. eexists _, _. split; [done|]. by apply is_log_drop.
Qed.

Lemma DropFirstN_ok s n : stream_ok s ->
  match DropFirstN n s with Ret (_, s') => stream_ok s' | Panic => True | Block => False end.
Proof.
  intros [H1 H2]. unfold DropFirstN. cbv zeta. repeat case_match; simplify_eq; try done.
  - split; constructor.
  - split; cbn; [by apply Forall_drop|by apply StronglySorted_drop].
Qed.

(* ===================================================================== *)
(** ** Range                                                             *)
(* ===================================================================== *)

#[export] Instance id_lt_dec i j : Decision (id_lt i j).
Proof. unfold id_lt. apply _. Defined.

(** The search of Range between an ID [start] with number 0, which is what a
    bare time is read as, and an ID [end_]: the IDs from [start] on that are
    strictly below [end_]. *)
Lemma range_loop_spec (start end_ : StreamID) (flag : bool) (ks : list StreamID) :
  StronglySorted id_lt ks -> Forall (fun k => 0 <= seqNum k) ks -> seqNum start = 0 -> time end_ <> -1 ->
  (flag = true -> Forall (fun k => ~ id_lt k start) ks) ->
  range_loop start end_ flag ks = filter (fun k => ~ id_lt k start /\ id_lt k end_) ks.
Proof.
  intros Hsd Hseq Hst Hend. revert flag. induction Hsd as [|k ks Hsd IH Hk]; intros flag Hf; [done|].
  apply Forall_cons in Hseq as [Hk0 Hseq]. cbn [range_loop]. rewrite filter_cons.
  destruct (orb _ _) eqn:Eb.
  - assert (Hge : ~ id_lt k end_) by (unfold id_lt; lia).
    rewrite decide_False by (intros [_ H]; done). symmetry. apply list_filter_none.
    intros j Hj [_ Hje]. rewrite Forall_forall in Hk. apply Hge. etrans; [by apply Hk|done].
  - assert (Hlt : id_lt k end_) by (unfold id_lt; lia). cbv zeta.
    destruct (decide (id_lt k start)) as [Hks|Hks].
    + rewrite decide_False by tauto.
      assert (flag = false) as ->. { destruct flag; [|done]. by apply Forall_cons in Hf as [Hf _]. }
      assert (E : (time start <=? time k) && ((seqNum start <=? seqNum k) || (seqNum start =? -1)) = false).
      { unfold id_lt in Hks. lia. }
      rewrite E. cbn. by apply IH.
    + rewrite decide_True by done.
      assert (E : flag || ((time start <=? time k) && ((seqNum start <=? seqNum k) || (seqNum start =? -1))) = true).
      { unfold id_lt in Hks. destruct flag; [done|]. cbn. lia. }
      rewrite E. f_equal. apply IH; [done|]. intros _. eapply Forall_impl; [exact Hk|].
      intros j Hj Hjs. apply Hks. by etrans.
Qed.

Lemma Range_between s l start end_ : is_log s l -> Forall (fun k => 0 <= seqNum k) l.*1 ->
  seqNum start = 0 -> time end_ <> -1 ->
  Range start end_ s = filter (fun e => ~ id_lt e.1 start /\ id_lt e.1 end_) l.
Proof.
  intros [H1 H2 _ H4] Hseq Hst Hend. unfold Range.
  destruct (Z.eqb_spec (time end_) (-1)); [done|]. rewrite andb_false_r.
  rewrite range_loop_spec by (rewrite ?H1; try done). rewrite H1. clear H1 H4 Hseq.
  induction H2 as [|[k v] l E _ IH]; [done|]. cbn [fmap list_fmap fst]. rewrite !filter_cons. cbn [fst].
  destruct (decide _); [|exact IH]. cbn [map]. rewrite IH. unfold message. cbn in E. by rewrite E.
Qed.
