(* ===== verification/BTree.v ===== *)
(** * BTree: the tree behind sorted sets (src/memdb/btree.go,
    src/memdb/sorted_set_struct.go)

    A node of the tree holds a pointer to a [SortedSetNode], the names that
    share a score. [dict] maps a name to a node, also to nodes that rotations
    and deletions have moved or detached, so nodes and the objects they point to
    have identities: [value_of] gives the [Value] pointer of a node, [objects]
    what it points to. The links between the nodes of the tree form a tree and
    are not shared, so they are the constructor arguments of [node]; a detached
    node keeps its [Value], and nothing else of it is ever read. [Debug] and
    [String], which print, are left out. *)

From S2P Require Import Prelude Floats.

Record SortedSetNode : Type := mkNode { Names : gset bytes; Score : float64 }.

(** [*Node[T]]; [id] is the identity of the node. *)
Inductive node : Type :=
| Nil
| Node (id : nat) (left right : node) (height : Z).

Record Btree : Type := mkBtree {
  root : node;
  values : option (list (bytes * float64));
  len : Z;
  dict : gmap bytes nat;
  value_of : gmap nat nat;
  objects : gmap nat SortedSetNode;
  fresh : nat
}.

(** [NewBtree], [Init]. *)
Definition NewBtree : Btree := mkBtree Nil None 0 ∅ ∅ ∅ 0.

Definition set_root (n : node) (b : Btree) : Btree :=
  mkBtree n (values b) (len b) (dict b) (value_of b) (objects b) (fresh b).
Definition set_values (v : option (list (bytes * float64))) (b : Btree) : Btree :=
  mkBtree (root b) v (len b) (dict b) (value_of b) (objects b) (fresh b).
Definition add_len (d : Z) (b : Btree) : Btree :=
  mkBtree (root b) (values b) (len b + d) (dict b) (value_of b) (objects b) (fresh b).
Definition set_dict (d : gmap bytes nat) (b : Btree) : Btree :=
  mkBtree (root b) (values b) (len b) d (value_of b) (objects b) (fresh b).

(* ===================================================================== *)
(** ** Pointers                                                          *)
(* ===================================================================== *)

(** [&SortedSetNode{...}]. *)
Definition new_object (o : SortedSetNode) : M Btree nat := fun b =>
  Ret (fresh b, mkBtree (root b) (values b) (len b) (dict b) (value_of b) (<[fresh b := o]> (objects b)) (S (fresh b))).

(** [&Node[T]{Value: v}]: the identity of the new node. *)
Definition new_node (v : nat) : M Btree nat := fun b =>
  Ret (fresh b, mkBtree (root b) (values b) (len b) (dict b) (<[fresh b := v]> (value_of b)) (objects b) (S (fresh b))).

Definition deref (v : nat) : M Btree SortedSetNode := b ← get; or_panic (objects b !! v).

Definition Value_of (id : nat) : M Btree nat := b ← get; or_panic (value_of b !! id).

(** [n.Value = v]. *)
Definition set_Value (id v : nat) : M Btree unit := modify (fun b =>
  mkBtree (root b) (values b) (len b) (dict b) (<[id := v]> (value_of b)) (objects b) (fresh b)).

Definition set_object (v : nat) (o : SortedSetNode) : M Btree unit := modify (fun b =>
  mkBtree (root b) (values b) (len b) (dict b) (value_of b) (<[v := o]> (objects b)) (fresh b)).

(** [for name := range names { tree.dict[name] = node }]. *)
Definition index_names (names : gset bytes) (id : nat) : M Btree unit :=
  modify (fun b => set_dict (gset_to_gmap id names ∪ dict b) b).

(** [Comp]: numbers that do not compare (NaN) count as equal. *)
Definition comp (x y : float64) : Z :=
  if flt y x then 1 else if flt x y then -1 else 0.

Definition Comp (v w : nat) : M Btree Z := x ← deref v; y ← deref w; mret (comp (Score x) (Score y)).

(* ===================================================================== *)
(** ** Shape                                                             *)
(* ===================================================================== *)

Definition height_of (n : node) : Z := match n with Nil => 0 | Node _ _ _ h => h end.

Definition balance (n : node) : Z := match n with Nil => 0 | Node _ l r _ => height_of l - height_of r end.

Definition maxHeight (l r : node) : Z := if height_of l <? height_of r then height_of r else height_of l.

(** A node whose height has just been updated. *)
Definition join (id : nat) (l r : node) : node := Node id l r (maxHeight l r + 1).

Definition rotateRight (n : node) : outcome node :=
  match n with
  | Node id (Node lid ll lr _) r _ => Ret (join lid ll (join id lr r))
  | _ => Panic
  end.

Definition rotateLeft (n : node) : outcome node :=
  match n with
  | Node id l (Node rid rl rr _) _ => Ret (join rid (join id l rl) rr)
  | _ => Panic
  end.

(* ===================================================================== *)
(** ** Insertion                                                         *)
(* ===================================================================== *)

(** The end of [insert], after the recursive call: [n] is balanced around its
    own comparison with the target. *)
Definition insert_fix (n : node) (target : nat) : M Btree node :=
  match n with
  | Nil => panic
  | Node id l r h =>
      let c := balance n in
      if 1 <? c then
        v ← Value_of id;
        c ← Comp v target;
        if 0 <? c then lift (rotateRight n)
        else if c <? 0 then l' ← lift (rotateLeft l); lift (rotateRight (Node id l' r h))
        else mret n
      else if c <? -1 then
        v ← Value_of id;
        c ← Comp v target;
        if c <? 0 then lift (rotateLeft n)
        else if 0 <? c then r' ← lift (rotateRight r); lift (rotateLeft (Node id l r' h))
        else mret n
      else mret n
  end.

(** [insert]: the new subtree and whether a node was added. *)
Fixpoint insert (n : node) (target : nat) : M Btree (node * bool) :=
  match n with
  | Nil =>
      id ← new_node target;
      t ← deref target;
      index_names (Names t) id ;;
      mret (Node id Nil Nil 1, true)
  | Node id l r h =>
      v ← Value_of id;
      c ← Comp v target;
      if c <? 0 then
        ra ← insert r target;
        n' ← insert_fix (join id l (fst ra)) target;
        mret (n', snd ra)
      else if 0 <? c then
        la ← insert l target;
        n' ← insert_fix (join id (fst la) r) target;
        mret (n', snd la)
      else
        t ← deref target;
        o ← deref v;
        set_object v (mkNode (Names t ∪ Names o) (Score o)) ;;
        index_names (Names t) id ;;
        mret (n, false)
  end.

Definition Insert (r : nat) : M Btree bool :=
  t ← gets root;
  na ← insert t r;
  modify (set_root (fst na)) ;;
  (if snd na : bool then modify (add_len 1) else mret tt) ;;
  modify (set_values None) ;;
  mret (snd na).

Definition InsertAll (vals : list nat) : M Btree unit := forM vals (fun v => Insert v ;; mret tt).

(* ===================================================================== *)
(** ** Lookup                                                            *)
(* ===================================================================== *)

Fixpoint get_node (n : node) (target : nat) : M Btree (option nat) :=
  match n with
  | Nil => mret None
  | Node id l r _ =>
      v ← Value_of id;
      c ← Comp target v;
      if c <? 0 then get_node l target
      else if 0 <? c then get_node r target
      else mret (Some id)
  end.

(** [Get]: the [Value] of the node with the target's score. *)
Definition Get (target : nat) : M Btree (option nat) :=
  t ← gets root;
  id ← get_node t target;
  match id with
  | None => mret None
  | Some id => v ← Value_of id; mret (Some v)
  end.

Definition Contains (target : nat) : M Btree bool :=
  v ← Get target; mret (match v with Some _ => true | None => false end).

Fixpoint ContainsAny (targets : list nat) : M Btree bool :=
  match targets with
  | [] => mret false
  | v :: vs => c ← Contains v; if c : bool then mret true else ContainsAny vs
  end.

Fixpoint ContainsAll (targets : list nat) : M Btree bool :=
  match targets with
  | [] => mret true
  | v :: vs => c ← Contains v; if c : bool then ContainsAll vs else mret false
  end.

Definition GetByName (name : bytes) : M Btree (option nat) := gets (fun b => dict b !! name).

Definition Len : M Btree Z := gets len.

Definition Empty : M Btree bool := gets (fun b => match root b with Nil => true | _ => false end).

(** The leftmost and the rightmost node. *)
Fixpoint min (n : node) : option nat :=
  match n with
  | Nil => None
  | Node id Nil _ _ => Some id
  | Node _ l _ _ => min l
  end.

Fixpoint max (n : node) : option nat :=
  match n with
  | Nil => None
  | Node id _ Nil _ => Some id
  | Node _ _ r _ => max r
  end.

(** [Head] and [Tail]: the value of the first and of the last node. *)
Definition Head : M Btree (option nat) :=
  t ← gets root;
  match min t with None => mret None | Some id => v ← Value_of id; mret (Some v) end.

Definition Tail : M Btree (option nat) :=
  t ← gets root;
  match max t with None => mret None | Some id => v ← Value_of id; mret (Some v) end.

(* ===================================================================== *)
(** ** Deletion                                                          *)
(* ===================================================================== *)

Definition rebalance (n : node) : outcome node :=
  match n with
  | Nil => Ret Nil
  | Node id l r _ =>
      let n := join id l r in
      let bal := balance n in
      if 1 <? bal then
        if 0 <=? balance l then rotateRight n
        else
          match rotateLeft l with
          | Ret l' => rotateRight (Node id l' r (height_of n))
          | Panic => Panic
          | Block => Block
          end
      else if bal <? -1 then
        if balance r <=? 0 then rotateLeft n
        else
          match rotateRight r with
          | Ret r' => rotateLeft (Node id l r' (height_of n))
          | Panic => Panic
          | Block => Block
          end
      else Ret n
  end.

(** [deleteNode]: the new subtree and whether a node was deleted. A node goes
    if it has no names left or as many names as the target. *)
Fixpoint deleteNode (n : node) (target : nat) : M Btree (node * bool) :=
  match n with
  | Nil => mret (Nil, false)
  | Node id l r h =>
      v ← Value_of id;
      c ← Comp target v;
      if c <? 0 then
        ld ← deleteNode l target;
        n' ← lift (rebalance (Node id (fst ld) r h));
        mret (n', snd ld)
      else if 0 <? c then
        rd ← deleteNode r target;
        n' ← lift (rebalance (Node id l (fst rd) h));
        mret (n', snd rd)
      else
        o ← deref v;
        t ← deref target;
        if bool_decide (size (Names o) = 0%nat) || bool_decide (size (Names t) = size (Names o)) then
          match l, r with
          | Nil, _ => mret (r, true)
          | _, Nil => mret (l, true)
          | _, _ =>
              m ← or_panic (min r);
              w ← Value_of m;
              set_Value id w ;;
              rd ← deleteNode r w;
              mret (Node id l (fst rd) h, true)
          end
        else
          set_object v (mkNode (Names o ∖ Names t) (Score o)) ;;
          mret (n, false)
  end.

(** [Delete]: whether the name was there. *)
Definition Delete (name : bytes) : M Btree bool :=
  node ← GetByName name;
  match node with
  | None => mret false
  | Some id =>
      t ← gets root;
      v ← Value_of id;
      nd ← deleteNode t v;
      modify (set_root (fst nd)) ;;
      modify (fun b => set_dict (delete name (dict b)) b) ;;
      (if snd nd : bool then modify (add_len (-1)) else mret tt) ;;
      modify (set_values None) ;;
      mret true
  end.

Definition DeleteAll (names : list bytes) : M Btree unit := forM names (fun n => Delete n ;; mret tt).

(* ===================================================================== *)
(** ** Traversal                                                         *)
(* ===================================================================== *)

(** [iterate]: an iterator gets a node and its index and says whether to go on;
    its answer only keeps the traversal out of the right subtree. The result is
    the next index. *)
Fixpoint iterate {A} (it : nat -> Z -> M A bool) (n : node) (i : Z) (cont : bool) : M A Z :=
  match n with
  | Nil => mret i
  | Node id l r _ =>
      if cont then
        i ← iterate it l i cont;
        cont ← it id i;
        iterate it r (i + 1) cont
      else mret i
  end.

(** [rIterate] visits the node between its subtrees, but these in ascending
    order. *)
Definition rIterate {A} (it : nat -> Z -> M A bool) (n : node) (i : Z) (cont : bool) : M A Z :=
  match n with
  | Nil => mret i
  | Node id l r _ =>
      if cont then
        i ← iterate it r i cont;
        cont ← it id i;
        iterate it l (i + 1) cont
      else mret i
  end.

Definition Ascend {A} (it : nat -> Z -> M A bool) (t : node) : M A unit := iterate it t 0 true ;; mret tt.

Definition Descend {A} (it : nat -> Z -> M A bool) (t : node) : M A unit := rIterate it t 0 true ;; mret tt.

(** What the node [id] holds. *)
Definition entry (b : Btree) (id : nat) : option SortedSetNode := value_of b !! id ≫= (objects b !!.).

(** [Rank]: the height of the left subtree stands for its size. *)
Fixpoint rank (b : Btree) (n : node) (score : float64) : outcome Z :=
  match n with
  | Nil => Ret 0
  | Node id l r _ =>
      match entry b id with
      | None => Panic
      | Some o =>
          if flt (Score o) score then
            match rank b r score with
            | Ret k => Ret (1 + height_of l + k)
            | Panic => Panic
            | Block => Block
            end
          else rank b l score
      end
  end.

Definition Rank (score : float64) : M Btree Z := b ← get; lift (rank b (root b) score).

Section runtime.
Context {rt : GoRuntime}.

(** [Values] fills the cache; the names of a node come in the order of the map
    iteration, [k] being the runtime's counter. *)
Definition Values (k : nat) : M Btree (list (bytes * float64)) :=
  b ← get;
  match values b with
  | Some vs => mret vs
  | None =>
      match Ascend (A := nat * list (bytes * float64))
              (fun id _ '(k, acc) =>
                 match entry b id with
                 | None => Panic
                 | Some o => Ret (true, (S k, acc ++ map (fun name => (name, Score o)) (range_order k (Names o))))
                 end) (root b) (k, []) with
      | Ret (_, (_, vs)) => modify (set_values (Some vs)) ;; mret vs
      | Panic => panic
      | Block => block
      end
  end.

(** [Pop] and [Pull] delete one name of the last or first node, the first the
    iteration gives, and return its value. *)
Definition delete_one (k : nat) (v : nat) : M Btree unit :=
  o ← deref v;
  match range_order k (Names o) with
  | [] => mret tt
  | name :: _ => Delete name ;; mret tt
  end.

Definition Pop (k : nat) : M Btree (option nat) :=
  v ← Tail;
  match v with
  | None => mret None
  | Some v => delete_one k v ;; mret (Some v)
  end.

Definition Pull (k : nat) : M Btree (option nat) :=
  v ← Head;
  match v with
  | None => mret None
  | Some v => delete_one k v ;; mret (Some v)
  end.
End runtime.

(* ===================================================================== *)
(** ** The nodes in order                                                *)
(* ===================================================================== *)

Fixpoint ids (n : node) : list nat :=
  match n with
  | Nil => []
  | Node id l r _ => ids l ++ id :: ids r
  end.

(** Stored heights are positive, which is all the rotations of [deleteNode]
    rely on: neither insertion nor deletion keeps the tree balanced. *)
Fixpoint hok (n : node) : Prop :=
  match n with
  | Nil => True
  | Node _ l r h => 1 <= h /\ hok l /\ hok r
  end.

(** The order of the nodes by score. *)
Definition id_lt (b : Btree) (i j : nat) : Prop :=
  match entry b i, entry b j with
  | Some x, Some y => flt (Score x) (Score y) = true
  | _, _ => False
  end.

Definition below (b : Btree) (s : float64) (i : nat) : Prop :=
  match entry b i with Some x => flt (Score x) s = true | None => False end.
Definition above (b : Btree) (s : float64) (i : nat) : Prop :=
  match entry b i with Some x => flt s (Score x) = true | None => False end.

#[export] Instance id_lt_trans b : Transitive (id_lt b).
Proof.
  intros i j k. unfold id_lt. destruct (entry b i), (entry b j), (entry b k); try done. apply flt_trans.
Qed.

Lemma id_lt_irrefl b i : ~ id_lt b i i.
Proof. unfold id_lt. destruct (entry b i); [|by intros []]. by rewrite flt_irrefl. Qed.

Lemma hok_pos n : hok n -> 0 <= height_of n.
Proof. destruct n; cbn; lia. Qed.

Lemma hok_join id l r : hok l -> hok r -> hok (join id l r).
Proof.
  intros Hl Hr. cbn. split; [|done]. unfold maxHeight. pose proof (hok_pos l Hl). pose proof (hok_pos r Hr).
  destruct (_ <? _); lia.
Qed.

Lemma rotateRight_ids n n' : rotateRight n = Ret n' -> ids n' = ids n.
Proof. destruct n as [|id [|] r h]; try done. intros [= <-]. cbn. by rewrite <- (assoc_L (++)). Qed.

Lemma rotateLeft_ids n n' : rotateLeft n = Ret n' -> ids n' = ids n.
Proof. destruct n as [|id l [|] h]; try done. intros [= <-]. cbn. by rewrite <- (assoc_L (++)). Qed.

Lemma rotateRight_hok n n' : hok n -> rotateRight n = Ret n' -> hok n'.
Proof.
  destruct n as [|id [|lid ll lr lh] r h]; try done. intros (_ & (_ & H1 & H2) & H3) [= <-]. by repeat apply hok_join.
Qed.

Lemma rotateLeft_hok n n' : hok n -> rotateLeft n = Ret n' -> hok n'.
Proof.
  destruct n as [|id l [|rid rl rr rh] h]; try done. intros (_ & H1 & (_ & H2 & H3)) [= <-]. by repeat apply hok_join.
Qed.

(** What a rotation can do to a subtree: a new shape of the same nodes. *)
Definition reshaped (n n' : node) : Prop := ids n' = ids n /\ hok n'.

Lemma reshaped_refl n : hok n -> reshaped n n.
Proof. done. Qed.

Lemma rotateRight_reshaped n n' : hok n -> rotateRight n = Ret n' -> reshaped n n'.
Proof. intros Hn E. split; [by apply rotateRight_ids|by eapply rotateRight_hok]. Qed.

Lemma rotateLeft_reshaped n n' : hok n -> rotateLeft n = Ret n' -> reshaped n n'.
Proof. intros Hn E. split; [by apply rotateLeft_ids|by eapply rotateLeft_hok]. Qed.

Lemma reshaped_node id l l' r r' h : reshaped l l' -> reshaped r r' -> 1 <= h ->
  reshaped (Node id l r h) (Node id l' r' h).
Proof. intros [E1 H1] [E2 H2] Hh. split; [cbn; by rewrite E1, E2|done]. Qed.

Lemma reshaped_trans n1 n2 n3 : reshaped n1 n2 -> reshaped n2 n3 -> reshaped n1 n3.
Proof. intros [E1 _] [E2 H2]. split; [congruence|done]. Qed.

Lemma rotateRight_run n : hok n -> 0 < balance n -> exists n', rotateRight n = Ret n'.
Proof.
  destruct n as [|id [|] r h]; cbn; [lia| |by eexists]. intros (_ & _ & Hr). pose proof (hok_pos r Hr). lia.
Qed.

Lemma rotateLeft_run n : hok n -> balance n < 0 -> exists n', rotateLeft n = Ret n'.
Proof.
  destruct n as [|id l [|] h]; cbn; [lia| |by eexists]. intros (_ & Hl & _). pose proof (hok_pos l Hl). lia.
Qed.

(** [rebalance] always succeeds: it looks at the balance of the child it
    rotates. *)
Lemma rebalance_run n : hok n -> exists n', rebalance n = Ret n' /\ reshaped n n'.
Proof.
  destruct n as [|id l r h]; intros Hn; [by exists Nil|]. destruct Hn as (Hh & Hl & Hr). cbn [rebalance]. cbv zeta.
  pose proof (hok_join id l r Hl Hr) as Hj. assert (Hj' := Hj). destruct Hj' as (Hjh & _).
  destruct (Z.ltb_spec 1 (balance (join id l r))) as [Hb|Hb].
  - destruct (Z.leb_spec 0 (balance l)).
    + destruct (rotateRight_run (join id l r)) as [n' E]; [done|lia|]. rewrite E. exists n'. split; [done|].
      by apply (rotateRight_reshaped (join id l r)).
    + destruct (rotateLeft_run l) as [l' E]; [done|lia|]. rewrite E.
      pose proof (rotateLeft_reshaped _ _ Hl E) as Hl'.
      assert (Hs : reshaped (join id l r) (Node id l' r (height_of (join id l r)))) by (by apply reshaped_node).
      destruct l' as [|]; [by destruct l as [|? ? []]|]. eexists. split; [reflexivity|].
      eapply reshaped_trans; [exact Hs|]. by apply rotateRight_reshaped; [apply Hs|].
  - destruct (Z.ltb_spec (balance (join id l r)) (-1)) as [Hb'|Hb']; [|by exists (join id l r)].
    destruct (Z.leb_spec (balance r) 0).
    + destruct (rotateLeft_run (join id l r)) as [n' E]; [done|lia|]. rewrite E. exists n'. split; [done|].
      by apply (rotateLeft_reshaped (join id l r)).
    + destruct (rotateRight_run r) as [r' E]; [done|lia|]. rewrite E.
      pose proof (rotateRight_reshaped _ _ Hr E) as Hr'.
      assert (Hs : reshaped (join id l r) (Node id l r' (height_of (join id l r)))) by (by apply reshaped_node).
      destruct r' as [|]; [by destruct r as [|? []]|]. eexists. split; [reflexivity|].
      eapply reshaped_trans; [exact Hs|]. by apply rotateLeft_reshaped; [apply Hs|].
Qed.

(* ===================================================================== *)
(** ** Insertion                                                         *)
(* ===================================================================== *)

Lemma wp_Comp (pn : bool) v w x y b (Q : Z -> Btree -> Prop) :
  objects b !! v = Some x -> objects b !! w = Some y -> Q (comp (Score x) (Score y)) b -> wp pn (Comp v w) Q b.
Proof.
  intros E1 E2 HQ. unfold Comp. apply wp_bind, wp_bind, wp_get, wp_or_panic; [|congruence]. rewrite E1. intros ? [= <-].
  apply wp_bind, wp_bind, wp_get, wp_or_panic; [|congruence]. rewrite E2. intros ? [= <-]. by apply wp_ret.
Qed.

Lemma wp_deref (pn : bool) v x b (Q : SortedSetNode -> Btree -> Prop) :
  objects b !! v = Some x -> Q x b -> wp pn (deref v) Q b.
Proof. intros E HQ. apply wp_bind, wp_get, wp_or_panic; [|congruence]. rewrite E. by intros ? [= <-]. Qed.

Lemma wp_Value_of (pn : bool) id v b (Q : nat -> Btree -> Prop) :
  value_of b !! id = Some v -> Q v b -> wp pn (Value_of id) Q b.
Proof. intros E HQ. apply wp_bind, wp_get, wp_or_panic; [|congruence]. rewrite E. by intros ? [= <-]. Qed.

Lemma rotate_not_Block n : rotateRight n <> Block /\ rotateLeft n <> Block.
Proof. destruct n as [|? [] []]; split; discriminate. Qed.

(** The rotations after an insertion keep the nodes in order; but the double
    rotations may meet a missing child. *)
Lemma wp_insert_fix n target b (Q : node -> Btree -> Prop) : hok n ->
  (forall n', reshaped n n' -> Q n' b) -> wp true (insert_fix n target) Q b.
Proof.
  intros Hn HQ. destruct n as [|id l r h]; [done|]. unfold insert_fix.
  assert (Hval : forall (R : nat -> Btree -> Prop), (forall v, R v b) -> wp true (Value_of id) R b)
    by (intros R HR; apply wp_bind, wp_get, wp_or_panic; auto).
  assert (Hcomp : forall v (R : Z -> Btree -> Prop), (forall c, R c b) -> wp true (Comp v target) R b).
  { intros v R HR. unfold Comp. apply wp_bind, wp_bind, wp_get, wp_or_panic; [|done].
    intros x _. apply wp_bind, wp_bind, wp_get, wp_or_panic; [|done]. intros y _. by apply wp_ret. }
  assert (HR : forall m, reshaped (Node id l r h) m -> wp true (lift (rotateRight m)) Q b).
  { intros m Hm. apply wp_lift; [|done|apply rotate_not_Block]. intros n' E. apply HQ.
    eapply reshaped_trans; [exact Hm|]. apply rotateRight_reshaped; [apply Hm|done]. }
  assert (HL : forall m, reshaped (Node id l r h) m -> wp true (lift (rotateLeft m)) Q b).
  { intros m Hm. apply wp_lift; [|done|apply rotate_not_Block]. intros n' E. apply HQ.
    eapply reshaped_trans; [exact Hm|]. apply rotateLeft_reshaped; [apply Hm|done]. }
  pose proof (reshaped_refl _ Hn) as H0. destruct Hn as (Hh & Hl & Hr). cbv zeta.
  destruct (1 <? _).
  - apply wp_bind, Hval. intros v. apply wp_bind, Hcomp. intros c. destruct (0 <? c); [by apply HR|].
    destruct (c <? 0); [|by apply wp_ret, HQ].
    apply wp_bind, wp_lift; [|done|apply rotate_not_Block]. intros l' E. apply HR.
    by apply reshaped_node; [apply rotateLeft_reshaped|..].
  - destruct (_ <? -1); [|by apply wp_ret, HQ].
    apply wp_bind, Hval. intros v. apply wp_bind, Hcomp. intros c. destruct (c <? 0); [by apply HL|].
    destruct (0 <? c); [|by apply wp_ret, HQ].
    apply wp_bind, wp_lift; [|done|apply rotate_not_Block]. intros r' E. apply HL.
    by apply reshaped_node; [|apply rotateRight_reshaped|].
Qed.

(** The two outcomes of an insertion: a new node, or more names for a node. *)
Definition added (b : Btree) (target : nat) (t : SortedSetNode) : Btree :=
  mkBtree (root b) (values b) (len b) (gset_to_gmap (fresh b) (Names t) ∪ dict b)
    (<[fresh b := target]> (value_of b)) (objects b) (S (fresh b)).

Definition merged (b : Btree) (id v : nat) (o t : SortedSetNode) : Btree :=
  mkBtree (root b) (values b) (len b) (gset_to_gmap id (Names t) ∪ dict b)
    (value_of b) (<[v := mkNode (Names t ∪ Names o) (Score o)]> (objects b)) (fresh b).

Definition known (b : Btree) (n : node) : Prop := Forall (fun i => is_Some (entry b i)) (ids n).

Lemma entry_inv b i x : entry b i = Some x -> exists v, value_of b !! i = Some v /\ objects b !! v = Some x.
Proof. unfold entry. intros (v & ? & ?)%bind_Some. eauto. Qed.

Lemma comp_cases x y :
  (comp x y = 1 /\ flt y x = true) \/ (comp x y = -1 /\ flt x y = true) \/
  (comp x y = 0 /\ flt x y = false /\ flt y x = false).
Proof. unfold comp. destruct (flt y x) eqn:E1, (flt x y) eqn:E2; auto. Qed.

Lemma StronglySorted_mid {A} (R : A -> A -> Prop) l1 x l2 :
  StronglySorted R (l1 ++ x :: l2) <->
  StronglySorted R l1 /\ StronglySorted R l2 /\ Forall (fun y => R y x) l1 /\ Forall (R x) l2 /\
  (forall y z, y ∈ l1 -> z ∈ l2 -> R y z).
Proof.
  induction l1 as [|a l1 IH]; cbn.
  - split.
    + intros [H1 H2]%StronglySorted_inv. split_and!; auto using SSorted_nil, Forall_nil_2. by intros ? ? ?%elem_of_nil.
    + intros (_ & H1 & _ & H2 & _). by constructor.
  - split.
    + intros [H1 H2]%StronglySorted_inv. apply IH in H1 as (S1 & S2 & F1 & F2 & H). rewrite Forall_app, Forall_cons in H2.
      destruct H2 as (H2 & Hx & H3). split_and!; auto using SSorted_cons, Forall_cons_2.
      intros y z [->|Hy]%elem_of_cons Hz; [|by apply H]. rewrite Forall_forall in H3. by apply H3.
    + intros ([S1 S1']%StronglySorted_inv & S2 & [F1 F1']%Forall_cons & F2 & H). constructor.
      * apply IH. split_and!; auto. intros y z Hy. apply H. by right.
      * rewrite Forall_app, Forall_cons. split_and!; auto. rewrite Forall_forall. intros z. apply H. by left.
Qed.

Lemma known_node b id l r h : known b (Node id l r h) ->
  known b l /\ known b r /\ exists v o, value_of b !! id = Some v /\ objects b !! v = Some o /\ entry b id = Some o.
Proof.
  unfold known. cbn. rewrite Forall_app, Forall_cons. intros (Hl & [o Ho] & Hr). split; [done|]. split; [done|].
  destruct (entry_inv _ _ _ Ho) as (v & H1 & H2). by exists v, o.
Qed.

Lemma below_trans b s i j : entry b j <> None -> id_lt b i j -> below b s j -> below b s i.
Proof. unfold id_lt, below. destruct (entry b i), (entry b j); try done. intros _. apply flt_trans. Qed.

Lemma above_trans b s i j : entry b i <> None -> id_lt b i j -> above b s i -> above b s j.
Proof. unfold id_lt, above. destruct (entry b i), (entry b j); try done. intros _ H1 H2. by eapply flt_trans. Qed.

Lemma wp_new_node (pn : bool) v b (Q : nat -> Btree -> Prop) :
  Q (fresh b) (mkBtree (root b) (values b) (len b) (dict b) (<[fresh b := v]> (value_of b)) (objects b) (S (fresh b))) ->
  wp pn (new_node v) Q b.
Proof. done. Qed.

Lemma wp_insert n target t b (Q : node * bool -> Btree -> Prop) :
  hok n -> known b n -> StronglySorted (id_lt b) (ids n) -> objects b !! target = Some t ->
  (forall n' l1 l2, ids n = l1 ++ l2 -> ids n' = l1 ++ fresh b :: l2 -> hok n' ->
     Forall (below b (Score t)) l1 -> Forall (above b (Score t)) l2 -> Q (n', true) (added b target t)) ->
  (forall n' id v o, reshaped n n' -> id ∈ ids n -> value_of b !! id = Some v -> objects b !! v = Some o ->
     comp (Score o) (Score t) = 0 -> Q (n', false) (merged b id v o t)) ->
  wp true (insert n target) Q b.
Proof.
  intros Hn Hk Hs Ht. revert Q. induction n as [|id l IHl r IHr h]; intros Q HA HB; cbn [insert].
  { apply wp_bind, wp_new_node. apply wp_bind. eapply wp_deref; [exact Ht|]. apply wp_bind, wp_modify, wp_ret.
    by apply (HA _ [] []). }
  destruct Hn as (Hh & Hl & Hr). destruct (known_node _ _ _ _ _ Hk) as (Kl & Kr & v & o & Ev & Eo & Ee).
  cbn [ids] in *. apply StronglySorted_mid in Hs as (Sl & Sr & Fl & Fr & _).
  apply wp_bind. eapply wp_Value_of; [done|]. apply wp_bind. eapply wp_Comp; [done|done|].
  destruct (comp_cases (Score o) (Score t)) as [[-> Hlt]|[[-> Hlt]|(Ec & _)]].
  - cbn [Z.ltb Z.compare]. apply wp_bind, IHl; [done..| |].
    + intros l' l1 l2 E E' Hl' F1 F2. cbn [fst snd]. apply wp_bind, wp_insert_fix; [by apply hok_join|].
      intros n' [Hi Hn']. apply wp_ret. cbn [join ids] in Hi. rewrite E' in Hi.
      apply (HA n' l1 (l2 ++ id :: ids r)); [by rewrite E, <- (assoc_L (++))|by rewrite Hi, <- (assoc_L (++))|done|done|].
      assert (Ha : above b (Score t) id) by (unfold above; by rewrite Ee).
      apply Forall_app. split; [done|]. constructor; [done|]. eapply Forall_impl; [exact Fr|].
      intros j Hj. eapply above_trans; [|exact Hj|exact Ha]. by rewrite Ee.
    + intros l' i w x [E Hl'] Hi Ew Ex Hc. cbn [fst snd]. apply wp_bind, wp_insert_fix; [by apply hok_join|].
      intros n' [Hi' Hn']. apply wp_ret. apply (HB n' i w x); [|apply elem_of_app; by left|done..].
      split; [|done]. rewrite Hi'. cbn. by rewrite E.
  - cbn [Z.ltb Z.compare]. apply wp_bind, IHr; [done..| |].
    + intros r' l1 l2 E E' Hr' F1 F2. cbn [fst snd]. apply wp_bind, wp_insert_fix; [by apply hok_join|].
      intros n' [Hi Hn']. apply wp_ret. cbn [join ids] in Hi. rewrite E' in Hi.
      apply (HA n' (ids l ++ id :: l1) l2); [by rewrite E, <- (assoc_L (++))|by rewrite Hi, <- (assoc_L (++))|done| |done].
      assert (Ha : below b (Score t) id) by (unfold below; by rewrite Ee).
      apply Forall_app. split; [|by constructor]. eapply Forall_impl; [exact Fl|].
      intros j Hj. eapply below_trans; [|exact Hj|exact Ha]. by rewrite Ee.
    + intros r' i w x [E Hr'] Hi Ew Ex Hc. cbn [fst snd]. apply wp_bind, wp_insert_fix; [by apply hok_join|].
      intros n' [Hi' Hn']. apply wp_ret. apply (HB n' i w x); [|apply elem_of_app; right; by right|done..].
      split; [|done]. rewrite Hi'. cbn. by rewrite E.
  - rewrite Ec. cbn [Z.ltb Z.compare]. apply wp_bind. eapply wp_deref; [done|]. apply wp_bind. eapply wp_deref; [done|].
    apply wp_bind, wp_modify, wp_bind, wp_modify, wp_ret.
    apply (HB (Node id l r h) id v o); [by apply reshaped_refl|apply elem_of_app; right; by left|done..].
Qed.

(* ===================================================================== *)
(** ** Deletion                                                          *)
(* ===================================================================== *)

(** The node [id] has taken over the value [w] of its successor. *)
Definition moved (b : Btree) (id w : nat) : Btree :=
  mkBtree (root b) (values b) (len b) (dict b) (<[id := w]> (value_of b)) (objects b) (fresh b).

(** The object [v] has lost the names of [t]. *)
Definition trimmed (b : Btree) (v : nat) (o t : SortedSetNode) : Btree :=
  mkBtree (root b) (values b) (len b) (dict b) (value_of b)
    (<[v := mkNode (Names o ∖ Names t) (Score o)]> (objects b)) (fresh b).

(** Whether the node goes altogether. *)
Definition goes (o t : SortedSetNode) : bool :=
  bool_decide (size (Names o) = 0%nat) || bool_decide (size (Names t) = size (Names o)).

Lemma min_ids n : n <> Nil -> exists m l, min n = Some m /\ ids n = m :: l.
Proof.
  induction n as [|id l IHl r _ h]; [done|]. intros _. destruct l as [|i l1 l2 h']; [by exists id, (ids r)|].
  destruct IHl as (m & k & E1 & E2); [done|]. exists m, (k ++ id :: ids r).
  split; [exact E1|]. cbn [ids] in *. by rewrite E2.
Qed.

Lemma entry_moved_ne b id w i : i <> id -> entry (moved b id w) i = entry b i.
Proof. intros H. unfold entry. cbn. by rewrite lookup_insert_ne. Qed.

Lemma id_lt_moved b id w i j : i <> id -> j <> id -> id_lt (moved b id w) i j <-> id_lt b i j.
Proof. intros Hi Hj. unfold id_lt. by rewrite !entry_moved_ne. Qed.

Lemma StronglySorted_impl_in {A} (R R' : A -> A -> Prop) l :
  (forall x y, x ∈ l -> y ∈ l -> R x y -> R' x y) -> StronglySorted R l -> StronglySorted R' l.
Proof.
  induction l as [|a l IH]; intros H; [constructor|]. intros [H1 H2]%StronglySorted_inv. constructor.
  - apply IH; [|done]. intros x y Hx Hy. apply H; by right.
  - rewrite Forall_forall in *. intros y Hy. apply H; [by left|by right|auto].
Qed.

(** [deleteNode] never fails. It finds no node with the target's score; or it
    takes a node out of the order, either the node itself or its successor,
    after moving the successor's value into the node; or it takes names away. *)
Definition delete_spec (pn : bool) (n : node) : Prop := forall target t b (Q : node * bool -> Btree -> Prop),
  known b n -> StronglySorted (id_lt b) (ids n) -> objects b !! target = Some t ->
  (forall n', reshaped n n' -> (forall i x, i ∈ ids n -> entry b i = Some x -> comp (Score t) (Score x) <> 0) ->
     Q (n', false) b) ->
  (forall n' l1 id l2 o, ids n = l1 ++ id :: l2 -> ids n' = l1 ++ l2 -> hok n' -> entry b id = Some o ->
     comp (Score t) (Score o) = 0 -> goes o t = true -> Q (n', true) b) ->
  (forall n' l1 id m l2 o w, l1 <> [] -> ids n = l1 ++ id :: m :: l2 -> ids n' = l1 ++ id :: l2 -> hok n' ->
     entry b id = Some o -> comp (Score t) (Score o) = 0 -> goes o t = true -> value_of b !! m = Some w ->
     Q (n', true) (moved b id w)) ->
  (forall id v o, id ∈ ids n -> value_of b !! id = Some v -> objects b !! v = Some o ->
     comp (Score t) (Score o) = 0 -> goes o t = false -> forall n', reshaped n n' -> Q (n', false) (trimmed b v o t)) ->
  wp pn (deleteNode n target) Q b.

(** Deleting the value of the first node takes that node out. *)
Lemma delete_first (pn : bool) r m k w b (Q : node * bool -> Btree -> Prop) :
  delete_spec pn r -> known b r -> StronglySorted (id_lt b) (ids r) -> ids r = m :: k -> value_of b !! m = Some w ->
  (forall r' d, ids r' = k -> hok r' -> Q (r', d) b) -> wp pn (deleteNode r w) Q b.
Proof.
  intros Hsp Hk Hs Ek Ew HQ. assert (Hk' := Hk). unfold known in Hk'. rewrite Ek in Hk'.
  apply Forall_cons in Hk' as [[x Hx] _].
  assert (Ex : objects b !! w = Some x) by (unfold entry in Hx; by rewrite Ew in Hx).
  assert (Hlt : forall j, j ∈ k -> id_lt b m j).
  { rewrite Ek in Hs. apply StronglySorted_inv in Hs as [_ Hs]. by rewrite Forall_forall in Hs. }
  assert (Hfirst : forall l1 i l2 y, ids r = l1 ++ i :: l2 -> entry b i = Some y -> comp (Score x) (Score y) = 0 ->
    l1 = [] /\ i = m /\ l2 = k).
  { intros l1 i l2 y E Hy Hc. rewrite Ek in E. destruct l1 as [|j l1]; [by injection E as -> ->|]. exfalso.
    injection E as <- ->. specialize (Hlt i). unfold id_lt in Hlt. rewrite Hx, Hy in Hlt.
    rewrite elem_of_app, elem_of_cons in Hlt. unfold comp in Hc.
    rewrite Hlt, (flt_asym (Score x) (Score y)) in Hc by auto. done. }
  apply (Hsp w x); [done..| | | |].
  - intros r' _ Hno. exfalso. apply (Hno m x); [rewrite Ek; by left|done|]. unfold comp. by rewrite flt_irrefl.
  - intros r' l1 i l2 y E E' Hr' Hy Hc _. destruct (Hfirst _ _ _ _ E Hy Hc) as (-> & -> & ->). by apply HQ.
  - intros r' l1 i m' l2 y w' Hne E E' Hr' Hy Hc _ _. by destruct (Hfirst _ _ _ _ E Hy Hc) as (-> & _).
  - intros i v' y Hi Ev' Ey Hc Hg. exfalso. assert (Hy : entry b i = Some y) by (unfold entry; by rewrite Ev').
    apply list_elem_of_split in Hi as (l1 & l2 & E). destruct (Hfirst _ _ _ _ E Hy Hc) as (_ & -> & _).
    assert (x = y) as <- by congruence. apply orb_false_elim in Hg as [_ Hg]. by apply bool_decide_eq_false in Hg.
Qed.

(** At the node itself: it goes, its successor's value moves up, or it loses
    names. *)
Lemma delete_here (pn : bool) id l r h v o target t b (Q : node * bool -> Btree -> Prop) :
  delete_spec pn r -> hok (Node id l r h) -> known b r -> StronglySorted (id_lt b) (ids (Node id l r h)) ->
  value_of b !! id = Some v -> objects b !! v = Some o -> objects b !! target = Some t -> comp (Score t) (Score o) = 0 ->
  (goes o t = true -> l = Nil \/ r = Nil -> forall n', reshaped (if l is Nil then r else l) n' -> Q (n', true) b) ->
  (goes o t = true -> forall r' m k w, l <> Nil -> ids r = m :: k -> ids r' = k -> hok r' -> value_of b !! m = Some w ->
     Q (Node id l r' h, true) (moved b id w)) ->
  (goes o t = false -> Q (Node id l r h, false) (trimmed b v o t)) ->
  wp pn (deleteNode (Node id l r h) target) Q b.
Proof.
  intros Hsp (Hh & Hl & Hr) Hk Hs Ev Eo Et Ec H1 H2 H3. cbn [ids] in Hs.
  apply StronglySorted_mid in Hs as (_ & Sr & _ & Fr & _).
  cbn [deleteNode]. apply wp_bind. eapply wp_Value_of; [done|]. apply wp_bind. eapply wp_Comp; [done|done|].
  rewrite Ec. cbn [Z.ltb Z.compare]. apply wp_bind. eapply wp_deref; [done|]. apply wp_bind. eapply wp_deref; [done|].
  fold (goes o t). destruct (goes o t) eqn:Hg; [|by apply wp_bind, wp_modify, wp_ret, H3].
  assert (HN : (l = Nil \/ r = Nil) \/ (l <> Nil /\ r <> Nil)) by (destruct l, r; auto; right; done).
  destruct HN as [HN|[Hnl Hnr]].
  { specialize (H1 eq_refl HN). destruct HN as [->| ->]; [apply wp_ret, H1; by apply reshaped_refl|].
    destruct l; apply wp_ret, H1; by apply reshaped_refl. }
  destruct (min_ids r Hnr) as (m & k & Em & Ek).
  assert (Hbody : wp pn (m ← or_panic (min r); w ← Value_of m; set_Value id w ;; rd ← deleteNode r w;
                         mret (Node id l (fst rd) h, true)) Q b); [|by destruct l, r].
  rewrite Em. apply wp_bind, wp_ret. assert (Hk' := Hk). unfold known in Hk'. rewrite Ek in Hk'.
  apply Forall_cons in Hk' as [[x Hx] _]. destruct (entry_inv _ _ _ Hx) as (w & Ew & _).
  apply wp_bind. eapply wp_Value_of; [exact Ew|]. apply wp_bind, wp_modify. fold (moved b id w).
  assert (Hni : forall j, j ∈ ids r -> j <> id).
  { intros j Hj ->. rewrite Forall_forall in Fr. by apply Fr, id_lt_irrefl in Hj. }
  apply wp_bind, (delete_first pn r m k w); [done| | |done| |].
  - unfold known in *. rewrite Forall_forall in *. intros j Hj. rewrite entry_moved_ne by auto. by apply Hk.
  - eapply StronglySorted_impl_in; [|exact Sr]. intros i j Hi Hj. rewrite id_lt_moved by auto. done.
  - cbn. rewrite lookup_insert_ne; [done|]. apply not_eq_sym, Hni. rewrite Ek. by left.
  - intros r' d E' Hr'. apply wp_ret. cbn [fst]. by apply (H2 eq_refl r' m k w).
Qed.

Lemma wp_deleteNode (pn : bool) n : hok n -> delete_spec pn n.
Proof.
  induction n as [|id l IHl r IHr h]; intros Hn target t b Q Hk Hs Ht H0 H1 H2 H3.
  { cbn [deleteNode]. apply wp_ret, H0; [done|]. by intros i x ?%elem_of_nil. }
  assert (Hn' := Hn). destruct Hn' as (Hh & Hl & Hr). specialize (IHl Hl). specialize (IHr Hr).
  destruct (known_node _ _ _ _ _ Hk) as (Kl & Kr & v & o & Ev & Eo & Ee).
  assert (Hs' := Hs). cbn [ids] in Hs'. apply StronglySorted_mid in Hs' as (Sl & Sr & Fl & Fr & _).
  rewrite Forall_forall in Fl, Fr.
  destruct (comp_cases (Score t) (Score o)) as [[Ec Hlt]|[[Ec Hlt]|(Ec & _)]].
  3:{ apply (delete_here pn id l r h v o target t); [done..| | |].
    - intros Hg HN n' [E Hn']. destruct HN as [->| ->]; [by apply (H1 n' [] id (ids r) o)|].
      apply (H1 n' (ids l) id [] o); try done. rewrite app_nil_r. by destruct l.
    - intros Hg r' m k w Hne E E' Hr' Hm. apply (H2 _ (ids l) id m k o w); [|cbn; by rewrite E|cbn; by rewrite E'|done..].
      destruct l; [done|]. by intros [_ ?]%app_eq_nil.
    - intros Hg. apply (H3 id v o); [apply elem_of_app; right; by left|done|done|done|done|by apply reshaped_refl]. }
  all: cbn [deleteNode]; apply wp_bind; (eapply wp_Value_of; [done|]); apply wp_bind; (eapply wp_Comp; [done|done|]);
    rewrite Ec; cbn [Z.ltb Z.compare].
  all: assert (Hreb : forall n' (d : bool) b' (R : node * bool -> Btree -> Prop), hok n' ->
    (forall n'', reshaped n' n'' -> R (n'', d) b') -> wp pn (n'' ← lift (rebalance n'); mret (n'', d)) R b')
    by (intros n' d b' R Hn' HR; destruct (rebalance_run n' Hn') as (n'' & E & Hsh);
        apply wp_bind, wp_lift; rewrite E; [|done..]; intros ? [= <-]; by apply wp_ret, HR).
  - apply wp_bind, (IHr target t); [done..| | | |]; clear IHl IHr.
    + intros r' [E Hr'] Hno. apply Hreb; [done|]. intros n'' [E' Hn'']. apply H0.
      * split; [|done]. rewrite E'. cbn. by rewrite E.
      * intros i x. cbn. rewrite elem_of_app, elem_of_cons. intros [Hi|[->|Hi]] Hx; [|congruence|by eapply Hno].
        specialize (Fl _ Hi). unfold id_lt in Fl. rewrite Hx, Ee in Fl. unfold comp.
        by rewrite (flt_trans (Score x) (Score o) (Score t)).
    + intros r' l1 i l2 x E E' Hr' Hx Hc Hg. apply Hreb; [done|]. intros n'' [E2 Hn'']. cbn [fst snd].
      apply (H1 n'' (ids l ++ id :: l1) i l2 x); try done; cbn; rewrite ?E2; cbn; rewrite ?E, ?E'; by rewrite <- (assoc_L (++)).
    + intros r' l1 i m l2 x w Hne E E' Hr' Hx Hc Hg Hm. apply Hreb; [done|]. intros n'' [E2 Hn'']. cbn [fst snd].
      apply (H2 n'' (ids l ++ id :: l1) i m l2 x w); try done; cbn; rewrite ?E2; cbn; rewrite ?E, ?E';
        try by rewrite <- (assoc_L (++)). by destruct (ids l).
    + intros i w x Hi Ew Ex Hc Hg r' [E Hr']. apply Hreb; [done|]. intros n'' [E2 Hn'']. cbn [fst snd].
      apply (H3 i w x); try done; [cbn; apply elem_of_app; right; by right|]. split; [|done]. rewrite E2. cbn. by rewrite E.
  - apply wp_bind, (IHl target t); [done..| | | |]; clear IHl IHr.
    + intros l' [E Hl'] Hno. apply Hreb; [done|]. intros n'' [E' Hn'']. apply H0.
      * split; [|done]. rewrite E'. cbn. by rewrite E.
      * intros i x. cbn. rewrite elem_of_app, elem_of_cons. intros [Hi|[->|Hi]] Hx; [by eapply Hno|congruence|].
        specialize (Fr _ Hi). unfold id_lt in Fr. rewrite Hx, Ee in Fr.
        assert (Hlt' : flt (Score t) (Score x) = true) by (by eapply flt_trans). unfold comp.
        by rewrite Hlt', (flt_asym _ _ Hlt').
    + intros l' l1 i l2 x E E' Hl' Hx Hc Hg. apply Hreb; [done|]. intros n'' [E2 Hn'']. cbn [fst snd].
      apply (H1 n'' l1 i (l2 ++ id :: ids r) x); try done; cbn; rewrite ?E2; cbn; rewrite ?E, ?E'; by rewrite <- (assoc_L (++)).
    + intros l' l1 i m l2 x w Hne E E' Hl' Hx Hc Hg Hm. apply Hreb; [done|]. intros n'' [E2 Hn'']. cbn [fst snd].
      apply (H2 n'' l1 i m (l2 ++ id :: ids r) x w); try done; cbn; rewrite ?E2; cbn; rewrite ?E, ?E'; by rewrite <- (assoc_L (++)).
    + intros i w x Hi Ew Ex Hc Hg l' [E Hl']. apply Hreb; [done|]. intros n'' [E2 Hn'']. cbn [fst snd].
      apply (H3 i w x); try done; [cbn; apply elem_of_app; by left|]. split; [|done]. rewrite E2. cbn. by rewrite E.
Qed.

(* ===================================================================== *)
(** ** The invariant                                                     *)
(* ===================================================================== *)

(** The nodes of the tree are in the order of their scores, the counter is
    right, and no pointer dangles. *)
Record WF (b : Btree) : Prop := {
  wf_hok : hok (root b);
  wf_known : known b (root b);
  wf_sorted : StronglySorted (id_lt b) (ids (root b));
  wf_len : len b = zlen (ids (root b));
  wf_dict : forall name id, dict b !! name = Some id -> is_Some (entry b id);
  wf_nodes : forall id, is_Some (value_of b !! id) -> (id < fresh b)%nat;
  wf_objects : forall v, is_Some (objects b !! v) -> (v < fresh b)%nat
}.

Lemma WF_NewBtree : WF NewBtree.
Proof.
  split; cbn; [done|apply Forall_nil_2|constructor|done|..].
  - by intros ? ?; rewrite lookup_empty.
  - by intros ? [? ?].
  - by intros ? [? ?].
Qed.

Definition score (b : Btree) (i : nat) : option float64 := Score <$> entry b i.

Lemma id_lt_alt b i j : id_lt b i j <->
  match score b i, score b j with Some x, Some y => flt x y = true | _, _ => False end.
Proof. unfold id_lt, score. by destruct (entry b i), (entry b j). Qed.

Lemma id_lt_score b b' i j : score b' i = score b i -> score b' j = score b j -> id_lt b' i j <-> id_lt b i j.
Proof. intros E1 E2. by rewrite !id_lt_alt, E1, E2. Qed.

Lemma sorted_score b b' l : (forall i, i ∈ l -> score b' i = score b i) ->
  StronglySorted (id_lt b) l -> StronglySorted (id_lt b') l.
Proof. intros H. apply StronglySorted_impl_in. intros i j Hi Hj. by apply id_lt_score; apply H. Qed.

(** A change of one object that keeps its score. *)
Lemma entry_object b v o' i d :
  entry (mkBtree (root b) (values b) (len b) d (value_of b) (<[v := o']> (objects b)) (fresh b)) i =
  if decide (value_of b !! i = Some v) then Some o' else entry b i.
Proof.
  unfold entry. cbn. destruct (value_of b !! i) as [w|] eqn:E; cbn; [|by rewrite decide_False].
  destruct (decide (w = v)) as [->|Hne]; [by rewrite lookup_insert_eq, decide_True|].
  rewrite lookup_insert_ne, decide_False by congruence. done.
Qed.

Lemma score_object b v o o' i d : objects b !! v = Some o -> Score o' = Score o ->
  score (mkBtree (root b) (values b) (len b) d (value_of b) (<[v := o']> (objects b)) (fresh b)) i = score b i.
Proof.
  intros E Es. unfold score. rewrite entry_object. destruct (decide _) as [Ev|]; [|done].
  unfold entry. rewrite Ev. cbn. rewrite E. cbn. by rewrite Es.
Qed.

Lemma known_score b i x : score b i = Some x -> is_Some (entry b i).
Proof. unfold score. destruct (entry b i); [by eexists|done]. Qed.

Lemma known_score_iff b i : is_Some (entry b i) <-> is_Some (score b i).
Proof. unfold score. by rewrite fmap_is_Some. Qed.

Lemma entry_added b target t i : i <> fresh b -> entry (added b target t) i = entry b i.
Proof. intros H. unfold entry. cbn. by rewrite lookup_insert_ne. Qed.

Lemma entry_added_new b target t : objects b !! target = Some t -> entry (added b target t) (fresh b) = Some t.
Proof. intros H. unfold entry. cbn. by rewrite lookup_insert_eq. Qed.

Lemma WF_old b i : WF b -> is_Some (entry b i) -> i <> fresh b.
Proof.
  intros Hb [x Hx] ->. destruct (entry_inv _ _ _ Hx) as (v & Hv & _). pose proof (wf_nodes b Hb (fresh b)). 
  assert (is_Some (value_of b !! fresh b)) by (by eexists). specialize (H H0). lia.
Qed.

(** The new root, the counter and the cache, as [Insert] and [Delete] set them. *)
Definition finish (b : Btree) (n : node) (d : Z) (dd : gmap bytes nat) : Btree :=
  mkBtree n None (len b + d) dd (value_of b) (objects b) (fresh b).

Lemma entry_finish b n d dd i : entry (finish b n d dd) i = entry b i.
Proof. done. Qed.

Lemma score_finish b n d dd i : score (finish b n d dd) i = score b i.
Proof. done. Qed.

Lemma lookup_index (names : gset bytes) (id : nat) (d : gmap bytes nat) (name : bytes) :
  (gset_to_gmap id names ∪ d) !! name = if decide (name ∈ names) then Some id else d !! name.
Proof.
  destruct (decide (name ∈ names)) as [H|H].
  - apply lookup_union_Some_l. by apply lookup_gset_to_gmap_Some.
  - rewrite lookup_union_r; [done|]. by apply lookup_gset_to_gmap_None.
Qed.

(* ===================================================================== *)
(** ** [Insert] and [Delete] keep the invariant                          *)
(* ===================================================================== *)

Lemma WF_added b r t n l1 l2 : WF b -> objects b !! r = Some t -> ids (root b) = l1 ++ l2 ->
  ids n = l1 ++ fresh b :: l2 -> hok n -> Forall (below b (Score t)) l1 -> Forall (above b (Score t)) l2 ->
  WF (finish (added b r t) n 1 (dict (added b r t))).
Proof.
  intros Hb Ht E E' Hn F1 F2. pose proof (wf_known b Hb) as Hk. unfold known in Hk. rewrite Forall_forall in Hk.
  assert (Hold : forall i, i ∈ l1 ++ l2 -> entry (added b r t) i = entry b i)
    by (intros i Hi; apply entry_added, WF_old; [done|]; apply Hk; by rewrite E).
  assert (Hnew := entry_added_new b r t Ht). pose proof (wf_sorted b Hb) as Hs. rewrite E in Hs, Hk.
  split; cbn [finish root len dict]; try done.
  - unfold known. rewrite E', Forall_app, Forall_cons. setoid_rewrite entry_finish. rewrite Hnew.
    split_and!; [|by eexists|]; rewrite Forall_forall; intros i Hi; rewrite Hold by set_solver; apply Hk; set_solver.
  - rewrite E'. apply StronglySorted_mid. rewrite Forall_forall in F1, F2.
    assert (H12 : StronglySorted (id_lt (added b r t)) (l1 ++ l2)).
    { apply (sorted_score b); [|done]. intros i Hi. unfold score. by rewrite Hold. }
    apply StronglySorted_app in H12 as (H12 & S1 & S2). split_and!; [exact S1|exact S2| | |exact H12];
      rewrite Forall_forall; intros i Hi; unfold id_lt; rewrite !entry_finish, Hnew, Hold by set_solver; [by apply F1|by apply F2].
  - rewrite E', zlen_app, zlen_cons. cbn. rewrite (wf_len b Hb), E, zlen_app. lia.
  - intros name id. cbn. rewrite lookup_index, entry_finish. case_decide; [intros [= <-]; rewrite Hnew; by eexists|].
    intros H'. pose proof (wf_dict b Hb _ _ H') as Hs'. rewrite entry_added; [done|]. by apply WF_old.
  - intros i. cbn. intros [v Hv]. apply lookup_insert_Some in Hv as [[<- _]|[_ Hv]]; [lia|].
    pose proof (wf_nodes b Hb i). assert (is_Some (value_of b !! i)) by (by eexists). intuition lia.
  - intros v Hv. pose proof (wf_objects b Hb v Hv). cbn. lia.
Qed.

(** Changing an object without changing its score, and adding entries for known
    nodes to the dictionary. *)
Lemma WF_object b v o o' n dd : WF b -> objects b !! v = Some o -> Score o' = Score o -> reshaped (root b) n ->
  (forall name id, dd !! name = Some id -> is_Some (entry b id)) ->
  WF (mkBtree n None (len b) dd (value_of b) (<[v := o']> (objects b)) (fresh b)).
Proof.
  intros Hb Ho Es [E Hn] Hd.
  assert (Hsc : forall i, score (mkBtree n None (len b) dd (value_of b) (<[v := o']> (objects b)) (fresh b)) i = score b i).
  { intros i. etrans; [|by apply (score_object b v o o' i dd)]. done. }
  split; cbn [root len dict value_of objects fresh]; try done.
  - unfold known. cbn. rewrite E. pose proof (wf_known b Hb) as Hk. eapply Forall_impl; [exact Hk|].
    intros i. rewrite !known_score_iff. by rewrite Hsc.
  - rewrite E. by apply (sorted_score b); [|apply Hb].
  - rewrite E. apply Hb.
  - intros name id H. rewrite known_score_iff, Hsc, <- known_score_iff. by eapply Hd.
  - apply Hb.
  - intros w [x Hx]. apply lookup_insert_Some in Hx as [[<- _]|[_ Hx]]; apply (wf_objects b Hb); by eexists.
Qed.

Lemma WF_merged b id v o t n : WF b -> value_of b !! id = Some v -> objects b !! v = Some o -> reshaped (root b) n ->
  WF (finish (merged b id v o t) n 0 (dict (merged b id v o t))).
Proof.
  intros Hb Ev Eo Hn. unfold finish, merged. cbn. rewrite Z.add_0_r. apply (WF_object b v o); [done..|].
  intros name i. rewrite lookup_index. case_decide; [intros [= <-]; unfold entry; rewrite Ev; cbn; rewrite Eo; by eexists|].
  apply Hb.
Qed.

Lemma WF_trimmed b v o t n name : WF b -> objects b !! v = Some o -> reshaped (root b) n ->
  WF (finish (trimmed b v o t) n 0 (delete name (dict b))).
Proof.
  intros Hb Eo Hn. unfold finish, trimmed. cbn. rewrite Z.add_0_r. apply (WF_object b v o); [done..|].
  intros name' i [_ Hi]%lookup_delete_Some. by apply Hb in Hi.
Qed.

Lemma WF_reshaped b n name : WF b -> reshaped (root b) n -> WF (finish b n 0 (delete name (dict b))).
Proof.
  intros Hb [E Hn]. destruct Hb as [H1 H2 H3 H4 H5 H6 H7]. split; cbn; try done.
  - unfold known. by rewrite E.
  - by rewrite E.
  - by rewrite Z.add_0_r, E.
  - intros name' i [_ Hi]%lookup_delete_Some. by eapply H5.
Qed.

Lemma WF_removed b n l1 id l2 name : WF b -> ids (root b) = l1 ++ id :: l2 -> ids n = l1 ++ l2 -> hok n ->
  WF (finish b n (-1) (delete name (dict b))).
Proof.
  intros Hb E E' Hn. destruct Hb as [H1 H2 H3 H4 H5 H6 H7]. split; cbn; try done.
  - unfold known in *. rewrite E', Forall_app. rewrite E, Forall_app, Forall_cons in H2. by destruct H2 as (? & ? & ?).
  - rewrite E'. rewrite E in H3. apply StronglySorted_mid in H3 as (S1 & S2 & _ & _ & S12).
    by apply StronglySorted_app.
  - rewrite H4, E, E', !zlen_app, zlen_cons. lia.
  - intros name' i [_ Hi]%lookup_delete_Some. by eapply H5.
Qed.

Lemma WF_moved b n l1 id m l2 w name : WF b -> ids (root b) = l1 ++ id :: m :: l2 -> ids n = l1 ++ id :: l2 -> hok n ->
  value_of b !! m = Some w -> WF (finish (moved b id w) n (-1) (delete name (dict b))).
Proof.
  intros Hb E E' Hn Hm. assert (Hb' := Hb). destruct Hb as [H1 H2 H3 H4 H5 H6 H7].
  unfold known in H2. rewrite E, Forall_app, !Forall_cons in H2. destruct H2 as (K1 & Kid & Km & K2).
  assert (Hid : entry (moved b id w) id = entry b m) by (unfold entry; cbn; by rewrite lookup_insert_eq, Hm).
  rewrite E in H3. apply StronglySorted_mid in H3 as (S1 & S2 & F1 & F2 & F12).
  apply StronglySorted_inv in S2 as [S2 Fm]. apply Forall_cons in F2 as [Hidm F2].
  rewrite Forall_forall in F1, F2, Fm.
  assert (N1 : forall i, i ∈ l1 -> i <> id) by (intros i Hi ->; by apply F1, id_lt_irrefl in Hi).
  assert (N2 : forall i, i ∈ l2 -> i <> id) by (intros i Hi ->; by apply F2, id_lt_irrefl in Hi).
  assert (Hsome : forall i, is_Some (entry b i) -> is_Some (entry (moved b id w) i)).
  { intros i Hi. destruct (decide (i = id)) as [->|]; [by rewrite Hid|by rewrite entry_moved_ne]. }
  split; cbn [finish root len dict]; try done.
  - unfold known. rewrite E', Forall_app, Forall_cons. setoid_rewrite entry_finish.
    split_and!; [by eapply Forall_impl|by apply Hsome|by eapply Forall_impl].
  - change (StronglySorted (id_lt (moved b id w)) (ids n)). rewrite E'. apply StronglySorted_mid. split_and!.
    + eapply StronglySorted_impl_in; [|exact S1]. intros i j Hi Hj. by rewrite id_lt_moved by auto.
    + eapply StronglySorted_impl_in; [|exact S2]. intros i j Hi Hj. by rewrite id_lt_moved by auto.
    + rewrite Forall_forall. intros i Hi. unfold id_lt. rewrite Hid, entry_moved_ne by auto. apply (F12 i m); [done|by left].
    + rewrite Forall_forall. intros i Hi. unfold id_lt. rewrite Hid, entry_moved_ne by auto. by apply Fm.
    + intros i j Hi Hj. rewrite id_lt_moved by auto. apply F12; [done|by right].
  - cbn. rewrite H4, E, E', !zlen_app, !zlen_cons. lia.
  - intros name' i [_ Hi]%lookup_delete_Some. rewrite entry_finish. by eapply Hsome, H5.
  - cbn. intros i [x Hx]. apply lookup_insert_Some in Hx as [[<- _]|[_ Hx]]; apply H6; [|by eexists].
    destruct Kid as [y Hy]. destruct (entry_inv _ _ _ Hy) as (? & ? & _). by eexists.
Qed.

(** What an insertion does to the order of the nodes. *)
Lemma wp_Insert r t b (Q : bool -> Btree -> Prop) : WF b -> objects b !! r = Some t ->
  (forall n l1 l2, ids (root b) = l1 ++ l2 -> ids n = l1 ++ fresh b :: l2 ->
     Forall (below b (Score t)) l1 -> Forall (above b (Score t)) l2 ->
     WF (finish (added b r t) n 1 (dict (added b r t))) -> Q true (finish (added b r t) n 1 (dict (added b r t)))) ->
  (forall n id v o, ids n = ids (root b) -> id ∈ ids (root b) -> value_of b !! id = Some v -> objects b !! v = Some o ->
     comp (Score o) (Score t) = 0 ->
     WF (finish (merged b id v o t) n 0 (dict (merged b id v o t))) ->
     Q false (finish (merged b id v o t) n 0 (dict (merged b id v o t)))) ->
  wp true (Insert r) Q b.
Proof.
  intros Hb Ht HA HB. unfold Insert. apply wp_bind, wp_gets, wp_bind, (wp_insert _ _ t); [apply Hb..|done| |].
  - intros n l1 l2 E E' Hn F1 F2. apply wp_bind, wp_modify, wp_bind, wp_modify, wp_bind, wp_modify, wp_ret.
    apply (HA n l1 l2); [done..|]. by apply WF_added with l1 l2.
  - intros n id v o [E Hn] Hi Ev Eo Ec. apply wp_bind, wp_modify, wp_bind, wp_ret, wp_bind, wp_modify, wp_ret.
    replace (set_values _ _) with (finish (merged b id v o t) n 0 (dict (merged b id v o t)))
      by (unfold finish; cbn; by rewrite Z.add_0_r).
    apply (HB n id v o); [done..|]. by apply WF_merged.
Qed.

(** What a deletion does to the order of the nodes; it always succeeds. *)
Lemma wp_tree_Delete (pn : bool) name b (Q : bool -> Btree -> Prop) : WF b ->
  (dict b !! name = None -> Q false b) ->
  (forall id t, dict b !! name = Some id -> entry b id = Some t -> let dd := delete name (dict b) in
    (forall n, (forall i x, i ∈ ids (root b) -> entry b i = Some x -> comp (Score t) (Score x) <> 0) ->
       ids n = ids (root b) -> WF (finish b n 0 dd) -> Q true (finish b n 0 dd)) /\
    (forall n l1 i l2 o, ids (root b) = l1 ++ i :: l2 -> ids n = l1 ++ l2 -> entry b i = Some o ->
       comp (Score t) (Score o) = 0 -> goes o t = true -> WF (finish b n (-1) dd) -> Q true (finish b n (-1) dd)) /\
    (forall n l1 i m l2 o w, ids (root b) = l1 ++ i :: m :: l2 -> ids n = l1 ++ i :: l2 -> entry b i = Some o ->
       comp (Score t) (Score o) = 0 -> goes o t = true -> value_of b !! m = Some w ->
       WF (finish (moved b i w) n (-1) dd) -> Q true (finish (moved b i w) n (-1) dd)) /\
    (forall n i v o, ids n = ids (root b) -> i ∈ ids (root b) -> value_of b !! i = Some v -> objects b !! v = Some o ->
       comp (Score t) (Score o) = 0 -> goes o t = false ->
       WF (finish (trimmed b v o t) n 0 dd) -> Q true (finish (trimmed b v o t) n 0 dd))) ->
  wp pn (Delete name) Q b.
Proof.
  intros Hb H0 H1. unfold Delete. apply wp_bind, wp_gets. destruct (dict b !! name) as [id|] eqn:Ed; [|by apply wp_ret, H0].
  destruct (wf_dict b Hb _ _ Ed) as [t Ht]. destruct (entry_inv _ _ _ Ht) as (v & Ev & Eo).
  destruct (H1 id t eq_refl Ht) as (HA & HB & HC & HD). clear H0 H1.
  apply wp_bind, wp_gets, wp_bind. eapply wp_Value_of; [done|].
  apply wp_bind, (wp_deleteNode pn (root b) (wf_hok b Hb) v t); [apply Hb..|done| | | |].
  - intros n Hsh Hno. apply wp_bind, wp_modify, wp_bind, wp_modify, wp_bind, wp_ret, wp_bind, wp_modify, wp_ret.
    replace (set_values _ _) with (finish b n 0 (delete name (dict b))) by (unfold finish; cbn; by rewrite Z.add_0_r).
    apply HA; [done|apply Hsh|]. by apply WF_reshaped.
  - intros n l1 i l2 o E E' Hn Ho Hc Hg. apply wp_bind, wp_modify, wp_bind, wp_modify, wp_bind, wp_modify, wp_bind, wp_modify, wp_ret.
    apply (HB n l1 i l2 o); [done..|]. by eapply WF_removed.
  - intros n l1 i m l2 o w _ E E' Hn Ho Hc Hg Hm.
    apply wp_bind, wp_modify, wp_bind, wp_modify, wp_bind, wp_modify, wp_bind, wp_modify, wp_ret.
    apply (HC n l1 i m l2 o w); [done..|]. by eapply WF_moved.
  - intros i w o Hi Ew Eo' Hc Hg n Hsh. apply wp_bind, wp_modify, wp_bind, wp_modify, wp_bind, wp_ret, wp_bind, wp_modify, wp_ret.
    replace (set_values _ _) with (finish (trimmed b w o t) n 0 (delete name (dict b))) by (unfold finish; cbn; by rewrite Z.add_0_r).
    apply (HD n i w o); [apply Hsh|done..|]. by apply WF_trimmed.
Qed.

(* ===================================================================== *)
(** ** Insertion into a balanced tree                                    *)
(* ===================================================================== *)

(** Heights are right and no two subtrees differ by more than one. Neither
    [Insert] nor [Delete] keeps this: a first insertion after it does not fail,
    later ones may. *)
Fixpoint avl (n : node) : Prop :=
  match n with
  | Nil => True
  | Node _ l r h => h = maxHeight l r + 1 /\ -1 <= height_of l - height_of r <= 1 /\ avl l /\ avl r
  end.

(** Stored heights are right. *)
Fixpoint exact_heights (n : node) : Prop :=
  match n with
  | Nil => True
  | Node _ l r h => h = maxHeight l r + 1 /\ exact_heights l /\ exact_heights r
  end.

Lemma avl_exact n : avl n -> exact_heights n.
Proof. induction n as [|id l IHl r IHr h]; [done|]. intros (H1 & _ & H2 & H3). by split; [|split; auto]. Qed.

Lemma maxHeight_max l r : maxHeight l r = Z.max (height_of l) (height_of r).
Proof. unfold maxHeight. destruct (Z.ltb_spec (height_of l) (height_of r)); lia. Qed.

Lemma exact_pos n : exact_heights n -> 0 <= height_of n.
Proof.
  induction n as [|id l IHl r IHr h]; [done|]. intros (-> & Hl & Hr). cbn. rewrite maxHeight_max.
  specialize (IHl Hl). lia.
Qed.

(** A subtree of height [h] after an insertion. *)
Definition grown (h : Z) (n : node) : Prop := exact_heights n /\ h <= height_of n <= h + 1.

(** The rotation after an insertion into the higher subtree. *)
Lemma rotateLeft_grown id l r k : exact_heights l -> exact_heights r -> k + 1 <= height_of r <= k + 2 -> height_of l = k ->
  balance (join id l r) < -1 -> exists n', rotateLeft (join id l r) = Ret n' /\ grown (k + 2) n'.
Proof.
  intros Hl Hr Hh Hk Hb. cbn [balance join] in Hb. destruct r as [|rid rl rr rh]; [pose proof (exact_pos _ Hl); cbn in *; lia|].
  eexists. split; [reflexivity|]. destruct Hr as (E & Hrl & Hrr). cbn in Hh, Hb. rewrite maxHeight_max in E.
  split; [by cbn|]. unfold join. cbn [height_of]. rewrite !maxHeight_max. cbn [height_of]. lia.
Qed.

Lemma rotateRight_grown id l r k : exact_heights l -> exact_heights r -> k + 1 <= height_of l <= k + 2 -> height_of r = k ->
  balance (join id l r) > 1 -> exists n', rotateRight (join id l r) = Ret n' /\ grown (k + 2) n'.
Proof.
  intros Hl Hr Hh Hk Hb. cbn [balance join] in Hb. destruct l as [|lid ll lr lh]; [pose proof (exact_pos _ Hr); cbn in *; lia|].
  eexists. split; [reflexivity|]. destruct Hl as (E & Hll & Hlr). cbn in Hh, Hb. rewrite maxHeight_max in E.
  split; [by cbn|]. unfold join. cbn [height_of]. rewrite !maxHeight_max. cbn [height_of]. lia.
Qed.

(** A change of the heap that keeps the scores of the nodes. *)
Definition same_scores (b b' : Btree) : Prop := forall i s, score b i = Some s -> score b' i = Some s.

Lemma same_scores_entry b b' i v o : same_scores b b' -> value_of b !! i = Some v -> objects b !! v = Some o ->
  exists v' o', value_of b' !! i = Some v' /\ objects b' !! v' = Some o' /\ Score o' = Score o.
Proof.
  intros Hs Hv Ho. assert (E : score b i = Some (Score o)) by (unfold score, entry; rewrite Hv; cbn; by rewrite Ho).
  apply Hs in E. unfold score in E. apply fmap_Some in E as (o' & E & Eo).
  destruct (entry_inv _ _ _ E) as (v' & ? & ?). by exists v', o'.
Qed.

(** The fix on the way back from the left, and from the right. *)
Lemma wp_fix_left id l l' r target b v o t (P : node -> Btree -> Prop) :
  grown (height_of l) l' -> exact_heights r -> -1 <= height_of l - height_of r <= 1 ->
  value_of b !! id = Some v -> objects b !! v = Some o -> objects b !! target = Some t -> comp (Score o) (Score t) = 1 ->
  (forall n', grown (maxHeight l r + 1) n' -> P n' b) -> wp false (insert_fix (join id l' r) target) P b.
Proof.
  intros [Hl' Hh] Hr Hb Ev Eo Et Ec HP. unfold insert_fix, join at 1. fold (join id l' r). cbv zeta.
  rewrite maxHeight_max in HP. destruct (Z.ltb_spec 1 (balance (join id l' r))) as [H1|H1].
  - apply wp_bind. eapply wp_Value_of; [done|]. apply wp_bind. eapply wp_Comp; [done|done|]. rewrite Ec. cbn [Z.ltb Z.compare].
    cbn [balance join] in H1. destruct (rotateRight_grown id l' r (height_of r)) as (n' & E & Hg); [done|done|lia|done|cbn; lia|].
    fold (join id l' r). rewrite E. apply wp_ret, HP. by replace (Z.max (height_of l) (height_of r) + 1) with (height_of r + 2) by lia.
  - cbn [balance join] in *. destruct (Z.ltb_spec (height_of l' - height_of r) (-1)); [lia|]. apply wp_ret, HP.
    split; [by cbn|]. unfold join. cbn [height_of]. rewrite maxHeight_max. lia.
Qed.

Lemma wp_fix_right id l r r' target b v o t (P : node -> Btree -> Prop) :
  grown (height_of r) r' -> exact_heights l -> -1 <= height_of l - height_of r <= 1 ->
  value_of b !! id = Some v -> objects b !! v = Some o -> objects b !! target = Some t -> comp (Score o) (Score t) = -1 ->
  (forall n', grown (maxHeight l r + 1) n' -> P n' b) -> wp false (insert_fix (join id l r') target) P b.
Proof.
  intros [Hr' Hh] Hl Hb Ev Eo Et Ec HP. unfold insert_fix, join at 1. fold (join id l r'). cbv zeta.
  rewrite maxHeight_max in HP. cbn [balance join]. destruct (Z.ltb_spec 1 (height_of l - height_of r')) as [H1|H1]; [lia|].
  destruct (Z.ltb_spec (height_of l - height_of r') (-1)) as [H2|H2].
  - apply wp_bind. eapply wp_Value_of; [done|]. apply wp_bind. eapply wp_Comp; [done|done|]. rewrite Ec. cbn [Z.ltb Z.compare].
    destruct (rotateLeft_grown id l r' (height_of l)) as (n' & E & Hg); [done|done|lia|done|cbn; lia|].
    fold (join id l r'). rewrite E. apply wp_ret, HP. by replace (Z.max (height_of l) (height_of r) + 1) with (height_of l + 2) by lia.
  - apply wp_ret, HP. split; [by cbn|]. unfold join. cbn [height_of]. rewrite maxHeight_max. lia.
Qed.

(** In a balanced tree the insertion goes through, and the height grows by at
    most one: the rotation is always one towards the side that grew. *)
Lemma wp_insert_avl n target t b :
  avl n -> known b n -> value_of b !! fresh b = None -> objects b !! target = Some t ->
  wp false (insert n target) (fun na b' => grown (height_of n) (fst na) /\ same_scores b b' /\
    exists t', objects b' !! target = Some t' /\ Score t' = Score t) b.
Proof.
  intros Hn Hk Hf Ht. induction n as [|id l IHl r IHr h]; cbn [insert].
  { apply wp_bind, wp_new_node. apply wp_bind. eapply wp_deref; [exact Ht|]. apply wp_bind, wp_modify, wp_ret.
    split; [by split|]. split; [|by exists t]. intros i s Hi. unfold score, entry in *. cbn.
    rewrite lookup_insert_ne; [done|]. intros <-. by rewrite Hf in Hi. }
  destruct Hn as (-> & Hb & Hl & Hr). destruct (known_node _ _ _ _ _ Hk) as (Kl & Kr & v & o & Ev & Eo & Ee).
  specialize (IHl Hl Kl). specialize (IHr Hr Kr). pose proof (avl_exact l Hl) as El. pose proof (avl_exact r Hr) as Er.
  apply wp_bind. eapply wp_Value_of; [done|]. apply wp_bind. eapply wp_Comp; [done|done|].
  destruct (comp_cases (Score o) (Score t)) as [[Ec _]|[[Ec _]|(Ec & _)]]; rewrite Ec; cbn [Z.ltb Z.compare].
  - apply wp_bind. eapply wp_mono; [|exact IHl]. intros [l' a] b' ([Hl' Hh] & Hsc & t' & Ht' & Et). cbn [fst snd] in *.
    destruct (same_scores_entry _ _ _ _ _ Hsc Ev Eo) as (v' & o' & Ev' & Eo' & Eoo).
    apply wp_bind, (wp_fix_left id l l' r target b' v' o' t'); [done..|by rewrite Eoo, Et|].
    intros n' Hn'. apply wp_ret. split_and!; [done..|by exists t'].
  - apply wp_bind. eapply wp_mono; [|exact IHr]. intros [r' a] b' ([Hr' Hh] & Hsc & t' & Ht' & Et). cbn [fst snd] in *.
    destruct (same_scores_entry _ _ _ _ _ Hsc Ev Eo) as (v' & o' & Ev' & Eo' & Eoo).
    apply wp_bind, (wp_fix_right id l r r' target b' v' o' t'); [done..|by rewrite Eoo, Et|].
    intros n' Hn'. apply wp_ret. split_and!; [done..|by exists t'].
  - apply wp_bind. eapply wp_deref; [done|]. apply wp_bind. eapply wp_deref; [done|].
    apply wp_bind, wp_modify, wp_bind, wp_modify, wp_ret. cbn [fst]. split; [split; [by cbn|cbn; lia]|]. split.
    + intros i s Hi. rewrite <- Hi. apply (score_object b v o _ i); done.
    + cbn. destruct (decide (v = target)) as [->|Hne]; [|exists t; by rewrite lookup_insert_ne].
      rewrite lookup_insert_eq. eexists. split; [done|]. cbn. by assert (o = t) as -> by congruence.
Qed.

(** What holds of the result of an insertion that may fail holds for certain
    when the tree was balanced. *)
Lemma wp_Insert_avl (Q : bool -> Btree -> Prop) r t b :
  WF b -> avl (root b) -> objects b !! r = Some t -> wp true (Insert r) Q b -> wp false (Insert r) Q b.
Proof.
  intros Hb Ha Hr HQ. assert (Hf : value_of b !! fresh b = None).
  { destruct (value_of b !! fresh b) eqn:E; [|done]. pose proof (wf_nodes b Hb (fresh b)). rewrite E in H.
    specialize (H (ltac:(by eexists))). lia. }
  pose proof (wp_insert_avl (root b) r t b Ha (wf_known b Hb) Hf Hr) as H.
  apply wp_no_panic; [done|]. unfold Insert. apply wp_bind, wp_gets, wp_bind. eapply wp_mono; [|exact H].
  intros [n' []] b' _; apply wp_bind, wp_modify, wp_bind; [apply wp_modify|apply wp_ret];
    by apply wp_bind, wp_modify, wp_ret.
Qed.

(* ===================================================================== *)
(** ** New objects                                                       *)
(* ===================================================================== *)

Definition with_object (b : Btree) (o : SortedSetNode) : Btree :=
  mkBtree (root b) (values b) (len b) (dict b) (value_of b) (<[fresh b := o]> (objects b)) (S (fresh b)).

Lemma wp_new_object (pn : bool) o b (Q : nat -> Btree -> Prop) : Q (fresh b) (with_object b o) -> wp pn (new_object o) Q b.
Proof. done. Qed.

Lemma entry_with_object b o i x : WF b -> entry b i = Some x -> entry (with_object b o) i = Some x.
Proof.
  intros Hb Hx. destruct (entry_inv _ _ _ Hx) as (v & Hv & Ho). unfold entry. cbn. rewrite Hv. cbn.
  rewrite lookup_insert_ne; [done|]. intros <-. pose proof (wf_objects b Hb (fresh b)) as H. rewrite Ho in H.
  specialize (H (ltac:(by eexists))). lia.
Qed.

Lemma WF_with_object b o : WF b -> WF (with_object b o).
Proof.
  intros Hb. assert (Hb' := Hb). destruct Hb as [H1 H2 H3 H4 H5 H6 H7].
  assert (Hsome : forall i, is_Some (entry b i) -> is_Some (entry (with_object b o) i)).
  { intros i [x Hx]. exists x. by apply entry_with_object. }
  split; cbn [root len dict with_object]; try done.
  - by eapply Forall_impl.
  - apply (sorted_score b); [|done]. intros i Hi. unfold known in H2. rewrite Forall_forall in H2.
    destruct (H2 i Hi) as [x Hx]. unfold score. by rewrite Hx, (entry_with_object b o i x).
  - intros name id Hd. by eapply Hsome, H5.
  - intros id Hid. apply H6 in Hid. cbn. lia.
  - intros v [x Hx]. cbn in Hx |- *. apply lookup_insert_Some in Hx as [[<- _]|[_ Hx]]; [lia|].
    pose proof (H7 v (mk_is_Some _ _ Hx)). lia.
Qed.
