(* ===== verification/ZSet.v ===== *)
(** * ZSet: sorted sets as ordered lists of members

    The specification of the tree of BTree.v when no two members share a score:
    [rep b l] says that the tree [b] holds exactly the members of the list [l],
    in the order of their scores, one per node, and that the dictionary finds
    each of them. [Delete] and [Insert] are the operations on the list. *)

From S2P Require Import Prelude Floats BTree.

Implicit Types (p q : bytes * float64) (name : bytes).

Definition single (p : bytes * float64) : SortedSetNode := mkNode {[p.1]} p.2.

Lemma single_inj p q : single p = single q -> p.1 = q.1.
Proof.
  intros H. assert (E : Names (single p) = Names (single q)) by (by rewrite H). cbn in E.
  assert (Hp : p.1 ∈ ({[q.1]} : gset bytes)) by (rewrite <- E; by apply elem_of_singleton). by apply elem_of_singleton in Hp.
Qed.

(** Insertion in the order of the scores. *)
Fixpoint zins (p : bytes * float64) (l : list (bytes * float64)) : list (bytes * float64) :=
  match l with
  | [] => [p]
  | q :: l' => if flt p.2 q.2 then p :: l else q :: zins p l'
  end.

Definition zdel (name : bytes) (l : list (bytes * float64)) : list (bytes * float64) :=
  filter (fun p => p.1 <> name) l.

Record rep (b : Btree) (l : list (bytes * float64)) : Prop := {
  rep_wf : WF b;
  rep_ents : omap (entry b) (ids (root b)) = map single l;
  rep_names : NoDup (l.*1);
  rep_num : Forall (fun p => is_nan p.2 = false) l;
  rep_dict : forall name, match dict b !! name with
    | Some id => exists s, (name, s) ∈ l /\ entry b id = Some (single (name, s))
    | None => name ∉ l.*1
    end
}.

Lemma rep_NewBtree : rep NewBtree [].
Proof. split; [apply WF_NewBtree|done|constructor|constructor|]. intros name. cbn. rewrite lookup_empty. apply not_elem_of_nil. Qed.

(* ===================================================================== *)
(** ** The members are in order                                          *)
(* ===================================================================== *)

Lemma omap_known b l : Forall (fun i => is_Some (entry b i)) l -> forall l', omap (entry b) l = l' ->
  Forall2 (fun i e => entry b i = Some e) l l'.
Proof.
  induction 1 as [|i l [e He] _ IH]; intros l' <-; [constructor|]. cbn. rewrite He. constructor; auto.
Qed.

Lemma Forall2_omap b l l' : Forall2 (fun i e => entry b i = Some e) l l' -> omap (entry b) l = l'.
Proof. induction 1 as [|i e l l' H _ IH]; [done|]. cbn. by rewrite H, IH. Qed.

Lemma rep_list b l : rep b l -> Forall2 (fun i p => entry b i = Some (single p)) (ids (root b)) l.
Proof.
  intros Hr. pose proof (omap_known b _ (wf_known b (rep_wf _ _ Hr)) _ (rep_ents _ _ Hr)) as H.
  by apply Forall2_fmap_r in H.
Qed.

Lemma rep_sorted b l : rep b l -> StronglySorted (fun p q => flt p.2 q.2 = true) l.
Proof.
  intros Hr. pose proof (wf_sorted b (rep_wf _ _ Hr)) as Hs. pose proof (rep_list b l Hr) as H.
  clear Hr. induction H as [|i p il ps Hi H IH]; [constructor|]. apply StronglySorted_inv in Hs as [Hs Hf].
  constructor; [by apply IH|]. clear IH Hs. induction H as [|j q js qs Hj _ IH]; [constructor|].
  apply Forall_cons in Hf as [Hlt Hf]. constructor; [|by apply IH]. unfold id_lt in Hlt. by rewrite Hi, Hj in Hlt.
Qed.

(** Members that compare equal are the same member. *)
Lemma sorted_same (l : list (bytes * float64)) p q : StronglySorted (fun p q => flt p.2 q.2 = true) l -> p ∈ l -> q ∈ l ->
  comp p.2 q.2 = 0 -> p = q.
Proof.
  induction l as [|a l IH]; [by intros _ ?%elem_of_nil|]. intros [Hs Hf]%StronglySorted_inv. rewrite Forall_forall in Hf.
  intros [->|Hp]%elem_of_cons [->|Hq]%elem_of_cons Hc; [done| | |by apply IH]; exfalso; revert Hc; unfold comp.
  - by rewrite (Hf _ Hq), (flt_asym _ _ (Hf _ Hq)).
  - by rewrite (Hf _ Hp).
Qed.

Lemma zins_at p (l1 l2 : list (bytes * float64)) : Forall (fun q => flt q.2 p.2 = true) l1 -> Forall (fun q => flt p.2 q.2 = true) l2 ->
  zins p (l1 ++ l2) = l1 ++ p :: l2.
Proof.
  induction 1 as [|q l1 Hq _ IH]; intros H2; cbn.
  - destruct l2 as [|q l2]; [done|]. apply Forall_cons in H2 as [Hq _]. cbn. by rewrite Hq.
  - rewrite (flt_asym _ _ Hq). by rewrite IH.
Qed.

Lemma zdel_at name s (l1 l2 : list (bytes * float64)) : NoDup ((l1 ++ (name, s) :: l2).*1) -> zdel name (l1 ++ (name, s) :: l2) = l1 ++ l2.
Proof.
  rewrite fmap_app, fmap_cons. cbn [fst]. intros Hn. unfold zdel.
  assert (Hkeep : forall l : list (bytes * float64), name ∉ l.*1 -> filter (fun p => p.1 <> name) l = l).
  { induction l as [|p l IH]; [done|]. rewrite fmap_cons, not_elem_of_cons. intros [Hne Hni].
    rewrite filter_cons_True by auto. by rewrite IH. }
  apply NoDup_app in Hn as (_ & Hn1 & Hn2). apply NoDup_cons in Hn2 as [Hn2 _].
  rewrite filter_app, filter_cons_False by (cbn; auto). rewrite !Hkeep; [done|done|].
  intros Hi. apply (Hn1 _ Hi). by left.
Qed.

(* ===================================================================== *)
(** ** [Delete] and [Insert]                                             *)
(* ===================================================================== *)

(** A change of the tree that leaves [Forall2] of nodes and members, and the
    dictionary of the names that stay. *)
Lemma rep_intro b (l : list (bytes * float64)) : WF b -> Forall2 (fun i p => entry b i = Some (single p)) (ids (root b)) l ->
  NoDup (l.*1) -> Forall (fun p => is_nan p.2 = false) l ->
  (forall name id, dict b !! name = Some id -> exists s, (name, s) ∈ l /\ entry b id = Some (single (name, s))) ->
  (forall name, dict b !! name = None -> name ∉ l.*1) -> rep b l.
Proof.
  intros H1 H2 H3 H4 H5 H6. split; try done.
  - apply Forall2_omap. by apply Forall2_fmap_r.
  - intros name. destruct (dict b !! name) as [id|] eqn:E; [by apply H5|by apply H6].
Qed.

Lemma rep_find b l name : rep b l -> name ∈ l.*1 ->
  exists id s, dict b !! name = Some id /\ (name, s) ∈ l /\ entry b id = Some (single (name, s)).
Proof.
  intros Hr Hn. pose proof (rep_dict _ _ Hr name) as Hd. destruct (dict b !! name) as [id|]; [|done].
  destruct Hd as (s & H1 & H2). by exists id, s.
Qed.

(** The node of a member splits the list where it splits the nodes. *)
Lemma rep_split b l name s l1 i l2 o : rep b l -> (name, s) ∈ l -> ids (root b) = l1 ++ i :: l2 ->
  entry b i = Some o -> comp s (Score o) = 0 ->
  exists la lb, l = la ++ (name, s) :: lb /\ o = single (name, s) /\
    Forall2 (fun i p => entry b i = Some (single p)) l1 la /\ Forall2 (fun i p => entry b i = Some (single p)) l2 lb.
Proof.
  intros Hr Hin E Ho Hc. pose proof (rep_list b l Hr) as HF. pose proof (rep_sorted b l Hr) as Hs.
  rewrite E in HF. apply Forall2_app_inv_l in HF as (la & lb' & F1 & F2 & ->).
  apply Forall2_cons_inv_l in F2 as (q & lb & Hq & F2 & ->). assert (o = single q) by congruence. subst o.
  assert ((name, s) = q) as <-; [|by exists la, lb].
  apply (sorted_same (la ++ q :: lb)); [done|done|apply elem_of_app; right; by left|done].
Qed.

(** Taking one member out. *)
Lemma rep_without b l b' la lb name s : rep b l -> l = la ++ (name, s) :: lb -> WF b' -> dict b' = delete name (dict b) ->
  Forall2 (fun i p => entry b' i = Some (single p)) (ids (root b')) (la ++ lb) ->
  (forall i name' s', name' <> name -> entry b i = Some (single (name', s')) -> entry b' i = Some (single (name', s'))) ->
  rep b' (zdel name l).
Proof.
  intros Hr -> Hw Hd HF Hent. pose proof (rep_names _ _ Hr) as Hn. rewrite zdel_at by done.
  pose proof (rep_num _ _ Hr) as Hnum. rewrite Forall_app, Forall_cons in Hnum.
  destruct Hnum as (M1 & _ & M2). rewrite fmap_app, fmap_cons in Hn. apply NoDup_app in Hn as (N1 & N2 & N3). apply NoDup_cons in N3 as [N3 N4].
  apply rep_intro; [done|done| |by apply Forall_app| |].
  - rewrite fmap_app. apply NoDup_app. split_and!; [done| |done]. intros x Hx ?. apply (N2 x Hx). by right.
  - intros name' i. rewrite Hd. intros [Hne Hi]%lookup_delete_Some. pose proof (rep_dict _ _ Hr name') as H.
    rewrite Hi in H. destruct H as (s' & H1 & H2). exists s'. split; [|by apply Hent].
    rewrite elem_of_app, elem_of_cons in H1. rewrite elem_of_app. destruct H1 as [?|[[= ? ?]|?]]; [by left|congruence|by right].
  - intros name'. rewrite Hd. intros [<-|Hi]%lookup_delete_None.
    + rewrite fmap_app, elem_of_app. intros [H|H]; [apply (N2 _ H); by left|done].
    + pose proof (rep_dict _ _ Hr name') as H. rewrite Hi, fmap_app, fmap_cons in H. rewrite fmap_app. set_solver.
Qed.

Lemma Forall2_impl_in {A B} (P P' : A -> B -> Prop) l k : Forall2 P l k ->
  (forall x y, x ∈ l -> P x y -> P' x y) -> Forall2 P' l k.
Proof. induction 1 as [|x y l k Hxy _ IH]; intros H; constructor; [by apply H; [left|]|]. apply IH. intros ? ? ?. apply H. by right. Qed.

Lemma WF_NoDup b : WF b -> NoDup (ids (root b)).
Proof.
  intros Hw. pose proof (wf_sorted b Hw) as Hs. induction (ids (root b)) as [|i l IH]; [constructor|].
  apply StronglySorted_inv in Hs as [Hs Hf]. constructor; [|by apply IH]. intros Hi. rewrite Forall_forall in Hf.
  by apply Hf, id_lt_irrefl in Hi.
Qed.

Lemma wp_rep_Delete (pn : bool) b l name (Q : bool -> Btree -> Prop) : rep b l -> name ∈ l.*1 ->
  (forall b', rep b' (zdel name l) -> fresh b' = fresh b -> objects b' = objects b -> Q true b') ->
  wp pn (Delete name) Q b.
Proof.
  intros Hr Hname HQ. assert (Hw := rep_wf _ _ Hr). destruct (rep_find b l name Hr Hname) as (id & s & Hd & Hin & He).
  pose proof (rep_list b l Hr) as HF.
  apply wp_tree_Delete; [done|congruence|]. intros id' t Hd' Ht. assert (id' = id) by congruence. subst id'.
  assert (t = single (name, s)) by congruence. subst t. cbv zeta. cbn [Score single snd]. split_and!.
  - intros n Hno _ _. exfalso. apply list_elem_of_lookup_1 in Hin as [k Hk].
    destruct (Forall2_lookup_r _ _ _ _ _ HF Hk) as (i & Hi & Hent). apply (Hno i (single (name, s))); [|done|].
    + by eapply list_elem_of_lookup_2.
    + cbn. unfold comp. by rewrite flt_irrefl.
  - intros n l1 i l2 o E E' Ho Hc _ HW. destruct (rep_split b l name s l1 i l2 o) as (la & lb & El & _ & F1 & F2); [done..|].
    apply HQ; [|done|done]. apply (rep_without b l _ la lb name s); [done..| |done].
    cbn [finish root]. rewrite E'. by apply Forall2_app.
  - intros n l1 i m l2 o w E E' Ho Hc _ Hm HW.
    destruct (rep_split b l name s l1 i (m :: l2) o) as (la & lb & El & -> & F1 & F2); [done..|].
    pose proof (WF_NoDup b Hw) as Hnd. rewrite E in Hnd. apply NoDup_app in Hnd as (_ & Hn1 & Hn2).
    apply NoDup_cons in Hn2 as [Hn2 _]. apply Forall2_cons_inv_l in F2 as (q & lb' & Hq & F2 & ->).
    apply HQ; [|done|done]. apply (rep_without b l _ la (q :: lb') name s); [done..| |].
    + cbn [finish root]. rewrite E'. apply Forall2_app; [|constructor].
      * eapply Forall2_impl_in; [exact F1|]. intros j p Hj Hp. rewrite entry_finish, entry_moved_ne; [done|].
        intros ->. apply (Hn1 i Hj). by left.
      * rewrite entry_finish. unfold entry. cbn. rewrite lookup_insert_eq. unfold entry in Hq. by rewrite Hm in Hq.
      * eapply Forall2_impl_in; [exact F2|]. intros j p Hj Hp. rewrite entry_finish, entry_moved_ne; [done|].
        intros ->. apply Hn2. by right.
    + intros j name' s' Hne Hj. rewrite entry_finish, entry_moved_ne; [done|]. intros ->. rewrite Ho in Hj.
      apply Hne. symmetry. apply (single_inj (name, s) (name', s')). congruence.
  - intros n i v o _ Hi Ev Eo Hc Hg _. exfalso.
    assert (Ho : entry b i = Some o) by (unfold entry; by rewrite Ev).
    apply list_elem_of_split in Hi as (l1 & l2 & E). destruct (rep_split b l name s l1 i l2 o) as (la & lb & _ & -> & _); [done..|].
    apply orb_false_elim in Hg as [_ Hg]. by apply bool_decide_eq_false in Hg.
Qed.

Lemma below_list b l1 la s : Forall (below b s) l1 -> Forall2 (fun i p => entry b i = Some (single p)) l1 la ->
  Forall (fun p => flt p.2 s = true) la.
Proof.
  intros H. induction 1 as [|i p l1 la Hi _ IH]; [constructor|]. apply Forall_cons in H as [Hb H].
  constructor; [|by apply IH]. unfold below in Hb. by rewrite Hi in Hb.
Qed.

Lemma above_list b l1 la s : Forall (above b s) l1 -> Forall2 (fun i p => entry b i = Some (single p)) l1 la ->
  Forall (fun p => flt s p.2 = true) la.
Proof.
  intros H. induction 1 as [|i p l1 la Hi _ IH]; [constructor|]. apply Forall_cons in H as [Hb H].
  constructor; [|by apply IH]. unfold above in Hb. by rewrite Hi in Hb.
Qed.

(** A new member with a score of its own gets a node of its own. *)
Lemma wp_rep_Insert r b l p (Q : bool -> Btree -> Prop) : rep b l -> objects b !! r = Some (single p) ->
  p.1 ∉ l.*1 -> is_nan p.2 = false -> Forall (fun q => fkey q.2 <> fkey p.2) l ->
  (forall b', rep b' (zins p l) -> Q true b') -> wp true (Insert r) Q b.
Proof.
  intros Hr Ho Hni Hnan Hne HQ. assert (Hw := rep_wf _ _ Hr). pose proof (rep_list b l Hr) as HF.
  pose proof (rep_num _ _ Hr) as Hnum.
  apply (wp_Insert r (single p)); [done|done| |]; cbn [Score single].
  - intros n l1 l2 E E' F1 F2 HW. rewrite E in HF. apply Forall2_app_inv_l in HF as (la & lb & G1 & G2 & ->).
    apply HQ. rewrite zins_at by (by eapply below_list || by eapply above_list).
    assert (Hold : forall i q, entry b i = Some (single q) -> entry (added b r (single p)) i = Some (single q)).
    { intros i q Hi. rewrite entry_added; [done|]. apply WF_old; [done|]. by eexists. }
    assert (Hnew := entry_added_new b r (single p) Ho).
    apply rep_intro; [done| | | | |].
    + cbn [finish root]. rewrite E'. apply Forall2_app; [|constructor]; [|done|];
        (eapply Forall2_impl; [eassumption|]); intros; by apply Hold.
    + pose proof (rep_names _ _ Hr) as Hn. rewrite fmap_app in *. rewrite fmap_cons. apply NoDup_app in Hn as (N1 & N2 & N3).
      apply NoDup_app. split_and!; [done| |].
      * intros x Hx [->|Hx']%elem_of_cons; [|by apply (N2 x)]. apply Hni. apply elem_of_app. by left.
      * constructor; [|done]. intros Hx. apply Hni. apply elem_of_app. by right.
    + rewrite Forall_app, Forall_cons in *. naive_solver.
    + intros name id. cbn. rewrite lookup_index, entry_finish. case_decide as Hd.
      * intros [= <-]. apply elem_of_singleton in Hd as ->. exists p.2. rewrite Hnew. destruct p. split; [|done].
        apply elem_of_app. right. by left.
      * intros Hi. pose proof (rep_dict _ _ Hr name) as H. rewrite Hi in H. destruct H as (s & H1 & H2). exists s.
        split; [|by apply Hold]. rewrite elem_of_app in *. rewrite elem_of_cons. tauto.
    + intros name. cbn. rewrite lookup_index. case_decide as Hd; [done|]. intros Hi.
      pose proof (rep_dict _ _ Hr name) as H. rewrite Hi in H. rewrite fmap_app in *. rewrite fmap_cons.
      rewrite elem_of_app, elem_of_cons in *. rewrite elem_of_singleton in Hd. tauto.
  - intros n id v o _ Hi Ev Eo Hc _. exfalso. assert (He : entry b id = Some o) by (unfold entry; by rewrite Ev).
    apply list_elem_of_lookup_1 in Hi as [k Hk]. destruct (Forall2_lookup_l _ _ _ _ _ HF Hk) as (q & Hq & Hent).
    assert (o = single q) by congruence. subst o. apply list_elem_of_lookup_2 in Hq.
    rewrite Forall_forall in Hne, Hnum. apply (Hne q Hq).
    destruct (comp_cases q.2 p.2) as [[E _]|[[E _]|(_ & H1 & H2)]]; [cbn in Hc; congruence..|].
    destruct (flt_total q.2 p.2) as [?|[?|?]]; [by apply Hnum|done|congruence|congruence|done].
Qed.

(* ===================================================================== *)
(** ** Scores                                                            *)
(* ===================================================================== *)

(** The score of a member. *)
Fixpoint zscore (name : bytes) (l : list (bytes * float64)) : option float64 :=
  match l with
  | [] => None
  | p :: l' => if bool_decide (p.1 = name) then Some p.2 else zscore name l'
  end.

(** A member gets the score [x]; an equal score stays as it is. *)
Definition zput (name : bytes) (x : float64) (l : list (bytes * float64)) : list (bytes * float64) :=
  match zscore name l with
  | Some old => if feq x old then l else zins (name, x) (zdel name l)
  | None => zins (name, x) l
  end.

Lemma zscore_None name (l : list (bytes * float64)) : zscore name l = None <-> name ∉ l.*1.
Proof.
  induction l as [|p l IH]; cbn; [split; [intros _; apply not_elem_of_nil|done]|]. rewrite not_elem_of_cons.
  case_bool_decide as H; [subst; naive_solver|]. rewrite IH. split; [intros; split; congruence|tauto].
Qed.

Lemma zscore_Some name s (l : list (bytes * float64)) : zscore name l = Some s -> (name, s) ∈ l.
Proof.
  induction l as [|[n t] l IH]; cbn; [done|]. case_bool_decide as H; [intros [= ->]; subst; by left|]. right. by apply IH.
Qed.

Lemma zscore_in name s (l : list (bytes * float64)) : NoDup l.*1 -> (name, s) ∈ l -> zscore name l = Some s.
Proof.
  induction l as [|[n t] l IH]; cbn; [by intros _ ?%elem_of_nil|]. intros [Hn Hd]%NoDup_cons [[= -> ->]|Hin]%elem_of_cons.
  - by rewrite bool_decide_true.
  - rewrite bool_decide_false; [by apply IH|]. intros ->. apply Hn. by apply (list_elem_of_fmap_2' fst _ (name, s)).
Qed.

Lemma rep_score b l name : rep b l ->
  match dict b !! name with
  | Some id => exists s, zscore name l = Some s /\ entry b id = Some (single (name, s))
  | None => zscore name l = None
  end.
Proof.
  intros Hr. pose proof (rep_dict _ _ Hr name) as H. destruct (dict b !! name) as [id|].
  - destruct H as (s & Hin & He). exists s. split; [|done]. apply zscore_in; [apply Hr|done].
  - by apply zscore_None.
Qed.

Lemma rep_with_object b l o : rep b l -> rep (with_object b o) l.
Proof.
  intros Hr. pose proof (rep_wf _ _ Hr) as Hw. apply rep_intro; try apply Hr.
  - by apply WF_with_object.
  - eapply Forall2_impl; [exact (rep_list b l Hr)|]. intros i p Hi. by apply entry_with_object.
  - intros name id Hd. pose proof (rep_dict _ _ Hr name) as H. cbn in Hd. rewrite Hd in H.
    destruct H as (s & Hin & He). exists s. split; [done|]. by apply entry_with_object.
  - intros name Hd. pose proof (rep_dict _ _ Hr name) as H. cbn in Hd. by rewrite Hd in H.
Qed.

Lemma zdel_names name (l : list (bytes * float64)) : name ∉ (zdel name l).*1.
Proof.
  unfold zdel. intros (p & -> & Hp)%list_elem_of_fmap. apply list_elem_of_filter in Hp as [Hp _]. done.
Qed.

Lemma zdel_absent name (l : list (bytes * float64)) : name ∉ l.*1 -> zdel name l = l.
Proof.
  unfold zdel. induction l as [|p l IH]; [done|]. rewrite fmap_cons. intros [Hne Hni]%not_elem_of_cons.
  rewrite filter_cons_True by congruence. by rewrite IH.
Qed.
