(* ===== verification/Db.v ===== *)
(** * Db: the database and its time-to-live bookkeeping (src/memdb/db.go)

    [World] is [MemDb] together with what its goroutines and the clock add to
    the state of the process: the channels closed so far, the timer goroutines
    started by [SetTTL], the clock (nanoseconds) and the counter of map
    iterations. A command reads the clock as one value: the model lets no time
    pass inside a command.

    A stored value is kept in its cell of [db]; the pointer a handler gets from
    [db.Get] is the cell, and [store_object] is a write through it. No two
    cells share an object: every [db.Set] stores a fresh one. *)

From S2P Require Import BTree StreamStruct Prelude Strconv Resp Util ConcurrentMap Locks ListStruct HashStruct SetStruct.

Inductive Value : Type :=
| VBytes (s : slice)
| VList (l : ListStruct.List)
| VSet (s : gset bytes)
| VHash (h : gmap bytes slice)
| VZSet (z : BTree.Btree)
| VStream (s : StreamStruct.Stream).

Record TTLInfo : Type := mkTTL { value : Z; cancel : nat }.

(** A goroutine of SetTTL that waits for its timer or its cancel channel. *)
Record Timer : Type := mkTimer { t_chan : nat; t_key : bytes; t_at : Z }.

Record World : Type := mkWorld {
  db : ConcurrentMap Value;
  ttlKeys : ConcurrentMap TTLInfo;
  locks : list RWMutex;
  closed : gset nat;
  next_chan : nat;
  timers : list Timer;
  clock : Z;
  ranges : nat
}.

Definition db_l : lens World (ConcurrentMap Value) :=
  mkLens db (fun x w => mkWorld x (ttlKeys w) (locks w) (closed w) (next_chan w) (timers w) (clock w) (ranges w)).
Definition ttl_l : lens World (ConcurrentMap TTLInfo) :=
  mkLens ttlKeys (fun x w => mkWorld (db w) x (locks w) (closed w) (next_chan w) (timers w) (clock w) (ranges w)).
Definition locks_l : lens World (list RWMutex) :=
  mkLens locks (fun x w => mkWorld (db w) (ttlKeys w) x (closed w) (next_chan w) (timers w) (clock w) (ranges w)).

(** [NewMemDb] for a configured shard number, at time [now]. *)
Definition NewMemDb (shardNum now : Z) : outcome World :=
  match NewLocks (i64 (shardNum * 2)) with
  | Ret l => Ret (mkWorld (NewConcurrentMap shardNum) (NewConcurrentMap shardNum) l ∅ 0 [] now 0)
  | Panic => Panic
  | Block => Block
  end.

(** A command's handler: the arguments to the reply, [None] for a nil reply. *)
Abbreviation Handler := (list slice -> M World (option RedisData)).

(* ===================================================================== *)
(** ** Primitive steps                                                   *)
(* ===================================================================== *)

Definition db_Get (k : bytes) : M World (option Value) := zoom db_l (ConcurrentMap.Get k).
Definition db_Set (k : bytes) (v : Value) : M World Z := zoom db_l (ConcurrentMap.Set_ k v).
Definition db_SetIfNotExist (k : bytes) (v : Value) : M World Z := zoom db_l (ConcurrentMap.SetIfNotExist k v).
Definition db_Delete (k : bytes) : M World Z := zoom db_l (ConcurrentMap.Delete k).
Definition ttl_Get (k : bytes) : M World (option TTLInfo) := zoom ttl_l (ConcurrentMap.Get k).
Definition ttl_Set (k : bytes) (v : TTLInfo) : M World Z := zoom ttl_l (ConcurrentMap.Set_ k v).
Definition ttl_Delete (k : bytes) : M World Z := zoom ttl_l (ConcurrentMap.Delete k).

(** A write through the pointer stored under [k]. *)
Definition store_object (k : bytes) (v : Value) : M World unit :=
  zoom db_l (ConcurrentMap.SetIfExist k v) ;; mret tt.

(** [time.Now().Unix()] and [time.Now().UnixMilli()]. *)
Definition unix : M World Z := gets (fun w => clock w / 10 ^ 9).
Definition unix_milli : M World Z := gets (fun w => clock w / 10 ^ 6).

Definition next_range : M World nat := fun w =>
  Ret (ranges w, mkWorld (db w) (ttlKeys w) (locks w) (closed w) (next_chan w) (timers w) (clock w) (S (ranges w))).

(** Skip over the [n] orders a loop has used. *)
Definition skip_ranges (n : nat) : M World unit :=
  modify (fun w => mkWorld (db w) (ttlKeys w) (locks w) (closed w) (next_chan w) (timers w) (clock w) (n + ranges w)).

Definition make_chan : M World nat := fun w =>
  Ret (next_chan w, mkWorld (db w) (ttlKeys w) (locks w) (closed w) (S (next_chan w)) (timers w) (clock w) (ranges w)).

(** [close(c)] panics on a closed channel. *)
Definition close_chan (c : nat) : M World unit := fun w =>
  if bool_decide (c ∈ closed w) then Panic
  else Ret (tt, mkWorld (db w) (ttlKeys w) (locks w) ({[c]} ∪ closed w) (next_chan w) (timers w) (clock w) (ranges w)).

(** [go func() { select { case <-time.After(d): ...; case <-cancel: ... } }]. *)
Definition start_timer (c : nat) (k : bytes) (d : Z) : M World unit :=
  modify (fun w => mkWorld (db w) (ttlKeys w) (locks w) (closed w) (next_chan w)
                     (mkTimer c k (clock w + Z.max 0 d) :: timers w) (clock w) (ranges w)).

Definition Lock_ (k : bytes) : M World unit := zoom locks_l (Locks.Lock k).
Definition UnLock_ (k : bytes) : M World unit := zoom locks_l (Locks.UnLock k).

(** [m.locks.Lock(key); defer m.locks.UnLock(key)] around a body, and the
    other pairs. A panic ends the process, so only returns unlock. *)
Definition around {A} (lock unlock : M (list RWMutex) unit) (body : M World A) : M World A :=
  zoom locks_l lock ;; r ← body; zoom locks_l unlock ;; mret r.

Definition with_lock {A} (k : bytes) : M World A -> M World A := around (Locks.Lock k) (Locks.UnLock k).
Definition with_rlock {A} (k : bytes) : M World A -> M World A := around (Locks.RLock k) (Locks.RUnLock k).
Definition with_locks {A} (ks : list bytes) : M World A -> M World A :=
  around (Locks.LockMulti ks) (Locks.UnLockMulti ks).
Definition with_rlocks {A} (ks : list bytes) : M World A -> M World A :=
  around (Locks.RLockMulti ks) (Locks.RUnLockMulti ks).

(* ===================================================================== *)
(** ** MemDb's methods                                                   *)
(* ===================================================================== *)

(** [m.db.Delete(key); m.ttlKeys.Delete(key)]. *)
Definition purge (k : bytes) : M World Z :=
  n ← db_Delete k; ttl_Delete k ;; mret n.

Definition CheckTTL (k : bytes) : M World bool :=
  ttl ← ttl_Get k;
  match ttl with
  | None => mret true
  | Some ttlTime =>
      now ← unix;
      if now <? value ttlTime then mret true
      else with_lock k (purge k ;; mret false)
  end.

Definition Second : Z := 10 ^ 9.

Definition SetTTL (k : bytes) (val : Z) : M World Z :=
  v ← db_Get k;
  match v with
  | None => mret 0
  | Some _ =>
      c ← make_chan;
      old ← ttl_Get k;
      match old with
      | Some ttlInfo => close_chan (cancel ttlInfo) ;; ttl_Delete k ;; mret tt
      | None => mret tt
      end ;;
      ttl_Set k (mkTTL val c) ;;
      now ← unix;
      start_timer c k (i64 (i64 (val - now) * Second)) ;;
      mret 1
  end.

Definition DelTTL (k : bytes) : M World Z :=
  ttl ← ttl_Get k;
  match ttl with
  | None => mret 0
  | Some ttl => close_chan (cancel ttl) ;; ttl_Delete k
  end.

(** [m.db.Delete(key); m.DelTTL(key)], what commands do with a value they have
    emptied. *)
Definition dropKey (k : bytes) : M World unit := db_Delete k ;; DelTTL k ;; mret tt.

(** A timer goroutine whose time has come runs CheckTTL and ends. *)
Definition fire (i : nat) : M World unit := fun w =>
  match timers w !! i with
  | Some t =>
      if t_at t <=? clock w then
        (CheckTTL (t_key t) ;; mret tt)
          (mkWorld (db w) (ttlKeys w) (locks w) (closed w) (next_chan w)
             (delete i (timers w)) (clock w) (ranges w))
      else Ret (tt, w)
  | None => Ret (tt, w)
  end.

(** A goroutine that sees its cancel channel closed ends. *)
Definition cancelled (i : nat) : M World unit := fun w =>
  match timers w !! i with
  | Some t =>
      if bool_decide (t_chan t ∈ closed w) then
        Ret (tt, mkWorld (db w) (ttlKeys w) (locks w) (closed w) (next_chan w)
                   (delete i (timers w)) (clock w) (ranges w))
      else Ret (tt, w)
  | None => Ret (tt, w)
  end.

(** Time passes. *)
Definition tick (d : Z) : M World unit :=
  modify (fun w => mkWorld (db w) (ttlKeys w) (locks w) (closed w) (next_chan w) (timers w) (clock w + Z.max 0 d) (ranges w)).

(* ===================================================================== *)
(** ** Helpers of the handlers                                           *)
(* ===================================================================== *)

(** [cmd[i]]. *)
Definition arg (cmd : list slice) (i : nat) : M World slice := or_panic (cmd !! i).

Definition err (s : bytes) : option RedisData := Some (MakeErrorData [s]).
Definition wrongtype : option RedisData :=
  err (bs "WRONGTYPE Operation against a key holding the wrong kind of value").
Definition int (z : Z) : option RedisData := Some (MakeIntData z).
Definition bulk (s : slice) : option RedisData := Some (MakeBulkData s).
Definition nil_bulk : option RedisData := bulk NilSlice.
Definition simple (s : bytes) : option RedisData := Some (MakeStringData s).
Definition array (l : list RedisData) : option RedisData := Some (MakeArrayData l).
Definition empty_array : option RedisData := Some MakeEmptyArrayData.

(* ===================================================================== *)
(** ** The abstract contents and the invariant                           *)
(* ===================================================================== *)

Definition kv (w : World) : gmap bytes Value := to_map (db w).
Definition ttls (w : World) : gmap bytes TTLInfo := to_map (ttlKeys w).

(** A stored object is well formed: the links of a list are consistent, the
    nodes of a sorted set are in the order of their scores, the times of a
    stream never decrease. *)
Definition val_ok (v : Value) : Prop :=
  match v with
  | VList l => linked l
  | VZSet z => BTree.WF z
  | VStream s => stream_ok s
  | VBytes _ | VSet _ | VHash _ => True
  end.

(** Deadlines (seconds) for which the duration of the timer cannot overflow. *)
Definition max_deadline : Z := MaxInt64 / Second.

Record Inv (w : World) : Prop := mkInv {
  inv_db : WF (db w);
  inv_ttl : WF (ttlKeys w);
  (* only existing keys have a time to live *)
  inv_sub : dom (ttls w) ⊆ dom (kv w);
  (* cancel channels are open, allocated and not shared *)
  inv_open : forall k i, ttls w !! k = Some i -> (cancel i ∉ closed w) /\ (cancel i < next_chan w)%nat;
  inv_inj : forall k k' i i', ttls w !! k = Some i -> ttls w !! k' = Some i' ->
    cancel i = cancel i' -> k = k';
  inv_closed : forall c, c ∈ closed w -> (c < next_chan w)%nat;
  (* a goroutine waits for every deadline, and wakes up no earlier *)
  inv_timer : forall k i, ttls w !! k = Some i -> 0 <= value i <= max_deadline ->
    exists t, t ∈ timers w /\ t_chan t = cancel i /\ t_key t = k /\ value i * Second <= t_at t;
  inv_clock : 0 <= clock w <= MaxInt64;
  inv_vals : forall k v, kv w !! k = Some v -> val_ok v
}.

(** What code that only goes through the database's methods keeps: the
    invariant, the locks and the clock. *)
Definition keeps (w : World) {A} (_ : A) (w' : World) : Prop :=
  Inv w' /\ locks w' = locks w /\ clock w' = clock w.

(** [pres m]: from any state, locked or not. [safe m]: from a state in which no
    lock is held, as at the start of a command; the locks [m] takes are
    released. Both exclude blocking, and allow a panic. *)
Definition pres {A} (m : M World A) : Prop := forall w, Inv w -> wp true m (keeps w) w.
Definition safe {A} (m : M World A) : Prop :=
  forall w, Inv w -> all_free (locks w) -> wp true m (keeps w) w.

Create HintDb pres.

Lemma keeps_refl w {A} (a : A) : Inv w -> keeps w a w.
Proof. done. Qed.

Lemma keeps_trans w w1 {A B} (a : A) w2 (b : B) : keeps w a w1 -> keeps w1 b w2 -> keeps w b w2.
Proof. intros (_ & H1 & H2) (H3 & H4 & H5). split; [done|]. split; congruence. Qed.

Lemma pres_ret {A} (a : A) : pres (mret a).
Proof. intros w Hw. by apply wp_ret. Qed.

Lemma pres_bind {A B} (m : M World A) (k : A -> M World B) :
  pres m -> (forall a, pres (k a)) -> pres (m ≫= k).
Proof.
  intros Hm Hk w Hw. apply wp_bind. eapply wp_mono; [|by apply Hm]. intros a w1 H1.
  eapply wp_mono; [|apply Hk, H1]. intros b w2 H2. by eapply keeps_trans.
Qed.

Lemma safe_ret {A} (a : A) : safe (mret a).
Proof. intros w Hw _. by apply wp_ret. Qed.

Lemma safe_bind {A B} (m : M World A) (k : A -> M World B) :
  safe m -> (forall a, safe (k a)) -> safe (m ≫= k).
Proof.
  intros Hm Hk w Hw Hl. apply wp_bind. eapply wp_mono; [|by apply Hm]. intros a w1 H1.
  eapply wp_mono; [|apply Hk; [apply H1|by rewrite (proj1 (proj2 H1))]].
  intros b w2 H2. by eapply keeps_trans.
Qed.

Lemma safe_pres {A} (m : M World A) : pres m -> safe m.
Proof. intros Hm w Hw _. by apply Hm. Qed.

Lemma pres_or_panic {A} (o : option A) : pres (or_panic o).
Proof. intros w Hw. by apply wp_or_panic. Qed.

Lemma pres_panic {A} : pres (@panic World A).
Proof. by intros w Hw. Qed.

Lemma pres_arg cmd i : pres (arg cmd i).
Proof. apply pres_or_panic. Qed.

Lemma pres_gets {A} (f : World -> A) : pres (gets f).
Proof. intros w Hw. by apply wp_gets. Qed.

Lemma pres_unix : pres unix.
Proof. apply pres_gets. Qed.

Lemma pres_lift {A} (o : outcome A) : o <> Block -> pres (lift o).
Proof. intros Ho w Hw. by apply wp_lift. Qed.

Lemma pres_bind_lift {A B} (o : outcome A) (f : A -> M World B) :
  o <> Block -> (forall a, o = Ret a -> pres (f a)) -> pres (lift o ≫= f).
Proof. intros Ho Hf w Hw. apply wp_bind, wp_lift; [|done|done]. intros a E. by apply Hf. Qed.

Lemma safe_bind_lift {A B} (o : outcome A) (f : A -> M World B) :
  o <> Block -> (forall a, o = Ret a -> safe (f a)) -> safe (lift o ≫= f).
Proof. intros Ho Hf w Hw Hl. apply wp_bind, wp_lift; [|done|done]. intros a E. by apply Hf. Qed.

Lemma pres_foldM {A B} (f : B -> A -> M World B) l acc :
  (forall acc x, pres (f acc x)) -> pres (foldM f acc l).
Proof.
  intros Hf. revert acc. induction l as [|x l IH]; intros acc; cbn; [apply pres_ret|].
  apply pres_bind; [apply Hf|]. intros acc'. apply IH.
Qed.

Lemma safe_foldM {A B} (f : B -> A -> M World B) l acc :
  (forall acc x, safe (f acc x)) -> safe (foldM f acc l).
Proof.
  intros Hf. revert acc. induction l as [|x l IH]; intros acc; cbn; [apply safe_ret|].
  apply safe_bind; [apply Hf|]. intros acc'. apply IH.
Qed.

Lemma pres_next_range : pres next_range.
Proof. intros w [H1 H2 H3 H4 H5 H6 H7 H8 H9]. by split. Qed.

Lemma pres_skip_ranges n : pres (skip_ranges n).
Proof. intros w [H1 H2 H3 H4 H5 H6 H7 H8 H9]. by split. Qed.

(** Locks around code that leaves them alone. *)
Lemma safe_around {A} lock unlock (body : M World A) :
  (forall l, all_free l -> balanced lock unlock l) -> pres body -> safe (around lock unlock body).
Proof.
  intros Hbal Hb w Hw Hl. destruct (Hbal _ Hl) as (l' & E1 & E2).
  unfold around. apply wp_bind, wp_zoom. unfold wp at 1. cbn [view locks_l]. rewrite E1.
  apply wp_bind. eapply wp_mono; [|apply Hb]; cbn [put locks_l].
  2:{ destruct Hw as [H1 H2 H3 H4 H5 H6 H7 H8 H9]. by split. }
  intros a w1 (H1 & H2 & H3). apply wp_bind, wp_zoom. unfold wp at 1. cbn [view locks_l] in *.
  rewrite H2. cbn [locks]. rewrite E2. apply wp_ret. split; [|done].
  destruct H1 as [G1 G2 G3 G4 G5 G6 G7 G8 G9]. by split.
Qed.

Lemma safe_with_lock {A} k (body : M World A) : pres body -> safe (with_lock k body).
Proof. apply safe_around. intros. by apply balanced_Lock. Qed.

Lemma safe_with_rlock {A} k (body : M World A) : pres body -> safe (with_rlock k body).
Proof. apply safe_around. intros. by apply balanced_RLock. Qed.

Lemma safe_with_locks {A} ks (body : M World A) : pres body -> safe (with_locks ks body).
Proof. apply safe_around. intros. by apply balanced_LockMulti. Qed.

Lemma safe_with_rlocks {A} ks (body : M World A) : pres body -> safe (with_rlocks ks body).
Proof. apply safe_around. intros. by apply balanced_RLockMulti. Qed.

(* ===================================================================== *)
(** ** Rules for the primitive steps                                     *)
(* ===================================================================== *)

Section rules.
Context (pn : bool).

Lemma wp_db_Get k w (Q : option Value -> World -> Prop) :
  WF (db w) -> Q (kv w !! k) w -> wp pn (db_Get k) Q w.
Proof. intros HW HQ. apply wp_zoom, wp_Get; [done|]. by destruct w. Qed.

Lemma wp_db_Set k v w (Q : Z -> World -> Prop) :
  WF (db w) ->
  (forall d, WF d -> to_map d = <[k := v]> (kv w) ->
     Q (if kv w !! k is Some _ then 0 else 1) (put db_l d w)) ->
  wp pn (db_Set k v) Q w.
Proof. intros HW HQ. apply wp_zoom. by apply wp_map_Set. Qed.

Lemma wp_db_Delete k w (Q : Z -> World -> Prop) :
  WF (db w) ->
  (forall d, WF d -> to_map d = delete k (kv w) ->
     Q (if kv w !! k is Some _ then 1 else 0) (put db_l d w)) ->
  wp pn (db_Delete k) Q w.
Proof. intros HW HQ. apply wp_zoom. by apply wp_Delete. Qed.

Lemma wp_db_SetIfNotExist k v w (Q : Z -> World -> Prop) :
  WF (db w) ->
  (forall d, kv w !! k = None -> WF d -> to_map d = <[k := v]> (kv w) -> Q 1 (put db_l d w)) ->
  (is_Some (kv w !! k) -> Q 0 w) ->
  wp pn (db_SetIfNotExist k v) Q w.
Proof.
  intros HW H1 H0. apply wp_zoom, wp_SetIfNotExist; [done| |].
  - intros d. apply H1.
  - intros v' E. cbn. destruct w. apply H0. cbn in *. eauto.
Qed.

Lemma wp_store_object k v w (Q : unit -> World -> Prop) :
  WF (db w) ->
  (forall d, is_Some (kv w !! k) -> WF d -> to_map d = <[k := v]> (kv w) -> Q tt (put db_l d w)) ->
  (kv w !! k = None -> Q tt w) ->
  wp pn (store_object k v) Q w.
Proof.
  intros HW H1 H0. apply wp_bind, wp_zoom, wp_SetIfExist; [done| |].
  - intros d v' E. intros. apply wp_ret, H1; [by eexists|done..].
  - intros E. apply wp_ret. destruct w. by apply H0.
Qed.

Lemma wp_ttl_Get k w (Q : option TTLInfo -> World -> Prop) :
  WF (ttlKeys w) -> Q (ttls w !! k) w -> wp pn (ttl_Get k) Q w.
Proof. intros HW HQ. apply wp_zoom, wp_Get; [done|]. by destruct w. Qed.

Lemma wp_ttl_Set k v w (Q : Z -> World -> Prop) :
  WF (ttlKeys w) ->
  (forall d, WF d -> to_map d = <[k := v]> (ttls w) ->
     Q (if ttls w !! k is Some _ then 0 else 1) (put ttl_l d w)) ->
  wp pn (ttl_Set k v) Q w.
Proof. intros HW HQ. apply wp_zoom. by apply wp_map_Set. Qed.

Lemma wp_ttl_Delete k w (Q : Z -> World -> Prop) :
  WF (ttlKeys w) ->
  (forall d, WF d -> to_map d = delete k (ttls w) ->
     Q (if ttls w !! k is Some _ then 1 else 0) (put ttl_l d w)) ->
  wp pn (ttl_Delete k) Q w.
Proof. intros HW HQ. apply wp_zoom. by apply wp_Delete. Qed.

Lemma wp_close_chan c w (Q : unit -> World -> Prop) :
  c ∉ closed w ->
  Q tt (mkWorld (db w) (ttlKeys w) (locks w) ({[c]} ∪ closed w) (next_chan w) (timers w) (clock w) (ranges w)) ->
  wp pn (close_chan c) Q w.
Proof. intros Hc HQ. unfold wp, close_chan. by rewrite bool_decide_false. Qed.
End rules.

(* ===================================================================== *)
(** ** The database's methods keep the invariant                         *)
(* ===================================================================== *)

Lemma Inv_put_db w d :
  Inv w -> WF d -> dom (ttls w) ⊆ dom (to_map d) ->
  (forall k v, to_map d !! k = Some v -> val_ok v) -> Inv (put db_l d w).
Proof. intros [H1 H2 H3 H4 H5 H6 H7 H8 H9] HW Hs Hv. by split. Qed.

Lemma Inv_insert w d k v :
  Inv w -> WF d -> to_map d = <[k := v]> (kv w) -> val_ok v -> Inv (put db_l d w).
Proof.
  intros Hw HW E Hv. apply Inv_put_db; [done|done|rewrite E, dom_insert_L|rewrite E].
  - pose proof (inv_sub _ Hw). set_solver.
  - intros k' v' [(<- & <-)|[_ ?]]%lookup_insert_Some; [done|by eapply inv_vals].
Qed.

(** Removing a time to live, whether or not its channel was closed. *)
Lemma Inv_ttl_remove w d t k X :
  Inv w -> WF d -> WF t -> to_map t = delete k (ttls w) ->
  (to_map d = kv w \/ to_map d = delete k (kv w)) ->
  (X = closed w \/ exists i, ttls w !! k = Some i /\ X = {[cancel i]} ∪ closed w) ->
  Inv (mkWorld d t (locks w) X (next_chan w) (timers w) (clock w) (ranges w)).
Proof.
  intros [H1 H2 H3 H4 H5 H6 H7 H8 H9] HWd HWt Et Ed HX.
  assert (Hl : forall k' i, to_map t !! k' = Some i -> k' <> k /\ ttls w !! k' = Some i).
  { intros k' i. rewrite Et. intros [? ?]%lookup_delete_Some. done. }
  split; unfold kv, ttls in *; cbn [db ttlKeys locks closed next_chan timers clock]; try done.
  - rewrite Et, dom_delete_L. destruct Ed as [->| ->]; rewrite ?dom_delete_L; set_solver.
  - intros k' i [Hne Hi]%Hl. destruct (H4 _ _ Hi) as [Hc Hlt]. split; [|done].
    destruct HX as [->|(j & Hj & ->)]; [done|]. rewrite not_elem_of_union, not_elem_of_singleton.
    split; [|done]. intros E. apply Hne. by eapply H5.
  - intros k1 k2 i1 i2 [_ Hi1]%Hl [_ Hi2]%Hl. by eapply H5.
  - intros c. destruct HX as [->|(j & Hj & ->)]; [apply H6|].
    intros [->%elem_of_singleton|Hc]%elem_of_union; [by apply (H4 _ _ Hj)|by apply H6].
  - intros k' i [_ Hi]%Hl. by apply H7.
  - intros k' v. destruct Ed as [->| ->]; [apply H9|]. intros [_ ?]%lookup_delete_Some. by eapply H9.
Qed.

Lemma pres_db_Get k : pres (db_Get k).
Proof. intros w Hw. apply wp_db_Get; [apply Hw|]. by apply keeps_refl. Qed.

Lemma pres_ttl_Get k : pres (ttl_Get k).
Proof. intros w Hw. apply wp_ttl_Get; [apply Hw|]. by apply keeps_refl. Qed.

Lemma pres_db_Set k v : val_ok v -> pres (db_Set k v).
Proof.
  intros Hv w Hw. apply wp_db_Set; [apply Hw|]. intros d HW E. split; [|done]. by eapply Inv_insert.
Qed.

Lemma pres_db_SetIfNotExist k v : val_ok v -> pres (db_SetIfNotExist k v).
Proof.
  intros Hv w Hw. apply wp_db_SetIfNotExist; [apply Hw| |].
  - intros d _ HW E. split; [|done]. by eapply Inv_insert.
  - intros _. by apply keeps_refl.
Qed.

Lemma pres_store_object k v : val_ok v -> pres (store_object k v).
Proof.
  intros Hv w Hw. apply wp_store_object; [apply Hw| |].
  - intros d _ HW E. split; [|done]. by eapply Inv_insert.
  - intros _. by apply keeps_refl.
Qed.

(** The functional behaviour of [purge]. *)
Lemma wp_purge (pn : bool) k w (Q : Z -> World -> Prop) :
  Inv w ->
  (forall w', keeps w tt w' -> kv w' = delete k (kv w) -> ttls w' = delete k (ttls w) ->
     timers w' = timers w -> Q (if kv w !! k is Some _ then 1 else 0) w') ->
  wp pn (purge k) Q w.
Proof.
  intros Hw HQ. apply wp_bind, wp_db_Delete; [apply Hw|]. intros d HW E.
  apply wp_bind, wp_ttl_Delete; [apply Hw|]. intros t HWt Et. apply wp_ret. apply HQ; try done.
  split; [|done]. cbn. eapply Inv_ttl_remove; eauto.
Qed.

Lemma pres_purge k : pres (purge k).
Proof. intros w Hw. apply wp_purge; [done|]. intros w' H _ _ _. exact H. Qed.

Lemma wp_DelTTL (pn : bool) k w (Q : Z -> World -> Prop) :
  Inv w ->
  (forall w', keeps w tt w' -> kv w' = kv w -> ttls w' = delete k (ttls w) ->
     Q (if ttls w !! k is Some _ then 1 else 0) w') ->
  wp pn (DelTTL k) Q w.
Proof.
  intros Hw HQ. apply wp_bind, wp_ttl_Get; [apply Hw|].
  destruct (ttls w !! k) as [i|] eqn:Ei.
  - apply wp_bind, wp_close_chan; [by apply (inv_open _ Hw _ _ Ei)|].
    apply wp_ttl_Delete; [apply Hw|]. intros t HWt Et.
    match goal with |- context [ttls ?w1 !! k] => change (ttls w1) with (ttls w) end. rewrite Ei.
    apply HQ; try done. split; [|done]. cbn. eapply Inv_ttl_remove; eauto. apply Hw.
  - apply wp_ret, HQ; [by apply keeps_refl|done|]. by rewrite delete_id.
Qed.

Lemma pres_DelTTL k : pres (DelTTL k).
Proof. intros w Hw. apply wp_DelTTL; [done|]. intros w' H _ _. exact H. Qed.

(** [dropKey] also repairs a cell [k] whose value is no longer well formed. *)
Lemma wp_dropKey_any (pn : bool) k d0 w (Q : unit -> World -> Prop) :
  Inv w -> WF d0 -> delete k (to_map d0) = delete k (kv w) ->
  (forall w', keeps w tt w' -> kv w' = delete k (kv w) -> ttls w' = delete k (ttls w) -> Q tt w') ->
  wp pn (dropKey k) Q (put db_l d0 w).
Proof.
  intros Hw H0 E0 HQ. apply wp_bind, wp_db_Delete; [done|]. intros d HW E.
  change (kv (put db_l d0 w)) with (to_map d0) in E. rewrite E0 in E.
  change (put db_l d (put db_l d0 w)) with (put db_l d w).
  apply wp_bind, wp_bind, wp_ttl_Get; [apply Hw|]. change (ttls (put db_l d w)) with (ttls w).
  destruct (ttls w !! k) as [i|] eqn:Ei.
  - apply wp_bind, wp_close_chan; [by apply (inv_open _ Hw _ _ Ei)|].
    apply wp_ttl_Delete; [apply Hw|]. intros t HWt Et. change (ttls _) with (ttls w) in Et.
    apply wp_ret, HQ; try done. split; [|done]. cbn. eapply Inv_ttl_remove; eauto.
  - apply wp_ret, wp_ret, HQ; [|done|by rewrite delete_id].
    split; [|done]. apply Inv_put_db; [done|done| |].
    + rewrite E, dom_delete_L. pose proof (inv_sub _ Hw). apply not_elem_of_dom in Ei. set_solver.
    + rewrite E. intros k' v' [_ ?]%lookup_delete_Some. by eapply inv_vals.
Qed.

Lemma wp_dropKey (pn : bool) k w (Q : unit -> World -> Prop) :
  Inv w ->
  (forall w', keeps w tt w' -> kv w' = delete k (kv w) -> ttls w' = delete k (ttls w) -> Q tt w') ->
  wp pn (dropKey k) Q w.
Proof.
  intros Hw HQ. replace w with (put db_l (db w) w) by (by destruct w).
  apply wp_dropKey_any; [done|apply Hw|done..].
Qed.

Lemma pres_dropKey k : pres (dropKey k).
Proof. intros w Hw. apply wp_dropKey; [done|]. intros w' H _ _. exact H. Qed.

Lemma deadline_bound now val clk :
  0 <= clk <= MaxInt64 -> now = clk / 10 ^ 9 -> 0 <= val <= max_deadline ->
  val * Second <= clk + Z.max 0 (i64 (i64 (val - now) * Second)).
Proof.
  intros Hc -> Hv. unfold max_deadline, Second in *.
  pose proof (Z.div_mod clk (10 ^ 9) ltac:(lia)) as Hd.
  pose proof (Z.mod_pos_bound clk (10 ^ 9) ltac:(lia)) as Hm.
  assert (Hn : 0 <= clk / 10 ^ 9 <= MaxInt64 / 10 ^ 9).
  { split; [apply Z.div_pos; lia|apply Z.div_le_mono; lia]. }
  change (MaxInt64 / 10 ^ 9) with 9223372036 in *.
  rewrite (i64_id (val - clk / 10 ^ 9)) by (unfold in_i64, MinInt64, MaxInt64; lia).
  rewrite i64_id by (unfold in_i64, MinInt64, MaxInt64; lia). lia.
Qed.

(** A new time to live on channel [c], after the old one is gone. *)
Lemma Inv_ttl_new w t k val c X tm :
  Inv w -> WF t -> is_Some (kv w !! k) -> c = next_chan w ->
  to_map t = <[k := mkTTL val c]> (ttls w) ->
  (X = closed w \/ exists i, ttls w !! k = Some i /\ X = {[cancel i]} ∪ closed w) ->
  tm = mkTimer c k (clock w + Z.max 0 (i64 (i64 (val - clock w / 10 ^ 9) * Second))) ->
  Inv (mkWorld (db w) t (locks w) X (S (next_chan w)) (tm :: timers w) (clock w) (ranges w)).
Proof.
  intros [H1 H2 H3 H4 H5 H6 H7 H8 H9] HWt Hk -> Et HX ->.
  assert (Hl : forall k' i, to_map t !! k' = Some i ->
    (k' = k /\ i = mkTTL val (next_chan w)) \/ (k' <> k /\ ttls w !! k' = Some i)).
  { intros k' i. rewrite Et. intros [[? ?]|[? ?]]%lookup_insert_Some; naive_solver. }
  assert (HX' : forall c, c ∈ X -> (c < next_chan w)%nat).
  { intros c. destruct HX as [->|(j & Hj & ->)]; [apply H6|].
    intros [->%elem_of_singleton|Hc]%elem_of_union; [by apply (H4 _ _ Hj)|by apply H6]. }
  split; unfold kv, ttls in *; cbn [db ttlKeys locks closed next_chan timers clock]; try done.
  - rewrite Et, dom_insert_L. apply elem_of_dom in Hk. set_solver.
  - intros k' i [[-> ->]|[Hne Hi]]%Hl; cbn.
    + split; [|lia]. intros Hc. apply HX' in Hc. lia.
    + destruct (H4 _ _ Hi) as [Hc Hlt]. split; [|lia].
      destruct HX as [->|(j & Hj & ->)]; [done|]. rewrite not_elem_of_union, not_elem_of_singleton.
      split; [|done]. intros E. apply Hne. by eapply H5.
  - intros k1 k2 i1 i2 [[-> ->]|[Hn1 Hi1]]%Hl [[-> ->]|[Hn2 Hi2]]%Hl; cbn; intros E; [done| | |by eapply H5].
    + destruct (H4 _ _ Hi2). lia.
    + destruct (H4 _ _ Hi1). lia.
  - intros c Hc. apply HX' in Hc. lia.
  - intros k' i [[-> ->]|[Hne Hi]]%Hl Hv; cbn in *.
    + eexists. split; [left|]. cbn. repeat split; try done. by apply deadline_bound.
    + destruct (H7 _ _ Hi Hv) as (tm & Htm & ?). exists tm. split; [by right|done].
Qed.

Lemma wp_SetTTL (pn : bool) k val w (Q : Z -> World -> Prop) :
  Inv w ->
  (kv w !! k = None -> Q 0 w) ->
  (forall w', keeps w tt w' -> kv w' = kv w -> is_Some (kv w !! k) ->
     ttls w' = <[k := mkTTL val (next_chan w)]> (ttls w) -> Q 1 w') ->
  wp pn (SetTTL k val) Q w.
Proof.
  intros Hw H0 H1. apply wp_bind, wp_db_Get; [apply Hw|].
  destruct (kv w !! k) as [v|] eqn:Ek; [|apply wp_ret; auto].
  apply wp_bind. unfold wp at 1, make_chan. cbn. apply wp_bind, wp_ttl_Get; [apply Hw|].
  change (ttls _) with (ttls w). apply wp_bind.
  destruct (ttls w !! k) as [i|] eqn:Ei.
  - apply wp_bind, wp_close_chan; [by apply (inv_open _ Hw _ _ Ei)|].
    apply wp_bind, wp_ttl_Delete; [apply Hw|]. intros t HWt Et. change (ttls _) with (ttls w) in Et.
    apply wp_ret, wp_bind, wp_ttl_Set; [done|]. intros t2 HWt2 Et2. cbn [put ttl_l] in *.
    change (ttls _) with (to_map t) in Et2. rewrite Et, insert_delete_eq in Et2.
    apply wp_bind, wp_gets, wp_bind, wp_modify, wp_ret. apply H1; try done.
    split; [|done]. cbn. eapply Inv_ttl_new; eauto.
  - apply wp_ret, wp_bind, wp_ttl_Set; [apply Hw|]. intros t HWt Et. change (ttls _) with (ttls w) in Et.
    apply wp_bind, wp_gets, wp_bind, wp_modify, wp_ret. apply H1; try done.
    split; [|done]. cbn. eapply Inv_ttl_new; eauto.
Qed.

Lemma pres_SetTTL k val : pres (SetTTL k val).
Proof. intros w Hw. apply wp_SetTTL; [done|by intros _|]. intros w' H _ _ _. exact H. Qed.

(** Has the time to live of [k] run out? *)
Definition expired (w : World) (k : bytes) : Prop :=
  exists i, ttls w !! k = Some i /\ value i <= clock w / 10 ^ 9.

#[export] Instance expired_dec w k : Decision (expired w k).
Proof.
  destruct (ttls w !! k) as [i|] eqn:E; [destruct (decide (value i <= clock w / 10 ^ 9))|].
  - left. by exists i.
  - right. intros (j & Hj & ?). rewrite E in Hj. by injection Hj as <-.
  - right. intros (j & Hj & ?). congruence.
Defined.

(** Code run with the lock of [k], in terms of the state without it. *)
Lemma wp_around (pn : bool) {A} lock unlock (body : M World A) w (Q : A -> World -> Prop) :
  balanced lock unlock (locks w) -> Inv w ->
  (forall l', let w1 := put locks_l l' w in Inv w1 -> kv w1 = kv w -> ttls w1 = ttls w ->
     wp pn body (fun a w2 => locks w2 = l' /\ Q a (put locks_l (locks w) w2)) w1) ->
  wp pn (around lock unlock body) Q w.
Proof.
  intros (l' & E1 & E2) Hw HQ. unfold around. apply wp_bind, wp_zoom. unfold wp at 1.
  cbn [view locks_l]. rewrite E1. apply wp_bind. eapply wp_mono; [|apply (HQ l'); [|done|done]].
  - intros a w2 [Hl Hq]. apply wp_bind, wp_zoom. unfold wp at 1. cbn [view locks_l]. rewrite Hl, E2.
    by apply wp_ret.
  - destruct Hw as [H1 H2 H3 H4 H5 H6 H7 H8 H9]. by split.
Qed.

Lemma Inv_put_locks w l : Inv w -> Inv (put locks_l l w).
Proof. intros [H1 H2 H3 H4 H5 H6 H7 H8 H9]. by split. Qed.

Lemma wp_CheckTTL (pn : bool) k w (Q : bool -> World -> Prop) :
  Inv w -> all_free (locks w) ->
  (~ expired w k -> Q true w) ->
  (forall w', expired w k -> keeps w tt w' -> kv w' = delete k (kv w) -> ttls w' = delete k (ttls w) ->
     timers w' = timers w -> Q false w') ->
  wp pn (CheckTTL k) Q w.
Proof.
  intros Hw Hl H1 H0. apply wp_bind, wp_ttl_Get; [apply Hw|].
  destruct (ttls w !! k) as [i|] eqn:Ei.
  2:{ apply wp_ret, H1. intros (j & Hj & _). congruence. }
  apply wp_bind, wp_gets. destruct (_ <? value i) eqn:E; [apply Z.ltb_lt in E|apply Z.ltb_ge in E].
  { apply wp_ret, H1. intros (j & Hj & ?). simplify_eq. lia. }
  apply wp_around; [by apply balanced_Lock|done|]. cbv zeta. intros l' Hw1 Ek Et.
  apply wp_bind, wp_purge; [done|]. intros w' (G1 & G2 & G3) G4 G5 G6. apply wp_ret. split; [by rewrite G2|].
  apply H0; [by exists i| |by rewrite <- Ek|by rewrite <- Et|done].
  split; [by apply Inv_put_locks|]. by cbn.
Qed.

Lemma safe_CheckTTL k : safe (CheckTTL k).
Proof.
  intros w Hw Hl. apply wp_CheckTTL; [done|done|intros _; by apply keeps_refl|].
  intros w' _ H _ _ _. exact H.
Qed.

(* ===================================================================== *)
(** ** Rules in terms of the abstract contents                           *)
(* ===================================================================== *)

Section contents.
Context (pn : bool).

Lemma wp_Set_kv k v w (Q : Z -> World -> Prop) :
  Inv w -> val_ok v ->
  (forall w', keeps w tt w' -> kv w' = <[k := v]> (kv w) -> ttls w' = ttls w ->
     Q (if kv w !! k is Some _ then 0 else 1) w') ->
  wp pn (db_Set k v) Q w.
Proof.
  intros Hw Hv HQ. apply wp_db_Set; [apply Hw|]. intros d HW E. apply HQ; try done.
  split; [|done]. by eapply Inv_insert.
Qed.

Lemma wp_SetIfNotExist_kv k v w (Q : Z -> World -> Prop) :
  Inv w -> val_ok v ->
  (forall w', keeps w tt w' -> kv w !! k = None -> kv w' = <[k := v]> (kv w) -> ttls w' = ttls w -> Q 1 w') ->
  (is_Some (kv w !! k) -> Q 0 w) ->
  wp pn (db_SetIfNotExist k v) Q w.
Proof.
  intros Hw Hv H1 H0. apply wp_db_SetIfNotExist; [apply Hw| |done]. intros d Hk HW E. apply H1; try done.
  split; [|done]. by eapply Inv_insert.
Qed.

Lemma wp_store_kv k v w (Q : unit -> World -> Prop) :
  Inv w -> val_ok v -> is_Some (kv w !! k) ->
  (forall w', keeps w tt w' -> kv w' = <[k := v]> (kv w) -> ttls w' = ttls w -> Q tt w') ->
  wp pn (store_object k v) Q w.
Proof.
  intros Hw Hv Hk HQ. apply wp_store_object; [apply Hw| |].
  - intros d _ HW E. apply HQ; try done. split; [|done]. by eapply Inv_insert.
  - intros E. rewrite E in Hk. by destruct Hk.
Qed.

(** Code under a lock: the body runs on the same contents. *)
Lemma wp_around_kv {A} lock unlock (body : M World A) w (Q : A -> World -> Prop) :
  balanced lock unlock (locks w) -> Inv w ->
  (forall w1, Inv w1 -> kv w1 = kv w -> ttls w1 = ttls w -> clock w1 = clock w -> next_chan w1 = next_chan w ->
     wp pn body (fun a w2 => keeps w1 a w2 /\
       forall w3, keeps w a w3 -> kv w3 = kv w2 -> ttls w3 = ttls w2 -> Q a w3) w1) ->
  wp pn (around lock unlock body) Q w.
Proof.
  intros Hb Hw HQ. apply wp_around; [done|done|]. cbv zeta. intros l' Hw1 Ek Et.
  eapply wp_mono; [|by apply HQ]. intros a w2 [(G1 & G2 & G3) Hq]. split; [by rewrite G2|].
  apply Hq; try done. split; [by apply Inv_put_locks|]. by cbn.
Qed.

Lemma wp_with_lock {A} k (body : M World A) w (Q : A -> World -> Prop) :
  Inv w -> all_free (locks w) ->
  (forall w1, Inv w1 -> kv w1 = kv w -> ttls w1 = ttls w -> clock w1 = clock w -> next_chan w1 = next_chan w ->
     wp pn body (fun a w2 => keeps w1 a w2 /\
       forall w3, keeps w a w3 -> kv w3 = kv w2 -> ttls w3 = ttls w2 -> Q a w3) w1) ->
  wp pn (with_lock k body) Q w.
Proof. intros Hw Hl HQ. apply wp_around_kv; [by apply balanced_Lock|done|done]. Qed.

Lemma wp_with_rlock {A} k (body : M World A) w (Q : A -> World -> Prop) :
  Inv w -> all_free (locks w) ->
  (forall w1, Inv w1 -> kv w1 = kv w -> ttls w1 = ttls w -> clock w1 = clock w -> next_chan w1 = next_chan w ->
     wp pn body (fun a w2 => keeps w1 a w2 /\
       forall w3, keeps w a w3 -> kv w3 = kv w2 -> ttls w3 = ttls w2 -> Q a w3) w1) ->
  wp pn (with_rlock k body) Q w.
Proof. intros Hw Hl HQ. apply wp_around_kv; [by apply balanced_RLock|done|done]. Qed.

Lemma wp_with_locks {A} ks (body : M World A) w (Q : A -> World -> Prop) :
  Inv w -> all_free (locks w) ->
  (forall w1, Inv w1 -> kv w1 = kv w -> ttls w1 = ttls w -> clock w1 = clock w -> next_chan w1 = next_chan w ->
     wp pn body (fun a w2 => keeps w1 a w2 /\
       forall w3, keeps w a w3 -> kv w3 = kv w2 -> ttls w3 = ttls w2 -> Q a w3) w1) ->
  wp pn (with_locks ks body) Q w.
Proof. intros Hw Hl HQ. apply wp_around_kv; [by apply balanced_LockMulti|done|done]. Qed.

Lemma wp_arg cmd i a w (Q : slice -> World -> Prop) :
  cmd !! i = Some a -> Q a w -> wp pn (arg cmd i) Q w.
Proof. intros E HQ. unfold arg. by rewrite E. Qed.

Lemma wp_unix w (Q : Z -> World -> Prop) : Q (clock w / 10 ^ 9) w -> wp pn unix Q w.
Proof. done. Qed.
End contents.

Lemma keeps_Inv w {A} (a : A) w' : keeps w a w' -> Inv w'.
Proof. by intros [? _]. Qed.

Lemma keeps_free w {A} (a : A) w' : keeps w a w' -> all_free (locks w) -> all_free (locks w').
Proof. intros (_ & H & _). by rewrite H. Qed.

Lemma keeps_any w {A B} (a : A) (b : B) w' : keeps w a w' -> keeps w b w'.
Proof. done. Qed.

(* ===================================================================== *)
(** ** Timers                                                            *)
(* ===================================================================== *)

Definition set_timers (ts : list Timer) (w : World) : World :=
  mkWorld (db w) (ttlKeys w) (locks w) (closed w) (next_chan w) ts (clock w) (ranges w).

(** Code that neither reads nor writes the waiting goroutines. *)
Definition timeless {A} (m : M World A) : Prop := forall ts w,
  m (set_timers ts w) =
  match m w with Ret (a, w') => Ret (a, set_timers ts w') | Panic => Panic | Block => Block end.

Lemma timeless_ret {A} (a : A) : timeless (mret a).
Proof. done. Qed.

Lemma timeless_bind {A B} (m : M World A) (k : A -> M World B) :
  timeless m -> (forall a, timeless (k a)) -> timeless (m ≫= k).
Proof.
  intros Hm Hk ts w. unfold mbind, M_bind. rewrite Hm. destruct (m w) as [[a w1]| |]; [|done..]. apply Hk.
Qed.

Lemma timeless_gets {A} (f : World -> A) : (forall ts w, f (set_timers ts w) = f w) -> timeless (gets f).
Proof. intros Hf ts w. unfold gets. by rewrite Hf. Qed.

Lemma timeless_zoom {T A} (L : lens World T) (m : M T A) :
  (forall ts w, view L (set_timers ts w) = view L w) ->
  (forall ts w t, put L t (set_timers ts w) = set_timers ts (put L t w)) -> timeless (zoom L m).
Proof.
  intros Hv Hp ts w. unfold zoom. rewrite Hv. destruct (m (view L w)) as [[a t]| |]; [|done..]. by rewrite Hp.
Qed.

Lemma CheckTTL_timeless k : timeless (CheckTTL k).
Proof.
  apply timeless_bind; [by apply timeless_zoom|]. intros [i|]; [|apply timeless_ret].
  apply timeless_bind; [by apply timeless_gets|]. intros now. case_match; [apply timeless_ret|].
  repeat first [apply timeless_ret | by apply timeless_zoom | apply timeless_bind; [|intros ?]].
Qed.

Lemma CheckTTL_total k w : Inv w -> all_free (locks w) ->
  exists b w', CheckTTL k w = Ret (b, w') /\ keeps w tt w' /\ timers w' = timers w /\
    kv w' = (if decide (expired w k) then delete k (kv w) else kv w) /\
    ttls w' = (if decide (expired w k) then delete k (ttls w) else ttls w) /\
    (b = bool_decide (~ expired w k)).
Proof.
  intros Hw Hl. apply (wp_run _ (fun b w' => keeps w tt w' /\ timers w' = timers w /\
    kv w' = (if decide (expired w k) then delete k (kv w) else kv w) /\
    ttls w' = (if decide (expired w k) then delete k (ttls w) else ttls w) /\
    (b = bool_decide (~ expired w k)))).
  apply wp_CheckTTL; [done|done| |].
  - intros He. rewrite !decide_False, bool_decide_true by done. by split.
  - intros w' He Hk H1 H2 H3. rewrite !decide_True, bool_decide_false by (done || by intros ?). done.
Qed.

Lemma due_expired w t i :
  Inv w -> ttls w !! t_key t = Some i -> value i * Second <= t_at t -> t_at t <= clock w ->
  expired w (t_key t).
Proof.
  intros Hw Hi H1 H2. exists i. split; [done|]. unfold Second in *.
  apply Z.div_le_lower_bound; lia.
Qed.

(** A timer that fires: the invariant stays, nothing blocks or panics, and the
    key is removed exactly if its time to live has run out. *)
Lemma fire_run j t w :
  Inv w -> all_free (locks w) -> timers w !! j = Some t -> t_at t <= clock w ->
  exists w', fire j w = Ret (tt, w') /\ keeps w tt w' /\
    kv w' = (if decide (expired w (t_key t)) then delete (t_key t) (kv w) else kv w) /\
    ttls w' = (if decide (expired w (t_key t)) then delete (t_key t) (ttls w) else ttls w).
Proof.
  intros Hw Hl Hj Hd. unfold fire. rewrite Hj. zb.
  destruct (CheckTTL_total (t_key t) w Hw Hl) as (b & w' & E & (Hw' & K1 & K2) & Ht & Hkv & Hts & _).
  exists (set_timers (delete j (timers w)) w'). unfold mbind, M_bind.
  fold (set_timers (delete j (timers w)) w). rewrite CheckTTL_timeless, E.
  split; [done|]. split; [|done]. split; [|done].
  destruct Hw' as [H1 H2 H3 H4 H5 H6 H7 H8 H9]. split; try done.
  intros k i Hi Hv. destruct (H7 k i Hi Hv) as (t' & Hin & Hc & Hk' & Hat).
  exists t'. split; [|done]. cbn [timers set_timers].
  assert (Hcase : t' = t \/ t' ∈ delete j (timers w)).
  { rewrite Ht in Hin. apply delete_Permutation in Hj. rewrite Hj in Hin.
    by apply elem_of_cons in Hin. }
  destruct Hcase as [->|Hcase]; [exfalso|done].
  assert (Hi2 : ttls w' !! t_key t = Some i) by (by rewrite Hk').
  destruct (decide (expired w (t_key t))) as [He|He].
  - rewrite Hts, lookup_delete_eq in Hi2. done.
  - rewrite Hts in Hi2. apply He. by eapply due_expired.
Qed.

Lemma cancelled_run j w : Inv w -> exists w', cancelled j w = Ret (tt, w') /\ keeps w tt w' /\
  kv w' = kv w /\ ttls w' = ttls w.
Proof.
  intros Hw. unfold cancelled. destruct (timers w !! j) as [t|] eqn:Hj; [|by exists w].
  case_bool_decide as Hc; [|by exists w]. eexists. split; [done|]. split; [|done]. split; [|done].
  destruct Hw as [H1 H2 H3 H4 H5 H6 H7 H8 H9]. split; try done.
  intros k i Hi Hv. destruct (H7 k i Hi Hv) as (t' & Hin & Hct & Hk' & Hat).
  exists t'. split; [|done]. cbn. apply delete_Permutation in Hj. rewrite Hj in Hin.
  apply elem_of_cons in Hin as [->|Hin]; [|done]. destruct (H4 _ _ Hi) as [Hn _]. by rewrite Hct in Hc.
Qed.

Lemma tick_run d w : Inv w -> clock w + Z.max 0 d <= MaxInt64 ->
  exists w', tick d w = Ret (tt, w') /\ Inv w' /\ locks w' = locks w /\
    kv w' = kv w /\ ttls w' = ttls w /\ timers w' = timers w /\ clock w' = clock w + Z.max 0 d.
Proof.
  intros [H1 H2 H3 H4 H5 H6 H7 H8 H9] Hc. eexists. split; [done|]. split; [|done]. split; try done. cbn. lia.
Qed.


(* ===================================================================== *)
(** ** The initial state                                                 *)
(* ===================================================================== *)

Lemma NewMemDb_Inv n now : 0 < n < 2 ^ 62 -> 0 <= now <= MaxInt64 ->
  exists w, NewMemDb n now = Ret w /\ Inv w /\ all_free (locks w) /\ kv w = ∅ /\ ttls w = ∅ /\ clock w = now.
Proof.
  intros Hn Hnow. unfold NewMemDb, NewLocks.
  rewrite i64_id by (unfold in_i64, MinInt64, MaxInt64; lia). zb. eexists. split; [done|].
  destruct (WF_New (V := Value) n) as [W1 E1], (WF_New (V := TTLInfo) n) as [W2 E2].
  split; [|split; [|split; [exact E1|split; [exact E2|done]]]].
  - split; unfold kv, ttls; cbn [db ttlKeys locks closed next_chan timers clock]; try done.
    + rewrite E1, E2. set_solver.
    + rewrite E2. by intros k i ?%lookup_empty_Some.
    + rewrite E2. by intros k k' i i' ?%lookup_empty_Some.
    + rewrite E2. by intros k i ?%lookup_empty_Some.
    + rewrite E1. by intros k v ?%lookup_empty_Some.
  - cbn. split; [|by apply Forall_replicate].
    intros E%(f_equal length). rewrite length_replicate in E. cbn in E. lia.
Qed.

(** The state after code that keeps the invariant, computed. *)
Definition after {A} (m : M World A) (w : World) : World :=
  match m w with Ret (_, w') => w' | _ => w end.

Definition boot (n now : Z) : World :=
  match NewMemDb n now with
  | Ret w => w
  | _ => mkWorld (NewConcurrentMap 1) (NewConcurrentMap 1) [mu_free] ∅ 0 [] now 0
  end.

Lemma boot_Inv n now : 0 < n < 2 ^ 62 -> 0 <= now <= MaxInt64 ->
  Inv (boot n now) /\ all_free (locks (boot n now)).
Proof.
  intros H1 H2. destruct (NewMemDb_Inv n now H1 H2) as (w & E & Hw & Hl & _).
  unfold boot. by rewrite E.
Qed.

Lemma after_safe {A} (m : M World A) w : safe m -> Inv w -> all_free (locks w) ->
  Inv (after m w) /\ all_free (locks (after m w)).
Proof.
  intros Hm Hw Hl. pose proof (Hm w Hw Hl) as H. unfold wp, after in *.
  destruct (m w) as [[a w']| |]; [|done..]. destruct H as (H1 & H2 & _). by rewrite H2.
Qed.

(** One string key with a deadline, at time 0. *)
Definition demo_ttl : World :=
  after (db_Set (bs "k") (VBytes (Slice (bs "v") [])) ;; SetTTL (bs "k") 5) (boot 4 0).

Lemma demo_ttl_Inv : Inv demo_ttl /\ all_free (locks demo_ttl).
Proof.
  apply after_safe; [|apply boot_Inv; [lia|unfold MaxInt64; lia]..].
  apply safe_pres, pres_bind; [by apply pres_db_Set|]. intros _. apply pres_SetTTL.
Qed.


(* ===================================================================== *)
(** ** Automation                                                        *)
(* ===================================================================== *)

(** A value read from the database is well formed. *)
Lemma pres_bind_Get {B} k (f : option Value -> M World B) :
  (forall v, (forall x, v = Some x -> val_ok x) -> pres (f v)) -> pres (db_Get k ≫= f).
Proof.
  intros Hf w Hw. apply wp_bind, wp_db_Get; [apply Hw|]. apply Hf; [|done].
  intros x Hx. by eapply inv_vals.
Qed.

#[export] Hint Resolve pres_ret pres_panic pres_or_panic pres_arg pres_gets pres_unix pres_next_range
  pres_skip_ranges pres_db_Get pres_ttl_Get pres_purge pres_DelTTL pres_dropKey pres_SetTTL : pres.
#[export] Hint Resolve pres_db_Set pres_db_SetIfNotExist pres_store_object : pres.
#[export] Hint Extern 1 (val_ok _) => (exact I || (naive_solver)) : pres.

Ltac pres_step :=
  lazymatch goal with
  | |- pres (mbind _ (db_Get _)) => apply pres_bind_Get; intros ? ?
  | |- pres (mbind _ _) => apply pres_bind; [|intros ?]
  | |- pres (let _ := _ in _) => cbv zeta
  | |- pres (foldM _ _ _) => apply pres_foldM; intros ? ?
  | |- pres (forM _ _) => apply pres_foldM; intros ? ?
  | |- pres (match ?x with _ => _ end) => destruct x eqn:?; try subst
  | |- pres _ => solve [auto with pres]
  end.

Ltac solve_pres := repeat pres_step.

Ltac safe_step :=
  lazymatch goal with
  | |- safe (mbind _ _) => apply safe_bind; [|intros ?]
  | |- safe (let _ := _ in _) => cbv zeta
  | |- safe (foldM _ _ _) => apply safe_foldM; intros ? ?
  | |- safe (CheckTTL _) => apply safe_CheckTTL
  | |- safe (with_lock _ _) => apply safe_with_lock; solve_pres
  | |- safe (with_rlock _ _) => apply safe_with_rlock; solve_pres
  | |- safe (with_locks _ _) => apply safe_with_locks; solve_pres
  | |- safe (with_rlocks _ _) => apply safe_with_rlocks; solve_pres
  | |- safe (match ?x with _ => _ end) => destruct x eqn:?; try subst
  | |- safe _ => apply safe_pres; solve_pres
  end.

Ltac solve_safe := repeat safe_step.
