(* ===== verification/Keys.v ===== *)
(** * Keys: the generic key commands (src/memdb/keys.go)

    One definition per handler. [around]'s body is the code between the lock
    and its deferred unlock. *)

From S2P Require Import Prelude Strconv Resp Util ConcurrentMap Locks ListStruct HashStruct SetStruct Db.

Section keys.
Context {rt : GoRuntime}.

(** [strings.ToLower(string(cmd[0])) != name]. *)
Definition name_is_not (cmd : list slice) (name : bytes) : M World bool :=
  c ← arg cmd 0; mret (negb (beq (ToLower (str c)) name)).

Definition delKey (cmd : list slice) : M World (option RedisData) :=
  bad ← name_is_not cmd (bs "del");
  if bad : bool then mret (err (bs "Protocol error: cmdName is not del"))
  else
    k1 ← arg cmd 1;
    alive ← CheckTTL (str k1);
    if negb alive then mret (int 0)
    else
      dKey ← foldM (fun d key => with_lock (str key) (n ← purge (str key); mret (d + n))) 0 (drop 1 cmd);
      mret (int dKey).

Definition existsKey (cmd : list slice) : M World (option RedisData) :=
  bad ← name_is_not cmd (bs "exists");
  if bad || (zlen cmd <? 2) then mret (err (bs "Protocol error: cmdName is not exists"))
  else
    eKey ← foldM (fun e keyByte =>
      let key := str keyByte in
      alive ← CheckTTL key;
      if alive : bool then
        with_rlock key (v ← db_Get key; mret (match v with Some _ => e + 1 | None => e end))
      else mret e) 0 (drop 1 cmd);
    mret (int eKey).

(** [m.db.Keys()]: one iteration per shard. *)
Definition db_Keys : M World (list bytes) :=
  n ← gets ranges;
  ks ← zoom db_l (ConcurrentMap.Keys n);
  shards ← gets (fun w => length (table (db w)));
  skip_ranges shards ;;
  mret ks.

Definition keysKey (cmd : list slice) : M World (option RedisData) :=
  bad ← name_is_not cmd (bs "keys");
  if bad || negb (zlen cmd =? 2) then
    c0 ← arg cmd 0; c1 ← arg cmd 1;
    mret (err (bs "error: keys function get invalid command " ++ str c0 ++ bs " " ++ str c1))
  else
    allKeys ← db_Keys;
    pattern ← arg cmd 1;
    res ← foldM (fun res key =>
      alive ← CheckTTL key;
      if alive : bool then
        m ← lift (PattenMatch (str pattern) key);
        mret (if m : bool then res ++ [MakeBulkData (of_string key)] else res)
      else mret res) [] allKeys;
    mret (array res).

Definition expireKey (cmd : list slice) : M World (option RedisData) :=
  bad ← name_is_not cmd (bs "expire");
  if bad || (zlen cmd <? 3) || (4 <? zlen cmd) then
    mret (err (bs "error: cmdName is not expire or command args number is invalid"))
  else
    c2 ← arg cmd 2;
    match ParseInt (str c2) with
    | None => mret (err (bs "error: " ++ str c2 ++ bs " is not int"))
    | Some v =>
        now ← unix;
        let ttl := i64 (now + v) in
        opt ← (if zlen cmd =? 4 then c3 ← arg cmd 3; mret (ToLower (str c3)) else mret []);
        c1 ← arg cmd 1;
        let key := str c1 in
        alive ← CheckTTL key;
        if negb alive then mret (int 0)
        else with_lock key (
          if beq opt (bs "nx") then
            old ← ttl_Get key;
            match old with
            | None => res ← SetTTL key ttl; mret (int res)
            | Some _ => mret (int 0)
            end
          else if beq opt (bs "xx") then
            old ← ttl_Get key;
            match old with
            | Some _ => res ← SetTTL key ttl; mret (int res)
            | None => mret (int 0)
            end
          else if beq opt (bs "gt") then
            old ← ttl_Get key;
            match old with
            | Some i => if value i <? ttl then res ← SetTTL key ttl; mret (int res) else mret (int 0)
            | None => mret (int 0)
            end
          else if beq opt (bs "lt") then
            old ← ttl_Get key;
            match old with
            | Some i => if ttl <? value i then res ← SetTTL key ttl; mret (int res) else mret (int 0)
            | None => mret (int 0)
            end
          else if negb (beq opt []) then
            mret (err (bs "ERR Unsupported option " ++ opt ++ bs ", except nx, xx, gt, lt"))
          else res ← SetTTL key ttl; mret (int res))
    end.

Definition persistKey (cmd : list slice) : M World (option RedisData) :=
  bad ← name_is_not cmd (bs "persist");
  if bad || negb (zlen cmd =? 2) then
    mret (err (bs "error: cmdName is not persist or command args number is invalid"))
  else
    c1 ← arg cmd 1;
    let key := str c1 in
    alive ← CheckTTL key;
    if negb alive then mret (int 0)
    else with_lock key (res ← DelTTL key; mret (int res)).

Definition ttlKey (cmd : list slice) : M World (option RedisData) :=
  bad ← name_is_not cmd (bs "ttl");
  if bad || negb (zlen cmd =? 2) then
    mret (err (bs "error: cmdName is not ttl or command args number is invalid"))
  else
    c1 ← arg cmd 1;
    let key := str c1 in
    alive ← CheckTTL key;
    if negb alive then mret (int (-2))
    else with_rlock key (
      v ← db_Get key;
      match v with
      | None => mret (int (-2))
      | Some _ =>
          now ← unix;
          ttl ← ttl_Get key;
          match ttl with
          | None => mret (int (-1))
          | Some i => mret (int (i64 (value i - now)))
          end
      end).

Definition typeKey (cmd : list slice) : M World (option RedisData) :=
  bad ← name_is_not cmd (bs "type");
  if bad || negb (zlen cmd =? 2) then
    mret (err (bs "error: cmdName is not type or command args number is invalid"))
  else
    c1 ← arg cmd 1;
    let key := str c1 in
    alive ← CheckTTL key;
    if negb alive then mret (bulk (of_string (bs "none")))
    else with_rlock key (
      v ← db_Get key;
      match v with
      | None => mret (simple (bs "none"))
      | Some (VBytes _) => mret (simple (bs "string"))
      | Some (VList _) => mret (simple (bs "list"))
      | Some (VSet _) => mret (simple (bs "set"))
      | Some (VHash _) => mret (simple (bs "hash"))
      | Some _ => mret (err (bs "unknown error: server error"))
      end).

Definition renameKey (cmd : list slice) : M World (option RedisData) :=
  bad ← name_is_not cmd (bs "rename");
  if bad || negb (zlen cmd =? 3) then
    mret (err (bs "error: cmdName is not rename or command args number is invalid"))
  else
    c1 ← arg cmd 1; c2 ← arg cmd 2;
    let oldName := str c1 in let newName := str c2 in
    let missing := err (bs "error: " ++ oldName ++ bs " not exist") in
    alive ← CheckTTL oldName;
    if negb alive then mret missing
    else with_locks [oldName; newName] (
      oldValue ← db_Get oldName;
      match oldValue with
      | None => mret missing
      | Some v =>
          purge oldName ;; purge newName ;; db_Set newName v ;;
          mret (simple (bs "OK"))
      end).

Definition pingKeys (cmd : list slice) : M World (option RedisData) :=
  if 2 <? zlen cmd then mret (err (bs "error: wrong number of arguments for 'ping' command"))
  else if zlen cmd =? 1 then mret (simple (bs "PONG"))
  else c1 ← arg cmd 1; mret (bulk c1).

Definition RegisterKeyCommands : list (bytes * Handler) :=
  [(bs "ping", pingKeys); (bs "del", delKey); (bs "exists", existsKey); (bs "keys", keysKey);
   (bs "expire", expireKey); (bs "persist", persistKey); (bs "ttl", ttlKey); (bs "type", typeKey);
   (bs "rename", renameKey)].
End keys.

(* ===================================================================== *)
(** ** Every handler keeps the invariant and releases its locks          *)
(* ===================================================================== *)

Section safety.
Context {rt : GoRuntime}.

Lemma pres_name_is_not cmd name : pres (name_is_not cmd name).
Proof. unfold name_is_not. solve_pres. Qed.

Lemma pres_db_Keys : pres db_Keys.
Proof.
  unfold db_Keys. apply pres_bind; [auto with pres|]. intros n. apply pres_bind; [|intros; solve_pres].
  intros w Hw. apply wp_zoom. unfold ConcurrentMap.Keys. apply wp_bind, wp_get. cbv zeta.
  destruct (_ || _); [done|]. apply wp_ret. by destruct w.
Qed.

Lemma pres_PattenMatch pat src : pres (lift (PattenMatch pat src)).
Proof. apply pres_lift, PattenMatch_no_block. Qed.
End safety.

#[export] Hint Resolve pres_name_is_not pres_db_Keys pres_PattenMatch : pres.

Lemma keys_safe {rt : GoRuntime} name h cmd : (name, h) ∈ RegisterKeyCommands -> safe (h cmd).
Proof.
  unfold RegisterKeyCommands. rewrite !elem_of_cons, elem_of_nil.
  intros H. repeat destruct H as [[= -> ->]|H]; [..|done];
    unfold pingKeys, delKey, existsKey, keysKey, expireKey, persistKey, ttlKey, typeKey, renameKey;
    solve_safe.
Qed.

(* ===================================================================== *)
(** ** What the commands do                                              *)
(* ===================================================================== *)

Section behaviour.
Context {rt : GoRuntime}.

Lemma wp_name (pn : bool) c cmd name w (Q : bool -> World -> Prop) :
  ToLower (str c) = name -> Q false w -> wp pn (name_is_not (c :: cmd) name) Q w.
Proof.
  intros Hc HQ. unfold name_is_not. apply wp_bind. eapply wp_arg; [done|]. apply wp_ret.
  by rewrite Hc, beq_refl.
Qed.

(** DEL's loop: each key is purged once. *)
Lemma wp_del_loop (pn : bool) ks d w (Q : Z -> World -> Prop) :
  Inv w -> all_free (locks w) ->
  (forall w', keeps w tt w' ->
     kv w' = filter (fun '(k, _) => k ∉ map str ks) (kv w) ->
     ttls w' = filter (fun '(k, _) => k ∉ map str ks) (ttls w) ->
     Q (d + Z.of_nat (base.size (dom (kv w) ∩ list_to_set (map str ks)))) w') ->
  wp pn (foldM (fun d key => with_lock (str key) (n ← purge (str key); mret (d + n))) d ks) Q w.
Proof.
  revert d w Q. induction ks as [|key ks IH]; intros d w Q Hw Hl HQ; cbn [foldM].
  { apply wp_ret. assert (E : forall {A} (m : gmap bytes A), filter (fun '(k, _) => k ∉ map str []) m = m).
    { intros A m. apply map_filter_id. intros. cbn. apply not_elem_of_nil. }
    replace d with (d + Z.of_nat (base.size (dom (kv w) ∩ list_to_set (map str []))))
      by (cbn; rewrite (right_absorb_L ∅ (∩)), size_empty; lia).
    apply HQ; [done|by rewrite E..]. }
  apply wp_bind, wp_with_lock; [done|done|]. intros w1 Hw1 Ek Et Ec _.
  apply wp_bind, wp_purge; [done|]. intros w2 K2 Hk2 Ht2 _. apply wp_ret. split; [done|].
  intros w3 K3 Ek3 Et3. apply IH; [by eapply keeps_Inv|by eapply keeps_free|].
  intros w' K' Ek' Et'. rewrite Ek3, Hk2, Ek in Ek'. rewrite Et3, Ht2, Et in Et'.
  assert (Hflt : forall {A} (m : gmap bytes A), filter (fun '(k, _) => k ∉ map str ks) (delete (str key) m) =
                   filter (fun '(k, _) => k ∉ map str (key :: ks)) m).
  { intros A m. apply map_eq. intros k. apply option_eq. intros v.
    rewrite !map_lookup_filter_Some, lookup_delete_Some. cbn. rewrite not_elem_of_cons. naive_solver. }
  rewrite Ek3, Hk2, Ek. replace (d + _ + _) with
    (d + Z.of_nat (base.size (dom (kv w) ∩ list_to_set (map str (key :: ks))))).
  - apply HQ; [by eapply keeps_trans|by rewrite Ek', Hflt|by rewrite Et', Hflt].
  - rewrite <- Z.add_assoc. f_equal. cbn [map list_to_set foldr]. rewrite dom_delete_L.
    destruct (kv w !! str key) as [v|] eqn:E.
    + replace (dom (kv w) ∩ ({[str key]} ∪ list_to_set (map str ks)))
        with ({[str key]} ∪ (dom (kv w) ∖ {[str key]} ∩ list_to_set (map str ks))).
      * rewrite size_union, size_singleton by set_solver. lia.
      * apply elem_of_dom_2 in E. apply set_eq. intros k.
        destruct (decide (k = str key)) as [->|]; set_solver.
    + apply not_elem_of_dom in E. rewrite Z.add_0_l. f_equal. f_equal. set_solver.
Qed.
End behaviour.

Section theorems.
Context {rt : GoRuntime}.

(** DEL removes the named keys and their deadlines, leaves every other key
    alone, and replies with the number of distinct named keys that existed. *)
Theorem del_spec (w : World) (c k : slice) (ks : list slice)
  (Hw : Inv w) (Hl : all_free (locks w)) (Hc : ToLower (str c) = bs "del") (He : ~ expired w (str k)) :
  exists w', delKey (c :: k :: ks) w =
      Ret (int (Z.of_nat (base.size (dom (kv w) ∩ list_to_set (map str (k :: ks))))), w') /\
    keeps w tt w' /\
    kv w' = filter (fun '(x, _) => x ∉ map str (k :: ks)) (kv w) /\
    ttls w' = filter (fun '(x, _) => x ∉ map str (k :: ks)) (ttls w).
Proof.
  apply wp_returns.
  unfold delKey. apply wp_bind, wp_name; [done|]. apply wp_bind. eapply wp_arg; [done|].
  apply wp_bind, wp_CheckTTL; [done|done| |by intros].
  intros _. apply wp_bind. change (drop 1 (c :: k :: ks)) with (k :: ks). apply wp_del_loop; [done|done|].
  intros w' K E1 E2. apply wp_ret. rewrite Z.add_0_l. done.
Qed.

(** DEL looks at the deadline of its first key only, and if that key has
    expired it replies 0 and leaves the other named keys in place. *)
Theorem del_first_expired (w : World) (c k : slice) (ks : list slice)
  (Hw : Inv w) (Hl : all_free (locks w)) (Hc : ToLower (str c) = bs "del") (He : expired w (str k)) :
  exists w', delKey (c :: k :: ks) w = Ret (int 0, w') /\ keeps w tt w' /\
    kv w' = delete (str k) (kv w) /\ ttls w' = delete (str k) (ttls w).
Proof.
  apply wp_returns.
  unfold delKey. apply wp_bind, wp_name; [done|]. apply wp_bind. eapply wp_arg; [done|].
  apply wp_bind, wp_CheckTTL; [done|done|done|]. intros w' _ K E1 E2 _. by apply wp_ret.
Qed.

Lemma wp_expire (pn : bool) c k n z w (Q : option RedisData -> World -> Prop) :
  Inv w -> all_free (locks w) -> ToLower (str c) = bs "expire" -> ParseInt (str n) = Some z ->
  ~ expired w (str k) -> is_Some (kv w !! str k) ->
  (forall w', keeps w tt w' -> kv w' = kv w ->
     ttls w' = <[str k := mkTTL (i64 (clock w / 10 ^ 9 + z)) (next_chan w)]> (ttls w) -> Q (int 1) w') ->
  wp pn (expireKey [c; k; n]) Q w.
Proof.
  intros Hw Hl Hc Hn He Hk HQ. unfold expireKey. apply wp_bind, wp_name; [done|]. cbn [orb].
  change (zlen [c; k; n]) with 3. cbn [Z.ltb Z.compare Pos.compare Pos.compare_cont Z.eqb Pos.eqb].
  apply wp_bind. eapply wp_arg; [done|]. rewrite Hn. apply wp_bind, wp_unix. cbv zeta.
  apply wp_bind, wp_ret, wp_bind. eapply wp_arg; [done|].
  apply wp_bind, wp_CheckTTL; [done|done| |by intros]. intros _. cbn [negb].
  apply wp_with_lock; [done|done|]. intros w1 Hw1 Ek Et Ec En. change (beq [] (bs "nx")) with false.
  change (beq [] (bs "xx")) with false. change (beq [] (bs "gt")) with false.
  change (beq [] (bs "lt")) with false. change (negb (beq [] [])) with false.
  apply wp_bind, wp_SetTTL; [done|rewrite Ek; intros E; rewrite E in Hk; by destruct Hk|].
  intros w2 K2 Ek2 _ Et2. apply wp_ret. split; [done|]. intros w3 K3 Ek3 Et3.
  apply HQ; [done|congruence|]. by rewrite Et3, Et2, Et, En.
Qed.

Lemma wp_ttlKey (pn : bool) c k w (Q : option RedisData -> World -> Prop) :
  Inv w -> all_free (locks w) -> ToLower (str c) = bs "ttl" -> ~ expired w (str k) ->
  (forall w', keeps w tt w' -> kv w' = kv w -> ttls w' = ttls w ->
     Q (int (if kv w !! str k is Some _ then
               if ttls w !! str k is Some i then i64 (value i - clock w / 10 ^ 9) else -1
             else -2)) w') ->
  wp pn (ttlKey [c; k]) Q w.
Proof.
  intros Hw Hl Hc He HQ. unfold ttlKey. apply wp_bind, wp_name; [done|]. cbn [orb].
  change (zlen [c; k]) with 2. cbn [Z.eqb Pos.eqb negb].
  apply wp_bind. eapply wp_arg; [done|]. cbv zeta.
  apply wp_bind, wp_CheckTTL; [done|done| |by intros]. intros _. cbn [negb].
  apply wp_with_rlock; [done|done|]. intros w1 Hw1 Ek Et Ec En.
  apply wp_bind, wp_db_Get; [apply Hw1|]. rewrite Ek. revert HQ. destruct (kv w !! str k) as [v|]; intros HQ.
  - apply wp_bind, wp_unix, wp_bind, wp_ttl_Get; [apply Hw1|]. rewrite Et, Ec. revert HQ.
    destruct (ttls w !! str k) as [i|]; intros HQ; apply wp_ret; (split; [by apply keeps_refl|]);
      intros w3 K3 E1 E2; apply HQ; first [done|congruence].
  - apply wp_ret. split; [by apply keeps_refl|]. intros w3 K3 E1 E2. apply HQ; first [done|congruence].
Qed.

(** EXPIRE sets the deadline TTL reports. For an existing key, EXPIRE with
    [n] seconds replies 1, and TTL right after it replies [n]. *)
Theorem expire_ttl (w : World) (c k n c' : slice) (z : Z)
  (Hw : Inv w) (Hl : all_free (locks w)) (Hc : ToLower (str c) = bs "expire")
  (Hc' : ToLower (str c') = bs "ttl") (Hn : ParseInt (str n) = Some z) (Hz : 0 < z <= max_deadline)
  (He : ~ expired w (str k)) (Hk : is_Some (kv w !! str k)) :
  exists w1 w2, expireKey [c; k; n] w = Ret (int 1, w1) /\ ttlKey [c'; k] w1 = Ret (int z, w2) /\
    keeps w tt w2 /\ kv w2 = kv w.
Proof.
  assert (H1 : exists w1, expireKey [c; k; n] w = Ret (int 1, w1) /\ keeps w tt w1 /\ kv w1 = kv w /\
     ttls w1 = <[str k := mkTTL (i64 (clock w / 10 ^ 9 + z)) (next_chan w)]> (ttls w)).
  { apply wp_returns. by eapply wp_expire. }
  destruct H1 as (w1 & E1 & K1 & Ek1 & Et1).
  pose proof (inv_clock _ Hw) as Hcl. pose proof (proj2 (proj2 K1)) as Hcw.
  assert (Hnow : 0 <= clock w / 10 ^ 9 <= max_deadline).
  { unfold max_deadline, Second. split; [apply Z.div_pos; lia|apply Z.div_le_mono; lia]. }
  assert (Hmd : max_deadline = 9223372036) by reflexivity.
  rewrite i64_id in Et1 by (unfold in_i64, MinInt64, MaxInt64; lia).
  assert (He1 : ~ expired w1 (str k)).
  { intros (i & Hi & Hle). rewrite Et1, lookup_insert_eq in Hi. injection Hi as <-. cbn in Hle.
    rewrite Hcw in Hle. lia. }
  assert (H2 : exists w2, ttlKey [c'; k] w1 = Ret (int z, w2) /\ keeps w1 tt w2 /\ kv w2 = kv w1).
  { apply wp_returns. apply wp_ttlKey; [by eapply keeps_Inv|by eapply keeps_free|done|done|].
    rewrite Ek1, Et1, lookup_insert_eq. destruct Hk as [v ->]. cbn [value]. rewrite Hcw.
    rewrite i64_id by (unfold in_i64, MinInt64, MaxInt64; lia).
    intros w' K' E' _. split; [do 2 f_equal; lia|exact (conj K' E')]. }
  destruct H2 as (w2 & E2 & K2 & Ek2). exists w1, w2.
  split; [done|]. split; [done|]. split; [by eapply keeps_trans|congruence].
Qed.

(** RENAME moves the value, removes the old name, and drops the deadlines
    of both names. *)
Theorem rename_spec (w : World) (c k k' : slice) (v : Value)
  (Hw : Inv w) (Hl : all_free (locks w)) (Hc : ToLower (str c) = bs "rename")
  (He : ~ expired w (str k)) (Hk : kv w !! str k = Some v) :
  exists w', renameKey [c; k; k'] w = Ret (simple (bs "OK"), w') /\ keeps w tt w' /\
    kv w' = <[str k' := v]> (delete (str k) (kv w)) /\
    ttls w' = delete (str k') (delete (str k) (ttls w)).
Proof.
  apply wp_returns.
  unfold renameKey. apply wp_bind, wp_name; [done|]. cbn [orb]. change (zlen [c; k; k']) with 3. cbn [Z.eqb Pos.eqb negb].
  apply wp_bind. eapply wp_arg; [done|]. apply wp_bind. eapply wp_arg; [done|]. cbv zeta.
  apply wp_bind, wp_CheckTTL; [done|done| |by intros]. intros _. cbn [negb].
  apply wp_with_locks; [done|done|]. intros w1 Hw1 Ek Et Ec _.
  apply wp_bind, wp_db_Get; [apply Hw1|]. rewrite Ek, Hk.
  apply wp_bind, wp_purge; [done|]. intros w2 K2 Ek2 Et2 _.
  apply wp_bind, wp_purge; [by eapply keeps_Inv|]. intros w3 K3 Ek3 Et3 _.
  apply wp_bind, wp_Set_kv; [by eapply keeps_Inv|by eapply (inv_vals _ Hw)|]. intros w4 K4 Ek4 Et4.
  apply wp_ret. split; [eapply keeps_trans; [exact K2|]; by eapply keeps_trans|].
  intros w5 K5 Ek5 Et5. split; [done|]. split; [done|]. split; [|congruence].
  rewrite Ek5, Ek4, Ek3, Ek2, Ek. by rewrite insert_delete_eq.
Qed.
End theorems.

(* ===================================================================== *)
(** ** Witnesses                                                         *)
(* ===================================================================== *)

Definition word (s : string) : slice := Slice (bs s) [].

(** The demo database five seconds after the deadline of its key. *)
Definition demo_late : World := after (tick (10 * 10 ^ 9)) demo_ttl.

Lemma demo_late_Inv : Inv demo_late /\ all_free (locks demo_late).
Proof.
  destruct demo_ttl_Inv as [H1 H2]. destruct (tick_run (10 * 10 ^ 9) demo_ttl H1) as (w & E & Hw & Hl & _).
  { vm_compute. discriminate. }
  unfold demo_late, after. rewrite E. split; [done|]. by rewrite Hl.
Qed.

Lemma del_spec_witness :
  exists w', @delKey plain_runtime [word "DEL"; word "k"; word "x"; word "k"] demo_ttl =
      Ret (int (Z.of_nat (base.size (dom (kv demo_ttl) ∩ list_to_set (map str [word "k"; word "x"; word "k"])))), w') /\
    keeps demo_ttl tt w' /\
    kv w' = filter (fun '(x, _) => x ∉ map str [word "k"; word "x"; word "k"]) (kv demo_ttl) /\
    ttls w' = filter (fun '(x, _) => x ∉ map str [word "k"; word "x"; word "k"]) (ttls demo_ttl).
Proof.
  apply (@del_spec plain_runtime demo_ttl (word "DEL") (word "k") [word "x"; word "k"]).
  - apply demo_ttl_Inv.
  - apply demo_ttl_Inv.
  - reflexivity.
  - apply (bool_decide_unpack _). vm_compute. exact I.
Defined.

Lemma del_first_expired_witness :
  exists w', @delKey plain_runtime [word "del"; word "k"; word "x"] demo_late = Ret (int 0, w') /\
    keeps demo_late tt w' /\ kv w' = delete (bs "k") (kv demo_late) /\
    ttls w' = delete (bs "k") (ttls demo_late).
Proof.
  apply (@del_first_expired plain_runtime demo_late (word "del") (word "k") [word "x"]).
  - apply demo_late_Inv.
  - apply demo_late_Inv.
  - reflexivity.
  - apply (bool_decide_unpack _). vm_compute. exact I.
Defined.

Lemma expire_ttl_witness :
  exists w1 w2, @expireKey plain_runtime [word "expire"; word "k"; word "7"] demo_ttl = Ret (int 1, w1) /\
    @ttlKey plain_runtime [word "TTL"; word "k"] w1 = Ret (int 7, w2) /\ keeps demo_ttl tt w2 /\ kv w2 = kv demo_ttl.
Proof.
  apply (@expire_ttl plain_runtime demo_ttl (word "expire") (word "k") (word "7") (word "TTL") 7).
  - apply demo_ttl_Inv.
  - apply demo_ttl_Inv.
  - reflexivity.
  - reflexivity.
  - reflexivity.
  - vm_compute. split; [reflexivity|discriminate].
  - apply (bool_decide_unpack _). vm_compute. exact I.
  - apply (bool_decide_unpack _). vm_compute. exact I.
Defined.

Lemma rename_spec_witness :
  exists w', @renameKey plain_runtime [word "rename"; word "k"; word "n"] demo_ttl = Ret (simple (bs "OK"), w') /\
    keeps demo_ttl tt w' /\
    kv w' = <[bs "n" := VBytes (word "v")]> (delete (bs "k") (kv demo_ttl)) /\
    ttls w' = delete (bs "n") (delete (bs "k") (ttls demo_ttl)).
Proof.
  apply (@rename_spec plain_runtime demo_ttl (word "rename") (word "k") (word "n")).
  - apply demo_ttl_Inv.
  - apply demo_ttl_Inv.
  - reflexivity.
  - apply (bool_decide_unpack _). vm_compute. exact I.
  - vm_compute. reflexivity.
Defined.
