(* ===== verification/StringCmds.v ===== *)
(** * StringCmds: the string commands (src/memdb/string.go)

    One definition per handler. String values are byte slices with their spare
    capacity, because GETRANGE and SETRANGE reslice them. *)

From S2P Require Import Prelude Strconv Floats Resp Util ConcurrentMap Locks ListStruct HashStruct SetStruct Db Keys.

(** The option flags of SET. *)
Record set_opts : Type := mkOpts {
  nx : bool; xx : bool; get_ : bool; ex : bool; px : bool; keepttl : bool; exat : bool;
  exval : Z; exatval : Z; millisecPx : Z
}.

Definition no_opts : set_opts := mkOpts false false false false false false false 0 0 0.

Section strings.
Context {rt : GoRuntime}.

Definition invalid : option RedisData := err (bs "error: commands is invalid").
Definition server_error : option RedisData := err (bs "Server error").

(** The flag loop of SET over [cmd[3:]]: the options, or an error reply. PX
    reads its argument without checking that there is one. *)
Fixpoint parse_flags (args : list slice) (o : set_opts) : M World (set_opts + option RedisData) :=
  match args with
  | [] => mret (inl o)
  | a :: rest =>
      let f := ToLower (str a) in
      let notint := inr (err (bs "ERR value is not integer or out of range")) in
      if beq f (bs "nx") then
        parse_flags rest (mkOpts true (xx o) (get_ o) (ex o) (px o) (keepttl o) (exat o) (exval o) (exatval o) (millisecPx o))
      else if beq f (bs "xx") then
        parse_flags rest (mkOpts (nx o) true (get_ o) (ex o) (px o) (keepttl o) (exat o) (exval o) (exatval o) (millisecPx o))
      else if beq f (bs "get") then
        parse_flags rest (mkOpts (nx o) (xx o) true (ex o) (px o) (keepttl o) (exat o) (exval o) (exatval o) (millisecPx o))
      else if beq f (bs "keepttl") then
        parse_flags rest (mkOpts (nx o) (xx o) (get_ o) (ex o) (px o) true (exat o) (exval o) (exatval o) (millisecPx o))
      else if beq f (bs "exat") then
        match rest with
        | [] => mret (inr invalid)
        | v :: rest' =>
            match ParseInt (str v) with
            | None => mret notint
            | Some z => parse_flags rest' (mkOpts (nx o) (xx o) (get_ o) (ex o) (px o) (keepttl o) true (exval o) z (millisecPx o))
            end
        end
      else if beq f (bs "ex") then
        match rest with
        | [] => mret (inr invalid)
        | v :: rest' =>
            match ParseInt (str v) with
            | None => mret notint
            | Some z => parse_flags rest' (mkOpts (nx o) (xx o) (get_ o) true (px o) (keepttl o) (exat o) z (exatval o) (millisecPx o))
            end
        end
      else if beq f (bs "px") then
        match rest with
        | [] => panic
        | v :: rest' =>
            match ParseInt (str v) with
            | None => mret notint
            | Some z => parse_flags rest' (mkOpts (nx o) (xx o) (get_ o) (ex o) true (keepttl o) (exat o) (exval o) (exatval o) z)
            end
        end
      else mret (inr (err (bs "Error unsupported option: " ++ str a)))
  end.

(** SET after its flags are known, under the lock of the key. *)
Definition set_locked (cmdKey : bytes) (val : slice) (o : set_opts) : M World (option RedisData) :=
  oldVal ← db_Get cmdKey;
  let go (old : option slice) : M World (option RedisData) :=
    res ← (if nx o || xx o then
             if nx o then
               match old with
               | None => db_Set cmdKey (VBytes val) ;; mret None
               | Some _ => mret nil_bulk
               end
             else
               match old with
               | Some _ => db_Set cmdKey (VBytes val) ;; mret (simple (bs "OK"))
               | None => mret nil_bulk
               end
           else db_Set cmdKey (VBytes val) ;; mret (simple (bs "OK")));
    let res := if get_ o then match old with None => nil_bulk | Some s => bulk s end else res in
    (if negb (keepttl o) then DelTTL cmdKey else mret 0) ;;
    (if ex o then now ← unix; SetTTL cmdKey (i64 (now + exval o)) else mret 0) ;;
    (if px o then now ← unix; SetTTL cmdKey (i64 (now + Z.quot (millisecPx o) 1000)) else mret 0) ;;
    (if exat o then SetTTL cmdKey (exatval o) else mret 0) ;;
    mret res in
  match oldVal with
  | None => go None
  | Some (VBytes s) => go (Some s)
  | Some _ => mret wrongtype
  end.

Definition setString (cmd : list slice) : M World (option RedisData) :=
  c1 ← arg cmd 1;
  let cmdKey := ToLower (str c1) in
  if zlen cmd <? 3 then mret invalid
  else
    opts ← parse_flags (drop 3 cmd) no_opts;
    match opts with
    | inr e => mret e
    | inl o =>
        if (nx o && xx o) || (ex o && keepttl o) || (ex o && px o) || (ex o && exat o) || (px o && exat o)
        then mret invalid
        else
          c2 ← arg cmd 2;
          with_lock cmdKey (set_locked cmdKey c2 o)
    end.

Definition getString (cmd : list slice) : M World (option RedisData) :=
  bad ← name_is_not cmd (bs "get");
  if bad : bool then mret server_error
  else if negb (zlen cmd =? 2) then mret invalid
  else
    c1 ← arg cmd 1;
    let key := str c1 in
    with_rlock key (
      val ← db_Get key;
      match val with
      | None => mret nil_bulk
      | Some (VBytes byteVal) => mret (bulk byteVal)
      | Some _ => mret wrongtype
      end).

Definition getRangeString (cmd : list slice) : M World (option RedisData) :=
  bad ← name_is_not cmd (bs "getrange");
  if bad : bool then mret server_error
  else if negb (zlen cmd =? 4) then mret invalid
  else
    c1 ← arg cmd 1;
    let key := str c1 in
    with_rlock key (
      val ← db_Get key;
      match val with
      | None => mret nil_bulk
      | Some (VBytes byteVal) =>
          c2 ← arg cmd 2;
          match Atoi (str c2) with
          | None => mret invalid
          | Some start =>
              c3 ← arg cmd 3;
              match Atoi (str c3) with
              | None => mret invalid
              | Some end_ =>
                  let start := if start <? 0 then slen byteVal + start else start in
                  let end_ := if end_ <? 0 then slen byteVal + end_ else end_ in
                  let end_ := i64 (end_ + 1) in
                  if (end_ <? start) || (slen byteVal <=? start) || (end_ <? 0) then
                    mret (bulk (Slice [] []))
                  else
                    let start := if start <? 0 then 0 else start in
                    s ← or_panic (subslice byteVal start end_);
                    mret (bulk s)
              end
          end
      | Some _ => mret wrongtype
      end).

(** [for i := 0; i < n; i++ { newVal = append(newVal, byte(0)) }]. *)
Definition pad_zeros (n : nat) (s : slice) : slice := Nat.iter n (fun s => sappend s [zero_byte]) s.

Definition setRangeString (cmd : list slice) : M World (option RedisData) :=
  bad ← name_is_not cmd (bs "setrange");
  if bad : bool then mret server_error
  else if negb (zlen cmd =? 4) then mret invalid
  else
    c2 ← arg cmd 2;
    let bad_offset := err (bs "error: offset is not a integer or less than 0") in
    match Atoi (str c2) with
    | None => mret bad_offset
    | Some offset =>
        if offset <? 0 then mret bad_offset
        else
          c1 ← arg cmd 1;
          let key := str c1 in
          with_lock key (
            val ← db_Get key;
            let go (oldVal : slice) : M World (option RedisData) :=
              c3 ← arg cmd 3;
              newVal ← (if slen oldVal <? offset then
                          mret (sappend (pad_zeros (Z.to_nat (offset - slen oldVal)) oldVal) (str c3))
                        else
                          s ← or_panic (subslice oldVal 0 offset);
                          mret (sappend s (str c3)));
              db_Set key (VBytes newVal) ;;
              mret (int (slen newVal)) in
            match val with
            | None => go (Slice [] [])
            | Some (VBytes s) => go s
            | Some _ => mret wrongtype
            end)
    end.

Definition mGetString (cmd : list slice) : M World (option RedisData) :=
  bad ← name_is_not cmd (bs "mget");
  if bad : bool then mret server_error
  else if zlen cmd <? 2 then mret invalid
  else
    res ← foldM (fun res k =>
      let key := str k in
      val ← with_rlock key (db_Get key);
      mret (res ++ [match val with Some (VBytes s) => MakeBulkData s | _ => MakeBulkData NilSlice end]))
      [] (drop 1 cmd);
    mret (array res).

(** The key/value pairs of MSET: the arguments come in pairs. *)
Fixpoint arg_pairs (args : list slice) : list (bytes * slice) :=
  match args with
  | k :: v :: rest => (str k, v) :: arg_pairs rest
  | _ => []
  end.

Definition mSetString (cmd : list slice) : M World (option RedisData) :=
  bad ← name_is_not cmd (bs "mset");
  if bad : bool then mret server_error
  else if (zlen cmd <? 3) || negb (Z.odd (zlen cmd)) then mret invalid
  else
    let kvs := arg_pairs (drop 1 cmd) in
    with_locks (map fst kvs) (
      forM kvs (fun '(k, v) => DelTTL k ;; db_Set k (VBytes v) ;; mret tt) ;;
      mret (simple (bs "OK"))).

Definition setExString (cmd : list slice) : M World (option RedisData) :=
  bad ← name_is_not cmd (bs "setex");
  if bad : bool then mret server_error
  else if negb (zlen cmd =? 4) then mret invalid
  else
    c2 ← arg cmd 2;
    match ParseInt (str c2) with
    | None => mret (err (bs "error: " ++ str c2 ++ bs " is not a integer"))
    | Some ex =>
        now ← unix;
        let ttl := i64 (now + ex) in
        c1 ← arg cmd 1; val ← arg cmd 3;
        let key := str c1 in
        with_lock key (
          db_Set key (VBytes val) ;; SetTTL key ttl ;;
          mret (simple (bs "OK")))
    end.

Definition setNxString (cmd : list slice) : M World (option RedisData) :=
  bad ← name_is_not cmd (bs "setnx");
  if bad : bool then mret server_error
  else if negb (zlen cmd =? 3) then mret invalid
  else
    c1 ← arg cmd 1; val ← arg cmd 2;
    let key := str c1 in
    with_lock key (res ← db_SetIfNotExist key (VBytes val); mret (int res)).

Definition strLenString (cmd : list slice) : M World (option RedisData) :=
  bad ← name_is_not cmd (bs "strlen");
  if bad : bool then mret server_error
  else if negb (zlen cmd =? 2) then mret invalid
  else
    c1 ← arg cmd 1;
    let key := str c1 in
    with_rlock key (
      val ← db_Get key;
      match val with
      | None => mret (int 0)
      | Some (VBytes s) => mret (int (slen s))
      | Some _ => mret wrongtype
      end).

(** The common part of INCR, DECR, INCRBY and DECRBY: [missing] is stored for a
    missing key, [f] applied to the integer an existing one holds. *)
Definition counter (key : bytes) (missing : Z) (f : Z -> Z) : M World (option RedisData) :=
  with_lock key (
    val ← db_Get key;
    match val with
    | None => db_Set key (VBytes (of_string (FormatInt missing))) ;; mret (int missing)
    | Some (VBytes s) =>
        match ParseInt (str s) with
        | None => mret (err (bs "value is not an integer"))
        | Some intVal =>
            db_Set key (VBytes (of_string (FormatInt (f intVal)))) ;; mret (int (f intVal))
        end
    | Some _ => mret wrongtype
    end).

Definition incrString (cmd : list slice) : M World (option RedisData) :=
  bad ← name_is_not cmd (bs "incr");
  if bad : bool then mret server_error
  else if negb (zlen cmd =? 2) then mret invalid
  else c1 ← arg cmd 1; counter (str c1) 1 (fun v => i64 (v + 1)).

Definition decrString (cmd : list slice) : M World (option RedisData) :=
  bad ← name_is_not cmd (bs "decr");
  if bad : bool then mret server_error
  else if negb (zlen cmd =? 2) then mret invalid
  else c1 ← arg cmd 1; counter (str c1) (-1) (fun v => i64 (v - 1)).

Definition bad_increment : option RedisData :=
  err (bs "commands invalid: increment value is not an integer").

Definition incrByString (cmd : list slice) : M World (option RedisData) :=
  bad ← name_is_not cmd (bs "incrby");
  if bad : bool then mret server_error
  else if negb (zlen cmd =? 3) then mret invalid
  else
    c1 ← arg cmd 1; c2 ← arg cmd 2;
    match ParseInt (str c2) with
    | None => mret bad_increment
    | Some inc => counter (str c1) inc (fun v => i64 (v + inc))
    end.

Definition decrByString (cmd : list slice) : M World (option RedisData) :=
  bad ← name_is_not cmd (bs "decrby");
  if bad : bool then mret server_error
  else if negb (zlen cmd =? 3) then mret invalid
  else
    c1 ← arg cmd 1; c2 ← arg cmd 2;
    match ParseInt (str c2) with
    | None => mret bad_increment
    | Some dec => counter (str c1) (i64 (- dec)) (fun v => i64 (v - dec))
    end.

Definition incrByFloatString (cmd : list slice) : M World (option RedisData) :=
  bad ← name_is_not cmd (bs "incrbyfloat");
  if bad : bool then mret server_error
  else if negb (zlen cmd =? 3) then mret invalid
  else
    c1 ← arg cmd 1; c2 ← arg cmd 2;
    let key := str c1 in
    match ParseFloat (str c2) with
    | None => mret (err (bs "commands invalid: increment value is not an float"))
    | Some inc =>
        with_lock key (
          val ← db_Get key;
          match val with
          | None =>
              db_Set key (VBytes (of_string (FormatFloat_short inc))) ;;
              mret (bulk (of_string (FormatFloat_short inc)))
          | Some (VBytes typeVal) =>
              match ParseFloat (str typeVal) with
              | None => mret (err (bs "value is not an float"))
              | Some floatVal =>
                  let floatVal := fadd floatVal inc in
                  db_Set key (VBytes (of_string (FormatFloat_short floatVal))) ;;
                  mret (bulk (of_string (FormatFloat_short floatVal)))
              end
          | Some _ => mret wrongtype
          end)
    end.

Definition appendString (cmd : list slice) : M World (option RedisData) :=
  bad ← name_is_not cmd (bs "append");
  if bad : bool then mret server_error
  else if negb (zlen cmd =? 3) then mret invalid
  else
    c1 ← arg cmd 1; val ← arg cmd 2;
    let key := str c1 in
    with_lock key (
      oldVal ← db_Get key;
      match oldVal with
      | None => db_Set key (VBytes val) ;; mret (int (slen val))
      | Some (VBytes typeVal) =>
          let newVal := sappend typeVal (str val) in
          db_Set key (VBytes newVal) ;; mret (int (slen newVal))
      | Some _ => mret wrongtype
      end).

Definition RegisterStringCommands : list (bytes * Handler) :=
  [(bs "set", setString); (bs "get", getString); (bs "getrange", getRangeString);
   (bs "setrange", setRangeString); (bs "mget", mGetString); (bs "mset", mSetString);
   (bs "setex", setExString); (bs "setnx", setNxString); (bs "strlen", strLenString);
   (bs "incr", incrString); (bs "incrby", incrByString); (bs "decr", decrString);
   (bs "decrby", decrByString); (bs "incrbyfloat", incrByFloatString); (bs "append", appendString)].
End strings.

(* ===================================================================== *)
(** ** Every handler keeps the invariant and releases its locks          *)
(* ===================================================================== *)

Lemma pres_parse_flags {rt : GoRuntime} args o : pres (parse_flags args o).
Proof.
  revert o. induction args as [args IH] using (induction_ltof1 _ (@length slice)).
  intros o. unfold ltof in IH. destruct args as [|a rest]; cbn [parse_flags]; [auto with pres|].
  cbv zeta. repeat case_match; try (apply IH; cbn; lia); auto with pres.
Qed.

#[export] Hint Resolve pres_parse_flags : pres.

Lemma strings_safe {rt : GoRuntime} name h cmd : (name, h) ∈ RegisterStringCommands -> safe (h cmd).
Proof.
  unfold RegisterStringCommands. rewrite !elem_of_cons, elem_of_nil.
  intros H. repeat destruct H as [[= -> ->]|H]; [..|done];
    unfold setString, getString, getRangeString, setRangeString, mGetString, mSetString, setExString,
      setNxString, strLenString, incrString, decrString, incrByString, decrByString, incrByFloatString, appendString,
      counter, set_locked;
    solve_safe.
Qed.

(* ===================================================================== *)
(** ** What the commands do                                              *)
(* ===================================================================== *)

(** The key is missing or holds a string. *)
Definition stringish (w : World) (k : bytes) : Prop :=
  match kv w !! k with None | Some (VBytes _) => True | _ => False end.

Section behaviour.
Context {rt : GoRuntime}.

Lemma wp_set_plain (pn : bool) c k v w (Q : option RedisData -> World -> Prop) :
  Inv w -> all_free (locks w) -> stringish w (ToLower (str k)) ->
  (forall w', keeps w tt w' -> kv w' = <[ToLower (str k) := VBytes v]> (kv w) ->
     ttls w' = delete (ToLower (str k)) (ttls w) -> Q (simple (bs "OK")) w') ->
  wp pn (setString [c; k; v]) Q w.
Proof.
  intros Hw Hl Hs HQ. unfold setString. apply wp_bind. eapply wp_arg; [done|]. cbv zeta.
  change (zlen [c; k; v] <? 3) with false. cbv iota. change (drop 3 [c; k; v]) with (@nil slice).
  apply wp_bind. cbn [parse_flags]. apply wp_ret. cbn [nx xx ex keepttl px exat no_opts andb orb].
  apply wp_bind. eapply wp_arg; [done|]. apply wp_with_lock; [done|done|]. intros w1 Hw1 Ek Et Ec En.
  unfold set_locked. apply wp_bind, wp_db_Get; [apply Hw1|]. rewrite Ek. cbv zeta.
  assert (Hgo : forall old, wp pn (res ← (db_Set (ToLower (str k)) (VBytes v) ;; mret (simple (bs "OK")));
       (if negb (keepttl no_opts) then DelTTL (ToLower (str k)) else mret 0) ;;
       (if ex no_opts then now ← unix; SetTTL (ToLower (str k)) (i64 (now + exval no_opts)) else mret 0) ;;
       (if px no_opts then now ← unix; SetTTL (ToLower (str k)) (i64 (now + Z.quot (millisecPx no_opts) 1000)) else mret 0) ;;
       (if exat no_opts then SetTTL (ToLower (str k)) (exatval no_opts) else mret 0) ;;
       mret (if get_ no_opts then match old with None => nil_bulk | Some s => bulk s end else res))
     (fun a w2 => keeps w1 a w2 /\ forall w3, keeps w a w3 -> kv w3 = kv w2 -> ttls w3 = ttls w2 -> Q a w3) w1).
  { intros old. cbn [keepttl ex px exat get_ no_opts negb].
    apply wp_bind, wp_bind, wp_Set_kv; [done|done|]. intros w2 K2 Ek2 Et2. apply wp_ret.
    apply wp_bind, wp_DelTTL; [by eapply keeps_Inv|]. intros w3 K3 Ek3 Et3.
    do 3 apply wp_bind, wp_ret. apply wp_ret. split; [by eapply keeps_trans|].
    intros w4 K4 Ek4 Et4. apply HQ; [done|congruence|congruence]. }
  unfold stringish in Hs. destruct (kv w !! ToLower (str k)) as [[s| | | | |]|]; try done.
  - apply (Hgo (Some s)).
  - apply (Hgo None).
Qed.

Lemma wp_getString (pn : bool) c k w (Q : option RedisData -> World -> Prop) :
  Inv w -> all_free (locks w) -> ToLower (str c) = bs "get" ->
  (forall w', keeps w tt w' -> kv w' = kv w -> ttls w' = ttls w ->
     Q (match kv w !! str k with
        | None => nil_bulk | Some (VBytes s) => bulk s | Some _ => wrongtype end) w') ->
  wp pn (getString [c; k]) Q w.
Proof.
  intros Hw Hl Hc HQ. unfold getString. apply wp_bind, wp_name; [done|].
  change (negb (zlen [c; k] =? 2)) with false. cbv iota. apply wp_bind. eapply wp_arg; [done|]. cbv zeta.
  apply wp_with_rlock; [done|done|]. intros w1 Hw1 Ek Et Ec En.
  apply wp_bind, wp_db_Get; [apply Hw1|]. rewrite Ek. revert HQ.
  destruct (kv w !! str k) as [[]|]; intros HQ; apply wp_ret; (split; [by apply keeps_refl|]);
    intros w3 K3 E1 E2; apply HQ; first [done|congruence].
Qed.

(** SET stores what GET returns. SET of a key that is missing or holds a
    string replies OK, changes that key (in lower case) only, removes its
    deadline, and a GET of the stored name replies the value. *)
Theorem set_get (w : World) (c k v c' : slice)
  (Hw : Inv w) (Hl : all_free (locks w)) (Hs : stringish w (ToLower (str k)))
  (Hc' : ToLower (str c') = bs "get") :
  exists w1, setString [c; k; v] w = Ret (simple (bs "OK"), w1) /\ keeps w tt w1 /\
    kv w1 = <[ToLower (str k) := VBytes v]> (kv w) /\ ttls w1 = delete (ToLower (str k)) (ttls w) /\
    forall k', str k' = ToLower (str k) -> exists w2, getString [c'; k'] w1 = Ret (bulk v, w2).
Proof.
  apply wp_returns. apply wp_set_plain; [done..|]. intros w1 K1 E1 T1. split; [done|]. split; [done|].
  split; [done|]. split; [done|]. intros k' Hk'.
  destruct (wp_returns (getString [c'; k']) (bulk v) (fun _ => True) w1) as (w2 & E2 & _); [|by exists w2].
  apply wp_getString; [by eapply keeps_Inv|by eapply keeps_free|done|]. intros w2 _ _ _.
  by rewrite E1, Hk', lookup_insert_eq.
Qed.

(** the name SET stores is the lower-cased one, and GET does not lower
    case: a key with an upper-case letter that SET has just stored reads back
    as nil. *)
Theorem set_get_case (w : World) (c k v c' : slice)
  (Hw : Inv w) (Hl : all_free (locks w)) (Hs : stringish w (ToLower (str k)))
  (Hc' : ToLower (str c') = bs "get") (Hup : ToLower (str k) <> str k) (Hk : kv w !! str k = None) :
  exists w1 w2, setString [c; k; v] w = Ret (simple (bs "OK"), w1) /\
    getString [c'; k] w1 = Ret (nil_bulk, w2).
Proof.
  assert (H1 : exists w1, setString [c; k; v] w = Ret (simple (bs "OK"), w1) /\
    (keeps w tt w1 /\ kv w1 = <[ToLower (str k) := VBytes v]> (kv w))).
  { apply wp_returns. by apply wp_set_plain. }
  destruct H1 as (w1 & E1 & K1 & Hk1).
  destruct (wp_returns (getString [c'; k]) nil_bulk (fun _ => True) w1) as (w2 & E2 & _); [|by exists w1, w2].
  apply wp_getString; [by eapply keeps_Inv|by eapply keeps_free|done|]. intros w2 _ _ _.
  by rewrite Hk1, lookup_insert_ne, Hk.
Qed.

Lemma wp_counter (pn : bool) key missing f w (Q : option RedisData -> World -> Prop) :
  Inv w -> all_free (locks w) ->
  match kv w !! key with
  | None => forall w', keeps w tt w' ->
      kv w' = <[key := VBytes (of_string (FormatInt missing))]> (kv w) -> ttls w' = ttls w -> Q (int missing) w'
  | Some (VBytes s) =>
      match ParseInt (str s) with
      | None => forall w', keeps w tt w' -> kv w' = kv w -> ttls w' = ttls w -> Q (err (bs "value is not an integer")) w'
      | Some z => forall w', keeps w tt w' ->
          kv w' = <[key := VBytes (of_string (FormatInt (f z)))]> (kv w) -> ttls w' = ttls w -> Q (int (f z)) w'
      end
  | Some _ => forall w', keeps w tt w' -> kv w' = kv w -> ttls w' = ttls w -> Q wrongtype w'
  end ->
  wp pn (counter key missing f) Q w.
Proof.
  intros Hw Hl HQ. apply wp_with_lock; [done|done|]. intros w1 Hw1 Ek Et Ec En.
  apply wp_bind, wp_db_Get; [apply Hw1|]. rewrite Ek.
  assert (Hend : forall r, (forall w', keeps w tt w' -> kv w' = kv w -> ttls w' = ttls w -> Q r w') ->
    wp pn (mret r) (fun a w2 => keeps w1 a w2 /\
       forall w3, keeps w a w3 -> kv w3 = kv w2 -> ttls w3 = ttls w2 -> Q a w3) w1).
  { intros r Hr. apply wp_ret. split; [by apply keeps_refl|]. intros w3 K3 E1 E2. apply Hr; first [done|congruence]. }
  assert (Hset : forall z, (forall w', keeps w tt w' ->
      kv w' = <[key := VBytes (of_string (FormatInt z))]> (kv w) -> ttls w' = ttls w -> Q (int z) w') ->
    wp pn (db_Set key (VBytes (of_string (FormatInt z))) ;; mret (int z)) (fun a w2 => keeps w1 a w2 /\
       forall w3, keeps w a w3 -> kv w3 = kv w2 -> ttls w3 = ttls w2 -> Q a w3) w1).
  { intros z Hz. apply wp_bind, wp_Set_kv; [done|done|]. intros w2 K2 Ek2 Et2. apply wp_ret.
    split; [done|]. intros w3 K3 E1 E2. apply Hz; first [done|congruence]. }
  destruct (kv w !! key) as [[s| | | | |]|]; [destruct (ParseInt (str s))|..]; auto.
Qed.

(** C32: INCRBY adds on 64 bits. For a key that holds the integer [z], INCRBY
    [n] replies and stores [z + n] wrapped to 64 bits (no overflow error), in a
    form that reads back as that integer; the deadline is kept. *)
Theorem incrby_spec (w : World) (c k n s : slice) (z m : Z)
  (Hw : Inv w) (Hl : all_free (locks w)) (Hc : ToLower (str c) = bs "incrby")
  (Hk : kv w !! str k = Some (VBytes s)) (Hz : ParseInt (str s) = Some z) (Hn : ParseInt (str n) = Some m) :
  exists w' s', incrByString [c; k; n] w = Ret (int (i64 (z + m)), w') /\ keeps w tt w' /\
    kv w' = <[str k := VBytes s']> (kv w) /\ ttls w' = ttls w /\ ParseInt (str s') = Some (i64 (z + m)).
Proof.
  assert (H : exists w', incrByString [c; k; n] w = Ret (int (i64 (z + m)), w') /\ keeps w tt w' /\
    kv w' = <[str k := VBytes (of_string (FormatInt (i64 (z + m))))]> (kv w) /\ ttls w' = ttls w).
  { apply wp_returns. unfold incrByString. apply wp_bind, wp_name; [done|].
    change (negb (zlen [c; k; n] =? 3)) with false. cbv iota. apply wp_bind. eapply wp_arg; [done|].
    apply wp_bind. eapply wp_arg; [done|]. rewrite Hn. apply wp_counter; [done|done|]. rewrite Hk, Hz. auto. }
  destruct H as (w' & E & K & E1 & E2). exists w', (of_string (FormatInt (i64 (z + m)))).
  split; [done|]. split; [done|]. split; [done|]. split; [done|].
  rewrite str_of_string. apply ParseInt_FormatInt, i64_range.
Qed.

(** INCRBYFLOAT loses nothing but the rounding of the sum. For a key whose
    text reads as [x], INCRBYFLOAT by a text that reads as [y] replies and stores
    the IEEE sum of [x] and [y] as a decimal that reads back as exactly that
    number, also when the sum overflows to infinity; the deadline is kept. *)
Theorem incrbyfloat_spec (w : World) (c k n s : slice) (x y : float64)
  (Hw : Inv w) (Hl : all_free (locks w)) (Hc : ToLower (str c) = bs "incrbyfloat")
  (Hk : kv w !! str k = Some (VBytes s)) (Hx : ParseFloat (str s) = Some x) (Hy : ParseFloat (str n) = Some y) :
  exists w' t, incrByFloatString [c; k; n] w = Ret (bulk t, w') /\ keeps w tt w' /\
    kv w' = <[str k := VBytes t]> (kv w) /\ ttls w' = ttls w /\ ParseFloat (str t) = Some (fadd x y).
Proof.
  set (t := of_string (FormatFloat_short (fadd x y))).
  assert (H : exists w', incrByFloatString [c; k; n] w = Ret (bulk t, w') /\ keeps w tt w' /\
    kv w' = <[str k := VBytes t]> (kv w) /\ ttls w' = ttls w).
  { apply wp_returns. unfold incrByFloatString. apply wp_bind, wp_name; [done|].
    change (negb (zlen [c; k; n] =? 3)) with false. cbv iota. do 2 (apply wp_bind; eapply wp_arg; [done|]). cbv zeta.
    rewrite Hy. apply wp_with_lock; [done|done|]. intros w1 Hw1 Ek Et Ec En.
    apply wp_bind, wp_db_Get; [apply Hw1|]. rewrite Ek, Hk, Hx. apply wp_bind, wp_Set_kv; [done|done|].
    intros w2 K2 E2 Et2. apply wp_ret. split; [done|]. intros w3 K3 E3 Et3. split; [done|].
    split; [done|]. rewrite E3, E2, Ek, Et3, Et2. done. }
  destruct H as (w' & E & K & E1 & E2). exists w', t. split; [done|]. split; [done|]. split; [done|]. split; [done|].
  unfold t. rewrite str_of_string. apply ParseFloat_FormatFloat, fadd_valid; by eapply ParseFloat_valid.
Qed.
End behaviour.

Section ranges.
Context {rt : GoRuntime}.

(** GETRANGE on a string value, as a function of the value. *)
Lemma wp_getrange (pn : bool) c k a b s x y w (Q : option RedisData -> World -> Prop) :
  Inv w -> all_free (locks w) -> ToLower (str c) = bs "getrange" ->
  kv w !! str k = Some (VBytes s) -> Atoi (str a) = Some x -> Atoi (str b) = Some y ->
  0 <= x < slen s -> x <= y < MaxInt64 ->
  match subslice s x (y + 1) with
  | Some r => forall w', keeps w tt w' -> kv w' = kv w -> ttls w' = ttls w -> Q (bulk r) w'
  | None => pn = true
  end ->
  wp pn (getRangeString [c; k; a; b]) Q w.
Proof.
  intros Hw Hl Hc Hk Ha Hb Hx Hy HQ. unfold getRangeString. apply wp_bind, wp_name; [done|].
  change (negb (zlen [c; k; a; b] =? 4)) with false. cbv iota. apply wp_bind. eapply wp_arg; [done|]. cbv zeta.
  apply wp_with_rlock; [done|done|]. intros w1 Hw1 Ek Et Ec En.
  apply wp_bind, wp_db_Get; [apply Hw1|]. rewrite Ek, Hk.
  apply wp_bind. eapply wp_arg; [done|]. rewrite Ha. apply wp_bind. eapply wp_arg; [done|]. rewrite Hb.
  zb. rewrite i64_id by (unfold in_i64, MinInt64, MaxInt64 in *; lia). zb. apply wp_bind.
  destruct (subslice s x (y + 1)) as [r|]; [|by rewrite HQ].
  apply wp_ret, wp_ret. split; [by apply keeps_refl|].
  intros w3 K3 E1 E2. apply HQ; first [done|congruence].
Qed.

(** GETRANGE inside the string replies the bytes from [x] to [y], both
    included. *)
Theorem getrange_inside (w : World) (c k a b s : slice) (x y : Z)
  (Hw : Inv w) (Hl : all_free (locks w)) (Hc : ToLower (str c) = bs "getrange")
  (Hk : kv w !! str k = Some (VBytes s)) (Ha : Atoi (str a) = Some x) (Hb : Atoi (str b) = Some y)
  (Hx : 0 <= x <= y) (Hy : y < slen s) (Hmax : slen s <= MaxInt64) :
  exists w' r, getRangeString [c; k; a; b] w = Ret (bulk r, w') /\
    str r = take (Z.to_nat (y + 1 - x)) (drop (Z.to_nat x) (str s)).
Proof.
  assert (Hcap : slen s <= scap s) by (unfold slen, scap; pose proof (zlen_nonneg (spare s)); lia).
  destruct (subslice s x (y + 1)) as [r|] eqn:E.
  2:{ unfold subslice in E. revert E. zb. by destruct s. }
  assert (Hrun : exists w', getRangeString [c; k; a; b] w = Ret (bulk r, w') /\ True).
  { apply wp_returns. eapply wp_getrange; [done..|lia|lia|]. by rewrite E. }
  destruct Hrun as (w' & Hrun & _). exists w', r. split; [done|]. eapply subslice_str; [| |done]; lia.
Qed.

(** GETRANGE does not clamp its end: one byte past the end of a string
    whose slice has spare capacity, the reply shows a byte that is not part of
    the value; without spare capacity the handler panics. *)
Theorem getrange_past_end (w : World) (c k a b : slice) (v r : bytes)
  (Hw : Inv w) (Hl : all_free (locks w)) (Hc : ToLower (str c) = bs "getrange")
  (Hk : kv w !! str k = Some (VBytes (Slice v r))) (Ha : Atoi (str a) = Some 0)
  (Hb : Atoi (str b) = Some (zlen v)) (Hv : v <> []) (Hmax : zlen v < MaxInt64) :
  match r with
  | x :: r' => exists w', getRangeString [c; k; a; b] w = Ret (bulk (Slice (v ++ [x]) r'), w')
  | [] => getRangeString [c; k; a; b] w = Panic
  end.
Proof.
  assert (Hpos : 0 < zlen v).
  { destruct v; [done|]. rewrite zlen_cons. pose proof (zlen_nonneg v). lia. }
  assert (Hsub : subslice (Slice v r) 0 (zlen v + 1) = match r with x :: r' => Some (Slice (v ++ [x]) r') | [] => None end).
  { unfold subslice, scap. cbn [str spare]. destruct r as [|x r'].
    - change (zlen (@nil ascii)) with 0. by zb.
    - rewrite zlen_cons. pose proof (zlen_nonneg r'). zb. rewrite drop_0. unfold zlen.
      replace (Z.to_nat (Z.of_nat (length v) + 1 - 0)) with (S (length v)) by lia.
      replace (Z.to_nat (Z.of_nat (length v) + 1)) with (S (length v)) by lia.
      f_equal. f_equal.
      + rewrite (take_app_ge v) by lia. by replace (S (length v) - length v)%nat with 1%nat by lia.
      + rewrite (drop_app_ge v) by lia. by replace (S (length v) - length v)%nat with 1%nat by lia. }
  destruct r as [|x r'].
  - pose proof (wp_getrange true c k a b (Slice v []) 0 (zlen v) w (fun _ _ => False) Hw Hl Hc Hk Ha Hb) as H.
    unfold wp in H. rewrite Hsub in H. unfold slen in H. cbn [str] in H.
    destruct (getRangeString [c; k; a; b] w) as [[]| |]; [|done|]; exfalso; apply H; (lia || done).
  - destruct (wp_returns (getRangeString [c; k; a; b]) (bulk (Slice (v ++ [x]) r')) (fun _ => True) w)
      as (w' & E & _); [|by exists w'].
    eapply wp_getrange; [done..|unfold slen; cbn; lia|lia|]. by rewrite Hsub.
Qed.

(** SETRANGE cuts the string off behind what it writes: with an offset
    inside the string the new value is the first [off] bytes followed by the
    argument, and everything behind is lost. *)
Theorem setrange_truncates (w : World) (c k a v s : slice) (off : Z)
  (Hw : Inv w) (Hl : all_free (locks w)) (Hc : ToLower (str c) = bs "setrange")
  (Hk : kv w !! str k = Some (VBytes s)) (Ha : Atoi (str a) = Some off) (Ho : 0 <= off <= slen s) :
  exists w' s', setRangeString [c; k; a; v] w = Ret (int (off + slen v), w') /\ keeps w tt w' /\
    kv w' = <[str k := VBytes s']> (kv w) /\ str s' = take (Z.to_nat off) (str s) ++ str v.
Proof.
  assert (Hcap : slen s <= scap s) by (unfold slen, scap; pose proof (zlen_nonneg (spare s)); lia).
  destruct (subslice s 0 off) as [p|] eqn:E.
  2:{ unfold subslice in E. revert E. zb. by destruct s. }
  assert (Hp : str p = take (Z.to_nat off) (str s)).
  { rewrite (subslice_str s 0 off p) by (lia || done). by rewrite drop_0, Z.sub_0_r. }
  assert (Hrun : exists w', setRangeString [c; k; a; v] w = Ret (int (off + slen v), w') /\ keeps w tt w' /\
    kv w' = <[str k := VBytes (sappend p (str v))]> (kv w)).
  { apply wp_returns. unfold setRangeString. apply wp_bind, wp_name; [done|].
    change (negb (zlen [c; k; a; v] =? 4)) with false. cbv iota. apply wp_bind. eapply wp_arg; [done|].
    cbv zeta. rewrite Ha. zb. apply wp_bind. eapply wp_arg; [done|].
    apply wp_with_lock; [done|done|]. intros w1 Hw1 Ek Et Ec En.
    apply wp_bind, wp_db_Get; [apply Hw1|]. rewrite Ek, Hk. apply wp_bind. eapply wp_arg; [done|]. zb.
    rewrite E. apply wp_bind, wp_bind, wp_ret, wp_ret, wp_bind, wp_Set_kv; [done|done|].
    intros w2 K2 Ek2 Et2. apply wp_ret. split; [done|]. intros w3 K3 E1 E2. split.
    - do 2 f_equal. unfold slen. rewrite str_sappend, zlen_app, Hp. f_equal.
      unfold slen, zlen in *. rewrite length_take. lia.
    - split; [done|congruence]. }
  destruct Hrun as (w' & Hrun & K & Ekv). exists w', (sappend p (str v)).
  split; [done|]. split; [done|]. split; [done|]. by rewrite str_sappend, Hp.
Qed.

(** APPEND concatenates: the new value is the old bytes followed by the
    argument, whatever capacity the old slice has, and the reply is its length. *)
Theorem append_spec (w : World) (c k v s : slice)
  (Hw : Inv w) (Hl : all_free (locks w)) (Hc : ToLower (str c) = bs "append")
  (Hk : kv w !! str k = Some (VBytes s)) :
  exists w' s', appendString [c; k; v] w = Ret (int (slen s + slen v), w') /\ keeps w tt w' /\
    kv w' = <[str k := VBytes s']> (kv w) /\ ttls w' = ttls w /\ str s' = str s ++ str v.
Proof.
  assert (Hrun : exists w', appendString [c; k; v] w = Ret (int (slen s + slen v), w') /\ keeps w tt w' /\
    kv w' = <[str k := VBytes (sappend s (str v))]> (kv w) /\ ttls w' = ttls w).
  { apply wp_returns. unfold appendString. apply wp_bind, wp_name; [done|].
    change (negb (zlen [c; k; v] =? 3)) with false. cbv iota. apply wp_bind. eapply wp_arg; [done|].
    apply wp_bind. eapply wp_arg; [done|]. cbv zeta.
    apply wp_with_lock; [done|done|]. intros w1 Hw1 Ek Et Ec En.
    apply wp_bind, wp_db_Get; [apply Hw1|]. rewrite Ek, Hk. apply wp_bind, wp_Set_kv; [done|done|].
    intros w2 K2 Ek2 Et2. apply wp_ret. split; [done|]. intros w3 K3 E1 E2. split.
    - do 2 f_equal. unfold slen. by rewrite str_sappend, zlen_app.
    - split; [done|]. split; congruence. }
  destruct Hrun as (w' & Hrun & K & Ekv & Et). exists w', (sappend s (str v)).
  split; [done|]. split; [done|]. split; [done|]. split; [done|]. apply str_sappend.
Qed.
End ranges.

(* ===================================================================== *)
(** ** Instances of the theorems                                         *)
(* ===================================================================== *)

(** One key "n" with the value 41 and one byte of spare capacity. *)
Definition demo_num : World :=
  after (db_Set (bs "n") (VBytes (Slice (bs "41") (bs "x")))) (boot 4 0).

Lemma demo_num_Inv : Inv demo_num /\ all_free (locks demo_num).
Proof.
  apply after_safe; [|apply boot_Inv; [lia|unfold MaxInt64; lia]..]. by apply safe_pres, pres_db_Set.
Qed.

Lemma set_get_witness :
  exists w1, @setString plain_runtime [word "SET"; word "K"; word "1"] demo_ttl = Ret (simple (bs "OK"), w1) /\
    keeps demo_ttl tt w1 /\ kv w1 = <[bs "k" := VBytes (word "1")]> (kv demo_ttl) /\
    ttls w1 = delete (bs "k") (ttls demo_ttl) /\
    forall k', str k' = bs "k" -> exists w2, @getString plain_runtime [word "GET"; k'] w1 = Ret (bulk (word "1"), w2).
Proof.
  apply (@set_get plain_runtime demo_ttl (word "SET") (word "K") (word "1") (word "GET")).
  - apply demo_ttl_Inv.
  - apply demo_ttl_Inv.
  - vm_compute. exact I.
  - reflexivity.
Defined.

Lemma incrby_spec_witness :
  exists w' s', @incrByString plain_runtime [word "incrby"; word "n"; word "9223372036854775807"] demo_num =
      Ret (int (i64 (41 + MaxInt64)), w') /\ keeps demo_num tt w' /\
    kv w' = <[bs "n" := VBytes s']> (kv demo_num) /\ ttls w' = ttls demo_num /\
    ParseInt (str s') = Some (i64 (41 + MaxInt64)).
Proof.
  apply (@incrby_spec plain_runtime demo_num (word "incrby") (word "n") (word "9223372036854775807")
           (Slice (bs "41") (bs "x")) 41 MaxInt64).
  - apply demo_num_Inv.
  - apply demo_num_Inv.
  - reflexivity.
  - vm_compute. reflexivity.
  - vm_compute. reflexivity.
  - vm_compute. reflexivity.
Defined.

Lemma incrbyfloat_spec_witness :
  exists w' t, @incrByFloatString plain_runtime [word "incrbyfloat"; word "n"; word "0.1"] demo_num = Ret (bulk t, w') /\
    keeps demo_num tt w' /\ kv w' = <[bs "n" := VBytes t]> (kv demo_num) /\ ttls w' = ttls demo_num /\
    ParseFloat (str t) = Some (S754_finite false 5784310771403981 (-47)).
Proof.
  apply (@incrbyfloat_spec plain_runtime demo_num (word "incrbyfloat") (word "n") (word "0.1")
           (Slice (bs "41") (bs "x")) (S754_finite false 5770237022568448 (-47))
           (S754_finite false 7205759403792794 (-56))).
  - apply demo_num_Inv.
  - apply demo_num_Inv.
  - reflexivity.
  - vm_compute. reflexivity.
  - vm_compute. reflexivity.
  - vm_compute. reflexivity.
Defined.

Lemma getrange_inside_witness :
  exists w' r, @getRangeString plain_runtime [word "getrange"; word "n"; word "1"; word "1"] demo_num = Ret (bulk r, w') /\
    str r = take (Z.to_nat (1 + 1 - 1)) (drop (Z.to_nat 1) (bs "41")).
Proof.
  apply (@getrange_inside plain_runtime demo_num (word "getrange") (word "n") (word "1") (word "1")
           (Slice (bs "41") (bs "x")) 1 1).
  - apply demo_num_Inv.
  - apply demo_num_Inv.
  - reflexivity.
  - vm_compute. reflexivity.
  - vm_compute. reflexivity.
  - vm_compute. reflexivity.
  - lia.
  - vm_compute. reflexivity.
  - vm_compute. discriminate.
Defined.

Lemma setrange_truncates_witness :
  exists w' s', @setRangeString plain_runtime [word "setrange"; word "n"; word "0"; word "7"] demo_num =
      Ret (int (0 + 1), w') /\ keeps demo_num tt w' /\
    kv w' = <[bs "n" := VBytes s']> (kv demo_num) /\ str s' = take (Z.to_nat 0) (bs "41") ++ bs "7".
Proof.
  apply (@setrange_truncates plain_runtime demo_num (word "setrange") (word "n") (word "0") (word "7")
           (Slice (bs "41") (bs "x")) 0).
  - apply demo_num_Inv.
  - apply demo_num_Inv.
  - reflexivity.
  - vm_compute. reflexivity.
  - vm_compute. reflexivity.
  - vm_compute. split; discriminate.
Defined.

Lemma append_spec_witness :
  exists w' s', @appendString plain_runtime [word "append"; word "n"; word "23"] demo_num = Ret (int (2 + 2), w') /\
    keeps demo_num tt w' /\ kv w' = <[bs "n" := VBytes s']> (kv demo_num) /\ ttls w' = ttls demo_num /\
    str s' = bs "41" ++ bs "23".
Proof.
  apply (@append_spec plain_runtime demo_num (word "append") (word "n") (word "23") (Slice (bs "41") (bs "x"))).
  - apply demo_num_Inv.
  - apply demo_num_Inv.
  - reflexivity.
  - vm_compute. reflexivity.
Defined.
