(* ===== verification/ListCmds.v ===== *)
(** * ListCmds: the list commands (src/memdb/list.go)

    One definition per handler. [on_list] runs an operation of the list whose
    pointer is stored under a key. BLPOP and BRPOP, which wait for a ticker,
    are modelled as a loop over the events their [select] receives. *)

From S2P Require Import Prelude Strconv Resp Util ConcurrentMap Locks HashStruct SetStruct ListStruct Db Keys.

(** [list.op(...)] through the pointer in the cell of [key]. *)
Definition on_list {A} (key : bytes) (m : M List A) : M World A :=
  v ← db_Get key;
  match v with
  | Some (VList l) =>
      match m l with
      | Ret (a, l') => store_object key (VList l') ;; mret a
      | Panic => panic
      | Block => block
      end
  | _ => panic
  end.

(** [list.Len]. *)
Definition list_Len (key : bytes) : M World Z :=
  v ← db_Get key;
  match v with
  | Some (VList l) => mret (Len l)
  | _ => panic
  end.

(** [defer func() { if list.Len == 0 { m.db.Delete(key); m.DelTTL(key) } }()]. *)
Definition drop_if_empty (key : bytes) : M World unit :=
  len ← list_Len key;
  if len =? 0 then dropKey key else mret tt.

(** [list.Trim(start, end)] and the deferred check. *)
Definition trim_then_drop (key : bytes) (start end_ : Z) : M World unit :=
  on_list key (Trim start end_) ;; drop_if_empty key.

(** The options of LPOS. *)
Record pos_opts : Type := mkPos {
  rank : bool; rankVal : Z; count : bool; countVal : Z; maxLen : bool; maxLenVal : Z
}.

(** Where an LPOS loop stopped. *)
Record pos_state : Type := mkPosState { p_now : option loc; p_pos : Z; p_rank : Z; p_max : Z }.

(** The loop that skips to the rank; [step] and [stop] give its direction, [d]
    is 1 forward and -1 backward. *)
Fixpoint rank_loop (fuel : nat) (step : option loc -> M List (option loc)) (stop : option loc)
    (d : Z) (elem : slice) (hasMax : bool) (s : pos_state) : M List pos_state :=
  match fuel with
  | O => block
  | S f =>
      if bool_decide (p_now s = stop) then mret s
      else
        v ← getVal (p_now s);
        let pos := p_pos s + d in
        let rk := if is_val elem v then p_rank s - d else p_rank s in
        let mx := if hasMax then p_max s - 1 else p_max s in
        if (hasMax && (mx =? 0)) || (rk =? 0) then mret (mkPosState (p_now s) pos rk mx)
        else next ← step (p_now s); rank_loop f step stop d elem hasMax (mkPosState next pos rk mx)
  end.

(** The loop without COUNT: the first match. *)
Fixpoint first_loop (fuel : nat) (stop : option loc) (elem : slice) (hasMax : bool)
    (now : option loc) (pos mx : Z) : M List (option Z) :=
  match fuel with
  | O => block
  | S f =>
      if bool_decide (now = stop) then mret None
      else
        v ← getVal now;
        if is_val elem v then mret (Some pos)
        else if hasMax && (mx <=? 0) then mret None
        else next ← getNext now;
             first_loop f stop elem hasMax next (pos + 1) (if hasMax then mx - 1 else mx)
  end.

(** The loops with COUNT, forward ([d = 1]) and backward ([d = -1]). *)
Fixpoint count_loop (fuel : nat) (step : option loc -> M List (option loc)) (stop : option loc)
    (d : Z) (elem : slice) (hasMax : bool) (now : option loc) (pos cnt mx : Z) (res : list Z) : M List (list Z) :=
  match fuel with
  | O => block
  | S f =>
      if bool_decide (now = stop) || (cnt =? 0) then mret res
      else
        v ← getVal now;
        let res' := if is_val elem v then res ++ [pos] else res in
        let cnt' := if is_val elem v then cnt - 1 else cnt in
        if hasMax && (mx <=? 0) then mret res'
        else next ← step now;
             count_loop f step stop d elem hasMax next (pos + d) cnt' (if hasMax then mx - 1 else mx) res'
  end.

(** LPOS on the list, after its options are parsed. *)
Definition lpos_list (elem : slice) (o : pos_opts) : M List RedisData :=
  len ← getLen;
  if len =? 0 then mret (MakeBulkData NilSlice)
  else
    let countVal := if count o && (countVal o =? 0) then len else countVal o in
    let maxLenVal := if maxLen o && (maxLenVal o =? 0) then len else maxLenVal o in
    if negb (rank o) && negb (count o) && negb (maxLen o) then
      pos ← Pos elem;
      mret (if pos =? -1 then MakeBulkData NilSlice else MakeIntData pos)
    else
      fuel ← loop_fuel; h ← getHead; t ← getTail;
      let reverse := rank o && negb (0 <? rankVal o) in
      s ← (if rank o then
             if 0 <? rankVal o then
               first ← getNext h;
               rank_loop fuel getNext t 1 elem (maxLen o) (mkPosState first (-1) (rankVal o) maxLenVal)
             else
               last ← getPrev t;
               rank_loop fuel getPrev h (-1) elem (maxLen o) (mkPosState last len (rankVal o) maxLenVal)
           else
             first ← getNext h;
             mret (mkPosState first 0 (rankVal o) (if maxLen o then maxLenVal - 1 else maxLenVal)));
      if (rank o && negb (p_rank s =? 0)) || bool_decide (p_now s = t) || bool_decide (p_now s = h) then
        mret (MakeBulkData NilSlice)
      else if negb (count o) then
        r ← first_loop fuel t elem (maxLen o) (p_now s) (p_pos s) (p_max s);
        mret (match r with Some pos => MakeIntData pos | None => MakeBulkData NilSlice end)
      else
        res ← (if negb reverse then
                 count_loop fuel getNext t 1 elem (maxLen o) (p_now s) (p_pos s) countVal (p_max s) []
               else
                 count_loop fuel getPrev h (-1) elem (maxLen o) (p_now s) (p_pos s) countVal (p_max s) []);
        mret (if zlen res =? 0 then MakeBulkData NilSlice else MakeArrayData (map MakeIntData res)).

(** [for i := 0; i < cnt; i++ { e := pop(); if e == nil { break }; ... }]; a
    list can be popped at most [Len] times. *)
Fixpoint pop_loop (n : nat) (pop : M List (option loc)) (res : list slice) : M List (list slice) :=
  match n with
  | O => mret res
  | S n' =>
      e ← pop;
      match e with
      | None => mret res
      | Some _ => v ← getVal e; pop_loop n' pop (res ++ [v])
      end
  end.

Section lists.
Context {rt : GoRuntime}.

Definition lower_server_error : option RedisData := err (bs "server error").
Definition wrong_args (name : bytes) : option RedisData :=
  err (bs "wrong number of arguments for '" ++ name ++ bs "' command").

Definition lLenList (cmd : list slice) : M World (option RedisData) :=
  bad ← name_is_not cmd (bs "llen");
  if bad : bool then mret lower_server_error
  else if negb (zlen cmd =? 2) then mret (wrong_args (bs "llen"))
  else
    c1 ← arg cmd 1;
    let key := str c1 in
    with_rlock key (
      v ← db_Get key;
      match v with
      | None => mret (int 0)
      | Some (VList _) => len ← list_Len key; mret (int len)
      | Some _ => mret wrongtype
      end).

Definition lIndexList (cmd : list slice) : M World (option RedisData) :=
  bad ← name_is_not cmd (bs "lindex");
  if bad : bool then mret lower_server_error
  else if negb (zlen cmd =? 3) then mret (wrong_args (bs "lindex"))
  else
    c1 ← arg cmd 1; c2 ← arg cmd 2;
    let key := str c1 in
    match Atoi (str c2) with
    | None => mret (err (bs "index is not an integer"))
    | Some index =>
        alive ← CheckTTL key;
        if negb alive then mret nil_bulk
        else with_rlock key (
          v ← db_Get key;
          match v with
          | None => mret nil_bulk
          | Some (VList _) =>
              r ← on_list key (node ← Index index; node_val node);
              mret (match r with None => nil_bulk | Some x => bulk x end)
          | Some _ => mret wrongtype
          end)
    end.

(** The option loop of LPOS over [cmd[3:]]. *)
Fixpoint parse_pos (args : list slice) (o : pos_opts) : pos_opts + option RedisData :=
  match args with
  | a :: v :: rest =>
      let f := ToLower (str a) in
      if beq f (bs "rank") then
        match Atoi (str v) with
        | Some z =>
            if z =? 0 then inr (err (bs "rank value should 1,2,3... or -1,-2,-3..."))
            else parse_pos rest (mkPos true z (count o) (countVal o) (maxLen o) (maxLenVal o))
        | None => inr (err (bs "rank value should 1,2,3... or -1,-2,-3..."))
        end
      else if beq f (bs "count") then
        match Atoi (str v) with
        | Some z =>
            if z <? 0 then inr (err (bs "count value is not an positive integer"))
            else parse_pos rest (mkPos (rank o) (rankVal o) true z (maxLen o) (maxLenVal o))
        | None => inr (err (bs "count value is not an positive integer"))
        end
      else if beq f (bs "maxlen") then
        match Atoi (str v) with
        | Some z =>
            if z <? 0 then inr (err (bs "maxlen value is not an positive integer"))
            else parse_pos rest (mkPos (rank o) (rankVal o) (count o) (countVal o) true z)
        | None => inr (err (bs "maxlen value is not an positive integer"))
        end
      else inr (err (bs "unsupported option " ++ str a))
  | _ => inl o
  end.

Definition lPosList (cmd : list slice) : M World (option RedisData) :=
  bad ← name_is_not cmd (bs "lpos");
  if bad : bool then mret lower_server_error
  else if (zlen cmd <? 3) || negb (Z.odd (zlen cmd)) then mret (wrong_args (bs "lpos"))
  else
    c1 ← arg cmd 1; elem ← arg cmd 2;
    let key := str c1 in
    match parse_pos (drop 3 cmd) (mkPos false 0 false 0 false 0) with
    | inr e => mret e
    | inl o =>
        alive ← CheckTTL key;
        if negb alive then mret nil_bulk
        else with_rlock key (
          v ← db_Get key;
          match v with
          | None => mret nil_bulk
          | Some (VList _) => r ← on_list key (lpos_list elem o); mret (Some r)
          | Some _ => mret wrongtype
          end)
    end.

(** LPOP and RPOP after their name checks. *)
Definition pop_cmd (name : bytes) (pop : M List (option loc)) (cmd : list slice) : M World (option RedisData) :=
  if negb (zlen cmd =? 2) && negb (zlen cmd =? 3) then mret (wrong_args name)
  else
    cnt ← (if zlen cmd =? 3 then
             c2 ← arg cmd 2;
             mret (match Atoi (str c2) with
                   | Some z => if z <=? 0 then None else Some z
                   | None => None
                   end)
           else mret (Some 0));
    match cnt with
    | None => mret (err (bs "count value must be a positive integer"))
    | Some cnt =>
        c1 ← arg cmd 1;
        let key := str c1 in
        alive ← CheckTTL key;
        if negb alive then mret nil_bulk
        else with_lock key (
          v ← db_Get key;
          match v with
          | None => mret nil_bulk
          | Some (VList _) =>
              r ← (if cnt =? 0 then
                     e ← on_list key (node ← pop; node_val node);
                     mret (match e with None => nil_bulk | Some x => bulk x end)
                   else
                     len ← list_Len key;
                     res ← on_list key (pop_loop (Z.to_nat (Z.min cnt (len + 1))) pop []);
                     mret (array (map MakeBulkData res)));
              drop_if_empty key ;;
              mret r
          | Some _ => mret wrongtype
          end)
    end.

Definition lPopList (cmd : list slice) : M World (option RedisData) := pop_cmd (bs "lpop") LPop cmd.

Definition rPopList (cmd : list slice) : M World (option RedisData) :=
  bad ← name_is_not cmd (bs "rpop");
  if bad : bool then mret lower_server_error else pop_cmd (bs "rpop") RPop cmd.

(** [for i := 2; i < len(cmd); i++ { list.push(cmd[i]) }]. *)
Definition push_all (push : slice -> M List unit) (vals : list slice) : M List unit := forM vals push.

(** LPUSH, RPUSH (which create the list) and LPUSHX, RPUSHX (which do not). *)
Definition push_cmd (create : bool) (push : slice -> M List unit) (cmd : list slice) : M World (option RedisData) :=
  c1 ← arg cmd 1;
  let key := str c1 in
  CheckTTL key ;;
  with_lock key (
    v ← db_Get key;
    let go : M World (option RedisData) :=
      on_list key (push_all push (drop 2 cmd)) ;;
      len ← list_Len key; mret (int len) in
    match v with
    | None => if create then db_Set key (VList NewList) ;; go else mret (int 0)
    | Some (VList _) => go
    | Some _ => mret wrongtype
    end).

Definition lPushList (cmd : list slice) : M World (option RedisData) :=
  bad ← name_is_not cmd (bs "lpush");
  if bad : bool then mret (err (bs "Server Error"))
  else if zlen cmd <? 3 then mret (wrong_args (bs "lpush"))
  else push_cmd true LPush cmd.

Definition lPushXList (cmd : list slice) : M World (option RedisData) :=
  bad ← name_is_not cmd (bs "lpushx");
  if bad : bool then mret (err (bs "Server Error"))
  else if zlen cmd <? 3 then mret (wrong_args (bs "lpushx"))
  else push_cmd false LPush cmd.

Definition rPushList (cmd : list slice) : M World (option RedisData) :=
  bad ← name_is_not cmd (bs "rpush");
  if bad : bool then mret lower_server_error
  else if zlen cmd <? 3 then mret (wrong_args (bs "rpush"))
  else push_cmd true RPush cmd.

Definition rPushXList (cmd : list slice) : M World (option RedisData) :=
  bad ← name_is_not cmd (bs "rpushx");
  if bad : bool then mret lower_server_error
  else if zlen cmd <? 3 then mret (wrong_args (bs "rpushX"))
  else push_cmd false RPush cmd.

Definition lSetList (cmd : list slice) : M World (option RedisData) :=
  bad ← name_is_not cmd (bs "lset");
  if bad : bool then mret lower_server_error
  else if negb (zlen cmd =? 4) then mret (wrong_args (bs "lset"))
  else
    c2 ← arg cmd 2;
    match Atoi (str c2) with
    | None => mret (err (bs "index must be an integer"))
    | Some index =>
        c1 ← arg cmd 1;
        let key := str c1 in
        alive ← CheckTTL key;
        if negb alive then mret (err (bs "key not exist"))
        else with_lock key (
          v ← db_Get key;
          match v with
          | None => mret (err (bs "key not exist"))
          | Some (VList _) =>
              c3 ← arg cmd 3;
              success ← on_list key (Set_ index c3);
              mret (if success : bool then simple (bs "OK") else err (bs "index out of range"))
          | Some _ => mret wrongtype
          end)
    end.

Definition lRemList (cmd : list slice) : M World (option RedisData) :=
  bad ← name_is_not cmd (bs "lrem");
  if bad : bool then mret lower_server_error
  else if negb (zlen cmd =? 4) then mret (wrong_args (bs "lrem"))
  else
    c2 ← arg cmd 2;
    match Atoi (str c2) with
    | None => mret (err (bs "count must be an integer"))
    | Some cnt =>
        c1 ← arg cmd 1;
        let key := str c1 in
        alive ← CheckTTL key;
        if negb alive then mret (int 0)
        else with_lock key (
          v ← db_Get key;
          match v with
          | None => mret (int 0)
          | Some (VList _) =>
              c3 ← arg cmd 3;
              res ← on_list key (RemoveElement c3 cnt);
              drop_if_empty key ;;
              mret (int res)
          | Some _ => mret wrongtype
          end)
    end.

Definition lTrimList (cmd : list slice) : M World (option RedisData) :=
  bad ← name_is_not cmd (bs "ltrim");
  if bad : bool then mret lower_server_error
  else if negb (zlen cmd =? 4) then mret (wrong_args (bs "ltrim"))
  else
    c2 ← arg cmd 2; c3 ← arg cmd 3;
    match Atoi (str c2), Atoi (str c3) with
    | Some start, Some end_ =>
        c1 ← arg cmd 1;
        let key := str c1 in
        alive ← CheckTTL key;
        if negb alive then mret (simple (bs "OK"))
        else with_lock key (
          v ← db_Get key;
          match v with
          | None => mret (simple (bs "OK"))
          | Some (VList _) =>
              trim_then_drop key start end_ ;;
              mret (simple (bs "OK"))
          | Some _ => mret wrongtype
          end)
    | _, _ => mret (err (bs "start and end must be an integer"))
    end.

Definition lRangeList (cmd : list slice) : M World (option RedisData) :=
  bad ← name_is_not cmd (bs "lrange");
  if bad : bool then mret lower_server_error
  else if negb (zlen cmd =? 4) then mret (wrong_args (bs "lrange"))
  else
    c2 ← arg cmd 2; c3 ← arg cmd 3;
    match Atoi (str c2), Atoi (str c3) with
    | Some start, Some end_ =>
        c1 ← arg cmd 1;
        let key := str c1 in
        alive ← CheckTTL key;
        if negb alive then mret empty_array
        else with_rlock key (
          v ← db_Get key;
          match v with
          | None => mret empty_array
          | Some (VList _) =>
              temRes ← on_list key (Range start end_);
              mret (match temRes with
                    | None => empty_array
                    | Some vs => array (map MakeBulkData vs)
                    end)
          | Some _ => mret wrongtype
          end)
    | _, _ => mret (err (bs "index must be an integer"))
    end.

Definition lMoveList (cmd : list slice) : M World (option RedisData) :=
  bad ← name_is_not cmd (bs "lmove");
  if bad : bool then mret lower_server_error
  else if negb (zlen cmd =? 5) then mret (wrong_args (bs "lmove"))
  else
    c1 ← arg cmd 1; c2 ← arg cmd 2; c3 ← arg cmd 3; c4 ← arg cmd 4;
    let src := str c1 in let des := str c2 in
    let srcDrc := ToLower (str c3) in let desDrc := ToLower (str c4) in
    let left := bs "left" in let right := bs "right" in
    if (negb (beq srcDrc left) && negb (beq srcDrc right)) || (negb (beq desDrc left) && negb (beq desDrc right))
    then mret (err (bs "options must be left or right"))
    else
      alive ← CheckTTL src;
      if negb alive then mret nil_bulk
      else
        CheckTTL des ;;
        with_locks [src; des] (
          srcTem ← db_Get src;
          match srcTem with
          | None => mret nil_bulk
          | Some (VList _) =>
              srcLen ← list_Len src;
              r ← (if srcLen =? 0 then mret nil_bulk
                   else
                     desTem ← db_Get des;
                     (match desTem with
                      | None => db_Set des (VList NewList) ;; mret tt
                      | Some _ => mret tt
                      end) ;;
                     desTem ← db_Get des;
                     match desTem with
                     | Some (VList _) =>
                         v ← on_list src (popElem ← (if beq srcDrc left then LPop else RPop); getVal popElem);
                         on_list des (if beq desDrc left then LPush v else RPush v) ;;
                         mret (bulk v)
                     | _ => mret wrongtype
                     end);
              drop_if_empty src ;;
              mret r
          | Some _ => mret wrongtype
          end).

(* ===================================================================== *)
(** ** Blocking pops                                                     *)
(* ===================================================================== *)

(** One key of a poll of BLPOP or BRPOP. *)
Definition poll_key (pop : M List (option loc)) (key : bytes) : M World (option RedisData) :=
  with_lock key (
    tmp ← db_Get key;
    match tmp with
    | Some (VList _) =>
        node ← on_list key (node ← pop; node_val node);
        mret (match node with
              | Some v => array [MakeStringData key; MakeBulkData v]
              | None => None
              end)
    | _ => mret None
    end).

(** The keys are polled in order until one has an element. *)
Fixpoint poll (pop : M List (option loc)) (keys : list bytes) : M World (option RedisData) :=
  match keys with
  | [] => mret None
  | key :: keys' =>
      r ← poll_key pop key;
      match r with
      | Some _ => mret r
      | None => poll pop keys'
      end
  end.

(** What a blocked goroutine lives through: a tick of its ticker, the delivery
    of its timer, or something another goroutine (or the clock) does. *)
Inductive event : Type :=
| Tick
| Timeout
| Other (m : M World unit).

(** The [select] loop over a sequence of events; [None] while it still waits.
    The timer delivers nothing before [deadline]. *)
Fixpoint wait_loop (pop : M List (option loc)) (keys : list bytes) (deadline : Z) (evs : list event) :
    M World (option (option RedisData)) :=
  match evs with
  | [] => mret None
  | Tick :: evs' =>
      r ← poll pop keys;
      match r with
      | Some _ => mret (Some r)
      | None => wait_loop pop keys deadline evs'
      end
  | Timeout :: evs' =>
      now ← gets clock;
      if now <? deadline then wait_loop pop keys deadline evs' else mret (Some nil_bulk)
  | Other m :: evs' => m ;; wait_loop pop keys deadline evs'
  end.

(** The duration of the timer: a timeout of 0 waits as long as a timer can. *)
Definition wait_time (timeout : Z) : Z := if timeout =? 0 then MaxInt64 else i64 (timeout * Second).

Definition bXPopList (pop : M List (option loc)) (cmd : list slice) (evs : list event) :
    M World (option (option RedisData)) :=
  c ← or_panic (last cmd);
  match Atoi (str c) with
  | None => mret (Some (err (bs "ERR timeout is not a float or out of range")))
  | Some timeout =>
      now ← gets clock;
      wait_loop pop (map str (take (length cmd - 2) (drop 1 cmd))) (now + Z.max 0 (wait_time timeout)) evs
  end.

Definition blPopList (cmd : list slice) (evs : list event) : M World (option (option RedisData)) :=
  if zlen cmd <? 3 then mret (Some (err (bs "ERR wrong number of arguments for 'blpop' command")))
  else bXPopList LPop cmd evs.

Definition brPopList (cmd : list slice) (evs : list event) : M World (option (option RedisData)) :=
  if zlen cmd <? 3 then mret (Some (err (bs "ERR wrong number of arguments for 'blpop' command")))
  else bXPopList RPop cmd evs.

(** The commands that reply at once. *)
Definition RegisterListCommands : list (bytes * Handler) :=
  [(bs "llen", lLenList); (bs "lindex", lIndexList); (bs "lpos", lPosList); (bs "lpop", lPopList);
   (bs "rpop", rPopList); (bs "lpush", lPushList); (bs "lpushx", lPushXList); (bs "rpush", rPushList);
   (bs "rpushx", rPushXList); (bs "lset", lSetList); (bs "lrem", lRemList); (bs "ltrim", lTrimList);
   (bs "lrange", lRangeList); (bs "lmove", lMoveList)].
End lists.

(* ===================================================================== *)
(** ** The list operations through the cell                              *)
(* ===================================================================== *)

Lemma wp_on_list (pn : bool) {A} k (m : M List A) l w (Q : A -> World -> Prop) :
  Inv w -> kv w !! k = Some (VList l) ->
  wp pn m (fun a l' => linked l' /\ forall w', keeps w tt w' -> kv w' = <[k := VList l']> (kv w) ->
    ttls w' = ttls w -> Q a w') l ->
  wp pn (on_list k m) Q w.
Proof.
  intros Hw Hk Hm. apply wp_bind, wp_db_Get; [apply Hw|]. rewrite Hk.
  unfold wp in Hm. destruct (m l) as [[a l']| |]; [|exact Hm|exact Hm]. destruct Hm as [Hl HQ].
  apply wp_bind, wp_store_kv; [done|done|by rewrite Hk|]. intros w' H1 H2 H3. apply wp_ret. auto.
Qed.

Lemma wp_list_Len (pn : bool) k l w (Q : Z -> World -> Prop) :
  Inv w -> kv w !! k = Some (VList l) -> Q (Len l) w -> wp pn (list_Len k) Q w.
Proof. intros Hw Hk HQ. apply wp_bind, wp_db_Get; [apply Hw|]. by rewrite Hk. Qed.

Lemma pres_on_list {A} k (m : M List A) : lsafe m -> pres (on_list k m).
Proof.
  intros Hm w Hw. destruct (kv w !! k) as [v|] eqn:Ek.
  2:{ apply wp_bind, wp_db_Get; [apply Hw|]. by rewrite Ek. }
  pose proof (inv_vals _ Hw _ _ Ek) as Hv.
  destruct v as [|l| | | |]; try by (apply wp_bind, wp_db_Get; [apply Hw|]; rewrite Ek).
  eapply wp_on_list; [done..|]. eapply wp_mono; [|by apply Hm]. intros a l' Hl. split; [done|]. by intros.
Qed.

Lemma pres_list_Len k : pres (list_Len k).
Proof. unfold list_Len. solve_pres. Qed.

#[export] Hint Resolve pres_on_list pres_list_Len : pres.

Lemma pres_drop_if_empty k : pres (drop_if_empty k).
Proof. unfold drop_if_empty. solve_pres. Qed.

#[export] Hint Resolve pres_drop_if_empty : pres.

(** LTRIM: a Trim that left broken links also left [Len = 0], so the list is
    dropped at once. *)
Lemma pres_trim_drop k s e : pres (trim_then_drop k s e).
Proof.
  intros w Hw. apply wp_bind. apply wp_bind, wp_db_Get; [apply Hw|].
  destruct (kv w !! k) as [v|] eqn:Ek; [|done]. destruct v as [|l| | | |]; try done.
  pose proof (wp_Trim_any s e l (inv_vals _ Hw _ _ Ek)) as Hm. unfold wp at 1 in Hm.
  destruct (Trim s e l) as [[[] l']| |]; [|done..].
  apply wp_bind, wp_store_object; [apply Hw| |by rewrite Ek]. intros d _ HW E. apply wp_ret.
  apply wp_bind, wp_bind, wp_db_Get; [done|]. change (kv (put db_l d w)) with (to_map d).
  rewrite E, lookup_insert_eq. apply wp_ret. destruct (Len l' =? 0) eqn:E0.
  - apply wp_dropKey_any; [done|done|by rewrite E, delete_insert_eq|]. intros w' H _ _. exact H.
  - apply wp_ret. apply Z.eqb_neq in E0. destruct Hm as [Hm|Hm]; [|done].
    split; [|done]. by eapply Inv_insert.
Qed.

(** [p] reaches [stop] in at most [n] steps, without changing the list. *)
Fixpoint reach (step : option loc -> M List (option loc)) (stop : option loc) (l : List) (n : nat)
    (p : option loc) : Prop :=
  p = stop \/
  match n with
  | O => False
  | S n' => exists q, step p l = Ret (q, l) /\ reach step stop l n' q
  end.

Section reach.
Context (l : List) (step : option loc -> M List (option loc)) (stop : option loc).

Lemma reach_step n p : p <> stop -> reach step stop l (S n) p ->
  exists q, step p l = Ret (q, l) /\ reach step stop l n q.
Proof. intros Hp [?|?]; [done|done]. Qed.

Lemma wp_reach {B} n p (k : option loc -> M List B) Q :
  p <> stop -> reach step stop l (S n) p ->
  (forall q, reach step stop l n q -> wp true (k q) Q l) -> wp true (q ← step p; k q) Q l.
Proof.
  intros Hp Hr Hk. destruct (reach_step _ _ Hp Hr) as (q & E & Hq). apply wp_bind. unfold wp at 1.
  rewrite E. by apply Hk.
Qed.

Lemma wp_getVal_same {B} p (k : slice -> M List B) Q :
  (forall v, wp true (k v) Q l) -> wp true (v ← getVal p; k v) Q l.
Proof. intros Hk. apply wp_bind. eapply wp_mono; [|apply same_getVal]. intros v l' ->. apply Hk. Qed.

Lemma wp_rank_loop (P : option loc -> Prop) fuel n d elem hasMax s (Q : pos_state -> List -> Prop) :
  (forall p q, P p -> p <> stop -> step p l = Ret (q, l) -> P q) ->
  P (p_now s) -> reach step stop l n (p_now s) -> (n < fuel)%nat ->
  (forall s', P (p_now s') -> Q s' l) ->
  wp true (rank_loop fuel step stop d elem hasMax s) Q l.
Proof.
  intros HP. revert n s. induction fuel as [|fuel IH]; intros n s Hs Hr Hn HQ; [lia|]. cbn [rank_loop].
  case_bool_decide as He; [by apply wp_ret, HQ|]. apply wp_getVal_same. intros v. cbv zeta.
  destruct n as [|n]; [by destruct Hr|]. case_match; [by apply wp_ret, HQ|].
  destruct (reach_step _ _ He Hr) as (q & E & Hq). apply wp_bind. unfold wp at 1. rewrite E.
  eapply (IH n); [by eapply HP|done|lia|done].
Qed.

Lemma wp_first_loop fuel n elem hasMax p pos mx :
  step = getNext -> reach step stop l n p -> (n < fuel)%nat ->
  wp true (first_loop fuel stop elem hasMax p pos mx) (fun _ l' => l' = l) l.
Proof.
  intros Es. revert n p pos mx. induction fuel as [|fuel IH]; intros n p pos mx Hr Hn; [lia|].
  cbn [first_loop]. case_bool_decide as Hs; [done|]. apply wp_getVal_same. intros v.
  destruct n as [|n]; [by destruct Hr|]. case_match; [done|]. case_match; [done|].
  rewrite <- Es. eapply wp_reach; [done..|]. intros q Hq. eapply (IH n); [done|lia].
Qed.

Lemma wp_count_loop fuel n d elem hasMax p pos cnt mx res :
  reach step stop l n p -> (n < fuel)%nat ->
  wp true (count_loop fuel step stop d elem hasMax p pos cnt mx res) (fun _ l' => l' = l) l.
Proof.
  revert n p pos cnt mx res. induction fuel as [|fuel IH]; intros n p pos cnt mx res Hr Hn; [lia|].
  cbn [count_loop]. case_bool_decide as Hs; [done|]. cbn [orb]. case_match; [done|].
  apply wp_getVal_same. intros v. destruct n as [|n]; [by destruct Hr|]. case_match; [done|].
  eapply wp_reach; [done..|]. intros q Hq. eapply (IH n); [done|lia].
Qed.
End reach.

Lemma wp_Ret {A} (m : M List A) l (P : A -> Prop) : wp false m (fun a l' => P a /\ l' = l) l ->
  exists a, m l = Ret (a, l) /\ P a.
Proof. unfold wp. destruct (m l) as [[a l']| |]; [|done..]. intros [? ->]. eauto. Qed.

Lemma reach_next l hv path tv i : rep l hv path tv -> (i < length (full l hv path tv))%nat ->
  reach getNext (Some (Tail l)) l (length path + 1 - i) (at_path (full l hv path tv) i).
Proof.
  intros Hr. rewrite full_length. remember (length path + 1 - i)%nat as n eqn:En. revert i En.
  induction n as [|n IH]; intros i En Hi.
  - left. replace i with (S (length path)) by lia. apply at_full_tail.
  - right. destruct (wp_Ret (getNext (at_path (full l hv path tv) i)) l
      (fun q => q = at_path (full l hv path tv) (S i))) as (q & E & ->).
    { apply wp_full_next; [done|rewrite full_length; lia|done]. }
    eexists. split; [exact E|]. apply IH; lia.
Qed.

Lemma reach_prev l hv path tv i : rep l hv path tv -> (i < length (full l hv path tv))%nat ->
  reach getPrev (Some (Head l)) l i (at_path (full l hv path tv) i).
Proof.
  intros Hr. induction i as [|i IH]; intros Hi; [by left|]. right.
  destruct (wp_Ret (getPrev (at_path (full l hv path tv) (S i))) l
      (fun q => q = at_path (full l hv path tv) i)) as (q & E & ->).
  { by apply wp_full_prev. }
  eexists. split; [exact E|]. apply IH. lia.
Qed.

(** The pointers LPOS moves around. *)
Definition on_path (l : List) (hv : slice) (path : node_path) (tv : slice) (p : option loc) : Prop :=
  exists i, (i < length (full l hv path tv))%nat /\ p = at_path (full l hv path tv) i.

Section lpos.
Context (l : List) (hv tv : slice) (path : node_path) (Hr : rep l hv path tv).

Lemma on_path_next p q : on_path l hv path tv p -> p <> Some (Tail l) -> getNext p l = Ret (q, l) ->
  on_path l hv path tv q.
Proof.
  intros (i & Hi & ->) Hp E. assert (i <> S (length path)) by (intros ->; by rewrite at_full_tail in Hp).
  rewrite full_length in Hi. exists (S i). split; [rewrite full_length; lia|].
  assert (H1 : wp false (getNext (at_path (full l hv path tv) i))
    (fun q' _ => q' = at_path (full l hv path tv) (S i)) l).
  { apply wp_full_next; [done|rewrite full_length; lia|done]. }
  unfold wp in H1. by rewrite E in H1.
Qed.

Lemma on_path_prev p q : on_path l hv path tv p -> p <> Some (Head l) -> getPrev p l = Ret (q, l) ->
  on_path l hv path tv q.
Proof.
  intros (i & Hi & ->) Hp E. destruct i as [|i]; [done|]. exists i. split; [lia|].
  assert (H1 : wp false (getPrev (at_path (full l hv path tv) (S i)))
    (fun q' _ => q' = at_path (full l hv path tv) i) l) by (by apply wp_full_prev).
  unfold wp in H1. by rewrite E in H1.
Qed.

Lemma on_path_reach_next p : on_path l hv path tv p ->
  exists n, (n < S (base.size (heap l)))%nat /\ reach getNext (Some (Tail l)) l n p.
Proof.
  intros (i & Hi & ->). eexists. split; [|by apply reach_next].
  pose proof (seg_size _ _ _ _ (rep_seg _ _ _ _ Hr) (rep_nodup _ _ _ _ Hr)) as H. rewrite full_length in H. lia.
Qed.

Lemma on_path_reach_prev p : on_path l hv path tv p ->
  exists n, (n < S (base.size (heap l)))%nat /\ reach getPrev (Some (Head l)) l n p.
Proof.
  intros (i & Hi & ->). eexists. split; [|by apply reach_prev].
  pose proof (seg_size _ _ _ _ (rep_seg _ _ _ _ Hr) (rep_nodup _ _ _ _ Hr)) as H. lia.
Qed.

Lemma wp_lpos_list elem o : wp true (lpos_list elem o) (fun _ l' => l' = l) l.
Proof.
  unfold lpos_list, getLen, loop_fuel, getHead, getTail. apply wp_bind, wp_gets. case_match; [done|].
  cbv zeta. case_match; [apply wp_bind; by eapply wp_Pos|]. do 3 apply wp_bind, wp_gets.
  apply wp_bind. pose proof (full_length l hv path tv) as Hlen.
  apply (wp_mono _ _ (fun s l1 => l1 = l /\ on_path l hv path tv (p_now s))).
  { intros s ? [-> Hs]. destruct (on_path_reach_next _ Hs) as (n & Hn & Rn).
    destruct (on_path_reach_prev _ Hs) as (m & Hm & Rm).
    case_match; [done|]. case_match; apply wp_bind.
    - eapply wp_mono; [|by eapply wp_first_loop]. by intros ? ? ->.
    - case_match; (eapply wp_mono; [|by eapply wp_count_loop]; by intros ? ? ->). }
  destruct (rank o); [destruct (0 <? rankVal o)|].
  - apply wp_bind. change (Some (Head l)) with (at_path (full l hv path tv) 0).
    apply wp_full_next; [done|lia|].
    assert (H1 : on_path l hv path tv (at_path (full l hv path tv) 1)) by (exists 1%nat; split; [lia|done]).
    destruct (on_path_reach_next _ H1) as (n & Hn & Rn).
    eapply (wp_rank_loop _ _ _ (on_path l hv path tv) _ n); [apply on_path_next|done..].
  - apply wp_bind. rewrite <- (at_full_tail l hv path tv) at 1.
    apply wp_full_prev; [done|lia|].
    assert (H1 : on_path l hv path tv (at_path (full l hv path tv) (length path))) by (exists (length path); split; [lia|done]).
    destruct (on_path_reach_prev _ H1) as (n & Hn & Rn).
    eapply (wp_rank_loop _ _ _ (on_path l hv path tv) _ n); [apply on_path_prev|done..].
  - apply wp_bind. change (Some (Head l)) with (at_path (full l hv path tv) 0).
    apply wp_full_next; [done|lia|]. apply wp_ret. split; [done|]. exists 1%nat. split; [lia|done].
Qed.
End lpos.

Lemma lsafe_lpos_list elem o : lsafe (lpos_list elem o).
Proof.
  intros l (hv & path & tv & Hr). eapply wp_mono; [|by eapply wp_lpos_list].
  intros ? ? ->. by do 3 eexists.
Qed.

(* ===================================================================== *)
(** ** Every list command keeps the invariant and releases its locks     *)
(* ===================================================================== *)

Lemma lsafe_node_val p : lsafe (node_val p).
Proof. apply same_lsafe. unfold node_val. solve_same. Qed.

Lemma lsafe_pop_val pop : lsafe pop -> lsafe (p ← pop; node_val p).
Proof. intros H. apply lsafe_bind; [done|apply lsafe_node_val]. Qed.

Lemma lsafe_pop_loop n pop res : lsafe pop -> lsafe (pop_loop n pop res).
Proof.
  intros Hp. revert res. induction n as [|n IH]; intros res; [by apply same_lsafe|].
  apply lsafe_bind; [done|]. intros [e|]; [|by apply same_lsafe].
  apply lsafe_bind; [apply same_lsafe, same_getVal|]. intros v. apply IH.
Qed.

Lemma lsafe_push_all push vs : (forall v, lsafe (push v)) -> lsafe (push_all push vs).
Proof.
  intros Hp l Hl. unfold push_all, forM. apply (wp_foldM _ _ (fun _ _ => linked)).
  - intros x l0 acc s Hs. by apply Hp.
  - done.
  - done.
Qed.

Lemma lsafe_if {A} (b : bool) (m1 m2 : M List A) : lsafe m1 -> lsafe m2 -> lsafe (if b then m1 else m2).
Proof. by destruct b. Qed.

Lemma lsafe_pop_getVal pop : lsafe pop -> lsafe (p ← pop; getVal p).
Proof. intros H. apply lsafe_bind; [done|]. intros p. apply same_lsafe, same_getVal. Qed.

Lemma linked_NewList : linked NewList.
Proof. destruct wfl_NewList as (hv & path & tv & Hr & _). by exists hv, path, tv. Qed.

#[export] Hint Resolve lsafe_node_val lsafe_pop_val lsafe_pop_loop lsafe_push_all lsafe_lpos_list lsafe_if lsafe_pop_getVal
  linked_NewList : linked.
#[export] Hint Resolve pres_trim_drop : pres.
#[export] Hint Extern 2 (lsafe _) => solve [auto with linked] : pres.
#[export] Hint Extern 2 (val_ok (VList NewList)) => exact linked_NewList : pres.

Lemma lists_safe {rt : GoRuntime} name h cmd : (name, h) ∈ RegisterListCommands -> safe (h cmd).
Proof.
  unfold RegisterListCommands. rewrite !elem_of_cons, elem_of_nil.
  intros H. repeat destruct H as [[= -> ->]|H]; [..|done];
    unfold lLenList, lIndexList, lPosList, lPopList, rPopList, pop_cmd, lPushList, lPushXList, rPushList,
      rPushXList, push_cmd, lSetList, lRemList, lTrimList, lRangeList, lMoveList;
    solve_safe.
Qed.

(* ===================================================================== *)
(** ** What the commands do to the values                                *)
(* ===================================================================== *)

(** The two ends of a list of values. *)
Definition push_at (left : bool) (v : slice) (vs : list slice) : list slice :=
  if left then v :: vs else vs ++ [v].

Definition pop_at (left : bool) (vs : list slice) : option (slice * list slice) :=
  if left then match vs with [] => None | v :: vs' => Some (v, vs') end
  else match last vs with None => None | Some v => Some (v, take (length vs - 1) vs) end.

Fixpoint pop_n (left : bool) (n : nat) (vs : list slice) : list slice * list slice :=
  match n, pop_at left vs with
  | S n', Some (v, vs') => let '(r, rest) := pop_n left n' vs' in (v :: r, rest)
  | _, _ => ([], vs)
  end.

Definition Push (left : bool) (v : slice) : M List unit := if left then LPush v else RPush v.
Definition Pop (left : bool) : M List (option loc) := if left then LPop else RPop.

Lemma wfl_linked l vs : wfl l vs -> linked l.
Proof. intros (hv & path & tv & Hr & _). by exists hv, path, tv. Qed.

Lemma wfl_len l vs : wfl l vs -> Len l = zlen vs.
Proof. by intros (hv & path & tv & _ & _ & E & _). Qed.

Lemma wp_push_wfl (pn left : bool) v l vs (Q : unit -> List -> Prop) :
  wfl l vs -> zlen vs < MaxInt64 -> (forall l', wfl l' (push_at left v vs) -> Q tt l') ->
  wp pn (Push left v) Q l.
Proof.
  intros (hv & path & tv & Hr & <- & HL & _) Hb HQ. rewrite zlen_fmap in *. pose proof (zlen_nonneg path).
  destruct left; [eapply wp_LPush|eapply wp_RPush]; try done; intros l' Hr' HL'; apply HQ;
    rewrite HL, len_small in HL' by lia; exists hv; eexists; exists tv; (split; [exact Hr'|]);
    cbn [push_at]; rewrite ?zlen_cons, ?zlen_snoc, ?zlen_fmap; (split; [by rewrite ?fmap_app|]); lia.
Qed.

Lemma wp_pop_wfl (pn left : bool) l vs (Q : option loc -> List -> Prop) :
  wfl l vs ->
  match pop_at left vs with
  | None => Q None l
  | Some (v, vs') => forall x l' nd, wfl l' vs' -> heap l' !! x = Some nd -> Val nd = v -> Q (Some x) l'
  end ->
  wp pn (Pop left) Q l.
Proof.
  intros (hv & path & tv & Hr & <- & HL & Hb) HQ. rewrite zlen_fmap in *. destruct left; cbn in HQ |- *.
  - destruct path as [|[x v] path]; [by apply wp_LPop_zero|]. rewrite zlen_cons in *. pose proof (zlen_nonneg path).
    eapply wp_LPop; [done|lia|]. intros l' Hr' Hx HL'. eapply HQ; [|done|done].
    rewrite HL, len_small in HL' by lia. apply (mk_wfl l' hv path tv); [done|lia|lia].
  - destruct (snoc_cases path) as [->|(p & [x v] & ->)]; [by apply wp_RPop_zero|].
    rewrite zlen_snoc, fmap_app in *. cbn in HQ. rewrite last_snoc, length_app, Nat.add_sub in HQ.
    rewrite take_app_length in HQ. pose proof (zlen_nonneg p).
    eapply wp_RPop; [done|lia|]. intros l' Hr' Hx HL'. eapply HQ; [|done|done].
    rewrite HL, len_small in HL' by lia. apply (mk_wfl l' hv p tv); [done|lia|lia].
Qed.

Lemma wp_push_all_wfl (pn left : bool) vals l vs (Q : unit -> List -> Prop) :
  wfl l vs -> zlen vs + zlen vals <= MaxInt64 ->
  (forall l', wfl l' (if left then reverse vals ++ vs else vs ++ vals) -> Q tt l') ->
  wp pn (push_all (Push left) vals) Q l.
Proof.
  unfold push_all, forM. generalize tt at 2. revert l vs.
  induction vals as [|v vals IH]; intros l vs u Hl Hb HQ; cbn [foldM].
  { apply wp_ret. destruct u. apply HQ. destruct left; [done|]. by rewrite app_nil_r. }
  rewrite zlen_cons in Hb. pose proof (zlen_nonneg vals). apply wp_bind.
  apply (wp_push_wfl _ left v l vs); [done|lia|]. intros l' Hl'. apply (IH l' (push_at left v vs)); [done| |].
  - destruct left; cbn [push_at]; rewrite ?zlen_cons, ?zlen_snoc; lia.
  - intros l2 Hl2. apply HQ. destruct left; cbn [push_at] in Hl2.
    + by rewrite reverse_cons, <- (assoc_L (++)).
    + by rewrite <- (assoc_L (++)) in Hl2.
Qed.

Lemma wp_pop_loop_wfl (pn left : bool) n res l vs (Q : list slice -> List -> Prop) :
  wfl l vs -> (forall l', wfl l' (pop_n left n vs).2 -> Q (res ++ (pop_n left n vs).1) l') ->
  wp pn (pop_loop n (Pop left) res) Q l.
Proof.
  revert res l vs. induction n as [|n IH]; intros res l vs Hl HQ; cbn [pop_loop pop_n].
  { apply wp_ret. specialize (HQ l Hl). cbn in HQ. by rewrite app_nil_r in HQ. }
  apply wp_bind, (wp_pop_wfl _ _ _ vs); [done|]. cbn [pop_n] in HQ.
  destruct (pop_at left vs) as [[v vs']|].
  - intros x l' nd Hl' Hx Hv. apply wp_bind. eapply wp_getVal; [done|]. apply (IH _ _ vs'); [done|].
    rewrite Hv. destruct (pop_n left n vs') as [r rest]. intros l2 Hl2. rewrite <- (assoc_L (++)). by apply HQ.
  - apply wp_ret. specialize (HQ l Hl). cbn in HQ. by rewrite app_nil_r in HQ.
Qed.

(** [k] holds the list [vs]; a missing key counts as the empty list. *)
Definition list_at (w : World) (k : bytes) (vs : list slice) : Prop :=
  match kv w !! k with
  | None => vs = []
  | Some (VList l) => wfl l vs
  | Some _ => False
  end.

Section theorems.
Context {rt : GoRuntime}.

Lemma wp_push_cmd (pn left : bool) c k vals vs w (Q : option RedisData -> World -> Prop) :
  Inv w -> all_free (locks w) -> ~ expired w (str k) -> list_at w (str k) vs ->
  zlen vs + zlen vals <= MaxInt64 ->
  (forall w' l', keeps w tt w' -> kv w' = <[str k := VList l']> (kv w) -> ttls w' = ttls w ->
     wfl l' (if left then reverse vals ++ vs else vs ++ vals) -> Q (int (zlen vs + zlen vals)) w') ->
  wp pn (push_cmd true (Push left) (c :: k :: vals)) Q w.
Proof.
  intros Hw Hl He Hk Hb HQ. unfold push_cmd. apply wp_bind. eapply wp_arg; [done|]. cbv zeta.
  apply wp_bind, wp_CheckTTL; [done|done| |by intros]. intros _.
  apply wp_with_lock; [done|done|]. intros w1 Hw1 Ek Et Ec En. cbn [drop].
  assert (Hgo : forall w2 l, keeps w1 tt w2 -> kv w2 !! str k = Some (VList l) -> wfl l vs ->
    <[str k := VList l]> (kv w) = kv w2 -> ttls w2 = ttls w ->
    wp pn (on_list (str k) (push_all (Push left) vals) ;; len ← list_Len (str k); mret (int len))
      (fun a w3 => keeps w1 a w3 /\ forall w4, keeps w a w4 -> kv w4 = kv w3 -> ttls w4 = ttls w3 -> Q a w4) w2).
  { intros w2 l K2 E2 Hwl Ekv Ett. pose proof (keeps_Inv _ _ _ K2) as Hw2.
    apply wp_bind. eapply wp_on_list; [done..|]. eapply wp_push_all_wfl; [done..|]. intros l' Hl'.
    split; [by eapply wfl_linked|]. intros w3 K3 E3 Et3. pose proof (keeps_Inv _ _ _ K3) as Hw3.
    apply wp_bind. eapply wp_list_Len; [done|by rewrite E3, lookup_insert_eq|]. apply wp_ret.
    split; [by eapply keeps_trans|]. intros w4 K4 E4 Et4.
    replace (Len l') with (zlen vs + zlen vals).
    - apply (HQ w4 l'); [done| |congruence|done]. by rewrite E4, E3, <- Ekv, insert_insert_eq.
    - rewrite (wfl_len _ _ Hl'). destruct left; rewrite zlen_app; [|done].
      unfold zlen. rewrite length_reverse. lia. }
  apply wp_bind, wp_db_Get; [apply Hw1|]. rewrite Ek. unfold list_at in Hk.
  destruct (kv w !! str k) as [v|] eqn:E.
  - destruct v as [|l| | | |]; try done. apply (Hgo w1 l); [by apply keeps_refl|by rewrite Ek|done| |done].
    rewrite Ek. by apply insert_id.
  - subst vs. apply wp_bind, wp_Set_kv; [done|exact linked_NewList|]. intros w2 K2 E2 Et2.
    apply (Hgo w2 NewList); [done|by rewrite E2, lookup_insert_eq|apply wfl_NewList|by rewrite E2, Ek|congruence].
Qed.

(** LPUSH and RPUSH. On a missing key or a list, the values are pushed one
    by one at the front or at the back, the reply is the new length, and nothing
    else changes, deadlines included. *)
Theorem push_spec (w : World) (left : bool) (c k v : slice) (vals vs : list slice)
  (Hw : Inv w) (Hl : all_free (locks w))
  (Hc : ToLower (str c) = if left then bs "lpush" else bs "rpush")
  (He : ~ expired w (str k)) (Hk : list_at w (str k) vs) (Hb : zlen vs + zlen (v :: vals) <= MaxInt64) :
  exists w' l', (if left then lPushList else rPushList) (c :: k :: v :: vals) w =
      Ret (int (zlen vs + zlen (v :: vals)), w') /\
    keeps w tt w' /\ kv w' = <[str k := VList l']> (kv w) /\ ttls w' = ttls w /\
    wfl l' (if left then reverse (v :: vals) ++ vs else vs ++ v :: vals).
Proof.
  destruct (wp_returns ((if left then lPushList else rPushList) (c :: k :: v :: vals))
    (int (zlen vs + zlen (v :: vals))) (fun w' => exists l', keeps w tt w' /\
      kv w' = <[str k := VList l']> (kv w) /\ ttls w' = ttls w /\
      wfl l' (if left then reverse (v :: vals) ++ vs else vs ++ v :: vals)) w) as (w' & E & l' & H).
  - pose proof (zlen_nonneg vals).
    destruct left; [unfold lPushList|unfold rPushList]; (apply wp_bind, wp_name; [done|]);
      rewrite !zlen_cons; zb;
      [apply (wp_push_cmd false true c k (v :: vals) vs)|apply (wp_push_cmd false false c k (v :: vals) vs)];
      try done; intros w' l' H1 H2 H3 H4; (split; [by rewrite zlen_cons|]); by exists l'.
  - by exists w', l'.
Qed.

Lemma pop_n_spec (left : bool) n vs :
  pop_n left n vs = (take n (if left then vs else reverse vs), if left then drop n vs else take (length vs - n) vs).
Proof.
  revert vs. induction n as [|n IH]; intros vs; cbn [pop_n].
  { destruct left; [done|]. rewrite Nat.sub_0_r. by rewrite (firstn_all vs). }
  destruct left; cbn [pop_at].
  - destruct vs as [|v vs]; [done|]. by rewrite IH.
  - destruct (snoc_cases vs) as [->|(p & x & ->)]; [done|].
    rewrite last_snoc, length_app, Nat.add_sub, take_app_length, IH, reverse_snoc. cbn [length take].
    f_equal. rewrite take_app_le by lia. f_equal. lia.
Qed.

Lemma pop_n_rest (left : bool) n vs : length (pop_n left n vs).2 = (length vs - n)%nat.
Proof. rewrite pop_n_spec. destruct left; cbn; rewrite ?length_drop, ?length_take; lia. Qed.

Lemma pop_n_enough (left : bool) n m vs : (length vs <= n)%nat -> (length vs <= m)%nat ->
  pop_n left n vs = pop_n left m vs.
Proof.
  intros Hn Hm. rewrite !pop_n_spec. destruct left.
  - by rewrite !take_ge, !drop_ge by done.
  - rewrite (take_ge (reverse vs) n), (take_ge (reverse vs) m) by (by rewrite length_reverse).
    by replace (length vs - n)%nat with (length vs - m)%nat by lia.
Qed.

Lemma wp_drop_if_empty (pn : bool) k l vs w (Q : unit -> World -> Prop) :
  Inv w -> kv w !! k = Some (VList l) -> wfl l vs ->
  (vs <> [] -> Q tt w) ->
  (forall w', vs = [] -> keeps w tt w' -> kv w' = delete k (kv w) -> ttls w' = delete k (ttls w) -> Q tt w') ->
  wp pn (drop_if_empty k) Q w.
Proof.
  intros Hw Hk Hl H1 H0. apply wp_bind. eapply wp_list_Len; [done..|]. rewrite (wfl_len _ _ Hl).
  destruct vs as [|v vs].
  - apply wp_dropKey; [done|]. intros w' K E1 E2. by apply H0.
  - rewrite zlen_cons. pose proof (zlen_nonneg vs). zb. by apply wp_ret, H1.
Qed.

(** LPOP and RPOP with a count. The reply holds the popped elements in the
    order they are popped; what is left stays in the list, and a list that is
    emptied disappears together with its deadline. *)
Theorem pop_spec (w : World) (left : bool) (c k n : slice) (l : List) (vs : list slice) (z : Z)
  (Hw : Inv w) (Hl : all_free (locks w))
  (Hc : ToLower (str c) = if left then bs "lpop" else bs "rpop") (Hn : Atoi (str n) = Some z) (Hz : 0 < z)
  (He : ~ expired w (str k)) (Hk : kv w !! str k = Some (VList l)) (Hv : wfl l vs) :
  exists w', (if left then lPopList else rPopList) [c; k; n] w =
      Ret (array (map MakeBulkData (take (Z.to_nat z) (if left then vs else reverse vs))), w') /\
    keeps w tt w' /\
    (if zlen vs <=? z then kv w' = delete (str k) (kv w) /\ ttls w' = delete (str k) (ttls w)
     else exists l', kv w' = <[str k := VList l']> (kv w) /\ ttls w' = ttls w /\
       wfl l' (if left then drop (Z.to_nat z) vs else take (Z.to_nat (zlen vs - z)) vs)).
Proof.
  apply wp_returns.
  assert (E : pop_n left (Z.to_nat (Z.min z (Len l + 1))) vs = pop_n left (Z.to_nat z) vs).
  { rewrite (wfl_len _ _ Hv). unfold zlen. destruct (Z.min_spec z (Z.of_nat (length vs) + 1)) as [[? ->]|[? ->]];
      [done|]. apply pop_n_enough; lia. }
  pose proof (pop_n_rest left (Z.to_nat z) vs) as Hrest.
  rewrite (pop_n_spec _ (Z.to_nat z)) in E, Hrest. cbn [snd] in Hrest. set (rest := if left then drop _ vs else _) in *.
  assert (Erest : (if left then drop (Z.to_nat z) vs else take (Z.to_nat (zlen vs - z)) vs) = rest).
  { unfold rest, zlen. destruct left; [done|]. f_equal. lia. }
  rewrite Erest. cut (wp false (pop_cmd (if left then bs "lpop" else bs "rpop") (Pop left) [c; k; n])
    (fun a w' => a = array (map MakeBulkData (take (Z.to_nat z) (if left then vs else reverse vs))) /\
    keeps w tt w' /\
    (if zlen vs <=? z then kv w' = delete (str k) (kv w) /\ ttls w' = delete (str k) (ttls w)
     else exists l', kv w' = <[str k := VList l']> (kv w) /\ ttls w' = ttls w /\ wfl l' rest)) w).
  { destruct left; [done|]. intros H. unfold rPopList. by apply wp_bind, wp_name. }
  unfold pop_cmd. change (zlen [c; k; n]) with 3. cbn [Z.eqb Pos.eqb negb andb].
  apply wp_bind, wp_bind. eapply wp_arg; [done|]. rewrite Hn. zb. apply wp_ret, wp_bind. eapply wp_arg; [done|].
  cbv zeta. apply wp_bind, wp_CheckTTL; [done|done| |by intros]. intros _. cbn [negb].
  apply wp_with_lock; [done|done|]. intros w1 Hw1 Ek Et Ec En.
  apply wp_bind, wp_db_Get; [apply Hw1|]. rewrite Ek, Hk. zb.
  apply wp_bind, wp_bind. eapply wp_list_Len; [done|by rewrite Ek|].
  apply wp_bind. eapply wp_on_list; [done|by rewrite Ek|]. eapply wp_pop_loop_wfl; [done|].
  rewrite E. cbn [fst snd app]. intros l' Hl'. split; [by eapply wfl_linked|].
  intros w2 K2 E2 Et2. apply wp_ret, wp_bind. pose proof (keeps_Inv _ _ _ K2) as Hw2.
  eapply wp_drop_if_empty; [done|by rewrite E2, lookup_insert_eq|done| |].
  - intros Hne. apply wp_ret. split; [done|]. intros w3 K3 E3 Et3. split; [done|]. split; [done|].
    assert (z < zlen vs). { destruct rest; [done|]. cbn in Hrest. unfold zlen. lia. }
    zb. exists l'. split; [by rewrite E3, E2, Ek|]. split; [congruence|done].
  - intros w3 He0 K3 E3 Et3. apply wp_ret. split; [by eapply keeps_trans|].
    intros w4 K4 E4 Et4. split; [done|]. split; [done|]. rewrite He0 in Hrest. cbn in Hrest.
    assert (zlen vs <= z) by (unfold zlen; lia). zb.
    rewrite E4, E3, E2, Ek, Et4, Et3, Et2, Et, delete_insert_eq. done.
Qed.

Lemma pop_at_cons (left : bool) vs x rest : pop_at left vs = Some (x, rest) -> zlen vs = zlen rest + 1.
Proof.
  destruct left; cbn.
  - destruct vs; intros [= -> ->]. by rewrite zlen_cons, Z.add_comm.
  - destruct (snoc_cases vs) as [->|(p & y & ->)]; [done|].
    rewrite last_snoc, length_app, Nat.add_sub, take_app_length. intros [= -> ->]. apply zlen_snoc.
Qed.

(** The list part of LMOVE: pop from [src], push to [des], drop [src] if it is
    empty. The two keys may be the same. *)
Lemma wp_move (pn sl dl : bool) src des l1 l2 vs ds x rest w (Q : slice -> World -> Prop) :
  Inv w -> kv w !! src = Some (VList l1) -> wfl l1 vs -> pop_at sl vs = Some (x, rest) ->
  kv w !! des = Some (VList l2) -> wfl l2 ds -> zlen ds < MaxInt64 ->
  (forall w' l', keeps w tt w' -> kv w' !! des = Some (VList l') ->
     wfl l' (push_at dl x (if decide (src = des) then rest else ds)) ->
     (src <> des -> list_at w' src rest /\ (rest = [] -> kv w' !! src = None /\ ttls w' !! src = None)) ->
     (forall k, k <> src -> k <> des -> kv w' !! k = kv w !! k) -> Q x w') ->
  wp pn (v ← on_list src (popElem ← Pop sl; getVal popElem);
         on_list des (Push dl v) ;; drop_if_empty src ;; mret v) Q w.
Proof.
  intros Hw H1 Hv Hp H2 Hd Hb HQ. pose proof (pop_at_cons _ _ _ _ Hp) as Hz.
  apply wp_bind. eapply wp_on_list; [done..|]. apply wp_bind. eapply wp_pop_wfl; [done|]. rewrite Hp.
  intros a l1' nd Hl1 Ha Hnd. eapply wp_getVal; [done|]. rewrite Hnd.
  split; [by eapply wfl_linked|]. intros w1 K1 E1 Et1. pose proof (keeps_Inv _ _ _ K1) as Hw1.
  assert (Hdes : exists l2', kv w1 !! des = Some (VList l2') /\ wfl l2' (if decide (src = des) then rest else ds)).
  { rewrite E1. destruct (decide (src = des)) as [<-|Hne].
    - exists l1'. by rewrite lookup_insert_eq.
    - exists l2. by rewrite lookup_insert_ne. }
  destruct Hdes as (l2' & Hdes & Hl2). apply wp_bind. eapply wp_on_list; [done..|].
  eapply wp_push_wfl; [done| |].
  { case_decide as Hsd; [|done]. subst des. rewrite H1 in H2. injection H2 as <-.
    assert (zlen vs = zlen ds) by (by rewrite <- (wfl_len _ _ Hv), <- (wfl_len _ _ Hd)). lia. }
  intros l3 Hl3. split; [by eapply wfl_linked|]. intros w2 K2 E2 Et2. pose proof (keeps_Inv _ _ _ K2) as Hw2.
  assert (K02 : keeps w tt w2) by (by eapply keeps_trans).
  apply wp_bind. destruct (decide (src = des)) as [<-|Hne].
  - eapply (wp_drop_if_empty _ src l3); [done|by rewrite E2, lookup_insert_eq|done| |by destruct dl, rest].
    intros _. apply wp_ret, (HQ w2 l3); [done|by rewrite E2, lookup_insert_eq|done|done|].
    intros k Hk _. by rewrite E2, lookup_insert_ne, E1, lookup_insert_ne.
  - assert (Hs2 : kv w2 !! src = Some (VList l1')) by (by rewrite E2, lookup_insert_ne, E1, lookup_insert_eq).
    eapply (wp_drop_if_empty _ src l1'); [done..| |].
    + intros Hr. apply wp_ret, (HQ w2 l3); [done|by rewrite E2, lookup_insert_eq|done| |].
      * intros _. unfold list_at. by rewrite Hs2.
      * intros k Hk1 Hk2. by rewrite E2, lookup_insert_ne, E1, lookup_insert_ne.
    + intros w3 Hr K3 E3 Et3. apply wp_ret, (HQ w3 l3); [by eapply keeps_trans| |done| |].
      * by rewrite E3, lookup_delete_ne, E2, lookup_insert_eq.
      * intros _. unfold list_at. rewrite E3, Et3, !lookup_delete_eq. done.
      * intros k Hk1 Hk2. by rewrite E3, lookup_delete_ne, E2, lookup_insert_ne, E1, lookup_insert_ne.
Qed.

Definition side (left : bool) : bytes := if left then bs "left" else bs "right".

(** The reply of LMOVE is made before the deferred check runs. *)
Lemma wp_move_reply (pn : bool) (A : M World slice) (B : slice -> M World unit) (D : M World unit) w Q :
  wp pn (v ← A; B v ;; D ;; mret v) (fun v => Q (bulk v)) w ->
  wp pn (r ← (v ← A; B v ;; mret (bulk v)); D ;; mret r) Q w.
Proof.
  unfold wp, mbind, M_bind. destruct (A w) as [[v w1]| |]; [|done..]. destruct (B v w1) as [[[] w2]| |]; [|done..].
  cbn. by destruct (D w2) as [[[] w3]| |].
Qed.

(** C29: LMOVE takes the element at the chosen end of the source and adds it at
    the chosen end of the destination, which is created if it is missing and
    may be the source itself; a source that becomes empty disappears with its
    deadline, and no other key changes. *)
Theorem lmove_spec (w : World) (sl dl : bool) (c s d a b : slice) (l : List) (vs ds rest : list slice) (x : slice)
  (Hw : Inv w) (Hl : all_free (locks w)) (Hc : ToLower (str c) = bs "lmove")
  (Ha : ToLower (str a) = side sl) (Hb : ToLower (str b) = side dl)
  (Hes : ~ expired w (str s)) (Hed : ~ expired w (str d))
  (Hs : kv w !! str s = Some (VList l)) (Hv : wfl l vs) (Hp : pop_at sl vs = Some (x, rest))
  (Hd : list_at w (str d) ds) (Hds : zlen ds < MaxInt64) :
  exists w', lMoveList [c; s; d; a; b] w = Ret (bulk x, w') /\ keeps w tt w' /\
    list_at w' (str d) (push_at dl x (if decide (str s = str d) then rest else ds)) /\
    (str s <> str d -> list_at w' (str s) rest /\
       (rest = [] -> kv w' !! str s = None /\ ttls w' !! str s = None)) /\
    (forall k, k <> str s -> k <> str d -> kv w' !! k = kv w !! k).
Proof.
  apply wp_returns. unfold lMoveList. apply wp_bind, wp_name; [done|].
  change (negb (zlen [c; s; d; a; b] =? 5)) with false. cbv iota.
  do 4 (apply wp_bind; eapply wp_arg; [done|]). cbv zeta. rewrite Ha, Hb.
  replace (_ || _) with false by (by destruct sl, dl). apply wp_bind, wp_CheckTTL; [done|done| |by intros].
  intros _. cbn [negb]. apply wp_bind, wp_CheckTTL; [done|done| |by intros]. intros _.
  apply wp_with_locks; [done|done|]. intros w1 Hw1 Ek Et Ec En.
  apply wp_bind, wp_db_Get; [apply Hw1|]. rewrite Ek, Hs. apply wp_bind. eapply wp_list_Len; [done|by rewrite Ek|].
  rewrite (wfl_len _ _ Hv), (pop_at_cons _ _ _ _ Hp). pose proof (zlen_nonneg rest). zb.
  assert (Hgo : forall w2 l2, keeps w1 tt w2 -> kv w2 !! str s = Some (VList l) ->
    kv w2 !! str d = Some (VList l2) -> wfl l2 ds -> (forall k, k <> str d -> kv w2 !! k = kv w !! k) ->
    wp false (r ← (v ← on_list (str s) (popElem ← Pop sl; getVal popElem);
                   on_list (str d) (Push dl v) ;; mret (bulk v)); drop_if_empty (str s) ;; mret r)
      (fun r w3 => keeps w1 r w3 /\ forall w4, keeps w r w4 -> kv w4 = kv w3 -> ttls w4 = ttls w3 ->
         r = bulk x /\ keeps w tt w4 /\
         list_at w4 (str d) (push_at dl x (if decide (str s = str d) then rest else ds)) /\
         (str s <> str d -> list_at w4 (str s) rest /\
            (rest = [] -> kv w4 !! str s = None /\ ttls w4 !! str s = None)) /\
         (forall k, k <> str s -> k <> str d -> kv w4 !! k = kv w !! k)) w2).
  { intros w2 l2 K2 E2 Ed Hl2 Hoth. apply wp_move_reply.
    eapply (wp_move false sl dl (str s) (str d) l l2 vs ds x rest); [by eapply keeps_Inv|done..|].
    intros w3 l' K3 G1 G2 G3 G4. split; [by eapply keeps_trans|]. intros w4 K4 E4 Et4.
    split; [done|]. split; [done|]. unfold list_at in *. rewrite !E4, !Et4, G1. split; [done|].
    split; [done|]. intros k Hk1 Hk2. by rewrite G4, Hoth. }
  destruct (kv w !! str d) as [v|] eqn:Ed.
  - unfold list_at in Hd. rewrite Ed in Hd. destruct v as [|l2| | | |]; try done.
    specialize (Hgo w1 l2). apply wp_bind, wp_bind, wp_db_Get; [apply Hw1|]. rewrite Ek, Ed.
    apply wp_bind, wp_ret, wp_bind, wp_db_Get; [apply Hw1|]. rewrite Ek, Ed.
    destruct sl, dl; (apply wp_bind_inv; apply Hgo; [by apply keeps_refl|by rewrite Ek|by rewrite Ek|done|by rewrite Ek]).
  - unfold list_at in Hd. rewrite Ed in Hd. subst ds.
    apply wp_bind, wp_bind, wp_db_Get; [apply Hw1|]. rewrite Ek, Ed.
    apply wp_bind, wp_bind, wp_Set_kv; [done|exact linked_NewList|]. intros w2 K2 E2 Et2.
    apply wp_ret, wp_bind, wp_db_Get; [by apply (keeps_Inv _ _ _ K2)|]. rewrite E2, lookup_insert_eq.
    assert (str s <> str d) by congruence. specialize (Hgo w2 NewList).
    destruct sl, dl; (apply wp_bind_inv; apply Hgo;
      [done|by rewrite E2, lookup_insert_ne, Ek|by rewrite E2, lookup_insert_eq|apply wfl_NewList|
       intros k Hk; by rewrite E2, lookup_insert_ne, Ek]).
Qed.

(** No list under [k], or one without elements. *)
Definition nothing_at (w : World) (k : bytes) : Prop :=
  match kv w !! k with
  | Some (VList l) => wfl l []
  | _ => True
  end.

Lemma wp_poll_none (pn left : bool) k w (Q : option RedisData -> World -> Prop) :
  Inv w -> all_free (locks w) -> nothing_at w k ->
  (forall w', keeps w tt w' -> kv w' = kv w -> ttls w' = ttls w -> Q None w') ->
  wp pn (poll_key (Pop left) k) Q w.
Proof.
  intros Hw Hl Hn HQ. apply wp_with_lock; [done|done|]. intros w1 Hw1 Ek Et Ec En.
  apply wp_bind, wp_db_Get; [apply Hw1|]. unfold nothing_at in Hn. rewrite <- Ek in Hn.
  assert (Hend : wp pn (mret None) (fun a w2 => keeps w1 a w2 /\
    forall w3, keeps w a w3 -> kv w3 = kv w2 -> ttls w3 = ttls w2 -> Q a w3) w1).
  { apply wp_ret. split; [by apply keeps_refl|]. intros w3 K3 E1 E2. apply HQ; [done|congruence|congruence]. }
  destruct (kv w1 !! k) as [v|] eqn:E; [|done]. destruct v as [|l| | | |]; [done| |done..].
  apply wp_bind. eapply wp_on_list; [done..|]. apply wp_bind. eapply wp_pop_wfl; [done|].
  replace (pop_at left []) with (@None (slice * list slice)) by (by destruct left).
  apply wp_ret. split; [by eapply wfl_linked|]. intros w2 K2 E2 Et2. apply wp_ret. split; [done|].
  intros w3 K3 E3 Et3. apply HQ; [done| |congruence]. rewrite E3, E2, <- Ek. by apply insert_id.
Qed.

Lemma wp_poll_first (pn left : bool) ks1 k ks2 l vs x rest w (Q : option RedisData -> World -> Prop) :
  Inv w -> all_free (locks w) -> Forall (nothing_at w) ks1 ->
  kv w !! k = Some (VList l) -> wfl l vs -> pop_at left vs = Some (x, rest) ->
  (forall w' l', keeps w tt w' -> kv w' = <[k := VList l']> (kv w) -> ttls w' = ttls w -> wfl l' rest ->
     Q (array [MakeStringData k; MakeBulkData x]) w') ->
  wp pn (poll (Pop left) (ks1 ++ k :: ks2)) Q w.
Proof.
  revert w Q. induction ks1 as [|k1 ks1 IH]; intros w Q Hw Hl Hn Hk Hv Hp HQ; cbn [poll app].
  - apply wp_bind, wp_with_lock; [done|done|]. intros w1 Hw1 Ek Et Ec En.
    apply wp_bind, wp_db_Get; [apply Hw1|]. rewrite Ek, Hk. apply wp_bind.
    eapply wp_on_list; [done|by rewrite Ek|]. apply wp_bind. eapply wp_pop_wfl; [done|]. rewrite Hp.
    intros a l' nd Hl' Ha <-. apply wp_bind. eapply wp_getVal; [done|]. apply wp_ret.
    split; [by eapply wfl_linked|]. intros w2 K2 E2 Et2. apply wp_ret. split; [done|].
    intros w3 K3 E3 Et3. apply wp_ret. apply (HQ w3 l'); [done| |congruence|done]. by rewrite E3, E2, Ek.
  - apply Forall_cons in Hn as [Hn1 Hn]. apply wp_bind, wp_poll_none; [done..|].
    intros w' K E Et. apply IH; [by eapply keeps_Inv|by eapply keeps_free| |by rewrite E|done|done|].
    + eapply Forall_impl; [exact Hn|]. intros k'. unfold nothing_at. by rewrite E.
    + intros w2 l' K2 E2 Et2 Hl'. apply (HQ w2 l'); [by eapply keeps_trans|by rewrite E2, E|congruence|done].
Qed.

(** BLPOP and BRPOP take from the first of their keys, in the order of the
    arguments, that holds an element when the ticker fires, and reply with the
    key and the element. Unlike LPOP, they leave an emptied list in place. *)
Theorem bpop_spec (w : World) (left : bool) (c t k : slice) (ks1 ks2 : list slice) (evs : list event)
  (l : List) (vs rest : list slice) (x : slice) (z : Z)
  (Hw : Inv w) (Hl : all_free (locks w)) (Ht : Atoi (str t) = Some z)
  (Hn : Forall (nothing_at w) (map str ks1)) (Hk : kv w !! str k = Some (VList l)) (Hv : wfl l vs)
  (Hp : pop_at left vs = Some (x, rest)) :
  exists w' l', (if left then blPopList else brPopList) (c :: ks1 ++ k :: ks2 ++ [t]) (Tick :: evs) w =
      Ret (Some (array [MakeStringData (str k); MakeBulkData x]), w') /\
    keeps w tt w' /\ kv w' = <[str k := VList l']> (kv w) /\ ttls w' = ttls w /\ wfl l' rest.
Proof.
  set (cmd := c :: ks1 ++ k :: ks2 ++ [t]).
  assert (Hcmd : cmd = c :: (ks1 ++ k :: ks2) ++ [t]) by (unfold cmd; by rewrite <- (assoc_L (++))).
  assert (Hrun : exists w', bXPopList (Pop left) cmd (Tick :: evs) w =
      Ret (Some (array [MakeStringData (str k); MakeBulkData x]), w') /\ exists l',
    keeps w tt w' /\ kv w' = <[str k := VList l']> (kv w) /\ ttls w' = ttls w /\ wfl l' rest).
  { apply wp_returns. unfold bXPopList. rewrite Hcmd, app_comm_cons, last_snoc. apply wp_bind, wp_ret. rewrite Ht.
    apply wp_bind, wp_gets. cbn [wait_loop]. apply wp_bind.
    replace (map str _) with (map str ks1 ++ str k :: map str ks2).
    - eapply wp_poll_first; [done..|]. intros w' l' K E Et Hl'. apply wp_ret. split; [done|]. by exists l'.
    - rewrite <- app_comm_cons. cbn [length drop]. rewrite length_app. cbn [length].
      replace (S (_ + 1) - 2)%nat with (length (ks1 ++ k :: ks2)) by lia. rewrite drop_0, take_app_length.
      by rewrite map_app. }
  destruct Hrun as (w' & E & l' & H). exists w', l'. split; [|done].
  assert (3 <= zlen cmd).
  { unfold cmd. rewrite zlen_cons, zlen_app, zlen_cons, zlen_snoc. pose proof (zlen_nonneg ks1).
    pose proof (zlen_nonneg ks2). lia. }
  destruct left; unfold blPopList, brPopList; zb; exact E.
Qed.
End theorems.

(** ** A blocked pop among other goroutines

    Whatever happens while it waits, as long as it keeps the invariant and
    leaves the locks free, a blocked pop does so too, and never gets stuck. *)
Definition steady_env (e : event) : Prop :=
  match e with
  | Other m => forall w, Inv w -> all_free (locks w) -> wp true m (fun _ w' => Inv w' /\ all_free (locks w')) w
  | _ => True
  end.

Lemma safe_poll pop ks : lsafe pop -> safe (poll pop ks).
Proof.
  intros Hp. induction ks as [|k ks IH]; [apply safe_ret|]. cbn [poll]. apply safe_bind; [unfold poll_key; solve_safe|].
  intros [r|]; [apply safe_ret|done].
Qed.

Lemma wait_safe (pop : M List (option loc)) ks d evs w : lsafe pop -> Forall steady_env evs ->
  Inv w -> all_free (locks w) -> wp true (wait_loop pop ks d evs) (fun _ w' => Inv w' /\ all_free (locks w')) w.
Proof.
  intros Hp. revert w. induction evs as [|e evs IH]; intros w He Hw Hl; cbn [wait_loop]; [by apply wp_ret|].
  apply Forall_cons in He as [He Hes]. destruct e as [| |m].
  - apply wp_bind. eapply wp_mono; [|by apply safe_poll]. intros r w' K.
    pose proof (keeps_Inv _ _ _ K). pose proof (keeps_free _ _ _ K Hl). destruct r; [by apply wp_ret|by apply IH].
  - apply wp_bind, wp_gets. case_match; [by apply IH|by apply wp_ret].
  - apply wp_bind. eapply wp_mono; [|by apply He]. intros [] w' [H1 H2]. by apply IH.
Qed.

(* ===================================================================== *)
(** ** Instances of the theorems                                         *)
(* ===================================================================== *)

(** The list x, y, z under the key "a". *)
Definition demo_list : World :=
  after (push_cmd true (Push false) [word "rpush"; word "a"; word "x"; word "y"; word "z"]) (boot 4 0).

Lemma demo_list_spec : Inv demo_list /\ all_free (locks demo_list) /\
  exists l, kv demo_list !! bs "a" = Some (VList l) /\ wfl l [word "x"; word "y"; word "z"].
Proof.
  destruct (boot_Inv 4 0) as [Hw Hl]; [lia|unfold MaxInt64; lia|].
  destruct (wp_run (push_cmd true (Push false) [word "rpush"; word "a"; word "x"; word "y"; word "z"])
    (fun _ w' => exists l, keeps (boot 4 0) tt w' /\ kv w' !! bs "a" = Some (VList l) /\
       wfl l [word "x"; word "y"; word "z"]) (boot 4 0)) as (r & w' & E & l & K & Hk & Hv).
  - apply (wp_push_cmd false false _ (word "a") _ []); [done|done| |reflexivity|vm_compute; discriminate|].
    + apply (bool_decide_unpack _). vm_compute. exact I.
    + intros w' l K Hk _ Hv. exists l. split; [done|]. split; [by rewrite Hk, lookup_insert_eq|done].
  - unfold demo_list, after. rewrite E. split; [by eapply keeps_Inv|]. split; [by eapply keeps_free|]. exact (ex_intro _ l (conj Hk Hv)).
Qed.

Lemma push_spec_witness :
  exists w' l', @lPushList plain_runtime [word "LPUSH"; word "l"; word "p"; word "q"] demo_ttl = Ret (int (0 + 2), w') /\
    keeps demo_ttl tt w' /\ kv w' = <[bs "l" := VList l']> (kv demo_ttl) /\ ttls w' = ttls demo_ttl /\
    wfl l' (reverse [word "p"; word "q"] ++ []).
Proof.
  apply (@push_spec plain_runtime demo_ttl true (word "LPUSH") (word "l") (word "p") [word "q"] []).
  - apply demo_ttl_Inv.
  - apply demo_ttl_Inv.
  - reflexivity.
  - apply (bool_decide_unpack _). vm_compute. exact I.
  - vm_compute. reflexivity.
  - vm_compute. discriminate.
Defined.

Lemma pop_spec_witness :
  exists w', @rPopList plain_runtime [word "rpop"; word "a"; word "2"] demo_list =
      Ret (array (map MakeBulkData [word "z"; word "y"]), w') /\ keeps demo_list tt w' /\
    exists l', kv w' = <[bs "a" := VList l']> (kv demo_list) /\ ttls w' = ttls demo_list /\ wfl l' [word "x"].
Proof.
  destruct demo_list_spec as (Hw & Hl & l & Hk & Hv).
  apply (@pop_spec plain_runtime demo_list false (word "rpop") (word "a") (word "2") l [word "x"; word "y"; word "z"] 2).
  - exact Hw.
  - exact Hl.
  - reflexivity.
  - vm_compute. reflexivity.
  - lia.
  - apply (bool_decide_unpack _). vm_compute. exact I.
  - exact Hk.
  - exact Hv.
Defined.

Lemma lmove_spec_witness :
  exists w', @lMoveList plain_runtime [word "lmove"; word "a"; word "b"; word "LEFT"; word "right"] demo_list =
      Ret (bulk (word "x"), w') /\ keeps demo_list tt w' /\
    list_at w' (bs "b") [word "x"] /\
    (bs "a" <> bs "b" -> list_at w' (bs "a") [word "y"; word "z"] /\
       ([word "y"; word "z"] = [] -> kv w' !! bs "a" = None /\ ttls w' !! bs "a" = None)) /\
    (forall k, k <> bs "a" -> k <> bs "b" -> kv w' !! k = kv demo_list !! k).
Proof.
  destruct demo_list_spec as (Hw & Hl & l & Hk & Hv).
  apply (@lmove_spec plain_runtime demo_list true false (word "lmove") (word "a") (word "b") (word "LEFT") (word "right")
           l [word "x"; word "y"; word "z"] [] [word "y"; word "z"] (word "x")).
  - exact Hw.
  - exact Hl.
  - reflexivity.
  - reflexivity.
  - reflexivity.
  - apply (bool_decide_unpack _). vm_compute. exact I.
  - apply (bool_decide_unpack _). vm_compute. exact I.
  - exact Hk.
  - exact Hv.
  - reflexivity.
  - vm_compute. reflexivity.
  - vm_compute. reflexivity.
Defined.

Lemma bpop_spec_witness :
  exists w' l', brPopList [word "brpop"; word "none"; word "a"; word "b"; word "1"] [Tick; Timeout] demo_list =
      Ret (Some (array [MakeStringData (bs "a"); MakeBulkData (word "z")]), w') /\ keeps demo_list tt w' /\
    kv w' = <[bs "a" := VList l']> (kv demo_list) /\ ttls w' = ttls demo_list /\ wfl l' [word "x"; word "y"].
Proof.
  destruct demo_list_spec as (Hw & Hl & l & Hk & Hv).
  apply (@bpop_spec demo_list false (word "brpop") (word "1") (word "a") [word "none"] [word "b"] [Timeout]
           l [word "x"; word "y"; word "z"] [word "x"; word "y"] (word "z") 1).
  - exact Hw.
  - exact Hl.
  - vm_compute. reflexivity.
  - apply Forall_singleton. vm_compute. exact I.
  - exact Hk.
  - exact Hv.
  - reflexivity.
Defined.
