(* ===== verification/HashCmds.v ===== *)
(** * HashCmds: the hash commands (src/memdb/hash.go)

    One definition per handler, in the order of the source. The value under a
    key is a Go map; [store_object] writes the map after an update through the
    pointer. *)

From S2P Require Import Prelude Strconv Floats Resp Util ConcurrentMap Locks ListStruct SetStruct HashStruct Db Keys.

Section hashes.
Context {rt : GoRuntime}.

Definition server_error : option RedisData := err (bs "server error").
Definition wrong_number (name : bytes) : option RedisData :=
  err (bs "wrong number of arguments for '" ++ name ++ bs "' command").

(** [for i := 2; i < len(cmd); i++ { res += hash.Del(string(cmd[i])) }]. *)
Definition del_fields (fields : list slice) (h : Hash) : Z * Hash :=
  fold_left (fun '(res, h) f => let '(n, h') := Del (str f) h in (res + n, h')) fields (0, h).

Definition hDelHash (cmd : list slice) : M World (option RedisData) :=
  bad ← name_is_not cmd (bs "hdel");
  if bad : bool then mret server_error
  else if zlen cmd <? 3 then mret (wrong_number (bs "hdel"))
  else
    c1 ← arg cmd 1;
    let key := str c1 in
    with_lock key (
      tem ← db_Get key;
      match tem with
      | None => mret (int 0)
      | Some (VHash hash) =>
          let '(res, hash') := del_fields (drop 2 cmd) hash in
          store_object key (VHash hash') ;;
          (if IsEmpty hash' then dropKey key else mret tt) ;;
          mret (int res)
      | Some _ => mret wrongtype
      end).

(** The shape of the read-only handlers: the key's deadline, its read lock, and
    [none] when there is nothing. *)
Definition read_hash (key : bytes) (none : option RedisData) (body : Hash -> M World (option RedisData)) :
    M World (option RedisData) :=
  alive ← CheckTTL key;
  if negb alive then mret none
  else with_rlock key (
    tem ← db_Get key;
    match tem with
    | None => mret none
    | Some (VHash hash) => body hash
    | Some _ => mret wrongtype
    end).

Definition hExistsHash (cmd : list slice) : M World (option RedisData) :=
  bad ← name_is_not cmd (bs "hexists");
  if bad : bool then mret server_error
  else if negb (zlen cmd =? 3) then mret (wrong_number (bs "hexists"))
  else
    c1 ← arg cmd 1;
    read_hash (str c1) (int 0) (fun hash =>
      c2 ← arg cmd 2;
      mret (if Exist (str c2) hash then int 1 else int 0)).

(** An empty value is reported as nil. *)
Definition get_reply (res : slice) : RedisData :=
  if slen res =? 0 then MakeBulkData NilSlice else MakeBulkData res.

Definition hGetHash (cmd : list slice) : M World (option RedisData) :=
  bad ← name_is_not cmd (bs "hget");
  if bad : bool then mret server_error
  else if negb (zlen cmd =? 3) then mret (wrong_number (bs "hget"))
  else
    c1 ← arg cmd 1;
    read_hash (str c1) nil_bulk (fun hash =>
      c2 ← arg cmd 2;
      mret (Some (get_reply (Get (str c2) hash)))).

Definition hGetAllHash (cmd : list slice) : M World (option RedisData) :=
  bad ← name_is_not cmd (bs "hgetall");
  if bad : bool then mret server_error
  else if negb (zlen cmd =? 2) then mret (wrong_number (bs "hgetall"))
  else
    c1 ← arg cmd 1;
    read_hash (str c1) empty_array (fun hash =>
      n ← next_range;
      mret (array (concat (map (fun '(k, v) => [MakeBulkData (of_string k); MakeBulkData v]) (entries n (Table hash)))))).

(** The writing handlers find the hash under [key] or store a new one there. *)
Definition write_hash (key : bytes) (body : Hash -> M World (option RedisData)) : M World (option RedisData) :=
  CheckTTL key ;;
  with_lock key (
    tem ← db_Get key;
    match tem with
    | None => db_Set key (VHash NewHash) ;; body NewHash
    | Some (VHash hash) => body hash
    | Some _ => mret wrongtype
    end).

Definition hIncrByHash (cmd : list slice) : M World (option RedisData) :=
  bad ← name_is_not cmd (bs "hincrby");
  if bad : bool then mret server_error
  else if negb (zlen cmd =? 4) then mret (wrong_number (bs "hincrby"))
  else
    c1 ← arg cmd 1; c2 ← arg cmd 2; c3 ← arg cmd 3;
    let key := str c1 in
    match Atoi (str c3) with
    | None => mret (err (bs "incr value must be an integer"))
    | Some incr =>
        write_hash key (fun hash =>
          let '((res, ok), hash') := IncrBy (str c2) incr hash in
          store_object key (VHash hash') ;;
          mret (if ok : bool then int res else err (bs "value is not an integer")))
    end.

Definition hIncrByFloatHash (cmd : list slice) : M World (option RedisData) :=
  bad ← name_is_not cmd (bs "hincrbyfloat");
  if bad : bool then mret server_error
  else if negb (zlen cmd =? 4) then mret (wrong_number (bs "hincrbyfloat"))
  else
    c1 ← arg cmd 1; c2 ← arg cmd 2; c3 ← arg cmd 3;
    let key := str c1 in
    match ParseFloat (str c3) with
    | None => mret (err (bs "incr value must be a float"))
    | Some incr =>
        write_hash key (fun hash =>
          let '((res, ok), hash') := IncrByFloat (str c2) incr hash in
          store_object key (VHash hash') ;;
          mret (if ok : bool then bulk (of_string (FormatFloat_short res)) else err (bs "value is not a float")))
    end.

Definition hKeysHash (cmd : list slice) : M World (option RedisData) :=
  bad ← name_is_not cmd (bs "hkeys");
  if bad : bool then mret server_error
  else if negb (zlen cmd =? 2) then mret (wrong_number (bs "hkeys"))
  else
    c1 ← arg cmd 1;
    read_hash (str c1) empty_array (fun hash =>
      n ← next_range;
      mret (array (map (fun v => MakeBulkData (of_string v)) (HashStruct.Keys n hash)))).

Definition hLenHash (cmd : list slice) : M World (option RedisData) :=
  bad ← name_is_not cmd (bs "hlen");
  if bad : bool then mret server_error
  else if negb (zlen cmd =? 2) then mret (wrong_number (bs "hlen"))
  else
    c1 ← arg cmd 1;
    read_hash (str c1) (int 0) (fun hash => mret (int (HashStruct.Len hash))).

Definition hMGetHash (cmd : list slice) : M World (option RedisData) :=
  bad ← name_is_not cmd (bs "hmget");
  if bad : bool then mret server_error
  else if zlen cmd <? 3 then mret (wrong_number (bs "hmget"))
  else
    c1 ← arg cmd 1;
    read_hash (str c1) empty_array (fun hash =>
      mret (array (map (fun f => get_reply (Get (str f) hash)) (drop 2 cmd)))).

(** [for i := 2; i < len(cmd); i += 2 { hash.Set(string(cmd[i]), cmd[i+1]) }];
    the number of arguments is even. *)
Fixpoint set_fields (args : list slice) (h : Hash) : Hash :=
  match args with
  | f :: v :: rest => set_fields rest (HashStruct.Set_ (str f) v h)
  | _ => h
  end.

Definition hSetHash (cmd : list slice) : M World (option RedisData) :=
  bad ← name_is_not cmd (bs "hset");
  if bad : bool then mret server_error
  else if (zlen cmd <? 4) || Z.odd (zlen cmd) then mret (wrong_number (bs "hset"))
  else
    c1 ← arg cmd 1;
    let key := str c1 in
    write_hash key (fun hash =>
      store_object key (VHash (set_fields (drop 2 cmd) hash)) ;;
      mret (simple (bs "OK"))).

Definition hSetNxHash (cmd : list slice) : M World (option RedisData) :=
  bad ← name_is_not cmd (bs "hsetnx");
  if bad : bool then mret server_error
  else if negb (zlen cmd =? 4) then mret (wrong_number (bs "hsetnx"))
  else
    c1 ← arg cmd 1; c2 ← arg cmd 2; c3 ← arg cmd 3;
    let key := str c1 in let field := str c2 in
    write_hash key (fun hash =>
      if Exist field hash then mret (int 0)
      else store_object key (VHash (HashStruct.Set_ field c3 hash)) ;; mret (int 1)).

Definition hValsHash (cmd : list slice) : M World (option RedisData) :=
  bad ← name_is_not cmd (bs "hvals");
  if bad : bool then mret server_error
  else if negb (zlen cmd =? 2) then mret (wrong_number (bs "hvals"))
  else
    c1 ← arg cmd 1;
    read_hash (str c1) empty_array (fun hash =>
      n ← next_range;
      mret (array (map MakeBulkData (Values n hash)))).

Definition hStrLenHash (cmd : list slice) : M World (option RedisData) :=
  bad ← name_is_not cmd (bs "hstrlen");
  if bad : bool then mret server_error
  else if negb (zlen cmd =? 3) then mret (wrong_number (bs "hstrlen"))
  else
    c1 ← arg cmd 1; c2 ← arg cmd 2;
    read_hash (str c1) (int 0) (fun hash => mret (int (StrLen (str c2) hash))).

(** The count argument of HRANDFIELD, 1 if it is not given. *)
Definition rand_count (cmd : list slice) : option Z :=
  match cmd !! 2%nat with
  | Some c2 => Atoi (str c2)
  | None => Some 1
  end.

Definition hRandFieldHash (cmd : list slice) : M World (option RedisData) :=
  bad ← name_is_not cmd (bs "hrandfield");
  if bad : bool then mret server_error
  else if negb (zlen cmd =? 2) && negb (zlen cmd =? 3) && negb (zlen cmd =? 4) then
    mret (wrong_number (bs "hrandfield"))
  else
    c1 ← arg cmd 1;
    match rand_count cmd with
    | None => mret (err (bs "err: count value must be integer"))
    | Some count =>
        let option4 := if zlen cmd =? 4 then cmd !! 3%nat else None in
        let unsupported c3 := negb (beq (ToLower (str c3)) (bs "withvalues")) in
        match option4 with
        | Some c3 =>
            if unsupported c3 then
              mret (err (bs "command option error, not support " ++ str c3 ++ bs " option"))
            else
              read_hash (str c1) empty_array (fun hash =>
                n ← next_range;
                fields ← lift (RandomWithValue n count hash);
                skip_ranges (length fields) ;;
                mret (array (map MakeBulkData fields)))
        | None =>
            read_hash (str c1) empty_array (fun hash =>
              n ← next_range;
              fields ← lift (HashStruct.Random n count hash);
              skip_ranges (length fields) ;;
              mret (array (map (fun v => MakeBulkData (of_string v)) fields)))
        end
    end.

Definition RegisterHashCommands : list (bytes * Handler) :=
  [(bs "hdel", hDelHash); (bs "hexists", hExistsHash); (bs "hget", hGetHash); (bs "hgetall", hGetAllHash);
   (bs "hincrby", hIncrByHash); (bs "hincrbyfloat", hIncrByFloatHash); (bs "hkeys", hKeysHash); (bs "hlen", hLenHash); (bs "hmget", hMGetHash);
   (bs "hset", hSetHash); (bs "hsetnx", hSetNxHash); (bs "hvals", hValsHash); (bs "hstrlen", hStrLenHash);
   (bs "hrandfield", hRandFieldHash)].

(* ===================================================================== *)
(** ** Every handler keeps the invariant and releases its locks          *)
(* ===================================================================== *)

Lemma safe_read_hash key none body : (forall h, pres (body h)) -> safe (read_hash key none body).
Proof. intros Hb. unfold read_hash. solve_safe. Qed.

Lemma safe_write_hash key body : (forall h, pres (body h)) -> safe (write_hash key body).
Proof. intros Hb. unfold write_hash. solve_safe. Qed.

Lemma pres_Random n c h : c <> MinInt64 -> pres (lift (HashStruct.Random n c h)).
Proof.
  intros Hc. apply pres_lift. unfold HashStruct.Random, random_entries.
  destruct (_ || _); [done|]. destruct (0 <? c); [done|]. by zb.
Qed.

Lemma pres_RandomWithValue n c h : - 2 ^ 62 < c -> pres (lift (RandomWithValue n c h)).
Proof.
  intros Hc. apply pres_lift. unfold RandomWithValue.
  destruct (c =? 0) eqn:E0; [done|]. cbn [orb]. destruct (HashStruct.Len h =? 0); [done|]. cbv zeta.
  destruct (0 <? c) eqn:E; [done|]. apply Z.eqb_neq in E0. apply Z.ltb_ge in E.
  rewrite (i64_id (c * 2)), i64_id by (unfold in_i64, MinInt64, MaxInt64; lia). by zb.
Qed.
End hashes.

(** HRANDFIELD with these counts never returns. *)
Definition diverges (cmd : list slice) : Prop := exists c, rand_count cmd = Some c /\ c <= - 2 ^ 62.

Lemma hashes_safe {rt : GoRuntime} name h cmd : (name, h) ∈ RegisterHashCommands ->
  (name = bs "hrandfield" -> ~ diverges cmd) -> safe (h cmd).
Proof.
  unfold RegisterHashCommands. rewrite !elem_of_cons, elem_of_nil.
  intros H Hd. repeat destruct H as [[= -> ->]|H]; [..|done].
  14:{ specialize (Hd eq_refl).
    assert (Hc : forall c, rand_count cmd = Some c -> - 2 ^ 62 < c).
    { intros c E. apply Z.nle_gt. intros Hle. apply Hd. by exists c. }
    unfold hRandFieldHash. apply safe_bind; [solve_safe|]. intros []; [solve_safe|]. case_match; [solve_safe|].
    apply safe_bind; [solve_safe|]. intros c1. destruct (rand_count cmd) as [c|]; [|solve_safe].
    specialize (Hc c eq_refl). cbv zeta.
    repeat case_match; first [ by apply safe_ret
      | apply safe_read_hash; intros h; apply pres_bind; [auto with pres|]; intros n;
        apply pres_bind; [|intros; solve_pres];
        first [apply pres_RandomWithValue; done | apply pres_Random; unfold MinInt64; lia]]. }
  all: unfold hDelHash, hExistsHash, hGetHash, hGetAllHash, hIncrByHash, hIncrByFloatHash, hKeysHash, hLenHash, hMGetHash, hSetHash,
      hSetNxHash, hValsHash, hStrLenHash; clear Hd;
    repeat first [ apply safe_read_hash; intros ?; solve_pres
                 | apply safe_write_hash; intros ?; solve_pres | safe_step ].
Qed.

(* ===================================================================== *)
(** ** What the commands do                                              *)
(* ===================================================================== *)

(** [k] holds the hash [h]; a missing key counts as the empty hash. *)
Definition hash_at (w : World) (k : bytes) (h : Hash) : Prop :=
  match kv w !! k with
  | None => h = ∅
  | Some (VHash h') => h' = h
  | Some _ => False
  end.

Section theorems.
Context {rt : GoRuntime}.

Lemma wp_read_hash (pn : bool) key none body h w (Q : option RedisData -> World -> Prop) :
  Inv w -> all_free (locks w) -> ~ expired w key -> kv w !! key = Some (VHash h) ->
  (forall w1, Inv w1 -> kv w1 = kv w -> ttls w1 = ttls w ->
     wp pn (body h) (fun a w2 => keeps w1 a w2 /\
       forall w3, keeps w a w3 -> kv w3 = kv w2 -> ttls w3 = ttls w2 -> Q a w3) w1) ->
  wp pn (read_hash key none body) Q w.
Proof.
  intros Hw Hl He Hk HQ. unfold read_hash. apply wp_bind, wp_CheckTTL; [done|done| |by intros].
  intros _. cbn [negb]. apply wp_with_rlock; [done|done|]. intros w1 Hw1 Ek Et Ec En.
  apply wp_bind, wp_db_Get; [apply Hw1|]. rewrite Ek, Hk. by apply HQ.
Qed.

(** A handler that replaces the hash under [key] by [f h]. *)
Lemma wp_write_hash (pn : bool) key body h h' r w (Q : option RedisData -> World -> Prop) :
  Inv w -> all_free (locks w) -> ~ expired w key -> hash_at w key h ->
  body h = (store_object key (VHash h') ;; mret r) ->
  (forall w', keeps w tt w' -> kv w' = <[key := VHash h']> (kv w) -> ttls w' = ttls w -> Q r w') ->
  wp pn (write_hash key body) Q w.
Proof.
  intros Hw Hl He Hk Hb HQ. unfold write_hash. apply wp_bind, wp_CheckTTL; [done|done| |by intros].
  intros _. apply wp_with_lock; [done|done|]. intros w1 Hw1 Ek Et Ec En.
  assert (Hgo : forall w2, keeps w1 tt w2 -> is_Some (kv w2 !! key) -> ttls w2 = ttls w ->
    <[key := VHash h']> (kv w2) = <[key := VHash h']> (kv w) ->
    wp pn (body h) (fun a w3 => keeps w1 a w3 /\
      forall w4, keeps w a w4 -> kv w4 = kv w3 -> ttls w4 = ttls w3 -> Q a w4) w2).
  { intros w2 K2 Hs Et2 E2. rewrite Hb. apply wp_bind, wp_store_kv; [by eapply keeps_Inv|done|done|].
    intros w3 K3 E3 Et3. apply wp_ret. split; [by eapply keeps_trans|].
    intros w4 K4 E4 Et4. apply HQ; [done|congruence|congruence]. }
  apply wp_bind, wp_db_Get; [apply Hw1|]. unfold hash_at in Hk. rewrite Ek.
  destruct (kv w !! key) as [v|] eqn:E.
  - destruct v as [| | |h0| |]; try done. subst h0. apply Hgo; [by apply keeps_refl|by rewrite Ek, E|done|by rewrite Ek].
  - subst h. apply wp_bind, wp_Set_kv; [done|done|]. intros w2 K2 E2 Et2.
    apply Hgo; [done|by rewrite E2, lookup_insert_eq|congruence|by rewrite E2, Ek, insert_insert_eq].
Qed.

(** what HSET stores HGET returns, for every field of the command, also
    when a field is given twice (the last value counts) and when the key is
    new; but a field set to the empty string reads back as nil. *)
Theorem hset_hget (w : World) (c1 c2 k f v : slice) (args : list slice) (h : Hash)
  (Hw : Inv w) (Hl : all_free (locks w)) (Hc1 : ToLower (str c1) = bs "hset") (Hc2 : ToLower (str c2) = bs "hget")
  (He : ~ expired w (str k)) (Hh : hash_at w (str k) h) (Hargs : Z.even (zlen args) = true) (Hne : args <> [])
  (Hf : set_fields args h !! str f = Some v) :
  exists w1 w2, hSetHash (c1 :: k :: args) w = Ret (simple (bs "OK"), w1) /\ keeps w tt w1 /\
    kv w1 = <[str k := VHash (set_fields args h)]> (kv w) /\ ttls w1 = ttls w /\
    hGetHash [c2; k; f] w1 = Ret (if slen v =? 0 then nil_bulk else bulk v, w2).
Proof.
  assert (H1 : exists w1, hSetHash (c1 :: k :: args) w = Ret (simple (bs "OK"), w1) /\ keeps w tt w1 /\
    kv w1 = <[str k := VHash (set_fields args h)]> (kv w) /\ ttls w1 = ttls w).
  { apply wp_returns. unfold hSetHash. apply wp_bind, wp_name; [done|].
    assert (Hlen : 2 <= zlen args).
    { destruct args as [|x [|y args]]; [done|done|]. rewrite !zlen_cons. pose proof (zlen_nonneg args). lia. }
    rewrite !zlen_cons. zb. rewrite !Z.odd_add, <- Z.negb_even, Hargs. cbn [negb xorb Z.odd].
    apply wp_bind. eapply wp_arg; [done|]. cbv zeta. cbn [drop].
    eapply wp_write_hash; [done..|]. by intros. }
  destruct H1 as (w1 & E1 & K1 & Ek1 & Et1).
  assert (H2 : exists w2, hGetHash [c2; k; f] w1 = Ret (if slen v =? 0 then nil_bulk else bulk v, w2) /\ True).
  { apply wp_returns. unfold hGetHash. apply wp_bind, wp_name; [done|].
    change (negb (zlen [c2; k; f] =? 3)) with false. cbv iota. apply wp_bind. eapply wp_arg; [done|].
    eapply wp_read_hash; [by eapply keeps_Inv|by eapply keeps_free| |by rewrite Ek1, lookup_insert_eq|].
    { intros (i & Hi & Hle). apply He. exists i. rewrite Et1 in Hi. split; [done|]. by rewrite <- (proj2 (proj2 K1)). }
    intros w2 Hw2 Ek2 Et2. apply wp_bind. eapply wp_arg; [done|]. apply wp_ret. split; [by apply keeps_refl|].
    intros w3 _ _ _. split; [|done]. unfold get_reply, Get. rewrite Hf. change (default NilSlice (Some v)) with v. by destruct (slen v =? 0). }
  destruct H2 as (w2 & E2 & _). by exists w1, w2.
Qed.

Lemma del_fields_spec fields h : del_fields fields h =
  (Z.of_nat (base.size (dom h ∩ list_to_set (map str fields))),
   filter (fun '(f, _) => f ∉ map str fields) h).
Proof.
  unfold del_fields.
  cut (forall n, fold_left (fun '(res, h) f => let '(n, h') := Del (str f) h in (res + n, h')) fields (n, h) =
    (n + Z.of_nat (base.size (dom h ∩ list_to_set (map str fields))), filter (fun '(f, _) => f ∉ map str fields) h)).
  { intros H. by rewrite H. }
  revert h. induction fields as [|f fields IH]; intros h n; cbn [fold_left].
  { rewrite map_filter_id by (intros; cbn; apply not_elem_of_nil). f_equal.
    cbn. rewrite (right_absorb_L ∅ (∩)), size_empty. lia. }
  unfold Del, Exist. case_bool_decide as Hf.
  - rewrite IH. f_equal.
    + rewrite <- Z.add_assoc. f_equal. cbn [map list_to_set foldr]. rewrite dom_delete_L.
      replace (dom h ∩ ({[str f]} ∪ list_to_set (map str fields)))
        with ({[str f]} ∪ (dom h ∖ {[str f]} ∩ list_to_set (map str fields))).
      * rewrite (size_union ({[str f]} : gset bytes)), size_singleton by set_solver. lia.
      * apply elem_of_dom in Hf. apply set_eq. intros k. destruct (decide (k = str f)) as [->|]; set_solver.
    + apply map_eq. intros k. apply option_eq. intros v.
      rewrite !map_lookup_filter_Some, lookup_delete_Some. cbn. rewrite not_elem_of_cons. naive_solver.
  - rewrite IH. f_equal.
    + rewrite Z.add_0_r. do 3 f_equal. cbn [map list_to_set foldr].
      assert (str f ∉ dom h) by (by rewrite elem_of_dom). set_solver.
    + apply map_filter_ext. intros k v Hk. cbn. rewrite not_elem_of_cons.
      assert (k <> str f) by (intros ->; apply Hf; by eexists). naive_solver.
Qed.

(** HDEL removes exactly the named fields, replies with the number of
    distinct named fields that existed, and removes the key with its deadline
    when no field is left. *)
Theorem hdel_spec (w : World) (c k f : slice) (fs : list slice) (h h' : Hash)
  (Hw : Inv w) (Hl : all_free (locks w)) (Hc : ToLower (str c) = bs "hdel")
  (Hk : kv w !! str k = Some (VHash h)) (Hh' : h' = filter (fun '(x, _) => x ∉ map str (f :: fs)) h) :
  exists w', hDelHash (c :: k :: f :: fs) w =
      Ret (int (Z.of_nat (base.size (dom h ∩ list_to_set (map str (f :: fs))))), w') /\ keeps w tt w' /\
    (if decide (h' = ∅) then kv w' = delete (str k) (kv w) /\ ttls w' = delete (str k) (ttls w)
     else kv w' = <[str k := VHash h']> (kv w) /\ ttls w' = ttls w).
Proof.
  apply wp_returns. unfold hDelHash. apply wp_bind, wp_name; [done|].
  rewrite !zlen_cons. pose proof (zlen_nonneg fs). zb. apply wp_bind. eapply wp_arg; [done|]. cbv zeta.
  change (drop 2 (c :: k :: f :: fs)) with (f :: fs).
  apply wp_with_lock; [done|done|]. intros w1 Hw1 Ek Et Ec En.
  apply wp_bind, wp_db_Get; [apply Hw1|]. rewrite Ek, Hk, del_fields_spec, <- Hh'.
  apply wp_bind, wp_store_kv; [done|done|by rewrite Ek, Hk|]. intros w2 K2 E2 Et2. apply wp_bind.
  unfold IsEmpty, HashStruct.Len. destruct (decide (h' = ∅)) as [->|Hne].
  - rewrite map_size_empty. apply wp_dropKey; [by eapply keeps_Inv|]. intros w3 K3 E3 Et3. apply wp_ret.
    split; [by eapply keeps_trans|]. intros w4 K4 E4 Et4. split; [done|]. split; [done|].
    rewrite E4, E3, E2, Ek, Et4, Et3, Et2, Et. by rewrite delete_insert_eq.
  - assert (base.size h' <> 0%nat) by (by intros ?%map_size_empty_inv). zb. apply wp_ret, wp_ret.
    split; [done|]. intros w4 K4 E4 Et4. split; [done|]. split; [done|]. rewrite E4, E2, Ek, Et4, Et2. done.
Qed.
End theorems.

(* ===================================================================== *)
(** ** Instances of the theorems                                         *)
(* ===================================================================== *)

(** The hash f = 1, g = 2 under the key "h". *)
Definition demo_fields : Hash := set_fields [word "f"; word "1"; word "g"; word "2"] ∅.
Definition demo_hash : World := after (db_Set (bs "h") (VHash demo_fields)) (boot 4 0).

Lemma demo_hash_Inv : Inv demo_hash /\ all_free (locks demo_hash).
Proof.
  apply after_safe; [|apply boot_Inv; [lia|unfold MaxInt64; lia]..]. by apply safe_pres, pres_db_Set.
Qed.

Lemma hset_hget_witness :
  exists w1 w2, @hSetHash plain_runtime [word "hset"; word "h"; word "f"; word "3"; word "f"; word "4"] demo_hash =
      Ret (simple (bs "OK"), w1) /\ keeps demo_hash tt w1 /\
    kv w1 = <[bs "h" := VHash (set_fields [word "f"; word "3"; word "f"; word "4"] demo_fields)]> (kv demo_hash) /\
    ttls w1 = ttls demo_hash /\
    @hGetHash plain_runtime [word "hget"; word "h"; word "f"] w1 = Ret (bulk (word "4"), w2).
Proof.
  apply (@hset_hget plain_runtime demo_hash (word "hset") (word "hget") (word "h") (word "f") (word "4")
           [word "f"; word "3"; word "f"; word "4"] demo_fields).
  - apply demo_hash_Inv.
  - apply demo_hash_Inv.
  - reflexivity.
  - reflexivity.
  - apply (bool_decide_unpack _). vm_compute. exact I.
  - vm_compute. reflexivity.
  - reflexivity.
  - discriminate.
  - vm_compute. reflexivity.
Defined.

Lemma hdel_spec_witness :
  exists w', @hDelHash plain_runtime [word "hdel"; word "h"; word "f"; word "x"; word "f"] demo_hash = Ret (int 1, w') /\
    keeps demo_hash tt w' /\
    kv w' = <[bs "h" := VHash (set_fields [word "g"; word "2"] ∅)]> (kv demo_hash) /\ ttls w' = ttls demo_hash.
Proof.
  destruct (@hdel_spec plain_runtime demo_hash (word "hdel") (word "h") (word "f") [word "x"; word "f"]
           demo_fields (set_fields [word "g"; word "2"] ∅)) as (w' & E & K & H).
  - apply demo_hash_Inv.
  - apply demo_hash_Inv.
  - reflexivity.
  - vm_compute. reflexivity.
  - vm_compute. reflexivity.
  - exists w'. split; [exact E|]. split; [exact K|]. destruct (decide _) as [e|_]; [discriminate e|exact H].
Defined.
