(* ===== verification/SetCmds.v ===== *)
(** * SetCmds: the set commands (src/memdb/sets.go)

    One definition per handler, in the order of the source. Each loop over a Go
    map takes the next iteration order from the runtime. *)

From S2P Require Import Prelude Strconv Resp Util ConcurrentMap Locks ListStruct HashStruct SetStruct Db Keys.

Section sets.
Context {rt : GoRuntime}.

Definition set_error : option RedisData := err (bs "server error").
Definition set_args (name : bytes) : option RedisData :=
  err (bs "wrong number of arguments for '" ++ name ++ bs "' command").

(** The methods of Set that iterate, with the orders they use. *)
Definition set_Members (s : Set_t) : M World (list bytes) := n ← next_range; mret (Members n s).

Definition set_op (op : nat -> Set_t -> list Set_t -> Set_t) (s : Set_t) (sets : list Set_t) : M World Set_t :=
  n ← gets ranges; skip_ranges (S (length sets)) ;; mret (op n s sets).

(** [resp.MakeBulkData([]byte(member))] for every member. *)
Definition bulk_members (members : list bytes) : option RedisData :=
  array (map (fun member => MakeBulkData (of_string member)) members).

(** [for i := 2; i < len(cmd); i++ { res += op(string(cmd[i])) }], for Add and
    Remove. *)
Definition each_member (op : bytes -> Set_t -> Z * Set_t) (members : list slice) (s : Set_t) : Z * Set_t :=
  fold_left (fun '(res, s) m => let '(n, s') := op (str m) s in (res + n, s')) members (0, s).

Definition sAddSet (cmd : list slice) : M World (option RedisData) :=
  if zlen cmd <? 3 then mret (set_args (bs "sadd"))
  else
    c1 ← arg cmd 1;
    let key := str c1 in
    CheckTTL key ;;
    with_lock key (
      tem ← db_Get key;
      let add (sets : Set_t) : M World (option RedisData) :=
        let '(res, sets') := each_member Add (drop 2 cmd) sets in
        store_object key (VSet sets') ;; mret (int res) in
      match tem with
      | None => db_Set key (VSet NewSet) ;; add NewSet
      | Some (VSet sets) => add sets
      | Some _ => mret wrongtype
      end).

(** The shape of the read-only handlers of one key. *)
Definition read_set (key : bytes) (none : option RedisData) (body : Set_t -> M World (option RedisData)) :
    M World (option RedisData) :=
  alive ← CheckTTL key;
  if negb alive then mret none
  else with_rlock key (
    tem ← db_Get key;
    match tem with
    | None => mret none
    | Some (VSet set) => body set
    | Some _ => mret wrongtype
    end).

Definition sCardSet (cmd : list slice) : M World (option RedisData) :=
  bad ← name_is_not cmd (bs "scard");
  if bad : bool then mret set_error
  else if negb (zlen cmd =? 2) then mret (set_args (bs "scard"))
  else
    c1 ← arg cmd 1;
    read_set (str c1) (int 0) (fun sets => mret (int (SetStruct.Len sets))).

(** The sets under those of [keys] that exist; [None] if one of them holds
    another kind of value. *)
Definition collect_sets (keys : list bytes) : M World (option (list Set_t)) :=
  foldM (fun acc key =>
    match acc with
    | None => mret None
    | Some sets =>
        tem ← db_Get key;
        mret (match tem with
              | None => Some sets
              | Some (VSet set) => Some (sets ++ [set])
              | Some _ => None
              end)
    end) (Some []) keys.

Definition check_all (keys : list bytes) : M World unit := forM keys (fun key => CheckTTL key ;; mret tt).

Definition sDiffSet (cmd : list slice) : M World (option RedisData) :=
  bad ← name_is_not cmd (bs "sdiff");
  if bad : bool then mret set_error
  else if zlen cmd <? 2 then mret (set_args (bs "sdiff"))
  else
    let keys := map str (drop 1 cmd) in
    check_all keys ;;
    with_rlocks keys (
      key0 ← or_panic (keys !! 0%nat);
      tem ← db_Get key0;
      match tem with
      | None => mret empty_array
      | Some (VSet primSet) =>
          if zlen keys =? 1 then members ← set_Members primSet; mret (bulk_members members)
          else
            setSlice ← collect_sets (drop 1 keys);
            match setSlice with
            | None => mret wrongtype
            | Some sets =>
                diffSet ← set_op Difference primSet sets;
                members ← set_Members diffSet;
                mret (bulk_members members)
            end
      | Some _ => mret wrongtype
      end).

(** The keys that are not expired. *)
Definition live_keys (keys : list bytes) : M World (list bytes) :=
  foldM (fun acc key => alive ← CheckTTL key; mret (if alive : bool then acc ++ [key] else acc)) [] keys.

(** Is the destination missing or a set? *)
Definition des_ok (desKey : bytes) : M World bool :=
  tem ← db_Get desKey;
  mret (match tem with None => true | Some (VSet _) => true | Some _ => false end).

(** The end of SDIFFSTORE, SINTERSTORE and SUNIONSTORE: an empty result leaves
    the destination as it is. *)
Definition store_result (desKey : bytes) (res : Set_t) : M World (option RedisData) :=
  ok ← des_ok desKey;
  if negb ok then mret wrongtype
  else
    (if negb (SetStruct.Len res =? 0) then db_Set desKey (VSet res) ;; mret tt else mret tt) ;;
    mret (int (SetStruct.Len res)).

Definition sDiffStoreSet (cmd : list slice) : M World (option RedisData) :=
  bad ← name_is_not cmd (bs "sdiffstore");
  if bad : bool then mret set_error
  else if zlen cmd <? 3 then mret (set_args (bs "sdiffstore"))
  else
    c1 ← arg cmd 1;
    let desKey := str c1 in
    CheckTTL desKey ;;
    ok ← des_ok desKey;
    if negb ok then mret wrongtype
    else
      keys ← live_keys (map str (drop 2 cmd));
      if zlen keys =? 0 then mret (int 0)
      else
        diffRes ← with_rlocks keys (
          key0 ← or_panic (keys !! 0%nat);
          tem ← db_Get key0;
          match tem with
          | None => mret (Some NewSet)
          | Some (VSet primSet) =>
              setSlice ← collect_sets (drop 1 keys);
              match setSlice with
              | None => mret None
              | Some sets => r ← set_op Difference primSet sets; mret (Some r)
              end
          | Some _ => mret None
          end);
        match diffRes with
        | None => mret wrongtype
        | Some diffRes => CheckTTL desKey ;; with_lock desKey (store_result desKey diffRes)
        end.

(** The position of the first smallest set. *)
Fixpoint shortest_from (sets : list Set_t) (i shortestSet : nat) (shortestLen : Z) : nat :=
  match sets with
  | [] => shortestSet
  | set :: sets' =>
      if SetStruct.Len set <? shortestLen then shortest_from sets' (S i) i (SetStruct.Len set)
      else shortest_from sets' (S i) shortestSet shortestLen
  end.

(** The intersection, starting from the smallest set; without any set,
    [sets[shortestSet]] is out of range. *)
Definition inter_sets (sets : list Set_t) : M World Set_t :=
  let shortestSet := shortest_from sets 0 0 MaxInt64 in
  primSet ← or_panic (sets !! shortestSet);
  set_op Intersect primSet (delete shortestSet sets).

Definition sInterSet (cmd : list slice) : M World (option RedisData) :=
  bad ← name_is_not cmd (bs "sinter");
  if bad : bool then mret set_error
  else if zlen cmd <? 2 then mret (set_args (bs "sinter"))
  else
    let keys := map str (drop 1 cmd) in
    check_all keys ;;
    with_rlocks keys (
      sets ← collect_sets keys;
      match sets with
      | None => mret wrongtype
      | Some sets =>
          interSet ← inter_sets sets;
          members ← set_Members interSet;
          mret (bulk_members members)
      end).

Definition sInterStoreSet (cmd : list slice) : M World (option RedisData) :=
  bad ← name_is_not cmd (bs "sinterstore");
  if bad : bool then mret set_error
  else if zlen cmd <? 3 then mret (set_args (bs "sinterstore"))
  else
    c1 ← arg cmd 1;
    let desKey := str c1 in
    CheckTTL desKey ;;
    ok ← des_ok desKey;
    if negb ok then mret wrongtype
    else
      keys ← live_keys (map str (drop 2 cmd));
      if zlen keys =? 0 then mret (int 0)
      else
        interSet ← with_rlocks keys (
          sets ← collect_sets keys;
          match sets with
          | None => mret None
          | Some sets => r ← inter_sets sets; mret (Some r)
          end);
        match interSet with
        | None => mret wrongtype
        | Some interSet => CheckTTL desKey ;; with_lock desKey (store_result desKey interSet)
        end.

Definition sIsMemberSet (cmd : list slice) : M World (option RedisData) :=
  bad ← name_is_not cmd (bs "sismember");
  if bad : bool then mret set_error
  else if negb (zlen cmd =? 3) then mret (set_args (bs "sismember"))
  else
    c1 ← arg cmd 1; c2 ← arg cmd 2;
    read_set (str c1) (int 0) (fun set => mret (if Has (str c2) set then int 1 else int 0)).

Definition sMembersSet (cmd : list slice) : M World (option RedisData) :=
  if negb (zlen cmd =? 2) then mret (set_args (bs "smembers"))
  else
    c1 ← arg cmd 1;
    read_set (str c1) empty_array (fun set =>
      members ← set_Members set;
      mret (array (map MakeStringData members))).

Definition sMoveSet (cmd : list slice) : M World (option RedisData) :=
  if negb (zlen cmd =? 4) then mret (set_args (bs "smove"))
  else
    c1 ← arg cmd 1; c2 ← arg cmd 2; c3 ← arg cmd 3;
    let srcKey := str c1 in let desKey := str c2 in let val := str c3 in
    CheckTTL desKey ;;
    alive ← CheckTTL srcKey;
    if negb alive then mret (int 0)
    else with_locks [srcKey; desKey] (
      tem ← db_Get srcKey;
      match tem with
      | None => mret (int 0)
      | Some (VSet srcSet) =>
          tem ← db_Get desKey;
          let move (add : M World unit) : M World (option RedisData) :=
            let '(res, srcSet') := Remove val srcSet in
            store_object srcKey (VSet srcSet') ;;
            if res =? 0 then mret (int 0) else add ;; mret (int 1) in
          match tem with
          | None => move (db_Set desKey (VSet (Add val NewSet).2) ;; mret tt)
          | Some (VSet _) =>
              (* the destination is read again: it may be the source *)
              move (des ← db_Get desKey;
                    match des with
                    | Some (VSet desSet) => store_object desKey (VSet (Add val desSet).2)
                    | _ => panic
                    end)
          | Some _ => mret wrongtype
          end
      | Some _ => mret wrongtype
      end).

(** [for i := 0; i < count; i++ { val := set.Pop(); if val == "" { break } ... }];
    an empty set gives the empty string. *)
Fixpoint pop_members (fuel n : nat) (s : Set_t) (res : list bytes) : list bytes * Set_t :=
  match fuel with
  | O => (res, s)
  | S f =>
      let '(val, s') := Pop n s in
      if beq val [] then (res, s') else pop_members f (S n) s' (res ++ [val])
  end.

Definition sPopSet (cmd : list slice) : M World (option RedisData) :=
  bad ← name_is_not cmd (bs "spop");
  if bad : bool then mret set_error
  else if negb (zlen cmd =? 2) && negb (zlen cmd =? 3) then mret (set_args (bs "spop"))
  else
    count ← (if zlen cmd =? 3 then
               c2 ← arg cmd 2;
               mret (match Atoi (str c2) with
                     | Some z => if z <? 0 then None else Some z
                     | None => None
                     end)
             else mret (Some 1));
    match count with
    | None => mret (err (bs "count value must be a positive integer"))
    | Some count =>
        c1 ← arg cmd 1;
        let key := str c1 in
        alive ← CheckTTL key;
        if negb alive then mret nil_bulk
        else with_lock key (
          tem ← db_Get key;
          match tem with
          | None => mret nil_bulk
          | Some (VSet set) =>
              if count =? 0 then mret empty_array
              else
                n ← gets ranges;
                (* after Len pops the set is empty and the loop stops *)
                let pops := if count =? 1 then 1%nat else Z.to_nat (Z.min count (SetStruct.Len set + 1)) in
                skip_ranges pops ;;
                let '(reply, set') :=
                  if count =? 1 then
                    let '(val, set') := Pop n set in (bulk (of_string val), set')
                  else
                    let '(vals, set') := pop_members pops n set [] in (bulk_members vals, set') in
                store_object key (VSet set') ;;
                (if SetStruct.Len set' =? 0 then dropKey key else mret tt) ;;
                mret reply
          | Some _ => mret wrongtype
          end)
    end.

Definition sRandMemberSet (cmd : list slice) : M World (option RedisData) :=
  if negb (zlen cmd =? 2) && negb (zlen cmd =? 3) then mret (set_args (bs "srandmember"))
  else
    count ← (if zlen cmd =? 3 then c2 ← arg cmd 2; mret (Atoi (str c2)) else mret (Some 1));
    match count with
    | None => mret (err (bs "count value must be an integer"))
    | Some count =>
        c1 ← arg cmd 1;
        read_set (str c1) nil_bulk (fun set =>
          n ← next_range;
          resMembers ← lift (SetStruct.Random n count set);
          skip_ranges (length resMembers) ;;
          mret (if zlen resMembers =? 0 then nil_bulk else array (map MakeStringData resMembers)))
    end.

Definition sRemSet (cmd : list slice) : M World (option RedisData) :=
  bad ← name_is_not cmd (bs "srem");
  if bad : bool then mret set_error
  else if zlen cmd <? 3 then mret (set_args (bs "srem"))
  else
    c1 ← arg cmd 1;
    let key := str c1 in
    alive ← CheckTTL key;
    if negb alive then mret (int 0)
    else with_lock key (
      tem ← db_Get key;
      match tem with
      | None => mret (int 0)
      | Some (VSet set) =>
          let '(res, set') := each_member Remove (drop 2 cmd) set in
          store_object key (VSet set') ;;
          (if SetStruct.Len set' =? 0 then dropKey key else mret tt) ;;
          mret (int res)
      | Some _ => mret wrongtype
      end).

(** [sets[0].Union(sets[1:]...)]. *)
Definition union_sets (sets : list Set_t) : M World Set_t :=
  s0 ← or_panic (sets !! 0%nat);
  set_op SetStruct.Union s0 (drop 1 sets).

Definition sUnionSet (cmd : list slice) : M World (option RedisData) :=
  bad ← name_is_not cmd (bs "sunion");
  if bad : bool then mret set_error
  else if zlen cmd <? 2 then mret (set_args (bs "sunion"))
  else
    keys ← live_keys (map str (drop 1 cmd));
    if zlen keys =? 0 then mret empty_array
    else with_rlocks keys (
      sets ← collect_sets keys;
      match sets with
      | None => mret wrongtype
      | Some sets =>
          if zlen sets =? 0 then mret empty_array
          else
            resSet ← union_sets sets;
            members ← set_Members resSet;
            mret (bulk_members members)
      end).

(** The lock of the destination is released before the result is stored. *)
Definition sUnionStoreSet (cmd : list slice) : M World (option RedisData) :=
  bad ← name_is_not cmd (bs "sunionstore");
  if bad : bool then mret set_error
  else if zlen cmd <? 3 then mret (set_args (bs "sunionstore"))
  else
    c1 ← arg cmd 1;
    let desKey := str c1 in
    CheckTTL desKey ;;
    ok ← des_ok desKey;
    if negb ok then mret wrongtype
    else
      keys ← live_keys (map str (drop 2 cmd));
      if zlen keys =? 0 then mret (int 0)
      else
        resSet ← with_rlocks keys (
          sets ← collect_sets keys;
          match sets with
          | None => mret (inr wrongtype)
          | Some sets =>
              if zlen sets =? 0 then mret (inr empty_array)
              else r ← union_sets sets; mret (inl r)
          end);
        match resSet with
        | inr reply => mret reply
        | inl resSet =>
            CheckTTL desKey ;;
            with_lock desKey (mret tt) ;;
            store_result desKey resSet
        end.

Definition RegisterSetCommands : list (bytes * Handler) :=
  [(bs "sadd", sAddSet); (bs "scard", sCardSet); (bs "sdiff", sDiffSet); (bs "sdiffstore", sDiffStoreSet);
   (bs "sinter", sInterSet); (bs "sinterstore", sInterStoreSet); (bs "sismember", sIsMemberSet);
   (bs "smembers", sMembersSet); (bs "smove", sMoveSet); (bs "spop", sPopSet);
   (bs "srandmember", sRandMemberSet); (bs "srem", sRemSet); (bs "sunion", sUnionSet);
   (bs "sunionstore", sUnionStoreSet)].
End sets.

(* ===================================================================== *)
(** ** Every handler keeps the invariant and releases its locks          *)
(* ===================================================================== *)

Section safety.
Context {rt : GoRuntime}.

Lemma pres_set_Members s : pres (set_Members s).
Proof. unfold set_Members. solve_pres. Qed.

Lemma pres_set_op op s sets : pres (set_op op s sets).
Proof. unfold set_op. solve_pres. Qed.

Lemma pres_collect_sets keys : pres (collect_sets keys).
Proof. unfold collect_sets. solve_pres. Qed.

Lemma pres_des_ok key : pres (des_ok key).
Proof. unfold des_ok. solve_pres. Qed.

Lemma pres_store_result key res : pres (store_result key res).
Proof. unfold store_result. pose proof (pres_des_ok key). solve_pres. Qed.

Lemma pres_set_Random n c s : pres (lift (SetStruct.Random n c s)).
Proof. apply pres_lift. unfold SetStruct.Random. repeat case_match; done. Qed.

Lemma safe_check_all keys : safe (check_all keys).
Proof. apply safe_foldM. intros. apply safe_bind; [apply safe_CheckTTL|]. intros. apply safe_ret. Qed.

Lemma safe_live_keys keys : safe (live_keys keys).
Proof. apply safe_foldM. intros. apply safe_bind; [apply safe_CheckTTL|]. intros. apply safe_ret. Qed.

Lemma safe_read_set key none body : (forall s, pres (body s)) -> safe (read_set key none body).
Proof. intros Hb. unfold read_set. solve_safe. Qed.
End safety.

#[export] Hint Resolve pres_set_Members pres_set_op pres_collect_sets pres_des_ok pres_store_result
  pres_set_Random : pres.

Lemma sets_safe {rt : GoRuntime} name h cmd : (name, h) ∈ RegisterSetCommands -> safe (h cmd).
Proof.
  unfold RegisterSetCommands. rewrite !elem_of_cons, elem_of_nil.
  intros H. repeat destruct H as [[= -> ->]|H]; [..|done];
    unfold sAddSet, sCardSet, sDiffSet, sDiffStoreSet, sInterSet, sInterStoreSet, sIsMemberSet, sMembersSet,
      sMoveSet, sPopSet, sRandMemberSet, sRemSet, sUnionSet, sUnionStoreSet, inter_sets, union_sets;
    repeat first [ apply safe_check_all | apply safe_live_keys
                 | apply safe_read_set; intros ?; solve_pres | safe_step ].
Qed.

(* ===================================================================== *)
(** ** What the commands do                                              *)
(* ===================================================================== *)

(** [k] holds the set [s]; a missing key counts as the empty set. *)
Definition set_at (w : World) (k : bytes) (s : Set_t) : Prop :=
  match kv w !! k with
  | None => s = ∅
  | Some (VSet s') => s' = s
  | Some _ => False
  end.

(** The sets under those of [keys] that exist. *)
Fixpoint found (m : gmap bytes Value) (keys : list bytes) : option (list Set_t) :=
  match keys with
  | [] => Some []
  | k :: ks =>
      match m !! k with
      | None => found m ks
      | Some (VSet s) => cons s <$> found m ks
      | Some _ => None
      end
  end.

Section theorems.
Context {rt : GoRuntime}.
Implicit Types (s : Set_t) (w : World) (keys : list bytes).

Lemma each_member_Add members s : each_member Add members s =
  (Z.of_nat (base.size (list_to_set (map str members) ∖ s)), s ∪ list_to_set (map str members)).
Proof.
  unfold each_member.
  cut (forall n, fold_left (fun '(res, s) m => let '(n, s') := Add (str m) s in (res + n, s')) members (n, s) =
    (n + Z.of_nat (base.size (list_to_set (map str members) ∖ s)), s ∪ list_to_set (map str members))).
  { intros H. by rewrite H. }
  revert s. induction members as [|m members IH]; intros s n; cbn [fold_left].
  { cbn. f_equal; [|set_solver]. replace (∅ ∖ s) with (∅ : Set_t) by set_solver. rewrite size_empty. lia. }
  unfold Add, Has. cbn [map list_to_set foldr]. case_bool_decide as Hm; rewrite IH; f_equal; try set_solver.
  - rewrite Z.add_0_r. do 3 f_equal. set_solver.
  - rewrite <- Z.add_assoc. f_equal.
    replace (({[str m]} ∪ list_to_set (map str members)) ∖ s)
      with ({[str m]} ∪ (list_to_set (map str members) ∖ ({[str m]} ∪ s))).
    + rewrite (size_union ({[str m]} : gset bytes)), size_singleton by set_solver. lia.
    + apply set_eq. intros k. destruct (decide (k = str m)) as [->|]; set_solver.
Qed.

(** SADD adds the given members to the set under the key, which is created
    if it is missing, and replies with the number of distinct members that were
    not in it before. *)
Theorem sadd_spec (w : World) (c k m : slice) (ms : list slice) (s : Set_t)
  (Hw : Inv w) (Hl : all_free (locks w)) (He : ~ expired w (str k)) (Hs : set_at w (str k) s) :
  exists w', sAddSet (c :: k :: m :: ms) w =
      Ret (int (Z.of_nat (base.size (list_to_set (map str (m :: ms)) ∖ s))), w') /\ keeps w tt w' /\
    kv w' = <[str k := VSet (s ∪ list_to_set (map str (m :: ms)))]> (kv w) /\ ttls w' = ttls w.
Proof.
  apply wp_returns. unfold sAddSet. rewrite !zlen_cons. pose proof (zlen_nonneg ms). zb.
  apply wp_bind. eapply wp_arg; [done|]. cbv zeta. change (drop 2 (c :: k :: m :: ms)) with (m :: ms).
  apply wp_bind, wp_CheckTTL; [done|done| |by intros]. intros _.
  apply wp_with_lock; [done|done|]. intros w1 Hw1 Ek Et Ec En.
  apply wp_bind, wp_db_Get; [apply Hw1|]. unfold set_at in Hs. rewrite Ek.
  destruct (kv w !! str k) as [v|] eqn:E.
  - destruct v as [| |s'| | |]; try done. subst s'. rewrite each_member_Add.
    apply wp_bind, wp_store_kv; [done|done|by rewrite Ek, E|]. intros w2 K2 E2 Et2. apply wp_ret. split; [done|].
    intros w3 K3 E3 Et3. split; [done|]. split; [done|]. rewrite E3, E2, Ek, Et3, Et2. done.
  - subst s. apply wp_bind, wp_Set_kv; [done|done|]. intros w2 K2 E2 Et2. unfold NewSet. rewrite each_member_Add.
    apply wp_bind, wp_store_kv; [by eapply keeps_Inv|done|by rewrite E2, lookup_insert_eq|].
    intros w3 K3 E3 Et3. apply wp_ret. split; [by eapply keeps_trans|].
    intros w4 K4 E4 Et4. split; [done|]. split; [done|].
    rewrite E4, E3, E2, Ek, Et4, Et3, Et2, insert_insert_eq. done.
Qed.

Lemma wp_check_all (pn : bool) keys w (Q : unit -> World -> Prop) :
  Inv w -> all_free (locks w) -> Forall (fun k => ~ expired w k) keys -> Q tt w -> wp pn (check_all keys) Q w.
Proof.
  intros Hw Hl Hk HQ. unfold check_all, forM. generalize tt at 2. induction Hk as [|k keys Hk _ IH]; intros u; cbn.
  - by destruct u.
  - apply wp_bind, wp_bind, wp_CheckTTL; [done|done| |by intros]. intros _. apply wp_ret, IH.
Qed.

Lemma wp_collect_sets (pn : bool) keys w (Q : option (list Set_t) -> World -> Prop) :
  Inv w -> Q (found (kv w) keys) w -> wp pn (collect_sets keys) Q w.
Proof.
  intros Hw. unfold collect_sets.
  cut (forall acc, Q (match acc with Some a => app a <$> found (kv w) keys | None => None end) w ->
    wp pn (foldM (fun acc key => match acc with None => mret None | Some sets => tem ← db_Get key;
        mret (match tem with None => Some sets | Some (VSet set) => Some (sets ++ [set]) | Some _ => None end) end)
      acc keys) Q w).
  { intros H HQ. apply H. by destruct (found (kv w) keys). }
  induction keys as [|k keys IH]; intros acc HQ; cbn [foldM found] in *.
  { apply wp_ret. destruct acc as [a|]; [|done]. cbn in HQ. by rewrite app_nil_r in HQ. }
  apply wp_bind. destruct acc as [a|]; [|by apply wp_ret, IH].
  apply wp_bind, wp_db_Get; [apply Hw|]. apply wp_ret, IH.
  destruct (kv w !! k) as [[| |s| | |]|]; try done.
  destruct (found (kv w) keys) as [l|]; [|done]. cbn in *. by rewrite <- (assoc_L (++)).
Qed.

Lemma shortest_from_lt (sets : list Set_t) i b len : (b < i \/ b = i /\ sets <> [])%nat ->
  (shortest_from sets i b len < i + length sets)%nat.
Proof.
  revert i b len. induction sets as [|s sets IH]; intros i b len Hb; cbn.
  { destruct Hb as [|[_ []]]; [lia|done]. }
  case_match.
  - specialize (IH (S i) i (SetStruct.Len s)). lia.
  - specialize (IH (S i) b len). lia.
Qed.

Lemma wp_inter_sets (pn : bool) (sets : list Set_t) w (Q : Set_t -> World -> Prop) :
  Inv w -> sets <> [] ->
  (forall w' r, keeps w tt w' -> kv w' = kv w -> ttls w' = ttls w ->
     (forall m, m ∈ r <-> Forall (fun s => m ∈ s) sets) -> Q r w') ->
  wp pn (inter_sets sets) Q w.
Proof.
  intros Hw Hne HQ. unfold inter_sets. cbv zeta. set (i := shortest_from sets 0 0 MaxInt64).
  destruct (lookup_lt_is_Some_2 sets i) as [prim E].
  { pose proof (shortest_from_lt sets 0 0 MaxInt64 (or_intror (conj eq_refl Hne))). done. }
  rewrite E. apply wp_bind, wp_ret, wp_bind, wp_gets, wp_bind, wp_modify, wp_ret.
  apply HQ; [|done|done|].
  - split; [|done]. destruct Hw as [H1 H2 H3 H4 H5 H6 H7 H8 H9]. by split.
  - intros m. rewrite Intersect_spec. rewrite (delete_Permutation _ _ _ E) at 2. by rewrite Forall_cons.
Qed.

(** SINTER replies with the intersection of the sets under those of its
    keys that exist: missing keys are ignored instead of making the result
    empty, and if none of the keys exists the handler panics. *)
Theorem sinter_spec (w : World) (c k : slice) (ks : list slice) (sets : list Set_t)
  (Hw : Inv w) (Hl : all_free (locks w)) (Hc : ToLower (str c) = bs "sinter")
  (He : Forall (fun k => ~ expired w k) (map str (k :: ks))) (Hf : found (kv w) (map str (k :: ks)) = Some sets) :
  match sets with
  | [] => sInterSet (c :: k :: ks) w = Panic
  | _ => exists w' ms, sInterSet (c :: k :: ks) w = Ret (bulk_members ms, w') /\ keeps w tt w' /\
           kv w' = kv w /\ ttls w' = ttls w /\ NoDup ms /\ forall m, m ∈ ms <-> Forall (fun s => m ∈ s) sets
  end.
Proof.
  assert (Hrun : forall pn Q,
    (if decide (sets = []) then pn = true else
     forall w' ms, keeps w tt w' -> kv w' = kv w -> ttls w' = ttls w -> NoDup ms ->
       (forall m, m ∈ ms <-> Forall (fun s => m ∈ s) sets) -> Q (bulk_members ms) w') ->
    wp pn (sInterSet (c :: k :: ks)) Q w).
  { intros pn Q HQ. unfold sInterSet. apply wp_bind, wp_name; [done|].
    rewrite !zlen_cons. pose proof (zlen_nonneg ks). zb. cbv zeta.
    change (drop 1 (c :: k :: ks)) with (k :: ks). set (keys := map str (k :: ks)) in *.
    apply wp_bind, wp_check_all; [done..|]. apply wp_around_kv; [by apply balanced_RLockMulti|done|].
    intros w1 Hw1 Ek Et Ec En. apply wp_bind, wp_collect_sets; [done|]. rewrite Ek, Hf.
    destruct (decide (sets = [])) as [->|Hne]; [done|].
    apply wp_bind, wp_inter_sets; [done|done|]. intros w2 r K2 E2 Et2 Hr.
    apply wp_bind, wp_bind. unfold next_range. apply wp_ret, wp_ret. split; [|].
    - destruct K2 as ([H1 H2 H3 H4 H5 H6 H7 H8 H9] & ? & ?). by split.
    - intros w3 K3 E3 Et3. apply HQ; [done|by rewrite E3, <- Ek, <- E2|by rewrite Et3, <- Et, <- Et2| |].
      + unfold Members. rewrite range_order_perm. apply NoDup_elements.
      + intros m. unfold Members. rewrite range_order_elem. apply Hr. }
  destruct sets as [|s0 sets].
  - specialize (Hrun true (fun _ _ => False)). unfold wp in Hrun.
    destruct (sInterSet (c :: k :: ks) w) as [[]| |]; [|done|]; exfalso; by apply Hrun.
  - specialize (Hrun false (fun a w' => exists ms, a = bulk_members ms /\ keeps w tt w' /\ kv w' = kv w /\
      ttls w' = ttls w /\ NoDup ms /\ forall m, m ∈ ms <-> Forall (fun s => m ∈ s) (s0 :: sets))).
    destruct (wp_run _ _ _ (Hrun ltac:(intros w' ms; intros; by exists ms))) as (a & w' & E & ms & -> & H).
    by exists w', ms.
Qed.
End theorems.

(* ===================================================================== *)
(** ** Instances of the theorems                                         *)
(* ===================================================================== *)

(** The set x, y under the key "s". *)
Definition demo_members : Set_t := {[bs "x"; bs "y"]}.
Definition demo_set : World := after (db_Set (bs "s") (VSet demo_members)) (boot 4 0).

Lemma demo_set_Inv : Inv demo_set /\ all_free (locks demo_set).
Proof.
  apply after_safe; [|apply boot_Inv; [lia|unfold MaxInt64; lia]..]. by apply safe_pres, pres_db_Set.
Qed.

Lemma sadd_spec_witness :
  exists w', sAddSet [word "sadd"; word "s"; word "y"; word "z"; word "z"] demo_set = Ret (int 1, w') /\
    keeps demo_set tt w' /\
    kv w' = <[bs "s" := VSet (demo_members ∪ list_to_set [bs "y"; bs "z"; bs "z"])]> (kv demo_set) /\
    ttls w' = ttls demo_set.
Proof.
  apply (@sadd_spec demo_set (word "sadd") (word "s") (word "y") [word "z"; word "z"] demo_members).
  - apply demo_set_Inv.
  - apply demo_set_Inv.
  - apply (bool_decide_unpack _). vm_compute. exact I.
  - vm_compute. reflexivity.
Defined.

Lemma sinter_spec_witness :
  exists w' ms, @sInterSet plain_runtime [word "sinter"; word "s"; word "none"] demo_set = Ret (@bulk_members plain_runtime ms, w') /\
    keeps demo_set tt w' /\ kv w' = kv demo_set /\ ttls w' = ttls demo_set /\ NoDup ms /\
    forall m, m ∈ ms <-> Forall (fun s => m ∈ s) [demo_members].
Proof.
  apply (@sinter_spec plain_runtime demo_set (word "sinter") (word "s") [word "none"] [demo_members]).
  - apply demo_set_Inv.
  - apply demo_set_Inv.
  - reflexivity.
  - apply (bool_decide_unpack _). vm_compute. exact I.
  - vm_compute. reflexivity.
Defined.
