(* ===== verification/StreamCmds.v ===== *)
(** * StreamCmds: the stream commands (src/memdb/stream.go)

    [parse_xadd] is the option loop of [xadd] on the arguments that are left.
    The loop does not advance past an argument "~": there it never ends, which
    the model reports as [Block]. The time of the clock is read once. *)

From S2P Require Import StreamStruct.
From S2P Require Import Prelude Strconv Resp Util ConcurrentMap Locks ListStruct SetStruct HashStruct Db Keys.

Section streams.
Context {rt : GoRuntime}.

Definition invalid_id : option RedisData := err (bs "ERR Invalid stream ID specified as stream command argument").
Definition not_integer : option RedisData := err (bs "ERR value is not an integer or out of range").
Definition small_id : option RedisData :=
  err (bs "ERR The ID specified in XADD is equal or smaller than the target stream top item").

(** The flags of XADD, MAXLEN's threshold and MINID's. *)
Record xopts : Type := mkXopts {
  nomkstream : bool;
  maxlen : bool;
  minid : bool;
  wave : bool;
  limit : bool;
  threshold : Z;
  IDThreshold : StreamID
}.

Definition no_opts : xopts := mkXopts false false false false false 0 (mkID (-1) (-1)).
Definition set_nomkstream (o : xopts) : xopts :=
  mkXopts true (maxlen o) (minid o) (wave o) (limit o) (threshold o) (IDThreshold o).
Definition set_maxlen (n : Z) (o : xopts) : xopts :=
  mkXopts (nomkstream o) true (minid o) (wave o) (limit o) n (IDThreshold o).
Definition set_minid (i : StreamID) (o : xopts) : xopts :=
  mkXopts (nomkstream o) (maxlen o) true (wave o) (limit o) (threshold o) i.
Definition set_limit (o : xopts) : xopts :=
  mkXopts (nomkstream o) (maxlen o) (minid o) (wave o) true (threshold o) (IDThreshold o).

(** An ID with both parts. *)
Definition complete_id (s : bytes) : option StreamID :=
  match Split "-" s with
  | [t; n] => t' ← ParseInt t; n' ← ParseInt n; Some (mkID t' n')
  | _ => None
  end.

(** MINID's argument: a missing number leaves -1. *)
Definition minid_arg (idStr : bytes) : option StreamID :=
  if Contains idStr "-" then complete_id idStr
  else t ← ParseInt idStr; Some (mkID t (-1)).

(** [string(cmd[idx]) == "~"] or ["="]. *)
Definition is_trim_mark (a : slice) : bool := beq (str a) (bs "~") || beq (str a) (bs "=").

(** The value of MAXLEN: the options with it, or the error. *)
Definition maxlen_arg (a : slice) (o : xopts) : option RedisData + xopts :=
  match Atoi (str a) with
  | None => inl not_integer
  | Some n => if n <? 0 then inl (err (bs "ERR The MAXLEN argument must be >= 0.")) else inr (set_maxlen n o)
  end.

(** The result of the option loop: an error reply, or the options, the ID and
    the arguments after it. *)
Definition parsed : Type := option RedisData + (xopts * StreamID * list slice).

Fixpoint parse_xadd (o : xopts) (cmd : list slice) : outcome parsed :=
  match cmd with
  | [] => Panic
  | c :: cmd1 =>
      let word := ToLower (str c) in
      if beq word (bs "nomkstream") then parse_xadd (set_nomkstream o) cmd1
      else if beq word (bs "maxlen") then
        match cmd1 with
        | [] => Panic
        | a :: cmd2 =>
            if is_trim_mark a then
              match cmd2 with
              | [] => Panic
              | b :: cmd3 => match maxlen_arg b o with inl e => Ret (inl e) | inr o' => parse_xadd o' cmd3 end
              end
            else match maxlen_arg a o with inl e => Ret (inl e) | inr o' => parse_xadd o' cmd2 end
        end
      else if beq word (bs "minid") then
        (* the loop goes on at the ID itself *)
        match cmd1 with
        | [] => Panic
        | a :: cmd2 =>
            if is_trim_mark a then
              match cmd2 with
              | [] => Panic
              | b :: _ =>
                  match minid_arg (str b) with
                  | None => Ret (inl invalid_id)
                  | Some i => parse_xadd (set_minid i o) cmd2
                  end
              end
            else
              match minid_arg (str a) with
              | None => Ret (inl invalid_id)
              | Some i => parse_xadd (set_minid i o) cmd1
              end
        end
      else if beq word (bs "limit") then
        match cmd1 with
        | [] => Panic
        | a :: cmd2 =>
            match Atoi (str a) with
            | None => Ret (inl not_integer)
            | Some _ => parse_xadd (set_limit o) cmd2
            end
        end
      else if beq word (bs "~") then Block
      else if beq (str c) (bs "*") then Ret (inr (o, mkID (-1) (-1), cmd1))
      else
        match complete_id (str c) with
        | None => Ret (inl invalid_id)
        | Some ID => Ret (inr (o, ID, cmd1))
        end
  end.

(** MINID's loop, over the IDs the stream had when it started. *)
Fixpoint minid_trim (ID : StreamID) (ids : list StreamID) (count : Z) (s : Stream) : outcome Stream :=
  match ids with
  | [] => Ret s
  | id :: ids' =>
      if GreaterEqual id ID then
        match DropFirstN count s with
        | Ret (_, s') => minid_trim ID ids' count s'
        | Panic => Panic
        | Block => Block
        end
      else minid_trim ID ids' (count + 1) s
  end.

(** What XADD trims after the entry is in. *)
Definition xtrim (o : xopts) (ID : StreamID) (s : Stream) : outcome Stream :=
  match (if maxlen o && (threshold o <? zlen (timeStamps s))
         then DropFirstN (zlen (timeStamps s) - threshold o) s else Ret (0, s)) with
  | Ret (_, s') => if minid o then minid_trim ID (timeStamps s') 0 s' else Ret s'
  | Panic => Panic
  | Block => Block
  end.

(** The end of [xadd]: the trimming, through the pointer stored under the key,
    and the reply. *)
Definition xadd_finish (key : bytes) (o : xopts) (ID : StreamID) (s : Stream) : M World (option RedisData) :=
  s' ← lift (xtrim o ID s);
  store_object key (VStream s') ;;
  mret (bulk (ByteData (MakeStringData (Format ID)))).

Definition xadd_entry (key : bytes) (o : xopts) (ID : StreamID) (kvPairs : list bytes) : M World (option RedisData) :=
  tmp ← db_Get key;
  match tmp with
  | None =>
      if nomkstream o then mret nil_bulk
      else
        now ← unix_milli;
        match AddEntry now ID kvPairs NewStream with
        | None => mret small_id
        | Some (ID', stream) => db_Set key (VStream stream) ;; xadd_finish key o ID' stream
        end
  | Some (VStream stream) =>
      now ← unix_milli;
      match AddEntry now ID kvPairs stream with
      | None => mret small_id
      | Some (ID', stream') => store_object key (VStream stream') ;; xadd_finish key o ID' stream'
      end
  | Some _ => mret wrongtype
  end.

Definition xadd (cmd : list slice) : M World (option RedisData) :=
  if zlen cmd <? 5 then mret (Some (MakeWrongNumberArgs (bs "xadd")))
  else
    c1 ← arg cmd 1;
    let key := str c1 in
    p ← lift (parse_xadd no_opts (drop 2 cmd));
    match p with
    | inl e => mret e
    | inr (o, ID, rest) =>
        if maxlen o && minid o then
          mret (err (bs "ERR syntax error, MAXLEN and MINID options at the same time are not compatible"))
        else if limit o && negb (wave o) then
          mret (err (bs "ERR syntax error, LIMIT cannot be used without the special ~ option"))
        else with_lock key (
          let kvPairs := map str rest in
          if negb (zlen kvPairs mod 2 =? 0) then mret (Some (MakeWrongNumberArgs (bs "xadd")))
          else xadd_entry key o ID kvPairs)
    end.

(** An end of XRANGE's interval; [inf] stands for the infinite end. *)
Definition range_end (inf : bytes) (s : bytes) : option StreamID :=
  if beq s inf then Some (mkID (-1) (-1)) else Parse s.

(** One entry of XRANGE's reply. *)
Definition entry_reply (e : StreamID * list bytes) : RedisData :=
  MakeArrayData [MakeStringData (Format e.1); MakeArrayData (map MakeStringData e.2)].

(** No entries: a nil reply. *)
Definition range_reply (l : list (StreamID * list bytes)) : option RedisData :=
  match l with
  | [] => None
  | _ => array (map entry_reply l)
  end.

Definition xrange (cmd : list slice) : M World (option RedisData) :=
  if zlen cmd <? 4 then mret (Some (MakeWrongNumberArgs (bs "xrange")))
  else
    c1 ← arg cmd 1; c2 ← arg cmd 2; c3 ← arg cmd 3;
    let key := str c1 in
    match range_end (bs "-") (str c2), range_end (bs "+") (str c3) with
    | Some start, Some end_ =>
        with_lock key (
          tmp ← db_Get key;
          match tmp with
          | None => db_Set key (VStream NewStream) ;; mret (range_reply (StreamStruct.Range start end_ NewStream))
          | Some (VStream stream) => mret (range_reply (StreamStruct.Range start end_ stream))
          | Some _ => mret wrongtype
          end)
    | _, _ => mret invalid_id
    end.

Definition RegisterStreamCommands : list (bytes * Handler) := [(bs "xadd", xadd); (bs "xrange", xrange)].
End streams.

(* ===================================================================== *)
(** ** The handlers keep the invariant                                   *)
(* ===================================================================== *)

Lemma Split_nosep_in sep s x : x ∈ Split sep s -> sep ∉ x.
Proof.
  revert x. induction s as [|c s IH]; intros x; cbn; [intros ->%list_elem_of_singleton; apply not_elem_of_nil|].
  destruct (Split sep s) as [|f fs] eqn:E; [by pose proof (Split_ne sep s)|].
  case_bool_decide as Hc; rewrite ?elem_of_cons; [intros [->|H]; [apply not_elem_of_nil|by apply IH, elem_of_cons]|].
  intros [->|H]; [|by apply IH, elem_of_cons; right].
  apply not_elem_of_cons. split; [congruence|]. apply IH, elem_of_cons. by left.
Qed.

(** A text without a minus sign is not a negative number. *)
Lemma ParseInt_nonneg s z : "-"%char ∉ s -> ParseInt s = Some z -> 0 <= z.
Proof.
  intros Hs. unfold ParseInt. destruct s as [|c s]; [done|]. apply not_elem_of_cons in Hs as [Hc _].
  rewrite (bool_decide_false (c = "-"%char)) by congruence. cbn [orb].
  repeat case_match; intros; simplify_eq; try (by eapply parse_nat_nonneg); done.
Qed.

Lemma complete_id_ok s i : complete_id s = Some i -> 0 <= time i <= MaxInt64 /\ in_i64 (seqNum i).
Proof.
  unfold complete_id. destruct (Split "-" s) as [|t [|n [|]]] eqn:E; try done.
  destruct (ParseInt t) as [zt|] eqn:Et; [|done]. destruct (ParseInt n) as [zn|] eqn:En; [|done].
  cbn. intros [= <-]. cbn. pose proof (ParseInt_range _ _ Et) as Ht. pose proof (ParseInt_range _ _ En).
  split; [|done]. split; [|apply Ht]. eapply ParseInt_nonneg; [|done].
  apply (Split_nosep_in "-" s). rewrite E. by left.
Qed.

(** The IDs the option loop delivers can be completed to well-formed ones, and
    thresholds are not negative. *)
Definition parsed_ok (o : xopts) (ID : StreamID) : Prop :=
  (time ID = -1 \/ 0 <= time ID <= MaxInt64) /\ in_i64 (seqNum ID) /\ 0 <= threshold o.

Lemma maxlen_arg_ok a o o' : maxlen_arg a o = inr o' -> 0 <= threshold o'.
Proof.
  unfold maxlen_arg. destruct (Atoi (str a)) as [n|]; [|done]. destruct (Z.ltb_spec n 0); [done|]. by intros [= <-].
Qed.

Lemma parse_xadd_ok {rt : GoRuntime} cmd o o' ID rest : 0 <= threshold o ->
  parse_xadd o cmd = Ret (inr (o', ID, rest)) -> parsed_ok o' ID.
Proof.
  revert o. induction cmd as [cmd IH] using (induction_ltof1 _ (@length slice)). unfold ltof in IH.
  intros o Ho. destruct cmd as [|c cmd1]; [done|]. cbn [parse_xadd]. cbv zeta.
  destruct (beq _ _); [apply IH; [cbn; lia|done]|].
  destruct (beq _ _).
  { destruct cmd1 as [|a cmd2]; [done|]. destruct (is_trim_mark a); [destruct cmd2 as [|b cmd3]; [done|]|];
      destruct (maxlen_arg _ o) as [e|o1] eqn:Em; try done; apply IH; try (by eapply maxlen_arg_ok); cbn; lia. }
  destruct (beq _ _).
  { destruct cmd1 as [|a cmd2]; [done|]. destruct (is_trim_mark a); [destruct cmd2 as [|b cmd3]; [done|]|];
      destruct (minid_arg _) as [i|]; try done; apply IH; try done; cbn; lia. }
  destruct (beq _ _).
  { destruct cmd1 as [|a cmd2]; [done|]. destruct (Atoi (str a)); [|done]. apply IH; [cbn; lia|done]. }
  destruct (beq _ _); [done|]. destruct (beq _ _).
  { intros [= <- <- <-]. unfold parsed_ok, in_i64, MinInt64, MaxInt64. cbn. split; [by left|]. split; [lia|done]. }
  destruct (complete_id (str c)) as [i|] eqn:Ei; [|done]. intros [= <- <- <-].
  apply complete_id_ok in Ei as [? ?]. split; [by right|done].
Qed.

Lemma minid_trim_ok ID ids count s : stream_ok s ->
  match minid_trim ID ids count s with Ret s' => stream_ok s' | Panic => True | Block => False end.
Proof.
  revert count s. induction ids as [|i ids IH]; intros count s Hs; cbn; [done|].
  destruct (GreaterEqual i ID); [|by apply IH]. pose proof (DropFirstN_ok s count Hs) as H.
  destruct (DropFirstN count s) as [[z s']| |]; [by apply IH|done|done].
Qed.

Lemma xtrim_ok o ID s : stream_ok s ->
  match xtrim o ID s with Ret s' => stream_ok s' | Panic => True | Block => False end.
Proof.
  intros Hs. unfold xtrim. destruct (andb _ _).
  - pose proof (DropFirstN_ok s (zlen (timeStamps s) - threshold o) Hs) as H.
    destruct (DropFirstN _ s) as [[z s']| |]; [|done|done]. destruct (minid o); [by apply minid_trim_ok|done].
  - destruct (minid o); [by apply minid_trim_ok|done].
Qed.

Lemma pres_bind_milli {B} (f : Z -> M World B) :
  (forall now, 0 <= now <= MaxInt64 -> pres (f now)) -> pres (unix_milli ≫= f).
Proof.
  intros Hf w Hw. apply wp_bind, wp_gets, Hf; [|done]. pose proof (inv_clock w Hw) as Hc.
  split; [apply Z.div_pos; lia|]. transitivity (clock w); [|lia]. apply Z.div_le_upper_bound; lia.
Qed.

Section safety.
Context {rt : GoRuntime}.

Lemma pres_xadd_finish key o ID s : stream_ok s -> pres (xadd_finish key o ID s).
Proof.
  intros Hs. pose proof (xtrim_ok o ID s Hs) as H. apply pres_bind_lift; [by intros E; rewrite E in H|].
  intros s' E. rewrite E in H. solve_pres.
Qed.

Lemma pres_xadd_entry key o ID kvPairs : parsed_ok o ID -> pres (xadd_entry key o ID kvPairs).
Proof.
  intros (Ht & Hs & _). apply pres_bind_Get. intros v Hv.
  assert (Hgo : forall A (store : Stream -> M World A) s, (forall s', stream_ok s' -> pres (store s')) -> stream_ok s ->
    pres (now ← unix_milli;
      match AddEntry now ID kvPairs s with
      | None => mret small_id
      | Some (ID', s') => store s' ;; xadd_finish key o ID' s'
      end)).
  { intros A store s Hst Hok. apply pres_bind_milli. intros now Hnow.
    destruct (AddEntry now ID kvPairs s) as [[ID' s']|] eqn:E; [|apply pres_ret].
    assert (stream_ok s') by by eapply stream_ok_AddEntry.
    apply pres_bind; [by apply Hst|]. intros _. by apply pres_xadd_finish. }
  destruct v as [[| | | | |s]|]; try apply pres_ret.
  - apply (Hgo _ (fun s' => store_object key (VStream s'))); [|by apply (Hv _ eq_refl)].
    intros s' Hs'. by apply pres_store_object.
  - destruct (nomkstream o); [apply pres_ret|].
    apply (Hgo _ (fun s' => db_Set key (VStream s'))); [|eapply is_log_ok, is_log_NewStream].
    intros s' Hs'. by apply pres_db_Set.
Qed.

(** XADD with an option "~" where an option is expected never returns. *)
Definition xadd_diverges (cmd : list slice) : Prop := parse_xadd no_opts (drop 2 cmd) = Block.

Lemma streams_safe name h cmd : (name, h) ∈ RegisterStreamCommands ->
  (name = bs "xadd" -> ~ xadd_diverges cmd) -> safe (h cmd).
Proof.
  unfold RegisterStreamCommands. rewrite !elem_of_cons, elem_of_nil. intros [[= -> ->]|[[= -> ->]|[]]] Hd.
  - unfold xadd. destruct (zlen cmd <? 5); [apply safe_ret|]. apply safe_bind; [solve_safe|]. intros c1. cbv zeta.
    apply safe_bind_lift; [by apply Hd|]. intros [e|[[o ID] rest]] E; [apply safe_ret|].
    apply parse_xadd_ok in E; [|done]. destruct (andb _ _); [apply safe_ret|]. destruct (andb _ _); [apply safe_ret|].
    apply safe_with_lock. destruct (negb _); [apply pres_ret|]. by apply pres_xadd_entry.
  - assert (stream_ok NewStream) by by eapply is_log_ok, is_log_NewStream. unfold xrange. solve_safe.
Qed.
End safety.

(* ===================================================================== *)
(** ** What the commands do                                              *)
(* ===================================================================== *)

(** [k] is_log the log [l]; a missing key counts as the empty log. *)
Definition stream_at (w : World) (k : bytes) (l : list (StreamID * list bytes)) : Prop :=
  match kv w !! k with
  | None => l = []
  | Some (VStream s) => is_log s l
  | Some _ => False
  end.

(** The text of an ID argument: complete, or the star. *)
Definition id_text (s : bytes) (ID : StreamID) : Prop :=
  (s = bs "*" /\ ID = mkID (-1) (-1)) \/ (s = Format ID /\ id_ok ID /\ 0 <= seqNum ID).

(** The arguments of a MAXLEN option, and what it leaves of a log. *)
Definition maxlen_args (trim : option (slice * slice)) : list slice :=
  match trim with None => [] | Some (m, n) => [m; n] end.

Definition keep_last {A} (trim : option (slice * slice)) (l : list A) : list A :=
  match trim with
  | None => l
  | Some (_, n) => drop (Z.to_nat (zlen l - default 0 (Atoi (str n)))) l
  end.

Definition maxlen_ok {rt : GoRuntime} (trim : option (slice * slice)) : Prop :=
  match trim with
  | None => True
  | Some (m, n) => ToLower (str m) = bs "maxlen" /\ exists z, Atoi (str n) = Some z /\ 0 <= z
  end.

Section theorems.
Context {rt : GoRuntime}.

Lemma complete_id_Format i : id_ok i -> 0 <= seqNum i -> complete_id (Format i) = Some i.
Proof.
  intros [Ht Hs] Hn. unfold complete_id, Format. change (bs "-" ++ ?x) with ("-"%char :: x).
  rewrite Split_app_sep by (apply FormatInt_nosep; lia). rewrite Split_nosep by by apply FormatInt_nosep.
  cbn. rewrite !ParseInt_FormatInt; [by destruct i|unfold in_i64, MinInt64; lia|done].
Qed.

Lemma digit_lower c : is_digit c = true \/ c = "-"%char -> is_ascii c = true /\ lower_byte c = c.
Proof.
  intros H. assert (Hc : 45 <= byteval c <= 57).
  { destruct H as [H| ->]; [|by vm_compute]. unfold is_digit in H. lia. }
  unfold is_ascii, lower_byte. split; [lia|]. zb. done.
Qed.

Lemma FormatInt_chars z : Forall (fun c => is_digit c = true \/ c = "-"%char) (FormatInt z).
Proof.
  unfold FormatInt. destruct (z <? 0); [constructor; [by right|]|];
    (eapply Forall_impl; [apply FormatNat_digits|]; intros c Hc; by left).
Qed.

Lemma ToLower_Format i : ToLower (Format i) = Format i.
Proof.
  apply ToLower_id. eapply Forall_impl; [|exact digit_lower]. unfold Format. rewrite !Forall_app.
  split; [apply FormatInt_chars|]. split; [|apply FormatInt_chars]. constructor; [by right|done].
Qed.

(** An ID does not look like an option. *)
Lemma Format_word i x : 0 <= time i -> match x with [] => False | c :: _ => is_digit c = false end ->
  beq (Format i) x = false.
Proof.
  intros Ht Hc. apply beq_false. unfold Format, FormatInt. zb. destruct (FormatNat_cons (time i)) as (d & y & -> & Hd).
  intros <-. cbn in Hc. congruence.
Qed.

Lemma parse_id o i rest ID : id_text (str i) ID -> parse_xadd o (i :: rest) = Ret (inr (o, ID, rest)).
Proof.
  intros [[E ->]|(E & Hok & Hs)]; cbn [parse_xadd]; rewrite E; [done|].
  assert (0 <= time ID) by apply Hok. rewrite ToLower_Format. cbv zeta.
  rewrite !Format_word by done. by rewrite complete_id_Format.
Qed.

(** The options of a command with or without MAXLEN. *)
Definition trim_opts (trim : option (slice * slice)) : xopts :=
  match trim with None => no_opts | Some (_, n) => set_maxlen (default 0 (Atoi (str n))) no_opts end.

Lemma parse_trim trim i rest ID : maxlen_ok trim -> id_text (str i) ID ->
  parse_xadd no_opts (maxlen_args trim ++ i :: rest) = Ret (inr (trim_opts trim, ID, rest)).
Proof.
  destruct trim as [[m n]|]; [|by intros _; apply parse_id]. intros (Em & z & En & Hz) Hi. unfold maxlen_args, trim_opts.
  change ([m; n] ++ i :: rest) with (m :: n :: i :: rest).
  cbn [parse_xadd]. rewrite Em. cbv zeta. change (beq (bs "maxlen") (bs "nomkstream")) with false.
  change (beq (bs "maxlen") (bs "maxlen")) with true. cbv iota.
  assert (is_trim_mark n = false) as ->.
  { unfold is_trim_mark. apply orb_false_intro; apply beq_false; intros E; by rewrite E in En. }
  unfold maxlen_arg. rewrite En. zb. by apply parse_id.
Qed.

Lemma xtrim_log trim ID s l : maxlen_ok trim -> is_log s l ->
  exists s', xtrim (trim_opts trim) ID s = Ret s' /\ is_log s' (keep_last trim l).
Proof.
  intros Hm Hs. destruct trim as [[m n]|]; [|by exists s]. destruct Hm as (_ & z & En & Hz).
  unfold xtrim, trim_opts, keep_last. rewrite En. cbn [default set_maxlen maxlen minid threshold no_opts andb]. change (id z) with z.
  assert (Hlen : zlen (timeStamps s) = zlen l).
  { rewrite (h_ids _ _ Hs). unfold zlen. by rewrite length_fmap. }
  rewrite Hlen. destruct (Z.ltb_spec z (zlen l)).
  - destruct (DropFirstN_log s l (zlen l - z) Hs) as (x & s' & -> & Hs'); [lia|]. by exists s'.
  - exists s. split; [done|]. by replace (Z.to_nat _) with 0%nat by lia.
Qed.

(** The entry goes in, and the trimming follows. *)
Lemma wp_xadd_entry (pn : bool) w k trim ID ID' vals l (Q : option RedisData -> World -> Prop) :
  Inv w -> stream_at w k l -> ID' = completed (clock w / 10 ^ 6) ID (last l.*1) -> id_ok ID' ->
  (forall top, last l.*1 = Some top -> id_lt top ID') -> maxlen_ok trim ->
  (forall w' s', keeps w tt w' -> kv w' = <[k := VStream s']> (kv w) ->
     is_log s' (keep_last trim (l ++ [(ID', vals)])) -> ttls w' = ttls w -> Q (bulk (of_string (Format ID'))) w') ->
  wp pn (xadd_entry k (trim_opts trim) ID vals) Q w.
Proof.
  intros Hw Hs HID Hok Htop Hm HQ.
  assert (Hfin : forall w1 s1, keeps w tt w1 -> kv w1 = <[k := VStream s1]> (kv w) -> ttls w1 = ttls w ->
    is_log s1 (l ++ [(ID', vals)]) -> wp pn (xadd_finish k (trim_opts trim) ID' s1) Q w1).
  { intros w1 s1 K1 E1 T1 Hs1. destruct (xtrim_log trim ID' s1 _ Hm Hs1) as (s2 & E2 & Hs2).
    unfold xadd_finish. rewrite E2. apply wp_bind, wp_ret, wp_bind.
    apply wp_store_kv; [by eapply keeps_Inv|by eapply is_log_ok|by rewrite E1, lookup_insert_eq|].
    intros w2 K2 E3 T2. apply wp_ret, (HQ w2 s2); [by eapply keeps_trans| |done|congruence].
    by rewrite E3, E1, insert_insert_eq. }
  unfold xadd_entry. apply wp_bind, wp_db_Get; [apply Hw|]. unfold stream_at in Hs.
  destruct (kv w !! k) as [v|] eqn:Ev.
  - destruct v as [| | | | |s]; try done. apply wp_bind, wp_gets.
    destruct (AddEntry_log (clock w / 10 ^ 6) ID vals s l ID') as (s1 & E & Hs1); [done..|]. rewrite E.
    apply wp_bind, wp_store_kv; [done|by eapply is_log_ok|by rewrite Ev|]. intros w1 K1 E1 T1. by apply Hfin.
  - subst l. assert (nomkstream (trim_opts trim) = false) as -> by (by destruct trim as [[]|]).
    apply wp_bind, wp_gets.
    destruct (AddEntry_log (clock w / 10 ^ 6) ID vals NewStream [] ID') as (s1 & E & Hs1);
      [apply is_log_NewStream|done..|]. rewrite E.
    apply wp_bind, wp_Set_kv; [done|by eapply is_log_ok|]. intros w1 K1 E1 T1. by apply Hfin.
Qed.

Lemma xadd_even (fields : list slice) : Z.even (zlen fields) = true -> negb (zlen (map str fields) mod 2 =? 0) = false.
Proof.
  intros H. unfold zlen. rewrite length_map. fold (zlen fields). apply Zeven_bool_iff in H.
  destruct (Zeven_ex _ H) as [k ->]. rewrite Z.mul_comm, Z.mod_mul by done. done.
Qed.

(** C31: XADD appends an entry to the stream. Its ID is the one given, or built
    from the clock for a star; it must be above the last one. The reply is the
    ID, with MAXLEN only the newest entries stay, and XRANGE from - to + then
    replies with all the entries of the stream, in order. *)
Theorem xadd_xrange (w : World) (c x k i lo hi : slice) (trim : option (slice * slice)) (fields : list slice)
  (ID ID' : StreamID) (l l' : list (StreamID * list bytes))
  (Hw : Inv w) (Hl : all_free (locks w)) (Hs : stream_at w (str k) l)
  (Hi : id_text (str i) ID) (HID : ID' = completed (clock w / 10 ^ 6) ID (last l.*1)) (Hok : id_ok ID')
  (Htop : forall top, last l.*1 = Some top -> id_lt top ID') (Hm : maxlen_ok trim)
  (Hf : 0 < zlen fields) (He : Z.even (zlen fields) = true)
  (Hl' : l' = keep_last trim (l ++ [(ID', map str fields)])) (Hlo : str lo = bs "-") (Hhi : str hi = bs "+") :
  exists w' s' w'',
    xadd (c :: k :: maxlen_args trim ++ i :: fields) w = Ret (bulk (of_string (Format ID')), w') /\ keeps w tt w' /\
    kv w' = <[str k := VStream s']> (kv w) /\ is_log s' l' /\ ttls w' = ttls w /\
    xrange [x; k; lo; hi] w' = Ret (range_reply l', w'') /\ kv w'' = kv w'.
Proof.
  assert (H1 : exists w', xadd (c :: k :: maxlen_args trim ++ i :: fields) w = Ret (bulk (of_string (Format ID')), w') /\
    keeps w tt w' /\ exists s', kv w' = <[str k := VStream s']> (kv w) /\ is_log s' l' /\ ttls w' = ttls w).
  { apply wp_returns. unfold xadd. rewrite !zlen_cons, zlen_app, zlen_cons.
    pose proof (zlen_nonneg (maxlen_args trim)). assert (2 <= zlen fields) by (destruct (Z.even_spec (zlen fields)) as [H2 _]; destruct (H2 He); lia).
    zb. apply wp_bind. eapply wp_arg; [done|]. cbv zeta. cbn [drop].
    rewrite drop_0, (parse_trim trim i fields ID) by done. apply wp_bind, wp_ret. rewrite xadd_even by done.
    assert (maxlen (trim_opts trim) && minid (trim_opts trim) = false) as -> by (by destruct trim as [[]|]).
    assert (limit (trim_opts trim) && negb (wave (trim_opts trim)) = false) as -> by (by destruct trim as [[]|]).
    apply wp_with_lock; [done|done|]. intros w1 Hw1 Ek Et Ec _. eapply (wp_xadd_entry _ _ _ _ _ ID' _ l);
      [done|unfold stream_at; by rewrite Ek|by rewrite Ec|done..|].
    intros w2 s' K2 E2 Hs2 T2. split; [done|]. intros w3 K3 E3 T3. split; [done|]. split; [done|].
    exists s'. rewrite E3, E2, Ek, T3, T2. by subst l'. }
  destruct H1 as (w' & E1 & K1 & s' & Ek1 & Hs1 & Et1).
  assert (H2 : exists w'', xrange [x; k; lo; hi] w' = Ret (range_reply l', w'') /\ kv w'' = kv w').
  { apply wp_returns. unfold xrange. do 3 (apply wp_bind; eapply wp_arg; [done|]). cbv zeta.
    unfold range_end. rewrite Hlo, Hhi, !beq_refl.
    apply wp_with_lock; [by eapply keeps_Inv|by eapply keeps_free|]. intros w1 Hw1 Ek Et _ _.
    apply wp_bind, wp_db_Get; [apply Hw1|]. rewrite Ek, Ek1, lookup_insert_eq. apply wp_ret. split; [done|].
    intros w3 _ E3 _. split; [|by rewrite E3, Ek]. by rewrite (range_all s' l'). }
  destruct H2 as (w'' & E2 & Ek2). by exists w', s', w''.
Qed.

Lemma Parse_bare t : 0 <= t <= MaxInt64 -> Parse (FormatInt t) = Some (mkID t 0).
Proof.
  intros Ht. unfold Parse. rewrite Split_nosep by (apply FormatInt_nosep; lia). cbn.
  by rewrite ParseInt_FormatInt by (unfold in_i64, MinInt64; lia).
Qed.

(** XRANGE from a time to an ID replies with the entries from that time on
    whose IDs are strictly below the end, in order, and changes nothing. *)
Theorem xrange_spec (w : World) (c k lo hi : slice) (s : Stream) (l : list (StreamID * list bytes)) (t : Z) (e : StreamID)
  (Hw : Inv w) (Hl : all_free (locks w)) (Hk : kv w !! str k = Some (VStream s)) (Hs : is_log s l)
  (Hn : Forall (fun j => 0 <= seqNum j) l.*1) (Ht : 0 <= t <= MaxInt64) (Hlo : str lo = FormatInt t)
  (He : id_ok e) (He' : 0 <= seqNum e) (Hhi : str hi = Format e) :
  exists w', xrange [c; k; lo; hi] w =
      Ret (range_reply (filter (fun m => ~ id_lt m.1 (mkID t 0) /\ id_lt m.1 e) l), w') /\
    keeps w tt w' /\ kv w' = kv w /\ ttls w' = ttls w.
Proof.
  apply wp_returns. unfold xrange. do 3 (apply wp_bind; eapply wp_arg; [done|]). cbv zeta.
  assert (range_end (bs "-") (str lo) = Some (mkID t 0)) as ->.
  { unfold range_end. rewrite Hlo, Parse_bare by done. assert (beq (FormatInt t) (bs "-") = false) as ->; [|done].
    apply beq_false. intros E. apply (FormatInt_nosep t); [lia|]. rewrite E. by left. }
  assert (range_end (bs "+") (str hi) = Some e) as ->.
  { unfold range_end. rewrite Hhi, Format_word by (done || apply He). destruct He as [Het Hes].
    apply Parse_Format; [lia|done| |done]. unfold in_i64, MinInt64. lia. }
  apply wp_with_lock; [done|done|]. intros w1 Hw1 Ek Et _ _.
  apply wp_bind, wp_db_Get; [apply Hw1|]. rewrite Ek, Hk. apply wp_ret. split; [done|].
  intros w3 K3 E3 T3. rewrite (Range_between s l) by (done || (destruct He; lia)). rewrite E3, Ek, T3, Et. done.
Qed.
End theorems.

(* ===================================================================== *)
(** ** Instances of the theorems                                         *)
(* ===================================================================== *)

(** A stream with the entries 5-0 and 5-1 under the key "s", seven
    milliseconds after the epoch. *)
Definition demo_log : list (StreamID * list bytes) :=
  [(mkID 5 0, [bs "f"; bs "1"]); (mkID 5 1, [bs "f"; bs "2"])].
Definition demo_stream_value : Stream :=
  put_entry (mkID 5 1) [bs "f"; bs "2"] (put_entry (mkID 5 0) [bs "f"; bs "1"] NewStream).
Definition demo_stream : World := after (db_Set (bs "s") (VStream demo_stream_value)) (boot 4 7000000).

Lemma demo_is_log : is_log demo_stream_value demo_log.
Proof.
  unfold demo_log, demo_stream_value. change [?a; ?b] with (([] ++ [a]) ++ [b]).
  assert (Hok : forall n, 0 <= n <= 1 -> id_ok (mkID 5 n)) by (intros; unfold id_ok, in_i64, MinInt64, MaxInt64; cbn; lia).
  apply is_log_put; [apply is_log_put; [apply is_log_NewStream| |constructor]| |]; [apply Hok; lia..|].
  constructor; [right; cbn; lia|constructor].
Qed.

Lemma demo_stream_Inv : Inv demo_stream /\ all_free (locks demo_stream).
Proof.
  apply after_safe; [|apply boot_Inv; [lia|unfold MaxInt64; lia]..]. apply safe_pres, pres_db_Set.
  eapply is_log_ok, demo_is_log.
Qed.

Lemma demo_stream_at : kv demo_stream !! bs "s" = Some (VStream demo_stream_value).
Proof. vm_compute. reflexivity. Qed.

#[local] Existing Instance plain_runtime.

Lemma xadd_xrange_witness : exists w' s' w'',
    xadd [word "xadd"; word "s"; word "maxlen"; word "2"; word "*"; word "f"; word "3"] demo_stream =
      Ret (bulk (word "7--1"), w') /\ keeps demo_stream tt w' /\
    kv w' = <[bs "s" := VStream s']> (kv demo_stream) /\
    is_log s' [(mkID 5 1, [bs "f"; bs "2"]); (mkID 7 (-1), [bs "f"; bs "3"])] /\ ttls w' = ttls demo_stream /\
    xrange [word "xrange"; word "s"; word "-"; word "+"] w' =
      Ret (range_reply [(mkID 5 1, [bs "f"; bs "2"]); (mkID 7 (-1), [bs "f"; bs "3"])], w'') /\ kv w'' = kv w'.
Proof.
  assert (E0 : word "7--1" = of_string (Format (mkID 7 (-1)))) by (vm_compute; reflexivity). rewrite E0. clear E0.
  apply (xadd_xrange demo_stream (word "xadd") (word "xrange") (word "s") (word "*") (word "-") (word "+")
    (Some (word "maxlen", word "2")) [word "f"; word "3"] (mkID (-1) (-1)) (mkID 7 (-1)) demo_log
    [(mkID 5 1, [bs "f"; bs "2"]); (mkID 7 (-1), [bs "f"; bs "3"])]).
  - apply demo_stream_Inv.
  - apply demo_stream_Inv.
  - unfold stream_at. change (str (word "s")) with (bs "s"). rewrite demo_stream_at. exact demo_is_log.
  - left. split; reflexivity.
  - vm_compute. reflexivity.
  - unfold id_ok, in_i64, MinInt64, MaxInt64. cbn. lia.
  - intros top E. vm_compute in E. injection E as <-. left. cbn. lia.
  - split; [vm_compute; reflexivity|]. exists 2. split; [vm_compute; reflexivity|lia].
  - vm_compute. reflexivity.
  - reflexivity.
  - vm_compute. reflexivity.
  - reflexivity.
  - reflexivity.
Defined.

Lemma xrange_spec_witness : exists w',
    xrange [word "xrange"; word "s"; word "5"; word "5-1"] demo_stream =
      Ret (range_reply [(mkID 5 0, [bs "f"; bs "1"])], w') /\
    keeps demo_stream tt w' /\ kv w' = kv demo_stream /\ ttls w' = ttls demo_stream.
Proof.
  apply (xrange_spec demo_stream (word "xrange") (word "s") (word "5") (word "5-1") demo_stream_value demo_log 5 (mkID 5 1)).
  - apply demo_stream_Inv.
  - apply demo_stream_Inv.
  - apply demo_stream_at.
  - exact demo_is_log.
  - repeat constructor; cbn; lia.
  - unfold MaxInt64. lia.
  - reflexivity.
  - unfold id_ok, in_i64, MinInt64, MaxInt64. cbn. lia.
  - cbn. lia.
  - reflexivity.
Defined.
