(* ===== verification/SortedSetCmds.v ===== *)
(** * SortedSetCmds: the sorted set commands (src/memdb/sorted_set.go)

    The value under a key is the tree of BTree.v; [on_tree] runs an operation
    on it and writes the tree back through the pointer. The code of [zrange]
    under [if byscore] is dead, because the option returns at once, and so are
    the numbers after the option LIMIT, which only that code reads. *)

From S2P Require Import Floats BTree ZSet.
From S2P Require Import Prelude Strconv Resp Util ConcurrentMap Locks ListStruct SetStruct HashStruct Db Keys.

(** The options of ZADD; [f0] is the zero of [float64]. *)
Record zopts : Type := mkZopts { nx : bool; xx : bool; gt : bool; lt : bool; ch : bool; incr : bool }.

Definition f0 : float64 := S754_zero false.

Definition no_zopts : zopts := mkZopts false false false false false false.

(** One option, in lower case; [None] ends the options. *)
Definition set_zopt (a : bytes) (o : zopts) : option zopts :=
  if beq a (bs "nx") then Some (mkZopts true (xx o) (gt o) (lt o) (ch o) (incr o))
  else if beq a (bs "xx") then Some (mkZopts (nx o) true (gt o) (lt o) (ch o) (incr o))
  else if beq a (bs "gt") then Some (mkZopts (nx o) (xx o) true (lt o) (ch o) (incr o))
  else if beq a (bs "lt") then Some (mkZopts (nx o) (xx o) (gt o) true (ch o) (incr o))
  else if beq a (bs "ch") then Some (mkZopts (nx o) (xx o) (gt o) (lt o) true (incr o))
  else if beq a (bs "incr") then Some (mkZopts (nx o) (xx o) (gt o) (lt o) (ch o) true)
  else None.

(** The option loop stops before the last two arguments. *)
Fixpoint zadd_options (o : zopts) (elems : list bytes) : zopts * list bytes :=
  match elems with
  | a :: rest =>
      if 2 <? zlen elems then
        match set_zopt a o with
        | Some o' => zadd_options o' rest
        | None => (o, elems)
        end
      else (o, elems)
  | [] => (o, [])
  end.

(** [node.Value.GetScore()], [None] for a nil node. *)
Definition score_of (node : option nat) : M Btree (option float64) :=
  match node with
  | None => mret None
  | Some id => v ← BTree.Value_of id; o ← BTree.deref v; mret (Some (Score o))
  end.

(** The conditions under which a pair is skipped. *)
Definition zadd_skips (o : zopts) (score : float64) (old : option float64) : bool :=
  match old with
  | None => xx o
  | Some old => nx o || (lt o && fle old score) || (gt o && fle score old) || (negb (incr o) && feq score old)
  end.

(** Whether a pair counts in the reply: with CH a missing node is dereferenced. *)
Definition zadd_counts (o : zopts) (score : float64) (old : option float64) : outcome bool :=
  match old with
  | None => if ch o then Panic else Ret true
  | Some old => Ret (ch o && negb (feq old score))
  end.

(** One pair that is not skipped: the member's old node goes, a new one comes. *)
Definition zadd_put (member : bytes) (score : float64) (old : option float64) : M Btree unit :=
  r ← BTree.new_object (BTree.mkNode {[member]} score);
  (match old with Some _ => BTree.Delete member ;; mret tt | None => mret tt end) ;;
  BTree.Insert r ;; mret tt.

(** The loop over the pairs: an error reply, or the count and the new score for
    INCR. *)
Fixpoint zadd_pairs (o : zopts) (elems : list bytes) (retInt : Z) (targetScore : float64) :
    M Btree (option RedisData + Z * float64) :=
  match elems with
  | [] => mret (inr (retInt, targetScore))
  | [_] => mret (inl (err (bs "ERR syntax error")))
  | s :: member :: rest =>
      match ParseFloat s with
      | None => mret (inl (err (bs "ERR value is not a valid float")))
      | Some score =>
          node ← BTree.GetByName member;
          old ← score_of node;
          if zadd_skips o score old then zadd_pairs o rest retInt targetScore
          else
            let targetScore' := match old with
              | Some old => if incr o then fadd old score else targetScore
              | None => targetScore
              end in
            let r := match old with Some _ => if incr o then targetScore' else score | None => score end in
            n ← lift (zadd_counts o score old);
            zadd_put member r old ;;
            zadd_pairs o rest (if n : bool then retInt + 1 else retInt) targetScore'
      end
  end.

(** An operation on the tree stored under [key]. *)
Definition on_tree {A} (key : bytes) (z : Btree) (m : M Btree A) : M World A :=
  az ← lift (m z);
  store_object key (VZSet (snd az)) ;;
  mret (fst az).

Section zsets.
Context {rt : GoRuntime}.

Definition zadd_reply (o : zopts) (r : option RedisData + Z * float64) : option RedisData :=
  match r with
  | inl e => e
  | inr (retInt, targetScore) =>
      if incr o then bulk (ByteData (MakePlainData (FormatFloat_6 targetScore))) else int retInt
  end.

Definition zadd (cmd : list slice) : M World (option RedisData) :=
  if zlen cmd <? 4 then mret (Some (MakeWrongNumberArgs (bs "zadd")))
  else
    let elems := map str cmd in
    key ← or_panic (elems !! 1%nat);
    let '(o, pairs) := zadd_options no_zopts (drop 2 elems) in
    if (gt o && lt o) || (nx o && gt o) || (nx o && lt o) then
      mret (err (bs "ERR GT, LT, and/or NX options at the same time are not compatible"))
    else if incr o && negb (zlen cmd =? 5) then
      mret (err (bs "ERR INCR option supports a single increment-element pair"))
    else with_lock key (
      tmp ← db_Get key;
      match tmp with
      | None =>
          db_Set key (VZSet NewBtree) ;;
          r ← on_tree key NewBtree (zadd_pairs o pairs 0 f0);
          mret (zadd_reply o r)
      | Some (VZSet sortedSet) =>
          r ← on_tree key sortedSet (zadd_pairs o pairs 0 f0);
          mret (zadd_reply o r)
      | Some _ => mret wrongtype
      end).

(** The options of ZRANGE. *)
Record ropts : Type := mkRopts { withscore : bool; rev : bool; bylex : bool; limit : bool }.

Definition no_ropts : ropts := mkRopts false false false false.

(** The option loop: [i] counts from the fifth argument on, [len] is the number
    of arguments of the command. BYSCORE returns the empty array. *)
Fixpoint zrange_options (len i : Z) (o : ropts) (cmd : list slice) : outcome (option RedisData + ropts) :=
  match cmd with
  | [] => Ret (inr o)
  | c :: rest =>
      let w := ToLower (str c) in
      if beq w (bs "withscores") then zrange_options len (i + 1) (mkRopts true (rev o) (bylex o) (limit o)) rest
      else if beq w (bs "rev") then zrange_options len (i + 1) (mkRopts (withscore o) true (bylex o) (limit o)) rest
      else if beq w (bs "limit") then
        if len <=? i + 2 then Ret (inl (err (bs "ERR syntax error")))
        else
          match rest with
          | [] => Panic
          | offset :: rest' =>
              match Atoi (str offset) with
              | None => Ret (inl (err (bs "ERR value is not an integer or out of range")))
              | Some _ =>
                  match rest' with
                  | [] => Panic
                  | count :: _ =>
                      match Atoi (str count) with
                      | None => Ret (inl (err (bs "ERR value is not an integer or out of range")))
                      | Some _ => zrange_options len (i + 1) (mkRopts (withscore o) (rev o) (bylex o) true) rest
                      end
                  end
              end
          end
      else if beq w (bs "byscore") then Ret (inl empty_array)
      else if beq w (bs "bylex") then zrange_options len (i + 1) (mkRopts (withscore o) (rev o) true (limit o)) rest
      else zrange_options len (i + 1) o rest
  end.

(** The iterator of ZRANGE: the map iterations so far, [memberCount] and
    [members]. *)
Definition collect (b : Btree) (start end_ : Z) (id : nat) (_ : Z) : M (nat * Z * list (bytes * float64)) bool :=
  fun '(k, memberCount, members) =>
    let memberCount := memberCount + 1 in
    if memberCount <? start then Ret (true, (k, memberCount, members))
    else if end_ <? memberCount then Ret (false, (k, memberCount, members))
    else
      match BTree.entry b id with
      | None => Panic
      | Some o =>
          Ret (true, (S k, memberCount, members ++ map (fun name => (name, Score o)) (range_order k (Names o))))
      end.

Definition zrange_members (b : Btree) (start end_ : Z) (k : nat) : outcome (nat * list (bytes * float64)) :=
  match BTree.Ascend (collect b start end_) (root b) (k, -1, []) with
  | Ret (_, (k', _, members)) => Ret (k', members)
  | Panic => Panic
  | Block => Block
  end.

Definition member_reply (withscore : bool) (m : bytes * float64) : list RedisData :=
  MakeBulkData (of_string m.1) ::
  (if withscore then [MakeBulkData (of_string (FormatFloat_6 m.2))] else []).

Definition zrange_reply (o : ropts) (members : list (bytes * float64)) : option RedisData :=
  let res := concat (map (member_reply (withscore o)) members) in
  array (if rev o then reverse res else res).

(** The interval: 0 to 0 with BYLEX. *)
Definition zrange_bounds (bylex : bool) (c2 c3 : slice) : option (Z * Z) :=
  if bylex then Some (0, 0) else s ← Atoi (str c2); e ← Atoi (str c3); Some (s, e).

Definition zrange (cmd : list slice) : M World (option RedisData) :=
  if zlen cmd <? 4 then mret (Some (MakeWrongNumberArgs (bs "zrange")))
  else
    c1 ← arg cmd 1;
    let key := str c1 in
    p ← lift (zrange_options (zlen cmd) 0 no_ropts (drop 4 cmd));
    match p with
    | inl e => mret e
    | inr o =>
        if limit o && negb (bylex o) then
          mret (err (bs "ERR syntax error, LIMIT is only supported in combination with either BYSCORE or BYLEX"))
        else if bylex o && withscore o then
          mret (err (bs "ERR syntax error, WITHSCORES not supported in combination with BYLEX"))
        else if bylex o && rev o then mret empty_array
        else
          c2 ← arg cmd 2; c3 ← arg cmd 3;
          match zrange_bounds (bylex o) c2 c3 with
          | None => mret (err (bs "ERR value is not an integer or out of range"))
          | Some (start, end_) =>
              with_lock key (
                tmp ← db_Get key;
                match tmp with
                | None => mret empty_array
                | Some (VZSet sortedSet) =>
                    let end_ := if BTree.len sortedSet <? end_ then BTree.len sortedSet else end_ in
                    k ← gets ranges;
                    r ← lift (zrange_members sortedSet start end_ k);
                    skip_ranges (fst r - k) ;;
                    mret (zrange_reply o (snd r))
                | Some _ => mret wrongtype
                end)
          end
    end.

(** [for _, k := range keys { if sortedSet.Delete(k) != nil { affectedCount++ } }]. *)
Definition zrem_names (names : list bytes) : M Btree Z :=
  foldM (fun n name => d ← BTree.Delete name; mret (if d : bool then n + 1 else n)) 0 names.

Definition zrem (cmd : list slice) : M World (option RedisData) :=
  if zlen cmd <? 3 then mret (Some (MakeWrongNumberArgs (bs "zrem")))
  else
    c1 ← arg cmd 1;
    let key := ToLower (str c1) in
    with_lock key (
      tmp ← db_Get key;
      match tmp with
      | None => mret empty_array
      | Some (VZSet sortedSet) =>
          n ← on_tree key sortedSet (zrem_names (map str (drop 2 cmd)));
          mret (int n)
      | Some _ => mret wrongtype
      end).

(** The rank of a name, [None] if it is not there. *)
Definition zrank_name (name : bytes) : M Btree (option Z) :=
  node ← BTree.GetByName name;
  s ← score_of node;
  match s with
  | None => mret None
  | Some s => r ← BTree.Rank s; mret (Some r)
  end.

Definition zrank (cmd : list slice) : M World (option RedisData) :=
  if negb (zlen cmd =? 3) then mret (Some (MakeWrongNumberArgs (bs "zrank")))
  else
    c1 ← arg cmd 1; c2 ← arg cmd 2;
    let key := ToLower (str c1) in
    let name := ToLower (str c2) in
    with_lock key (
      tmp ← db_Get key;
      match tmp with
      | None => mret nil_bulk
      | Some (VZSet sortedSet) =>
          r ← on_tree key sortedSet (zrank_name name);
          mret (match r with Some r => int r | None => nil_bulk end)
      | Some _ => mret wrongtype
      end).

Definition RegisterSortedSetCommands : list (bytes * Handler) :=
  [(bs "zadd", zadd); (bs "zrange", zrange); (bs "zrem", zrem); (bs "zrank", zrank)].
End zsets.

(* ===================================================================== *)
(** ** The handlers keep the invariant                                   *)
(* ===================================================================== *)

(** An operation on a tree that keeps its invariant, if it does not panic. *)
Definition tsafe {A} (m : M Btree A) : Prop := forall b, BTree.WF b -> wp true m (fun _ b' => BTree.WF b') b.

Lemma tsafe_ret {A} (a : A) : tsafe (mret a).
Proof. intros b Hb. by apply wp_ret. Qed.

Lemma tsafe_bind {A B} (m : M Btree A) (k : A -> M Btree B) : tsafe m -> (forall a, tsafe (k a)) -> tsafe (m ≫= k).
Proof.
  intros Hm Hk b Hb. apply wp_bind. eapply wp_mono; [|by apply Hm]. intros a b' Hb'. by apply Hk.
Qed.

Lemma tsafe_gets {A} (f : Btree -> A) : tsafe (gets f).
Proof. intros b Hb. by apply wp_gets. Qed.

Lemma tsafe_or_panic {A} (o : option A) : tsafe (or_panic o).
Proof. intros b Hb. by apply wp_or_panic. Qed.

Lemma tsafe_lift {A} (o : outcome A) : o <> Block -> tsafe (lift o).
Proof. intros Ho b Hb. by apply wp_lift. Qed.

Lemma tsafe_get_bind {B} (k : Btree -> M Btree B) : (forall b, tsafe (k b)) -> tsafe (b ← get; k b).
Proof. intros Hk b Hb. apply wp_bind, wp_get. by apply Hk. Qed.

Lemma tsafe_score_of node : tsafe (score_of node).
Proof.
  destruct node as [id|]; [|apply tsafe_ret]. apply tsafe_bind; [apply tsafe_get_bind; intros; apply tsafe_or_panic|].
  intros v. apply tsafe_bind; [apply tsafe_get_bind; intros; apply tsafe_or_panic|]. intros o. apply tsafe_ret.
Qed.

(** What a deletion keeps, whatever it does: the objects it does not change are
    still there. *)
Lemma wp_Delete_objects (pn : bool) name b r (Q : bool -> Btree -> Prop) : BTree.WF b -> is_Some (objects b !! r) ->
  (forall d b', BTree.WF b' -> is_Some (objects b' !! r) -> Q d b') -> wp pn (BTree.Delete name) Q b.
Proof.
  intros Hb Hr HQ. apply BTree.wp_tree_Delete; [done|by intros _; apply HQ|]. intros id t _ _. cbv zeta. split_and!; intros; apply HQ; try done.
  cbn. by apply lookup_insert_is_Some'; right.
Qed.

Lemma tsafe_Delete name : tsafe (BTree.Delete name).
Proof. intros b Hb. apply BTree.wp_tree_Delete; [done|done|]. intros id t _ _. cbv zeta. by split_and!. Qed.

Lemma tsafe_zadd_put member score old : tsafe (zadd_put member score old).
Proof.
  intros b Hb. apply wp_bind, wp_new_object, wp_bind. apply (WF_with_object b (BTree.mkNode {[member]} score)) in Hb as Hb1.
  set (b1 := with_object b _) in *. set (r := BTree.fresh b).
  assert (Hr : is_Some (objects b1 !! r)) by (unfold b1, r; cbn; rewrite lookup_insert_eq; by eexists).
  assert (Hins : forall b2, BTree.WF b2 -> is_Some (objects b2 !! r) ->
    wp true (BTree.Insert r ;; mret tt) (fun _ b' => BTree.WF b') b2).
  { intros b2 Hb2 [t Ht]. apply wp_bind, (BTree.wp_Insert r t); [done|done|..]; intros; by apply wp_ret. }
  destruct old; [|apply wp_ret; by apply Hins].
  apply wp_bind, (wp_Delete_objects _ _ _ r); [done|done|]. intros d b' Hb' Hr'. apply wp_ret. by apply Hins.
Qed.

Lemma tsafe_zadd_pairs o elems n t : tsafe (zadd_pairs o elems n t).
Proof.
  revert n t. induction elems as [elems IH] using (induction_ltof1 _ (@length bytes)). unfold ltof in IH. intros n t.
  destruct elems as [|s [|member rest]]; cbn [zadd_pairs]; [apply tsafe_ret..|].
  destruct (ParseFloat s) as [x|]; [|apply tsafe_ret]. apply tsafe_bind; [apply tsafe_gets|]. intros node.
  apply tsafe_bind; [apply tsafe_score_of|]. intros old. destruct (zadd_skips o x old); [apply IH; cbn; lia|]. cbv zeta.
  apply tsafe_bind; [apply tsafe_lift; unfold zadd_counts; by repeat case_match|]. intros c.
  apply tsafe_bind; [apply tsafe_zadd_put|]. intros _. apply IH. cbn. lia.
Qed.

Lemma tsafe_zrem_names names : tsafe (zrem_names names).
Proof.
  unfold zrem_names. generalize 0. induction names as [|x names IH]; intros n; cbn; [apply tsafe_ret|].
  apply tsafe_bind; [|intros m; apply IH]. apply tsafe_bind; [apply tsafe_Delete|]. intros d. apply tsafe_ret.
Qed.

Lemma rank_not_Block b n s : BTree.rank b n s <> Block.
Proof.
  induction n as [|id l IHl r IHr h]; cbn; [done|]. destruct (BTree.entry b id) as [o|]; [|done].
  destruct (flt (Score o) s); [|done]. by destruct (BTree.rank b r s).
Qed.

Lemma tsafe_zrank_name name : tsafe (zrank_name name).
Proof.
  apply tsafe_bind; [apply tsafe_gets|]. intros node. apply tsafe_bind; [apply tsafe_score_of|].
  intros [s|]; [|apply tsafe_ret]. apply tsafe_bind; [|intros; apply tsafe_ret].
  apply tsafe_get_bind. intros b. apply tsafe_lift, rank_not_Block.
Qed.

Lemma pres_on_tree {A} key z (m : M Btree A) : tsafe m -> BTree.WF z -> pres (on_tree key z m).
Proof.
  intros Hm Hz. specialize (Hm z Hz). unfold wp in Hm. apply pres_bind_lift; [by intros E; rewrite E in Hm|].
  intros [a z'] E. rewrite E in Hm. cbn [fst snd]. apply pres_bind; [by apply pres_store_object|].
  intros _. apply pres_ret.
Qed.

Lemma iterate_not_Block {A} (it : nat -> Z -> M A bool) n : (forall id i s, it id i s <> Block) ->
  forall i cont s, BTree.iterate it n i cont s <> Block.
Proof.
  intros Hit. induction n as [|id l IHl r IHr h]; intros i cont s; cbn [BTree.iterate]; [done|].
  destruct cont; [|done]. unfold mbind, M_bind. specialize (IHl i true s).
  destruct (BTree.iterate it l i true s) as [[i1 s1]| |]; [|done|done]. specialize (Hit id i1 s1).
  destruct (it id i1 s1) as [[c s2]| |]; [|done|done]. apply IHr.
Qed.

Section safety.
Context {rt : GoRuntime}.

Lemma zrange_members_not_Block b start end_ k : zrange_members b start end_ k <> Block.
Proof.
  unfold zrange_members, BTree.Ascend.
  assert (Hc : forall id i s, collect b start end_ id i s <> Block).
  { intros id i [[k' c] ms]. unfold collect. by repeat case_match. }
  pose proof (iterate_not_Block _ (BTree.root b) Hc 0 true (k, -1, [])) as H. unfold mbind, M_bind in *.
  by destruct (BTree.iterate _ _ _ _ _) as [[? [[] ?]]| |].
Qed.

Lemma zrange_options_not_Block len i o cmd : zrange_options len i o cmd <> Block.
Proof.
  revert i o. induction cmd as [|c cmd IH]; intros i o; cbn [zrange_options]; [done|]. cbv zeta.
  repeat (destruct (beq _ _); [try apply IH|]); try apply IH; try done.
  destruct (len <=? i + 2); [done|]. destruct cmd as [|a [|b' cmd]]; [done|by destruct (Atoi _)|].
  destruct (Atoi (str a)); [|done]. destruct (Atoi (str b')); [apply IH|done].
Qed.

Lemma zsets_safe name h cmd : (name, h) ∈ RegisterSortedSetCommands -> safe (h cmd).
Proof.
  unfold RegisterSortedSetCommands. rewrite !elem_of_cons, elem_of_nil.
  assert (Hwf : forall v z, (forall x : Value, v = Some x -> val_ok x) -> v = Some (VZSet z) -> BTree.WF z)
    by (intros v z Hv E; by apply (Hv _ E)).
  intros [[= -> ->]|[[= -> ->]|[[= -> ->]|[[= -> ->]|[]]]]].
  - unfold zadd. destruct (zlen cmd <? 4); [apply safe_ret|]. cbv zeta. apply safe_bind; [solve_safe|]. intros key.
    destruct (zadd_options _ _) as [o pairs]. repeat (case_match; [apply safe_ret|]). apply safe_with_lock, pres_bind_Get.
    intros v Hv. destruct v as [[]|]; try apply pres_ret.
    + apply pres_bind; [apply pres_on_tree; [apply tsafe_zadd_pairs|by eapply Hwf]|]. intros r. apply pres_ret.
    + apply pres_bind; [apply pres_db_Set, WF_NewBtree|]. intros _.
      apply pres_bind; [apply pres_on_tree; [apply tsafe_zadd_pairs|apply WF_NewBtree]|]. intros r. apply pres_ret.
  - unfold zrange. destruct (zlen cmd <? 4); [apply safe_ret|]. apply safe_bind; [solve_safe|]. intros c1. cbv zeta.
    apply safe_bind_lift; [apply zrange_options_not_Block|]. intros [e|o] _; [apply safe_ret|].
    repeat (case_match; [apply safe_ret|]). apply safe_bind; [solve_safe|]. intros c2. apply safe_bind; [solve_safe|]. intros c3.
    destruct (zrange_bounds _ c2 c3) as [[start end_]|]; [|apply safe_ret]. apply safe_with_lock, pres_bind_Get.
    intros v Hv. destruct v as [[]|]; try apply pres_ret. cbv zeta. apply pres_bind; [apply pres_gets|]. intros k.
    apply pres_bind_lift; [apply zrange_members_not_Block|]. intros r _. solve_pres.
  - unfold zrem. destruct (zlen cmd <? 3); [apply safe_ret|]. apply safe_bind; [solve_safe|]. intros c1. cbv zeta.
    apply safe_with_lock, pres_bind_Get. intros v Hv. destruct v as [[]|]; try apply pres_ret.
    apply pres_bind; [apply pres_on_tree; [apply tsafe_zrem_names|by eapply Hwf]|]. intros r. apply pres_ret.
  - unfold zrank. destruct (negb _); [apply safe_ret|]. apply safe_bind; [solve_safe|]. intros c1.
    apply safe_bind; [solve_safe|]. intros c2. cbv zeta.
    apply safe_with_lock, pres_bind_Get. intros v Hv. destruct v as [[]|]; try apply pres_ret.
    apply pres_bind; [apply pres_on_tree; [apply tsafe_zrank_name|by eapply Hwf]|]. intros r. apply pres_ret.
Qed.
End safety.

(* ===================================================================== *)
(** ** The traversal of ZRANGE                                           *)
(* ===================================================================== *)

(** The elements of a list, counted on from [c], whose index is in the
    interval. *)
Fixpoint sel {A} (start end_ c : Z) (l : list A) : list A :=
  match l with
  | [] => []
  | x :: l' => (if (start <=? c + 1) && (c + 1 <=? end_) then [x] else []) ++ sel start end_ (c + 1) l'
  end.

Lemma sel_app {A} s e c (l1 l2 : list A) : sel s e c (l1 ++ l2) = sel s e c l1 ++ sel s e (c + zlen l1) l2.
Proof.
  revert c. induction l1 as [|x l1 IH]; intros c; cbn; [by rewrite zlen_nil, Z.add_0_r|].
  rewrite IH, zlen_cons, (assoc_L (++)). do 2 f_equal. lia.
Qed.

Lemma sel_past {A} s e c (l : list A) : e <= c -> sel s e c l = [].
Proof.
  revert c. induction l as [|x l IH]; intros c Hc; cbn; [done|]. rewrite IH by lia.
  destruct (Z.leb_spec (c + 1) e); [lia|]. by rewrite andb_false_r.
Qed.

Lemma sel_take {A} s e c (l : list A) : s <= c + 1 -> sel s e c l = take (Z.to_nat (e - c)) l.
Proof.
  revert c. induction l as [|x l IH]; intros c Hc; cbn; [by rewrite take_nil|].
  destruct (Z.leb_spec (c + 1) e) as [H|H].
  - zb. cbn. replace (Z.to_nat (e - c)) with (S (Z.to_nat (e - (c + 1)))) by lia. cbn. by rewrite IH by lia.
  - rewrite andb_false_r. cbn. rewrite sel_past by lia. by replace (Z.to_nat (e - c)) with 0%nat by lia.
Qed.

(** From index 0 on: the slice from [start] to [end_], both included. *)
Lemma sel_slice {A} s e (l : list A) : 0 <= s ->
  sel s e (-1) l = take (Z.to_nat (e + 1 - s)) (drop (Z.to_nat s) l).
Proof.
  intros Hs. assert (H : forall c (l : list A), -1 <= c -> c + 1 <= s ->
    sel s e c l = take (Z.to_nat (e + 1 - s)) (drop (Z.to_nat (s - (c + 1))) l)).
  { intros c l0. revert c. induction l0 as [|x l0 IH]; intros c H1 H2; [by rewrite drop_nil, take_nil|].
    destruct (decide (c + 1 = s)) as [E|E].
    - rewrite sel_take by lia. replace (Z.to_nat (s - (c + 1))) with 0%nat by lia. rewrite drop_0. f_equal. lia.
    - cbn. zb. cbn. rewrite IH by lia. by replace (Z.to_nat (s - (c + 1))) with (S (Z.to_nat (s - (c + 1 + 1)))) by lia. }
  rewrite H by lia. do 3 f_equal. lia.
Qed.

Lemma range_order_single {rt : GoRuntime} k (x : bytes) : range_order k ({[x]} : gset bytes) = [x].
Proof. apply Permutation_singleton_r. rewrite range_order_perm. by rewrite elements_singleton. Qed.

Lemma iterate_stopped {A} (it : nat -> Z -> M A bool) n i s : BTree.iterate it n i false s = Ret (i, s).
Proof. by destruct n. Qed.

(** The traversal collects the members in the interval. Leaving a right subtree
    out early does not matter: what follows is past the end. *)
Lemma collect_spec {rt : GoRuntime} b start end_ n es k c ms :
  Forall2 (fun i p => BTree.entry b i = Some (single p)) (BTree.ids n) es ->
  forall i, exists i' k' c', BTree.iterate (collect b start end_) n i true (k, c, ms) =
      Ret (i', (k', c', ms ++ sel start end_ c es)) /\
    (c' = c + zlen es \/ (end_ < c' /\ end_ < c + zlen es)).
Proof.
  revert es k c ms. induction n as [|id l IHl r IHr h]; intros es k c ms Hes i; cbn [BTree.ids BTree.iterate] in *.
  { apply Forall2_nil_inv_l in Hes as ->. eexists _, _, _. rewrite app_nil_r. split; [done|]. left. rewrite zlen_nil. lia. }
  apply Forall2_app_inv_l in Hes as (el & er' & Hl & Hr & ->). apply Forall2_cons_inv_l in Hr as (p & er & Hp & Hr & ->).
  destruct (IHl el k c ms Hl i) as (i1 & k1 & c1 & E1 & Hc1). unfold mbind, M_bind. rewrite E1.
  rewrite sel_app, (assoc_L (++)). set (ms1 := ms ++ sel start end_ c el). cbn [sel]. rewrite zlen_app, zlen_cons.
  pose proof (zlen_nonneg er). unfold collect at 1.
  assert (Hskip : end_ < c1 + 1 \/ c1 + 1 < start ->
    (if (start <=? c + zlen el + 1) && (c + zlen el + 1 <=? end_) then [p] else []) ++ sel start end_ (c + zlen el + 1) er =
    sel start end_ (c1 + 1) er).
  { intros Hs. destruct Hc1 as [->|[H1 H2]].
    - replace (_ && _) with false; [done|]. symmetry. destruct Hs; [apply andb_false_intro2|apply andb_false_intro1]; lia.
    - rewrite !sel_past by lia. destruct (Z.leb_spec (c + zlen el + 1) end_); [lia|]. by rewrite andb_false_r. }
  destruct (Z.ltb_spec (c1 + 1) start) as [Hs|Hs]; [|destruct (Z.ltb_spec end_ (c1 + 1)) as [He|He]].
  - destruct (IHr er k1 (c1 + 1) ms1 Hr (i1 + 1)) as (i2 & k2 & c2 & E2 & Hc2). rewrite E2, Hskip by auto.
    eexists _, _, _. split; [done|]. lia.
  - rewrite iterate_stopped, Hskip, (sel_past _ _ (c1 + 1)), app_nil_r by (auto || lia).
    eexists _, _, _. split; [done|]. lia.
  - assert (c1 = c + zlen el) as -> by lia. rewrite Hp. cbn [single Names Score]. rewrite range_order_single. cbn [map].
    destruct (IHr er (S k1) (c + zlen el + 1) (ms1 ++ [p]) Hr (i1 + 1)) as (i2 & k2 & c2 & E2 & Hc2).
    destruct p as [pn ps]. cbn [fst snd] in *. rewrite E2. zb. cbn [andb]. rewrite <- (assoc_L (++)).
    eexists _, _, _. split; [done|]. lia.
Qed.

(* ===================================================================== *)
(** ** What the commands do                                              *)
(* ===================================================================== *)

(** [k] holds the members [l], in order; a missing key counts as empty. *)
Definition zset_at (w : World) (k : bytes) (l : list (bytes * float64)) : Prop :=
  match kv w !! k with
  | None => l = []
  | Some (VZSet z) => ZSet.rep z l
  | Some _ => False
  end.

(** The tree under [k]. *)
Definition tree_at (w : World) (k : bytes) : BTree.node :=
  match kv w !! k with Some (VZSet z) => BTree.root z | _ => BTree.Nil end.

(** No other member has the score [x]. *)
Definition own_score (m : bytes) (x : float64) (l : list (bytes * float64)) : Prop :=
  is_nan x = false /\ Forall (fun q => fkey q.2 <> fkey x) (zdel m l).

Lemma rep_score_run b l m : ZSet.rep b l -> exists node,
  BTree.GetByName m b = Ret (node, b) /\ score_of node b = Ret (zscore m l, b).
Proof.
  intros Hr. pose proof (rep_score b l m Hr) as H. exists (dict b !! m). split; [done|].
  destruct (dict b !! m) as [id|]; [|by rewrite H]. destruct H as (s & -> & He).
  destruct (entry_inv _ _ _ He) as (v & Ev & Eo). cbn. unfold BTree.Value_of, BTree.deref, mbind, M_bind. cbn.
  rewrite Ev. cbn. by rewrite Eo.
Qed.

(** A member with a score of its own: it certainly goes in when it is new and
    the tree is balanced. *)
Lemma wp_zadd_put (pn : bool) b l m x (Q : unit -> Btree -> Prop) : ZSet.rep b l -> own_score m x l ->
  (pn = false -> BTree.avl (BTree.root b) /\ m ∉ l.*1) ->
  (forall b', ZSet.rep b' (zins (m, x) (zdel m l)) -> Q tt b') -> wp pn (zadd_put m x (zscore m l)) Q b.
Proof.
  intros Hr [Hnan Hown] Hpn HQ. apply wp_bind, wp_new_object, wp_bind.
  apply (rep_with_object b l (BTree.mkNode {[m]} x)) in Hr as Hr1. set (b1 := with_object b _) in *.
  assert (Ho : objects b1 !! BTree.fresh b = Some (single (m, x))) by (unfold b1; cbn; by rewrite lookup_insert_eq).
  assert (Hins : forall b2, ZSet.rep b2 (zdel m l) -> objects b2 !! BTree.fresh b = Some (single (m, x)) ->
    wp true (BTree.Insert (BTree.fresh b)) (fun _ b' => Q tt b') b2).
  { intros b2 Hr2 Ho2. apply (wp_rep_Insert _ _ (zdel m l) (m, x)); [done|done|apply zdel_names|done..]. }
  destruct (zscore m l) as [old|] eqn:E.
  - assert (Hin : m ∈ l.*1). { apply zscore_Some in E. by apply (list_elem_of_fmap_2' fst _ (m, old)). }
    destruct pn; [|by destruct (Hpn eq_refl)].
    apply wp_bind, (wp_rep_Delete _ _ l); [done|done|]. intros b2 Hr2 _ Eo. apply wp_ret, wp_bind.
    eapply wp_mono; [|apply Hins; [done|by rewrite Eo]]. intros d b' H. by apply wp_ret.
  - apply zscore_None in E. rewrite zdel_absent in * by done. apply wp_ret, wp_bind.
    eapply (wp_mono _ _ (fun _ b' => Q tt b')); [intros d b' H; by apply wp_ret|].
    destruct pn; [by apply Hins|]. destruct (Hpn eq_refl) as [Ha _].
    eapply wp_Insert_avl; [apply Hr1|done|done|by apply Hins].
Qed.

Lemma wp_zadd_pair (pn : bool) b l s m x (Q : (option RedisData + Z * float64) -> Btree -> Prop) :
  ZSet.rep b l -> ParseFloat s = Some x -> own_score m x l -> (pn = false -> BTree.avl (BTree.root b) /\ m ∉ l.*1) ->
  (forall b', ZSet.rep b' (zput m x l) -> Q (inr (if zscore m l is None then 1 else 0, f0)) b') ->
  wp pn (zadd_pairs no_zopts [s; m] 0 f0) Q b.
Proof.
  intros Hr Hp Hown Hpn HQ. cbn [zadd_pairs]. rewrite Hp.
  destruct (rep_score_run b l m Hr) as (node & E1 & E2). unfold zput in HQ.
  apply wp_bind. eapply wp_eval; [exact E1|]. apply wp_bind. eapply wp_eval; [exact E2|].
  unfold zadd_skips, no_zopts. cbn [xx nx lt gt incr negb orb andb].
  destruct (zscore m l) as [old|] eqn:E; [destruct (feq x old) eqn:Ef; [by apply wp_ret, HQ|]|].
  - apply wp_bind, wp_ret, wp_bind. rewrite <- E. by apply (wp_zadd_put pn b l).
  - apply wp_bind, wp_ret, wp_bind. rewrite <- E. apply (wp_zadd_put pn b l); [done..|].
    intros b' Hb'. apply zscore_None in E. rewrite zdel_absent in Hb' by done. by apply HQ.
Qed.

Lemma filter_zdel x names (l : list (bytes * float64)) :
  filter (fun p => p.1 ∉ names) (zdel x l) = filter (fun p => p.1 ∉ x :: names) l.
Proof.
  unfold zdel. rewrite list_filter_filter. apply list_filter_iff. intros p. rewrite not_elem_of_cons. tauto.
Qed.

Lemma zdel_dom x (l : list (bytes * float64)) :
  list_to_set (zdel x l).*1 = (list_to_set l.*1 ∖ {[x]} : gset bytes).
Proof.
  apply set_eq. intros y. rewrite elem_of_difference, elem_of_singleton, !elem_of_list_to_set, !list_elem_of_fmap.
  unfold zdel. setoid_rewrite list_elem_of_filter. naive_solver.
Qed.

Lemma wp_rep_Delete_absent (pn : bool) b l name (Q : bool -> Btree -> Prop) : ZSet.rep b l -> name ∉ l.*1 -> Q false b ->
  wp pn (BTree.Delete name) Q b.
Proof.
  intros Hr Hn HQ. apply BTree.wp_tree_Delete; [apply Hr|done|]. intros id t Hd _. exfalso.
  pose proof (rep_dict _ _ Hr name) as H. rewrite Hd in H. destruct H as (s & Hin & _). apply Hn.
  by apply (list_elem_of_fmap_2' fst _ (name, s)).
Qed.

Section theorems.
Context {rt : GoRuntime}.

Lemma wp_on_tree {A} (pn : bool) k z (m : M Btree A) w (Q : A -> World -> Prop) : Inv w -> is_Some (kv w !! k) ->
  wp pn m (fun a z' => BTree.WF z' /\
    forall w', keeps w tt w' -> kv w' = <[k := VZSet z']> (kv w) -> ttls w' = ttls w -> Q a w') z ->
  wp pn (on_tree k z m) Q w.
Proof.
  intros Hw Hk H. unfold on_tree. unfold wp in H. destruct (m z) as [[a z']| |] eqn:E; [|by rewrite H|done].
  destruct H as [Hz HQ]. apply wp_bind. eapply wp_eval; [done|]. apply wp_bind, wp_store_kv; [done|done|done|].
  intros w' K E' T. by apply wp_ret, HQ.
Qed.

Lemma wp_zadd (pn : bool) (w : World) (c k s m : slice) (l : list (bytes * float64)) (x : float64) :
  Inv w -> all_free (locks w) -> zset_at w (str k) l -> ParseFloat (str s) = Some x -> own_score (str m) x l ->
  (pn = false -> BTree.avl (tree_at w (str k)) /\ str m ∉ l.*1) ->
  wp pn (zadd [c; k; s; m]) (fun r w' => r = int (if zscore (str m) l is None then 1 else 0) /\ keeps w tt w' /\
    (exists z', kv w' = <[str k := VZSet z']> (kv w) /\ ZSet.rep z' (zput (str m) x l)) /\ ttls w' = ttls w) w.
Proof.
  intros Hw Hl Hz Hp Hown Hpn. unfold zadd. cbn [zlen length Z.of_nat Z.ltb map]. apply wp_bind, wp_ret.
  cbn [drop zadd_options]. change (2 <? zlen [str s; str m]) with false. cbv iota. cbn [gt lt nx incr no_zopts andb orb].
  apply wp_with_lock; [done|done|]. intros w1 Hw1 Ek Et Ec _. unfold zset_at, tree_at in *.
  apply wp_bind, wp_db_Get; [apply Hw1|]. rewrite Ek.
  assert (Hgo : forall w2 z, keeps w1 tt w2 -> kv w2 !! str k = Some (VZSet z) -> <[str k := VZSet z]> (kv w1) = kv w2 ->
     ttls w2 = ttls w1 -> ZSet.rep z l -> (pn = false -> BTree.avl (BTree.root z) /\ str m ∉ l.*1) ->
     wp pn (r ← on_tree (str k) z (zadd_pairs no_zopts [str s; str m] 0 f0); mret (zadd_reply no_zopts r))
       (fun a w3 => keeps w1 a w3 /\ forall w4, keeps w a w4 -> kv w4 = kv w3 -> ttls w4 = ttls w3 ->
          a = int (if zscore (str m) l is None then 1 else 0) /\ keeps w tt w4 /\
          (exists z', kv w4 = <[str k := VZSet z']> (kv w) /\ ZSet.rep z' (zput (str m) x l)) /\ ttls w4 = ttls w) w2).
  { intros w2 z K2 E2 E2' T2 Hr Hpn2. apply wp_bind, wp_on_tree; [by eapply keeps_Inv|by rewrite E2|].
    apply (wp_zadd_pair pn z l (str s) (str m) x); [done..|]. intros z' Hr'. split; [apply Hr'|]. intros w3 K3 E3 T3. apply wp_ret.
    split; [by eapply keeps_trans|]. intros w4 K4 E4 T4. split; [done|]. split; [done|]. split; [|congruence].
    exists z'. split; [|done]. by rewrite E4, E3, <- E2', insert_insert_eq, Ek. }
  destruct (kv w !! str k) as [v|] eqn:Ev.
  - destruct v as [| | | |z|]; try done. apply (Hgo w1 z); [by apply keeps_refl|by rewrite Ek| |done..].
    rewrite insert_id; [done|by rewrite Ek].
  - subst l. apply wp_bind, wp_Set_kv; [done|apply WF_NewBtree|]. intros w2 K2 E2 T2.
    apply (Hgo w2 NewBtree); [done|by rewrite E2, lookup_insert_eq|done|done|apply rep_NewBtree|done].
Qed.

(** C30: ZADD of one member with a score no other member has. The reply counts a
    new member; the members stay in the order of their scores, with the new
    score in its place. Only the rotations of the tree can make it panic, and
    never for a new member in a balanced tree. *)
Theorem zadd_spec (w : World) (c k s m : slice) (l : list (bytes * float64)) (x : float64)
  (Hw : Inv w) (Hl : all_free (locks w)) (Hz : zset_at w (str k) l)
  (Hp : ParseFloat (str s) = Some x) (Hown : own_score (str m) x l) :
  match zadd [c; k; s; m] w with
  | Ret (r, w') => r = int (if zscore (str m) l is None then 1 else 0) /\ keeps w tt w' /\
      (exists z', kv w' = <[str k := VZSet z']> (kv w) /\ ZSet.rep z' (zput (str m) x l)) /\ ttls w' = ttls w
  | Panic => ~ (BTree.avl (tree_at w (str k)) /\ str m ∉ l.*1)
  | Block => False
  end.
Proof.
  pose proof (wp_zadd true w c k s m l x Hw Hl Hz Hp Hown ltac:(done)) as H. unfold wp in H.
  destruct (zadd [c; k; s; m] w) as [[r w']| |] eqn:E; [exact H| |exact H].
  intros Ha. pose proof (wp_zadd false w c k s m l x Hw Hl Hz Hp Hown (fun _ => Ha)) as H'. unfold wp in H'.
  by rewrite E in H'.
Qed.

(** Deleting names, one after the other. *)
Lemma wp_zrem_names (pn : bool) b l names (Q : Z -> Btree -> Prop) : ZSet.rep b l ->
  (forall b', ZSet.rep b' (filter (fun p => p.1 ∉ names) l) ->
     Q (Z.of_nat (base.size (list_to_set l.*1 ∩ list_to_set names : gset bytes))) b') ->
  wp pn (zrem_names names) Q b.
Proof.
  intros Hr HQ. unfold zrem_names.
  cut (forall n, (forall b', ZSet.rep b' (filter (fun p => p.1 ∉ names) l) ->
         Q (n + Z.of_nat (base.size (list_to_set l.*1 ∩ list_to_set names : gset bytes))) b') ->
       wp pn (foldM (fun n name => d ← BTree.Delete name; mret (if d : bool then n + 1 else n)) n names) Q b).
  { intros H. by apply H. }
  clear HQ. revert b l Hr. induction names as [|x names IH]; intros b l Hr n HQ; cbn [foldM].
  { apply wp_ret. replace n with (n + Z.of_nat (base.size (list_to_set l.*1 ∩ list_to_set [] : gset bytes))).
    - apply HQ. replace (filter _ l) with l; [done|]. symmetry. apply list_filter_keep. intros p _. apply not_elem_of_nil.
    - change (list_to_set [] : gset bytes) with (∅ : gset bytes). rewrite (right_absorb_L ∅ (∩)), size_empty. lia. }
  apply wp_bind, wp_bind. destruct (decide (x ∈ l.*1)) as [Hx|Hx].
  - apply (wp_rep_Delete _ _ l); [done|done|]. intros b' Hr' _ _. apply wp_ret. apply (IH b' (zdel x l)); [done|].
    intros b'' Hr''. replace (n + 1 + _) with (n + Z.of_nat (base.size (list_to_set l.*1 ∩ list_to_set (x :: names) : gset bytes))).
    + apply HQ. by rewrite <- filter_zdel.
    + rewrite <- Z.add_assoc. f_equal. rewrite zdel_dom.
      replace (list_to_set l.*1 ∩ list_to_set (x :: names) : gset bytes) with
        ({[x]} ∪ (list_to_set l.*1 ∖ {[x]} ∩ list_to_set names) : gset bytes).
      * rewrite size_union, size_singleton by set_solver. lia.
      * apply set_eq. intros y. destruct (decide (y = x)) as [->|]; set_solver.
  - apply (wp_rep_Delete_absent _ _ l); [done|done|]. apply wp_ret. apply (IH b l); [done|].
    intros b'' Hr''. replace (list_to_set l.*1 ∩ list_to_set names : gset bytes) with
      (list_to_set l.*1 ∩ list_to_set (x :: names) : gset bytes) by set_solver.
    apply HQ. by rewrite <- filter_zdel, zdel_absent.
Qed.

(** ZREM removes exactly the named members, whatever the shape of the tree,
    and replies with the number of distinct names that were members. *)
Theorem zrem_spec (w : World) (c k n : slice) (ns : list slice) (z : Btree) (l : list (bytes * float64))
  (Hw : Inv w) (Hl : all_free (locks w)) (Hk : kv w !! ToLower (str k) = Some (VZSet z)) (Hz : ZSet.rep z l) :
  exists w' z', zrem (c :: k :: n :: ns) w =
      Ret (int (Z.of_nat (base.size (list_to_set l.*1 ∩ list_to_set (map str (n :: ns)) : gset bytes))), w') /\
    keeps w tt w' /\ kv w' = <[ToLower (str k) := VZSet z']> (kv w) /\ ttls w' = ttls w /\
    ZSet.rep z' (filter (fun p => p.1 ∉ map str (n :: ns)) l).
Proof.
  assert (H : wp false (zrem (c :: k :: n :: ns)) (fun r w' =>
    r = int (Z.of_nat (base.size (list_to_set l.*1 ∩ list_to_set (map str (n :: ns)) : gset bytes))) /\
    keeps w tt w' /\ exists z', kv w' = <[ToLower (str k) := VZSet z']> (kv w) /\ ttls w' = ttls w /\
    ZSet.rep z' (filter (fun p => p.1 ∉ map str (n :: ns)) l)) w).
  { unfold zrem. rewrite !zlen_cons. pose proof (zlen_nonneg ns). zb. apply wp_bind. eapply wp_arg; [done|]. cbv zeta.
    change (drop 2 (c :: k :: n :: ns)) with (n :: ns).
    apply wp_with_lock; [done|done|]. intros w1 Hw1 Ek Et _ _. apply wp_bind, wp_db_Get; [apply Hw1|]. rewrite Ek, Hk.
    apply wp_bind, wp_on_tree; [done|by rewrite Ek, Hk|]. apply (wp_zrem_names false z l); [done|]. intros z' Hz'.
    split; [apply Hz'|]. intros w2 K2 E2 T2. apply wp_ret. split; [done|]. intros w3 K3 E3 T3.
    split; [done|]. split; [done|]. exists z'. rewrite E3, E2, Ek, T3, T2, Et. done. }
  apply wp_run in H as (r & w' & E & -> & K & z' & H). by exists w', z'.
Qed.

Lemma zrange_members_spec b l start end_ k : ZSet.rep b l -> 0 <= start ->
  exists k', zrange_members b start end_ k =
    Ret (k', take (Z.to_nat (end_ + 1 - start)) (drop (Z.to_nat start) l)).
Proof.
  intros Hr Hs. unfold zrange_members, BTree.Ascend.
  destruct (collect_spec b start end_ (BTree.root b) l k (-1) [] (rep_list b l Hr) 0) as (i' & k' & c' & E & _).
  exists k'. unfold mbind, M_bind. rewrite E. cbn. by rewrite sel_slice.
Qed.

(** An end past the last member is the same as the last member. *)
Lemma take_clamped {A} (l : list A) start end_ : 0 <= start ->
  take (Z.to_nat ((if zlen l <? end_ then zlen l else end_) + 1 - start)) (drop (Z.to_nat start) l) =
  take (Z.to_nat (end_ + 1 - start)) (drop (Z.to_nat start) l).
Proof.
  intros Hs. destruct (Z.ltb_spec (zlen l) end_) as [H|H]; [|done]. rewrite !take_ge; [done|..];
    rewrite length_drop; unfold zlen in *; lia.
Qed.

(** ZRANGE by index replies with the members from index [start] to index
    [end_], both included, in the order of their scores, for any shape of the
    tree; with the options WITHSCORES and REV as the reply function has them. It
    changes nothing. *)
Theorem zrange_spec (w : World) (c k a e : slice) (opts : list slice) (o : ropts) (z : Btree) (l : list (bytes * float64))
  (start end_ : Z) (Hw : Inv w) (Hl : all_free (locks w)) (Hk : kv w !! str k = Some (VZSet z)) (Hz : ZSet.rep z l)
  (Ho : zrange_options (4 + zlen opts) 0 no_ropts opts = Ret (inr o)) (Hlex : bylex o = false) (Hlim : limit o = false)
  (Ha : Atoi (str a) = Some start) (He : Atoi (str e) = Some end_) (Hs : 0 <= start) :
  exists w', zrange (c :: k :: a :: e :: opts) w =
      Ret (zrange_reply o (take (Z.to_nat (end_ + 1 - start)) (drop (Z.to_nat start) l)), w') /\
    keeps w tt w' /\ kv w' = kv w /\ ttls w' = ttls w.
Proof.
  apply wp_returns. unfold zrange. rewrite !zlen_cons. pose proof (zlen_nonneg opts). zb.
  apply wp_bind. eapply wp_arg; [done|]. cbv zeta. cbn [drop]. rewrite drop_0.
  replace (zlen opts + 1 + 1 + 1 + 1) with (4 + zlen opts) by lia. rewrite Ho. apply wp_bind. eapply wp_eval; [done|].
  cbv beta iota. rewrite Hlim, Hlex. cbn [andb]. apply wp_bind. eapply wp_arg; [done|]. apply wp_bind. eapply wp_arg; [done|].
  unfold zrange_bounds. rewrite Ha, He. cbn [mbind option_bind].
  apply wp_with_lock; [done|done|]. intros w1 Hw1 Ek Et _ _. apply wp_bind, wp_db_Get; [apply Hw1|]. rewrite Ek, Hk.
  assert (Elen : BTree.len z = zlen l).
  { rewrite (wf_len z (rep_wf _ _ Hz)). unfold zlen. by rewrite (Forall2_length _ _ _ (rep_list z l Hz)). }
  rewrite Elen. apply wp_bind, wp_gets.
  destruct (zrange_members_spec z l start (if zlen l <? end_ then zlen l else end_) (ranges w1) Hz Hs) as [k' E].
  rewrite E, take_clamped by done. apply wp_bind. eapply wp_eval; [done|]. apply wp_bind, wp_modify. cbn [fst snd]. apply wp_ret.
  split; [destruct Hw1 as [G1 G2 G3 G4 G5 G6 G7 G8 G9]; by split|]. intros w2 K2 E2 T2. split; [done|]. split; [done|].
  split; [by rewrite E2, <- Ek|by rewrite T2, <- Et].
Qed.
End theorems.

(* ===================================================================== *)
(** ** Histories                                                         *)
(* ===================================================================== *)

Section histories.
Context {rt : GoRuntime}.

(** Commands on the key "z", one after the other. *)
Definition add_score (score : string) : M World unit := zadd [word "zadd"; word "z"; word score; word ("m" ++ score)] ;; mret tt.
Definition rem_score (score : string) : M World unit := zrem [word "zrem"; word "z"; word ("m" ++ score)] ;; mret tt.

Definition crash_history : M World unit :=
  forM ["50"; "20"; "70"; "10"; "30"; "80"; "5"] add_score ;; forM ["20"; "50"; "70"] rem_score.


(** Two members with the score 1; ZREM of one of them. *)
Definition shared_history : M World (option RedisData) :=
  zadd [word "zadd"; word "z"; word "1"; word "a"] ;; zadd [word "zadd"; word "z"; word "1"; word "b"] ;;
  zrem [word "zrem"; word "z"; word "a"].

(** ZREM of a member that shares its score removes every member with that
    score: the node is compared with itself and always counts as emptied. *)
Theorem zrem_loses_members : exists w w', shared_history (boot 4 0) = Ret (int 1, w) /\
  zrange [word "zrange"; word "z"; word "0"; word "9"] w = Ret (array [], w').
Proof. exists (after shared_history (boot 4 0)). eexists. split; vm_compute; reflexivity. Qed.
End histories.

(* ===================================================================== *)
(** ** Instances of the theorems                                         *)
(* ===================================================================== *)

Definition num (s : string) : float64 := default f0 (ParseFloat (bs s)).

(** The members a = 1 and b = 2. *)
Definition demo_members : list (bytes * float64) := [(bs "a", num "1"); (bs "b", num "2")].
Definition demo_build : M Btree unit := zadd_put (bs "b") (num "2") None ;; zadd_put (bs "a") (num "1") None.
Definition demo_tree : Btree := match demo_build NewBtree with Ret (_, b) => b | _ => NewBtree end.
Definition demo_zset : World := after (db_Set (bs "z") (VZSet demo_tree)) (boot 4 0).

Lemma demo_rep : ZSet.rep demo_tree demo_members.
Proof.
  assert (H : wp true demo_build (fun _ b => ZSet.rep b demo_members) NewBtree).
  { apply wp_bind, (wp_zadd_put true NewBtree []); [apply rep_NewBtree|by split|done|]. intros b1 H1.
    apply (wp_zadd_put true b1 [(bs "b", num "2")]); [exact H1|split; [done|]|done|by intros b2 H2].
    vm_compute. by repeat constructor. }
  unfold demo_tree. unfold wp in H. revert H. destruct (demo_build NewBtree) as [[u b]| |] eqn:E; [done| |done].
  vm_compute in E. discriminate E.
Qed.

Lemma demo_zset_Inv : Inv demo_zset /\ all_free (locks demo_zset).
Proof.
  apply after_safe; [|apply boot_Inv; [lia|unfold MaxInt64; lia]..]. apply safe_pres, pres_db_Set. apply demo_rep.
Qed.

Lemma demo_zset_at : kv demo_zset !! bs "z" = Some (VZSet demo_tree).
Proof. vm_compute. reflexivity. Qed.

#[local] Existing Instance plain_runtime.

Lemma zadd_spec_witness :
  match zadd [word "zadd"; word "z"; word "1.5"; word "c"] demo_zset with
  | Ret (r, w') => r = int 1 /\ keeps demo_zset tt w' /\
      (exists z', kv w' = <[bs "z" := VZSet z']> (kv demo_zset) /\
        ZSet.rep z' [(bs "a", num "1"); (bs "c", num "1.5"); (bs "b", num "2")]) /\ ttls w' = ttls demo_zset
  | Panic => ~ (BTree.avl (tree_at demo_zset (bs "z")) /\ bs "c" ∉ demo_members.*1)
  | Block => False
  end.
Proof.
  apply (zadd_spec demo_zset (word "zadd") (word "z") (word "1.5") (word "c") demo_members (num "1.5")).
  - apply demo_zset_Inv.
  - apply demo_zset_Inv.
  - unfold zset_at. change (str (word "z")) with (bs "z"). rewrite demo_zset_at. exact demo_rep.
  - vm_compute. reflexivity.
  - split; [reflexivity|]. vm_compute. repeat constructor; discriminate.
Defined.

Lemma zrem_spec_witness : exists w' z',
    zrem [word "zrem"; word "Z"; word "a"; word "x"; word "a"] demo_zset = Ret (int 1, w') /\
    keeps demo_zset tt w' /\ kv w' = <[bs "z" := VZSet z']> (kv demo_zset) /\ ttls w' = ttls demo_zset /\
    ZSet.rep z' [(bs "b", num "2")].
Proof.
  apply (zrem_spec demo_zset (word "zrem") (word "Z") (word "a") [word "x"; word "a"] demo_tree demo_members).
  - apply demo_zset_Inv.
  - apply demo_zset_Inv.
  - exact demo_zset_at.
  - exact demo_rep.
Defined.

Lemma zrange_spec_witness : exists w',
    zrange [word "zrange"; word "z"; word "1"; word "7"; word "withscores"] demo_zset =
      Ret (array [MakeBulkData (word "b"); MakeBulkData (word "2.000000")], w') /\
    keeps demo_zset tt w' /\ kv w' = kv demo_zset /\ ttls w' = ttls demo_zset.
Proof.
  destruct (zrange_spec demo_zset (word "zrange") (word "z") (word "1") (word "7") [word "withscores"]
    (mkRopts true false false false) demo_tree demo_members 1 7) as (w' & E & H).
  - apply demo_zset_Inv.
  - apply demo_zset_Inv.
  - exact demo_zset_at.
  - exact demo_rep.
  - reflexivity.
  - reflexivity.
  - reflexivity.
  - reflexivity.
  - reflexivity.
  - lia.
  - exists w'. split; [rewrite E; vm_compute; reflexivity|exact H].
Defined.
