(* ===== verification/Commands.v ===== *)
(** * Commands: the command table and its executor (src/memdb/command.go,
    src/memdb/db.go, src/main.go)

    [CmdTable] maps lower-case command names to handlers. The table of the
    program also has entries that are not modelled ([other]): the theorems are
    about every command whose name is not among those. *)

From S2P Require Import StreamCmds SortedSetCmds.
From S2P Require Import Prelude Strconv Resp Util ConcurrentMap Locks ListStruct HashStruct SetStruct Db.
From S2P Require Import Keys StringCmds ListCmds HashCmds SetCmds.

Abbreviation Table := (gmap bytes Handler).

Definition RegisterCommand (cmdName : bytes) (executor : Handler) (t : Table) : Table :=
  <[cmdName := executor]> t.

Definition register_all (cs : list (bytes * Handler)) (t : Table) : Table :=
  fold_left (fun t '(name, h) => RegisterCommand name h t) cs t.

(** [strings.Split(input, " ")], as byte slices. *)
Definition MakeCommandBytes {rt : GoRuntime} (input : bytes) : list slice := map of_string (Split " " input).

Section exec.
Context {rt : GoRuntime}.

Definition modelled : list (bytes * Handler) :=
  RegisterKeyCommands ++ RegisterStringCommands ++ RegisterListCommands ++ RegisterSetCommands ++
  RegisterHashCommands ++ RegisterSortedSetCommands ++ RegisterStreamCommands.

(** The table after [init] of main.go. *)
Definition CmdTable (other : Table) : Table := register_all modelled other.

Definition ExecCommand (t : Table) (cmd : list slice) : M World (option RedisData) :=
  if zlen cmd =? 0 then mret None
  else
    c0 ← arg cmd 0;
    let cmdName := ToLower (str c0) in
    match t !! cmdName with
    | None => mret (Some (MakeErrorData [bs "ERR unknown command "; cmdName]))
    | Some executor => executor cmd
    end.

(* ===================================================================== *)
(** ** Lookups in the table                                              *)
(* ===================================================================== *)

Lemma register_all_lookup cs t name h :
  register_all cs t !! name = Some h -> (name, h) ∈ cs \/ t !! name = Some h.
Proof.
  revert t. induction cs as [|[n x] cs IH]; intros t; cbn; [by right|]. intros H.
  apply IH in H as [H|H]; [left; by right|]. unfold RegisterCommand in H.
  apply lookup_insert_Some in H as [[-> ->]|[_ H]]; [left; left|by right].
Qed.

(** A name registered once keeps its handler. *)
Lemma register_all_find cs t name h :
  NoDup cs.*1 -> (name, h) ∈ cs -> register_all cs t !! name = Some h.
Proof.
  revert t. induction cs as [|[n x] cs IH]; intros t Hn; cbn; [by intros ?%elem_of_nil|].
  cbn in Hn. apply NoDup_cons in Hn as [Hni Hn]. intros [[= -> ->]|H]%elem_of_cons; [|by apply IH].
  assert (Hkeep : forall cs0 t0, n ∉ cs0.*1 -> register_all cs0 t0 !! n = t0 !! n).
  { clear. induction cs0 as [|[m y] cs0 IH]; intros t0; [done|]. cbn. intros [Hne Hni]%not_elem_of_cons.
    unfold register_all in IH. rewrite IH by done. unfold RegisterCommand. by rewrite lookup_insert_ne. }
  fold (register_all cs (RegisterCommand n x t)). rewrite Hkeep by done. apply lookup_insert_eq.
Qed.

Lemma modelled_names : NoDup (modelled.*1).
Proof. apply (bool_decide_unpack _). vm_compute. exact I. Qed.

(** A command that comes back: not HRANDFIELD with a count whose negation
    overflows, not XADD with an option "~". *)
Definition ends (name : bytes) (cmd : list slice) : Prop :=
  (name = bs "hrandfield" -> ~ diverges cmd) /\ (name = bs "xadd" -> ~ xadd_diverges cmd).

Lemma modelled_safe name h cmd : (name, h) ∈ modelled -> ends name cmd -> safe (h cmd).
Proof.
  unfold modelled. rewrite !elem_of_app. intros [H|[H|[H|[H|[H|[H|H]]]]]] [Hd Hx].
  - by eapply keys_safe.
  - by eapply strings_safe.
  - by eapply lists_safe.
  - by eapply sets_safe.
  - by eapply hashes_safe.
  - by eapply zsets_safe.
  - by eapply streams_safe.
Qed.

(** A command this development covers, and that comes back. *)
Definition served (other : Table) (cmd : list slice) : Prop :=
  match cmd with
  | [] => True
  | c :: _ => other !! ToLower (str c) = None /\ ends (ToLower (str c)) cmd
  end.

Lemma exec_safe other cmd : served other cmd -> safe (ExecCommand (CmdTable other) cmd).
Proof.
  unfold ExecCommand. destruct cmd as [|c cmd]; [intros _; apply safe_ret|]. intros [Ho Hd] w Hw Hl.
  rewrite zlen_cons. pose proof (zlen_nonneg cmd). zb. apply wp_bind. eapply wp_arg; [done|]. cbv zeta.
  destruct (CmdTable other !! ToLower (str c)) as [h|] eqn:E; [|by apply safe_ret].
  apply register_all_lookup in E as [E|E]; [|congruence]. by eapply modelled_safe.
Qed.

(* ===================================================================== *)
(** ** The database at work                                              *)
(* ===================================================================== *)

(** What happens to a database: a client's command runs, time passes, a timer
    goroutine wakes up or sees its cancellation, a blocked pop polls its keys. *)
Inductive step (other : Table) : World -> World -> Prop :=
| step_cmd cmd r w w' :
    served other cmd -> ExecCommand (CmdTable other) cmd w = Ret (r, w') -> step other w w'
| step_time d w w' :
    0 <= d -> clock w + d <= MaxInt64 -> tick d w = Ret (tt, w') -> step other w w'
| step_fire j w w' : fire j w = Ret (tt, w') -> step other w w'
| step_cancelled j w w' : cancelled j w = Ret (tt, w') -> step other w w'
| step_poll (left : bool) keys r w w' :
    poll (ListCmds.Pop left) keys w = Ret (r, w') -> step other w w'.

Lemma safe_run {A} (m : M World A) w a w' :
  safe m -> Inv w -> all_free (locks w) -> m w = Ret (a, w') -> Inv w' /\ all_free (locks w').
Proof.
  intros Hm Hw Hl E. pose proof (Hm w Hw Hl) as H. unfold wp in H. rewrite E in H.
  destruct H as (H1 & H2 & _). by rewrite H2.
Qed.

Lemma lsafe_Pop (left : bool) : lsafe (ListCmds.Pop left).
Proof. destruct left; [apply lsafe_LPop|apply lsafe_RPop]. Qed.

Lemma db_step_Inv other w w' : step other w w' -> Inv w -> all_free (locks w) -> Inv w' /\ all_free (locks w').
Proof.
  intros Hs Hw Hl. destruct Hs as [cmd r w w' Hc E|d w w' Hd Hm E|j w w' E|j w w' E|left keys r w w' E].
  - eapply safe_run; [by apply exec_safe|done..].
  - destruct (tick_run d w Hw) as (w1 & E1 & H1 & H2 & _); [lia|]. rewrite E in E1. injection E1 as <-. by rewrite H2.
  - destruct (timers w !! j) as [t|] eqn:Et.
    + destruct (decide (t_at t <= clock w)) as [Hd|Hd].
      * destruct (fire_run j t w Hw Hl Et Hd) as (w1 & E1 & (H1 & H2 & _) & _). rewrite E in E1.
        injection E1 as <-. by rewrite H2.
      * unfold fire in E. rewrite Et in E. revert E. zb. by intros [= <-].
    + unfold fire in E. rewrite Et in E. by injection E as <-.
  - destruct (cancelled_run j w Hw) as (w1 & E1 & (H1 & H2 & _) & _). rewrite E in E1.
    injection E1 as <-. by rewrite H2.
  - eapply safe_run; [apply safe_poll, lsafe_Pop|done..].
Qed.

End exec.

#[local] Existing Instance plain_runtime.

(** The database after the command "SET k v". *)
Definition demo_run : World :=
  after (ExecCommand (CmdTable ∅) [word "SET"; word "k"; word "v"]) (boot 4 0).

