(* ===== verification/Server.v ===== *)
(** * Server: the request manager (src/server/db_manager.go,
    src/server/cmd_middleware.go)

    [Manager] holds the databases and which of them is selected, shared by all
    connections. [Handle] is the loop of one connection over what it receives,
    and returns the messages it writes; [HandleCluster] differs in that a
    command goes through the filters and, as one string, through the raft log.
    [commit] is what the node does with a proposal once it is committed; how it
    gets there is in RaftGlue.v and Cluster.v. Writing to the connection and logging have
    no effect on the state. *)

From S2P Require Import Prelude Strconv Resp RespParser Util ConcurrentMap Locks ListStruct HashStruct SetStruct.
From S2P Require Import Db Keys StringCmds ListCmds HashCmds SetCmds Commands.

Record Manager : Type := mkManager { CurrentDB : nat; DBs : list World }.

(** [NewManager]: [n] databases with the configured shard number. *)
Definition NewManager (n : nat) (shardNum now : Z) : outcome Manager :=
  if (n =? 0)%nat then Panic
  else
    match NewMemDb shardNum now with
    | Ret w => Ret (mkManager 0 (replicate n w))
    | Panic => Panic
    | Block => Block
    end.

(** A command runs on the current database. *)
Definition on_current {A} (m : M World A) : M Manager A := fun mgr =>
  match DBs mgr !! CurrentDB mgr with
  | None => Panic
  | Some w =>
      match m w with
      | Ret (a, w') => Ret (a, mkManager (CurrentDB mgr) (<[CurrentDB mgr := w']> (DBs mgr)))
      | Panic => Panic
      | Block => Block
      end
  end.

Section server.
Context {rt : GoRuntime} (t : Table).

Definition Select (cmd : list slice) : M Manager (option RedisData) :=
  if negb (zlen cmd =? 2) then mret (Some (MakeWrongNumberArgs (bs "select")))
  else
    c1 ← or_panic (cmd !! 1%nat);
    match Atoi (str c1) with
    | None => mret (err (bs "ERR value is not an integer or out of range"))
    | Some dbIdx =>
        n ← gets (fun mgr => zlen (DBs mgr));
        if (n <=? dbIdx) || (dbIdx <? 0) then
          mret (err (bs "ERR DB index is out of range with maximum " ++ Itoa n))
        else
          modify (fun mgr => mkManager (Z.to_nat dbIdx) (DBs mgr)) ;;
          mret (simple (bs "OK"))
    end.

Definition ExecCommand (cmd : list slice) : M Manager (option RedisData) :=
  if zlen cmd =? 0 then mret None
  else
    c0 ← or_panic (cmd !! 0%nat);
    let cmdName := ToLower (str c0) in
    if beq cmdName (bs "select") then Select cmd
    else
      match t !! cmdName with
      | None => mret (Some (MakeErrorData [bs "ERR unknown command "; cmdName]))
      | Some executor => on_current (executor cmd)
      end.

(** The same for a command that comes as one string. *)
Definition ExecStrCommand (cmdStr : bytes) : M Manager (option RedisData) :=
  let cmd := Split " " cmdStr in
  if zlen cmd =? 0 then mret None
  else
    c0 ← or_panic (cmd !! 0%nat);
    let cmdName := ToLower c0 in
    let byteCmd := map of_string cmd in
    if beq cmdName (bs "select") then Select byteCmd
    else
      match t !! cmdName with
      | None => mret (Some (MakeErrorData [bs "ERR unknown command "; cmdName]))
      | Some executor => on_current (executor byteCmd)
      end.

(** What a connection's goroutine receives in its [select]: a result of the
    parser, the closed channel of the parser, or the end of the server. *)
Inductive received : Type :=
| Recv (r : ParsedRes)
| Closed
| Done.

(** The message written for a result. *)
Definition reply_bytes (res : option RedisData) : bytes :=
  match res with
  | Some d => ToBytes d
  | None => ToBytes (MakeErrorData [bs "unknown error"])
  end.

(** The loop of Handle: the messages it writes. A receive from the closed
    channel yields a nil pointer, which is dereferenced. *)
Fixpoint Handle (rs : list received) : M Manager (list bytes) :=
  match rs with
  | [] => mret []
  | Closed :: _ => panic
  | Done :: _ => mret []
  | Recv p :: rs' =>
      match Err p, Data p with
      | Some _, _ => mret []
      | None, Some (ArrayData l) =>
          res ← ExecCommand (ToCommand l);
          out ← Handle rs';
          mret (reply_bytes res :: out)
      | None, _ => Handle rs'
      end
  end.

(* ===================================================================== *)
(** ** Cluster mode                                                      *)
(* ===================================================================== *)

Abbreviation filterFunc := (list slice -> outcome (list slice + bytes)).

(** [Filter]: the filters in order, up to the first error. *)
Fixpoint Filter (filters : list filterFunc) (cmd : list slice) : outcome (list slice + bytes) :=
  match filters with
  | [] => Ret (inl cmd)
  | f :: fs =>
      match f cmd with
      | Ret (inl cmd') => Filter fs cmd'
      | Ret (inr e) => Ret (inr e)
      | Panic => Panic
      | Block => Block
      end
  end.

Definition ClusterCmdFilter : filterFunc := fun cmd =>
  match cmd with
  | [] => Panic
  | c :: _ =>
      let command := ToLower (str c) in
      if beq command (bs "publish") || beq command (bs "subscribe") then
        Ret (inr (bs "does not support pub/sub in cluster mode yet. "))
      else Ret (inl cmd)
  end.

(** A committed proposal is executed as a string, and its reply is sent back to
    the connection that proposed it. *)
Definition commit (data : bytes) : M Manager (option RedisData) := ExecStrCommand data.

(** One command in cluster mode. *)
Definition cluster_command (filters : list filterFunc) (l : option (list RedisData)) : M Manager bytes :=
  r ← lift (Filter filters (ToCommand l));
  match r with
  | inr _ => mret (ToBytes (MakeErrorData [bs "command does not pass checks"]))
  | inl cmd =>
      let cmdStrings := ToStringCommand l in
      name ← or_panic (cmdStrings !! 0%nat);
      if beq name (bs "rconf") then
        res ← ExecCommand cmd;
        d ← or_panic res;
        mret (ToBytes d)
      else
        res ← commit (Join (bs " ") cmdStrings);
        mret (reply_bytes res)
  end.

Fixpoint HandleCluster (filters : list filterFunc) (rs : list received) : M Manager (list bytes) :=
  match rs with
  | [] => mret []
  | Closed :: _ => panic
  | Done :: _ => mret []
  | Recv p :: rs' =>
      match Err p, Data p with
      | Some _, _ => mret []
      | None, Some (ArrayData l) =>
          b ← cluster_command filters l;
          out ← HandleCluster filters rs';
          mret (b :: out)
      | None, _ => HandleCluster filters rs'
      end
  end.
End server.

(** The filters of a cluster node. *)
Definition clusterFilter {rt : GoRuntime} : list (list slice -> outcome (list slice + bytes)) := [ClusterCmdFilter].

(* ===================================================================== *)
(** ** From the bytes of the client to the bytes of the replies          *)
(* ===================================================================== *)

(** The specification: the commands are executed one after the other, and each
    is answered before the next. *)
Fixpoint serve {rt : GoRuntime} (t : Table) (cmds : list (list slice)) : M Manager (list bytes) :=
  match cmds with
  | [] => mret []
  | cmd :: cmds' =>
      res ← ExecCommand t cmd;
      out ← serve t cmds';
      mret (reply_bytes res :: out)
  end.

(** The arguments as the parser hands them over. *)
Definition parsed_args (args : list bytes) : list slice := map (fun a => Slice a CRLF) args.

Section theorems.
Context {rt : GoRuntime}.

Lemma ToCommand_parsed args : ToCommand (Some (map elem_parsed (map (fun a => BulkData (Slice a [])) args))) =
  parsed_args args.
Proof. unfold ToCommand, parsed_args. unfold id, default. by rewrite !map_map. Qed.

Lemma Handle_commands t cmds mgr :
  Handle t (map Recv (map (fun d => sendData (as_parsed d)) (map bulks cmds) ++ [sendErr EOF])) mgr =
  serve t (map parsed_args cmds) mgr.
Proof.
  revert mgr. induction cmds as [|args cmds IH]; intros mgr; [done|]. cbn [map app Handle Err Data sendData as_parsed bulks].
  rewrite ToCommand_parsed. cbn [serve]. unfold mbind, M_bind.
  destruct (ExecCommand t (parsed_args args) mgr) as [[r mgr']| |]; [|done..]. by rewrite IH.
Qed.

(** C4: the server end to end. If a client sends any number of commands back
    to back, as arrays of bulk strings with arbitrary bytes in them, then the
    parser and the connection's loop execute exactly these commands, in order,
    and write the encoded replies in the same order. *)
Theorem pipeline (t : Table) (mgr : Manager) (cmds : list (list bytes))
  (Hc : Forall (fun args => Forall (fun a => zlen a <= maxAlloc - 2) args /\ zlen args <= MaxInt64) cmds) :
  exists rs, ParseStream false (concat (map ToBytes (map bulks cmds))) = Ret rs /\
    Handle t (map Recv rs) mgr = serve t (map parsed_args cmds) mgr.
Proof.
  eexists. split; [|apply Handle_commands].
  change (ParseStream false ?i) with (run false readState0 i).
  rewrite <- (app_nil_r (concat _)), run_stream, run_nil; [done|].
  apply Forall_map. eapply Forall_impl; [exact Hc|]. intros args [H1 H2]. cbn. split.
  - apply Forall_map. exact H1.
  - unfold zlen in *. by rewrite length_map.
Qed.

Lemma Join_app sep l1 l2 : l1 <> [] -> l2 <> [] -> Join sep (l1 ++ l2) = Join sep l1 ++ sep ++ Join sep l2.
Proof.
  intros H1 H2. induction l1 as [|a l1 IH]; [done|]. destruct l1 as [|b l1].
  - destruct l2; [done|]. done.
  - change ((a :: b :: l1) ++ l2) with (a :: (b :: l1) ++ l2). cbn [Join] in *.
    change ((b :: l1) ++ l2) with (b :: (l1 ++ l2)) in *. cbn [Join] in *.
    rewrite IH by done. by rewrite <- !(assoc_L (++)).
Qed.

Lemma Join_concat sep (ws : list (list bytes)) : Forall (fun w => w <> []) ws ->
  Join sep (map (Join sep) ws) = Join sep (concat ws).
Proof.
  induction 1 as [|w ws Hw Hws IH]; [done|]. cbn [map concat]. destruct ws as [|w' ws].
  - cbn. by rewrite app_nil_r.
  - inversion Hws as [|? ? Hw' _]; subst. rewrite Join_app; [|done|cbn; by destruct w'].
    rewrite <- IH. done.
Qed.

Lemma ToStringCommand_bulks args :
  ToStringCommand (Some (map (fun a => BulkData (Slice a [])) args)) = args.
Proof. unfold ToStringCommand, default, id. rewrite map_map. cbn. by rewrite map_id. Qed.

Lemma ExecStrCommand_words t words mgr : words <> [] -> Forall (fun w => " "%char ∉ w) words ->
  ExecStrCommand t (Join (bs " ") words) mgr = ExecCommand t (map of_string words) mgr.
Proof.
  intros Hne Hw. unfold ExecStrCommand, ExecCommand. change (bs " ") with [" "%char].
  rewrite Split_Join by done. cbv zeta. destruct words as [|w words]; [done|]. cbn [map].
  rewrite !zlen_cons. unfold zlen. rewrite length_map. fold (zlen words). pose proof (zlen_nonneg words).
  unfold zlen in *. zb. done.
Qed.


Lemma ExecCommand_cons t c cmd mgr : ExecCommand t (c :: cmd) mgr =
  (if beq (ToLower (str c)) (bs "select") then Select (c :: cmd)
   else match t !! ToLower (str c) with
        | None => mret (Some (MakeErrorData [bs "ERR unknown command "; ToLower (str c)]))
        | Some executor => on_current (executor (c :: cmd))
        end) mgr.
Proof. unfold ExecCommand. rewrite zlen_cons. pose proof (zlen_nonneg cmd). by zb. Qed.

(** replies can be forged. The name of an unknown command is copied into
    the error line as it is, so a name with a line break in it makes the server
    send what a client reads as two replies. *)
Theorem reply_injection (t : Table) (mgr : Manager) (a b : bytes) (sp : slice)
  (Ha : LF ∉ a) (Hb : LF ∉ b) (Hs : ToLower (str sp) = a ++ CRLF ++ bs "+" ++ b)
  (Ht : t !! ToLower (str sp) = None) :
  exists res, ExecCommand t [sp] mgr = Ret (res, mgr) /\
    ParseStream false (reply_bytes res) =
      Ret [sendData (ErrorData (bs "ERR unknown command " ++ a)); sendData (StringData b); sendErr EOF].
Proof.
  eexists. split.
  - rewrite ExecCommand_cons, Ht, Hs.
    rewrite (proj2 (beq_false _ _)); [done|]. intros E. apply (f_equal (fun l => bool_decide (LF ∈ l))) in E.
    change (bool_decide (LF ∈ bs "select")) with false in E. apply bool_decide_eq_false in E. apply E.
    rewrite !elem_of_app. right. left. right. left.
  - cbn [reply_bytes]. change (ParseStream false ?i) with (run false readState0 i).
    replace (ToBytes _) with (concat (map ToBytes [ErrorData (bs "ERR unknown command " ++ a); StringData b]) ++ []).
    + rewrite run_stream, run_nil; [done|]. apply Forall_cons; split; [|by apply Forall_singleton].
      change (LF ∉ bs "ERR unknown command " ++ a). rewrite elem_of_app. intros [H|H]; [|done].
      revert H. apply (bool_decide_unpack (LF ∉ bs "ERR unknown command ")). vm_compute. exact I.
    + unfold MakeErrorData. cbn [map concat ToBytes]. by rewrite ?app_nil_r, <- !(assoc_L (++)).
Qed.
End theorems.

(* ===================================================================== *)
(** ** Instances of the theorems                                         *)
(* ===================================================================== *)

#[local] Existing Instance plain_runtime.

Definition demo_mgr : Manager := mkManager 0 [boot 4 0; boot 4 0].

Lemma pipeline_witness :
  exists rs, ParseStream false (concat (map ToBytes (map bulks [[bs "set"; bs "k"; CRLF]; [bs "get"; bs "k"]]))) = Ret rs /\
    Handle (CmdTable ∅) (map Recv rs) demo_mgr =
    serve (CmdTable ∅) (map parsed_args [[bs "set"; bs "k"; CRLF]; [bs "get"; bs "k"]]) demo_mgr.
Proof.
  apply (@pipeline plain_runtime (CmdTable ∅) demo_mgr [[bs "set"; bs "k"; CRLF]; [bs "get"; bs "k"]]).
  apply (bool_decide_unpack _). vm_compute. exact I.
Defined.


Lemma reply_injection_witness :
  exists res, ExecCommand (CmdTable ∅) [Slice (bs "x" ++ CRLF ++ bs "+ok") []] demo_mgr = Ret (res, demo_mgr) /\
    ParseStream false (reply_bytes res) =
      Ret [sendData (ErrorData (bs "ERR unknown command x")); sendData (StringData (bs "ok")); sendErr EOF].
Proof.
  apply (@reply_injection plain_runtime (CmdTable ∅) demo_mgr (bs "x") (bs "ok") (Slice (bs "x" ++ CRLF ++ bs "+ok") [])).
  - apply (bool_decide_unpack _). vm_compute. exact I.
  - apply (bool_decide_unpack _). vm_compute. exact I.
  - reflexivity.
  - vm_compute. reflexivity.
Defined.
