(* ===== verification/PubSub.v ===== *)
(** * PubSub: channels and subscriptions (src/memdb/pubsub_struct.go,
    src/memdb/pubsub.go)

    [ChanMap] maps a channel name to its [Chan], the connections that subscribed
    to it under the identifiers [uuid.NewString] gave them, and a counter of
    subscribers of its own. A channel object is mutated through its cell in the
    map. [delivered] records the messages written to each connection; whether a
    write to a connection succeeds is up to the network, [alive]. The fields
    [in] and [rw] of a channel play no role in a single operation. *)

From S2P Require Import Prelude Strconv Resp Util ConcurrentMap.

Abbreviation conn := nat.

Record Chan : Type := mkChan { conns : gmap bytes conn; numSubs : Z }.

Record ChanMap : Type := mkChanMap {
  item : ConcurrentMap Chan;
  delivered : list (conn * bytes);
  visits : nat
}.

Definition item_l : lens ChanMap (ConcurrentMap Chan) :=
  mkLens item (fun x m => mkChanMap x (delivered m) (visits m)).

Definition NewChanMap (shardNum : Z) : ChanMap := mkChanMap (NewConcurrentMap shardNum) [] 0.

Definition chan_Get (key : bytes) : M ChanMap (option Chan) := zoom item_l (ConcurrentMap.Get key).

(** A write through the channel pointer. *)
Definition chan_put (key : bytes) (c : Chan) : M ChanMap unit :=
  zoom item_l (ConcurrentMap.SetIfExist key c) ;; mret tt.

(** [Create] returns nil if the channel exists. *)
Definition Create (key : bytes) : M ChanMap (option Chan) :=
  c ← chan_Get key;
  match c with
  | Some _ => mret None
  | None =>
      let newShard := mkChan ∅ 0 in
      zoom item_l (ConcurrentMap.Set_ key newShard) ;; mret (Some newShard)
  end.

Definition Subscribe (key : bytes) (ID : bytes) (c : conn) : M ChanMap unit :=
  channelTmp ← chan_Get key;
  channel ← (match channelTmp with
             | None => ch ← Create key; or_panic ch
             | Some channel => mret channel
             end);
  chan_put key (mkChan (<[ID := c]> (conns channel)) (i64 (numSubs channel + 1))).

Definition UnSubscribe (key : bytes) (ID : bytes) : M ChanMap unit :=
  channelTmp ← chan_Get key;
  match channelTmp with
  | None => mret tt
  | Some channel =>
      let n := i64 (numSubs channel - 1) in
      chan_put key (mkChan (delete ID (conns channel)) n) ;;
      if n =? 0 then zoom item_l (ConcurrentMap.Delete key) ;; mret tt else mret tt
  end.

Definition message (key val : bytes) : bytes :=
  ToBytes (MakeArrayData [MakeBulkData (Slice (bs "message") []); MakeBulkData (Slice key []);
                          MakeBulkData (Slice val [])]).

Section runtime.
Context {rt : GoRuntime}.

(** The loop of Send over the connections, in the runtime's order: a failed
    write closes the connection and removes it. *)
Definition send_one (alive : conn -> bool) (msg : bytes) (ch : Chan) (out : list (conn * bytes)) (k : bytes) :
    Chan * list (conn * bytes) :=
  match conns ch !! k with
  | None => (ch, out)
  | Some c =>
      if alive c then (ch, out ++ [(c, msg)])
      else (mkChan (delete k (conns ch)) (i64 (numSubs ch - 1)), out)
  end.

Definition Send (alive : conn -> bool) (key val : bytes) : M ChanMap Z :=
  channelTmp ← chan_Get key;
  match channelTmp with
  | None => mret 0
  | Some channel =>
      n ← gets visits;
      out ← gets delivered;
      let '(channel', out') :=
        fold_left (fun '(ch, out) k => send_one alive (message key val) ch out k)
                  (range_order n (dom (conns channel))) (channel, out) in
      modify (fun m => mkChanMap (item m) out' (S n)) ;;
      chan_put key channel' ;;
      mret (numSubs channel')
  end.

(** The commands; [IDs] are the identifiers the subscriptions get. *)
Definition subscribe (cmd : list slice) (IDs : list bytes) (c : conn) : M ChanMap RedisData :=
  if zlen cmd <? 2 then mret (MakeWrongNumberArgs (bs "subscribe"))
  else
    let keys := map str (drop 1 cmd) in
    forM (zip keys IDs) (fun '(key, ID) => Subscribe key ID c) ;;
    mret (MakeArrayData (concat (map (fun key =>
      [MakeBulkData (of_string (bs "subscribe")); MakeBulkData (of_string key); MakeIntData 1]) keys))).

Definition publish (alive : conn -> bool) (cmd : list slice) : M ChanMap RedisData :=
  match cmd with
  | [_; key; val] => numSubs ← Send alive (str key) (str val); mret (MakeIntData numSubs)
  | _ => mret (MakeWrongNumberArgs (bs "publish"))
  end.
End runtime.

(* ===================================================================== *)
(** ** The operations on the abstract map of channels                    *)
(* ===================================================================== *)

Definition chans (m : ChanMap) : gmap bytes Chan := to_map (item m).

Lemma filter_ext_in {A} (P Q : A -> Prop) `{!forall x, Decision (P x), !forall x, Decision (Q x)} (l : list A) :
  (forall x, x ∈ l -> P x <-> Q x) -> filter P l = filter Q l.
Proof.
  induction l as [|x l IH]; intros HPQ; [done|]. rewrite !filter_cons, IH by (intros; apply HPQ; by right).
  specialize (HPQ x (list_elem_of_here _ _)). repeat case_decide; naive_solver.
Qed.

Section rules.
Context {rt : GoRuntime} (pn : bool).
Implicit Types (key ID : bytes) (m : ChanMap) (c : conn).

Lemma wp_chan_Get key m (Q : option Chan -> ChanMap -> Prop) :
  WF (item m) -> Q (chans m !! key) m -> wp pn (chan_Get key) Q m.
Proof. intros HW HQ. apply wp_zoom, wp_Get; [done|]. by destruct m. Qed.

Lemma wp_chan_put key ch m (Q : unit -> ChanMap -> Prop) :
  WF (item m) -> is_Some (chans m !! key) ->
  (forall m', WF (item m') -> chans m' = <[key := ch]> (chans m) -> delivered m' = delivered m -> Q tt m') ->
  wp pn (chan_put key ch) Q m.
Proof.
  intros HW [x Hk] HQ. apply wp_bind, wp_zoom, wp_SetIfExist; [done| |].
  - intros d v' _ HWd E. apply wp_ret. by apply HQ.
  - unfold chans in Hk. cbn [view item_l]. congruence.
Qed.

Lemma wp_Subscribe key ID c m (Q : unit -> ChanMap -> Prop) :
  WF (item m) ->
  (forall m', WF (item m') -> delivered m' = delivered m ->
     (let ch := default (mkChan ∅ 0) (chans m !! key) in
      chans m' = <[key := mkChan (<[ID := c]> (conns ch)) (i64 (numSubs ch + 1))]> (chans m)) -> Q tt m') ->
  wp pn (Subscribe key ID c) Q m.
Proof.
  intros HW HQ. apply wp_bind, wp_chan_Get; [done|]. apply wp_bind.
  destruct (chans m !! key) as [ch|] eqn:E.
  - apply wp_ret, wp_chan_put; [done|by rewrite E|]. intros m' HW' E' Ed. by apply HQ.
  - apply wp_bind, wp_bind, wp_chan_Get; [done|]. rewrite E. cbv zeta.
    apply wp_bind, wp_zoom, wp_map_Set; [done|]. intros d HWd Ed.
    apply wp_ret, wp_ret, wp_chan_put; [done| |].
    + unfold chans. cbn. rewrite Ed. by rewrite lookup_insert_eq.
    + intros m' HW' E' Edl. apply HQ; [done|done|]. rewrite E'. unfold chans. cbn [put item_l item]. rewrite Ed.
      by rewrite insert_insert_eq.
Qed.

Lemma wp_UnSubscribe key ID ch m (Q : unit -> ChanMap -> Prop) :
  WF (item m) -> chans m !! key = Some ch ->
  (forall m', WF (item m') -> delivered m' = delivered m ->
     chans m' = (if i64 (numSubs ch - 1) =? 0 then delete key (chans m)
                 else <[key := mkChan (delete ID (conns ch)) (i64 (numSubs ch - 1))]> (chans m)) -> Q tt m') ->
  wp pn (UnSubscribe key ID) Q m.
Proof.
  intros HW Hk HQ. apply wp_bind, wp_chan_Get; [done|]. rewrite Hk. cbv zeta.
  apply wp_bind, wp_chan_put; [done|by rewrite Hk|]. intros m' HW' E' Ed.
  destruct (i64 (numSubs ch - 1) =? 0).
  - apply wp_bind, wp_zoom, wp_Delete; [done|]. intros d HWd Ed'. apply wp_ret. apply HQ; [done|done|].
    unfold chans in *. cbn [put item_l item view] in *. by rewrite Ed', E', delete_insert_eq.
  - apply wp_ret. by apply HQ.
Qed.

(** The whole loop of Send: the connections that are gone are dropped and
    counted down, the others each get the message once. *)
Definition drop_dead (alive : conn -> bool) (ch : Chan) : gmap bytes conn :=
  filter (fun '(_, c) => alive c = true) (conns ch).

Lemma send_fold alive msg ks ch out :
  NoDup ks -> Forall (fun k => is_Some (conns ch !! k)) ks ->
  Z.of_nat (length ks) <= numSubs ch <= MaxInt64 ->
  fold_left (fun '(ch, out) k => send_one alive msg ch out k) ks (ch, out) =
  (mkChan (filter (fun '(k, c) => k ∉ ks \/ alive c = true) (conns ch))
          (numSubs ch - Z.of_nat (length (filter (fun k => alive (default 0%nat (conns ch !! k)) = false) ks))),
   out ++ map (fun c => (c, msg)) (filter (fun c => alive c = true) (map (fun k => default 0%nat (conns ch !! k)) ks))).
Proof.
  intros Hn. revert ch out. induction Hn as [|k ks Hk Hn IH]; intros ch out Hs Hz; cbn [fold_left].
  { cbn. rewrite app_nil_r, Z.sub_0_r. destruct ch as [cs n]. cbn. f_equal. f_equal.
    symmetry. apply map_filter_id. intros. left. apply not_elem_of_nil. }
  apply Forall_cons in Hs as [[c Hc] Hs]. cbn [length] in Hz. unfold send_one at 2. rewrite Hc.
  cbn [map filter list_filter]. rewrite Hc. change (default 0%nat (Some c)) with c.
  destruct (alive c) eqn:Ha.
  - rewrite (IH ch) by (done || lia). rewrite !decide_False, decide_True by done. f_equal.
    + f_equal. apply map_filter_ext. intros k' c' Hk'. rewrite not_elem_of_cons.
      destruct (decide (k' = k)) as [->|]; [|naive_solver]. simplify_eq. naive_solver.
    + cbn [map]. by rewrite <- (assoc_L (++)).
  - assert (Hl : forall k', k' ∈ ks -> delete k (conns ch) !! k' = conns ch !! k').
    { intros k' Hk'. apply lookup_delete_ne. intros ->. done. }
    rewrite i64_id by (unfold in_i64, MinInt64, MaxInt64 in *; lia).
    rewrite (IH (mkChan _ _)); cbn [conns numSubs].
    2:{ rewrite Forall_forall in *. intros k' Hk'. rewrite Hl by done. by apply Hs. }
    2:{ lia. }
    rewrite decide_True, decide_False by done. f_equal.
    + f_equal.
      * apply map_eq. intros k'. apply option_eq. intros c'.
        rewrite !map_lookup_filter_Some, lookup_delete_Some, not_elem_of_cons.
        destruct (decide (k' = k)) as [->|]; [|naive_solver]. split; [naive_solver|].
        intros [Hk' [[? _]|?]]; [done|]. simplify_eq. congruence.
      * match goal with |- _ - Z.of_nat ?x = _ - Z.of_nat (length (_ :: ?f)) => replace x with (length f) end.
        { cbn [length]. lia. }
        f_equal. apply filter_ext_in. intros k' Hk'. by rewrite Hl.
    + f_equal. f_equal. f_equal. apply map_ext_in. intros k' Hk'. rewrite Hl; [done|]. by apply list_elem_of_In.
Qed.
End rules.

Section publish.
Context {rt : GoRuntime}.
Implicit Types (cs : gmap bytes conn) (n : nat).

Lemma visited_perm n cs :
  map (fun k => (k, default 0%nat (cs !! k))) (range_order n (dom cs)) ≡ₚ map_to_list cs.
Proof.
  rewrite range_order_perm. induction cs as [|k c cs Hk IH] using map_ind.
  { by rewrite dom_empty_L, elements_empty, map_to_list_empty. }
  rewrite dom_insert_L, elements_union_singleton by (by apply not_elem_of_dom).
  rewrite map_to_list_insert by done. cbn [map]. rewrite lookup_insert_eq.
  constructor. rewrite <- IH. apply reflexive_eq, map_ext_in. intros k' Hk'. f_equal.
  rewrite lookup_insert_ne; [done|]. intros ->.
  apply list_elem_of_In, elem_of_elements, elem_of_dom in Hk'. by rewrite Hk in Hk'; destruct Hk'.
Qed.

(** The connections that are alive, one entry per subscription. *)
Definition live (alive : conn -> bool) (cs : gmap bytes conn) : list conn :=
  filter (fun c => alive c = true) (map_to_list cs).*2.

Lemma filter_split {A} (f : A -> bool) (l : list A) :
  (length (filter (fun x => f x = true) l) + length (filter (fun x => f x = false) l) = length l)%nat.
Proof.
  induction l as [|x l IH]; [done|]. rewrite !filter_cons. destruct (f x) eqn:E; repeat case_decide; try congruence; cbn [length]; lia.
Qed.

Lemma length_live alive cs (ks : list bytes) : map (fun k => (k, default 0%nat (cs !! k))) ks ≡ₚ map_to_list cs ->
  length (filter (fun k => alive (default 0%nat (cs !! k)) = false) ks) = (base.size cs - length (live alive cs))%nat.
Proof.
  intros Hp. assert (Hl : length ks = base.size cs).
  { rewrite <- length_map_to_list, <- Hp. by rewrite length_map. }
  assert (Hsp : (length (filter (fun k => alive (default 0%nat (cs !! k)) = true) ks) +
    length (filter (fun k => alive (default 0%nat (cs !! k)) = false) ks) = length ks)%nat)
    by apply (filter_split (fun k => alive (default 0%nat (cs !! k)))).
  assert (E : length (live alive cs) = length (filter (fun k => alive (default 0%nat (cs !! k)) = true) ks)).
  { unfold live. rewrite <- Hp. clear. induction ks as [|k ks IH]; [done|]. cbn [map fmap list_fmap].
    rewrite !filter_cons. cbn [snd]. case_decide; cbn [length]; by rewrite IH. }
  lia.
Qed.

Lemma wp_Send (pn : bool) alive key val ch m (Q : Z -> ChanMap -> Prop) :
  WF (item m) -> chans m !! key = Some ch -> Z.of_nat (base.size (conns ch)) <= numSubs ch <= MaxInt64 ->
  (forall m' (rcv : list conn), WF (item m') -> rcv ≡ₚ live alive (conns ch) ->
     let n := numSubs ch - Z.of_nat (base.size (conns ch) - length (live alive (conns ch))) in
     chans m' = <[key := mkChan (drop_dead alive ch) n]> (chans m) ->
     delivered m' = delivered m ++ map (fun c => (c, message key val)) rcv -> Q n m') ->
  wp pn (Send alive key val) Q m.
Proof.
  intros HW Hk Hz HQ. apply wp_bind, wp_chan_Get; [done|]. rewrite Hk. do 2 apply wp_bind, wp_gets.
  set (ks := range_order (visits m) (dom (conns ch))).
  pose proof (visited_perm (visits m) (conns ch)) as Hp. fold ks in Hp.
  assert (Hks : forall k, k ∈ ks <-> is_Some (conns ch !! k)).
  { intros k. unfold ks. rewrite range_order_perm, elem_of_elements. apply elem_of_dom. }
  assert (Hlen : length ks = base.size (conns ch)).
  { rewrite <- length_map_to_list, <- Hp. by rewrite length_map. }
  rewrite send_fold.
  2:{ unfold ks. rewrite range_order_perm. apply NoDup_elements. }
  2:{ apply Forall_forall. intros k. apply Hks. }
  2:{ by rewrite Hlen. }
  rewrite (length_live _ _ _ Hp). apply wp_bind, wp_modify, wp_bind, wp_chan_put; [done|by eexists|].
  intros m' HW' E' Ed'. apply wp_ret. eapply HQ; [done| | |exact Ed'].
  - unfold live. rewrite <- Hp. apply reflexive_eq. f_equal. clear. induction ks as [|k ks IH]; [done|].
    cbn. by rewrite IH.
  - rewrite E'. f_equal. f_equal. unfold drop_dead. apply map_filter_ext. intros k c Hc. split; [|by right].
    intros [Hni|?]; [|done]. destruct Hni. apply Hks. by eexists.
Qed.

(** PUBLISH on a channel whose counter is right replies with the number of
    its subscriptions whose connection still takes the message; each of these
    gets the message once, and the others are dropped from the channel. *)
Theorem publish_spec (alive : conn -> bool) (m : ChanMap) (c key val : slice) (ch : Chan)
  (Hm : WF (item m)) (Hk : chans m !! str key = Some ch) (Hn : numSubs ch = Z.of_nat (base.size (conns ch)))
  (Hb : numSubs ch <= MaxInt64) :
  exists m' rcv, publish alive [c; key; val] m = Ret (MakeIntData (Z.of_nat (length rcv)), m') /\
    rcv ≡ₚ live alive (conns ch) /\
    delivered m' = delivered m ++ map (fun c => (c, message (str key) (str val))) rcv /\
    chans m' = <[str key := mkChan (drop_dead alive ch) (Z.of_nat (length rcv))]> (chans m).
Proof.
  destruct (wp_run (publish alive [c; key; val]) (fun r m' => exists rcv, r = MakeIntData (Z.of_nat (length rcv)) /\
    rcv ≡ₚ live alive (conns ch) /\
    delivered m' = delivered m ++ map (fun c => (c, message (str key) (str val))) rcv /\
    chans m' = <[str key := mkChan (drop_dead alive ch) (Z.of_nat (length rcv))]> (chans m)) m)
    as (r & m' & E & rcv & -> & H); [|by exists m', rcv].
  unfold publish. apply wp_bind. eapply wp_Send; [done|done|lia|]. cbv zeta. intros m' rcv HW' Hcs Ec Ed.
  apply wp_ret. exists rcv. assert (Hle : (length rcv <= base.size (conns ch))%nat).
  { rewrite Hcs. unfold live. rewrite <- length_map_to_list, <- (length_fmap snd). apply length_filter. }
  rewrite Hcs in Hle.
  assert (En : numSubs ch - Z.of_nat (base.size (conns ch) - length (live alive (conns ch))) = Z.of_nat (length rcv)).
  { rewrite (Permutation_length Hcs). lia. }
  rewrite En in Ec. rewrite En. done.
Qed.

(** a subscriber that did nothing wrong is lost. If a message cannot be
    written to one subscriber, [Send] drops it and counts it down; when its
    connection's context ends, [UnSubscribe] counts it down a second time, the
    counter reaches 0 with the other subscriber still there, and the channel is
    deleted: the next message reaches nobody. *)
Theorem lost_subscriber (alive : conn -> bool) (shards : Z) (key a b v1 v2 : bytes) (ca cb : conn)
  (Hab : a <> b) (Ha : alive ca = false) (Hb : alive cb = true) :
  exists m', (Subscribe key a ca ;; Subscribe key b cb ;;
              r1 ← Send alive key v1; UnSubscribe key a ;; r2 ← Send alive key v2; mret (r1, r2))
             (NewChanMap shards) = Ret ((1, 0), m') /\
    delivered m' = [(cb, message key v1)].
Proof.
  apply wp_returns. destruct (WF_New (V := Chan) shards) as [W0 E0].
  apply wp_bind, wp_Subscribe; [done|]. intros m1 W1 D1 E1. cbv zeta in E1. unfold chans in E1 at 2 3.
  cbn [NewChanMap item] in E1. rewrite E0, lookup_empty in E1.
  change (default (mkChan ∅ 0) None) with (mkChan ∅ 0) in E1. cbn [conns numSubs] in E1.
  apply wp_bind, wp_Subscribe; [done|]. intros m2 W2 D2 E2. cbv zeta in E2. rewrite E1 in E2.
  rewrite lookup_insert_eq, insert_insert_eq in E2.
  change (default (mkChan ∅ 0) (Some ?x)) with x in E2. cbn [conns numSubs] in E2.
  change (i64 (i64 (0 + 1) + 1)) with 2 in E2. set (cs := <[b := cb]> (<[a := ca]> ∅) : gmap bytes conn) in *.
  assert (Hlive : live alive cs ≡ₚ [cb]).
  { unfold live, cs. rewrite map_to_list_insert by (by rewrite lookup_insert_ne).
    rewrite map_to_list_insert by done. rewrite map_to_list_empty. cbn [fmap list_fmap snd].
    rewrite !filter_cons. rewrite decide_True, decide_False by congruence. done. }
  assert (Hsz : base.size cs = 2%nat).
  { unfold cs. rewrite !map_size_insert_None, map_size_empty by (done || by rewrite lookup_insert_ne). done. }
  apply wp_bind. eapply (wp_Send _ _ _ _ (mkChan cs 2)); [done|by rewrite E2, lookup_insert_eq| |].
  { cbn [conns numSubs]. rewrite Hsz. unfold MaxInt64. lia. }
  cbn [conns numSubs]. rewrite Hsz, (Permutation_length Hlive). intros m3 rcv W3 Hr. cbv zeta. intros E3 D3.
  rewrite Hlive in Hr. apply Permutation_singleton_r in Hr as ->. change (2 - Z.of_nat (2 - length [cb])) with 1 in *.
  apply wp_bind. eapply wp_UnSubscribe; [done|by rewrite E3, lookup_insert_eq|]. cbn [numSubs conns].
  change (i64 (1 - 1) =? 0) with true. cbv iota. intros m4 W4 D4 E4.
  apply wp_bind, wp_bind, wp_chan_Get; [done|]. rewrite E4, lookup_delete_eq. apply wp_ret, wp_ret.
  split; [done|]. rewrite D4, D3, D2, D1. done.
Qed.
End publish.

(* ===================================================================== *)
(** ** Instances of the theorems                                         *)
(* ===================================================================== *)

#[local] Existing Instance plain_runtime.

Definition demo_alive : conn -> bool := Nat.even.

(** Two subscriptions to "c", one of them on a dead connection. *)
Definition demo_chans : ChanMap :=
  match (Subscribe (bs "c") (bs "1") 1%nat ;; Subscribe (bs "c") (bs "2") 2%nat) (NewChanMap 4) with
  | Ret (_, m) => m
  | _ => NewChanMap 4
  end.

Definition demo_chan : Chan := mkChan (<[bs "1" := 1%nat]> {[bs "2" := 2%nat]}) 2.

Lemma demo_chans_WF : WF (item demo_chans).
Proof.
  destruct (wp_run (Subscribe (bs "c") (bs "1") 1%nat ;; Subscribe (bs "c") (bs "2") 2%nat)
    (fun _ m => WF (item m)) (NewChanMap 4)) as (r & m & E & H).
  - apply wp_bind, wp_Subscribe; [apply WF_New|]. intros m1 W1 _ _. by apply wp_Subscribe.
  - unfold demo_chans. by rewrite E.
Qed.

Lemma publish_spec_witness :
  exists m' rcv, publish demo_alive [Slice (bs "publish") []; Slice (bs "c") []; Slice (bs "hi") []] demo_chans =
      Ret (MakeIntData (Z.of_nat (length rcv)), m') /\
    rcv ≡ₚ live demo_alive (conns demo_chan) /\
    delivered m' = delivered demo_chans ++ map (fun c => (c, message (bs "c") (bs "hi"))) rcv /\
    chans m' = <[bs "c" := mkChan (drop_dead demo_alive demo_chan) (Z.of_nat (length rcv))]> (chans demo_chans).
Proof.
  apply (@publish_spec plain_runtime demo_alive demo_chans (Slice (bs "publish") []) (Slice (bs "c") []) (Slice (bs "hi") [])
           demo_chan).
  - apply demo_chans_WF.
  - vm_compute. reflexivity.
  - vm_compute. reflexivity.
  - vm_compute. discriminate.
Defined.

Lemma lost_subscriber_witness :
  exists m', (Subscribe (bs "c") (bs "1") 1%nat ;; Subscribe (bs "c") (bs "2") 2%nat ;;
              r1 ← Send demo_alive (bs "c") (bs "x"); UnSubscribe (bs "c") (bs "1") ;;
              r2 ← Send demo_alive (bs "c") (bs "y"); mret (r1, r2))
             (NewChanMap 4) = Ret ((1, 0), m') /\
    delivered m' = [(2%nat, message (bs "c") (bs "x"))].
Proof.
  apply (@lost_subscriber plain_runtime demo_alive 4 (bs "c") (bs "1") (bs "2") (bs "x") (bs "y") 1%nat 2%nat).
  - discriminate.
  - reflexivity.
  - reflexivity.
Defined.
