(* ===== verification/Quorum.v ===== *)
(** * Quorum: majority and joint quorums (src/etcd/raft/quorum)

    A [MajorityConfig] is a set of voter IDs, a [JointConfig] two of them. An
    [AckedIndexer] gives the index a voter has acknowledged, if any. Loops over
    a Go map take the runtime's iteration counter [k]; the theorems show that
    the results do not depend on it. [Describe] and [String] only print. *)

From S2P Require Import Prelude.

Abbreviation MajorityConfig := (gset Z).

Record JointConfig : Type := mkJoint { incoming : MajorityConfig; outgoing : MajorityConfig }.

Abbreviation AckedIndexer := (Z -> option Z).

Inductive VoteResult : Type := VotePending | VoteLost | VoteWon.

#[export] Instance VoteResult_eq_dec : EqDecision VoteResult.
Proof. solve_decision. Defined.

(* ===================================================================== *)
(** ** Definitions                                                       *)
(* ===================================================================== *)

(** The inner loop of [insertionSort]: the element at [j] moves left while it
    is smaller than its neighbour. *)
Fixpoint sink (j : nat) (sl : list Z) : outcome (list Z) :=
  match j with
  | O => Ret sl
  | S j' =>
      match sl !! j, sl !! j' with
      | Some x, Some y => if x <? y then sink j' (<[j' := x]> (<[j := y]> sl)) else Ret sl
      | _, _ => Panic
      end
  end.

Fixpoint sort_from (js : list nat) (sl : list Z) : outcome (list Z) :=
  match js with
  | [] => Ret sl
  | i :: js' =>
      match sink i sl with
      | Ret sl' => sort_from js' sl'
      | Panic => Panic
      | Block => Block
      end
  end.

Definition insertionSort (sl : list Z) : outcome (list Z) := sort_from (seq 1 (length sl - 1)) sl.

(** The acknowledged indexes, filled in from the right. *)
Fixpoint fill (l : AckedIndexer) (ids : list Z) (i : Z) (srt : list Z) : outcome (list Z) :=
  match ids with
  | [] => Ret srt
  | id :: ids' =>
      match l id with
      | Some idx =>
          if (0 <=? i) && (i <? zlen srt) then fill l ids' (i - 1) (<[Z.to_nat i := idx]> srt) else Panic
      | None => fill l ids' i srt
      end
  end.

Section quorum.
Context {rt : GoRuntime}.

Definition CommittedIndex (k : nat) (c : MajorityConfig) (l : AckedIndexer) : outcome Z :=
  let n := Z.of_nat (size c) in
  if n =? 0 then Ret MaxUint64
  else
    match fill l (range_ids k c) (n - 1) (replicate (size c) 0) with
    | Ret srt =>
        match insertionSort srt with
        | Ret srt' =>
            let pos := n - (n / 2 + 1) in
            match srt' !! Z.to_nat pos with Some x => Ret x | None => Panic end
        | Panic => Panic
        | Block => Block
        end
    | Panic => Panic
    | Block => Block
    end.

(** [votedCnt] and [missing]. *)
Definition tally (votes : gmap Z bool) (ids : list Z) : Z * Z :=
  fold_left (fun '(votedCnt, missing) id =>
    match votes !! id with
    | None => (votedCnt, missing + 1)
    | Some v => (if v : bool then votedCnt + 1 else votedCnt, missing)
    end) ids (0, 0).

Definition majority_VoteResult (k : nat) (c : MajorityConfig) (votes : gmap Z bool) : VoteResult :=
  if Z.of_nat (size c) =? 0 then VoteWon
  else
    let '(votedCnt, missing) := tally votes (range_ids k c) in
    let q := Z.of_nat (size c) / 2 + 1 in
    if q <=? votedCnt then VoteWon
    else if q <=? votedCnt + missing then VotePending
    else VoteLost.

Definition IDs (c : JointConfig) : gset Z := incoming c ∪ outgoing c.

Definition joint_CommittedIndex (k : nat) (c : JointConfig) (l : AckedIndexer) : outcome Z :=
  match CommittedIndex k (incoming c) l with
  | Ret idx0 =>
      match CommittedIndex (S k) (outgoing c) l with
      | Ret idx1 => Ret (if idx0 <? idx1 then idx0 else idx1)
      | Panic => Panic
      | Block => Block
      end
  | Panic => Panic
  | Block => Block
  end.

Definition joint_VoteResult (k : nat) (c : JointConfig) (votes : gmap Z bool) : VoteResult :=
  let r1 := majority_VoteResult k (incoming c) votes in
  let r2 := majority_VoteResult (S k) (outgoing c) votes in
  if bool_decide (r1 = r2) then r1
  else if bool_decide (r1 = VoteLost) || bool_decide (r2 = VoteLost) then VoteLost
  else VotePending.
End quorum.

(* ===================================================================== *)
(** ** Sorting                                                           *)
(* ===================================================================== *)

Lemma swap_perm (l1 l2 : list Z) x y :
  l1 ++ y :: x :: l2 ≡ₚ l1 ++ x :: y :: l2.
Proof. by rewrite (Permutation_swap x y). Qed.

(** An element after a sorted prefix sinks to its place in it. *)
Lemma sink_spec pre x rest : StronglySorted Z.le pre ->
  exists pre', sink (length pre) (pre ++ x :: rest) = Ret (pre' ++ rest) /\
    StronglySorted Z.le pre' /\ pre' ≡ₚ x :: pre.
Proof.
  revert x rest. induction pre as [|y pre IH] using rev_ind; intros x rest Hs.
  { exists [x]. split; [done|]. split; [by repeat constructor|done]. }
  rewrite length_app. cbn [length]. rewrite Nat.add_1_r. cbn [sink].
  apply StronglySorted_app in Hs as (Hle & Hs & _).
  rewrite <- app_assoc. cbn [app].
  rewrite lookup_app_r by lia. replace (S (length pre) - length pre)%nat with 1%nat by lia.
  rewrite lookup_app_r by lia. rewrite Nat.sub_diag. cbn [lookup list_lookup].
  destruct (Z.ltb_spec x y) as [H|H].
  - rewrite insert_app_r_alt by lia. replace (S (length pre) - length pre)%nat with 1%nat by lia.
    cbn [insert list_insert]. rewrite insert_app_r_alt by lia. rewrite Nat.sub_diag. cbn [insert list_insert].
    destruct (IH x (y :: rest) Hs) as (pre' & E & Hs' & Hp). exists (pre' ++ [y]). rewrite E, <- app_assoc. split; [done|].
    split; [|by rewrite Hp, (Permutation_app_comm _ [y]), (Permutation_app_comm pre [y]); cbn; apply Permutation_swap].
    apply StronglySorted_app. split; [|split; [done|by repeat constructor]].
    intros a b Ha ->%list_elem_of_singleton. rewrite Hp, elem_of_cons in Ha. destruct Ha as [->|Ha]; [lia|].
    apply Hle; [done|by left].
  - exists ((pre ++ [y]) ++ [x]). rewrite <- !app_assoc. split; [done|]. split.
    + apply StronglySorted_app. split; [|split; [done|]].
      * intros a b Ha Hb. apply elem_of_cons in Hb as [->| ->%list_elem_of_singleton].
        -- apply Hle; [done|by left].
        -- specialize (Hle a y Ha (list_elem_of_here _ _)). lia.
      * constructor; [by repeat constructor|]. by repeat constructor.
    + rewrite (assoc_L (++)), (Permutation_app_comm _ [x]). done.
Qed.

Lemma sort_from_spec pre rest : StronglySorted Z.le pre ->
  exists sl', sort_from (seq (length pre) (length rest)) (pre ++ rest) = Ret sl' /\
    StronglySorted Z.le sl' /\ sl' ≡ₚ pre ++ rest.
Proof.
  revert pre. induction rest as [|x rest IH]; intros pre Hs; cbn [length seq sort_from].
  { exists pre. by rewrite app_nil_r. }
  destruct (sink_spec pre x rest Hs) as (pre' & E & Hs' & Hp). rewrite E.
  destruct (IH pre' Hs') as (sl' & E' & Hs'' & Hp'). exists sl'.
  rewrite (Permutation_length Hp) in E'. cbn [length] in E'. rewrite E'. split; [done|]. split; [done|].
  rewrite Hp', Hp. cbn. by rewrite Permutation_middle.
Qed.

Lemma insertionSort_spec sl : exists sl', insertionSort sl = Ret sl' /\ StronglySorted Z.le sl' /\ sl' ≡ₚ sl.
Proof.
  destruct sl as [|x sl]; [exists []; by repeat constructor|]. unfold insertionSort. cbn [length]. rewrite Nat.sub_succ, Nat.sub_0_r.
  apply (sort_from_spec [x] sl). by repeat constructor.
Qed.

(* ===================================================================== *)
(** ** Committed indexes                                                 *)
(* ===================================================================== *)

(** What a voter counts for. *)
Definition acked (l : AckedIndexer) (id : Z) : Z := default 0 (l id).

Lemma fill_spec l ids z tail : (length (omap l ids) <= z)%nat ->
  exists srt, fill l ids (Z.of_nat z - 1) (replicate z 0 ++ tail) = Ret srt /\
    srt ≡ₚ replicate (z - length (omap l ids)) 0 ++ omap l ids ++ tail.
Proof.
  revert z tail. induction ids as [|id ids IH]; intros z tail Hz; cbn [fill omap list_omap length] in *.
  { rewrite Nat.sub_0_r. by eexists. }
  destruct (l id) as [idx|] eqn:E; cbn [length] in *; [|by apply IH].
  destruct z as [|z]; [lia|]. rewrite zlen_app. unfold zlen at 1. rewrite length_replicate.
  pose proof (zlen_nonneg tail). zb. cbn [andb].
  assert (Eins : <[Z.to_nat (Z.of_nat (S z) - 1) := idx]> (replicate (S z) 0 ++ tail) = replicate z 0 ++ idx :: tail).
  { replace (Z.to_nat (Z.of_nat (S z) - 1)) with z by lia. rewrite replicate_S_end, <- app_assoc.
    rewrite insert_app_r_alt by (rewrite length_replicate; lia). by rewrite length_replicate, Nat.sub_diag. }
  rewrite Eins. replace (Z.of_nat (S z) - 1 - 1) with (Z.of_nat z - 1) by lia.
  destruct (IH z (idx :: tail)) as (srt & E' & Hp); [lia|]. exists srt. split; [done|].
  rewrite Hp. cbn. by rewrite <- Permutation_middle.
Qed.

Lemma length_omap_le {A B} (f : A -> option B) (l : list A) : (length (omap f l) <= length l)%nat.
Proof. induction l as [|x l IH]; cbn; [done|]. destruct (f x); cbn; lia. Qed.

Lemma acked_perm l ids :
  replicate (length ids - length (omap l ids)) 0 ++ omap l ids ≡ₚ map (acked l) ids.
Proof.
  induction ids as [|id ids IH]; [done|]. cbn. unfold acked at 1. destruct (l id) as [idx|]; cbn.
  - by rewrite <- Permutation_middle, IH.
  - rewrite Nat.sub_succ_l by apply length_omap_le. cbn. by rewrite IH.
Qed.

(** In a sorted list the number of elements from [x] on tells where [x] is. *)
Lemma sorted_count (s : list Z) pos v x : StronglySorted Z.le s -> s !! pos = Some v ->
  (length s - pos <= length (filter (fun y => (x <= y)%Z) s))%nat <-> x <= v.
Proof.
  intros Hs Hv. rewrite <- (take_drop_middle s pos v Hv) in Hs |- *.
  apply lookup_lt_Some in Hv as Hlt. apply StronglySorted_app in Hs as (Hle & _ & Hs).
  apply StronglySorted_inv in Hs as [_ Hge]. rewrite Forall_forall in Hge.
  rewrite filter_app, !length_app, filter_cons. cbn [length]. rewrite length_take, length_drop.
  replace (_ - pos)%nat with (S (length s - S pos)) by lia. split.
  - intros H. apply Z.nlt_ge. intros Hx. rewrite decide_False in H by lia.
    assert (filter (fun y => x <= y) (take pos s) = []) as E.
    { apply list_filter_none. intros y Hy. specialize (Hle y v Hy (list_elem_of_here _ _)). lia. }
    rewrite E in H. cbn [length] in H. pose proof (length_filter (fun y => x <= y) (drop (S pos) s)).
    rewrite length_drop in *. lia.
  - intros H. rewrite decide_True by done. cbn [length].
    assert (filter (fun y => x <= y) (drop (S pos) s) = drop (S pos) s) as ->.
    { apply list_filter_keep. intros y Hy. specialize (Hge y Hy). lia. }
    rewrite length_drop. lia.
Qed.

(** [S] contains a majority of [c]; everything does for the empty config. *)
Definition majority (c S : gset Z) : Prop := c = ∅ \/ Z.of_nat (size c) / 2 + 1 <= Z.of_nat (size (c ∩ S)).

(** [S] contains majorities of both halves. *)
Definition joint_quorum (c : JointConfig) (S : gset Z) : Prop := majority (incoming c) S /\ majority (outgoing c) S.

#[export] Instance majority_dec c S : Decision (majority c S).
Proof. unfold majority. apply _. Defined.

Lemma size_filter_ids {rt : GoRuntime} (P : Z -> Prop) `{!forall x, Decision (P x)} k (c : gset Z) :
  length (filter P (range_ids k c)) = size (filter P c).
Proof.
  rewrite (range_ids_perm k c). transitivity (size (list_to_set (filter P (elements c)) : gset Z)).
  - symmetry. apply size_list_to_set, NoDup_filter, NoDup_elements.
  - done.
Qed.

Lemma length_filter_map {A B} (f : A -> B) (P : B -> Prop) `{!forall x, Decision (P x)} (l : list A) :
  length (filter P (map f l)) = length (filter (fun x => P (f x)) l).
Proof. induction l as [|x l IH]; [done|]. cbn [map]. rewrite !filter_cons. destruct (decide (P (f x))); cbn [length]; lia. Qed.

Section committed.
Context {rt : GoRuntime}.

(** The committed index is the largest one a majority has acknowledged. *)
Lemma CommittedIndex_spec k c l : c <> ∅ -> exists i, CommittedIndex k c l = Ret i /\
  forall x, Z.of_nat (size c) / 2 + 1 <= Z.of_nat (size (filter (fun id => x <= acked l id) c)) <-> x <= i.
Proof.
  intros Hc. unfold CommittedIndex. cbv zeta.
  assert (Hn : (size c <> 0)%nat) by by intros ?%size_empty_inv%leibniz_equiv. zb.
  assert (Hlen : length (range_ids k c) = size c) by (by rewrite (range_ids_perm k c)).
  assert (Hle : (length (omap l (range_ids k c)) <= size c)%nat) by (rewrite <- Hlen; apply length_omap_le).
  destruct (fill_spec l (range_ids k c) (size c) [] Hle) as (srt & E & Hp). rewrite app_nil_r in E. rewrite E.
  rewrite app_nil_r, <- Hlen, acked_perm in Hp.
  destruct (insertionSort_spec srt) as (srt' & -> & Hs & Hp').
  assert (Hlen' : length srt' = size c) by by rewrite Hp', Hp, length_map.
  pose proof (Z.div_mod (Z.of_nat (size c)) 2). pose proof (Z.mod_pos_bound (Z.of_nat (size c)) 2).
  set (pos := Z.to_nat (Z.of_nat (size c) - (Z.of_nat (size c) / 2 + 1))).
  destruct (lookup_lt_is_Some_2 srt' pos) as [v Hv]; [lia|]. rewrite Hv. exists v. split; [done|]. intros x.
  rewrite <- (sorted_count srt' pos v x Hs Hv), Hlen', Hp', Hp, length_filter_map, size_filter_ids. lia.
Qed.

Lemma filter_acked (c S : gset Z) (P : Z -> Prop) `{!forall x, Decision (P x)} :
  c ⊆ S -> c ∩ filter P S = filter P c.
Proof. intros HS. apply set_eq. intros x. rewrite elem_of_intersection, !elem_of_filter. set_solver. Qed.

Lemma CommittedIndex_majority k (c S : gset Z) l : c ⊆ S -> exists i, CommittedIndex k c l = Ret i /\
  forall x, x <= MaxUint64 -> x <= i <-> majority c (filter (fun id => x <= acked l id) S).
Proof.
  intros HcS. unfold majority. destruct (decide (c = ∅)) as [->|Hc].
  - exists MaxUint64. split; [done|]. intros x Hx. split; [by left|done].
  - destruct (CommittedIndex_spec k c l Hc) as (i & E & Hi). exists i. split; [done|]. intros x _.
    rewrite filter_acked by done. rewrite <- Hi. split; [by right|by intros [|]].
Qed.
End committed.

(** Two majorities of the same config have a member in common. *)
Lemma majority_meet c S1 S2 : c <> ∅ -> majority c S1 -> majority c S2 -> exists id, id ∈ c /\ id ∈ S1 /\ id ∈ S2.
Proof.
  intros Hc [?|H1] [?|H2]; try done. destruct (decide ((c ∩ S1) ∩ (c ∩ S2) = ∅)) as [E|E].
  - exfalso. assert (Hu : size (c ∩ S1 ∪ c ∩ S2) = (size (c ∩ S1) + size (c ∩ S2))%nat) by (apply size_union; set_solver).
    assert (Hs : (size (c ∩ S1 ∪ c ∩ S2) <= size c)%nat) by (apply subseteq_size; set_solver).
    pose proof (Z.div_mod (Z.of_nat (size c)) 2). pose proof (Z.mod_pos_bound (Z.of_nat (size c)) 2). lia.
  - apply set_choose_L in E as [id Hid]. exists id. set_solver.
Qed.

(* ===================================================================== *)
(** ** Votes                                                             *)
(* ===================================================================== *)

(** Who has voted yes, and who has voted no. *)
Definition yes (votes : gmap Z bool) : gset Z := dom (filter (fun '(_, v) => v = true) votes).
Definition no (votes : gmap Z bool) : gset Z := dom (filter (fun '(_, v) => v = false) votes).

Lemma elem_of_yes votes id : id ∈ yes votes <-> votes !! id = Some true.
Proof.
  unfold yes. rewrite elem_of_dom. split.
  - intros [v Hv]. apply map_lookup_filter_Some in Hv as [Hv ->]. done.
  - intros H. exists true. by apply map_lookup_filter_Some.
Qed.

Lemma elem_of_no votes id : id ∈ no votes <-> votes !! id = Some false.
Proof.
  unfold no. rewrite elem_of_dom. split.
  - intros [v Hv]. apply map_lookup_filter_Some in Hv as [Hv ->]. done.
  - intros H. exists false. by apply map_lookup_filter_Some.
Qed.

Lemma tally_spec votes ids : tally votes ids =
  (Z.of_nat (length (filter (fun id => votes !! id = Some true) ids)),
   Z.of_nat (length (filter (fun id => votes !! id = None) ids))).
Proof.
  unfold tally. cut (forall a b, fold_left (fun '(votedCnt, missing) id =>
    match votes !! id with
    | None => (votedCnt, missing + 1)
    | Some v => (if v : bool then votedCnt + 1 else votedCnt, missing)
    end) ids (a, b) = (a + Z.of_nat (length (filter (fun id => votes !! id = Some true) ids)),
                       b + Z.of_nat (length (filter (fun id => votes !! id = None) ids)))); [by intros ->|].
  induction ids as [|id ids IH]; intros a b; cbn [fold_left]; [f_equal; cbn; lia|]. rewrite !filter_cons.
  destruct (votes !! id) as [[]|]; rewrite IH;
    rewrite ?(decide_True (P := Some true = Some true)), ?(decide_True (P := @None bool = None)), ?decide_False by done;
    cbn [length]; f_equal; lia.
Qed.

Section votes.
Context {rt : GoRuntime}.

(** The result of a vote: won by a majority, lost if not even all the missing
    votes make one. *)
Lemma VoteResult_spec k c votes : majority_VoteResult k c votes =
  if decide (majority c (yes votes)) then VoteWon
  else if decide (majority c (c ∖ no votes)) then VotePending else VoteLost.
Proof.
  unfold majority_VoteResult. destruct (Z.eqb_spec (Z.of_nat (size c)) 0) as [H0|H0].
  { rewrite decide_True; [done|]. left. apply leibniz_equiv, size_empty_inv. lia. }
  assert (Hc : c <> ∅) by (intros ->; by rewrite size_empty in H0).
  rewrite tally_spec, !size_filter_ids.
  assert (Ey : size (filter (fun id => votes !! id = Some true) c) = size (c ∩ yes votes)).
  { f_equal. apply set_eq. intros x. rewrite elem_of_filter, elem_of_intersection, elem_of_yes. tauto. }
  assert (En : (size (filter (fun id => votes !! id = Some true) c) + size (filter (fun id => votes !! id = None) c))%nat =
    size (c ∩ (c ∖ no votes))).
  { rewrite <- size_union by (intros x; rewrite !elem_of_filter; intros [H1 _] [H2 _]; congruence). f_equal.
    apply set_eq. intros x. rewrite elem_of_union, !elem_of_filter, elem_of_intersection, elem_of_difference, elem_of_no.
    destruct (votes !! x) as [[]|]; naive_solver. }
  cbv zeta. destruct (Z.leb_spec (Z.of_nat (size c) / 2 + 1) (Z.of_nat (size (filter (fun id => votes !! id = Some true) c)))).
  - rewrite decide_True; [done|right; by rewrite <- Ey].
  - rewrite decide_False by (intros [?|Hy]; [done|rewrite <- Ey in Hy; lia]).
    destruct (Z.leb_spec (Z.of_nat (size c) / 2 + 1) (Z.of_nat (size (filter (fun id => votes !! id = Some true) c)) +
      Z.of_nat (size (filter (fun id => votes !! id = None) c)))).
    + rewrite decide_True; [done|right; rewrite <- En; lia].
    + rewrite decide_False; [done|]. intros [?|Hn]; [done|rewrite <- En in Hn; lia].
Qed.

Lemma majority_mono c S S' : majority c S -> c ∩ S ⊆ S' -> majority c S'.
Proof.
  intros [?|H] Hsub; [by left|right]. assert ((size (c ∩ S) <= size (c ∩ S'))%nat) by (apply subseteq_size; set_solver). lia.
Qed.

Lemma joint_VoteResult_spec k c votes : joint_VoteResult k c votes =
  if decide (joint_quorum c (yes votes)) then VoteWon
  else if decide (joint_quorum c (IDs c ∖ no votes)) then VotePending else VoteLost.
Proof.
  unfold joint_VoteResult, joint_quorum. rewrite !VoteResult_spec. cbv zeta.
  assert (Hno : forall h, h ⊆ IDs c -> majority h (h ∖ no votes) <-> majority h (IDs c ∖ no votes)).
  { intros h Hh. split; intros H; eapply majority_mono; try exact H; set_solver. }
  assert (Hyn : forall h, majority h (yes votes) -> majority h (h ∖ no votes)).
  { intros h H. eapply majority_mono; [exact H|]. intros x. rewrite elem_of_intersection, elem_of_difference, elem_of_yes, elem_of_no.
    intros [Hx Hv]. rewrite Hv. split; [done|congruence]. }
  pose proof (Hno (incoming c) ltac:(unfold IDs; set_solver)) as Hi. pose proof (Hno (outgoing c) ltac:(unfold IDs; set_solver)) as Ho.
  pose proof (Hyn (incoming c)) as Yi. pose proof (Hyn (outgoing c)) as Yo. clear Hno Hyn.
  repeat case_decide; repeat case_bool_decide; try done; cbn [orb]; tauto.
Qed.
End votes.

(* ===================================================================== *)
(** ** The contract of a joint configuration                             *)
(* ===================================================================== *)

Section contract.
Context {rt : GoRuntime}.

(** C17: the committed index of a (joint) configuration is the largest index
    that a majority of each half has acknowledged: exactly the indexes up to it
    are acknowledged by majorities of both halves. The computation, which fills
    an array in map order and sorts it, never fails. *)
Theorem committed_index_spec (k : nat) (c : JointConfig) (l : AckedIndexer) :
  exists i, joint_CommittedIndex k c l = Ret i /\
    forall x, x <= MaxUint64 -> x <= i <-> joint_quorum c (filter (fun id => x <= acked l id) (IDs c)).
Proof.
  destruct (CommittedIndex_majority k (incoming c) (IDs c) l) as (i0 & E0 & H0); [unfold IDs; set_solver|].
  destruct (CommittedIndex_majority (S k) (outgoing c) (IDs c) l) as (i1 & E1 & H1); [unfold IDs; set_solver|].
  exists (if i0 <? i1 then i0 else i1). unfold joint_CommittedIndex. rewrite E0, E1. split; [done|]. intros x Hx.
  unfold joint_quorum. rewrite <- H0, <- H1 by done. destruct (Z.ltb_spec i0 i1); lia.
Qed.


(** elections are safe. Two candidates for whom no voter has voted twice
    cannot both win, in a majority or a joint configuration. *)
Theorem one_winner (k1 k2 : nat) (c : JointConfig) (v1 v2 : gmap Z bool)
  (Hc : incoming c <> ∅) (H1 : joint_VoteResult k1 c v1 = VoteWon) (H2 : joint_VoteResult k2 c v2 = VoteWon) :
  exists id, id ∈ incoming c /\ v1 !! id = Some true /\ v2 !! id = Some true.
Proof.
  assert (Hw : forall k v, joint_VoteResult k c v = VoteWon -> majority (incoming c) (yes v)).
  { intros k v. rewrite joint_VoteResult_spec. destruct (decide (joint_quorum c (yes v))) as [[]|]; [done|].
    by destruct (decide (joint_quorum c (IDs c ∖ no v))). }
  apply Hw in H1, H2.
  destruct (majority_meet (incoming c) (yes v1) (yes v2)) as (id & Hid & Hy1 & Hy2); [done..|].
  exists id. by rewrite <- !elem_of_yes.
Qed.
End contract.

(* ===================================================================== *)
(** ** Instances of the theorems                                         *)
(* ===================================================================== *)

(** Three voters; two have voted for each of two candidates. *)
Definition demo_config : JointConfig := mkJoint {[1; 2; 3]} ∅.
Definition demo_votes1 : gmap Z bool := {[1 := true; 2 := true]}.
Definition demo_votes2 : gmap Z bool := {[1 := false; 2 := true; 3 := true]}.

Lemma one_winner_witness : exists id, id ∈ incoming demo_config /\
  demo_votes1 !! id = Some true /\ demo_votes2 !! id = Some true.
Proof.
  apply (@one_winner plain_runtime 0%nat 1%nat demo_config).
  - discriminate.
  - vm_compute. reflexivity.
  - vm_compute. reflexivity.
Defined.
