(* ===== verification/RaftPb.v ===== *)
(** * RaftPb: the messages of raft, and what a raft log contains

    The structs of src/etcd/raft/raftpb/raft.pb.go that the log and its storage
    use, the protobuf size of an entry, and [limitSize] of
    src/etcd/raft/util.go. Integers are [uint64]s; a [[]byte] that may be nil is
    an [option].

    A [LogView] is the specification of a raft log: the index and term of the
    entry just before it, and the entries, numbered consecutively. *)

From S2P Require Import Prelude.

#[export] Instance outcome_ret : MRet outcome := fun A a => Ret a.
#[export] Instance outcome_bind : MBind outcome := fun A B f o =>
  match o with
  | Ret a => f a
  | Panic => Panic
  | Block => Block
  end.

(** [l[lo:hi]]. *)
Definition zslice {A} (lo hi : Z) (l : list A) : outcome (list A) :=
  if (0 <=? lo) && (lo <=? hi) && (hi <=? zlen l)
  then Ret (take (Z.to_nat (hi - lo)) (drop (Z.to_nat lo) l)) else Panic.

(** [l[i]]. *)
Definition zindex {A} (l : list A) (i : Z) : outcome A :=
  match znth l i with Some a => Ret a | None => Panic end.

(* ===================================================================== *)
(** ** Messages                                                          *)
(* ===================================================================== *)

(** An [int32] that need not be one of the named values. *)
Inductive EntryType : Type :=
| EntryNormal
| EntryConfChange
| EntryConfChangeV2
| EntryTypeUnknown (n : Z).

Record Entry : Type := mkEntry {
  eTerm : Z;
  eIndex : Z;
  eType : EntryType;
  eData : option bytes
}.

(** [pb.Entry{}]. *)
Definition zero_entry : Entry := mkEntry 0 0 EntryNormal None.

Record ConfState : Type := mkConfState {
  csVoters : list Z;
  csLearners : list Z;
  csVotersOutgoing : list Z;
  csLearnersNext : list Z;
  csAutoLeave : bool
}.

Definition zero_ConfState : ConfState := mkConfState [] [] [] [] false.

Record SnapshotMetadata : Type := mkMetadata {
  mConfState : ConfState;
  mIndex : Z;
  mTerm : Z
}.

Record Snapshot : Type := mkSnapshot { sData : option bytes; sMetadata : SnapshotMetadata }.

Definition zero_Snapshot : Snapshot := mkSnapshot None (mkMetadata zero_ConfState 0 0).

Abbreviation sIndex s := (mIndex (sMetadata s)).
Abbreviation sTerm s := (mTerm (sMetadata s)).

Record HardState : Type := mkHardState { hTerm : Z; hVote : Z; hCommit : Z }.

Definition zero_HardState : HardState := mkHardState 0 0 0.

(** The order is that of the values 0 to 18. *)
Inductive MessageType : Type :=
| MsgHup | MsgBeat | MsgProp | MsgApp | MsgAppResp
| MsgVote | MsgVoteResp | MsgSnap | MsgHeartbeat | MsgHeartbeatResp
| MsgUnreachable | MsgSnapStatus | MsgCheckQuorum | MsgTransferLeader | MsgTimeoutNow
| MsgReadIndex | MsgReadIndexResp | MsgPreVote | MsgPreVoteResp
| MsgUnknown (n : Z).

Record Message : Type := mkMessage {
  mtType : MessageType;
  mtTo : Z;
  mtFrom : Z;
  mtTerm : Z;
  mtLogTerm : Z;
  mtIndex : Z;
  mtEntries : list Entry;
  mtCommit : Z;
  mtSnapshot : Snapshot;
  mtReject : bool;
  mtRejectHint : Z;
  mtContext : option bytes
}.

(** A message of a type with all other fields zero, [pb.Message{Type: t}]. *)
Definition msg (t : MessageType) : Message := mkMessage t 0 0 0 0 0 [] 0 zero_Snapshot false 0 None.

(** Assignment to a field. *)
Definition set_mtType (v : MessageType) (m : Message) : Message :=
  mkMessage v (mtTo m) (mtFrom m) (mtTerm m) (mtLogTerm m) (mtIndex m)
    (mtEntries m) (mtCommit m) (mtSnapshot m) (mtReject m) (mtRejectHint m) (mtContext m).
Definition set_mtTo (v : Z) (m : Message) : Message :=
  mkMessage (mtType m) v (mtFrom m) (mtTerm m) (mtLogTerm m) (mtIndex m)
    (mtEntries m) (mtCommit m) (mtSnapshot m) (mtReject m) (mtRejectHint m) (mtContext m).
Definition set_mtFrom (v : Z) (m : Message) : Message :=
  mkMessage (mtType m) (mtTo m) v (mtTerm m) (mtLogTerm m) (mtIndex m)
    (mtEntries m) (mtCommit m) (mtSnapshot m) (mtReject m) (mtRejectHint m) (mtContext m).
Definition set_mtTerm (v : Z) (m : Message) : Message :=
  mkMessage (mtType m) (mtTo m) (mtFrom m) v (mtLogTerm m) (mtIndex m)
    (mtEntries m) (mtCommit m) (mtSnapshot m) (mtReject m) (mtRejectHint m) (mtContext m).
Definition set_mtLogTerm (v : Z) (m : Message) : Message :=
  mkMessage (mtType m) (mtTo m) (mtFrom m) (mtTerm m) v (mtIndex m)
    (mtEntries m) (mtCommit m) (mtSnapshot m) (mtReject m) (mtRejectHint m) (mtContext m).
Definition set_mtIndex (v : Z) (m : Message) : Message :=
  mkMessage (mtType m) (mtTo m) (mtFrom m) (mtTerm m) (mtLogTerm m) v
    (mtEntries m) (mtCommit m) (mtSnapshot m) (mtReject m) (mtRejectHint m) (mtContext m).
Definition set_mtEntries (v : list Entry) (m : Message) : Message :=
  mkMessage (mtType m) (mtTo m) (mtFrom m) (mtTerm m) (mtLogTerm m) (mtIndex m)
    v (mtCommit m) (mtSnapshot m) (mtReject m) (mtRejectHint m) (mtContext m).
Definition set_mtCommit (v : Z) (m : Message) : Message :=
  mkMessage (mtType m) (mtTo m) (mtFrom m) (mtTerm m) (mtLogTerm m) (mtIndex m)
    (mtEntries m) v (mtSnapshot m) (mtReject m) (mtRejectHint m) (mtContext m).
Definition set_mtSnapshot (v : Snapshot) (m : Message) : Message :=
  mkMessage (mtType m) (mtTo m) (mtFrom m) (mtTerm m) (mtLogTerm m) (mtIndex m)
    (mtEntries m) (mtCommit m) v (mtReject m) (mtRejectHint m) (mtContext m).
Definition set_mtReject (v : bool) (m : Message) : Message :=
  mkMessage (mtType m) (mtTo m) (mtFrom m) (mtTerm m) (mtLogTerm m) (mtIndex m)
    (mtEntries m) (mtCommit m) (mtSnapshot m) v (mtRejectHint m) (mtContext m).
Definition set_mtRejectHint (v : Z) (m : Message) : Message :=
  mkMessage (mtType m) (mtTo m) (mtFrom m) (mtTerm m) (mtLogTerm m) (mtIndex m)
    (mtEntries m) (mtCommit m) (mtSnapshot m) (mtReject m) v (mtContext m).
Definition set_mtContext (v : option bytes) (m : Message) : Message :=
  mkMessage (mtType m) (mtTo m) (mtFrom m) (mtTerm m) (mtLogTerm m) (mtIndex m)
    (mtEntries m) (mtCommit m) (mtSnapshot m) (mtReject m) (mtRejectHint m) v.

#[export] Instance EntryType_eq_dec : EqDecision EntryType.
Proof. solve_decision. Defined.
#[export] Instance Entry_eq_dec : EqDecision Entry.
Proof. solve_decision. Defined.
#[export] Instance ConfState_eq_dec : EqDecision ConfState.
Proof. solve_decision. Defined.
#[export] Instance Snapshot_eq_dec : EqDecision Snapshot.
Proof. unfold EqDecision, Decision. repeat (decide equality || apply decide). Defined.

#[export] Instance MessageType_eq_dec : EqDecision MessageType.
Proof. solve_decision. Defined.

(** [math_bits.Len64]. *)
Definition Len64 (x : Z) : Z := if x =? 0 then 0 else Z.log2 x + 1.

(** The bytes of a varint. *)
Definition sovRaft (x : Z) : Z := (Len64 (Z.lor x 1) + 6) / 7.

Definition EntryType_value (t : EntryType) : Z :=
  match t with
  | EntryNormal => 0
  | EntryConfChange => 1
  | EntryConfChangeV2 => 2
  | EntryTypeUnknown n => n
  end.

(** [Entry.Size]; lengths of slices in memory do not overflow an [int]. *)
Definition Entry_Size (m : Entry) : Z :=
  (1 + sovRaft (u64 (EntryType_value (eType m)))) + (1 + sovRaft (eTerm m)) + (1 + sovRaft (eIndex m)) +
  match eData m with
  | Some d => 1 + zlen d + sovRaft (zlen d)
  | None => 0
  end.

(** The loop of [limitSize] from the second entry on: [size] is an [int]. *)
Fixpoint limit_loop (size : Z) (ents : list Entry) (maxSize : Z) : list Entry :=
  match ents with
  | [] => []
  | e :: ents' =>
      let size' := i64 (size + Entry_Size e) in
      if maxSize <? u64 size' then [] else e :: limit_loop size' ents' maxSize
  end.

Definition limitSize (ents : list Entry) (maxSize : Z) : list Entry :=
  match ents with
  | [] => []
  | e :: ents' => e :: limit_loop (Entry_Size e) ents' maxSize
  end.

Definition noLimit : Z := MaxUint64.

(* ===================================================================== *)
(** ** Specification of a log                                            *)
(* ===================================================================== *)

Record LogView : Type := mkView { base : Z; baseTerm : Z; tail : list Entry }.

Definition vlast (v : LogView) : Z := base v + zlen (tail v).

(** The entries are numbered from [i]. *)
Definition numbered (i : Z) (es : list Entry) : Prop :=
  forall k e, es !! k = Some e -> eIndex e = i + Z.of_nat k.

(** Terms are at least 1, except that nothing precedes index 1. *)
Definition view_ok (v : LogView) : Prop :=
  0 <= base v /\ vlast v + 1 < 2 ^ 64 /\ numbered (base v + 1) (tail v) /\
  (base v = 0 -> baseTerm v = 0) /\ (0 < base v -> 0 < baseTerm v) /\
  Forall (fun e => 0 < eTerm e) (tail v).

(** The term at an index of the log. *)
Definition vterm (v : LogView) (i : Z) : option Z :=
  if i =? base v then Some (baseTerm v) else eTerm <$> znth (tail v) (i - base v - 1).

(** The entries with [lo <= index < hi]. *)
Definition vslice (v : LogView) (lo hi : Z) : list Entry :=
  take (Z.to_nat (hi - lo)) (drop (Z.to_nat (lo - base v - 1)) (tail v)).

(* ===================================================================== *)
(** ** Lemmas                                                            *)
(* ===================================================================== *)

Lemma zslice_ok {A} lo hi (l : list A) :
  0 <= lo <= hi -> hi <= zlen l -> zslice lo hi l = Ret (take (Z.to_nat (hi - lo)) (drop (Z.to_nat lo) l)).
Proof. intros ??. unfold zslice. by zb. Qed.

Lemma zindex_lookup {A} (l : list A) i a : znth l i = Some a -> zindex l i = Ret a.
Proof. unfold zindex. by intros ->. Qed.

Lemma znth_Some {A} (l : list A) i : 0 <= i < zlen l -> exists a, znth l i = Some a.
Proof.
  unfold znth, zlen. intros ?. zb. destruct (lookup_lt_is_Some_2 l (Z.to_nat i)) as [a ->]; [lia|eauto].
Qed.

Lemma znth_inside {A} (l : list A) i a : znth l i = Some a -> 0 <= i < zlen l.
Proof.
  unfold znth, zlen. destruct (Z.ltb_spec i 0); [done|]. intros E%lookup_lt_Some. lia.
Qed.

Lemma znth_outside {A} (l : list A) i : ~ (0 <= i < zlen l) -> znth l i = None.
Proof. destruct (znth l i) eqn:E; [|done]. by apply znth_inside in E. Qed.

Lemma znth_app {A} (l k : list A) i :
  znth (l ++ k) i = if i <? zlen l then znth l i else znth k (i - zlen l).
Proof.
  unfold znth, zlen. destruct (Z.ltb_spec i (Z.of_nat (length l))).
  - destruct (Z.ltb_spec i 0); [done|]. apply lookup_app_l. lia.
  - zb. rewrite lookup_app_r by lia. f_equal. lia.
Qed.

Lemma znth_take {A} (l : list A) n i : i < n -> znth (take (Z.to_nat n) l) i = znth l i.
Proof.
  intros ?. unfold znth. destruct (Z.ltb_spec i 0); [done|]. apply lookup_take_lt. lia.
Qed.

Lemma znth_drop {A} (l : list A) n i : 0 <= n -> 0 <= i -> znth (drop (Z.to_nat n) l) i = znth l (n + i).
Proof. intros ??. unfold znth. zb. rewrite lookup_drop. f_equal. lia. Qed.

Lemma zlen_take {A} (l : list A) n : 0 <= n <= zlen l -> zlen (take (Z.to_nat n) l) = n.
Proof. unfold zlen. intros ?. rewrite length_take. lia. Qed.

Lemma zlen_drop {A} (l : list A) n : 0 <= n <= zlen l -> zlen (drop (Z.to_nat n) l) = zlen l - n.
Proof. unfold zlen. intros ?. rewrite length_drop. lia. Qed.

Lemma limit_loop_prefix size ents m : limit_loop size ents m `prefix_of` ents.
Proof.
  revert size. induction ents as [|e ents IH]; intros size; simpl; [done|].
  destruct (_ <? _); [apply prefix_nil|]. by apply prefix_cons.
Qed.

Lemma limitSize_prefix ents m : limitSize ents m `prefix_of` ents.
Proof. destruct ents; simpl; [done|]. apply prefix_cons, limit_loop_prefix. Qed.

Lemma limitSize_full ents m : (length ents <= length (limitSize ents m))%nat -> limitSize ents m = ents.
Proof.
  intros Hl. destruct (limitSize_prefix ents m) as [k E].
  destruct k as [|x k]; [by rewrite app_nil_r in E|].
  rewrite E in Hl at 1. rewrite length_app in Hl. simpl in Hl. lia.
Qed.

Lemma limit_loop_app size a b m :
  (length (limit_loop size a m) < length a)%nat -> limit_loop size (a ++ b) m = limit_loop size a m.
Proof.
  revert size. induction a as [|e a IH]; intros size; simpl; [lia|].
  destruct (_ <? _); [done|]. simpl. intros ?. f_equal. apply IH. lia.
Qed.

Lemma limitSize_app a b m :
  (length (limitSize a m) < length a)%nat -> limitSize (a ++ b) m = limitSize a m.
Proof. destruct a as [|e a]; simpl; [lia|]. intros ?. f_equal. apply limit_loop_app. lia. Qed.

Lemma limitSize_noLimit ents : limitSize ents noLimit = ents.
Proof.
  assert (forall size es, limit_loop size es noLimit = es) as Hl.
  { intros size es. revert size. induction es as [|e es IH]; intros size; simpl; [done|].
    pose proof (u64_range (i64 (size + Entry_Size e))). unfold noLimit, MaxUint64 in *.
    zb. by rewrite IH. }
  destruct ents; simpl; [done|]. by rewrite Hl.
Qed.

Lemma vterm_inside v i : base v <= i <= vlast v -> exists t, vterm v i = Some t.
Proof.
  unfold vlast, vterm. intros ?. destruct (Z.eqb_spec i (base v)); [eauto|].
  destruct (znth_Some (tail v) (i - base v - 1)) as [e ->]; [lia|eauto].
Qed.

Lemma vterm_range v i t : vterm v i = Some t -> base v <= i <= vlast v.
Proof.
  unfold vlast, vterm. pose proof (zlen_nonneg (tail v)).
  destruct (Z.eqb_spec i (base v)) as [->|]; [lia|].
  intros (e & E%znth_inside & _)%fmap_Some. lia.
Qed.

Lemma vterm_pos v i t : view_ok v -> vterm v i = Some t -> (0 < t \/ i = 0 /\ t = 0).
Proof.
  intros (Hb & _ & _ & H0 & Hp & Hf) Ht. unfold vterm in Ht.
  destruct (Z.eqb_spec i (base v)) as [->|].
  - simplify_eq. destruct (decide (base v = 0)); [right|left]; intuition lia.
  - left. apply fmap_Some in Ht as (e & E & ->). unfold znth in E. destruct (_ <? 0); [done|].
    by rewrite Forall_lookup in Hf; apply (Hf _ _ E).
Qed.

Lemma numbered_app i a b : numbered i (a ++ b) <-> numbered i a /\ numbered (i + zlen a) b.
Proof.
  unfold numbered, zlen. split.
  - intros Hn. split; intros k e E.
    + apply Hn. by apply lookup_app_l_Some.
    + rewrite (Hn (length a + k)%nat e); [lia|]. rewrite lookup_app_r by lia. by rewrite Nat.add_comm, Nat.add_sub.
  - intros [Ha Hb] k e [E|[? E]]%lookup_app_Some; [by apply Ha|]. rewrite (Hb _ _ E). lia.
Qed.

Lemma numbered_take i n es : numbered i es -> numbered i (take n es).
Proof. intros Hn. rewrite <- (take_drop n es) in Hn. by apply numbered_app in Hn as [? _]. Qed.

Lemma numbered_drop i n es : (n <= length es)%nat -> numbered i es -> numbered (i + Z.of_nat n) (drop n es).
Proof.
  intros ? Hn. rewrite <- (take_drop n es) in Hn. apply numbered_app in Hn as [_ Hn].
  unfold zlen in Hn. rewrite length_take in Hn. by replace (n `min` length es)%nat with n in Hn by lia.
Qed.

Lemma numbered_cons i e es : numbered i (e :: es) <-> eIndex e = i /\ numbered (i + 1) es.
Proof.
  change (e :: es) with ([e] ++ es). rewrite numbered_app. split; intros [H1 H2]; split; try done.
  - rewrite (H1 0%nat e eq_refl). simpl. lia.
  - intros [|k] e' E; simplify_eq/=. lia.
Qed.

(** *** Changes of a log *)

(** Entries sent to a log: numbered consecutively, of positive terms. *)
Definition batch (i : Z) (es : list Entry) : Prop :=
  0 < i /\ i + zlen es < 2 ^ 64 /\ numbered i es /\ Forall (fun e => 0 < eTerm e) es.

(** Write [es] at index [i]: what was at [i] and after is gone, and entries of
    [es] that the log has compacted are dropped. *)
Definition overwrite (i : Z) (es : list Entry) (v : LogView) : LogView :=
  mkView (base v) (baseTerm v)
         (take (Z.to_nat (i - base v - 1)) (tail v) ++ drop (Z.to_nat (base v + 1 - i)) es).

Definition compact (i : Z) (v : LogView) : LogView :=
  mkView i (default 0 (vterm v i)) (drop (Z.to_nat (i - base v)) (tail v)).

Lemma vlast_overwrite i es v : i <= vlast v + 1 -> base v + 1 <= i + zlen es ->
  vlast (overwrite i es v) = i + zlen es - 1.
Proof.
  unfold vlast. simpl. rewrite zlen_app. intros ??. destruct (decide (base v + 1 <= i)).
  - rewrite zlen_take by lia. replace (Z.to_nat (base v + 1 - i)) with 0%nat by lia. rewrite drop_0. lia.
  - replace (Z.to_nat (i - base v - 1)) with 0%nat by lia. rewrite take_0, zlen_drop by lia. unfold zlen. simpl. lia.
Qed.

Lemma overwrite_ok i es v : view_ok v -> batch i es -> i <= vlast v + 1 -> base v + 1 <= i + zlen es ->
  view_ok (overwrite i es v).
Proof.
  intros (Hb & Hl & Hn & H0 & H1 & Hp) (Hi & Hw & Hni & Hpi) ??.
  split; [done|]. split; [rewrite vlast_overwrite by done; lia|]. split; [|split; [done|split; [done|]]].
  - simpl. apply numbered_app. split; [by apply numbered_take|]. unfold vlast in *.
    destruct (decide (base v + 1 <= i)).
    + rewrite zlen_take by lia. replace (Z.to_nat (base v + 1 - i)) with 0%nat by lia. rewrite drop_0.
      by replace (base v + 1 + (i - base v - 1)) with i by lia.
    + replace (Z.to_nat (i - base v - 1)) with 0%nat by lia. rewrite take_0, zlen_nil.
      replace (base v + 1 + 0) with (i + Z.of_nat (Z.to_nat (base v + 1 - i))) by lia.
      apply numbered_drop; [unfold zlen in *; lia|done].
  - simpl. apply Forall_app. split; [by apply Forall_take|by apply Forall_drop].
Qed.

Lemma compact_ok i v : view_ok v -> base v < i <= vlast v -> view_ok (compact i v).
Proof.
  intros Hv ?. destruct (vterm_inside v i) as [t Ht]; [lia|]. pose proof (vterm_pos _ _ _ Hv Ht).
  destruct Hv as (Hb & Hl & Hn & Hz & Hbp & Hp). unfold vlast in *.
  split; [simpl; lia|]. simpl. rewrite Ht. simpl. repeat split; try lia.
  - unfold vlast. simpl. rewrite zlen_drop by lia. lia.
  - replace (i + 1) with (base v + 1 + Z.of_nat (Z.to_nat (i - base v))) by lia.
    apply numbered_drop; [unfold zlen in *; lia|done].
  - by apply Forall_drop.
Qed.

Lemma vterm_compact i v j : view_ok v -> base v < i <= vlast v -> i <= j -> vterm (compact i v) j = vterm v j.
Proof.
  intros Hv ??. unfold vterm at 1. simpl. destruct (Z.eqb_spec j i) as [->|].
  - destruct (vterm_inside v i) as [t Ht]; [lia|]. by rewrite Ht.
  - unfold vterm. zb. rewrite znth_drop by lia. do 2 f_equal. lia.
Qed.

(** *** Entries from a leader against the entries of a follower *)

(** The first position at which [new] has an entry that [old] does not have, by
    term. *)
Fixpoint conflict_at (old new : list Entry) : option nat :=
  match new, old with
  | [], _ => None
  | _ :: _, [] => Some 0%nat
  | n :: new', o :: old' => if eTerm o =? eTerm n then S <$> conflict_at old' new' else Some 0%nat
  end.

(** Raft's rule for a follower: entries that agree are kept, the first
    difference and all that follows it is replaced, and a message that contains
    nothing new removes nothing. *)
Fixpoint merge (old new : list Entry) : list Entry :=
  match new, old with
  | [], _ => old
  | _ :: _, [] => new
  | n :: new', o :: old' => if eTerm o =? eTerm n then o :: merge old' new' else new
  end.

(** Entries [es] that a leader sends for the positions after [index]. *)
Definition graft (index : Z) (es : list Entry) (v : LogView) : LogView :=
  let k := Z.to_nat (index - base v) in
  mkView (base v) (baseTerm v) (take k (tail v) ++ merge (drop k (tail v)) es).

Lemma merge_conflict old new :
  merge old new = match conflict_at old new with
                  | None => old
                  | Some k => take k old ++ drop k new
                  end.
Proof.
  revert old. induction new as [|n new IH]; intros [|o old]; simpl; try done.
  destruct (_ =? _); [|done]. rewrite IH. by destruct (conflict_at old new).
Qed.

Lemma conflict_at_lt old new k : conflict_at old new = Some k -> (k < length new /\ k <= length old)%nat.
Proof.
  revert old k. induction new as [|n new IH]; intros [|o old] k; simpl; try (intros; simplify_eq; lia).
  destruct (_ =? _); [|intros; simplify_eq; lia].
  intros (j & E & ->)%fmap_Some. apply IH in E. lia.
Qed.

Lemma conflict_at_none old new : conflict_at old new = None -> (length new <= length old)%nat.
Proof.
  revert old. induction new as [|n new IH]; intros [|o old]; simpl; try done; try lia.
  destruct (_ =? _); [|done]. intros E%fmap_None. apply IH in E. lia.
Qed.

Lemma graft_conflict index es v : base v <= index ->
  graft index es v = match conflict_at (drop (Z.to_nat (index - base v)) (tail v)) es with
                     | None => v
                     | Some k => overwrite (index + 1 + Z.of_nat k) (drop k es) v
                     end.
Proof.
  intros ?. unfold graft. rewrite merge_conflict. destruct (conflict_at _ es) as [k|].
  - unfold overwrite. f_equal. replace (Z.to_nat (base v + 1 - _)) with 0%nat by lia. rewrite drop_0.
    replace (Z.to_nat (index + 1 + Z.of_nat k - base v - 1)) with (Z.to_nat (index - base v) + k)%nat by lia.
    by rewrite <- take_take_drop, app_assoc.
  - rewrite take_drop. by destruct v.
Qed.

Lemma merge_terms old new k e : new !! k = Some e -> exists e', merge old new !! k = Some e' /\ eTerm e' = eTerm e.
Proof.
  revert old k. induction new as [|n new IH]; intros [|o old] k E; simpl; try done; try eauto.
  destruct (Z.eqb_spec (eTerm o) (eTerm n)); [|eauto].
  destruct k as [|k]; simplify_eq/=; [eauto|]. by apply IH.
Qed.

(** The positions up to [index] stay as they are. *)
Lemma vslice_graft index es v lo hi : base v < lo -> base v <= index <= vlast v -> hi <= index + 1 ->
  vslice (graft index es v) lo hi = vslice v lo hi.
Proof.
  intros. unfold vslice, graft, vlast in *. simpl. set (t := tail v) in *.
  rewrite <- (take_drop (Z.to_nat (index - base v)) t) at 3.
  destruct (decide (lo <= index + 1)).
  - rewrite !drop_app_le by (rewrite length_take; unfold zlen in *; lia).
    rewrite !take_app_le by (rewrite length_drop, length_take; unfold zlen in *; lia). done.
  - by replace (Z.to_nat (hi - lo)) with 0%nat by lia.
Qed.

Lemma vterm_graft_new index es v k e : base v <= index <= vlast v -> es !! k = Some e ->
  vterm (graft index es v) (index + 1 + Z.of_nat k) = Some (eTerm e).
Proof.
  intros ? Ee. unfold vterm, graft, vlast in *. simpl. zb. rewrite znth_app, zlen_take by lia. zb.
  replace (index + 1 + Z.of_nat k - base v - 1 - (index - base v)) with (Z.of_nat k) by lia.
  unfold znth. zb. rewrite Nat2Z.id.
  destruct (merge_terms (drop (Z.to_nat (index - base v)) (tail v)) es k e Ee) as (e' & -> & <-). done.
Qed.

Lemma zlen_vslice v lo hi : base v < lo <= hi -> hi <= vlast v + 1 -> zlen (vslice v lo hi) = hi - lo.
Proof. unfold vlast. intros. unfold vslice. rewrite zlen_take; [lia|]. rewrite zlen_drop; lia. Qed.

Lemma numbered_vslice v lo hi : view_ok v -> base v < lo <= hi -> hi <= vlast v + 1 -> numbered lo (vslice v lo hi).
Proof.
  intros (_ & _ & Hn & _) ??. unfold vslice, vlast in *. apply numbered_take.
  replace lo with (base v + 1 + Z.of_nat (Z.to_nat (lo - base v - 1))) at 1 by lia.
  apply numbered_drop; [unfold zlen in *; lia|done].
Qed.

Lemma drop_vslice v lo hi n : base v < lo -> lo + Z.of_nat n <= hi ->
  drop n (vslice v lo hi) = vslice v (lo + Z.of_nat n) hi.
Proof.
  intros. unfold vslice. rewrite skipn_firstn_comm, drop_drop. f_equal; [lia|]. f_equal. lia.
Qed.
