(* ===== verification/RaftStorage.v ===== *)
(** * RaftStorage: stable storage of a raft log (src/etcd/raft/storage.go)

    The [Storage] interface that the raft log reads, what it promises
    ([StorageLaws]), and [MemoryStorage], which implements it. The mutex of
    [MemoryStorage] makes each method one step; [callStats] are counters that
    only tests read. *)

From S2P Require Import Prelude RaftPb.

(* ===================================================================== *)
(** ** The interface                                                     *)
(* ===================================================================== *)

Inductive StorageError : Type :=
| ErrCompacted
| ErrSnapOutOfDate
| ErrUnavailable
| ErrSnapshotTemporarilyUnavailable.

#[export] Instance StorageError_eq_dec : EqDecision StorageError.
Proof. solve_decision. Defined.

(** [(A, error)]: a value or an error. *)
Abbreviation result A := (A + StorageError)%type.

Class Storage (St : Type) := {
  InitialState : St -> outcome (result (HardState * ConfState));
  Entries : St -> Z -> Z -> Z -> outcome (result (list Entry));
  Term : St -> Z -> outcome (result Z);
  LastIndex : St -> outcome (result Z);
  FirstIndex : St -> outcome (result Z);
  GetSnapshot : St -> outcome (result Snapshot)
}.

(** What a raft log relies on: the storage holds a [LogView], and the methods
    read it. *)
Class StorageLaws (St : Type) `{!Storage St} := {
  sview : St -> LogView;
  storage_ok : St -> Prop;
  sview_ok s : storage_ok s -> view_ok (sview s);
  FirstIndex_law s : storage_ok s -> FirstIndex s = Ret (inl (base (sview s) + 1));
  LastIndex_law s : storage_ok s -> LastIndex s = Ret (inl (vlast (sview s)));
  Term_law s i t : storage_ok s -> vterm (sview s) i = Some t -> Term s i = Ret (inl t);
  Entries_law s lo hi maxSize :
    storage_ok s -> base (sview s) < lo < hi -> hi <= vlast (sview s) + 1 ->
    Entries s lo hi maxSize = Ret (inl (limitSize (vslice (sview s) lo hi) maxSize))
}.

(* ===================================================================== *)
(** ** MemoryStorage                                                     *)
(* ===================================================================== *)

Record MemoryStorage : Type := mkMS {
  hardState : HardState;
  snapshot : Snapshot;
  ents : list Entry
}.

Definition NewMemoryStorage : MemoryStorage := mkMS zero_HardState zero_Snapshot [zero_entry].

Definition set_ents (es : list Entry) (ms : MemoryStorage) : MemoryStorage :=
  mkMS (hardState ms) (snapshot ms) es.

Definition ms_InitialState (ms : MemoryStorage) : outcome (result (HardState * ConfState)) :=
  Ret (inl (hardState ms, mConfState (sMetadata (snapshot ms)))).

Definition SetHardState (st : HardState) : M MemoryStorage unit :=
  modify (fun ms => mkMS st (snapshot ms) (ents ms)).

(** [ms.ents[0].Index]. *)
Definition ms_offset (ms : MemoryStorage) : outcome Z :=
  e ← zindex (ents ms) 0; Ret (eIndex e).

Definition ms_lastIndex (ms : MemoryStorage) : outcome Z :=
  off ← ms_offset ms; Ret (u64 (off + zlen (ents ms) - 1)).

Definition ms_firstIndex (ms : MemoryStorage) : outcome Z :=
  off ← ms_offset ms; Ret (u64 (off + 1)).

Definition ms_Entries (ms : MemoryStorage) (lo hi maxSize : Z) : outcome (result (list Entry)) :=
  offset ← ms_offset ms;
  if lo <=? offset then Ret (inr ErrCompacted) else
  last ← ms_lastIndex ms;
  if u64 (last + 1) <? hi then Panic else
  if zlen (ents ms) =? 1 then Ret (inr ErrUnavailable) else
  es ← zslice (u64 (lo - offset)) (u64 (hi - offset)) (ents ms);
  Ret (inl (limitSize es maxSize)).

Definition ms_Term (ms : MemoryStorage) (i : Z) : outcome (result Z) :=
  offset ← ms_offset ms;
  if i <? offset then Ret (inr ErrCompacted) else
  if zlen (ents ms) <=? i64 (u64 (i - offset)) then Ret (inr ErrUnavailable) else
  e ← zindex (ents ms) (u64 (i - offset));
  Ret (inl (eTerm e)).

Definition ms_LastIndex (ms : MemoryStorage) : outcome (result Z) :=
  i ← ms_lastIndex ms; Ret (inl i).

Definition ms_FirstIndex (ms : MemoryStorage) : outcome (result Z) :=
  i ← ms_firstIndex ms; Ret (inl i).

Definition ms_Snapshot (ms : MemoryStorage) : outcome (result Snapshot) := Ret (inl (snapshot ms)).

#[export] Instance MemoryStorage_Storage : Storage MemoryStorage := {|
  InitialState := ms_InitialState;
  Entries := ms_Entries;
  Term := ms_Term;
  LastIndex := ms_LastIndex;
  FirstIndex := ms_FirstIndex;
  GetSnapshot := ms_Snapshot
|}.

Definition ApplySnapshot (snap : Snapshot) : M MemoryStorage (result unit) :=
  ms ← get;
  if sIndex snap <=? sIndex (snapshot ms) then mret (inr ErrSnapOutOfDate) else
  modify (fun ms => mkMS (hardState ms) snap [mkEntry (sTerm snap) (sIndex snap) EntryNormal None]);;
  mret (inl tt).

Definition CreateSnapshot (i : Z) (cs : option ConfState) (data : option bytes) :
    M MemoryStorage (result Snapshot) :=
  ms ← get;
  let sn := snapshot ms in
  if i <=? sIndex sn then mret (inr ErrSnapOutOfDate) else
  offset ← lift (ms_offset ms);
  last ← lift (ms_lastIndex ms);
  if last <? i then panic else
  e ← lift (zindex (ents ms) (u64 (i - offset)));
  let sn' := mkSnapshot data (mkMetadata (default (mConfState (sMetadata sn)) cs) i (eTerm e)) in
  modify (fun ms => mkMS (hardState ms) sn' (ents ms));;
  mret (inl sn').

Definition Compact (compactIndex : Z) : M MemoryStorage (result unit) :=
  ms ← get;
  offset ← lift (ms_offset ms);
  if compactIndex <=? offset then mret (inr ErrCompacted) else
  last ← lift (ms_lastIndex ms);
  if last <? compactIndex then panic else
  let i := u64 (compactIndex - offset) in
  e ← lift (zindex (ents ms) i);
  rest ← lift (zslice (u64 (i + 1)) (zlen (ents ms)) (ents ms));
  modify (set_ents (mkEntry (eTerm e) (eIndex e) EntryNormal None :: rest));;
  mret (inl tt).

Definition Append (entries : list Entry) : M MemoryStorage (result unit) :=
  match entries with
  | [] => mret (inl tt)
  | e0 :: _ =>
      ms ← get;
      first ← lift (ms_firstIndex ms);
      let last := u64 (eIndex e0 + zlen entries - 1) in
      if last <? first then mret (inl tt) else
      entries' ← (if eIndex e0 <? first
                  then lift (zslice (u64 (first - eIndex e0)) (zlen entries) entries)
                  else mret entries);
      e0' ← lift (zindex entries' 0);
      off ← lift (ms_offset ms);
      let offset := u64 (eIndex e0' - off) in
      if offset <? zlen (ents ms) then
        kept ← lift (zslice 0 offset (ents ms));
        modify (set_ents (kept ++ entries'));;
        mret (inl tt)
      else if zlen (ents ms) =? offset then
        modify (set_ents (ents ms ++ entries'));;
        mret (inl tt)
      else panic
  end.

(* ===================================================================== *)
(** ** MemoryStorage keeps the contract                                  *)
(* ===================================================================== *)

Definition ms_view (ms : MemoryStorage) : LogView :=
  match ents ms with
  | [] => mkView 0 0 []
  | d :: es => mkView (eIndex d) (eTerm d) es
  end.

(** There is always the dummy entry; an [int] counts the entries. *)
Definition ms_ok (ms : MemoryStorage) : Prop :=
  ents ms <> [] /\ view_ok (ms_view ms) /\ zlen (ents ms) <= MaxInt64.

Section memory.
  Context (ms : MemoryStorage) (Hok : ms_ok ms).

Local Abbreviation v := (ms_view ms).

Lemma ms_ents : exists d, ents ms = d :: tail v /\ eIndex d = base v /\ eTerm d = baseTerm v.
Proof using Hok. destruct Hok as (Hne & _). unfold ms_view. destruct (ents ms) as [|d es]; [done|]. by exists d. Qed.

Lemma ms_bounds : 0 <= base v /\ vlast v + 1 < 2 ^ 64 /\ zlen (tail v) < MaxInt64 /\ zlen (ents ms) = zlen (tail v) + 1.
Proof using Hok.
  destruct ms_ents as (d & E & _). destruct Hok as (_ & (? & ? & _) & Hl).
  rewrite E, zlen_cons in Hl |- *. repeat split; try done. lia.
Qed.

Lemma ms_offset_eq : ms_offset ms = Ret (base v).
Proof using Hok. destruct ms_ents as (d & E & Hi & _). unfold ms_offset. rewrite E. cbv [mbind outcome_bind zindex znth]. by rewrite <- Hi. Qed.

Lemma ms_lastIndex_eq : ms_lastIndex ms = Ret (vlast v).
Proof using Hok.
  unfold ms_lastIndex. rewrite ms_offset_eq. cbn. destruct ms_bounds as (? & ? & ? & E). rewrite E.
  pose proof (zlen_nonneg (tail v)). unfold vlast in *. by rewrite u64_id by lia; f_equal; lia.
Qed.

Lemma ms_firstIndex_eq : ms_firstIndex ms = Ret (base v + 1).
Proof using Hok.
  unfold ms_firstIndex. rewrite ms_offset_eq. cbn. destruct ms_bounds as (? & ? & ? & E).
  pose proof (zlen_nonneg (tail v)). unfold vlast in *. by rewrite u64_id by lia.
Qed.

(** Position [k > 0] of the array is position [k - 1] of the entries. *)
Lemma ms_znth k : 0 < k -> znth (ents ms) k = znth (tail v) (k - 1).
Proof using Hok.
  intros ?. destruct ms_ents as (d & E & _). rewrite E. unfold znth. zb.
  by replace (Z.to_nat k) with (S (Z.to_nat (k - 1))) by lia.
Qed.

Lemma ms_zindex_term i t : vterm v i = Some t -> exists e, zindex (ents ms) (i - base v) = Ret e /\
  eTerm e = t /\ eIndex e = i.
Proof using Hok.
  intros Ht. destruct (vterm_range _ _ _ Ht). unfold vterm in Ht.
  destruct (Z.eqb_spec i (base v)) as [->|].
  - simplify_eq. destruct ms_ents as (d & E & Hi & Htm). exists d. rewrite Z.sub_diag, E. done.
  - apply fmap_Some in Ht as (e & E & ->). exists e. split; [|split; [done|]].
    + apply zindex_lookup. rewrite ms_znth by lia. done.
    + destruct Hok as (_ & (_ & _ & Hn & _) & _). unfold znth in E. destruct (Z.ltb_spec (i - base v - 1) 0); [done|].
      rewrite (Hn _ _ E). lia.
Qed.

Lemma ms_Term_eq i t : vterm v i = Some t -> ms_Term ms i = Ret (inl t).
Proof using Hok.
  intros Ht. destruct (ms_zindex_term _ _ Ht) as (e & E & <- & _). apply vterm_range in Ht.
  unfold ms_Term. rewrite ms_offset_eq. cbn. destruct ms_bounds as (? & ? & ? & El). unfold vlast in *.
  rewrite El. rewrite u64_id, i64_id by (unfold in_i64, MinInt64, MaxInt64 in *; lia). zb. by rewrite E.
Qed.

(** [ms.ents[lo-offset : hi-offset]] holds the entries [lo, hi). *)
Lemma ms_zslice lo hi : base v < lo <= hi -> hi <= vlast v + 1 ->
  zslice (lo - base v) (hi - base v) (ents ms) = Ret (vslice v lo hi).
Proof using Hok.
  intros ??. destruct ms_bounds as (? & ? & ? & El). unfold vlast in *.
  rewrite zslice_ok by lia. unfold vslice. destruct ms_ents as (d & E & _). rewrite E.
  replace (hi - base v - (lo - base v)) with (hi - lo) by lia.
  by replace (Z.to_nat (lo - base v)) with (S (Z.to_nat (lo - base v - 1))) by lia.
Qed.

Lemma ms_Entries_eq lo hi maxSize : base v < lo < hi -> hi <= vlast v + 1 ->
  ms_Entries ms lo hi maxSize = Ret (inl (limitSize (vslice v lo hi) maxSize)).
Proof using Hok.
  intros ??. unfold ms_Entries. rewrite ms_offset_eq, ms_lastIndex_eq. cbn.
  destruct ms_bounds as (? & ? & ? & El). rewrite El. pose proof (zlen_nonneg (tail v)).
  unfold vlast in *. rewrite !u64_id by lia. zb. rewrite ms_zslice by (unfold vlast; lia). done.
Qed.

End memory.

#[export] Instance MemoryStorage_laws : StorageLaws MemoryStorage.
Proof.
  refine (Build_StorageLaws _ _ ms_view ms_ok _ _ _ _ _).
  - by intros s (_ & ? & _).
  - intros s H. cbn. unfold ms_FirstIndex. by rewrite (ms_firstIndex_eq _ H).
  - intros s H. cbn. unfold ms_LastIndex. by rewrite (ms_lastIndex_eq _ H).
  - intros s i t H. by apply ms_Term_eq.
  - intros s lo hi m H. by apply ms_Entries_eq.
Defined.

(* ===================================================================== *)
(** ** The mutators                                                      *)
(* ===================================================================== *)

(** A storage whose array is the one of [v]. *)
Definition holds_view (ms ms' : MemoryStorage) (v : LogView) : Prop :=
  ms_view ms' = v /\ ms_ok ms' /\ snapshot ms' = snapshot ms /\ hardState ms' = hardState ms.

Lemma set_ents_view ms d es : view_ok (mkView (eIndex d) (eTerm d) es) -> zlen es < MaxInt64 ->
  holds_view ms (set_ents (d :: es) ms) (mkView (eIndex d) (eTerm d) es).
Proof.
  intros ??. split; [done|]. split; [|done]. split; [done|]. split; [done|]. cbn. rewrite zlen_cons. lia.
Qed.

Section mutators.
  Context (ms : MemoryStorage) (Hok : ms_ok ms).

Local Abbreviation v := (ms_view ms).

(** What [Append] does once the compacted entries have been cut off. *)
Lemma append_at i es d :
  ents ms = d :: tail v -> base v < i <= vlast v + 1 ->
  (if i - base v <? zlen (ents ms)
   then kept ← lift (zslice 0 (i - base v) (ents ms)); modify (set_ents (kept ++ es));; mret (inl tt)
   else if zlen (ents ms) =? i - base v then modify (set_ents (ents ms ++ es));; mret (inl tt) else panic) ms
  = Ret (inl tt : result unit, set_ents (d :: take (Z.to_nat (i - base v - 1)) (tail v) ++ es) ms).
Proof using Hok.
  intros E ?. destruct (ms_bounds ms Hok) as (? & ? & ? & El). unfold vlast in *.
  destruct (Z.ltb_spec (i - base v) (zlen (ents ms))).
  - rewrite zslice_ok by lia. rewrite E, drop_0, Z.sub_0_r.
    by replace (Z.to_nat (i - base v)) with (S (Z.to_nat (i - base v - 1))) by lia.
  - zb. rewrite E. by rewrite take_ge by (unfold zlen in *; lia).
Qed.

Lemma Append_eq i es :
  es <> [] -> batch i es -> i <= vlast v + 1 -> base v + 1 < i + zlen es ->
  zlen (tail (overwrite i es v)) < MaxInt64 ->
  exists ms', Append es ms = Ret (inl tt, ms') /\ holds_view ms ms' (overwrite i es v).
Proof using Hok.
  intros Hne Hb ?? Hlen. pose proof Hok as (_ & Hv & _). destruct (ms_bounds ms Hok) as (? & ? & ? & El).
  destruct (ms_ents ms Hok) as (d & E & Hi & Ht).
  assert (view_ok (overwrite i es v)) as Hv' by (apply overwrite_ok; try done; lia).
  exists (set_ents (d :: tail (overwrite i es v)) ms). split; cycle 1.
  { pose proof (set_ents_view ms d (tail (overwrite i es v))) as Hs. rewrite Hi, Ht in Hs. by apply Hs. }
  destruct Hb as (? & ? & Hn & _). unfold vlast in *. pose proof (zlen_nonneg (tail v)).
  destruct es as [|e0 es]; [done|].
  pose proof (Hn 0%nat e0 eq_refl) as He0. rewrite Z.add_0_r in He0.
  remember (e0 :: es) as l eqn:El0. unfold Append. rewrite El0. rewrite <- El0. clear El0.
  cbv [mbind M_bind get lift]. rewrite (ms_firstIndex_eq ms Hok), He0, (u64_id (i + _ - 1)) by lia. zb.
  destruct (Z.ltb_spec i (base v + 1)).
  - rewrite u64_id by lia. rewrite zslice_ok, take_ge by (rewrite ?length_drop; unfold zlen in *; lia).
    destruct (znth_Some l (base v + 1 - i)) as [e1 E1]; [lia|].
    rewrite (zindex_lookup _ 0 e1) by (rewrite znth_drop, Z.add_0_r by lia; done).
    rewrite (ms_offset_eq ms Hok).
    assert (eIndex e1 = base v + 1) as ->.
    { unfold znth in E1. destruct (_ <? 0) eqn:?; [done|]. rewrite (Hn _ _ E1). lia. }
    rewrite u64_id by lia. etrans; [apply (append_at (base v + 1) _ d); [done|unfold vlast; lia]|].
    replace (Z.to_nat (base v + 1 - base v - 1)) with 0%nat by lia. simpl.
    by replace (Z.to_nat (i - base v - 1)) with 0%nat by lia.
  - cbv [mret M_ret]. assert (zindex l 0 = Ret (default zero_entry (l !! 0%nat))) as ->.
    { by destruct l. }
    rewrite (ms_offset_eq ms Hok).
    assert (eIndex (default zero_entry (l !! 0%nat)) = i) as ->.
    { destruct l as [|e l]; [done|]. simpl. rewrite (Hn 0%nat e eq_refl). simpl. lia. }
    rewrite u64_id by lia. etrans; [apply (append_at i _ d); [done|unfold vlast; lia]|].
    simpl. by replace (Z.to_nat (base v + 1 - i)) with 0%nat by lia.
Qed.

(** A gap in the log is refused. *)
Lemma Append_gap i es : es <> [] -> batch i es -> vlast v + 1 < i -> Append es ms = Panic.
Proof using Hok.
  intros Hne (? & ? & Hn & _) ?. destruct (ms_bounds ms Hok) as (? & ? & ? & El).
  destruct es as [|e0 es]; [done|]. pose proof (Hn 0%nat e0 eq_refl) as He0. rewrite Z.add_0_r in He0.
  pose proof (zlen_nonneg (tail v)). pose proof (zlen_nonneg es). unfold vlast in *. rewrite zlen_cons in *.
  unfold Append. cbv [mbind M_bind get lift]. rewrite (ms_firstIndex_eq ms Hok), zlen_cons, He0, u64_id by lia. zb.
  cbv [mret M_ret]. rewrite (zindex_lookup _ 0 e0) by done.
  rewrite (ms_offset_eq ms Hok), He0, u64_id by lia. by zb.
Qed.

Lemma Compact_eq i :
  match Compact i ms with
  | Ret (inl _, ms') => base v < i <= vlast v /\ holds_view ms ms' (compact i v)
  | Ret (inr err, ms') => i <= base v /\ err = ErrCompacted /\ ms' = ms
  | Panic => vlast v < i
  | Block => False
  end.
Proof using Hok.
  unfold Compact. cbv [mbind M_bind get lift]. rewrite (ms_offset_eq ms Hok), (ms_lastIndex_eq ms Hok).
  destruct (Z.leb_spec i (base v)); [done|]. destruct (Z.ltb_spec (vlast v) i); [done|].
  pose proof Hok as (_ & Hv & _). destruct (ms_bounds ms Hok) as (? & ? & ? & El).
  destruct (vterm_inside v i) as [t Ht]; [lia|].
  destruct (ms_zindex_term ms Hok _ _ Ht) as (e & E & Et & Ei).
  destruct (ms_ents ms Hok) as (d & Ed & _).
  unfold vlast in *. rewrite !u64_id, E by lia. rewrite zslice_ok by lia. cbn.
  split; [lia|]. rewrite Ed, take_ge by (rewrite length_drop; simpl; unfold zlen in *; simpl in *; lia).
  replace (Z.to_nat (i - base v + 1)) with (S (Z.to_nat (i - base v))) by lia. simpl.
  assert (compact i v = mkView (eIndex e) (eTerm e) (drop (Z.to_nat (i - base v)) (tail v))) as Hc.
  { unfold compact. by rewrite Ht, Et, Ei. }
  rewrite Hc. apply (set_ents_view ms (mkEntry (eTerm e) (eIndex e) EntryNormal None)).
  - simpl. rewrite <- Hc. apply compact_ok; [done|unfold vlast; lia].
  - rewrite zlen_drop by lia. lia.
Qed.

Lemma ApplySnapshot_eq snap :
  0 < sTerm snap -> 0 < sIndex snap -> sIndex snap + 1 < 2 ^ 64 ->
  if sIndex snap <=? sIndex (snapshot ms) then ApplySnapshot snap ms = Ret (inr ErrSnapOutOfDate, ms)
  else exists ms', ApplySnapshot snap ms = Ret (inl tt, ms') /\ ms_ok ms' /\ snapshot ms' = snap /\
    ms_view ms' = mkView (sIndex snap) (sTerm snap) [] /\ hardState ms' = hardState ms.
Proof.
  intros. unfold ApplySnapshot. cbv [mbind M_bind get].
  destruct (Z.leb_spec (sIndex snap) (sIndex (snapshot ms))); [done|]. eexists. split; [done|].
  split; [|done]. split; [done|]. split; [|done]. unfold view_ok, vlast. cbn. repeat split; try lia; try done.
  rewrite zlen_nil. lia.
Qed.

Lemma CreateSnapshot_eq i cs data :
  sIndex (snapshot ms) < i -> base v <= i ->
  match CreateSnapshot i cs data ms with
  | Ret (inl sn, ms') => snapshot ms' = sn /\ ents ms' = ents ms /\ hardState ms' = hardState ms /\
      sData sn = data /\ sIndex sn = i /\ vterm v i = Some (sTerm sn) /\
      mConfState (sMetadata sn) = default (mConfState (sMetadata (snapshot ms))) cs
  | Ret (inr _, _) | Block => False
  | Panic => vlast v < i
  end.
Proof using Hok.
  intros. unfold CreateSnapshot. cbv [mbind M_bind get lift]. zb.
  rewrite (ms_offset_eq ms Hok), (ms_lastIndex_eq ms Hok). destruct (Z.ltb_spec (vlast v) i); [done|].
  destruct (ms_bounds ms Hok) as (? & ? & ? & El). destruct (vterm_inside v i) as [t Ht]; [lia|].
  destruct (ms_zindex_term ms Hok _ _ Ht) as (e & E & Et & Ei). unfold vlast in *.
  rewrite !u64_id, E by lia. cbn. by rewrite Ht, Et.
Qed.

End mutators.
