(* ===== verification/RaftLog.v ===== *)
(** * RaftLog: the log of a raft node (src/etcd/raft/log.go, log_unstable.go)

    A [raftLog] reads its stable part through the [Storage] interface and keeps
    the entries and the snapshot that are not stable yet in [unstable]. The
    methods of [raftLog] that change it are in the monad [M (raftLog St)], the
    others are functions; [Panicf] of the logger and [panic] are [Panic]. The
    logger itself, [String] and [shrinkEntriesArray], which copies a slice, are
    left out. The proofs use the storage through [StorageLaws] only. *)

From S2P Require Import Prelude RaftPb RaftStorage.

(* ===================================================================== *)
(** ** unstable                                                          *)
(* ===================================================================== *)

Record unstable : Type := mkUnstable {
  usnapshot : option Snapshot;
  entries : list Entry;
  offset : Z
}.

Definition maybeFirstIndex (u : unstable) : option Z :=
  match usnapshot u with
  | Some s => Some (u64 (sIndex s + 1))
  | None => None
  end.

Definition maybeLastIndex (u : unstable) : option Z :=
  if negb (zlen (entries u) =? 0) then Some (u64 (offset u + zlen (entries u) - 1)) else
  match usnapshot u with
  | Some s => Some (sIndex s)
  | None => None
  end.

Definition maybeTerm (u : unstable) (i : Z) : outcome (option Z) :=
  if i <? offset u then
    match usnapshot u with
    | Some s => if sIndex s =? i then Ret (Some (sTerm s)) else Ret None
    | None => Ret None
    end
  else
    match maybeLastIndex u with
    | None => Ret None
    | Some last =>
        if last <? i then Ret None else
        e ← zindex (entries u) (u64 (i - offset u)); Ret (Some (eTerm e))
    end.

Definition u_stableTo (i t : Z) (u : unstable) : outcome unstable :=
  gt ← maybeTerm u i;
  match gt with
  | None => Ret u
  | Some gt =>
      if (gt =? t) && (offset u <=? i) then
        es ← zslice (u64 (u64 (i + 1) - offset u)) (zlen (entries u)) (entries u);
        Ret (mkUnstable (usnapshot u) es (u64 (i + 1)))
      else Ret u
  end.

Definition u_stableSnapTo (i : Z) (u : unstable) : unstable :=
  match usnapshot u with
  | Some s => if sIndex s =? i then mkUnstable None (entries u) (offset u) else u
  | None => u
  end.

Definition u_restore (s : Snapshot) : unstable := mkUnstable (Some s) [] (u64 (sIndex s + 1)).

Definition u_mustCheckOutOfBounds (u : unstable) (lo hi : Z) : outcome unit :=
  if hi <? lo then Panic else
  let upper := u64 (offset u + zlen (entries u)) in
  if (lo <? offset u) || (upper <? hi) then Panic else Ret tt.

Definition u_slice (u : unstable) (lo hi : Z) : outcome (list Entry) :=
  u_mustCheckOutOfBounds u lo hi;; zslice (u64 (lo - offset u)) (u64 (hi - offset u)) (entries u).

Definition truncateAndAppend (es : list Entry) (u : unstable) : outcome unstable :=
  e0 ← zindex es 0;
  let after := eIndex e0 in
  if after =? u64 (offset u + zlen (entries u)) then
    Ret (mkUnstable (usnapshot u) (entries u ++ es) (offset u))
  else if after <=? offset u then
    Ret (mkUnstable (usnapshot u) es after)
  else
    kept ← u_slice u (offset u) after;
    Ret (mkUnstable (usnapshot u) (kept ++ es) (offset u)).

(* ===================================================================== *)
(** ** raftLog                                                           *)
(* ===================================================================== *)

Record raftLog (St : Type) : Type := mkLog {
  storage : St;
  unst : unstable;
  committed : Z;
  applied : Z;
  maxNextEntsSize : Z
}.
Arguments mkLog {St}.
Arguments storage {St}.
Arguments unst {St}.
Arguments committed {St}.
Arguments applied {St}.
Arguments maxNextEntsSize {St}.

Section raftLog_ops.
  Context {St : Type} `{!Storage St}.
  Local Abbreviation raftLog := (raftLog St).

Definition set_unst (u : unstable) (l : raftLog) : raftLog :=
  mkLog (storage l) u (committed l) (applied l) (maxNextEntsSize l).

Definition set_committed (c : Z) (l : raftLog) : raftLog :=
  mkLog (storage l) (unst l) c (applied l) (maxNextEntsSize l).

Definition set_applied (a : Z) (l : raftLog) : raftLog :=
  mkLog (storage l) (unst l) (committed l) a (maxNextEntsSize l).

(** [panic(err)]. *)
Definition must {A} (r : result A) : outcome A :=
  match r with inl a => Ret a | inr _ => Panic end.

Definition newLogWithSize (st : St) (maxSize : Z) : outcome raftLog :=
  r ← FirstIndex st; firstIndex ← must r;
  r ← LastIndex st; lastIndex ← must r;
  Ret (mkLog st (mkUnstable None [] (u64 (lastIndex + 1)))
             (u64 (firstIndex - 1)) (u64 (firstIndex - 1)) maxSize).

Definition newLog (st : St) : outcome raftLog := newLogWithSize st noLimit.

Definition firstIndex (l : raftLog) : outcome Z :=
  match maybeFirstIndex (unst l) with
  | Some i => Ret i
  | None => r ← FirstIndex (storage l); must r
  end.

Definition lastIndex (l : raftLog) : outcome Z :=
  match maybeLastIndex (unst l) with
  | Some i => Ret i
  | None => r ← LastIndex (storage l); must r
  end.

Definition term (l : raftLog) (i : Z) : outcome (result Z) :=
  fi ← firstIndex l;
  let dummyIndex := u64 (fi - 1) in
  if i <? dummyIndex then Ret (inl 0) else
  last ← lastIndex l;
  if last <? i then Ret (inl 0) else
  mt ← maybeTerm (unst l) i;
  match mt with
  | Some t => Ret (inl t)
  | None =>
      r ← Term (storage l) i;
      match r with
      | inl t => Ret (inl t)
      | inr ErrCompacted | inr ErrUnavailable => Ret r
      | inr _ => Panic
      end
  end.

Definition zeroTermOnErrCompacted (r : result Z) : outcome Z :=
  match r with
  | inl t => Ret t
  | inr ErrCompacted => Ret 0
  | inr _ => Panic
  end.

Definition lastTerm (l : raftLog) : outcome Z :=
  last ← lastIndex l; r ← term l last; must r.

Definition isUpToDate (l : raftLog) (lasti t : Z) : outcome bool :=
  lt ← lastTerm l;
  last ← lastIndex l;
  Ret ((lt <? t) || ((t =? lt) && (last <=? lasti))).

Definition matchTerm (l : raftLog) (i t : Z) : outcome bool :=
  r ← term l i;
  match r with
  | inl t' => Ret (t' =? t)
  | inr _ => Ret false
  end.

(** The [Infof] of a conflict reads the term of the existing entry, which can
    panic. *)
Fixpoint findConflict (l : raftLog) (es : list Entry) : outcome Z :=
  match es with
  | [] => Ret 0
  | ne :: es' =>
      m ← matchTerm l (eIndex ne) (eTerm ne);
      if negb m then
        last ← lastIndex l;
        (if eIndex ne <=? last then r ← term l (eIndex ne); zeroTermOnErrCompacted r else Ret 0);;
        Ret (eIndex ne)
      else findConflict l es'
  end.

(** The loop of [findConflictByTerm]; [fuel] bounds the iterations. *)
Fixpoint conflict_loop (fuel : nat) (l : raftLog) (index t : Z) : outcome Z :=
  match fuel with
  | O => Block
  | S fuel' =>
      r ← term l index;
      match r with
      | inl logTerm => if logTerm <=? t then Ret index else conflict_loop fuel' l (u64 (index - 1)) t
      | inr _ => Ret index
      end
  end.

Definition findConflictByTerm (l : raftLog) (index t : Z) : outcome Z :=
  li ← lastIndex l;
  if li <? index then Ret index else conflict_loop (Z.to_nat index + 2) l index t.

Definition unstableEntries (l : raftLog) : list Entry := entries (unst l).

Definition hasPendingSnapshot (l : raftLog) : bool :=
  match usnapshot (unst l) with
  | Some s => negb (sIndex s =? 0)
  | None => false
  end.

Definition get_snapshot (l : raftLog) : outcome (result Snapshot) :=
  match usnapshot (unst l) with
  | Some s => Ret (inl s)
  | None => GetSnapshot (storage l)
  end.

Definition mustCheckOutOfBounds (l : raftLog) (lo hi : Z) : outcome (result unit) :=
  if hi <? lo then Panic else
  fi ← firstIndex l;
  if lo <? fi then Ret (inr ErrCompacted) else
  last ← lastIndex l;
  let length := u64 (last + 1 - fi) in
  if u64 (fi + length) <? hi then Panic else Ret (inl tt).

(** The second half of [slice]: the unstable entries of the range. *)
Definition slice_unstable (l : raftLog) (lo hi maxSize : Z) (ents : list Entry) : outcome (result (list Entry)) :=
  if offset (unst l) <? hi then
    us ← u_slice (unst l) (Z.max lo (offset (unst l))) hi;
    Ret (inl (limitSize (ents ++ us) maxSize))
  else Ret (inl (limitSize ents maxSize)).

Definition slice (l : raftLog) (lo hi maxSize : Z) : outcome (result (list Entry)) :=
  err ← mustCheckOutOfBounds l lo hi;
  match err with
  | inr e => Ret (inr e)
  | inl _ =>
      if lo =? hi then Ret (inl []) else
      if lo <? offset (unst l) then
        stored ← Entries (storage l) lo (Z.min hi (offset (unst l))) maxSize;
        match stored with
        | inr ErrCompacted => Ret (inr ErrCompacted)
        | inr _ => Panic
        | inl storedEnts =>
            if zlen storedEnts <? u64 (Z.min hi (offset (unst l)) - lo) then Ret (inl storedEnts)
            else slice_unstable l lo hi maxSize storedEnts
        end
      else slice_unstable l lo hi maxSize []
  end.

Definition nextEnts (l : raftLog) : outcome (list Entry) :=
  fi ← firstIndex l;
  let off := Z.max (u64 (applied l + 1)) fi in
  if off <? u64 (committed l + 1) then
    r ← slice l off (u64 (committed l + 1)) (maxNextEntsSize l);
    must r
  else Ret [].

Definition hasNextEnts (l : raftLog) : outcome bool :=
  fi ← firstIndex l;
  let off := Z.max (u64 (applied l + 1)) fi in
  Ret (off <? u64 (committed l + 1)).

Definition get_entries (l : raftLog) (i maxsize : Z) : outcome (result (list Entry)) :=
  last ← lastIndex l;
  if last <? i then Ret (inl []) else slice l i (u64 (last + 1)) maxsize.

(** On [ErrCompacted] the code tries again; nothing else runs in the model, so
    it would for ever. *)
Definition allEntries (l : raftLog) : outcome (list Entry) :=
  fi ← firstIndex l;
  r ← get_entries l fi noLimit;
  match r with
  | inl ents => Ret ents
  | inr ErrCompacted => Block
  | inr _ => Panic
  end.

Definition commitTo (tocommit : Z) : M raftLog unit :=
  l ← get;
  if committed l <? tocommit then
    last ← lift (lastIndex l);
    if last <? tocommit then panic else modify (set_committed tocommit)
  else mret tt.

Definition appliedTo (i : Z) : M raftLog unit :=
  if i =? 0 then mret tt else
  l ← get;
  if (committed l <? i) || (i <? applied l) then panic else modify (set_applied i).

Definition append (es : list Entry) : M raftLog Z :=
  l ← get;
  match es with
  | [] => lift (lastIndex l)
  | e0 :: _ =>
      let after := u64 (eIndex e0 - 1) in
      if after <? committed l then panic else
      u ← lift (truncateAndAppend es (unst l));
      modify (set_unst u);;
      l' ← get;
      lift (lastIndex l')
  end.

(** The result is [(lastnewi, ok)]. *)
Definition maybeAppend (index logTerm commit : Z) (es : list Entry) : M raftLog (Z * bool) :=
  l ← get;
  m ← lift (matchTerm l index logTerm);
  if (m : bool) then
    let lastnewi := u64 (index + zlen es) in
    ci ← lift (findConflict l es);
    (if ci =? 0 then mret tt
     else if ci <=? committed l then panic
     else
       let offset := u64 (index + 1) in
       if zlen es <? u64 (ci - offset) then panic else
       es' ← lift (zslice (u64 (ci - offset)) (zlen es) es);
       append es';; mret tt);;
    commitTo (Z.min commit lastnewi);;
    mret (lastnewi, true)
  else mret (0, false).

Definition maybeCommit (maxIndex t : Z) : M raftLog bool :=
  l ← get;
  if committed l <? maxIndex then
    r ← lift (term l maxIndex);
    t' ← lift (zeroTermOnErrCompacted r);
    if t' =? t then commitTo maxIndex;; mret true else mret false
  else mret false.

Definition stableTo (i t : Z) : M raftLog unit :=
  l ← get; u ← lift (u_stableTo i t (unst l)); modify (set_unst u).

Definition stableSnapTo (i : Z) : M raftLog unit :=
  modify (fun l => set_unst (u_stableSnapTo i (unst l)) l).

Definition restore (s : Snapshot) : M raftLog unit :=
  modify (fun l => set_unst (u_restore s) (set_committed (sIndex s) l)).

End raftLog_ops.

(* ===================================================================== *)
(** ** The log that a raftLog holds                                      *)
(* ===================================================================== *)

Section views.
  Context {St : Type} `{!Storage St} `{!StorageLaws St}.
  Local Abbreviation raftLog := (raftLog St).

(** The stable entries below [offset], and the unstable ones. *)
Definition lview (l : raftLog) : LogView :=
  let u := unst l in
  let v := sview (storage l) in
  match usnapshot u with
  | Some s => mkView (sIndex s) (sTerm s) (entries u)
  | None => mkView (base v) (baseTerm v) (take (Z.to_nat (offset u - base v - 1)) (tail v) ++ entries u)
  end.

(** Where the unstable part starts: right after the pending snapshot, or inside
    the storage; a storage that has more than the log is behind an unstable
    entry that will overwrite it. *)
Definition unstable_ok (l : raftLog) : Prop :=
  let u := unst l in
  let v := sview (storage l) in
  match usnapshot u with
  | Some s => offset u = sIndex s + 1
  | None => base v < offset u <= vlast v + 1 /\ (entries u = [] -> offset u = vlast v + 1)
  end.

Definition log_ok (l : raftLog) : Prop :=
  storage_ok (storage l) /\ unstable_ok l /\ view_ok (lview l) /\
  0 <= applied l <= committed l /\ base (lview l) <= committed l <= vlast (lview l).

Section reads.
  Context (l : raftLog) (Hok : log_ok l).
  Local Abbreviation u := (unst l).
  Local Abbreviation v := (lview l).

Lemma log_bounds : 0 <= base v /\ base v < offset u /\ vlast v + 1 < 2 ^ 64 /\ vlast v = offset u + zlen (entries u) - 1.
Proof using Hok.
  destruct Hok as (Hs & Hu & (Hb & Hl & _) & _). split; [done|]. split; [|split; [done|]]; clear Hb Hl; revert Hu;
    unfold unstable_ok, lview, vlast; destruct (usnapshot u) as [s|]; simpl; intros Hu; try lia.
  rewrite zlen_app, zlen_take by lia. lia.
Qed.

Lemma lview_fresh : entries u = [] -> usnapshot u = None -> v = sview (storage l).
Proof using Hok.
  intros He Hs. destruct Hok as (_ & Hu & _). unfold unstable_ok, lview in *. rewrite Hs, He in *.
  destruct Hu as [_ Ho]. rewrite Ho by done. unfold vlast, zlen. rewrite app_nil_r.
  replace (Z.to_nat _) with (length (tail (sview (storage l)))) by lia.
  rewrite firstn_all. by destruct (sview (storage l)).
Qed.

Lemma firstIndex_eq : firstIndex l = Ret (base v + 1).
Proof using Hok.
  pose proof log_bounds as (? & ? & ? & E). pose proof (zlen_nonneg (entries u)).
  unfold firstIndex, maybeFirstIndex. destruct Hok as (Hs & Hu & _). unfold lview, unstable_ok in *.
  destruct (usnapshot u) as [s|].
  - cbn in *. rewrite u64_id by lia. done.
  - rewrite (FirstIndex_law _ Hs). done.
Qed.

Lemma maybeLastIndex_eq :
  maybeLastIndex u = if decide (entries u = [] /\ usnapshot u = None) then None else Some (vlast v).
Proof using Hok.
  pose proof log_bounds as (? & ? & ? & E). unfold maybeLastIndex.
  destruct (decide _) as [[-> ->]|Hn]; [done|]. destruct (entries u) as [|e es] eqn:Ee; simpl.
  - destruct Hok as (_ & Hu & _). unfold unstable_ok in Hu. destruct (usnapshot u); [|naive_solver].
    rewrite E, Hu, zlen_nil. f_equal. lia.
  - rewrite zlen_cons in *. pose proof (zlen_nonneg es). zb. rewrite u64_id by lia. f_equal. lia.
Qed.

Lemma lastIndex_eq : lastIndex l = Ret (vlast v).
Proof using Hok.
  unfold lastIndex. rewrite maybeLastIndex_eq. destruct (decide _) as [[He Hs]|]; [|done].
  rewrite (lview_fresh He Hs). destruct Hok as (Hst & _). by rewrite (LastIndex_law _ Hst).
Qed.

Lemma vterm_unstable i : offset u <= i -> vterm v i = eTerm <$> znth (entries u) (i - offset u).
Proof using Hok.
  intros ?. pose proof log_bounds as (? & ? & ? & _). destruct Hok as (_ & Hu & _). clear Hok.
  unfold lview, unstable_ok, vterm, vlast in *. destruct (usnapshot u) as [s|]; simpl in *.
  - zb. do 2 f_equal. lia.
  - zb. rewrite znth_app, zlen_take by lia. zb. do 2 f_equal. lia.
Qed.

Lemma maybeTerm_eq i : base v <= i <= vlast v ->
  maybeTerm u i = Ret (if decide (i < offset u /\ usnapshot u = None) then None else vterm v i).
Proof using Hok.
  intros ?. pose proof log_bounds as (? & ? & ? & E). unfold maybeTerm. rewrite maybeLastIndex_eq.
  destruct (Z.ltb_spec i (offset u)) as [?|Hi].
  - destruct Hok as (_ & Hu & _). unfold lview, unstable_ok, vterm in *. clear Hok.
    destruct (usnapshot u) as [s|]; simpl in *.
    + rewrite decide_False by naive_solver. by zb.
    + by rewrite decide_True.
  - rewrite (decide_False (P := i < _ /\ _)) by lia. rewrite decide_False.
    + zb. rewrite u64_id by lia. rewrite vterm_unstable by done.
      destruct (znth_Some (entries u) (i - offset u)) as [e He]; [lia|].
      by rewrite (zindex_lookup _ _ _ He), He.
    + intros [He _]. rewrite He, zlen_nil in E. lia.
Qed.

Lemma vterm_stable i : usnapshot u = None -> base v <= i < offset u -> vterm v i = vterm (sview (storage l)) i.
Proof using Hok.
  intros Hs ?. pose proof log_bounds as (? & ? & ? & _). destruct Hok as (_ & Hu & _). clear Hok.
  unfold lview, unstable_ok, vterm, vlast in *. rewrite Hs in *. simpl in *.
  destruct (Z.eqb_spec i (base (sview (storage l)))); [done|].
  rewrite znth_app, zlen_take by lia. zb. by rewrite znth_take by lia.
Qed.

Lemma term_eq i : 0 <= i -> term l i = Ret (inl (default 0 (vterm v i))).
Proof using Hok.
  intros ?. pose proof log_bounds as (? & ? & ? & E). unfold term. rewrite firstIndex_eq, lastIndex_eq. cbn.
  pose proof (zlen_nonneg (entries u)). rewrite u64_id by lia.
  destruct (decide (base v <= i <= vlast v)) as [Hi|Hi].
  - zb. rewrite maybeTerm_eq by done. cbn. destruct (decide (i < offset u /\ usnapshot u = None)) as [[? Hs]|].
    + rewrite vterm_stable by (done || lia). destruct (vterm_inside v i Hi) as [t Ht].
      rewrite vterm_stable in Ht by (done || lia). destruct Hok as (Hst & _).
      by rewrite (Term_law _ _ _ Hst Ht), Ht.
    + by destruct (vterm_inside v i Hi) as [t ->].
  - destruct (vterm v i) as [t|] eqn:Ht; [by apply vterm_range in Ht|].
    destruct (Z.ltb_spec i (base v + 1 - 1)); [done|]. by zb.
Qed.

Lemma matchTerm_eq i t : 0 <= i -> matchTerm l i t = Ret (default 0 (vterm v i) =? t).
Proof using Hok. intros ?. unfold matchTerm. by rewrite term_eq. Qed.

Lemma lastTerm_eq t : vterm v (vlast v) = Some t -> lastTerm l = Ret t.
Proof using Hok.
  intros Ht. pose proof log_bounds as (? & ? & ? & E). pose proof (zlen_nonneg (entries u)).
  unfold lastTerm. rewrite lastIndex_eq. cbn. rewrite term_eq by lia. by rewrite Ht.
Qed.

Lemma vslice_unstable lo hi : offset u <= lo ->
  vslice v lo hi = take (Z.to_nat (hi - lo)) (drop (Z.to_nat (lo - offset u)) (entries u)).
Proof using Hok.
  intros ?. pose proof log_bounds as (? & ? & ? & _). destruct Hok as (_ & Hu & _). clear Hok.
  unfold lview, unstable_ok, vslice, vlast in *. destruct (usnapshot u) as [s|]; simpl in *.
  - do 3 f_equal. lia.
  - rewrite drop_app_ge by (rewrite length_take; unfold zlen in *; lia). do 3 f_equal.
    rewrite length_take. unfold zlen in *. lia.
Qed.

(** Below [offset] the entries come from the storage. *)
Lemma vslice_stable lo hi : usnapshot u = None -> base v < lo -> lo < offset u -> lo < hi ->
  vslice v lo hi = vslice (sview (storage l)) lo (Z.min hi (offset u)) ++ take (Z.to_nat (hi - offset u)) (entries u).
Proof using Hok.
  intros Hs ???. destruct Hok as (_ & Hu & _). clear Hok.
  unfold lview, unstable_ok, vslice, vlast, zlen in *. rewrite Hs in *. simpl in *.
  set (b := base _) in *. set (t := tail _) in *.
  rewrite drop_app_le by (rewrite length_take; lia). rewrite take_app. f_equal.
  - rewrite skipn_firstn_comm, take_take. f_equal. lia.
  - f_equal. rewrite length_drop, length_take. lia.
Qed.

Lemma mustCheck_eq lo hi : base v < lo <= hi -> hi <= vlast v + 1 -> mustCheckOutOfBounds l lo hi = Ret (inl tt).
Proof using Hok.
  intros ??. pose proof log_bounds as (? & ? & ? & E). unfold mustCheckOutOfBounds.
  rewrite firstIndex_eq, lastIndex_eq. zb. cbn. zb. rewrite !u64_id by (rewrite ?u64_id; lia). by zb.
Qed.

Lemma u_slice_eq lo hi : offset u <= lo <= hi -> hi <= vlast v + 1 ->
  u_slice u lo hi = Ret (take (Z.to_nat (hi - lo)) (drop (Z.to_nat (lo - offset u)) (entries u))).
Proof using Hok.
  intros ??. pose proof log_bounds as (? & ? & ? & E). unfold u_slice, u_mustCheckOutOfBounds.
  rewrite !u64_id by lia. zb. cbn. rewrite zslice_ok by lia. do 2 f_equal. lia.
Qed.

Lemma slice_unstable_eq lo hi m es : lo < hi -> hi <= vlast v + 1 ->
  slice_unstable l lo hi m es =
  Ret (inl (limitSize (es ++ take (Z.to_nat (hi - Z.max lo (offset u)))
                                  (drop (Z.to_nat (lo - offset u)) (entries u))) m)).
Proof using Hok.
  intros. pose proof log_bounds as (? & ? & ? & E). unfold slice_unstable.
  destruct (Z.ltb_spec (offset u) hi).
  - rewrite u_slice_eq by lia. cbn. do 6 f_equal. lia.
  - replace (Z.to_nat (hi - _)) with 0%nat by lia. by rewrite take_0, app_nil_r.
Qed.

Lemma slice_eq lo hi m : base v < lo <= hi -> hi <= vlast v + 1 ->
  slice l lo hi m = Ret (inl (limitSize (vslice v lo hi) m)).
Proof using Hok.
  intros ??. pose proof log_bounds as (? & ? & ? & E). unfold slice. rewrite mustCheck_eq by done. cbn.
  destruct (Z.eqb_spec lo hi) as [->|]; [unfold vslice; by rewrite Z.sub_diag|].
  destruct (Z.ltb_spec lo (offset u)) as [Hlo|Hlo].
  2:{ rewrite slice_unstable_eq by lia. rewrite vslice_unstable by lia. simpl.
      do 4 f_equal. lia. }
  assert (usnapshot u = None) as Hs.
  { destruct Hok as (_ & Hu & _). clear Hok. unfold lview, unstable_ok in *. destruct (usnapshot u); [|done]. simpl in *. lia. }
  pose proof (vslice_stable lo hi Hs ltac:(lia) Hlo ltac:(lia)) as Ev.
  destruct Hok as (Hst & Hu & _). assert (base v = base (sview (storage l))) as Eb by (unfold lview; by rewrite Hs).
  unfold unstable_ok in Hu. rewrite Hs in Hu. rewrite (Entries_law _ _ _ _ Hst) by lia. cbn.
  set (a := vslice (sview (storage l)) lo (Z.min hi (offset u))) in *.
  assert (zlen a = Z.min hi (offset u) - lo) as Ha.
  { unfold a, vslice. rewrite zlen_take; [lia|]. rewrite zlen_drop; unfold vlast in *; lia. }
  rewrite u64_id by lia. rewrite Ev. destruct (Z.ltb_spec (zlen (limitSize a m)) (Z.min hi (offset u) - lo)).
  - rewrite limitSize_app; [done|]. unfold zlen in *. lia.
  - rewrite (limitSize_full a m) by (unfold zlen in *; lia). rewrite slice_unstable_eq by lia.
    replace (Z.to_nat (lo - offset u)) with 0%nat by lia. rewrite drop_0. do 6 f_equal. lia.
Qed.

(** *** The conflict with entries from a leader *)

Lemma findConflict_eq i es : batch i es -> base v < i <= vlast v + 1 ->
  findConflict l es = Ret (match conflict_at (drop (Z.to_nat (i - base v - 1)) (tail v)) es with
                           | Some k => i + Z.of_nat k
                           | None => 0
                           end).
Proof using Hok.
  pose proof log_bounds as (? & _ & Hl & _). revert i. induction es as [|ne es IH]; intros i (? & ? & Hn & Hp) Hi; simpl.
  { by destruct (drop _ _). }
  apply numbered_cons in Hn as [Hni Hn]. apply Forall_cons in Hp as [Hne Hp]. rewrite zlen_cons in *.
  rewrite Hni, matchTerm_eq by lia. unfold vlast in *. cbn. destruct (decide (i = base v + zlen (tail v) + 1)) as [Hx|Hx].
  - rewrite drop_ge by (unfold zlen in *; lia). unfold vterm. zb. rewrite znth_outside by lia.
    cbn [fmap option_fmap option_map default from_option]. zb.
    rewrite lastIndex_eq. cbn. unfold vlast. zb. cbn. by rewrite Z.add_0_r.
  - destruct (znth_Some (tail v) (i - base v - 1)) as [o Ho]; [lia|].
    assert (vterm v i = Some (eTerm o)) as Ht by (unfold vterm; zb; by rewrite Ho).
    unfold znth in Ho. destruct (Z.ltb_spec (i - base v - 1) 0); [done|]. rewrite (drop_S _ _ _ Ho).
    rewrite Ht. cbn. destruct (Z.eqb_spec (eTerm o) (eTerm ne)); cbn.
    + rewrite (IH (i + 1)); [|split; [lia|]; split; [lia|done]|lia].
      replace (Z.to_nat (i + 1 - base v - 1)) with (S (Z.to_nat (i - base v - 1))) by lia.
      destruct (conflict_at _ es) as [k|]; simpl; f_equal. lia.
    + rewrite lastIndex_eq. cbn. unfold vlast. zb. rewrite term_eq by lia. cbn. by rewrite Z.add_0_r.
Qed.

(** *** Appending *)

Lemma truncateAndAppend_eq i es : es <> [] -> batch i es -> base v < i <= vlast v + 1 ->
  exists u', truncateAndAppend es u = Ret u' /\ unstable_ok (set_unst u' l) /\
             lview (set_unst u' l) = overwrite i es v.
Proof using Hok.
  intros Hne (? & ? & Hn & _) ?. pose proof log_bounds as (? & ? & ? & E).
  assert (zindex es 0 = Ret (default zero_entry (es !! 0%nat))) as Ez by (by destruct es).
  assert (eIndex (default zero_entry (es !! 0%nat)) = i) as Ei.
  { destruct es as [|e es]; [done|]. simpl. rewrite (Hn 0%nat e eq_refl). simpl. lia. }
  unfold truncateAndAppend. rewrite Ez. cbn. rewrite Ei, u64_id by lia. clear Ez Ei.
  assert (drop (Z.to_nat (base v + 1 - i)) es = es) as Ed by (by replace (Z.to_nat _) with 0%nat by lia).
  unfold overwrite. rewrite Ed. clear Ed.
  destruct (Z.eqb_spec i (offset u + zlen (entries u))) as [Hi|Hi]; [|destruct (Z.leb_spec i (offset u))].
  - eexists. split; [done|]. split; [|].
    + destruct Hok as (_ & Hu & _). unfold unstable_ok in *. simpl. destruct (usnapshot u); [done|].
      split; [lia|]. intros [_ ?]%app_eq_nil. done.
    + rewrite take_ge by (unfold vlast, zlen in *; lia). unfold lview. simpl.
      destruct (usnapshot u); simpl; by rewrite ?app_assoc.
  - eexists. split; [done|]. destruct Hok as (_ & Hu & _). clear Hok. unfold lview, unstable_ok, vlast in *. simpl in *.
    destruct (usnapshot u) as [s|]; simpl in *.
    + split; [lia|]. by replace (Z.to_nat (i - sIndex s - 1)) with 0%nat by lia.
    + split; [split; [lia|done]|]. rewrite take_app_le by (rewrite length_take; unfold zlen in *; lia).
      by rewrite take_take, Nat.min_l by lia.
  - rewrite u_slice_eq by lia. eexists. split; [done|]. split.
    + destruct Hok as (_ & Hu & _). unfold unstable_ok in *. simpl. destruct (usnapshot u); [done|].
      split; [lia|]. intros [_ ?]%app_eq_nil. done.
    + rewrite Z.sub_diag, drop_0. destruct Hok as (_ & Hu & _). clear Hok. unfold lview, unstable_ok, vlast in *. simpl in *.
      destruct (usnapshot u) as [s|]; simpl in *.
      * do 3 f_equal. lia.
      * f_equal. rewrite take_app_ge by (rewrite length_take; unfold zlen in *; lia). rewrite <- app_assoc.
        do 3 f_equal. rewrite length_take. unfold zlen in *. lia.
Qed.

End reads.

Section writes.
  Context (l : raftLog) (Hok : log_ok l).
  Local Abbreviation u := (unst l).
  Local Abbreviation v := (lview l).

Lemma append_eq i es : es <> [] -> batch i es -> committed l < i <= vlast v + 1 ->
  exists l', append es l = Ret (i + zlen es - 1, l') /\ log_ok l' /\ lview l' = overwrite i es v /\
    storage l' = storage l /\ committed l' = committed l /\ applied l' = applied l.
Proof using Hok.
  intros Hne Hb ?. pose proof Hok as (Hst & _ & Hv & Ha & Hc).
  destruct (truncateAndAppend_eq l Hok i es) as (u' & E & Hu' & Hl'); [done|done|lia|].
  assert (base v + 1 <= i + zlen es) by (pose proof (zlen_nonneg es); lia).
  assert (log_ok (set_unst u' l)) as Hok'.
  { split; [done|]. split; [done|]. rewrite Hl'. split; [apply overwrite_ok; done || lia|]. split; [done|].
    rewrite vlast_overwrite by lia. simpl. destruct Hb as (? & _). pose proof (zlen_nonneg es). lia. }
  exists (set_unst u' l). split; [|done].
  destruct es as [|e0 es]; [done|]. unfold append. cbv [mbind M_bind get lift].
  destruct Hb as (? & ? & Hn & _). pose proof (Hn 0%nat e0 eq_refl) as He0. rewrite Z.add_0_r in He0.
  pose proof (zlen_nonneg es). rewrite zlen_cons in *. rewrite He0, u64_id by lia. zb. rewrite E. cbn.
  rewrite (lastIndex_eq _ Hok'). rewrite Hl', vlast_overwrite by (rewrite ?zlen_cons; lia). rewrite zlen_cons. done.
Qed.

Lemma commitTo_eq c : c <= vlast v ->
  commitTo c l = Ret (tt, set_committed (Z.max (committed l) c) l) /\ log_ok (set_committed (Z.max (committed l) c) l).
Proof using Hok.
  intros ?. split.
  - unfold commitTo. cbv [mbind M_bind get lift]. destruct (Z.ltb_spec (committed l) c).
    + rewrite (lastIndex_eq _ Hok). zb. by rewrite Z.max_r by lia.
    + rewrite Z.max_l by lia. by destruct l.
  - destruct Hok as (? & ? & ? & ? & Hc). do 3 (split; [done|]).
    change (lview (set_committed _ l)) with v. simpl. lia.
Qed.

End writes.

Section messages.
  Context (l : raftLog) (Hok : log_ok l).
  Local Abbreviation v := (lview l).

Lemma maybeAppend_match index logTerm c es :
  committed l <= index -> batch (index + 1) es -> vterm v index = Some logTerm ->
  exists l', maybeAppend index logTerm c es l = Ret ((index + zlen es, true), l') /\ log_ok l' /\
    lview l' = graft index es v /\ committed l' = Z.max (committed l) (Z.min c (index + zlen es)) /\
    storage l' = storage l /\ applied l' = applied l.
Proof using Hok.
  intros Hc Hb Ht. pose proof (log_bounds l Hok) as (? & ? & ? & E). pose proof Hok as (_ & _ & Hv & Ha & Hcv).
  pose proof (vterm_range _ _ _ Ht). pose proof (zlen_nonneg es).
  unfold maybeAppend. cbv [mbind M_bind get lift].
  rewrite matchTerm_eq by (done || lia). rewrite Ht. cbn [default from_option]. rewrite Z.eqb_refl.
  rewrite (findConflict_eq l Hok (index + 1)) by (done || lia).
  destruct Hb as (? & ? & Hn & Hp). rewrite (u64_id (index + zlen es)) by lia.
  replace (Z.to_nat (index + 1 - base v - 1)) with (Z.to_nat (index - base v)) by lia.
  rewrite graft_conflict by lia. destruct (conflict_at _ es) as [k|] eqn:Ek.
  - apply conflict_at_lt in Ek as [Hk Hk']. rewrite length_drop in Hk'.
    assert (index + 1 + Z.of_nat k <= vlast v + 1) by (unfold vlast, zlen in *; lia).
    zb. unfold zlen in *. rewrite !u64_id by (rewrite ?u64_id; lia).
    zb. rewrite zslice_ok by (unfold zlen; lia).
    replace (Z.to_nat (index + 1 + Z.of_nat k - (index + 1))) with k by lia.
    rewrite take_ge by (rewrite length_drop; unfold zlen; lia).
    destruct (append_eq l Hok (index + 1 + Z.of_nat k) (drop k es)) as (l1 & E1 & Hok1 & Hv1 & Hs1 & Hc1 & Ha1).
    + intros Hd%(f_equal length). rewrite length_drop in Hd. simpl in Hd. lia.
    + split; [lia|]. unfold zlen. rewrite length_drop. split; [lia|]. split; [|by apply Forall_drop].
      apply numbered_drop; [lia|done].
    + lia.
    + rewrite E1. cbn. destruct (commitTo_eq l1 Hok1 (Z.min c (index + Z.of_nat (length es)))) as [E2 Hok2].
      { rewrite Hv1, vlast_overwrite; unfold zlen in *; rewrite ?length_drop; lia. }
      rewrite E2. eexists. split; [done|]. split; [done|]. simpl. rewrite Hc1.
      split; [by rewrite <- Hv1|done].
  - zb. cbn. destruct (commitTo_eq l Hok (Z.min c (index + zlen es))) as [E2 Hok2].
    { apply conflict_at_none in Ek. rewrite length_drop in Ek. unfold vlast, zlen in *. lia. }
    rewrite E2. eexists. split; [done|]. split; [done|]. done.
Qed.

Lemma maybeAppend_mismatch index logTerm c es :
  0 <= index -> (logTerm = 0 -> index = 0) -> committed l <= index -> vterm v index <> Some logTerm ->
  maybeAppend index logTerm c es l = Ret ((0, false), l).
Proof using Hok.
  intros ? H0 Hc Ht. unfold maybeAppend. cbv [mbind M_bind get lift]. rewrite matchTerm_eq by done.
  destruct (vterm v index) as [t|] eqn:Et; cbn [default from_option id].
  - by rewrite (proj2 (Z.eqb_neq t logTerm)) by congruence.
  - rewrite (proj2 (Z.eqb_neq 0 logTerm)); [done|]. intros <-. rewrite H0 in * by done.
    destruct (vterm_inside v 0) as [t Ht']; [|congruence].
    destruct Hok as (_ & _ & (? & _) & ? & ?). lia.
Qed.

Lemma nextEnts_eq :
  nextEnts l = Ret (limitSize (vslice v (Z.max (applied l) (base v) + 1) (committed l + 1)) (maxNextEntsSize l)).
Proof using Hok.
  pose proof (log_bounds l Hok) as (? & ? & ? & E). pose proof Hok as (_ & _ & _ & Ha & Hcv).
  unfold nextEnts. rewrite firstIndex_eq by done. cbn. rewrite !u64_id by lia.
  replace (Z.max (applied l + 1) (base v + 1)) with (Z.max (applied l) (base v) + 1) by lia.
  destruct (Z.ltb_spec (Z.max (applied l) (base v) + 1) (committed l + 1)).
  - rewrite slice_eq by (done || lia). done.
  - unfold vslice. by replace (Z.to_nat (committed l + 1 - _)) with 0%nat by lia.
Qed.

Lemma hasNextEnts_eq : hasNextEnts l = Ret (Z.max (applied l) (base v) <? committed l).
Proof using Hok.
  pose proof (log_bounds l Hok) as (? & ? & ? & E). pose proof Hok as (_ & _ & _ & Ha & Hcv).
  unfold hasNextEnts. rewrite firstIndex_eq by done. cbn. rewrite !u64_id by lia. f_equal.
  apply eq_bool_prop_intro. rewrite !Is_true_true, !Z.ltb_lt. lia.
Qed.

Lemma appliedTo_eq i : applied l <= i <= committed l ->
  appliedTo i l = Ret (tt, set_applied i l) /\ log_ok (set_applied i l).
Proof using Hok.
  intros ?. pose proof Hok as (? & ? & ? & Ha & Hc). unfold appliedTo. cbv [mbind M_bind get]. split.
  - destruct (Z.eqb_spec i 0) as [->|]; [|by zb]. replace 0 with (applied l) by lia. by destruct l.
  - do 3 (split; [done|]). split; [simpl; lia|done].
Qed.

(** The loop of [findConflictByTerm] walks down to an index whose term is small
    enough, or to the one before the log. *)
Lemma conflict_loop_eq t n index fuel :
  0 <= t -> index = base v - 1 + Z.of_nat n -> index <= vlast v -> 0 <= index -> (Z.to_nat index + 2 <= fuel)%nat ->
  exists r, conflict_loop fuel l index t = Ret r /\ base v - 1 <= r <= index /\
    (forall tr, vterm v r = Some tr -> tr <= t) /\
    (forall j tj, r < j <= index -> vterm v j = Some tj -> t < tj).
Proof using Hok.
  intros Ht. revert index fuel. induction n as [|n IH]; intros index fuel Hi Hl H0 Hf;
    (destruct fuel as [|fuel]; [lia|]); cbn [conflict_loop]; rewrite term_eq by done; cbn.
  - destruct (vterm v index) as [ti|] eqn:Et; [apply vterm_range in Et; lia|]. cbn. zb.
    exists index. split; [done|]. split; [lia|]. split; [by rewrite Et|intros; lia].
  - destruct (vterm_inside v index) as [ti Et]; [lia|]. rewrite Et. cbn.
    destruct (Z.leb_spec ti t).
    + exists index. split; [done|]. split; [lia|]. split; [by rewrite Et; intros; simplify_eq|intros; lia].
    + assert (0 < index).
      { pose proof Hok as (_ & _ & Hv & _). destruct (vterm_pos _ _ _ Hv Et); [|lia].
        destruct (decide (index = 0)) as [->|]; [|lia].
        destruct Hv as (? & _ & _ & Hz & _). unfold vterm in Et. rewrite (proj2 (Z.eqb_eq 0 (base v))) in Et by lia.
        simplify_eq. lia. }
      pose proof (log_bounds l Hok) as (? & ? & ? & E). rewrite u64_id by lia.
      destruct (IH (index - 1) fuel) as (r & -> & ? & Hr & Hj); [lia..|].
      exists r. split; [done|]. split; [lia|]. split; [done|]. intros j tj Hjr Etj.
      destruct (decide (j = index)) as [->|]; [congruence|]. apply (Hj j); [lia|done].
Qed.

End messages.

Lemma newLog_eq st m : storage_ok st ->
  exists l, newLogWithSize st m = Ret l /\ log_ok l /\ lview l = sview st /\ storage l = st /\
    committed l = base (sview st) /\ applied l = base (sview st).
Proof.
  intros Hs. pose proof (sview_ok _ Hs) as Hv. pose proof Hv as (Hb & Hl & _). unfold newLogWithSize.
  rewrite (FirstIndex_law _ Hs), (LastIndex_law _ Hs). cbn.
  pose proof (zlen_nonneg (tail (sview st))). unfold vlast in *. rewrite !u64_id by lia.
  replace (base (sview st) + 1 - 1) with (base (sview st)) by lia. eexists. split; [done|].
  match goal with |- log_ok ?l /\ _ => assert (lview l = sview st) as El end.
  { unfold lview. simpl. rewrite app_nil_r, take_ge by (unfold zlen; lia). by destruct (sview st). }
  split; [|done]. split; [done|]. split; [unfold unstable_ok; simpl; unfold vlast; lia|].
  rewrite El. unfold vlast. simpl. split; [done|]. lia.
Qed.

Lemma restore_eq s (l : raftLog) : log_ok l -> committed l <= sIndex s -> 0 < sIndex s -> 0 < sTerm s -> sIndex s + 1 < 2 ^ 64 ->
  exists l', restore s l = Ret (tt, l') /\ log_ok l' /\ lview l' = mkView (sIndex s) (sTerm s) [] /\
    storage l' = storage l /\ committed l' = sIndex s /\ applied l' = applied l.
Proof.
  intros (Hst & _ & _ & Ha & _) ????. eexists. split; [done|]. split; [|done].
  split; [done|]. unfold unstable_ok, lview, view_ok, vlast, zlen. simpl. rewrite u64_id by lia.
  split; [done|]. split; [|lia]. repeat split; try lia; done.
Qed.

End views.

(* ===================================================================== *)
(** ** The log and its storage                                           *)
(* ===================================================================== *)

(** Both the node and the application hold a pointer to the storage. *)
Definition stable_storage : lens (raftLog MemoryStorage) MemoryStorage :=
  mkLens storage (fun ms l => mkLog ms (unst l) (committed l) (applied l) (maxNextEntsSize l)).

(** What the event loop of src/raftexample/raft.go does to the storage with the
    entries and the snapshot of a [Ready]. *)
Definition save (snap : option Snapshot) (es : list Entry) : M MemoryStorage unit :=
  (match snap with
   | Some s => if sIndex s =? 0 then mret tt else ApplySnapshot s;; mret tt
   | None => mret tt
   end);;
  Append es;;
  mret tt.

(** The calls of [raft.advance] on the log for that [Ready]. *)
Definition acknowledge {St} (snap : option Snapshot) (es : list Entry) : M (raftLog St) unit :=
  (match last es with
   | Some e => stableTo (eIndex e) (eTerm e)
   | None => mret tt
   end);;
  match snap with
  | Some s => if sIndex s =? 0 then mret tt else stableSnapTo (sIndex s)
  | None => mret tt
  end.

Definition persist : M (raftLog MemoryStorage) unit :=
  l ← get;
  let snap := usnapshot (unst l) in
  let es := unstableEntries l in
  zoom stable_storage (save snap es);;
  acknowledge snap es.

Section persistence.
  Context (l : raftLog MemoryStorage) (Hok : log_ok l).
  Local Abbreviation u := (unst l).
  Local Abbreviation v := (lview l).

Lemma unstable_batch : batch (offset u) (entries u).
Proof using Hok.
  pose proof (log_bounds l Hok) as (? & ? & ? & E). destruct Hok as (_ & Hu & (_ & _ & Hn & _ & _ & Hp) & _).
  split; [lia|]. split; [lia|]. clear E. unfold lview, unstable_ok, vlast in *.
  destruct (usnapshot u) as [s|]; simpl in *; [by rewrite Hu|].
  apply numbered_app in Hn as [_ Hn]. apply Forall_app in Hp as [_ Hp]. split; [|done].
  rewrite zlen_take in Hn by lia. by replace (offset u) with (base (ms_view (storage l)) + 1 + (offset u - base (ms_view (storage l)) - 1)) by lia.
Qed.

(** [Append] of the unstable entries, to a storage that has what precedes them. *)
Lemma append_unstable ms :
  ms_ok ms -> base (ms_view ms) < offset u <= vlast (ms_view ms) + 1 -> zlen (tail v) < MaxInt64 ->
  overwrite (offset u) (entries u) (ms_view ms) = v -> (entries u = [] -> ms_view ms = v) ->
  exists ms', Append (entries u) ms = Ret (inl tt, ms') /\ ms_ok ms' /\ ms_view ms' = v /\ snapshot ms' = snapshot ms.
Proof using Hok.
  intros Hms Hb Hlen Hv He. destruct (decide (entries u = [])) as [E|E].
  { exists ms. rewrite E. by auto. }
  pose proof (zlen_nonneg (entries u)).
  destruct (Append_eq ms Hms (offset u) (entries u)) as (ms' & EA & Hv' & Hok' & Hs' & _); try done; try lia.
  - apply unstable_batch.
  - assert (zlen (entries u) <> 0); [|lia]. destruct (entries u); [done|]. rewrite zlen_cons. pose proof (zlen_nonneg l0). lia.
  - by rewrite Hv.
  - exists ms'. rewrite Hv' in *. by rewrite <- Hv.
Qed.

Lemma save_eq :
  (forall s, usnapshot u = Some s -> sIndex (snapshot (storage l)) < sIndex s /\ 0 < sIndex s) ->
  zlen (tail v) < MaxInt64 ->
  exists ms', save (usnapshot u) (entries u) (storage l) = Ret (tt, ms') /\ ms_ok ms' /\ ms_view ms' = v.
Proof using Hok.
  intros Hsn Hlen. pose proof (log_bounds l Hok) as (? & ? & ? & E). pose proof (zlen_nonneg (entries u)).
  pose proof Hok as (Hst & Hu & (_ & _ & _ & _ & Hbt & _) & _). unfold save. cbv [mbind M_bind].
  destruct (usnapshot u) as [s|] eqn:Es.
  - destruct (Hsn s eq_refl) as [Hi Hi0].
    assert (v = mkView (sIndex s) (sTerm s) (entries u)) as Ev by (unfold lview; by rewrite Es).
    unfold unstable_ok in Hu. rewrite Es in Hu.
    pose proof (ApplySnapshot_eq (storage l) s) as HA. rewrite Ev in Hbt. simpl in *.
    rewrite (proj2 (Z.leb_gt _ _) Hi) in HA. destruct HA as (ms1 & E1 & Hok1 & Hs1 & Hv1 & _); [lia..|].
    zb. rewrite E1. cbn.
    destruct (append_unstable ms1) as (ms' & E2 & Hok2 & Hv2 & _); try done.
    + rewrite Hv1. unfold vlast. simpl. rewrite zlen_nil. lia.
    + rewrite Hv1, Ev. unfold overwrite. simpl. rewrite firstn_nil.
      by replace (Z.to_nat (sIndex s + 1 - offset u)) with 0%nat by lia.
    + intros He. by rewrite Hv1, Ev, He.
    + rewrite E2. exists ms'. done.
  - unfold unstable_ok in Hu. rewrite Es in Hu. simpl in Hu.
    destruct (append_unstable (storage l)) as (ms' & E2 & Hok2 & Hv2 & _); try done; try lia.
    + unfold lview, overwrite. rewrite Es. simpl.
      by replace (Z.to_nat (base (ms_view (storage l)) + 1 - offset u)) with 0%nat by lia.
    + intros He. exact (eq_sym (lview_fresh l Hok He Es)).
    + cbn. rewrite E2. exists ms'. done.
Qed.

(** Once everything unstable has been saved, it is stable. *)
Lemma acknowledge_eq ms' :
  (forall s, usnapshot u = Some s -> 0 < sIndex s) ->
  acknowledge (usnapshot u) (entries u) (put stable_storage ms' l) =
  Ret (tt, mkLog ms' (mkUnstable None [] (vlast v + 1)) (committed l) (applied l) (maxNextEntsSize l)).
Proof using Hok.
  intros Hsn. pose proof (log_bounds l Hok) as (? & ? & ? & E). unfold acknowledge.
  assert (forall es, (match usnapshot u with
            | Some s => if sIndex s =? 0 then mret tt else stableSnapTo (sIndex s)
            | None => mret tt
            end) (mkLog ms' (mkUnstable (usnapshot u) es (vlast v + 1)) (committed l) (applied l) (maxNextEntsSize l))
          = Ret (tt, mkLog ms' (mkUnstable None es (vlast v + 1)) (committed l) (applied l) (maxNextEntsSize l))) as Hsnap.
  { intros es. destruct (usnapshot u) as [s|]; [|done]. pose proof (Hsn s eq_refl). zb.
    unfold stableSnapTo, modify, u_stableSnapTo. simpl. by rewrite Z.eqb_refl. }
  cbv [mbind M_bind]. destruct (last (entries u)) as [e|] eqn:El.
  - assert (vterm v (vlast v) = Some (eTerm e) /\ eIndex e = vlast v) as [Ht Ei].
    { rewrite last_lookup in El. assert (length (entries u) <> 0%nat) by (intros Hz; by rewrite (nil_length_inv _ Hz) in El).
      pose proof unstable_batch as (_ & _ & Hn & _). pose proof (Hn _ _ El) as Hi.
      split; [|unfold zlen in *; lia]. rewrite vterm_unstable by (done || unfold zlen in *; lia).
      unfold znth, zlen in *. zb. replace (Z.to_nat (vlast v - offset u)) with (Init.Nat.pred (length (entries u))) by (unfold zlen in *; lia).
      by rewrite El. }
    assert (entries u <> []) as Hne by (by intros Hz; rewrite Hz in El).
    assert (0 < zlen (entries u)) by (destruct (entries u); [done|]; rewrite zlen_cons; pose proof (zlen_nonneg l0); lia).
    unfold stableTo. cbv [mbind M_bind get lift]. simpl. unfold u_stableTo.
    rewrite (maybeTerm_eq l Hok) by lia. rewrite decide_False by lia. rewrite Ei, Ht. cbn.
    rewrite Z.eqb_refl. zb. rewrite (u64_id (vlast v + 1)), u64_id by lia. rewrite zslice_ok by lia.
    rewrite drop_ge by (unfold zlen in *; lia). rewrite take_nil. cbn. apply Hsnap.
  - apply last_None in El. rewrite El, zlen_nil in *. cbn.
    etrans; [|apply Hsnap]. f_equal. unfold put, stable_storage. f_equal.
    rewrite <- El. replace (vlast v + 1) with (offset u) by lia. by destruct u.
Qed.

End persistence.

(* ===================================================================== *)
(** ** Applying                                                          *)
(* ===================================================================== *)

Section applying.
  Context {St : Type} `{!Storage St} `{!StorageLaws St}.

(** What the application sees over several [Ready]s: the entries of [nextEnts],
    each batch followed by [appliedTo] its last index as [raft.advance] does. *)
Fixpoint deliver (fuel : nat) (l : raftLog St) : outcome (list Entry * raftLog St) :=
  match fuel with
  | O => Block
  | S fuel' =>
      has ← hasNextEnts l;
      if (has : bool) then
        ents ← nextEnts l;
        match last ents with
        | Some e =>
            '(_, l1) ← appliedTo (eIndex e) l;
            '(rest, l2) ← deliver fuel' l1;
            Ret (ents ++ rest, l2)
        | None => Block
        end
      else Ret ([], l)
  end.

Lemma deliver_eq fuel l : log_ok l -> (Z.to_nat (committed l - applied l) < fuel)%nat ->
  deliver fuel l = Ret (vslice (lview l) (Z.max (applied l) (base (lview l)) + 1) (committed l + 1),
                        if Z.max (applied l) (base (lview l)) <? committed l then set_applied (committed l) l else l).
Proof.
  revert l. induction fuel as [|fuel IH]; intros l Hok Hf; [lia|]. cbn [deliver].
  pose proof Hok as (_ & _ & Hv & Ha & Hc). rewrite (hasNextEnts_eq l Hok). cbn.
  remember (Z.max (applied l) (base (lview l))) as lo eqn:Elo.
  destruct (Z.ltb_spec lo (committed l)).
  2:{ do 2 f_equal. unfold vslice. by replace (Z.to_nat _) with 0%nat by lia. }
  rewrite (nextEnts_eq l Hok), <- Elo. cbn.
  assert (zlen (vslice (lview l) (lo + 1) (committed l + 1)) = committed l - lo) as Hlen.
  { rewrite zlen_vslice by lia. lia. }
  assert (numbered (lo + 1) (vslice (lview l) (lo + 1) (committed l + 1))) as Hn.
  { apply numbered_vslice; [done|lia..]. }
  pose proof (limitSize_prefix (vslice (lview l) (lo + 1) (committed l + 1)) (maxNextEntsSize l)) as [rest Er].
  set (ents := limitSize _ _) in *.
  destruct (last ents) as [e|] eqn:El.
  2:{ apply last_None in El. subst ents. destruct (vslice _ _ _) in El, Hlen; [|done]. rewrite zlen_nil in Hlen. lia. }
  assert (eIndex e = lo + zlen ents /\ 0 < zlen ents) as [Ei Hpos].
  { rewrite last_lookup in El. pose proof (lookup_lt_Some _ _ _ El). rewrite Er in Hn. apply numbered_app in Hn as [Hn _].
    rewrite (Hn _ _ El). unfold zlen. lia. }
  rewrite Er, zlen_app in Hlen. pose proof (zlen_nonneg rest).
  destruct (appliedTo_eq l Hok (eIndex e)) as [EA Hok1]; [lia|]. rewrite EA. cbn.
  rewrite (IH _ Hok1) by (simpl; lia). cbn. change (lview (set_applied _ l)) with (lview l).
  rewrite (Z.max_l (eIndex e)) by lia. do 2 f_equal.
  - rewrite Er. f_equal. rewrite Ei. replace (lo + zlen ents + 1) with (lo + 1 + Z.of_nat (length ents)) by (unfold zlen; lia).
    rewrite <- drop_vslice by (unfold zlen in *; lia). by rewrite Er, drop_app_length.
  - destruct (Z.ltb_spec (eIndex e) (committed l)); [done|]. by replace (eIndex e) with (committed l) by lia.
Qed.

End applying.

(* ===================================================================== *)
(** ** Theorems                                                          *)
(* ===================================================================== *)

(** A log with three stable entries, one unstable, three committed, one
    applied. *)
Definition demo_entry (t i : Z) : Entry := mkEntry t i EntryNormal (Some (bs "x")).
Definition demo_ms : MemoryStorage :=
  mkMS zero_HardState zero_Snapshot [zero_entry; demo_entry 1 1; demo_entry 1 2; demo_entry 2 3].
Definition demo_log : raftLog MemoryStorage := mkLog demo_ms (mkUnstable None [demo_entry 2 4] 4) 3 1 noLimit.

Lemma demo_log_ok : log_ok demo_log.
Proof.
  assert (view_ok (ms_view demo_ms)) as Hs.
  { unfold view_ok, vlast, numbered. cbn. repeat split; try lia; try done.
    - by intros [|[|[|[|k]]]] e E; simplify_eq/=.
    - repeat constructor. }
  split; [by split|]. split; [unfold unstable_ok, vlast, zlen; cbn; split; [lia|done]|].
  split; [|repeat split; by vm_compute]. unfold view_ok, vlast, numbered. cbn. repeat split; try lia; try done.
  - by intros [|[|[|[|[|k]]]]] e E; simplify_eq/=.
  - repeat constructor.
Qed.

Section theorems.
  Context {St : Type} `{!Storage St} `{!StorageLaws St}.

(** C19: [maybeAppend] implements raft's rule for a follower. When the log has
    the previous entry of the message, the log becomes the one in which the
    entries of the message follow it: entries that agree are kept and the first
    conflict and all after it are replaced, the committed entries are
    untouched, and every entry of the message is in the log with its term. The
    commit index rises to the leader's, at most to the last entry of the
    message, and never falls. Otherwise nothing changes and the answer is
    [(0, false)]. It panics in neither case. *)
Theorem maybe_append_spec (l : raftLog St) index logTerm c es :
  log_ok l -> committed l <= index -> batch (index + 1) es -> (logTerm = 0 -> index = 0) ->
  if decide (vterm (lview l) index = Some logTerm) then
    exists l', maybeAppend index logTerm c es l = Ret ((index + zlen es, true), l') /\ log_ok l' /\
      lview l' = graft index es (lview l) /\
      (forall lo hi, base (lview l) < lo -> hi <= committed l + 1 -> vslice (lview l') lo hi = vslice (lview l) lo hi) /\
      (forall k e, es !! k = Some e -> term l' (index + 1 + Z.of_nat k) = Ret (inl (eTerm e))) /\
      committed l' = Z.max (committed l) (Z.min c (index + zlen es)) /\
      applied l' = applied l /\ storage l' = storage l
  else maybeAppend index logTerm c es l = Ret ((0, false), l).
Proof.
  intros Hok Hc Hb Hz. pose proof Hok as (_ & _ & (? & _) & ? & ?). destruct (decide _) as [Ht|Ht].
  - pose proof (vterm_range _ _ _ Ht).
    destruct (maybeAppend_match l Hok index logTerm c es Hc Hb Ht) as (l' & E & Hok' & Hv & Hc' & Hs & Ha).
    exists l'. split; [done|]. split; [done|]. split; [done|]. split; [|split; [|done]].
    + intros lo hi ??. rewrite Hv. apply vslice_graft; lia.
    + intros k e Ee. rewrite (term_eq l' Hok') by lia. rewrite Hv, (vterm_graft_new _ _ _ _ _ ltac:(eauto) Ee). done.
  - by apply maybeAppend_mismatch; try lia.
Qed.

(** The application gets every committed entry once, in order: taking the
    batches of [nextEnts] and acknowledging each with [appliedTo], as the event
    loop does, ends, whatever the limit on the size of a batch, and hands out
    exactly the entries after the applied index (or after the snapshot, if that
    is later) up to the commit index. *)
Theorem apply_all (l : raftLog St) : log_ok l ->
  deliver (S (Z.to_nat (committed l - applied l))) l =
  Ret (vslice (lview l) (Z.max (applied l) (base (lview l)) + 1) (committed l + 1),
       if Z.max (applied l) (base (lview l)) <? committed l then set_applied (committed l) l else l).
Proof. intros Hok. apply deliver_eq; [done|lia]. Qed.

(** [findConflictByTerm] on an index of the log returns the largest index
    at most the given one whose term is at most the given term; if there is
    none, it returns the index before the dummy entry, [firstIndex() - 2], where
    its comment promises the first index of the log. *)
Theorem find_conflict_by_term_spec (l : raftLog St) index t :
  log_ok l -> 0 <= t -> base (lview l) <= index <= vlast (lview l) ->
  exists r, findConflictByTerm l index t = Ret r /\ r <= index /\
    (forall j tj, r < j <= index -> vterm (lview l) j = Some tj -> t < tj) /\
    ((exists tr, vterm (lview l) r = Some tr /\ tr <= t) \/ r = base (lview l) - 1).
Proof.
  intros Hok Ht Hi. pose proof Hok as (_ & _ & (? & _) & _). unfold findConflictByTerm.
  rewrite (lastIndex_eq l Hok). cbn. zb.
  destruct (conflict_loop_eq l Hok t (Z.to_nat (index - base (lview l) + 1)) index (Z.to_nat index + 2))
    as (r & E & Hr & Hle & Hgt); try lia.
  exists r. split; [done|]. split; [lia|]. split; [done|].
  destruct (decide (r = base (lview l) - 1)); [by right|left].
  destruct (vterm_inside (lview l) r) as [tr Etr]; [lia|]. eauto.
Qed.

End theorems.

Lemma maybe_append_spec_witness :
  exists l', maybeAppend 3 2 5 [demo_entry 3 4; demo_entry 3 5] demo_log = Ret ((5, true), l') /\
    log_ok l' /\ committed l' = 5.
Proof.
  pose proof (maybe_append_spec demo_log 3 2 5 [demo_entry 3 4; demo_entry 3 5] demo_log_ok) as H.
  rewrite decide_True in H by done. destruct H as (l' & E & Hok & _ & _ & _ & Hc & _).
  - done.
  - split; [done|]. split; [done|]. split; [|by repeat constructor].
    by intros [|[|[|k]]] e E; simplify_eq/=.
  - done.
  - by exists l'.
Defined.

Lemma apply_all_witness :
  deliver 3 demo_log = Ret ([demo_entry 1 2; demo_entry 2 3], set_applied 3 demo_log).
Proof. exact (apply_all demo_log demo_log_ok). Defined.

Lemma find_conflict_by_term_spec_witness :
  exists r, findConflictByTerm demo_log 4 1 = Ret r /\ r <= 4.
Proof.
  destruct (find_conflict_by_term_spec demo_log 4 1 demo_log_ok) as (r & E & Hr & _).
  - done.
  - unfold vlast. by vm_compute.
  - by exists r.
Defined.

(** C20: Saving what is unstable and acknowledging it, as one round of the event
    loop does, does not change the log: the storage then holds all of it, nothing
    is unstable, and the snapshot, if there was one, is the new base. *)
Theorem persist_spec (l : raftLog MemoryStorage) :
  log_ok l -> zlen (tail (lview l)) < MaxInt64 ->
  (forall s, usnapshot (unst l) = Some s -> sIndex (snapshot (storage l)) < sIndex s /\ 0 < sIndex s) ->
  exists l', persist l = Ret (tt, l') /\ log_ok l' /\ lview l' = lview l /\ ms_view (storage l') = lview l /\
    unst l' = mkUnstable None [] (vlast (lview l) + 1) /\ committed l' = committed l /\ applied l' = applied l.
Proof.
  intros Hok Hlen Hsn. destruct (save_eq l Hok Hsn Hlen) as (ms' & E & Hms & Hv).
  unfold persist, zoom. cbv [mbind M_bind get]. simpl view. unfold unstableEntries. rewrite E.
  rewrite (acknowledge_eq l Hok ms') by (intros s Hs; by apply Hsn). eexists. split; [done|].
  match goal with |- log_ok ?x /\ _ => assert (lview x = lview l) as El end.
  { unfold lview at 1. simpl. rewrite Hv, app_nil_r, take_ge by (unfold vlast, zlen; lia). by destruct (lview l). }
  split; [|done]. pose proof Hok as (_ & _ & Hvo & Ha & Hc). pose proof (log_bounds l Hok) as (? & ? & ? & Eo).
  pose proof (zlen_nonneg (entries (unst l))).
  split; [done|]. split; [unfold unstable_ok; simpl; rewrite Hv; lia|]. by rewrite El.
Qed.

Lemma persist_spec_witness : exists l', persist demo_log = Ret (tt, l') /\ lview l' = lview demo_log.
Proof.
  destruct (persist_spec demo_log demo_log_ok) as (l' & E & _ & Hv & _).
  - done.
  - done.
  - by exists l'.
Defined.
