(* ===== verification/Tracker.v ===== *)
(** * Tracker: what a leader knows of its followers (src/etcd/raft/tracker)

    [Inflights] is a ring buffer of the messages a follower has not
    acknowledged, [Progress] the state of one follower, [ProgressTracker] the
    configuration of the group with the progress and the vote of each member.
    Loops over a Go map take the runtime's iteration counter. The [String]
    methods only print. *)

From stdpp Require Import sorting.
From S2P Require Import Prelude RaftPb Quorum.

(* ===================================================================== *)
(** ** Inflights                                                         *)
(* ===================================================================== *)

(** The numbers are [int]s below the length of a slice: they do not overflow. *)
Record Inflights : Type := mkInflights {
  start : Z;
  count : Z;
  isize : Z;
  buffer : list Z
}.

Definition NewInflights (size : Z) : Inflights := mkInflights 0 0 size [].

Definition Full (i : Inflights) : bool := count i =? isize i.

Definition Count (i : Inflights) : Z := count i.

Definition grow (i : Inflights) : Inflights :=
  let newSize := zlen (buffer i) * 2 in
  let newSize := if newSize =? 0 then 1 else if isize i <? newSize then isize i else newSize in
  mkInflights (start i) (count i) (isize i)
    (take (Z.to_nat newSize) (buffer i) ++ replicate (Z.to_nat newSize - length (buffer i)) 0).

Definition Add (inflight : Z) (i : Inflights) : outcome Inflights :=
  if Full i then Panic else
  let next := start i + count i in
  let next := if isize i <=? next then next - isize i else next in
  let i := if zlen (buffer i) <=? next then grow i else i in
  if (0 <=? next) && (next <? zlen (buffer i)) then
    Ret (mkInflights (start i) (count i + 1) (isize i) (<[Z.to_nat next := inflight]> (buffer i)))
  else Panic.

(** The loop of [FreeLE]: [n] in-flight messages are left to look at, [k] have
    been freed. *)
Fixpoint free_loop (i : Inflights) (to : Z) (n : nat) (idx k : Z) : outcome (Z * Z) :=
  match n with
  | O => Ret (idx, k)
  | S n' =>
      x ← zindex (buffer i) idx;
      if to <? x then Ret (idx, k) else
      let idx := idx + 1 in
      free_loop i to n' (if isize i <=? idx then idx - isize i else idx) (k + 1)
  end.

Definition FreeLE (to : Z) (i : Inflights) : outcome Inflights :=
  if count i =? 0 then Ret i else
  x ← zindex (buffer i) (start i);
  if to <? x then Ret i else
  '(idx, k) ← free_loop i to (Z.to_nat (count i)) (start i) 0;
  let c := count i - k in
  Ret (mkInflights (if c =? 0 then 0 else idx) c (isize i) (buffer i)).

Definition FreeFirstOne (i : Inflights) : outcome Inflights :=
  x ← zindex (buffer i) (start i); FreeLE x i.

Definition inflights_reset (i : Inflights) : Inflights := mkInflights 0 0 (isize i) (buffer i).

(* ===================================================================== *)
(** ** Progress                                                          *)
(* ===================================================================== *)

Inductive StateType : Type := StateProbe | StateReplicate | StateSnapshot.

#[export] Instance StateType_eq_dec : EqDecision StateType.
Proof. solve_decision. Defined.

Record Progress : Type := mkProgress {
  Match : Z;
  Next : Z;
  State : StateType;
  PendingSnapshot : Z;
  RecentActive : bool;
  ProbeSent : bool;
  pInflights : Inflights;
  IsLearner : bool
}.

Definition set_Match (m : Z) (p : Progress) : Progress :=
  mkProgress m (Next p) (State p) (PendingSnapshot p) (RecentActive p) (ProbeSent p) (pInflights p) (IsLearner p).
Definition set_Next (n : Z) (p : Progress) : Progress :=
  mkProgress (Match p) n (State p) (PendingSnapshot p) (RecentActive p) (ProbeSent p) (pInflights p) (IsLearner p).
Definition set_PendingSnapshot (s : Z) (p : Progress) : Progress :=
  mkProgress (Match p) (Next p) (State p) s (RecentActive p) (ProbeSent p) (pInflights p) (IsLearner p).
Definition set_RecentActive (b : bool) (p : Progress) : Progress :=
  mkProgress (Match p) (Next p) (State p) (PendingSnapshot p) b (ProbeSent p) (pInflights p) (IsLearner p).
Definition set_ProbeSent (b : bool) (p : Progress) : Progress :=
  mkProgress (Match p) (Next p) (State p) (PendingSnapshot p) (RecentActive p) b (pInflights p) (IsLearner p).
Definition set_Inflights (i : Inflights) (p : Progress) : Progress :=
  mkProgress (Match p) (Next p) (State p) (PendingSnapshot p) (RecentActive p) (ProbeSent p) i (IsLearner p).
Definition set_IsLearner (b : bool) (p : Progress) : Progress :=
  mkProgress (Match p) (Next p) (State p) (PendingSnapshot p) (RecentActive p) (ProbeSent p) (pInflights p) b.

Definition ResetState (st : StateType) (p : Progress) : Progress :=
  mkProgress (Match p) (Next p) st 0 (RecentActive p) false (inflights_reset (pInflights p)) (IsLearner p).

Definition ProbeAcked (p : Progress) : Progress := set_ProbeSent false p.

Definition BecomeProbe (p : Progress) : Progress :=
  match State p with
  | StateSnapshot =>
      let pendingSnapshot := PendingSnapshot p in
      let p := ResetState StateProbe p in
      set_Next (Z.max (u64 (Match p + 1)) (u64 (pendingSnapshot + 1))) p
  | _ => let p := ResetState StateProbe p in set_Next (u64 (Match p + 1)) p
  end.

Definition BecomeReplicate (p : Progress) : Progress :=
  let p := ResetState StateReplicate p in set_Next (u64 (Match p + 1)) p.

Definition BecomeSnapshot (snapshoti : Z) (p : Progress) : Progress :=
  set_PendingSnapshot snapshoti (ResetState StateSnapshot p).

Definition MaybeUpdate (n : Z) (p : Progress) : bool * Progress :=
  let '(updated, p) := if Match p <? n then (true, ProbeAcked (set_Match n p)) else (false, p) in
  (updated, set_Next (Z.max (Next p) (u64 (n + 1))) p).

Definition OptimisticUpdate (n : Z) (p : Progress) : Progress := set_Next (u64 (n + 1)) p.

Definition MaybeDecrTo (rejected matchHint : Z) (p : Progress) : bool * Progress :=
  match State p with
  | StateReplicate =>
      if rejected <=? Match p then (false, p) else (true, set_Next (u64 (Match p + 1)) p)
  | _ =>
      if negb (u64 (Next p - 1) =? rejected) then (false, p)
      else (true, set_ProbeSent false (set_Next (Z.max (Z.min rejected (u64 (matchHint + 1))) 1) p))
  end.

Definition IsPaused (p : Progress) : bool :=
  match State p with
  | StateProbe => ProbeSent p
  | StateReplicate => Full (pInflights p)
  | StateSnapshot => true
  end.

(* ===================================================================== *)
(** ** ProgressTracker                                                   *)
(* ===================================================================== *)

(** Maps that may be nil are [option]s; [Voters[0]] never is. *)
Record Config : Type := mkConfig {
  VotersIn : gset Z;
  VotersOut : option (gset Z);
  AutoLeave : bool;
  Learners : option (gset Z);
  LearnersNext : option (gset Z)
}.

Abbreviation ids o := (default (∅ : gset Z) o).

Definition Voters (c : Config) : JointConfig := mkJoint (VotersIn c) (ids (VotersOut c)).

(** [AutoLeave] is not copied. *)
Definition Clone (c : Config) : Config :=
  mkConfig (VotersIn c) (VotersOut c) false (Learners c) (LearnersNext c).

Abbreviation ProgressMap := (gmap Z Progress).

Record ProgressTracker : Type := mkTracker {
  tConfig : Config;
  tProgress : ProgressMap;
  Votes : gmap Z bool;
  MaxInflight : Z
}.

Definition MakeProgressTracker (maxInflight : Z) : ProgressTracker :=
  mkTracker (mkConfig ∅ None false None None) ∅ ∅ maxInflight.

(** [MajorityConfig.Slice]: the elements in order. *)
Definition Slice (c : gset Z) : list Z := merge_sort Z.le (elements c).

Definition tracker_ConfState (p : ProgressTracker) : ConfState :=
  let c := tConfig p in
  mkConfState (Slice (VotersIn c)) (Slice (ids (Learners c))) (Slice (ids (VotersOut c)))
              (Slice (ids (LearnersNext c))) (AutoLeave c).

Definition IsSingleton (p : ProgressTracker) : bool :=
  (Z.of_nat (size (VotersIn (tConfig p))) =? 1) && (Z.of_nat (size (ids (VotersOut (tConfig p)))) =? 0).

Definition matchAckIndexer (prs : ProgressMap) : AckedIndexer := fun id => Match <$> prs !! id.

Definition ResetVotes (p : ProgressTracker) : ProgressTracker :=
  mkTracker (tConfig p) (tProgress p) ∅ (MaxInflight p).

Definition RecordVote (id : Z) (v : bool) (p : ProgressTracker) : ProgressTracker :=
  match Votes p !! id with
  | Some _ => p
  | None => mkTracker (tConfig p) (tProgress p) (<[id := v]> (Votes p)) (MaxInflight p)
  end.

Definition VoterNodes (p : ProgressTracker) : list Z := Slice (IDs (Voters (tConfig p))).

Definition LearnerNodes (p : ProgressTracker) : list Z := Slice (ids (Learners (tConfig p))).

Section tracker.
Context {rt : GoRuntime}.

Definition Committed (k : nat) (p : ProgressTracker) : outcome Z :=
  joint_CommittedIndex k (Voters (tConfig p)) (matchAckIndexer (tProgress p)).

(** The order of [Visit]: the IDs, written from the back, and sorted. *)
Definition visit_ids (k : nat) (prs : ProgressMap) : outcome (list Z) :=
  insertionSort (reverse (range_ids k (dom prs))).

Definition QuorumActive (k : nat) (p : ProgressTracker) : outcome bool :=
  order ← visit_ids k (tProgress p);
  let votes := fold_left (fun votes id =>
    match tProgress p !! id with
    | Some pr => if IsLearner pr then votes else <[id := RecentActive pr]> votes
    | None => votes
    end) order (∅ : gmap Z bool) in
  Ret (bool_decide (joint_VoteResult (S k) (Voters (tConfig p)) votes = VoteWon)).

Definition TallyVotes (k : nat) (p : ProgressTracker) : Z * Z * VoteResult :=
  let '(granted, rejected) := fold_left (fun '(granted, rejected) id =>
    match tProgress p !! id with
    | Some pr =>
        if IsLearner pr then (granted, rejected) else
        match Votes p !! id with
        | None => (granted, rejected)
        | Some v => if v : bool then (granted + 1, rejected) else (granted, rejected + 1)
        end
    | None => (granted, rejected)
    end) (range_ids k (dom (tProgress p))) (0, 0) in
  (granted, rejected, joint_VoteResult (S k) (Voters (tConfig p)) (Votes p)).

End tracker.

(* ===================================================================== *)
(** ** Inflights is a bounded queue                                      *)
(* ===================================================================== *)

(** The position in the buffer of the [k]-th message in flight. *)
Definition slot (i : Inflights) (k : Z) : Z :=
  if isize i <=? start i + k then start i + k - isize i else start i + k.

Definition cell (i : Inflights) (k : Z) : Z := default 0 (znth (buffer i) (slot i k)).

Definition queue (i : Inflights) : list Z := cell i <$> seqZ 0 (count i).

(** The buffer only wraps around once it has its full size. *)
Definition inflights_ok (i : Inflights) : Prop :=
  0 <= start i /\ 0 <= count i <= isize i /\ zlen (buffer i) <= isize i /\ (start i < isize i \/ start i = 0) /\
  (start i + count i <= zlen (buffer i) \/ zlen (buffer i) = isize i).

(** What [FreeLE] takes from a queue. *)
Fixpoint drop_le (to : Z) (q : list Z) : list Z :=
  match q with
  | [] => []
  | x :: q' => if to <? x then q else drop_le to q'
  end.

Lemma znth_insert {A} (l : list A) i j x : 0 <= i < zlen l ->
  znth (<[Z.to_nat i := x]> l) j = if i =? j then Some x else znth l j.
Proof.
  intros ?. unfold znth, zlen in *. destruct (Z.ltb_spec j 0); [by zb|].
  destruct (Z.eqb_spec i j) as [->|].
  - apply list_lookup_insert_eq. lia.
  - apply list_lookup_insert_ne. lia.
Qed.

Lemma zlen_queue i : 0 <= count i -> zlen (queue i) = count i.
Proof. intros ?. unfold zlen, queue. rewrite length_fmap, length_seqZ. lia. Qed.

Lemma queue_cons i : 0 < count i ->
  queue i = cell i 0 :: (cell i <$> seqZ 1 (count i - 1)).
Proof. intros ?. unfold queue. rewrite seqZ_cons by lia. simpl. by replace (Z.pred (count i)) with (count i - 1) by lia. Qed.

Lemma zindex_cell i k : inflights_ok i -> 0 <= k < count i -> zindex (buffer i) (slot i k) = Ret (cell i k).
Proof.
  intros (? & ? & ? & ? & ?) ?. unfold cell, zindex.
  destruct (znth_Some (buffer i) (slot i k)) as [x ->]; [|done]. unfold slot.
  destruct (Z.leb_spec (isize i) (start i + k)); lia.
Qed.

Lemma grow_ok i : inflights_ok i -> zlen (buffer i) = start i + count i -> zlen (buffer i) < isize i ->
  start (grow i) = start i /\ count (grow i) = count i /\ isize (grow i) = isize i /\
  zlen (buffer i) < zlen (buffer (grow i)) <= isize i /\
  forall j, j < zlen (buffer i) -> znth (buffer (grow i)) j = znth (buffer i) j.
Proof.
  intros (? & ? & ? & ? & ?) ??. do 3 (split; [done|]). unfold grow. simpl.
  set (n := if _ =? 0 then _ else _).
  assert (zlen (buffer i) < n <= isize i) as Hn.
  { unfold n. pose proof (zlen_nonneg (buffer i)). destruct (Z.eqb_spec (zlen (buffer i) * 2) 0); [lia|].
    destruct (Z.ltb_spec (isize i) (zlen (buffer i) * 2)); lia. }
  clearbody n. rewrite take_ge by (unfold zlen in *; lia). split.
  - rewrite zlen_app. unfold zlen in *. rewrite length_replicate. lia.
  - intros j ?. rewrite znth_app. by zb.
Qed.

(** Writing the slot after the queue appends to the queue. *)
Lemma write_slot i x :
  0 <= start i -> 0 <= count i < isize i -> start i < isize i -> 0 <= slot i (count i) < zlen (buffer i) ->
  zlen (buffer i) <= isize i -> (start i + count i < zlen (buffer i) \/ zlen (buffer i) = isize i) ->
  let i' := mkInflights (start i) (count i + 1) (isize i) (<[Z.to_nat (slot i (count i)) := x]> (buffer i)) in
  inflights_ok i' /\ queue i' = queue i ++ [x].
Proof.
  intros ?????? i'. assert (zlen (buffer i') = zlen (buffer i)) as El by (unfold zlen; simpl; by rewrite length_insert).
  split; [split; [done|]; rewrite El; simpl; lia|].
  unfold queue. simpl. rewrite seqZ_app by lia. rewrite fmap_app. f_equal.
  - apply list_fmap_ext. intros n k Hk%lookup_seqZ. unfold cell. simpl. rewrite znth_insert by done.
    rewrite (proj2 (Z.eqb_neq _ _)); [done|]. unfold slot. simpl.
    destruct (Z.leb_spec (isize i) (start i + count i)), (Z.leb_spec (isize i) (start i + k)); lia.
  - simpl. unfold cell. simpl. rewrite znth_insert by done. rewrite (proj2 (Z.eqb_eq _ _)); [done|]. done.
Qed.

Lemma Add_eq i x : inflights_ok i ->
  if count i =? isize i then Add x i = Panic
  else exists i', Add x i = Ret i' /\ inflights_ok i' /\ isize i' = isize i /\ queue i' = queue i ++ [x].
Proof.
  intros Hok. pose proof Hok as (? & ? & ? & ? & Hw). unfold Add, Full.
  destruct (Z.eqb_spec (count i) (isize i)); [done|].
  change (if isize i <=? start i + count i then _ else _) with (slot i (count i)).
  destruct (Z.leb_spec (zlen (buffer i)) (slot i (count i))) as [Hg|Hg].
  - assert (slot i (count i) = start i + count i /\ zlen (buffer i) = start i + count i /\ start i + count i < isize i) as (Es & El & ?).
    { revert Hg. unfold slot. destruct (Z.leb_spec (isize i) (start i + count i)); lia. }
    destruct (grow_ok i Hok El ltac:(lia)) as (Gs & Gc & Gz & Gl & Gn).
    assert (slot (grow i) (count (grow i)) = slot i (count i)) as Eg by (unfold slot; by rewrite Gs, Gc, Gz).
    rewrite <- Eg. destruct (write_slot (grow i) x) as [Hok' Hq]; try lia.
    assert (0 <= slot (grow i) (count (grow i)) < zlen (buffer (grow i))) by lia.
    zb. eexists. split; [done|]. split; [done|]. split; [done|]. rewrite Hq. f_equal.
    unfold queue. rewrite Gc. apply list_fmap_ext. intros m k Hk%lookup_seqZ. unfold cell, slot. rewrite Gs, Gz. zb. by rewrite Gn by lia.
  - assert (0 <= slot i (count i)) by (unfold slot; destruct (Z.leb_spec (isize i) (start i + count i)); lia).
    zb. destruct (write_slot i x) as [Hok' Hq]; try lia.
    { revert Hg. unfold slot. destruct (Z.leb_spec (isize i) (start i + count i)); lia. }
    eexists. split; [done|]. done.
Qed.

Lemma free_loop_eq i to n k : inflights_ok i -> 0 <= k -> k + Z.of_nat n = count i ->
  exists k', free_loop i to n (slot i k) k = Ret (slot i k', k') /\ k <= k' <= count i /\
    drop_le to (cell i <$> seqZ k (Z.of_nat n)) = cell i <$> seqZ k' (count i - k').
Proof.
  intros Hok. revert k. induction n as [|n IH]; intros k Hk Hn; cbn [free_loop].
  { exists k. split; [done|]. split; [lia|]. by replace (count i - k) with 0 by lia. }
  rewrite zindex_cell by (done || lia). cbn. rewrite seqZ_cons by lia. cbn.
  destruct (Z.ltb_spec to (cell i k)).
  - exists k. split; [done|]. split; [lia|]. rewrite (seqZ_cons k (count i - k)) by lia.
    cbn. do 3 f_equal. lia.
  - pose proof Hok as (? & ? & ? & ? & Hw).
    assert ((if isize i <=? slot i k + 1 then slot i k + 1 - isize i else slot i k + 1) = slot i (k + 1)) as ->.
    { unfold slot. destruct (Z.leb_spec (isize i) (start i + k)), (Z.leb_spec (isize i) (start i + (k + 1))); zb; lia. }
    destruct (IH (k + 1)) as (k' & E & ? & Ed); [lia..|]. exists k'. split; [done|]. split; [lia|].
    rewrite <- Ed. do 3 f_equal; lia.
Qed.

Lemma FreeLE_eq i to : inflights_ok i ->
  exists i', FreeLE to i = Ret i' /\ inflights_ok i' /\ isize i' = isize i /\ queue i' = drop_le to (queue i).
Proof.
  intros Hok. pose proof Hok as (? & ? & ? & ? & Hw). unfold FreeLE. destruct (Z.eqb_spec (count i) 0) as [E0|E0].
  { exists i. split; [done|]. split; [done|]. split; [done|]. unfold queue. by rewrite E0. }
  assert (start i = slot i 0) as Es by (unfold slot; zb; lia).
  assert (zindex (buffer i) (start i) = Ret (cell i 0)) as -> by (rewrite Es; apply zindex_cell; done || lia). cbn.
  destruct (Z.ltb_spec to (cell i 0)).
  { exists i. split; [done|]. split; [done|]. split; [done|]. rewrite queue_cons by lia. cbn. by zb. }
  rewrite Es. destruct (free_loop_eq i to (Z.to_nat (count i)) 0 Hok) as (k & E & ? & Ed); [lia..|]. rewrite E. cbn.
  rewrite Z2Nat.id in Ed by lia. eexists. split; [done|].
  destruct (Z.eqb_spec (count i - k) 0) as [Ec|Ec]; (split; [unfold inflights_ok; simpl|split; [done|]]).
  - lia.
  - unfold queue at 1. simpl. unfold queue. rewrite Ed, Ec. done.
  - unfold slot. destruct (Z.leb_spec (isize i) (start i + k)); lia.
  - unfold queue. rewrite Ed. simpl. replace (seqZ k (count i - k)) with (Z.add k <$> seqZ 0 (count i - k)).
    + rewrite <- list_fmap_compose. apply list_fmap_ext. intros n j Hj%lookup_seqZ. unfold cell. simpl. do 2 f_equal.
      unfold slot. simpl.
      destruct (Z.leb_spec (isize i) (start i + k)), (Z.leb_spec (isize i) (start i + (k + j))); zb; lia.
    + rewrite fmap_add_seqZ. by rewrite Z.add_0_r.
Qed.

Lemma reset_eq i : inflights_ok i -> inflights_ok (inflights_reset i) /\ queue (inflights_reset i) = [].
Proof.
  intros (? & ? & ? & ? & ?). split; [|done]. unfold inflights_ok. simpl. pose proof (zlen_nonneg (buffer i)). lia.
Qed.

(** Calls on an [Inflights], and on a bounded queue. *)
Inductive inflight_op : Type := OpAdd (x : Z) | OpFreeLE (to : Z) | OpReset.

Definition inflight_step (o : inflight_op) (i : Inflights) : outcome Inflights :=
  match o with
  | OpAdd x => Add x i
  | OpFreeLE to => FreeLE to i
  | OpReset => Ret (inflights_reset i)
  end.

Definition queue_step (size : Z) (o : inflight_op) (q : list Z) : outcome (list Z) :=
  match o with
  | OpAdd x => if zlen q =? size then Panic else Ret (q ++ [x])
  | OpFreeLE to => Ret (drop_le to q)
  | OpReset => Ret []
  end.

Fixpoint run_steps {O S} (step : O -> S -> outcome S) (os : list O) (s : S) : outcome S :=
  match os with
  | [] => Ret s
  | o :: os' => s' ← step o s; run_steps step os' s'
  end.

Lemma inflight_step_refines o i : inflights_ok i ->
  match inflight_step o i with
  | Ret i' => inflights_ok i' /\ isize i' = isize i /\ queue_step (isize i) o (queue i) = Ret (queue i')
  | Panic => queue_step (isize i) o (queue i) = Panic
  | Block => False
  end.
Proof.
  intros Hok. pose proof Hok as (_ & ? & _). destruct o as [x|to|]; simpl.
  - pose proof (Add_eq i x Hok) as HA. rewrite zlen_queue by lia. destruct (count i =? isize i); [by rewrite HA|].
    destruct HA as (i' & -> & ? & ? & ->). done.
  - destruct (FreeLE_eq i to Hok) as (i' & -> & ? & ? & ->). done.
  - destruct (reset_eq i Hok) as [? ->]. done.
Qed.

Lemma inflight_run_refines os i : inflights_ok i ->
  match run_steps inflight_step os i with
  | Ret i' => run_steps (queue_step (isize i)) os (queue i) = Ret (queue i') /\ zlen (queue i') = Count i' /\ Count i' <= isize i
  | Panic => run_steps (queue_step (isize i)) os (queue i) = Panic
  | Block => False
  end.
Proof.
  revert i. induction os as [|o os IH]; intros i Hok; cbn [run_steps].
  - destruct Hok as (_ & ? & _). split; [done|]. rewrite zlen_queue by lia. split; [done|]. unfold Count. lia.
  - pose proof (inflight_step_refines o i Hok) as Hs. destruct (inflight_step o i) as [i'| |]; cbn.
    + destruct Hs as (Hok' & Ez & ->). cbn. rewrite <- Ez. by apply IH.
    + by rewrite Hs.
    + done.
Qed.

(** C26: The ring buffer of in-flight messages is a bounded queue: any sequence
    of [Add], [FreeLE] and [reset] on a new [Inflights] behaves as the same
    operations on a list of at most [size] indexes, in which [FreeLE] removes
    the front as long as it is not larger than its argument; [Add] panics
    exactly when the queue is full, and no index of the buffer is ever out of
    range, wherever the ring wraps around or grows. *)
Theorem inflights_refines (size : Z) (os : list inflight_op) (Hsize : 0 <= size) :
  match run_steps inflight_step os (NewInflights size) with
  | Ret i => run_steps (queue_step size) os [] = Ret (queue i) /\ zlen (queue i) = Count i /\ Count i <= size
  | Panic => run_steps (queue_step size) os [] = Panic
  | Block => False
  end.
Proof.
  apply (inflight_run_refines os (NewInflights size)). unfold inflights_ok, zlen. cbn. lia.
Qed.

Lemma inflights_refines_witness :
  match run_steps inflight_step [OpAdd 3; OpAdd 5; OpFreeLE 3; OpAdd 7] (NewInflights 2) with
  | Ret i => run_steps (queue_step 2) [OpAdd 3; OpAdd 5; OpFreeLE 3; OpAdd 7] [] = Ret (queue i) /\ zlen (queue i) = Count i /\ Count i <= 2
  | Panic => run_steps (queue_step 2) [OpAdd 3; OpAdd 5; OpFreeLE 3; OpAdd 7] [] = Panic
  | Block => False
  end.
Proof. apply (inflights_refines 2). lia. Defined.
