(* ===== verification/ConfChange.v ===== *)
(** * ConfChange: membership changes (src/etcd/raft/confchange, raftpb/confchange.go)

    A [Changer] turns the configuration of a group and the progress of its
    members into a new configuration: by at most one voter at a time
    ([Simple]), or through a joint configuration ([EnterJoint], [LeaveJoint]).
    [Restore] rebuilds a configuration from a [ConfState]. An error is [None]:
    its text depends on the order in which Go visits a map, and the only caller
    panics on it. The maps are copied before they are changed
    ([checkAndCopy]), so updates are functions on values. *)

From S2P Require Import Prelude RaftPb Quorum Tracker.

(* ===================================================================== *)
(** ** Changes                                                           *)
(* ===================================================================== *)

(** An [int32] that need not be one of the named values. *)
Inductive ConfChangeType : Type :=
| ConfChangeAddNode
| ConfChangeRemoveNode
| ConfChangeUpdateNode
| ConfChangeAddLearnerNode
| ConfChangeUnknown (n : Z).

Record ConfChangeSingle : Type := mkChange { ccType : ConfChangeType; NodeID : Z }.

Inductive ConfChangeTransition : Type :=
| ConfChangeTransitionAuto
| ConfChangeTransitionJointImplicit
| ConfChangeTransitionJointExplicit
| ConfChangeTransitionUnknown (n : Z).

Record ConfChangeV2 : Type := mkConfChangeV2 {
  Transition : ConfChangeTransition;
  Changes : list ConfChangeSingle;
  ccContext : option bytes
}.

(** The legacy [ConfChange], which has one change. *)
Record ConfChange : Type := mkConfChange {
  cType : ConfChangeType;
  cNodeID : Z;
  cContext : option bytes;
  cID : Z
}.

Definition AsV2 (c : ConfChange) : ConfChangeV2 :=
  mkConfChangeV2 ConfChangeTransitionAuto [mkChange (cType c) (cNodeID c)] (cContext c).

(** [ConfChangeV2.EnterJoint]: [(autoLeave, ok)]. *)
Definition V2_EnterJoint (c : ConfChangeV2) : outcome (bool * bool) :=
  match Transition c with
  | ConfChangeTransitionAuto => if 1 <? zlen (Changes c) then Ret (true, true) else Ret (false, false)
  | ConfChangeTransitionJointImplicit => Ret (true, true)
  | ConfChangeTransitionJointExplicit => Ret (false, true)
  | ConfChangeTransitionUnknown _ => Panic
  end.

(** The zero change leaves a joint configuration. [Equal] is [proto.Equal] of the
    protobuf library. *)
Definition V2_LeaveJoint (Equal : ConfChangeV2 -> ConfChangeV2 -> bool) (c : ConfChangeV2) : bool :=
  Equal (mkConfChangeV2 (Transition c) (Changes c) None) (mkConfChangeV2 ConfChangeTransitionAuto [] None).

(* ===================================================================== *)
(** ** Changer                                                           *)
(* ===================================================================== *)

Record Changer : Type := mkChanger { cTracker : ProgressTracker; cLastIndex : Z }.

Definition set_VotersIn (s : gset Z) (c : Config) : Config :=
  mkConfig s (VotersOut c) (AutoLeave c) (Learners c) (LearnersNext c).
Definition set_VotersOut (s : option (gset Z)) (c : Config) : Config :=
  mkConfig (VotersIn c) s (AutoLeave c) (Learners c) (LearnersNext c).
Definition set_AutoLeave (b : bool) (c : Config) : Config :=
  mkConfig (VotersIn c) (VotersOut c) b (Learners c) (LearnersNext c).
Definition set_Learners (s : option (gset Z)) (c : Config) : Config :=
  mkConfig (VotersIn c) (VotersOut c) (AutoLeave c) s (LearnersNext c).
Definition set_LearnersNext (s : option (gset Z)) (c : Config) : Config :=
  mkConfig (VotersIn c) (VotersOut c) (AutoLeave c) (Learners c) s.

Definition nilAwareAdd (m : option (gset Z)) (id : Z) : option (gset Z) := Some ({[id]} ∪ ids m).

Definition nilAwareDelete (m : option (gset Z)) (id : Z) : option (gset Z) :=
  match m with
  | None => None
  | Some s => if Z.of_nat (size (s ∖ {[id]})) =? 0 then None else Some (s ∖ {[id]})
  end.

Definition symdiff (l r : gset Z) : Z := Z.of_nat (size (l ∖ r)) + Z.of_nat (size (r ∖ l)).

Definition joint (c : Config) : bool := 0 <? Z.of_nat (size (ids (VotersOut c))).

Definition is_learner (prs : ProgressMap) (id : Z) : bool :=
  match prs !! id with Some pr => IsLearner pr | None => false end.

(** [nil] as the error: the configuration and the progress are compatible. Once
    every ID is known to have a progress, [prs[id]] is not nil. *)
Definition checkInvariants (c : Config) (prs : ProgressMap) : bool :=
  bool_decide (IDs (Voters c) ⊆ dom prs) &&
  bool_decide (ids (Learners c) ⊆ dom prs) &&
  bool_decide (ids (LearnersNext c) ⊆ dom prs) &&
  bool_decide (set_Forall (fun id => id ∈ ids (VotersOut c) /\ is_learner prs id = false) (ids (LearnersNext c))) &&
  bool_decide (set_Forall (fun id => id ∉ ids (VotersOut c) /\ id ∉ VotersIn c /\ is_learner prs id = true)
                          (ids (Learners c))) &&
  (joint c || (bool_decide (VotersOut c = None) && bool_decide (LearnersNext c = None) && negb (AutoLeave c))).

Definition checkAndReturn (c : Config) (prs : ProgressMap) : option (Config * ProgressMap) :=
  if checkInvariants c prs then Some (c, prs) else None.

Definition checkAndCopy (c : Changer) : option (Config * ProgressMap) :=
  checkAndReturn (Clone (tConfig (cTracker c))) (tProgress (cTracker c)).

Definition initProgress (c : Changer) (id : Z) (isLearner : bool) '((cfg, prs) : Config * ProgressMap) :
    Config * ProgressMap :=
  let cfg := if isLearner then set_Learners (nilAwareAdd (Learners cfg) id) cfg
             else set_VotersIn ({[id]} ∪ VotersIn cfg) cfg in
  (cfg, <[id := mkProgress 0 (cLastIndex c) StateProbe 0 true false
                  (NewInflights (MaxInflight (cTracker c))) isLearner]> prs).

Definition makeVoter (c : Changer) (id : Z) '((cfg, prs) : Config * ProgressMap) : Config * ProgressMap :=
  match prs !! id with
  | None => initProgress c id false (cfg, prs)
  | Some pr =>
      let cfg := set_Learners (nilAwareDelete (Learners cfg) id) cfg in
      let cfg := set_LearnersNext (nilAwareDelete (LearnersNext cfg) id) cfg in
      (set_VotersIn ({[id]} ∪ VotersIn cfg) cfg, <[id := set_IsLearner false pr]> prs)
  end.

Definition remove (id : Z) '((cfg, prs) : Config * ProgressMap) : Config * ProgressMap :=
  match prs !! id with
  | None => (cfg, prs)
  | Some _ =>
      let cfg := set_VotersIn (VotersIn cfg ∖ {[id]}) cfg in
      let cfg := set_Learners (nilAwareDelete (Learners cfg) id) cfg in
      let cfg := set_LearnersNext (nilAwareDelete (LearnersNext cfg) id) cfg in
      (cfg, if bool_decide (id ∈ ids (VotersOut cfg)) then prs else delete id prs)
  end.

Definition makeLearner (c : Changer) (id : Z) '((cfg, prs) : Config * ProgressMap) : Config * ProgressMap :=
  match prs !! id with
  | None => initProgress c id true (cfg, prs)
  | Some pr =>
      if IsLearner pr then (cfg, prs) else
      let '(cfg, prs) := remove id (cfg, prs) in
      let prs := <[id := pr]> prs in
      if bool_decide (id ∈ ids (VotersOut cfg)) then
        (set_LearnersNext (nilAwareAdd (LearnersNext cfg) id) cfg, prs)
      else
        (set_Learners (nilAwareAdd (Learners cfg) id) cfg, <[id := set_IsLearner true pr]> prs)
  end.

Fixpoint apply_changes (c : Changer) (ccs : list ConfChangeSingle) (s : Config * ProgressMap) :
    option (Config * ProgressMap) :=
  match ccs with
  | [] => Some s
  | cc :: ccs' =>
      if NodeID cc =? 0 then apply_changes c ccs' s else
      match ccType cc with
      | ConfChangeAddNode => apply_changes c ccs' (makeVoter c (NodeID cc) s)
      | ConfChangeAddLearnerNode => apply_changes c ccs' (makeLearner c (NodeID cc) s)
      | ConfChangeRemoveNode => apply_changes c ccs' (remove (NodeID cc) s)
      | ConfChangeUpdateNode => apply_changes c ccs' s
      | ConfChangeUnknown _ => None
      end
  end.

Definition apply (c : Changer) (ccs : list ConfChangeSingle) (s : Config * ProgressMap) : option (Config * ProgressMap) :=
  s ← apply_changes c ccs s;
  if Z.of_nat (size (VotersIn s.1)) =? 0 then None else Some s.

Definition Simple (c : Changer) (ccs : list ConfChangeSingle) : option (Config * ProgressMap) :=
  '(cfg, prs) ← checkAndCopy c;
  if joint cfg then None else
  '(cfg, prs) ← apply c ccs (cfg, prs);
  if 1 <? symdiff (VotersIn (tConfig (cTracker c))) (VotersIn cfg) then None else
  checkAndReturn cfg prs.

Definition EnterJoint (c : Changer) (autoLeave : bool) (ccs : list ConfChangeSingle) : option (Config * ProgressMap) :=
  '(cfg, prs) ← checkAndCopy c;
  if joint cfg then None else
  if Z.of_nat (size (VotersIn cfg)) =? 0 then None else
  let cfg := set_VotersOut (Some (VotersIn cfg)) cfg in
  '(cfg, prs) ← apply c ccs (cfg, prs);
  checkAndReturn (set_AutoLeave autoLeave cfg) prs.

(** The loops of [LeaveJoint] write each key of a map on its own, so their order
    does not matter. *)
Definition LeaveJoint (c : Changer) : option (Config * ProgressMap) :=
  '(cfg, prs) ← checkAndCopy c;
  if negb (joint cfg) then None else
  let next := ids (LearnersNext cfg) in
  let cfg := if bool_decide (next = ∅) then cfg else set_Learners (Some (ids (Learners cfg) ∪ next)) cfg in
  let prs := map_imap (fun id pr => Some (if bool_decide (id ∈ next) then set_IsLearner true pr else pr)) prs in
  let cfg := set_LearnersNext None cfg in
  let prs := filter (fun '(id, _) => ~ (id ∈ ids (VotersOut cfg) /\ id ∉ VotersIn cfg /\ id ∉ ids (Learners cfg))) prs in
  let cfg := set_AutoLeave false (set_VotersOut None cfg) in
  checkAndReturn cfg prs.

(* ===================================================================== *)
(** ** Restore                                                           *)
(* ===================================================================== *)

Definition toConfChangeSingle (cs : ConfState) : list ConfChangeSingle * list ConfChangeSingle :=
  (mkChange ConfChangeAddNode <$> csVotersOutgoing cs,
   (mkChange ConfChangeRemoveNode <$> csVotersOutgoing cs) ++
   (mkChange ConfChangeAddNode <$> csVoters cs) ++
   (mkChange ConfChangeAddLearnerNode <$> csLearners cs) ++
   (mkChange ConfChangeAddLearnerNode <$> csLearnersNext cs)).

Definition with_config (c : Changer) (cfg : Config) (prs : ProgressMap) : Changer :=
  mkChanger (mkTracker cfg prs (Votes (cTracker c)) (MaxInflight (cTracker c))) (cLastIndex c).

Fixpoint chain (c : Changer) (ops : list (Changer -> option (Config * ProgressMap))) : option (Config * ProgressMap) :=
  match ops with
  | [] => Some (tConfig (cTracker c), tProgress (cTracker c))
  | op :: ops' => '(cfg, prs) ← op c; chain (with_config c cfg prs) ops'
  end.

Definition Restore (c : Changer) (cs : ConfState) : option (Config * ProgressMap) :=
  let '(out, inc) := toConfChangeSingle cs in
  match out with
  | [] => chain c ((fun cc c => Simple c [cc]) <$> inc)
  | _ => chain c (((fun cc c => Simple c [cc]) <$> out) ++ [fun c => EnterJoint c (csAutoLeave cs) inc])
  end.

(* ===================================================================== *)
(** ** The invariant of a configuration                                  *)
(* ===================================================================== *)

(** What [checkInvariants] tests, except for what it asks of a configuration
    that is not joint. *)
Definition conf_ok (s : Config * ProgressMap) : Prop :=
  let '(c, prs) := s in
  VotersIn c ∪ ids (VotersOut c) ∪ ids (Learners c) ∪ ids (LearnersNext c) ⊆ dom prs /\
  (forall id, id ∈ ids (LearnersNext c) -> id ∈ ids (VotersOut c) /\ is_learner prs id = false) /\
  (forall id, id ∈ ids (Learners c) -> id ∉ ids (VotersOut c) /\ id ∉ VotersIn c /\ is_learner prs id = true).

Definition single_ok (c : Config) : Prop := VotersOut c = None /\ LearnersNext c = None /\ AutoLeave c = false.

Lemma checkInvariants_spec c prs :
  checkInvariants c prs = true <-> conf_ok (c, prs) /\ (joint c = false -> single_ok c).
Proof.
  unfold checkInvariants, conf_ok, single_ok, set_Forall, IDs. cbn [incoming outgoing Voters].
  rewrite !andb_true_iff, orb_true_iff, !andb_true_iff, !bool_decide_eq_true, negb_true_iff.
  destruct (joint c); split; intros H; destruct_and?; split_and?; try done; try set_solver; naive_solver set_solver.
Qed.

Lemma joint_false c : joint c = false <-> ids (VotersOut c) = ∅.
Proof.
  unfold joint. rewrite Z.ltb_ge. split; intros H.
  - apply leibniz_equiv, size_empty_inv. lia.
  - rewrite H, size_empty. lia.
Qed.

Lemma ids_nilAwareDelete m id : ids (nilAwareDelete m id) = ids m ∖ {[id]}.
Proof.
  destruct m as [s|]; simpl; [|set_solver]. destruct (Z.eqb_spec (Z.of_nat (size (s ∖ {[id]}))) 0) as [E|E]; simpl; [|done].
  symmetry. apply leibniz_equiv, size_empty_inv. lia.
Qed.

Lemma ids_nilAwareAdd m id : ids (nilAwareAdd m id) = {[id]} ∪ ids m.
Proof. done. Qed.

Lemma is_learner_insert prs id pr j :
  is_learner (<[id := pr]> prs) j = if decide (id = j) then IsLearner pr else is_learner prs j.
Proof.
  unfold is_learner. destruct (decide (id = j)) as [->|]; [by rewrite lookup_insert_eq|by rewrite lookup_insert_ne].
Qed.

Lemma is_learner_delete prs id j :
  is_learner (delete id prs) j = if decide (id = j) then false else is_learner prs j.
Proof.
  unfold is_learner. destruct (decide (id = j)) as [->|]; [by rewrite lookup_delete_eq|by rewrite lookup_delete_ne].
Qed.

Ltac conf_sets :=
  rewrite ?ids_nilAwareDelete, ?ids_nilAwareAdd, ?dom_insert_L, ?dom_delete_L, ?is_learner_insert, ?is_learner_delete.

(** One change: the sides of the configuration that it leaves alone. *)
Definition same_side (c c' : Config) : Prop :=
  VotersOut c' = VotersOut c /\ AutoLeave c' = AutoLeave c /\
  (ids (VotersOut c) = ∅ -> LearnersNext c = None -> LearnersNext c' = None).

#[export] Instance same_side_preorder : PreOrder same_side.
Proof.
  split; [by intros c|]. intros c c' c'' (H1 & H2 & H3) (G1 & G2 & G3). unfold same_side. rewrite G1, G2, H1, H2.
  split_and!; try done. intros He Hn. apply G3; [by rewrite H1|by apply H3].
Qed.

Lemma without_absent (X : gset Z) id : id ∉ X -> X ∖ {[id]} = X.
Proof. set_solver. Qed.

Lemma with_present (X : gset Z) id : id ∈ X -> {[id]} ∪ X = X.
Proof. set_solver. Qed.

Lemma readd (X : gset Z) id : {[id]} ∪ X ∖ {[id]} = {[id]} ∪ X.
Proof. apply set_eq. intros x. destruct (decide (x = id)); set_solver. Qed.

Section changes.
  Context (c : Changer) (id : Z) (cfg : Config) (prs : ProgressMap) (Hok : conf_ok (cfg, prs)).

Lemma untracked : prs !! id = None ->
  id ∉ VotersIn cfg /\ id ∉ ids (VotersOut cfg) /\ id ∉ ids (Learners cfg) /\ id ∉ ids (LearnersNext cfg).
Proof using Hok. intros H%not_elem_of_dom. destruct Hok as (Hd & _). clear Hok. set_solver. Qed.

Lemma makeVoter_sets cfg' prs' : makeVoter c id (cfg, prs) = (cfg', prs') ->
  VotersIn cfg' = {[id]} ∪ VotersIn cfg /\ ids (Learners cfg') = ids (Learners cfg) ∖ {[id]} /\
  ids (LearnersNext cfg') = ids (LearnersNext cfg) ∖ {[id]} /\ dom prs' = {[id]} ∪ dom prs /\
  same_side cfg cfg' /\ (forall j, is_learner prs' j = if decide (id = j) then false else is_learner prs j).
Proof using Hok.
  unfold makeVoter. destruct (prs !! id) as [pr|] eqn:E; intros [= <- <-]; cbn; conf_sets.
  - do 4 (split; [done|]). split; [split_and!; try done; by intros _ ->|intros j; by conf_sets].
  - apply untracked in E as (? & ? & ? & ?). rewrite !without_absent by done.
    do 4 (split; [done|]). split; [done|intros j; by conf_sets].
Qed.

Lemma remove_sets cfg' prs' : remove id (cfg, prs) = (cfg', prs') ->
  VotersIn cfg' = VotersIn cfg ∖ {[id]} /\ ids (Learners cfg') = ids (Learners cfg) ∖ {[id]} /\
  ids (LearnersNext cfg') = ids (LearnersNext cfg) ∖ {[id]} /\
  dom prs' = (if decide (id ∈ ids (VotersOut cfg)) then dom prs else dom prs ∖ {[id]}) /\
  same_side cfg cfg' /\ (forall j, id <> j -> is_learner prs' j = is_learner prs j).
Proof using Hok.
  unfold remove. destruct (prs !! id) as [pr|] eqn:E; intros [= <- <-]; cbn; conf_sets.
  - do 3 (split; [done|]). split; [|split].
    + destruct (decide _); [by rewrite bool_decide_true|rewrite bool_decide_false by done]. by conf_sets.
    + split_and!; try done. by intros _ ->.
    + intros j Hj. destruct (bool_decide _); [done|]. conf_sets. by destruct (decide _).
  - pose proof (untracked E) as (? & ? & ? & ?). rewrite decide_False by done. apply not_elem_of_dom in E.
    rewrite !without_absent by done. done.
Qed.

Lemma makeLearner_sets cfg' prs' : makeLearner c id (cfg, prs) = (cfg', prs') ->
  if is_learner prs id then cfg' = cfg /\ prs' = prs else
  VotersIn cfg' = VotersIn cfg ∖ {[id]} /\ dom prs' = {[id]} ∪ dom prs /\ same_side cfg cfg' /\
  (if decide (id ∈ ids (VotersOut cfg))
   then ids (LearnersNext cfg') = {[id]} ∪ ids (LearnersNext cfg) /\ ids (Learners cfg') = ids (Learners cfg) ∖ {[id]} /\
        forall j, is_learner prs' j = is_learner prs j
   else ids (LearnersNext cfg') = ids (LearnersNext cfg) ∖ {[id]} /\ ids (Learners cfg') = {[id]} ∪ ids (Learners cfg) /\
        forall j, is_learner prs' j = if decide (id = j) then true else is_learner prs j).
Proof using Hok.
  unfold makeLearner, is_learner at 1. destruct (prs !! id) as [pr|] eqn:E.
  2:{ intros [= <- <-]. pose proof (untracked E) as (? & ? & ? & ?). rewrite decide_False by done. cbn.
      rewrite !without_absent by done. conf_sets. do 5 (split; [done|]). intros j. by conf_sets. }
  destruct (IsLearner pr) eqn:El; [by intros [= <- <-]|]. unfold remove. rewrite E.
  cbn -[bool_decide]. assert (id ∈ dom prs) by (by apply elem_of_dom_2 in E).
  destruct (decide (id ∈ ids (VotersOut cfg))) as [Ho|Ho];
    [rewrite !bool_decide_true by done|rewrite !bool_decide_false by done]; intros [= <- <-]; cbn; conf_sets; rewrite ?readd.
  - split; [done|]. split; [done|]. split; [split_and!; try done; intros He; by rewrite He in Ho|].
    split; [done|]. split; [done|].
    intros j. conf_sets. destruct (decide (id = j)) as [<-|]; [|done]. unfold is_learner. by rewrite E.
  - split; [done|]. split; [by rewrite !with_present by set_solver|]. split; [split_and!; try done; by intros _ ->|].
    split; [done|]. split; [done|]. intros j. conf_sets. by destruct (decide (id = j)).
Qed.

Lemma makeVoter_ok : conf_ok (makeVoter c id (cfg, prs)) /\ same_side cfg (makeVoter c id (cfg, prs)).1.
Proof using Hok.
  destruct (makeVoter c id (cfg, prs)) as [cfg' prs'] eqn:E.
  apply makeVoter_sets in E as (Ein & El & En & Ed & Hs & Hlr). split; [|done]. destruct Hs as (Eo & _).
  destruct Hok as (Hd & Hn & Hl). clear Hok. unfold conf_ok. rewrite Ein, Eo, El, En, Ed. split; [set_solver|].
  split; intros j Hj; rewrite Hlr.
  - destruct (decide (id = j)) as [<-|]; [set_solver|]. apply Hn. set_solver.
  - destruct (decide (id = j)) as [<-|]; [set_solver|]. destruct (Hl j) as (? & ? & ?); set_solver.
Qed.

Lemma remove_ok : conf_ok (remove id (cfg, prs)) /\ same_side cfg (remove id (cfg, prs)).1.
Proof using Hok.
  destruct (remove id (cfg, prs)) as [cfg' prs'] eqn:E.
  apply remove_sets in E as (Ein & El & En & Ed & Hs & Hlr). split; [|done]. destruct Hs as (Eo & _).
  destruct Hok as (Hd & Hn & Hl). clear Hok. unfold conf_ok. rewrite Ein, Eo, El, En, Ed.
  split; [destruct (decide _); set_solver|].
  split; intros j Hj; rewrite Hlr by set_solver.
  - apply Hn. set_solver.
  - destruct (Hl j) as (? & ? & ?); set_solver.
Qed.

Lemma makeLearner_ok : conf_ok (makeLearner c id (cfg, prs)) /\ same_side cfg (makeLearner c id (cfg, prs)).1.
Proof using Hok.
  destruct (makeLearner c id (cfg, prs)) as [cfg' prs'] eqn:E. apply makeLearner_sets in E.
  destruct (is_learner prs id) eqn:Eid; [by destruct E as [-> ->]|].
  destruct E as (Ein & Ed & Hs & E). split; [|done]. destruct Hs as (Eo & _).
  destruct Hok as (Hd & Hn & Hl). clear Hok. unfold conf_ok. rewrite Ein, Eo, Ed.
  destruct (decide (id ∈ ids (VotersOut cfg))); destruct E as (-> & -> & Hlr); (split; [set_solver|]);
    split; intros j Hj; rewrite Hlr.
  - destruct (decide (id = j)) as [<-|]; [done|]. apply Hn. set_solver.
  - destruct (Hl j) as (? & ? & ?); set_solver.
  - destruct (decide (id = j)) as [<-|]; [set_solver|]. apply Hn. set_solver.
  - destruct (decide (id = j)) as [<-|]; [set_solver|]. destruct (Hl j) as (? & ? & ?); set_solver.
Qed.

End changes.

(** A staged learner is not an incoming voter. [checkInvariants] does not test
    it, but the operations keep it. *)
Definition staged_ok (cfg : Config) : Prop := ids (LearnersNext cfg) ## VotersIn cfg.

Section staged.
  Context (c : Changer) (id : Z) (cfg : Config) (prs : ProgressMap) (Hok : conf_ok (cfg, prs)) (Hst : staged_ok cfg).

Lemma makeVoter_staged : staged_ok (makeVoter c id (cfg, prs)).1.
Proof using Hok Hst.
  destruct (makeVoter c id (cfg, prs)) as [cfg' prs'] eqn:E. apply makeVoter_sets in E as (E1 & _ & E2 & _); [|done].
  clear Hok. unfold staged_ok in *. cbn. rewrite E1, E2. set_solver.
Qed.

Lemma remove_staged : staged_ok (remove id (cfg, prs)).1.
Proof using Hok Hst.
  destruct (remove id (cfg, prs)) as [cfg' prs'] eqn:E. apply remove_sets in E as (E1 & _ & E2 & _); [|done].
  clear Hok. unfold staged_ok in *. cbn. rewrite E1, E2. set_solver.
Qed.

Lemma makeLearner_staged : staged_ok (makeLearner c id (cfg, prs)).1.
Proof using Hok Hst.
  destruct (makeLearner c id (cfg, prs)) as [cfg' prs'] eqn:E. apply makeLearner_sets in E; [|done].
  clear Hok. unfold staged_ok in *. cbn. destruct (is_learner prs id); [by destruct E as [-> _]|].
  destruct E as (E1 & _ & _ & E). rewrite E1. destruct (decide _); destruct E as (-> & _); set_solver.
Qed.

End staged.

(** Any sequence of changes keeps the invariant. *)
Lemma apply_changes_ok c ccs s s' : conf_ok s -> apply_changes c ccs s = Some s' -> conf_ok s' /\ same_side s.1 s'.1.
Proof.
  revert s. induction ccs as [|cc ccs IH]; intros s Hok; cbn [apply_changes]; [by intros [= <-]|].
  destruct s as [cfg prs]. destruct (NodeID cc =? 0); [by apply IH|].
  pose proof (makeVoter_ok c (NodeID cc) _ _ Hok) as [Hv Hvs]. pose proof (remove_ok (NodeID cc) _ _ Hok) as [Hr Hrs].
  pose proof (makeLearner_ok c (NodeID cc) _ _ Hok) as [Hl Hls].
  destruct (ccType cc); try done; [| |by apply IH|]; intros E; apply IH in E as [Hok' Hs']; try done;
    (split; [exact Hok'|by etrans; [|exact Hs']]).
Qed.

Lemma apply_changes_staged c ccs s s' : conf_ok s -> staged_ok s.1 -> apply_changes c ccs s = Some s' -> staged_ok s'.1.
Proof.
  revert s. induction ccs as [|cc ccs IH]; intros s Hok Hst; cbn [apply_changes]; [by intros [= <-]|].
  destruct s as [cfg prs]. destruct (NodeID cc =? 0); [by apply IH|].
  destruct (ccType cc); try done; [| |by apply IH|].
  - apply IH; [by apply makeVoter_ok|by apply makeVoter_staged].
  - apply IH; [by apply remove_ok|by apply remove_staged].
  - apply IH; [by apply makeLearner_ok|by apply makeLearner_staged].
Qed.

Lemma apply_staged c ccs s s' : conf_ok s -> staged_ok s.1 -> apply c ccs s = Some s' -> staged_ok s'.1.
Proof.
  unfold apply. intros Hok Hst (s1 & E & H)%bind_Some. destruct (_ =? 0); [done|]. simplify_eq.
  by eapply apply_changes_staged.
Qed.

Lemma apply_ok c ccs s s' : conf_ok s -> apply c ccs s = Some s' -> conf_ok s' /\ same_side s.1 s'.1 /\ VotersIn s'.1 <> ∅.
Proof.
  unfold apply. intros Hok (s1 & E & H)%bind_Some. destruct (apply_changes_ok _ _ _ _ Hok E).
  destruct (Z.eqb_spec (Z.of_nat (size (VotersIn s1.1))) 0) as [|Hne]; [done|]. simplify_eq. split_and!; try done.
  intros He. by rewrite He, size_empty in Hne.
Qed.

(* ===================================================================== *)
(** ** What the three operations return                                  *)
(* ===================================================================== *)

Section operations.
  Context (c : Changer).
  Local Abbreviation old := (tConfig (cTracker c)).
  Local Abbreviation prs := (tProgress (cTracker c)).
  Context (Hok : checkInvariants (Clone old) prs = true).

Lemma copied : checkAndCopy c = Some (Clone old, prs) /\ conf_ok (Clone old, prs) /\ (joint old = false -> single_ok (Clone old)).
Proof using Hok.
  split; [unfold checkAndCopy, checkAndReturn; by rewrite Hok|]. by apply checkInvariants_spec in Hok as [? ?].
Qed.

Lemma Simple_eq ccs : joint old = false ->
  Simple c ccs = (s ← apply c ccs (Clone old, prs); if 1 <? symdiff (VotersIn old) (VotersIn s.1) then None else Some s).
Proof using Hok.
  intros Hj. destruct copied as (E & Hc & Hs). unfold Simple. rewrite E. cbn. change (joint (Clone old)) with (joint old). rewrite Hj.
  destruct (apply c ccs (Clone old, prs)) as [[cfg' prs']|] eqn:Ea; [|done]. cbn.
  destruct (1 <? _); [done|]. apply apply_ok in Ea as (Hok' & (Eo & Ea & En) & _); [|done]. cbn in *.
  unfold checkAndReturn. rewrite (proj2 (checkInvariants_spec cfg' prs')); [done|]. split; [done|]. intros _.
  destruct (Hs Hj) as (So & Sn & Sa). cbn in *. split_and!; [congruence| |congruence]. apply En; [by rewrite So|done].
Qed.

(** The configuration that [EnterJoint] applies the changes to. *)
Lemma doubled_ok : joint old = false -> let cfg := set_VotersOut (Some (VotersIn old)) (Clone old) in
  conf_ok (cfg, prs) /\ staged_ok cfg.
Proof using Hok.
  intros Hj. destruct copied as (_ & (Hd & Hn & Hl) & Hs). destruct (Hs Hj) as (So & Sn & _).
  unfold conf_ok, staged_ok. cbn in *. rewrite So, Sn in *. cbn in *. split; [|set_solver].
  split_and!; [set_solver| |]; intros j Hj'; [set_solver|]. apply Hl in Hj'. naive_solver.
Qed.

Lemma EnterJoint_eq autoLeave ccs : joint old = false ->
  EnterJoint c autoLeave ccs =
  if Z.of_nat (size (VotersIn old)) =? 0 then None else
  s ← apply c ccs (set_VotersOut (Some (VotersIn old)) (Clone old), prs);
  Some (set_AutoLeave autoLeave s.1, s.2).
Proof using Hok.
  intros Hj. destruct copied as (E & Hc & Hs). unfold EnterJoint. rewrite E. cbn. change (joint (Clone old)) with (joint old). rewrite Hj.
  destruct (Z.eqb_spec (Z.of_nat (size (VotersIn old))) 0) as [|Hne]; [done|].
  destruct (apply c ccs _) as [[cfg' prs']|] eqn:Ea; [|done]. cbn.
  apply apply_ok in Ea as (Hok' & (Eo & _) & _); [|by apply doubled_ok].
  unfold checkAndReturn. rewrite (proj2 (checkInvariants_spec _ _)); [done|]. split; [done|].
  cbn in Eo. intros Hj'%joint_false. cbn in Hj'. rewrite Eo in Hj'. cbn in Hj'. by rewrite Hj', size_empty in Hne.
Qed.

(** The progress after [LeaveJoint]. *)
Definition left_progress (next : gset Z) (gone : Z -> Prop) `{!forall id, Decision (gone id)} (m : ProgressMap) : ProgressMap :=
  filter (fun '(id, _) => ~ gone id)
    (map_imap (fun id pr => Some (if bool_decide (id ∈ next) then set_IsLearner true pr else pr)) m).

Lemma lookup_left_progress next gone `{!forall id, Decision (gone id)} m id :
  left_progress next gone m !! id =
  if decide (gone id) then None else
  (fun pr => if bool_decide (id ∈ next) then set_IsLearner true pr else pr) <$> m !! id.
Proof using.
  clear Hok. unfold left_progress. destruct (decide (gone id)) as [Hg|Hg].
  - apply map_lookup_filter_None. right. intros pr _ Hn. by apply Hn.
  - destruct (m !! id) as [pr|] eqn:E; cbn.
    + apply map_lookup_filter_Some. split; [|done]. by rewrite map_lookup_imap, E.
    + apply map_lookup_filter_None. left. by rewrite map_lookup_imap, E.
Qed.

Lemma LeaveJoint_eq : joint old = true -> staged_ok old -> exists cfg' prs', LeaveJoint c = Some (cfg', prs') /\
  VotersIn cfg' = VotersIn old /\ single_ok cfg' /\
  ids (Learners cfg') = ids (Learners old) ∪ ids (LearnersNext old) /\
  dom prs' = dom prs ∖ (ids (VotersOut old) ∖ VotersIn old ∖ ids (LearnersNext old)).
Proof using Hok.
  intros Hj Hst. destruct copied as (E & (Hd & Hn & Hl) & _). unfold LeaveJoint. rewrite E. cbn -[bool_decide].
  change (joint (Clone old)) with (joint old). rewrite Hj. cbn -[bool_decide] in *.
  set (cfg1 := if bool_decide _ then _ else _).
  assert (VotersIn cfg1 = VotersIn old /\ VotersOut cfg1 = VotersOut old /\
          ids (Learners cfg1) = ids (Learners old) ∪ ids (LearnersNext old)) as (E1 & E2 & E3).
  { unfold cfg1. case_bool_decide as Hb; cbn; [|done]. rewrite Hb. split_and!; try done. set_solver. }
  clearbody cfg1. rewrite E1, E2, E3.
  set (gone := fun id => id ∈ ids (VotersOut old) /\ id ∉ VotersIn old /\ id ∉ ids (Learners old) ∪ ids (LearnersNext old)).
  change (filter _ _) with (left_progress (ids (LearnersNext old)) gone prs). set (prs' := left_progress _ _ _).
  assert (forall id, prs' !! id = if decide (gone id) then None else
    (fun pr => if bool_decide (id ∈ ids (LearnersNext old)) then set_IsLearner true pr else pr) <$> prs !! id) as Hp
    by (intros id; apply lookup_left_progress).
  assert (dom prs' = dom prs ∖ (ids (VotersOut old) ∖ VotersIn old ∖ ids (LearnersNext old))) as Hdom.
  { clear E. apply set_eq. intros id. rewrite elem_of_dom, Hp. destruct (decide (gone id)) as [Hg|Hg].
    - split; [by intros []|]. unfold gone in Hg. set_solver.
    - rewrite fmap_is_Some, <- elem_of_dom. unfold gone in Hg. specialize (Hl id).
      destruct (decide (id ∈ ids (Learners old))); set_solver. }
  clearbody prs'. exists (set_AutoLeave false (set_VotersOut None (set_LearnersNext None cfg1))), prs'.
  unfold checkAndReturn. rewrite (proj2 (checkInvariants_spec _ _)); [by split_and!|]. split; [|done].
  unfold conf_ok. cbn. rewrite E1, E3, Hdom. split; [|split].
  - clear E Hp Hdom. intros id Hid. specialize (Hl id). specialize (Hn id). set_solver.
  - intros id Hid. set_solver.
  - intros id Hid. split; [set_solver|]. unfold staged_ok in Hst. specialize (Hl id). split; [set_solver|].
    assert (id ∈ dom prs) as [pr Hpr]%elem_of_dom by (clear E Hp Hdom Hl; set_solver).
    unfold is_learner in *. rewrite Hp, Hpr in *. cbn. rewrite decide_False by (unfold gone; set_solver).
    case_bool_decide; [done|]. apply Hl. set_solver.
Qed.

End operations.

(* ===================================================================== *)
(** ** Theorems                                                          *)
(* ===================================================================== *)

(** A configuration that the operations can work on. *)
Definition changer_ok (c : Changer) : Prop :=
  checkInvariants (Clone (tConfig (cTracker c))) (tProgress (cTracker c)) = true /\ staged_ok (tConfig (cTracker c)).

Inductive conf_op : Type :=
| OpSimple (ccs : list ConfChangeSingle)
| OpEnterJoint (autoLeave : bool) (ccs : list ConfChangeSingle)
| OpLeaveJoint.

Definition run_op (o : conf_op) (c : Changer) : option (Config * ProgressMap) :=
  match o with
  | OpSimple ccs => Simple c ccs
  | OpEnterJoint autoLeave ccs => EnterJoint c autoLeave ccs
  | OpLeaveJoint => LeaveJoint c
  end.

Lemma Simple_single c ccs s : Simple c ccs = Some s -> joint (tConfig (cTracker c)) = false.
Proof.
  unfold Simple, checkAndCopy, checkAndReturn. destruct (checkInvariants _ _); [|done]. cbn.
  change (joint (Clone (tConfig (cTracker c)))) with (joint (tConfig (cTracker c))). by destruct (joint _).
Qed.

Lemma EnterJoint_single c b ccs s : EnterJoint c b ccs = Some s -> joint (tConfig (cTracker c)) = false.
Proof.
  unfold EnterJoint, checkAndCopy, checkAndReturn. destruct (checkInvariants _ _); [|done]. cbn.
  change (joint (Clone (tConfig (cTracker c)))) with (joint (tConfig (cTracker c))). by destruct (joint _).
Qed.

Lemma LeaveJoint_joint c s : LeaveJoint c = Some s -> joint (tConfig (cTracker c)) = true.
Proof.
  unfold LeaveJoint, checkAndCopy, checkAndReturn. destruct (checkInvariants _ _); [|done]. cbn.
  change (joint (Clone (tConfig (cTracker c)))) with (joint (tConfig (cTracker c))). by destruct (joint _).
Qed.

Lemma checkInvariants_Clone cfg prs : checkInvariants cfg prs = true -> checkInvariants (Clone cfg) prs = true.
Proof.
  rewrite !checkInvariants_spec. intros [Hc Hs]. split; [done|]. intros Hj. destruct (Hs Hj) as (? & ? & ?). done.
Qed.

(** What the operations return has passed the last check. *)
Lemma run_op_checked o c cfg prs : run_op o c = Some (cfg, prs) -> checkInvariants cfg prs = true.
Proof.
  assert (forall x y, checkAndReturn x y = Some (cfg, prs) -> checkInvariants cfg prs = true) as Hc.
  { unfold checkAndReturn. intros x y. destruct (checkInvariants x y) eqn:E; [|done]. by intros [= <- <-]. }
  destruct o; cbn.
  - unfold Simple. intros ([? ?] & _ & H)%bind_Some. destruct (joint _); [done|].
    apply bind_Some in H as ([? ?] & _ & H). destruct (_ <? _); [done|]. eauto.
  - unfold EnterJoint. intros ([? ?] & _ & H)%bind_Some. destruct (joint _); [done|]. destruct (_ =? _); [done|].
    apply bind_Some in H as ([? ?] & _ & H). eauto.
  - unfold LeaveJoint. intros ([? ?] & _ & H)%bind_Some. destruct (negb _); [done|]. eauto.
Qed.

Lemma run_op_staged o c cfg prs : changer_ok c -> run_op o c = Some (cfg, prs) -> staged_ok cfg.
Proof.
  intros [Hok Hst]. pose proof (copied c Hok) as (_ & Hc & Hs). destruct o; cbn; intros E.
  - pose proof (Simple_single _ _ _ E) as Hj. rewrite (Simple_eq c Hok _ Hj) in E. apply bind_Some in E as (s & Ea & E).
    destruct (_ <? _); [done|]. simplify_eq. by apply apply_staged in Ea.
  - pose proof (EnterJoint_single _ _ _ _ E) as Hj. rewrite (EnterJoint_eq c Hok _ _ Hj) in E. destruct (_ =? 0); [done|].
    apply bind_Some in E as ([cfg1 prs1] & Ea & E). simplify_eq.
    apply apply_staged in Ea; [done|by apply doubled_ok..].
  - pose proof (LeaveJoint_joint _ _ E) as Hj. destruct (LeaveJoint_eq c Hok Hj Hst) as (cfg' & prs' & E' & _ & (_ & Hn & _) & _).
    simplify_eq. unfold staged_ok. rewrite Hn. set_solver.
Qed.

(** C21: A membership change is refused for a reason: on a configuration that
    satisfies the invariant, [LeaveJoint] always succeeds when the configuration
    is joint, [Simple] succeeds exactly when the changes can be applied, leave a
    voter and change at most one, [EnterJoint] exactly when the changes can be
    applied and leave a voter; the check of the result never fails. What an
    operation returns satisfies the invariant again, so the operations can be
    chained for ever; raft, which panics on a refusal, never panics on leaving. *)
Theorem conf_changes_keep_invariant (c : Changer) (Hok : changer_ok c) :
  let old := tConfig (cTracker c) in
  let prs := tProgress (cTracker c) in
  (forall o cfg' prs', run_op o c = Some (cfg', prs') -> changer_ok (with_config c cfg' prs')) /\
  (joint old = true -> is_Some (LeaveJoint c)) /\
  (joint old = false -> forall ccs,
     Simple c ccs = (s ← apply c ccs (Clone old, prs); if 1 <? symdiff (VotersIn old) (VotersIn s.1) then None else Some s) /\
     forall b, VotersIn old <> ∅ ->
       EnterJoint c b ccs = (s ← apply c ccs (set_VotersOut (Some (VotersIn old)) (Clone old), prs);
                             Some (set_AutoLeave b s.1, s.2))).
Proof.
  cbn. pose proof Hok as [Hc Hst]. split; [|split].
  - intros o cfg' prs' E. split; [by eapply checkInvariants_Clone, run_op_checked|by eapply run_op_staged].
  - intros Hj. destruct (LeaveJoint_eq c Hc Hj Hst) as (? & ? & -> & _). done.
  - intros Hj ccs. split; [by apply Simple_eq|]. intros b Hne. rewrite (EnterJoint_eq c Hc b ccs Hj).
    destruct (Z.eqb_spec (Z.of_nat (size (VotersIn (tConfig (cTracker c))))) 0) as [E|]; [|done].
    destruct Hne. apply leibniz_equiv, size_empty_inv. lia.
Qed.

(** Majorities of two sets that differ in at most one element meet. *)
Lemma near_majorities_meet (A B S1 S2 : gset Z) : symdiff A B <= 1 -> A <> ∅ -> B <> ∅ ->
  majority A S1 -> majority B S2 -> exists id, id ∈ S1 /\ id ∈ S2.
Proof.
  unfold symdiff. intros Hd HA HB [?|H1] [?|H2]; try done.
  destruct (decide ((A ∩ S1) ∩ (B ∩ S2) = ∅)) as [E|E]; [|apply set_choose_L in E as [id ?]; exists id; set_solver].
  exfalso.
  assert (size (A ∩ S1 ∪ B ∩ S2) = (size (A ∩ S1) + size (B ∩ S2))%nat) as Hu by (apply size_union; set_solver).
  assert (size (A ∩ S1 ∪ B ∩ S2) <= size (A ∪ B))%nat as Hs by (apply subseteq_size; set_solver).
  assert (size (A ∪ B) = (size A + size (B ∖ A))%nat) as E1 by apply size_union_alt.
  assert (size A = (size (A ∩ B) + size (A ∖ B))%nat) as E2.
  { rewrite <- size_union by set_solver. f_equal. apply set_eq. intros x. destruct (decide (x ∈ B)); set_solver. }
  assert (size B = (size (A ∩ B) + size (B ∖ A))%nat) as E3.
  { rewrite <- size_union by set_solver. f_equal. apply set_eq. intros x. destruct (decide (x ∈ A)); set_solver. }
  pose proof (Z.div_mod (Z.of_nat (size A)) 2). pose proof (Z.mod_pos_bound (Z.of_nat (size A)) 2).
  pose proof (Z.div_mod (Z.of_nat (size B)) 2). pose proof (Z.mod_pos_bound (Z.of_nat (size B)) 2). lia.
Qed.

(** C22: Membership changes are safe: whatever operation turns one configuration
    into the next, every quorum of the old configuration has a member in common
    with every quorum of the new one, so two leaders of the same term cannot be
    elected and no committed entry can be missed across the change. *)
Theorem quorums_overlap (c : Changer) (o : conf_op) cfg' prs' (S1 S2 : gset Z)
  (Hok : changer_ok c) (Hne : VotersIn (tConfig (cTracker c)) <> ∅) (Hrun : run_op o c = Some (cfg', prs'))
  (H1 : joint_quorum (Voters (tConfig (cTracker c))) S1) (H2 : joint_quorum (Voters cfg') S2) :
  exists id, id ∈ S1 /\ id ∈ S2.
Proof.
  destruct Hok as [Hok Hst]. destruct H1 as [H1 H1o], H2 as [H2 H2o]. cbn in *.
  pose proof (copied c Hok) as (_ & Hc & Hs). destruct o; cbn in Hrun.
  - pose proof (Simple_single _ _ _ Hrun) as Hj. rewrite (Simple_eq c Hok _ Hj) in Hrun.
    apply bind_Some in Hrun as (s & Ea & E). apply apply_ok in Ea as (_ & _ & Hne'); [|done].
    destruct (Z.ltb_spec 1 (symdiff (VotersIn (tConfig (cTracker c))) (VotersIn s.1))); [done|]. simplify_eq.
    by eapply near_majorities_meet.
  - pose proof (EnterJoint_single _ _ _ _ Hrun) as Hj. rewrite (EnterJoint_eq c Hok _ _ Hj) in Hrun.
    destruct (_ =? 0); [done|]. apply bind_Some in Hrun as ([cfg1 prs1] & Ea & E).
    apply apply_ok in Ea as (_ & (Eo & _) & _); [|by apply doubled_ok].
    simplify_eq. cbn in *. rewrite Eo in H2o. cbn in H2o.
    destruct (majority_meet _ _ _ Hne H1 H2o) as (id & _ & ? & ?). eauto.
  - pose proof (LeaveJoint_joint _ _ Hrun) as Hj. destruct (LeaveJoint_eq c Hok Hj Hst) as (? & ? & E' & Ein & _).
    simplify_eq. rewrite Ein in H2. destruct (majority_meet _ _ _ Hne H1 H2) as (id & _ & ? & ?). eauto.
Qed.

(** The configuration of three voters and a learner, as a chain of changes
    makes it. *)
Definition demo_changer : Changer :=
  match Restore (mkChanger (MakeProgressTracker 2) 7) (mkConfState [1; 2; 3] [4] [] [] false) with
  | Some (cfg, prs) => with_config (mkChanger (MakeProgressTracker 2) 7) cfg prs
  | None => mkChanger (MakeProgressTracker 2) 7
  end.

Lemma demo_changer_ok : changer_ok demo_changer.
Proof. split; [vm_compute; reflexivity|]. vm_compute. set_solver. Qed.

Lemma conf_changes_keep_invariant_witness :
  exists cfg prs, Simple demo_changer [mkChange ConfChangeAddNode 4] = Some (cfg, prs) /\
    changer_ok (with_config demo_changer cfg prs).
Proof.
  destruct (conf_changes_keep_invariant demo_changer demo_changer_ok) as (H & _).
  destruct (Simple demo_changer [mkChange ConfChangeAddNode 4]) as [[cfg prs]|] eqn:E.
  - exists cfg, prs. split; [reflexivity|]. apply (H (OpSimple [mkChange ConfChangeAddNode 4])). exact E.
  - exfalso. revert E. vm_compute. discriminate.
Defined.

Definition demo_joint_op : conf_op := OpEnterJoint true [mkChange ConfChangeRemoveNode 3; mkChange ConfChangeAddNode 5].

Lemma quorums_overlap_witness :
  exists cfg prs, run_op demo_joint_op demo_changer = Some (cfg, prs) /\
    exists id, id ∈ ({[1; 3]} : gset Z) /\ id ∈ ({[1; 2; 5]} : gset Z).
Proof.
  destruct (run_op demo_joint_op demo_changer) as [[cfg prs]|] eqn:E.
  - exists cfg, prs. split; [reflexivity|].
    apply (quorums_overlap demo_changer demo_joint_op cfg prs {[1; 3]} {[1; 2; 5]} demo_changer_ok).
    + vm_compute. discriminate.
    + exact E.
    + split; [right|left]; vm_compute; [discriminate|reflexivity].
    + vm_compute in E. injection E as <- _. split; right; vm_compute; discriminate.
  - exfalso. revert E. vm_compute. discriminate.
Defined.
