(* ===== verification/ConfRestore.v ===== *)
(** * ConfRestore: a configuration survives a snapshot

    A snapshot holds the configuration as a [ConfState]; [Restore] of
    src/etcd/raft/confchange/restore.go replays it as a sequence of changes.
    This file shows that it gives back the configuration. *)

From stdpp Require Import sorting.
From S2P Require Import Prelude RaftPb Quorum Tracker ConfChange.

(* ===================================================================== *)
(** ** The members of a configuration through changes                    *)
(* ===================================================================== *)

(** The members of a configuration: its two halves, its learners, its staged
    learners; and a progress marks a learner only if the configuration has it. *)
Record shape (o : option (gset Z)) (I L N : gset Z) (s : Config * ProgressMap) : Prop := mkShape {
  shape_out : VotersOut s.1 = o;
  shape_in : VotersIn s.1 = I;
  shape_learners : ids (Learners s.1) = L;
  shape_next : ids (LearnersNext s.1) = N;
  shape_auto : AutoLeave s.1 = false;
  shape_nil : ids o = ∅ -> LearnersNext s.1 = None;
  shape_ok : conf_ok s;
  shape_exact : forall j, is_learner s.2 j = true -> j ∈ L
}.

Section shapes.
  Context (c : Changer) (o : option (gset Z)).

Lemma makeVoter_shape id I L N s : id ∉ L -> shape o I L N s -> shape o ({[id]} ∪ I) L (N ∖ {[id]}) (makeVoter c id s).
Proof.
  destruct s as [cfg prs]. intros HL [Ho Hi Hl Hn Ha Hnil Hok He]. pose proof (makeVoter_ok c id _ _ Hok) as [Hok' _].
  destruct (makeVoter c id (cfg, prs)) as [cfg' prs'] eqn:E.
  apply makeVoter_sets in E as (Ein & El & En & _ & (Eo & Ea & Enil) & Hlr); [|done]. cbn [fst snd] in *.
  split; cbn [fst snd]; try congruence; try done.
  - by rewrite El, Hl, without_absent.
  - intros Hz. apply Enil; [by rewrite Ho|by apply Hnil].
  - intros j. rewrite Hlr. destruct (decide (id = j)); [done|]. apply He.
Qed.

Lemma remove_shape id I L N s : id ∉ L -> shape o I L N s -> shape o (I ∖ {[id]}) L (N ∖ {[id]}) (remove id s).
Proof.
  destruct s as [cfg prs]. intros HL [Ho Hi Hl Hn Ha Hnil Hok He]. pose proof (remove_ok id _ _ Hok) as [Hok' _].
  destruct (remove id (cfg, prs)) as [cfg' prs'] eqn:E.
  pose proof E as Eprs. apply remove_sets in E as (Ein & El & En & _ & (Eo & Ea & Enil) & Hlr); [|done]. cbn [fst snd] in *.
  split; cbn [fst snd]; try congruence; try done.
  - by rewrite El, Hl, without_absent.
  - intros Hz. apply Enil; [by rewrite Ho|by apply Hnil].
  - intros j Hj. destruct (decide (id = j)) as [<-|]; [|rewrite Hlr in Hj by done; by apply He]. apply He.
    revert Eprs Hj. unfold remove. destruct (prs !! id); intros [= _ <-]; [|done].
    destruct (bool_decide _); [done|]. rewrite is_learner_delete, decide_True by done. done.
Qed.

Lemma makeLearner_shape id I L N s : id ∉ L -> shape o I L N s ->
  if decide (id ∈ ids o) then shape o (I ∖ {[id]}) L ({[id]} ∪ N) (makeLearner c id s)
  else shape o (I ∖ {[id]}) ({[id]} ∪ L) (N ∖ {[id]}) (makeLearner c id s).
Proof.
  destruct s as [cfg prs]. intros HL [Ho Hi Hl Hn Ha Hnil Hok He]. pose proof (makeLearner_ok c id _ _ Hok) as [Hok' _].
  destruct (makeLearner c id (cfg, prs)) as [cfg' prs'] eqn:E. apply makeLearner_sets in E; [|done]. cbn [fst snd] in *.
  destruct (is_learner prs id) eqn:Elr; [by apply He in Elr|].
  destruct E as (Ein & _ & (Eo & Ea & Enil) & E). rewrite Ho in E.
  assert (ids o = ∅ -> LearnersNext cfg' = None) as Hnil'
    by (intros Hz; apply Enil; [by rewrite Ho|by apply Hnil]).
  destruct (decide (id ∈ ids o)); destruct E as (En & El & Hlr); split; cbn [fst snd]; try congruence; try done.
  - rewrite El, Hl. set_solver.
  - intros j. rewrite Hlr. by intros Hj%He.
  - intros j. rewrite Hlr. destruct (decide (id = j)) as [->|]; [set_solver|]. intros Hj%He. set_solver.
Qed.

(** Lists of changes. *)
Lemma apply_changes_app a b s : apply_changes c (a ++ b) s = (s ← apply_changes c a s; apply_changes c b s).
Proof.
  revert s. induction a as [|cc a IH]; intros s; cbn; [done|].
  destruct (NodeID cc =? 0); [apply IH|]. destruct (ccType cc); apply IH || done.
Qed.

Lemma add_voters l I L N s : Forall (fun id => id <> 0 /\ id ∉ L) l -> shape o I L N s ->
  exists s', apply_changes c (mkChange ConfChangeAddNode <$> l) s = Some s' /\
    shape o (list_to_set l ∪ I) L (N ∖ list_to_set l) s'.
Proof.
  intros Hl. revert I N s. induction Hl as [|id l [Hz HL] Hl IH]; intros I N s Hs; cbn [fmap list_fmap apply_changes].
  { exists s. split; [done|]. by rewrite list_to_set_nil, (left_id_L ∅ (∪)), difference_empty_L. }
  cbn [NodeID ccType]. rewrite (proj2 (Z.eqb_neq id 0)) by done.
  destruct (IH _ _ _ (makeVoter_shape id I L N s HL Hs)) as (s' & E & Hs'). exists s'. split; [done|].
  replace (list_to_set (id :: l) ∪ I) with (list_to_set l ∪ ({[id]} ∪ I)) by set_solver.
  by replace (N ∖ list_to_set (id :: l)) with (N ∖ {[id]} ∖ list_to_set l) by set_solver.
Qed.

Lemma remove_all l I L N s : Forall (fun id => id <> 0 /\ id ∉ L) l -> shape o I L N s ->
  exists s', apply_changes c (mkChange ConfChangeRemoveNode <$> l) s = Some s' /\
    shape o (I ∖ list_to_set l) L (N ∖ list_to_set l) s'.
Proof.
  intros Hl. revert I N s. induction Hl as [|id l [Hz HL] Hl IH]; intros I N s Hs; cbn [fmap list_fmap apply_changes].
  { exists s. split; [done|]. by rewrite list_to_set_nil, !difference_empty_L. }
  cbn [NodeID ccType]. rewrite (proj2 (Z.eqb_neq id 0)) by done.
  destruct (IH _ _ _ (remove_shape id I L N s HL Hs)) as (s' & E & Hs'). exists s'. split; [done|].
  replace (I ∖ list_to_set (id :: l)) with (I ∖ {[id]} ∖ list_to_set l) by set_solver.
  by replace (N ∖ list_to_set (id :: l)) with (N ∖ {[id]} ∖ list_to_set l) by set_solver.
Qed.

(** New learners, not in the outgoing half. *)
Lemma add_learners l I L N s : NoDup l -> Forall (fun id => id <> 0 /\ id ∉ L /\ id ∉ I /\ id ∉ N /\ id ∉ ids o) l -> shape o I L N s ->
  exists s', apply_changes c (mkChange ConfChangeAddLearnerNode <$> l) s = Some s' /\ shape o I (list_to_set l ∪ L) N s'.
Proof.
  intros Hd Hl. revert L s Hl. induction Hd as [|id l Hid Hd IH]; intros L s Hl Hs; cbn [fmap list_fmap apply_changes].
  { exists s. split; [done|]. by rewrite list_to_set_nil, (left_id_L ∅ (∪)). }
  apply Forall_cons in Hl as [(Hz & HL & HI & HN & HO) Hl]. cbn [NodeID ccType]. rewrite (proj2 (Z.eqb_neq id 0)) by done.
  pose proof (makeLearner_shape id I L N s HL Hs) as Hs1. rewrite decide_False, !without_absent in Hs1 by done.
  edestruct IH as (s' & E & Hs'); [|exact Hs1|].
  { rewrite Forall_forall in Hl |- *. intros x Hx. specialize (Hl x Hx). set_solver. }
  exists s'. split; [done|]. by replace (list_to_set (id :: l) ∪ L) with (list_to_set l ∪ ({[id]} ∪ L)) by set_solver.
Qed.

(** Staged learners, in the outgoing half only. *)
Lemma stage_learners l I L N s : Forall (fun id => id <> 0 /\ id ∉ L /\ id ∉ I /\ id ∈ ids o) l -> shape o I L N s ->
  exists s', apply_changes c (mkChange ConfChangeAddLearnerNode <$> l) s = Some s' /\ shape o I L (list_to_set l ∪ N) s'.
Proof.
  intros Hl. revert N s. induction Hl as [|id l (Hz & HL & HI & HO) Hl IH]; intros N s Hs; cbn [fmap list_fmap apply_changes].
  { exists s. split; [done|]. by rewrite list_to_set_nil, (left_id_L ∅ (∪)). }
  cbn [NodeID ccType]. rewrite (proj2 (Z.eqb_neq id 0)) by done.
  pose proof (makeLearner_shape id I L N s HL Hs) as Hs1. rewrite decide_True, without_absent in Hs1 by done.
  destruct (IH _ _ Hs1) as (s' & E & Hs'). exists s'. split; [done|].
  by replace (list_to_set (id :: l) ∪ N) with (list_to_set l ∪ ({[id]} ∪ N)) by set_solver.
Qed.

End shapes.

(* ===================================================================== *)
(** ** The chain of changes                                              *)
(* ===================================================================== *)

Lemma Clone_plain cfg : AutoLeave cfg = false -> Clone cfg = cfg.
Proof. destruct cfg. cbn. by intros ->. Qed.

Lemma shape_checked I L s : shape None I L ∅ s -> checkInvariants (Clone s.1) s.2 = true /\ joint s.1 = false.
Proof.
  destruct s as [cfg prs]. intros [Ho Hi Hl Hn Ha Hnil Hok He]. cbn [fst snd] in *. rewrite Clone_plain by done.
  split; [|apply joint_false; by rewrite Ho]. apply checkInvariants_spec. split; [done|]. intros _. split_and!; try done. by apply Hnil.
Qed.

(** One change of the chain. *)
Lemma simple_step c cc s s' I L I' L' : shape None I L ∅ s ->
  apply_changes (with_config c s.1 s.2) [cc] s = Some s' -> shape None I' L' ∅ s' -> I' <> ∅ -> symdiff I I' <= 1 ->
  Simple (with_config c s.1 s.2) [cc] = Some s'.
Proof.
  intros Hs E Hs' Hne Hd. destruct (shape_checked _ _ _ Hs) as [Hok Hj].
  rewrite (Simple_eq (with_config c s.1 s.2)) by done. cbn [cTracker with_config tConfig tProgress].
  rewrite Clone_plain by apply Hs. pose proof (shape_in _ _ _ _ _ Hs) as Hi. unfold apply. destruct s as [cfg prs]. cbn [fst snd] in *. rewrite E. cbn [mbind option_bind].
  rewrite (shape_in _ _ _ _ _ Hs'), Hi.
  destruct (Z.eqb_spec (Z.of_nat (size I')) 0) as [Ez|]; [destruct Hne; apply leibniz_equiv, size_empty_inv; lia|].
  cbn [mbind option_bind]. rewrite (shape_in _ _ _ _ _ Hs'). by zb.
Qed.

Lemma symdiff_add I id : symdiff I ({[id]} ∪ I) <= 1.
Proof.
  unfold symdiff. replace (I ∖ ({[id]} ∪ I)) with (∅ : gset Z) by set_solver. rewrite size_empty.
  assert (size (({[id]} ∪ I) ∖ I) <= size ({[id]} : gset Z))%nat by (apply subseteq_size; set_solver).
  rewrite size_singleton in *. lia.
Qed.

Abbreviation simple_ops ccs := ((fun cc c => Simple c [cc]) <$> ccs).

Lemma with_config_twice c cfg prs cfg' prs' : with_config (with_config c cfg prs) cfg' prs' = with_config c cfg' prs'.
Proof. done. Qed.

Lemma chain_voters c l rest I L s : Forall (fun id => id <> 0 /\ id ∉ L) l -> shape None I L ∅ s ->
  exists s', chain (with_config c s.1 s.2) (simple_ops (mkChange ConfChangeAddNode <$> l) ++ rest) =
             chain (with_config c s'.1 s'.2) rest /\ shape None (list_to_set l ∪ I) L ∅ s'.
Proof.
  intros Hl. revert I s. induction Hl as [|id l [Hz HL] Hl IH]; intros I s Hs.
  { exists s. split; [done|]. by rewrite list_to_set_nil, (left_id_L ∅ (∪)). }
  cbn [fmap list_fmap app chain].
  destruct (add_voters (with_config c s.1 s.2) None [id] I L ∅ s) as (s1 & E1 & Hs1); [by repeat constructor|done|].
  replace (list_to_set [id] ∪ I) with ({[id]} ∪ I) in Hs1 by set_solver.
  replace (∅ ∖ list_to_set [id]) with (∅ : gset Z) in Hs1 by set_solver.
  erewrite simple_step; [|exact Hs|exact E1|exact Hs1|set_solver|apply symdiff_add].
  destruct s1 as [cfg1 prs1]. cbn [mbind option_bind fst snd]. rewrite with_config_twice.
  destruct (IH _ _ Hs1) as (s' & E & Hs'). exists s'. split; [done|].
  by replace (list_to_set (id :: l) ∪ I) with (list_to_set l ∪ ({[id]} ∪ I)) by set_solver.
Qed.

Lemma chain_learners c l rest I L s : NoDup l -> Forall (fun id => id <> 0 /\ id ∉ L /\ id ∉ I) l -> I <> ∅ -> shape None I L ∅ s ->
  exists s', chain (with_config c s.1 s.2) (simple_ops (mkChange ConfChangeAddLearnerNode <$> l) ++ rest) =
             chain (with_config c s'.1 s'.2) rest /\ shape None I (list_to_set l ∪ L) ∅ s'.
Proof.
  intros Hd Hl Hne. revert L s Hl. induction Hd as [|id l Hid Hd IH]; intros L s Hl Hs.
  { exists s. split; [done|]. by rewrite list_to_set_nil, (left_id_L ∅ (∪)). }
  apply Forall_cons in Hl as [(Hz & HL & HI) Hl]. cbn [fmap list_fmap app chain].
  destruct (add_learners (with_config c s.1 s.2) None [id] I L ∅ s) as (s1 & E1 & Hs1);
    [by repeat constructor; set_solver|by repeat constructor; set_solver|done|].
  replace (list_to_set [id] ∪ L) with ({[id]} ∪ L) in Hs1 by set_solver.
  erewrite simple_step; [|exact Hs|exact E1|exact Hs1|done|].
  2:{ unfold symdiff. rewrite difference_diag_L, size_empty. lia. }
  destruct s1 as [cfg1 prs1]. cbn [mbind option_bind fst snd]. rewrite with_config_twice.
  edestruct IH as (s' & E & Hs'); [|exact Hs1|].
  { rewrite Forall_forall in Hl |- *. intros x Hx. specialize (Hl x Hx). set_solver. }
  exists s'. split; [done|]. by replace (list_to_set (id :: l) ∪ L) with (list_to_set l ∪ ({[id]} ∪ L)) by set_solver.
Qed.

(* ===================================================================== *)
(** ** The round trip                                                    *)
(* ===================================================================== *)

Lemma Slice_perm X : Slice X ≡ₚ elements X.
Proof. apply merge_sort_Permutation. Qed.

Lemma elem_of_Slice X id : id ∈ Slice X <-> id ∈ X.
Proof. by rewrite Slice_perm, elem_of_elements. Qed.

Lemma NoDup_Slice X : NoDup (Slice X).
Proof. rewrite Slice_perm. apply NoDup_elements. Qed.

Lemma list_to_set_Slice X : list_to_set (Slice X) = X.
Proof. apply set_eq. intros id. by rewrite elem_of_list_to_set, elem_of_Slice. Qed.

Lemma Forall_Slice (P : Z -> Prop) X : (forall id, id ∈ X -> P id) -> Forall P (Slice X).
Proof. intros H. apply Forall_forall. intros id Hid%elem_of_Slice. by apply H. Qed.

Lemma empty_shape n : shape None ∅ ∅ ∅ (tConfig (MakeProgressTracker n), tProgress (MakeProgressTracker n)).
Proof. by split. Qed.

Lemma without_none (X : gset Z) : ∅ ∖ X = ∅.
Proof. set_solver. Qed.

(** Entering the joint configuration from the outgoing half. *)
Lemma enter_shape c b O V L N s :
  O <> ∅ -> V <> ∅ -> 0 ∉ O ∪ V ∪ L -> L ## O -> L ## V -> N ⊆ O -> N ## V -> shape None O ∅ ∅ s ->
  exists s', EnterJoint (with_config c s.1 s.2) b
    ((mkChange ConfChangeRemoveNode <$> Slice O) ++ (mkChange ConfChangeAddNode <$> Slice V) ++
     (mkChange ConfChangeAddLearnerNode <$> Slice L) ++ (mkChange ConfChangeAddLearnerNode <$> Slice N)) = Some s' /\
    VotersIn s'.1 = V /\ ids (VotersOut s'.1) = O /\ ids (Learners s'.1) = L /\ ids (LearnersNext s'.1) = N /\ AutoLeave s'.1 = b.
Proof.
  intros HO HV Hz HLO HLV HNO HNV Hs. destruct (shape_checked _ _ _ Hs) as [Hok Hj].
  set (c' := with_config c s.1 s.2).
  rewrite (EnterJoint_eq c') by done. cbn [cTracker c' with_config tConfig tProgress]. rewrite (shape_in _ _ _ _ _ Hs).
  destruct (Z.eqb_spec (Z.of_nat (size O)) 0) as [Ez|]; [destruct HO; apply leibniz_equiv, size_empty_inv; lia|].
  assert (shape (Some O) O ∅ ∅ (set_VotersOut (Some O) (Clone s.1), s.2)) as H0.
  { pose proof (doubled_ok c' Hok Hj) as [Hd _]. cbn [cTracker c' with_config tConfig tProgress] in Hd.
    rewrite (shape_in _ _ _ _ _ Hs) in Hd. destruct Hs as [Ho Hi Hl Hn Ha Hnil Hok' He].
    split; cbn [fst snd set_VotersOut VotersOut VotersIn Learners LearnersNext AutoLeave Clone]; try done. }
  unfold apply. rewrite !apply_changes_app.
  edestruct (remove_all c' (Some O) (Slice O)) as (s1 & E1 & H1); [|exact H0|].
  { apply Forall_Slice. set_solver. }
  rewrite E1.
  rewrite list_to_set_Slice, difference_diag_L, without_none in H1. cbn [mbind option_bind]. rewrite apply_changes_app.
  edestruct (add_voters c' (Some O) (Slice V)) as (s2 & E2 & H2); [|exact H1|].
  { apply Forall_Slice. set_solver. }
  rewrite E2.
  rewrite list_to_set_Slice, union_empty_r_L, without_none in H2. cbn [mbind option_bind]. rewrite apply_changes_app.
  edestruct (add_learners c' (Some O) (Slice L)) as (s3 & E3 & H3); [apply NoDup_Slice| |exact H2|].
  { apply Forall_Slice. set_solver. }
  rewrite E3.
  rewrite list_to_set_Slice, union_empty_r_L in H3. cbn [mbind option_bind].
  edestruct (stage_learners c' (Some O) (Slice N)) as (s4 & E4 & H4); [|exact H3|].
  { apply Forall_Slice. set_solver. }
  rewrite E4.
  rewrite list_to_set_Slice, union_empty_r_L in H4. cbn [mbind option_bind].
  rewrite (shape_in _ _ _ _ _ H4).
  destruct (Z.eqb_spec (Z.of_nat (size V)) 0) as [Ez|]; [destruct HV; apply leibniz_equiv, size_empty_inv; lia|].
  cbn [mbind option_bind]. eexists. split; [done|]. destruct H4 as [Ho Hi Hl Hn Ha Hnil Hok' He]. cbn. by rewrite Ho, Hi, Hl, Hn.
Qed.

Lemma Slice_empty : Slice ∅ = [].
Proof. done. Qed.

Lemma Slice_nil X : Slice X = [] -> X = ∅.
Proof. intros E. by rewrite <- (list_to_set_Slice X), E. Qed.

Lemma tracker_ConfState_eq cfg cfg' prs prs' vs vs' m m' :
  VotersIn cfg = VotersIn cfg' -> ids (VotersOut cfg) = ids (VotersOut cfg') -> ids (Learners cfg) = ids (Learners cfg') ->
  ids (LearnersNext cfg) = ids (LearnersNext cfg') -> AutoLeave cfg = AutoLeave cfg' ->
  tracker_ConfState (mkTracker cfg prs vs m) = tracker_ConfState (mkTracker cfg' prs' vs' m').
Proof. intros E1 E2 E3 E4 E5. unfold tracker_ConfState. cbn. by rewrite E1, E2, E3, E4, E5. Qed.

(** C25: A configuration survives a snapshot: [Restore], starting from an empty
    tracker, turns the [ConfState] of any configuration that satisfies the
    invariant, joint or not, into a configuration with the same [ConfState];
    none of the changes it replays is refused. *)
Theorem restore_roundtrip (p : ProgressTracker) (n last : Z)
  (Hok : checkInvariants (tConfig p) (tProgress p) = true) (Hst : staged_ok (tConfig p))
  (Hne : VotersIn (tConfig p) <> ∅) (Hz : 0 ∉ dom (tProgress p)) :
  exists cfg prs, Restore (mkChanger (MakeProgressTracker n) last) (tracker_ConfState p) = Some (cfg, prs) /\
    tracker_ConfState (mkTracker cfg prs ∅ n) = tracker_ConfState p.
Proof.
  apply checkInvariants_spec in Hok as [(Hd & Hn & Hl) Hs]. destruct p as [cfg0 prs0 vs0 m0]. cbn [tConfig tProgress] in *.
  set (cs := tracker_ConfState (mkTracker cfg0 prs0 vs0 m0)). unfold Restore, toConfChangeSingle.
  change (csVoters cs) with (Slice (VotersIn cfg0)). change (csVotersOutgoing cs) with (Slice (ids (VotersOut cfg0))).
  change (csLearners cs) with (Slice (ids (Learners cfg0))). change (csLearnersNext cs) with (Slice (ids (LearnersNext cfg0))).
  change (csAutoLeave cs) with (AutoLeave cfg0).
  set (c := mkChanger (MakeProgressTracker n) last).
  pose proof (empty_shape n) as H0. set (s0 := (_, _)) in H0. change c with (with_config c s0.1 s0.2).
  destruct (Slice (ids (VotersOut cfg0))) as [|o os] eqn:Eo.
  - apply Slice_nil in Eo. destruct (Hs (proj2 (joint_false _) Eo)) as (So & Sn & Sa).
    rewrite Sn. cbn [default from_option]. rewrite Slice_empty. cbn [fmap list_fmap app]. rewrite app_nil_r, fmap_app.
    edestruct (chain_voters c (Slice (VotersIn cfg0))) as (s1 & -> & H1); [|exact H0|].
    { apply Forall_Slice. set_solver. }
    rewrite list_to_set_Slice, union_empty_r_L in H1. rewrite <- (app_nil_r (_ <$> (_ <$> Slice (ids (Learners cfg0))))).
    edestruct (chain_learners c (Slice (ids (Learners cfg0)))) as (s2 & -> & H2); [apply NoDup_Slice| |done|exact H1|].
    { apply Forall_Slice. intros id Hid. destruct (Hl id Hid) as (? & ? & _). set_solver. }
    rewrite list_to_set_Slice, union_empty_r_L in H2. destruct s2 as [cfg prs]. exists cfg, prs. split; [done|].
    destruct H2 as [Ho Hi Hle Hne' Ha _ _ _]. cbn [fst snd] in *. apply tracker_ConfState_eq; try congruence; by rewrite ?Ho, ?So, ?Hne', ?Sn.
  - rewrite <- Eo. set (inc := _ ++ _ ++ _ ++ _).
    destruct (mkChange ConfChangeAddNode <$> Slice (ids (VotersOut cfg0))) as [|x xs] eqn:Ex; [by rewrite Eo in Ex|].
    rewrite <- Ex. clear x xs Ex.
    edestruct (chain_voters c (Slice (ids (VotersOut cfg0)))) as (s1 & -> & H1); [|exact H0|].
    { apply Forall_Slice. set_solver. }
    rewrite list_to_set_Slice, union_empty_r_L in H1. cbn [chain].
    destruct (enter_shape c (AutoLeave cfg0) (ids (VotersOut cfg0)) (VotersIn cfg0) (ids (Learners cfg0)) (ids (LearnersNext cfg0)) s1)
      as (s2 & E2 & E3 & E4 & E5 & E6 & E7); [..|exact H1|].
    8:{ unfold inc. rewrite E2. destruct s2 as [cfg prs]. exists cfg, prs. split; [done|]. by apply tracker_ConfState_eq. }
    all: try done.
    + intros E. by rewrite E in Eo.
    + set_solver.
    + intros id Hid Ho. by destruct (Hl id Hid).
    + intros id Hid Ho. by destruct (Hl id Hid) as (_ & ? & _).
    + intros id Hid. by destruct (Hn id Hid).
Qed.

Lemma restore_roundtrip_witness :
  exists cfg prs,
    Restore (mkChanger (MakeProgressTracker 4) 9)
            (tracker_ConfState (cTracker demo_changer)) = Some (cfg, prs) /\
    tracker_ConfState (mkTracker cfg prs ∅ 4) = tracker_ConfState (cTracker demo_changer).
Proof.
  apply (restore_roundtrip (cTracker demo_changer) 4 9).
  - vm_compute. reflexivity.
  - exact (proj2 demo_changer_ok).
  - vm_compute. discriminate.
  - apply (bool_decide_unpack _). vm_compute. exact I.
Defined.
