(* ===== verification/RaftWire.v ===== *)
(** * RaftWire: the protobuf wire format of raft (src/etcd/raft/raftpb/raft.pb.go)

    The parts all generated methods have in common. [MarshalToSizedBuffer]
    fills a buffer from its end to its front: the state of a writer is the
    buffer and the index of the last byte written. [Unmarshal] is a loop over
    fields, the body of which is the same for every message but for the switch
    on the field number; [skipRaft] steps over an unknown field. Every index
    into the input is checked against its length as Go does it, so that a
    mistake in the bounds would be a panic. *)

From S2P Require Import Prelude RaftPb.

(* ===================================================================== *)
(** ** Writing                                                           *)
(* ===================================================================== *)

(** [d[k] = uint8(b)]. *)
Definition store (k b : Z) (d : bytes) : outcome bytes :=
  if (0 <=? k) && (k <? zlen d) then Ret (<[Z.to_nat k := zbyte b]> d) else Panic.

Fixpoint encode_loop (fuel : nat) (d : bytes) (offset v : Z) : outcome bytes :=
  match fuel with
  | O => Block
  | S fuel' =>
      if 128 <=? v then
        d ← store offset (Z.lor (Z.land v 127) 128) d;
        encode_loop fuel' d (offset + 1) (Z.shiftr v 7)
      else store offset v d
  end.

(** The index of the first byte written, and the buffer. Ten bytes of seven
    bits hold a [uint64]. *)
Definition encodeVarintRaft (d : bytes) (offset v : Z) : outcome (Z * bytes) :=
  let base := offset - sovRaft v in
  d ← encode_loop 10 d base v;
  Ret (base, d).

Abbreviation writer := (M (bytes * Z)).

Definition putVarint (v : Z) : writer unit :=
  '(d, i) ← get;
  '(i, d) ← lift (encodeVarintRaft d i v);
  modify (fun _ => (d, i)).

(** [i--; dAtA[i] = b]. *)
Definition putByte (b : Z) : writer unit :=
  '(d, i) ← get;
  d ← lift (store (i - 1) b d);
  modify (fun _ => (d, i - 1)).

(** [i -= len(x); copy(dAtA[i:], x)]; [copy] stops where the shorter slice ends. *)
Definition putBytes (x : bytes) : writer unit :=
  '(d, i) ← get;
  let i := i - zlen x in
  back ← lift (zslice i (zlen d) d);
  front ← lift (zslice 0 i d);
  modify (fun _ => (front ++ take (length back) x ++ drop (length x) back, i)).

(** A nested message: [f] is its [MarshalToSizedBuffer], run on [dAtA[:i]]. *)
Definition putMessage (f : bytes -> outcome (Z * bytes)) : writer unit :=
  '(d, i) ← get;
  front ← lift (zslice 0 i d);
  back ← lift (zslice i (zlen d) d);
  '(size, front) ← lift (f front);
  modify (fun _ => (front ++ back, i - size));;
  putVarint size.

(** A []byte field, written only if it is not nil. *)
Definition putOptional (tag : Z) (x : option bytes) : writer unit :=
  match x with
  | Some x => putBytes x;; putVarint (zlen x);; putByte tag
  | None => mret tt
  end.

Definition putBool (b : bool) : writer unit := putByte (if b then 1 else 0).

(** A whole [MarshalToSizedBuffer]: the number of bytes written, and the buffer. *)
Definition toSizedBuffer (w : writer unit) (d : bytes) : outcome (Z * bytes) :=
  '(_, (d', i)) ← w (d, zlen d);
  Ret (zlen d' - i, d').

(** [Marshal], given [Size] and [MarshalToSizedBuffer]. *)
Definition marshal (size : Z) (f : bytes -> outcome (Z * bytes)) : outcome bytes :=
  '(n, d) ← f (replicate (Z.to_nat size) zero_byte);
  zslice 0 n d.

(* ===================================================================== *)
(** ** Reading                                                           *)
(* ===================================================================== *)

Inductive wire_error : Type :=
| ErrInvalidLengthRaft
| ErrIntOverflowRaft
| ErrUnexpectedEndOfGroupRaft
| ErrUnexpectedEOF
| ErrEndGroup            (* wiretype end group for non-group *)
| ErrIllegalTag          (* illegal tag *)
| ErrWrongWireType       (* wrong wireType for a field *)
| ErrIllegalWireType.    (* illegal wireType *)

(** A result, an error, a run-time panic, or a loop that ran out of fuel. *)
Inductive dec (A : Type) : Type :=
| DOk (a : A)
| DErr (e : wire_error)
| DPanic
| DSpin.
Arguments DOk {A} a.
Arguments DErr {A} e.
Arguments DPanic {A}.
Arguments DSpin {A}.

#[export] Instance dec_ret : MRet dec := fun A a => DOk a.
#[export] Instance dec_bind : MBind dec := fun A B f o =>
  match o with
  | DOk a => f a
  | DErr e => DErr e
  | DPanic => DPanic
  | DSpin => DSpin
  end.

Definition dindex {A} (l : list A) (i : Z) : dec A :=
  match znth l i with Some a => DOk a | None => DPanic end.

Definition dslice {A} (lo hi : Z) (l : list A) : dec (list A) :=
  if (0 <=? lo) && (lo <=? hi) && (hi <=? zlen l)
  then DOk (take (Z.to_nat (hi - lo)) (drop (Z.to_nat lo) l)) else DPanic.

(** [int32]. *)
Definition i32 (z : Z) : Z := (z + 2 ^ 31) mod 2 ^ 32 - 2 ^ 31.

(** The loop that reads a varint into a variable of some integer type, the
    conversion to which is [conv]. *)
Fixpoint varint_loop (fuel : nat) (conv : Z -> Z) (d : bytes) (iNdEx shift acc : Z) : dec (Z * Z) :=
  match fuel with
  | O => DSpin
  | S fuel' =>
      if 64 <=? shift then DErr ErrIntOverflowRaft else
      if zlen d <=? iNdEx then DErr ErrUnexpectedEOF else
      b ← dindex d iNdEx;
      let acc := Z.lor acc (conv (Z.shiftl (Z.land (byteval b) 127) shift)) in
      if byteval b <? 128 then DOk (acc, iNdEx + 1)
      else varint_loop fuel' conv d (iNdEx + 1) (shift + 7) acc
  end.

(** The value and the index after it. The loop ends when [shift], which grows by
    7, has reached 64. *)
Definition readVarint (conv : Z -> Z) (d : bytes) (iNdEx : Z) : dec (Z * Z) :=
  varint_loop 11 conv d iNdEx 0 0.

(** A length and the bytes [dAtA[iNdEx:postIndex]] it delimits. *)
Definition readLen (d : bytes) (iNdEx : Z) : dec (bytes * Z) :=
  '(n, iNdEx) ← readVarint i64 d iNdEx;
  if n <? 0 then DErr ErrInvalidLengthRaft else
  let postIndex := i64 (iNdEx + n) in
  if postIndex <? 0 then DErr ErrInvalidLengthRaft else
  if zlen d <? postIndex then DErr ErrUnexpectedEOF else
  x ← dslice iNdEx postIndex d;
  DOk (x, postIndex).

Fixpoint skip_loop (fuel : nat) (d : bytes) (iNdEx depth : Z) : dec Z :=
  match fuel with
  | O => DSpin
  | S fuel' =>
      if zlen d <=? iNdEx then DErr ErrUnexpectedEOF else
      '(wire, iNdEx) ← readVarint u64 d iNdEx;
      '(iNdEx, depth) ←
        match Z.land wire 7 with
        | 0 => '(_, iNdEx) ← readVarint u64 d iNdEx; DOk (iNdEx, depth)
        | 1 => DOk (i64 (iNdEx + 8), depth)
        | 2 =>
            '(length, iNdEx) ← readVarint i64 d iNdEx;
            if length <? 0 then DErr ErrInvalidLengthRaft else DOk (i64 (iNdEx + length), depth)
        | 3 => DOk (iNdEx, depth + 1)
        | 4 => if depth =? 0 then DErr ErrUnexpectedEndOfGroupRaft else DOk (iNdEx, depth - 1)
        | 5 => DOk (i64 (iNdEx + 4), depth)
        | _ => DErr ErrIllegalWireType
        end;
      if iNdEx <? 0 then DErr ErrInvalidLengthRaft else
      if depth =? 0 then DOk iNdEx else skip_loop fuel' d iNdEx depth
  end.

(** Every round consumes a byte. *)
Definition skipRaft (d : bytes) : dec Z := skip_loop (S (length d)) d 0 0.

(** The cases of a switch on the field number: the message and the index after
    the field, or [None] for [default]. *)
Abbreviation fields T := (T -> Z -> Z -> bytes -> Z -> option (dec (T * Z))).

(** [default]: [skipRaft] over the field that starts at [preIndex]. *)
Definition skip_field {T} (m : T) (d : bytes) (preIndex : Z) : dec (T * Z) :=
  x ← dslice preIndex (zlen d) d;
  skippy ← skipRaft x;
  if (skippy <? 0) || (i64 (preIndex + skippy) <? 0) then DErr ErrInvalidLengthRaft else
  if zlen d <? i64 (preIndex + skippy) then DErr ErrUnexpectedEOF else
  DOk (m, i64 (preIndex + skippy)).

(** The body of the loop. *)
Definition unmarshal_field {T} (field : fields T) (d : bytes) (preIndex : Z) (m : T) : dec (T * Z) :=
  '(wire, iNdEx) ← readVarint u64 d preIndex;
  let fieldNum := i32 (Z.shiftr wire 3) in
  let wireType := Z.land wire 7 in
  if wireType =? 4 then DErr ErrEndGroup else
  if fieldNum <=? 0 then DErr ErrIllegalTag else
  match field m fieldNum wireType d iNdEx with
  | Some r => r
  | None => skip_field m d preIndex
  end.

Fixpoint unmarshal_loop {T} (field : fields T) (fuel : nat) (d : bytes) (iNdEx : Z) (m : T) : dec T :=
  match fuel with
  | O => DSpin
  | S fuel' =>
      if iNdEx <? zlen d then
        '(m, iNdEx) ← unmarshal_field field d iNdEx m;
        unmarshal_loop field fuel' d iNdEx m
      else if zlen d <? iNdEx then DErr ErrUnexpectedEOF else DOk m
  end.

(** Every field takes a byte. *)
Definition unmarshal {T} (field : fields T) (d : bytes) (m : T) : dec T :=
  unmarshal_loop field (S (length d)) d 0 m.

(** The fields of a number, of a bool, of bytes, of a nested message, and of a
    repeated number, packed or not. *)
Definition varint_field {T} (conv : Z -> Z) (set : Z -> T) (wireType : Z) (d : bytes) (iNdEx : Z) : dec (T * Z) :=
  if negb (wireType =? 0) then DErr ErrWrongWireType else
  '(v, iNdEx) ← readVarint conv d iNdEx;
  DOk (set v, iNdEx).

Definition bool_field {T} (set : bool -> T) (wireType : Z) (d : bytes) (iNdEx : Z) : dec (T * Z) :=
  varint_field i64 (fun v => set (negb (v =? 0))) wireType d iNdEx.

Definition bytes_field {T} (set : option bytes -> T) (wireType : Z) (d : bytes) (iNdEx : Z) : dec (T * Z) :=
  if negb (wireType =? 2) then DErr ErrWrongWireType else
  '(x, iNdEx) ← readLen d iNdEx;
  DOk (set (Some x), iNdEx).

Definition message_field {A T} (parse : bytes -> dec A) (set : A -> T) (wireType : Z) (d : bytes) (iNdEx : Z) :
    dec (T * Z) :=
  if negb (wireType =? 2) then DErr ErrWrongWireType else
  '(x, iNdEx) ← readLen d iNdEx;
  a ← parse x;
  DOk (set a, iNdEx).

Fixpoint packed_loop (fuel : nat) (d : bytes) (postIndex iNdEx : Z) (vs : list Z) : dec (list Z * Z) :=
  match fuel with
  | O => DSpin
  | S fuel' =>
      if iNdEx <? postIndex then
        '(v, iNdEx) ← readVarint u64 d iNdEx;
        packed_loop fuel' d postIndex iNdEx (vs ++ [v])
      else DOk (vs, iNdEx)
  end.

Definition repeated_field {T} (vs : list Z) (set : list Z -> T) (wireType : Z) (d : bytes) (iNdEx : Z) : dec (T * Z) :=
  if wireType =? 0 then
    '(v, iNdEx) ← readVarint u64 d iNdEx;
    DOk (set (vs ++ [v]), iNdEx)
  else if wireType =? 2 then
    '(x, postIndex) ← readLen d iNdEx;
    '(vs, iNdEx) ← packed_loop (S (length d)) d postIndex (postIndex - zlen x) vs;
    DOk (set vs, iNdEx)
  else DErr ErrWrongWireType.

(* ===================================================================== *)
(** ** Integers of a given width                                         *)
(* ===================================================================== *)

(** What reading a number bit by bit needs of the conversion to its type. *)
Class IntConv (conv : Z -> Z) : Prop := {
  conv_0 : conv 0 = 0;
  conv_u64 x : conv (u64 x) = conv x;
  conv_lor x y : conv (Z.lor x y) = Z.lor (conv x) (conv y)
}.

Lemma mod_lor x y w : 0 <= w -> Z.lor x y mod 2 ^ w = Z.lor (x mod 2 ^ w) (y mod 2 ^ w).
Proof. intros Hw. rewrite <- !Z.land_ones by lia. apply Z.land_lor_distr_l. Qed.

(** Two's complement at width [w]. *)
Definition swrap (w z : Z) : Z := (z + 2 ^ (w - 1)) mod 2 ^ w - 2 ^ (w - 1).

Definition fits (w z : Z) : Prop := - 2 ^ (w - 1) <= z < 2 ^ (w - 1).

Lemma fits_shiftr w z : 0 < w -> fits w z <-> Z.shiftr z (w - 1) = 0 \/ Z.shiftr z (w - 1) = -1.
Proof.
  intros Hw. unfold fits. rewrite Z.shiftr_div_pow2 by lia.
  assert (0 < 2 ^ (w - 1)) by (apply Z.pow_pos_nonneg; lia).
  pose proof (Z.div_mod z (2 ^ (w - 1)) ltac:(lia)). pose proof (Z.mod_pos_bound z (2 ^ (w - 1)) ltac:(lia)).
  split; [intros|intros [E|E]; rewrite E in *; lia].
  assert (-1 <= z / 2 ^ (w - 1) < 1); [|lia].
  split; [apply Z.div_le_lower_bound; lia|apply Z.div_lt_upper_bound; lia].
Qed.

Lemma fits_lor w x y : 0 < w -> fits w x -> fits w y -> fits w (Z.lor x y).
Proof.
  intros Hw. rewrite !fits_shiftr, Z.shiftr_lor by done.
  intros [-> | ->] [-> | ->]; rewrite ?Z.lor_0_l, ?Z.lor_0_r, ?Z.lor_m1_l; auto.
Qed.

Lemma pow2_half w : 0 < w -> 2 ^ w = 2 * 2 ^ (w - 1).
Proof. intros. rewrite <- Z.pow_succ_r by lia. f_equal. lia. Qed.

Lemma swrap_fits w z : 0 < w -> fits w (swrap w z).
Proof.
  intros Hw. unfold fits, swrap. pose proof (pow2_half w Hw).
  pose proof (Z.mod_pos_bound (z + 2 ^ (w - 1)) (2 ^ w) ltac:(apply Z.pow_pos_nonneg; lia)). lia.
Qed.

Lemma swrap_mod w z : 0 < w -> swrap w z mod 2 ^ w = z mod 2 ^ w.
Proof. intros. unfold swrap. rewrite Zminus_mod_idemp_l. f_equal. lia. Qed.

Lemma swrap_id w z : 0 < w -> fits w z -> swrap w z = z.
Proof.
  unfold fits, swrap. intros Hw Hz. pose proof (pow2_half w Hw). rewrite Z.mod_small by lia. lia.
Qed.

Lemma swrap_unique w x y : 0 < w -> fits w x -> x mod 2 ^ w = y mod 2 ^ w -> swrap w y = x.
Proof.
  intros Hw Hx E. rewrite <- (swrap_id w x) by done. unfold swrap.
  by rewrite <- Zplus_mod_idemp_l, <- E, Zplus_mod_idemp_l.
Qed.

Lemma swrap_conv w : 0 < w <= 64 -> IntConv (swrap w).
Proof.
  intros Hw. split.
  - apply swrap_id; [lia|]. unfold fits. pose proof (Z.pow_pos_nonneg 2 (w - 1)). lia.
  - intros x. apply swrap_unique; [lia|by apply swrap_fits; lia|]. rewrite swrap_mod by lia. unfold u64.
    symmetry. apply Z.mod_mod_divide. exists (2 ^ (64 - w)). rewrite <- Z.pow_add_r by lia. f_equal. lia.
  - intros x y. apply swrap_unique; [lia|apply fits_lor; [lia|apply swrap_fits; lia..]|].
    by rewrite !mod_lor, !swrap_mod by lia.
Qed.

#[export] Instance u64_conv : IntConv u64.
Proof. split; [done|intros; apply Z.mod_mod; lia|intros; by apply mod_lor]. Qed.
#[export] Instance i64_conv : IntConv i64.
Proof. apply (swrap_conv 64). lia. Qed.
#[export] Instance i32_conv : IntConv i32.
Proof. apply (swrap_conv 32). lia. Qed.

Lemma i32_id n : - 2 ^ 31 <= n < 2 ^ 31 -> i32 n = n.
Proof. intros. by apply (swrap_id 32). Qed.

Lemma i32_u64 n : - 2 ^ 31 <= n < 2 ^ 31 -> i32 (u64 n) = n.
Proof. intros. rewrite conv_u64. by apply i32_id. Qed.

(* ===================================================================== *)
(** ** Varints                                                           *)
(* ===================================================================== *)

(** The bytes of a varint, first to last. *)
Fixpoint varint_n (n : nat) (v : Z) : bytes :=
  match n with
  | O => []
  | S n' => if v <? 128 then [zbyte v] else zbyte (Z.lor (Z.land v 127) 128) :: varint_n n' (Z.shiftr v 7)
  end.

Definition varint (v : Z) : bytes := varint_n 10 v.

Arguments varint : simpl never.
Arguments readVarint : simpl never.
Arguments readLen : simpl never.

Lemma varint_n_S n v : varint_n (S n) v =
  if v <? 128 then [zbyte v] else zbyte (Z.lor (Z.land v 127) 128) :: varint_n n (Z.shiftr v 7).
Proof. done. Qed.

Lemma encode_loop_S n d offset v : encode_loop (S n) d offset v =
  if 128 <=? v then
    d ← store offset (Z.lor (Z.land v 127) 128) d; encode_loop n d (offset + 1) (Z.shiftr v 7)
  else store offset v d.
Proof. done. Qed.

Definition is_u64 (z : Z) : Prop := 0 <= z < 2 ^ 64.

Lemma shiftr7 v : Z.shiftr v 7 = v / 128.
Proof. by rewrite Z.shiftr_div_pow2. Qed.

Lemma land127 v : Z.land v 127 = v mod 128.
Proof. exact (Z.land_ones v 7 ltac:(lia)). Qed.

Lemma land7 v : Z.land v 7 = v mod 8.
Proof. exact (Z.land_ones v 3 ltac:(lia)). Qed.

Lemma sovRaft_small v : 0 <= v < 128 -> sovRaft v = 1.
Proof.
  intros Hv. unfold sovRaft, Len64. rewrite (proj2 (Z.eqb_neq _ _)) by (rewrite Z.lor_eq_0_iff; lia).
  rewrite Z.log2_lor by lia. assert (Z.log2 v <= 6); [|pose proof (Z.log2_nonneg v); change (Z.log2 1) with 0;
    symmetry; apply Z.div_unique with (Z.log2 v); lia].
  destruct (decide (v = 0)) as [->|]; [done|]. apply Z.lt_succ_r, Z.log2_lt_pow2; lia.
Qed.

Lemma sovRaft_step v : 128 <= v -> sovRaft v = 1 + sovRaft (Z.shiftr v 7).
Proof.
  intros Hv. unfold sovRaft, Len64.
  assert (7 <= Z.log2 v) by (apply Z.log2_le_pow2; lia).
  assert (1 <= Z.shiftr v 7) by (rewrite shiftr7; apply Z.div_le_lower_bound; lia).
  rewrite !(proj2 (Z.eqb_neq _ _)) by (rewrite Z.lor_eq_0_iff; lia).
  rewrite !Z.log2_lor, Z.log2_shiftr by lia. change (Z.log2 1) with 0. rewrite !Z.max_l by lia.
  rewrite Z.max_r by lia. rewrite <- (Z.div_add_l 1 7) by lia. f_equal. lia.
Qed.

Lemma shiftr7_bound v n : 0 <= v < 2 ^ (7 * Z.of_nat (S n)) -> 0 <= Z.shiftr v 7 < 2 ^ (7 * Z.of_nat n).
Proof.
  intros Hv. rewrite shiftr7. split; [apply Z.div_pos; lia|]. apply Z.div_lt_upper_bound; [lia|].
  change 128 with (2 ^ 7). rewrite <- Z.pow_add_r by lia. replace (7 + 7 * Z.of_nat n) with (7 * Z.of_nat (S n)) by lia. lia.
Qed.

(** Seven bits per byte: [n] bytes suffice. *)
Lemma varint_n_length n v : 0 <= v < 2 ^ (7 * Z.of_nat (S n)) -> zlen (varint_n (S n) v) = sovRaft v.
Proof.
  revert v. induction n as [|n IH]; intros v Hv; rewrite varint_n_S.
  - change (2 ^ (7 * Z.of_nat 1)) with 128 in Hv. zb. by rewrite sovRaft_small.
  - destruct (Z.ltb_spec v 128); [by rewrite sovRaft_small by lia|].
    rewrite zlen_cons, sovRaft_step by lia. pose proof (shiftr7_bound _ _ Hv). rewrite <- (IH (Z.shiftr v 7)) by done. lia.
Qed.

Lemma varint_n_le n v : zlen (varint_n n v) <= Z.of_nat n.
Proof.
  revert v. induction n as [|n IH]; intros v; [done|]. rewrite varint_n_S. specialize (IH (Z.shiftr v 7)).
  destruct (v <? 128); [rewrite zlen_cons, zlen_nil; lia|]. rewrite zlen_cons. lia.
Qed.

Lemma is_u64_bound v : is_u64 v -> 0 <= v < 2 ^ (7 * Z.of_nat 10).
Proof. unfold is_u64. change (2 ^ (7 * Z.of_nat 10)) with (2 ^ 64 * 64). lia. Qed.

Lemma varint_length v : is_u64 v -> zlen (varint v) = sovRaft v.
Proof. intros. by apply varint_n_length, is_u64_bound. Qed.

Lemma store_at a c b x : store (zlen a) x (a ++ c :: b) = Ret (a ++ zbyte x :: b).
Proof.
  unfold store. pose proof (zlen_nonneg a). pose proof (zlen_nonneg b). rewrite zlen_app, zlen_cons. zb.
  f_equal. unfold zlen. by rewrite Nat2Z.id, insert_app_r_alt, Nat.sub_diag by done.
Qed.

Lemma encode_loop_eq n v a g b :
  0 <= v < 2 ^ (7 * Z.of_nat (S n)) -> length g = length (varint_n (S n) v) ->
  encode_loop (S n) (a ++ g ++ b) (zlen a) v = Ret (a ++ varint_n (S n) v ++ b).
Proof.
  revert v a g. induction n as [|n IH]; intros v a g Hv; rewrite varint_n_S, encode_loop_S.
  - change (2 ^ (7 * Z.of_nat 1)) with 128 in Hv. zb. destruct g as [|c []]; [done| |done]. intros _. apply store_at.
  - destruct (Z.ltb_spec v 128); zb.
    { destruct g as [|c []]; [done| |done]. intros _. apply store_at. }
    destruct g as [|c g]; [done|]. cbn [length]. intros [= Hg]. cbn [app]. rewrite store_at. cbn [mbind outcome_bind].
    rewrite <- (zlen_snoc a (zbyte (Z.lor (Z.land v 127) 128))), cons_middle, app_assoc.
    rewrite IH; [by rewrite <- app_assoc|by apply shiftr7_bound|done].
Qed.

Lemma split_back {A} (l : list A) k : 0 <= k <= zlen l ->
  exists a g, l = a ++ g /\ zlen a = zlen l - k /\ zlen g = k.
Proof.
  unfold zlen. intros Hk. exists (take (length l - Z.to_nat k) l), (drop (length l - Z.to_nat k) l).
  rewrite take_drop, length_take, length_drop. split_and!; [done|lia..].
Qed.

Lemma sovRaft_pos v : 0 <= sovRaft v.
Proof. unfold sovRaft, Len64. pose proof (Z.log2_nonneg (Z.lor v 1)). apply Z.div_pos; [|lia]. case_match; lia. Qed.

(** [encodeVarintRaft] writes the varint just before [offset]. *)
Lemma encodeVarintRaft_eq front acc v : is_u64 v -> sovRaft v <= zlen front ->
  exists front', zlen front' = zlen front - sovRaft v /\
    encodeVarintRaft (front ++ acc) (zlen front) v = Ret (zlen front', front' ++ varint v ++ acc).
Proof.
  intros Hv Hlen. destruct (split_back front (sovRaft v)) as (a & g & -> & Ha & Hg); [pose proof (sovRaft_pos v); lia|].
  exists a. split; [done|]. unfold encodeVarintRaft.
  replace (zlen (a ++ g) - sovRaft v) with (zlen a) by lia.
  rewrite <- app_assoc, encode_loop_eq; [done|by apply is_u64_bound|].
  pose proof (varint_length v Hv) as E. unfold varint, zlen in *. lia.
Qed.

(* ===================================================================== *)
(** ** What a writer writes                                              *)
(* ===================================================================== *)

(** [w] puts [x] before what has been written, if there is room for it. *)
Definition writes (w : writer unit) (x : bytes) : Prop := forall front acc, zlen x <= zlen front ->
  exists front', zlen front' = zlen front - zlen x /\
    w (front ++ acc, zlen front) = Ret (tt, (front' ++ x ++ acc, zlen front')).

(** [f], a [MarshalToSizedBuffer], puts [x] at the end of its buffer. *)
Definition fills (f : bytes -> outcome (Z * bytes)) (x : bytes) : Prop := forall front, zlen x <= zlen front ->
  exists front', zlen front' = zlen front - zlen x /\ f front = Ret (zlen x, front' ++ x).

Lemma zslice_front {A} (a b : list A) : zslice 0 (zlen a) (a ++ b) = Ret a.
Proof.
  unfold zslice. pose proof (zlen_nonneg a). pose proof (zlen_nonneg b). rewrite zlen_app. zb.
  rewrite Z.sub_0_r, drop_0. unfold zlen. by rewrite Nat2Z.id, take_app_length.
Qed.

Lemma zslice_back {A} (a b : list A) : zslice (zlen a) (zlen (a ++ b)) (a ++ b) = Ret b.
Proof.
  unfold zslice. pose proof (zlen_nonneg a). pose proof (zlen_nonneg b). rewrite zlen_app. zb.
  replace (zlen a + zlen b - zlen a) with (zlen b) by lia. unfold zlen. rewrite !Nat2Z.id, drop_app_length.
  by rewrite take_ge by lia.
Qed.

Lemma writes_nil : writes (mret tt) [].
Proof. intros front acc _. exists front. split; [rewrite zlen_nil; lia|done]. Qed.

Lemma writes_bind a (k : unit -> writer unit) x y : writes a x -> writes (k tt) y -> writes (a ≫= k) (y ++ x).
Proof.
  intros Ha Hb front acc Hlen. rewrite zlen_app in *. pose proof (zlen_nonneg y).
  destruct (Ha front acc) as (f1 & E1 & R1); [lia|]. destruct (Hb f1 (x ++ acc)) as (f2 & E2 & R2); [lia|].
  exists f2. split; [lia|]. unfold mbind, M_bind. by rewrite R1, R2, <- app_assoc.
Qed.

Lemma writes_seq a b x y : writes a x -> writes b y -> writes (a;; b) (y ++ x).
Proof. intros. by apply (writes_bind a (fun _ => b)). Qed.

Lemma writes_eq w x y : writes w x -> x = y -> writes w y.
Proof. by intros ? <-. Qed.

Lemma writes_varint v : is_u64 v -> writes (putVarint v) (varint v).
Proof.
  intros Hv front acc. rewrite varint_length by done. intros Hlen.
  destruct (encodeVarintRaft_eq front acc v Hv Hlen) as (f & E & R). exists f. split; [done|].
  unfold putVarint, mbind, M_bind, get, lift. by rewrite R.
Qed.

Lemma writes_byte b : writes (putByte b) [zbyte b].
Proof.
  intros front acc Hlen. destruct (split_back front 1) as (a & g & -> & Ha & Hg); [done|].
  destruct g as [|c [|c2 g]]; [done| |by rewrite !zlen_cons in Hg; pose proof (zlen_nonneg g); lia].
  exists a. split; [done|]. unfold putByte, mbind, M_bind, get, lift.
  replace (zlen (a ++ [c]) - 1) with (zlen a) by (rewrite zlen_snoc; lia).
  rewrite <- app_assoc. cbn [app]. by rewrite store_at.
Qed.

Lemma writes_bool b : writes (putBool b) [zbyte (if b then 1 else 0)].
Proof. apply writes_byte. Qed.

Lemma writes_bytes x : writes (putBytes x) x.
Proof.
  intros front acc Hlen. destruct (split_back front (zlen x)) as (a & g & -> & Ha & Hg).
  { pose proof (zlen_nonneg x). lia. }
  exists a. split; [done|]. unfold putBytes, mbind, M_bind, get, lift.
  replace (zlen (a ++ g) - zlen x) with (zlen a) by lia. rewrite <- app_assoc, zslice_back, zslice_front.
  unfold modify. assert (length g = length x) as Hgx by (unfold zlen in Hg; lia).
  rewrite <- Hgx, drop_app_length. rewrite take_ge; [done|]. rewrite length_app. lia.
Qed.

Lemma fills_sized w x : writes w x -> fills (toSizedBuffer w) x.
Proof.
  intros Hw front Hlen. destruct (Hw front [] Hlen) as (f & E & R). rewrite !app_nil_r in R. exists f. split; [done|].
  unfold toSizedBuffer, mbind, outcome_bind. rewrite R. do 2 f_equal. rewrite zlen_app. lia.
Qed.

Lemma writes_message f x : fills f x -> is_u64 (zlen x) -> writes (putMessage f) (varint (zlen x) ++ x).
Proof.
  intros Hf Hx front acc Hlen. rewrite zlen_app, varint_length in * by done. pose proof (sovRaft_pos (zlen x)).
  destruct (Hf front) as (f1 & E1 & R1); [lia|].
  destruct (writes_varint (zlen x) Hx f1 (x ++ acc)) as (f2 & E2 & R2); [rewrite varint_length by done; lia|].
  rewrite varint_length in E2 by done.
  exists f2. split; [lia|]. unfold putMessage, mbind, M_bind, get, lift.
  rewrite zslice_front, zslice_back, R1. unfold modify. rewrite <- E1.
  by rewrite <- !app_assoc, R2.
Qed.

Definition optional_wire (tag : Z) (x : option bytes) : bytes :=
  match x with Some x => zbyte tag :: varint (zlen x) ++ x | None => [] end.

Definition optional_ok (x : option bytes) : Prop := zlen (default [] x) <= MaxInt64.

Lemma is_u64_zlen {A} (x : list A) : zlen x <= MaxInt64 -> is_u64 (zlen x).
Proof. unfold is_u64, MaxInt64. pose proof (zlen_nonneg x). lia. Qed.

Lemma writes_optional tag x : optional_ok x -> writes (putOptional tag x) (optional_wire tag x).
Proof.
  destruct x as [x|]; [|intros _; apply writes_nil]. intros Hx. cbn [putOptional optional_wire].
  eapply writes_eq; [apply writes_seq; [apply writes_bytes|apply writes_seq; [|apply writes_byte]]|done].
  by apply writes_varint, is_u64_zlen.
Qed.

(** The loops run from the last element to the first. *)
Lemma writes_forM {A} (l : list A) (f : A -> writer unit) (enc : A -> bytes) :
  Forall (fun a => writes (f a) (enc a)) l -> writes (forM (reverse l) f) (concat (enc <$> l)).
Proof.
  induction l as [|a l IH] using rev_ind; intros Hl; [apply writes_nil|].
  apply Forall_app in Hl as [Hl Ha]. apply Forall_cons in Ha as [Ha _].
  rewrite reverse_snoc, fmap_app, concat_app. cbn [fmap list_fmap concat].
  unfold forM. cbn [foldM]. apply writes_bind; [by rewrite app_nil_r|by apply IH].
Qed.

Lemma marshal_eq f x : fills f x -> marshal (zlen x) f = Ret x.
Proof.
  intros Hf. destruct (Hf (replicate (Z.to_nat (zlen x)) zero_byte)) as (a & E & R).
  { unfold zlen. rewrite length_replicate. lia. }
  unfold marshal, mbind, outcome_bind. rewrite R.
  assert (a = []) as ->; [|cbn [app]; by rewrite <- (app_nil_r x) at 2; rewrite zslice_front].
  apply length_zero_iff_nil. unfold zlen in *. rewrite length_replicate in E. lia.
Qed.

(* ===================================================================== *)
(** ** What a reader reads                                               *)
(* ===================================================================== *)

(** [r], started at the bytes [x] anywhere in a slice, returns [a] and the index
    after [x]. *)
Definition reads {A} (r : bytes -> Z -> dec (A * Z)) (x : bytes) (a : A) : Prop := forall pre post,
  zlen (pre ++ x ++ post) <= MaxInt64 -> r (pre ++ x ++ post) (zlen pre) = DOk (a, zlen pre + zlen x).

Definition map_fst {A B C} (f : A -> B) (r : dec (A * C)) : dec (B * C) := '(a, c) ← r; DOk (f a, c).

(** Reading into a narrower type is reading a [uint64] and converting it. *)
Lemma varint_loop_conv conv `{!IntConv conv} n d i s acc :
  varint_loop n conv d i s (conv acc) = map_fst conv (varint_loop n u64 d i s acc).
Proof.
  revert i s acc. induction n as [|n IH]; intros i s acc; [done|]. cbn [varint_loop].
  destruct (64 <=? s); [done|]. destruct (zlen d <=? i); [done|].
  destruct (dindex d i) as [b| | |]; [|done..]. cbn [mbind dec_bind].
  rewrite <- (conv_u64 (Z.shiftl _ _)), <- conv_lor. destruct (_ <? _); [done|apply IH].
Qed.

Lemma readVarint_conv conv `{!IntConv conv} d i : readVarint conv d i = map_fst conv (readVarint u64 d i).
Proof. unfold readVarint. rewrite <- varint_loop_conv by done. by rewrite conv_0. Qed.

Lemma dindex_mid {A} (a : list A) c b : dindex (a ++ c :: b) (zlen a) = DOk c.
Proof.
  unfold dindex, znth. pose proof (zlen_nonneg a). zb. unfold zlen.
  by rewrite Nat2Z.id, lookup_app_r, Nat.sub_diag by done.
Qed.

Lemma byteval_of_zbyte z : byteval (zbyte z) = z mod 256.
Proof.
  unfold byteval, zbyte. assert (0 <= z mod 256 < 256) by (apply Z.mod_pos_bound; lia).
  rewrite N_ascii_embedding; lia.
Qed.

(** The continuation bit and the seven bits of a byte of a varint. *)
Lemma byteval_more v : 0 <= v -> byteval (zbyte (Z.lor (Z.land v 127) 128)) = v mod 128 + 128.
Proof.
  intros Hv. rewrite byteval_of_zbyte, land127. assert (0 <= v mod 128 < 128) by (apply Z.mod_pos_bound; lia).
  rewrite <- Z.add_nocarry_lor; [apply Z.mod_small; lia|].
  apply Z.bits_inj'. intros n Hn. rewrite Z.land_spec, Z.bits_0. change 128 with (2 ^ 7).
  destruct (decide (n = 7)) as [->|].
  - rewrite Z.mod_pow2_bits_high by lia. done.
  - rewrite (Z.pow2_bits_false 7 n) by lia. apply andb_false_r.
Qed.

Lemma lor_shifted acc x s : 0 <= s -> 0 <= acc < 2 ^ s -> Z.lor acc (Z.shiftl x s) = acc + x * 2 ^ s.
Proof.
  intros Hs Hacc. rewrite <- Z.add_nocarry_lor; [by rewrite Z.shiftl_mul_pow2|].
  apply Z.bits_inj'. intros n Hn. rewrite Z.land_spec, Z.bits_0, Z.shiftl_spec by lia.
  destruct (decide (n < s)).
  - rewrite (Z.testbit_neg_r x) by lia. apply andb_false_r.
  - rewrite <- (Z.mod_small acc (2 ^ s)), Z.mod_pow2_bits_high by lia. done.
Qed.

Lemma varint_loop_S n conv d i s acc : varint_loop (S n) conv d i s acc =
  if 64 <=? s then DErr ErrIntOverflowRaft else
  if zlen d <=? i then DErr ErrUnexpectedEOF else
  b ← dindex d i;
  let acc := Z.lor acc (conv (Z.shiftl (Z.land (byteval b) 127) s)) in
  if byteval b <? 128 then DOk (acc, i + 1) else varint_loop n conv d (i + 1) (s + 7) acc.
Proof. done. Qed.

(** One round on the byte at the front of [post]. *)
Lemma varint_loop_byte n pre b post s acc x : byteval b mod 128 = x ->
  0 <= s < 64 -> 0 <= acc < 2 ^ s -> x * 2 ^ s < 2 ^ 64 ->
  varint_loop (S n) u64 (pre ++ b :: post) (zlen pre) s acc =
  if byteval b <? 128 then DOk (acc + x * 2 ^ s, zlen pre + 1)
  else varint_loop n u64 (pre ++ b :: post) (zlen pre + 1) (s + 7) (acc + x * 2 ^ s).
Proof.
  intros Hx Hs Hacc Hfit. rewrite varint_loop_S, dindex_mid. cbn [mbind dec_bind]. cbv zeta.
  rewrite land127, Hx. pose proof (zlen_nonneg post). rewrite (zlen_app pre), zlen_cons.
  rewrite (proj2 (Z.leb_gt 64 s)), (proj2 (Z.leb_gt (zlen pre + (zlen post + 1)) (zlen pre))) by lia.
  assert (0 <= x) by (subst x; apply Z.mod_pos_bound; lia).
  rewrite u64_id; [|rewrite Z.shiftl_mul_pow2 by lia; split; [apply Z.mul_nonneg_nonneg; lia|done]].
  by rewrite lor_shifted by lia.
Qed.

Lemma varint_loop_eq n f v pre post s acc :
  0 <= v < 2 ^ (7 * Z.of_nat (S n)) -> 0 <= s < 64 -> 0 <= acc < 2 ^ s -> v * 2 ^ s < 2 ^ 64 -> (S n <= f)%nat ->
  varint_loop f u64 (pre ++ varint_n (S n) v ++ post) (zlen pre) s acc =
  DOk (acc + v * 2 ^ s, zlen pre + zlen (varint_n (S n) v)).
Proof.
  revert f v pre s acc. induction n as [|n IH]; intros f v pre s acc Hv Hs Hacc Hfit Hf;
    (destruct f as [|f]; [lia|]); rewrite varint_n_S; destruct (Z.ltb_spec v 128) as [Hlt|Hge].
  1,3: cbn [app]; rewrite (varint_loop_byte _ _ _ _ _ _ v);
    [|rewrite byteval_of_zbyte, !Z.mod_small; rewrite ?Z.mod_small; lia|lia..];
    rewrite byteval_of_zbyte, Z.mod_small by lia; zb; by rewrite zlen_cons, zlen_nil.
  { change (2 ^ (7 * Z.of_nat 1)) with 128 in Hv. lia. }
  pose proof (Z.div_mod v 128 ltac:(lia)) as Hdm. pose proof (Z.mod_pos_bound v 128 ltac:(lia)) as Hmb.
  assert (0 < 2 ^ s) by (apply Z.pow_pos_nonneg; lia).
  assert (2 ^ (s + 7) = 128 * 2 ^ s) as Hpow by (rewrite Z.pow_add_r by lia; lia).
  assert (1 <= v / 128) by (apply Z.div_le_lower_bound; lia).
  cbn [app]. rewrite (varint_loop_byte _ _ _ _ _ _ (v mod 128)); [|rewrite byteval_more by lia|lia..|nia].
  2: { rewrite <- (Z.mul_1_l 128) at 2. rewrite Z.mod_add, Z.mod_mod by lia. done. }
  rewrite byteval_more by lia. zb.
  rewrite cons_middle, app_assoc, <- (zlen_snoc pre (zbyte (Z.lor (Z.land v 127) 128))).
  rewrite IH; [|by apply shiftr7_bound| |nia|rewrite shiftr7; nia|lia].
  - rewrite shiftr7, zlen_snoc, zlen_cons. f_equal. f_equal; [nia|lia].
  - split; [lia|]. apply (Z.pow_lt_mono_r_iff 2); [lia|lia|]. nia.
Qed.

Lemma reads_varint conv `{!IntConv conv} v : is_u64 v -> reads (readVarint conv) (varint v) (conv v).
Proof.
  intros Hv pre post _. rewrite readVarint_conv by done. unfold readVarint, varint.
  rewrite varint_loop_eq; [|by apply is_u64_bound|lia|lia|unfold is_u64 in *; lia|lia].
  cbn. by rewrite Z.mul_1_r.
Qed.

Lemma dslice_mid {A} (a x b : list A) : dslice (zlen a) (zlen a + zlen x) (a ++ x ++ b) = DOk x.
Proof.
  unfold dslice. pose proof (zlen_nonneg a). pose proof (zlen_nonneg x). pose proof (zlen_nonneg b).
  rewrite !zlen_app. zb. replace (zlen a + zlen x - zlen a) with (zlen x) by lia.
  unfold zlen. by rewrite !Nat2Z.id, drop_app_length, take_app_length.
Qed.

Lemma reads_len x : reads readLen (varint (zlen x) ++ x) x.
Proof.
  intros pre post Hlen. unfold readLen. pose proof (zlen_nonneg x). pose proof (zlen_nonneg pre).
  pose proof (zlen_nonneg post). rewrite !zlen_app in Hlen. pose proof (zlen_nonneg (varint (zlen x))).
  assert (is_u64 (zlen x)) by (unfold is_u64, MaxInt64 in *; lia).
  rewrite <- app_assoc, (reads_varint i64) by (first [done|rewrite ?zlen_app; lia]).
  cbn [mbind dec_bind]. rewrite !i64_id by (unfold in_i64, MinInt64; lia).
  rewrite !zlen_app. zb. rewrite <- zlen_app, app_assoc, dslice_mid. cbn [mbind dec_bind].
  by rewrite !zlen_app, Z.add_assoc.
Qed.

Section fields.
Context {T : Type}.
Implicit Types (field : fields T) (m : T).

Lemma reads_varint_field conv `{!IntConv conv} (set : Z -> T) v :
  is_u64 v -> reads (varint_field conv set 0) (varint v) (set (conv v)).
Proof. intros Hv pre post Hlen. unfold varint_field. cbn. by rewrite reads_varint. Qed.

Lemma reads_bool_field (set : bool -> T) (b : bool) :
  reads (bool_field set 0) [zbyte (if b then 1 else 0)] (set b).
Proof.
  pose proof (reads_varint_field i64 (fun v => set (negb (v =? 0))) (if b then 1 else 0)) as H.
  unfold reads, bool_field in *. intros pre post Hlen.
  destruct b; [specialize (H ltac:(unfold is_u64; lia) pre post)|specialize (H ltac:(unfold is_u64; lia) pre post)];
    change (varint _) with [zbyte 1] in H || change (varint _) with [zbyte 0] in H; by rewrite H.
Qed.

Lemma reads_bytes_field (set : option bytes -> T) x : reads (bytes_field set 2) (varint (zlen x) ++ x) (set (Some x)).
Proof. intros pre post Hlen. unfold bytes_field. cbn. by rewrite reads_len. Qed.

Lemma reads_message_field {A} (parse : bytes -> dec A) (set : A -> T) x a :
  parse x = DOk a -> reads (message_field parse set 2) (varint (zlen x) ++ x) (set a).
Proof. intros Ha pre post Hlen. unfold message_field. cbn. rewrite reads_len by done. cbn. by rewrite Ha. Qed.

Lemma reads_repeated_field (vs : list Z) (set : list Z -> T) v :
  is_u64 v -> reads (repeated_field vs set 0) (varint v) (set (vs ++ [v])).
Proof.
  intros Hv pre post Hlen. unfold repeated_field. cbn. rewrite (reads_varint u64) by done. cbn.
  by rewrite u64_id by (unfold is_u64 in *; lia).
Qed.

(** A tag and the field after it, for the field numbers that fit into a byte. *)
Lemma reads_tag field m num wt r x m' : 1 <= num < 16 -> 0 <= wt < 8 -> wt <> 4 ->
  (forall d i, field m num wt d i = Some (r d i)) -> reads r x m' ->
  reads (fun d i => unmarshal_field field d i m) (zbyte (8 * num + wt) :: x) m'.
Proof.
  intros Hnum Hwt H4 Hfield Hr pre post Hlen. unfold unmarshal_field.
  assert (is_u64 (8 * num + wt)) as Htag by (unfold is_u64; lia).
  assert (varint (8 * num + wt) = [zbyte (8 * num + wt)]) as Hv
    by (unfold varint; rewrite varint_n_S; by zb).
  pose proof (reads_varint u64 _ Htag pre (x ++ post)) as Hrd. rewrite Hv in Hrd. cbn [app] in *.
  rewrite Hrd by done. cbn [mbind dec_bind]. cbv zeta. rewrite u64_id by exact Htag.
  replace (Z.land (8 * num + wt) 7) with wt; [|rewrite land7;
    rewrite Z.mul_comm, Z.add_comm, Z.mod_add, Z.mod_small by lia; done].
  replace (Z.shiftr (8 * num + wt) 3) with num; [|rewrite Z.shiftr_div_pow2 by lia; change (2 ^ 3) with 8;
    rewrite Z.mul_comm, Z.div_add_l, Z.div_small by lia; lia].
  rewrite i32_id by lia. zb. rewrite Hfield.
  replace (pre ++ zbyte (8 * num + wt) :: x ++ post) with ((pre ++ [zbyte (8 * num + wt)]) ++ x ++ post)
    by (by rewrite <- app_assoc).
  change (zlen [zbyte (8 * num + wt)]) with 1. rewrite <- (zlen_snoc pre (zbyte (8 * num + wt))).
  rewrite Hr by (by rewrite <- app_assoc).
  rewrite zlen_snoc, zlen_cons. do 2 f_equal. lia.
Qed.

(** Fields one after the other. *)
Inductive decodes field : T -> bytes -> T -> Prop :=
| decodes_nil m : decodes field m [] m
| decodes_field m b x m1 y m2 :
    reads (fun d i => unmarshal_field field d i m) (b :: x) m1 -> decodes field m1 y m2 ->
    decodes field m (b :: x ++ y) m2.

Lemma decodes_one field m b x m1 :
  reads (fun d i => unmarshal_field field d i m) (b :: x) m1 -> decodes field m (b :: x) m1.
Proof. intros H. rewrite <- (app_nil_r x). eapply decodes_field; [done|constructor]. Qed.

Lemma decodes_app field m x m1 y m2 : decodes field m x m1 -> decodes field m1 y m2 -> decodes field m (x ++ y) m2.
Proof.
  induction 1 as [|m b x m1 y' m2' Hr _ IH]; intros Hy; [done|]. cbn [app]. rewrite <- app_assoc.
  eapply decodes_field; eauto.
Qed.

Lemma decodes_loop field m x m' : decodes field m x m' -> forall fuel pre,
  zlen (pre ++ x) <= MaxInt64 -> (length x < fuel)%nat -> unmarshal_loop field fuel (pre ++ x) (zlen pre) m = DOk m'.
Proof.
  induction 1 as [m|m b x m1 y m2 Hr _ IH]; intros [|fuel] pre Hlen Hf; [lia| |lia|]; cbn [unmarshal_loop].
  - rewrite app_nil_r. by zb.
  - pose proof (zlen_nonneg (x ++ y)). rewrite zlen_app, zlen_cons. zb.
    pose proof (Hr pre y Hlen) as E. cbn [app] in E. rewrite E. cbn [mbind dec_bind].
    replace (pre ++ b :: x ++ y) with ((pre ++ b :: x) ++ y) by (by rewrite <- app_assoc).
    rewrite <- (zlen_app pre (b :: x)). apply IH; [by rewrite <- app_assoc|].
    cbn [length] in Hf. rewrite length_app in Hf. lia.
Qed.

Lemma unmarshal_decodes field m x m' : decodes field m x m' -> zlen x <= MaxInt64 -> unmarshal field x m = DOk m'.
Proof. intros Hd Hlen. apply (decodes_loop field m x m' Hd (S (length x)) []); [done|lia]. Qed.

(** A repeated field. *)
Lemma decodes_repeated field {A} (enc : A -> bytes) (set : list A -> T) (es l : list A) :
  Forall (fun e => forall l, decodes field (set l) (enc e) (set (l ++ [e]))) es ->
  decodes field (set l) (concat (enc <$> es)) (set (l ++ es)).
Proof.
  revert l. induction es as [|e es IH]; intros l Hes; [rewrite app_nil_r; constructor|].
  apply Forall_cons in Hes as [He Hes]. cbn [fmap list_fmap concat]. eapply decodes_app; [apply He|].
  rewrite (cons_middle e l es), app_assoc. by apply IH.
Qed.

Lemma decodes_optional field m tag (set : option bytes -> T) num x :
  tag = 8 * num + 2 -> 1 <= num < 16 ->
  (forall d i, field m num 2 d i = Some (bytes_field set 2 d i)) -> set None = m ->
  decodes field m (optional_wire tag x) (set x).
Proof.
  intros -> Hnum Hfield Hnone. destruct x as [x|]; cbn [optional_wire]; [|rewrite Hnone; constructor].
  apply decodes_one. eapply reads_tag; [done..|exact Hfield|apply reads_bytes_field].
Qed.
End fields.

(* ===================================================================== *)
(** ** Reading arbitrary bytes                                           *)
(* ===================================================================== *)

(** An error, or a result that satisfies [P]: neither a panic nor a loop that
    does not end. *)
Definition safe {A} (P : A -> Prop) (r : dec A) : Prop :=
  match r with
  | DOk a => P a
  | DErr _ => True
  | DPanic | DSpin => False
  end.

Lemma dec_safe_bind {A B} (P : A -> Prop) (Q : B -> Prop) (r : dec A) (k : A -> dec B) :
  safe P r -> (forall a, P a -> safe Q (k a)) -> safe Q (r ≫= k).
Proof. destruct r; cbn; auto. Qed.

Lemma safe_mono {A} (P Q : A -> Prop) (r : dec A) : (forall a, P a -> Q a) -> safe P r -> safe Q r.
Proof. destruct r; cbn; auto. Qed.

(** Reading moves forward and stays in the slice. *)
Definition advances {A} (d : bytes) (i : Z) : A * Z -> Prop := fun '(_, j) => i < j <= zlen d.

Lemma safe_dindex {A} (l : list A) i : 0 <= i < zlen l -> safe (fun _ => True) (dindex l i).
Proof.
  intros Hi. unfold dindex, znth. zb. destruct (lookup_lt_is_Some_2 l (Z.to_nat i)) as [a ->]; [|done].
  unfold zlen in Hi. lia.
Qed.

(** The fuel covers all values of [shift] below 64, and one more round. *)
Lemma safe_varint_loop n conv d i s acc : 0 <= i -> 64 <= s + 7 * Z.of_nat n ->
  safe (advances d i) (varint_loop (S n) conv d i s acc).
Proof.
  revert i s acc. induction n as [|n IH]; intros i s acc Hi Hs; rewrite varint_loop_S;
    (destruct (Z.leb_spec 64 s); [done|]); [lia|].
  destruct (Z.leb_spec (zlen d) i); [done|].
  eapply dec_safe_bind; [apply safe_dindex; lia|]. intros b _. cbv zeta. destruct (_ <? _); [cbn; lia|].
  eapply safe_mono; [|apply IH; lia]. intros [v j]. cbn. lia.
Qed.

Lemma safe_readVarint conv d i : 0 <= i -> safe (advances d i) (readVarint conv d i).
Proof. intros. apply safe_varint_loop; lia. Qed.

(** A sum that has wrapped around is negative. *)
Lemma i64_add_nonneg a b : 0 <= a <= MaxInt64 -> 0 <= b <= MaxInt64 ->
  0 <= i64 (a + b) -> i64 (a + b) = a + b.
Proof.
  intros Ha Hb. destruct (decide (a + b <= MaxInt64)).
  - intros _. apply i64_id. unfold in_i64, MinInt64. lia.
  - unfold i64, MaxInt64 in *. replace (a + b + 2 ^ 63) with (a + b - 2 ^ 63 + 1 * 2 ^ 64) by lia.
    rewrite Z.mod_add, Z.mod_small by lia. lia.
Qed.

Lemma safe_readVarint_i64 d i : 0 <= i ->
  safe (fun '(n, j) => i < j <= zlen d /\ n <= MaxInt64) (readVarint i64 d i).
Proof.
  intros Hi. rewrite readVarint_conv by apply _. unfold map_fst. eapply dec_safe_bind; [by apply safe_readVarint|].
  intros [v j] Hj. cbn. split; [exact Hj|]. apply i64_range.
Qed.

Lemma safe_dslice {A} (l : list A) lo hi : 0 <= lo <= hi -> hi <= zlen l ->
  safe (fun x => zlen x = hi - lo) (dslice lo hi l).
Proof.
  intros Hlo Hhi. unfold dslice. zb. cbn. unfold zlen in *. rewrite length_take, length_drop. lia.
Qed.

Lemma safe_readLen d i : 0 <= i -> zlen d <= MaxInt64 ->
  safe (fun '(x, j) => i < j - zlen x /\ j <= zlen d) (readLen d i).
Proof.
  intros Hi Hd. unfold readLen. eapply dec_safe_bind; [by apply safe_readVarint_i64|]. intros [n j] [Hj Hn].
  destruct (Z.ltb_spec n 0); [done|]. cbv zeta. destruct (Z.ltb_spec (i64 (j + n)) 0) as [|Hp]; [done|].
  destruct (Z.ltb_spec (zlen d) (i64 (j + n))); [done|]. assert (i64 (j + n) = j + n) as E by (apply i64_add_nonneg; lia). rewrite E in *.
  eapply dec_safe_bind; [apply safe_dslice; lia|]. intros x Hx. cbn in *. lia.
Qed.

(** One round of [skip_loop], with the rest of the loop as a continuation. *)
Lemma safe_skip_step d i depth (k : Z -> Z -> dec Z) (P : Z -> Prop) :
  0 <= i -> zlen d <= MaxInt64 -> 0 <= depth ->
  (forall j depth', i < j <= MaxInt64 -> 0 <= depth' -> safe P (k j depth')) ->
  safe P ('(wire, iNdEx) ← readVarint u64 d i;
    '(iNdEx, depth) ←
      match Z.land wire 7 with
      | 0 => '(_, iNdEx) ← readVarint u64 d iNdEx; DOk (iNdEx, depth)
      | 1 => DOk (i64 (iNdEx + 8), depth)
      | 2 =>
          '(length, iNdEx) ← readVarint i64 d iNdEx;
          if length <? 0 then DErr ErrInvalidLengthRaft else DOk (i64 (iNdEx + length), depth)
      | 3 => DOk (iNdEx, depth + 1)
      | 4 => if depth =? 0 then DErr ErrUnexpectedEndOfGroupRaft else DOk (iNdEx, depth - 1)
      | 5 => DOk (i64 (iNdEx + 4), depth)
      | _ => DErr ErrIllegalWireType
      end;
    if iNdEx <? 0 then DErr ErrInvalidLengthRaft else k iNdEx depth).
Proof.
  intros Hi Hd Hdepth Hk. eapply dec_safe_bind; [by apply safe_readVarint|]. intros [wire j] Hj. cbn in Hj.
  eapply (dec_safe_bind (fun '(j', depth') => 0 <= depth' /\ (j' < 0 \/ i < j' <= MaxInt64))).
  2: { intros [j' depth'] [? Hj']. destruct (Z.ltb_spec j' 0); [done|]. apply Hk; [destruct Hj'; lia|done]. }
  assert (forall n, 0 <= n <= MaxInt64 -> forall j, i < j <= MaxInt64 ->
    i64 (j + n) < 0 \/ i < i64 (j + n) <= MaxInt64) as Hadd.
  { intros n Hn j' Hj'. destruct (decide (0 <= i64 (j' + n))) as [E|]; [right|lia].
    pose proof (i64_range (j' + n)) as Hr. unfold in_i64 in Hr. rewrite i64_add_nonneg in Hr |- * by lia. lia. }
  pose proof (Hadd 8 ltac:(unfold MaxInt64; lia) j). pose proof (Hadd 4 ltac:(unfold MaxInt64; lia) j).
  assert (0 <= Z.land wire 7 < 8) as Hw.
  { rewrite land7. apply Z.mod_pos_bound. lia. }
  destruct (Z.land wire 7) as [|[[[p|p|]|[p|p|]|]|[[p|p|]|[p|p|]|]|]|p]; try done; try (cbn; lia).
  - eapply dec_safe_bind; [apply safe_readVarint; lia|]. intros [v j'] Hj'. cbn in *. lia.
  - destruct (Z.eqb_spec depth 0); cbn; lia.
  - eapply dec_safe_bind; [apply safe_readVarint_i64; lia|]. intros [n j'] [Hj' Hn].
    destruct (Z.ltb_spec n 0); [done|]. cbn. split; [done|]. apply Hadd; lia.
Qed.

Lemma safe_skip_loop fuel d i depth : 0 <= i -> zlen d <= MaxInt64 -> zlen d - i < Z.of_nat fuel -> (0 < fuel)%nat ->
  0 <= depth -> safe (fun j => i < j <= MaxInt64) (skip_loop fuel d i depth).
Proof.
  revert i depth. induction fuel as [|fuel IH]; intros i depth Hi Hd Hf Hf0 Hdepth; [lia|].
  cbn [skip_loop]. destruct (Z.leb_spec (zlen d) i); [done|]. apply safe_skip_step; [done..|].
  intros j depth' Hj Hdepth'. destruct (depth' =? 0); [done|].
  eapply safe_mono; [|apply IH; lia]. cbn. lia.
Qed.

Lemma safe_skip_field {T} (m : T) d i : 0 <= i <= zlen d -> zlen d <= MaxInt64 ->
  safe (advances d i) (skip_field m d i).
Proof.
  intros Hi Hd. unfold skip_field. eapply dec_safe_bind; [apply safe_dslice; lia|]. intros x Hx. cbn in Hx.
  eapply dec_safe_bind; [apply safe_skip_loop; unfold zlen in *; lia|]. intros j Hj. cbn in Hj.
  destruct (Z.ltb_spec j 0); [done|]. cbn [orb]. destruct (Z.ltb_spec (i64 (i + j)) 0); [done|].
  destruct (Z.ltb_spec (zlen d) (i64 (i + j))); [done|]. cbn. rewrite i64_add_nonneg in * by lia. lia.
Qed.

Section safe.
Context {T : Type}.

(** What the switch of a message must guarantee. *)
Definition safe_fields (field : fields T) : Prop := forall m num wt d i, 0 <= i -> zlen d <= MaxInt64 ->
  match field m num wt d i with Some r => safe (fun '(_, j) => i <= j <= zlen d) r | None => True end.

Lemma safe_unmarshal_loop (field : fields T) fuel d i m : safe_fields field -> 0 <= i -> zlen d <= MaxInt64 ->
  zlen d - i < Z.of_nat fuel -> (0 < fuel)%nat -> safe (fun _ => True) (unmarshal_loop field fuel d i m).
Proof.
  intros Hfield. revert i m. induction fuel as [|fuel IH]; intros i m Hi Hd Hf Hf0; [lia|]. cbn [unmarshal_loop].
  destruct (Z.ltb_spec i (zlen d)); [|by destruct (_ <? _)].
  eapply (dec_safe_bind (advances d i)); [|intros [m' j] Hj; cbn in Hj; apply IH; lia].
  unfold unmarshal_field. eapply dec_safe_bind; [by apply safe_readVarint|]. intros [wire j] Hj. cbn in Hj. cbv zeta.
  destruct (_ =? _); [done|]. destruct (_ <=? _); [done|].
  pose proof (Hfield m (i32 (Z.shiftr wire 3)) (Z.land wire 7) d j) as Hr.
  destruct (field _ _ _ _ _); [|apply safe_skip_field; lia].
  eapply safe_mono; [|apply Hr; lia]. intros [m' j']. cbn. lia.
Qed.

Lemma safe_unmarshal (field : fields T) d m : safe_fields field -> zlen d <= MaxInt64 ->
  safe (fun _ => True) (unmarshal field d m).
Proof. intros. apply safe_unmarshal_loop; [done|lia..| |lia]. unfold zlen. lia. Qed.

Abbreviation in_slice d i := (fun '(_, j) => i <= j <= zlen d).

Lemma safe_varint_field conv (set : Z -> T) wt d i : 0 <= i -> safe (in_slice d i) (varint_field conv set wt d i).
Proof.
  intros Hi. unfold varint_field. destruct (negb _); [done|]. eapply dec_safe_bind; [by apply safe_readVarint|].
  intros [v j] Hj. cbn in *. lia.
Qed.

Lemma safe_bool_field (set : bool -> T) wt d i : 0 <= i -> safe (in_slice d i) (bool_field set wt d i).
Proof. apply safe_varint_field. Qed.

Lemma safe_bytes_field (set : option bytes -> T) wt d i : 0 <= i -> zlen d <= MaxInt64 ->
  safe (in_slice d i) (bytes_field set wt d i).
Proof.
  intros Hi Hd. unfold bytes_field. destruct (negb _); [done|]. eapply dec_safe_bind; [by apply safe_readLen|].
  intros [x j] Hj. pose proof (zlen_nonneg x). cbn in *. lia.
Qed.

Lemma safe_message_field {A} (parse : bytes -> dec A) (set : A -> T) wt d i : 0 <= i -> zlen d <= MaxInt64 ->
  (forall x, zlen x <= MaxInt64 -> safe (fun _ => True) (parse x)) ->
  safe (in_slice d i) (message_field parse set wt d i).
Proof.
  intros Hi Hd Hp. unfold message_field. destruct (negb _); [done|]. eapply dec_safe_bind; [by apply safe_readLen|].
  intros [x j] Hj. pose proof (zlen_nonneg x). eapply dec_safe_bind; [apply Hp; lia|]. intros a _. cbn. lia.
Qed.

Lemma safe_packed_loop fuel d post i vs : 0 <= i <= zlen d -> post <= zlen d ->
  post - i < Z.of_nat fuel -> (0 < fuel)%nat -> safe (in_slice d i) (packed_loop fuel d post i vs).
Proof.
  revert i vs. induction fuel as [|fuel IH]; intros i vs Hi Hp Hf Hf0; [lia|]. cbn [packed_loop].
  destruct (Z.ltb_spec i post); [|cbn; lia]. eapply dec_safe_bind; [apply safe_readVarint; lia|]. intros [v j] Hj. cbn in Hj.
  eapply safe_mono; [|apply IH; lia]. intros [vs' j']. lia.
Qed.

Lemma safe_repeated_field vs (set : list Z -> T) wt d i : 0 <= i -> zlen d <= MaxInt64 ->
  safe (in_slice d i) (repeated_field vs set wt d i).
Proof.
  intros Hi Hd. unfold repeated_field. destruct (_ =? _); [|destruct (_ =? _); [|done]].
  - eapply dec_safe_bind; [by apply safe_readVarint|]. intros [v j] Hj. cbn in *. lia.
  - eapply dec_safe_bind; [by apply safe_readLen|]. intros [x j] Hj. pose proof (zlen_nonneg x).
    eapply dec_safe_bind; [apply safe_packed_loop; unfold zlen in *; lia|]. intros [vs' j'] Hj'. cbn in *. lia.
Qed.
End safe.
