(* ===== verification/RaftCodec.v ===== *)
(** * RaftCodec: the encoding of raft's messages (src/etcd/raft/raftpb/raft.pb.go)

    [Size], [MarshalToSizedBuffer] and [Unmarshal] of every message of raft.
    What a message is on the wire, [wire], is written down separately, front to
    back; a [Codec] says that the three methods agree with it, so that what
    [Marshal] writes [Unmarshal] reads back. The fields of a message that
    [Unmarshal] leaves half filled on an error are not modelled. *)

From S2P Require Import Prelude RaftPb ConfChange RaftWire.

(* ===================================================================== *)
(** ** Enumerations                                                      *)
(* ===================================================================== *)

Definition EntryType_of (n : Z) : EntryType :=
  match n with
  | 0 => EntryNormal
  | 1 => EntryConfChange
  | 2 => EntryConfChangeV2
  | _ => EntryTypeUnknown n
  end.

Definition ConfChangeType_value (t : ConfChangeType) : Z :=
  match t with
  | ConfChangeAddNode => 0
  | ConfChangeRemoveNode => 1
  | ConfChangeUpdateNode => 2
  | ConfChangeAddLearnerNode => 3
  | ConfChangeUnknown n => n
  end.

Definition ConfChangeType_of (n : Z) : ConfChangeType :=
  match n with
  | 0 => ConfChangeAddNode
  | 1 => ConfChangeRemoveNode
  | 2 => ConfChangeUpdateNode
  | 3 => ConfChangeAddLearnerNode
  | _ => ConfChangeUnknown n
  end.

Definition ConfChangeTransition_value (t : ConfChangeTransition) : Z :=
  match t with
  | ConfChangeTransitionAuto => 0
  | ConfChangeTransitionJointImplicit => 1
  | ConfChangeTransitionJointExplicit => 2
  | ConfChangeTransitionUnknown n => n
  end.

Definition ConfChangeTransition_of (n : Z) : ConfChangeTransition :=
  match n with
  | 0 => ConfChangeTransitionAuto
  | 1 => ConfChangeTransitionJointImplicit
  | 2 => ConfChangeTransitionJointExplicit
  | _ => ConfChangeTransitionUnknown n
  end.

Definition MessageType_value (t : MessageType) : Z :=
  match t with
  | MsgHup => 0 | MsgBeat => 1 | MsgProp => 2 | MsgApp => 3 | MsgAppResp => 4
  | MsgVote => 5 | MsgVoteResp => 6 | MsgSnap => 7 | MsgHeartbeat => 8 | MsgHeartbeatResp => 9
  | MsgUnreachable => 10 | MsgSnapStatus => 11 | MsgCheckQuorum => 12 | MsgTransferLeader => 13 | MsgTimeoutNow => 14
  | MsgReadIndex => 15 | MsgReadIndexResp => 16 | MsgPreVote => 17 | MsgPreVoteResp => 18
  | MsgUnknown n => n
  end.

Definition MessageType_of (n : Z) : MessageType :=
  match n with
  | 0 => MsgHup | 1 => MsgBeat | 2 => MsgProp | 3 => MsgApp | 4 => MsgAppResp
  | 5 => MsgVote | 6 => MsgVoteResp | 7 => MsgSnap | 8 => MsgHeartbeat | 9 => MsgHeartbeatResp
  | 10 => MsgUnreachable | 11 => MsgSnapStatus | 12 => MsgCheckQuorum | 13 => MsgTransferLeader | 14 => MsgTimeoutNow
  | 15 => MsgReadIndex | 16 => MsgReadIndexResp | 17 => MsgPreVote | 18 => MsgPreVoteResp
  | _ => MsgUnknown n
  end.

(* ===================================================================== *)
(** ** Size                                                              *)
(* ===================================================================== *)

(** A number, a slice of bytes that may be nil, and a nested message of size
    [l], each with a tag of one byte. *)
Definition num_Size (v : Z) : Z := 1 + sovRaft v.
Definition bytes_Size (x : option bytes) : Z :=
  match x with Some x => 1 + zlen x + sovRaft (zlen x) | None => 0 end.
Definition nested_Size (l : Z) : Z := 1 + l + sovRaft l.

(** The sum a loop over a repeated field adds. *)
Definition sum_Size {A} (f : A -> Z) (l : list A) : Z := foldr (fun a n => f a + n) 0 l.

Definition HardState_Size (m : HardState) : Z := num_Size (hTerm m) + num_Size (hVote m) + num_Size (hCommit m).

Definition ConfState_Size (m : ConfState) : Z :=
  sum_Size num_Size (csVoters m) + sum_Size num_Size (csLearners m) +
  sum_Size num_Size (csVotersOutgoing m) + sum_Size num_Size (csLearnersNext m) + 2.

Definition SnapshotMetadata_Size (m : SnapshotMetadata) : Z :=
  nested_Size (ConfState_Size (mConfState m)) + num_Size (mIndex m) + num_Size (mTerm m).

Definition Snapshot_Size (m : Snapshot) : Z :=
  bytes_Size (sData m) + nested_Size (SnapshotMetadata_Size (sMetadata m)).

Definition Message_Size (m : Message) : Z :=
  num_Size (u64 (MessageType_value (mtType m))) + num_Size (mtTo m) + num_Size (mtFrom m) + num_Size (mtTerm m) +
  num_Size (mtLogTerm m) + num_Size (mtIndex m) +
  sum_Size (fun e => nested_Size (Entry_Size e)) (mtEntries m) +
  num_Size (mtCommit m) + nested_Size (Snapshot_Size (mtSnapshot m)) + 2 + num_Size (mtRejectHint m) +
  bytes_Size (mtContext m).

Definition ConfChange_Size (m : ConfChange) : Z :=
  num_Size (cID m) + num_Size (u64 (ConfChangeType_value (cType m))) + num_Size (cNodeID m) + bytes_Size (cContext m).

Definition ConfChangeSingle_Size (m : ConfChangeSingle) : Z :=
  num_Size (u64 (ConfChangeType_value (ccType m))) + num_Size (NodeID m).

Definition ConfChangeV2_Size (m : ConfChangeV2) : Z :=
  num_Size (u64 (ConfChangeTransition_value (Transition m))) +
  sum_Size (fun e => nested_Size (ConfChangeSingle_Size e)) (Changes m) + bytes_Size (ccContext m).

(* ===================================================================== *)
(** ** MarshalToSizedBuffer                                              *)
(* ===================================================================== *)

(** [i = encodeVarintRaft(dAtA, i, v); i--; dAtA[i] = tag]. *)
Definition putNumber (tag v : Z) : writer unit := putVarint v;; putByte tag.

Definition putNested (tag : Z) (f : bytes -> outcome (Z * bytes)) : writer unit := putMessage f;; putByte tag.

Definition Entry_MarshalToSizedBuffer (m : Entry) : bytes -> outcome (Z * bytes) := toSizedBuffer (
  putOptional 0x22 (eData m);;
  putNumber 0x18 (eIndex m);;
  putNumber 0x10 (eTerm m);;
  putNumber 0x8 (u64 (EntryType_value (eType m)))).

Definition HardState_MarshalToSizedBuffer (m : HardState) : bytes -> outcome (Z * bytes) := toSizedBuffer (
  putNumber 0x18 (hCommit m);;
  putNumber 0x10 (hVote m);;
  putNumber 0x8 (hTerm m)).

Definition ConfState_MarshalToSizedBuffer (m : ConfState) : bytes -> outcome (Z * bytes) := toSizedBuffer (
  putBool (csAutoLeave m);;
  putByte 0x28;;
  forM (reverse (csLearnersNext m)) (putNumber 0x20);;
  forM (reverse (csVotersOutgoing m)) (putNumber 0x18);;
  forM (reverse (csLearners m)) (putNumber 0x10);;
  forM (reverse (csVoters m)) (putNumber 0x8)).

Definition SnapshotMetadata_MarshalToSizedBuffer (m : SnapshotMetadata) : bytes -> outcome (Z * bytes) := toSizedBuffer (
  putNumber 0x18 (mTerm m);;
  putNumber 0x10 (mIndex m);;
  putNested 0xa (ConfState_MarshalToSizedBuffer (mConfState m))).

Definition Snapshot_MarshalToSizedBuffer (m : Snapshot) : bytes -> outcome (Z * bytes) := toSizedBuffer (
  putNested 0x12 (SnapshotMetadata_MarshalToSizedBuffer (sMetadata m));;
  putOptional 0xa (sData m)).

Definition Message_MarshalToSizedBuffer (m : Message) : bytes -> outcome (Z * bytes) := toSizedBuffer (
  putOptional 0x62 (mtContext m);;
  putNumber 0x58 (mtRejectHint m);;
  putBool (mtReject m);;
  putByte 0x50;;
  putNested 0x4a (Snapshot_MarshalToSizedBuffer (mtSnapshot m));;
  putNumber 0x40 (mtCommit m);;
  forM (reverse (mtEntries m)) (fun e => putNested 0x3a (Entry_MarshalToSizedBuffer e));;
  putNumber 0x30 (mtIndex m);;
  putNumber 0x28 (mtLogTerm m);;
  putNumber 0x20 (mtTerm m);;
  putNumber 0x18 (mtFrom m);;
  putNumber 0x10 (mtTo m);;
  putNumber 0x8 (u64 (MessageType_value (mtType m)))).

Definition ConfChange_MarshalToSizedBuffer (m : ConfChange) : bytes -> outcome (Z * bytes) := toSizedBuffer (
  putOptional 0x22 (cContext m);;
  putNumber 0x18 (cNodeID m);;
  putNumber 0x10 (u64 (ConfChangeType_value (cType m)));;
  putNumber 0x8 (cID m)).

Definition ConfChangeSingle_MarshalToSizedBuffer (m : ConfChangeSingle) : bytes -> outcome (Z * bytes) := toSizedBuffer (
  putNumber 0x10 (NodeID m);;
  putNumber 0x8 (u64 (ConfChangeType_value (ccType m)))).

Definition ConfChangeV2_MarshalToSizedBuffer (m : ConfChangeV2) : bytes -> outcome (Z * bytes) := toSizedBuffer (
  putOptional 0x1a (ccContext m);;
  forM (reverse (Changes m)) (fun e => putNested 0x12 (ConfChangeSingle_MarshalToSizedBuffer e));;
  putNumber 0x8 (u64 (ConfChangeTransition_value (Transition m)))).

(** [Marshal]. *)
Definition Entry_Marshal (m : Entry) := marshal (Entry_Size m) (Entry_MarshalToSizedBuffer m).
Definition HardState_Marshal (m : HardState) := marshal (HardState_Size m) (HardState_MarshalToSizedBuffer m).
Definition ConfState_Marshal (m : ConfState) := marshal (ConfState_Size m) (ConfState_MarshalToSizedBuffer m).
Definition SnapshotMetadata_Marshal (m : SnapshotMetadata) :=
  marshal (SnapshotMetadata_Size m) (SnapshotMetadata_MarshalToSizedBuffer m).
Definition Snapshot_Marshal (m : Snapshot) := marshal (Snapshot_Size m) (Snapshot_MarshalToSizedBuffer m).
Definition Message_Marshal (m : Message) := marshal (Message_Size m) (Message_MarshalToSizedBuffer m).
Definition ConfChange_Marshal (m : ConfChange) := marshal (ConfChange_Size m) (ConfChange_MarshalToSizedBuffer m).
Definition ConfChangeSingle_Marshal (m : ConfChangeSingle) :=
  marshal (ConfChangeSingle_Size m) (ConfChangeSingle_MarshalToSizedBuffer m).
Definition ConfChangeV2_Marshal (m : ConfChangeV2) := marshal (ConfChangeV2_Size m) (ConfChangeV2_MarshalToSizedBuffer m).

(* ===================================================================== *)
(** ** Unmarshal                                                         *)
(* ===================================================================== *)

Definition Entry_field : fields Entry := fun m fieldNum wireType d i =>
  match fieldNum with
  | 1 => Some (varint_field i32 (fun v => mkEntry (eTerm m) (eIndex m) (EntryType_of v) (eData m)) wireType d i)
  | 2 => Some (varint_field u64 (fun v => mkEntry v (eIndex m) (eType m) (eData m)) wireType d i)
  | 3 => Some (varint_field u64 (fun v => mkEntry (eTerm m) v (eType m) (eData m)) wireType d i)
  | 4 => Some (bytes_field (fun x => mkEntry (eTerm m) (eIndex m) (eType m) x) wireType d i)
  | _ => None
  end.

Definition Entry_Unmarshal : bytes -> Entry -> dec Entry := unmarshal Entry_field.

Definition ConfState_field : fields ConfState := fun m fieldNum wireType d i =>
  match fieldNum with
  | 1 => Some (repeated_field (csVoters m) (fun vs =>
           mkConfState vs (csLearners m) (csVotersOutgoing m) (csLearnersNext m) (csAutoLeave m)) wireType d i)
  | 2 => Some (repeated_field (csLearners m) (fun vs =>
           mkConfState (csVoters m) vs (csVotersOutgoing m) (csLearnersNext m) (csAutoLeave m)) wireType d i)
  | 3 => Some (repeated_field (csVotersOutgoing m) (fun vs =>
           mkConfState (csVoters m) (csLearners m) vs (csLearnersNext m) (csAutoLeave m)) wireType d i)
  | 4 => Some (repeated_field (csLearnersNext m) (fun vs =>
           mkConfState (csVoters m) (csLearners m) (csVotersOutgoing m) vs (csAutoLeave m)) wireType d i)
  | 5 => Some (bool_field (fun b =>
           mkConfState (csVoters m) (csLearners m) (csVotersOutgoing m) (csLearnersNext m) b) wireType d i)
  | _ => None
  end.

Definition ConfState_Unmarshal : bytes -> ConfState -> dec ConfState := unmarshal ConfState_field.

Definition SnapshotMetadata_field : fields SnapshotMetadata := fun m fieldNum wireType d i =>
  match fieldNum with
  | 1 => Some (message_field (fun x => ConfState_Unmarshal x (mConfState m))
                 (fun cs => mkMetadata cs (mIndex m) (mTerm m)) wireType d i)
  | 2 => Some (varint_field u64 (fun v => mkMetadata (mConfState m) v (mTerm m)) wireType d i)
  | 3 => Some (varint_field u64 (fun v => mkMetadata (mConfState m) (mIndex m) v) wireType d i)
  | _ => None
  end.

Definition SnapshotMetadata_Unmarshal : bytes -> SnapshotMetadata -> dec SnapshotMetadata :=
  unmarshal SnapshotMetadata_field.

Definition Snapshot_field : fields Snapshot := fun m fieldNum wireType d i =>
  match fieldNum with
  | 1 => Some (bytes_field (fun x => mkSnapshot x (sMetadata m)) wireType d i)
  | 2 => Some (message_field (fun x => SnapshotMetadata_Unmarshal x (sMetadata m)) (mkSnapshot (sData m)) wireType d i)
  | _ => None
  end.

Definition Snapshot_Unmarshal : bytes -> Snapshot -> dec Snapshot := unmarshal Snapshot_field.

Definition Message_field : fields Message := fun m fieldNum wireType d i =>
  match fieldNum with
  | 1 => Some (varint_field i32 (fun v => set_mtType (MessageType_of v) m) wireType d i)
  | 2 => Some (varint_field u64 (fun v => set_mtTo v m) wireType d i)
  | 3 => Some (varint_field u64 (fun v => set_mtFrom v m) wireType d i)
  | 4 => Some (varint_field u64 (fun v => set_mtTerm v m) wireType d i)
  | 5 => Some (varint_field u64 (fun v => set_mtLogTerm v m) wireType d i)
  | 6 => Some (varint_field u64 (fun v => set_mtIndex v m) wireType d i)
  | 7 => Some (message_field (fun x => Entry_Unmarshal x zero_entry)
                 (fun e => set_mtEntries (mtEntries m ++ [e]) m) wireType d i)
  | 8 => Some (varint_field u64 (fun v => set_mtCommit v m) wireType d i)
  | 9 => Some (message_field (fun x => Snapshot_Unmarshal x (mtSnapshot m)) (fun s => set_mtSnapshot s m) wireType d i)
  | 10 => Some (bool_field (fun b => set_mtReject b m) wireType d i)
  | 11 => Some (varint_field u64 (fun v => set_mtRejectHint v m) wireType d i)
  | 12 => Some (bytes_field (fun x => set_mtContext x m) wireType d i)
  | _ => None
  end.

Definition Message_Unmarshal : bytes -> Message -> dec Message := unmarshal Message_field.

Definition HardState_field : fields HardState := fun m fieldNum wireType d i =>
  match fieldNum with
  | 1 => Some (varint_field u64 (fun v => mkHardState v (hVote m) (hCommit m)) wireType d i)
  | 2 => Some (varint_field u64 (fun v => mkHardState (hTerm m) v (hCommit m)) wireType d i)
  | 3 => Some (varint_field u64 (fun v => mkHardState (hTerm m) (hVote m) v) wireType d i)
  | _ => None
  end.

Definition HardState_Unmarshal : bytes -> HardState -> dec HardState := unmarshal HardState_field.

Definition ConfChange_field : fields ConfChange := fun m fieldNum wireType d i =>
  match fieldNum with
  | 1 => Some (varint_field u64 (fun v => mkConfChange (cType m) (cNodeID m) (cContext m) v) wireType d i)
  | 2 => Some (varint_field i32 (fun v => mkConfChange (ConfChangeType_of v) (cNodeID m) (cContext m) (cID m)) wireType d i)
  | 3 => Some (varint_field u64 (fun v => mkConfChange (cType m) v (cContext m) (cID m)) wireType d i)
  | 4 => Some (bytes_field (fun x => mkConfChange (cType m) (cNodeID m) x (cID m)) wireType d i)
  | _ => None
  end.

Definition ConfChange_Unmarshal : bytes -> ConfChange -> dec ConfChange := unmarshal ConfChange_field.

Definition ConfChangeSingle_field : fields ConfChangeSingle := fun m fieldNum wireType d i =>
  match fieldNum with
  | 1 => Some (varint_field i32 (fun v => mkChange (ConfChangeType_of v) (NodeID m)) wireType d i)
  | 2 => Some (varint_field u64 (fun v => mkChange (ccType m) v) wireType d i)
  | _ => None
  end.

Definition ConfChangeSingle_Unmarshal : bytes -> ConfChangeSingle -> dec ConfChangeSingle :=
  unmarshal ConfChangeSingle_field.

Definition zero_ConfChangeSingle : ConfChangeSingle := mkChange ConfChangeAddNode 0.
Definition zero_ConfChange : ConfChange := mkConfChange ConfChangeAddNode 0 None 0.
Definition zero_ConfChangeV2 : ConfChangeV2 := mkConfChangeV2 ConfChangeTransitionAuto [] None.

Definition ConfChangeV2_field : fields ConfChangeV2 := fun m fieldNum wireType d i =>
  match fieldNum with
  | 1 => Some (varint_field i32 (fun v => mkConfChangeV2 (ConfChangeTransition_of v) (Changes m) (ccContext m)) wireType d i)
  | 2 => Some (message_field (fun x => ConfChangeSingle_Unmarshal x zero_ConfChangeSingle)
                 (fun c => mkConfChangeV2 (Transition m) (Changes m ++ [c]) (ccContext m)) wireType d i)
  | 3 => Some (bytes_field (fun x => mkConfChangeV2 (Transition m) (Changes m) x) wireType d i)
  | _ => None
  end.

Definition ConfChangeV2_Unmarshal : bytes -> ConfChangeV2 -> dec ConfChangeV2 := unmarshal ConfChangeV2_field.

(* ===================================================================== *)
(** ** Codecs                                                            *)
(* ===================================================================== *)

(** A message type: its bytes, its [Size], [MarshalToSizedBuffer] and
    [Unmarshal], and its zero value. [fields_ok] says that the numbers are in
    the range of their Go types. *)
Class Codec (T : Type) := {
  wire : T -> bytes;
  fields_ok : T -> Prop;
  size_of : T -> Z;
  fill : T -> bytes -> outcome (Z * bytes);
  parse_field : fields T;
  zero : T
}.

(** What is on the wire fits into a Go slice. *)
Definition wire_ok {T} `{!Codec T} (m : T) : Prop := fields_ok m /\ size_of m <= MaxInt64.

Class CodecLaws (T : Type) `{!Codec T} : Prop := {
  size_nonneg (m : T) : 0 <= size_of m;
  wire_size (m : T) : wire_ok m -> zlen (wire m) = size_of m;
  wire_fills (m : T) : wire_ok m -> fills (fill m) (wire m);
  wire_decodes (m : T) : wire_ok m -> decodes parse_field zero (wire m) m;
  wire_safe : safe_fields (parse_field (T := T))
}.

Section codec.
Context {T : Type} `{!Codec T, !CodecLaws T}.

Lemma wire_fits (m : T) : wire_ok m -> zlen (wire m) <= MaxInt64.
Proof. intros Hm. rewrite wire_size by done. apply Hm. Qed.

Lemma codec_unmarshal (m : T) : wire_ok m -> unmarshal parse_field (wire m) zero = DOk m.
Proof. intros Hm. apply unmarshal_decodes; [by apply wire_decodes|by apply wire_fits]. Qed.

Lemma codec_roundtrip (m : T) : wire_ok m ->
  exists d, marshal (size_of m) (fill m) = Ret d /\ zlen d = size_of m /\ unmarshal parse_field d zero = DOk m.
Proof.
  intros Hm. exists (wire m). rewrite <- (wire_size m Hm).
  split_and!; [by apply marshal_eq, wire_fills|done|by apply codec_unmarshal].
Qed.

(** The same with the methods by their own names. *)
Lemma codec_roundtrip_named (m : T) size f field z :
  size = size_of m -> f = fill m -> field = parse_field (T := T) -> z = zero -> wire_ok m ->
  exists d, marshal size f = Ret d /\ zlen d = size /\ unmarshal field d z = DOk m.
Proof. intros -> -> -> ->. apply codec_roundtrip. Qed.

Lemma codec_safe d (m : T) : zlen d <= MaxInt64 -> safe (fun _ => True) (unmarshal parse_field d m).
Proof. intros. apply safe_unmarshal; [apply wire_safe|done]. Qed.
End codec.

(* ===================================================================== *)
(** ** Fields on the wire                                                *)
(* ===================================================================== *)

Definition num_wire (tag v : Z) : bytes := zbyte tag :: varint v.
Definition nested_wire (tag : Z) (x : bytes) : bytes := zbyte tag :: varint (zlen x) ++ x.
Definition bool_wire (tag : Z) (b : bool) : bytes := [zbyte tag; zbyte (if b then 1 else 0)].

Definition is_i32 (n : Z) : Prop := - 2 ^ 31 <= n < 2 ^ 31.

Lemma is_u64_u64 n : is_u64 (u64 n).
Proof. apply u64_range. Qed.

Lemma num_wire_size tag v : is_u64 v -> zlen (num_wire tag v) = num_Size v.
Proof. intros. unfold num_wire, num_Size. rewrite zlen_cons, varint_length by done. lia. Qed.

Lemma nested_wire_size tag x : zlen x <= MaxInt64 -> zlen (nested_wire tag x) = nested_Size (zlen x).
Proof.
  intros. unfold nested_wire, nested_Size. rewrite zlen_cons, zlen_app, varint_length by (by apply is_u64_zlen). lia.
Qed.

Lemma optional_wire_size tag x : bytes_Size x <= MaxInt64 -> zlen (optional_wire tag x) = bytes_Size x.
Proof.
  destruct x as [x|]; [|done]. cbn [bytes_Size optional_wire]. intros Hx. pose proof (sovRaft_pos (zlen x)).
  rewrite zlen_cons, zlen_app, varint_length; [lia|]. apply is_u64_zlen. lia.
Qed.

Lemma bool_wire_size tag b : zlen (bool_wire tag b) = 2.
Proof. done. Qed.

Lemma num_Size_pos v : 0 <= num_Size v.
Proof. unfold num_Size. pose proof (sovRaft_pos v). lia. Qed.
Lemma nested_Size_le l : l <= nested_Size l.
Proof. unfold nested_Size. pose proof (sovRaft_pos l). lia. Qed.
Lemma bytes_Size_pos x : 0 <= bytes_Size x.
Proof. destruct x as [x|]; cbn; [|done]. pose proof (sovRaft_pos (zlen x)). pose proof (zlen_nonneg x). lia. Qed.

Lemma sum_Size_pos {A} (f : A -> Z) l : (forall a, 0 <= f a) -> 0 <= sum_Size f l.
Proof. intros Hf. induction l as [|a l IH]; cbn; [done|]. specialize (Hf a). unfold sum_Size in IH. lia. Qed.

(** A repeated field fits if the message does. *)
Lemma sum_Size_forall {A} (f : A -> Z) (P : A -> Prop) l b : (forall a, 0 <= f a) -> sum_Size f l <= b ->
  (forall a, a ∈ l -> f a <= b -> P a) -> Forall P l.
Proof.
  intros Hf. revert b. induction l as [|a l IH]; intros b Hb HP; constructor.
  - apply HP; [by left|]. pose proof (sum_Size_pos f l Hf). cbn in Hb. unfold sum_Size in *. lia.
  - apply (IH b); [|intros; apply HP; [by right|done]]. specialize (Hf a). cbn in Hb. unfold sum_Size. lia.
Qed.

Lemma concat_size {A} (enc : A -> bytes) (f : A -> Z) l :
  Forall (fun a => zlen (enc a) = f a) l -> zlen (concat (enc <$> l)) = sum_Size f l.
Proof. induction 1 as [|a l Ha _ IH]; [done|]. cbn. rewrite zlen_app, Ha. unfold sum_Size in IH. lia. Qed.

Lemma writes_number tag v : is_u64 v -> writes (putNumber tag v) (num_wire tag v).
Proof. intros. unfold num_wire. apply (writes_seq _ _ _ [zbyte tag]); [by apply writes_varint|apply writes_byte]. Qed.

Lemma writes_nested tag f x : fills f x -> zlen x <= MaxInt64 -> writes (putNested tag f) (nested_wire tag x).
Proof.
  intros. unfold nested_wire. apply (writes_seq _ _ _ [zbyte tag]); [|apply writes_byte].
  apply writes_message; [done|by apply is_u64_zlen].
Qed.

Section decode.
Context {T : Type}.
Implicit Types (field : fields T) (m : T).

Lemma decodes_num field m num tag (set : Z -> T) v :
  tag = 8 * num + 0 -> 1 <= num < 16 -> (forall d i, field m num 0 d i = Some (varint_field u64 set 0 d i)) ->
  is_u64 v -> decodes field m (num_wire tag v) (set v).
Proof.
  intros -> Hnum Hfield Hv. rewrite <- (u64_id v) at 2 by exact Hv. apply decodes_one.
  eapply reads_tag; [done..|exact Hfield|]. by apply reads_varint_field; [apply _|].
Qed.

Lemma decodes_enum field m num tag (set : Z -> T) n :
  tag = 8 * num + 0 -> 1 <= num < 16 -> (forall d i, field m num 0 d i = Some (varint_field i32 set 0 d i)) ->
  is_i32 n -> decodes field m (num_wire tag (u64 n)) (set n).
Proof.
  intros -> Hnum Hfield Hn. rewrite <- (i32_u64 n) at 2 by exact Hn. apply decodes_one.
  eapply reads_tag; [done..|exact Hfield|]. by apply reads_varint_field; [apply _|apply is_u64_u64].
Qed.

Lemma decodes_bool field m num tag (set : bool -> T) b :
  tag = 8 * num + 0 -> 1 <= num < 16 -> (forall d i, field m num 0 d i = Some (bool_field set 0 d i)) ->
  decodes field m (bool_wire tag b) (set b).
Proof.
  intros -> Hnum Hfield. apply decodes_one. eapply reads_tag; [done..|exact Hfield|]. apply reads_bool_field.
Qed.

Lemma decodes_nested field m num tag {A} (parse : bytes -> dec A) (set : A -> T) x a :
  tag = 8 * num + 2 -> 1 <= num < 16 -> (forall d i, field m num 2 d i = Some (message_field parse set 2 d i)) ->
  parse x = DOk a -> decodes field m (nested_wire tag x) (set a).
Proof.
  intros -> Hnum Hfield Ha. apply decodes_one. eapply reads_tag; [done..|exact Hfield|]. by apply reads_message_field.
Qed.

Lemma decodes_nums field num tag (set : list Z -> T) vs :
  tag = 8 * num + 0 -> 1 <= num < 16 ->
  (forall l d i, field (set l) num 0 d i = Some (repeated_field l set 0 d i)) -> Forall is_u64 vs ->
  decodes field (set []) (concat (num_wire tag <$> vs)) (set vs).
Proof.
  intros -> Hnum Hfield Hvs. apply (decodes_repeated field (num_wire _) set vs []).
  eapply Forall_impl; [exact Hvs|]. intros v Hv l. apply decodes_one.
  eapply reads_tag; [done..|apply Hfield|]. by apply reads_repeated_field.
Qed.

Lemma decodes_messages field num tag {A} (enc : A -> bytes) (parse : bytes -> dec A) (set : list A -> T) es :
  tag = 8 * num + 2 -> 1 <= num < 16 ->
  (forall l d i, field (set l) num 2 d i = Some (message_field parse (fun a => set (l ++ [a])) 2 d i)) ->
  Forall (fun e => parse (enc e) = DOk e) es ->
  decodes field (set []) (concat ((fun e => nested_wire tag (enc e)) <$> es)) (set es).
Proof.
  intros Htag Hnum Hfield Hes. apply (decodes_repeated field (fun e => nested_wire _ (enc e)) set es []).
  eapply Forall_impl; [exact Hes|]. intros e He l. by eapply (decodes_nested _ _ num _ parse (fun a => set (l ++ [a]))).
Qed.

Lemma decodes_eq field m x m1 m2 : decodes field m x m1 -> m1 = m2 -> decodes field m x m2.
Proof. by intros ? <-. Qed.
End decode.

(* ===================================================================== *)
(** ** The messages                                                      *)
(* ===================================================================== *)

(** A value of an enumeration is an [int32], and a value that has a name is not
    represented as an unknown one. *)
Definition EntryType_ok (t : EntryType) : Prop := is_i32 (EntryType_value t) /\ EntryType_of (EntryType_value t) = t.
Definition MessageType_ok (t : MessageType) : Prop :=
  is_i32 (MessageType_value t) /\ MessageType_of (MessageType_value t) = t.
Definition ConfChangeType_ok (t : ConfChangeType) : Prop :=
  is_i32 (ConfChangeType_value t) /\ ConfChangeType_of (ConfChangeType_value t) = t.
Definition Transition_ok (t : ConfChangeTransition) : Prop :=
  is_i32 (ConfChangeTransition_value t) /\ ConfChangeTransition_of (ConfChangeTransition_value t) = t.

#[local] Arguments EntryType_of : simpl never.
#[local] Arguments MessageType_of : simpl never.
#[local] Arguments ConfChangeType_of : simpl never.
#[local] Arguments ConfChangeTransition_of : simpl never.

Create HintDb wire.
#[export] Hint Resolve is_u64_u64 is_u64_zlen writes_number writes_nested writes_optional writes_bool writes_byte
  writes_forM num_Size_pos bytes_Size_pos sum_Size_pos : wire.

(** The three kinds of laws of a message: split the parts and solve each. *)
Ltac writes_all :=
  apply fills_sized; eapply writes_eq;
  [repeat (apply writes_seq; [solve [eauto with wire]|]); eauto with wire|by rewrite <- ?app_assoc].

Ltac decode_field :=
  lazymatch goal with
  | |- decodes _ _ (num_wire ?tag (u64 _)) _ =>
      let n := eval vm_compute in (tag / 8) in
      eapply (decodes_enum _ _ n); [reflexivity|lia|intros; reflexivity|tauto]
  | |- decodes _ _ (num_wire ?tag _) _ =>
      let n := eval vm_compute in (tag / 8) in
      eapply (decodes_num _ _ n); [reflexivity|lia|intros; reflexivity|tauto]
  | |- decodes _ _ (bool_wire ?tag _) _ =>
      let n := eval vm_compute in (tag / 8) in
      eapply (decodes_bool _ _ n); [reflexivity|lia|intros; reflexivity]
  | |- decodes _ _ (nested_wire ?tag _) _ =>
      let n := eval vm_compute in (tag / 8) in
      eapply (decodes_nested _ _ n); [reflexivity|lia|intros; reflexivity|]
  | |- decodes _ _ (optional_wire ?tag _) _ =>
      let n := eval vm_compute in (tag / 8) in
      eapply (decodes_optional _ _ _ _ n); [reflexivity|lia|intros; reflexivity|reflexivity]
  end.

Ltac decode_all :=
  repeat (eapply decodes_app; [eapply decodes_eq; [decode_field|cbn; reflexivity]|]); try decode_field.

Ltac safe_all :=
  intros m num wt d i Hi Hd;
  repeat (case_match; try exact I; simplify_eq);
  first [by apply safe_varint_field|by apply safe_bool_field|by apply safe_bytes_field|by apply safe_repeated_field
        |apply safe_message_field; [done|done|auto with wire]].

(** The sizes of the parts are not negative. *)
Ltac note_pos lem x t := lazymatch goal with H : 0 <= t |- _ => fail | _ => pose proof (lem x : 0 <= t) end.
Ltac sizes_pos :=
  repeat match goal with
  | |- context [num_Size ?v] => note_pos num_Size_pos v (num_Size v)
  | |- context [bytes_Size ?v] => note_pos bytes_Size_pos v (bytes_Size v)
  | _ : context [num_Size ?v] |- _ => note_pos num_Size_pos v (num_Size v)
  | _ : context [bytes_Size ?v] |- _ => note_pos bytes_Size_pos v (bytes_Size v)
  end.

Ltac size_all :=
  sizes_pos; rewrite ?zlen_app, ?num_wire_size, ?optional_wire_size by (first [lia|tauto|auto with wire]); lia.

(** *** [Entry] *)

#[export] Instance Entry_codec : Codec Entry := {|
  wire m := num_wire 0x8 (u64 (EntryType_value (eType m))) ++ num_wire 0x10 (eTerm m) ++ num_wire 0x18 (eIndex m) ++
            optional_wire 0x22 (eData m);
  fields_ok m := EntryType_ok (eType m) /\ is_u64 (eTerm m) /\ is_u64 (eIndex m);
  size_of := Entry_Size;
  fill := Entry_MarshalToSizedBuffer;
  parse_field := Entry_field;
  zero := zero_entry
|}.

Lemma bytes_Size_ok x : bytes_Size x <= MaxInt64 -> optional_ok x.
Proof.
  unfold optional_ok, MaxInt64. destruct x as [x|]; cbn [bytes_Size default from_option id]; [|done].
  pose proof (sovRaft_pos (zlen x)). unfold MaxInt64. lia.
Qed.

Lemma Entry_Size_eq m : Entry_Size m =
  num_Size (u64 (EntryType_value (eType m))) + num_Size (eTerm m) + num_Size (eIndex m) + bytes_Size (eData m).
Proof. done. Qed.

#[export] Instance Entry_laws : CodecLaws Entry.
Proof.
  split.
  - intros m. cbn [size_of Entry_codec]. rewrite Entry_Size_eq. sizes_pos. lia.
  - intros m [Hf Hs]. cbn [size_of wire fields_ok Entry_codec] in *. rewrite Entry_Size_eq in *. size_all.
  - intros m [Hf Hs]. cbn [size_of wire fields_ok fill Entry_codec] in *. rewrite Entry_Size_eq in *. sizes_pos.
    assert (optional_ok (eData m)) by (apply bytes_Size_ok; lia).
    destruct Hf as (Ht & ? & ?). unfold Entry_MarshalToSizedBuffer. writes_all.
  - intros [t i ty da] [(Ht & ? & ?) Hs]. destruct Ht as [Ht Et].
    cbn [size_of wire fields_ok parse_field zero Entry_codec eTerm eIndex eType eData] in *.
    eapply decodes_eq; [decode_all|]. cbv beta. by rewrite Et.
  - unfold parse_field, Entry_codec, Entry_field. safe_all.
Qed.

Lemma Entry_safe d m : zlen d <= MaxInt64 -> safe (fun _ => True) (Entry_Unmarshal d m).
Proof. exact (codec_safe d m). Qed.
#[export] Hint Resolve Entry_safe : wire.

(** *** [HardState], [ConfChange], [ConfChangeSingle] *)

#[export] Instance HardState_codec : Codec HardState := {|
  wire m := num_wire 0x8 (hTerm m) ++ num_wire 0x10 (hVote m) ++ num_wire 0x18 (hCommit m);
  fields_ok m := is_u64 (hTerm m) /\ is_u64 (hVote m) /\ is_u64 (hCommit m);
  size_of := HardState_Size;
  fill := HardState_MarshalToSizedBuffer;
  parse_field := HardState_field;
  zero := zero_HardState
|}.

#[export] Instance HardState_laws : CodecLaws HardState.
Proof.
  split.
  - intros m. cbn [size_of HardState_codec]. unfold HardState_Size. sizes_pos. lia.
  - intros m [Hf Hs]. cbn [size_of wire fields_ok HardState_codec] in *. unfold HardState_Size in *. size_all.
  - intros m [(? & ? & ?) _]. cbn [wire fill HardState_codec]. unfold HardState_MarshalToSizedBuffer. writes_all.
  - intros [t v c] [(? & ? & ?) _]. cbn [wire parse_field zero HardState_codec hTerm hVote hCommit] in *.
    eapply decodes_eq; [decode_all|done].
  - unfold parse_field, HardState_codec, HardState_field. safe_all.
Qed.

Lemma HardState_safe d m : zlen d <= MaxInt64 -> safe (fun _ => True) (HardState_Unmarshal d m).
Proof. exact (codec_safe d m). Qed.
#[export] Hint Resolve HardState_safe : wire.

#[export] Instance ConfChange_codec : Codec ConfChange := {|
  wire m := num_wire 0x8 (cID m) ++ num_wire 0x10 (u64 (ConfChangeType_value (cType m))) ++
            num_wire 0x18 (cNodeID m) ++ optional_wire 0x22 (cContext m);
  fields_ok m := is_u64 (cID m) /\ ConfChangeType_ok (cType m) /\ is_u64 (cNodeID m);
  size_of := ConfChange_Size;
  fill := ConfChange_MarshalToSizedBuffer;
  parse_field := ConfChange_field;
  zero := zero_ConfChange
|}.

#[export] Instance ConfChange_laws : CodecLaws ConfChange.
Proof.
  split.
  - intros m. cbn [size_of ConfChange_codec]. unfold ConfChange_Size. sizes_pos. lia.
  - intros m [Hf Hs]. cbn [size_of wire fields_ok ConfChange_codec] in *. unfold ConfChange_Size in *. size_all.
  - intros m [(? & ? & ?) Hs]. cbn [size_of wire fill ConfChange_codec] in *. unfold ConfChange_Size in Hs. sizes_pos.
    assert (optional_ok (cContext m)) by (apply bytes_Size_ok; lia).
    unfold ConfChange_MarshalToSizedBuffer. writes_all.
  - intros [ty n c id] [(? & Ht & ?) _]. destruct Ht as [Ht Et].
    cbn [wire parse_field zero ConfChange_codec cID cType cNodeID cContext] in *.
    eapply decodes_eq; [decode_all|]. by rewrite Et.
  - unfold parse_field, ConfChange_codec, ConfChange_field. safe_all.
Qed.

Lemma ConfChange_safe d m : zlen d <= MaxInt64 -> safe (fun _ => True) (ConfChange_Unmarshal d m).
Proof. exact (codec_safe d m). Qed.
#[export] Hint Resolve ConfChange_safe : wire.

#[export] Instance ConfChangeSingle_codec : Codec ConfChangeSingle := {|
  wire m := num_wire 0x8 (u64 (ConfChangeType_value (ccType m))) ++ num_wire 0x10 (NodeID m);
  fields_ok m := ConfChangeType_ok (ccType m) /\ is_u64 (NodeID m);
  size_of := ConfChangeSingle_Size;
  fill := ConfChangeSingle_MarshalToSizedBuffer;
  parse_field := ConfChangeSingle_field;
  zero := zero_ConfChangeSingle
|}.

#[export] Instance ConfChangeSingle_laws : CodecLaws ConfChangeSingle.
Proof.
  split.
  - intros m. cbn [size_of ConfChangeSingle_codec]. unfold ConfChangeSingle_Size. sizes_pos. lia.
  - intros m [Hf Hs]. cbn [size_of wire fields_ok ConfChangeSingle_codec] in *. unfold ConfChangeSingle_Size in *. size_all.
  - intros m [(? & ?) _]. cbn [wire fill ConfChangeSingle_codec]. unfold ConfChangeSingle_MarshalToSizedBuffer. writes_all.
  - intros [ty n] [(Ht & ?) _]. destruct Ht as [Ht Et].
    cbn [wire parse_field zero ConfChangeSingle_codec ccType NodeID] in *.
    eapply decodes_eq; [decode_all|]. by rewrite Et.
  - unfold parse_field, ConfChangeSingle_codec, ConfChangeSingle_field. safe_all.
Qed.

Lemma ConfChangeSingle_safe d m : zlen d <= MaxInt64 -> safe (fun _ => True) (ConfChangeSingle_Unmarshal d m).
Proof. exact (codec_safe d m). Qed.
#[export] Hint Resolve ConfChangeSingle_safe : wire.

(** *** [ConfState], [SnapshotMetadata], [Snapshot] *)

#[export] Instance ConfState_codec : Codec ConfState := {|
  wire m := concat (num_wire 0x8 <$> csVoters m) ++ concat (num_wire 0x10 <$> csLearners m) ++
            concat (num_wire 0x18 <$> csVotersOutgoing m) ++ concat (num_wire 0x20 <$> csLearnersNext m) ++
            bool_wire 0x28 (csAutoLeave m);
  fields_ok m := Forall is_u64 (csVoters m) /\ Forall is_u64 (csLearners m) /\
                 Forall is_u64 (csVotersOutgoing m) /\ Forall is_u64 (csLearnersNext m);
  size_of := ConfState_Size;
  fill := ConfState_MarshalToSizedBuffer;
  parse_field := ConfState_field;
  zero := zero_ConfState
|}.

Lemma nums_wire_size tag vs : Forall is_u64 vs -> zlen (concat (num_wire tag <$> vs)) = sum_Size num_Size vs.
Proof. intros H. apply concat_size. eapply Forall_impl; [exact H|]. apply num_wire_size. Qed.

Lemma writes_numbers tag vs : Forall is_u64 vs ->
  writes (forM (reverse vs) (putNumber tag)) (concat (num_wire tag <$> vs)).
Proof. intros H. apply writes_forM. eapply Forall_impl; [exact H|]. apply writes_number. Qed.

Lemma writes_flag tag b : writes (putBool b;; putByte tag) (bool_wire tag b).
Proof. apply (writes_seq _ _ _ [zbyte tag]); auto with wire. Qed.

#[export] Hint Resolve writes_numbers writes_flag : wire.

#[export] Instance ConfState_laws : CodecLaws ConfState.
Proof.
  split.
  - intros m. cbn [size_of ConfState_codec]. unfold ConfState_Size.
    pose proof (fun l => sum_Size_pos num_Size l num_Size_pos) as H.
    pose proof (H (csVoters m)). pose proof (H (csLearners m)).
    pose proof (H (csVotersOutgoing m)). pose proof (H (csLearnersNext m)). lia.
  - intros m [(? & ? & ? & ?) _]. cbn [size_of wire ConfState_codec]. unfold ConfState_Size.
    rewrite !zlen_app, !nums_wire_size, bool_wire_size by done. lia.
  - intros m [(? & ? & ? & ?) _]. cbn [wire fill ConfState_codec]. apply fills_sized.
    eapply writes_eq; [repeat (apply writes_seq; [solve [eauto with wire]|]); eauto with wire|].
    by rewrite <- !app_assoc.
  - intros [vs ls os ns b] [(? & ? & ? & ?) _].
    cbn [wire parse_field zero ConfState_codec csVoters csLearners csVotersOutgoing csLearnersNext csAutoLeave] in *.
    eapply decodes_app; [by apply (decodes_nums _ 1 _ (fun vs => mkConfState vs [] [] [] false))|].
    eapply decodes_app; [by apply (decodes_nums _ 2 _ (fun ls => mkConfState vs ls [] [] false))|].
    eapply decodes_app; [by apply (decodes_nums _ 3 _ (fun os => mkConfState vs ls os [] false))|].
    eapply decodes_app; [by apply (decodes_nums _ 4 _ (fun ns => mkConfState vs ls os ns false))|].
    eapply decodes_eq; [decode_all|done].
  - unfold parse_field, ConfState_codec, ConfState_field. safe_all.
Qed.

Lemma ConfState_safe d m : zlen d <= MaxInt64 -> safe (fun _ => True) (ConfState_Unmarshal d m).
Proof. exact (codec_safe d m). Qed.
#[export] Hint Resolve ConfState_safe : wire.

#[export] Instance SnapshotMetadata_codec : Codec SnapshotMetadata := {|
  wire m := nested_wire 0xa (wire (mConfState m)) ++ num_wire 0x10 (mIndex m) ++ num_wire 0x18 (mTerm m);
  fields_ok m := fields_ok (mConfState m) /\ is_u64 (mIndex m) /\ is_u64 (mTerm m);
  size_of := SnapshotMetadata_Size;
  fill := SnapshotMetadata_MarshalToSizedBuffer;
  parse_field := SnapshotMetadata_field;
  zero := sMetadata zero_Snapshot
|}.

(** A nested message fits if the message around it does. *)
Lemma nested_ok {T} `{!Codec T, !CodecLaws T} (m : T) s :
  s = size_of m -> fields_ok m -> nested_Size s <= MaxInt64 -> wire_ok m.
Proof. intros -> Hf Hs. split; [done|]. pose proof (nested_Size_le (size_of m)). lia. Qed.

Lemma nested_size {T} `{!Codec T, !CodecLaws T} tag (m : T) :
  wire_ok m -> zlen (nested_wire tag (wire m)) = nested_Size (size_of m).
Proof. intros Hm. rewrite nested_wire_size by (by apply wire_fits). by rewrite wire_size. Qed.

Lemma nested_Size_pos {T} `{!Codec T, !CodecLaws T} (m : T) : 0 <= nested_Size (size_of m).
Proof. pose proof (nested_Size_le (size_of m)). pose proof (size_nonneg m). lia. Qed.

Lemma nested_Size_pos_named {T} `{!Codec T, !CodecLaws T} (m : T) s : s = size_of m -> 0 <= nested_Size s.
Proof. intros ->. apply nested_Size_pos. Qed.

#[export] Instance SnapshotMetadata_laws : CodecLaws SnapshotMetadata.
Proof.
  assert (forall m : SnapshotMetadata, wire_ok m -> wire_ok (mConfState m)) as Hn.
  { intros m [Hf Hs]. cbn [size_of SnapshotMetadata_codec] in Hs. unfold SnapshotMetadata_Size in Hs. sizes_pos.
    apply (nested_ok _ (ConfState_Size (mConfState m))); [exact eq_refl|apply Hf|lia]. }
  split.
  - intros m. cbn [size_of SnapshotMetadata_codec]. unfold SnapshotMetadata_Size. sizes_pos.
    pose proof (nested_Size_pos (mConfState m)) as H'. cbn [size_of ConfState_codec] in H'. lia.
  - intros m Hm. pose proof (Hn m Hm). destruct Hm as [Hf Hs]. cbn [size_of wire fields_ok SnapshotMetadata_codec] in *.
    unfold SnapshotMetadata_Size in *. rewrite zlen_app, nested_size by done. cbn [size_of ConfState_codec]. size_all.
  - intros m Hm. pose proof (Hn m Hm). destruct Hm as [(? & ? & ?) Hs]. cbn [wire fill SnapshotMetadata_codec].
    pose proof (wire_fills (mConfState m)). pose proof (wire_fits (mConfState m)).
    unfold SnapshotMetadata_MarshalToSizedBuffer. writes_all.
  - intros m Hm. pose proof (Hn m Hm). destruct m as [cs i t]. destruct Hm as [(? & ? & ?) Hs].
    cbn [wire parse_field zero SnapshotMetadata_codec mConfState mIndex mTerm] in *.
    eapply decodes_eq; [decode_all|done]. exact (codec_unmarshal cs ltac:(done)).
  - unfold parse_field, SnapshotMetadata_codec, SnapshotMetadata_field. safe_all.
Qed.

Lemma SnapshotMetadata_safe d m : zlen d <= MaxInt64 -> safe (fun _ => True) (SnapshotMetadata_Unmarshal d m).
Proof. exact (codec_safe d m). Qed.
#[export] Hint Resolve SnapshotMetadata_safe : wire.

#[export] Instance Snapshot_codec : Codec Snapshot := {|
  wire m := optional_wire 0xa (sData m) ++ nested_wire 0x12 (wire (sMetadata m));
  fields_ok m := fields_ok (sMetadata m);
  size_of := Snapshot_Size;
  fill := Snapshot_MarshalToSizedBuffer;
  parse_field := Snapshot_field;
  zero := zero_Snapshot
|}.

#[export] Instance Snapshot_laws : CodecLaws Snapshot.
Proof.
  pose proof (fun m : Snapshot => nested_Size_pos (sMetadata m)) as Hp. cbn [size_of SnapshotMetadata_codec] in Hp.
  assert (forall m : Snapshot, wire_ok m -> wire_ok (sMetadata m) /\ bytes_Size (sData m) <= MaxInt64) as Hn.
  { intros m [Hf Hs]. cbn [size_of Snapshot_codec] in Hs. unfold Snapshot_Size in Hs. sizes_pos. specialize (Hp m).
    split; [apply (nested_ok _ (SnapshotMetadata_Size (sMetadata m))); [exact eq_refl|apply Hf|]|]; lia. }
  split.
  - intros m. cbn [size_of Snapshot_codec]. unfold Snapshot_Size. sizes_pos. specialize (Hp m). lia.
  - intros m Hm. destruct (Hn m Hm). cbn [size_of wire Snapshot_codec] in *. unfold Snapshot_Size.
    rewrite zlen_app, nested_size by done. cbn [size_of SnapshotMetadata_codec]. size_all.
  - intros m Hm. destruct (Hn m Hm) as [? ?%bytes_Size_ok]. cbn [wire fill Snapshot_codec].
    pose proof (wire_fills (sMetadata m)). pose proof (wire_fits (sMetadata m)).
    unfold Snapshot_MarshalToSizedBuffer. writes_all.
  - intros m Hm. destruct (Hn m Hm) as [? _]. destruct m as [da md].
    cbn [wire parse_field zero Snapshot_codec sData sMetadata] in *.
    eapply decodes_eq; [decode_all|done]. exact (codec_unmarshal md ltac:(done)).
  - unfold parse_field, Snapshot_codec, Snapshot_field. safe_all.
Qed.

Lemma Snapshot_safe d m : zlen d <= MaxInt64 -> safe (fun _ => True) (Snapshot_Unmarshal d m).
Proof. exact (codec_safe d m). Qed.
#[export] Hint Resolve Snapshot_safe : wire.

(** *** [ConfChangeV2] *)

(** A repeated message. *)
Section repeated.
Context {A : Type} `{!Codec A, !CodecLaws A}.

Abbreviation msgs_Size l := (sum_Size (fun e => nested_Size (size_of e)) l).

Lemma msgs_Size_pos (l : list A) : 0 <= msgs_Size l.
Proof. apply sum_Size_pos, nested_Size_pos. Qed.

Lemma msgs_ok (l : list A) f : (forall e, f e = size_of e) -> Forall fields_ok l ->
  sum_Size (fun e => nested_Size (f e)) l <= MaxInt64 -> Forall wire_ok l.
Proof.
  intros E Hf Hs. apply (sum_Size_forall (fun e => nested_Size (f e)) _ l MaxInt64); [|done|].
  { intros e. by apply (nested_Size_pos_named e). }
  intros a Ha Hle. eapply nested_ok; [apply E| |done]. by rewrite Forall_forall in Hf; apply Hf.
Qed.

Lemma msgs_wire_size tag (l : list A) : Forall wire_ok l ->
  zlen (concat ((fun e => nested_wire tag (wire e)) <$> l)) = msgs_Size l.
Proof. intros H. apply concat_size. eapply Forall_impl; [exact H|]. intros; by apply nested_size. Qed.

Lemma writes_msgs tag (l : list A) : Forall wire_ok l ->
  writes (forM (reverse l) (fun e => putNested tag (fill e))) (concat ((fun e => nested_wire tag (wire e)) <$> l)).
Proof.
  intros H. apply writes_forM. eapply Forall_impl; [exact H|]. intros e He.
  apply writes_nested; [by apply wire_fills|by apply wire_fits].
Qed.

Lemma msgs_unmarshal (l : list A) : Forall wire_ok l ->
  Forall (fun e => unmarshal parse_field (wire e) zero = DOk e) l.
Proof. intros H. eapply Forall_impl; [exact H|]. intros; by apply codec_unmarshal. Qed.
End repeated.

#[export] Instance ConfChangeV2_codec : Codec ConfChangeV2 := {|
  wire m := num_wire 0x8 (u64 (ConfChangeTransition_value (Transition m))) ++
            concat ((fun e => nested_wire 0x12 (wire e)) <$> Changes m) ++ optional_wire 0x1a (ccContext m);
  fields_ok m := Transition_ok (Transition m) /\ Forall fields_ok (Changes m);
  size_of := ConfChangeV2_Size;
  fill := ConfChangeV2_MarshalToSizedBuffer;
  parse_field := ConfChangeV2_field;
  zero := zero_ConfChangeV2
|}.

#[export] Instance ConfChangeV2_laws : CodecLaws ConfChangeV2.
Proof.
  pose proof (fun m : ConfChangeV2 => msgs_Size_pos (Changes m)) as Hp. cbn [size_of ConfChangeSingle_codec] in Hp.
  assert (forall m : ConfChangeV2, wire_ok m ->
    Transition_ok (Transition m) /\ Forall wire_ok (Changes m) /\ bytes_Size (ccContext m) <= MaxInt64) as Hn.
  { intros m [[Ht Hf] Hs]. cbn [size_of ConfChangeV2_codec] in Hs. unfold ConfChangeV2_Size in Hs. sizes_pos. specialize (Hp m).
    split_and!; [done|apply (msgs_ok _ ConfChangeSingle_Size); [exact (fun _ => eq_refl)|done|]|]; lia. }
  split.
  - intros m. cbn [size_of ConfChangeV2_codec]. unfold ConfChangeV2_Size. sizes_pos. specialize (Hp m). lia.
  - intros m Hm. destruct (Hn m Hm) as (? & ? & ?). cbn [size_of wire ConfChangeV2_codec] in *. unfold ConfChangeV2_Size.
    rewrite !zlen_app, msgs_wire_size by done. cbn [size_of ConfChangeSingle_codec]. size_all.
  - intros m Hm. destruct (Hn m Hm) as (? & ?%(writes_msgs 0x12) & ?%bytes_Size_ok). cbn [wire fill ConfChangeV2_codec].
    unfold ConfChangeV2_MarshalToSizedBuffer. writes_all.
  - intros m Hm. destruct (Hn m Hm) as ([Ht Et] & Hc & _). destruct m as [t cs x].
    cbn [wire parse_field zero ConfChangeV2_codec Transition Changes ccContext] in *.
    eapply decodes_app; [eapply decodes_eq; [decode_field|cbn; rewrite Et; reflexivity]|].
    eapply decodes_app; [eapply (decodes_messages _ 2 _ wire _ (fun cs => mkConfChangeV2 t cs None)); [done|done|done|]|].
    { exact (msgs_unmarshal cs Hc). }
    eapply decodes_eq; [decode_all|done].
  - unfold parse_field, ConfChangeV2_codec, ConfChangeV2_field. safe_all.
Qed.

Lemma ConfChangeV2_safe d m : zlen d <= MaxInt64 -> safe (fun _ => True) (ConfChangeV2_Unmarshal d m).
Proof. exact (codec_safe d m). Qed.
#[export] Hint Resolve ConfChangeV2_safe : wire.

(** *** [Message] *)

#[export] Instance Message_codec : Codec Message := {|
  wire m := num_wire 0x8 (u64 (MessageType_value (mtType m))) ++ num_wire 0x10 (mtTo m) ++ num_wire 0x18 (mtFrom m) ++
            num_wire 0x20 (mtTerm m) ++ num_wire 0x28 (mtLogTerm m) ++ num_wire 0x30 (mtIndex m) ++
            concat ((fun e => nested_wire 0x3a (wire e)) <$> mtEntries m) ++
            num_wire 0x40 (mtCommit m) ++ nested_wire 0x4a (wire (mtSnapshot m)) ++ bool_wire 0x50 (mtReject m) ++
            num_wire 0x58 (mtRejectHint m) ++ optional_wire 0x62 (mtContext m);
  fields_ok m := MessageType_ok (mtType m) /\
    (is_u64 (mtTo m) /\ is_u64 (mtFrom m) /\ is_u64 (mtTerm m) /\ is_u64 (mtLogTerm m) /\ is_u64 (mtIndex m) /\
     is_u64 (mtCommit m) /\ is_u64 (mtRejectHint m)) /\
    Forall fields_ok (mtEntries m) /\ fields_ok (mtSnapshot m);
  size_of := Message_Size;
  fill := Message_MarshalToSizedBuffer;
  parse_field := Message_field;
  zero := msg MsgHup
|}.

Lemma Message_Size_pos (m : Message) :
  0 <= sum_Size (fun e => nested_Size (Entry_Size e)) (mtEntries m) /\ 0 <= nested_Size (Snapshot_Size (mtSnapshot m)).
Proof. split; [by apply sum_Size_pos; intros e; apply (nested_Size_pos_named e)|by apply (nested_Size_pos_named (mtSnapshot m))]. Qed.

Lemma Message_size_of (m : Message) : Message_Size m = size_of m.
Proof. exact eq_refl. Qed.

Lemma Message_wire_ok (m : Message) : wire_ok m <-> fields_ok m /\ Message_Size m <= MaxInt64.
Proof. pose proof (Message_size_of m). unfold wire_ok. split; intros [? ?]; split; [done|lia|done|lia]. Qed.

Lemma Message_Size_parts (m : Message) : Message_Size m <= MaxInt64 ->
  sum_Size (fun e => nested_Size (Entry_Size e)) (mtEntries m) <= MaxInt64 /\
  nested_Size (Snapshot_Size (mtSnapshot m)) <= MaxInt64 /\ bytes_Size (mtContext m) <= MaxInt64.
Proof. unfold Message_Size. intros Hs. sizes_pos. destruct (Message_Size_pos m). lia. Qed.

Lemma Message_parts_ok (m : Message) : wire_ok m ->
  Forall wire_ok (mtEntries m) /\ wire_ok (mtSnapshot m) /\ bytes_Size (mtContext m) <= MaxInt64.
Proof.
  intros Hm. destruct (proj1 (Message_wire_ok m) Hm) as [(_ & _ & He & Hf) Hs].
  destruct (Message_Size_parts m Hs) as (? & ? & ?).
  split_and!; [apply (msgs_ok _ Entry_Size); [exact (fun _ => eq_refl)|assumption..]
    |apply (nested_ok _ (Snapshot_Size (mtSnapshot m))); [exact eq_refl|assumption..]|assumption].
Qed.

#[export] Instance Message_laws : CodecLaws Message.
Proof.
  split.
  - intros m. rewrite <- Message_size_of. unfold Message_Size. sizes_pos. destruct (Message_Size_pos m). lia.
  - intros m Hm. destruct (Message_parts_ok m Hm) as (? & ? & ?). destruct Hm as [(_ & Hu & _) _].
    rewrite <- Message_size_of. cbn [wire Message_codec]. unfold Message_Size.
    rewrite !zlen_app, msgs_wire_size, nested_size, bool_wire_size by done.
    cbn [size_of Entry_codec Snapshot_codec]. size_all.
  - intros m Hm. destruct (Message_parts_ok m Hm) as (Hes%(writes_msgs 0x3a) & Hsn & ?%bytes_Size_ok).
    pose proof (writes_nested 0x4a _ _ (wire_fills _ Hsn) (wire_fits _ Hsn)).
    destruct Hm as [(_ & (? & ? & ? & ? & ? & ? & ?) & _) _]. cbn [wire fill Message_codec].
    unfold Message_MarshalToSizedBuffer. writes_all.
  - intros m Hm. destruct (Message_parts_ok m Hm) as (Hes & Hsn & _).
    destruct m as [ty to fr te lt ix es co sn rj rh cx]. destruct Hm as [([Ht Et] & Hu & _) _].
    cbn [wire parse_field zero Message_codec mtType mtTo mtFrom mtTerm mtLogTerm mtIndex mtEntries mtCommit mtSnapshot
         mtReject mtRejectHint mtContext] in *.
    eapply decodes_app; [eapply decodes_eq; [decode_field|cbn; rewrite Et; reflexivity]|].
    decode_all.
    eapply decodes_app; [eapply (decodes_messages _ 7 _ wire _
      (fun es => mkMessage ty to fr te lt ix es 0 zero_Snapshot false 0 None)); [done|done|done|]|].
    { exact (msgs_unmarshal es Hes). }
    eapply decodes_eq; [decode_all|done]. exact (codec_unmarshal sn Hsn).
  - unfold parse_field, Message_codec, Message_field. safe_all.
Qed.

Lemma Message_safe d m : zlen d <= MaxInt64 -> safe (fun _ => True) (Message_Unmarshal d m).
Proof. exact (codec_safe d m). Qed.

(* ===================================================================== *)
(** ** Theorems                                                          *)
(* ===================================================================== *)

(** C23: A raft message survives the wire: [Marshal], which fills a buffer of
    [Size] bytes from its end to its front and nests messages in it, does not
    panic and fills the buffer exactly; [Unmarshal] of these bytes gives the
    message back, with its entries, its snapshot and the configuration in it.
    The numbers are any of their Go types, unknown enumeration values included. *)
Theorem message_roundtrip (m : Message) (Hf : fields_ok m) (Hs : Message_Size m <= MaxInt64) :
  exists d, Message_Marshal m = Ret d /\ zlen d = Message_Size m /\ Message_Unmarshal d (msg MsgHup) = DOk m.
Proof. apply (codec_roundtrip_named m); [exact eq_refl..|by apply Message_wire_ok]. Qed.

(** A membership change survives the log: what a proposer marshals into the
    data of an entry, in the old or in the new format, the leader and the nodes
    that apply the entry unmarshal to the same change, and so does a hard state
    from the write-ahead log. *)
Theorem conf_change_roundtrip (c : ConfChange) (c2 : ConfChangeV2) (h : HardState)
  (Hc : fields_ok c /\ ConfChange_Size c <= MaxInt64) (Hc2 : fields_ok c2 /\ ConfChangeV2_Size c2 <= MaxInt64)
  (Hh : fields_ok h) :
  (exists d, ConfChange_Marshal c = Ret d /\ ConfChange_Unmarshal d zero_ConfChange = DOk c) /\
  (exists d, ConfChangeV2_Marshal c2 = Ret d /\ ConfChangeV2_Unmarshal d zero_ConfChangeV2 = DOk c2) /\
  (exists d, HardState_Marshal h = Ret d /\ HardState_Unmarshal d zero_HardState = DOk h).
Proof.
  destruct (codec_roundtrip c Hc) as (d1 & ? & _ & ?). destruct (codec_roundtrip c2 Hc2) as (d2 & ? & _ & ?).
  assert (wire_ok h) as Hw. 2: destruct (codec_roundtrip h Hw) as (d3 & ? & _ & ?).
  { split; [done|]. destruct Hh as (? & ? & ?). cbn [size_of HardState_codec]. unfold HardState_Size.
    rewrite <- !(num_wire_size 0) by done. unfold num_wire, varint. rewrite !zlen_cons.
    pose proof (varint_n_le 10 (hTerm h)). pose proof (varint_n_le 10 (hVote h)). pose proof (varint_n_le 10 (hCommit h)).
    unfold MaxInt64. lia. }
  split_and!; eauto.
Qed.

(** What returns, with a result or an error. *)
Definition returns {A} (r : dec A) : Prop := (exists a, r = DOk a) \/ (exists e, r = DErr e).

Lemma safe_returns {A} (P : A -> Prop) (r : dec A) : safe P r -> returns r.
Proof. destruct r; cbn; [left|right|done|done]; eauto. Qed.

(** C24: No bytes can crash a decoder: whatever a peer sends, [Unmarshal] of every
    message type, into any message, ends with a result or an error; no index or
    slice bound is ever out of range, also where a length in the input makes an
    index overflow, and the loops end. *)
Theorem unmarshal_never_panics (d : bytes) (Hd : zlen d <= MaxInt64) :
  (forall m, returns (Message_Unmarshal d m)) /\ (forall m, returns (Entry_Unmarshal d m)) /\
  (forall m, returns (Snapshot_Unmarshal d m)) /\ (forall m, returns (SnapshotMetadata_Unmarshal d m)) /\
  (forall m, returns (ConfState_Unmarshal d m)) /\ (forall m, returns (HardState_Unmarshal d m)) /\
  (forall m, returns (ConfChange_Unmarshal d m)) /\ (forall m, returns (ConfChangeSingle_Unmarshal d m)) /\
  (forall m, returns (ConfChangeV2_Unmarshal d m)).
Proof.
  split_and!; intros m; eapply safe_returns; solve [by apply Message_safe|auto with wire].
Qed.

(* ===================================================================== *)
(** ** Instances of the theorems                                         *)
(* ===================================================================== *)

Definition demo_message : Message :=
  mkMessage MsgApp 2 1 7 6 300 [mkEntry 7 301 EntryNormal (Some (bs "set a b")); mkEntry 7 302 EntryConfChange None]
    299 (mkSnapshot None (mkMetadata (mkConfState [1; 2] [3] [] [] false) 5 1)) false 0 (Some (bs "x")).

Lemma message_roundtrip_witness :
  exists d, Message_Marshal demo_message = Ret d /\ zlen d = Message_Size demo_message /\
    Message_Unmarshal d (msg MsgHup) = DOk demo_message.
Proof.
  apply (message_roundtrip demo_message); [|by vm_compute].
  repeat split; cbn; repeat constructor; cbn; try done; unfold is_u64; lia.
Defined.

Definition demo_change : ConfChangeV2 :=
  mkConfChangeV2 ConfChangeTransitionAuto [mkChange ConfChangeAddNode 4; mkChange ConfChangeRemoveNode 2] (Some (bs "url")).

Lemma conf_change_roundtrip_witness :
  (exists d, ConfChange_Marshal (mkConfChange ConfChangeAddNode 300 (Some (bs "url")) 1) = Ret d /\
     ConfChange_Unmarshal d zero_ConfChange = DOk (mkConfChange ConfChangeAddNode 300 (Some (bs "url")) 1)) /\
  (exists d, ConfChangeV2_Marshal demo_change = Ret d /\ ConfChangeV2_Unmarshal d zero_ConfChangeV2 = DOk demo_change) /\
  (exists d, HardState_Marshal (mkHardState 7 1 300) = Ret d /\
     HardState_Unmarshal d zero_HardState = DOk (mkHardState 7 1 300)).
Proof.
  apply (conf_change_roundtrip (mkConfChange ConfChangeAddNode 300 (Some (bs "url")) 1) demo_change (mkHardState 7 1 300)).
  - split; [|by vm_compute]. repeat split; cbn; try done; unfold is_u64; lia.
  - split; [|by vm_compute]. split; [done|]. repeat constructor; cbn; try done; unfold is_u64; lia.
  - repeat split; cbn; try done; unfold is_u64; lia.
Defined.

(** A field of bytes whose length, 2^63 - 1, makes the index overflow. *)
Lemma unmarshal_never_panics_witness : let d := zbyte 0x22 :: repeat (zbyte 0xff) 8 ++ [zbyte 0x7f] in
  zlen d <= MaxInt64 /\ returns (Entry_Unmarshal d zero_entry) /\
  Entry_Unmarshal d zero_entry = DErr ErrInvalidLengthRaft.
Proof.
  cbv zeta. split; [by vm_compute|]. split; [|by vm_compute].
  apply (unmarshal_never_panics (zbyte 0x22 :: repeat (zbyte 0xff) 8 ++ [zbyte 0x7f])). by vm_compute.
Defined.
