(* ===== verification/RaftNode.v ===== *)
(** * RaftNode: the raft state machine (src/etcd/raft/raft.go, read_only.go)

    One node of a raft group: its state, the roles it can have, and [Step], which
    handles a message. Everything that changes the state is a computation of the
    monad over [raft]; a nil pointer that is used, an index out of range and the
    [Panic] of the logger are panics. The arguments of a logger call are evaluated
    where they can panic themselves.

    [step] and [tick] are fields that hold a function; they are names here.
    [draws] counts the uses of map iteration and of the random source, so that
    each of them may give anything. Pending read requests are kept in a map of
    pointers; the map [recvAck] returns is only read at once, so values do. *)

From S2P Require Import Prelude RaftPb Quorum RaftStorage RaftLog Tracker ConfChange RaftWire RaftCodec.

(* ===================================================================== *)
(** ** State                                                             *)
(* ===================================================================== *)

(** [None] is also a node ID. *)
Definition NoNode : Z := 0.

(** [StateType] of the package raft. *)
Inductive RaftState : Type := StateFollower | StateCandidate | StateLeader | StatePreCandidate.

#[export] Instance RaftState_eq_dec : EqDecision RaftState.
Proof. solve_decision. Defined.

Inductive ReadOnlyOption : Type := ReadOnlySafe | ReadOnlyLeaseBased.

#[export] Instance ReadOnlyOption_eq_dec : EqDecision ReadOnlyOption.
Proof. solve_decision. Defined.

Inductive CampaignType : Type := campaignPreElection | campaignElection | campaignTransfer.

#[export] Instance CampaignType_eq_dec : EqDecision CampaignType.
Proof. solve_decision. Defined.

(** [[]byte(t)]. *)
Definition CampaignType_bytes (t : CampaignType) : bytes :=
  match t with
  | campaignPreElection => bs "CampaignPreElection"
  | campaignElection => bs "CampaignElection"
  | campaignTransfer => bs "CampaignTransfer"
  end.

Record ReadState : Type := mkReadState { rsIndex : Z; RequestCtx : option bytes }.

Record readIndexStatus : Type := mkReadIndexStatus { req : Message; risIndex : Z; acks : gmap Z bool }.

Record readOnly : Type := mkReadOnly {
  roOption : ReadOnlyOption;
  pendingReadIndex : gmap bytes readIndexStatus;
  readIndexQueue : list bytes
}.

Inductive tickFunc : Type := NilTick | tickElection_f | tickHeartbeat_f.

Inductive stepFunc : Type := NilStep | stepFollower_f | stepCandidate_f | stepLeader_f.

Record raft (St : Type) : Type := mkRaft {
  rid : Z;
  rTerm : Z;
  rVote : Z;
  readStates : list ReadState;
  rlog : raftLog St;
  maxMsgSize : Z;
  maxUncommittedSize : Z;
  prs : ProgressTracker;
  rstate : RaftState;
  isLearner : bool;
  msgs : list Message;
  lead : Z;
  leadTransferee : Z;
  pendingConfIndex : Z;
  uncommittedSize : Z;
  ro : readOnly;
  electionElapsed : Z;
  heartbeatElapsed : Z;
  checkQuorum : bool;
  preVote : bool;
  heartbeatTimeout : Z;
  electionTimeout : Z;
  randomizedElectionTimeout : Z;
  disableProposalForwarding : bool;
  tick : tickFunc;
  step : stepFunc;
  pendingReadIndexMessages : list Message;
  draws : nat
}.
Arguments mkRaft {St}.
Arguments rid {St}.
Arguments rTerm {St}.
Arguments rVote {St}.
Arguments readStates {St}.
Arguments rlog {St}.
Arguments maxMsgSize {St}.
Arguments maxUncommittedSize {St}.
Arguments prs {St}.
Arguments rstate {St}.
Arguments isLearner {St}.
Arguments msgs {St}.
Arguments lead {St}.
Arguments leadTransferee {St}.
Arguments pendingConfIndex {St}.
Arguments uncommittedSize {St}.
Arguments ro {St}.
Arguments electionElapsed {St}.
Arguments heartbeatElapsed {St}.
Arguments checkQuorum {St}.
Arguments preVote {St}.
Arguments heartbeatTimeout {St}.
Arguments electionTimeout {St}.
Arguments randomizedElectionTimeout {St}.
Arguments disableProposalForwarding {St}.
Arguments tick {St}.
Arguments step {St}.
Arguments pendingReadIndexMessages {St}.
Arguments draws {St}.

(** What is not under this repository's control: the random source, and
    [proto.Equal] of the protobuf library. *)
Class RaftEnv := {
  Intn : nat -> Z -> Z;
  Intn_range k n : 0 < n -> 0 <= Intn k n < n;
  Equal : ConfChangeV2 -> ConfChangeV2 -> bool
}.

Section raft_ops.
Context {St : Type} `{!Storage St} {rt : GoRuntime} {env : RaftEnv}.
#[local] Abbreviation raft := (raft St).
#[local] Abbreviation R := (M raft).

Definition set_rTerm (v : Z) (r : raft) : raft :=
  mkRaft (rid r) v (rVote r) (readStates r) (rlog r) (maxMsgSize r) (maxUncommittedSize r) (prs r) (rstate r)
    (isLearner r) (msgs r) (lead r) (leadTransferee r) (pendingConfIndex r) (uncommittedSize r) (ro r)
    (electionElapsed r) (heartbeatElapsed r) (checkQuorum r) (preVote r) (heartbeatTimeout r) (electionTimeout r)
    (randomizedElectionTimeout r) (disableProposalForwarding r) (tick r) (step r) (pendingReadIndexMessages r)
    (draws r).
Definition set_rVote (v : Z) (r : raft) : raft :=
  mkRaft (rid r) (rTerm r) v (readStates r) (rlog r) (maxMsgSize r) (maxUncommittedSize r) (prs r) (rstate r)
    (isLearner r) (msgs r) (lead r) (leadTransferee r) (pendingConfIndex r) (uncommittedSize r) (ro r)
    (electionElapsed r) (heartbeatElapsed r) (checkQuorum r) (preVote r) (heartbeatTimeout r) (electionTimeout r)
    (randomizedElectionTimeout r) (disableProposalForwarding r) (tick r) (step r) (pendingReadIndexMessages r)
    (draws r).
Definition set_readStates (v : list ReadState) (r : raft) : raft :=
  mkRaft (rid r) (rTerm r) (rVote r) v (rlog r) (maxMsgSize r) (maxUncommittedSize r) (prs r) (rstate r) (isLearner r)
    (msgs r) (lead r) (leadTransferee r) (pendingConfIndex r) (uncommittedSize r) (ro r) (electionElapsed r)
    (heartbeatElapsed r) (checkQuorum r) (preVote r) (heartbeatTimeout r) (electionTimeout r)
    (randomizedElectionTimeout r) (disableProposalForwarding r) (tick r) (step r) (pendingReadIndexMessages r)
    (draws r).
Definition set_rlog (v : raftLog St) (r : raft) : raft :=
  mkRaft (rid r) (rTerm r) (rVote r) (readStates r) v (maxMsgSize r) (maxUncommittedSize r) (prs r) (rstate r)
    (isLearner r) (msgs r) (lead r) (leadTransferee r) (pendingConfIndex r) (uncommittedSize r) (ro r)
    (electionElapsed r) (heartbeatElapsed r) (checkQuorum r) (preVote r) (heartbeatTimeout r) (electionTimeout r)
    (randomizedElectionTimeout r) (disableProposalForwarding r) (tick r) (step r) (pendingReadIndexMessages r)
    (draws r).
Definition set_prs (v : ProgressTracker) (r : raft) : raft :=
  mkRaft (rid r) (rTerm r) (rVote r) (readStates r) (rlog r) (maxMsgSize r) (maxUncommittedSize r) v (rstate r)
    (isLearner r) (msgs r) (lead r) (leadTransferee r) (pendingConfIndex r) (uncommittedSize r) (ro r)
    (electionElapsed r) (heartbeatElapsed r) (checkQuorum r) (preVote r) (heartbeatTimeout r) (electionTimeout r)
    (randomizedElectionTimeout r) (disableProposalForwarding r) (tick r) (step r) (pendingReadIndexMessages r)
    (draws r).
Definition set_rstate (v : RaftState) (r : raft) : raft :=
  mkRaft (rid r) (rTerm r) (rVote r) (readStates r) (rlog r) (maxMsgSize r) (maxUncommittedSize r) (prs r) v
    (isLearner r) (msgs r) (lead r) (leadTransferee r) (pendingConfIndex r) (uncommittedSize r) (ro r)
    (electionElapsed r) (heartbeatElapsed r) (checkQuorum r) (preVote r) (heartbeatTimeout r) (electionTimeout r)
    (randomizedElectionTimeout r) (disableProposalForwarding r) (tick r) (step r) (pendingReadIndexMessages r)
    (draws r).
Definition set_isLearner (v : bool) (r : raft) : raft :=
  mkRaft (rid r) (rTerm r) (rVote r) (readStates r) (rlog r) (maxMsgSize r) (maxUncommittedSize r) (prs r) (rstate r)
    v (msgs r) (lead r) (leadTransferee r) (pendingConfIndex r) (uncommittedSize r) (ro r) (electionElapsed r)
    (heartbeatElapsed r) (checkQuorum r) (preVote r) (heartbeatTimeout r) (electionTimeout r)
    (randomizedElectionTimeout r) (disableProposalForwarding r) (tick r) (step r) (pendingReadIndexMessages r)
    (draws r).
Definition set_msgs (v : list Message) (r : raft) : raft :=
  mkRaft (rid r) (rTerm r) (rVote r) (readStates r) (rlog r) (maxMsgSize r) (maxUncommittedSize r) (prs r) (rstate r)
    (isLearner r) v (lead r) (leadTransferee r) (pendingConfIndex r) (uncommittedSize r) (ro r) (electionElapsed r)
    (heartbeatElapsed r) (checkQuorum r) (preVote r) (heartbeatTimeout r) (electionTimeout r)
    (randomizedElectionTimeout r) (disableProposalForwarding r) (tick r) (step r) (pendingReadIndexMessages r)
    (draws r).
Definition set_lead (v : Z) (r : raft) : raft :=
  mkRaft (rid r) (rTerm r) (rVote r) (readStates r) (rlog r) (maxMsgSize r) (maxUncommittedSize r) (prs r) (rstate r)
    (isLearner r) (msgs r) v (leadTransferee r) (pendingConfIndex r) (uncommittedSize r) (ro r) (electionElapsed r)
    (heartbeatElapsed r) (checkQuorum r) (preVote r) (heartbeatTimeout r) (electionTimeout r)
    (randomizedElectionTimeout r) (disableProposalForwarding r) (tick r) (step r) (pendingReadIndexMessages r)
    (draws r).
Definition set_leadTransferee (v : Z) (r : raft) : raft :=
  mkRaft (rid r) (rTerm r) (rVote r) (readStates r) (rlog r) (maxMsgSize r) (maxUncommittedSize r) (prs r) (rstate r)
    (isLearner r) (msgs r) (lead r) v (pendingConfIndex r) (uncommittedSize r) (ro r) (electionElapsed r)
    (heartbeatElapsed r) (checkQuorum r) (preVote r) (heartbeatTimeout r) (electionTimeout r)
    (randomizedElectionTimeout r) (disableProposalForwarding r) (tick r) (step r) (pendingReadIndexMessages r)
    (draws r).
Definition set_pendingConfIndex (v : Z) (r : raft) : raft :=
  mkRaft (rid r) (rTerm r) (rVote r) (readStates r) (rlog r) (maxMsgSize r) (maxUncommittedSize r) (prs r) (rstate r)
    (isLearner r) (msgs r) (lead r) (leadTransferee r) v (uncommittedSize r) (ro r) (electionElapsed r)
    (heartbeatElapsed r) (checkQuorum r) (preVote r) (heartbeatTimeout r) (electionTimeout r)
    (randomizedElectionTimeout r) (disableProposalForwarding r) (tick r) (step r) (pendingReadIndexMessages r)
    (draws r).
Definition set_uncommittedSize (v : Z) (r : raft) : raft :=
  mkRaft (rid r) (rTerm r) (rVote r) (readStates r) (rlog r) (maxMsgSize r) (maxUncommittedSize r) (prs r) (rstate r)
    (isLearner r) (msgs r) (lead r) (leadTransferee r) (pendingConfIndex r) v (ro r) (electionElapsed r)
    (heartbeatElapsed r) (checkQuorum r) (preVote r) (heartbeatTimeout r) (electionTimeout r)
    (randomizedElectionTimeout r) (disableProposalForwarding r) (tick r) (step r) (pendingReadIndexMessages r)
    (draws r).
Definition set_ro (v : readOnly) (r : raft) : raft :=
  mkRaft (rid r) (rTerm r) (rVote r) (readStates r) (rlog r) (maxMsgSize r) (maxUncommittedSize r) (prs r) (rstate r)
    (isLearner r) (msgs r) (lead r) (leadTransferee r) (pendingConfIndex r) (uncommittedSize r) v (electionElapsed r)
    (heartbeatElapsed r) (checkQuorum r) (preVote r) (heartbeatTimeout r) (electionTimeout r)
    (randomizedElectionTimeout r) (disableProposalForwarding r) (tick r) (step r) (pendingReadIndexMessages r)
    (draws r).
Definition set_electionElapsed (v : Z) (r : raft) : raft :=
  mkRaft (rid r) (rTerm r) (rVote r) (readStates r) (rlog r) (maxMsgSize r) (maxUncommittedSize r) (prs r) (rstate r)
    (isLearner r) (msgs r) (lead r) (leadTransferee r) (pendingConfIndex r) (uncommittedSize r) (ro r) v
    (heartbeatElapsed r) (checkQuorum r) (preVote r) (heartbeatTimeout r) (electionTimeout r)
    (randomizedElectionTimeout r) (disableProposalForwarding r) (tick r) (step r) (pendingReadIndexMessages r)
    (draws r).
Definition set_heartbeatElapsed (v : Z) (r : raft) : raft :=
  mkRaft (rid r) (rTerm r) (rVote r) (readStates r) (rlog r) (maxMsgSize r) (maxUncommittedSize r) (prs r) (rstate r)
    (isLearner r) (msgs r) (lead r) (leadTransferee r) (pendingConfIndex r) (uncommittedSize r) (ro r)
    (electionElapsed r) v (checkQuorum r) (preVote r) (heartbeatTimeout r) (electionTimeout r)
    (randomizedElectionTimeout r) (disableProposalForwarding r) (tick r) (step r) (pendingReadIndexMessages r)
    (draws r).
Definition set_randomizedElectionTimeout (v : Z) (r : raft) : raft :=
  mkRaft (rid r) (rTerm r) (rVote r) (readStates r) (rlog r) (maxMsgSize r) (maxUncommittedSize r) (prs r) (rstate r)
    (isLearner r) (msgs r) (lead r) (leadTransferee r) (pendingConfIndex r) (uncommittedSize r) (ro r)
    (electionElapsed r) (heartbeatElapsed r) (checkQuorum r) (preVote r) (heartbeatTimeout r) (electionTimeout r) v
    (disableProposalForwarding r) (tick r) (step r) (pendingReadIndexMessages r) (draws r).
Definition set_tick (v : tickFunc) (r : raft) : raft :=
  mkRaft (rid r) (rTerm r) (rVote r) (readStates r) (rlog r) (maxMsgSize r) (maxUncommittedSize r) (prs r) (rstate r)
    (isLearner r) (msgs r) (lead r) (leadTransferee r) (pendingConfIndex r) (uncommittedSize r) (ro r)
    (electionElapsed r) (heartbeatElapsed r) (checkQuorum r) (preVote r) (heartbeatTimeout r) (electionTimeout r)
    (randomizedElectionTimeout r) (disableProposalForwarding r) v (step r) (pendingReadIndexMessages r) (draws r).
Definition set_step (v : stepFunc) (r : raft) : raft :=
  mkRaft (rid r) (rTerm r) (rVote r) (readStates r) (rlog r) (maxMsgSize r) (maxUncommittedSize r) (prs r) (rstate r)
    (isLearner r) (msgs r) (lead r) (leadTransferee r) (pendingConfIndex r) (uncommittedSize r) (ro r)
    (electionElapsed r) (heartbeatElapsed r) (checkQuorum r) (preVote r) (heartbeatTimeout r) (electionTimeout r)
    (randomizedElectionTimeout r) (disableProposalForwarding r) (tick r) v (pendingReadIndexMessages r) (draws r).
Definition set_pendingReadIndexMessages (v : list Message) (r : raft) : raft :=
  mkRaft (rid r) (rTerm r) (rVote r) (readStates r) (rlog r) (maxMsgSize r) (maxUncommittedSize r) (prs r) (rstate r)
    (isLearner r) (msgs r) (lead r) (leadTransferee r) (pendingConfIndex r) (uncommittedSize r) (ro r)
    (electionElapsed r) (heartbeatElapsed r) (checkQuorum r) (preVote r) (heartbeatTimeout r) (electionTimeout r)
    (randomizedElectionTimeout r) (disableProposalForwarding r) (tick r) (step r) v (draws r).
Definition set_draws (v : nat) (r : raft) : raft :=
  mkRaft (rid r) (rTerm r) (rVote r) (readStates r) (rlog r) (maxMsgSize r) (maxUncommittedSize r) (prs r) (rstate r)
    (isLearner r) (msgs r) (lead r) (leadTransferee r) (pendingConfIndex r) (uncommittedSize r) (ro r)
    (electionElapsed r) (heartbeatElapsed r) (checkQuorum r) (preVote r) (heartbeatTimeout r) (electionTimeout r)
    (randomizedElectionTimeout r) (disableProposalForwarding r) (tick r) (step r) (pendingReadIndexMessages r) v.

(** An operation on the log. *)
Definition log_lens : lens raft (raftLog St) := mkLens rlog set_rlog.
Abbreviation on_log m := (zoom log_lens m).
Definition ask_log {A} (f : raftLog St -> outcome A) : R A := r ← get; lift (f (rlog r)).

(** The next use of the order of a map, or of the random source; no operation
    goes over more than four maps. *)
Definition draw : R nat :=
  r ← get; modify (set_draws (4 + draws r)%nat);; mret (draws r).

(** [r.prs.Progress[id]], which is dereferenced. *)
Definition progress (id : Z) : R Progress :=
  r ← get; or_panic (tProgress (prs r) !! id).

Definition set_tProgress (p : ProgressMap) (t : ProgressTracker) : ProgressTracker :=
  mkTracker (tConfig t) p (Votes t) (MaxInflight t).

(** Assignment through the pointer to a progress. *)
Definition update_progress (id : Z) (f : Progress -> Progress) : R unit :=
  pr ← progress id;
  modify (fun r => set_prs (set_tProgress (<[id := f pr]> (tProgress (prs r))) (prs r)) r).

(** [r.prs.Visit(f)]. *)
Definition Visit (f : Z -> R unit) : R unit :=
  k ← draw;
  r ← get;
  order ← lift (visit_ids k (tProgress (prs r)));
  forM order f.

(* ===================================================================== *)
(** ** read_only.go                                                      *)
(* ===================================================================== *)

Definition newReadOnly (o : ReadOnlyOption) : readOnly := mkReadOnly o ∅ [].

(** [m.Entries[0].Data], as a []byte. *)
Definition entry0 (m : Message) : R (option bytes) := or_panic (eData <$> head (mtEntries m)).

(** [string(b)]. *)
Definition to_string (b : option bytes) : bytes := default [] b.

Definition addRequest (index : Z) (m : Message) : R unit :=
  d ← entry0 m;
  let s := to_string d in
  modify (fun r =>
    match pendingReadIndex (ro r) !! s with
    | Some _ => r
    | None => set_ro (mkReadOnly (roOption (ro r)) (<[s := mkReadIndexStatus m index ∅]> (pendingReadIndex (ro r)))
                                 (readIndexQueue (ro r) ++ [s])) r
    end).

Definition recvAck (id : Z) (context : option bytes) : R (gmap Z bool) :=
  r ← get;
  match pendingReadIndex (ro r) !! to_string context with
  | None => mret ∅
  | Some rs =>
      let acks' := <[id := true]> (acks rs) in
      modify (set_ro (mkReadOnly (roOption (ro r))
        (<[to_string context := mkReadIndexStatus (req rs) (risIndex rs) acks']> (pendingReadIndex (ro r)))
        (readIndexQueue (ro r))));;
      mret acks'
  end.

(** The loop of [advance]: the statuses up to the one with context [ctx], and the
    rest of the queue if there is one. *)
Fixpoint advance_loop (pending : gmap bytes readIndexStatus) (ctx : bytes) (queue : list bytes) :
    outcome (list readIndexStatus * option (list bytes)) :=
  match queue with
  | [] => Ret ([], None)
  | okctx :: queue' =>
      match pending !! okctx with
      | None => Panic
      | Some rs =>
          if beq okctx ctx then Ret ([rs], Some queue') else
          '(rss, rest) ← advance_loop pending ctx queue';
          Ret (rs :: rss, rest)
      end
  end.

Definition readOnly_advance (m : Message) : R (list readIndexStatus) :=
  r ← get;
  '(rss, rest) ← lift (advance_loop (pendingReadIndex (ro r)) (to_string (mtContext m)) (readIndexQueue (ro r)));
  match rest with
  | None => mret []
  | Some queue =>
      modify (set_ro (mkReadOnly (roOption (ro r)) (pendingReadIndex (ro r)) queue));;
      forM rss (fun rs =>
        d ← entry0 (req rs);
        modify (fun r => set_ro (mkReadOnly (roOption (ro r)) (delete (to_string d) (pendingReadIndex (ro r)))
                                            (readIndexQueue (ro r))) r));;
      mret rss
  end.

Definition lastPendingRequestCtx (o : readOnly) : bytes := default [] (last (readIndexQueue o)).

(* ===================================================================== *)
(** ** raft.go: sending                                                  *)
(* ===================================================================== *)

Definition hasLeader (r : raft) : bool := negb (lead r =? NoNode).

Definition get_hardState (r : raft) : HardState := mkHardState (rTerm r) (rVote r) (committed (rlog r)).

Definition is_vote_msg (t : MessageType) : bool :=
  match t with MsgVote | MsgVoteResp | MsgPreVote | MsgPreVoteResp => true | _ => false end.

Definition send (m : Message) : R unit :=
  r ← get;
  let m := if mtFrom m =? NoNode then set_mtFrom (rid r) m else m in
  m ← (if is_vote_msg (mtType m) then
         if mtTerm m =? 0 then panic else mret m
       else
         if negb (mtTerm m =? 0) then panic else
         mret (if bool_decide (mtType m <> MsgProp /\ mtType m <> MsgReadIndex) then set_mtTerm (rTerm r) m else m));
  if mtTo m =? rid r then panic else
  modify (fun r => set_msgs (msgs r ++ [m]) r).

Definition IsEmptySnap (s : Snapshot) : bool := sIndex s =? 0.

Definition maybeSendAppend (to : Z) (sendIfEmpty : bool) : R bool :=
  pr ← progress to;
  if IsPaused pr then mret false else
  r ← get;
  term ← ask_log (fun l => term l (u64 (Next pr - 1)));
  ents ← ask_log (fun l => get_entries l (Next pr) (maxMsgSize r));
  if (match ents with inl (_ :: _) => false | _ => true end) && negb sendIfEmpty then mret false else
  match term, ents with
  | inl term, inl ents =>
      (match last ents with
       | None => mret tt
       | Some e =>
           match State pr with
           | StateReplicate =>
               let last := eIndex e in
               infl ← lift (Add last (pInflights pr));
               update_progress to (fun pr => set_Inflights infl (OptimisticUpdate last pr))
           | StateProbe => update_progress to (set_ProbeSent true)
           | StateSnapshot => panic
           end
       end);;
      send (set_mtTo to (set_mtIndex (u64 (Next pr - 1)) (set_mtLogTerm term (set_mtEntries ents
              (set_mtCommit (committed (rlog r)) (msg MsgApp))))));;
      mret true
  | _, _ =>
      if negb (RecentActive pr) then mret false else
      snapshot ← ask_log get_snapshot;
      match snapshot with
      | inr ErrSnapshotTemporarilyUnavailable => mret false
      | inr _ => panic
      | inl snapshot =>
          if IsEmptySnap snapshot then panic else
          ask_log firstIndex;;
          update_progress to (BecomeSnapshot (sIndex snapshot));;
          send (set_mtTo to (set_mtSnapshot snapshot (msg MsgSnap)));;
          mret true
      end
  end.

Definition sendAppend (to : Z) : R unit := maybeSendAppend to true;; mret tt.

Definition sendHeartbeat (to : Z) (ctx : option bytes) : R unit :=
  pr ← progress to;
  r ← get;
  send (set_mtTo to (set_mtCommit (Z.min (Match pr) (committed (rlog r))) (set_mtContext ctx (msg MsgHeartbeat)))).

Definition bcastAppend : R unit :=
  r ← get;
  Visit (fun id => if id =? rid r then mret tt else sendAppend id).

Definition bcastHeartbeatWithCtx (ctx : option bytes) : R unit :=
  r ← get;
  Visit (fun id => if id =? rid r then mret tt else sendHeartbeat id ctx).

Definition bcastHeartbeat : R unit :=
  r ← get;
  let lastCtx := lastPendingRequestCtx (ro r) in
  if zlen lastCtx =? 0 then bcastHeartbeatWithCtx None else bcastHeartbeatWithCtx (Some lastCtx).

Definition sendTimeoutNow (to : Z) : R unit := send (set_mtTo to (msg MsgTimeoutNow)).

(* ===================================================================== *)
(** ** raft.go: the log of a leader                                      *)
(* ===================================================================== *)

Definition maybeCommit : R bool :=
  k ← draw;
  r ← get;
  mci ← lift (Committed k (prs r));
  on_log (RaftLog.maybeCommit mci (rTerm r)).

Definition PayloadSize (e : Entry) : Z := zlen (default [] (eData e)).

(** The sum of the payloads, a [uint64]. *)
Definition payload (ents : list Entry) : Z := fold_left (fun s e => u64 (s + PayloadSize e)) ents 0.

Definition increaseUncommittedSize (ents : list Entry) : R bool :=
  r ← get;
  let s := payload ents in
  if (0 <? uncommittedSize r) && (0 <? s) && (maxUncommittedSize r <? u64 (uncommittedSize r + s)) then mret false
  else modify (set_uncommittedSize (u64 (uncommittedSize r + s)));; mret true.

Definition reduceUncommittedSize (ents : list Entry) : R unit :=
  r ← get;
  if uncommittedSize r =? 0 then mret tt else
  let s := payload ents in
  modify (set_uncommittedSize (if uncommittedSize r <? s then 0 else uncommittedSize r - s)).

Definition appendEntry (es : list Entry) : R bool :=
  r ← get;
  li ← ask_log lastIndex;
  let es := imap (fun i e => mkEntry (rTerm r) (u64 (li + 1 + Z.of_nat i)) (eType e) (eData e)) es in
  accepted ← increaseUncommittedSize es;
  if (accepted : bool) then on_log (RaftLog.append es);; mret true else mret false.

Definition numOfPendingConf (ents : list Entry) : Z :=
  zlen (filter (fun e => eType e = EntryConfChange \/ eType e = EntryConfChangeV2) ents).

(* ===================================================================== *)
(** ** raft.go: roles                                                    *)
(* ===================================================================== *)

Definition pastElectionTimeout (r : raft) : bool := randomizedElectionTimeout r <=? electionElapsed r.

(** [Intn] panics if its argument is not positive. *)
Definition resetRandomizedElectionTimeout : R unit :=
  r ← get;
  if electionTimeout r <=? 0 then panic else
  k ← draw;
  modify (set_randomizedElectionTimeout (i64 (electionTimeout r + Intn k (electionTimeout r)))).

Definition abortLeaderTransfer : R unit := modify (set_leadTransferee NoNode).

Definition reset (term : Z) : R unit :=
  r ← get;
  (if rTerm r =? term then mret tt else modify (fun r => set_rVote NoNode (set_rTerm term r)));;
  modify (set_lead NoNode);;
  modify (set_electionElapsed 0);;
  modify (set_heartbeatElapsed 0);;
  resetRandomizedElectionTimeout;;
  abortLeaderTransfer;;
  modify (fun r => set_prs (ResetVotes (prs r)) r);;
  Visit (fun id =>
    li ← ask_log lastIndex;
    update_progress id (fun pr =>
      mkProgress (if id =? rid r then li else 0) (u64 (li + 1)) StateProbe 0 false false
        (NewInflights (MaxInflight (prs r))) (IsLearner pr)));;
  modify (set_pendingConfIndex 0);;
  modify (set_uncommittedSize 0);;
  modify (fun r => set_ro (newReadOnly (roOption (ro r))) r).

Definition becomeFollower (term lead : Z) : R unit :=
  modify (set_step stepFollower_f);;
  reset term;;
  modify (set_tick tickElection_f);;
  modify (set_lead lead);;
  modify (set_rstate StateFollower).

Definition becomeCandidate : R unit :=
  r ← get;
  if bool_decide (rstate r = StateLeader) then panic else
  modify (set_step stepCandidate_f);;
  reset (u64 (rTerm r + 1));;
  modify (set_tick tickElection_f);;
  modify (set_rVote (rid r));;
  modify (set_rstate StateCandidate).

Definition becomePreCandidate : R unit :=
  r ← get;
  if bool_decide (rstate r = StateLeader) then panic else
  modify (set_step stepCandidate_f);;
  modify (fun r => set_prs (ResetVotes (prs r)) r);;
  modify (set_tick tickElection_f);;
  modify (set_lead NoNode);;
  modify (set_rstate StatePreCandidate).

Definition becomeLeader : R unit :=
  r ← get;
  if bool_decide (rstate r = StateFollower) then panic else
  modify (set_step stepLeader_f);;
  reset (rTerm r);;
  modify (set_tick tickHeartbeat_f);;
  modify (set_lead (rid r));;
  modify (set_rstate StateLeader);;
  update_progress (rid r) (fun pr => set_RecentActive true (BecomeReplicate pr));;
  li ← ask_log lastIndex;
  modify (set_pendingConfIndex li);;
  accepted ← appendEntry [zero_entry];
  if negb accepted then panic else
  reduceUncommittedSize [zero_entry].

Definition promotable (r : raft) : bool :=
  match tProgress (prs r) !! rid r with
  | Some pr => negb (IsLearner pr) && negb (hasPendingSnapshot (rlog r))
  | None => false
  end.

Definition poll (id : Z) (v : bool) : R (Z * Z * VoteResult) :=
  modify (fun r => set_prs (RecordVote id v (prs r)) r);;
  k ← draw;
  r ← get;
  mret (TallyVotes k (prs r)).

(** The vote requests of a campaign. *)
Definition request_votes (t : CampaignType) (voteMsg : MessageType) (term : Z) : R unit :=
  r ← get;
  forM (Slice (IDs (Voters (tConfig (prs r))))) (fun id =>
    if id =? rid r then mret tt else
    lastTerm ← ask_log lastTerm;
    lastIndex ← ask_log lastIndex;
    let ctx := if bool_decide (t = campaignTransfer) then Some (CampaignType_bytes t) else None in
    send (set_mtTerm term (set_mtTo id (set_mtIndex lastIndex (set_mtLogTerm lastTerm
            (set_mtContext ctx (msg voteMsg))))))).

(** [campaign] for an election: the node votes for itself and asks the others. *)
Definition campaign_election (t : CampaignType) : R unit :=
  becomeCandidate;;
  r ← get;
  '(_, _, res) ← poll (rid r) true;
  if bool_decide (res = VoteWon) then becomeLeader else request_votes t MsgVote (rTerm r).

Definition campaign (t : CampaignType) : R unit :=
  if bool_decide (t = campaignPreElection) then
    becomePreCandidate;;
    r ← get;
    '(_, _, res) ← poll (rid r) true;
    if bool_decide (res = VoteWon) then campaign_election campaignElection
    else request_votes t MsgPreVote (u64 (rTerm r + 1))
  else campaign_election t.

Definition hup (t : CampaignType) : R unit :=
  r ← get;
  if bool_decide (rstate r = StateLeader) then mret tt else
  if negb (promotable r) then mret tt else
  ents ← ask_log (fun l => slice l (u64 (applied l + 1)) (u64 (committed l + 1)) noLimit);
  ents ← lift (must ents);
  if negb (numOfPendingConf ents =? 0) && (applied (rlog r) <? committed (rlog r)) then mret tt else
  campaign t.

(* ===================================================================== *)
(** ** raft.go: configuration                                            *)
(* ===================================================================== *)

(** [ConfState.Equivalent]. *)
Definition sort_ids (l : list Z) : list Z := merge_sort Z.le l.
Definition Equivalent (cs1 cs2 : ConfState) : bool :=
  let s cs := mkConfState (sort_ids (csVoters cs)) (sort_ids (csLearners cs)) (sort_ids (csVotersOutgoing cs))
                          (sort_ids (csLearnersNext cs)) (csAutoLeave cs) in
  bool_decide (s cs1 = s cs2).

Definition assertConfStatesEquivalent (cs1 cs2 : ConfState) : R unit :=
  if Equivalent cs1 cs2 then mret tt else panic.

Definition switchToConfig (cfg : Config) (ps : ProgressMap) : R ConfState :=
  modify (fun r => set_prs (mkTracker cfg ps (Votes (prs r)) (MaxInflight (prs r))) r);;
  r ← get;
  let cs := tracker_ConfState (prs r) in
  let learner := match tProgress (prs r) !! rid r with Some pr => IsLearner pr | None => false end in
  modify (set_isLearner learner);;
  if (bool_decide (tProgress (prs r) !! rid r = None) || learner) && bool_decide (rstate r = StateLeader) then mret cs else
  if negb (bool_decide (rstate r = StateLeader)) || (zlen (csVoters cs) =? 0) then mret cs else
  changed ← maybeCommit;
  (if (changed : bool) then bcastAppend
   else Visit (fun id => if id =? rid r then mret tt else maybeSendAppend id false;; mret tt));;
  r ← get;
  (if bool_decide (leadTransferee r ∉ IDs (Voters (tConfig (prs r)))) && negb (leadTransferee r =? 0)
   then abortLeaderTransfer else mret tt);;
  mret cs.

Definition applyConfChange (cc : ConfChangeV2) : R ConfState :=
  r ← get;
  li ← ask_log lastIndex;
  let changer := mkChanger (prs r) li in
  res ← (if V2_LeaveJoint Equal cc then mret (LeaveJoint changer) else
         '(autoLeave, ok) ← lift (V2_EnterJoint cc);
         mret (if (ok : bool) then EnterJoint changer autoLeave (Changes cc) else Simple changer (Changes cc)));
  '(cfg, ps) ← or_panic res;
  switchToConfig cfg ps.

Definition loadState (st : HardState) : R unit :=
  r ← get;
  li ← ask_log lastIndex;
  if (hCommit st <? committed (rlog r)) || (li <? hCommit st) then panic else
  modify (fun r => set_rVote (hVote st) (set_rTerm (hTerm st) (set_rlog (set_committed (hCommit st) (rlog r)) r))).

(* ===================================================================== *)
(** ** raft.go: reads                                                    *)
(* ===================================================================== *)

Definition committedEntryInCurrentTerm : R bool :=
  r ← get;
  t ← ask_log (fun l => term l (committed l));
  t ← lift (zeroTermOnErrCompacted t);
  mret (t =? rTerm r).

Definition responseToReadIndexReq (rq : Message) (readIndex : Z) : R Message :=
  r ← get;
  if (mtFrom rq =? NoNode) || (mtFrom rq =? rid r) then
    d ← entry0 rq;
    modify (fun r => set_readStates (readStates r ++ [mkReadState readIndex d]) r);;
    mret (msg MsgHup)
  else mret (set_mtTo (mtFrom rq) (set_mtIndex readIndex (set_mtEntries (mtEntries rq) (msg MsgReadIndexResp)))).

(** [if resp := r.responseToReadIndexReq(req, index); resp.To != None { r.send(resp) }]. *)
Definition respond (rq : Message) (readIndex : Z) : R unit :=
  resp ← responseToReadIndexReq rq readIndex;
  if mtTo resp =? NoNode then mret tt else send resp.

Definition sendMsgReadIndexResponse (m : Message) : R unit :=
  r ← get;
  match roOption (ro r) with
  | ReadOnlySafe =>
      addRequest (committed (rlog r)) m;;
      d ← entry0 m;
      recvAck (rid r) d;;
      bcastHeartbeatWithCtx d
  | ReadOnlyLeaseBased => respond m (committed (rlog r))
  end.

Definition releasePendingReadIndexMessages : R unit :=
  r ← get;
  if zlen (pendingReadIndexMessages r) =? 0 then mret tt else
  ok ← committedEntryInCurrentTerm;
  if negb ok then mret tt else
  modify (set_pendingReadIndexMessages []);;
  forM (pendingReadIndexMessages r) sendMsgReadIndexResponse.

(* ===================================================================== *)
(** ** raft.go: a follower's messages                                    *)
(* ===================================================================== *)

Definition handleAppendEntries (m : Message) : R unit :=
  r ← get;
  if mtIndex m <? committed (rlog r) then
    send (set_mtTo (mtFrom m) (set_mtIndex (committed (rlog r)) (msg MsgAppResp)))
  else
    '(mlastIndex, ok) ← on_log (maybeAppend (mtIndex m) (mtLogTerm m) (mtCommit m) (mtEntries m));
    if (ok : bool) then send (set_mtTo (mtFrom m) (set_mtIndex mlastIndex (msg MsgAppResp)))
    else
      t ← ask_log (fun l => term l (mtIndex m));
      lift (zeroTermOnErrCompacted t);;
      li ← ask_log lastIndex;
      hintIndex ← ask_log (fun l => findConflictByTerm l (Z.min (mtIndex m) li) (mtLogTerm m));
      hintTerm ← ask_log (fun l => term l hintIndex);
      hintTerm ← lift (must hintTerm);
      send (set_mtTo (mtFrom m) (set_mtIndex (mtIndex m) (set_mtReject true (set_mtRejectHint hintIndex
              (set_mtLogTerm hintTerm (msg MsgAppResp)))))).

Definition handleHeartbeat (m : Message) : R unit :=
  on_log (commitTo (mtCommit m));;
  send (set_mtTo (mtFrom m) (set_mtContext (mtContext m) (msg MsgHeartbeatResp))).

Definition restore (s : Snapshot) : R bool :=
  r ← get;
  if sIndex s <=? committed (rlog r) then mret false else
  if negb (bool_decide (rstate r = StateFollower)) then
    becomeFollower (u64 (rTerm r + 1)) NoNode;; mret false
  else
  let cs := mConfState (sMetadata s) in
  let found := bool_decide (rid r ∈ csVoters cs) || bool_decide (rid r ∈ csLearners cs)
               || bool_decide (rid r ∈ csVotersOutgoing cs) in
  if negb found then mret false else
  matches ← ask_log (fun l => matchTerm l (sIndex s) (sTerm s));
  if (matches : bool) then
    ask_log lastIndex;; ask_log lastTerm;;
    on_log (commitTo (sIndex s));; mret false
  else
    on_log (RaftLog.restore s);;
    modify (fun r => set_prs (MakeProgressTracker (MaxInflight (prs r))) r);;
    r ← get;
    li ← ask_log lastIndex;
    '(cfg, ps) ← or_panic (Restore (mkChanger (prs r) li) cs);
    cs' ← switchToConfig cfg ps;
    assertConfStatesEquivalent cs cs';;
    update_progress (rid r) (fun pr => snd (MaybeUpdate (u64 (Next pr - 1)) pr));;
    ask_log lastIndex;; ask_log lastTerm;;
    mret true.

Definition handleSnapshot (m : Message) : R unit :=
  restored ← restore (mtSnapshot m);
  if (restored : bool) then
    li ← ask_log lastIndex;
    send (set_mtTo (mtFrom m) (set_mtIndex li (msg MsgAppResp)))
  else
    r ← get;
    send (set_mtTo (mtFrom m) (set_mtIndex (committed (rlog r)) (msg MsgAppResp))).

(** The error [ErrProposalDropped] of a step, if any. *)
Inductive step_error : Type := ErrProposalDropped.
Abbreviation stepped := (R (option step_error)).
Definition fine : stepped := mret None.
Definition dropped : stepped := mret (Some ErrProposalDropped).

Definition stepFollower (m : Message) : stepped :=
  r ← get;
  match mtType m with
  | MsgProp =>
      if lead r =? NoNode then dropped else
      if disableProposalForwarding r then dropped else
      send (set_mtTo (lead r) m);; fine
  | MsgApp =>
      modify (set_electionElapsed 0);; modify (set_lead (mtFrom m));;
      handleAppendEntries m;; fine
  | MsgHeartbeat =>
      modify (set_electionElapsed 0);; modify (set_lead (mtFrom m));;
      handleHeartbeat m;; fine
  | MsgSnap =>
      modify (set_electionElapsed 0);; modify (set_lead (mtFrom m));;
      handleSnapshot m;; fine
  | MsgTransferLeader =>
      if lead r =? NoNode then fine else send (set_mtTo (lead r) m);; fine
  | MsgTimeoutNow => hup campaignTransfer;; fine
  | MsgReadIndex =>
      if lead r =? NoNode then fine else send (set_mtTo (lead r) m);; fine
  | MsgReadIndexResp =>
      match mtEntries m with
      | [e] => modify (fun r => set_readStates (readStates r ++ [mkReadState (mtIndex m) (eData e)]) r);; fine
      | _ => fine
      end
  | _ => fine
  end.

(** The votes that count for a candidate or a pre-candidate. *)
Definition count_vote (m : Message) : R unit :=
  r ← get;
  '(_, _, res) ← poll (mtFrom m) (negb (mtReject m));
  match res with
  | VoteWon =>
      if bool_decide (rstate r = StatePreCandidate) then campaign campaignElection
      else becomeLeader;; bcastAppend
  | VoteLost => becomeFollower (rTerm r) NoNode
  | VotePending => mret tt
  end.

Definition stepCandidate (m : Message) : stepped :=
  r ← get;
  let myVoteRespType := if bool_decide (rstate r = StatePreCandidate) then MsgPreVoteResp else MsgVoteResp in
  match mtType m with
  | MsgProp => dropped
  | MsgApp => becomeFollower (mtTerm m) (mtFrom m);; handleAppendEntries m;; fine
  | MsgHeartbeat => becomeFollower (mtTerm m) (mtFrom m);; handleHeartbeat m;; fine
  | MsgSnap => becomeFollower (mtTerm m) (mtFrom m);; handleSnapshot m;; fine
  | _ => if bool_decide (mtType m = myVoteRespType) then count_vote m;; fine else fine
  end.

(* ===================================================================== *)
(** ** raft.go: a leader's messages                                      *)
(* ===================================================================== *)

(** [ccc.Unmarshal(data)] with [panic(err)]. *)
Definition unmarshalled {A} (d : dec A) : R A :=
  match d with
  | DOk a => mret a
  | DErr _ | DPanic => panic
  | DSpin => block
  end.

(** The configuration change in an entry, as a [ConfChangeV2]. *)
Definition proposed_change (e : Entry) : R (option ConfChangeV2) :=
  match eType e with
  | EntryConfChange =>
      cc ← unmarshalled (ConfChange_Unmarshal (to_string (eData e)) zero_ConfChange);
      mret (Some (AsV2 cc))
  | EntryConfChangeV2 =>
      cc ← unmarshalled (ConfChangeV2_Unmarshal (to_string (eData e)) zero_ConfChangeV2);
      mret (Some cc)
  | _ => mret None
  end.

(** The loop over the entries of a proposal: a configuration change that is not
    allowed now is replaced by an empty entry. *)
Fixpoint screen_entries (i : Z) (es : list Entry) : R (list Entry) :=
  match es with
  | [] => mret []
  | e :: es' =>
      cc ← proposed_change e;
      e' ← match cc with
           | None => mret e
           | Some cc =>
               r ← get;
               let alreadyPending := applied (rlog r) <? pendingConfIndex r in
               let alreadyJoint := 0 <? Z.of_nat (size (ids (VotersOut (tConfig (prs r))))) in
               let wantsLeaveJoint := zlen (Changes cc) =? 0 in
               if alreadyPending || (alreadyJoint && negb wantsLeaveJoint) || (negb alreadyJoint && wantsLeaveJoint)
               then mret zero_entry
               else
                 li ← ask_log lastIndex;
                 modify (set_pendingConfIndex (u64 (li + i + 1)));;
                 mret e
           end;
      es'' ← screen_entries (i + 1) es';
      mret (e' :: es'')
  end.

Definition leader_prop (m : Message) : stepped :=
  if zlen (mtEntries m) =? 0 then panic else
  r ← get;
  if bool_decide (tProgress (prs r) !! rid r = None) then dropped else
  if negb (leadTransferee r =? NoNode) then dropped else
  es ← screen_entries 0 (mtEntries m);
  accepted ← appendEntry es;
  if (accepted : bool) then bcastAppend;; fine else dropped.

Definition leader_readIndex (m : Message) : stepped :=
  r ← get;
  if IsSingleton (prs r) then respond m (committed (rlog r));; fine else
  ok ← committedEntryInCurrentTerm;
  if negb ok then modify (fun r => set_pendingReadIndexMessages (pendingReadIndexMessages r ++ [m]) r);; fine
  else sendMsgReadIndexResponse m;; fine.

(** [for r.maybeSendAppend(to, false) {}]. *)
Fixpoint send_all (fuel : nat) (to : Z) : R unit :=
  match fuel with
  | O => block
  | S fuel' =>
      sent ← maybeSendAppend to false;
      if (sent : bool) then send_all fuel' to else mret tt
  end.

(** Every message but the last one takes a slot of the window. *)
Definition send_fuel (pr : Progress) : nat := 2 + Z.to_nat (isize (pInflights pr) - count (pInflights pr)).

Definition leader_rejected (m : Message) : R unit :=
  nextProbeIdx ← (if 0 <? mtLogTerm m then ask_log (fun l => findConflictByTerm l (mtRejectHint m) (mtLogTerm m))
                  else mret (mtRejectHint m));
  pr ← progress (mtFrom m);
  let '(decreased, pr) := MaybeDecrTo (mtIndex m) nextProbeIdx pr in
  update_progress (mtFrom m) (fun _ => pr);;
  if negb decreased then mret tt else
  (if bool_decide (State pr = StateReplicate) then update_progress (mtFrom m) BecomeProbe else mret tt);;
  sendAppend (mtFrom m).

Definition leader_acked (m : Message) : R unit :=
  pr ← progress (mtFrom m);
  let oldPaused := IsPaused pr in
  let '(updated, pr) := MaybeUpdate (mtIndex m) pr in
  update_progress (mtFrom m) (fun _ => pr);;
  if negb updated then mret tt else
  (match State pr with
   | StateProbe => update_progress (mtFrom m) BecomeReplicate
   | StateSnapshot =>
       if PendingSnapshot pr <=? Match pr then update_progress (mtFrom m) (fun pr => BecomeReplicate (BecomeProbe pr))
       else mret tt
   | StateReplicate =>
       infl ← lift (FreeLE (mtIndex m) (pInflights pr));
       update_progress (mtFrom m) (set_Inflights infl)
   end);;
  changed ← maybeCommit;
  (if (changed : bool) then releasePendingReadIndexMessages;; bcastAppend
   else if oldPaused then sendAppend (mtFrom m) else mret tt);;
  r ← get;
  (if negb (rid r =? mtFrom m) then
     pr ← progress (mtFrom m);
     send_all (send_fuel pr) (mtFrom m)
   else mret tt);;
  if negb (mtFrom m =? leadTransferee r) then mret tt else
  pr ← progress (mtFrom m);
  li ← ask_log lastIndex;
  if Match pr =? li then sendTimeoutNow (mtFrom m) else mret tt.

Definition leader_heartbeatResp (m : Message) : R unit :=
  update_progress (mtFrom m) (fun pr => set_ProbeSent false (set_RecentActive true pr));;
  pr ← progress (mtFrom m);
  (if bool_decide (State pr = StateReplicate) && Full (pInflights pr) then
     infl ← lift (FreeFirstOne (pInflights pr));
     update_progress (mtFrom m) (set_Inflights infl)
   else mret tt);;
  li ← ask_log lastIndex;
  (if Match pr <? li then sendAppend (mtFrom m) else mret tt);;
  r ← get;
  if negb (bool_decide (roOption (ro r) = ReadOnlySafe)) || (zlen (to_string (mtContext m)) =? 0) then mret tt else
  acks ← recvAck (mtFrom m) (mtContext m);
  k ← draw;
  if negb (bool_decide (joint_VoteResult k (Voters (tConfig (prs r))) acks = VoteWon)) then mret tt else
  rss ← readOnly_advance m;
  forM rss (fun rs => respond (req rs) (risIndex rs)).

Definition leader_snapStatus (m : Message) : R unit :=
  pr ← progress (mtFrom m);
  if negb (bool_decide (State pr = StateSnapshot)) then mret tt else
  update_progress (mtFrom m) (fun pr =>
    set_ProbeSent true (BecomeProbe (if mtReject m then set_PendingSnapshot 0 pr else pr))).

Definition leader_transfer (m : Message) : R unit :=
  pr ← progress (mtFrom m);
  if IsLearner pr then mret tt else
  r ← get;
  let leadTransferee' := mtFrom m in
  if negb (leadTransferee r =? NoNode) && (leadTransferee r =? leadTransferee') then mret tt else
  (if negb (leadTransferee r =? NoNode) then abortLeaderTransfer else mret tt);;
  if leadTransferee' =? rid r then mret tt else
  modify (set_electionElapsed 0);;
  modify (set_leadTransferee leadTransferee');;
  li ← ask_log lastIndex;
  if Match pr =? li then sendTimeoutNow leadTransferee' else sendAppend leadTransferee'.

Definition stepLeader (m : Message) : stepped :=
  r ← get;
  match mtType m with
  | MsgBeat => bcastHeartbeat;; fine
  | MsgCheckQuorum =>
      k ← draw;
      active ← lift (QuorumActive k (prs r));
      (if (active : bool) then mret tt else becomeFollower (rTerm r) NoNode);;
      Visit (fun id => if id =? rid r then mret tt else update_progress id (set_RecentActive false));;
      fine
  | MsgProp => leader_prop m
  | MsgReadIndex => leader_readIndex m
  | _ =>
      match tProgress (prs r) !! mtFrom m with
      | None => fine
      | Some _ =>
          match mtType m with
          | MsgAppResp =>
              update_progress (mtFrom m) (set_RecentActive true);;
              (if mtReject m then leader_rejected m else leader_acked m);; fine
          | MsgHeartbeatResp => leader_heartbeatResp m;; fine
          | MsgSnapStatus => leader_snapStatus m;; fine
          | MsgUnreachable =>
              pr ← progress (mtFrom m);
              (if bool_decide (State pr = StateReplicate) then update_progress (mtFrom m) BecomeProbe else mret tt);; fine
          | MsgTransferLeader => leader_transfer m;; fine
          | _ => fine
          end
      end
  end.

(* ===================================================================== *)
(** ** raft.go: Step                                                     *)
(* ===================================================================== *)

Definition voteRespMsgType (t : MessageType) : outcome MessageType :=
  match t with MsgVote => Ret MsgVoteResp | MsgPreVote => Ret MsgPreVoteResp | _ => Panic end.

(** The values that the log lines about votes print. *)
Definition log_position : R unit := ask_log lastTerm;; ask_log lastIndex;; mret tt.

(** The handling of the term of a message; [false] if the step ends here. *)
Definition step_term (m : Message) : R bool :=
  r ← get;
  if mtTerm m =? 0 then mret true else
  if rTerm r <? mtTerm m then
    let force := beq (to_string (mtContext m)) (CampaignType_bytes campaignTransfer) in
    let inLease := checkQuorum r && hasLeader r && (electionElapsed r <? electionTimeout r) in
    if bool_decide (mtType m = MsgVote \/ mtType m = MsgPreVote) && (negb force && inLease) then
      log_position;; mret false
    else
      match mtType m with
      | MsgPreVote => mret true
      | MsgApp | MsgHeartbeat | MsgSnap => becomeFollower (mtTerm m) (mtFrom m);; mret true
      | MsgPreVoteResp =>
          if negb (mtReject m) then mret true else becomeFollower (mtTerm m) NoNode;; mret true
      | _ => becomeFollower (mtTerm m) NoNode;; mret true
      end
  else if mtTerm m <? rTerm r then
    (if (checkQuorum r || preVote r) && bool_decide (mtType m = MsgHeartbeat \/ mtType m = MsgApp) then
       send (set_mtTo (mtFrom m) (msg MsgAppResp))
     else if bool_decide (mtType m = MsgPreVote) then
       log_position;;
       send (set_mtTo (mtFrom m) (set_mtTerm (rTerm r) (set_mtReject true (msg MsgPreVoteResp))))
     else mret tt);;
    mret false
  else mret true.

(** A request for a vote. *)
Definition cast_vote (m : Message) : R unit :=
  r ← get;
  let canVote := (rVote r =? mtFrom m) || ((rVote r =? NoNode) && (lead r =? NoNode)) ||
                 (bool_decide (mtType m = MsgPreVote) && (rTerm r <? mtTerm m)) in
  granted ← (if canVote then ask_log (fun l => isUpToDate l (mtIndex m) (mtLogTerm m)) else mret false);
  log_position;;
  resp ← lift (voteRespMsgType (mtType m));
  if (granted : bool) then
    send (set_mtTo (mtFrom m) (set_mtTerm (mtTerm m) (msg resp)));;
    if bool_decide (mtType m = MsgVote) then
      modify (set_electionElapsed 0);; modify (set_rVote (mtFrom m))
    else mret tt
  else send (set_mtTo (mtFrom m) (set_mtTerm (rTerm r) (set_mtReject true (msg resp)))).

(** [r.step(r, m)]. *)
Definition call_step (m : Message) : stepped :=
  r ← get;
  match step r with
  | NilStep => panic
  | stepFollower_f => stepFollower m
  | stepCandidate_f => stepCandidate m
  | stepLeader_f => stepLeader m
  end.

Definition Step (m : Message) : stepped :=
  continue ← step_term m;
  if negb continue then fine else
  match mtType m with
  | MsgHup => r ← get; hup (if preVote r then campaignPreElection else campaignElection);; fine
  | MsgVote | MsgPreVote => cast_vote m;; fine
  | _ => call_step m
  end.

(* ===================================================================== *)
(** ** raft.go: ticks                                                    *)
(* ===================================================================== *)

Definition tickElection : R unit :=
  modify (fun r => set_electionElapsed (i64 (electionElapsed r + 1)) r);;
  r ← get;
  if promotable r && pastElectionTimeout r then
    modify (set_electionElapsed 0);;
    Step (set_mtFrom (rid r) (msg MsgHup));; mret tt
  else mret tt.

Definition tickHeartbeat : R unit :=
  modify (fun r => set_heartbeatElapsed (i64 (heartbeatElapsed r + 1)) r);;
  modify (fun r => set_electionElapsed (i64 (electionElapsed r + 1)) r);;
  r ← get;
  (if electionTimeout r <=? electionElapsed r then
     modify (set_electionElapsed 0);;
     (if checkQuorum r then Step (set_mtFrom (rid r) (msg MsgCheckQuorum));; mret tt else mret tt);;
     r ← get;
     if bool_decide (rstate r = StateLeader) && negb (leadTransferee r =? NoNode) then abortLeaderTransfer else mret tt
   else mret tt);;
  r ← get;
  if negb (bool_decide (rstate r = StateLeader)) then mret tt else
  if heartbeatTimeout r <=? heartbeatElapsed r then
    modify (set_heartbeatElapsed 0);;
    Step (set_mtFrom (rid r) (msg MsgBeat));; mret tt
  else mret tt.

(** [r.tick()]. *)
Definition call_tick : R unit :=
  r ← get;
  match tick r with
  | NilTick => panic
  | tickElection_f => tickElection
  | tickHeartbeat_f => tickHeartbeat
  end.

(* ===================================================================== *)
(** ** raft.go: a round of the event loop (node.go: Ready)               *)
(* ===================================================================== *)

Record SoftState : Type := mkSoftState { Lead : Z; rdState : RaftState }.

#[export] Instance SoftState_eq_dec : EqDecision SoftState.
Proof. solve_decision. Defined.

Definition get_softState (r : raft) : SoftState := mkSoftState (lead r) (rstate r).

Record Ready : Type := mkReady {
  rdSoftState : option SoftState;
  rdHardState : HardState;
  rdReadStates : list ReadState;
  rdEntries : list Entry;
  rdSnapshot : Snapshot;
  rdCommittedEntries : list Entry;
  rdMessages : list Message;
  rdMustSync : bool
}.

Definition isHardStateEqual (a b : HardState) : bool :=
  (hTerm a =? hTerm b) && (hVote a =? hVote b) && (hCommit a =? hCommit b).

Definition IsEmptyHardState (st : HardState) : bool := isHardStateEqual st zero_HardState.

Definition MustSync (st prevst : HardState) (entsnum : Z) : bool :=
  negb (entsnum =? 0) || negb (hVote st =? hVote prevst) || negb (hTerm st =? hTerm prevst).

Definition newReady (r : raft) (prevSoftSt : SoftState) (prevHardSt : HardState) : outcome Ready :=
  committedEntries ← nextEnts (rlog r);
  let ents := unstableEntries (rlog r) in
  Ret (mkReady (if bool_decide (get_softState r = prevSoftSt) then None else Some (get_softState r))
         (if isHardStateEqual (get_hardState r) prevHardSt then zero_HardState else get_hardState r)
         (readStates r) ents
         (default zero_Snapshot (usnapshot (unst (rlog r))))
         committedEntries (msgs r)
         (MustSync (get_hardState r) prevHardSt (zlen ents))).

Definition appliedCursor (rd : Ready) : Z :=
  match last (rdCommittedEntries rd) with
  | Some e => eIndex e
  | None => if 0 <? sIndex (rdSnapshot rd) then sIndex (rdSnapshot rd) else 0
  end.

Definition advance (rd : Ready) : R unit :=
  reduceUncommittedSize (rdCommittedEntries rd);;
  r ← get;
  let newApplied := appliedCursor rd in
  (if 0 <? newApplied then
     let oldApplied := applied (rlog r) in
     on_log (appliedTo newApplied);;
     if AutoLeave (tConfig (prs r)) && (oldApplied <=? pendingConfIndex r) && (pendingConfIndex r <=? newApplied)
        && bool_decide (rstate r = StateLeader) then
       accepted ← appendEntry [mkEntry 0 0 EntryConfChangeV2 None];
       if negb accepted then panic else
       bcastAppend;;
       li ← ask_log lastIndex;
       modify (set_pendingConfIndex li)
     else mret tt
   else mret tt);;
  (match last (rdEntries rd) with
   | None => mret tt
   | Some e =>
       r ← get;
       (if rid r =? lead r then Step (set_mtFrom (rid r) (set_mtIndex (eIndex e) (msg MsgAppResp)));; mret tt
        else mret tt);;
       on_log (stableTo (eIndex e) (eTerm e))
   end);;
  if IsEmptySnap (rdSnapshot rd) then mret tt else on_log (stableSnapTo (sIndex (rdSnapshot rd))).

(* ===================================================================== *)
(** ** raft.go: a new node                                               *)
(* ===================================================================== *)

(** [Config] of the package raft; a storage is always given. *)
Record RaftConfig : Type := mkRaftConfig {
  cfgID : Z;
  ElectionTick : Z;
  HeartbeatTick : Z;
  cfgStorage : St;
  cfgApplied : Z;
  MaxSizePerMsg : Z;
  MaxCommittedSizePerReady : Z;
  MaxUncommittedEntriesSize : Z;
  MaxInflightMsgs : Z;
  CheckQuorum : bool;
  PreVote : bool;
  cfgReadOnlyOption : ReadOnlyOption;
  DisableProposalForwarding : bool
}.

(** The configuration with its defaults filled in, or an error. *)
Definition validate (c : RaftConfig) : option RaftConfig :=
  if cfgID c =? NoNode then None else
  if HeartbeatTick c <=? 0 then None else
  if ElectionTick c <=? HeartbeatTick c then None else
  let uncommitted := if MaxUncommittedEntriesSize c =? 0 then noLimit else MaxUncommittedEntriesSize c in
  let committedSize := if MaxCommittedSizePerReady c =? 0 then MaxSizePerMsg c else MaxCommittedSizePerReady c in
  if MaxInflightMsgs c <=? 0 then None else
  if bool_decide (cfgReadOnlyOption c = ReadOnlyLeaseBased) && negb (CheckQuorum c) then None else
  Some (mkRaftConfig (cfgID c) (ElectionTick c) (HeartbeatTick c) (cfgStorage c) (cfgApplied c) (MaxSizePerMsg c)
          committedSize uncommitted (MaxInflightMsgs c) (CheckQuorum c) (PreVote c) (cfgReadOnlyOption c)
          (DisableProposalForwarding c)).

(** The struct literal of [newRaft]. *)
Definition raft_literal (c : RaftConfig) (l : raftLog St) (k : nat) : raft :=
  mkRaft (cfgID c) 0 0 [] l (MaxSizePerMsg c) (MaxUncommittedEntriesSize c) (MakeProgressTracker (MaxInflightMsgs c))
    StateFollower false [] NoNode NoNode 0 0 (newReadOnly (cfgReadOnlyOption c)) 0 0 (CheckQuorum c) (PreVote c)
    (HeartbeatTick c) (ElectionTick c) 0 (DisableProposalForwarding c) NilTick NilStep [] k.

(** The rest of [newRaft], with the state that the storage holds. *)
Definition newRaft_setup (c : RaftConfig) (hs : HardState) (cs : ConfState) : R unit :=
  li ← ask_log lastIndex;
  r ← get;
  '(cfg, ps) ← or_panic (Restore (mkChanger (prs r) li) cs);
  cs' ← switchToConfig cfg ps;
  assertConfStatesEquivalent cs cs';;
  (if IsEmptyHardState hs then mret tt else loadState hs);;
  (if 0 <? cfgApplied c then on_log (appliedTo (cfgApplied c)) else mret tt);;
  r ← get;
  becomeFollower (rTerm r) NoNode;;
  log_position.

(** [newRaft]; [k] says where the random source stands. *)
Definition newRaft (c : RaftConfig) (k : nat) : outcome raft :=
  match validate c with
  | None => Panic
  | Some c =>
      l ← newLogWithSize (cfgStorage c) (MaxCommittedSizePerReady c);
      init ← InitialState (cfgStorage c);
      '(hs, cs) ← must init;
      '(_, r) ← newRaft_setup c hs cs (raft_literal c l k);
      Ret r
  end.

End raft_ops.
