(* ===== verification/RawNode.v ===== *)
(** * RawNode: the interface of a raft node (src/etcd/raft/rawnode.go, node.go,
    bootstrap.go, status.go)

    [RawNode] wraps the state machine of RaftNode.v with what has been handed to
    the application; its operations are what an application calls. [node] is the
    goroutine that owns a [RawNode] and serves its channels: [run_top] is the part
    of the loop before the [select], [select_case] one case of it. A channel
    variable that is nil or not is a boolean; an event on a channel that the
    [select] does not listen to blocks. *)

From S2P Require Import Prelude RaftPb Quorum RaftStorage RaftLog Tracker ConfChange RaftWire RaftCodec RaftNode.

Definition IsLocalMsg (t : MessageType) : bool :=
  match t with MsgHup | MsgBeat | MsgUnreachable | MsgSnapStatus | MsgCheckQuorum => true | _ => false end.

Definition IsResponseMsg (t : MessageType) : bool :=
  match t with
  | MsgAppResp | MsgVoteResp | MsgHeartbeatResp | MsgUnreachable | MsgPreVoteResp => true
  | _ => false
  end.

Inductive raw_error : Type :=
  | StepLocalMsg
  | StepPeerNotFound
  | StepFailed (e : step_error).

Inductive bootstrap_error : Type :=
  | NoPeers
  | NoLastIndex (e : StorageError)
  | NonemptyStorage.

Record Peer : Type := mkPeer { peerID : Z; peerContext : option bytes }.

Inductive SnapshotStatus : Type := SnapshotFinish | SnapshotFailure.

(** [ConfChangeI]: a change in either form. *)
Inductive ConfChangeI : Type :=
  | V1 (c : ConfChange)
  | V2 (c : ConfChangeV2).

Definition I_AsV2 (c : ConfChangeI) : ConfChangeV2 :=
  match c with V1 c => AsV2 c | V2 c => c end.

Definition MarshalConfChange (c : ConfChangeI) : outcome (EntryType * bytes) :=
  match c with
  | V1 c => d ← ConfChange_Marshal c; Ret (EntryConfChange, d)
  | V2 c => d ← ConfChangeV2_Marshal c; Ret (EntryConfChangeV2, d)
  end.

Definition confChangeToMsg (c : ConfChangeI) : outcome Message :=
  '(typ, data) ← MarshalConfChange c;
  Ret (set_mtEntries [mkEntry 0 0 typ (Some data)] (msg MsgProp)).

(** A [Ready] with nothing in it. *)
Definition zero_Ready : Ready := mkReady None zero_HardState [] [] zero_Snapshot [] [] false.

Section raw_node.
Context {St : Type} `{!Storage St} {rt : GoRuntime} {env : RaftEnv}.
#[local] Abbreviation raft := (raft St).

(* ===================================================================== *)
(** ** RawNode                                                           *)
(* ===================================================================== *)

Record RawNode : Type := mkRawNode {
  rnRaft : raft;
  prevSoftSt : SoftState;
  prevHardSt : HardState
}.

Definition set_rnRaft (r : raft) (n : RawNode) : RawNode := mkRawNode r (prevSoftSt n) (prevHardSt n).
Definition set_prevHardSt (h : HardState) (n : RawNode) : RawNode := mkRawNode (rnRaft n) (prevSoftSt n) h.

Definition raft_lens : lens RawNode raft := mkLens rnRaft set_rnRaft.
#[local] Abbreviation on_raft m := (zoom raft_lens m).
#[local] Abbreviation N := (M RawNode).

Definition NewRawNode (c : RaftConfig) (k : nat) : outcome RawNode :=
  r ← newRaft c k;
  Ret (mkRawNode r (get_softState r) (get_hardState r)).

Definition Tick : N unit := on_raft call_tick.

Definition TickQuiesced : N unit :=
  on_raft (modify (fun r => set_electionElapsed (i64 (electionElapsed r + 1)) r)).

Definition Campaign : N (option step_error) := on_raft (Step (msg MsgHup)).

Definition Propose (data : option bytes) : N (option step_error) :=
  n ← get;
  on_raft (Step (set_mtFrom (rid (rnRaft n)) (set_mtEntries [mkEntry 0 0 EntryNormal data] (msg MsgProp)))).

Definition ProposeConfChange (cc : ConfChangeI) : N (option step_error) :=
  m ← lift (confChangeToMsg cc);
  on_raft (Step m).

Definition ApplyConfChange (cc : ConfChangeI) : N ConfState := on_raft (applyConfChange (I_AsV2 cc)).

(** A response counts only if its sender is known. *)
Definition expected (m : Message) (r : raft) : bool :=
  bool_decide (is_Some (tProgress (prs r) !! mtFrom m)) || negb (IsResponseMsg (mtType m)).

Definition raw_Step (m : Message) : N (option raw_error) :=
  if IsLocalMsg (mtType m) then mret (Some StepLocalMsg) else
  n ← get;
  if expected m (rnRaft n) then
    e ← on_raft (Step m);
    mret (StepFailed <$> e)
  else mret (Some StepPeerNotFound).

Definition readyWithoutAccept (n : RawNode) : outcome Ready := newReady (rnRaft n) (prevSoftSt n) (prevHardSt n).

Definition acceptReady (rd : Ready) (n : RawNode) : RawNode :=
  let r := rnRaft n in
  let r := if negb (zlen (rdReadStates rd) =? 0) then set_readStates [] r else r in
  mkRawNode (set_msgs [] r)
    (default (prevSoftSt n) (rdSoftState rd))
    (if negb (IsEmptyHardState (rdHardState rd)) then rdHardState rd else prevHardSt n).

Definition raw_Ready : N Ready :=
  n ← get;
  rd ← lift (readyWithoutAccept n);
  modify (acceptReady rd);;
  mret rd.

Definition HasReady (n : RawNode) : outcome bool :=
  let r := rnRaft n in
  let hardSt := get_hardState r in
  if negb (bool_decide (get_softState r = prevSoftSt n)) then Ret true else
  if negb (IsEmptyHardState hardSt) && negb (isHardStateEqual hardSt (prevHardSt n)) then Ret true else
  if hasPendingSnapshot (rlog r) then Ret true else
  if (0 <? zlen (msgs r)) || (0 <? zlen (unstableEntries (rlog r))) then Ret true else
  next ← hasNextEnts (rlog r);
  if (next : bool) then Ret true else
  Ret (negb (zlen (readStates r) =? 0)).

Definition Advance (rd : Ready) : N unit := on_raft (advance rd).

Definition ReportUnreachable (id : Z) : N unit := on_raft (Step (set_mtFrom id (msg MsgUnreachable)));; mret tt.

Definition ReportSnapshot (id : Z) (status : SnapshotStatus) : N unit :=
  let rej := match status with SnapshotFailure => true | SnapshotFinish => false end in
  on_raft (Step (set_mtFrom id (set_mtReject rej (msg MsgSnapStatus))));; mret tt.

Definition TransferLeader (transferee : Z) : N unit :=
  on_raft (Step (set_mtFrom transferee (msg MsgTransferLeader)));; mret tt.

Definition ReadIndex (rctx : option bytes) : N unit :=
  on_raft (Step (set_mtEntries [mkEntry 0 0 EntryNormal rctx] (msg MsgReadIndex)));; mret tt.

(* ===================================================================== *)
(** ** bootstrap.go                                                      *)
(* ===================================================================== *)

(** The entries for the peers, numbered from [i + 1]. *)
Fixpoint bootstrap_entries (i : Z) (peers : list Peer) : outcome (list Entry) :=
  match peers with
  | [] => Ret []
  | p :: peers' =>
      data ← ConfChange_Marshal (mkConfChange ConfChangeAddNode (peerID p) (peerContext p) 0);
      ents ← bootstrap_entries (i + 1) peers';
      Ret (mkEntry 1 (u64 (i + 1)) EntryConfChange (Some data) :: ents)
  end.

Definition Bootstrap (peers : list Peer) : N (option bootstrap_error) :=
  if zlen peers =? 0 then mret (Some NoPeers) else
  n ← get;
  li ← lift (LastIndex (storage (rlog (rnRaft n))));
  match li with
  | inr e => mret (Some (NoLastIndex e))
  | inl lastIndex =>
      if negb (lastIndex =? 0) then mret (Some NonemptyStorage) else
      modify (set_prevHardSt zero_HardState);;
      on_raft (becomeFollower 1 NoNode);;
      ents ← lift (bootstrap_entries 0 peers);
      on_raft (zoom log_lens (append ents));;
      on_raft (zoom log_lens (modify (set_committed (zlen ents))));;
      forM peers (fun p => on_raft (applyConfChange (AsV2 (mkConfChange ConfChangeAddNode (peerID p) None 0)));; mret tt);;
      mret None
  end.

(* ===================================================================== *)
(** ** status.go                                                         *)
(* ===================================================================== *)

Record BasicStatus : Type := mkBasicStatus {
  bsID : Z;
  bsHardState : HardState;
  bsSoftState : SoftState;
  bsApplied : Z;
  bsLeadTransferee : Z
}.

Record Status : Type := mkStatus {
  stBasic : BasicStatus;
  stConfig : Config;
  stProgress : option ProgressMap
}.

Definition getBasicStatus (r : raft) : BasicStatus :=
  mkBasicStatus (rid r) (get_hardState r) (get_softState r) (applied (rlog r)) (leadTransferee r).

Definition getStatus (r : raft) : Status :=
  mkStatus (getBasicStatus r) (Clone (tConfig (prs r)))
    (if bool_decide (rstate r = StateLeader) then Some (tProgress (prs r)) else None).

(* ===================================================================== *)
(** ** node.go: the goroutine                                            *)
(* ===================================================================== *)

(** The local variables of [run]: whether [propc], [readyc] and [advancec] are
    set, the last [Ready], and the leader that was seen last. *)
Record node : Type := mkNode {
  rn : RawNode;
  propc : bool;
  readyc : bool;
  advancec : bool;
  loop_rd : Ready;
  loop_lead : Z
}.

Definition set_rn (x : RawNode) (n : node) : node :=
  mkNode x (propc n) (readyc n) (advancec n) (loop_rd n) (loop_lead n).

Definition rn_lens : lens node RawNode := mkLens rn set_rn.

(** [newNode] and the variables at the start of [run]. *)
Definition newNode (x : RawNode) : node := mkNode x false false false zero_Ready NoNode.

Definition setupNode (c : RaftConfig) (k : nat) (peers : list Peer) : outcome node :=
  if zlen peers =? 0 then Panic else
  x ← NewRawNode c k;
  '(_, x) ← Bootstrap peers x;
  Ret (newNode x).

Definition RestartNode (c : RaftConfig) (k : nat) : outcome node :=
  x ← NewRawNode c k;
  Ret (newNode x).

(** The loop before the [select]: a [Ready] is made if none is being handled, and
    proposals are accepted while there is a leader. *)
Definition arm_ready (n : node) : outcome node :=
  if advancec n then Ret (mkNode (rn n) (propc n) false (advancec n) (loop_rd n) (loop_lead n)) else
  has ← HasReady (rn n);
  if (has : bool) then
    rd ← readyWithoutAccept (rn n);
    Ret (mkNode (rn n) (propc n) true (advancec n) rd (loop_lead n))
  else Ret n.

Definition watch_leader (n : node) : node :=
  let r := rnRaft (rn n) in
  if loop_lead n =? lead r then n
  else mkNode (rn n) (hasLeader r) (readyc n) (advancec n) (loop_rd n) (lead r).

Definition run_top (n : node) : outcome node :=
  n ← arm_ready n;
  Ret (watch_leader n).

Inductive event : Type :=
  | OnProp (m : Message)
  | OnRecv (m : Message)
  | OnConf (cc : ConfChangeV2)
  | OnTick
  | OnReady
  | OnAdvance
  | OnStatus.

(** What a case of the [select] sends back. *)
Inductive reply : Type :=
  | NoReply
  | PropResult (e : option step_error)
  | ConfReply (cs : ConfState)
  | ReadyReply (rd : Ready)
  | StatusReply (s : Status).

Definition set_propc (b : bool) (n : node) : node :=
  mkNode (rn n) b (readyc n) (advancec n) (loop_rd n) (loop_lead n).

(** [_, ok := r.prs.Progress[r.id]]. *)
Definition listed (r : raft) : bool := bool_decide (is_Some (tProgress (prs r) !! rid r)).

Definition select_case (ev : event) : M node reply :=
  n ← get;
  let r := rnRaft (rn n) in
  match ev with
  | OnProp m =>
      if negb (propc n) then block else
      err ← zoom rn_lens (on_raft (Step (set_mtFrom (rid r) m)));
      mret (PropResult err)
  | OnRecv m =>
      if expected m r then zoom rn_lens (on_raft (Step m));; mret NoReply else mret NoReply
  | OnConf cc =>
      cs ← zoom rn_lens (on_raft (applyConfChange cc));
      n' ← get;
      let r' := rnRaft (rn n') in
      (if listed r && negb (listed r') && negb (bool_decide (rid r' ∈ csVoters cs ++ csVotersOutgoing cs))
       then modify (set_propc false) else mret tt);;
      mret (ConfReply cs)
  | OnTick => zoom rn_lens Tick;; mret NoReply
  | OnReady =>
      if negb (readyc n) then block else
      modify (fun n => mkNode (acceptReady (loop_rd n) (rn n)) (propc n) (readyc n) true (loop_rd n) (loop_lead n));;
      mret (ReadyReply (loop_rd n))
  | OnAdvance =>
      if negb (advancec n) then block else
      zoom rn_lens (Advance (loop_rd n));;
      modify (fun n => mkNode (rn n) (propc n) (readyc n) false zero_Ready (loop_lead n));;
      mret NoReply
  | OnStatus => mret (StatusReply (getStatus r))
  end.

(** One round of the loop. *)
Definition run_once (ev : event) (n : node) : outcome (reply * node) :=
  n ← run_top n;
  select_case ev n.

(** How a call of the [Node] interface reaches the loop: a proposal goes to
    [propc], everything else to [recvc]. *)
Definition stepWithWaitOption (m : Message) : event :=
  if bool_decide (mtType m = MsgProp) then OnProp m else OnRecv m.

(** [Step] for a message of the network: a local message is ignored. *)
Definition node_Step (m : Message) : option event :=
  if IsLocalMsg (mtType m) then None else Some (stepWithWaitOption m).

Definition node_Campaign : event := stepWithWaitOption (msg MsgHup).
Definition node_Propose (data : option bytes) : event :=
  stepWithWaitOption (set_mtEntries [mkEntry 0 0 EntryNormal data] (msg MsgProp)).
Definition node_ProposeConfChange (cc : ConfChangeI) : outcome (option event) :=
  m ← confChangeToMsg cc;
  Ret (node_Step m).
Definition node_ApplyConfChange (cc : ConfChangeI) : event := OnConf (I_AsV2 cc).
Definition node_ReportUnreachable (id : Z) : event := OnRecv (set_mtFrom id (msg MsgUnreachable)).
Definition node_ReportSnapshot (id : Z) (status : SnapshotStatus) : event :=
  let rej := match status with SnapshotFailure => true | SnapshotFinish => false end in
  OnRecv (set_mtFrom id (set_mtReject rej (msg MsgSnapStatus))).
Definition node_TransferLeadership (lead transferee : Z) : event :=
  OnRecv (set_mtFrom transferee (set_mtTo lead (msg MsgTransferLeader))).
Definition node_ReadIndex (rctx : option bytes) : event :=
  stepWithWaitOption (set_mtEntries [mkEntry 0 0 EntryNormal rctx] (msg MsgReadIndex)).

End raw_node.
