(* ===== verification/RaftElection.v ===== *)
(** * RaftElection: what a node may do in an election (src/etcd/raft/raft.go)

    Most of what a node does leaves the term, the vote, the role, the votes
    received and the configuration as they are and sends no vote: it is [calm].
    What the rest does is described on the state itself, up to calm changes
    ([becomes]). From this follows what any call of a node can do to an election
    ([elected_from]): the term does not fall, the vote of a term is not changed, a
    candidate counts only votes that it was given, and a leader has the votes of a
    quorum. RaftSafety.v puts nodes together. *)

From S2P Require Import Prelude RaftPb Quorum RaftStorage RaftLog Tracker ConfChange RaftWire RaftCodec RaftNode RawNode.

(* ===================================================================== *)
(** ** What holds if a computation returns                               *)
(* ===================================================================== *)

Definition post {S A} (m : M S A) (Q : A -> S -> Prop) (s : S) : Prop :=
  match m s with Ret (a, s') => Q a s' | _ => True end.

Lemma post_bind {S A B} (m : M S A) (k : A -> M S B) (Q : B -> S -> Prop) s :
  post m (fun a s' => post (k a) Q s') s -> post (m ≫= k) Q s.
Proof. unfold post, mbind, M_bind. by destruct (m s) as [[]| |]. Qed.

Lemma post_get {S A} (k : S -> M S A) (Q : A -> S -> Prop) s : post (k s) Q s -> post (get ≫= k) Q s.
Proof. done. Qed.

Lemma post_mono {S A} (m : M S A) (Q Q' : A -> S -> Prop) s :
  post m Q s -> (forall a s', Q a s' -> Q' a s') -> post m Q' s.
Proof. unfold post. destruct (m s) as [[]| |]; auto. Qed.

Lemma post_and {S A} (m : M S A) (Q Q' : A -> S -> Prop) s :
  post m Q s -> post m Q' s -> post m (fun a s' => Q a s' /\ Q' a s') s.
Proof. unfold post. destruct (m s) as [[]| |]; auto. Qed.

Section calm.
Context {St : Type} `{!Storage St} {rt : GoRuntime} {env : RaftEnv}.
#[local] Abbreviation raft := (raft St).
#[local] Abbreviation R := (M raft).

(* ===================================================================== *)
(** ** Calm computations                                                 *)
(* ===================================================================== *)

(** A vote given to a candidate. *)
Definition grant (m : Message) : Prop := mtType m = MsgVoteResp /\ mtReject m = false.

(** Every message but a proposal and a read request carries a term. *)
Definition stamped (m : Message) : Prop := mtTerm m <> 0 \/ mtType m = MsgProp \/ mtType m = MsgReadIndex.

(** A message that is no vote. *)
Definition plain (m : Message) : Prop := ~ grant m /\ stamped m.

(** The configuration, and whether the node is in it. *)
Definition conf_part (r : raft) : Config * bool := (tConfig (prs r), listed r).
#[local] Arguments conf_part : simpl never.

(** What an election depends on. *)
Definition election_part (r : raft) :=
  (rid r, rTerm r, rVote r, rstate r, step r, Votes (prs r), conf_part r).

Lemma part_inv r i t v ro st vs cf : election_part r = (i, t, v, ro, st, vs, cf) ->
  rid r = i /\ rTerm r = t /\ rVote r = v /\ rstate r = ro /\ step r = st /\ Votes (prs r) = vs /\ conf_part r = cf.
Proof. unfold election_part. rewrite !pair_equal_spec. tauto. Qed.

Record quiet (r r' : raft) : Prop := {
  quiet_part : election_part r' = election_part r;
  quiet_msgs : exists ms, msgs r' = msgs r ++ ms /\ Forall plain ms
}.

#[global] Instance quiet_preorder : PreOrder quiet.
Proof.
  split.
  - intros r. split; [done|]. exists []. by rewrite app_nil_r; split; [|constructor].
  - intros r1 r2 r3 [E1 (ms1 & M1 & F1)] [E2 (ms2 & M2 & F2)]. split; [by rewrite E2, E1|].
    exists (ms1 ++ ms2). rewrite M2, M1, <- app_assoc. split; [done|]. by apply Forall_app.
Qed.

(** A node that has not been started has term 0. *)
Definition calm {A} (f : R A) : Prop := forall r, 1 <= rTerm r -> post f (fun _ r' => quiet r r') r.

Lemma quiet_term r r' : quiet r r' -> rTerm r' = rTerm r.
Proof. intros [E _]. by apply part_inv in E as (? & ? & ? & ? & ? & _). Qed.

Lemma calm_bind {A B} (f : R A) (k : A -> R B) : calm f -> (forall a, calm (k a)) -> calm (f ≫= k).
Proof.
  intros Hf Hk r Hr. apply post_bind. eapply post_mono; [by apply Hf|]. intros a r1 H1.
  eapply post_mono; [apply Hk; by rewrite (quiet_term _ _ H1)|]. intros b r2 H2. exact (transitivity (R := quiet) H1 H2).
Qed.

Lemma calm_bind_value {A B} (f : R A) (k : A -> R B) (P : A -> Prop) :
  calm f -> (forall r, post f (fun a _ => P a) r) -> (forall a, P a -> calm (k a)) -> calm (f ≫= k).
Proof.
  intros Hf HP Hk r Hr. apply post_bind. eapply post_mono; [apply post_and; [by apply Hf|apply HP]|]. intros a r1 [H1 Ha].
  eapply post_mono; [apply Hk; [done|by rewrite (quiet_term _ _ H1)]|]. intros b r2 H2. exact (transitivity (R := quiet) H1 H2).
Qed.

Lemma calm_ret {A} (a : A) : calm (mret a).
Proof. intros r _. by apply (reflexivity (R := quiet)). Qed.
Lemma calm_panic {A} : calm (panic : R A).
Proof. done. Qed.
Lemma calm_block {A} : calm (block : R A).
Proof. done. Qed.
Lemma calm_get : calm get.
Proof. intros r _. by apply (reflexivity (R := quiet)). Qed.
Lemma calm_lift {A} (o : outcome A) : calm (lift o).
Proof. intros r _. unfold post, lift. destruct o; [by apply (reflexivity (R := quiet))|done..]. Qed.
Lemma calm_or_panic {A} (o : option A) : calm (or_panic o).
Proof. destruct o; [apply calm_ret|apply calm_panic]. Qed.
Lemma calm_ask_log {A} (f : raftLog St -> outcome A) : calm (ask_log f).
Proof. apply calm_bind; [apply calm_get|intros; apply calm_lift]. Qed.

(** A change of the state that leaves what an election depends on alone. *)
Lemma calm_modify (f : raft -> raft) :
  (forall r, election_part (f r) = election_part r /\ msgs (f r) = msgs r) -> calm (modify f).
Proof.
  intros Hf r _. destruct (Hf r) as [E1 E2]. split; [done|]. exists []. by rewrite app_nil_r; split; [|constructor].
Qed.

Lemma calm_on_log {A} (m : M (raftLog St) A) : calm (zoom log_lens m).
Proof.
  intros r _. unfold post, zoom. destruct (m (view log_lens r)) as [[a l]| |]; [|done..].
  split; [done|]. exists []. by rewrite app_nil_r; split; [|constructor].
Qed.

Lemma calm_foldM {A B} (f : B -> A -> R B) (l : list A) (b : B) : (forall b a, calm (f b a)) -> calm (foldM f b l).
Proof.
  intros Hf. revert b. induction l as [|a l IH]; intros b; [apply calm_ret|]. apply calm_bind; [apply Hf|apply IH].
Qed.

Lemma calm_forM {A} (l : list A) (f : A -> R unit) : (forall a, calm (f a)) -> calm (forM l f).
Proof. intros. by apply calm_foldM. Qed.

(** Everything but a vote. *)
Lemma calm_send m : ~ grant m -> calm (send m).
Proof.
  intros Hm r Hr. unfold send. apply post_get.
  remember (if mtFrom m =? NoNode then set_mtFrom (rid r) m else m) as m0 eqn:Em0.
  assert (~ grant m0) as Hm0 by (subst m0; unfold grant in *; by destruct (_ =? _)).
  apply post_bind. apply (post_mono _ (fun m1 r' => r' = r /\ plain m1)).
  - unfold plain, stamped. destruct (is_vote_msg _), (Z.eqb_spec (mtTerm m0) 0) as [E|E]; try done; cbn.
    + split; [done|]. split; [done|by left].
    + split; [done|]. case_bool_decide as Hty; [split; [exact Hm0|left; cbn; lia]|]. split; [done|right]. clear Hm Em0.
      destruct (decide (mtType m0 = MsgProp)); [by left|]. destruct (decide (mtType m0 = MsgReadIndex)); [by right|].
      exfalso. by apply Hty.
  - intros m1 r' [-> Hm1]. destruct (mtTo m1 =? rid r); [done|]. split; [done|]. cbn. exists [m1].
    split; [done|by constructor].
Qed.

Lemma calm_draw : calm draw.
Proof.
  apply calm_bind; [apply calm_get|intros r]. apply calm_bind; [by apply calm_modify|intros; apply calm_ret].
Qed.

Lemma calm_Visit f : (forall id, calm (f id)) -> calm (Visit f).
Proof.
  intros Hf. apply calm_bind; [apply calm_draw|intros k]. apply calm_bind; [apply calm_get|intros r].
  apply calm_bind; [apply calm_lift|intros order]. by apply calm_forM.
Qed.

Create HintDb calm.
#[local] Hint Resolve calm_ret calm_panic calm_block calm_get calm_lift calm_or_panic calm_ask_log calm_on_log : calm.

(** Follow the code of a computation. *)
Ltac calm_go :=
  repeat match goal with
  | |- forall _, _ => intros ?
  | |- calm (_ ≫= _) => apply calm_bind
  | |- calm (forM _ _) => apply calm_forM
  | |- calm (Visit _) => apply calm_Visit
  | |- calm (modify _) => apply calm_modify; intros ?; repeat case_match; done
  | |- calm (send _) => apply calm_send; unfold grant; cbn; intros [? ?]; congruence
  | |- calm _ => solve [eauto with calm]
  | |- calm (if ?b then _ else _) => destruct b eqn:?
  | |- calm (match ?x with _ => _ end) => destruct x eqn:?
  | |- calm (match ?x with _ => _ end _) => destruct x eqn:?
  end.

Lemma calm_progress id : calm (progress id).
Proof. unfold progress. calm_go. Qed.
#[local] Hint Resolve calm_progress calm_draw : calm.

(** Assigning to the progress of a node does not add nodes. *)
Lemma calm_update_progress id f : calm (update_progress id f).
Proof.
  intros r _. unfold update_progress. apply post_bind, post_get. destruct (tProgress (prs r) !! id) eqn:E; [|done].
  split; [|exists []; split; [by rewrite app_nil_r|constructor]]. unfold election_part, conf_part, listed. cbn.
  do 2 f_equal. apply bool_decide_ext. destruct (decide (id = rid r)) as [<-|].
  - by rewrite lookup_insert_eq, E.
  - by rewrite lookup_insert_ne.
Qed.
#[local] Hint Resolve calm_update_progress : calm.

Lemma calm_entry0 m : calm (entry0 m).
Proof. unfold entry0. calm_go. Qed.
#[local] Hint Resolve calm_entry0 : calm.
Lemma calm_addRequest i m : calm (addRequest i m).
Proof. unfold addRequest. calm_go. Qed.
Lemma calm_recvAck id c : calm (recvAck id c).
Proof. unfold recvAck. calm_go. Qed.
Lemma calm_readOnly_advance m : calm (readOnly_advance m).
Proof. unfold readOnly_advance. calm_go. Qed.
#[local] Hint Resolve calm_addRequest calm_recvAck calm_readOnly_advance : calm.

Lemma calm_maybeSendAppend to b : calm (maybeSendAppend to b).
Proof. unfold maybeSendAppend. calm_go. Qed.
#[local] Hint Resolve calm_maybeSendAppend : calm.
Lemma calm_sendAppend to : calm (sendAppend to).
Proof. unfold sendAppend. calm_go. Qed.
Lemma calm_sendHeartbeat to c : calm (sendHeartbeat to c).
Proof. unfold sendHeartbeat. calm_go. Qed.
#[local] Hint Resolve calm_sendAppend calm_sendHeartbeat : calm.
Lemma calm_bcastAppend : calm bcastAppend.
Proof. unfold bcastAppend. calm_go. Qed.
Lemma calm_bcastHeartbeatWithCtx c : calm (bcastHeartbeatWithCtx c).
Proof. unfold bcastHeartbeatWithCtx. calm_go. Qed.
#[local] Hint Resolve calm_bcastAppend calm_bcastHeartbeatWithCtx : calm.
Lemma calm_bcastHeartbeat : calm bcastHeartbeat.
Proof. unfold bcastHeartbeat. calm_go. Qed.
Lemma calm_sendTimeoutNow to : calm (sendTimeoutNow to).
Proof. unfold sendTimeoutNow. calm_go. Qed.
#[local] Hint Resolve calm_bcastHeartbeat calm_sendTimeoutNow : calm.

Lemma calm_maybeCommit : calm maybeCommit.
Proof. unfold maybeCommit. calm_go. Qed.
Lemma calm_increaseUncommittedSize es : calm (increaseUncommittedSize es).
Proof. unfold increaseUncommittedSize. calm_go. Qed.
Lemma calm_reduceUncommittedSize es : calm (reduceUncommittedSize es).
Proof. unfold reduceUncommittedSize. calm_go. Qed.
#[local] Hint Resolve calm_maybeCommit calm_increaseUncommittedSize calm_reduceUncommittedSize : calm.
Lemma calm_appendEntry es : calm (appendEntry es).
Proof. unfold appendEntry. calm_go. Qed.
Lemma calm_resetRandomizedElectionTimeout : calm resetRandomizedElectionTimeout.
Proof. unfold resetRandomizedElectionTimeout. calm_go. Qed.
Lemma calm_abortLeaderTransfer : calm abortLeaderTransfer.
Proof. unfold abortLeaderTransfer. calm_go. Qed.
#[local] Hint Resolve calm_appendEntry calm_resetRandomizedElectionTimeout calm_abortLeaderTransfer : calm.

Lemma calm_request_votes t ty term : ty <> MsgVoteResp -> calm (request_votes t ty term).
Proof. intros. unfold request_votes. calm_go. Qed.
Lemma calm_committedEntryInCurrentTerm : calm committedEntryInCurrentTerm.
Proof. unfold committedEntryInCurrentTerm. calm_go. Qed.
#[local] Hint Resolve calm_committedEntryInCurrentTerm : calm.

Lemma calm_responseToReadIndexReq m i : calm (responseToReadIndexReq m i).
Proof. unfold responseToReadIndexReq. calm_go. Qed.

Lemma calm_respond m i : calm (respond m i).
Proof.
  unfold respond. apply (calm_bind_value _ _ (fun resp => ~ grant resp)); [apply calm_responseToReadIndexReq| |].
  - intros r. unfold responseToReadIndexReq. apply post_bind. cbn. destruct (_ || _); [|by intros [? _]].
    apply post_bind. unfold post. destruct (entry0 m r) as [[d r1]| |]; [|done..]. cbn. by intros [? _].
  - intros resp Hresp. destruct (_ =? _); [apply calm_ret|by apply calm_send].
Qed.
#[local] Hint Resolve calm_respond : calm.

Lemma calm_sendMsgReadIndexResponse m : calm (sendMsgReadIndexResponse m).
Proof. unfold sendMsgReadIndexResponse. calm_go. Qed.
#[local] Hint Resolve calm_sendMsgReadIndexResponse : calm.
Lemma calm_releasePendingReadIndexMessages : calm releasePendingReadIndexMessages.
Proof. unfold releasePendingReadIndexMessages. calm_go. Qed.
Lemma calm_handleAppendEntries m : calm (handleAppendEntries m).
Proof. unfold handleAppendEntries. calm_go. Qed.
Lemma calm_handleHeartbeat m : calm (handleHeartbeat m).
Proof. unfold handleHeartbeat. calm_go. Qed.
#[local] Hint Resolve calm_releasePendingReadIndexMessages calm_handleAppendEntries calm_handleHeartbeat : calm.

Lemma calm_unmarshalled {A} (d : dec A) : calm (unmarshalled d).
Proof. unfold unmarshalled. calm_go. Qed.
#[local] Hint Resolve calm_unmarshalled : calm.
Lemma calm_proposed_change e : calm (proposed_change e).
Proof. unfold proposed_change. calm_go. Qed.
#[local] Hint Resolve calm_proposed_change : calm.
Lemma calm_screen_entries i es : calm (screen_entries i es).
Proof. revert i. induction es as [|e es IH]; intros i; cbn [screen_entries]; calm_go. Qed.
#[local] Hint Resolve calm_screen_entries : calm.
Lemma calm_fine : calm fine.
Proof. apply calm_ret. Qed.
Lemma calm_dropped : calm dropped.
Proof. apply calm_ret. Qed.
#[local] Hint Resolve calm_fine calm_dropped : calm.
Lemma calm_leader_prop m : calm (leader_prop m).
Proof. unfold leader_prop. calm_go. Qed.
Lemma calm_leader_readIndex m : calm (leader_readIndex m).
Proof. unfold leader_readIndex. calm_go. Qed.
Lemma calm_send_all n to : calm (send_all n to).
Proof. induction n; cbn [send_all]; calm_go. Qed.
#[local] Hint Resolve calm_leader_prop calm_leader_readIndex calm_send_all : calm.
Lemma calm_leader_rejected m : calm (leader_rejected m).
Proof. unfold leader_rejected. calm_go. Qed.
Lemma calm_leader_acked m : calm (leader_acked m).
Proof. unfold leader_acked. calm_go. Qed.
Lemma calm_leader_heartbeatResp m : calm (leader_heartbeatResp m).
Proof. unfold leader_heartbeatResp. calm_go. Qed.
Lemma calm_leader_snapStatus m : calm (leader_snapStatus m).
Proof. unfold leader_snapStatus. calm_go. Qed.
Lemma calm_leader_transfer m : calm (leader_transfer m).
Proof. unfold leader_transfer. calm_go. Qed.
#[local] Hint Resolve calm_leader_rejected calm_leader_acked calm_leader_heartbeatResp calm_leader_snapStatus
  calm_leader_transfer : calm.

Lemma calm_log_position : calm log_position.
Proof. unfold log_position. calm_go. Qed.
#[local] Hint Resolve calm_log_position : calm.

(** A leader that does not check its quorum. *)
Lemma calm_stepLeader m : mtType m <> MsgCheckQuorum -> calm (stepLeader m).
Proof. intros Hm. unfold stepLeader. calm_go; congruence. Qed.

(* ===================================================================== *)
(** ** Changes of the role                                               *)
(* ===================================================================== *)

(** [r'] has the election part [e], and has sent no vote since [r]. *)
Definition becomes e (r r' : raft) : Prop :=
  election_part r' = e /\ exists ms, msgs r' = msgs r ++ ms /\ Forall plain ms.

Lemma becomes_refl r : becomes (election_part r) r r.
Proof. split; [done|]. exists []. split; [by rewrite app_nil_r|constructor]. Qed.

Lemma becomes_trans e1 e2 r r1 r2 : becomes e1 r r1 -> becomes e2 r1 r2 -> becomes e2 r r2.
Proof.
  intros [_ (ms1 & M1 & F1)] [E2 (ms2 & M2 & F2)]. split; [done|]. exists (ms1 ++ ms2).
  rewrite M2, M1, <- app_assoc. split; [done|]. by apply Forall_app.
Qed.

Lemma becomes_term i t v ro st vs cf r r1 : becomes (i, t, v, ro, st, vs, cf) r r1 -> rTerm r1 = t.
Proof. intros [E _]. by apply part_inv in E as (? & ? & ? & ? & ? & _). Qed.

(** A calm computation in the middle of a sequence. *)
Lemma becomes_calm {A B} i t v ro st vs cf r r1 (f : R A) (k : A -> R B) Q (e := (i, t, v, ro, st, vs, cf)) :
  becomes e r r1 -> 1 <= t -> calm f -> (forall a r2, becomes e r r2 -> post (k a) Q r2) -> post (f ≫= k) Q r1.
Proof.
  intros H Ht Hf Hk. apply post_bind. eapply post_mono; [apply Hf; by rewrite (becomes_term _ _ _ _ _ _ _ _ _ H)|].
  intros a r2 [E2 M2]. apply Hk. eapply becomes_trans; [exact H|]. split; [|done]. rewrite E2. apply H.
Qed.

Lemma becomes_calm_end {A} i t v ro st vs cf r r1 (f : R A) (e := (i, t, v, ro, st, vs, cf)) :
  becomes e r r1 -> 1 <= t -> calm f -> post f (fun _ r2 => becomes e r r2) r1.
Proof.
  intros H Ht Hf. eapply post_mono; [apply Hf; by rewrite (becomes_term _ _ _ _ _ _ _ _ _ H)|]. intros a r2 [E2 M2].
  eapply becomes_trans; [exact H|]. split; [|done]. rewrite E2. apply H.
Qed.

(** An assignment to a field an election depends on. *)
Lemma becomes_modify {B} e' r r1 (g : raft -> raft) (k : unit -> R B) Q :
  becomes (election_part r1) r r1 -> election_part (g r1) = e' -> msgs (g r1) = msgs r1 ->
  (forall r2, becomes e' r r2 -> post (k tt) Q r2) -> post (modify g ≫= k) Q r1.
Proof.
  intros [_ (ms & M & F)] E' Hm Hk. apply post_bind. cbn. apply Hk. split; [done|]. exists ms. by rewrite Hm.
Qed.

Lemma becomes_self e r r1 : becomes e r r1 -> becomes (election_part r1) r r1.
Proof. by intros [_ H]. Qed.

(** The components of an election part, from [becomes]. *)
Ltac parts H :=
  let E := fresh "E" in
  pose proof (proj1 H) as E; apply part_inv in E as (? & ? & ? & ? & ? & ? & ?).

(** The election part after an assignment, in terms of the part before. *)
Ltac new_part H :=
  let E := fresh "E" in
  let E1 := fresh "E" in let E2 := fresh "E" in let E3 := fresh "E" in let E4 := fresh "E" in
  let E5 := fresh "E" in let E6 := fresh "E" in let E7 := fresh "E" in
  pose proof (proj1 H) as E; unfold election_part;
  first [apply part_inv in E as (E1 & E2 & E3 & E4 & E5 & E6 & E7); cbn;
         match goal with |- (_, conf_part ?x) = _ => match type of E7 with _ = ?c =>
           replace (conf_part x) with c by (symmetry; exact E7) end end;
         rewrite ?E1, ?E2, ?E3, ?E4, ?E5, ?E6; reflexivity
        |cbn; reflexivity].

Ltac then_calm H := eapply becomes_calm; [exact H|lia|solve [calm_go]|clear H; intros ? ? H].
Ltac then_modify H :=
  eapply becomes_modify; [exact (becomes_self _ _ _ H)|new_part H|done|clear H; intros ? H].

Lemma reset_post t r : 1 <= t -> post (reset t) (fun _ => becomes
  (rid r, t, (if rTerm r =? t then rVote r else NoNode), rstate r, step r, ∅, conf_part r) r) r.
Proof.
  intros Ht1. unfold reset. apply post_get. apply post_bind.
  apply (post_mono _ (fun _ => becomes (rid r, t, (if rTerm r =? t then rVote r else NoNode), rstate r, step r,
    Votes (prs r), conf_part r) r)).
  { destruct (Z.eqb_spec (rTerm r) t) as [<-|]; (split; [done|]);
      exists []; (split; [by rewrite app_nil_r|constructor]). }
  intros _ r1 H. do 5 (then_calm H). then_modify H. do 3 (then_calm H).
  eapply becomes_calm_end; [exact H|done|calm_go].
Qed.

Lemma becomes_reset {B} i tm v ro st vs cf t r r1 (k : unit -> R B) Q :
  becomes (i, tm, v, ro, st, vs, cf) r r1 -> 1 <= t ->
  (forall r2, becomes (i, t, (if tm =? t then v else NoNode), ro, st, ∅, cf) r r2 -> post (k tt) Q r2) ->
  post (reset t ≫= k) Q r1.
Proof.
  intros H Ht Hk. apply post_bind. eapply post_mono; [by apply reset_post|]. intros [] r2 H2. apply Hk.
  eapply becomes_trans; [exact H|]. parts H. by simplify_eq.
Qed.

Ltac then_reset H := eapply becomes_reset; [exact H|lia|clear H; intros ? H].
Ltac then_end H := eapply becomes_calm_end; [exact H|lia|solve [calm_go]].

(** The last assignment of a sequence. *)
Lemma becomes_modify_end e' r r1 (g : raft -> raft) :
  becomes (election_part r1) r r1 -> election_part (g r1) = e' -> msgs (g r1) = msgs r1 ->
  post (modify g) (fun _ => becomes e' r) r1.
Proof. intros [_ (ms & M & F)] E' Hm. split; [done|]. exists ms. by rewrite Hm. Qed.

Ltac modify_end H :=
  eapply becomes_modify_end; [exact (becomes_self _ _ _ H)|new_part H|done].

Lemma becomeFollower_post t l r : 1 <= t -> post (becomeFollower t l) (fun _ => becomes
  (rid r, t, (if rTerm r =? t then rVote r else NoNode), StateFollower, stepFollower_f, ∅, conf_part r) r) r.
Proof.
  intros Ht1. unfold becomeFollower. pose proof (becomes_refl r) as H. then_modify H. then_reset H. do 2 (then_calm H). modify_end H.
Qed.

Lemma becomeCandidate_post r : 1 <= u64 (rTerm r + 1) -> post becomeCandidate (fun _ => becomes
  (rid r, u64 (rTerm r + 1), rid r, StateCandidate, stepCandidate_f, ∅, conf_part r) r) r.
Proof.
  intros Ht1. unfold becomeCandidate. apply post_bind. cbn. destruct (bool_decide _); [done|].
  pose proof (becomes_refl r) as H. then_modify H. then_reset H. then_calm H. then_modify H. modify_end H.
Qed.

Lemma becomePreCandidate_post r : 1 <= rTerm r -> post becomePreCandidate (fun _ => becomes
  (rid r, rTerm r, rVote r, StatePreCandidate, stepCandidate_f, ∅, conf_part r) r) r.
Proof.
  intros Ht1. unfold becomePreCandidate. apply post_bind. cbn. destruct (bool_decide _); [done|].
  pose proof (becomes_refl r) as H. do 2 (then_modify H). do 2 (then_calm H). modify_end H.
Qed.

Lemma becomeLeader_post r : 1 <= rTerm r -> post becomeLeader (fun _ => becomes
  (rid r, rTerm r, rVote r, StateLeader, stepLeader_f, ∅, conf_part r) r) r.
Proof.
  intros Ht1. unfold becomeLeader. apply post_bind. cbn. destruct (bool_decide _); [done|].
  pose proof (becomes_refl r) as H. then_modify H. then_reset H. rewrite Z.eqb_refl in H. do 2 (then_calm H). then_modify H.
  do 4 (then_calm H). destruct (negb _); [done|]. then_end H.
Qed.

(* ===================================================================== *)
(** ** What a call may do to an election                                 *)
(* ===================================================================== *)

Definition role_step (s : RaftState) : stepFunc :=
  match s with
  | StateFollower => stepFollower_f
  | StateCandidate | StatePreCandidate => stepCandidate_f
  | StateLeader => stepLeader_f
  end.

(** A node between two calls: it has a term, the step function is that of the
    role, and a candidate or leader has voted for itself. *)
Definition node_ok (r : raft) : Prop :=
  rid r <> NoNode /\ 1 <= rTerm r /\ step r = role_step (rstate r) /\ (rstate r = StateCandidate \/ rstate r = StateLeader -> rVote r = rid r).

(** [v] has voted for the node in term [t]: it is the node itself, its vote was
    known before the call, or it is in the message. *)
Definition voted (r0 : raft) (m : Message) (t v : Z) : Prop :=
  v = rid r0 \/ (rstate r0 = StateCandidate /\ rTerm r0 = t /\ Votes (prs r0) !! v = Some true) \/
  (grant m /\ mtFrom m = v /\ mtTerm m = t).

(** The election part of a node that started a call on [m] as [r0]: the term does
    not fall, the vote of a term is not changed, a candidate has the votes it
    counts, and a leader won with a quorum, unless it was the leader before. A
    follower that is not in its configuration stays one. *)
Definition fair (r0 : raft) (m : Message) '((i, t, v, ro, st, vs, cf) : Z * Z * Z * RaftState * stepFunc * gmap Z bool * (Config * bool)) : Prop :=
  i = rid r0 /\ st = role_step ro /\ 1 <= rTerm r0 <= t /\ (t = rTerm r0 -> rVote r0 <> NoNode -> v = rVote r0) /\
  (ro = StateCandidate -> v = i /\ forall id, vs !! id = Some true -> voted r0 m t id) /\
  (ro = StateLeader -> v = i /\ ((rstate r0 = StateLeader /\ rTerm r0 = t) \/
     exists S, joint_quorum (Voters (tConfig (prs r0))) S /\ forall id, id ∈ S -> voted r0 m t id)) /\
  (rstate r0 = StateFollower -> listed r0 = false -> ro = StateFollower).

Lemma fair_start r0 m : node_ok r0 -> fair r0 m (election_part r0).
Proof.
  intros (_ & Hterm & Hst & Hv). unfold fair, election_part. split_and!; [done|done|lia|lia|done| | |auto].
  - intros E. split; [auto|]. intros id Hid. right; left. done.
  - intros E. split; [auto|]. by left.
Qed.

Lemma fair_follower r0 m i t v ro st vs cf t' : fair r0 m (i, t, v, ro, st, vs, cf) -> t <= t' ->
  fair r0 m (i, t', (if t =? t' then v else NoNode), StateFollower, stepFollower_f, ∅, cf).
Proof.
  intros (? & ? & ? & Hv & _ & _) Ht. unfold fair. split_and!; [done|done|lia|lia| |done|done|done].
  intros -> Hne. destruct (Z.eqb_spec t (rTerm r0)); [auto|lia].
Qed.

(** The node may campaign. *)
Definition eligible (r0 : raft) : Prop := rstate r0 = StateFollower -> listed r0 = true.

Lemma fair_candidate r0 m i t v ro st vs cf : fair r0 m (i, t, v, ro, st, vs, cf) -> 0 <= t < MaxUint64 -> eligible r0 ->
  fair r0 m (i, u64 (t + 1), i, StateCandidate, stepCandidate_f, ∅, cf).
Proof.
  intros (? & ? & ? & _ & _ & _) Ht He. unfold fair. rewrite u64_id by (unfold MaxUint64 in *; lia).
  split_and!; [done|done|lia|lia|lia| |done|]; [|intros Hf; by rewrite (He Hf)]. intros _. split; [done|]. intros id. by rewrite lookup_empty.
Qed.

Lemma fair_precandidate r0 m i t v ro st vs cf : fair r0 m (i, t, v, ro, st, vs, cf) -> eligible r0 ->
  fair r0 m (i, t, v, StatePreCandidate, stepCandidate_f, ∅, cf).
Proof. intros (? & ? & ? & ? & _ & _) He. unfold fair. do 6 (split; [done|]). intros Hf. by rewrite (He Hf). Qed.

Lemma fair_votes r0 m i t v ro st vs vs' cf : fair r0 m (i, t, v, ro, st, vs, cf) ->
  (ro = StateCandidate -> forall id, vs' !! id = Some true -> vs !! id = Some true \/ voted r0 m t id) ->
  fair r0 m (i, t, v, ro, st, vs', cf).
Proof.
  intros (? & ? & ? & ? & Hc & ?) Hvs. unfold fair. do 4 (split; [done|]). split; [|done].
  intros E. destruct (Hc E) as [? Hev]. split; [done|]. intros id Hid. destruct (Hvs E id Hid); auto.
Qed.

Lemma fair_leader r0 m i t v st vs cf k : fair r0 m (i, t, v, StateCandidate, st, vs, cf) ->
  cf = conf_part r0 -> joint_VoteResult k (Voters cf.1) vs = VoteWon ->
  fair r0 m (i, t, v, StateLeader, stepLeader_f, ∅, cf).
Proof.
  intros (? & ? & ? & ? & Hc & _ & Hel) Hcf Hwon. destruct (Hc eq_refl) as [? Hev]. unfold fair.
  do 5 (split; [done|]). split; [|intros Hf Hn; discriminate (Hel Hf Hn)].
  intros _. split; [done|]. right. exists (yes vs). split.
  - rewrite Hcf in Hwon. rewrite joint_VoteResult_spec in Hwon. by repeat case_decide.
  - intros id Hid. apply Hev. by apply elem_of_yes.
Qed.

(** The invariant of a call that has not given its vote to another node. *)
Record calling (r0 : raft) (m : Message) (r : raft) : Prop := {
  call_fair : fair r0 m (election_part r);
  call_conf : conf_part r = conf_part r0;
  call_msgs : exists ms, msgs r = msgs r0 ++ ms /\ Forall plain ms
}.

Lemma calling_start r0 m : node_ok r0 -> calling r0 m r0.
Proof.
  intros H. split; [by apply fair_start|done|]. exists []. split; [by rewrite app_nil_r|constructor].
Qed.

Lemma calling_becomes r0 m i t v ro st vs r r' : calling r0 m r ->
  becomes (i, t, v, ro, st, vs, conf_part r) r r' ->
  fair r0 m (i, t, v, ro, st, vs, conf_part r) -> calling r0 m r'.
Proof.
  intros [_ Hcf (ms & M & F)] [E (ms' & M' & F')] Hf. split.
  - by rewrite E.
  - apply part_inv in E as (_ & _ & _ & _ & _ & _ & E). by rewrite E.
  - exists (ms ++ ms'). rewrite M', M, <- app_assoc. split; [done|]. by apply Forall_app.
Qed.

Lemma calling_quiet r0 m r r' : calling r0 m r -> quiet r r' -> calling r0 m r'.
Proof.
  intros Hc [E M]. eapply calling_becomes; [exact Hc|split; [exact E|exact M]|apply Hc].
Qed.

Lemma calling_term r0 m r : calling r0 m r -> 1 <= rTerm r.
Proof. intros [(_ & _ & ? & _) _ _]. cbn in *. lia. Qed.

Lemma calling_calm {A} r0 m r (f : R A) : calling r0 m r -> calm f -> post f (fun _ => calling r0 m) r.
Proof.
  intros Hc Hf. eapply post_mono; [apply Hf; by eapply calling_term|]. intros a r' H. by eapply calling_quiet.
Qed.

(** A calm computation in a call, and what it leaves alone. *)
Lemma calling_calm_bind {A B} r0 m r (f : R A) (k : A -> R B) Q : calling r0 m r -> calm f ->
  (forall a r', calling r0 m r' -> quiet r r' -> post (k a) Q r') -> post (f ≫= k) Q r.
Proof.
  intros Hc Hf Hk. apply post_bind. eapply post_mono; [apply Hf; by eapply calling_term|]. intros a r' H. apply Hk; [by eapply calling_quiet|done].
Qed.

Lemma calling_follower r0 m r t l : calling r0 m r -> rTerm r <= t ->
  post (becomeFollower t l) (fun _ r' => calling r0 m r' /\ rstate r' = StateFollower /\ rTerm r' = t) r.
Proof.
  intros Hc Ht. eapply post_mono; [apply becomeFollower_post; pose proof (calling_term _ _ _ Hc); lia|]. intros [] r' H. split.
  - eapply calling_becomes; [exact Hc|exact H|]. eapply fair_follower; [apply Hc|done].
  - parts H. done.
Qed.

Lemma RecordVote_votes id v p : Votes (RecordVote id v p) = match Votes p !! id with Some _ => Votes p | None => <[id := v]> (Votes p) end.
Proof. unfold RecordVote. by destruct (Votes p !! id). Qed.
Lemma RecordVote_conf id v r : conf_part (set_prs (RecordVote id v (prs r)) r) = conf_part r.
Proof. unfold conf_part, listed, RecordVote. cbn. by destruct (Votes (prs r) !! id). Qed.

Lemma TallyVotes_result k p : snd (TallyVotes k p) = joint_VoteResult (S k) (Voters (tConfig p)) (Votes p).
Proof. unfold TallyVotes. by destruct (fold_left _ _ _). Qed.

Lemma calling_poll r0 m r id v : calling r0 m r ->
  (v = true -> rstate r = StateCandidate -> voted r0 m (rTerm r) id) ->
  post (poll id v) (fun '(_, _, res) r' => calling r0 m r' /\ rstate r' = rstate r /\ rTerm r' = rTerm r /\
    (res = VoteWon -> exists k, joint_VoteResult k (Voters (tConfig (prs r'))) (Votes (prs r')) = VoteWon)) r.
Proof.
  intros Hc Hv. unfold poll. eapply becomes_modify; [apply becomes_refl|reflexivity|done|]. intros r1 H.
  unfold election_part in H. cbn [set_prs rid rTerm rVote rstate step prs] in H. rewrite RecordVote_votes, RecordVote_conf in H.
  eapply becomes_calm; [exact H|by eapply calling_term|apply calm_draw|]. clear H. intros k r2 H. apply post_get.
  assert (calling r0 m r2) as Hc2.
  { eapply calling_becomes; [exact Hc|exact H|]. eapply fair_votes; [apply Hc|]. intros Hcand id' Hid'. cbn in *.
    destruct (Votes (prs r) !! id) eqn:Eid; [by left|]. apply lookup_insert_Some in Hid' as [[<- ->]|[_ ?]]; auto. }
  unfold post. cbn. pose proof (TallyVotes_result k (prs r2)) as Hres. destruct (TallyVotes k (prs r2)) as [[g j] res].
  cbn in Hres. parts H. split_and!; [done..|]. intros ->. eauto.
Qed.

Lemma calling_leader r0 m r k : calling r0 m r -> rstate r = StateCandidate ->
  joint_VoteResult k (Voters (tConfig (prs r))) (Votes (prs r)) = VoteWon ->
  post becomeLeader (fun _ => calling r0 m) r.
Proof.
  intros Hc Hcand Hwon. eapply post_mono; [apply becomeLeader_post; by eapply calling_term|]. intros [] r' H.
  eapply calling_becomes; [exact Hc|exact H|]. pose proof (call_fair _ _ _ Hc) as Hf. unfold election_part in Hf.
  rewrite Hcand in Hf. eapply fair_leader; [exact Hf| |exact Hwon]. by rewrite (call_conf _ _ _ Hc).
Qed.

Lemma calling_rid r0 m r : calling r0 m r -> rid r = rid r0.
Proof. intros Hc. apply (call_fair _ _ _ Hc). Qed.

Lemma voted_self r0 m r : calling r0 m r -> voted r0 m (rTerm r) (rid r).
Proof. intros Hc. left. by eapply calling_rid. Qed.

Lemma calling_campaign_election r0 m r t : calling r0 m r -> 0 <= rTerm r < MaxUint64 -> eligible r0 ->
  post (campaign_election t) (fun _ => calling r0 m) r.
Proof.
  intros Hc Ht Hel. unfold campaign_election. apply post_bind. eapply post_mono.
  { apply becomeCandidate_post. rewrite u64_id; unfold MaxUint64 in *; lia. }
  intros [] r1 H1. assert (calling r0 m r1) as Hc1.
  { eapply calling_becomes; [exact Hc|exact H1|]. eapply fair_candidate; [apply Hc|done|done]. }
  parts H1. apply post_get. apply post_bind.
  eapply post_mono; [apply calling_poll; [exact Hc1|intros; by eapply voted_self]|].
  intros [[g j] res] r2 (Hc2 & Hs2 & Ht2 & Hw). destruct (bool_decide_reflect (res = VoteWon)) as [E|].
  - destruct (Hw E) as [k Hk]. eapply calling_leader; [exact Hc2|congruence|exact Hk].
  - eapply calling_calm; [exact Hc2|by apply calm_request_votes].
Qed.

Lemma calling_campaign r0 m r t : calling r0 m r -> 0 <= rTerm r < MaxUint64 -> eligible r0 ->
  post (campaign t) (fun _ => calling r0 m) r.
Proof.
  intros Hc Ht Hel. unfold campaign. destruct (bool_decide _); [|by apply calling_campaign_election].
  apply post_bind. eapply post_mono; [apply becomePreCandidate_post; by eapply calling_term|]. intros [] r1 H1.
  assert (calling r0 m r1) as Hc1.
  { eapply calling_becomes; [exact Hc|exact H1|]. eapply fair_precandidate; [apply Hc|done]. }
  parts H1. apply post_get. apply post_bind.
  eapply post_mono; [apply calling_poll; [exact Hc1|congruence]|]. intros [[g j] res] r2 (Hc2 & Hs2 & Ht2 & Hw).
  destruct (bool_decide _).
  - apply calling_campaign_election; [done| |done]. congruence.
  - eapply calling_calm; [exact Hc2|by apply calm_request_votes].
Qed.

Lemma promotable_listed (r : raft) : promotable r = true -> listed r = true.
Proof. unfold promotable, listed. by destruct (tProgress (prs r) !! rid r). Qed.

Lemma calling_hup r0 m r t : calling r0 m r -> 0 <= rTerm r < MaxUint64 -> post (hup t) (fun _ => calling r0 m) r.
Proof.
  intros Hc Ht. unfold hup. apply post_get.
  destruct (bool_decide _); [done|]. destruct (promotable r) eqn:Hpr; [|done]. cbn [negb].
  eapply calling_calm_bind; [done|calm_go|]. intros ents r1 Hc1 [E1 _].
  eapply calling_calm_bind; [done|calm_go|]. intros ents' r2 Hc2 [E2 _].
  destruct (_ && _); [done|]. apply calling_campaign; [done| |].
  2:{ intros _. pose proof (call_conf _ _ _ Hc) as E. injection E as _ <-. by apply promotable_listed. }
  assert (rTerm r2 = rTerm r) as -> by (unfold election_part in *; congruence). done.
Qed.

(** The end of a call. Votes that were given to others are recorded. *)
Record elected_from (r0 : raft) (m : Message) (r : raft) : Prop := {
  ef_fair : fair r0 m (election_part r);
  ef_msgs : exists ms, msgs r = msgs r0 ++ ms /\
    Forall (fun x => stamped x /\ (grant x -> mtFrom x = rid r0 /\ mtTerm x = rTerm r /\ mtTo x = rVote r)) ms
}.

Lemma no_grants (P : Message -> Prop) ms : Forall plain ms -> Forall (fun x => stamped x /\ (grant x -> P x)) ms.
Proof. intros H. eapply Forall_impl; [exact H|]. by intros x [? ?]. Qed.

Lemma calling_elected r0 m r : calling r0 m r -> elected_from r0 m r.
Proof. intros [Hf _ (ms & M & F)]. split; [done|]. exists ms. split; [done|by apply no_grants]. Qed.

Lemma calling_eligible r0 m r : calling r0 m r -> rstate r <> StateFollower -> eligible r0.
Proof.
  intros Hc Hne Hf. destruct (call_fair _ _ _ Hc) as (_ & _ & _ & _ & _ & _ & Hel).
  destruct (listed r0); [done|]. by destruct Hne, (Hel Hf eq_refl).
Qed.

Lemma calling_count_vote r0 m r : calling r0 m r -> 0 <= rTerm r < MaxUint64 ->
  rstate r = StateCandidate \/ rstate r = StatePreCandidate ->
  (rstate r = StateCandidate -> mtType m = MsgVoteResp /\ mtTerm m = rTerm r) ->
  post (count_vote m) (fun _ => calling r0 m) r.
Proof.
  intros Hc Ht Hrole Hm. unfold count_vote. apply post_get. apply post_bind.
  eapply post_mono; [apply calling_poll; [exact Hc|]|].
  { intros Hv Hcand. destruct (Hm Hcand). right; right. split; [split; [done|by destruct (mtReject m)]|done]. }
  intros [[g j] res] r1 (Hc1 & Hs1 & Ht1 & Hw). destruct res; [done| |].
  - eapply post_mono; [eapply calling_follower; [exact Hc1|lia]|]. by intros a r2 [? _].
  - destruct (bool_decide_reflect (rstate r = StatePreCandidate)) as [|Hne].
    + apply calling_campaign; [done|by rewrite Ht1|]. eapply calling_eligible; [exact Hc|]. by destruct Hrole as [->| ->].
    + destruct Hrole as [Hcand|]; [|done]. destruct (Hw eq_refl) as [k Hk]. apply post_bind.
      eapply post_mono; [eapply calling_leader; [exact Hc1|congruence|exact Hk]|].
      intros [] r2 Hc2. eapply calling_calm; [exact Hc2|eauto with calm].
Qed.

(** A node that is a follower stays one when its configuration is replaced. *)
Definition following (r0 : raft) (m : Message) (r : raft) : Prop :=
  rstate r = StateFollower /\ fair r0 m (election_part r) /\
  exists ms, msgs r = msgs r0 ++ ms /\ Forall plain ms.

Lemma calling_following r0 m r : calling r0 m r -> rstate r = StateFollower -> following r0 m r.
Proof. intros [] ?. done. Qed.

Lemma following_elected r0 m r : following r0 m r -> elected_from r0 m r.
Proof. intros (_ & Hf & (ms & M & F)). split; [done|]. exists ms. split; [done|by apply no_grants]. Qed.

Lemma following_becomes r0 m vs cf r r' : following r0 m r ->
  becomes (rid r, rTerm r, rVote r, rstate r, step r, vs, cf) r r' -> following r0 m r'.
Proof.
  intros (Hs & Hf & (ms & M & F)) [E (ms' & M' & F')].
  split; [apply part_inv in E as (_ & _ & _ & E & _); congruence|]. split.
  - rewrite E. unfold election_part in Hf. rewrite Hs in *. destruct Hf as (? & ? & ? & ? & _ & _). done.
  - exists (ms ++ ms'). rewrite M', M, <- app_assoc. split; [done|]. by apply Forall_app.
Qed.

Lemma following_term r0 m r : following r0 m r -> 1 <= rTerm r.
Proof. intros (_ & (_ & _ & ? & _) & _). cbn in *. lia. Qed.

Lemma following_calm {A B} r0 m r (f : R A) (k : A -> R B) Q : following r0 m r -> calm f ->
  (forall a r', following r0 m r' -> post (k a) Q r') -> post (f ≫= k) Q r.
Proof.
  intros Hc Hf Hk. apply post_bind. eapply post_mono; [apply Hf; by eapply following_term|]. intros a r' [E M]. apply Hk.
  eapply following_becomes; [exact Hc|split; [exact E|exact M]].
Qed.

Lemma following_modify {B} vs cf r0 m r (g : raft -> raft) (k : unit -> R B) Q : following r0 m r ->
  (forall r, election_part (g r) = (rid r, rTerm r, rVote r, rstate r, step r, vs r, cf r) /\ msgs (g r) = msgs r) ->
  (forall r', following r0 m r' -> post (k tt) Q r') -> post (modify g ≫= k) Q r.
Proof.
  intros Hc Hg Hk. apply post_bind. cbn. apply Hk. destruct (Hg r) as [E M].
  eapply following_becomes; [exact Hc|split; [exact E|]]. exists []. split; [by rewrite M, app_nil_r|constructor].
Qed.

Lemma following_end {A} r0 m r (f : R A) : following r0 m r -> calm f -> post f (fun _ => following r0 m) r.
Proof.
  intros Hc Hf. eapply post_mono; [apply Hf; by eapply following_term|]. intros a r' [E M].
  eapply following_becomes; [exact Hc|split; [exact E|exact M]].
Qed.

Lemma following_switchToConfig r0 m r cfg ps : following r0 m r ->
  post (switchToConfig cfg ps) (fun _ => following r0 m) r.
Proof.
  intros Hc. unfold switchToConfig.
  eapply (following_modify (fun r => Votes (prs r)) (fun r => (cfg, bool_decide (is_Some (ps !! rid r))))); [exact Hc|done|]. intros r1 H1. apply post_get.
  eapply (following_modify (fun r => Votes (prs r)) conf_part); [exact H1|done|]. intros r2 H2.
  assert (bool_decide (rstate r1 = StateLeader) = false) as ->.
  { apply bool_decide_false. destruct H1 as [-> _]. done. }
  rewrite andb_false_r. exact H2.
Qed.

Ltac go_following H := eapply following_calm; [exact H|solve [calm_go]|clear H; intros ? ? H].

Lemma following_restore r0 m r s : following r0 m r -> post (restore s) (fun _ => following r0 m) r.
Proof.
  intros H. unfold restore. apply post_get. destruct (_ <=? _); [done|].
  rewrite (bool_decide_true (rstate r = StateFollower)) by (by destruct H). cbn [negb].
  destruct (negb _); [done|]. go_following H. destruct a; [by do 3 (go_following H)|]. go_following H.
  eapply (following_modify (fun _ => ∅) (fun r => (mkConfig ∅ None false None None, bool_decide (is_Some ((∅ : ProgressMap) !! rid r))))); [exact H|done|]. clear H. intros r1 H.
  apply post_get. do 2 (go_following H). destruct a1 as [cfg ps]. apply post_bind.
  eapply post_mono; [apply following_switchToConfig; exact H|]. clear H. intros cs r2 H.
  unfold assertConfStatesEquivalent. do 4 (go_following H). done.
Qed.

Lemma following_handleSnapshot r0 m r x : following r0 m r -> post (handleSnapshot x) (fun _ => following r0 m) r.
Proof.
  intros H. unfold handleSnapshot. apply post_bind. eapply post_mono; [apply following_restore; exact H|].
  clear H. intros ok r1 H. destruct ok; [go_following H; eapply following_end; [exact H|calm_go]|].
  apply post_get. eapply following_end; [exact H|calm_go].
Qed.

(* ===================================================================== *)
(** ** Step                                                              *)
(* ===================================================================== *)

Abbreviation ends r0 m := (fun _ => elected_from r0 m).

(** The rest of a branch is [fine]. *)
Lemma ends_fine {A} r0 m r (f : R A) : post f (ends r0 m) r -> post (f;; fine) (ends r0 m) r.
Proof. intros H. apply post_bind. eapply post_mono; [exact H|]. done. Qed.

Lemma ends_calm {A} r0 m r (f : R A) : calling r0 m r -> calm f -> post f (ends r0 m) r.
Proof. intros Hc Hf. eapply post_mono; [by apply (calling_calm r0 m)|]. intros a r'. apply calling_elected. Qed.

Lemma ends_calling {A} r0 m r (f : R A) : post f (fun _ => calling r0 m) r -> post f (ends r0 m) r.
Proof. intros H. eapply post_mono; [exact H|]. intros a r'. apply calling_elected. Qed.

Lemma quiet_role r r' : quiet r r' -> rstate r' = rstate r /\ rTerm r' = rTerm r /\ step r' = step r.
Proof. intros [E _]. by apply part_inv in E as (? & ? & ? & ? & ? & _). Qed.

Lemma step_follower_post r0 m r : calling r0 m r -> rstate r = StateFollower -> 0 <= rTerm r < MaxUint64 ->
  post (stepFollower m) (ends r0 m) r.
Proof.
  intros Hc Hs Ht. unfold stepFollower. apply post_get.
  destruct (mtType m) eqn:Hty; try (eapply ends_calm; [exact Hc|solve [calm_go]]).
  - eapply calling_calm_bind; [exact Hc|calm_go|]. intros [] r1 Hc1 Q1%quiet_role.
    eapply calling_calm_bind; [exact Hc1|calm_go|]. intros [] r2 Hc2 Q2%quiet_role. apply ends_fine.
    eapply post_mono; [eapply following_handleSnapshot, calling_following; [exact Hc2|]|].
    { destruct Q1 as (? & _), Q2 as (? & _). congruence. }
    intros a r3. apply following_elected.
  - apply ends_fine, ends_calling, calling_hup; done.
Qed.

(** Messages whose handlers rely on their term; [Step] lets them through only in
    the node's own term. *)
Definition of_term (t : MessageType) : bool :=
  match t with MsgApp | MsgHeartbeat | MsgSnap | MsgVote | MsgVoteResp => true | _ => false end.

Definition in_term (m : Message) (r : raft) : Prop := of_term (mtType m) = true -> mtTerm m = rTerm r.

Lemma follower_then {A} r0 m r t l (f : R A) : calling r0 m r -> rTerm r <= t -> calm f ->
  post (becomeFollower t l;; f;; fine) (ends r0 m) r.
Proof.
  intros Hc Ht Hf. apply post_bind. eapply post_mono; [by apply (calling_follower r0 m)|]. intros [] r1 (Hc1 & _).
  by apply ends_fine, ends_calm.
Qed.

Lemma step_candidate_post r0 m r : calling r0 m r -> rstate r = StateCandidate \/ rstate r = StatePreCandidate ->
  0 <= rTerm r < MaxUint64 -> in_term m r -> post (stepCandidate m) (ends r0 m) r.
Proof.
  intros Hc Hs Ht Hin. unfold stepCandidate. apply post_get. unfold in_term, of_term in Hin.
  destruct (mtType m) eqn:Hty; try (eapply ends_calm; [exact Hc|solve [calm_go]]);
    try (apply follower_then; [done|rewrite Hin by done; lia|solve [calm_go]]).
  all: try (case_bool_decide as E; [|by apply calling_elected]; apply ends_fine, ends_calling, calling_count_vote; [done..|];
    intros Hcand; rewrite Hcand in E; try discriminate E; auto).
  all: try (by destruct (bool_decide (rstate r = StatePreCandidate))).
  rewrite Hin by done. apply post_bind. eapply post_mono; [apply (calling_follower r0 m); [done|lia]|].
  intros [] r1 (Hc1 & Hs1 & _). apply ends_fine. eapply post_mono; [by eapply following_handleSnapshot, calling_following|].
  intros a r3. apply following_elected.
Qed.

Lemma calling_stepLeader r0 m0 m r : calling r0 m0 r -> post (stepLeader m) (fun _ => calling r0 m0) r.
Proof.
  intros Hc. destruct (decide (mtType m = MsgCheckQuorum)) as [Hty|]; [|by apply calling_calm, calm_stepLeader].
  unfold stepLeader. apply post_get. rewrite Hty.
  eapply calling_calm_bind; [exact Hc|calm_go|]. intros k r1 Hc1 Q1%quiet_role.
  eapply calling_calm_bind; [exact Hc1|calm_go|]. intros active r2 Hc2 Q2%quiet_role.
  apply post_bind. apply (post_mono _ (fun _ => calling r0 m0)).
  - destruct active; [done|]. eapply post_mono; [apply (calling_follower r0 m0); [done|]|by intros a r3 []].
    destruct Q1 as (_ & ? & _), Q2 as (_ & ? & _). lia.
  - intros [] r3 Hc3. eapply calling_calm; [exact Hc3|calm_go].
Qed.

Lemma call_step_post r0 m r : calling r0 m r -> 0 <= rTerm r < MaxUint64 -> in_term m r ->
  post (call_step m) (ends r0 m) r.
Proof.
  intros Hc Ht Hin. unfold call_step. apply post_get. destruct (call_fair _ _ _ Hc) as (_ & -> & _).
  destruct (rstate r) eqn:Hs; cbn.
  - by apply step_follower_post.
  - apply step_candidate_post; auto.
  - by apply ends_calling, calling_stepLeader.
  - apply step_candidate_post; auto.
Qed.

(** A message as it arrives: one that relies on its term has one. *)
Definition arrives (m : Message) : Prop :=
  0 <= mtTerm m < MaxUint64 /\ (of_term (mtType m) = true -> mtTerm m <> 0).

Lemma stamped_arrives m : stamped m -> 0 <= mtTerm m < MaxUint64 -> arrives m.
Proof. intros [H|[H|H]] Ht; (split; [done|]); [done|by rewrite H..]. Qed.

Lemma step_term_follower r0 m r l : calling r0 m r -> arrives m -> rTerm r < mtTerm m ->
  post (becomeFollower (mtTerm m) l;; mret true) (fun b r' => calling r0 m r' /\ (b = true -> 0 <= rTerm r' < MaxUint64 /\ in_term m r')) r.
Proof.
  intros Hc [Hm _] Hlt. apply post_bind. eapply post_mono; [apply (calling_follower r0 m); [done|lia]|].
  intros [] r1 (Hc1 & _ & E). cbn. unfold in_term. rewrite E. done.
Qed.

Lemma step_term_post r0 m r : calling r0 m r -> 0 <= rTerm r < MaxUint64 -> arrives m ->
  post (step_term m) (fun b r' => calling r0 m r' /\ (b = true -> 0 <= rTerm r' < MaxUint64 /\ in_term m r')) r.
Proof.
  intros Hc Ht Hm. unfold step_term. apply post_get. destruct (Z.eqb_spec (mtTerm m) 0) as [E|_].
  { split; [done|]. intros _. split; [done|]. intros Hty. by apply Hm in Hty. }
  destruct (Z.ltb_spec (rTerm r) (mtTerm m)) as [Hlt|Hge].
  - destruct (_ && _).
    { eapply calling_calm_bind; [exact Hc|calm_go|]. by intros [] r1 Hc1 _. }
    destruct (mtType m) eqn:Hty; try by apply step_term_follower.
    + cbn. split; [done|]. intros _. split; [done|]. unfold in_term. by rewrite Hty.
    + destruct (negb (mtReject m)); [|by apply step_term_follower]. cbn. split; [done|]. intros _. split; [done|].
      unfold in_term. by rewrite Hty.
  - destruct (Z.ltb_spec (mtTerm m) (rTerm r)) as [|Hle].
    + eapply calling_calm_bind; [exact Hc|calm_go|]. by intros [] r1 Hc1 _.
    + split; [done|]. intros _. split; [done|]. intros _. lia.
Qed.

(** A vote is given to another node only if none was given before in this term. *)
Lemma fair_vote r0 m i t v v' ro st vs cf : fair r0 m (i, t, v, ro, st, vs, cf) -> i <> NoNode ->
  (v <> NoNode -> v' = v) -> fair r0 m (i, t, v', ro, st, vs, cf).
Proof.
  intros (? & ? & ? & Hv & Hca & Hl & ?) Hi Hv'. unfold fair. do 3 (split; [done|]). split_and!; [| | |done].
  - intros E Hne. rewrite Hv' by (by rewrite (Hv E Hne)). auto.
  - intros E. destruct (Hca E) as [-> ?]. split; [auto|done].
  - intros E. destruct (Hl E) as [-> ?]. split; [auto|done].
Qed.

Lemma send_grant_post to t r : t <> 0 -> rid r <> NoNode ->
  post (send (set_mtTo to (set_mtTerm t (msg MsgVoteResp)))) (fun _ r' =>
    election_part r' = election_part r /\ msgs r' = msgs r ++ [set_mtFrom (rid r) (set_mtTo to (set_mtTerm t (msg MsgVoteResp)))]) r.
Proof.
  intros Ht Hr. unfold send. apply post_get. cbn. destruct (Z.eqb_spec t 0) as [|_]; [done|]. apply post_bind. cbn.
  unfold post. cbn. by destruct (to =? rid r).
Qed.

Lemma ends_vote r0 m r from t : rid r0 <> NoNode -> calling r0 m r -> t = rTerm r ->
  (rVote r <> NoNode -> from = rVote r) ->
  post (send (set_mtTo from (set_mtTerm t (msg MsgVoteResp)));; modify (set_electionElapsed 0);; modify (set_rVote from)) (ends r0 m) r.
Proof.
  intros Hid Hc -> Hv. pose proof (calling_term _ _ _ Hc) as Ht. pose proof (call_fair _ _ _ Hc) as Hf.
  apply post_bind. eapply post_mono; [apply send_grant_post; [lia|destruct Hf as [E _]; cbn in E; congruence]|].
  intros [] r1 [E M]. cbn. apply part_inv in E as (E1 & E2 & E3 & E4 & E5 & E6 & E7). split.
  - change (fair r0 m (rid r1, rTerm r1, from, rstate r1, step r1, Votes (prs r1), conf_part r1)).
    rewrite E1, E2, E4, E5, E6, E7. eapply fair_vote; [exact Hf| |done].
    destruct Hf as [-> _]. done.
  - destruct Hc as [_ _ (ms & M' & F)]. cbn. rewrite M, M', <- app_assoc. eexists. split; [done|].
    apply Forall_app. split; [by apply no_grants|]. constructor; [|constructor]. split; [left; cbn; lia|].
    intros _. cbn. destruct Hf as [? _]. done.
Qed.

Lemma cast_vote_post r0 m r : rid r0 <> NoNode -> calling r0 m r -> arrives m -> in_term m r ->
  mtType m = MsgVote \/ mtType m = MsgPreVote -> post (cast_vote m) (ends r0 m) r.
Proof.
  intros Hid Hc Hm Hin Hty. unfold cast_vote. apply post_get.
  set (canVote := _ || _). apply post_bind.
  apply (post_mono _ (fun g r1 => calling r0 m r1 /\ quiet r r1 /\ (g = true -> canVote = true))).
  { destruct canVote; [|done]. eapply post_mono; [by eapply calm_ask_log, calling_term|]. intros g r1 Q.
    split; [by eapply calling_quiet|done]. }
  intros g r1 (Hc1 & Q1 & Hg). eapply calling_calm_bind; [exact Hc1|calm_go|]. intros [] r2 Hc2 Q2.
  pose proof (transitivity (R := quiet) Q1 Q2) as Q. clear Q1 Q2 Hc1.
  destruct Hty as [Hty|Hty]; rewrite Hty in *; cbn [voteRespMsgType]; apply post_bind; cbn [lift post].
  - destruct g; [|eapply ends_calm; [exact Hc2|calm_go]]. apply (ends_vote r0 m r2); [done|done| |].
    + rewrite Hin by (by rewrite Hty). by rewrite (quiet_term _ _ Q).
    + intros Hne. destruct Q as [E _]. apply part_inv in E as (_ & _ & Ev & _).
      specialize (Hg eq_refl). unfold canVote in Hg. rewrite Hty in Hg. rewrite bool_decide_false in Hg by done.
      rewrite andb_false_l, orb_false_r in Hg. rewrite Ev in *.
      apply orb_true_iff in Hg as [Hg%Z.eqb_eq|[Hg%Z.eqb_eq _]%andb_true_iff]; [done|by destruct Hne].
  - destruct g; eapply ends_calm; [exact Hc2|calm_go|exact Hc2|calm_go].
Qed.

(** What one message can do to an election. *)
Lemma step_post r0 m r : node_ok r0 -> calling r0 m r -> rTerm r < MaxUint64 -> arrives m ->
  post (Step m) (ends r0 m) r.
Proof.
  intros Hok Hc Ht Hm. pose proof (calling_term _ _ _ Hc). unfold Step. apply post_bind.
  eapply post_mono; [apply (step_term_post r0 m); [done|lia|done]|]. intros b r1 [Hc1 Hb].
  destruct b; [|by apply calling_elected]. destruct (Hb eq_refl) as [Ht1 Hin]. cbn [negb].
  destruct (mtType m) eqn:Hty; try by apply call_step_post.
  - apply post_get, ends_fine, ends_calling, calling_hup; done.
  - apply ends_fine, cast_vote_post; auto; by destruct Hok.
  - apply ends_fine, cast_vote_post; auto; by destruct Hok.
Qed.

(* ===================================================================== *)
(** ** The other calls                                                   *)
(* ===================================================================== *)

(** Messages of a node to itself. *)
Definition internal (t : MessageType) : bool :=
  match t with MsgHup | MsgBeat | MsgCheckQuorum | MsgAppResp => true | _ => false end.

Lemma step_internal_post r0 m0 r m : calling r0 m0 r -> (mtType m = MsgHup -> rTerm r < MaxUint64) ->
  mtTerm m = 0 -> internal (mtType m) = true ->
  post (Step m) (fun _ => calling r0 m0) r.
Proof.
  intros Hc Ht E Hty. pose proof (calling_term _ _ _ Hc). unfold Step, step_term. apply post_bind. apply post_get. rewrite E. cbn [Z.eqb mret M_ret negb].
  unfold post at 1. cbn [mret M_ret negb].
  destruct (mtType m) eqn:Em; try discriminate Hty.
  { specialize (Ht eq_refl). apply post_get. apply post_bind. eapply post_mono; [apply (calling_hup r0 m0); [done|lia]|]. by intros [] r1. }
  all: unfold call_step; apply post_get; destruct (step r); [done| | |by apply calling_stepLeader].
  all: unfold stepFollower, stepCandidate; apply post_get; rewrite Em; try done.
  all: by destruct (bool_decide (rstate r = StatePreCandidate)).
Qed.

Lemma calling_call_tick r0 m0 r : calling r0 m0 r -> rTerm r < MaxUint64 -> post call_tick (fun _ => calling r0 m0) r.
Proof.
  intros Hc Ht. unfold call_tick. apply post_get. destruct (tick r); [done| |].
  - unfold tickElection. eapply calling_calm_bind; [exact Hc|calm_go|]. intros [] r1 Hc1 Q1%quiet_term. apply post_get.
    destruct (_ && _); [|done]. eapply calling_calm_bind; [exact Hc1|calm_go|]. intros [] r2 Hc2 Q2%quiet_term.
    apply post_bind. eapply post_mono; [apply (step_internal_post r0 m0); [done|lia|done|done]|]. done.
  - unfold tickHeartbeat. eapply calling_calm_bind; [exact Hc|calm_go|]. intros [] r1 Hc1 Q1%quiet_term.
    eapply calling_calm_bind; [exact Hc1|calm_go|]. intros [] r2 Hc2 Q2%quiet_term. apply post_get.
    apply post_bind. apply (post_mono _ (fun _ => calling r0 m0)).
    + destruct (_ <=? _); [|done]. eapply calling_calm_bind; [exact Hc2|calm_go|]. intros [] r3 Hc3 Q3%quiet_term.
      apply post_bind. apply (post_mono _ (fun _ => calling r0 m0)).
      * destruct (checkQuorum r2); [|done]. apply post_bind.
        eapply post_mono; [by apply (step_internal_post r0 m0)|]. done.
      * intros [] r4 Hc4. apply post_get. destruct (_ && _); [|done]. eapply calling_calm; [exact Hc4|calm_go].
    + intros [] r3 Hc3. apply post_get. destruct (negb _); [done|]. destruct (_ <=? _); [|done].
      eapply calling_calm_bind; [exact Hc3|calm_go|]. intros [] r4 Hc4 Q4%quiet_term.
      apply post_bind. eapply post_mono; [by apply (step_internal_post r0 m0)|]. done.
Qed.

Lemma calling_advance r0 m0 r rd : calling r0 m0 r -> post (advance rd) (fun _ => calling r0 m0) r.
Proof.
  intros Hc. unfold advance. eapply calling_calm_bind; [exact Hc|calm_go|]. intros [] r1 Hc1 _. apply post_get.
  eapply calling_calm_bind; [exact Hc1|calm_go|]. intros [] r2 Hc2 _.
  apply post_bind. apply (post_mono _ (fun _ => calling r0 m0)).
  - destruct (last (rdEntries rd)) as [e|]; [|done]. apply post_get. apply post_bind. apply (post_mono _ (fun _ => calling r0 m0)).
    + destruct (_ =? _); [|done]. apply post_bind. eapply post_mono; [by apply (step_internal_post r0 m0)|]. done.
    + intros [] r3 Hc3. eapply calling_calm; [exact Hc3|calm_go].
  - intros [] r3 Hc3. eapply calling_calm; [exact Hc3|calm_go].
Qed.

(** A new configuration changes nothing else of the election. *)
Lemma switchToConfig_post cfg ps r : 1 <= rTerm r -> post (switchToConfig cfg ps) (fun _ => becomes
  (rid r, rTerm r, rVote r, rstate r, step r, Votes (prs r), (cfg, bool_decide (is_Some (ps !! rid r)))) r) r.
Proof.
  intros Ht. unfold switchToConfig. pose proof (becomes_refl r) as H. then_modify H. apply post_get. then_modify H.
  destruct (_ && _); [exact H|]. destruct (_ || _); [exact H|]. do 2 (then_calm H). apply post_get. then_calm H. exact H.
Qed.

Lemma ends_applyConfChange r0 m0 r cc : calling r0 m0 r -> post (applyConfChange cc) (ends r0 m0) r.
Proof.
  intros Hc. unfold applyConfChange. apply post_get.
  eapply calling_calm_bind; [exact Hc|calm_go|]. intros li r1 Hc1 _.
  eapply calling_calm_bind; [exact Hc1|calm_go|]. intros res r2 Hc2 _.
  eapply calling_calm_bind; [exact Hc2|calm_go|]. intros [cfg ps] r3 Hc3 _.
  eapply post_mono; [by eapply switchToConfig_post, calling_term|]. intros cs r' [E (ms' & M' & F')].
  destruct Hc3 as [Hf _ (ms & M & F)]. split; [by rewrite E|]. exists (ms ++ ms').
  rewrite M', M, <- app_assoc. split; [done|]. apply no_grants. by apply Forall_app.
Qed.

(* ===================================================================== *)
(** ** New nodes                                                         *)
(* ===================================================================== *)

(** Nothing is sent, and no vote is given. *)
Definition hushed (r r' : raft) : Prop := rid r' = rid r /\ msgs r' = msgs r /\ (rVote r = NoNode -> rVote r' = NoNode).

Definition hush {A} (f : R A) : Prop := forall r, post f (fun _ => hushed r) r.

Lemma hush_bind {A B} (f : R A) (k : A -> R B) : hush f -> (forall a, hush (k a)) -> hush (f ≫= k).
Proof.
  intros Hf Hk r. apply post_bind. eapply post_mono; [apply Hf|]. intros a r1 (E1 & M1 & V1).
  eapply post_mono; [apply Hk|]. intros b r2 (E2 & M2 & V2). split_and!; [congruence..|auto].
Qed.

Lemma hush_same {A} (f : R A) : (forall r, post f (fun _ r' => r' = r) r) -> hush f.
Proof. intros Hf r. eapply post_mono; [apply Hf|]. by intros a r' ->. Qed.

Lemma hush_modify g : (forall r, hushed r (g r)) -> hush (modify g).
Proof. intros Hg r. apply Hg. Qed.

Lemma same_lift {A} (o : outcome A) (r : raft) : post (lift o) (fun _ r' => r' = r) r.
Proof. unfold post, lift. by destruct o. Qed.
Lemma same_ask_log {A} (f : raftLog St -> outcome A) r : post (ask_log f) (fun _ r' => r' = r) r.
Proof. apply post_get, same_lift. Qed.

Lemma same_or_panic {A} (o : option A) (r : raft) : post (or_panic o) (fun _ r' => r' = r) r.
Proof. by destruct o. Qed.

Lemma hush_foldM {A B} (f : B -> A -> R B) l b : (forall b a, hush (f b a)) -> hush (foldM f b l).
Proof.
  intros Hf. revert b. induction l as [|a l IH]; intros b; [by apply hush_same|]. apply hush_bind; [apply Hf|apply IH].
Qed.

Ltac hush_go :=
  repeat match goal with
  | |- forall _, _ => intros ?
  | |- hush (_ ≫= _) => apply hush_bind
  | |- hush (forM _ _) => apply hush_foldM
  | |- hush (modify _) => apply hush_modify; intros ?; done
  | |- hush (ask_log _) => apply hush_same; intros; apply same_ask_log
  | |- hush (lift _) => apply hush_same; intros; apply same_lift
  | |- hush (if ?b then _ else _) => destruct b
  | |- hush (or_panic _) => apply hush_same; intros; apply same_or_panic
  | |- hush _ => by apply hush_same
  end.

Lemma hush_becomeFollower t l : hush (becomeFollower t l).
Proof. unfold becomeFollower, reset, resetRandomizedElectionTimeout, abortLeaderTransfer, Visit, draw, update_progress, progress. hush_go. Qed.

(** What a new node has of its saved state. *)
Record started (id : Z) (hs : HardState) (r : raft) : Prop := {
  start_id : rid r = id /\ id <> NoNode;
  start_term : rTerm r = hTerm hs;
  start_vote : rVote r = hVote hs;
  start_role : rstate r = StateFollower /\ step r = stepFollower_f;
  start_msgs : msgs r = []
}.

Lemma switchToConfig_follower cfg ps r : rstate r = StateFollower ->
  post (switchToConfig cfg ps) (fun _ r' => election_part r' = (rid r, rTerm r, rVote r, rstate r, step r, Votes (prs r), (cfg, bool_decide (is_Some (ps !! rid r)))) /\ msgs r' = msgs r) r.
Proof.
  intros Hs. unfold switchToConfig. apply post_bind. cbn. apply post_get. cbn. apply post_bind. cbn. rewrite Hs.
  rewrite (bool_decide_false (StateFollower = StateLeader)), andb_false_r by done. cbn.
  by split; [unfold election_part; cbn; rewrite Hs|].
Qed.

(** The term and the vote that [newRaft] loads. *)
Definition loaded (id : Z) (hs : HardState) (r : raft) : Prop :=
  (rid r = id /\ id <> NoNode) /\ msgs r = [] /\ (hVote hs = NoNode -> rVote r = NoNode) /\
  (1 <= hTerm hs -> rTerm r = hTerm hs /\ rVote r = hVote hs).

Lemma loadState_post id hs r : rid r = id /\ id <> NoNode -> msgs r = [] -> post (loadState hs) (fun _ => loaded id hs) r.
Proof.
  intros Hid Hm. unfold loadState. apply post_get. apply post_bind. eapply post_mono; [apply same_ask_log|]. intros li ? ->.
  by destruct (_ || _).
Qed.

Lemma loaded_log {A} id hs r (m : M (raftLog St) A) : loaded id hs r -> post (zoom log_lens m) (fun _ => loaded id hs) r.
Proof. intros H. unfold post, zoom. by destruct (m _) as [[]| |]. Qed.

Lemma log_position_same r : post log_position (fun _ r' => r' = r) r.
Proof.
  unfold log_position. apply post_bind. eapply post_mono; [apply same_ask_log|]. intros ? ? ->.
  apply post_bind. eapply post_mono; [apply same_ask_log|]. by intros ? ? ->.
Qed.

(** A node that has loaded its state becomes a follower of its term. *)
Lemma loaded_follower id hs r : loaded id hs r ->
  post (becomeFollower (rTerm r) NoNode;; log_position) (fun _ r' => loaded id hs r' /\ (1 <= hTerm hs -> started id hs r')) r.
Proof.
  intros ([Hid Hne] & Hm & Hv & Ht). apply post_bind.
  apply (post_mono _ (fun _ r' => loaded id hs r' /\ (1 <= hTerm hs -> started id hs r'))).
  2:{ intros [] r1 H1. eapply post_mono; [apply log_position_same|]. by intros [] ? ->. }
  destruct (decide (1 <= hTerm hs)) as [H1|H1].
  - destruct (Ht H1) as [Et Ev]. eapply post_mono.
    { apply post_and; [apply becomeFollower_post; lia|apply hush_becomeFollower]. }
    intros [] r' [H (Ei & Em & _)]. parts H. rewrite Z.eqb_refl in *. rewrite Hm in Em.
    split; [|by split; try congruence; split; congruence]. split_and!; [congruence|done|done|congruence|]. intros _. split; congruence.
  - eapply post_mono; [apply hush_becomeFollower|]. intros [] r' (Ei & Em & Evn). split; [|done].
    split_and!; [congruence|done|congruence|auto|done].
Qed.

Lemma newRaft_setup_post c hs cs l k (id := cfgID c) : cfgID c <> NoNode ->
  post (newRaft_setup c hs cs) (fun _ r => loaded id hs r /\ (1 <= hTerm hs -> started id hs r)) (raft_literal c l k).
Proof.
  intros Hid. unfold newRaft_setup. apply post_bind. eapply post_mono; [apply same_ask_log|]. intros li ? ->.
  apply post_get. apply post_bind. eapply post_mono; [apply same_or_panic|]. intros [cfg ps] ? ->.
  apply post_bind. eapply post_mono; [by apply switchToConfig_follower|]. intros cs' r1 [E1 M1].
  apply part_inv in E1 as (Ei & Et & Ev & Er & Es & _). cbn in Ei, Et, Ev, M1.
  apply post_bind. unfold assertConfStatesEquivalent. destruct (Equivalent cs cs'); [|done]. cbn.
  apply post_bind. apply (post_mono _ (fun _ => loaded id hs)).
  { destruct (IsEmptyHardState hs) eqn:He; [|by apply loadState_post]. cbn. split_and!; [done|done|done|done|].
    unfold IsEmptyHardState, isHardStateEqual in He. zb. cbn in *. lia. }
  intros [] r2 H2. apply post_bind. apply (post_mono _ (fun _ => loaded id hs)).
  { destruct (_ <? _); [by apply loaded_log|done]. }
  intros [] r3 H3. apply post_get. by apply loaded_follower.
Qed.

Lemma newRaft_post c k r hs cs (id := cfgID c) : newRaft c k = Ret r -> InitialState (cfgStorage c) = Ret (inl (hs, cs)) ->
  loaded id hs r /\ (1 <= hTerm hs -> started id hs r).
Proof.
  intros H Hi. unfold newRaft in H. destruct (validate c) as [c'|] eqn:Hv; [|done].
  assert (cfgID c' = cfgID c /\ cfgID c' <> NoNode /\ cfgStorage c' = cfgStorage c) as (Ei & Hid & Hst).
  { unfold validate in Hv. destruct (Z.eqb_spec (cfgID c) NoNode); [done|]. repeat case_match; by simplify_eq. }
  rewrite Hst, Hi in H. destruct (newLogWithSize _ _) as [l| |]; [|done..]. cbn -[newRaft_setup] in H.
  pose proof (newRaft_setup_post c' hs cs l k Hid) as Hp. unfold post in Hp.
  destruct (newRaft_setup c' hs cs (raft_literal c' l k)) as [[[] r']| |]; [|done..]. cbn in H. rewrite Ei in Hp. by simplify_eq.
Qed.

Lemma started_applyConfChange id hs r cc : started id hs r -> post (applyConfChange cc) (fun _ => started id hs) r.
Proof.
  intros [Hi Ht Hv [Hr Hs] Hm]. unfold applyConfChange. apply post_get.
  apply post_bind. eapply post_mono; [apply same_ask_log|]. intros li ? ->.
  apply post_bind. apply (post_mono _ (fun _ r' => r' = r)).
  { destruct (V2_LeaveJoint _ _); [done|]. apply post_bind. eapply post_mono; [apply same_lift|]. by intros [? ?] ? ->. }
  intros res ? ->. apply post_bind. eapply post_mono; [apply same_or_panic|]. intros [cfg ps] ? ->.
  eapply post_mono; [by apply switchToConfig_follower|]. intros cs r' [E M]. 
  apply part_inv in E as (E1 & E2 & E3 & E4 & E5 & _). split; try congruence; split; (destruct Hi; congruence).
Qed.

Lemma post_zoom {S T A} (L : lens S T) (m : M T A) (Q : A -> S -> Prop) s :
  post m (fun a t => Q a (put L t s)) (view L s) -> post (zoom L m) Q s.
Proof. unfold post, zoom. by destruct (m (view L s)) as [[]| |]. Qed.

Lemma started_log {A} id hs r (m : M (raftLog St) A) : started id hs r -> post (zoom log_lens m) (fun _ => started id hs) r.
Proof. intros []. apply post_zoom. unfold post. destruct (m _) as [[]| |]; by try split. Qed.

(** The state after [Bootstrap], which gives every node the term 1. *)
Definition first_state : HardState := mkHardState 1 NoNode 0.

Definition booted (id : Z) (x : RawNode) : Prop := started id first_state (rnRaft x) /\ prevHardSt x = zero_HardState.

Lemma booted_raft {A} id x (m : R A) : booted id x -> post m (fun _ => started id first_state) (rnRaft x) ->
  post (zoom raft_lens m) (fun _ => booted id) x.
Proof. intros [_ Hp] H. apply post_zoom. eapply post_mono; [exact H|]. done. Qed.

Lemma Bootstrap_post id x peers : loaded id zero_HardState (rnRaft x) ->
  post (Bootstrap peers) (fun e => match e with None => booted id | Some _ => fun x' => x' = x end) x.
Proof.
  intros ((Hi & Hne) & Hm & Hv & _). unfold Bootstrap. destruct (_ =? 0); [done|]. apply post_get.
  apply post_bind. unfold post at 1, lift. destruct (LastIndex _) as [[li|]| |]; try done. destruct (negb _); [done|].
  apply post_bind. cbn. apply post_bind. apply (post_mono _ (fun _ => booted id)).
  { apply post_zoom. cbn. eapply post_mono; [apply post_and; [by apply becomeFollower_post|apply hush_becomeFollower]|].
    intros [] r' [H (Ei & Em & Ev)]. parts H. split; [|done]. split; cbn; try (split; congruence); try congruence. auto. }
  intros [] x1 H1. apply post_bind. apply (post_mono _ (fun _ x' => x' = x1)).
  { unfold post, lift. by destruct (bootstrap_entries _ _). }
  intros ents ? ->. apply post_bind. eapply post_mono; [apply (booted_raft id); [done|by apply started_log, H1]|].
  clear x1 H1. intros ? x1 H1. apply post_bind.
  eapply post_mono; [apply (booted_raft id); [done|by apply started_log, H1]|]. clear x1 H1. intros ? x1 H1.
  apply post_bind. apply (post_mono _ (fun _ => booted id)); [|done].
  clear ents; revert x1 H1; induction peers as [|p ps IH]; intros x1 H1; [done|]. apply post_bind. apply post_bind.
  eapply post_mono; [apply (booted_raft id); [done|by apply started_applyConfChange, H1]|]. intros ? x2 H2. by apply IH.
Qed.

(** A new member of a group, and one that comes back. *)
Lemma start_post c k x peers y cs : NewRawNode c k = Ret x -> InitialState (cfgStorage c) = Ret (inl (zero_HardState, cs)) ->
  Bootstrap peers x = Ret (None, y) -> booted (cfgID c) y.
Proof.
  intros H Hi Hb. unfold NewRawNode in H. destruct (newRaft c k) as [r| |] eqn:Hr; [|done..]. cbn in H. simplify_eq.
  destruct (newRaft_post c k r _ cs Hr Hi) as [Hl _].
  pose proof (Bootstrap_post (cfgID c) (mkRawNode r (get_softState r) (get_hardState r)) peers Hl) as Hp. unfold post in Hp.
  by rewrite Hb in Hp.
Qed.

Lemma RestartNode_post c k n hs cs : RestartNode c k = Ret n ->
  InitialState (cfgStorage c) = Ret (inl (hs, cs)) -> 1 <= hTerm hs ->
  started (cfgID c) hs (rnRaft (rn n)) /\ prevHardSt (rn n) = get_hardState (rnRaft (rn n)) /\ n = newNode (rn n).
Proof.
  intros H Hi Ht. unfold RestartNode, NewRawNode in H. destruct (newRaft c k) as [r| |] eqn:Hr; [|done..].
  cbn in H. simplify_eq. cbn. destruct (newRaft_post c k r hs cs Hr Hi) as [_ Hs]. auto.
Qed.

End calm.
