(* ===== verification/RaftSafety.v ===== *)
(** * RaftSafety: at most one leader per term (src/etcd/raft)

    A group of nodes, each run by the loop of node.go, over a network that may
    lose, delay, repeat and reorder messages. The application of a node takes a
    [Ready], saves its hard state, and only then sends its messages. A node may
    stop at any time and restart from what it has saved: what it had not saved is
    lost, and so is what it had not sent.

    The configurations of the nodes may differ as long as every two quorums of
    them meet, as they do while one change of the membership is applied
    ([quorums_overlap] of ConfChange.v). *)

From S2P Require Import Prelude RaftPb Quorum RaftStorage RaftLog Tracker ConfChange RaftNode RawNode RaftElection.

Section group.
Context {St : Type} `{!Storage St} {rt : GoRuntime} {env : RaftEnv}.
#[local] Abbreviation raft := (raft St).
#[local] Abbreviation node := (@node St).

(** A member: the running node, the hard state it has saved, and a [Ready] that
    the application has taken and not saved yet. *)
Record member : Type := mkMember { live : node; saved : HardState; taken : option Ready }.

Record group : Type := mkGroup { members : gmap Z member; net : list Message }.

Definition raft_of (p : member) : raft := rnRaft (rn (live p)).

(** The hard state after a [Ready] has been saved. *)
Definition save_hard (rd : Ready) (h : HardState) : HardState :=
  if IsEmptyHardState (rdHardState rd) then h else rdHardState rd.

(** What an application asks of its node. *)
Inductive request : event -> Prop :=
  | ask_tick : request OnTick
  | ask_status : request OnStatus
  | ask_campaign : request node_Campaign
  | ask_propose d : request (node_Propose d)
  | ask_proposeConfChange cc ev : node_ProposeConfChange cc = Ret (Some ev) -> request ev
  | ask_applyConfChange cc : request (node_ApplyConfChange cc)
  | ask_reportUnreachable id : request (node_ReportUnreachable id)
  | ask_reportSnapshot id s : request (node_ReportSnapshot id s)
  | ask_transferLeadership l t : request (node_TransferLeadership l t)
  | ask_readIndex d : request (node_ReadIndex d).

(** The storage is shared with the application, which writes to it. *)
Definition set_storage (st : St) (n : node) : node :=
  let r := rnRaft (rn n) in
  let l := rlog r in
  set_rn (set_rnRaft (set_rlog (mkLog st (unst l) (committed l) (applied l) (maxNextEntsSize l)) r) (rn n)) n.

(** The configurations in use. *)
Context (confs : JointConfig -> Prop).

(** A term is an uint64; no group gets to the last one. *)
Definition small (t : Z) : Prop := 0 <= t < MaxUint64.

(** A node has one of the configurations, or is a follower that is in none: one
    that has restarted without a snapshot learns its configuration again from the
    log. *)
Definition uses (n : node) : Prop :=
  let r := rnRaft (rn n) in
  confs (Voters (tConfig (prs r))) \/ (rstate r = StateFollower /\ listed r = false).

(** The event that one member handles, with what it leaves of the member. *)
Inductive acts (G : group) (i : Z) (p : member) : member -> list Message -> Prop :=
  | act_request ev rep n : request ev -> run_once ev (live p) = Ret (rep, n) -> uses n ->
      acts G i p (mkMember n (saved p) (taken p)) []
  | act_deliver m ev rep n : m ∈ net G -> mtTo m = i -> small (mtTerm m) -> node_Step m = Some ev ->
      run_once ev (live p) = Ret (rep, n) -> uses n -> acts G i p (mkMember n (saved p) (taken p)) []
  | act_ready rd n : run_once OnReady (live p) = Ret (ReadyReply rd, n) -> taken p = None ->
      acts G i p (mkMember n (saved p) (Some rd)) []
  | act_save rd : taken p = Some rd -> acts G i p (mkMember (live p) (save_hard rd (saved p)) None) (rdMessages rd)
  | act_advance rep n : taken p = None -> run_once OnAdvance (live p) = Ret (rep, n) -> uses n ->
      acts G i p (mkMember n (saved p) (taken p)) []
  | act_store st : acts G i p (mkMember (set_storage st (live p)) (saved p) (taken p)) []
  | act_restart c k n cs : cfgID c = i -> InitialState (cfgStorage c) = Ret (inl (saved p, cs)) ->
      1 <= hTerm (saved p) -> RestartNode c k = Ret n -> uses n -> acts G i p (mkMember n (saved p) None) [].

Inductive group_step (G : group) : group -> Prop :=
  | member_acts i p p' ms : members G !! i = Some p -> small (rTerm (raft_of p)) -> acts G i p p' ms ->
      group_step G (mkGroup (<[i := p']> (members G)) (net G ++ ms)).

(** Every member has been started with [StartNode] and an empty storage. *)
Definition group_init (G : group) : Prop :=
  net G = [] /\ forall i p, members G !! i = Some p ->
    saved p = zero_HardState /\ taken p = None /\ uses (live p) /\
    exists c k x peers y cs, cfgID c = i /\ NewRawNode c k = Ret x /\
      InitialState (cfgStorage c) = Ret (inl (zero_HardState, cs)) /\ Bootstrap peers x = Ret (None, y) /\ live p = newNode y.

Definition leads (G : group) (i t : Z) : Prop :=
  exists p, members G !! i = Some p /\ rstate (raft_of p) = StateLeader /\ rTerm (raft_of p) = t.

(* ===================================================================== *)
(** ** The invariant                                                     *)
(* ===================================================================== *)

(** The vote [v] of term [t] is in the saved state or older. *)
Definition covered (h : HardState) (t v : Z) : Prop := t <= hTerm h /\ (t = hTerm h -> v = hVote h).

(** [h'] may follow [h]. *)
Definition hs_le (h h' : HardState) : Prop :=
  hTerm h <= hTerm h' /\ (hTerm h = hTerm h' -> hVote h <> NoNode -> hVote h' = hVote h).

(** The votes that a node sends are its own. *)
Definition owned (own : gmap Z Z) (i : Z) (m : Message) : Prop :=
  stamped m /\ (grant m -> mtFrom m = i /\ (mtTo m <> NoNode -> own !! mtTerm m = Some (mtTo m))).

(** A [Ready] that is not saved yet. *)
Definition pending (own : gmap Z Z) (i : Z) (h : HardState) (r : raft) (rd : Ready) : Prop :=
  let h' := save_hard rd h in
  hs_le h h' /\ hs_le h' (get_hardState r) /\ (hVote h' <> NoNode -> own !! hTerm h' = Some (hVote h')) /\
  Forall (fun m => owned own i m /\ (grant m -> mtTo m <> NoNode -> covered h' (mtTerm m) (mtTo m))) (rdMessages rd).

(** The state that will have been saved when the application is done. *)
Definition handed (p : member) : HardState :=
  match taken p with Some rd => save_hard rd (saved p) | None => saved p end.

(** [own] are the votes the node remembers to have given, and [pub] the votes
    that are saved, of every node. *)
Record member_inv (pub : gmap (Z * Z) Z) (own : gmap Z Z) (i : Z) (p : member) : Prop := {
  mi_ok : node_ok (raft_of p);
  mi_id : rid (raft_of p) = i;
  mi_conf : uses (live p);
  mi_own t v : own !! t = Some v -> v <> NoNode /\ t <= rTerm (raft_of p) /\ (t = rTerm (raft_of p) -> v = rVote (raft_of p));
  mi_vote : rVote (raft_of p) <> NoNode -> own !! rTerm (raft_of p) = Some (rVote (raft_of p));
  mi_pub t v : pub !! (i, t) = Some v -> own !! t = Some v /\ covered (saved p) t v;
  mi_saved : hVote (saved p) <> NoNode -> pub !! (i, hTerm (saved p)) = Some (hVote (saved p));
  mi_prev : hTerm (prevHardSt (rn (live p))) = hTerm (handed p) /\ hVote (prevHardSt (rn (live p))) = hVote (handed p);
  mi_handed : hs_le (handed p) (get_hardState (raft_of p));
  mi_msgs : Forall (owned own i) (msgs (raft_of p));
  mi_ready : readyc (live p) = true -> advancec (live p) = false -> pending own i (handed p) (raft_of p) (loop_rd (live p));
  mi_taken rd : taken p = Some rd -> pending own i (saved p) (raft_of p) rd;
  mi_candidate v : rstate (raft_of p) = StateCandidate -> Votes (prs (raft_of p)) !! v = Some true ->
    v = i \/ pub !! (v, rTerm (raft_of p)) = Some i;
  mi_leader : rstate (raft_of p) = StateLeader -> exists c S, confs c /\ joint_quorum c S /\
    forall v, v ∈ S -> v = i \/ pub !! (v, rTerm (raft_of p)) = Some i
}.

(** A vote on the network is saved. *)
Definition sent (pub : gmap (Z * Z) Z) (m : Message) : Prop :=
  stamped m /\ (grant m -> mtTo m <> NoNode -> pub !! (mtFrom m, mtTerm m) = Some (mtTo m)).

Definition group_inv (pub : gmap (Z * Z) Z) (G : group) : Prop :=
  (forall i p, members G !! i = Some p -> exists own, member_inv pub own i p) /\ Forall (sent pub) (net G).


(* ===================================================================== *)
(** ** A node that moves on                                              *)
(* ===================================================================== *)

#[global] Instance hs_le_preorder : PreOrder hs_le.
Proof.
  split; [done|]. intros h1 h2 h3 [T1 V1] [T2 V2]. split; [lia|]. intros E Hne.
  assert (hVote h2 = hVote h1) as E2 by (apply V1; [lia|done]). rewrite V2; [done|lia|by rewrite E2].
Qed.

Lemma covered_le h h' t v : hs_le h h' -> v <> NoNode -> covered h t v -> covered h' t v.
Proof.
  intros [HT HV] Hv [Ht Hvh]. split; [lia|]. intros E. rewrite HV; [apply Hvh; lia|lia|]. by rewrite <- Hvh by lia.
Qed.

Lemma owned_mono own own' i m : own ⊆ own' -> owned own i m -> owned own' i m.
Proof.
  intros Hs [Hst Hg]. split; [done|]. intros G. destruct (Hg G) as [? Ht]. split; [done|]. intros Hne.
  eapply lookup_weaken; [by apply Ht|done].
Qed.

Lemma pending_mono own own' i h r r' rd : own ⊆ own' -> hs_le (get_hardState r) (get_hardState r') ->
  pending own i h r rd -> pending own' i h r' rd.
Proof.
  intros Hs Hr (H1 & H2 & H3 & H4). split_and!; [done|by etrans| |].
  - intros Hne. eapply lookup_weaken; [by apply H3|done].
  - eapply Forall_impl; [exact H4|]. intros m [? ?]. split; [by eapply owned_mono|done].
Qed.

(** The votes after a call. *)
Definition more_own (own : gmap Z Z) (r : raft) : gmap Z Z :=
  if rVote r =? NoNode then own else <[rTerm r := rVote r]> own.

(** What a call does, as far as elections are concerned; a vote that it counts
    has been saved by its sender. *)
Definition moves (pub : gmap (Z * Z) Z) (i : Z) (r r' : raft) : Prop :=
  exists m, elected_from r m r' /\ (grant m -> mtTo m = i /\ sent pub m).

Section move.
Context (pub : gmap (Z * Z) Z) (own : gmap Z Z) (i : Z) (p : member) (Hp : member_inv pub own i p).
#[local] Abbreviation r := (raft_of p).
Context (r' : raft) (Hmove : moves pub i r r').

Lemma moved_hard : hs_le (get_hardState r) (get_hardState r').
Proof using Hmove.
  destruct Hmove as (m & [(_ & _ & Ht & Hv & _) _] & _). split; cbn; [lia|]. intros E. by apply Hv.
Qed.

Lemma moved_own : own ⊆ more_own own r'.
Proof using Hp Hmove.
  pose proof moved_hard as [HT HV]. cbn in *. unfold more_own. destruct (Z.eqb_spec (rVote r') NoNode) as [|Hne]; [done|].
  apply map_subseteq_spec. intros t v Ht. destruct (decide (t = rTerm r')) as [->|]; [|by rewrite lookup_insert_ne].
  rewrite lookup_insert_eq. destruct (mi_own _ _ _ _ Hp _ _ Ht) as (Hv & Hle & Heq). assert (rTerm r' = rTerm r) as E by lia.
  rewrite (HV (eq_sym E)); rewrite <- (Heq E); done.
Qed.

Lemma moved_own_spec t v : more_own own r' !! t = Some v ->
  v <> NoNode /\ t <= rTerm r' /\ (t = rTerm r' -> v = rVote r').
Proof using Hp Hmove.
  pose proof moved_hard as [HT HV]. cbn in *. unfold more_own. destruct (Z.eqb_spec (rVote r') NoNode) as [E0|Hne].
  - intros Ht. destruct (mi_own _ _ _ _ Hp _ _ Ht) as (Hv & Hle & Heq). split_and!; [done|lia|]. intros E.
    assert (t = rTerm r) as Et by lia. assert (v = rVote r) as Ev by auto. rewrite HV; [done|lia|congruence].
  - intros [[<- <-]|[Hne' Ht]]%lookup_insert_Some; [done|].
    destruct (mi_own _ _ _ _ Hp _ _ Ht) as (Hv & Hle & Heq). split_and!; [done|lia|]. by intros ->.
Qed.

Lemma moved_vote : rVote r' <> NoNode -> more_own own r' !! rTerm r' = Some (rVote r').
Proof.
  intros Hne. unfold more_own. destruct (Z.eqb_spec (rVote r') NoNode); [done|]. apply lookup_insert_eq.
Qed.

Lemma moved_msgs : Forall (owned (more_own own r') i) (msgs r').
Proof using Hp Hmove.
  pose proof moved_own as Hsub. destruct Hmove as (m & [_ (ms & -> & F)] & _). apply Forall_app. split.
  - eapply Forall_impl; [apply (mi_msgs _ _ _ _ Hp)|]. intros x. by apply owned_mono.
  - eapply Forall_impl; [exact F|]. intros x [Hst Hg]. split; [done|]. intros G. destruct (Hg G) as (-> & -> & ->).
    split; [by apply (mi_id _ _ _ _ Hp)|apply moved_vote].
Qed.

Lemma moved_voted m t v : (grant m -> mtTo m = i /\ sent pub m) -> voted r m t v ->
  v = i \/ pub !! (v, t) = Some i.
Proof using Hp.
  intros Hm [->|[(Hc & <- & Hv)|(G & <- & <-)]].
  - left. apply Hp.
  - by apply (mi_candidate _ _ _ _ Hp).
  - right. destruct (Hm G) as [To [_ Hs]]. rewrite <- To. apply Hs; [done|]. rewrite To, <- (mi_id _ _ _ _ Hp).
    by destruct (mi_ok _ _ _ _ Hp).
Qed.

(** The rest of the member, which no call of the node changes. *)
Lemma member_moves p' : raft_of p' = r' -> saved p' = saved p -> taken p' = taken p ->
  prevHardSt (rn (live p')) = prevHardSt (rn (live p)) -> uses (live p') ->
  (readyc (live p') = true -> advancec (live p') = false ->
     readyc (live p) = true /\ advancec (live p) = false /\ loop_rd (live p') = loop_rd (live p)) ->
  member_inv pub (more_own own r') i p'.
Proof using Hp Hmove.
  intros Er Es Et Eh Hu Hrd. pose proof moved_own as Hsub. pose proof moved_hard as Hhard.
  assert (handed p' = handed p) as Eha by (unfold handed; by rewrite Es, Et).
  pose proof Hmove as (m & [(Hid & Hst & Ht & _ & Hc & Hl & Hel) _] & Hm).
  split; rewrite ?Er, ?Es, ?Eha, ?Eh.
  - destruct (mi_ok _ _ _ _ Hp) as (Hn & _). split_and!; [congruence|lia|done|]. intros [E|E]; [by apply Hc|by apply Hl].
  - rewrite Hid. apply Hp.
  - done.
  - apply moved_own_spec.
  - apply moved_vote.
  - intros t v Hpub. destruct (mi_pub _ _ _ _ Hp _ _ Hpub). split; [by eapply lookup_weaken|done].
  - apply Hp.
  - apply Hp.
  - etrans; [apply Hp|done].
  - apply moved_msgs.
  - intros R A. destruct (Hrd R A) as (R0 & A0 & ->). eapply pending_mono; [done..|]. by apply (mi_ready _ _ _ _ Hp).
  - intros rd. rewrite Et. intros Hrd'. eapply pending_mono; [done..|]. by apply (mi_taken _ _ _ _ Hp).
  - intros v E Hv. eapply moved_voted; [done|]. by apply Hc.
  - intros E. destruct (Hl E) as [_ [[E0 <-]|(S & HS & Hall)]].
    + by apply (mi_leader _ _ _ _ Hp).
    + destruct (mi_conf _ _ _ _ Hp) as [Hcf|[Hf Hn]]; [|by rewrite (Hel Hf Hn) in E].
      exists (Voters (tConfig (prs r))), S. split_and!; [done|done|]. intros v Hv. eapply moved_voted; [done|]. auto.
Qed.
End move.

(* ===================================================================== *)
(** ** A round of the loop                                               *)
(* ===================================================================== *)

(** A [Ready] made from the state of the node holds its hard state. *)
Lemma fresh_pending pub own i p rd : member_inv pub own i p -> readyWithoutAccept (rn (live p)) = Ret rd ->
  pending own i (handed p) (raft_of p) rd.
Proof.
  intros Hp Hrd. unfold readyWithoutAccept, newReady in Hrd. destruct (nextEnts _) as [es| |]; [|done..].
  cbn in Hrd. injection Hrd as <-. set (rd := mkReady _ _ _ _ _ _ _ _).
  fold (raft_of p) in *. pose proof (mi_prev _ _ _ _ Hp) as [PT PV]. destruct (mi_ok _ _ _ _ Hp) as (_ & Ht & _).
  assert (hTerm (save_hard rd (handed p)) = rTerm (raft_of p) /\ hVote (save_hard rd (handed p)) = rVote (raft_of p)) as [ET EV].
  { unfold save_hard, rd. cbn. destruct (isHardStateEqual _ _) eqn:E; cbn.
    - unfold isHardStateEqual in E. cbn in E. zb. split; lia.
    - unfold IsEmptyHardState, isHardStateEqual. cbn. destruct (Z.eqb_spec (rTerm (raft_of p)) 0); [lia|]. done. }
  split_and!.
  - destruct (mi_handed _ _ _ _ Hp) as [HT HV]. cbn in *. split; rewrite ET; [done|]. intros E Hne. rewrite EV. auto.
  - split; rewrite ET; [done|]. intros _ _. by rewrite EV.
  - rewrite ET, EV. apply Hp.
  - eapply Forall_impl; [apply (mi_msgs _ _ _ _ Hp)|]. intros m Hm. split; [done|]. intros G Hne.
    destruct Hm as [_ Hg]. destruct (Hg G) as [_ Ho]. apply (mi_own _ _ _ _ Hp) in Ho as (_ & Hle & Heq); [|done].
    split; rewrite ET; [done|]. rewrite EV. done.
Qed.

Lemma run_top_spec n n1 : run_top n = Ret n1 -> rn n1 = rn n /\ advancec n1 = advancec n /\
  (advancec n = true -> readyc n1 = false) /\
  (readyc n1 = true -> (readyc n = true /\ loop_rd n1 = loop_rd n) \/ readyWithoutAccept (rn n) = Ret (loop_rd n1)).
Proof.
  unfold run_top. intros H. destruct (arm_ready n) as [n2| |] eqn:Ha; [|done..]. cbn in H. injection H as <-.
  assert (rn n2 = rn n /\ advancec n2 = advancec n /\ (advancec n = true -> readyc n2 = false) /\
    (readyc n2 = true -> (readyc n = true /\ loop_rd n2 = loop_rd n) \/ readyWithoutAccept (rn n) = Ret (loop_rd n2))) as Hn2.
  2:{ unfold watch_leader. by destruct (_ =? _). }
  unfold arm_ready in Ha. destruct (advancec n) eqn:Hadv; [injection Ha as <-; by split_and!|].
  destruct (HasReady (rn n)) as [[]| |] eqn:Hh; cbn in Ha; [|by injection Ha as <-; split_and!; auto|done..].
  destruct (readyWithoutAccept (rn n)) as [rd| |] eqn:Hrd; cbn in Ha; [|done..]. injection Ha as <-. cbn. auto.
Qed.

Lemma top_inv pub own i p n1 : member_inv pub own i p -> run_top (live p) = Ret n1 ->
  member_inv pub own i (mkMember n1 (saved p) (taken p)).
Proof.
  intros Hp Htop. destruct (run_top_spec _ _ Htop) as (En & Ea & Hadv & Hr). pose proof (fresh_pending _ _ _ _ (loop_rd n1) Hp) as Hf.
  destruct Hp. split; unfold raft_of, uses in *; cbn in *; rewrite ?En; try done.
  intros R A. destruct (Hr R) as [[R0 ->]|Hfresh]; [|by apply Hf]. apply mi_ready0; congruence.
Qed.

(** The events that make the node call something. *)
Definition calls (pub : gmap (Z * Z) Z) (i : Z) (ev : event) : Prop :=
  match ev with
  | OnProp m => mtType m = MsgProp /\ small (mtTerm m)
  | OnRecv m => arrives m /\ (grant m -> mtTo m = i /\ sent pub m)
  | OnReady => False
  | _ => True
  end.

Definition untouched (n n' : node) : Prop :=
  prevHardSt (rn n') = prevHardSt (rn n) /\
  (readyc n' = true -> advancec n' = false -> readyc n = true /\ advancec n = false /\ loop_rd n' = loop_rd n).

Lemma moves_calling pub i r m r' : ~ grant m -> calling r m r' -> moves pub i r r'.
Proof. intros Hm Hc. exists m. split; [by apply calling_elected|done]. Qed.

(** A call in the loop. *)
Lemma loop_call {A B} (f : M raft A) (k : A -> M node B) (n : node) Q :
  post f (fun a r' => post (k a) Q (set_rn (set_rnRaft r' (rn n)) n)) (rnRaft (rn n)) ->
  post (zoom rn_lens (zoom raft_lens f) ≫= k) Q n.
Proof. intros H. apply post_bind. apply post_zoom, post_zoom. exact H. Qed.

Lemma not_grant t : t <> MsgVoteResp -> ~ grant (msg t).
Proof. by intros H [E _]. Qed.

Lemma select_moves pub i n ev (r := rnRaft (rn n)) : node_ok r -> rTerm r < MaxUint64 -> calls pub i ev ->
  (advancec n = true -> readyc n = false) ->
  post (select_case ev) (fun _ n' => moves pub i r (rnRaft (rn n')) /\ untouched n n') n.
Proof.
  intros Hok Ht Hev Hadv. pose proof (fun m => calling_start r m Hok) as Hc.
  assert (forall t r', t <> MsgVoteResp -> calling r (msg t) r' -> moves pub i r r') as Hmc.
  { intros t r' Hne. by apply moves_calling, not_grant. }
  unfold select_case. apply post_get. destruct ev as [m|m|cc| | | |]; cbn in Hev.
  - destruct (negb (propc n)); [done|]. apply loop_call. eapply post_mono.
    { apply (step_post r (set_mtFrom (rid r) m)); [done|apply Hc|done|].
      split; [apply Hev|]. cbn. destruct Hev as [-> _]. done. }
    intros e r' H. split; [|done]. exists (set_mtFrom (rid r) m). split; [done|]. intros [E _]. cbn in E. destruct Hev; congruence.
  - destruct (expected m _).
    + apply loop_call. eapply post_mono; [apply (step_post r m); [done|apply Hc|done|apply Hev]|].
      intros e r' H. split; [|done]. exists m. split; [done|apply Hev].
    + split; [|done]. apply (Hmc MsgHup); [done|apply Hc].
  - apply loop_call. eapply post_mono; [apply ends_applyConfChange, (Hc (msg MsgHup))|]. intros cs r' H.
    assert (moves pub i r r') by (exists (msg MsgHup); split; [done|by intros []]). apply post_get. by destruct (_ && _).
  - unfold Tick. apply loop_call. eapply post_mono; [apply calling_call_tick; [apply (Hc (msg MsgHup))|done]|].
    intros [] r' H. split; [|done]. by apply (Hmc MsgHup).
  - done.
  - destruct (advancec n) eqn:Ha; [|done]. cbn [negb]. unfold Advance. apply loop_call.
    eapply post_mono; [apply calling_advance, (Hc (msg MsgHup))|]. intros [] r' H. split; [by apply (Hmc MsgHup)|].
    split; [done|]. cbn. intros R. by rewrite (Hadv eq_refl) in R.
  - split; [|done]. apply (Hmc MsgHup); [done|apply Hc].
Qed.

(** Every round in which the node calls something keeps the invariant. *)
Lemma round_inv pub own i p ev rep n : member_inv pub own i p -> rTerm (raft_of p) < MaxUint64 -> calls pub i ev ->
  run_once ev (live p) = Ret (rep, n) -> uses n -> exists own', member_inv pub own' i (mkMember n (saved p) (taken p)).
Proof.
  intros Hp Ht Hev Hrun Hu. unfold run_once in Hrun. destruct (run_top (live p)) as [n1| |] eqn:Htop; [|done..]. cbn [mbind outcome_bind] in Hrun.
  destruct (run_top_spec _ _ Htop) as (En & Ea & Hadv & _). pose proof (top_inv _ _ _ _ _ Hp Htop) as H1.
  pose proof (mi_ok _ _ _ _ H1) as Hok. unfold raft_of in *. cbn in Hok. rewrite <- En in Ht.
  pose proof (select_moves pub i n1 ev Hok Ht Hev) as Hsel. unfold post in Hsel. rewrite Hrun in Hsel.
  destruct Hsel as [Hm [Hprev Hrd]]; [by rewrite Ea|]. eexists. eapply member_moves; [exact H1|exact Hm|done..].
Qed.

(* ===================================================================== *)
(** ** Handing over, saving and restarting                               *)
(* ===================================================================== *)

Lemma select_ready n : select_case OnReady n =
  if readyc n then Ret (ReadyReply (loop_rd n), mkNode (acceptReady (loop_rd n) (rn n)) (propc n) (readyc n) true (loop_rd n) (loop_lead n))
  else Block.
Proof. unfold select_case. cbv [mbind M_bind get]. destruct (readyc n) eqn:E; cbn; by rewrite ?E. Qed.

Lemma ready_inv pub own i p rd n : member_inv pub own i p -> taken p = None ->
  run_once OnReady (live p) = Ret (ReadyReply rd, n) -> member_inv pub own i (mkMember n (saved p) (Some rd)).
Proof.
  intros Hp Hnone Hrun. unfold run_once in Hrun. destruct (run_top (live p)) as [n1| |] eqn:Htop; [|done..]. cbn [mbind outcome_bind] in Hrun.
  destruct (run_top_spec _ _ Htop) as (_ & Ea & Hadv & _). pose proof (top_inv _ _ _ _ _ Hp Htop) as H1. clear Hp Htop.
  rewrite select_ready in Hrun. destruct (readyc n1) eqn:Hr; [|done]. injection Hrun as <- <-.
  assert (advancec n1 = false) as Hadv1 by (rewrite Ea; destruct (advancec (live p)); [discriminate (Hadv eq_refl)|done]).
  pose proof (mi_ready _ _ _ _ H1 Hr Hadv1) as Hpend. unfold handed in Hpend. cbn [taken saved] in Hpend. rewrite Hnone in Hpend.
  destruct Hpend as (P1 & P2 & P3 & P4). destruct H1 as [? ? ? ? ? ? ? Hprev]. unfold raft_of, uses, handed in *. cbn in *.
  rewrite Hnone in *. set (rd := loop_rd n1) in *. unfold acceptReady.
  destruct (negb (zlen (rdReadStates rd) =? 0)); split; unfold raft_of, uses, handed; cbn; try done.
  1, 3: unfold save_hard; by destruct (IsEmptyHardState (rdHardState rd)).
  all: by intros rd' [= <-].
Qed.

(** The votes that are saved with the hard state [h]. *)
Definition publish (i : Z) (h : HardState) (own : gmap Z Z) (pub : gmap (Z * Z) Z) : gmap (Z * Z) Z :=
  pub ∪ kmap (pair i) (filter (fun tv => covered h tv.1 tv.2) own).

Lemma publish_other i h own pub j t : j <> i -> publish i h own pub !! (j, t) = pub !! (j, t).
Proof.
  intros Hne. unfold publish. rewrite lookup_union_l; [done|]. apply lookup_kmap_None; [apply _|]. by intros t' [= ? ?].
Qed.

Lemma publish_self i h own pub t v : (forall t v, pub !! (i, t) = Some v -> own !! t = Some v /\ covered h t v) ->
  publish i h own pub !! (i, t) = Some v <-> own !! t = Some v /\ covered h t v.
Proof.
  intros Hpub. unfold publish. rewrite lookup_union_Some_raw, lookup_kmap, map_lookup_filter_Some by apply _. cbn. split.
  - intros [H|[_ H]]; auto.
  - intros H. destruct (pub !! (i, t)) as [v'|] eqn:E; [left|by right]. destruct (Hpub _ _ E). naive_solver.
Qed.

Lemma publish_more i h own pub : pub ⊆ publish i h own pub.
Proof. apply map_union_subseteq_l. Qed.

(** More saved votes, none of them of the member itself. *)
Lemma member_more_pub pub pub' own j p : pub ⊆ pub' -> (forall t, pub' !! (j, t) = pub !! (j, t)) ->
  member_inv pub own j p -> member_inv pub' own j p.
Proof.
  intros Hsub Hsame Hp. destruct Hp as [? ? ? ? ? Hpub Hsv ? ? ? ? ? Hcand Hlead]. split; try done.
  - intros t v. rewrite Hsame. apply Hpub.
  - rewrite Hsame. done.
  - intros v E Hv. destruct (Hcand v E Hv); [by left|right]. by eapply lookup_weaken.
  - intros E. destruct (Hlead E) as (c & S & ? & ? & Hall). exists c, S. split_and!; [done..|]. intros v Hv.
    destruct (Hall v Hv); [by left|right]. by eapply lookup_weaken.
Qed.

Lemma save_inv pub own i p rd (h := save_hard rd (saved p)) : member_inv pub own i p -> taken p = Some rd ->
  member_inv (publish i h own pub) own i (mkMember (live p) h None) /\ Forall (sent (publish i h own pub)) (rdMessages rd).
Proof.
  intros Hp Htk. destruct (mi_taken _ _ _ _ Hp rd Htk) as (P1 & P2 & P3 & P4). fold h in P1, P2, P3, P4.
  assert (forall t v, pub !! (i, t) = Some v -> own !! t = Some v /\ covered h t v) as Hpub.
  { intros t v Hv. destruct (mi_pub _ _ _ _ Hp _ _ Hv) as [Ho Hcov]. split; [done|]. eapply covered_le; [done| |done].
    by apply (mi_own _ _ _ _ Hp) in Ho as [? _]. }
  pose proof (publish_self i h own pub) as Hself. specialize (fun t v => Hself t v Hpub).
  assert (handed p = h) as Eh by (unfold handed; by rewrite Htk).
  split.
  - pose proof (publish_more i h own pub) as Hmore. destruct Hp as [? ? ? ? ? _ _ Hprev Hha ? Hrd _ Hcand Hlead]. rewrite Eh in *.
    split; try done.
    + intros t v. apply Hself.
    + intros Hne. apply Hself. split; [by apply P3|done].
    + intros v E Hv. destruct (Hcand v E Hv); [by left|right]. by eapply lookup_weaken.
    + intros E. destruct (Hlead E) as (c & S & ? & ? & Hall). exists c, S. split_and!; [done..|]. intros v Hv.
      destruct (Hall v Hv); [by left|right]. by eapply lookup_weaken.
  - eapply Forall_impl; [exact P4|]. intros m [[Hst Hg] Hcov]. split; [done|]. intros G Hne. destruct (Hg G) as [-> Ho].
    apply Hself. auto.
Qed.

Lemma store_inv pub own i p st : member_inv pub own i p ->
  member_inv pub own i (mkMember (set_storage st (live p)) (saved p) (taken p)).
Proof. by intros []. Qed.

(** A node that has just been started. *)
Lemma started_inv pub own i h n : started i h (rnRaft (rn n)) -> uses n -> n = newNode (rn n) -> 1 <= hTerm h ->
  forall s, hTerm (prevHardSt (rn n)) = hTerm s -> hVote (prevHardSt (rn n)) = hVote s -> hs_le s h ->
  (forall t v, own !! t = Some v <-> pub !! (i, t) = Some v) ->
  (forall t v, pub !! (i, t) = Some v -> v <> NoNode /\ covered s t v) ->
  (hVote s <> NoNode -> pub !! (i, hTerm s) = Some (hVote s)) -> (hVote h <> NoNode -> own !! hTerm h = Some (hVote h)) ->
  member_inv pub own i (mkMember n s None).
Proof.
  intros [[Hi Hne] Ht Hv [Hr Hs] Hm] Hu En H1 s PT PV Hle Hown Hpub Hsv Hvote.
  assert (readyc n = false) as Erc by (by rewrite En).
  split; unfold raft_of, handed; cbn; rewrite ?Ht, ?Hv, ?Hr, ?Hm; try done.
  - split_and!; [congruence|lia|by rewrite Hr, Hs|]. rewrite Hr. by intros [].
  - intros t v Hov. apply Hown in Hov. destruct (Hpub _ _ Hov) as [? Hcov]. split; [done|]. by eapply covered_le.
  - intros t v Hpv. split; [by apply Hown|by apply Hpub].
  - split; cbn; rewrite ?Ht, ?Hv; apply Hle.
  - by rewrite Erc.
Qed.

(** What a node that comes back remembers is what it has saved. *)
Lemma restart_inv pub own i p c k n cs : member_inv pub own i p -> cfgID c = i ->
  InitialState (cfgStorage c) = Ret (inl (saved p, cs)) -> 1 <= hTerm (saved p) -> RestartNode c k = Ret n -> uses n ->
  exists own', member_inv pub own' i (mkMember n (saved p) None).
Proof.
  intros Hp <- Hi Ht Hrun Hu. destruct (RestartNode_post c k n _ cs Hrun Hi Ht) as (Hs & Hh & En).
  pose proof (mi_pub _ _ _ _ Hp) as Hpub. set (i := cfgID c) in *.
  assert (forall t v, filter (fun tv => pub !! (i, tv.1) = Some tv.2) own !! t = Some v <-> pub !! (i, t) = Some v) as Hown.
  { intros t v. rewrite map_lookup_filter_Some. cbn. split; [by intros []|]. intros E. by destruct (Hpub _ _ E). }
  exists (filter (fun tv => pub !! (i, tv.1) = Some tv.2) own).
  pose proof Hs as [_ Et Ev _ _]. eapply started_inv; [exact Hs|done|done|done| | |done|done| |apply Hp|].
  - by rewrite Hh.
  - by rewrite Hh.
  - intros t v E. destruct (Hpub _ _ E) as [Ho ?]. split; [|done]. by apply (mi_own _ _ _ _ Hp) in Ho as [? _].
  - intros Hne. apply Hown. by apply (mi_saved _ _ _ _ Hp).
Qed.

Lemma init_inv G : group_init G -> group_inv ∅ G.
Proof.
  intros [Hnet Hall]. split; [|by rewrite Hnet]. intros i p Hp.
  destruct (Hall i p Hp) as (Hs & Ht & Hu & c & k & x & peers & y & cs & <- & Hx & Hi & Hb & Hl).
  destruct (start_post c k x peers y cs Hx Hi Hb) as [Hst Hprev]. exists ∅. destruct p as [n s t]. cbn in *. subst.
  eapply started_inv; [exact Hst|done|done|done|by cbn; rewrite Hprev|by cbn; rewrite Hprev|done| |by intros ? ?|done|done].
  intros t v. by rewrite !lookup_empty.
Qed.

(* ===================================================================== *)
(** ** The group                                                         *)
(* ===================================================================== *)

(** What an application asks for carries no vote, and no term. *)
Lemma calls_recv pub i m : mtTerm m = 0 -> of_term (mtType m) = false -> calls pub i (OnRecv m).
Proof.
  intros E Hof. split; [split; [by rewrite E|congruence]|]. intros [Et _]. by rewrite Et in Hof.
Qed.

Lemma calls_request pub i ev : request ev -> calls pub i ev.
Proof.
  destruct 1; try done; try by apply calls_recv.
  unfold node_ProposeConfChange, confChangeToMsg in *. destruct (MarshalConfChange cc) as [[typ d]| |]; [|done..].
  cbn in *. by simplify_eq.
Qed.

Lemma calls_deliver pub G i m ev : group_inv pub G -> m ∈ net G -> mtTo m = i -> small (mtTerm m) -> node_Step m = Some ev ->
  calls pub i ev.
Proof.
  intros [_ Hnet] Hin Hto Ht Hev. rewrite Forall_forall in Hnet. specialize (Hnet _ Hin). unfold node_Step in Hev.
  destruct (IsLocalMsg _); [done|]. injection Hev as <-. unfold stepWithWaitOption. case_bool_decide as E; [done|].
  split; [|done]. apply stamped_arrives; [apply Hnet|done].
Qed.

(** What one member does keeps the invariant of that member; the saved votes grow
    only by its own. *)
Lemma acts_inv pub G i p p' ms : group_inv pub G -> members G !! i = Some p -> small (rTerm (raft_of p)) -> acts G i p p' ms ->
  exists pub', pub ⊆ pub' /\ (forall j t, j <> i -> pub' !! (j, t) = pub !! (j, t)) /\
    (exists own, member_inv pub' own i p') /\ Forall (sent pub') ms.
Proof.
  intros HG Hi [_ Hs] Ha. destruct (proj1 HG i p Hi) as [own Hp].
  destruct Ha; try (exists pub; split_and!; [done..| |by constructor]).
  - eapply round_inv; [exact Hp|done|by apply calls_request|done|done].
  - eapply round_inv; [exact Hp|done|by eapply calls_deliver|done|done].
  - exists own. by apply ready_inv.
  - exists (publish i (save_hard rd (saved p)) own pub). destruct (save_inv _ _ _ _ rd Hp) as [? ?]; [done|].
    split_and!; [apply publish_more|intros; by apply publish_other|by exists own|done].
  - by eapply (round_inv pub own i p OnAdvance).
  - exists own. by apply store_inv.
  - by eapply restart_inv.
Qed.

Lemma sent_mono pub pub' m : pub ⊆ pub' -> sent pub m -> sent pub' m.
Proof. intros Hsub [Hst Hg]. split; [done|]. intros G Hne. eapply lookup_weaken; [by apply Hg|done]. Qed.

Lemma group_step_inv pub G G' : group_inv pub G -> group_step G G' -> exists pub', pub ⊆ pub' /\ group_inv pub' G'.
Proof.
  intros HG Hst. destruct Hst as [i p p' ms Hi Hs Ha].
  destruct (acts_inv _ _ _ _ _ _ HG Hi Hs Ha) as (pub' & Hsub & Hoth & Hown & Hms). exists pub'. split; [done|]. split; cbn.
  - intros j q Hq. destruct (decide (j = i)) as [->|Hne].
    + rewrite lookup_insert_eq in Hq. by injection Hq as <-.
    + rewrite lookup_insert_ne in Hq by done. destruct (proj1 HG j q Hq) as [own Hinv]. exists own.
      eapply member_more_pub; [done| |done]. auto.
  - apply Forall_app. split; [|done]. eapply Forall_impl; [apply HG|]. intros m. by apply sent_mono.
Qed.

Lemma group_steps_inv pub G G' : group_inv pub G -> rtc group_step G G' -> exists pub', pub ⊆ pub' /\ group_inv pub' G'.
Proof.
  intros HG Hst. revert pub HG. induction Hst as [|G G1 G' H1 _ IH]; intros pub HG; [by exists pub|].
  destruct (group_step_inv _ _ _ HG H1) as (pub1 & Hsub1 & HG1). destruct (IH pub1 HG1) as (pub2 & Hsub2 & HG2).
  exists pub2. split; [by etrans|done].
Qed.

(** Every two quorums of the configurations in use meet. *)
Definition compatible : Prop := forall c1 c2 S1 S2, confs c1 -> confs c2 -> joint_quorum c1 S1 -> joint_quorum c2 S2 ->
  exists v, v ∈ S1 /\ v ∈ S2.

(** A leader has the saved votes of the others in a quorum. *)
Lemma leads_votes pub G i t : group_inv pub G -> leads G i t -> exists c S own p, members G !! i = Some p /\ confs c /\ joint_quorum c S /\
  member_inv pub own i p /\ own !! t = Some i /\ forall v, v ∈ S -> v = i \/ pub !! (v, t) = Some i.
Proof.
  intros HG (p & Hp & Hl & <-). destruct (proj1 HG i p Hp) as [own Hinv]. destruct (mi_leader _ _ _ _ Hinv Hl) as (c & S & Hc & HS & Hall).
  exists c, S, own, p. split_and!; [done..| |done]. destruct (mi_ok _ _ _ _ Hinv) as (Hn & _ & _ & Hv).
  pose proof (mi_id _ _ _ _ Hinv) as Hid. rewrite <- Hid, <- Hv by auto. apply Hinv. rewrite Hv; auto.
Qed.

(** C1: at most one member of a group leads in a term: whatever messages were
    sent, lost, repeated and reordered, and whoever restarted, no two nodes are
    leaders of the same term at the same time. *)
Theorem one_leader_per_term G0 G (Hconf : compatible) (Hinit : group_init G0) (Hrun : rtc group_step G0 G) i j t
  (Hi : leads G i t) (Hj : leads G j t) : i = j.
Proof.
  destruct (group_steps_inv _ _ _ (init_inv _ Hinit) Hrun) as (pub & _ & HG).
  destruct (leads_votes _ _ _ _ HG Hi) as (c1 & S1 & own1 & p1 & _ & Hc1 & HS1 & Hp1 & Hown1 & Hall1).
  destruct (leads_votes _ _ _ _ HG Hj) as (c2 & S2 & own2 & p2 & _ & Hc2 & HS2 & Hp2 & Hown2 & Hall2).
  destruct (Hconf c1 c2 S1 S2) as (v & Hv1 & Hv2); [done..|].
  destruct (Hall1 v Hv1) as [E1|E1], (Hall2 v Hv2) as [E2|E2]; [congruence|rewrite E1 in E2|rewrite E2 in E1|].
  - destruct (mi_pub _ _ _ _ Hp1 _ _ E2). congruence.
  - destruct (mi_pub _ _ _ _ Hp2 _ _ E1). congruence.
  - congruence.
Qed.

(** C8: once a leader has saved that it voted for itself, which it does before it
    sends anything, no other member ever leads in its term. *)
Theorem leader_for_ever G0 G1 G2 (Hconf : compatible) (Hinit : group_init G0) (Hrun1 : rtc group_step G0 G1)
  (Hrun2 : rtc group_step G1 G2) i j t (Hi : leads G1 i t) (Hj : leads G2 j t)
  (Hsaved : exists p, members G1 !! i = Some p /\ hTerm (saved p) = t /\ hVote (saved p) = i) : i = j.
Proof.
  destruct (group_steps_inv _ _ _ (init_inv _ Hinit) Hrun1) as (pub1 & _ & HG1).
  destruct (group_steps_inv _ _ _ HG1 Hrun2) as (pub2 & Hsub & HG2).
  destruct (leads_votes _ _ _ _ HG1 Hi) as (c1 & S1 & own1 & p1 & Hm1 & Hc1 & HS1 & Hp1 & _ & Hall1).
  destruct (leads_votes _ _ _ _ HG2 Hj) as (c2 & S2 & own2 & p2 & _ & Hc2 & HS2 & Hp2 & Hown2 & Hall2).
  destruct Hsaved as (p & Hm & ET & EV). rewrite Hm in Hm1. injection Hm1 as <-.
  assert (pub1 !! (i, t) = Some i) as Hself.
  { pose proof (mi_saved _ _ _ _ Hp1) as Hsv. rewrite ET, EV in Hsv. apply Hsv. rewrite <- (mi_id _ _ _ _ Hp1).
    apply (mi_ok _ _ _ _ Hp1). }
  destruct (Hconf c1 c2 S1 S2) as (v & Hv1 & Hv2); [done..|].
  assert (pub2 !! (v, t) = Some i) as E1.
  { eapply lookup_weaken; [|exact Hsub]. by destruct (Hall1 v Hv1) as [->|]. }
  destruct (Hall2 v Hv2) as [->|E2]; [|congruence]. destruct (mi_pub _ _ _ _ Hp2 _ _ E1). congruence.
Qed.

(* ===================================================================== *)
(** ** Runs that can be evaluated                                        *)
(* ===================================================================== *)

(** What a member does next; a message is given by its place on the network. *)
Inductive action : Type :=
  | Ask (ev : event) (Hreq : request ev)
  | Deliver (k : nat)
  | TakeReady
  | SaveReady
  | AdvanceLoop
  | Store (f : member -> St)
  | Restart (c : @RaftConfig St) (k : nat).

Context `{Hdec : !forall c, Decision (confs c)}.

#[export] Instance HardState_eq_dec : EqDecision HardState.
Proof. solve_decision. Defined.

Definition after (p : member) (o : outcome (reply * node)) : option (member * list Message) :=
  match o with
  | Ret (_, n) => if decide (uses n) then Some (mkMember n (saved p) (taken p), []) else None
  | _ => None
  end.

Definition act (G : group) (i : Z) (p : member) (a : action) : option (member * list Message) :=
  match a with
  | Ask ev _ => after p (run_once ev (live p))
  | Deliver k =>
      m ← net G !! k;
      ev ← node_Step m;
      if decide (mtTo m = i /\ small (mtTerm m)) then after p (run_once ev (live p)) else None
  | TakeReady =>
      match taken p, run_once OnReady (live p) with
      | None, Ret (ReadyReply rd, n) => Some (mkMember n (saved p) (Some rd), [])
      | _, _ => None
      end
  | SaveReady =>
      rd ← taken p;
      Some (mkMember (live p) (save_hard rd (saved p)) None, rdMessages rd)
  | AdvanceLoop => match taken p with None => after p (run_once OnAdvance (live p)) | Some _ => None end
  | Store f => Some (mkMember (set_storage (f p) (live p)) (saved p) (taken p), [])
  | Restart c k =>
      match InitialState (cfgStorage c), RestartNode c k with
      | Ret (inl (hs, _)), Ret n =>
          if decide (cfgID c = i /\ hs = saved p /\ 1 <= hTerm hs /\ uses n) then Some (mkMember n (saved p) None, []) else None
      | _, _ => None
      end
  end.

Definition script_step (G : group) (ia : Z * action) : option group :=
  p ← members G !! ia.1;
  if decide (small (rTerm (raft_of p))) then
    '(p', ms) ← act G ia.1 p ia.2;
    Some (mkGroup (<[ia.1 := p']> (members G)) (net G ++ ms))
  else None.

Fixpoint script (G : group) (l : list (Z * action)) : option group :=
  match l with
  | [] => Some G
  | ia :: l' => G' ← script_step G ia; script G' l'
  end.

Lemma after_Some p o p' ms : after p o = Some (p', ms) -> exists rep n, o = Ret (rep, n) /\ uses n /\ p' = mkMember n (saved p) (taken p) /\ ms = [].
Proof. unfold after. destruct o as [[rep n]| |]; [|done..]. destruct (decide (uses n)); [|done]. intros [= <- <-]. eauto 10. Qed.

Lemma act_sound G i p a p' ms : act G i p a = Some (p', ms) -> acts G i p p' ms.
Proof.
  destruct a as [ev Hreq|k| | | |f|c k]; cbn.
  - intros (rep & n & ? & ? & -> & ->)%after_Some. by eapply act_request.
  - intros (m & Hm & (ev & Hev & H)%bind_Some)%bind_Some. destruct (decide _) as [[? ?]|]; [|done].
    apply after_Some in H as (rep & n & ? & ? & -> & ->). eapply act_deliver; try done. by eapply list_elem_of_lookup_2.
  - destruct (taken p) eqn:Ht; [done|]. destruct (run_once _ _) as [[[| | |rd|] n]| |] eqn:E; try done. intros [= <- <-]. by apply act_ready.
  - intros (rd & Hrd & [= <- <-])%bind_Some. by apply act_save.
  - destruct (taken p) eqn:Ht; [done|]. intros (rep & n & ? & ? & -> & ->)%after_Some. by eapply act_advance.
  - intros [= <- <-]. apply act_store.
  - destruct (InitialState _) as [[[hs cs]|]| |] eqn:Hi, (RestartNode c k) as [n| |] eqn:Hn; try done.
    destruct (decide _) as [(Ei & -> & ? & ?)|]; [|done]. intros [= <- <-]. by eapply act_restart.
Qed.

Lemma script_sound G l G' : script G l = Some G' -> rtc group_step G G'.
Proof.
  revert G. induction l as [|[i a] l IH]; intros G; cbn; [by intros [= <-]|]. intros (G1 & H1 & H2)%bind_Some.
  eapply rtc_l; [|by apply IH]. unfold script_step in H1. cbn in H1. apply bind_Some in H1 as (p & Hp & H1).
  destruct (decide _); [|done]. apply bind_Some in H1 as ([p' ms] & Ha & [= <-]). eapply member_acts; [done..|]. by eapply act_sound.
Qed.

End group.

(* ===================================================================== *)
(** ** An election with a restart                                        *)
(* ===================================================================== *)

(** Three nodes with the storage of the package, configured as src/raftexample
    configures them. *)
Definition demo_env : RaftEnv := {|
  Intn := fun _ _ => 0;
  Intn_range := fun _ n Hn => conj (Z.le_refl 0) Hn;
  Equal := fun a b =>
    match Transition a, Changes a, Transition b, Changes b with
    | ConfChangeTransitionAuto, [], ConfChangeTransitionAuto, [] => true
    | _, _, _, _ => false
    end
|}.

#[local] Existing Instance plain_runtime.
#[local] Existing Instance demo_env.

#[local] Abbreviation script_of := (list (Z * @action MemoryStorage)).

#[export] Instance JointConfig_eq_dec : EqDecision JointConfig.
Proof. solve_decision. Defined.

Definition is_trio (c : JointConfig) : Prop := c = mkJoint {[1; 2; 3]} ∅.

#[local] Instance is_trio_dec c : Decision (is_trio c) := decide (c = mkJoint {[1; 2; 3]} ∅).

Lemma trio_compatible : compatible is_trio.
Proof.
  intros c1 c2 S1 S2 -> -> [H1 _] [H2 _]. destruct (majority_meet {[1; 2; 3]} S1 S2) as (v & _ & ? & ?); [done..|by exists v].
Qed.

Definition demo_conf (i : Z) (ms : MemoryStorage) : RaftConfig :=
  mkRaftConfig i 10 1 ms 0 1048576 0 1073741824 256 false false ReadOnlySafe false.

Definition demo_peers : list Peer := [mkPeer 1 None; mkPeer 2 None; mkPeer 3 None].

Definition demo_node (i : Z) : outcome (option bootstrap_error * RawNode) :=
  x ← NewRawNode (demo_conf i NewMemoryStorage) 0;
  Bootstrap demo_peers x.

Definition demo_member (i : Z) : option member :=
  match demo_node i with
  | Ret (None, y) => Some (mkMember (newNode y) zero_HardState None)
  | _ => None
  end.

Definition demo_group : group := mkGroup (omap demo_member {[1 := 1; 2 := 2; 3 := 3]}) [].

(** The application appends the entries of a [Ready] to the storage. *)
Definition append_ready (p : member) : MemoryStorage :=
  match Append (rdEntries (loop_rd (live p))) (storage (rlog (raft_of p))) with
  | Ret (_, ms) => ms
  | _ => storage (rlog (raft_of p))
  end.

Definition handle_ready (i : Z) (applied : script_of) : script_of :=
  [(i, TakeReady); (i, SaveReady); (i, Store append_ready)] ++ applied ++ [(i, AdvanceLoop)].

Definition join (i j : Z) : Z * @action MemoryStorage :=
  let cc := V1 (mkConfChange ConfChangeAddNode j None 0) in (i, Ask (node_ApplyConfChange cc) (ask_applyConfChange cc)).

Definition boot (i : Z) : script_of := handle_ready i [join i 1; join i 2; join i 3].

(** Node 1 asks for votes, node 2 gives its vote, restarts with what it has saved
    and a snapshot, and node 1 gets the vote. *)
Definition saved_storage : MemoryStorage :=
  mkMS (mkHardState 2 1 3) (mkSnapshot None (mkMetadata (mkConfState [1; 2; 3] [] [] [] false) 3 1)) [mkEntry 1 3 EntryNormal None].

Definition election : script_of :=
  boot 1 ++ boot 2 ++ boot 3 ++
  (1, Ask node_Campaign ask_campaign) :: handle_ready 1 [] ++
  (2, Deliver 0) :: handle_ready 2 [] ++
  [(2, Restart (demo_conf 2 saved_storage) 0); (1, Deliver 2)].

Definition elected_group : group := default demo_group (script is_trio demo_group election).

Lemma demo_run : rtc (group_step is_trio) demo_group elected_group.
Proof. apply (script_sound is_trio demo_group election). vm_compute. reflexivity. Qed.

(** The leader sends its first heartbeats. *)
Definition later : script_of := (1, Ask OnTick ask_tick) :: handle_ready 1 [].

Definition later_group : group := default elected_group (script is_trio elected_group later).

Lemma demo_later : rtc (group_step is_trio) elected_group later_group.
Proof. apply (script_sound is_trio elected_group later). vm_compute. reflexivity. Qed.

Lemma demo_uses : forallb (fun i => match demo_member i with Some p => bool_decide (uses is_trio (live p)) | None => false end) [1; 2; 3] = true.
Proof. vm_compute. reflexivity. Qed.

Lemma demo_init : group_init is_trio demo_group.
Proof.
  split; [done|]. intros i p Hp. unfold demo_group, members in Hp. rewrite lookup_omap in Hp. apply bind_Some in Hp as (j & Hj & Hm).
  assert (j = i /\ i ∈ [1; 2; 3]) as [-> Hi].
  { clear Hm. repeat (apply lookup_insert_Some in Hj as [[<- <-]|[_ Hj]]; [split; [done|set_solver]|]).
    by apply lookup_singleton_Some in Hj as [<- <-]; split; [|set_solver]. }
  pose proof (proj1 (forallb_forall _ _) demo_uses i (proj1 (list_elem_of_In _ _) Hi)) as Hu. cbv beta in Hu. rewrite Hm in Hu.
  unfold demo_member in Hm. destruct (demo_node i) as [[[e|] y]| |] eqn:E; [discriminate Hm| |discriminate Hm..]. injection Hm as <-.
  split; [reflexivity|]. split; [reflexivity|]. split; [exact (bool_decide_eq_true_1 _ Hu)|]. unfold demo_node in E.
  destruct (NewRawNode (demo_conf i NewMemoryStorage) 0) as [x| |] eqn:Ex; [|discriminate E..].
  change (Bootstrap demo_peers x = Ret (None, y)) in E.
  exists (demo_conf i NewMemoryStorage), 0%nat, x, demo_peers, y, zero_ConfState.
  split; [reflexivity|]. split; [exact Ex|]. split; [reflexivity|]. split; [exact E|reflexivity].
Qed.

(** [leads], evaluated. *)
Lemma leads_by_eval (G : @group MemoryStorage) i t :
  match members G !! i with Some p => bool_decide (rstate (raft_of p) = StateLeader /\ rTerm (raft_of p) = t) | None => false end = true ->
  leads G i t.
Proof. unfold leads. destruct (members G !! i) as [p|]; [|done]. intros H%bool_decide_eq_true. by exists p. Qed.

Lemma one_leader_per_term_witness : leads elected_group 1 2 /\ ~ leads elected_group 2 2.
Proof.
  assert (leads elected_group 1 2) as H1 by (apply leads_by_eval; vm_compute; reflexivity).
  split; [exact H1|]. intros H2.
  pose proof (one_leader_per_term is_trio demo_group elected_group trio_compatible demo_init demo_run 1 2 2 H1 H2) as E.
  discriminate E.
Defined.

Lemma leader_for_ever_witness : leads elected_group 1 2 /\ leads later_group 1 2 /\ ~ leads later_group 3 2.
Proof.
  assert (leads elected_group 1 2) as H1 by (apply leads_by_eval; vm_compute; reflexivity).
  split; [exact H1|]. split; [apply leads_by_eval; vm_compute; reflexivity|]. intros H3.
  assert (exists p, members elected_group !! 1 = Some p /\ hTerm (saved p) = 2 /\ hVote (saved p) = 1) as Hs.
  { destruct (members elected_group !! 1) as [p|] eqn:E; [exists p|vm_compute in E; discriminate E].
    vm_compute in E. injection E as <-. repeat split. }
  pose proof (leader_for_ever is_trio demo_group elected_group later_group trio_compatible demo_init demo_run demo_later
    1 3 2 H1 H3 Hs) as E.
  discriminate E.
Defined.
