(* ===== verification/WalPb.v ===== *)
(** * WalPb: the records of the write-ahead log and of snapshot files on the wire
    (src/etcd/server/storage/wal/walpb, src/etcd/server/etcdserver/api/snap/snappb,
    src/etcd/pkg/crc)

    The generated code has the shape of the one for raft messages, so the codec of
    RaftWire.v and RaftCodec.v is instantiated for three more messages. The
    checksum is the CRC-32 of hash/crc32 with the Castagnoli polynomial. *)

From S2P Require Import Prelude Strconv RaftPb RaftWire RaftCodec.

(* ===================================================================== *)
(** ** hash/crc32                                                        *)
(* ===================================================================== *)

Definition Castagnoli : Z := 0x82f63b78.
Definition u32 (z : Z) : Z := z mod 2 ^ 32.

(** One bit of [simpleMakeTable]. *)
Definition crc_bit (crc : Z) : Z :=
  if Z.testbit crc 0 then Z.lxor (Z.shiftr crc 1) Castagnoli else Z.shiftr crc 1.

(** [MakeTable(Castagnoli)]: entry [i]. *)
Definition crcTable (i : Z) : Z := Nat.iter 8 crc_bit i.

Definition simpleUpdate (crc : Z) (p : bytes) : Z :=
  let crc := Z.lxor crc (2 ^ 32 - 1) in
  let crc := fold_left (fun crc b => Z.lxor (crcTable (Z.lxor (Z.land crc 255) (byteval b))) (Z.shiftr crc 8)) p crc in
  Z.lxor crc (2 ^ 32 - 1).

(** [digest.Write]: the running checksum after some more bytes. *)
Definition crc_Write (crc : Z) (p : option bytes) : Z := simpleUpdate crc (default [] p).

(* ===================================================================== *)
(** ** walpb                                                             *)
(* ===================================================================== *)

Record Record_ : Type := mkRecord { rType : Z; rCrc : Z; rData : option bytes }.

Definition zero_Record : Record_ := mkRecord 0 0 None.

(** A pointer to a [ConfState] that may be nil. *)
Record walSnapshot : Type := mkWalSnapshot { wIndex : Z; wTerm : Z; wConfState : option ConfState }.

Definition zero_walSnapshot : walSnapshot := mkWalSnapshot 0 0 None.

Definition Record_Size (m : Record_) : Z := num_Size (u64 (rType m)) + num_Size (rCrc m) + bytes_Size (rData m).

Definition Record_MarshalToSizedBuffer (m : Record_) : bytes -> outcome (Z * bytes) := toSizedBuffer (
  putOptional 0x1a (rData m);;
  putNumber 0x10 (rCrc m);;
  putNumber 0x8 (u64 (rType m))).

Definition Record_Marshal (m : Record_) : outcome bytes := marshal (Record_Size m) (Record_MarshalToSizedBuffer m).

Definition optional_Size (x : option ConfState) : Z :=
  match x with Some cs => nested_Size (ConfState_Size cs) | None => 0 end.

Definition walSnapshot_Size (m : walSnapshot) : Z :=
  num_Size (wIndex m) + num_Size (wTerm m) + optional_Size (wConfState m).

Definition walSnapshot_MarshalToSizedBuffer (m : walSnapshot) : bytes -> outcome (Z * bytes) := toSizedBuffer (
  (match wConfState m with
   | Some cs => putNested 0x1a (ConfState_MarshalToSizedBuffer cs)
   | None => mret tt
   end);;
  putNumber 0x10 (wTerm m);;
  putNumber 0x8 (wIndex m)).

Definition walSnapshot_Marshal (m : walSnapshot) : outcome bytes :=
  marshal (walSnapshot_Size m) (walSnapshot_MarshalToSizedBuffer m).

Definition Record_field : fields Record_ := fun m fieldNum wireType d i =>
  match fieldNum with
  | 1 => Some (varint_field i64 (fun v => mkRecord v (rCrc m) (rData m)) wireType d i)
  | 2 => Some (varint_field u32 (fun v => mkRecord (rType m) v (rData m)) wireType d i)
  | 3 => Some (bytes_field (fun x => mkRecord (rType m) (rCrc m) x) wireType d i)
  | _ => None
  end.

Definition Record_Unmarshal : bytes -> Record_ -> dec Record_ := unmarshal Record_field.

Definition walSnapshot_field : fields walSnapshot := fun m fieldNum wireType d i =>
  match fieldNum with
  | 1 => Some (varint_field u64 (fun v => mkWalSnapshot v (wTerm m) (wConfState m)) wireType d i)
  | 2 => Some (varint_field u64 (fun v => mkWalSnapshot (wIndex m) v (wConfState m)) wireType d i)
  | 3 => Some (message_field (fun x => ConfState_Unmarshal x (default zero_ConfState (wConfState m)))
                 (fun cs => mkWalSnapshot (wIndex m) (wTerm m) (Some cs)) wireType d i)
  | _ => None
  end.

Definition walSnapshot_Unmarshal : bytes -> walSnapshot -> dec walSnapshot := unmarshal walSnapshot_field.

(** [rec.Validate(crc)]: the record, which is reset on a mismatch, and whether
    the checksum is right. *)
Definition Validate (crc : Z) (rec : Record_) : Record_ * bool :=
  if rCrc rec =? crc then (rec, true) else (zero_Record, false).

Definition ValidateSnapshotForWrite (e : walSnapshot) : bool :=
  negb (bool_decide (wConfState e = None) && (0 <? wIndex e)).

(* ===================================================================== *)
(** ** snappb                                                            *)
(* ===================================================================== *)

Record snapFile : Type := mkSnapFile { sfCrc : Z; sfData : option bytes }.

Definition zero_snapFile : snapFile := mkSnapFile 0 None.

Definition snapFile_Size (m : snapFile) : Z := num_Size (sfCrc m) + bytes_Size (sfData m).

Definition snapFile_MarshalToSizedBuffer (m : snapFile) : bytes -> outcome (Z * bytes) := toSizedBuffer (
  putOptional 0x12 (sfData m);;
  putNumber 0x8 (sfCrc m)).

Definition snapFile_Marshal (m : snapFile) : outcome bytes := marshal (snapFile_Size m) (snapFile_MarshalToSizedBuffer m).

Definition snapFile_field : fields snapFile := fun m fieldNum wireType d i =>
  match fieldNum with
  | 1 => Some (varint_field u32 (fun v => mkSnapFile v (sfData m)) wireType d i)
  | 2 => Some (bytes_field (fun x => mkSnapFile (sfCrc m) x) wireType d i)
  | _ => None
  end.

Definition snapFile_Unmarshal : bytes -> snapFile -> dec snapFile := unmarshal snapFile_field.

(* ===================================================================== *)
(** ** The checksum is a 32-bit number                                   *)
(* ===================================================================== *)

Definition is_u32 (z : Z) : Prop := 0 <= z < 2 ^ 32.

Lemma is_u32_shiftr z : 0 <= z -> is_u32 z <-> Z.shiftr z 32 = 0.
Proof.
  intros Hz. unfold is_u32. rewrite Z.shiftr_div_pow2 by lia. split; [intros; by apply Z.div_small; lia|].
  intros E. pose proof (Z.div_mod z (2 ^ 32)). pose proof (Z.mod_pos_bound z (2 ^ 32)). lia.
Qed.

Lemma u32_lxor a b : is_u32 a -> is_u32 b -> is_u32 (Z.lxor a b).
Proof.
  intros Ha Hb. assert (0 <= Z.lxor a b) by (apply Z.lxor_nonneg; unfold is_u32 in *; lia).
  apply is_u32_shiftr; [done|]. rewrite Z.shiftr_lxor.
  rewrite (proj1 (is_u32_shiftr a ltac:(unfold is_u32 in *; lia)) Ha), (proj1 (is_u32_shiftr b ltac:(unfold is_u32 in *; lia)) Hb). done.
Qed.

Lemma u32_shiftr a k : 0 <= k -> is_u32 a -> is_u32 (Z.shiftr a k).
Proof.
  unfold is_u32. intros Hk Ha. rewrite Z.shiftr_div_pow2 by lia. pose proof (Z.pow_pos_nonneg 2 k).
  split; [apply Z.div_pos; lia|]. apply Z.div_lt_upper_bound; nia.
Qed.

Lemma crcTable_u32 i : is_u32 i -> is_u32 (crcTable i).
Proof.
  intros Hi. unfold crcTable. apply (Nat.iter_invariant 8 Z crc_bit is_u32); [|done]. intros x Hx. unfold crc_bit.
  destruct (Z.testbit x 0); [apply u32_lxor; [|unfold is_u32, Castagnoli; lia]|]; apply u32_shiftr; done || lia.
Qed.

Lemma simpleUpdate_u32 crc p : is_u32 crc -> is_u32 (simpleUpdate crc p).
Proof.
  intros Hc. unfold simpleUpdate. assert (Hm : is_u32 (2 ^ 32 - 1)) by (unfold is_u32; lia).
  apply u32_lxor; [|done]. pose proof (u32_lxor _ _ Hc Hm) as H0. revert H0.
  generalize (Z.lxor crc (2 ^ 32 - 1)). clear Hc. induction p as [|b p IH]; intros c H0; [done|]. cbn [fold_left]. apply IH.
  apply u32_lxor; [apply crcTable_u32, u32_lxor|by apply u32_shiftr].
  - unfold is_u32. change 255 with (Z.ones 8). rewrite Z.land_ones by lia. pose proof (Z.mod_pos_bound c (2 ^ 8)). lia.
  - pose proof (byteval_range b). unfold is_u32. lia.
Qed.

Lemma crc_Write_u32 crc p : is_u32 crc -> is_u32 (crc_Write crc p).
Proof. apply simpleUpdate_u32. Qed.

(* ===================================================================== *)
(** ** The codecs                                                        *)
(* ===================================================================== *)

#[export] Instance u32_conv : IntConv u32.
Proof.
  split; [done| |intros; by apply mod_lor]. intros x. unfold u32, u64. apply Z.mod_mod_divide. by exists (2 ^ 32).
Qed.

Lemma decodes_u32 {T} (field : fields T) m num tag (set : Z -> T) v :
  tag = 8 * num + 0 -> 1 <= num < 16 -> (forall d i, field m num 0 d i = Some (varint_field u32 set 0 d i)) ->
  is_u32 v -> decodes field m (num_wire tag v) (set v).
Proof.
  intros -> Hnum Hfield Hv. assert (E : u32 v = v) by (apply Z.mod_small, Hv). rewrite <- E at 2. apply decodes_one.
  eapply reads_tag; [done..|exact Hfield|]. apply reads_varint_field; [apply _|]. unfold is_u32, is_u64 in *. lia.
Qed.

Lemma decodes_i64 {T} (field : fields T) m num tag (set : Z -> T) v :
  tag = 8 * num + 0 -> 1 <= num < 16 -> (forall d i, field m num 0 d i = Some (varint_field i64 set 0 d i)) ->
  in_i64 v -> decodes field m (num_wire tag (u64 v)) (set v).
Proof.
  intros -> Hnum Hfield Hv. assert (E : i64 (u64 v) = v) by (rewrite conv_u64; by apply i64_id).
  rewrite <- E at 2. apply decodes_one. eapply reads_tag; [done..|exact Hfield|]. by apply reads_varint_field; [apply _|apply is_u64_u64].
Qed.

Lemma is_u32_u64 z : is_u32 z -> is_u64 z.
Proof. unfold is_u32, is_u64. lia. Qed.

#[export] Hint Resolve is_u32_u64 : wire.

#[export] Instance Record_codec : Codec Record_ := {|
  wire m := num_wire 0x8 (u64 (rType m)) ++ num_wire 0x10 (rCrc m) ++ optional_wire 0x1a (rData m);
  fields_ok m := in_i64 (rType m) /\ is_u32 (rCrc m);
  size_of := Record_Size;
  fill := Record_MarshalToSizedBuffer;
  parse_field := Record_field;
  zero := zero_Record
|}.

#[export] Instance Record_laws : CodecLaws Record_.
Proof.
  split.
  - intros m. cbn [size_of Record_codec]. unfold Record_Size. sizes_pos. lia.
  - intros m [[? ?%is_u32_u64] Hs]. cbn [size_of wire Record_codec] in *. unfold Record_Size in *. size_all.
  - intros m [[? ?%is_u32_u64] Hs]. cbn [size_of wire fill Record_codec] in *. unfold Record_Size in Hs. sizes_pos.
    assert (optional_ok (rData m)) by (apply bytes_Size_ok; lia). unfold Record_MarshalToSizedBuffer. writes_all.
  - intros [t c da] [[? ?] _]. cbn [wire parse_field zero Record_codec rType rCrc rData] in *.
    eapply decodes_app; [eapply (decodes_i64 _ _ 1); [reflexivity|lia|intros; reflexivity|done]|].
    eapply decodes_app; [eapply (decodes_u32 _ _ 2); [reflexivity|lia|intros; reflexivity|done]|].
    eapply decodes_eq; [decode_field|done].
  - unfold parse_field, Record_codec, Record_field. safe_all.
Qed.

#[export] Instance snapFile_codec : Codec snapFile := {|
  wire m := num_wire 0x8 (sfCrc m) ++ optional_wire 0x12 (sfData m);
  fields_ok m := is_u32 (sfCrc m);
  size_of := snapFile_Size;
  fill := snapFile_MarshalToSizedBuffer;
  parse_field := snapFile_field;
  zero := zero_snapFile
|}.

#[export] Instance snapFile_laws : CodecLaws snapFile.
Proof.
  split.
  - intros m. cbn [size_of snapFile_codec]. unfold snapFile_Size. sizes_pos. lia.
  - intros m [?%is_u32_u64 Hs]. cbn [size_of wire snapFile_codec] in *. unfold snapFile_Size in *. size_all.
  - intros m [?%is_u32_u64 Hs]. cbn [size_of wire fill snapFile_codec] in *. unfold snapFile_Size in Hs. sizes_pos.
    assert (optional_ok (sfData m)) by (apply bytes_Size_ok; lia). unfold snapFile_MarshalToSizedBuffer. writes_all.
  - intros [c da] [? _]. cbn [wire parse_field zero snapFile_codec sfCrc sfData] in *.
    eapply decodes_app; [eapply (decodes_u32 _ _ 1); [reflexivity|lia|intros; reflexivity|done]|].
    eapply decodes_eq; [decode_field|done].
  - unfold parse_field, snapFile_codec, snapFile_field. safe_all.
Qed.

(** A nested message that may be missing. *)
Definition maybe_wire (tag : Z) (x : option ConfState) : bytes :=
  match x with Some cs => nested_wire tag (wire cs) | None => [] end.

#[export] Instance walSnapshot_codec : Codec walSnapshot := {|
  wire m := num_wire 0x8 (wIndex m) ++ num_wire 0x10 (wTerm m) ++ maybe_wire 0x1a (wConfState m);
  fields_ok m := is_u64 (wIndex m) /\ is_u64 (wTerm m) /\ from_option fields_ok True (wConfState m);
  size_of := walSnapshot_Size;
  fill := walSnapshot_MarshalToSizedBuffer;
  parse_field := walSnapshot_field;
  zero := zero_walSnapshot
|}.

Lemma optional_Size_pos x : 0 <= optional_Size x.
Proof. destruct x as [cs|]; [exact (nested_Size_pos_named cs _ eq_refl)|done]. Qed.

Lemma maybe_wire_size tag x : from_option fields_ok True x -> optional_Size x <= MaxInt64 -> zlen (maybe_wire tag x) = optional_Size x.
Proof.
  destruct x as [cs|]; [|done]. cbn [from_option maybe_wire optional_Size]. intros Hf Hs.
  exact (nested_size tag cs (nested_ok cs (ConfState_Size cs) eq_refl Hf Hs)).
Qed.

#[export] Instance walSnapshot_laws : CodecLaws walSnapshot.
Proof.
  assert (Hn : forall m : walSnapshot, wire_ok m -> optional_Size (wConfState m) <= MaxInt64).
  { intros m [_ Hs]. cbn [size_of walSnapshot_codec] in Hs. unfold walSnapshot_Size in Hs. sizes_pos. lia. }
  split.
  - intros m. cbn [size_of walSnapshot_codec]. unfold walSnapshot_Size. pose proof (optional_Size_pos (wConfState m)). sizes_pos. lia.
  - intros m Hm. pose proof (Hn m Hm). destruct Hm as [(? & ? & ?) Hs]. cbn [size_of wire walSnapshot_codec] in *.
    unfold walSnapshot_Size. rewrite !zlen_app, !num_wire_size, maybe_wire_size by done. lia.
  - intros m Hm. pose proof (Hn m Hm) as Ho. destruct Hm as [(? & ? & Hc) Hs]. cbn [wire fill walSnapshot_codec].
    unfold walSnapshot_MarshalToSizedBuffer. destruct (wConfState m) as [cs|]; cbn [maybe_wire].
    + assert (wire_ok cs) by (by apply (nested_ok _ (ConfState_Size cs))).
      pose proof (wire_fills cs). pose proof (wire_fits cs). writes_all.
    + apply fills_sized. eapply writes_eq; [repeat (apply writes_seq; [solve [eauto using writes_nil with wire]|]); eauto with wire|].
      by rewrite !app_nil_r.
  - intros m Hm. pose proof (Hn m Hm) as Ho. destruct m as [i t [cs|]], Hm as [(? & ? & Hc) Hs];
      cbn [wire parse_field zero walSnapshot_codec wIndex wTerm wConfState maybe_wire] in *.
    + eapply decodes_eq; [decode_all|done]. exact (codec_unmarshal cs (nested_ok cs (ConfState_Size cs) eq_refl Hc Ho)).
    + rewrite app_nil_r. eapply decodes_eq; [decode_all|done].
  - unfold parse_field, walSnapshot_codec, walSnapshot_field. safe_all.
Qed.
