(* ===== verification/PageWriter.v ===== *)
(** * PageWriter: a buffered writer that writes whole pages
    (src/etcd/pkg/ioutil/pagewriter.go)

    The writer below is a value of a type [W] with a [Writer] instance. What is
    written through a [PageWriter] reaches it in order, and, except for a [Flush],
    only up to the end of a page. *)

From S2P Require Import Prelude RaftPb.

(** [io.Writer]: the number of bytes taken, whether there was an error, and the
    writer afterwards. *)
Class Writer (W : Type) := write : bytes -> W -> Z * bool * W.

Definition defaultBufferBytes : Z := 128 * 1024.

Section page_writer.
Context {W : Type} `{!Writer W}.

Record PageWriter : Type := mkPageWriter {
  pw_w : W;
  pageOffset : Z;
  pageBytes : Z;
  bufferedBytes : Z;
  buf : bytes;
  bufWatermarkBytes : Z
}.

#[local] Abbreviation P := (M PageWriter).

(** [verify.Assert] panics only when assertions are enabled; a page has at least
    one byte in every call. *)
Definition NewPageWriter (w : W) (pageBytes pageOffset : Z) : PageWriter :=
  mkPageWriter w pageOffset pageBytes 0 (repeat (zbyte 0) (Z.to_nat (defaultBufferBytes + pageBytes))) defaultBufferBytes.

(** [copy(dst, src)] at offset [off] of an array, and the count. *)
Definition copy_at (off : Z) (dst src : bytes) : bytes :=
  let n := Z.to_nat (Z.min (zlen dst - off) (zlen src)) in
  take (Z.to_nat off) dst ++ take n src ++ drop (Z.to_nat off + n) dst.

(** [copy(pw.buf[pw.bufferedBytes:], p); pw.bufferedBytes += len(p)]. *)
Definition put_buf (p : bytes) : P unit :=
  pw ← get;
  lift (zslice (bufferedBytes pw) (zlen (buf pw)) (buf pw));;
  modify (fun pw => mkPageWriter (pw_w pw) (pageOffset pw) (pageBytes pw) (bufferedBytes pw + zlen p)
    (copy_at (bufferedBytes pw) (buf pw) p) (bufWatermarkBytes pw)).

Definition write_through (p : bytes) : P (Z * bool) :=
  pw ← get;
  let '(n, err, w) := write p (pw_w pw) in
  modify (fun pw => mkPageWriter w (pageOffset pw) (pageBytes pw) (bufferedBytes pw) (buf pw) (bufWatermarkBytes pw));;
  mret (n, err).

Definition flush : P (Z * bool) :=
  pw ← get;
  if bufferedBytes pw =? 0 then mret (0, false) else
  p ← lift (zslice 0 (bufferedBytes pw) (buf pw));
  r ← write_through p;
  modify (fun pw => mkPageWriter (pw_w pw) ((pageOffset pw + bufferedBytes pw) mod pageBytes pw) (pageBytes pw) 0
    (buf pw) (bufWatermarkBytes pw));;
  mret r.

Definition Flush : P bool := r ← flush; mret r.2.

(** The part of [Write] behind the slack page: [n] bytes are in the buffer. *)
Definition write_pages (n : Z) (p : bytes) (again : bytes -> P (Z * bool)) : P (Z * bool) :=
  err ← Flush;
  if (err : bool) then mret (n, true) else
  pw ← get;
  if pageBytes pw <? zlen p then
    let pages := zlen p / pageBytes pw in
    head ← lift (zslice 0 (pages * pageBytes pw) p);
    '(c, werr) ← write_through head;
    if (werr : bool) then mret (n + c, true) else
    rest ← lift (zslice (pages * pageBytes pw) (zlen p) p);
    '(c', werr') ← again rest;
    mret (n + c + c', werr')
  else
    '(c, werr) ← again p;
    mret (n + c, werr).

(** [Write] calls itself for the tail, which fits into the buffer. *)
Fixpoint Write_loop (fuel : nat) (p : bytes) : P (Z * bool) :=
  match fuel with
  | O => block
  | S fuel' =>
      pw ← get;
      if zlen p + bufferedBytes pw <=? bufWatermarkBytes pw then put_buf p;; mret (zlen p, false) else
      let slack := pageBytes pw - (pageOffset pw + bufferedBytes pw) mod pageBytes pw in
      if negb (slack =? pageBytes pw) then
        let partial := zlen p <? slack in
        let slack := if partial then zlen p else slack in
        head ← lift (zslice 0 slack p);
        put_buf head;;
        rest ← lift (zslice slack (zlen p) p);
        if partial then mret (slack, false) else write_pages slack rest (Write_loop fuel')
      else write_pages 0 p (Write_loop fuel')
  end.

Definition Write (p : bytes) : P (Z * bool) := Write_loop 2 p.

End page_writer.

Arguments PageWriter W : clear implicits.
Arguments mkPageWriter {W}.

(* ===================================================================== *)
(** ** What a PageWriter does to the writer below                        *)
(* ===================================================================== *)

(** A writer that takes everything it is given. *)
Class WriterLaws (W : Type) `{!Writer W} := {
  takes : bytes -> W -> W;
  write_takes p w : write p w = (zlen p, false, takes p w)
}.

Section laws.
Context {W : Type} `{!Writer W, !WriterLaws W}.
Implicit Types (pw : PageWriter W) (p : bytes).

Definition takes_all (cs : list bytes) (w : W) : W := fold_left (fun w c => takes c w) cs w.

(** The bytes that are still in the buffer. *)
Definition pending pw : bytes := take (Z.to_nat (bufferedBytes pw)) (buf pw).

(** The array has room for a page beyond the watermark. *)
Definition pw_shape pw : Prop :=
  0 < pageBytes pw <= bufWatermarkBytes pw /\ zlen (buf pw) = bufWatermarkBytes pw + pageBytes pw /\
  0 <= bufferedBytes pw <= zlen (buf pw).

(** The buffer may be filled beyond the watermark only up to the end of the page
    the watermark is in. *)
Definition pw_inv pw : Prop :=
  pw_shape pw /\
  (bufferedBytes pw <= bufWatermarkBytes pw \/
   (pageOffset pw + bufferedBytes pw) / pageBytes pw = (pageOffset pw + bufWatermarkBytes pw) / pageBytes pw).

(** Every chunk, written one after the other from offset [off], ends with a page. *)
Fixpoint ends_pages (pb off : Z) (cs : list bytes) : Prop :=
  match cs with
  | [] => True
  | c :: cs' => (off + zlen c) mod pb = 0 /\ ends_pages pb (off + zlen c) cs'
  end.

(** [pw'] is [pw] after [p] was written and the chunks [cs] were passed on. *)
Record passed pw p pw' (cs : list bytes) : Prop := {
  passed_inv : pw_inv pw';
  passed_w : pw_w pw' = takes_all cs (pw_w pw);
  passed_pending : concat cs ++ pending pw' = pending pw ++ p;
  passed_offset : (pageOffset pw + zlen (concat cs)) mod pageBytes pw = pageOffset pw' mod pageBytes pw;
  passed_page : pageBytes pw' = pageBytes pw
}.

Lemma zlen_pending pw : pw_shape pw -> zlen (pending pw) = bufferedBytes pw.
Proof. intros (_ & _ & ?). unfold pending. apply zlen_take. lia. Qed.

Definition with_buf p pw : PageWriter W :=
  mkPageWriter (pw_w pw) (pageOffset pw) (pageBytes pw) (bufferedBytes pw + zlen p) (copy_at (bufferedBytes pw) (buf pw) p) (bufWatermarkBytes pw).

Lemma copy_at_length off dst src : 0 <= off <= zlen dst -> zlen (copy_at off dst src) = zlen dst.
Proof.
  unfold copy_at, zlen. intros H. rewrite !length_app, !length_take, length_drop. lia.
Qed.

Lemma copy_at_take off dst src : 0 <= off -> off + zlen src <= zlen dst ->
  take (Z.to_nat (off + zlen src)) (copy_at off dst src) = take (Z.to_nat off) dst ++ src.
Proof.
  unfold copy_at, zlen. intros H0 H. rewrite Z.min_r by lia. rewrite Nat2Z.id, (take_ge src) by lia.
  rewrite app_assoc. apply take_app_length'. rewrite length_app, length_take. lia.
Qed.

(** Filling the buffer. *)
Lemma wp_put_buf p pw (Q : unit -> PageWriter W -> Prop) : pw_shape pw -> bufferedBytes pw + zlen p <= zlen (buf pw) ->
  (zlen (buf (with_buf p pw)) = zlen (buf pw) -> pending (with_buf p pw) = pending pw ++ p -> Q tt (with_buf p pw)) -> wp false (put_buf p) Q pw.
Proof.
  intros (? & ? & ?) Hl HQ. unfold put_buf. apply wp_bind, wp_get, wp_bind, wp_lift.
  - intros _ _. apply wp_modify, HQ; cbn.
    + apply copy_at_length. lia.
    + unfold pending. cbn. apply copy_at_take; lia.
  - rewrite zslice_ok by lia. done.
  - rewrite zslice_ok by lia. done.
Qed.

Lemma wp_write_through p pw (Q : Z * bool -> PageWriter W -> Prop) :
  Q (zlen p, false) (mkPageWriter (takes p (pw_w pw)) (pageOffset pw) (pageBytes pw) (bufferedBytes pw) (buf pw) (bufWatermarkBytes pw)) ->
  wp false (write_through p) Q pw.
Proof. intros HQ. unfold write_through. apply wp_bind, wp_get. rewrite write_takes. apply wp_bind, wp_modify, wp_ret, HQ. Qed.

(** What [Flush] passes on. *)
Definition flushed pw : list bytes := if bufferedBytes pw =? 0 then [] else [pending pw].

Lemma concat_flushed pw : concat (flushed pw) = pending pw.
Proof.
  unfold flushed. destruct (Z.eqb_spec (bufferedBytes pw) 0) as [E|]; cbn; [|apply app_nil_r].
  unfold pending. by rewrite E.
Qed.

Lemma wp_flush pw : pw_shape pw ->
  wp false flush (fun r pw' => r.2 = false /\ bufferedBytes pw' = 0 /\ passed pw [] pw' (flushed pw) /\
    bufWatermarkBytes pw' = bufWatermarkBytes pw) pw.
Proof.
  intros Hi. pose proof (concat_flushed pw) as Hc. pose proof (zlen_pending pw Hi) as Hz. pose proof Hi as (? & ? & ?). unfold flush. apply wp_bind, wp_get. unfold flushed in *.
  destruct (Z.eqb_spec (bufferedBytes pw) 0) as [E|E].
  - apply wp_ret. split_and!; try done. split; try done; rewrite ?app_nil_r, ?Z.add_0_r; cbn; try done. split; [done|]. left. lia.
  - apply wp_bind, wp_lift; [|by rewrite zslice_ok by lia..]. rewrite zslice_ok, drop_0, Z.sub_0_r by lia.
    intros q. injection 1 as <-. fold (pending pw). apply wp_bind, wp_write_through, wp_bind, wp_modify, wp_ret.
    split_and!; try done. split; cbn; try done.
    + unfold pw_inv, pw_shape. cbn. lia.
    + unfold pending at 2. cbn. by rewrite !app_nil_r.
    + rewrite app_nil_r, Hz. by rewrite Z.mod_mod by lia.
Qed.

Lemma wp_Flush pw : pw_shape pw ->
  wp false Flush (fun err pw' => err = false /\ bufferedBytes pw' = 0 /\ passed pw [] pw' (flushed pw) /\
    bufWatermarkBytes pw' = bufWatermarkBytes pw) pw.
Proof.
  intros Hi. unfold Flush. apply wp_bind. eapply wp_mono; [|by apply wp_flush].
  intros r pw' (E & ?). apply wp_ret. by rewrite E.
Qed.

(** A write that the buffer has room for. *)
Lemma wp_Write_small fuel p pw : pw_inv pw -> zlen p + bufferedBytes pw <= bufWatermarkBytes pw ->
  wp false (Write_loop (S fuel) p) (fun r pw' => r = (zlen p, false) /\ passed pw p pw' [] /\
    bufWatermarkBytes pw' = bufWatermarkBytes pw) pw.
Proof.
  intros Hi Hp. pose proof Hi as ((? & ? & ?) & _). cbn [Write_loop]. apply wp_bind, wp_get. rewrite (proj2 (Z.leb_le _ _)) by lia.
  pose proof (zlen_nonneg p). apply wp_bind, wp_put_buf; [done|lia|]. intros Hb Hpe. apply wp_ret. split; [done|]. split; [|done].
  split; try done; rewrite ?Z.add_0_r; cbn in *; try done. unfold pw_inv, pw_shape. cbn in *. lia.
Qed.

(** Passing on in two steps. *)
Lemma passed_trans pw p1 pw1 cs1 p2 pw2 cs2 : 0 < pageBytes pw ->
  passed pw p1 pw1 cs1 -> passed pw1 p2 pw2 cs2 -> passed pw (p1 ++ p2) pw2 (cs1 ++ cs2).
Proof.
  intros Hpb [Hi1 Hw1 Hp1 Ho1 Hg1] [Hi2 Hw2 Hp2 Ho2 Hg2]. split; [done| | | |congruence].
  - rewrite Hw2, Hw1. unfold takes_all. by rewrite fold_left_app.
  - by rewrite concat_app, <- app_assoc, Hp2, app_assoc, Hp1, app_assoc.
  - rewrite concat_app, zlen_app, Z.add_assoc, <- Zplus_mod_idemp_l, Ho1, Zplus_mod_idemp_l, <- Hg1. congruence.
Qed.

Lemma ends_pages_app pb off cs cs' : ends_pages pb off (cs ++ cs') <->
  ends_pages pb off cs /\ ends_pages pb (off + zlen (concat cs)) cs'.
Proof.
  revert off. induction cs as [|c cs IH]; intros off; cbn; [rewrite Z.add_0_r; tauto|].
  rewrite IH, zlen_app, Z.add_assoc. tauto.
Qed.

Lemma ends_pages_mod pb off off' cs : 0 < pb -> off mod pb = off' mod pb -> ends_pages pb off cs -> ends_pages pb off' cs.
Proof.
  intros Hpb. revert off off'. induction cs as [|c cs IH]; intros off off' E; cbn; [done|]. intros [H1 H2].
  assert (E' : (off + zlen c) mod pb = (off' + zlen c) mod pb) by (by rewrite <- Zplus_mod_idemp_l, E, Zplus_mod_idemp_l).
  split; [congruence|]. by eapply IH.
Qed.

(** [p] was written, in chunks that end with pages. *)
Definition written pw p pw' : Prop :=
  exists cs, passed pw p pw' cs /\ ends_pages (pageBytes pw) (pageOffset pw) cs /\ bufWatermarkBytes pw' = bufWatermarkBytes pw.

Lemma written_trans pw p1 pw1 p2 pw2 : pw_shape pw -> written pw p1 pw1 -> written pw1 p2 pw2 -> written pw (p1 ++ p2) pw2.
Proof.
  intros Hi (cs1 & H1 & He1 & Hm1) (cs2 & H2 & He2 & Hm2). pose proof Hi as (Hpb & _). exists (cs1 ++ cs2).
  split; [by eapply passed_trans; [lia|..]|]. split; [|congruence]. apply ends_pages_app. split; [done|].
  eapply ends_pages_mod; [apply Hpb| |by rewrite <- (passed_page _ _ _ _ H1)]. symmetry. apply (passed_offset _ _ _ _ H1).
Qed.

Lemma flush_written pw pw' : pw_shape pw -> (pageOffset pw + bufferedBytes pw) mod pageBytes pw = 0 ->
  passed pw [] pw' (flushed pw) -> bufWatermarkBytes pw' = bufWatermarkBytes pw -> written pw [] pw'.
Proof.
  intros Hi Ha Hp Hm. exists (flushed pw). split; [done|]. split; [|done]. unfold flushed.
  destruct (_ =? 0); cbn; [done|]. by rewrite zlen_pending.
Qed.

(** Whole pages go past the empty buffer. *)
Lemma through_written p pw : pw_inv pw -> bufferedBytes pw = 0 -> pageOffset pw mod pageBytes pw = 0 -> zlen p mod pageBytes pw = 0 ->
  written pw p (mkPageWriter (takes p (pw_w pw)) (pageOffset pw) (pageBytes pw) (bufferedBytes pw) (buf pw) (bufWatermarkBytes pw)).
Proof.
  intros Hi E0 Ha Hm. assert (E : (pageOffset pw + zlen p) mod pageBytes pw = 0).
  { by rewrite <- Zplus_mod_idemp_l, Ha. }
  exists [p]. split; [|by cbn]. split; cbn; rewrite ?app_nil_r; try done.
  - unfold pending. cbn. by rewrite E0, app_nil_r.
  - congruence.
Qed.

Lemma wp_write_pages fuel n p pw : pw_shape pw -> (pageOffset pw + bufferedBytes pw) mod pageBytes pw = 0 ->
  wp false (write_pages n p (Write_loop (S fuel))) (fun r pw' => r = (n + zlen p, false) /\ written pw p pw') pw.
Proof.
  intros Hi Ha. pose proof Hi as (Hpb & _). unfold write_pages. apply wp_bind. eapply wp_mono; [|by apply wp_Flush].
  intros err pw1 (-> & E0 & Hp1 & Hm1). pose proof (flush_written _ _ Hi Ha Hp1 Hm1) as Hw1. pose proof (passed_inv _ _ _ _ Hp1) as Hi1.
  pose proof (passed_page _ _ _ _ Hp1) as Hg1.
  assert (Ha1 : pageOffset pw1 mod pageBytes pw1 = 0).
  { rewrite Hg1, <- (passed_offset _ _ _ _ Hp1), concat_flushed, zlen_pending; done. }
  apply wp_bind, wp_get.  pose proof (zlen_nonneg p). destruct (Z.ltb_spec (pageBytes pw1) (zlen p)).
  - cbv zeta. set (k := zlen p / pageBytes pw1 * pageBytes pw1). assert (Hk : 0 <= k <= zlen p /\ zlen p - k < pageBytes pw1).
    { subst k. pose proof (Z.div_mod (zlen p) (pageBytes pw1)). pose proof (Z.mod_pos_bound (zlen p) (pageBytes pw1)). nia. }
    assert (Hkm : k mod pageBytes pw1 = 0) by (apply Z.mod_mul; lia). clearbody k.
    apply wp_bind, wp_lift; [|by rewrite zslice_ok by lia..]. rewrite zslice_ok, drop_0, Z.sub_0_r by lia. intros q. injection 1 as <-.
    apply wp_bind, wp_write_through. apply wp_bind, wp_lift; [|by rewrite zslice_ok by lia..].
    rewrite zslice_ok, take_ge by (rewrite ?length_drop; unfold zlen in *; lia). intros q. injection 1 as <-.
    pose proof (through_written (take (Z.to_nat k) p) pw1 Hi1 E0 Ha1 ltac:(by rewrite zlen_take by lia)) as Hw2.
    assert (Hi2 := Hw2). destruct Hi2 as (cs & Hp2 & _ & Hm2). apply wp_bind.
    eapply wp_mono; [|apply wp_Write_small; [apply (passed_inv _ _ _ _ Hp2)|]].
    + intros r pw3 (-> & Hp3 & Hm3). apply wp_ret. rewrite zlen_take, zlen_drop by lia. split; [f_equal; lia|].
      apply (written_trans pw [] pw1 p); [done..|]. rewrite <- (take_drop (Z.to_nat k) p). eapply written_trans; [apply Hi1|exact Hw2|]. by exists [].
    + cbn. rewrite zlen_drop by lia. lia.
  - apply wp_bind. eapply wp_mono; [|apply wp_Write_small; [done|lia]].
    intros r pw3 (-> & Hp3 & Hm3). apply wp_ret. split; [done|]. apply (written_trans pw [] pw1 p); [done..|]. by exists [].
Qed.

Lemma partial_page pb off b n : 0 < pb -> 0 <= n -> n < pb - (off + b) mod pb -> (off + b + n) / pb = (off + b) / pb.
Proof.
  intros Hpb Hn H. pose proof (Z.div_mod (off + b) pb). pose proof (Z.mod_pos_bound (off + b) pb).
  symmetry. apply Z.div_unique with ((off + b) mod pb + n); lia.
Qed.

(** A part of a page in the buffer keeps the invariant. *)
Lemma fill_inv p pw : pw_inv pw -> bufWatermarkBytes pw < zlen p + bufferedBytes pw ->
  zlen p < pageBytes pw - (pageOffset pw + bufferedBytes pw) mod pageBytes pw ->
  bufferedBytes pw + zlen p <= zlen (buf pw) /\ (zlen (buf (with_buf p pw)) = zlen (buf pw) -> pw_inv (with_buf p pw)).
Proof.
  intros [(Hpb & Hb & H0) Hd] Hw Hp. pose proof (zlen_nonneg p). set (pb := pageBytes pw) in *. set (off := pageOffset pw) in *.
  set (b := bufferedBytes pw) in *. set (wm := bufWatermarkBytes pw) in *.
  assert (Hn : (off + b + zlen p) / pb = (off + b) / pb) by (apply partial_page; lia).
  assert (Hs : (off + (b + zlen p)) / pb = (off + wm) / pb).
  { destruct Hd as [Hd|Hd]; rewrite Z.add_assoc, Hn; [|done]. apply Z.le_antisymm; [apply Z.div_le_mono; lia|].
    rewrite <- Hn. apply Z.div_le_mono; lia. }
  assert (b + zlen p < wm + pb).
  { pose proof (Z.div_mod (off + (b + zlen p)) pb). pose proof (Z.div_mod (off + wm) pb).
    pose proof (Z.mod_pos_bound (off + (b + zlen p)) pb). pose proof (Z.mod_pos_bound (off + wm) pb). rewrite Hs in *. lia. }
  split; [lia|]. intros Hl. split; [|by right]. unfold pw_shape. cbn [with_buf pageBytes bufWatermarkBytes bufferedBytes]. rewrite Hl. fold b wm pb. lia.
Qed.

(** The rest of the page fits, too. *)
Lemma slack_room pw : pw_inv pw ->
  bufferedBytes pw + (pageBytes pw - (pageOffset pw + bufferedBytes pw) mod pageBytes pw) <= zlen (buf pw).
Proof.
  intros [(Hpb & Hb & H0) Hd]. pose proof (Z.mod_pos_bound (pageOffset pw + bufferedBytes pw) (pageBytes pw)). destruct Hd as [Hd|Hd]; [lia|].
  pose proof (Z.div_mod (pageOffset pw + bufferedBytes pw) (pageBytes pw)). pose proof (Z.div_mod (pageOffset pw + bufWatermarkBytes pw) (pageBytes pw)).
  pose proof (Z.mod_pos_bound (pageOffset pw + bufWatermarkBytes pw) (pageBytes pw)). rewrite Hd in *. lia.
Qed.

Lemma wp_Write p pw : pw_inv pw -> wp false (Write p) (fun r pw' => r = (zlen p, false) /\ written pw p pw') pw.
Proof.
  intros Hi. unfold Write. destruct (Z.le_gt_cases (zlen p + bufferedBytes pw) (bufWatermarkBytes pw)) as [Hle|Hgt].
  { eapply wp_mono; [|by apply wp_Write_small]. intros r pw' (-> & Hp & Hm). split; [done|]. by exists []. }
  pose proof Hi as [(Hpb & Hb & H0) Hd]. pose proof (zlen_nonneg p).
  remember 1%nat as f eqn:Ef. cbn [Write_loop]. subst f. apply wp_bind, wp_get. rewrite (proj2 (Z.leb_gt _ _)) by lia. cbv zeta.
  set (m := (pageOffset pw + bufferedBytes pw) mod pageBytes pw).
  assert (Hm : 0 <= m < pageBytes pw) by (apply Z.mod_pos_bound; lia).
  destruct (Z.eqb_spec (pageBytes pw - m) (pageBytes pw)) as [Em|Em]; cbn [negb].
  { apply wp_write_pages; [apply Hi|fold m; lia]. }
  destruct (Z.ltb_spec (zlen p) (pageBytes pw - m)) as [Hs|Hs]; (apply wp_bind, wp_lift; [|by rewrite zslice_ok by lia..]).
  - rewrite zslice_ok, drop_0, Z.sub_0_r, take_ge by (unfold zlen in *; lia). intros q. injection 1 as <-.
    destruct (fill_inv p pw Hi ltac:(lia) Hs) as [Hr Hi']. apply wp_bind, wp_put_buf; [apply Hi|done|]. intros Hb' Hpe.
    apply wp_bind, wp_lift; [|by rewrite zslice_ok by lia..]. intros _ _. apply wp_ret. split; [done|].
    exists []. split; [|done]. split; try done; [by apply Hi'|]. by rewrite Z.add_0_r.
  - rewrite zslice_ok, drop_0, Z.sub_0_r by lia. intros q. injection 1 as <-. set (h := take _ p).
    assert (Hh : zlen h = pageBytes pw - m) by (subst h; apply zlen_take; lia).
    assert (Hroom : bufferedBytes pw + zlen h <= zlen (buf pw)) by (rewrite Hh; by apply slack_room).
    apply wp_bind, wp_put_buf; [apply Hi|done|]. intros Hb' Hpe. apply wp_bind, wp_lift; [|by rewrite zslice_ok by lia..].
    rewrite zslice_ok, take_ge by (rewrite ?length_drop; unfold zlen in *; lia). intros q. injection 1 as <-.
    eapply wp_mono; [|apply wp_write_pages]; cbn [with_buf pageOffset bufferedBytes pageBytes].
    + intros r pw' (-> & cs & [Hi2 Hw2 Hp2 Ho2 Hg2] & He & Hm2). split; [f_equal; rewrite zlen_drop by lia; lia|].
      exists cs. split; [|done]. split; try done. rewrite Hp2, Hpe, <- app_assoc. subst h. by rewrite take_drop.
    + unfold pw_shape. cbn [with_buf pageBytes bufWatermarkBytes bufferedBytes]. rewrite Hb'. lia.
    + rewrite Hh, Z.add_assoc. pose proof (Z.div_mod (pageOffset pw + bufferedBytes pw) (pageBytes pw) ltac:(lia)) as E. fold m in E.
      rewrite E. replace (_ + m + (pageBytes pw - m)) with (((pageOffset pw + bufferedBytes pw) / pageBytes pw + 1) * pageBytes pw) by lia.
      apply Z.mod_mul. lia.
Qed.

Lemma NewPageWriter_inv w pb off : 0 < pb <= defaultBufferBytes -> pw_inv (NewPageWriter w pb off).
Proof.
  intros H. unfold pw_inv, pw_shape. cbn [NewPageWriter pageBytes bufWatermarkBytes buf bufferedBytes].
  unfold zlen. rewrite repeat_length. unfold defaultBufferBytes in *. lia.
Qed.

(** Several writes, and what they returned. *)
Definition write_all (ps : list bytes) : M (PageWriter W) (list (Z * bool)) :=
  foldM (fun rs p => r ← Write p; mret (rs ++ [r])) [] ps.

Lemma wp_write_all ps pw : pw_inv pw ->
  wp false (write_all ps) (fun rs pw' => rs = (fun p => (zlen p, false)) <$> ps /\ written pw (concat ps) pw' /\ pw_inv pw') pw.
Proof.
  intros Hi. apply (wp_foldM false _ (fun l rs pw' => exists done, ps = done ++ l /\ rs = (fun p => (zlen p, false)) <$> done /\
    written pw (concat done) pw' /\ pw_inv pw')).
  - intros p l rs pw' (dn & E & -> & Hw & Hi'). apply wp_bind. eapply wp_mono; [|by apply wp_Write].
    intros r pw2 (-> & Hw2). apply wp_ret. exists (dn ++ [p]). rewrite fmap_app, concat_app. cbn. rewrite app_nil_r, <- app_assoc.
    split_and!; [done|done|eapply written_trans; [apply Hi|done|done]|]. by destruct Hw2 as (cs & [] & _).
  - intros rs pw' (dn & E & -> & Hw & Hi'). rewrite app_nil_r in E. by subst dn.
  - exists []. split_and!; try done. exists []. split; [|done]. split; try done; rewrite ?app_nil_r, ?Z.add_0_r; done.
Qed.

(** what is written through a new [PageWriter] and then flushed reaches the
    writer below completely and in order, every [Write] reports all its bytes, and
    the chunks that are passed on all end with a page, except for the last one of
    the [Flush]. Neither panics, and the recursion of [Write] ends. *)
Theorem pages_written (w : W) (pb off : Z) (ps : list bytes) (Hpb : 0 < pb <= defaultBufferBytes) :
  exists pw cs last, (rs ← write_all ps; err ← Flush; mret (rs, err)) (NewPageWriter w pb off) =
      Ret ((fun p => (zlen p, false)) <$> ps, false, pw) /\
    pw_w pw = takes_all (cs ++ last) w /\ concat (cs ++ last) = concat ps /\
    ends_pages pb off cs /\ (length last <= 1)%nat.
Proof.
  pose proof (NewPageWriter_inv w pb off Hpb) as Hi.
  assert (Hwp : wp false (rs ← write_all ps; err ← Flush; mret (rs, err)) (fun r pw => r = ((fun p => (zlen p, false)) <$> ps, false) /\
    exists cs last, pw_w pw = takes_all (cs ++ last) w /\ concat (cs ++ last) = concat ps /\ ends_pages pb off cs /\ (length last <= 1)%nat)
    (NewPageWriter w pb off)).
  { apply wp_bind. eapply wp_mono; [|by apply wp_write_all]. intros rs pw (-> & (cs & Hp & He & _) & Hi'). apply wp_bind.
    eapply wp_mono; [|apply wp_Flush, Hi']. intros err pw2 (-> & E0 & Hp2 & _). apply wp_ret. split; [done|].
    exists cs, (flushed pw). pose proof (passed_trans (NewPageWriter w pb off) _ _ _ _ _ _ (proj1 Hpb) Hp Hp2) as [_ Hw Hc _ _].
    split_and!; [done| |done|unfold flushed; destruct (_ =? 0); cbn; lia].
    rewrite app_nil_r in Hc. unfold pending at 1 in Hc. rewrite E0 in Hc. cbn in Hc. by rewrite app_nil_r in Hc. }
  apply wp_run in Hwp as ([rs err] & pw & E & [= -> ->] & cs & last & H). by exists pw, cs, last.
Qed.

End laws.

(** A writer that remembers every call. *)
#[export] Instance chunks_Writer : Writer (list bytes) := fun p w => (zlen p, false, w ++ [p]).
#[export] Instance chunks_laws : WriterLaws (list bytes) := {| takes p w := w ++ [p]; write_takes p w := eq_refl |}.

Lemma pages_written_witness : exists pw cs last,
  (rs ← write_all (W := list bytes) [bs "record"; bs "log"]; err ← Flush; mret (rs, err)) (NewPageWriter [] 4 3) =
    Ret ([(6, false); (3, false)], false, pw) /\
  pw_w pw = takes_all (cs ++ last) [] /\ concat (cs ++ last) = bs "recordlog" /\ ends_pages 4 3 cs /\ (length last <= 1)%nat.
Proof. apply (pages_written [] 4 3 [bs "record"; bs "log"]). unfold defaultBufferBytes. lia. Defined.
