(* ===== verification/Wal.v ===== *)
(** * Wal: the write-ahead log (src/etcd/server/storage/wal)

    A log is a directory of segment files. [encode] frames a record and chains its
    checksum to the one of the record before; [decodeRecord] reads it back. In append
    mode the last segment is written through a [PageWriter]; in read mode a decoder
    walks over the segments. A file is its bytes and a position, and its name is the
    pair of numbers the name is made of. Writing, truncating and syncing a file do not
    fail here. *)

From S2P Require Import Prelude Strconv RaftPb RaftWire RaftCodec Quorum RaftStorage RaftLog Tracker ConfChange RaftNode WalPb PageWriter.

(* ===================================================================== *)
(** ** Files                                                             *)
(* ===================================================================== *)

Record File : Type := mkFile { fSeq : Z; fIndex : Z; fData : bytes; fPos : Z }.

Definition zeros (n : Z) : bytes := replicate (Z.to_nat n) (zbyte 0).

(** Writing at the position. *)
Definition file_write (p : bytes) (f : File) : File :=
  let d := fData f ++ zeros (fPos f - zlen (fData f)) in
  mkFile (fSeq f) (fIndex f)
    (take (Z.to_nat (fPos f)) d ++ p ++ drop (Z.to_nat (fPos f + zlen p)) d) (fPos f + zlen p).

#[export] Instance File_Writer : Writer File := fun p f => (zlen p, false, file_write p f).
#[export] Instance File_laws : WriterLaws File := {| takes := file_write; write_takes p f := eq_refl |}.

Definition Truncate (n : Z) (f : File) : File :=
  mkFile (fSeq f) (fIndex f) (take (Z.to_nat n) (fData f) ++ zeros (n - zlen (fData f))) (fPos f).

Definition seek (n : Z) (f : File) : File := mkFile (fSeq f) (fIndex f) (fData f) n.

(** [fileutil.ZeroToEnd] from the current position. *)
Definition ZeroToEnd (f : File) : File :=
  mkFile (fSeq f) (fIndex f) (take (Z.to_nat (fPos f)) (fData f) ++ zeros (zlen (fData f) - fPos f)) (fPos f).

(* ===================================================================== *)
(** ** encoder.go                                                        *)
(* ===================================================================== *)

Definition metadataType : Z := 1.
Definition entryType : Z := 2.
Definition stateType : Z := 3.
Definition crcType : Z := 4.
Definition snapshotType : Z := 5.

Definition minSectorSize : Z := 512.
Definition walPageBytes : Z := 8 * minSectorSize.
Definition frameSizeBytes : Z := 8.

Record encoder : Type := mkEncoder { ebw : PageWriter File; ecrc : Z }.

Definition bw_lens : lens encoder (PageWriter File) := mkLens ebw (fun bw e => mkEncoder bw (ecrc e)).

(** [newFileEncoder]: the page offset is the current position of the file. *)
Definition newFileEncoder (f : File) (prevCrc : Z) : encoder :=
  mkEncoder (NewPageWriter f walPageBytes (fPos f)) prevCrc.

Definition encodeFrameSize (dataBytes : Z) : Z * Z :=
  let padBytes := (8 - dataBytes mod 8) mod 8 in
  (if padBytes =? 0 then dataBytes
   else Z.lor dataBytes (u64 (Z.shiftl (Z.lor 0x80 padBytes) 56)), padBytes).

(** [binary.LittleEndian.PutUint64]. *)
Definition PutUint64 (n : Z) : bytes := (fun k => zbyte (Z.shiftr n (8 * k))) <$> seqZ 0 8.

(** [encode]: whether there was an error. [rec] is not used again by the callers. *)
Definition encode (rec : Record_) : M encoder bool :=
  modify (fun e => mkEncoder (ebw e) (crc_Write (ecrc e) (rData rec)));;
  e ← get;
  data ← lift (Record_Marshal (mkRecord (rType rec) (ecrc e) (rData rec)));
  let '(lenField, padBytes) := encodeFrameSize (zlen data) in
  '(_, err) ← zoom bw_lens (Write (PutUint64 lenField));
  if (err : bool) then mret true else
  let data := if negb (padBytes =? 0) then data ++ zeros padBytes else data in
  '(_, err) ← zoom bw_lens (Write data);
  mret err.

(* ===================================================================== *)
(** ** decoder.go                                                        *)
(* ===================================================================== *)

(** A reader: the size of its file, and what has not been read yet. *)
Record reader : Type := mkReader { rdSize : Z; rdRest : bytes }.

Record decoder : Type := mkDecoder { brs : list reader; lastValidOff : Z; dcrc : Z }.

Inductive decode_error : Type :=
| EOF
| UnexpectedEOF
| LimitExceeded
| RecordCRCMismatch
| RecordError (e : wire_error).

Definition newDecoder (fs : list File) : decoder :=
  mkDecoder ((fun f => mkReader (zlen (fData f)) (fData f)) <$> fs) 0 0.

(** [LittleEndian.Uint64] of eight bytes. *)
Definition Uint64 (b : bytes) : Z := foldr (fun c n => byteval c + 256 * n) 0 b.

(** [readInt64]: the number and the rest. *)
Definition readInt64 (s : bytes) : Z * bytes + decode_error :=
  match s with
  | [] => inr EOF
  | _ => if zlen s <? 8 then inr UnexpectedEOF else inl (i64 (Uint64 (take 8 s)), drop 8 s)
  end.

Definition decodeFrameSize (lenField : Z) : Z * Z :=
  (Z.land (u64 lenField) (Z.lxor (2 ^ 64 - 1) (Z.shiftl 0xff 56)),
   if lenField <? 0 then Z.land (Z.shiftr (u64 lenField) 56) 7 else 0).

(** The chunks of [data] by sectors, from offset [fileOff] of the file. *)
Fixpoint sectors (fuel : nat) (fileOff : Z) (data : bytes) : list bytes :=
  match fuel, data with
  | S fuel', _ :: _ =>
      let chunkLen := Z.min (minSectorSize - fileOff mod minSectorSize) (zlen data) in
      take (Z.to_nat chunkLen) data :: sectors fuel' (fileOff + chunkLen) (drop (Z.to_nat chunkLen) data)
  | _, _ => []
  end.

Definition isTornEntry (d : decoder) (data : bytes) : bool :=
  if negb (zlen (brs d) =? 1) then false else
  existsb (forallb (fun c => byteval c =? 0)) (sectors (length data) (lastValidOff d + frameSizeBytes) data).

Definition torn_or (d : decoder) (data : bytes) (e : decode_error) : decode_error :=
  if isTornEntry d data then UnexpectedEOF else e.

Definition wire_decode_error (e : wire_error) : decode_error :=
  match e with ErrUnexpectedEOF => UnexpectedEOF | e => RecordError e end.

(** [decodeRecord] once a length was read from the first reader. *)
Definition decode_frame (l : Z) (rest : bytes) (r : reader) (rs : list reader) (off crc : Z) :
    outcome ((Record_ + decode_error) * decoder) :=
  let '(recBytes, padBytes) := decodeFrameSize l in
  let d := mkDecoder (mkReader (rdSize r) rest :: rs) off crc in
  if rdSize r - off - padBytes <? recBytes then Ret (inr LimitExceeded, d) else
  if zlen rest <? recBytes + padBytes then Ret (inr UnexpectedEOF, mkDecoder (mkReader (rdSize r) [] :: rs) off crc) else
  let data := take (Z.to_nat (recBytes + padBytes)) rest in
  let d := mkDecoder (mkReader (rdSize r) (drop (Z.to_nat (recBytes + padBytes)) rest) :: rs) off crc in
  match Record_Unmarshal (take (Z.to_nat recBytes) data) zero_Record with
  | DErr e => Ret (inr (torn_or d data (wire_decode_error e)), d)
  | DPanic => Panic
  | DSpin => Block
  | DOk rec =>
      let off' := off + frameSizeBytes + recBytes + padBytes in
      if rType rec =? crcType then Ret (inl rec, mkDecoder (brs d) off' crc) else
      let crc' := crc_Write crc (rData rec) in
      if (Validate crc' rec).2 then Ret (inl rec, mkDecoder (brs d) off' crc')
      else Ret (inr (torn_or d data RecordCRCMismatch), mkDecoder (brs d) off crc')
  end.

Fixpoint decode_from (rs : list reader) (off crc : Z) : outcome ((Record_ + decode_error) * decoder) :=
  match rs with
  | [] => Ret (inr EOF, mkDecoder [] off crc)
  | r :: rs' =>
      match readInt64 (rdRest r) with
      | inr EOF => match rs' with [] => Ret (inr EOF, mkDecoder [] off crc) | _ => decode_from rs' 0 crc end
      | inr e => Ret (inr e, mkDecoder (mkReader (rdSize r) [] :: rs') off crc)
      | inl (l, rest) =>
          if l =? 0 then match rs' with [] => Ret (inr EOF, mkDecoder [] off crc) | _ => decode_from rs' 0 crc end
          else decode_frame l rest r rs' off crc
      end
  end.

Definition decode : M decoder (Record_ + decode_error) := fun d => decode_from (brs d) (lastValidOff d) (dcrc d).

Definition updateCRC (prevCrc : Z) (d : decoder) : decoder := mkDecoder (brs d) (lastValidOff d) prevCrc.

(* ===================================================================== *)
(** ** wal.go                                                            *)
(* ===================================================================== *)

Inductive wal_error : Type :=
| ErrMetadataConflict
| ErrFileNotFound
| ErrCRCMismatch
| ErrSnapshotMismatch
| ErrSnapshotNotFound
| ErrSliceOutOfRange
| ErrDecoderNotFound
| ErrBlockType (t : Z)         (* unexpected block type *)
| ErrNoFileForIndex            (* file not found which matches the snapshot index *)
| ErrBadSeq                    (* sequence numbers do not increase continuously *)
| ErrMissingConfState
| ErrEncode
| ErrDecode (e : decode_error).

(** The segments are read, the last of which is held in write mode only; or the
    last one belongs to the encoder; or a log opened for reading has been read. *)
Inductive mode : Type :=
| Reading (d : decoder) (t : option File)
| Appending (e : encoder)
| Finished.

(** [older]: segments that are not held any more or were not opened. [locks]: the
    held ones before the last. *)
Record WAL : Type := mkWAL {
  older : list File;
  locks : list File;
  wmode : mode;
  wmetadata : option bytes;
  wstate : HardState;
  wstart : walSnapshot;
  enti : Z
}.

Definition set_mode (m : mode) (w : WAL) : WAL := mkWAL (older w) (locks w) m (wmetadata w) (wstate w) (wstart w) (enti w).
Definition set_state (s : HardState) (w : WAL) : WAL := mkWAL (older w) (locks w) (wmode w) (wmetadata w) s (wstart w) (enti w).
Definition set_enti (i : Z) (w : WAL) : WAL := mkWAL (older w) (locks w) (wmode w) (wmetadata w) (wstate w) (wstart w) i.

Definition wtail (w : WAL) : option File :=
  match wmode w with Reading _ t => t | Appending e => Some (pw_w (ebw e)) | Finished => None end.

(** Writing without an encoder is a nil dereference. *)
Definition on_encoder {A} (m : M encoder A) : M WAL A :=
  w ← get;
  match wmode w with
  | Appending e => '(a, e') ← lift (m e); modify (set_mode (Appending e'));; mret a
  | Reading _ _ | Finished => panic
  end.

Definition saveCrc (prevCrc : Z) : M WAL bool := on_encoder (encode (mkRecord crcType prevCrc None)).

Definition saveEntry (e : Entry) : M WAL bool :=
  b ← lift (Entry_Marshal e);
  err ← on_encoder (encode (mkRecord entryType 0 (Some b)));
  if (err : bool) then mret true else
  modify (set_enti (eIndex e));;
  mret false.

Definition saveState (s : HardState) : M WAL bool :=
  if IsEmptyHardState s then mret false else
  modify (set_state s);;
  b ← lift (HardState_Marshal s);
  on_encoder (encode (mkRecord stateType 0 (Some b))).

(** [sync]: what is in the buffer is written to the file. *)
Definition sync : M WAL bool := on_encoder (zoom bw_lens Flush).

(** A file of the pipeline: preallocated, at its start. *)
Definition fresh_file (SegmentSizeBytes seq index : Z) : File := mkFile seq index (zeros SegmentSizeBytes) 0.

Section segments.
Context (SegmentSizeBytes : Z).

(** The error that ends a sequence of writes. *)
Definition and_then (m1 m2 : M WAL bool) : M WAL bool :=
  err ← m1; if (err : bool) then mret true else m2.

(** [cut]. The name of the new segment is fixed before it is written. *)
Definition cut : M WAL bool :=
  w ← get;
  match wmode w with
  | Reading _ _ | Finished => panic
  | Appending e =>
      let t := pw_w (ebw e) in
      let trunc e := mkEncoder (mkPageWriter (Truncate (fPos t) t) (pageOffset (ebw e)) (pageBytes (ebw e))
        (bufferedBytes (ebw e)) (buf (ebw e)) (bufWatermarkBytes (ebw e))) (ecrc e) in
      modify (set_mode (Appending (trunc e)));;
      err ← sync;
      if (err : bool) then mret true else
      w' ← get;
      match wmode w' with
      | Reading _ _ | Finished => panic
      | Appending e' =>
          let t' := pw_w (ebw e') in
          let newTail := fresh_file SegmentSizeBytes (u64 (fSeq t' + 1)) (u64 (enti w' + 1)) in
          let prevCrc := ecrc e' in
          modify (fun w => mkWAL (older w) (locks w ++ [t']) (Appending (newFileEncoder newTail prevCrc))
            (wmetadata w) (wstate w) (wstart w) (enti w));;
          err ← and_then (saveCrc prevCrc)
                 (and_then (on_encoder (encode (mkRecord metadataType 0 (wmetadata w'))))
                 (and_then (saveState (wstate w')) sync));
          if (err : bool) then mret true else
          on_encoder (modify (fun e => newFileEncoder (pw_w (ebw e)) (ecrc e)));;
          mret false
      end
  end.

Definition Save (st : HardState) (ents : list Entry) : M WAL bool :=
  if IsEmptyHardState st && (zlen ents =? 0) then mret false else
  w ← get;
  let mustSync := MustSync st (wstate w) (zlen ents) in
  err ← foldM (fun err e => if (err : bool) then mret true else saveEntry e) false ents;
  if (err : bool) then mret true else
  err ← saveState st;
  if (err : bool) then mret true else
  w ← get;
  match wtail w with
  | None => panic
  | Some t =>
      if fPos t <? SegmentSizeBytes then (if mustSync then sync else mret false)
      else cut
  end.

Definition SaveSnapshot (e : walSnapshot) : M WAL (option wal_error) :=
  if negb (ValidateSnapshotForWrite e) then mret (Some ErrMissingConfState) else
  b ← lift (walSnapshot_Marshal e);
  err ← on_encoder (encode (mkRecord snapshotType 0 (Some b)));
  if (err : bool) then mret (Some ErrEncode) else
  modify (fun w => if enti w <? wIndex e then set_enti (wIndex e) w else w);;
  err ← sync;
  mret (if (err : bool) then Some ErrEncode else None).

(** [Create]: the first segment of a new log. *)
Definition Create (metadata : option bytes) : outcome (WAL * bool) :=
  let w := mkWAL [] [] (Appending (newFileEncoder (fresh_file SegmentSizeBytes 0 0) 0)) metadata
             zero_HardState zero_walSnapshot 0 in
  '(err, w) ← and_then (saveCrc 0)
               (and_then (on_encoder (encode (mkRecord metadataType 0 metadata)))
                 (e ← SaveSnapshot zero_walSnapshot; mret (match e with None => false | Some _ => true end))) w;
  Ret (w, err).

End segments.

(** [Close]: the log is synced; what is left are its files. *)
Definition Close (w : WAL) : outcome (list File) :=
  match wmode w with
  | Reading _ t => Ret (older w ++ locks w ++ option_list t)
  | Finished => Ret (older w)
  | Appending _ =>
      '(_, w) ← sync w;
      Ret (older w ++ locks w ++ option_list (wtail w))
  end.

(** ** Names *)

(** [searchIndex]: the last file whose index is not greater. *)
Fixpoint searchIndex (names : list File) (index : Z) : option nat :=
  match names with
  | [] => None
  | f :: names' =>
      match searchIndex names' index with
      | Some i => Some (S i)
      | None => if fIndex f <=? index then Some 0%nat else None
      end
  end.

Definition isValidSeq (names : list File) : bool :=
  (fold_left (fun '(ok, lastSeq) f =>
    (ok && negb (negb (lastSeq =? 0) && negb (lastSeq =? u64 (fSeq f - 1))), fSeq f)) names (true, 0)).1.

Definition selectWALFiles (names : list File) (snap : walSnapshot) : nat + wal_error :=
  match names with
  | [] => inr ErrFileNotFound
  | _ =>
      match searchIndex names (wIndex snap) with
      | None => inr ErrNoFileForIndex
      | Some i => if isValidSeq (drop i names) then inl i else inr ErrBadSeq
      end
  end.

(** [Open]: in write mode the opened files are held. *)
Definition openAtIndex (dir : list File) (snap : walSnapshot) (wr : bool) : WAL + wal_error :=
  match selectWALFiles dir snap with
  | inr e => inr e
  | inl i =>
      let fs := drop i dir in
      inl (mkWAL (if wr then take i dir else dir) (if wr then take (pred (length fs)) fs else [])
             (Reading (newDecoder fs) (if wr then last fs else None)) None zero_HardState snap 0)
  end.

Definition Open (dir : list File) (snap : walSnapshot) : WAL + wal_error := openAtIndex dir snap true.

(** ** ReadAll *)

(** The variables of the loop: the results so far, whether the snapshot was seen,
    [w.enti] and the decoder. *)
Record read_state : Type := mkReadState {
  raMetadata : option bytes;
  raState : HardState;
  raEnts : list Entry;
  raMatch : bool;
  raEnti : Z;
  raDecoder : decoder
}.

(** [pbutil.MustUnmarshal] panics on an error. *)
Definition must {A} (r : dec A) : outcome A :=
  match r with DOk a => Ret a | DErr _ => Panic | DPanic => Panic | DSpin => Block end.

(** What [ReadAll] does with a record: an error ends it, with the state it returns. *)
Definition read_record (start : walSnapshot) (rec : Record_) (s : read_state) : outcome (read_state + wal_error * HardState) :=
  let '(mkReadState md st ents mt ei d) := s in
  if rType rec =? entryType then
    e ← must (Entry_Unmarshal (default [] (rData rec)) zero_entry);
    if wIndex start <? eIndex e then
      let up := u64 (eIndex e - wIndex start - 1) in
      if zlen ents <? up then Ret (inr (ErrSliceOutOfRange, st))
      else Ret (inl (mkReadState md st (take (Z.to_nat up) ents ++ [e]) mt (eIndex e) d))
    else Ret (inl (mkReadState md st ents mt (eIndex e) d))
  else if rType rec =? stateType then
    st' ← must (HardState_Unmarshal (default [] (rData rec)) zero_HardState);
    Ret (inl (mkReadState md st' ents mt ei d))
  else if rType rec =? metadataType then
    if negb (bool_decide (md = None)) && negb (bool_decide (default [] md = default [] (rData rec)))
    then Ret (inr (ErrMetadataConflict, zero_HardState))
    else Ret (inl (mkReadState (rData rec) st ents mt ei d))
  else if rType rec =? crcType then
    if negb (dcrc d =? 0) && negb (Validate (dcrc d) rec).2 then Ret (inr (ErrCRCMismatch, zero_HardState))
    else Ret (inl (mkReadState md st ents mt ei (updateCRC (rCrc rec) d)))
  else if rType rec =? snapshotType then
    snap ← must (walSnapshot_Unmarshal (default [] (rData rec)) zero_walSnapshot);
    if wIndex snap =? wIndex start then
      if negb (wTerm snap =? wTerm start) then Ret (inr (ErrSnapshotMismatch, zero_HardState))
      else Ret (inl (mkReadState md st ents true ei d))
    else Ret (inl s)
  else Ret (inr (ErrBlockType (rType rec), zero_HardState)).

(** The loop, up to the error of [decode] that ends it. Every record takes at least
    the eight bytes of its length, so the bytes to read bound the records. *)
Fixpoint read_loop (fuel : nat) (start : walSnapshot) (s : read_state) :
    outcome (read_state * decode_error + read_state * (wal_error * HardState)) :=
  match fuel with
  | O => Block
  | S fuel' =>
      '(r, d) ← decode (raDecoder s);
      let s := mkReadState (raMetadata s) (raState s) (raEnts s) (raMatch s) (raEnti s) d in
      match r with
      | inr e => Ret (inl (s, e))
      | inl rec =>
          r' ← read_record start rec s;
          match r' with
          | inl s' => read_loop fuel' start s'
          | inr e => Ret (inr (s, e))
          end
      end
  end.

Definition read_fuel (d : decoder) : nat := S (sum_list_with (fun r => length (rdRest r)) (brs d)).

(** What is returned: metadata, state, entries and error. *)
Record read_result : Type := mkReadResult {
  resMetadata : option bytes;
  resState : HardState;
  resEnts : list Entry;
  resErr : option wal_error
}.

Definition ReadAll : M WAL read_result :=
  w ← get;
  match wmode w with
  | Appending _ | Finished => mret (mkReadResult None zero_HardState [] (Some ErrDecoderNotFound))
  | Reading d t =>
      r ← lift (read_loop (read_fuel d) (wstart w) (mkReadState None zero_HardState [] false (enti w) d));
      match r with
      | inr (s, (e, st)) =>
          modify (fun w => set_enti (raEnti s) (set_mode (Reading (raDecoder s) t) w));;
          mret (mkReadResult None st [] (Some e))
      | inl (s, e) =>
          let ok := match t with
            | None => match e with EOF | UnexpectedEOF => true | _ => false end
            | Some _ => match e with EOF => true | _ => false end
            end in
          modify (fun w => set_enti (raEnti s) (set_mode (Reading (raDecoder s) t) w));;
          if negb ok then mret (mkReadResult None zero_HardState [] (Some (ErrDecode e))) else
          let err := if raMatch s then None else Some ErrSnapshotNotFound in
          match t with
          | None =>
              modify (fun w => mkWAL (older w) (locks w) Finished (raMetadata s) (wstate w) zero_walSnapshot (enti w));;
              mret (mkReadResult (raMetadata s) (raState s) (raEnts s) err)
          | Some t =>
              let t := ZeroToEnd (seek (lastValidOff (raDecoder s)) t) in
              modify (fun w => mkWAL (older w) (locks w) (Appending (newFileEncoder t (dcrc (raDecoder s))))
                (raMetadata s) (wstate w) zero_walSnapshot (enti w));;
              mret (mkReadResult (raMetadata s) (raState s) (raEnts s) None)
          end
      end
  end.

(** [ReleaseLockTo]: the held segments before the last one whose index is smaller. *)
Definition ReleaseLockTo (index : Z) : M WAL unit :=
  w ← get;
  match wtail w with
  | None => panic
  | Some t =>
      let all := locks w ++ [t] in
      let smaller := match list_find (fun f => index <= fIndex f) all with
        | Some (i, _) => Z.of_nat i - 1
        | None => zlen all - 1
        end in
      if smaller <=? 0 then mret tt else
      modify (fun w => mkWAL (older w ++ take (Z.to_nat smaller) (locks w)) (drop (Z.to_nat smaller) (locks w))
        (wmode w) (wmetadata w) (wstate w) (wstart w) (enti w))
  end.

(** The loop of [ValidSnapshotEntries]. *)
Fixpoint snaps_loop (fuel : nat) (d : decoder) (snaps : list walSnapshot) (state : HardState) :
    outcome (list walSnapshot * HardState + wal_error) :=
  match fuel with
  | O => Block
  | S fuel' =>
      '(r, d) ← decode d;
      match r with
      | inr EOF | inr UnexpectedEOF => Ret (inl (snaps, state))
      | inr e => Ret (inr (ErrDecode e))
      | inl rec =>
          if rType rec =? snapshotType then
            s ← must (walSnapshot_Unmarshal (default [] (rData rec)) zero_walSnapshot);
            snaps_loop fuel' d (snaps ++ [s]) state
          else if rType rec =? stateType then
            st ← must (HardState_Unmarshal (default [] (rData rec)) zero_HardState);
            snaps_loop fuel' d snaps st
          else if rType rec =? crcType then
            if negb (dcrc d =? 0) && negb (Validate (dcrc d) rec).2 then Ret (inr ErrCRCMismatch)
            else snaps_loop fuel' (updateCRC (rCrc rec) d) snaps state
          else snaps_loop fuel' d snaps state
      end
  end.

Definition ValidSnapshotEntries (dir : list File) : outcome (list walSnapshot + wal_error) :=
  match dir with
  | [] => Ret (inr ErrFileNotFound)
  | _ =>
      let d := newDecoder dir in
      r ← snaps_loop (read_fuel d) d [] zero_HardState;
      match r with
      | inr e => Ret (inr e)
      | inl (snaps, state) => Ret (inl (filter (fun s => wIndex s <= hCommit state) snaps))
      end
  end.

(** [Verify]: the last state, if the log is not corrupted and holds the snapshot. *)
Fixpoint verify_loop (fuel : nat) (snap : walSnapshot) (d : decoder) (metadata : option bytes) (mt : bool) (state : HardState) :
    outcome (bool * HardState + wal_error) :=
  match fuel with
  | O => Block
  | S fuel' =>
      '(r, d) ← decode d;
      match r with
      | inr EOF | inr UnexpectedEOF => Ret (inl (mt, state))
      | inr e => Ret (inr (ErrDecode e))
      | inl rec =>
          if rType rec =? metadataType then
            if negb (bool_decide (metadata = None)) && negb (bool_decide (default [] metadata = default [] (rData rec)))
            then Ret (inr ErrMetadataConflict) else verify_loop fuel' snap d (rData rec) mt state
          else if rType rec =? crcType then
            if negb (dcrc d =? 0) && negb (Validate (dcrc d) rec).2 then Ret (inr ErrCRCMismatch)
            else verify_loop fuel' snap (updateCRC (rCrc rec) d) metadata mt state
          else if rType rec =? snapshotType then
            s ← must (walSnapshot_Unmarshal (default [] (rData rec)) zero_walSnapshot);
            if wIndex s =? wIndex snap then
              if negb (wTerm s =? wTerm snap) then Ret (inr ErrSnapshotMismatch)
              else verify_loop fuel' snap d metadata true state
            else verify_loop fuel' snap d metadata mt state
          else if rType rec =? entryType then verify_loop fuel' snap d metadata mt state
          else if rType rec =? stateType then
            st ← must (HardState_Unmarshal (default [] (rData rec)) state);
            verify_loop fuel' snap d metadata mt st
          else Ret (inr (ErrBlockType (rType rec)))
      end
  end.

Definition Verify (dir : list File) (snap : walSnapshot) : outcome (HardState + wal_error) :=
  match selectWALFiles dir snap with
  | inr e => Ret (inr e)
  | inl i =>
      let d := newDecoder (drop i dir) in
      r ← verify_loop (read_fuel d) snap d None false zero_HardState;
      match r with
      | inr e => Ret (inr e)
      | inl (mt, state) => Ret (if (mt : bool) then inl state else inr ErrSnapshotNotFound)
      end
  end.

(** [Repair] of the last segment: the offset to truncate it to, if it has to be. *)
Fixpoint repair_loop (fuel : nat) (d : decoder) : outcome (option Z + unit) :=
  match fuel with
  | O => Block
  | S fuel' =>
      let lastOffset := lastValidOff d in
      '(r, d) ← decode d;
      match r with
      | inl rec =>
          if rType rec =? crcType then
            if negb (dcrc d =? 0) && negb (Validate (dcrc d) rec).2 then Ret (inr tt)
            else repair_loop fuel' (updateCRC (rCrc rec) d)
          else repair_loop fuel' d
      | inr EOF => Ret (inl None)
      | inr UnexpectedEOF => Ret (inl (Some lastOffset))
      | inr _ => Ret (inr tt)
      end
  end.

Definition Repair (dir : list File) : outcome (bool * list File) :=
  match last dir with
  | None => Ret (false, dir)
  | Some f =>
      let d := newDecoder [f] in
      r ← repair_loop (read_fuel d) d;
      match r with
      | inr _ => Ret (false, dir)
      | inl None => Ret (true, dir)
      | inl (Some n) => Ret (true, take (pred (length dir)) dir ++ [Truncate n f])
      end
  end.

(* ===================================================================== *)
(** ** Frames                                                            *)
(* ===================================================================== *)

Definition pad_of (n : Z) : Z := (8 - n mod 8) mod 8.

Lemma pad_of_spec n : 0 <= pad_of n < 8 /\ (n + pad_of n) mod 8 = 0.
Proof. unfold pad_of. Z.div_mod_to_equations. lia. Qed.

(** The length field as a number. *)
Lemma encodeFrameSize_eq n : 0 <= n < 2 ^ 56 ->
  encodeFrameSize n = (if pad_of n =? 0 then n else n + (128 + pad_of n) * 2 ^ 56, pad_of n).
Proof.
  intros Hn. unfold encodeFrameSize. fold (pad_of n). destruct (pad_of_spec n) as [Hp _]. f_equal. destruct (Z.eqb_spec (pad_of n) 0) as [|Hz]; [done|].
  assert (Hl : Z.lor 128 (pad_of n) = 128 + pad_of n).
  { assert (Hk : pad_of n = 1 \/ pad_of n = 2 \/ pad_of n = 3 \/ pad_of n = 4 \/ pad_of n = 5 \/ pad_of n = 6 \/ pad_of n = 7) by lia.
    destruct Hk as [E|[E|[E|[E|[E|[E|E]]]]]]; by rewrite E. }
  rewrite Hl, u64_id; [by apply lor_shifted|]. rewrite Z.shiftl_mul_pow2 by lia. lia.
Qed.

Lemma decodeFrameSize_eq l : 0 <= l < 2 ^ 64 ->
  decodeFrameSize (i64 l) = (l mod 2 ^ 56, if 2 ^ 63 <=? l then l / 2 ^ 56 mod 8 else 0).
Proof.
  intros Hl. unfold decodeFrameSize.
  assert (E : u64 (i64 l) = l) by (unfold u64, i64; rewrite Zminus_mod_idemp_l; replace (l + 2 ^ 63 - 2 ^ 63) with l by lia; apply Z.mod_small; lia).
  rewrite E. f_equal; [apply (Z.land_ones l 56); lia|].
  assert (Hs : (i64 l <? 0) = (2 ^ 63 <=? l)).
  { unfold i64. destruct (Z.leb_spec (2 ^ 63) l).
    - apply Z.ltb_lt. replace ((l + 2 ^ 63) mod 2 ^ 64) with (l - 2 ^ 63); [lia|]. apply Z.mod_unique with 1; lia.
    - apply Z.ltb_ge. rewrite Z.mod_small; lia. }
  rewrite Hs. destruct (_ <=? _); [|done]. rewrite Z.shiftr_div_pow2 by lia. apply (Z.land_ones _ 3). lia.
Qed.

Lemma frame_size n : 0 <= n < 2 ^ 56 -> exists l, encodeFrameSize n = (l, pad_of n) /\ 0 <= l < 2 ^ 64 /\
  decodeFrameSize (i64 l) = (n, pad_of n) /\ (0 < n -> i64 l <> 0).
Proof.
  intros Hn. rewrite encodeFrameSize_eq by done. destruct (pad_of_spec n) as [Hp _]. eexists. split; [reflexivity|].
  destruct (Z.eqb_spec (pad_of n) 0) as [E|E].
  - split; [lia|]. rewrite decodeFrameSize_eq by lia. rewrite (proj2 (Z.leb_gt _ _)) by lia. rewrite Z.mod_small by lia. split; [by rewrite E|].
    rewrite i64_id; [lia|]. unfold in_i64, MinInt64, MaxInt64. lia.
  - assert (0 <= n + (128 + pad_of n) * 2 ^ 56 < 2 ^ 64) by lia. split; [done|]. rewrite decodeFrameSize_eq by lia.
    rewrite (proj2 (Z.leb_le _ _)) by lia. rewrite Z.mod_add, Z.mod_small, Z.div_add, Z.div_small by lia.
    split; [f_equal; Z.div_mod_to_equations; lia|]. intros _ E0. apply (f_equal u64) in E0. unfold u64, i64 in E0.
    rewrite Zminus_mod_idemp_l in E0. replace (_ + 2 ^ 63 - 2 ^ 63) with (n + (128 + pad_of n) * 2 ^ 56) in E0 by lia.
    rewrite Z.mod_small in E0 by lia. change (0 mod 2 ^ 64) with 0 in E0. lia.
Qed.

Lemma zlen_PutUint64 n : zlen (PutUint64 n) = 8.
Proof. done. Qed.

Lemma Uint64_PutUint64 n : 0 <= n < 2 ^ 64 -> Uint64 (PutUint64 n) = n.
Proof.
  intros Hn. unfold PutUint64. let l := eval vm_compute in (seqZ 0 8) in change (seqZ 0 8) with l. cbn [fmap list_fmap Uint64 foldr].
  rewrite !byteval_of_zbyte, !Z.shiftr_div_pow2 by lia. Z.div_mod_to_equations. lia.
Qed.

(* ===================================================================== *)
(** ** Records and frames                                                *)
(* ===================================================================== *)

(** The record as it is written after a checksum of [crc]. *)
Definition stamped (crc : Z) (rec : Record_) : Record_ := mkRecord (rType rec) (crc_Write crc (rData rec)) (rData rec).

Definition frame (m : Record_) : bytes :=
  PutUint64 (encodeFrameSize (zlen (wire m))).1 ++ wire m ++ zeros (pad_of (zlen (wire m))).

Fixpoint frames (crc : Z) (recs : list Record_) : bytes :=
  match recs with
  | [] => []
  | r :: rs => frame (stamped crc r) ++ frames (crc_Write crc (rData r)) rs
  end.

Definition crc_after (crc : Z) (recs : list Record_) : Z := fold_left (fun c r => crc_Write c (rData r)) recs crc.

(** A record whose size is far from the limit of 56 bits. *)
Definition rec_ok (rec : Record_) : Prop := 1 <= rType rec <= 5 /\ zlen (default [] (rData rec)) < 2 ^ 55.

Lemma num_Size_le v : is_u64 v -> num_Size v <= 11.
Proof. intros Hv. unfold num_Size. pose proof (varint_n_le 10 v). fold (varint v) in *. rewrite varint_length in H by done. lia. Qed.

Lemma stamped_ok crc rec : is_u32 crc -> rec_ok rec -> wire_ok (stamped crc rec) /\ 0 < zlen (wire (stamped crc rec)) < 2 ^ 56.
Proof.
  intros Hc [Ht Hd]. pose proof (crc_Write_u32 crc (rData rec) Hc) as Hcrc.
  assert (Hw : 4 <= Record_Size (stamped crc rec) < 2 ^ 56).
  { unfold Record_Size. cbn [stamped rType rCrc rData]. pose proof (num_Size_le (u64 (rType rec)) (is_u64_u64 _)).
    pose proof (num_Size_le _ (is_u32_u64 _ Hcrc)). unfold num_Size in *.
    rewrite (u64_id (rType rec)) in * by lia. rewrite (sovRaft_small (rType rec)) in * by lia.
    pose proof (varint_length _ (is_u32_u64 _ Hcrc)) as Hv. assert (1 <= zlen (varint (crc_Write crc (rData rec)))).
    { unfold varint. rewrite varint_n_S. case_match; rewrite zlen_cons; match goal with |- context [zlen ?l] => pose proof (zlen_nonneg l) end; lia. }
    destruct (rData rec) as [x|] eqn:Ex; cbn [bytes_Size default from_option id] in *; [|lia].
    assert (is_u64 (zlen x)) by (unfold is_u64; pose proof (zlen_nonneg x); lia). pose proof (num_Size_le (zlen x) ltac:(done)).
    unfold num_Size in *. pose proof (sovRaft_pos (zlen x)). pose proof (zlen_nonneg x). lia. }
  assert (Hk : wire_ok (stamped crc rec)).
  { split; [|cbn [size_of Record_codec]; unfold MaxInt64; lia]. split; [cbn; unfold in_i64, MinInt64, MaxInt64; lia|done]. }
  split; [done|]. rewrite wire_size by done. cbn [size_of Record_codec]. lia.
Qed.

Lemma zlen_zeros n : 0 <= n -> zlen (zeros n) = n.
Proof. intros. unfold zlen, zeros. rewrite length_replicate. lia. Qed.

Lemma zlen_frame crc rec : is_u32 crc -> rec_ok rec -> zlen (frame (stamped crc rec)) =
  8 + zlen (wire (stamped crc rec)) + pad_of (zlen (wire (stamped crc rec))).
Proof.
  intros Hc Hr. unfold frame. rewrite !zlen_app, zlen_PutUint64. destruct (pad_of_spec (zlen (wire (stamped crc rec)))).
  rewrite zlen_zeros by lia. lia.
Qed.

Lemma frame_mod8 crc rec : is_u32 crc -> rec_ok rec -> zlen (frame (stamped crc rec)) mod 8 = 0.
Proof.
  intros Hc Hr. rewrite zlen_frame by done. destruct (pad_of_spec (zlen (wire (stamped crc rec)))) as [_ E].
  rewrite <- Z.add_assoc, <- Zplus_mod_idemp_r, E. done.
Qed.

Lemma crc_after_u32 crc recs : is_u32 crc -> is_u32 (crc_after crc recs).
Proof. revert crc. induction recs as [|r recs IH]; intros crc Hc; [done|]. by apply IH, crc_Write_u32. Qed.

Lemma frames_app crc a b : frames crc (a ++ b) = frames crc a ++ frames (crc_after crc a) b.
Proof. revert crc. induction a as [|r a IH]; intros crc; [done|]. cbn. by rewrite IH, app_assoc. Qed.

Lemma crc_after_app crc a b : crc_after crc (a ++ b) = crc_after (crc_after crc a) b.
Proof. unfold crc_after. by rewrite fold_left_app. Qed.

Lemma frames_mod8 crc recs : is_u32 crc -> Forall rec_ok recs -> zlen (frames crc recs) mod 8 = 0.
Proof.
  intros Hc Hr. revert crc Hc. induction Hr as [|r recs Hr _ IH]; intros crc Hc; [done|]. cbn [frames].
  rewrite zlen_app, Z.add_mod, frame_mod8, IH by (done || lia || by apply crc_Write_u32). done.
Qed.

Lemma crc_Write_None crc : crc_Write crc None = crc.
Proof. unfold crc_Write, simpleUpdate. cbn. rewrite Z.lxor_assoc, Z.lxor_nilpotent. apply Z.lxor_0_r. Qed.

(* ===================================================================== *)
(** ** The encoder writes frames                                         *)
(* ===================================================================== *)

(** The file holds [x] and then zeros; its length is a multiple of eight unless it
    ends with [x]. *)
Definition file_at (f : File) (x : bytes) : Prop :=
  exists z, 0 <= z /\ fData f = x ++ zeros z /\ fPos f = zlen x /\ (z = 0 \/ (zlen x + z) mod 8 = 0).

Definition same_name (f g : File) : Prop := fSeq f = fSeq g /\ fIndex f = fIndex g.

Lemma drop_zeros z n : 0 <= n -> drop (Z.to_nat n) (zeros z) = zeros (Z.max 0 (z - n)).
Proof. intros. unfold zeros. rewrite drop_replicate. f_equal. lia. Qed.

Lemma file_write_at p f x : file_at f x -> file_at (file_write p f) (x ++ p) /\ same_name (file_write p f) f.
Proof.
  intros (z & Hz & Hd & Hp & Hm). split; [|done]. pose proof (zlen_nonneg p). exists (Z.max 0 (z - zlen p)). unfold file_write. cbn.
  assert (E0 : zeros (fPos f - zlen (fData f)) = []).
  { rewrite Hd, Hp, zlen_app, zlen_zeros by done. unfold zeros. by replace (Z.to_nat _) with 0%nat by lia. }
  rewrite E0, app_nil_r, Hp, Hd. split_and!; [lia| |by rewrite zlen_app|].
  - rewrite take_app_length' by (unfold zlen; lia). rewrite drop_app_ge by (unfold zlen; lia).
    replace (Z.to_nat (zlen x + zlen p) - length x)%nat with (Z.to_nat (zlen p)) by (unfold zlen; lia).
    by rewrite drop_zeros, app_assoc by lia.
  - rewrite zlen_app. destruct Hm as [->|Hm]; [left; lia|]. destruct (Z.le_gt_cases (z - zlen p) 0); [left; lia|right].
    rewrite Z.max_r by lia. replace (zlen x + zlen p + (z - zlen p)) with (zlen x + z) by lia. done.
Qed.

Lemma takes_all_at cs f x : file_at f x -> file_at (takes_all cs f) (x ++ concat cs) /\ same_name (takes_all cs f) f.
Proof.
  revert f x. induction cs as [|c cs IH]; intros f x H; cbn [takes_all fold_left concat]; [by rewrite app_nil_r|].
  destruct (file_write_at c f x H) as [H1 [S1 S2]]. destruct (IH _ _ H1) as [H2 [S3 S4]]. cbn [takes File_laws].
  rewrite app_assoc. split; [done|]. unfold takes_all in S3, S4. cbn [takes File_laws] in *. split; congruence.
Qed.

(** The encoder has written [x], part of which may be in its buffer. *)
Definition enc_at (e : encoder) (x : bytes) : Prop :=
  pw_inv (ebw e) /\ is_u32 (ecrc e) /\ exists y, file_at (pw_w (ebw e)) y /\ x = y ++ pending (ebw e).

Lemma file_at_unique f x y : file_at f x -> file_at f y -> x = y.
Proof.
  intros (z & _ & Hd & Hp & _) (z' & _ & Hd' & Hp' & _). rewrite Hd in Hd'. apply app_inj_1 in Hd' as [? _]; [done|].
  rewrite Hp in Hp'. unfold zlen in Hp'. lia.
Qed.

Lemma enc_at_unique e x y : enc_at e x -> enc_at e y -> x = y.
Proof. intros (_ & _ & x' & Hx & ->) (_ & _ & y' & Hy & ->). by rewrite (file_at_unique _ _ _ Hx Hy). Qed.

Definition same_tail (e e' : encoder) : Prop := same_name (pw_w (ebw e')) (pw_w (ebw e)).

Lemma newFileEncoder_at f crc x : is_u32 crc -> file_at f x -> enc_at (newFileEncoder f crc) x.
Proof.
  intros Hc Hf. split; [apply NewPageWriter_inv; unfold walPageBytes, minSectorSize, defaultBufferBytes; lia|]. split; [done|].
  exists x. split; [done|]. unfold pending. cbn. by rewrite app_nil_r.
Qed.

Lemma wp_bw_Write p e x : enc_at e x ->
  wp false (zoom bw_lens (Write p)) (fun r e' => r = (zlen p, false) /\ enc_at e' (x ++ p) /\ same_tail e e' /\ ecrc e' = ecrc e) e.
Proof.
  intros (Hi & Hc & y & Hy & ->). apply wp_zoom. cbn. eapply wp_mono; [|by apply wp_Write].
  intros r bw (-> & cs & [Hi' Hw Hp _ _] & _). destruct (takes_all_at cs _ _ Hy) as [H1 H2]. split; [done|]. cbn.
  split_and!; try done; cbn; [|unfold same_tail; cbn; by rewrite Hw]. split; [done|]. split; [done|]. exists (y ++ concat cs). cbn. rewrite Hw. split; [done|].
  by rewrite <- !app_assoc, Hp.
Qed.

(** After a flush nothing is left in the buffer. *)
Lemma wp_bw_Flush e x : enc_at e x ->
  wp false (zoom bw_lens Flush) (fun err e' => err = false /\ enc_at e' x /\ file_at (pw_w (ebw e')) x /\ same_tail e e' /\ ecrc e' = ecrc e) e.
Proof.
  intros (Hi & Hc & y & Hy & ->). apply wp_zoom. cbn. eapply wp_mono; [|apply wp_Flush, Hi].
  intros r bw (-> & E0 & [Hi' Hw Hp _ _] & _). destruct (takes_all_at (flushed (ebw e)) _ _ Hy) as [H1 H2]. split; [done|]. cbn.
  assert (Hpe : pending bw = []) by (unfold pending; by rewrite E0). rewrite Hpe, app_nil_r in Hp. rewrite app_nil_r in Hp. rewrite Hp in H1.
  split_and!; try done; cbn; [|by rewrite Hw|unfold same_tail; cbn; by rewrite Hw].
  split; [done|]. split; [done|]. exists (y ++ pending (ebw e)). cbn. rewrite Hw, Hpe, app_nil_r. done.
Qed.

Lemma wp_encode rec e x : enc_at e x -> rec_ok rec ->
  wp false (encode rec) (fun err e' => err = false /\ enc_at e' (x ++ frame (stamped (ecrc e) rec)) /\ same_tail e e' /\
    ecrc e' = crc_Write (ecrc e) (rData rec)) e.
Proof.
  intros He Hr. pose proof He as (Hi & Hc & y & Hy & Hx). destruct (stamped_ok _ _ Hc Hr) as [Hk Hl].
  unfold encode. apply wp_bind, wp_modify, wp_bind, wp_get. cbn [ecrc]. fold (stamped (ecrc e) rec). apply wp_bind.
  assert (Em : Record_Marshal (stamped (ecrc e) rec) = Ret (wire (stamped (ecrc e) rec))).
  { unfold Record_Marshal. change (Record_Size ?m) with (size_of m). rewrite <- wire_size by done. apply marshal_eq. exact (wire_fills _ Hk). }
  rewrite Em. apply wp_lift; [|done..]. intros data Ed. assert (data = wire (stamped (ecrc e) rec)) as -> by congruence.
  destruct (frame_size (zlen (wire (stamped (ecrc e) rec)))) as (l & El & _); [lia|]. rewrite El.
  apply wp_bind. eapply wp_mono; [|apply (wp_bw_Write _ _ x)]; cycle 1.
  { split; [done|]. split; [by apply crc_Write_u32|]. by exists y. }
  intros r e1 (-> & He1 & Hs1 & Ec1). cbn iota beta. apply wp_bind. eapply wp_mono; [|by apply wp_bw_Write].
  intros r e2 (-> & He2 & Hs2 & Ec2). apply wp_ret. split; [done|]. unfold frame. rewrite El. cbn [fst].
  split_and!; [|unfold same_tail, same_name in *; cbn in *; intuition congruence|by rewrite Ec2, Ec1]. rewrite <- app_assoc in He2.
  replace (wire (stamped (ecrc e) rec) ++ zeros _) with (if negb (pad_of (zlen (wire (stamped (ecrc e) rec))) =? 0)
     then wire (stamped (ecrc e) rec) ++ zeros (pad_of (zlen (wire (stamped (ecrc e) rec)))) else wire (stamped (ecrc e) rec)); [done|].
  destruct (Z.eqb_spec (pad_of (zlen (wire (stamped (ecrc e) rec)))) 0) as [Ep|]; [|done]. cbn [negb]. rewrite Ep. cbn. by rewrite app_nil_r.
Qed.

(* ===================================================================== *)
(** ** The decoder reads them back                                       *)
(* ===================================================================== *)

Lemma readInt64_put l rest : 0 <= l < 2 ^ 64 -> readInt64 (PutUint64 l ++ rest) = inl (i64 l, rest).
Proof.
  intros Hl. unfold readInt64. destruct (PutUint64 l ++ rest) as [|c s] eqn:E.
  { apply (f_equal zlen) in E. rewrite zlen_app, zlen_PutUint64, zlen_nil in E. pose proof (zlen_nonneg rest). lia. }
  rewrite <- E. clear E c s. rewrite zlen_app, zlen_PutUint64, (proj2 (Z.ltb_ge _ _)) by (pose proof (zlen_nonneg rest); lia).
  rewrite take_app_length', drop_app_length' by done. by rewrite Uint64_PutUint64.
Qed.

Lemma unmarshal_wire (m : Record_) : wire_ok m -> Record_Unmarshal (wire m) zero_Record = DOk m.
Proof. exact (codec_unmarshal m). Qed.

(** One frame. The checksum of the decoder does not matter for a record that sets it. *)
Lemma decode_one rec crc dc rest rs off sz : is_u32 crc -> rec_ok rec -> (dc = crc \/ rType rec = crcType) ->
  0 <= off -> sz = off + zlen (frame (stamped crc rec)) + zlen rest ->
  decode_from (mkReader sz (frame (stamped crc rec) ++ rest) :: rs) off dc =
  Ret (inl (stamped crc rec), mkDecoder (mkReader sz rest :: rs) (off + zlen (frame (stamped crc rec)))
         (if rType rec =? crcType then dc else crc_Write crc (rData rec))).
Proof.
  intros Hc Hr Hdc Ho ->. destruct (stamped_ok _ _ Hc Hr) as [Hk Hl]. set (m := stamped crc rec) in *. pose proof (zlen_frame crc rec Hc Hr) as Hz. fold m in Hz.
  destruct (frame_size (zlen (wire m))) as (l & El & Hl64 & Ed & Hn0); [lia|]. destruct (pad_of_spec (zlen (wire m))) as [Hp _].
  cbn [decode_from rdRest]. unfold frame at 1. rewrite El. cbn [fst]. rewrite <- !app_assoc, readInt64_put by done.
  rewrite (proj2 (Z.eqb_neq (i64 l) 0)) by (apply Hn0; lia). unfold decode_frame. rewrite Ed. cbn [rdSize].
  pose proof (zlen_nonneg rest). pose proof (zlen_nonneg (wire m)).
  rewrite (proj2 (Z.ltb_ge _ _)) by lia. rewrite !zlen_app, zlen_zeros by lia. rewrite (proj2 (Z.ltb_ge _ _)) by lia.
  rewrite take_take, Nat.min_l by lia. rewrite take_app_length' by (unfold zlen; lia). rewrite unmarshal_wire by done.
  rewrite app_assoc, drop_app_length' by (rewrite length_app; unfold zeros, zlen in *; rewrite length_replicate; lia).
  cbn [brs]. replace (off + frameSizeBytes + zlen (wire m) + pad_of (zlen (wire m))) with (off + zlen (frame m)) by (rewrite Hz; unfold frameSizeBytes; lia).
  change (rType m) with (rType rec). change (rData m) with (rData rec). destruct (Z.eqb_spec (rType rec) crcType) as [|Hne]; [done|].
  destruct Hdc as [->|]; [|done]. unfold Validate. change (rCrc m) with (crc_Write crc (rData rec)). by rewrite Z.eqb_refl.
Qed.

Lemma Uint64_zeros n : Uint64 (replicate n (zbyte 0)) = 0.
Proof. induction n as [|n IH]; [done|]. cbn [replicate Uint64 foldr]. unfold Uint64 in IH. rewrite IH. done. Qed.

(** At the zeros the decoder goes on with the next file. *)
Lemma decode_zeros z rs off dc sz : 0 <= z -> z mod 8 = 0 ->
  decode_from (mkReader sz (zeros z) :: rs) off dc =
  match rs with [] => Ret (inr EOF, mkDecoder [] off dc) | _ => decode_from rs 0 dc end.
Proof.
  intros Hz Hm. cbn [decode_from rdRest]. destruct (Z.eq_dec z 0) as [->|]; [done|].
  assert (8 <= z) by (Z.div_mod_to_equations; lia).
  assert (E : readInt64 (zeros z) = inl (0, zeros (z - 8))).
  { unfold readInt64. destruct (zeros z) as [|c s] eqn:E. { apply (f_equal zlen) in E. rewrite zlen_zeros, zlen_nil in E by done. lia. }
    rewrite <- E. clear E c s. rewrite zlen_zeros, (proj2 (Z.ltb_ge _ _)) by lia. change 8%nat with (Z.to_nat 8). rewrite drop_zeros by lia.
    rewrite Z.max_r by lia. unfold zeros. rewrite take_replicate, Uint64_zeros. done. }
  rewrite E. done.
Qed.

(* ===================================================================== *)
(** ** What a log says                                                   *)
(* ===================================================================== *)

Inductive item : Type :=
| IEntry (e : Entry)
| IState (h : HardState)
| ISnap (s : walSnapshot)
| IMeta (md : option bytes)
| ICrc.

Definition rec_of (it : item) : Record_ :=
  match it with
  | IEntry e => mkRecord entryType 0 (Some (wire e))
  | IState h => mkRecord stateType 0 (Some (wire h))
  | ISnap s => mkRecord snapshotType 0 (Some (wire s))
  | IMeta md => mkRecord metadataType 0 md
  | ICrc => mkRecord crcType 0 None
  end.

Definition small {T} `{!Codec T} (m : T) : Prop := fields_ok m /\ size_of m < 2 ^ 55.

Definition item_ok (md : option bytes) (it : item) : Prop :=
  match it with
  | IEntry e => small e /\ eIndex e < 2 ^ 64 - 1
  | IState h => small h
  | ISnap s => small s /\ wIndex s < 2 ^ 64 - 1
  | IMeta m => m = md /\ zlen (default [] md) < 2 ^ 55
  | ICrc => True
  end.

(** The state, the entries above the start, and whether its snapshot was seen. *)
Definition content : Type := HardState * list Entry * bool.

Definition absorb (start : walSnapshot) (it : item) (c : content) : option content :=
  let '(st, ents, mt) := c in
  match it with
  | IEntry e =>
      if wIndex start <? eIndex e then
        if zlen ents <? eIndex e - wIndex start - 1 then None
        else Some (st, take (Z.to_nat (eIndex e - wIndex start - 1)) ents ++ [e], mt)
      else Some c
  | IState h => Some (h, ents, mt)
  | ISnap s =>
      if wIndex s =? wIndex start then
        if wTerm s =? wTerm start then Some (st, ents, true) else None
      else Some c
  | IMeta _ | ICrc => Some c
  end.

Fixpoint absorb_all (start : walSnapshot) (its : list item) (c : content) : option content :=
  match its with
  | [] => Some c
  | it :: its' => c' ← absorb start it c; absorb_all start its' c'
  end.

Lemma absorb_all_app start a b c : absorb_all start (a ++ b) c = absorb_all start a c ≫= absorb_all start b.
Proof. revert c. induction a as [|it a IH]; intros c; [done|]. cbn. destruct (absorb start it c); [apply IH|done]. Qed.

Lemma small_ok {T} `{!Codec T, !CodecLaws T} (m : T) : small m -> wire_ok m /\ zlen (wire m) < 2 ^ 55.
Proof.
  intros [Hf Hs]. assert (wire_ok m) by (split; [done|unfold MaxInt64; lia]). split; [done|]. by rewrite wire_size.
Qed.

Lemma rec_of_ok md it : item_ok md it -> rec_ok (rec_of it).
Proof.
  destruct it; cbn [item_ok rec_of]; intros H; (split; [cbn; unfold entryType, stateType, snapshotType, metadataType, crcType; lia|]);
    cbn [rData default from_option id]; first [done|by apply small_ok|by apply small_ok; destruct H|by destruct H as [-> ?]].
Qed.

(** The metadata that has been seen, and the decoder, after an item. *)
Definition meta_after (md m : option bytes) (it : item) : option bytes := match it with IMeta _ => md | _ => m end.
Definition index_ok (i : Z) : Prop := 0 <= i < 2 ^ 64 - 1.
Definition dec_after (crc : Z) (it : item) (d : decoder) : decoder := match it with ICrc => updateCRC crc d | _ => d end.

Lemma read_item md it start crc m st ents mt ei d c' : item_ok md it -> 0 <= wIndex start -> m = None \/ m = md ->
  (it = ICrc -> dcrc d = 0 \/ dcrc d = crc) -> absorb start it (st, ents, mt) = Some c' ->
  exists ei', (index_ok ei -> index_ok ei') /\ read_record start (stamped crc (rec_of it)) (mkReadState m st ents mt ei d) =
    Ret (inl (mkReadState (meta_after md m it) c'.1.1 c'.1.2 c'.2 ei' (dec_after crc it d))).
Proof.
  intros Hok Hs Hm Hd Ha. unfold read_record, stamped. destruct it as [e|h|s|md'|]; cbn [rec_of rType rData rCrc default from_option id].
  - change (entryType =? entryType) with true. cbv iota. destruct Hok as [Hok Hlt]. destruct (small_ok e Hok) as [Hw _].
    assert (Entry_Unmarshal (wire e) zero_entry = DOk e) as -> by exact (codec_unmarshal e Hw). cbn [must mbind outcome_bind].
    destruct Hok as [(_ & _ & Hi) _]. cbn [absorb] in Ha. destruct (Z.ltb_spec (wIndex start) (eIndex e)).
    + unfold is_u64 in Hi. rewrite u64_id by lia. destruct (_ <? _); [done|]. injection Ha as <-. exists (eIndex e). split; [unfold index_ok; lia|done].
    + injection Ha as <-. exists (eIndex e). split; [unfold index_ok, is_u64 in *; lia|done].
  - change (stateType =? entryType) with false. change (stateType =? stateType) with true. cbv iota. destruct (small_ok h Hok) as [Hw _].
    assert (HardState_Unmarshal (wire h) zero_HardState = DOk h) as -> by exact (codec_unmarshal h Hw). injection Ha as <-. by exists ei.
  - change (snapshotType =? entryType) with false. change (snapshotType =? stateType) with false. change (snapshotType =? metadataType) with false.
    change (snapshotType =? crcType) with false. change (snapshotType =? snapshotType) with true. cbv iota. destruct Hok as [Hok _]. destruct (small_ok s Hok) as [Hw _].
    assert (walSnapshot_Unmarshal (wire s) zero_walSnapshot = DOk s) as -> by exact (codec_unmarshal s Hw). cbn [must mbind outcome_bind].
    cbn [absorb] in Ha. destruct (_ =? _); [|injection Ha as <-; by exists ei]. destruct (wTerm s =? wTerm start); [|done].
    injection Ha as <-. by exists ei.
  - change (metadataType =? entryType) with false. change (metadataType =? stateType) with false. change (metadataType =? metadataType) with true.
    cbv iota. destruct Hok as [-> _]. injection Ha as <-. exists ei. split; [done|]. destruct Hm as [-> | ->]; [done|]. rewrite (bool_decide_true (default [] md = default [] md)) by done.
    by rewrite andb_false_r.
  - change (crcType =? entryType) with false. change (crcType =? stateType) with false. change (crcType =? metadataType) with false.
    change (crcType =? crcType) with true. cbv iota. injection Ha as <-. exists ei. split; [done|]. unfold Validate. cbn [rCrc]. rewrite crc_Write_None.
    destruct (Hd eq_refl) as [->|E]; [done|]. rewrite E, Z.eqb_refl. cbn [snd negb]. by rewrite andb_false_r.
Qed.

(** ** Reading a segment *)

Definition with_decoder (d : decoder) (s : read_state) : read_state :=
  mkReadState (raMetadata s) (raState s) (raEnts s) (raMatch s) (raEnti s) d.

(** Only what [decode] gives matters. *)
Lemma read_loop_decode fuel start s d1 d2 : decode d1 = decode d2 ->
  read_loop (S fuel) start (with_decoder d1 s) = read_loop (S fuel) start (with_decoder d2 s).
Proof. intros E. cbn [read_loop with_decoder raDecoder]. by rewrite E. Qed.

Definition metas_after (md m : option bytes) (its : list item) : option bytes := fold_left (meta_after md) its m.

Lemma read_items md its start : 0 <= wIndex start -> Forall (item_ok md) its -> forall crc m st ents mt ei rest rs off sz k c',
  is_u32 crc -> m = None \/ m = md -> 0 <= off -> sz = off + zlen (frames crc (rec_of <$> its)) + zlen rest ->
  absorb_all start its (st, ents, mt) = Some c' ->
  exists ei', (index_ok ei -> index_ok ei') /\ read_loop (length its + k) start (mkReadState m st ents mt ei (mkDecoder (mkReader sz (frames crc (rec_of <$> its) ++ rest) :: rs) off crc)) =
    read_loop k start (mkReadState (metas_after md m its) c'.1.1 c'.1.2 c'.2 ei'
      (mkDecoder (mkReader sz rest :: rs) (off + zlen (frames crc (rec_of <$> its))) (crc_after crc (rec_of <$> its)))).
Proof.
  intros Hs. induction 1 as [|it its Hok Hits IH]; intros crc m st ents mt ei rest rs off sz k c' Hc Hm Ho Hsz Ha.
  { cbn in Ha. injection Ha as <-. exists ei. split; [done|]. cbn. by rewrite Z.add_0_r. }
  cbn [absorb_all] in Ha. destruct (absorb start it (st, ents, mt)) as [c1|] eqn:E1; [|done]. cbn [mbind option_bind] in Ha.
  cbn [fmap list_fmap frames] in Hsz. rewrite zlen_app in Hsz. pose proof (rec_of_ok md it Hok) as Hr.
  set (fr := frame (stamped crc (rec_of it))) in *. set (crc1 := crc_Write crc (rData (rec_of it))) in *.
  set (d1 := mkDecoder (mkReader sz (frames crc1 (rec_of <$> its) ++ rest) :: rs) (off + zlen fr) crc1).
  assert (Hdec : decode (mkDecoder (mkReader sz (frames crc (rec_of <$> it :: its) ++ rest) :: rs) off crc) = Ret (inl (stamped crc (rec_of it)), d1)).
  { unfold decode. cbn [brs lastValidOff dcrc fmap list_fmap frames]. rewrite <- app_assoc.
    rewrite (decode_one _ crc crc); [|done|done|by left|done|fold crc1 fr; rewrite zlen_app; lia]. fold crc1 fr. unfold d1.
    destruct (Z.eqb_spec (rType (rec_of it)) crcType) as [E|]; [|done].
    assert (crc1 = crc) as ->; [|done]. unfold crc1. destruct it; try done. apply crc_Write_None. }
  destruct (read_item md it start crc m st ents mt ei d1 c1 Hok Hs Hm) as (ei1 & Hei1 & Er); [|done|].
  { intros ->. right. apply crc_Write_None. }
  cbn [length Nat.add read_loop raDecoder]. rewrite Hdec. cbn [mbind outcome_bind raMetadata raState raEnts raMatch raEnti].
  rewrite Er. cbn [mbind outcome_bind]. assert (Ed : dec_after crc it d1 = d1).
  { destruct it; try done. unfold dec_after, updateCRC, d1. cbn. by rewrite <- (crc_Write_None crc) at 1. }
  rewrite Ed. destruct c1 as [[st1 ents1] mt1].
  destruct (IH crc1 (meta_after md m it) st1 ents1 mt1 ei1 rest rs (off + zlen fr) sz k c') as (ei' & Hei' & E'); try done.
  - by apply crc_Write_u32.
  - destruct it; cbn; auto.
  - pose proof (zlen_nonneg fr). lia.
  - fold fr crc1 in Hsz. lia.
  - exists ei'. split; [auto|]. unfold d1. cbn [fst snd]. rewrite E'. cbn [fmap list_fmap frames crc_after fold_left metas_after].
    by rewrite zlen_app, Z.add_assoc.
Qed.

(** A new decoder reads the checksum at the head of a segment. *)
Lemma read_header md its start crc dc m st ents mt ei rest rs sz k c' :
  0 <= wIndex start -> Forall (item_ok md) its -> is_u32 crc -> dc = 0 \/ dc = crc -> m = None \/ m = md ->
  sz = zlen (frames crc (rec_of <$> ICrc :: its)) + zlen rest -> absorb_all start its (st, ents, mt) = Some c' ->
  exists ei', (index_ok ei -> index_ok ei') /\ read_loop (S (length its) + k) start (mkReadState m st ents mt ei (mkDecoder (mkReader sz (frames crc (rec_of <$> ICrc :: its) ++ rest) :: rs) 0 dc)) =
    read_loop k start (mkReadState (metas_after md m its) c'.1.1 c'.1.2 c'.2 ei'
      (mkDecoder (mkReader sz rest :: rs) (zlen (frames crc (rec_of <$> ICrc :: its))) (crc_after crc (rec_of <$> ICrc :: its)))).
Proof.
  intros Hs Hits Hc Hdc Hm Hsz Ha. cbn [fmap list_fmap frames rec_of] in Hsz |- *. rewrite zlen_app in Hsz.
  set (fr := frame (stamped crc (mkRecord crcType 0 None))) in *. cbn [rData] in *. rewrite crc_Write_None in *.
  set (d1 := mkDecoder (mkReader sz (frames crc (rec_of <$> its) ++ rest) :: rs) (zlen fr) dc).
  assert (Hdec : decode (mkDecoder (mkReader sz ((fr ++ frames crc (rec_of <$> its)) ++ rest) :: rs) 0 dc) = Ret (inl (stamped crc (rec_of ICrc)), d1)).
  { unfold decode. cbn [brs lastValidOff dcrc]. rewrite <- app_assoc.
    rewrite (decode_one (rec_of ICrc) crc dc); [done|done|by apply (rec_of_ok md)|by right|done|]. rewrite zlen_app. fold fr. cbn [rec_of]. fold fr. lia. }
  destruct (read_item md ICrc start crc m st ents mt ei d1 (st, ents, mt) I Hs Hm) as (ei1 & Hei1 & Er); [done|done|].
  cbn [Nat.add read_loop raDecoder]. rewrite Hdec. cbn [mbind outcome_bind raMetadata raState raEnts raMatch raEnti].
  rewrite Er. cbn [mbind outcome_bind dec_after meta_after fst snd]. unfold d1, updateCRC. cbn [brs lastValidOff].
  destruct (read_items md its start Hs Hits crc m st ents mt ei1 rest rs (zlen fr) sz k c') as (ei' & Hei' & E'); try done.
  exists ei'. split; [auto|]. rewrite E', zlen_app. cbn [crc_after fold_left rData]. by rewrite crc_Write_None.
Qed.

(** ** Reading all segments *)

(** The file of a segment with the checksum record and [its]. *)
Definition seg_in (crc : Z) (f : File) (its : list item) : Prop :=
  exists z, 0 <= z /\ z mod 8 = 0 /\ fData f = frames crc (rec_of <$> ICrc :: its) ++ zeros z.

Definition seg_crc (crc : Z) (its : list item) : Z := crc_after crc (rec_of <$> ICrc :: its).

Inductive chain (md : option bytes) : Z -> list File -> list (list item) -> Z -> Prop :=
| chain_nil crc : chain md crc [] [] crc
| chain_cons crc f its fs segs crc' :
    seg_in crc f its -> Forall (item_ok md) its -> chain md (seg_crc crc its) fs segs crc' ->
    chain md crc (f :: fs) (its :: segs) crc'.

Lemma chain_snoc md crc fs segs c f its : chain md crc fs segs c -> seg_in c f its -> Forall (item_ok md) its ->
  chain md crc (fs ++ [f]) (segs ++ [its]) (seg_crc c its).
Proof. induction 1; intros; cbn; econstructor; eauto using chain. Qed.

Lemma seg_crc_u32 crc its : is_u32 crc -> is_u32 (seg_crc crc its).
Proof. apply crc_after_u32. Qed.

Lemma metas_after_ok md m its : m = None \/ m = md -> metas_after md m its = None \/ metas_after md m its = md.
Proof. revert m. induction its as [|it its IH]; intros m Hm; [done|]. apply IH. destruct it; cbn; auto. Qed.

Lemma metas_after_md md its : metas_after md md its = md.
Proof. induction its as [|it its IH]; [done|]. by destruct it. Qed.

Lemma metas_after_md_cons md m its : metas_after md m (IMeta md :: its) = md.
Proof. exact (metas_after_md md its). Qed.

Definition reader_of (f : File) : reader := mkReader (zlen (fData f)) (fData f).

Definition records (segs : list (list item)) : nat := sum_list_with (fun its => S (length its)) segs.

Lemma read_chain md start fs segs c t its k : 0 <= wIndex start -> forall crc dc m st ents mt ei c',
  chain md crc fs segs c -> seg_in c t its -> Forall (item_ok md) its -> is_u32 crc -> dc = 0 \/ dc = crc -> m = None \/ m = md ->
  absorb_all start (concat segs ++ its) (st, ents, mt) = Some c' ->
  exists ei' m', (m' = None \/ m' = md) /\ (index_ok ei -> index_ok ei') /\
    read_loop (records (segs ++ [its]) + S k) start (mkReadState m st ents mt ei (mkDecoder (reader_of <$> fs ++ [t]) 0 dc)) =
    Ret (inl (mkReadState (metas_after md m' its) c'.1.1 c'.1.2 c'.2 ei'
           (mkDecoder [] (zlen (frames c (rec_of <$> ICrc :: its))) (seg_crc c its)), EOF)).
Proof.
  intros Hs. intros crc dc m st ents mt ei c' Hch. revert dc m st ents mt ei.
  induction Hch as [crc|crc f sits fs segs c (z & Hz & Hz8 & Hd) Hok Hch IH]; intros dc m st ents mt ei Ht Hits Hc Hdc Hm Ha.
  - destruct Ht as (z & Hz & Hz8 & Hd). cbn [concat app] in *. change (reader_of <$> [t]) with [reader_of t]. unfold reader_of. rewrite Hd, zlen_app.
    replace (records [its] + S k)%nat with (S (length its) + S k)%nat by (unfold records; cbn; lia).
    destruct (read_header md its start crc dc m st ents mt ei (zeros z) [] _ (S k) c' Hs Hits Hc Hdc Hm eq_refl Ha) as (ei' & Hei & E).
    exists ei', m. split; [done|]. split; [done|]. rewrite E. cbn [read_loop raDecoder]. unfold decode. cbn [brs lastValidOff dcrc].
    by rewrite decode_zeros.
  - cbn [concat app] in *. change (reader_of <$> f :: fs ++ [t]) with (reader_of f :: (reader_of <$> fs ++ [t])). rewrite <- app_assoc, absorb_all_app in Ha.
    destruct (absorb_all start sits (st, ents, mt)) as [[[st1 ents1] mt1]|] eqn:E1; [|done]. cbn [mbind option_bind] in Ha.
    unfold reader_of at 1. rewrite Hd, zlen_app.
    replace (records (sits :: segs ++ [its]) + S k)%nat with (S (length sits) + (records (segs ++ [its]) + S k))%nat by (unfold records; cbn; lia).
    destruct (read_header md sits start crc dc m st ents mt ei (zeros z) (reader_of <$> fs ++ [t]) _ (records (segs ++ [its]) + S k) _ Hs Hok Hc Hdc Hm eq_refl E1) as (ei1 & Hei1 & E).
    rewrite E. cbn [fst snd]. fold (seg_crc crc sits).
    destruct (IH (seg_crc crc sits) (metas_after md m sits) st1 ents1 mt1 ei1 Ht Hits (seg_crc_u32 _ _ Hc) (or_intror eq_refl) (metas_after_ok _ _ _ Hm) Ha)
      as (ei' & m' & Hm' & Hei' & E').
    exists ei', m'. split; [done|]. split; [auto|]. rewrite <- E'. rewrite !Nat.add_succ_r.
    apply (read_loop_decode _ start (mkReadState (metas_after md m sits) st1 ents1 mt1 ei1 (mkDecoder [] 0 0))). unfold decode.
    cbn [brs lastValidOff dcrc]. rewrite decode_zeros by done. by destruct fs.
Qed.

(** The bytes to read are enough fuel for the records. *)
Lemma frames_length crc recs : is_u32 crc -> Forall rec_ok recs -> (length recs <= length (frames crc recs))%nat.
Proof.
  intros Hc Hr. revert crc Hc. induction Hr as [|r recs Hr _ IH]; intros crc Hc; [done|]. cbn [frames length]. rewrite length_app.
  specialize (IH _ (crc_Write_u32 crc (rData r) Hc)). pose proof (zlen_frame crc r Hc Hr) as E. unfold zlen in E.
  destruct (pad_of_spec (Z.of_nat (length (wire (stamped crc r))))). lia.
Qed.

Lemma seg_in_length md crc f its : is_u32 crc -> seg_in crc f its -> Forall (item_ok md) its -> (S (length its) <= length (fData f))%nat.
Proof.
  intros Hc (z & _ & _ & ->) Hits. rewrite length_app. pose proof (frames_length crc (rec_of <$> ICrc :: its) Hc) as H.
  cbn [fmap list_fmap length] in H |- *. rewrite length_fmap in H. cut (Forall rec_ok (rec_of ICrc :: (rec_of <$> its))); [intros Hf; specialize (H Hf); lia|].
  constructor; [by apply (rec_of_ok md)|]. apply Forall_fmap. eapply Forall_impl; [exact Hits|]. intros it. apply rec_of_ok.
Qed.

Lemma chain_length md crc fs segs c : is_u32 crc -> chain md crc fs segs c ->
  is_u32 c /\ (records segs <= sum_list_with (fun f => length (fData f)) fs)%nat.
Proof.
  intros Hc H. induction H as [|crc f its fs segs c Hs Hok Hch IH]; [done|]. destruct (IH (seg_crc_u32 _ _ Hc)) as [? Hl]. split; [done|].
  pose proof (seg_in_length md _ _ _ Hc Hs Hok). unfold records in *. cbn. lia.
Qed.

(* ===================================================================== *)
(** ** The log as a whole                                                *)
(* ===================================================================== *)

Definition reads_as (its log : list item) : Prop := forall start c, absorb_all start its c = absorb_all start log c.

Lemma reads_as_app its log x : reads_as its log -> reads_as (its ++ x) (log ++ x).
Proof. intros H start c. by rewrite !absorb_all_app, H. Qed.

(** The files of the directory, with the last one. *)
Definition closed (w : WAL) : list File := older w ++ locks w.

(** The [i]-th segment has sequence number [i]; only the first starts at index 0. *)
Definition names_ok (fs : list File) : Prop := forall i f, fs !! i = Some f ->
  fSeq f = u64 (Z.of_nat i) /\ (if decide (i = 0%nat) then fIndex f = 0 else 0 < fIndex f).

(** The state that a new segment repeats. *)
Definition state_known (st : HardState) (log : list item) : Prop :=
  st = zero_HardState \/ (small st /\ forall start c c', absorb_all start log c = Some c' -> c'.1.1 = st).

(** The parts that every write keeps. *)
Record wal_parts (w : WAL) (md : option bytes) (log : list item) (c : Z) (its : list item) (segs : list (list item)) : Prop := {
  wp_chain : chain md 0 (closed w) segs c;
  wp_crc : is_u32 c;
  wp_items : Forall (item_ok md) its;
  wp_meta : wmetadata w = md;
  wp_small : zlen (default [] md) < 2 ^ 55;
  wp_reads : reads_as (concat segs ++ its) log;
  wp_enti : index_ok (enti w)
}.

(** The log holds [log]: in its segments and in the buffer of its last one. *)
Definition wal_body (w : WAL) (md : option bytes) (log : list item) : Prop :=
  exists segs its c e, wal_parts w md log c (IMeta md :: its) segs /\ wmode w = Appending e /\
    enc_at e (frames c (rec_of <$> ICrc :: IMeta md :: its)) /\ ecrc e = seg_crc c (IMeta md :: its) /\
    names_ok (closed w ++ [pw_w (ebw e)]).

Definition wal_holds (w : WAL) (md : option bytes) (log : list item) : Prop :=
  wal_body w md log /\ state_known (wstate w) log.

(** Nothing is in the buffer. *)
Definition synced (w : WAL) : Prop := exists e x, wmode w = Appending e /\ file_at (pw_w (ebw e)) x /\ enc_at e x.

(** ** Writing records *)

Lemma wp_on_encoder {A} (m : M encoder A) (Q : A -> WAL -> Prop) w e : wmode w = Appending e ->
  wp false m (fun a e' => Q a (set_mode (Appending e') w)) e -> wp false (on_encoder m) Q w.
Proof.
  intros Hm Hw. unfold on_encoder. apply wp_bind, wp_get. rewrite Hm. apply wp_run in Hw as (a & e' & E & HQ).
  rewrite E. apply wp_bind, wp_lift; [|done..]. intros ? [= <-]. apply wp_bind, wp_modify, wp_ret, HQ.
Qed.

Lemma frames_snoc crc its it : frames crc (rec_of <$> its ++ [it]) = frames crc (rec_of <$> its) ++ frame (stamped (crc_after crc (rec_of <$> its)) (rec_of it)).
Proof. rewrite fmap_app, frames_app. cbn [fmap list_fmap frames]. by rewrite app_nil_r. Qed.

(** A record at the end of the last segment. *)
Lemma wp_put w md it rec e x crc : wmode w = Appending e -> enc_at e x -> ecrc e = crc -> item_ok md it ->
  rType rec = rType (rec_of it) -> rData rec = rData (rec_of it) ->
  wp false (on_encoder (encode rec)) (fun err w' => err = false /\ exists e', w' = set_mode (Appending e') w /\
    enc_at e' (x ++ frame (stamped crc (rec_of it))) /\ same_tail e e' /\ ecrc e' = crc_Write crc (rData (rec_of it))) w.
Proof.
  intros Hm He Hc Hok Ht Hd. apply (wp_on_encoder _ _ _ e Hm). assert (Hr : rec_ok rec).
  { pose proof (rec_of_ok md it Hok) as [H1 H2]. split; congruence. }
  eapply wp_mono; [|by apply wp_encode]. intros err e' (-> & He' & Hs & Ec). split; [done|]. exists e'. split; [done|].
  unfold stamped in He'. rewrite Ht, Hd, Hc in He'. rewrite Hd, Hc in Ec. done.
Qed.

Lemma names_ok_same fs f g : same_name g f -> names_ok (fs ++ [f]) -> names_ok (fs ++ [g]).
Proof.
  intros [E1 E2] H i x Hx. apply lookup_app_Some in Hx as [Hx|[Hl Hx]].
  - apply H. apply lookup_app_Some. by left.
  - assert (Hf : (fs ++ [f]) !! i = Some f).
    { apply lookup_app_Some. right. split; [done|]. apply list_lookup_singleton_Some in Hx as [-> _]. done. }
    apply list_lookup_singleton_Some in Hx as [_ <-]. rewrite E1, E2. by apply H.
Qed.

Lemma wp_put_body w md log it rec : wal_body w md log -> item_ok md it -> rType rec = rType (rec_of it) -> rData rec = rData (rec_of it) ->
  wp false (on_encoder (encode rec)) (fun err w' => err = false /\ exists e', w' = set_mode (Appending e') w /\ wal_body w' md (log ++ [it])) w.
Proof.
  intros (segs & its & c & e & [Hch Hc Hits Hmd Hsm Hrd Hei] & Hm & He & Hcrc & Hn) Hok Ht Hd.
  eapply wp_mono; [|by eapply (wp_put w md it)]. intros err w' (-> & e' & -> & He' & Hs & Ec). split; [done|]. exists e'. split; [done|].
  exists segs, (its ++ [it]), c, e'. split_and!.
  - split; try done; cbn.
    + inversion Hits; subst. constructor; [done|]. apply Forall_app. split; [done|]. by constructor.
    + change (IMeta md :: its ++ [it]) with ((IMeta md :: its) ++ [it]). rewrite app_assoc. by apply reads_as_app.
  - done.
  - change (ICrc :: IMeta md :: its ++ [it]) with ((ICrc :: IMeta md :: its) ++ [it]). rewrite frames_snoc.
    fold (seg_crc c (IMeta md :: its)). exact He'.
  - rewrite Ec. change (IMeta md :: its ++ [it]) with ((IMeta md :: its) ++ [it]). unfold seg_crc.
    change (ICrc :: (IMeta md :: its) ++ [it]) with ((ICrc :: IMeta md :: its) ++ [it]). rewrite fmap_app, crc_after_app. done.
  - cbn [closed set_mode older locks]. by eapply names_ok_same.
Qed.

Definition is_state (it : item) : bool := match it with IState _ => true | _ => false end.

Lemma absorb_keeps_state start it c c' : is_state it = false -> absorb start it c = Some c' -> c'.1.1 = c.1.1.
Proof. destruct c as [[st ents] mt], it; cbn; intros; repeat case_match; simplify_eq; done. Qed.

Lemma state_known_snoc st log it : is_state it = false -> state_known st log -> state_known st (log ++ [it]).
Proof.
  intros Hi [->|[Hs Hk]]; [by left|right]. split; [done|]. intros start c c'. rewrite absorb_all_app.
  destruct (absorb_all start log c) as [c1|] eqn:E1; [|done]. cbn. destruct (absorb start it c1) as [c2|] eqn:E2; [|done].
  cbn. intros [= <-]. rewrite (absorb_keeps_state _ _ _ _ Hi E2). by eapply Hk.
Qed.

Lemma state_known_state st log : small st -> state_known st (log ++ [IState st]).
Proof.
  intros Hs. right. split; [done|]. intros start c c'. rewrite absorb_all_app. destruct (absorb_all start log c) as [[[? ?] ?]|]; [|done].
  cbn. by intros [= <-].
Qed.

Lemma wal_body_state w st md log : wal_body (set_state st w) md log <-> wal_body w md log.
Proof.
  split; intros (segs & its & c & e & [Hch Hc Hits Hmd Hsm Hrd Hei] & Hm & He & Hcrc & Hn);
    exists segs, its, c, e; (split; [split; done|done]).
Qed.

Lemma wal_body_enti w i md log : index_ok i -> wal_body w md log -> wal_body (set_enti i w) md log.
Proof.
  intros Hi (segs & its & c & e & [Hch Hc Hits Hmd Hsm Hrd Hei] & Hm & He & Hcrc & Hn).
  exists segs, its, c, e; (split; [split; done|done]).
Qed.

Lemma Entry_Marshal_eq e : small e -> Entry_Marshal e = Ret (wire e).
Proof. intros [Hw _]%small_ok. unfold Entry_Marshal. change (Entry_Size e) with (size_of e). rewrite <- wire_size by done. exact (marshal_eq _ _ (wire_fills e Hw)). Qed.
Lemma HardState_Marshal_eq h : small h -> HardState_Marshal h = Ret (wire h).
Proof. intros [Hw _]%small_ok. unfold HardState_Marshal. change (HardState_Size h) with (size_of h). rewrite <- wire_size by done. exact (marshal_eq _ _ (wire_fills h Hw)). Qed.
Lemma walSnapshot_Marshal_eq s : small s -> walSnapshot_Marshal s = Ret (wire s).
Proof. intros [Hw _]%small_ok. unfold walSnapshot_Marshal. change (walSnapshot_Size s) with (size_of s). rewrite <- wire_size by done. exact (marshal_eq _ _ (wire_fills s Hw)). Qed.

Lemma wp_saveEntry w md log e : wal_holds w md log -> small e -> eIndex e < 2 ^ 64 - 1 ->
  wp false (saveEntry e) (fun err w' => err = false /\ wal_holds w' md (log ++ [IEntry e]) /\ wstate w' = wstate w) w.
Proof.
  intros [Hb Hk] Hs Hi. unfold saveEntry. apply wp_bind. rewrite Entry_Marshal_eq by done. apply wp_lift; [|done..]. intros b Eb.
  assert (b = wire e) as -> by congruence. apply wp_bind. eapply wp_mono; [|by apply (wp_put_body _ md log (IEntry e))].
  intros err w' (-> & e' & -> & Hb'). apply wp_bind, wp_modify, wp_ret. split; [done|]. split; [|done]. split.
  - apply wal_body_enti; [|done]. destruct Hs as [(_ & _ & Hu) _]. unfold is_u64, index_ok in *. lia.
  - by apply state_known_snoc.
Qed.

Definition state_items (st : HardState) : list item := if IsEmptyHardState st then [] else [IState st].

Lemma wp_saveState w md log st : wal_holds w md log -> small st ->
  wp false (saveState st) (fun err w' => err = false /\ wal_holds w' md (log ++ state_items st) /\
    wstate w' = (if IsEmptyHardState st then wstate w else st)) w.
Proof.
  intros [Hb Hk] Hs. unfold saveState, state_items. destruct (IsEmptyHardState st); [apply wp_ret; by rewrite app_nil_r|].
  apply wp_bind, wp_modify, wp_bind. rewrite HardState_Marshal_eq by done. apply wp_lift; [|done..]. intros b Eb. assert (b = wire st) as -> by congruence.
  eapply wp_mono; [|apply (wp_put_body _ md log (IState st)); [by apply wal_body_state|done..]].
  intros err w' (-> & e' & -> & Hb'). split; [done|]. split; [|done]. split; [done|]. by apply state_known_state.
Qed.

Lemma wp_sync w md log : wal_holds w md log ->
  wp false sync (fun err w' => err = false /\ wal_holds w' md log /\ synced w' /\ wstate w' = wstate w) w.
Proof.
  intros [(segs & its & c & e & [Hch Hc Hits Hmd Hsm Hrd Hei] & Hm & He & Hcrc & Hn) Hk]. apply (wp_on_encoder _ _ _ e Hm).
  eapply wp_mono; [|by apply wp_bw_Flush]. intros err e' (-> & He' & Hf & Hs & Ec). split; [done|]. split_and!; [|eexists e', _; done|done].
  split; [|done]. exists segs, its, c, e'. split; [split; done|]. split_and!; [done|done|congruence|]. cbn. by eapply names_ok_same.
Qed.

Lemma reads_as_meta its log md : reads_as its log -> reads_as (its ++ [IMeta md]) log.
Proof. intros H start c. rewrite absorb_all_app, H. by destruct (absorb_all start log c) as [[[? ?] ?]|]. Qed.

(** Repeating the state changes nothing. *)
Lemma reads_as_state log st : state_known st log -> reads_as (log ++ state_items st) log.
Proof.
  unfold state_items. intros [->|[_ Hk]] start c; [by rewrite app_nil_r|]. destruct (IsEmptyHardState st); [by rewrite app_nil_r|].
  rewrite absorb_all_app. destruct (absorb_all start log c) as [[[st' ents] mt]|] eqn:E; [|done]. apply Hk in E. cbn in E. by subst.
Qed.

Lemma wal_body_reads w md log log' : reads_as log log' -> wal_body w md log -> wal_body w md log'.
Proof.
  intros Hr (segs & its & c & e & [Hch Hc Hits Hmd Hsm Hrd Hei] & ?). exists segs, its, c, e. split; [|done].
  split; try done. intros start x. by rewrite Hrd.
Qed.

(** A file that was written to its end is a segment. *)
Lemma file_seg f md c its : is_u32 c -> Forall (item_ok md) its -> file_at f (frames c (rec_of <$> ICrc :: its)) -> seg_in c f its.
Proof.
  intros Hc Hits (z & Hz & Hd & _ & Hm). exists z. split; [done|]. split; [|done].
  destruct Hm as [->|Hm]; [done|]. rewrite <- Zplus_mod_idemp_l, frames_mod8 in Hm; [done|done|].
  cbn [fmap list_fmap]. constructor; [by apply (rec_of_ok md)|]. apply Forall_fmap. eapply Forall_impl; [exact Hits|]. intros it. apply rec_of_ok.
Qed.

Lemma truncate_at f y : file_at f y -> file_at (Truncate (fPos f) f) y /\ same_name (Truncate (fPos f) f) f.
Proof.
  intros (z & Hz & Hd & Hp & Hm). split; [|done]. exists 0. unfold Truncate. cbn. rewrite Hd, Hp, zlen_app, zlen_zeros by done.
  rewrite take_app_length' by (unfold zlen; lia). unfold zeros. replace (Z.to_nat (zlen y - (zlen y + z))) with 0%nat by lia.
  split_and!; [lia|done|done|by left].
Qed.

Lemma names_ok_next fs f g : names_ok (fs ++ [f]) -> fSeq g = u64 (fSeq f + 1) -> 0 < fIndex g -> names_ok ((fs ++ [f]) ++ [g]).
Proof.
  intros H Eg Hg i x Hx. apply lookup_app_Some in Hx as [Hx|[Hl Hx]]; [by apply H|].
  apply list_lookup_singleton_Some in Hx as [Hi <-].
  destruct (H (length fs) f) as [Ef _]. { apply lookup_app_Some. right. split; [done|]. by rewrite Nat.sub_diag. }
  rewrite length_app in *. cbn in *. rewrite decide_False by lia. split; [|done]. rewrite Eg, Ef. unfold u64. rewrite Zplus_mod_idemp_l. f_equal. lia.
Qed.

Section writing.
Context (SegmentSizeBytes : Z) (Hseg : 0 <= SegmentSizeBytes) (Hseg8 : SegmentSizeBytes mod 8 = 0).

Lemma fresh_at seq index : file_at (fresh_file SegmentSizeBytes seq index) [].
Proof using Hseg Hseg8. exists SegmentSizeBytes. split_and!; try done. by right. Qed.

(** The head of a new segment behind the closed ones. *)
Lemma wp_head w md e segs c log : chain md 0 (closed w) segs c -> wmode w = Appending e -> is_u32 c -> enc_at e [] -> ecrc e = c ->
  zlen (default [] md) < 2 ^ 55 -> wmetadata w = md -> reads_as (concat segs) log -> index_ok (enti w) -> names_ok (closed w ++ [pw_w (ebw e)]) ->
  forall crc0 k (Q : bool -> WAL -> Prop),
  (forall e', wal_body (set_mode (Appending e') w) md log -> wp false k Q (set_mode (Appending e') w)) ->
  wp false (and_then (saveCrc crc0) (and_then (on_encoder (encode (mkRecord metadataType 0 md))) k)) Q w.
Proof using.
  intros Hch Hm Hc He Ec Hsm Hmd Hrd Hei Hn crc0 k Q HQ. unfold and_then, saveCrc. apply wp_bind.
  eapply wp_mono; [|by apply (wp_put w md ICrc _ e [] c)]. intros err w1 (-> & e1 & -> & He1 & Hs1 & Ec1). cbn [rec_of rData] in *.
  rewrite crc_Write_None in Ec1. apply wp_bind. eapply wp_mono; [|by eapply (wp_put _ md (IMeta md) _ e1 _ c)].
  intros err w2 (-> & e2 & -> & He2 & Hs2 & Ec2). apply HQ. exists segs, [], c, e2. split_and!.
  - split; try done; [by constructor|]. by apply reads_as_meta.
  - done.
  - cbn [fmap list_fmap frames rec_of rData] in *. rewrite crc_Write_None, app_nil_r. exact He2.
  - rewrite Ec2. unfold seg_crc, crc_after. cbn [fmap list_fmap fold_left rec_of rData]. by rewrite crc_Write_None.
  - cbn [closed set_mode older locks]. eapply names_ok_same; [exact Hs2|]. by eapply names_ok_same.
Qed.

Lemma zero_small : small zero_HardState.
Proof using. split; [cbn; unfold is_u64; lia|vm_compute; done]. Qed.

Lemma state_known_small st log : state_known st log -> small st.
Proof using. intros [->|[? _]]; [apply zero_small|done]. Qed.

(** The encoder of the last segment starts again behind what was written. *)
Lemma wp_renew w md log : wal_holds w md log -> synced w ->
  wp false (on_encoder (modify (fun e => newFileEncoder (pw_w (ebw e)) (ecrc e))))
    (fun _ w' => wal_holds w' md log /\ synced w' /\ wstate w' = wstate w) w.
Proof using.
  intros [(segs & its & c & e & [Hch Hc Hits Hmd Hsm Hrd Hei] & Hm & He & Hcrc & Hn) Hk] (e0 & x & Hm0 & Hf & Hx).
  rewrite Hm in Hm0. injection Hm0 as <-. apply (wp_on_encoder _ _ _ e Hm), wp_modify.
  pose proof (enc_at_unique _ _ _ Hx He) as Ex.
  subst x. assert (Hu : is_u32 (ecrc e)) by apply He.
  pose proof (newFileEncoder_at _ _ _ Hu Hf) as Hnew. split_and!; [|eexists _, _; done|done].
  split; [|done]. exists segs, its, c, (newFileEncoder (pw_w (ebw e)) (ecrc e)). split; [split; done|]. done.
Qed.

Lemma wp_cut w md log : wal_holds w md log ->
  wp false (cut SegmentSizeBytes) (fun err w' => err = false /\ wal_holds w' md log /\ synced w' /\ wstate w' = wstate w) w.
Proof using Hseg Hseg8.
  intros [(segs & its & c & e & [Hch Hc Hits Hmd Hsm Hrd Hei] & Hm & He & Hcrc & Hn) Hk]. unfold cut. apply wp_bind, wp_get. rewrite Hm. cbv zeta.
  set (x := frames c (rec_of <$> ICrc :: IMeta md :: its)) in *. set (e0 := mkEncoder _ _).
  assert (He0 : enc_at e0 x /\ same_tail e e0).
  { destruct He as (Hi & Hu & y & Hy & Ex). destruct (truncate_at _ _ Hy) as [H1 H2]. split; [|done]. split; [done|]. split; [done|]. by exists y. }
  destruct He0 as [He0 Hs0]. apply wp_bind, wp_modify, wp_bind. apply (wp_on_encoder _ _ _ e0); [done|].
  eapply wp_mono; [|by apply wp_bw_Flush]. intros err e1 (-> & He1 & Hf1 & Hs1 & Ec1). apply wp_bind, wp_get. cbn [set_mode wmode].
  set (t := pw_w (ebw e1)) in *. assert (Hct : ecrc e1 = seg_crc c (IMeta md :: its)) by (rewrite Ec1; exact Hcrc).
  assert (Hnt : names_ok (closed w ++ [t])).
  { eapply names_ok_same; [exact Hs1|]. by eapply names_ok_same. }
  assert (Hu1 : is_u32 (ecrc e1)) by apply He1. apply wp_bind, wp_modify. set (nt := fresh_file SegmentSizeBytes _ _). set (w1 := mkWAL _ _ _ _ _ _ _).
  assert (Hcl : closed w1 = closed w ++ [t]) by (unfold closed; cbn; by rewrite app_assoc).
  apply wp_bind. cbn [set_mode wmetadata wstate]. rewrite Hmd.
  refine (wp_head w1 md (newFileEncoder nt (ecrc e1)) (segs ++ [IMeta md :: its]) (ecrc e1) log _ eq_refl Hu1 _ eq_refl Hsm Hmd _ Hei _ _ _ _ _).
  - rewrite Hcl, Hct. apply chain_snoc; [done| |done]. by eapply file_seg.
  - apply newFileEncoder_at; [done|apply fresh_at].
  - rewrite concat_app. cbn [concat]. by rewrite app_nil_r.
  - rewrite Hcl. apply names_ok_next; [done|done|]. cbn. unfold index_ok, u64 in *. rewrite Z.mod_small; lia.
  - intros e' Hb. set (w2 := set_mode (Appending e') w1) in *. assert (Hk2 : state_known (wstate w2) log) by exact Hk.
    unfold and_then. apply wp_bind. eapply wp_mono; [|apply (wp_saveState w2 md log (wstate w)); [done|by eapply state_known_small]].
    intros err w3 (-> & Hh3 & Hst3). eapply wp_mono; [|by apply wp_sync]. intros err w4 (-> & Hh4 & Hsy4 & Hst4). cbn iota.
    apply wp_bind. eapply wp_mono; [|by eapply wp_renew]. intros _ w5 ([Hb5 Hk5] & Hsy5 & Hst5). apply wp_ret. split; [done|].
    assert (Hst : wstate w5 = wstate w). { rewrite Hst5, Hst4, Hst3. by destruct (IsEmptyHardState (wstate w)). }
    split; [|done].
    assert (Hr : reads_as (log ++ state_items (wstate w)) log) by (by apply reads_as_state).
    split; [by eapply wal_body_reads|]. destruct Hk5 as [->|[Hsm5 Hk5]]; [by left|right]. split; [done|].
    intros start y y' Hy. apply (Hk5 start y y'). by rewrite Hr.
Qed.

(** What [Save] writes. *)
Definition saved (st : HardState) (es : list Entry) : list item := (IEntry <$> es) ++ state_items st.

Definition entry_ok (e : Entry) : Prop := small e /\ eIndex e < 2 ^ 64 - 1.

Lemma wp_saveEntries w md log es : wal_holds w md log -> Forall entry_ok es ->
  wp false (foldM (fun (err : bool) e => if err then mret true else saveEntry e) false es)
    (fun err w' => err = false /\ wal_holds w' md (log ++ (IEntry <$> es)) /\ wstate w' = wstate w) w.
Proof using.
  intros Hh Hes. apply (wp_foldM false _ (fun l err w' => err = false /\ exists dn, es = dn ++ l /\ wal_holds w' md (log ++ (IEntry <$> dn)) /\ wstate w' = wstate w)).
  - intros e l err w' (-> & dn & -> & Hh' & Hst). apply Forall_app in Hes as [_ [[Hs Hi] _]%Forall_cons].
    eapply wp_mono; [|by eapply wp_saveEntry]. intros err w2 (-> & Hh2 & Hst2). split; [done|]. exists (dn ++ [e]).
    rewrite fmap_app, app_assoc, <- app_assoc. split_and!; [done|done|congruence].
  - intros err w' (-> & dn & -> & Hh' & Hst). by rewrite app_nil_r.
  - split; [done|]. exists []. rewrite app_nil_r. done.
Qed.

(** A log that holds [log] holds what was saved behind it, and when the state or the
    entries must be on disk, they are. *)
Lemma wp_Save w md log st es : wal_holds w md log -> small st -> Forall entry_ok es ->
  wp false (Save SegmentSizeBytes st es) (fun err w' => err = false /\ wal_holds w' md (log ++ saved st es) /\
    (MustSync st (wstate w) (zlen es) = true -> IsEmptyHardState st && (zlen es =? 0) = false -> synced w') /\
    (IsEmptyHardState st && (zlen es =? 0) = true -> w' = w) /\
    wstate w' = (if IsEmptyHardState st then wstate w else st)) w.
Proof using Hseg Hseg8.
  intros Hh Hst Hes. unfold Save, saved. destruct (IsEmptyHardState st && (zlen es =? 0)) eqn:E0.
  { apply andb_true_iff in E0 as [E1 E2]. apply wp_ret. rewrite E1. split; [done|]. split; [|done].
    assert (es = []) as -> by (destruct es; [done|]; rewrite zlen_cons in E2; pose proof (zlen_nonneg es); apply Z.eqb_eq in E2; lia).
    unfold state_items. rewrite E1. by rewrite app_nil_r. }
  apply wp_bind, wp_get, wp_bind. eapply wp_mono; [|by apply wp_saveEntries]. intros err w1 (-> & Hh1 & Hs1).
  apply wp_bind. eapply wp_mono; [|by apply wp_saveState]. intros err w2 (-> & Hh2 & Hs2). rewrite <- app_assoc in Hh2. rewrite Hs1 in Hs2.
  apply wp_bind, wp_get. assert (Ht : exists t, wtail w2 = Some t).
  { destruct Hh2 as [(segs & its & c & e & _ & Hm & _) _]. unfold wtail. rewrite Hm. eauto. }
  destruct Ht as [t ->]. destruct (_ <? _).
  - destruct (MustSync _ _ _); [|by apply wp_ret]. eapply wp_mono; [|by apply wp_sync]. intros err w3 (-> & Hh3 & Hsy & Hs3).
    rewrite Hs3, Hs2. done.
  - eapply wp_mono; [|by apply wp_cut]. intros err w3 (-> & Hh3 & Hsy & Hs3). rewrite Hs3, Hs2. done.
Qed.

Lemma wp_SaveSnapshot w md log s : wal_holds w md log -> small s -> wIndex s < 2 ^ 64 - 1 -> ValidateSnapshotForWrite s = true ->
  wp false (SaveSnapshot s) (fun err w' => err = None /\ wal_holds w' md (log ++ [ISnap s]) /\ synced w' /\ wstate w' = wstate w) w.
Proof using.
  intros [Hb Hk] Hs Hi Hv. unfold SaveSnapshot. rewrite Hv. cbn [negb]. apply wp_bind. rewrite walSnapshot_Marshal_eq by done.
  apply wp_lift; [|done..]. intros b Eb. assert (b = wire s) as -> by congruence.
  apply wp_bind. eapply wp_mono; [|by apply (wp_put_body _ md log (ISnap s))]. intros err w' (-> & e' & -> & Hb').
  apply wp_bind, wp_modify. match goal with |- wp _ _ _ ?x => set (w1 := x) end. assert (Hs1 : wstate w1 = wstate w) by (subst w1; by destruct (_ <? _)).
  assert (Hh1 : wal_holds w1 md (log ++ [ISnap s])).
  { split; [|rewrite Hs1; by apply state_known_snoc].
    subst w1. destruct (_ <? _); [|done]. apply wal_body_enti; [|done]. destruct Hs as [(Hu & _) _]. unfold is_u64, index_ok in *. lia. }
  apply wp_bind. eapply wp_mono; [|by apply wp_sync]. intros err w2 (-> & Hh2 & Hsy & Hs2). apply wp_ret. rewrite Hs2. done.
Qed.

Lemma zero_snap_small : small zero_walSnapshot.
Proof using. split; [cbn; unfold is_u64; split_and!; lia || done|vm_compute; done]. Qed.

Lemma Create_holds md : zlen (default [] md) < 2 ^ 55 ->
  exists w, Create SegmentSizeBytes md = Ret (w, false) /\ wal_holds w md [ISnap zero_walSnapshot] /\ synced w /\ wstate w = zero_HardState.
Proof using Hseg Hseg8.
  intros Hmd. unfold Create. set (w0 := mkWAL _ _ _ _ _ _ _). set (m := and_then _ _).
  assert (Hw : wp false m (fun err w => err = false /\ wal_holds w md [ISnap zero_walSnapshot] /\ synced w /\ wstate w = zero_HardState) w0).
  { subst m. refine (wp_head w0 md (newFileEncoder (fresh_file SegmentSizeBytes 0 0) 0) [] 0 [] (chain_nil md 0) eq_refl _ _ eq_refl Hmd eq_refl _ _ _ _ _ _ _).
    - unfold is_u32. lia.
    - apply newFileEncoder_at; [unfold is_u32; lia|apply fresh_at].
    - by intros start x.
    - unfold index_ok. cbn. lia.
    - intros i f Hf. apply list_lookup_singleton_Some in Hf as [-> <-]. done.
    - intros e' Hb. apply wp_bind. eapply wp_mono; [|apply (wp_SaveSnapshot _ md []); [split; [done|by left]|apply zero_snap_small|cbn; lia|done]].
      intros err w (-> & Hh & Hsy & Hst). apply wp_ret. done. }
  clearbody m w0. apply wp_run in Hw as (err & w & E & -> & Hh & Hsy). exists w. rewrite E. done.
Qed.

End writing.

(* ===================================================================== *)
(** ** Opening a log again                                               *)
(* ===================================================================== *)

Lemma searchIndex_later fs idx : Forall (fun f => idx < fIndex f) fs -> searchIndex fs idx = None.
Proof. induction 1 as [|f fs Hf _ IH]; [done|]. cbn. rewrite IH. by rewrite (proj2 (Z.leb_gt _ _)) by lia. Qed.

Lemma isValidSeq_from fs k lastSeq : (forall i f, fs !! i = Some f -> fSeq f = u64 (k + Z.of_nat i)) ->
  lastSeq = 0 \/ lastSeq = u64 (k - 1) ->
  (fold_left (fun '(ok, lastSeq) f =>
    (ok && negb (negb (lastSeq =? 0) && negb (lastSeq =? u64 (fSeq f - 1))), fSeq f)) fs (true, lastSeq)).1 = true.
Proof.
  revert k lastSeq. induction fs as [|f fs IH]; intros k lastSeq Hf Hl; [done|]. cbn [fold_left].
  pose proof (Hf 0%nat f eq_refl) as E0. rewrite Z.add_0_r in E0. assert (Eu : u64 (fSeq f - 1) = u64 (k - 1)).
  { rewrite E0. unfold u64. by rewrite Zminus_mod_idemp_l. }
  rewrite Eu. assert (true && negb (negb (lastSeq =? 0) && negb (lastSeq =? u64 (k - 1))) = true) as ->.
  { destruct Hl as [-> | ->]; [done|]. by rewrite Z.eqb_refl, andb_false_r. }
  apply (IH (k + 1)).
  - intros i g Hg. rewrite (Hf (S i) g Hg). f_equal. lia.
  - right. rewrite E0. f_equal. lia.
Qed.

Lemma names_valid fs : names_ok fs -> isValidSeq fs = true.
Proof. intros H. apply (isValidSeq_from fs 0); [|by left]. intros i f Hf. by apply H. Qed.

Lemma select_first f fs start : names_ok (f :: fs) -> 0 <= wIndex start -> Forall (fun g => wIndex start < fIndex g) fs ->
  selectWALFiles (f :: fs) start = inl 0%nat.
Proof.
  intros Hn Hs Hl. unfold selectWALFiles. cbn [searchIndex]. rewrite searchIndex_later by done.
  destruct (Hn 0%nat f eq_refl) as [_ Hi]. cbn in Hi. rewrite Hi, (proj2 (Z.leb_le _ _)) by lia. cbn [drop]. by rewrite names_valid.
Qed.

(** After a crash, when nothing was in the buffer, opening the log at [start] and
    reading it gives what [log] says, and the log can be written on. *)
Lemma reopen w md log start st ents mt : wal_holds w md log -> synced w -> 0 <= wIndex start ->
  absorb_all start log (zero_HardState, [], false) = Some (st, ents, mt) ->
  exists t, wtail w = Some t /\ (Forall (fun g => wIndex start < fIndex g) (drop 1 (closed w ++ [t])) ->
    exists w1 w2, Open (closed w ++ [t]) start = inl w1 /\ ReadAll w1 = Ret (mkReadResult md st ents None, w2) /\
      wal_holds w2 md log /\ synced w2 /\ wstate w2 = zero_HardState).
Proof.
  intros [(segs & its & c & e & [Hch Hc Hits Hmd Hsm Hrd Hei] & Hm & He & Hcrc & Hn) Hk] (e0 & x & Hm0 & Hf & Hx) Hs Ha.
  rewrite Hm in Hm0. injection Hm0 as <-. exists (pw_w (ebw e)). split; [unfold wtail; by rewrite Hm|]. set (t := pw_w (ebw e)) in *. intros Hl.
  pose proof (enc_at_unique _ _ _ Hx He) as ->. assert (Hu : is_u32 (ecrc e)) by apply He.
  pose proof (file_seg t md c (IMeta md :: its) Hc Hits Hf) as Hsg. assert (H0 : is_u32 0) by (unfold is_u32; lia).
  destruct (closed w ++ [t]) as [|f0 fs0] eqn:Efs; [by destruct (closed w)|]. cbn [drop] in Hl. rewrite drop_0 in Hl.
  assert (Eopen : Open (f0 :: fs0) start = inl (mkWAL [] (closed w) (Reading (newDecoder (closed w ++ [t])) (Some t)) None zero_HardState start 0)).
  { unfold Open, openAtIndex. rewrite select_first by done. cbn [drop take]. rewrite <- Efs. do 2 f_equal.
    - rewrite length_app. cbn. rewrite Nat.add_1_r. cbn [pred]. by rewrite take_app_length.
    - by rewrite last_snoc. }
  eexists. assert (Hab : absorb_all start (concat segs ++ IMeta md :: its) (zero_HardState, [], false) = Some (st, ents, mt)) by (by rewrite Hrd).
  set (total := sum_list_with (fun f => length (fData f)) (closed w ++ [t])).
  assert (Htot : (records (segs ++ [IMeta md :: its]) <= total)%nat).
  { pose proof (chain_snoc md 0 _ _ c t (IMeta md :: its) Hch Hsg Hits) as Hch'. by apply (chain_length md 0) in Hch' as [_ ?]. }
  destruct (read_chain md start (closed w) segs c t (IMeta md :: its) (total - records (segs ++ [IMeta md :: its])) Hs 0 0 None zero_HardState [] false 0 _
    Hch Hsg Hits H0 (or_introl eq_refl) (or_introl eq_refl) Hab) as (ei & m' & Hm' & Hei' & Er).
  assert (Hfuel : read_fuel (newDecoder (closed w ++ [t])) = (records (segs ++ [IMeta md :: its]) + S (total - records (segs ++ [IMeta md :: its])))%nat).
  { unfold read_fuel, newDecoder. cbn [brs]. rewrite Nat.add_succ_r. f_equal. rewrite Nat.add_comm, Nat.sub_add by done. subst total.
    clear. induction (closed w ++ [t]) as [|f l IH]; [done|]. cbn. by rewrite <- IH. }
  assert (Hz : file_at (ZeroToEnd (seek (zlen (frames c (rec_of <$> ICrc :: IMeta md :: its))) t)) (frames c (rec_of <$> ICrc :: IMeta md :: its)) /\
    same_name (ZeroToEnd (seek (zlen (frames c (rec_of <$> ICrc :: IMeta md :: its))) t)) t).
  { split; [|done]. destruct Hf as (z & Hz & Hd & Hp & Hmod). exists z. unfold ZeroToEnd, seek. cbn [fData fPos]. split_and!; try done.
    rewrite Hd, take_app_length' by (unfold zlen; lia). rewrite zlen_app, zlen_zeros by done. by replace (zlen _ + z - zlen _) with z by lia. }
  destruct Hz as [Hz Hzn]. eexists. split; [exact Eopen|]. split.
  - unfold ReadAll. cbv [mbind M_bind get lift]. cbn [wmode wstart enti]. rewrite Hfuel.
    assert (End : newDecoder (closed w ++ [t]) = mkDecoder (reader_of <$> closed w ++ [t]) 0 0) by done. rewrite End, Er.
    cbn [fst snd raDecoder lastValidOff dcrc raMatch raMetadata raState raEnts raEnti negb modify mret M_ret].
    rewrite (metas_after_md_cons md m' its). reflexivity.
  - cbn [set_mode set_enti older locks wstate enti]. split; [split; [|by left]|split; [|done]].
    + exists segs, its, c, (newFileEncoder (ZeroToEnd (seek (zlen (frames c (rec_of <$> ICrc :: IMeta md :: its))) t)) (seg_crc c (IMeta md :: its))).
      split; [split; try done; by apply Hei'|]. split; [done|]. split; [by apply newFileEncoder_at; [rewrite <- Hcrc|]|]. split; [done|].
      unfold closed in *. cbn [older locks app]. eapply names_ok_same; [exact Hzn|]. by rewrite Efs.
    + eexists _, _. split; [done|]. split; [exact Hz|]. by apply newFileEncoder_at; [rewrite <- Hcrc|].
Qed.
