(* ===== verification/WalRun.v ===== *)
(** * WalRun: what a log promises to its user

    A log is used by saving, recording snapshots, releasing segments, and by reading
    it again after it was closed or after the process died. The abstract log is a
    hard state and a list of entries. Reading the log gives what the abstract one
    has. *)

From S2P Require Import Prelude RaftPb RaftWire RaftCodec RaftNode WalPb PageWriter Wal.

Inductive wal_op : Type :=
| OpSave (st : HardState) (es : list Entry)
| OpSnap (s : walSnapshot)
| OpRelease (index : Z)
| OpClose     (* closed and opened again *)
| OpCrash.    (* the buffer is lost *)

Inductive wal_out : Type :=
| Saved (err : bool)
| Snapped (err : option wal_error)
| Released
| ReadBack (r : read_result).

(** The files as they are on disk. *)
Definition disk (w : WAL) : list File := closed w ++ option_list (wtail w).

(** [wal.Open] and [ReadAll]; without an error from [Open]. *)
Definition restart (dir : list File) (start : walSnapshot) : outcome (wal_out * WAL) :=
  match Open dir start with
  | inr _ => Panic
  | inl w => '(r, w) ← ReadAll w; Ret (ReadBack r, w)
  end.

Section run.
Context (SegmentSizeBytes : Z).

Definition run_op (op : wal_op) (w : WAL) : outcome (wal_out * WAL) :=
  match op with
  | OpSave st es => '(err, w) ← Save SegmentSizeBytes st es w; Ret (Saved err, w)
  | OpSnap s => '(err, w) ← SaveSnapshot s w; Ret (Snapped err, w)
  | OpRelease i => '(_, w) ← ReleaseLockTo i w; Ret (Released, w)
  | OpClose => dir ← Close w; restart dir zero_walSnapshot
  | OpCrash => restart (disk w) zero_walSnapshot
  end.

Fixpoint run_ops (ops : list wal_op) (w : WAL) : outcome (list wal_out * WAL) :=
  match ops with
  | [] => Ret ([], w)
  | op :: ops' =>
      '(o, w) ← run_op op w;
      '(os, w) ← run_ops ops' w;
      Ret (o :: os, w)
  end.
End run.

(* ===================================================================== *)
(** ** The abstract log                                                  *)
(* ===================================================================== *)

(** The state and the entries; the state saved since the log was opened, which
    decides whether a save must reach the disk; and whether everything did. *)
Record abs_log : Type := mkAbs { aState : HardState; aEnts : list Entry; aPrev : HardState; aSafe : bool }.

Definition abs_init : abs_log := mkAbs zero_HardState [] zero_HardState true.

(** An entry replaces the one with its index and all behind it. *)
Definition put_entry (l : list Entry) (e : Entry) : list Entry := take (Z.to_nat (eIndex e - 1)) l ++ [e].

Definition abs_op (md : option bytes) (op : wal_op) (a : abs_log) : wal_out * abs_log :=
  match op with
  | OpSave st es =>
      (Saved false,
       mkAbs (if IsEmptyHardState st then aState a else st) (fold_left put_entry es (aEnts a))
         (if IsEmptyHardState st then aPrev a else st)
         (if IsEmptyHardState st && (zlen es =? 0) then aSafe a else MustSync st (aPrev a) (zlen es)))
  | OpSnap s => (Snapped None, mkAbs (aState a) (aEnts a) (aPrev a) true)
  | OpRelease _ => (Released, a)
  | OpClose | OpCrash =>
      (ReadBack (mkReadResult md (aState a) (aEnts a) None), mkAbs (aState a) (aEnts a) zero_HardState true)
  end.

Fixpoint abs_ops (md : option bytes) (ops : list wal_op) (a : abs_log) : list wal_out :=
  match ops with
  | [] => []
  | op :: ops' => let '(o, a) := abs_op md op a in o :: abs_ops md ops' a
  end.

(** Entries follow the ones that are there or replace some. *)
Fixpoint entries_fit (l : list Entry) (es : list Entry) : Prop :=
  match es with
  | [] => True
  | e :: es' => 1 <= eIndex e <= zlen l + 1 /\ entry_ok e /\ entries_fit (put_entry l e) es'
  end.

(** A crash is survived when nothing was left in the buffer. *)
Definition op_fits (op : wal_op) (a : abs_log) : Prop :=
  match op with
  | OpSave st es => small st /\ entries_fit (aEnts a) es
  | OpSnap s => small s /\ wIndex s < 2 ^ 64 - 1 /\ ValidateSnapshotForWrite s = true /\ (wIndex s = 0 -> wTerm s = 0)
  | OpRelease _ | OpClose => True
  | OpCrash => aSafe a = true
  end.

Fixpoint ops_fit (md : option bytes) (ops : list wal_op) (a : abs_log) : Prop :=
  match ops with
  | [] => True
  | op :: ops' => op_fits op a /\ ops_fit md ops' (abs_op md op a).2
  end.

(* ===================================================================== *)
(** ** The log refines it                                                *)
(* ===================================================================== *)

Lemma absorb_entries es : forall l st mt, entries_fit l es ->
  absorb_all zero_walSnapshot (IEntry <$> es) (st, l, mt) = Some (st, fold_left put_entry es l, mt).
Proof.
  induction es as [|e es IH]; intros l st mt Hf; [done|]. destruct Hf as (Hi & _ & Hf). cbn [fmap list_fmap absorb_all absorb].
  cbn [wIndex zero_walSnapshot]. rewrite (proj2 (Z.ltb_lt _ _)) by lia. rewrite (proj2 (Z.ltb_ge _ _)) by lia. cbn [mbind option_bind].
  rewrite Z.sub_0_r. apply IH, Hf.
Qed.

Lemma absorb_saved l st es h mt : entries_fit l es ->
  absorb_all zero_walSnapshot (saved st es) (h, l, mt) = Some (if IsEmptyHardState st then h else st, fold_left put_entry es l, mt).
Proof.
  intros Hf. unfold saved. rewrite absorb_all_app, absorb_entries by done. cbn [mbind option_bind]. unfold state_items. by destruct (IsEmptyHardState st).
Qed.

Lemma entries_fit_ok l es : entries_fit l es -> Forall entry_ok es.
Proof. revert l. induction es as [|e es IH]; intros l; [done|]. intros (_ & ? & ?). constructor; [done|]. by eapply IH. Qed.

Section refine.
Context (SegmentSizeBytes : Z) (Hseg : 0 <= SegmentSizeBytes) (Hseg8 : SegmentSizeBytes mod 8 = 0) (md : option bytes).

Definition sim (w : WAL) (a : abs_log) : Prop :=
  exists log, wal_holds w md log /\ absorb_all zero_walSnapshot log (zero_HardState, [], false) = Some (aState a, aEnts a, true) /\
    wstate w = aPrev a /\ (aSafe a = true -> synced w).

(** Reading what is on disk. *)
Lemma sim_restart w a : sim w a -> synced w -> exists w', restart (disk w) zero_walSnapshot =
  Ret (ReadBack (mkReadResult md (aState a) (aEnts a) None), w') /\ sim w' (mkAbs (aState a) (aEnts a) zero_HardState true).
Proof using.
  intros (log & Hh & Ha & _) Hs. destruct (reopen w md log zero_walSnapshot _ _ _ Hh Hs ltac:(done) Ha) as (t & Ht & Hr).
  assert (Hl : Forall (fun g => wIndex zero_walSnapshot < fIndex g) (drop 1 (closed w ++ [t]))).
  { destruct Hh as [(segs & its & c & e & _ & Hm & _ & _ & Hn) _]. unfold wtail in Ht. rewrite Hm in Ht. injection Ht as <-.
    apply Forall_lookup. intros i f Hf. rewrite lookup_drop in Hf. by destruct (Hn _ _ Hf) as [_ H]. }
  destruct (Hr Hl) as (w1 & w2 & Eo & Er & Hh2 & Hs2 & Hst2). exists w2. unfold restart, disk. rewrite Ht. change (option_list (Some t)) with [t]. rewrite Eo, Er.
  split; [done|]. by exists log.
Qed.

Lemma sync_sim w a : sim w a -> exists w', sync w = Ret (false, w') /\ sim w' a /\ synced w'.
Proof using.
  intros (log & Hh & Ha & Hp & _). destruct (wp_run _ _ _ (wp_sync w md log Hh)) as (err & w' & E & -> & Hh' & Hs' & Hst').
  exists w'. split; [done|]. split; [|done]. exists log. split_and!; [done|done|congruence|done].
Qed.

Lemma release_sim i w a : sim w a -> exists w', ReleaseLockTo i w = Ret (tt, w') /\ sim w' a.
Proof using.
  intros (log & [(segs & its & c & e & [Hch Hc Hits Hmd Hsm Hrd Hei] & Hm & He & Hcrc & Hn) Hk] & Ha & Hp & Hsy).
  unfold ReleaseLockTo. cbv [mbind M_bind get]. unfold wtail. rewrite Hm. cbv beta iota zeta. match goal with |- context [?x <=? 0] => generalize x end. intros n.
  destruct (n <=? 0); [eexists; split; [done|]; exists log; split; [split; [by exists segs, its, c, e|done]|done]|].
  eexists. split; [done|]. exists log. unfold wal_holds, wal_body, synced in *. cbn [wstate wmode] in *.
  assert (E : closed (mkWAL (older w ++ take (Z.to_nat n) (locks w)) (drop (Z.to_nat n) (locks w)) (wmode w) (wmetadata w) (wstate w) (wstart w) (enti w)) = closed w).
  { unfold closed. cbn. by rewrite <- app_assoc, take_drop. }
  split; [|done]. split; [|done]. exists segs, its, c, e. split; [split; [by rewrite E|done..]|]. by rewrite E.
Qed.

Lemma run_op_sim op w a : sim w a -> op_fits op a ->
  exists w', run_op SegmentSizeBytes op w = Ret ((abs_op md op a).1, w') /\ sim w' (abs_op md op a).2.
Proof using Hseg Hseg8.
  intros Hsim Hf. destruct op as [st es|s|i| |]; cbn [run_op abs_op fst snd op_fits] in *.
  - destruct Hsim as (log & Hh & Ha & Hp & Hs). destruct Hf as [Hst Hes].
    destruct (wp_run _ _ _ (wp_Save SegmentSizeBytes Hseg Hseg8 w md log st es Hh Hst (entries_fit_ok _ _ Hes))) as (err & w' & E & -> & Hh' & Hsy & Hsame & Hw').
    exists w'. rewrite E. split; [done|]. exists (log ++ saved st es). split_and!; [done| |by rewrite Hw', Hp|].
    + rewrite absorb_all_app, Ha. cbn [mbind option_bind]. by apply absorb_saved.
    + cbn [aSafe]. destruct (_ && _) eqn:E0; [intros; rewrite Hsame by done; auto|]. rewrite <- Hp. auto.
  - destruct Hsim as (log & Hh & Ha & Hp & Hs). destruct Hf as (Hsm & Hi & Hv & H0).
    destruct (wp_run _ _ _ (wp_SaveSnapshot w md log s Hh Hsm Hi Hv)) as (err & w' & E & -> & Hh' & Hsy & Hw').
    exists w'. rewrite E. split; [done|]. exists (log ++ [ISnap s]). split_and!; [done| |by rewrite Hw'|done].
    rewrite absorb_all_app, Ha. cbn [mbind option_bind absorb_all absorb wIndex wTerm zero_walSnapshot].
    destruct (Z.eqb_spec (wIndex s) 0) as [E0|]; [|done]. by rewrite (H0 E0).
  - destruct (release_sim i w a Hsim) as (w' & E & Hs'). exists w'. by rewrite E.
  - destruct (sync_sim w a Hsim) as (w1 & E1 & Hs1 & Hsy1). destruct (sim_restart w1 a Hs1 Hsy1) as (w2 & E2 & Hs2).
    exists w2. split; [|done]. assert (Hc : Close w = Ret (disk w1)); [|rewrite Hc; exact E2].
    unfold Close, disk, closed. destruct Hsim as (log & [(segs & its & c & e & _ & Hm & _) _] & _). rewrite Hm, E1. cbn. by rewrite app_assoc.
  - destruct (sim_restart w a Hsim) as (w2 & E2 & Hs2); [|by exists w2]. destruct Hsim as (log & _ & _ & _ & Hs). by apply Hs.
Qed.

Lemma run_ops_sim ops : forall w a, sim w a -> ops_fit md ops a ->
  exists w', run_ops SegmentSizeBytes ops w = Ret (abs_ops md ops a, w').
Proof using Hseg Hseg8.
  induction ops as [|op ops IH]; intros w a Hs Hf; [by exists w|]. destruct Hf as [Hf1 Hf2]. cbn [run_ops abs_ops].
  destruct (run_op_sim op w a Hs Hf1) as (w1 & E1 & Hs1). rewrite E1. destruct (abs_op md op a) as [o a1]. cbn [fst snd] in *.
  destruct (IH w1 a1 Hs1 Hf2) as (w2 & E2). exists w2. cbn [mbind outcome_bind]. by rewrite E2.
Qed.

Lemma Create_sim : zlen (default [] md) < 2 ^ 55 -> exists w, Create SegmentSizeBytes md = Ret (w, false) /\ sim w abs_init.
Proof using Hseg Hseg8.
  intros Hm. destruct (Create_holds SegmentSizeBytes Hseg Hseg8 md Hm) as (w & E & Hh & Hs & Hst). exists w. split; [done|].
  exists [ISnap zero_walSnapshot]. split_and!; done.
Qed.

End refine.


Definition demo_entry (t i : Z) (d : bytes) : Entry := mkEntry t i EntryNormal (Some d).

(** A term of three entries, of which the last two are replaced in the next one; a
    crash; a state that need not be synced; and another reading. *)
Definition demo_ops : list wal_op :=
  [OpSave (mkHardState 1 1 0) [demo_entry 1 1 (bs "a"); demo_entry 1 2 (bs "b"); demo_entry 1 3 (bs "c")];
   OpSave (mkHardState 2 3 1) [demo_entry 2 2 (bs "x")]; OpCrash;
   OpSave (mkHardState 2 3 2) []; OpSnap (mkWalSnapshot 2 2 (Some zero_ConfState)); OpRelease 2; OpClose].

Lemma demo_entry_ok t i d : 0 <= t < 2 ^ 32 -> 0 <= i < 2 ^ 32 -> zlen d < 2 ^ 32 -> entry_ok (demo_entry t i d).
Proof.
  intros Ht Hi Hd. split; [|cbn; lia]. split; [cbn; unfold is_u64; split; [vm_compute; intuition congruence|lia]|].
  cbn [size_of Entry_codec]. rewrite Entry_Size_eq. cbn [eType eTerm eIndex eData demo_entry bytes_Size].
  assert (forall z, 0 <= z < 2 ^ 32 -> sovRaft z <= 10) as Hsov.
  { intros z Hz. pose proof (num_Size_le z ltac:(unfold is_u64; lia)). unfold num_Size in *. lia. }
  pose proof (Hsov t Ht). pose proof (Hsov i Hi). pose proof (zlen_nonneg d). pose proof (Hsov (zlen d) ltac:(lia)).
  unfold num_Size. change (sovRaft (u64 (EntryType_value EntryNormal))) with 1. lia.
Qed.

Lemma demo_state_ok t v c : 0 <= t < 2 ^ 32 -> 0 <= v < 2 ^ 32 -> 0 <= c < 2 ^ 32 -> small (mkHardState t v c).
Proof.
  intros. split; [cbn; unfold is_u64; lia|]. cbn [size_of HardState_codec]. unfold HardState_Size. cbn [hTerm hVote hCommit].
  pose proof (num_Size_le t ltac:(unfold is_u64; lia)). pose proof (num_Size_le v ltac:(unfold is_u64; lia)).
  pose proof (num_Size_le c ltac:(unfold is_u64; lia)). lia.
Qed.

Lemma demo_ops_fit : ops_fit None demo_ops abs_init.
Proof.
  repeat split; try (apply demo_state_ok; lia); try (apply demo_entry_ok; done || lia); try (cbn; lia); try done.
Qed.


(* ===================================================================== *)
(** ** Where the log does not keep its promise                           *)
(* ===================================================================== *)

Fixpoint abs_after (md : option bytes) (ops : list wal_op) (a : abs_log) : abs_log :=
  match ops with [] => a | op :: ops' => abs_after md ops' (abs_op md op a).2 end.

(** Three entries of term 1; then a new leader replaces the second one, so that the
    log has two entries, and a snapshot is taken at the second. *)
Definition overwritten_ops : list wal_op :=
  [OpSave (mkHardState 1 1 0) [demo_entry 1 1 (bs "a"); demo_entry 1 2 (bs "b"); demo_entry 1 3 (bs "c")];
   OpSave (mkHardState 2 3 2) [demo_entry 2 2 (bs "x")]; OpSnap (mkWalSnapshot 2 2 (Some zero_ConfState))].


(** a record that was cut off at the end of its file is an unexpected end of the
    file only if at most eight bytes are missing. If more are missing, the limit check
    comes first and reports another error, and [Repair] gives up. *)
Theorem cut_record_error (rec : Record_) (crc off n : Z) (Hc : is_u32 crc) (Hr : rec_ok rec) (Ho : 0 <= off)
    (Hn : 8 <= n < zlen (frame (stamped crc rec))) :
  let cut := take (Z.to_nat n) (frame (stamped crc rec)) in
  exists d, decode (mkDecoder [mkReader (off + n) cut] off crc) =
    Ret (inr (if n <? zlen (frame (stamped crc rec)) - 8 then LimitExceeded else UnexpectedEOF), d).
Proof.
  cbv zeta. destruct (stamped_ok _ _ Hc Hr) as [_ Hl]. rewrite zlen_frame in * by done. set (m := stamped crc rec) in *.
  destruct (frame_size (zlen (wire m))) as (l & El & Hl64 & Ed & Hn0); [lia|]. destruct (pad_of_spec (zlen (wire m))) as [Hp _].
  unfold decode. cbn [brs lastValidOff dcrc decode_from rdRest]. unfold frame. rewrite El. cbn [fst].
  rewrite take_app, (take_ge (PutUint64 l)) by (pose proof (zlen_PutUint64 l); unfold zlen in *; lia).
  rewrite readInt64_put by done. rewrite (proj2 (Z.eqb_neq (i64 l) 0)) by (apply Hn0; lia). unfold decode_frame. rewrite Ed. cbn [rdSize].
  set (rest := take _ (wire m ++ _)). assert (Hz : zlen rest = n - 8).
  { subst rest. pose proof (zlen_PutUint64 l) as H8. unfold zlen in H8. replace (Z.to_nat n - length (PutUint64 l))%nat with (Z.to_nat (n - 8)) by lia.
    apply zlen_take. rewrite zlen_app, zlen_zeros by lia. lia. }
  destruct (Z.ltb_spec n (8 + zlen (wire m) + pad_of (zlen (wire m)) - 8)).
  - rewrite (proj2 (Z.ltb_lt _ _)) by lia. by eexists.
  - rewrite (proj2 (Z.ltb_ge _ _)) by lia. rewrite Hz, (proj2 (Z.ltb_lt _ _)) by lia. by eexists.
Qed.

Lemma cut_record_error_witness :
  let rec := mkRecord stateType 0 (Some (bs "0123456789")) in
  zlen (frame (stamped 0 rec)) = 32 /\
  (exists d, decode (mkDecoder [mkReader (64 + 23) (take 23 (frame (stamped 0 rec)))] 64 0) = Ret (inr LimitExceeded, d)) /\
  (exists d, decode (mkDecoder [mkReader (64 + 24) (take 24 (frame (stamped 0 rec)))] 64 0) = Ret (inr UnexpectedEOF, d)).
Proof.
  cbv zeta. set (rec := mkRecord stateType 0 (Some (bs "0123456789"))).
  assert (Hz : zlen (frame (stamped 0 rec)) = 32) by (vm_compute; reflexivity).
  assert (Hr : rec_ok rec) by (split; [cbn; unfold stateType; lia|vm_compute; done]). assert (Hu : is_u32 0) by (unfold is_u32; lia).
  split; [exact Hz|]. split.
  - pose proof (cut_record_error rec 0 64 23 Hu Hr ltac:(lia) ltac:(rewrite Hz; lia)) as H. rewrite Hz in H. exact H.
  - pose proof (cut_record_error rec 0 64 24 Hu Hr ltac:(lia) ltac:(rewrite Hz; lia)) as H. rewrite Hz in H. exact H.
Defined.
