(* ===== verification/WalSnaps.v ===== *)
(** * WalSnaps: the snapshots that a log records

    [ValidSnapshotEntries] reads a log on its own, before it is opened: it finds the
    snapshots that were recorded up to the last commit index. *)

From S2P Require Import Prelude Strconv RaftPb RaftWire RaftCodec RaftNode WalPb PageWriter Wal WalRun.

(** The snapshots and the last state among some items. *)
Definition note (acc : list walSnapshot * HardState) (it : item) : list walSnapshot * HardState :=
  match it with
  | ISnap s => (acc.1 ++ [s], acc.2)
  | IState h => (acc.1, h)
  | _ => acc
  end.

Definition notes (its : list item) (acc : list walSnapshot * HardState) : list walSnapshot * HardState := fold_left note its acc.

(** The decoder at a record. *)
Lemma decode_item md it its crc rest rs off sz : item_ok md it -> is_u32 crc -> 0 <= off ->
  sz = off + zlen (frames crc (rec_of <$> it :: its)) + zlen rest ->
  decode (mkDecoder (mkReader sz (frames crc (rec_of <$> it :: its) ++ rest) :: rs) off crc) =
  Ret (inl (stamped crc (rec_of it)),
       mkDecoder (mkReader sz (frames (crc_Write crc (rData (rec_of it))) (rec_of <$> its) ++ rest) :: rs)
         (off + zlen (frame (stamped crc (rec_of it)))) (crc_Write crc (rData (rec_of it)))).
Proof.
  intros Hok Hc Ho Hsz. pose proof (rec_of_ok md it Hok) as Hr. cbn [fmap list_fmap frames] in Hsz |- *. rewrite zlen_app in Hsz.
  unfold decode. cbn [brs lastValidOff dcrc]. rewrite <- app_assoc.
  rewrite (decode_one _ crc crc); [|done|done|by left|done|rewrite zlen_app; unfold list_fmap in *; lia].
  destruct (Z.eqb_spec (rType (rec_of it)) crcType) as [E|]; [|done].
  assert (crc_Write crc (rData (rec_of it)) = crc) as ->; [|done]. destruct it; try done. apply crc_Write_None.
Qed.

(** One round of the loop. *)
Lemma snaps_round md it crc d d1 k acc : item_ok md it -> decode d = Ret (inl (stamped crc (rec_of it)), d1) ->
  (it = ICrc -> dcrc d1 = 0 \/ dcrc d1 = crc) ->
  snaps_loop (S k) d acc.1 acc.2 = snaps_loop k (dec_after crc it d1) (note acc it).1 (note acc it).2.
Proof.
  intros Hok Hdec Hd. cbn [snaps_loop]. rewrite Hdec. cbn [mbind outcome_bind]. unfold stamped.
  destruct it as [e|h|s|m|]; cbn [rec_of rType rData rCrc default from_option id note fst snd dec_after].
  - reflexivity.
  - change (stateType =? snapshotType) with false. change (stateType =? stateType) with true. cbv iota.
    destruct (small_ok h Hok) as [Hw _]. by assert (HardState_Unmarshal (wire h) zero_HardState = DOk h) as -> by exact (codec_unmarshal h Hw).
  - change (snapshotType =? snapshotType) with true. cbv iota. destruct Hok as [Hok _]. destruct (small_ok s Hok) as [Hw _].
    by assert (walSnapshot_Unmarshal (wire s) zero_walSnapshot = DOk s) as -> by exact (codec_unmarshal s Hw).
  - reflexivity.
  - change (crcType =? snapshotType) with false. change (crcType =? stateType) with false. change (crcType =? crcType) with true. cbv iota.
    unfold Validate. cbn [rCrc snd]. rewrite crc_Write_None.
    destruct (Hd eq_refl) as [->|E]; [done|]. rewrite E, Z.eqb_refl. cbn [snd negb]. by rewrite andb_false_r.
Qed.

Lemma snaps_items md its : Forall (item_ok md) its -> forall crc acc rest rs off sz k,
  is_u32 crc -> 0 <= off -> sz = off + zlen (frames crc (rec_of <$> its)) + zlen rest ->
  snaps_loop (length its + k) (mkDecoder (mkReader sz (frames crc (rec_of <$> its) ++ rest) :: rs) off crc) acc.1 acc.2 =
  snaps_loop k (mkDecoder (mkReader sz rest :: rs) (off + zlen (frames crc (rec_of <$> its))) (crc_after crc (rec_of <$> its)))
    (notes its acc).1 (notes its acc).2.
Proof.
  induction 1 as [|it its Hok Hits IH]; intros crc acc rest rs off sz k Hc Ho Hsz.
  { cbn. by rewrite Z.add_0_r. }
  pose proof (decode_item md it its crc rest rs off sz Hok Hc Ho Hsz) as Hdec. cbn [length Nat.add].
  rewrite (snaps_round md it crc _ _ _ acc Hok Hdec) by (intros ->; right; apply crc_Write_None).
  cbn [fmap list_fmap frames] in Hsz. rewrite zlen_app in Hsz.
  set (fr := frame (stamped crc (rec_of it))) in *. set (crc1 := crc_Write crc (rData (rec_of it))) in *.
  assert (Ed : forall d, dcrc d = crc1 -> dec_after crc it d = d).
  { intros d Ed. destruct it; try done. unfold dec_after, updateCRC. destruct d. cbn in *. subst. unfold crc1. cbn. by rewrite crc_Write_None. }
  rewrite Ed by done. pose proof (zlen_nonneg fr).
  rewrite (IH crc1 (note acc it)); [|by apply crc_Write_u32|lia|unfold list_fmap in *; lia].
  cbn [fmap list_fmap frames crc_after fold_left]. by rewrite zlen_app, Z.add_assoc.
Qed.

Lemma snaps_header md its crc dc acc rest rs sz k : Forall (item_ok md) its -> is_u32 crc -> dc = 0 \/ dc = crc ->
  sz = zlen (frames crc (rec_of <$> ICrc :: its)) + zlen rest ->
  snaps_loop (S (length its) + k) (mkDecoder (mkReader sz (frames crc (rec_of <$> ICrc :: its) ++ rest) :: rs) 0 dc) acc.1 acc.2 =
  snaps_loop k (mkDecoder (mkReader sz rest :: rs) (zlen (frames crc (rec_of <$> ICrc :: its))) (crc_after crc (rec_of <$> ICrc :: its)))
    (notes its acc).1 (notes its acc).2.
Proof.
  intros Hits Hc Hdc Hsz. change (rec_of <$> ICrc :: its) with (mkRecord crcType 0 None :: (rec_of <$> its)) in *. cbn [frames] in Hsz |- *. rewrite zlen_app in Hsz.
  set (fr := frame (stamped crc (mkRecord crcType 0 None))) in *. cbn [rData] in *. rewrite crc_Write_None in *.
  set (d1 := mkDecoder (mkReader sz (frames crc (rec_of <$> its) ++ rest) :: rs) (zlen fr) dc).
  assert (Hdec : decode (mkDecoder (mkReader sz ((fr ++ frames crc (rec_of <$> its)) ++ rest) :: rs) 0 dc) = Ret (inl (stamped crc (rec_of ICrc)), d1)).
  { unfold decode. cbn [brs lastValidOff dcrc]. rewrite <- app_assoc.
    rewrite (decode_one (rec_of ICrc) crc dc); [done|done|by apply (rec_of_ok md)|by right|done|]. rewrite zlen_app. fold fr. cbn [rec_of]. fold fr. lia. }
  cbn [Nat.add]. rewrite (snaps_round md ICrc crc _ _ _ acc I Hdec) by done. cbn [note dec_after]. unfold updateCRC, d1. cbn [brs lastValidOff].
  rewrite (snaps_items md its Hits crc acc rest rs (zlen fr) sz k Hc (zlen_nonneg _)) by lia.
  rewrite zlen_app. cbn [crc_after fold_left rData]. by rewrite crc_Write_None.
Qed.

Lemma snaps_loop_decode fuel d1 d2 acc : decode d1 = decode d2 -> snaps_loop (S fuel) d1 acc.1 acc.2 = snaps_loop (S fuel) d2 acc.1 acc.2.
Proof. intros E. cbn [snaps_loop]. by rewrite E. Qed.

Lemma snaps_chain md fs segs c t its k : forall crc dc acc,
  chain md crc fs segs c -> seg_in c t its -> Forall (item_ok md) its -> is_u32 crc -> dc = 0 \/ dc = crc ->
  snaps_loop (records (segs ++ [its]) + S k) (mkDecoder (reader_of <$> fs ++ [t]) 0 dc) acc.1 acc.2 =
  Ret (inl (notes (concat segs ++ its) acc)).
Proof.
  intros crc dc acc Hch. revert dc acc.
  induction Hch as [crc|crc f sits fs segs c (z & Hz & Hz8 & Hd) Hok Hch IH]; intros dc acc Ht Hits Hc Hdc.
  - destruct Ht as (z & Hz & Hz8 & Hd). cbn [concat app] in *. change (reader_of <$> [t]) with [reader_of t]. unfold reader_of. rewrite Hd, zlen_app.
    replace (records [its] + S k)%nat with (S (length its) + S k)%nat by (unfold records; cbn; lia).
    rewrite (snaps_header md its crc dc acc (zeros z) [] _ (S k) Hits Hc Hdc eq_refl). cbn [snaps_loop]. unfold decode. cbn [brs lastValidOff dcrc].
    rewrite decode_zeros by done. cbn [mbind outcome_bind]. by destruct (notes its acc).
  - cbn [concat app] in *. change (reader_of <$> f :: fs ++ [t]) with (reader_of f :: (reader_of <$> fs ++ [t])). rewrite <- app_assoc.
    unfold reader_of at 1. rewrite Hd, zlen_app.
    replace (records (sits :: segs ++ [its]) + S k)%nat with (S (length sits) + (records (segs ++ [its]) + S k))%nat by (unfold records; cbn; lia).
    rewrite (snaps_header md sits crc dc acc (zeros z) (reader_of <$> fs ++ [t]) _ (records (segs ++ [its]) + S k) Hok Hc Hdc eq_refl).
    fold (seg_crc crc sits). assert (Hn : notes (sits ++ concat segs ++ its) acc = notes (concat segs ++ its) (notes sits acc)) by apply fold_left_app. rewrite Hn.
    rewrite <- (IH (seg_crc crc sits) (notes sits acc) Ht Hits (seg_crc_u32 _ _ Hc) (or_intror eq_refl)). rewrite !Nat.add_succ_r.
    apply snaps_loop_decode. unfold decode. cbn [brs lastValidOff dcrc]. rewrite decode_zeros by done. by destruct fs.
Qed.

(** The snapshots of a log on disk, up to its last commit index. *)
Lemma ValidSnapshotEntries_eq w md log : wal_holds w md log -> synced w ->
  exists its, reads_as its log /\ Forall (item_ok md) its /\
    ValidSnapshotEntries (disk w) = Ret (inl (filter (fun s => wIndex s <= hCommit (notes its ([], zero_HardState)).2) (notes its ([], zero_HardState)).1)).
Proof.
  intros [(segs & its & c & e & [Hch Hc Hits Hmd Hsm Hrd Hei] & Hm & He & Hcrc & Hn) Hk] (e0 & x & Hm0 & Hf & Hx).
  rewrite Hm in Hm0. injection Hm0 as <-. pose proof (enc_at_unique _ _ _ Hx He) as ->. set (t := pw_w (ebw e)) in *.
  pose proof (file_seg t md c (IMeta md :: its) Hc Hits Hf) as Hsg. assert (H0 : is_u32 0) by (unfold is_u32; lia).
  exists (concat segs ++ IMeta md :: its). split; [exact Hrd|]. split.
  { apply Forall_app. split; [|done]. clear -Hch. induction Hch; [done|]. cbn. by apply Forall_app. }
  assert (Ed : disk w = closed w ++ [t]) by (unfold disk, wtail; by rewrite Hm). rewrite Ed.
  set (total := sum_list_with (fun f => length (fData f)) (closed w ++ [t])).
  assert (Htot : (records (segs ++ [IMeta md :: its]) <= total)%nat).
  { pose proof (chain_snoc md 0 _ _ c t (IMeta md :: its) Hch Hsg Hits) as Hch'. by apply (chain_length md 0) in Hch' as [_ ?]. }
  assert (Hfuel : read_fuel (newDecoder (closed w ++ [t])) = (records (segs ++ [IMeta md :: its]) + S (total - records (segs ++ [IMeta md :: its])))%nat).
  { unfold read_fuel, newDecoder. cbn [brs]. rewrite Nat.add_succ_r. f_equal. rewrite Nat.add_comm, Nat.sub_add by done. subst total.
    clear. induction (closed w ++ [t]) as [|f l IH]; [done|]. cbn. by rewrite <- IH. }
  unfold ValidSnapshotEntries. rewrite Hfuel. assert (End : newDecoder (closed w ++ [t]) = mkDecoder (reader_of <$> closed w ++ [t]) 0 0) by done.
  pose proof (snaps_chain md (closed w) segs c t (IMeta md :: its) (total - records (segs ++ [IMeta md :: its])) 0 0 ([], zero_HardState) Hch Hsg Hits H0 (or_introl eq_refl)) as E.
  cbn [fst snd] in E. rewrite End, E. cbn [mbind outcome_bind]. destruct (closed w ++ [t]) eqn:Ex; [by destruct (closed w)|]. by destruct (notes _ _).
Qed.
