(* ===== verification/Snap.v ===== *)
(** * Snap: the snapshot files of a node
    (src/etcd/server/etcdserver/api/snap/snapshotter.go)

    The snapshot directory is a finite map from file names to contents. The order
    in which the system lists a directory is a parameter, of which only
    [readdir_names] is known. A snapshot is stored, with a checksum, under a name
    made of its term and index in hexadecimal, so that the order of the names is
    the order of the snapshots. Failures of the disk are not modelled. *)

From stdpp Require Import sorting.
From S2P Require Import Prelude Strconv Json RaftPb RaftWire RaftCodec Quorum RaftStorage RaftLog Tracker ConfChange RaftNode WalPb.

(* ===================================================================== *)
(** ** Names and strings                                                 *)
(* ===================================================================== *)

(** [%0<w>x] of fmt, for a number of at most [w] digits. *)
Fixpoint hex_pad (w : nat) (n : Z) : bytes :=
  match w with
  | O => []
  | S w => hex_pad w (n / 16) ++ [hex_digit (n mod 16)]
  end.

Definition snapSuffix : bytes := bs ".snap".

Definition snap_name (term index : Z) : bytes := hex_pad 16 term ++ bs "-" ++ hex_pad 16 index ++ snapSuffix.

(** [<=] on strings. *)
Fixpoint str_le (a b : bytes) : bool :=
  match a, b with
  | [], _ => true
  | _ :: _, [] => false
  | x :: a, y :: b => (byteval x <? byteval y) || ((byteval x =? byteval y) && str_le a b)
  end.

Definition HasPrefix (s p : bytes) : bool := beq (take (length p) s) p.
Definition HasSuffix (s p : bytes) : bool := (zlen p <=? zlen s) && beq (drop (length s - length p) s) p.

(* ===================================================================== *)
(** ** The snapshotter                                                   *)
(* ===================================================================== *)

Abbreviation dir := (gmap bytes bytes).

Inductive snap_error : Type :=
| ErrNoSnapshot
| ErrEmptySnapshot
| ErrCRCMismatch
| ErrNotExist
| ErrUnmarshal.

Section snapshotter.
Context (readdirnames : dir -> list bytes).

Definition save (snapshot : Snapshot) : M dir unit :=
  let fname := snap_name (mTerm (sMetadata snapshot)) (mIndex (sMetadata snapshot)) in
  b ← lift (Snapshot_Marshal snapshot);
  let crc := simpleUpdate 0 b in
  d ← lift (snapFile_Marshal (mkSnapFile crc (Some b)));
  modify (insert fname d).

Definition SaveSnap (snapshot : Snapshot) : M dir unit :=
  if IsEmptySnap snapshot then mret tt else save snapshot.

(** [Read] of a file with these contents, if it exists. *)
Definition Read (file : option bytes) : outcome (snap_error + Snapshot) :=
  match file with
  | None => Ret (inl ErrNotExist)
  | Some b =>
    if zlen b =? 0 then Ret (inl ErrEmptySnapshot)
    else match snapFile_Unmarshal b zero_snapFile with
      | DErr _ => Ret (inl ErrUnmarshal)
      | DPanic => Panic
      | DSpin => Block
      | DOk serializedSnap =>
        let data := default [] (sfData serializedSnap) in
        if (zlen data =? 0) || (sfCrc serializedSnap =? 0) then Ret (inl ErrEmptySnapshot)
        else if negb (simpleUpdate 0 data =? sfCrc serializedSnap) then Ret (inl ErrCRCMismatch)
        else match Snapshot_Unmarshal data zero_Snapshot with
          | DErr _ => Ret (inl ErrUnmarshal)
          | DPanic => Panic
          | DSpin => Block
          | DOk snap => Ret (inr snap)
          end
      end
  end.

Definition broken (name : bytes) : bytes := name ++ bs ".broken".

(** [os.Rename]: false when there is no such file. *)
Definition Rename (old new : bytes) : M dir bool :=
  d ← get;
  match d !! old with
  | None => mret false
  | Some b => modify (fun d => <[new := b]> (delete old d));; mret true
  end.

Definition loadSnap (name : bytes) : M dir (snap_error + Snapshot) :=
  d ← get;
  r ← lift (Read (d !! name));
  match r with
  | inl _ => Rename name (broken name);; mret r
  | inr _ => mret r
  end.

Definition cleanupSnapdir (filenames : list bytes) : M dir (list bytes) :=
  foldM (fun names filename =>
    if HasPrefix filename (bs "db.tmp") then modify (delete filename);; mret names
    else mret (names ++ [filename])) [] filenames.

Definition checkSuffix (names : list bytes) : list bytes := filter (fun n => Is_true (HasSuffix n snapSuffix)) names.

(** [sort.Sort(sort.Reverse(sort.StringSlice(snaps)))] *)
Definition sort_reverse : list bytes -> list bytes := merge_sort (fun a b => Is_true (str_le b a)).

Definition snapNames : M dir (snap_error + list bytes) :=
  names ← gets readdirnames;
  filenames ← cleanupSnapdir names;
  let snaps := checkSuffix filenames in
  mret (if zlen snaps =? 0 then inl ErrNoSnapshot else inr (sort_reverse snaps)).

Fixpoint load_first (matchFn : Snapshot -> bool) (names : list bytes) : M dir (snap_error + Snapshot) :=
  match names with
  | [] => mret (inl ErrNoSnapshot)
  | name :: names =>
    r ← loadSnap name;
    match r with
    | inr snap => if matchFn snap then mret (inr snap) else load_first matchFn names
    | inl _ => load_first matchFn names
    end
  end.

Definition loadMatching (matchFn : Snapshot -> bool) : M dir (snap_error + Snapshot) :=
  names ← snapNames;
  match names with
  | inl err => mret (inl err)
  | inr names => load_first matchFn names
  end.

Definition Load : M dir (snap_error + Snapshot) := loadMatching (fun _ => true).

Definition in_wal (walSnaps : list walSnapshot) (snapshot : Snapshot) : bool :=
  existsb (fun w => (mTerm (sMetadata snapshot) =? wTerm w) && (mIndex (sMetadata snapshot) =? wIndex w)) (rev walSnaps).

Definition LoadNewestAvailable (walSnaps : list walSnapshot) : M dir (snap_error + Snapshot) :=
  loadMatching (in_wal walSnaps).

(** [strconv.ParseUint(s, 16, 64)] *)
Definition ParseHex (s : bytes) : option Z :=
  if zlen s =? 0 then None
  else foldl (fun acc c =>
    n ← acc; d ← hexval c;
    if n * 16 + d <=? MaxUint64 then Some (n * 16 + d) else None) (Some 0) s.

(** The files of the database snapshots before the index of [snap] are deleted. *)
Definition ReleaseSnapDBs (snap : Snapshot) : M dir unit :=
  filenames ← gets readdirnames;
  forM filenames (fun filename =>
    if HasSuffix filename (bs ".snap.db") then
      match ParseHex (take (length filename - length (bs ".snap.db")) filename) with
      | None => mret tt
      | Some index => if index <? mIndex (sMetadata snap) then modify (delete filename) else mret tt
      end
    else mret tt).

End snapshotter.

(* ===================================================================== *)
(** ** The order of the names                                            *)
(* ===================================================================== *)

Lemma hex_pad_length w n : length (hex_pad w n) = w.
Proof. revert n. induction w as [|w IH]; intros n; [done|]. cbn [hex_pad]. rewrite length_app, IH. cbn. lia. Qed.

Lemma str_le_refl a : str_le a a.
Proof. induction a as [|x a IH]; [done|]. cbn [str_le]. rewrite Z.ltb_irrefl, Z.eqb_refl. exact IH. Qed.

Lemma str_le_cons x y a b :
  str_le (x :: a) (y :: b) <-> byteval x < byteval y \/ (x = y /\ str_le a b).
Proof.
  cbn [str_le]. rewrite orb_True, andb_True, !Is_true_true, Z.ltb_lt, Z.eqb_eq.
  split; (intros [H|[E H]]; [by left|right; split; [|done]]); [by apply byteval_inj|by rewrite E].
Qed.

Lemma str_le_total a b : str_le a b \/ str_le b a.
Proof.
  revert b. induction a as [|x a IH]; intros [|y b]; [by left|by left|by right|]. rewrite !str_le_cons.
  destruct (Z.lt_trichotomy (byteval x) (byteval y)) as [?|[->%byteval_inj|?]]; [by left; left| |by right; left].
  destruct (IH b); auto.
Qed.

Lemma str_le_trans a b c : str_le a b -> str_le b c -> str_le a c.
Proof.
  revert b c. induction a as [|x a IH]; intros [|y b] [|z c] H1 H2; try done. rewrite str_le_cons in *.
  destruct H1 as [?|[-> ?]], H2 as [?|[<- ?]]; [left; lia|by left|by left|right; split; [done|by eapply IH]].
Qed.

Lemma str_le_antisym a b : str_le a b -> str_le b a -> a = b.
Proof.
  revert b. induction a as [|x a IH]; intros [|y b] H1 H2; try done. rewrite str_le_cons in *.
  destruct H1 as [?|[-> ?]], H2 as [?|[? ?]]; subst; try lia. f_equal. by apply IH.
Qed.

Lemma str_le_app a b c d : length a = length b -> str_le (a ++ c) (b ++ d) <-> (str_le a b /\ a <> b) \/ (a = b /\ str_le c d).
Proof.
  revert b. induction a as [|x a IH]; intros [|y b] E; cbn in E; try lia; cbn [app].
  - split; [intros; right; done|]. intros [[_ []]|[_ H]]; done.
  - injection E as E. rewrite !str_le_cons, IH by done. split.
    + intros [H|[-> [[H N]|[-> H]]]]; [left; split; [by left|]|left; split; [by right|]|by right]; congruence || (intros [= -> _]; lia).
    + intros [[[H|[-> H]] N]|[[= -> ->] H]]; [by left| |by right; split; [|right]].
      right. split; [done|]. left. split; [done|]. congruence.
Qed.

Lemma hex_digit_val n : 0 <= n < 16 -> byteval (hex_digit n) = if n <? 10 then 48 + n else 87 + n.
Proof. intros. unfold hex_digit. destruct (Z.ltb_spec n 10); apply byteval_zbyte; lia. Qed.

Lemma hex_digit_le m n : 0 <= m < 16 -> 0 <= n < 16 -> str_le [hex_digit m] [hex_digit n] <-> m <= n.
Proof.
  intros Hm Hn. cbn [str_le]. rewrite orb_True, andb_True, !Is_true_true, Z.ltb_lt, Z.eqb_eq, !hex_digit_val by done.
  destruct (Z.ltb_spec m 10), (Z.ltb_spec n 10); split; intros; lia.
Qed.

Lemma hex_pad_le w m n : 0 <= m < 16 ^ Z.of_nat w -> 0 <= n < 16 ^ Z.of_nat w ->
  (str_le (hex_pad w m) (hex_pad w n) <-> m <= n) /\ (hex_pad w m = hex_pad w n <-> m = n).
Proof.
  revert m n. induction w as [|w IH]; intros m n Hm Hn; [cbn in *; split; split; done || lia|].
  rewrite Nat2Z.inj_succ, Z.pow_succ_r in Hm, Hn by lia. set (p := 16 ^ Z.of_nat w) in *.
  pose proof (Z.div_mod m 16 ltac:(lia)). pose proof (Z.mod_pos_bound m 16 ltac:(lia)).
  pose proof (Z.div_mod n 16 ltac:(lia)). pose proof (Z.mod_pos_bound n 16 ltac:(lia)).
  destruct (IH (m / 16) (n / 16)) as [Hle Heq]; [lia..|]. cbn [hex_pad].
  assert (str_le (hex_pad w (m / 16) ++ [hex_digit (m mod 16)]) (hex_pad w (n / 16) ++ [hex_digit (n mod 16)]) <-> m <= n) as HL.
  { rewrite str_le_app by (by rewrite !hex_pad_length). rewrite Hle, Heq, hex_digit_le by done.
    split; [intros [[? ?]|[? ?]]; lia|]. intros. destruct (decide (m / 16 = n / 16)); [right|left]; lia. }
  split; [done|]. split; [|by intros ->]. intros E.
  apply app_inj_2 in E as [E1%Heq [= E2]]; [|done]. apply (f_equal byteval) in E2.
  rewrite !hex_digit_val in E2 by done. destruct (Z.ltb_spec (m mod 16) 10), (Z.ltb_spec (n mod 16) 10); lia.
Qed.

(** The order of two names is the order of the terms, then of the indexes. *)
Definition key_le '((t, i) : Z * Z) '((t', i') : Z * Z) : Prop := t < t' \/ t = t' /\ i <= i'.

Lemma is_u64_16 z : is_u64 z -> 0 <= z < 16 ^ Z.of_nat 16.
Proof. done. Qed.

Lemma snap_name_le t i t' i' : is_u64 t -> is_u64 i -> is_u64 t' -> is_u64 i' ->
  str_le (snap_name t i) (snap_name t' i') <-> key_le (t, i) (t', i').
Proof.
  intros Ht%is_u64_16 Hi%is_u64_16 Ht'%is_u64_16 Hi'%is_u64_16. unfold snap_name.
  destruct (hex_pad_le 16 t t') as [Lt Et]; [done..|]. destruct (hex_pad_le 16 i i') as [Li Ei]; [done..|].
  rewrite !str_le_app by (by rewrite ?hex_pad_length). rewrite Lt, Et, Li, Ei. unfold key_le. split.
  - intros [[? ?]|[-> [[_ []]|[_ [[? ?]|[-> _]]]]]]; [lia|done|lia|lia].
  - intros [?|[-> ?]]; [left; lia|right]. split; [done|]. right. split; [done|].
    destruct (decide (i = i')) as [->|]; [right; split; [done|apply str_le_refl]|left; split; [lia|done]].
Qed.

Lemma snap_name_inj t i t' i' : is_u64 t -> is_u64 i -> is_u64 t' -> is_u64 i' ->
  snap_name t i = snap_name t' i' -> (t, i) = (t', i').
Proof.
  intros Ht%is_u64_16 Hi%is_u64_16 Ht'%is_u64_16 Hi'%is_u64_16 E. unfold snap_name in E.
  apply app_inj_1 in E as [E1 E]; [|by rewrite !hex_pad_length]. apply app_inj_1 in E as [_ E]; [|done].
  apply app_inj_2 in E as [E2 _]; [|done]. apply hex_pad_le in E1, E2; [by subst|done..].
Qed.

(* ===================================================================== *)
(** ** Reading a file                                                    *)
(* ===================================================================== *)

Definition file_of (s : Snapshot) : snapFile := mkSnapFile (simpleUpdate 0 (wire s)) (Some (wire s)).

(** Snapshots [save] can store and [Read] will take: the file fits into a slice
    and its checksum is not the number that [Read] takes for a missing one. *)
Definition snap_ok (s : Snapshot) : Prop :=
  wire_ok s /\ snapFile_Size (file_of s) <= MaxInt64 /\ simpleUpdate 0 (wire s) <> 0.

Definition name_of (s : Snapshot) : bytes := snap_name (mTerm (sMetadata s)) (mIndex (sMetadata s)).

Lemma snap_ok_file s : snap_ok s -> wire_ok (file_of s).
Proof. intros (_ & Hs & _). split; [apply simpleUpdate_u32; done|done]. Qed.

Lemma snap_save_eq s d : snap_ok s -> save s d = Ret (tt, <[name_of s := wire (file_of s)]> d).
Proof.
  intros H. pose proof (snap_ok_file s H) as Hf. destruct H as (Hw & _). unfold save.
  assert (Snapshot_Marshal s = Ret (wire s)) as E1.
  { rewrite <- (marshal_eq _ _ (wire_fills s Hw)), (wire_size s Hw). reflexivity. }
  assert (snapFile_Marshal (file_of s) = Ret (wire (file_of s))) as E2.
  { rewrite <- (marshal_eq _ _ (wire_fills _ Hf)), (wire_size _ Hf). reflexivity. }
  unfold mbind, M_bind. rewrite E1. unfold lift at 1. cbv zeta. fold (file_of s). rewrite E2. reflexivity.
Qed.

Lemma zlen_zero {A} (l : list A) : zlen l = 0 -> l = [].
Proof. destruct l; [done|]. unfold zlen. cbn. lia. Qed.

Lemma wire_snapshot_nonempty (s : Snapshot) : wire_ok s -> zlen (wire s) <> 0.
Proof.
  intros Hw. rewrite wire_size by done. change (size_of s) with (Snapshot_Size s). unfold Snapshot_Size, nested_Size.
  pose proof (size_nonneg (sMetadata s)) as H1. change (size_of (sMetadata s)) with (SnapshotMetadata_Size (sMetadata s)) in H1.
  pose proof (sovRaft_pos (SnapshotMetadata_Size (sMetadata s))). sizes_pos. lia.
Qed.

Lemma read_saved s : snap_ok s -> Read (Some (wire (file_of s))) = Ret (inr s).
Proof.
  intros H. pose proof (snap_ok_file s H) as Hf. destruct H as (Hw & _ & Hc).
  pose proof (wire_snapshot_nonempty s Hw) as Hn. unfold Read.
  rewrite (proj2 (Z.eqb_neq _ _)).
  2: { intros E%zlen_zero. pose proof (codec_unmarshal _ Hf) as U. rewrite E in U. discriminate U. }
  change (snapFile_Unmarshal ?x zero_snapFile) with (unmarshal (parse_field (T := snapFile)) x zero).
  rewrite (codec_unmarshal _ Hf). cbn [file_of sfCrc sfData default from_option id]. cbv zeta.
  rewrite (proj2 (Z.eqb_neq _ _) Hn), (proj2 (Z.eqb_neq _ _) Hc), Z.eqb_refl. cbn [orb negb].
  change (Snapshot_Unmarshal ?x zero_Snapshot) with (unmarshal (parse_field (T := Snapshot)) x zero).
  by rewrite (codec_unmarshal _ Hw).
Qed.

(** What is read from a message of [n] bytes is not longer than them. *)
Definition if_ok {A} (P : A -> Prop) (r : dec A) : Prop := match r with DOk a => P a | _ => True end.

Lemma if_ok_bind {A B} (P : A -> Prop) (Q : B -> Prop) (r : dec A) (k : A -> dec B) :
  if_ok P r -> (forall a, P a -> if_ok Q (k a)) -> if_ok Q (r ≫= k).
Proof. destruct r; cbn; auto. Qed.

Lemma if_ok_any {A} (r : dec A) : if_ok (fun _ => True) r.
Proof. by destruct r. Qed.

Lemma unmarshal_keeps {T} (field : fields T) (P : T -> Prop) d fuel i m :
  (forall m num wt i, P m -> match field m num wt d i with Some r => if_ok (fun '(m', _) => P m') r | None => True end) ->
  P m -> if_ok P (unmarshal_loop field fuel d i m).
Proof.
  intros Hf. revert i m. induction fuel as [|fuel IH]; intros i m Hm; [done|]. cbn [unmarshal_loop].
  destruct (_ <? _); [|by destruct (_ <? _)]. eapply if_ok_bind with (P := fun '(m', _) => P m'); [|intros [m' j]; apply IH].
  unfold unmarshal_field. eapply if_ok_bind; [apply if_ok_any|]. intros [w j] _. cbv zeta.
  destruct (_ =? _); [done|]. destruct (_ <=? _); [done|].
  pose proof (Hf m (i32 (Z.shiftr w 3)) (Z.land w 7) j Hm) as Hr. destruct (field _ _ _ _ _); [done|].
  unfold skip_field. do 2 (eapply if_ok_bind; [apply if_ok_any|]; intros ? _).
  destruct (_ || _); [done|]. by destruct (_ <? _).
Qed.

Lemma snapFile_data_short b : if_ok (fun f => zlen (default [] (sfData f)) <= zlen b) (snapFile_Unmarshal b zero_snapFile).
Proof.
  apply unmarshal_keeps; [|cbn; rewrite zlen_nil; apply zlen_nonneg]. intros m num wt i Hm. unfold snapFile_field.
  destruct num as [|[[p|p|]|[p|p|]|]|p]; try done.
  - unfold bytes_field. destruct (negb _); [done|]. eapply if_ok_bind with (P := fun '(x, _) => zlen x <= zlen b); [|by intros [x j]].
    unfold readLen. eapply if_ok_bind; [apply if_ok_any|]. intros [n j] _. destruct (_ <? _); [done|]. cbv zeta.
    destruct (_ <? _); [done|]. destruct (_ <? _); [done|]. unfold dslice. destruct (_ && _); [|done]. cbn.
    unfold zlen. rewrite length_take, length_drop. lia.
  - unfold varint_field. destruct (negb _); [done|]. eapply if_ok_bind; [apply if_ok_any|]. by intros [v j] _.
Qed.

(** No contents make [Read] panic. *)
Lemma Read_returns o : (forall b, o = Some b -> zlen b <= MaxInt64) -> exists r, Read o = Ret r.
Proof.
  destruct o as [b|]; [|by eexists]. intros Hb. specialize (Hb b eq_refl). unfold Read. destruct (_ =? _); [by eexists|].
  pose proof (codec_safe (T := snapFile) b zero_snapFile Hb) as Hs. pose proof (snapFile_data_short b) as Hl.
  change (unmarshal parse_field b zero_snapFile) with (snapFile_Unmarshal b zero_snapFile) in Hs.
  destruct (snapFile_Unmarshal b zero_snapFile) as [f| | |]; [|by eexists|done|done]. cbn in Hl.
  cbv zeta. destruct (_ || _); [by eexists|]. destruct (negb _); [by eexists|].
  pose proof (Snapshot_safe (default [] (sfData f)) zero_Snapshot ltac:(lia)) as Hs'.
  destruct (Snapshot_Unmarshal _ _); [by eexists|by eexists|done|done].
Qed.

(* ===================================================================== *)
(** ** Loading                                                           *)
(* ===================================================================== *)

(** The file [n] of the directory holds the snapshot [s]. *)
Definition holds (d : dir) (n : bytes) (s : Snapshot) : Prop := Read (d !! n) = Ret (inr s).

Definition is_snap (n : bytes) : Prop := HasSuffix n snapSuffix /\ ~ HasPrefix n (bs "db.tmp").

Definition files_fit (d : dir) : Prop := forall n b, d !! n = Some b -> zlen b <= MaxInt64.

(** The same snapshots, perhaps other files. *)
Definition same_snaps (d d' : dir) : Prop := forall n s, is_snap n -> holds d n s <-> holds d' n s.

#[export] Instance same_snaps_equiv : Equivalence same_snaps.
Proof.
  split; unfold same_snaps.
  - done.
  - intros d d' H n s Hn. by rewrite H.
  - intros d1 d2 d3 H1 H2 n s Hn. by rewrite H1, H2.
Qed.

Lemma HasSuffix_iff s p : HasSuffix s p <-> exists q, s = q ++ p.
Proof.
  unfold HasSuffix, beq. rewrite andb_True, bool_decide_spec, Is_true_true, Z.leb_le. unfold zlen. split.
  - intros [Hl E]. exists (take (length s - length p) s). by rewrite <- E at 2; rewrite take_drop.
  - intros [q ->]. rewrite length_app. split; [lia|]. replace (_ + _ - _)%nat with (length q) by lia. apply drop_app_length.
Qed.

Lemma broken_no_snap n : ~ HasSuffix (broken n) snapSuffix.
Proof.
  rewrite HasSuffix_iff. intros [q E]. apply (f_equal last) in E. unfold broken in E. rewrite !last_app in E. discriminate E.
Qed.

Lemma loadSnap_spec n d : files_fit d -> HasSuffix n snapSuffix -> exists r d',
  Read (d !! n) = Ret r /\ loadSnap n d = Ret (r, d') /\ files_fit d' /\ same_snaps d d'.
Proof.
  intros Hd Hn. destruct (Read_returns (d !! n)) as [r Hr]; [intros b; apply Hd|]. unfold loadSnap, mbind, M_bind, get. rewrite Hr.
  unfold lift. destruct r as [e|s]; [|exists (inr s), d; split_and!; done || reflexivity].
  unfold Rename, mbind, M_bind, get. destruct (d !! n) as [b|] eqn:E; [|exists (inl e), d; split_and!; done || reflexivity].
  exists (inl e), (<[broken n := b]> (delete n d)). split; [reflexivity|]. split; [reflexivity|]. split.
  - intros m c. rewrite lookup_insert, lookup_delete. repeat case_decide; [intros [= <-]; by eapply Hd|done|apply Hd].
  - intros m s [Hm _]. unfold holds. rewrite lookup_insert_ne by (intros <-; by eapply broken_no_snap).
    rewrite lookup_delete. case_decide as Em; [|done]. subst m. rewrite E, Hr. by split.
Qed.

Section newest.
Context (f : Snapshot -> bool).

(** The snapshot of the greatest of these names whose file holds one that [f]
    accepts. *)
Definition newest (d : dir) (P : bytes -> Prop) (r : snap_error + Snapshot) : Prop :=
  match r with
  | inr s => f s /\ exists n, P n /\ holds d n s /\ forall n' s', P n' -> holds d n' s' -> f s' -> str_le n' n
  | inl e => e = ErrNoSnapshot /\ forall n s, P n -> holds d n s -> ~ f s
  end.

Lemma load_first_spec names d : files_fit d -> Forall is_snap names -> StronglySorted (fun a b => Is_true (str_le b a)) names ->
  exists r d', load_first f names d = Ret (r, d') /\ files_fit d' /\ same_snaps d d' /\ newest d (fun n => n ∈ names) r.
Proof.
  revert d. induction names as [|n names IH]; intros d Hd Hn Hs; cbn [load_first].
  { eexists _, _. split; [reflexivity|]. do 2 (split; [done|]). split; [done|]. intros ? ? []%not_elem_of_nil. }
  apply Forall_cons in Hn as [Hn Hns]. apply StronglySorted_inv in Hs as [Hs Hle]. rewrite Forall_forall in Hle.
  destruct (loadSnap_spec n d Hd (proj1 Hn)) as (r & d1 & Hr & E & Hd1 & Hs1). unfold mbind, M_bind. rewrite E.
  destruct (IH d1 Hd1 Hns Hs) as (r' & d2 & E2 & Hd2 & Hs2 & Hnew).
  assert (forall n' s', n' ∈ n :: names -> holds d n' s' -> r = inr s' \/ (n' ∈ names /\ holds d1 n' s')) as Hor.
  { intros n' s' [->|Hin]%elem_of_cons H.
    - left. unfold holds in H. congruence.
    - right. split; [done|]. rewrite Forall_forall in Hns. by apply Hs1; [apply Hns|]. }
  assert ((forall s, r = inr s -> ~ f s) -> newest d (fun n' => n' ∈ n :: names) r') as Hskip.
  { intros Hno. destruct r' as [e|s]; cbn in Hnew |- *.
    - destruct Hnew as [-> Hnew]. split; [done|]. intros n' s' Hin H. destruct (Hor n' s' Hin H) as [?|[? ?]]; eauto.
    - destruct Hnew as (Hf & m & Hm & H & Hmax). split; [done|]. exists m. split; [by right|].
      rewrite Forall_forall in Hns. split; [by apply Hs1; [apply Hns|]|].
      intros n' s' Hin H' Hf'. destruct (Hor n' s' Hin H') as [?|[? ?]]; [by destruct (Hno s')|eauto]. }
  assert (same_snaps d d2) as Hs12 by (by rewrite Hs1).
  destruct r as [e|s]; [exists r', d2; split_and!; [done..|apply Hskip; intros ? [=]]|]. destruct (f s) eqn:Hf.
  - exists (inr s), d1. split; [reflexivity|]. do 2 (split; [done|]). split; [by rewrite Hf|]. exists n.
    split; [by left|]. split; [done|]. intros n' s' [->|Hin]%elem_of_cons _ _; [apply str_le_refl|by apply Hle].
  - exists r', d2. split_and!; [done..|]. apply Hskip. intros s' [= <-]. rewrite Hf. tauto.
Qed.
End newest.

(** [cleanupSnapdir] keeps the names of all other files. *)
Lemma cleanupSnapdir_spec names acc d : exists d',
  foldM (fun names filename =>
    if HasPrefix filename (bs "db.tmp") then modify (delete filename);; mret names
    else mret (names ++ [filename])) acc names d = Ret (acc ++ filter (fun n => ~ HasPrefix n (bs "db.tmp")) names, d') /\
  (files_fit d -> files_fit d') /\ same_snaps d d'.
Proof.
  revert acc d. induction names as [|n names IH]; intros acc d; cbn [foldM].
  { exists d. rewrite filter_nil, app_nil_r. done. }
  rewrite filter_cons. unfold mbind at 1, M_bind at 1. destruct (HasPrefix n _) eqn:E.
  - destruct (IH acc (delete n d)) as (d' & E' & Hf & Hs). exists d'. rewrite decide_False by (cbn; tauto).
    split; [exact E'|]. split.
    + intros Hd. apply Hf. intros m b. rewrite lookup_delete. case_decide; [done|apply Hd].
    + rewrite <- Hs. intros m s [_ Hm]. unfold holds. rewrite lookup_delete_ne; [done|]. intros <-. by rewrite E in Hm.
  - destruct (IH (acc ++ [n]) d) as (d' & E' & Hf & Hs). exists d'. rewrite decide_True by (cbn; tauto).
    split; [|done]. rewrite <- app_assoc in E'. exact E'.
Qed.

(* ===================================================================== *)
(** ** What has been saved is found again                                *)
(* ===================================================================== *)

Definition key_of (s : Snapshot) : Z * Z := (mTerm (sMetadata s), mIndex (sMetadata s)).

(** The directory as what was saved last for each term and index. *)
Definition abs_save (m : gmap (Z * Z) Snapshot) (s : Snapshot) : gmap (Z * Z) Snapshot :=
  if IsEmptySnap s then m else <[key_of s := s]> m.

Definition stores (d : dir) (m : gmap (Z * Z) Snapshot) : Prop :=
  files_fit d /\
  (forall n s, is_snap n -> holds d n s <-> m !! key_of s = Some s /\ n = name_of s) /\
  map_Forall (fun k s => k = key_of s /\ snap_ok s) m.

Lemma hex_pad_digits w n : Forall (fun c => 48 <= byteval c) (hex_pad w n).
Proof.
  revert n. induction w as [|w IH]; intros n; [done|]. cbn [hex_pad]. apply Forall_app. split; [done|].
  constructor; [|done]. pose proof (Z.mod_pos_bound n 16 ltac:(lia)). rewrite hex_digit_val by done. destruct (_ <? _); lia.
Qed.

Lemma name_is_snap s : is_snap (name_of s).
Proof.
  split.
  - apply HasSuffix_iff. exists (hex_pad 16 (mTerm (sMetadata s)) ++ bs "-" ++ hex_pad 16 (mIndex (sMetadata s))).
    unfold name_of, snap_name. by rewrite <- !app_assoc.
  - unfold HasPrefix, beq, name_of, snap_name. rewrite bool_decide_spec. intros E.
    rewrite take_app_le in E by (rewrite hex_pad_length; cbn; lia).
    pose proof (hex_pad_digits 16 (mTerm (sMetadata s))) as H. rewrite <- (take_drop 6 (hex_pad _ _)) in H.
    apply Forall_app in H as [H _]. change (length (bs "db.tmp")) with 6%nat in E. rewrite E in H.
    assert (48 <= byteval ".") as H'; [|vm_compute in H'; done]. rewrite Forall_forall in H. apply H. cbn. set_solver.
Qed.

Lemma snap_ok_u64 s : snap_ok s -> is_u64 (mTerm (sMetadata s)) /\ is_u64 (mIndex (sMetadata s)).
Proof. intros [[(_ & ? & ?) _] _]. done. Qed.

Lemma name_key s s' : snap_ok s -> snap_ok s' -> name_of s = name_of s' <-> key_of s = key_of s'.
Proof.
  intros [H1 H2]%snap_ok_u64 [H3 H4]%snap_ok_u64. split; [exact (snap_name_inj _ _ _ _ H1 H2 H3 H4)|].
  unfold key_of, name_of. intros E. injection E as -> ->. reflexivity.
Qed.

Lemma SaveSnap_stores s d m : IsEmptySnap s \/ snap_ok s -> stores d m ->
  exists d', SaveSnap s d = Ret (tt, d') /\ stores d' (abs_save m s).
Proof.
  intros Hs Hst. unfold SaveSnap, abs_save. destruct (IsEmptySnap s); [by exists d|]. destruct Hs as [[]|Hs].
  rewrite (snap_save_eq s d Hs). eexists. split; [reflexivity|]. destruct Hst as (Hf & Hh & Hm). split_and!.
  - intros n b. rewrite lookup_insert. case_decide; [|apply Hf]. intros E. injection E as <-. exact (wire_fits _ (snap_ok_file s Hs)).
  - intros n s' Hn. unfold holds. rewrite !lookup_insert. case_decide as E.
    + subst n. rewrite (read_saved s Hs). split; [intros [= <-]; by rewrite decide_True|].
      intros [E1 E2]. case_decide as Ek; [by injection E1 as ->|]. destruct (Hm _ _ E1) as [_ Hs'].
      by apply name_key in E2.
    + rewrite (Hh n s' Hn). case_decide as Ek; [|done]. split; intros [E1 ->].
      * destruct (Hm _ _ E1) as [_ Hs']. by apply name_key in Ek.
      * by injection E1 as ->.
  - by apply map_Forall_insert_2.
Qed.

Lemma saves_store ss d m : Forall (fun s => IsEmptySnap s \/ snap_ok s) ss -> stores d m ->
  exists d', forM ss SaveSnap d = Ret (tt, d') /\ stores d' (foldl abs_save m ss).
Proof.
  intros Hss. revert d m. induction Hss as [|s ss Hs _ IH]; intros d m Hd; [by exists d|].
  destruct (SaveSnap_stores s d m Hs Hd) as (d1 & E & H1). destruct (IH d1 _ H1) as (d2 & E2 & H2).
  exists d2. split; [|exact H2]. unfold forM in *. cbn [foldM]. unfold mbind, M_bind. by rewrite E.
Qed.

Lemma in_wal_iff ws s : in_wal ws s <-> exists w, w ∈ ws /\ key_of s = (wTerm w, wIndex w).
Proof.
  unfold in_wal. rewrite Is_true_true, existsb_exists. split; intros (w & Hw & E); exists w.
  - apply andb_true_iff in E as [?%Z.eqb_eq ?%Z.eqb_eq]. split; [by apply list_elem_of_In, in_rev|]. unfold key_of. congruence.
  - injection E as -> ->. rewrite !Z.eqb_refl. split; [|done]. by apply -> in_rev; apply list_elem_of_In.
Qed.

Section directory.
Context (readdirnames : dir -> list bytes).
Hypothesis readdir_names : forall d n, n ∈ readdirnames d <-> is_Some (d !! n).

Lemma load_newest f d : files_fit d -> exists r d',
  loadMatching readdirnames f d = Ret (r, d') /\ files_fit d' /\ same_snaps d d' /\ newest f d is_snap r.
Proof using readdir_names.
  intros Hd. unfold loadMatching, snapNames, cleanupSnapdir.
  destruct (cleanupSnapdir_spec (readdirnames d) [] d) as (d1 & E & Hfit & Hs). specialize (Hfit Hd).
  unfold mbind at 1 2, M_bind at 1 2, gets. unfold mbind at 1, M_bind at 1. rewrite E. cbn [app mret M_ret].
  set (names := checkSuffix _).
  assert (forall n, n ∈ names <-> is_snap n /\ is_Some (d !! n)) as Hnames.
  { intros n. unfold names, checkSuffix. rewrite !list_elem_of_filter, readdir_names. unfold is_snap. tauto. }
  destruct (Z.eqb_spec (zlen names) 0) as [H0%zlen_zero|H0].
  { exists (inl ErrNoSnapshot), d1. split_and!; [reflexivity|done..|]. split; [done|]. intros n s Hn H.
    assert (n ∈ names) as Hin; [|rewrite H0 in Hin; by apply not_elem_of_nil in Hin].
    apply Hnames. split; [done|]. unfold holds in H. by destruct (d !! n). }
  assert (forall n, n ∈ sort_reverse names <-> n ∈ names) as Hsort.
  { intros n. unfold sort_reverse. by rewrite merge_sort_Permutation. }
  destruct (load_first_spec f (sort_reverse names) d1) as (r & d2 & E2 & Hd2 & Hs2 & Hnew); [done| | |].
  - apply Forall_forall. intros n Hn%Hsort. by apply Hnames.
  - apply StronglySorted_merge_sort; [intros a b c ? ?; by eapply str_le_trans|intros a b; apply str_le_total].
  - exists r, d2. split_and!; [exact E2|done|by rewrite Hs|].
    assert (forall n s, is_snap n -> holds d n s -> n ∈ sort_reverse names /\ holds d1 n s) as Hin.
    { intros n s Hn H. split; [|by apply Hs]. apply Hsort, Hnames. split; [done|]. unfold holds in H. by destruct (d !! n). }
    destruct r as [e|s]; cbn in Hnew |- *.
    + destruct Hnew as [-> Hno]. split; [done|]. intros n s Hn H. destruct (Hin n s Hn H). by eapply Hno.
    + destruct Hnew as (Hf & n & Hn & H & Hmax). split; [done|]. exists n.
      assert (is_snap n) by (by apply Hsort, Hnames in Hn as [? _]). split; [done|]. split; [by apply Hs|].
      intros n' s' Hn' H'. destruct (Hin n' s' Hn' H'). by apply Hmax.
Qed.
End directory.


(* ===================================================================== *)
(** ** Instances of the theorems                                         *)
(* ===================================================================== *)

Definition snap_at (term index : Z) (data : bytes) : Snapshot := mkSnapshot (Some data) (mkMetadata (mkConfState [1] [] [] [] false) index term).

Definition snap_check (s : Snapshot) : bool :=
  (Snapshot_Size s <=? MaxInt64) && (snapFile_Size (file_of s) <=? MaxInt64) && negb (simpleUpdate 0 (wire s) =? 0).

Lemma snap_check_ok s : fields_ok s -> snap_check s -> snap_ok s.
Proof.
  unfold snap_check. rewrite !andb_True, !Is_true_true, !Z.leb_le. intros Hf [[H1 H2] H3%negb_true_iff%Z.eqb_neq].
  split; [by split|]. split; [exact H2|exact H3].
Qed.

