(* ===== verification/RaftStream.v ===== *)
(** * RaftStream: the encoding of messages on the streams between nodes
    (src/etcd/server/etcdserver/api/rafthttp/msgappv2_codec.go, msg_codec.go)

    A node has two streams to each other node: one for all messages and one for
    the appends of a leader, on which an append that continues the one before is
    sent without its term and index. The connection is a [Writer]; what arrives is
    a list of bytes. What is decoded is what was encoded. *)

From S2P Require Import RespParser Prelude RaftPb RaftWire RaftCodec PageWriter.

(* ===================================================================== *)
(** ** Numbers and reading                                               *)
(* ===================================================================== *)

(** [binary.BigEndian]. *)
Definition BE_PutUint64 (n : Z) : bytes := (fun k => zbyte (Z.shiftr n (56 - 8 * k))) <$> seqZ 0 8.
Definition BE_Uint64 (b : bytes) : Z := fold_left (fun n c => 256 * n + byteval c) b 0.

Inductive stream_error : Type :=
| EOF
| UnexpectedEOF
| BadStreamType (typ : Z)
| ErrExceedSizeLimit
| ErrUnmarshal (e : wire_error).

(** [make] of so many elements of a size. *)
Definition make_ok {S} (elem n : Z) : M S unit := if (n <? 0) || (maxAlloc <? elem * n) then panic else mret tt.

(** Code that returns a value or an error, where an error ends the caller too. *)
Definition try_bind {S A B} (m : M S (A + stream_error)) (k : A -> M S (B + stream_error)) : M S (B + stream_error) :=
  r ← m;
  match r with inl a => k a | inr e => mret (inr e) end.
#[local] Notation "x <~ m ; k" := (try_bind m (fun x => k)) (at level 20, m at level 100, k at level 200, right associativity).

(** [io.ReadFull]. *)
Definition ReadFull (n : Z) : M bytes (bytes + stream_error) := fun s =>
  if n <=? 0 then Ret (inl [], s)
  else match s with
       | [] => Ret (inr EOF, [])
       | _ => if zlen s <? n then Ret (inr UnexpectedEOF, []) else Ret (inl (take (Z.to_nat n) s), drop (Z.to_nat n) s)
       end.

(** [pbutil.MustUnmarshal]: an error is a panic. *)
Definition MustUnmarshal {A} (r : dec A) : outcome A :=
  match r with DOk a => Ret a | DErr _ | DPanic => Panic | DSpin => Block end.

(** stream.go. *)
Definition linkHeartbeatMessage : Message := msg MsgHeartbeat.

Definition isLinkHeartbeatMessage (m : Message) : bool :=
  bool_decide (mtType m = MsgHeartbeat) && (mtFrom m =? 0) && (mtTo m =? 0).

(* ===================================================================== *)
(** ** The stream of appends                                             *)
(* ===================================================================== *)

Definition msgTypeLinkHeartbeat : Z := 0.
Definition msgTypeAppEntries : Z := 1.
Definition msgTypeApp : Z := 2.
Definition msgAppV2BufSize : Z := 1024 * 1024.

(** A call that can fail and what is done if it did not; [true] is an error. *)
Definition unless_error {S} (m1 m2 : M S bool) : M S bool := err ← m1; if (err : bool) then mret true else m2.
#[local] Infix ";?" := unless_error (at level 60, right associativity).

Section encoders.
Context {W : Type} `{!Writer W}.

Record msgAppV2Encoder : Type := mkV2Encoder { v2w : W; v2term : Z; v2index : Z; v2buf : bytes }.

Definition newMsgAppV2Encoder (w : W) : msgAppV2Encoder :=
  mkV2Encoder w 0 0 (replicate (Z.to_nat msgAppV2BufSize) zero_byte).

#[local] Abbreviation E := (M msgAppV2Encoder).

Definition v2_write (p : bytes) : E bool := fun e =>
  let '(_, err, w) := write p (v2w e) in Ret (err, mkV2Encoder w (v2term e) (v2index e) (v2buf e)).

(** [MarshalTo] into the buffer of the encoder. *)
Definition v2_MarshalTo (en : Entry) : E unit := fun e =>
  let n := Entry_Size en in
  d ← zslice 0 n (v2buf e);
  '(_, d) ← Entry_MarshalToSizedBuffer en d;
  Ret (tt, mkV2Encoder (v2w e) (v2term e) (v2index e) (d ++ drop (Z.to_nat n) (v2buf e))).

Definition v2_entry (en : Entry) : E bool :=
  let n := Entry_Size en in
  v2_write (BE_PutUint64 (u64 n)) ;?
  (if n <? msgAppV2BufSize then
     v2_MarshalTo en;; b ← gets v2buf; p ← lift (zslice 0 n b); v2_write p
   else p ← lift (Entry_Marshal en); v2_write p) ;?
  (modify (fun e => mkV2Encoder (v2w e) (v2term e) (u64 (v2index e + 1)) (v2buf e));; mret false).

Definition v2_entries (es : list Entry) : E bool := foldr (fun en k => v2_entry en ;? k) (mret false) es.

(** Where the entries of an append end. *)
Definition last_index (m : Message) : Z :=
  match last (mtEntries m) with Some e => eIndex e | None => mtIndex m end.

Definition v2_encode (m : Message) : E bool :=
  e ← get;
  if isLinkHeartbeatMessage m then v2_write [zbyte msgTypeLinkHeartbeat]
  else if (v2index e =? mtIndex m) && (v2term e =? mtLogTerm m) && (mtLogTerm m =? mtTerm m) then
    v2_write [zbyte msgTypeAppEntries] ;?
    v2_write (BE_PutUint64 (u64 (zlen (mtEntries m)))) ;?
    v2_entries (mtEntries m) ;?
    v2_write (BE_PutUint64 (mtCommit m))
  else
    v2_write [zbyte msgTypeApp] ;?
    v2_write (BE_PutUint64 (u64 (Message_Size m))) ;?
    (p ← lift (Message_Marshal m); v2_write p) ;?
    (modify (fun e => mkV2Encoder (v2w e) (mtTerm m) (last_index m) (v2buf e));; mret false).

(** [messageEncoder], whose state is the connection. *)
Definition msg_write (p : bytes) : M W bool := fun w => let '(_, err, w) := write p w in Ret (err, w).

Definition msg_encode (m : Message) : M W bool :=
  msg_write (BE_PutUint64 (u64 (Message_Size m))) ;?
  (p ← lift (Message_Marshal m); msg_write p).
End encoders.

Arguments msgAppV2Encoder W : clear implicits.
Arguments mkV2Encoder {W}.

(** The buffer of the decoder only holds the bytes of one entry until they are
    decoded, which copies them. *)
Record msgAppV2Decoder : Type := mkV2Decoder { dr : bytes; dterm : Z; dindex : Z }.

Definition newMsgAppV2Decoder (r : bytes) : msgAppV2Decoder := mkV2Decoder r 0 0.

Definition dr_lens : lens msgAppV2Decoder bytes := mkLens dr (fun r d => mkV2Decoder r (dterm d) (dindex d)).

Section decoders.
Context (local remote : Z).

#[local] Abbreviation D A := (M msgAppV2Decoder (A + stream_error)).

Definition v2_read (n : Z) : D bytes := zoom dr_lens (ReadFull n).

Definition v2_read64 : D Z := b <~ v2_read 8; mret (inl (BE_Uint64 b)).

(** An entry has 48 bytes in memory. *)
Fixpoint v2_decode_entries (k : nat) : D (list Entry) :=
  match k with
  | O => mret (inl [])
  | S k' =>
      size <~ v2_read64;
      b <~ (if size <? msgAppV2BufSize then v2_read size else make_ok 1 (i64 size);; v2_read (i64 size));
      modify (fun d => mkV2Decoder (dr d) (dterm d) (u64 (dindex d + 1)));;
      en ← lift (MustUnmarshal (Entry_Unmarshal b zero_entry));
      es <~ v2_decode_entries k';
      mret (inl (en :: es))
  end.

Definition v2_decode : D Message :=
  typ <~ v2_read 1;
  let typ := BE_Uint64 typ in
  if typ =? msgTypeLinkHeartbeat then mret (inl linkHeartbeatMessage)
  else if typ =? msgTypeAppEntries then
    d ← get;
    l <~ v2_read64;
    make_ok 48 (i64 l);;
    es <~ v2_decode_entries (Z.to_nat (i64 l));
    commit <~ v2_read64;
    mret (inl (mkMessage MsgApp local remote (dterm d) (dterm d) (dindex d) es commit zero_Snapshot false 0 None))
  else if typ =? msgTypeApp then
    size <~ v2_read64;
    make_ok 1 (i64 size);;
    b <~ v2_read (i64 size);
    m ← lift (MustUnmarshal (Message_Unmarshal b (msg MsgHup)));
    modify (fun d => mkV2Decoder (dr d) (mtTerm m) (last_index m));;
    mret (inl m)
  else mret (inr (BadStreamType typ)).
End decoders.

Definition readBytesLimit : Z := 512 * 1024 * 1024.

(** [messageDecoder], whose state is what is left to read. An error of [Unmarshal]
    is returned. *)
Definition msg_decodeLimit (numBytes : Z) : M bytes (Message + stream_error) :=
  b <~ ReadFull 8;
  let l := BE_Uint64 b in
  if numBytes <? l then mret (inr ErrExceedSizeLimit)
  else
    make_ok 1 (i64 l);;
    b <~ ReadFull (i64 l);
    match Message_Unmarshal b (msg MsgHup) with
    | DOk m => mret (inl m)
    | DErr e => mret (inr (ErrUnmarshal e))
    | DPanic => panic
    | DSpin => block
    end.

Definition msg_decode : M bytes (Message + stream_error) := msg_decodeLimit readBytesLimit.

(* ===================================================================== *)
(** ** Numbers                                                           *)
(* ===================================================================== *)

Lemma zlen_BE n : zlen (BE_PutUint64 n) = 8.
Proof. done. Qed.

Lemma BE_roundtrip n : 0 <= n < 2 ^ 64 -> BE_Uint64 (BE_PutUint64 n) = n.
Proof.
  intros Hn. unfold BE_PutUint64. let l := eval vm_compute in (seqZ 0 8) in change (seqZ 0 8) with l. cbn [fmap list_fmap BE_Uint64 fold_left].
  unfold BE_Uint64. cbn [fold_left]. rewrite !byteval_of_zbyte, !Z.shiftr_div_pow2 by lia. Z.div_mod_to_equations. lia.
Qed.

Lemma ReadFull_front x r n : zlen x = n -> ReadFull n (x ++ r) = Ret (inl x, r).
Proof.
  intros <-. pose proof (zlen_nonneg x). unfold ReadFull. destruct (Z.leb_spec (zlen x) 0).
  - destruct x; [done|]. unfold zlen in *. cbn [length] in *. lia.
  - destruct (x ++ r) as [|c s] eqn:E; [apply app_eq_nil in E as [-> _]; unfold zlen in *; cbn [length] in *; lia|]. rewrite <- E, zlen_app.
    pose proof (zlen_nonneg r). rewrite (proj2 (Z.ltb_ge _ _)) by lia. unfold zlen. by rewrite Nat2Z.id, take_app_length, drop_app_length.
Qed.

(* ===================================================================== *)
(** ** What is written, and that it is read                              *)
(* ===================================================================== *)

(** A message that is within the limits of the format and of memory. *)
Definition msg_ok (m : Message) : Prop := fields_ok m /\ Message_Size m <= 2 ^ 42.

Lemma msg_wire_ok m : msg_ok m -> wire_ok m.
Proof. intros [Hf Hs]. apply Message_wire_ok. split; [done|]. unfold MaxInt64. lia. Qed.

Lemma msg_zlen m : msg_ok m -> zlen (wire m) = Message_Size m /\ 0 <= Message_Size m <= 2 ^ 42.
Proof.
  intros Hm. pose proof (wire_size m (msg_wire_ok m Hm)) as Hw. pose proof (size_nonneg m) as H0. destruct Hm as [_ Hs].
  rewrite <- Message_size_of in Hw, H0. split; [exact Hw|]. split; [exact H0|exact Hs].
Qed.

Lemma msg_Marshal m : msg_ok m -> Message_Marshal m = Ret (wire m).
Proof. intros Hm. unfold Message_Marshal. rewrite <- (proj1 (msg_zlen m Hm)). apply marshal_eq. exact (wire_fills m (msg_wire_ok m Hm)). Qed.

Lemma sum_Size_length {A} (f : A -> Z) l : (forall a, 1 <= f a) -> zlen l <= sum_Size f l.
Proof. intros Hf. induction l as [|a l IH]; [done|]. rewrite zlen_cons. cbn. specialize (Hf a). unfold sum_Size in IH. lia. Qed.

Lemma Entry_size_of (e : Entry) : Entry_Size e = size_of e.
Proof. exact eq_refl. Qed.

Lemma entry_nested_pos e : 1 <= nested_Size (Entry_Size e).
Proof. rewrite Entry_size_of. unfold nested_Size. pose proof (sovRaft_pos (size_of e)). pose proof (size_nonneg e). lia. Qed.

Lemma entry_nested_le e b : nested_Size (Entry_Size e) <= b -> size_of e <= b.
Proof. rewrite Entry_size_of. pose proof (nested_Size_le (size_of e)). lia. Qed.

Lemma entries_sum m b : Message_Size m <= b -> sum_Size (fun e => nested_Size (Entry_Size e)) (mtEntries m) <= b.
Proof. unfold Message_Size. intros Hs. sizes_pos. destruct (Message_Size_pos m). lia. Qed.

Lemma entries_fit_msg m : msg_ok m ->
  48 * zlen (mtEntries m) <= maxAlloc /\ Forall (fun e => wire_ok e /\ size_of e <= 2 ^ 42) (mtEntries m).
Proof.
  intros Hm. pose proof (proj1 (Message_parts_ok m (msg_wire_ok m Hm))) as Hw. pose proof (entries_sum m _ (proj2 Hm)) as Hsum. split.
  - pose proof (sum_Size_length _ (mtEntries m) entry_nested_pos). unfold maxAlloc. lia.
  - apply Forall_and. split; [done|]. apply (sum_Size_forall (fun e => nested_Size (Entry_Size e)) _ (mtEntries m) (2 ^ 42)); [|exact Hsum|].
    + intros e. pose proof (entry_nested_pos e). lia.
    + intros e _. apply entry_nested_le.
Qed.

(** The bytes of a message on the stream of appends, after an encoder or a decoder
    has got to a term and an index, and where it gets to. *)
Definition continues '((t, i) : Z * Z) (m : Message) : bool := (i =? mtIndex m) && (t =? mtLogTerm m) && (mtLogTerm m =? mtTerm m).

Definition framed (x : bytes) : bytes := BE_PutUint64 (zlen x) ++ x.

Definition v2_wire (st : Z * Z) (m : Message) : bytes :=
  if isLinkHeartbeatMessage m then [zbyte msgTypeLinkHeartbeat]
  else if continues st m then
    [zbyte msgTypeAppEntries] ++ BE_PutUint64 (zlen (mtEntries m)) ++
    concat ((fun e => framed (wire e)) <$> mtEntries m) ++ BE_PutUint64 (mtCommit m)
  else [zbyte msgTypeApp] ++ framed (wire m).

Definition next_index '((t, i) : Z * Z) : Z * Z := (t, u64 (i + 1)).

Definition v2_next (st : Z * Z) (m : Message) : Z * Z :=
  if isLinkHeartbeatMessage m then st
  else if continues st m then Nat.iter (length (mtEntries m)) next_index st
  else (mtTerm m, last_index m).

Section encoding.
Context {W : Type} `{!Writer W, !WriterLaws W}.
Implicit Types (e : msgAppV2Encoder W).

Definition enc_ok e : Prop := zlen (v2buf e) = msgAppV2BufSize.
Definition enc_st e : Z * Z := (v2term e, v2index e).

(** A call that writes some bytes and changes term and index. *)
Definition sends (m : M (msgAppV2Encoder W) bool) (x : bytes) (f : Z * Z -> Z * Z) : Prop := forall e, enc_ok e ->
  exists e' cs, m e = Ret (false, e') /\ enc_ok e' /\ v2w e' = takes_all cs (v2w e) /\ concat cs = x /\ enc_st e' = f (enc_st e).

Lemma sends_write p : sends (v2_write p) p id.
Proof.
  intros e He. exists (mkV2Encoder (takes p (v2w e)) (v2term e) (v2index e) (v2buf e)), [p]. unfold v2_write. rewrite write_takes.
  split_and!; [done|done|done| |done]. cbn. apply app_nil_r.
Qed.

Lemma sends_then m1 m2 x y f g : sends m1 x f -> sends m2 y g -> sends (unless_error m1 m2) (x ++ y) (fun st => g (f st)).
Proof.
  intros H1 H2 e He. destruct (H1 e He) as (e1 & c1 & E1 & He1 & W1 & <- & S1). destruct (H2 e1 He1) as (e2 & c2 & E2 & He2 & W2 & <- & S2).
  exists e2, (c1 ++ c2). unfold unless_error. cbv [mbind M_bind]. rewrite E1. split_and!; [done|done| |by rewrite concat_app|by rewrite S2, S1].
  rewrite W2, W1. unfold takes_all. by rewrite fold_left_app.
Qed.

Lemma sends_mret : sends (mret false) [] id.
Proof. intros e He. by exists e, []. Qed.

Lemma sends_jump t i : sends (modify (fun e => mkV2Encoder (v2w e) (t (enc_st e)) (i (enc_st e)) (v2buf e));; mret false) [] (fun st => (t st, i st)).
Proof. intros e He. by eexists _, []. Qed.

Lemma sends_lift {A} (o : outcome A) a k x f : o = Ret a -> sends (k a) x f -> sends (y ← lift o; k y) x f.
Proof. intros -> H e He. exact (H e He). Qed.

Lemma sends_eq m x y f g : sends m x f -> x = y -> (forall st, f st = g st) -> sends m y g.
Proof. intros H <- Hf e He. destruct (H e He) as (e' & cs & ? & ? & ? & ? & E). exists e', cs. by rewrite E, Hf. Qed.

Lemma zslice_to (b : bytes) n : 0 <= n <= zlen b -> zslice 0 n b = Ret (take (Z.to_nat n) b).
Proof. intros Hn. unfold zslice. zb. by rewrite Z.sub_0_r, drop_0. Qed.

Lemma MarshalTo_eq en e : wire_ok en -> enc_ok e -> size_of en < msgAppV2BufSize ->
  exists b, v2_MarshalTo en e = Ret (tt, mkV2Encoder (v2w e) (v2term e) (v2index e) (wire en ++ b)) /\ zlen (wire en ++ b) = msgAppV2BufSize.
Proof.
  intros Hen He Hs. exists (drop (length (wire en)) (v2buf e)). pose proof (wire_size en Hen) as Hz. pose proof (size_nonneg en) as H0.
  unfold v2_MarshalTo. rewrite Entry_size_of, <- Hz in *. unfold enc_ok in He.
  cbv [mbind outcome_bind]. rewrite zslice_to by lia.
  destruct (wire_fills en Hen (take (Z.to_nat (zlen (wire en))) (v2buf e))) as (fr & Hfr & E).
  { rewrite zlen_take by lia. lia. }
  assert (fr = []) as ->. { apply length_zero_iff_nil. rewrite zlen_take in Hfr by lia. unfold zlen in *. lia. }
  change (Entry_MarshalToSizedBuffer en) with (fill en). rewrite E. cbn [app]. unfold zlen at 1. rewrite Nat2Z.id. split; [done|].
  rewrite zlen_app. unfold zlen in *. rewrite length_drop. lia.
Qed.

Lemma sends_entry en : wire_ok en -> size_of en <= 2 ^ 42 -> sends (v2_entry en) (framed (wire en)) next_index.
Proof.
  intros Hen Hs. pose proof (wire_size en Hen) as Hz. pose proof (size_nonneg en) as H0. unfold v2_entry. rewrite Entry_size_of.
  eapply sends_eq; [apply sends_then; [apply sends_write|apply sends_then; [|exact (sends_jump fst (fun st => u64 (st.2 + 1)))]]| |].
  - instantiate (2 := wire en). instantiate (1 := id). destruct (Z.ltb_spec (size_of en) msgAppV2BufSize) as [Hlt|Hge].
    + intros e He. destruct (MarshalTo_eq en e Hen He Hlt) as (b & E & Hb).
      destruct (sends_write (wire en) (mkV2Encoder (v2w e) (v2term e) (v2index e) (wire en ++ b)) Hb) as (e' & cs & E' & ?).
      exists e', cs. split; [|done]. cbv [mbind M_bind gets lift]. rewrite E. cbn [v2buf]. by rewrite <- Hz, zslice_front.
    + apply (sends_lift _ (wire en)); [|apply sends_write]. unfold Entry_Marshal. rewrite Entry_size_of, <- Hz. apply marshal_eq, (wire_fills en Hen).
  - unfold framed. rewrite app_nil_r, Hz, u64_id by lia. done.
  - by intros [t i].
Qed.

Lemma sends_entries (es : list Entry) : Forall (fun en => wire_ok en /\ size_of en <= 2 ^ 42) es ->
  sends (v2_entries es) (concat ((fun en => framed (wire en)) <$> es)) (Nat.iter (length es) next_index).
Proof.
  induction 1 as [|en es [Hen Hs] _ IH]; [exact sends_mret|].
  cbn [v2_entries foldr fmap list_fmap concat length]. eapply sends_eq; [apply sends_then; [by apply sends_entry|exact IH]|done|].
  intros st. symmetry. exact (Nat.iter_succ_r (length es) _ next_index st).
Qed.

Lemma encode_sends m : msg_ok m -> forall e, enc_ok e ->
  exists e' cs, v2_encode m e = Ret (false, e') /\ enc_ok e' /\ v2w e' = takes_all cs (v2w e) /\ concat cs = v2_wire (enc_st e) m /\
    enc_st e' = v2_next (enc_st e) m.
Proof.
  intros Hm e He. destruct (msg_zlen m Hm) as [Hz H0]. destruct (entries_fit_msg m Hm) as [Hl Hes].
  pose proof (zlen_nonneg (mtEntries m)). unfold maxAlloc in Hl. unfold v2_encode, v2_wire, v2_next. change (continues (enc_st e) m) with
    ((v2index e =? mtIndex m) && (v2term e =? mtLogTerm m) && (mtLogTerm m =? mtTerm m)).
  cbv [mbind M_bind get]. destruct (isLinkHeartbeatMessage m); [exact (sends_write _ e He)|]. destruct (_ && _).
  - refine (sends_eq _ _ _ _ (Nat.iter (length (mtEntries m)) next_index) (sends_then _ _ _ _ _ _ (sends_write _) (sends_then _ _ _ _ _ _ (sends_write _)
      (sends_then _ _ _ _ _ _ (sends_entries _ Hes) (sends_write _)))) _ _ e He); [by rewrite u64_id by lia|done].
  - refine (sends_eq _ _ _ _ (fun _ => (mtTerm m, last_index m)) (sends_then _ _ _ _ _ _ (sends_write _) (sends_then _ _ _ _ _ _ (sends_write _)
      (sends_then _ _ _ _ _ _ (sends_lift _ _ _ _ _ (msg_Marshal m Hm) (sends_write _)) (sends_jump (fun _ => mtTerm m) (fun _ => last_index m))))) _ _ e He).
    + unfold framed. by rewrite app_nil_r, Hz, u64_id by lia.
    + done.
Qed.
End encoding.

(** A call that reads some bytes as a value and changes term and index. *)
Definition reads {A} (m : M msgAppV2Decoder (A + stream_error)) (x : bytes) (a : A) (f : Z * Z -> Z * Z) : Prop :=
  forall r t i, m (mkV2Decoder (x ++ r) t i) = Ret (inl a, mkV2Decoder r (f (t, i)).1 (f (t, i)).2).

Lemma reads_bytes x n : zlen x = n -> reads (v2_read n) x x id.
Proof. intros Hx r t i. unfold v2_read, zoom. cbn [view dr_lens dr]. by rewrite ReadFull_front. Qed.

Lemma reads_step {A B} (m : M msgAppV2Decoder (A + stream_error)) (k : A -> M msgAppV2Decoder (B + stream_error)) x a f r t i :
  reads m x a f -> try_bind m k (mkV2Decoder (x ++ r) t i) = k a (mkV2Decoder r (f (t, i)).1 (f (t, i)).2).
Proof. intros Hm. unfold try_bind. cbv [mbind M_bind]. by rewrite Hm. Qed.

Lemma reads_then {A B} (m : M msgAppV2Decoder (A + stream_error)) (k : A -> M msgAppV2Decoder (B + stream_error)) x y a b f g :
  reads m x a f -> reads (k a) y b g -> reads (try_bind m k) (x ++ y) b (fun st => g (f st)).
Proof.
  intros Hm Hk r t i. rewrite <- app_assoc, (reads_step _ _ _ _ _ _ _ _ Hm), Hk. by rewrite <- surjective_pairing.
Qed.

Lemma reads_ret {A} (a : A) : reads (mret (inl a)) [] a id.
Proof. done. Qed.

Lemma reads_eq {A} (m : M msgAppV2Decoder (A + stream_error)) x y a b f g :
  reads m x a f -> x = y -> a = b -> (forall st, f st = g st) -> reads m y b g.
Proof. intros H <- <- Hf r t i. by rewrite H, Hf. Qed.

Lemma reads_64 n : 0 <= n < 2 ^ 64 -> reads v2_read64 (BE_PutUint64 n) n id.
Proof.
  intros Hn. exact (reads_eq _ _ _ _ _ _ _ (reads_then _ _ _ _ _ _ _ _ (reads_bytes (BE_PutUint64 n) 8 (zlen_BE n)) (reads_ret _))
    (app_nil_r _) (BE_roundtrip n Hn) (fun _ => eq_refl)).
Qed.

Lemma get_step {S B} (k : S -> M S B) s : (x ← get; k x) s = k s s.
Proof. done. Qed.

Lemma make_then {S B} elem n (k : M S B) s : 0 <= n -> elem * n <= maxAlloc -> (make_ok elem n;; k) s = k s.
Proof. intros H1 H2. unfold make_ok. rewrite (proj2 (Z.ltb_ge n 0)), (proj2 (Z.ltb_ge _ _)) by lia. done. Qed.

Lemma reads_frame x : zlen x <= 2 ^ 42 ->
  reads (if zlen x <? msgAppV2BufSize then v2_read (zlen x) else make_ok 1 (i64 (zlen x));; v2_read (i64 (zlen x))) x x id.
Proof.
  intros Hx. pose proof (zlen_nonneg x). destruct (_ <? _); [by apply reads_bytes|]. intros r t i.
  rewrite i64_id by (unfold in_i64, MinInt64, MaxInt64; lia). rewrite make_then by (unfold maxAlloc; lia). by apply reads_bytes.
Qed.

Lemma entry_unmarshal (en : Entry) : wire_ok en -> MustUnmarshal (Entry_Unmarshal (wire en) zero_entry) = Ret en.
Proof. intros H. pose proof (codec_unmarshal en H) as E. change (Entry_Unmarshal (wire en) zero_entry = DOk en) in E. by rewrite E. Qed.

Lemma reads_entries (es : list Entry) : Forall (fun en => wire_ok en /\ size_of en <= 2 ^ 42) es ->
  reads (v2_decode_entries (length es)) (concat ((fun en => framed (wire en)) <$> es)) es (Nat.iter (length es) next_index).
Proof.
  induction 1 as [|en es [Hen Hs] _ IH]; [apply reads_ret|]. pose proof (wire_size en Hen) as Hz. pose proof (zlen_nonneg (wire en)).
  cbn [length v2_decode_entries fmap list_fmap concat]. unfold framed at 1. rewrite <- app_assoc.
  eapply reads_eq; [eapply reads_then; [apply (reads_64 (zlen (wire en))); lia|eapply reads_then; [apply (reads_frame (wire en)); lia|]]|done|done|].
  - instantiate (1 := fun st => Nat.iter (length es) next_index (next_index st)). intros r t i. cbv [mbind M_bind modify lift].
    rewrite entry_unmarshal by done. unfold try_bind. cbv [mbind M_bind]. cbn [dr dterm dindex].
    by rewrite IH.
  - intros st. symmetry. exact (Nat.iter_succ_r (length es) _ next_index st).
Qed.

Lemma msg_unmarshal (m : Message) : msg_ok m -> Message_Unmarshal (wire m) (msg MsgHup) = DOk m.
Proof. intros H. exact (codec_unmarshal m (msg_wire_ok m H)). Qed.

(** What a leader sends to a follower on the stream of appends: [maybeSendAppend]
    of raft sets no other field. *)
Definition append_to (from to : Z) (m : Message) : Prop :=
  exists t lt i es c, m = mkMessage MsgApp to from t lt i es c zero_Snapshot false 0 None.

Lemma decode_reads from to m t i r : msg_ok m -> m = linkHeartbeatMessage \/ append_to from to m ->
  v2_decode to from (mkV2Decoder (v2_wire (t, i) m ++ r) t i) = Ret (inl m, mkV2Decoder r (v2_next (t, i) m).1 (v2_next (t, i) m).2).
Proof.
  intros Hm Hk. destruct (msg_zlen m Hm) as [Hz H0]. destruct (entries_fit_msg m Hm) as [Hl Hes]. unfold v2_wire, v2_next.
  destruct Hk as [->|(tm & lt & ix & es & c & ->)].
  { unfold v2_decode. change (isLinkHeartbeatMessage linkHeartbeatMessage) with true. cbv iota.
    by rewrite (reads_step _ _ _ _ id _ _ _ (reads_bytes [zbyte msgTypeLinkHeartbeat] 1 eq_refl)). }
  change (isLinkHeartbeatMessage (mkMessage MsgApp to from tm lt ix es c zero_Snapshot false 0 None)) with false. cbv iota.
  set (m := mkMessage MsgApp to from tm lt ix es c zero_Snapshot false 0 None) in *. pose proof (zlen_nonneg es) as Hn.
  assert (Hcm : is_u64 c) by apply Hm.
  change (mtEntries m) with es in *. unfold maxAlloc in Hl. destruct (continues (t, i) m) eqn:Hc.
  - unfold continues in Hc. apply andb_true_iff in Hc as [Hc E3%Z.eqb_eq]. apply andb_true_iff in Hc as [E1%Z.eqb_eq E2%Z.eqb_eq].
    subst m. cbn [mtIndex mtLogTerm mtTerm mtCommit] in *. subst ix lt tm.
    unfold v2_decode. rewrite <- !app_assoc, (reads_step _ _ _ _ id _ _ _ (reads_bytes [zbyte msgTypeAppEntries] 1 eq_refl)).
    change (BE_Uint64 [zbyte msgTypeAppEntries]) with 1. cbv zeta. change (1 =? msgTypeLinkHeartbeat) with false. change (1 =? msgTypeAppEntries) with true.
    cbv iota. rewrite get_step, (reads_step _ _ _ _ _ _ _ _ (reads_64 (zlen es) ltac:(lia))).
    rewrite i64_id by (unfold in_i64, MinInt64, MaxInt64; lia). rewrite make_then by (unfold maxAlloc; lia).
    unfold zlen at 1. rewrite Nat2Z.id. rewrite (reads_step _ _ _ _ _ _ _ _ (reads_entries es Hes)).
    rewrite (reads_step _ _ _ _ _ _ _ _ (reads_64 c Hcm)). by destruct (Nat.iter _ _ _).
  - clearbody m. assert (Hwl : 0 <= zlen (wire m) <= 2 ^ 42) by (rewrite Hz; exact H0). clear Hz H0. pose proof (reads_64 (zlen (wire m))) as H64.
    unfold v2_decode, framed. rewrite <- !app_assoc, (reads_step _ _ _ _ id _ _ _ (reads_bytes [zbyte msgTypeApp] 1 eq_refl)).
    change (BE_Uint64 [zbyte msgTypeApp]) with 2. cbv zeta. change (2 =? msgTypeLinkHeartbeat) with false. change (2 =? msgTypeAppEntries) with false.
    change (2 =? msgTypeApp) with true. cbv iota. rewrite (reads_step _ _ _ _ _ _ _ _ (H64 ltac:(lia))).
    rewrite i64_id by (unfold in_i64, MinInt64, MaxInt64; lia). rewrite make_then by (unfold maxAlloc; lia).
    rewrite (reads_step _ _ _ _ _ _ _ _ (reads_bytes (wire m) _ eq_refl)). cbv [mbind M_bind lift]. rewrite msg_unmarshal by done. done.
Qed.

(* ===================================================================== *)
(** ** The stream reader (stream.go)                                     *)
(* ===================================================================== *)

Definition recvBufSize : Z := 4096.
Definition maxPendingProposals : Z := 4096.

(** The channels that received messages go to. *)
Record Receiver : Type := mkReceiver { recvc : list Message; propc : list Message }.

(** A send on a buffered channel that does not wait: whether there was room. *)
Definition try_send {A} (cap : Z) (x : A) (c : list A) : list A * bool := if zlen c <? cap then (c ++ [x], true) else (c, false).

Definition receive (m : Message) (c : Receiver) : Receiver :=
  if bool_decide (mtType m = MsgProp) then mkReceiver (recvc c) (try_send maxPendingProposals m (propc c)).1
  else mkReceiver (try_send recvBufSize m (recvc c)).1 (propc c).

(** The loop of [decodeLoop] with the decoder of the stream, up to the error that
    ends it; every message has at least a byte. [paused] may change from one message
    to the next. *)
Fixpoint decodeLoop {R} (decode : M R (Message + stream_error)) (paused : nat -> bool) (fuel : nat) : M (R * Receiver) stream_error :=
  match fuel with
  | O => block
  | S fuel' => fun '(r, c) =>
      '(x, r) ← decode r;
      match x with
      | inr e => Ret (e, (r, c))
      | inl m =>
          decodeLoop decode paused fuel'
            (r, if paused fuel' then c else if isLinkHeartbeatMessage m then c else receive m c)
      end
  end.

(* ===================================================================== *)
(** ** What is encoded on a stream is decoded from it                    *)
(* ===================================================================== *)

Definition encode_all {S} (encode : Message -> M S bool) (ms : list Message) : M S bool :=
  foldr (fun m k => unless_error (encode m) k) (mret false) ms.

(** The messages for raft, and what a receiver has after them. *)
Definition for_raft (ms : list Message) : list Message := filter (fun m => isLinkHeartbeatMessage m = false) ms.
Definition is_prop (m : Message) : Prop := mtType m = MsgProp.
#[export] Instance is_prop_dec m : Decision (is_prop m) := decide_rel _ _ _.

Definition received_by (c : Receiver) (ms : list Message) : Receiver :=
  mkReceiver (recvc c ++ filter (fun m => ~ is_prop m) ms) (propc c ++ filter is_prop ms).

Definition room_for (c : Receiver) (ms : list Message) : Prop :=
  zlen (recvc c) + zlen ms <= recvBufSize /\ zlen (propc c) + zlen ms <= maxPendingProposals.

Lemma receive_eq m c ms : room_for c (m :: ms) -> received_by (receive m c) ms = received_by c (m :: ms) /\ room_for (receive m c) ms.
Proof.
  intros [H1 H2]. rewrite zlen_cons in *. pose proof (zlen_nonneg ms). unfold receive, received_by, room_for, try_send. rewrite !filter_cons.
  unfold is_prop in *. destruct (decide (mtType m = MsgProp)) as [E|E].
  - rewrite (bool_decide_eq_true_2 _ E), (proj2 (Z.ltb_lt _ _)) by lia. cbn [recvc propc fst]. rewrite (decide_False (P := ~ _)) by tauto.
    rewrite <- app_assoc, zlen_app. cbn. split; [done|]. unfold zlen in *. cbn in *. lia.
  - rewrite (bool_decide_eq_false_2 _ E), (proj2 (Z.ltb_lt _ _)) by lia. cbn [recvc propc fst]. rewrite (decide_True (P := ~ _)) by done.
    rewrite <- app_assoc, zlen_app. cbn. split; [done|]. unfold zlen in *. cbn in *. lia.
Qed.

Section stream.
Context {R : Type} (decode : M R (Message + stream_error)).

(** A reader at which these messages arrive, and then the end of the stream. *)
Inductive arrives : list Message -> R -> R -> Prop :=
| arrives_end r r' : decode r = Ret (inr EOF, r') -> arrives [] r r'
| arrives_msg m ms r r1 r' : decode r = Ret (inl m, r1) -> arrives ms r1 r' -> arrives (m :: ms) r r'.

Lemma decodeLoop_arrives ms r r' c fuel : arrives ms r r' -> room_for c (for_raft ms) -> (length ms < fuel)%nat ->
  decodeLoop decode (fun _ => false) fuel (r, c) = Ret (EOF, (r', received_by c (for_raft ms))).
Proof.
  intros H. revert c fuel. induction H as [r r' E|m ms r r1 r' E _ IH]; intros c [|fuel] Hroom Hf; try (cbn in Hf; lia);
    cbn [decodeLoop]; cbv [mbind outcome_bind]; rewrite E.
  - unfold received_by. cbn. rewrite !app_nil_r. by destruct c.
  - unfold for_raft in *. rewrite filter_cons in *. cbn in Hf. destruct (isLinkHeartbeatMessage m).
    + rewrite decide_False in * by done. apply IH; [done|lia].
    + rewrite decide_True in * by done. destruct (receive_eq m c _ Hroom) as [<- Hr]. apply IH; [done|lia].
Qed.
End stream.

Fixpoint v2_wires (st : Z * Z) (ms : list Message) : bytes :=
  match ms with [] => [] | m :: ms' => v2_wire st m ++ v2_wires (v2_next st m) ms' end.

(** A message that the stream of appends can carry from a node to another one, and
    one that the general stream can. *)
Definition v2_sendable (from to : Z) (m : Message) : Prop := msg_ok m /\ (m = linkHeartbeatMessage \/ append_to from to m).
Definition sendable (m : Message) : Prop := msg_ok m /\ Message_Size m <= readBytesLimit.

Lemma v2_wire_pos st m : (1 <= length (v2_wire st m))%nat.
Proof. unfold v2_wire. destruct (isLinkHeartbeatMessage m); [done|]. destruct (continues st m); cbn; lia. Qed.

Lemma v2_wires_length ms st : (length ms <= length (v2_wires st ms))%nat.
Proof.
  revert st. induction ms as [|m ms IH]; intros st; [done|]. cbn [v2_wires length]. rewrite length_app.
  pose proof (v2_wire_pos st m). specialize (IH (v2_next st m)). lia.
Qed.

Lemma v2_arrives from to ms t i : Forall (v2_sendable from to) ms ->
  exists r', arrives (v2_decode to from) ms (mkV2Decoder (v2_wires (t, i) ms) t i) r'.
Proof.
  intros H. revert t i. induction H as [|m ms [Hm Hk] _ IH]; intros t i.
  - exists (mkV2Decoder [] t i). by constructor.
  - destruct (v2_next (t, i) m) as [t' i'] eqn:En. destruct (IH t' i') as [r' Hr]. exists r'. eapply arrives_msg; [|exact Hr].
    cbn [v2_wires]. rewrite (decode_reads from to m t i _ Hm Hk), En. done.
Qed.

Lemma v2_encode_all {W : Type} `{!Writer W, !WriterLaws W} ms (e : msgAppV2Encoder W) : Forall msg_ok ms -> enc_ok e ->
  exists e' cs, encode_all v2_encode ms e = Ret (false, e') /\ enc_ok e' /\ v2w e' = takes_all cs (v2w e) /\ concat cs = v2_wires (enc_st e) ms.
Proof.
  intros H. revert e. induction H as [|m ms Hm _ IH]; intros e He; [by exists e, []|].
  destruct (encode_sends m Hm e He) as (e1 & c1 & E1 & He1 & W1 & C1 & S1). destruct (IH e1 He1) as (e2 & c2 & E2 & He2 & W2 & C2).
  exists e2, (c1 ++ c2). cbn [encode_all foldr]. unfold unless_error at 1. cbv [mbind M_bind]. rewrite E1. split_and!; [exact E2|done| |].
  - rewrite W2, W1. unfold takes_all. by rewrite fold_left_app.
  - cbn [v2_wires]. by rewrite concat_app, C1, C2, S1.
Qed.

Lemma new_enc_ok {W : Type} (w : W) : enc_ok (newMsgAppV2Encoder w).
Proof. unfold enc_ok, newMsgAppV2Encoder. cbn [v2buf]. unfold zlen. rewrite length_replicate. unfold msgAppV2BufSize. lia. Qed.

Lemma msg_encode_all {W : Type} `{!Writer W, !WriterLaws W} ms (w : W) : Forall msg_ok ms ->
  exists cs, encode_all msg_encode ms w = Ret (false, takes_all cs w) /\ concat cs = concat ((fun m => framed (wire m)) <$> ms).
Proof.
  intros H. revert w. induction H as [|m ms Hm _ IH]; intros w; [by exists []|]. destruct (msg_zlen m Hm) as [Hz H0].
  destruct (IH (takes_all [BE_PutUint64 (u64 (Message_Size m)); wire m] w)) as (cs & E & C).
  exists ([BE_PutUint64 (u64 (Message_Size m)); wire m] ++ cs). cbn [encode_all foldr]. unfold msg_encode, msg_write, unless_error at 1 2.
  cbv [mbind M_bind lift]. rewrite write_takes, msg_Marshal, write_takes by done. split.
  - unfold takes_all in *. rewrite fold_left_app. exact E.
  - rewrite concat_app, C. cbn [fmap list_fmap concat app]. unfold framed at 2. by rewrite Hz, u64_id, app_nil_r, <- !app_assoc by lia.
Qed.

Lemma msg_decode_frame m r : sendable m -> msg_decode (framed (wire m) ++ r) = Ret (inl m, r).
Proof.
  intros [Hm Hs]. destruct (msg_zlen m Hm) as [Hz H0]. unfold msg_decode, msg_decodeLimit, framed, try_bind. cbv [mbind M_bind].
  rewrite <- app_assoc, (ReadFull_front (BE_PutUint64 _) _ 8) by done. rewrite Hz, BE_roundtrip by lia. rewrite (proj2 (Z.ltb_ge _ _)) by done.
  rewrite i64_id by (unfold in_i64, MinInt64, MaxInt64; lia). unfold make_ok.
  rewrite (proj2 (Z.ltb_ge _ 0)), (proj2 (Z.ltb_ge _ _)) by (unfold maxAlloc; lia). cbv [orb mret M_ret].
  rewrite (ReadFull_front (wire m)) by done. by rewrite msg_unmarshal.
Qed.

Lemma msg_arrives ms : Forall sendable ms -> arrives msg_decode ms (concat ((fun m => framed (wire m)) <$> ms)) [].
Proof.
  induction 1 as [|m ms Hm _ IH]; [by constructor|]. eapply arrives_msg; [|exact IH]. cbn [fmap list_fmap concat]. by apply msg_decode_frame.
Qed.

Lemma msg_frames_length ms : (length ms <= length (concat ((fun m : Message => framed (wire m)) <$> ms)))%nat.
Proof. induction ms as [|m ms IH]; [done|]. cbn [fmap list_fmap concat length]. unfold framed at 1. rewrite !length_app. change (length (BE_PutUint64 _)) with 8%nat. lia. Qed.

(* ===================================================================== *)
(** ** A connection that can fail                                        *)
(* ===================================================================== *)

Section failing.
Context {W : Type} `{!Writer W}.
Implicit Types (e : msgAppV2Encoder W).

(** Whatever the connection does, the call returns and the encoder stays usable. *)
Definition returns_ok (m : M (msgAppV2Encoder W) bool) : Prop := forall e, enc_ok e -> wp false m (fun _ => enc_ok) e.

Lemma returns_write p : returns_ok (v2_write p).
Proof. intros e He. unfold wp, v2_write. by destruct (write p (v2w e)) as [[n err] w]. Qed.

Lemma returns_then m1 m2 : returns_ok m1 -> returns_ok m2 -> returns_ok (unless_error m1 m2).
Proof.
  intros H1 H2 e He. apply wp_bind. eapply wp_mono; [|by apply H1]. intros [] e' He'; [by apply wp_ret|by apply H2].
Qed.

Lemma returns_lift {A} (o : outcome A) a k : o = Ret a -> returns_ok (k a) -> returns_ok (y ← lift o; k y).
Proof. intros -> H e He. exact (H e He). Qed.

Lemma returns_jump (f : msgAppV2Encoder W -> msgAppV2Encoder W) : (forall e, v2buf (f e) = v2buf e) -> returns_ok (modify f;; mret false).
Proof. intros Hf e He. unfold enc_ok in *. apply wp_bind, wp_modify, wp_ret. by rewrite Hf. Qed.

Lemma returns_entry en : wire_ok en -> returns_ok (v2_entry en).
Proof.
  intros Hen. pose proof (wire_size en Hen) as Hz. unfold v2_entry. rewrite Entry_size_of.
  apply returns_then; [apply returns_write|]. apply returns_then; [|by apply returns_jump].
  destruct (Z.ltb_spec (size_of en) msgAppV2BufSize) as [Hlt|Hge].
  - intros e He. destruct (MarshalTo_eq en e Hen He Hlt) as (b & E & Hb). apply wp_bind. apply (wp_eval _ _ _ _ _ _ E).
    apply wp_bind, wp_gets, wp_bind. cbn [v2buf]. rewrite <- Hz, zslice_front. apply (wp_eval _ _ _ _ _ _ eq_refl). by apply returns_write.
  - apply (returns_lift _ (wire en)); [|apply returns_write]. unfold Entry_Marshal. rewrite Entry_size_of, <- Hz. apply marshal_eq, (wire_fills en Hen).
Qed.

Lemma returns_entries es : Forall wire_ok es -> returns_ok (v2_entries es).
Proof.
  induction 1 as [|en es Hen _ IH]; [by intros e He; apply wp_ret|]. cbn [v2_entries foldr]. by apply returns_then; [apply returns_entry|].
Qed.

Lemma v2_encode_returns m : msg_ok m -> returns_ok (v2_encode m).
Proof.
  intros Hm e He. apply wp_bind, wp_get. destruct (isLinkHeartbeatMessage m); [by apply returns_write|]. destruct (_ && _); revert e He.
  - repeat first [apply returns_then | apply returns_write]. apply returns_entries, (Message_parts_ok m (msg_wire_ok m Hm)).
  - do 2 (apply returns_then; [apply returns_write|]). apply returns_then; [|by apply returns_jump].
    apply (returns_lift _ (wire m)); [by apply msg_Marshal|apply returns_write].
Qed.

Lemma msg_encode_returns m w : msg_ok m -> wp false (msg_encode m) (fun _ _ => True) w.
Proof.
  intros Hm. unfold msg_encode. apply wp_bind. unfold wp at 1, msg_write. destruct (write _ w) as [[n []] w']; [by apply wp_ret|].
  apply wp_bind. rewrite msg_Marshal by done. apply (wp_eval _ _ _ _ _ _ eq_refl). unfold wp, msg_write. by destruct (write _ w') as [[? ?] ?].
Qed.
End failing.
