(* ===== verification/Transport.v ===== *)
(** * Transport: how messages get to the other nodes
    (src/etcd/server/etcdserver/api/rafthttp: transport.go, peer.go, remote.go,
    stream.go, pipeline.go, urlpick.go)

    The transport has a peer for every other node, and a peer two stream writers
    and a pipeline, each with a bounded queue. A message goes to one of the queues
    or is dropped and reported; a goroutine takes it from there. A connection is a
    [Writer]; what the calls report to raft is collected in order. The [select] that
    puts a message in a queue and the look-up of the queue are one step. Statistics,
    the probing of peers and the status that only log lines show are left out. *)

From S2P Require Import RespParser Prelude RaftPb RaftWire RaftCodec Quorum RaftStorage RaftLog Tracker ConfChange RaftNode RawNode PageWriter RaftStream.

Inductive report : Type :=
| ReportUnreachable (id : Z)
| ReportSnapshot (id : Z) (status : SnapshotStatus).

(* ===================================================================== *)
(** ** Addresses (urlpick.go)                                            *)
(* ===================================================================== *)

Record urlPicker : Type := mkPicker { urls : list bytes; picked : Z }.

Definition newURLPicker (us : list bytes) : urlPicker := mkPicker us 0.
Definition picker_update (us : list bytes) (p : urlPicker) : urlPicker := mkPicker us 0.

Definition picker_pick (p : urlPicker) : outcome bytes :=
  match znth (urls p) (picked p) with Some u => Ret u | None => Panic end.

Definition unreachable (u : bytes) : M urlPicker unit := fun p =>
  u' ← picker_pick p;
  Ret (tt, if beq u u' then mkPicker (urls p) (Z.rem (i64 (picked p + 1)) (zlen (urls p))) else p).

(* ===================================================================== *)
(** ** Stream writers (stream.go)                                        *)
(* ===================================================================== *)

Definition streamBufSize : Z := 4096.

Inductive streamType : Type := streamTypeMessage | streamTypeMsgAppV2.

Section transport.
Context {W : Type} `{!Writer W}.

Inductive streamEncoder : Type :=
| V2Encoder (e : msgAppV2Encoder W)
| MessageEncoder (w : W).

Definition stream_encode (m : Message) : M streamEncoder bool := fun enc =>
  match enc with
  | V2Encoder e => '(err, e) ← v2_encode m e; Ret (err, V2Encoder e)
  | MessageEncoder w => '(err, w) ← msg_encode m w; Ret (err, MessageEncoder w)
  end.

(** [run] has the channels [heartbeatc] and [msgc] exactly while [working] is set:
    both are set when a connection is attached and reset when it is closed. *)
Record streamWriter : Type := mkStreamWriter {
  sw_peerID : Z;
  working : bool;
  sw_msgc : list Message;
  sw_enc : option streamEncoder
}.

Definition startStreamWriter (id : Z) : streamWriter := mkStreamWriter id false [] None.

Definition closeUnlocked : M streamWriter (list report) := fun cw =>
  if negb (working cw) then Ret ([], cw)
  else Ret (if 0 <? zlen (sw_msgc cw) then [ReportUnreachable (sw_peerID cw)] else [],
            mkStreamWriter (sw_peerID cw) false [] (sw_enc cw)).

(** A call of the encoder, which exists since a connection was attached. *)
Definition with_encoder (m : Message) : M streamWriter bool := fun cw =>
  match sw_enc cw with
  | None => Panic
  | Some enc => '(err, enc) ← stream_encode m enc; Ret (err, mkStreamWriter (sw_peerID cw) (working cw) (sw_msgc cw) (Some enc))
  end.

(** A connection that is attached. *)
Definition attach (t : streamType) (conn : W) : M streamWriter (list report) :=
  rs ← closeUnlocked;
  modify (fun cw => mkStreamWriter (sw_peerID cw) true (sw_msgc cw) (Some (
    match t with streamTypeMsgAppV2 => V2Encoder (newMsgAppV2Encoder conn) | streamTypeMessage => MessageEncoder conn end)));;
  mret rs.

(** The other cases of the [select] in [run]: a tick and a message. One that is not
    enabled leaves everything as it is. *)
Inductive writer_event : Type :=
| Heartbeat
| NextMessage.

Definition run_event (ev : writer_event) : M streamWriter (list report) :=
  cw ← get;
  match ev with
  | Heartbeat =>
      if negb (working cw) then mret [] else
      err ← with_encoder linkHeartbeatMessage;
      if (err : bool) then closeUnlocked else mret []
  | NextMessage =>
      match working cw, sw_msgc cw with
      | true, m :: ms =>
          modify (fun cw => mkStreamWriter (sw_peerID cw) (working cw) ms (sw_enc cw));;
          err ← with_encoder m;
          if (err : bool) then rs ← closeUnlocked; mret (rs ++ [ReportUnreachable (mtTo m)]) else mret []
      | _, _ => mret []
      end
  end.

(* ===================================================================== *)
(** ** Pipelines (pipeline.go)                                           *)
(* ===================================================================== *)

Definition pipelineBufSize : Z := 64.

Record pipeline : Type := mkPipeline { pl_msgc : list Message; pl_running : bool }.

Definition pipeline_start : pipeline := mkPipeline [] true.

(** [stop] closes a channel, which panics the second time. *)
Definition pipeline_stop (p : pipeline) : outcome pipeline :=
  if pl_running p then Ret (mkPipeline (pl_msgc p) false) else Panic.

Definition isMsgApp (m : Message) : bool := bool_decide (mtType m = MsgApp).
Definition isMsgSnap (m : Message) : bool := bool_decide (mtType m = MsgSnap).

(** One message taken by one of the goroutines of [handle]; [post] says whether the
    request fails. *)
Definition pipeline_handle (post : bytes -> bool) : M pipeline (list report) := fun p =>
  match pl_running p, pl_msgc p with
  | true, m :: ms =>
      data ← Message_Marshal m;
      Ret (if post data then [ReportUnreachable (mtTo m)] ++ (if isMsgSnap m then [ReportSnapshot (mtTo m) SnapshotFailure] else [])
           else if isMsgSnap m then [ReportSnapshot (mtTo m) SnapshotFinish] else [],
           mkPipeline ms true)
  | _, _ => Ret ([], p)
  end.

(* ===================================================================== *)
(** ** Peers (peer.go) and remotes (remote.go)                           *)
(* ===================================================================== *)

(** [paused] is also that of the two stream readers. *)
Record peer : Type := mkPeer {
  p_id : Z;
  paused : bool;
  picker : urlPicker;
  msgAppV2Writer : streamWriter;
  writer : streamWriter;
  p_pipeline : pipeline
}.

Definition startPeer (us : list bytes) (id : Z) : peer :=
  mkPeer id false (newURLPicker us) (startStreamWriter id) (startStreamWriter id) pipeline_start.

Inductive chan_name : Type := streamAppV2 | streamMsg | pipelineMsg.

Definition pick (m : Message) (p : peer) : chan_name :=
  if isMsgSnap m then pipelineMsg
  else if working (msgAppV2Writer p) && isMsgApp m then streamAppV2
  else if working (writer p) then streamMsg
  else pipelineMsg.

Definition set_writers (v2 cw : streamWriter) (p : peer) : peer := mkPeer (p_id p) (paused p) (picker p) v2 cw (p_pipeline p).

Definition set_sw_msgc (ms : list Message) (cw : streamWriter) : streamWriter :=
  mkStreamWriter (sw_peerID cw) (working cw) ms (sw_enc cw).

(** The send on a channel of the peer, and whether there was room. *)
Definition put_message (c : chan_name) (m : Message) (p : peer) : bool * peer :=
  match c with
  | streamAppV2 =>
      let '(ms, ok) := try_send streamBufSize m (sw_msgc (msgAppV2Writer p)) in
      (ok, set_writers (set_sw_msgc ms (msgAppV2Writer p)) (writer p) p)
  | streamMsg =>
      let '(ms, ok) := try_send streamBufSize m (sw_msgc (writer p)) in
      (ok, set_writers (msgAppV2Writer p) (set_sw_msgc ms (writer p)) p)
  | pipelineMsg =>
      let '(ms, ok) := try_send pipelineBufSize m (pl_msgc (p_pipeline p)) in
      (ok, mkPeer (p_id p) (paused p) (picker p) (msgAppV2Writer p) (writer p) (mkPipeline ms (pl_running (p_pipeline p))))
  end.

Definition peer_send (m : Message) (p : peer) : list report * peer :=
  if paused p then ([], p)
  else
    let '(ok, p) := put_message (pick m p) m p in
    (if ok then [] else [ReportUnreachable (mtTo m)] ++ (if isMsgSnap m then [ReportSnapshot (mtTo m) SnapshotFailure] else []), p).

Definition set_paused (b : bool) (p : peer) : peer :=
  mkPeer (p_id p) b (picker p) (msgAppV2Writer p) (writer p) (p_pipeline p).
Definition Pause : peer -> peer := set_paused true.
Definition Resume : peer -> peer := set_paused false.

Definition peer_update (us : list bytes) (p : peer) : peer :=
  mkPeer (p_id p) (paused p) (picker_update us (picker p)) (msgAppV2Writer p) (writer p) (p_pipeline p).

Definition peer_stop (p : peer) : outcome (list report) :=
  '(rs1, _) ← closeUnlocked (msgAppV2Writer p);
  '(rs2, _) ← closeUnlocked (writer p);
  pipeline_stop (p_pipeline p);;
  Ret (rs1 ++ rs2).

(** A remote is its pipeline. *)
Definition remote_send (m : Message) (g : pipeline) : pipeline := mkPipeline (try_send pipelineBufSize m (pl_msgc g)).1 (pl_running g).
Definition remote_Pause : pipeline -> outcome pipeline := pipeline_stop.
Definition remote_Resume (g : pipeline) : pipeline := pipeline_start.

(* ===================================================================== *)
(** ** The transport (transport.go)                                      *)
(* ===================================================================== *)

(** The two maps are nil, here [None], before [Start] and after [Stop]. *)
Record Transport : Type := mkTransport {
  remotes : option (gmap Z pipeline);
  peers : option (gmap Z peer);
  reports : list report
}.

#[local] Abbreviation T := (M Transport).

(** [types.NewURLs]; the logger is always set, so that its error is a panic. *)
Context {rt : GoRuntime} (NewURLs : list bytes -> option (list bytes)).

Definition nil_lookup {V} (id : Z) (m : option (gmap Z V)) : option V := m ≫= lookup id.

Definition set_peers (ps : option (gmap Z peer)) (t : Transport) : Transport := mkTransport (remotes t) ps (reports t).
Definition set_remotes (gs : option (gmap Z pipeline)) (t : Transport) : Transport := mkTransport gs (peers t) (reports t).
Definition add_reports (rs : list report) (t : Transport) : Transport := mkTransport (remotes t) (peers t) (reports t ++ rs).

(** Assignments to an element of a map that has it. *)
Definition put_peer (id : Z) (p : peer) (t : Transport) : Transport := set_peers (insert id p <$> peers t) t.
Definition put_remote (id : Z) (g : pipeline) (t : Transport) : Transport := set_remotes (insert id g <$> remotes t) t.

Definition Start (t : Transport) : Transport := mkTransport (Some ∅) (Some ∅) (reports t).

Definition Get (id : Z) (t : Transport) : option peer := nil_lookup id (peers t).

Definition send_one (m : Message) (t : Transport) : Transport :=
  if mtTo m =? 0 then t
  else match nil_lookup (mtTo m) (peers t), nil_lookup (mtTo m) (remotes t) with
       | Some p, _ => let '(rs, p) := peer_send m p in add_reports rs (put_peer (mtTo m) p t)
       | None, Some g => put_remote (mtTo m) (remote_send m g) t
       | None, None => t
       end.

Definition Send (msgs : list Message) (t : Transport) : Transport := fold_left (fun t m => send_one m t) msgs t.

(** The iterations over the maps are in any order, number [k] of the runtime's. *)
Definition Stop (k : nat) : T unit :=
  t ← get;
  forM (range_ids k (dom (default ∅ (remotes t)))) (fun id =>
    g ← or_panic (nil_lookup id (remotes t));
    lift (pipeline_stop g);; mret tt);;
  forM (range_ids k (dom (default ∅ (peers t)))) (fun id =>
    p ← or_panic (nil_lookup id (peers t));
    rs ← lift (peer_stop p);
    modify (add_reports rs));;
  modify (fun t => mkTransport None None (reports t)).

Definition CutPeer (id : Z) : T unit :=
  t ← get;
  (match nil_lookup id (peers t) with Some p => modify (put_peer id (Pause p)) | None => mret tt end);;
  match nil_lookup id (remotes t) with
  | Some g => g ← lift (remote_Pause g); modify (put_remote id g)
  | None => mret tt
  end.

Definition MendPeer (id : Z) : T unit :=
  t ← get;
  (match nil_lookup id (peers t) with Some p => modify (put_peer id (Resume p)) | None => mret tt end);;
  match nil_lookup id (remotes t) with Some g => modify (put_remote id (remote_Resume g)) | None => mret tt end.

Definition AddRemote (id : Z) (us : list bytes) : T unit :=
  t ← get;
  match remotes t with
  | None => mret tt
  | Some gs =>
      if bool_decide (is_Some (nil_lookup id (peers t))) then mret tt
      else if bool_decide (is_Some (gs !! id)) then mret tt
      else
        or_panic (NewURLs us);;
        modify (set_remotes (Some (<[id := pipeline_start]> gs)))
  end.

Definition AddPeer (id : Z) (us : list bytes) : T unit :=
  t ← get;
  match peers t with
  | None => panic
  | Some ps =>
      if bool_decide (is_Some (ps !! id)) then mret tt
      else
        urls ← or_panic (NewURLs us);
        modify (set_peers (Some (<[id := startPeer urls id]> ps)))
  end.

Definition removePeer (id : Z) : T unit :=
  t ← get;
  match nil_lookup id (peers t) with
  | Some p =>
      rs ← lift (peer_stop p);
      modify (fun t => add_reports rs (set_peers (delete id <$> peers t) t))
  | None => mret tt
  end.

Definition RemovePeer : Z -> T unit := removePeer.

Definition RemoveAllPeers (k : nat) : T unit :=
  t ← get;
  forM (range_ids k (dom (default ∅ (peers t)))) removePeer.

Definition UpdatePeer (id : Z) (us : list bytes) : T unit :=
  t ← get;
  match nil_lookup id (peers t) with
  | None => mret tt
  | Some p =>
      urls ← or_panic (NewURLs us);
      modify (put_peer id (peer_update urls p))
  end.

(** What the goroutines of a peer do, and a connection that arrives for it. *)
Inductive peer_event : Type :=
| OnAttach (t : streamType) (conn : W)
| OnV2Writer (ev : writer_event)
| OnWriter (ev : writer_event)
| OnPipeline (post : bytes -> bool)
| OnUnreachable (u : bytes).

Definition attachOutgoingConn (t : streamType) (conn : W) : M peer (list report) := fun p =>
  match t with
  | streamTypeMsgAppV2 => '(rs, cw) ← attach t conn (msgAppV2Writer p); Ret (rs, set_writers cw (writer p) p)
  | streamTypeMessage => '(rs, cw) ← attach t conn (writer p); Ret (rs, set_writers (msgAppV2Writer p) cw p)
  end.

Definition peer_step (ev : peer_event) : M peer (list report) := fun p =>
  match ev with
  | OnAttach t conn => attachOutgoingConn t conn p
  | OnV2Writer ev =>
      '(rs, cw) ← run_event ev (msgAppV2Writer p);
      Ret (rs, set_writers cw (writer p) p)
  | OnWriter ev =>
      '(rs, cw) ← run_event ev (writer p);
      Ret (rs, set_writers (msgAppV2Writer p) cw p)
  | OnPipeline post =>
      '(rs, pl) ← pipeline_handle post (p_pipeline p);
      Ret (rs, mkPeer (p_id p) (paused p) (picker p) (msgAppV2Writer p) (writer p) pl)
  | OnUnreachable u =>
      '(_, pk) ← unreachable u (picker p);
      Ret ([], mkPeer (p_id p) (paused p) pk (msgAppV2Writer p) (writer p) (p_pipeline p))
  end.

Definition on_peer (id : Z) (ev : peer_event) : T unit :=
  t ← get;
  match nil_lookup id (peers t) with
  | None => mret tt
  | Some p => '(rs, p) ← lift (peer_step ev p); modify (fun t => add_reports rs (put_peer id p t))
  end.
End transport.

Arguments streamEncoder W : clear implicits.
Arguments streamWriter W : clear implicits.
Arguments peer W : clear implicits.
Arguments Transport W : clear implicits.
Arguments peer_event W : clear implicits.

#[export] Instance writer_event_eq_dec : EqDecision writer_event.
Proof. solve_decision. Defined.

(* ===================================================================== *)
(** ** Well-formed transports                                            *)
(* ===================================================================== *)

Section invariant.
Context {W : Type} `{!Writer W}.
Implicit Types (m : Message) (cw : streamWriter W) (p : peer W) (t : Transport W).

Definition enc_fits (v2 : bool) (enc : streamEncoder W) : Prop :=
  match enc with V2Encoder e => v2 = true /\ enc_ok e | MessageEncoder _ => v2 = false end.

(** The messages that may be in the queue of a stream: appends only on the stream
    for appends, and no snapshot on either. *)
Definition queued (v2 : bool) (id : Z) m : Prop := msg_ok m /\ mtTo m = id /\ if v2 then mtType m = MsgApp else mtType m <> MsgSnap.

Record writer_wf (v2 : bool) (id : Z) cw : Prop := {
  ww_id : sw_peerID cw = id;
  ww_queue : Forall (queued v2 id) (sw_msgc cw);
  ww_room : zlen (sw_msgc cw) <= streamBufSize;
  ww_idle : working cw = false -> sw_msgc cw = [];
  ww_enc : if working cw then exists enc, sw_enc cw = Some enc /\ enc_fits v2 enc else True
}.

Definition pipeline_wf (id : Z) (pl : pipeline) : Prop :=
  Forall (fun m => msg_ok m /\ mtTo m = id) (pl_msgc pl) /\ zlen (pl_msgc pl) <= pipelineBufSize /\ pl_running pl = true.

Definition picker_wf (pk : urlPicker) : Prop := 0 <= picked pk < zlen (urls pk) /\ zlen (urls pk) <= MaxInt64.

Record peer_wf (id : Z) p : Prop := {
  pw_id : p_id p = id;
  pw_picker : picker_wf (picker p);
  pw_v2 : writer_wf true id (msgAppV2Writer p);
  pw_writer : writer_wf false id (writer p);
  pw_pipeline : pipeline_wf id (p_pipeline p)
}.

(** A transport as the raft node uses it, which adds no remotes. *)
Definition transport_wf t : Prop :=
  default ∅ (remotes t) = ∅ /\ forall id p, nil_lookup id (peers t) = Some p -> peer_wf id p.

Lemma startStreamWriter_wf v2 id : writer_wf v2 id (startStreamWriter id).
Proof. by split. Qed.

Lemma closeUnlocked_wf v2 id cw : writer_wf v2 id cw -> wp false closeUnlocked (fun _ => writer_wf v2 id) cw.
Proof. intros []. unfold wp, closeUnlocked. by destruct (working cw) eqn:E; [split|split; rewrite ?E]. Qed.

Lemma heartbeat_ok : msg_ok linkHeartbeatMessage.
Proof. split; [|by vm_compute]. unfold linkHeartbeatMessage, msg. cbn. repeat split; try done; by constructor. Qed.

Lemma with_encoder_wf v2 id m cw : writer_wf v2 id cw -> working cw = true -> msg_ok m ->
  wp false (with_encoder m) (fun _ cw' => writer_wf v2 id cw' /\ sw_msgc cw' = sw_msgc cw) cw.
Proof.
  intros [Hid Hq Hr Hi He] Hw Hm. rewrite Hw in He. destruct He as (enc & E & He). unfold wp, with_encoder. rewrite E.
  unfold stream_encode. cbv [mbind outcome_bind]. destruct enc as [e|w]; cbn [enc_fits] in He.
  - destruct He as [-> He]. pose proof (v2_encode_returns m Hm e He) as H. unfold wp in H. destruct (v2_encode m e) as [[err e']| |]; [|done|done].
    split; [|done]. split; cbn; rewrite ?Hw; try done. by exists (V2Encoder e').
  - pose proof (msg_encode_returns m w Hm) as H. unfold wp in H. destruct (msg_encode m w) as [[err w']| |]; [|done|done].
    split; [|done]. split; cbn; rewrite ?Hw; try done. by exists (MessageEncoder w').
Qed.

Lemma run_event_wf v2 id ev cw : writer_wf v2 id cw -> wp false (run_event ev) (fun _ => writer_wf v2 id) cw.
Proof.
  intros Hcw. apply wp_bind, wp_get. destruct ev; destruct (working cw) eqn:Hw; try by apply wp_ret.
  - cbn [negb]. apply wp_bind. eapply wp_mono; [|apply (with_encoder_wf v2 id); [done|done|apply heartbeat_ok]].
    intros [] cw' [H _]; [by apply closeUnlocked_wf|by apply wp_ret].
  - destruct (sw_msgc cw) as [|m ms] eqn:Em; [by apply wp_ret|]. destruct Hcw as [Hid Hq Hr Hi He]. rewrite Em, Hw in *.
    apply Forall_cons in Hq as [Hm Hq]. rewrite zlen_cons in Hr. apply wp_bind, wp_modify, wp_bind.
    eapply wp_mono; [|apply (with_encoder_wf v2 id); [|done|apply Hm]].
    + intros [] cw' [H _]; [|by apply wp_ret]. apply wp_bind. eapply wp_mono; [|by apply closeUnlocked_wf]. intros rs cw'' H'. by apply wp_ret.
    + split; cbn; rewrite ?Hw; try done. lia.
Qed.

Lemma attach_wf tp id conn cw : let v2 := match tp with streamTypeMsgAppV2 => true | streamTypeMessage => false end in
  writer_wf v2 id cw -> wp false (attach tp conn) (fun _ => writer_wf v2 id) cw.
Proof.
  intros v2 Hcw. apply wp_bind. eapply wp_mono; [|by apply (closeUnlocked_wf v2 id)]. intros rs cw' [Hid Hq Hr Hi He].
  apply wp_bind, wp_modify, wp_ret. split; cbn; try done.
  subst v2. destruct tp; [by exists (MessageEncoder conn)|]. exists (V2Encoder (newMsgAppV2Encoder conn)). split; [reflexivity|].
  split; [reflexivity|exact (new_enc_ok conn)].
Qed.

(** *** Peers *)

Lemma try_send_wf (P : Message -> Prop) cap m ms : P m -> Forall P ms -> zlen ms <= cap ->
  Forall P (try_send cap m ms).1 /\ zlen (try_send cap m ms).1 <= cap.
Proof.
  intros Hm Hms Hl. unfold try_send. destruct (Z.ltb_spec (zlen ms) cap); [|done]. cbn. split; [apply Forall_app; by repeat constructor|].
  rewrite zlen_app. unfold zlen in *. cbn. lia.
Qed.

Lemma queue_wf v2 id m cw : writer_wf v2 id cw -> working cw = true -> queued v2 id m ->
  writer_wf v2 id (set_sw_msgc (try_send streamBufSize m (sw_msgc cw)).1 cw).
Proof. intros [] Hw Hm. destruct (try_send_wf (queued v2 id) streamBufSize m (sw_msgc cw)) as [? ?]; try done. split; cbn; rewrite ?Hw in *; done. Qed.

Lemma peer_send_wf id m p : peer_wf id p -> msg_ok m -> mtTo m = id -> peer_wf id (peer_send m p).2.
Proof.
  intros Hp Hm Hid. unfold peer_send. destruct (paused p); [done|]. destruct Hp as [Hi Hpk Hv Hw Hpl].
  assert (Hpipe : peer_wf id (put_message pipelineMsg m p).2).
  { cbn. destruct Hpl as (H1 & H2 & H3). destruct (try_send_wf (fun m => msg_ok m /\ mtTo m = id) pipelineBufSize m (pl_msgc (p_pipeline p))) as [? ?]; try done.
    destruct (try_send _ _ _) as [ms ok]. by split. }
  assert (peer_wf id (put_message (pick m p) m p).2) as H; [|revert H; destruct (put_message (pick m p) m p) as [ok p']; exact (fun H => H)]. unfold pick.
  destruct (isMsgSnap m) eqn:Es; [done|]. apply bool_decide_eq_false_1 in Es.
  destruct (working (msgAppV2Writer p)) eqn:E1; [destruct (isMsgApp m) eqn:Ea|]; cbn [andb].
  - apply bool_decide_eq_true_1 in Ea. pose proof (queue_wf true id m _ Hv E1) as H. cbn. destruct (try_send _ _ _) as [ms ok]. split; cbn; try done. by apply H.
  - destruct (working (writer p)) eqn:E2; [|done]. pose proof (queue_wf false id m _ Hw E2) as H. cbn. destruct (try_send _ _ _) as [ms ok]. split; cbn; try done. by apply H.
  - destruct (working (writer p)) eqn:E2; [|done]. pose proof (queue_wf false id m _ Hw E2) as H. cbn. destruct (try_send _ _ _) as [ms ok]. split; cbn; try done. by apply H.
Qed.

Lemma picker_pick_wf pk : picker_wf pk -> exists u, picker_pick pk = Ret u.
Proof.
  intros [Hk _]. unfold picker_pick, znth. rewrite (proj2 (Z.ltb_ge _ _)) by lia.
  destruct (lookup_lt_is_Some_2 (urls pk) (Z.to_nat (picked pk))) as [u ->]; [unfold zlen in *; lia|by exists u].
Qed.

Lemma unreachable_wf u pk : picker_wf pk -> wp false (unreachable u) (fun _ => picker_wf) pk.
Proof.
  intros Hpk. destruct (picker_pick_wf pk Hpk) as [u' E]. unfold wp, unreachable. cbv [mbind outcome_bind]. rewrite E. destruct (beq u u'); [|done].
  destruct Hpk as [H1 H2]. split; cbn [picked urls]; [|done]. rewrite i64_id by (unfold in_i64, MinInt64, MaxInt64 in *; lia). apply Z.rem_bound_pos; lia.
Qed.

Lemma pipeline_handle_wf post id pl : pipeline_wf id pl -> wp false (pipeline_handle post) (fun _ => pipeline_wf id) pl.
Proof.
  intros (Hq & Hr & Hrun). unfold wp, pipeline_handle. rewrite Hrun. destruct (pl_msgc pl) as [|m ms] eqn:E; [by split_and!; rewrite ?E|].
  apply Forall_cons in Hq as [[Hm _] Hq]. rewrite zlen_cons in Hr. cbv [mbind outcome_bind]. rewrite msg_Marshal by done. split_and!; cbn; [done|lia|done].
Qed.

Lemma peer_step_wf id ev p : peer_wf id p -> wp false (peer_step ev) (fun _ => peer_wf id) p.
Proof.
  intros [Hi Hpk Hv Hw Hpl]. unfold wp, peer_step, attachOutgoingConn. cbv [mbind outcome_bind]. destruct ev as [tp conn|ev|ev|post|u].
  - destruct tp.
    + pose proof (attach_wf streamTypeMessage id conn _ Hw) as H. unfold wp in H. destruct (attach _ _ _) as [[rs cw]| |]; [by split|done|done].
    + pose proof (attach_wf streamTypeMsgAppV2 id conn _ Hv) as H. unfold wp in H. destruct (attach _ _ _) as [[rs cw]| |]; [by split|done|done].
  - pose proof (run_event_wf true id ev _ Hv) as H. unfold wp in H. destruct (run_event _ _) as [[rs cw]| |]; [by split|done|done].
  - pose proof (run_event_wf false id ev _ Hw) as H. unfold wp in H. destruct (run_event _ _) as [[rs cw]| |]; [by split|done|done].
  - pose proof (pipeline_handle_wf post id _ Hpl) as H. unfold wp in H. destruct (pipeline_handle _ _) as [[rs pl]| |]; [by split|done|done].
  - pose proof (unreachable_wf u _ Hpk) as H. unfold wp in H. destruct (unreachable _ _) as [[[] pk]| |]; [by split|done|done].
Qed.

Lemma peer_stop_returns id p : peer_wf id p -> exists rs, peer_stop p = Ret rs.
Proof.
  intros [Hi Hpk Hv Hw (_ & _ & Hpl)]. unfold peer_stop, pipeline_stop. cbv [mbind outcome_bind].
  pose proof (closeUnlocked_wf _ _ _ Hv) as H1. pose proof (closeUnlocked_wf _ _ _ Hw) as H2. unfold wp in H1, H2.
  destruct (closeUnlocked (msgAppV2Writer p)) as [[rs1 cw1]| |]; try done. destruct (closeUnlocked (writer p)) as [[rs2 cw2]| |]; try done.
  rewrite Hpl. by eexists.
Qed.

(** *** The transport *)

Lemma nil_lookup_insert id id' p (ps : option (gmap Z (peer W))) :
  nil_lookup id' (insert id p <$> ps) = if decide (id = id') then (match ps with Some _ => Some p | None => None end) else nil_lookup id' ps.
Proof.
  unfold nil_lookup. destruct ps as [ps|]; cbn; [|by destruct (decide _)].
  destruct (decide (id = id')) as [->|]; [by rewrite lookup_insert_eq|by rewrite lookup_insert_ne].
Qed.

Lemma put_peer_wf id p rs t : transport_wf t -> peer_wf id p -> transport_wf (add_reports rs (put_peer id p t)).
Proof.
  intros [Hr Hp] H. split; [done|]. intros id' p'. cbn [peers add_reports put_peer set_peers]. rewrite nil_lookup_insert.
  destruct (decide (id = id')) as [->|]; [|apply Hp]. destruct (peers t); [by intros [= <-]|done].
Qed.

Lemma no_remotes t id : transport_wf t -> nil_lookup id (remotes t) = None.
Proof. intros [H _]. unfold nil_lookup. destruct (remotes t) as [gs|]; [|done]. cbn in *. by rewrite H, lookup_empty. Qed.

Lemma send_one_wf m t : transport_wf t -> msg_ok m -> transport_wf (send_one m t).
Proof.
  intros Ht Hm. unfold send_one. destruct (mtTo m =? 0); [done|]. rewrite (no_remotes t _ Ht).
  destruct (nil_lookup (mtTo m) (peers t)) as [p|] eqn:E; [|done]. pose proof (peer_send_wf (mtTo m) m p (proj2 Ht _ _ E) Hm eq_refl) as Hp.
  destruct (peer_send m p) as [rs p']. by apply put_peer_wf.
Qed.

Lemma Send_wf ms t : transport_wf t -> Forall msg_ok ms -> transport_wf (Send ms t).
Proof. intros Ht H. revert t Ht. induction H as [|m ms Hm _ IH]; intros t Ht; [done|]. by apply IH, send_one_wf. Qed.

Lemma set_paused_wf b id p : peer_wf id p -> peer_wf id (set_paused b p).
Proof. by intros []. Qed.
End invariant.

(** What a raft node does with its transport, and the steps of the goroutines. *)
Inductive transport_op (W : Type) : Type :=
| OpSend (ms : list Message)
| OpAddPeer (id : Z) (us : list bytes)
| OpRemovePeer (id : Z)
| OpRemoveAllPeers (k : nat)
| OpUpdatePeer (id : Z) (us : list bytes)
| OpCutPeer (id : Z)
| OpMendPeer (id : Z)
| OpPeer (id : Z) (ev : peer_event W)
| OpStop (k : nat).
Arguments OpSend {W}.
Arguments OpAddPeer {W}.
Arguments OpRemovePeer {W}.
Arguments OpRemoveAllPeers {W}.
Arguments OpUpdatePeer {W}.
Arguments OpCutPeer {W}.
Arguments OpMendPeer {W}.
Arguments OpPeer {W}.
Arguments OpStop {W}.

Section operations.
Context {W : Type} `{!Writer W} {rt : GoRuntime} (NewURLs : list bytes -> option (list bytes)).
Context (Hurls : forall us l, NewURLs us = Some l -> 0 < zlen l <= MaxInt64).
Implicit Types (t : Transport W).

Definition run_transport (op : transport_op W) : M (Transport W) unit :=
  match op with
  | OpSend ms => modify (Send ms)
  | OpAddPeer id us => AddPeer NewURLs id us
  | OpRemovePeer id => RemovePeer id
  | OpRemoveAllPeers k => RemoveAllPeers k
  | OpUpdatePeer id us => UpdatePeer NewURLs id us
  | OpCutPeer id => CutPeer id
  | OpMendPeer id => MendPeer id
  | OpPeer id ev => on_peer id ev
  | OpStop k => Stop k
  end.

(** Messages have the size of messages, addresses are valid, and no peer is added
    to a transport that was stopped. *)
Definition op_ok (op : transport_op W) t : Prop :=
  match op with
  | OpSend ms => Forall msg_ok ms
  | OpAddPeer _ us => is_Some (peers t) /\ is_Some (NewURLs us)
  | OpUpdatePeer _ us => is_Some (NewURLs us)
  | _ => True
  end.

Lemma new_picker_wf us l : NewURLs us = Some l -> picker_wf (newURLPicker l).
Proof. intros H. apply Hurls in H. split; cbn; lia. Qed.

Lemma AddPeer_wf id us t : transport_wf t -> op_ok (OpAddPeer id us) t -> wp false (AddPeer NewURLs id us) (fun _ => transport_wf) t.
Proof.
  intros [Hr Hp] [[ps Eps] [l El]]. apply wp_bind, wp_get. rewrite Eps. destruct (bool_decide _); [by apply wp_ret|]. rewrite El.
  apply wp_bind, wp_ret, wp_modify. split; [done|]. intros id' p'. cbn [peers set_peers].
  change (nil_lookup id' (Some (<[id:=startPeer l id]> ps))) with (nil_lookup id' (insert id (startPeer l id) <$> Some ps)).
  rewrite nil_lookup_insert. destruct (decide (id = id')) as [<-|]; [intros [= <-]|rewrite <- Eps; apply Hp].
  split; cbn; [done|by apply (new_picker_wf us)|apply startStreamWriter_wf|apply startStreamWriter_wf|by repeat constructor].
Qed.

Lemma removePeer_wf id t : transport_wf t -> wp false (removePeer id) (fun _ => transport_wf) t.
Proof.
  intros [Hr Hp]. apply wp_bind, wp_get. destruct (nil_lookup id (peers t)) as [p|] eqn:E; [|by apply wp_ret].
  destruct (peer_stop_returns id p (Hp _ _ E)) as [rs Es]. apply wp_bind. rewrite Es. apply wp_ret, wp_modify. split; [done|].
  intros id' p'. cbn [peers add_reports set_peers]. unfold nil_lookup in *. destruct (peers t) as [ps|]; [|done]. cbn in *.
  intros [_ H]%lookup_delete_Some. by apply Hp.
Qed.

Lemma wp_forM {S A} pn (f : A -> M S unit) (I : S -> Prop) (l : list A) s :
  I s -> (forall a s, a ∈ l -> I s -> wp pn (f a) (fun _ => I) s) -> wp pn (forM l f) (fun _ => I) s.
Proof.
  revert s. induction l as [|a l IH]; intros s Hs Hf; [by apply wp_ret|]. unfold forM. cbn [foldM]. apply wp_bind.
  eapply wp_mono; [|apply Hf; [by left|done]]. intros [] s' Hs'. apply IH; [done|]. intros b s'' Hb. apply Hf. by right.
Qed.

Lemma Stop_wf k t : transport_wf t -> wp false (Stop k) (fun _ => transport_wf) t.
Proof.
  intros [Hr Hp]. apply wp_bind, wp_get. rewrite Hr, dom_empty_L.
  replace (range_ids k ∅) with (@nil Z) by (symmetry; apply Permutation_nil; rewrite range_ids_perm, elements_empty; done).
  apply wp_bind, wp_ret, wp_bind. eapply wp_mono; [|apply (wp_forM _ _ (fun _ => True)); [done|]].
  - intros _ t' _. apply wp_modify. by split.
  - intros id t' Hid _. rewrite range_ids_perm, elem_of_elements in Hid. unfold nil_lookup in *. destruct (peers t) as [ps|]; [|set_solver].
    cbn in *. apply elem_of_dom in Hid as [p Ep]. rewrite Ep. destruct (peer_stop_returns id p (Hp _ _ Ep)) as [rs Es].
    apply wp_bind, wp_ret, wp_bind. rewrite Es. by apply wp_ret, wp_modify.
Qed.

Lemma pause_wf b id t : transport_wf t ->
  wp false (match nil_lookup id (peers t) with Some p => modify (put_peer id (set_paused b p)) | None => mret tt end) (fun _ => transport_wf) t.
Proof.
  intros Ht. destruct (nil_lookup id (peers t)) as [p|] eqn:E; [|by apply wp_ret].
  apply wp_modify. pose proof (put_peer_wf id (set_paused b p) [] t Ht (set_paused_wf b id p (proj2 Ht _ _ E))) as H. exact H.
Qed.

Lemma transport_op_wf op t : transport_wf t -> op_ok op t -> wp false (run_transport op) (fun _ => transport_wf) t.
Proof.
  intros Ht Hok. destruct op as [ms|id us|id|k|id us|id|id|id ev|k]; cbn [run_transport].
  - by apply wp_modify, Send_wf.
  - by apply AddPeer_wf.
  - by apply removePeer_wf.
  - apply wp_bind, wp_get, wp_forM; [done|]. intros id s _ Hs. by apply removePeer_wf.
  - destruct Hok as [l El]. apply wp_bind, wp_get. destruct (nil_lookup id (peers t)) as [p|] eqn:E; [|by apply wp_ret].
    rewrite El. apply wp_bind, wp_ret, wp_modify. destruct (proj2 Ht _ _ E). apply (put_peer_wf id _ [] t Ht). split; cbn; [done|by apply (new_picker_wf us)|done..].
  - apply wp_bind, wp_get. rewrite (no_remotes t id Ht). apply wp_bind. eapply wp_mono; [|by apply (pause_wf true)]. intros [] ? H. by apply wp_ret.
  - apply wp_bind, wp_get. rewrite (no_remotes t id Ht). apply wp_bind. eapply wp_mono; [|by apply (pause_wf false)]. intros [] ? H. by apply wp_ret.
  - apply wp_bind, wp_get. destruct (nil_lookup id (peers t)) as [p|] eqn:E; [|by apply wp_ret].
    pose proof (peer_step_wf id ev p (proj2 Ht _ _ E)) as H. unfold wp in H. apply wp_bind.
    destruct (peer_step ev p) as [[rs p']| |]; [|done|done]. apply wp_ret, wp_modify. by apply put_peer_wf.
  - by apply Stop_wf.
Qed.
End operations.

Section reachable.
Context {W : Type} `{!Writer W} {rt : GoRuntime} (NewURLs : list bytes -> option (list bytes)).

Fixpoint ops_ok (ops : list (transport_op W)) (t : Transport W) : Prop :=
  match ops with
  | [] => True
  | op :: ops' => op_ok NewURLs op t /\ forall t', run_transport NewURLs op t = Ret (tt, t') -> ops_ok ops' t'
  end.

End reachable.

(* ===================================================================== *)
(** ** Delivery                                                          *)
(* ===================================================================== *)

Section delivery.
Context {W : Type} `{!Writer W, !WriterLaws W}.
Implicit Types (t : Transport W) (p : peer W) (cw : streamWriter W).

(** The events of a writer one after the other, with what they report. *)
Definition run_writer (evs : list writer_event) : M (streamWriter W) (list report) :=
  foldM (fun rs ev => rs' ← run_event ev; mret (rs ++ rs')) [] evs.

(** What a writer puts on its connection. *)
Fixpoint emitted (evs : list writer_event) (q : list Message) : list Message :=
  match evs with
  | [] => []
  | Heartbeat :: evs' => linkHeartbeatMessage :: emitted evs' q
  | NextMessage :: evs' => match q with [] => emitted evs' [] | m :: q' => m :: emitted evs' q' end
  end.

Definition turns (evs : list writer_event) : nat := length (filter (fun ev => ev = NextMessage) evs).

Lemma emitted_forall (P : Message -> Prop) evs q : P linkHeartbeatMessage -> Forall P q -> Forall P (emitted evs q).
Proof.
  intros Hl. revert q. induction evs as [|[] evs IH]; intros q Hq; cbn; [done|by constructor; [|apply IH]|].
  destruct Hq; [by apply IH|by constructor; [|apply IH]].
Qed.

Lemma emitted_for_raft evs q : (length q <= turns evs)%nat -> Forall (fun m => isLinkHeartbeatMessage m = false) q -> for_raft (emitted evs q) = q.
Proof.
  unfold turns, for_raft. revert q. induction evs as [|[] evs IH]; intros q Hl Hq; cbn [emitted].
  - by destruct q; [|cbn in Hl; lia].
  - rewrite filter_cons in *. rewrite !decide_False in * by done. by apply IH.
  - rewrite filter_cons in Hl. rewrite decide_True in Hl by done. destruct Hq as [|m q Hm Hq]; [apply IH; [cbn; lia|done]|].
    rewrite filter_cons, decide_True by done. f_equal. apply IH; [cbn in Hl; lia|done].
Qed.

Lemma encode_all_cons {S} (encode : Message -> M S bool) m ms s s' : encode_all encode (m :: ms) s = Ret (false, s') ->
  exists s1, encode m s = Ret (false, s1) /\ encode_all encode ms s1 = Ret (false, s').
Proof.
  unfold encode_all. cbn [foldr]. unfold unless_error at 1. cbv [mbind M_bind]. destruct (encode m s) as [[[] s1]| |]; try done. intros H. by exists s1.
Qed.

Lemma encode_all_step {S} (encode : Message -> M S bool) m ms s s1 : encode m s = Ret (false, s1) ->
  encode_all encode (m :: ms) s = encode_all encode ms s1.
Proof. intros E. unfold encode_all. cbn [foldr]. unfold unless_error at 1. cbv [mbind M_bind]. by rewrite E. Qed.

Lemma encode_all_v2 ms (e e' : msgAppV2Encoder W) : encode_all v2_encode ms e = Ret (false, e') ->
  encode_all stream_encode ms (V2Encoder e) = Ret (false, V2Encoder e').
Proof.
  revert e. induction ms as [|m ms IH]; intros e; [by intros [= ->]|]. intros (e1 & E & H)%encode_all_cons.
  rewrite (encode_all_step _ m ms _ (V2Encoder e1)); [by apply IH|]. unfold stream_encode. cbv [mbind outcome_bind]. by rewrite E.
Qed.

Lemma encode_all_message ms (w w' : W) : encode_all msg_encode ms w = Ret (false, w') ->
  encode_all stream_encode ms (MessageEncoder w) = Ret (false, MessageEncoder w').
Proof.
  revert w. induction ms as [|m ms IH]; intros w; [by intros [= ->]|]. intros (w1 & E & H)%encode_all_cons.
  rewrite (encode_all_step _ m ms _ (MessageEncoder w1)); [by apply IH|]. unfold stream_encode. cbv [mbind outcome_bind]. by rewrite E.
Qed.

Lemma run_writer_cons ev evs cw cw' : run_event ev cw = Ret ([], cw') -> run_writer (ev :: evs) cw = run_writer evs cw'.
Proof. intros E. unfold run_writer. cbn [foldM]. cbv [mbind M_bind mret M_ret]. by rewrite E. Qed.

Lemma run_writer_eq evs id q enc enc' : encode_all stream_encode (emitted evs q) enc = Ret (false, enc') ->
  exists q', run_writer evs (mkStreamWriter id true q (Some enc)) = Ret ([], mkStreamWriter id true q' (Some enc')).
Proof.
  revert q enc. induction evs as [|ev evs IH]; intros q enc H; [injection H as <-; by exists q|].
  destruct ev; cbn [emitted] in H.
  - apply encode_all_cons in H as (enc1 & E & H). destruct (IH _ _ H) as [q' E']. exists q'. rewrite (run_writer_cons _ _ _ (mkStreamWriter id true q (Some enc1))); [exact E'|].
    unfold run_event, with_encoder. cbv [mbind M_bind get outcome_bind]. cbn [negb working sw_enc sw_msgc sw_peerID]. by rewrite E.
  - destruct q as [|m q]; [destruct (IH _ _ H) as [q' E']; exists q'; by rewrite (run_writer_cons _ _ _ (mkStreamWriter id true [] (Some enc)))|].
    apply encode_all_cons in H as (enc1 & E & H). destruct (IH _ _ H) as [q' E']. exists q'. rewrite (run_writer_cons _ _ _ (mkStreamWriter id true q (Some enc1))); [exact E'|].
    unfold run_event, with_encoder. cbv [mbind M_bind get modify outcome_bind]. cbn [working sw_enc sw_msgc sw_peerID]. by rewrite E.
Qed.

(** *** From the transport to the queues *)

(** A peer with two connections and these queues. *)
Definition connected (id : Z) (q1 q2 : list Message) (enc1 enc2 : streamEncoder W) p : Prop :=
  paused p = false /\ msgAppV2Writer p = mkStreamWriter id true q1 (Some enc1) /\ writer p = mkStreamWriter id true q2 (Some enc2).

Definition is_append (m : Message) : Prop := mtType m = MsgApp.
#[export] Instance is_append_dec m : Decision (is_append m) := decide_rel _ _ _.

Lemma Get_put t id p rs : is_Some (peers t) -> Get id (add_reports rs (put_peer id p t)) = Some p.
Proof. intros [ps E]. unfold Get. cbn [peers add_reports put_peer set_peers]. rewrite nil_lookup_insert, E. by rewrite decide_True. Qed.

Lemma send_one_queues t id q1 q2 enc1 enc2 p m : id <> 0 -> Get id t = Some p -> connected id q1 q2 enc1 enc2 p ->
  mtTo m = id -> mtType m <> MsgSnap -> zlen q1 < streamBufSize -> zlen q2 < streamBufSize ->
  exists p', Get id (send_one m t) = Some p' /\ reports (send_one m t) = reports t /\
    connected id (q1 ++ filter is_append [m]) (q2 ++ filter (fun m => ~ is_append m) [m]) enc1 enc2 p'.
Proof.
  intros Hid Hp (Hpa & H1 & H2) Hto Hs L1 L2. assert (Hps : is_Some (peers t)). { unfold Get, nil_lookup in Hp. by destruct (peers t); [eexists|]. }
  unfold send_one. rewrite Hto, (proj2 (Z.eqb_neq id 0)) by done. change (nil_lookup id (peers t)) with (Get id t). rewrite Hp.
  unfold peer_send, pick, isMsgSnap, isMsgApp. rewrite Hpa, (bool_decide_eq_false_2 _ Hs), H1, H2. cbn [working andb].
  rewrite !filter_cons, !filter_nil. unfold is_append in *. destruct (decide (mtType m = MsgApp)) as [Ha|Ha].
  - rewrite (bool_decide_eq_true_2 _ Ha), (decide_False (P := ~ _)) by tauto. unfold put_message, try_send. rewrite H1. cbn [sw_msgc].
    rewrite (proj2 (Z.ltb_lt _ _)) by done. eexists. split; [by apply Get_put|]. split; [apply app_nil_r|]. rewrite app_nil_r. by split_and!; cbn; rewrite ?H1.
  - rewrite (bool_decide_eq_false_2 _ Ha), (decide_True (P := ~ _)) by done. unfold put_message, try_send. rewrite H2. cbn [sw_msgc].
    rewrite (proj2 (Z.ltb_lt _ _)) by done. eexists. split; [by apply Get_put|]. split; [apply app_nil_r|]. rewrite app_nil_r. by split_and!; cbn; rewrite ?H2.
Qed.

Lemma Send_queues ms t id q1 q2 enc1 enc2 p : id <> 0 -> Get id t = Some p -> connected id q1 q2 enc1 enc2 p ->
  Forall (fun m => mtTo m = id /\ mtType m <> MsgSnap) ms -> zlen q1 + zlen ms <= streamBufSize -> zlen q2 + zlen ms <= streamBufSize ->
  exists p', Get id (Send ms t) = Some p' /\ reports (Send ms t) = reports t /\
    connected id (q1 ++ filter is_append ms) (q2 ++ filter (fun m => ~ is_append m) ms) enc1 enc2 p'.
Proof.
  intros Hid Hp Hc H. revert t q1 q2 p Hp Hc. induction H as [|m ms [Hto Hs] _ IH]; intros t q1 q2 p Hp Hc L1 L2.
  { exists p. rewrite !filter_nil, !app_nil_r. done. }
  rewrite zlen_cons in *. pose proof (zlen_nonneg ms). destruct (send_one_queues t id q1 q2 enc1 enc2 p m) as (p1 & Hp1 & Hr1 & Hc1); try done; try lia.
  assert (Hle : forall (P : Message -> Prop) (D : forall m, Decision (P m)), zlen (filter P [m]) <= 1).
  { intros P D. rewrite filter_cons, filter_nil. by destruct (decide _). }
  destruct (IH (send_one m t) _ _ p1 Hp1 Hc1) as (p2 & Hp2 & Hr2 & Hc2).
  { rewrite zlen_app. specialize (Hle is_append _). lia. }
  { rewrite zlen_app. specialize (Hle (fun m => ~ is_append m) _). lia. }
  exists p2. split; [exact Hp2|]. split; [by rewrite <- Hr1|]. rewrite <- !app_assoc, <- !filter_app in Hc2. exact Hc2.
Qed.

(** *** From the queues to the other node *)

Lemma not_heartbeat (m : Message) : mtTo m <> 0 -> isLinkHeartbeatMessage m = false.
Proof. intros H. unfold isLinkHeartbeatMessage. rewrite (proj2 (Z.eqb_neq (mtTo m) 0)) by done. apply andb_false_r. Qed.

Lemma heartbeat_sendable : sendable linkHeartbeatMessage.
Proof. split; [apply heartbeat_ok|by vm_compute]. Qed.

(** What a stream writer does with its queue, and what the reader at the other end
    makes of what it wrote. *)
Lemma v2_stream_delivers evs local id q (w : W) c : Forall (fun m => mtTo m <> 0 /\ msg_ok m /\ append_to local id m) q ->
  (length q <= turns evs)%nat -> room_for c q ->
  exists cw e cs d, run_writer evs (mkStreamWriter id true q (Some (V2Encoder (newMsgAppV2Encoder w)))) = Ret ([], cw) /\
    sw_enc cw = Some (V2Encoder e) /\ v2w e = takes_all cs w /\
    decodeLoop (v2_decode id local) (fun _ => false) (S (length (concat cs))) (newMsgAppV2Decoder (concat cs), c) = Ret (EOF, (d, received_by c q)).
Proof.
  intros Hq Ht Hroom.
  assert (Hraft : for_raft (emitted evs q) = q).
  { apply emitted_for_raft; [done|]. eapply Forall_impl; [exact Hq|]. intros m (H & _). by apply not_heartbeat. }
  assert (Hem : Forall (v2_sendable local id) (emitted evs q)).
  { apply emitted_forall; [split; [apply heartbeat_ok|by left]|]. eapply Forall_impl; [exact Hq|]. intros m (_ & H1 & H2). split; [done|by right]. }
  destruct (v2_encode_all (emitted evs q) (newMsgAppV2Encoder w)) as (e & cs & E & _ & Hw & Hcs).
  { eapply Forall_impl; [exact Hem|]. by intros m [H _]. } { apply new_enc_ok. }
  destruct (run_writer_eq evs id q _ _ (encode_all_v2 _ _ _ E)) as [q' Er].
  destruct (v2_arrives local id (emitted evs q) 0 0 Hem) as [d Hd]. eexists _, e, cs, d. split; [exact Er|]. split; [done|]. split; [exact Hw|].
  change (enc_st (newMsgAppV2Encoder w)) with (0, 0) in Hcs. rewrite Hcs. replace (received_by c q) with (received_by c (for_raft (emitted evs q))) by (by rewrite Hraft). apply decodeLoop_arrives; [exact Hd|by rewrite Hraft|].
  apply Nat.lt_succ_r, v2_wires_length.
Qed.

Lemma msg_stream_delivers evs id q (w : W) c : Forall (fun m => mtTo m <> 0 /\ sendable m) q -> (length q <= turns evs)%nat -> room_for c q ->
  exists cw cs, run_writer evs (mkStreamWriter id true q (Some (MessageEncoder w))) = Ret ([], cw) /\
    sw_enc cw = Some (MessageEncoder (takes_all cs w)) /\
    decodeLoop msg_decode (fun _ => false) (S (length (concat cs))) (concat cs, c) = Ret (EOF, ([], received_by c q)).
Proof.
  intros Hq Ht Hroom.
  assert (Hraft : for_raft (emitted evs q) = q).
  { apply emitted_for_raft; [done|]. eapply Forall_impl; [exact Hq|]. intros m (H & _). by apply not_heartbeat. }
  assert (Hem : Forall sendable (emitted evs q)).
  { apply emitted_forall; [apply heartbeat_sendable|]. eapply Forall_impl; [exact Hq|]. by intros m (_ & H). }
  destruct (msg_encode_all (emitted evs q) w) as (cs & E & Hcs). { eapply Forall_impl; [exact Hem|]. by intros m [H _]. }
  destruct (run_writer_eq evs id q _ _ (encode_all_message _ _ _ E)) as [q' Er]. eexists _, cs. split; [exact Er|]. split; [done|].
  rewrite Hcs. replace (received_by c q) with (received_by c (for_raft (emitted evs q))) by (by rewrite Hraft). apply decodeLoop_arrives; [by apply msg_arrives|by rewrite Hraft|]. apply Nat.lt_succ_r, msg_frames_length.
Qed.

Lemma room_for_filter c (P : Message -> Prop) (D : forall m, Decision (P m)) ms : room_for c ms -> room_for c (filter P ms).
Proof. intros [H1 H2]. pose proof (length_filter P ms). unfold room_for, zlen in *. lia. Qed.

(** C12: Messages arrive. What a node sends to a peer with two connections is put on
    them without a report to raft, and the bytes that the stream writers write, with
    link heartbeats between the messages at whatever times, are decoded by the other
    node to the same messages in the same order: the appends on their own stream,
    most of them without term and index, all others on the general one, with
    proposals apart. *)
Theorem delivered t (id local : Z) p (w1 w2 : W) (ms : list Message) (evs1 evs2 : list writer_event) (c : Receiver)
  (Hid : id <> 0) (Hp : Get id t = Some p)
  (Hc : connected id [] [] (V2Encoder (newMsgAppV2Encoder w1)) (MessageEncoder w2) p)
  (Hms : Forall (fun m => mtTo m = id /\ sendable m /\ mtType m <> MsgSnap /\ (mtType m = MsgApp -> append_to local id m)) ms)
  (Hlen : zlen ms <= streamBufSize) (Hev1 : (length ms <= turns evs1)%nat) (Hev2 : (length ms <= turns evs2)%nat) (Hroom : room_for c ms) :
  exists p', Get id (Send ms t) = Some p' /\ reports (Send ms t) = reports t /\
  (exists cw e cs d, run_writer evs1 (msgAppV2Writer p') = Ret ([], cw) /\ sw_enc cw = Some (V2Encoder e) /\ v2w e = takes_all cs w1 /\
     decodeLoop (v2_decode id local) (fun _ => false) (S (length (concat cs))) (newMsgAppV2Decoder (concat cs), c) =
       Ret (EOF, (d, received_by c (filter is_append ms)))) /\
  (exists cw cs, run_writer evs2 (writer p') = Ret ([], cw) /\ sw_enc cw = Some (MessageEncoder (takes_all cs w2)) /\
     decodeLoop msg_decode (fun _ => false) (S (length (concat cs))) (concat cs, c) =
       Ret (EOF, ([], received_by c (filter (fun m => ~ is_append m) ms)))).
Proof.
  destruct (Send_queues ms t id [] [] _ _ p Hid Hp Hc) as (p' & Hp' & Hr & _ & H1 & H2).
  { eapply Forall_impl; [exact Hms|]. by intros m (? & _ & ? & _). } { exact Hlen. } { exact Hlen. }
  exists p'. split; [exact Hp'|]. split; [exact Hr|]. cbn [app] in H1, H2. rewrite H1, H2. split.
  - apply v2_stream_delivers; [|pose proof (length_filter is_append ms); lia|by apply room_for_filter].
    apply Forall_forall. intros m [Ha Hm]%list_elem_of_filter. rewrite Forall_forall in Hms. destruct (Hms m Hm) as (-> & [Hok _] & _ & H).
    split; [done|]. split; [done|]. by apply H.
  - apply msg_stream_delivers; [|pose proof (length_filter (fun m => ~ is_append m) ms); lia|by apply room_for_filter].
    apply Forall_forall. intros m [Ha Hm]%list_elem_of_filter. rewrite Forall_forall in Hms. by destruct (Hms m Hm) as (-> & ? & _ & _).
Qed.
End delivery.

(* ===================================================================== *)
(** ** Instances of the theorems                                         *)
(* ===================================================================== *)

(** An append, the one that continues it, and a heartbeat of raft. *)
Definition demo_append (i : Z) : Message :=
  mkMessage MsgApp 2 1 5 5 i [mkEntry 5 (i + 1) EntryNormal (Some (bs "set k v"))] i zero_Snapshot false 0 None.
Definition demo_messages : list Message :=
  [demo_append 7; demo_append 8; mkMessage MsgHeartbeat 2 1 5 0 0 [] 8 zero_Snapshot false 0 None].

Lemma demo_sendable : Forall sendable demo_messages.
Proof. repeat constructor; try (by vm_compute); cbn; unfold is_u64; lia. Qed.

Definition one_url (us : list bytes) : option (list bytes) := match us with [u] => Some [u] | _ => None end.


Lemma delivered_witness :
  let p := mkPeer 2 false (newURLPicker [bs "http://127.0.0.1:12380"])
    (mkStreamWriter 2 true [] (Some (V2Encoder (newMsgAppV2Encoder (@nil bytes))))) (mkStreamWriter 2 true [] (Some (MessageEncoder []))) pipeline_start in
  let t := mkTransport (Some ∅) (Some {[2 := p]}) [] in
  let evs := [NextMessage; Heartbeat; NextMessage; NextMessage] in
  exists p', Get 2 (Send demo_messages t) = Some p' /\ reports (Send demo_messages t) = [] /\
  (exists cw e cs d, run_writer evs (msgAppV2Writer p') = Ret ([], cw) /\ sw_enc cw = Some (V2Encoder e) /\ v2w e = takes_all cs [] /\
     decodeLoop (v2_decode 2 1) (fun _ => false) (S (length (concat cs))) (newMsgAppV2Decoder (concat cs), mkReceiver [] []) =
       Ret (EOF, (d, mkReceiver [demo_append 7; demo_append 8] []))) /\
  (exists cw cs, run_writer evs (writer p') = Ret ([], cw) /\ sw_enc cw = Some (MessageEncoder (takes_all cs [])) /\
     decodeLoop msg_decode (fun _ => false) (S (length (concat cs))) (concat cs, mkReceiver [] []) = Ret (EOF, ([], mkReceiver (drop 2 demo_messages) []))).
Proof.
  intros p t evs.
  apply (delivered t 2 1 p [] [] demo_messages evs evs (mkReceiver [] [])); [done|reflexivity|by split_and!| |by vm_compute|change (3 <= 3)%nat; lia|change (3 <= 3)%nat; lia|by vm_compute].
  pose proof demo_sendable as H. unfold demo_messages in *. rewrite !Forall_cons in *. destruct H as (H1 & H2 & H3 & _).
  split_and!; try done; intros _; by eexists _, _, _, _, _.
Defined.
