(* ===== verification/RaftGlue.v ===== *)
(** * RaftGlue: the node around raft (src/raftexample/raft.go)

    [RaftNode] ties the raft state machine ([node], which holds the shared
    [raftStorage]) to the write-ahead log, the snapshot directory, the transport
    and the channel of committed commands. What is handed to the transport and to
    the channel is a list of effects. The loop of [serveChannels] is a function of
    the case its [select] takes; a [Ready] is handled as a whole, without the
    proposals that the goroutine of the raft state machine may take meanwhile.
    [log.Fatal] and [log.Panic] end the process and are panics. Whether [stopc] is
    closed where the code waits for it is an argument. The value that a failed
    [Unmarshal] of a membership change leaves behind is a parameter, since the code
    ignores the error. *)

From S2P Require Import Prelude Strconv Utf8 Json RaftPb Quorum RaftStorage RaftLog Tracker ConfChange RaftWire RaftCodec RaftNode RawNode RaftSafety WalPb PageWriter Wal WalRun Snap.

Record RaftProposal : Type := mkProposal { pData : bytes; pID : bytes }.

(** [json.Marshal] of a proposal never fails. *)
Definition proposal_ToBytes (p : RaftProposal) : bytes :=
  MarshalStrings [(bs "Data", pData p); (bs "ID", pID p)].

Definition proposal_fields : list (field RaftProposal) :=
  [string_field (bs "Data") (fun v p => mkProposal v (pID p));
   string_field (bs "ID") (fun v p => mkProposal (pData p) v)].

(** What leaves the node: [CommitC None] is the nil that announces a snapshot. *)
Inductive effect : Type :=
| CommitC (data : option (list RaftProposal))
| TransportSend (ms : list Message)
| TransportAddPeer (id : Z) (url : bytes)
| TransportRemovePeer (id : Z)
| ErrorC
| Stopped.

Record RaftNode : Type := mkRaftNode {
  rcId : Z;
  Peers : list bytes;
  confState : ConfState;
  snapshotIndex : Z;
  appliedIndex : Z;
  snapCount : Z;
  rcNode : @node MemoryStorage;
  rcWal : WAL;
  rcSnapdir : gmap bytes bytes;
  outs : list effect
}.

Definition defaultSnapshotCount : Z := 10000.
Definition snapshotCatchUpEntriesN : Z := 10000.

Definition set_Peers (v : list bytes) (rc : RaftNode) : RaftNode :=
  mkRaftNode (rcId rc) v (confState rc) (snapshotIndex rc) (appliedIndex rc) (snapCount rc) (rcNode rc) (rcWal rc) (rcSnapdir rc) (outs rc).
Definition set_confState (v : ConfState) (rc : RaftNode) : RaftNode :=
  mkRaftNode (rcId rc) (Peers rc) v (snapshotIndex rc) (appliedIndex rc) (snapCount rc) (rcNode rc) (rcWal rc) (rcSnapdir rc) (outs rc).
Definition set_snapshotIndex (v : Z) (rc : RaftNode) : RaftNode :=
  mkRaftNode (rcId rc) (Peers rc) (confState rc) v (appliedIndex rc) (snapCount rc) (rcNode rc) (rcWal rc) (rcSnapdir rc) (outs rc).
Definition set_appliedIndex (v : Z) (rc : RaftNode) : RaftNode :=
  mkRaftNode (rcId rc) (Peers rc) (confState rc) (snapshotIndex rc) v (snapCount rc) (rcNode rc) (rcWal rc) (rcSnapdir rc) (outs rc).
Definition set_rcNode (v : @node MemoryStorage) (rc : RaftNode) : RaftNode :=
  mkRaftNode (rcId rc) (Peers rc) (confState rc) (snapshotIndex rc) (appliedIndex rc) (snapCount rc) v (rcWal rc) (rcSnapdir rc) (outs rc).
Definition set_rcWal (v : WAL) (rc : RaftNode) : RaftNode :=
  mkRaftNode (rcId rc) (Peers rc) (confState rc) (snapshotIndex rc) (appliedIndex rc) (snapCount rc) (rcNode rc) v (rcSnapdir rc) (outs rc).
Definition set_rcSnapdir (v : gmap bytes bytes) (rc : RaftNode) : RaftNode :=
  mkRaftNode (rcId rc) (Peers rc) (confState rc) (snapshotIndex rc) (appliedIndex rc) (snapCount rc) (rcNode rc) (rcWal rc) v (outs rc).
Definition emit (e : effect) (rc : RaftNode) : RaftNode :=
  mkRaftNode (rcId rc) (Peers rc) (confState rc) (snapshotIndex rc) (appliedIndex rc) (snapCount rc) (rcNode rc) (rcWal rc) (rcSnapdir rc) (outs rc ++ [e]).

Definition node_lens : lens RaftNode (@node MemoryStorage) := mkLens rcNode set_rcNode.
Definition wal_lens : lens RaftNode WAL := mkLens rcWal set_rcWal.
Definition snapdir_lens : lens RaftNode (gmap bytes bytes) := mkLens rcSnapdir set_rcSnapdir.

(** [raftStorage] is the storage the raft log reads. *)
Definition raftStorage (rc : RaftNode) : MemoryStorage := storage (rlog (rnRaft (rn (rcNode rc)))).
Definition set_raftStorage (st : MemoryStorage) (rc : RaftNode) : RaftNode :=
  let n := rcNode rc in
  let r := rnRaft (rn n) in
  let l := rlog r in
  set_rcNode (set_rn (set_rnRaft (set_rlog (mkLog st (unst l) (committed l) (applied l) (maxNextEntsSize l)) r) (rn n)) n) rc.
Definition storage_lens : lens RaftNode MemoryStorage := mkLens raftStorage set_raftStorage.

Section glue.
Context {rt : GoRuntime} {env : RaftEnv} (SegmentSizeBytes : Z).
Context (partial : bytes -> ConfChange) (partialV2 : bytes -> ConfChangeV2).

#[local] Abbreviation G := (M RaftNode).

Definition saveSnap (snap : Snapshot) : G (option wal_error) :=
  let walSnap := mkWalSnapshot (sIndex snap) (sTerm snap) (Some (mConfState (sMetadata snap))) in
  zoom snapdir_lens (SaveSnap snap);;
  err ← zoom wal_lens (SaveSnapshot walSnap);
  match err with
  | Some e => mret (Some e)
  | None => zoom wal_lens (ReleaseLockTo (sIndex snap));; mret None
  end.

Definition entriesToApply (ents : list Entry) : G (list Entry) :=
  match ents with
  | [] => mret ents
  | e0 :: _ =>
    rc ← get;
    let firstIdx := eIndex e0 in
    if u64 (appliedIndex rc + 1) <? firstIdx then panic
    else
      let skip := u64 (u64 (appliedIndex rc - firstIdx) + 1) in
      if skip <? zlen ents then lift (zslice skip (zlen ents) ents) else mret []
  end.

Definition node_call (ev : event) : G reply := zoom node_lens (run_once ev).

Definition apply_conf (cc : ConfChangeI) : G unit :=
  r ← node_call (node_ApplyConfChange cc);
  match r with
  | ConfReply cs => modify (set_confState cs)
  | _ => panic
  end.

(** [append(Peers[:id], Peers[id+1:]...)] *)
Definition drop_peer (id : Z) (ps : list bytes) : outcome (list bytes) :=
  a ← zslice 0 id ps;
  b ← zslice (u64 (id + 1)) (zlen ps) ps;
  Ret (a ++ b).

(** The [switch] on the type of a change; false when the node itself goes. *)
Definition member_change (typ : ConfChangeType) (nodeID : Z) (context : option bytes) : G bool :=
  match typ with
  | ConfChangeAddNode =>
    if 0 <? zlen (default [] context) then modify (emit (TransportAddPeer nodeID (default [] context)));; mret true
    else mret true
  | ConfChangeRemoveNode =>
    rc ← get;
    if nodeID =? u64 (rcId rc) then mret false
    else
      modify (emit (TransportRemovePeer nodeID));;
      ps ← lift (drop_peer nodeID (Peers rc));
      modify (set_Peers ps);; mret true
  | _ => mret true
  end.

Fixpoint member_changes (changes : list ConfChangeSingle) (context : option bytes) : G bool :=
  match changes with
  | [] => mret true
  | c :: changes =>
    ok ← member_change (ccType c) (NodeID c) context;
    if (ok : bool) then member_changes changes context else mret false
  end.

(** [cc.Unmarshal(data)] with its error ignored. *)
Definition or_partial {T} (r : dec T) (p : T) : outcome T :=
  match r with
  | DOk c => Ret c
  | DErr _ => Ret p
  | DPanic => Panic
  | DSpin => Block
  end.

(** The body of the loop of [publishEntries]: the data with what the entry adds,
    or [None] for the return with false. *)
Definition publish_entry (e : Entry) (data : list RaftProposal) : G (option (list RaftProposal)) :=
  let d := default [] (eData e) in
  match eType e with
  | EntryNormal =>
    if zlen d =? 0 then mret (Some data)
    else
      let '(s, err) := Unmarshal proposal_fields d (mkProposal [] []) in
      if (err : bool) then panic else mret (Some (data ++ [s]))
  | EntryConfChange =>
    cc ← lift (or_partial (ConfChange_Unmarshal d zero_ConfChange) (partial d));
    apply_conf (V1 cc);;
    ok ← member_change (cType cc) (cNodeID cc) (cContext cc);
    mret (if (ok : bool) then Some data else None)
  | EntryConfChangeV2 =>
    cc ← lift (or_partial (ConfChangeV2_Unmarshal d zero_ConfChangeV2) (partialV2 d));
    apply_conf (V2 cc);;
    ok ← member_changes (Changes cc) (ccContext cc);
    mret (if (ok : bool) then Some data else None)
  | _ => mret (Some data)
  end.

Fixpoint publish_loop (ents : list Entry) (data : list RaftProposal) : G (option (list RaftProposal)) :=
  match ents with
  | [] => mret (Some data)
  | e :: ents =>
    r ← publish_entry e data;
    match r with
    | None => mret None
    | Some data => publish_loop ents data
    end
  end.

(** [None] is the return with false; otherwise, whether there is an
    [applyDoneC]. *)
Definition publishEntries (stopped : bool) (ents : list Entry) : G (option bool) :=
  if zlen ents =? 0 then mret (Some false)
  else
    r ← publish_loop ents [];
    match r with
    | None => mret None
    | Some data =>
      if (0 <? zlen data) && stopped then mret None
      else
        (if 0 <? zlen data then modify (emit (CommitC (Some data))) else mret tt);;
        e ← lift (zindex ents (zlen ents - 1));
        modify (set_appliedIndex (eIndex e));;
        mret (Some (0 <? zlen data))
    end.

Definition publishSnapshot (snapshotToSave : Snapshot) : G unit :=
  if IsEmptySnap snapshotToSave then mret tt
  else
    rc ← get;
    if sIndex snapshotToSave <=? appliedIndex rc then panic
    else
      modify (emit (CommitC None));;
      modify (set_confState (mConfState (sMetadata snapshotToSave)));;
      modify (set_snapshotIndex (sIndex snapshotToSave));;
      modify (set_appliedIndex (sIndex snapshotToSave)).

(** [getSnapshot] is what the call returns, [None] for an error; [applyDoneC],
    whether there is one; [stopped], whether the node is stopped before it is
    closed. *)
Definition maybeTriggerSnapshot (getSnapshot : option bytes) (stopped applyDoneC : bool) : G unit :=
  rc ← get;
  if u64 (appliedIndex rc - snapshotIndex rc) <=? snapCount rc then mret tt
  else if applyDoneC && stopped then mret tt
  else
    data ← or_panic getSnapshot;
    snap ← zoom storage_lens (CreateSnapshot (appliedIndex rc) (Some (confState rc)) (Some data));
    match snap with
    | inr _ => panic
    | inl snap =>
      err ← saveSnap snap;
      match err with
      | Some _ => panic
      | None =>
        let compactIndex := if snapshotCatchUpEntriesN <? appliedIndex rc then appliedIndex rc - snapshotCatchUpEntriesN else 1 in
        err ← zoom storage_lens (Compact compactIndex);
        match err with
        | inr _ => panic
        | inl _ => modify (set_snapshotIndex (appliedIndex rc))
        end
      end
    end.

(** A snapshot that is sent carries the current configuration. *)
Definition processMessages (cs : ConfState) (ms : list Message) : list Message :=
  (fun m =>
    if bool_decide (mtType m = MsgSnap) then
      let s := mtSnapshot m in
      set_mtSnapshot (mkSnapshot (sData s) (mkMetadata cs (sIndex s) (sTerm s))) m
    else m) <$> ms.

Definition stop : G unit := modify (emit Stopped).

(** One [Ready]; false when the loop ends. *)
Definition serve_ready (getSnapshot : option bytes) (stopped : bool) (rd : Ready) : G bool :=
  (if IsEmptySnap (rdSnapshot rd) then mret tt else saveSnap (rdSnapshot rd);; mret tt);;
  zoom wal_lens (Save SegmentSizeBytes (rdHardState rd) (rdEntries rd));;
  (if IsEmptySnap (rdSnapshot rd) then mret tt
   else zoom storage_lens (ApplySnapshot (rdSnapshot rd));; publishSnapshot (rdSnapshot rd));;
  zoom storage_lens (Append (rdEntries rd));;
  rc ← get;
  modify (emit (TransportSend (processMessages (confState rc) (rdMessages rd))));;
  nents ← entriesToApply (rdCommittedEntries rd);
  r ← publishEntries stopped nents;
  match r with
  | None => stop;; mret false
  | Some applyDoneC =>
    maybeTriggerSnapshot getSnapshot stopped applyDoneC;;
    node_call OnAdvance;;
    mret true
  end.

(** What [serveChannels] and the goroutine it starts may receive. *)
Inductive glue_event : Type :=
| GTick
| GReady (getSnapshot : option bytes) (stopped : bool)
| GError
| GStop
| GPropose (p : RaftProposal)
| GConfChange (cc : ConfChangeI).

(** One round of either loop; false when [serveChannels] returns. *)
Definition serve_event (ev : glue_event) : G bool :=
  match ev with
  | GTick => node_call OnTick;; mret true
  | GReady getSnapshot stopped =>
    r ← node_call OnReady;
    match r with
    | ReadyReply rd => serve_ready getSnapshot stopped rd
    | _ => panic
    end
  | GError => modify (emit ErrorC);; mret false
  | GStop => stop;; mret false
  | GPropose p => node_call (node_Propose (Some (proposal_ToBytes p)));; mret true
  | GConfChange cc =>
    e ← lift (node_ProposeConfChange cc);
    match e with
    | None => mret true
    | Some e =>
      r ← node_call e;
      match r with
      | PropResult (Some _) => panic
      | _ => mret true
      end
    end
  end.

(** [Process], [ReportUnreachable] and [ReportSnapshot], which the transport
    calls. *)
Definition Process (m : Message) : G unit :=
  match node_Step m with
  | None => mret tt
  | Some e => node_call e;; mret tt
  end.

Definition glue_ReportUnreachable (id : Z) : G unit := node_call (node_ReportUnreachable id);; mret tt.
Definition glue_ReportSnapshot (id : Z) (status : SnapshotStatus) : G unit := node_call (node_ReportSnapshot id status);; mret tt.

(** The start of [serveChannels]. *)
Definition serve_start : G unit :=
  snap ← gets (fun rc => snapshot (raftStorage rc));
  modify (set_confState (mConfState (sMetadata snap)));;
  modify (set_snapshotIndex (sIndex snap));;
  modify (set_appliedIndex (sIndex snap)).

(* ===================================================================== *)
(** ** Starting from what is on disk                                     *)
(* ===================================================================== *)

Context (readdirnames : gmap bytes bytes -> list bytes).

(** [wal.Exist] *)
Definition wal_Exist (files : list File) : bool := negb (zlen files =? 0).

Definition loadSnapshot (files : list File) : M (gmap bytes bytes) (option Snapshot) :=
  if wal_Exist files then
    walSnaps ← lift (ValidSnapshotEntries files);
    match walSnaps with
    | inr _ => panic
    | inl walSnaps =>
      r ← LoadNewestAvailable readdirnames walSnaps;
      match r with
      | inr snapshot => mret (Some snapshot)
      | inl ErrNoSnapshot => mret None
      | inl _ => panic
      end
    end
  else mret (Some zero_Snapshot).

Definition openWAL (files : list File) (snapshot : option Snapshot) : outcome WAL :=
  files ← (if wal_Exist files then Ret files
           else
             '(w, err) ← Create SegmentSizeBytes None;
             if (err : bool) then Panic else Close w);
  let walsnap :=
    match snapshot with
    | Some s => mkWalSnapshot (sIndex s) (sTerm s) None
    | None => zero_walSnapshot
    end in
  match Open files walsnap with
  | inl w => Ret w
  | inr _ => Panic
  end.

Definition replayWAL (files : list File) : M (gmap bytes bytes) (MemoryStorage * WAL) :=
  snapshot ← loadSnapshot files;
  w ← lift (openWAL files snapshot);
  '(r, w) ← lift (ReadAll w);
  match resErr r with
  | Some _ => panic
  | None =>
    '(_, ms) ← lift ((match snapshot with Some s => ApplySnapshot s;; mret tt | None => mret tt end;;
                      SetHardState (resState r);;
                      Append (resEnts r)) NewMemoryStorage);
    mret (ms, w)
  end.

(** [startRaft] on the files of the node; [k] numbers its random choices. *)
Definition startRaft (id : Z) (peers : list bytes) (join : bool) (k : nat) (files : list File) (d : gmap bytes bytes) : outcome RaftNode :=
  let oldwal := wal_Exist files in
  '((ms, w), d) ← replayWAL files d;
  let rpeers := imap (fun i _ => mkPeer (Z.of_nat i + 1) None) peers in
  let c := mkRaftConfig (u64 id) 10 1 ms 0 (1024 * 1024) 0 (2 ^ 30) 256 false false ReadOnlySafe false in
  n ← (if oldwal || join then RestartNode c k else setupNode c k rpeers);
  let added := concat (imap (fun i url =>
    if negb (Z.of_nat i + 1 =? id) && negb (beq url []) then [TransportAddPeer (Z.of_nat i + 1) url] else []) peers) in
  Ret (mkRaftNode id peers zero_ConfState 0 0 defaultSnapshotCount n w d added).
End glue.

(* ===================================================================== *)
(** ** A proposal through the log                                        *)
(* ===================================================================== *)

(** What arrives of a proposal: bytes that are no UTF-8 are replaced. *)
Definition received (p : RaftProposal) : RaftProposal := mkProposal (sanitize (pData p)) (sanitize (pID p)).

Lemma store_string {A} (fs : list (field A)) k v set a e : find_field fs (sanitize k) = Some (string_field (sanitize k) set) ->
  store_member fs (a, e) (string_member (k, v)) = (set (sanitize v) a, e).
Proof.
  intros Hf. unfold store_member, string_member. rewrite unquote_quote_body. cbn [mbind option_bind]. rewrite Hf. cbn [string_field fstore].
  rewrite unquote_quote_body. by rewrite orb_false_r.
Qed.

Lemma unmarshal_ToBytes p q : Unmarshal proposal_fields (proposal_ToBytes p) q = (received p, false).
Proof.
  unfold Unmarshal, proposal_ToBytes. rewrite parse_MarshalStrings. unfold Json.decode, fmap. cbn [list_fmap fold_left].
  rewrite (store_string _ _ _ (fun v p => mkProposal v (pID p))) by reflexivity.
  rewrite (store_string _ _ _ (fun v p => mkProposal (pData p) v)) by reflexivity. reflexivity.
Qed.

Lemma ToBytes_nonempty p : (zlen (proposal_ToBytes p) =? 0) = false.
Proof. reflexivity. Qed.

(** C13: What a node proposes is what every node gets out of the log: the JSON of a
    proposal decodes without error, whatever bytes the command has and whatever was
    in the struct before, to the proposal with its invalid UTF-8 replaced, and to
    the very same proposal if it is valid UTF-8. *)
Theorem proposal_roundtrip (p q : RaftProposal) :
  Unmarshal proposal_fields (proposal_ToBytes p) q = (received p, false) /\
  (Valid (pData p) && Valid (pID p) = true -> received p = p).
Proof.
  split; [apply unmarshal_ToBytes|]. intros [H1 H2]%andb_true_iff. unfold received. rewrite !sanitize_valid by done. by destruct p.
Qed.

(* ===================================================================== *)
(** ** Commands are published once and in order                          *)
(* ===================================================================== *)

(** An entry that carries this proposal, or nothing. *)
Definition carries (e : Entry) (o : option RaftProposal) : Prop :=
  eType e = EntryNormal /\
  match o with
  | Some p => eData e = Some (proposal_ToBytes p)
  | None => zlen (default [] (eData e)) = 0
  end.

(** The commands in a list of effects. *)
Definition delivered (es : list effect) : list RaftProposal :=
  es ≫= (fun e => match e with CommitC (Some data) => data | _ => [] end).

Definition received_all (os : list (option RaftProposal)) : list RaftProposal := received <$> omap id os.

(** Committed entries come in batches: each starts at an entry that is applied or is
    the next one, but may repeat entries. *)
Fixpoint batches_fit (n a : nat) (bs : list (nat * nat)) : Prop :=
  match bs with
  | [] => True
  | (lo, hi) :: bs => (lo <= a)%nat /\ (lo <= hi <= n)%nat /\ batches_fit n (Nat.max a hi) bs
  end.

Fixpoint reached (a : nat) (bs : list (nat * nat)) : nat :=
  match bs with [] => a | (_, hi) :: bs => reached (Nat.max a hi) bs end.

Lemma reached_ge bs a : (a <= reached a bs)%nat.
Proof. revert a. induction bs as [|[lo hi] bs IH]; intros a; [done|]. cbn. specialize (IH (Nat.max a hi)). lia. Qed.

Section publish.
Context {rt : GoRuntime} {env : RaftEnv} (partial : bytes -> ConfChange) (partialV2 : bytes -> ConfChangeV2).

Lemma publish_loop_normal es os data rc : Forall2 carries es os ->
  publish_loop partial partialV2 es data rc = Ret (Some (data ++ received_all os), rc).
Proof using Type.
  intros H. revert data. induction H as [|e o es os [Ht Hd] _ IH]; intros data.
  { cbn. by rewrite app_nil_r. }
  cbn [publish_loop]. unfold publish_entry. rewrite Ht. unfold mbind at 1, M_bind at 1. destruct o as [p|].
  - rewrite Hd. cbn [default from_option id]. rewrite ToBytes_nonempty, unmarshal_ToBytes. cbn [mret M_ret]. rewrite IH.
    unfold received_all. cbn [omap list_omap id fmap list_fmap]. by rewrite <- app_assoc.
  - rewrite Hd. cbn [Z.eqb mret M_ret]. apply IH.
Qed.

Lemma delivered_app a b : delivered (a ++ b) = delivered a ++ delivered b.
Proof. apply bind_app. Qed.

Lemma publishEntries_normal es os rc : Forall2 carries es os ->
  exists rc' new, publishEntries partial partialV2 false es rc = Ret (Some (0 <? zlen (received_all os)), rc') /\
    appliedIndex rc' = default (appliedIndex rc) (eIndex <$> last es) /\
    outs rc' = outs rc ++ new /\ delivered new = received_all os.
Proof using Type.
  intros H. destruct (decide (es = [])) as [->|Hne].
  { apply Forall2_nil_inv_l in H as ->. exists rc, []. cbn. rewrite app_nil_r. done. }
  assert (exists e, last es = Some e) as [e He].
  { destruct (last es) eqn:E; [eauto|]. by apply last_None in E. }
  assert (zlen es <> 0) as Hz. { unfold zlen. destruct es; [done|]. cbn. lia. }
  assert (zindex es (zlen es - 1) = Ret e) as Hi.
  { apply zindex_lookup. unfold znth. pose proof (zlen_nonneg es). rewrite (proj2 (Z.ltb_ge _ _)) by lia.
    rewrite last_lookup in He. rewrite <- He. f_equal. unfold zlen. lia. }
  unfold publishEntries. rewrite (proj2 (Z.eqb_neq _ _) Hz). unfold mbind at 1, M_bind at 1. rewrite (publish_loop_normal es os [] rc H). cbn [app].
  rewrite andb_false_r. cbv [mbind M_bind]. destruct (Z.ltb_spec 0 (zlen (received_all os))) as [Hp|Hp].
  - cbv [modify]. unfold lift. rewrite Hi. eexists _, [CommitC (Some (received_all os))]. split; [reflexivity|]. rewrite He.
    split; [done|]. split; [done|]. cbn. apply app_nil_r.
  - cbv [mret M_ret modify]. unfold lift. rewrite Hi. eexists _, []. split; [reflexivity|]. rewrite He. rewrite app_nil_r.
    split; [done|]. split; [done|]. cbn. assert (received_all os = []) as ->; [|done]. pose proof (zlen_nonneg (received_all os)). apply zlen_zero. lia.
Qed.

(** The calls of [serve_ready] that publish the committed entries of a [Ready]. *)
Definition publish_committed (ents : list Entry) : M RaftNode unit :=
  nents ← entriesToApply ents;
  publishEntries partial partialV2 false nents;;
  mret tt.

(** The part of a list from position [lo] to position [hi]. *)
Definition segment {A} (l : list A) (lo hi : nat) : list A := drop lo (take hi l).

Lemma segment_app {A} (l : list A) i j k : (i <= j <= k)%nat -> segment l i j ++ segment l j k = segment l i k.
Proof.
  intros [Hij Hjk]. unfold segment. rewrite <- (drop_take_drop (take k l) i j) by done. by rewrite take_take, Nat.min_l by lia.
Qed.

Context (log : list Entry) (os : list (option RaftProposal)).
Context (Hlog : Forall2 carries log os) (Hnum : numbered 1 log) (Hlen : zlen log < 2 ^ 63).

Lemma entriesToApply_segment lo hi rc a : appliedIndex rc = Z.of_nat a -> (lo <= a)%nat -> (lo <= hi <= length log)%nat ->
  (a <= length log)%nat -> entriesToApply (segment log lo hi) rc = Ret (segment log a hi, rc).
Proof using Hnum Hlen.
  intros Ha Hlo Hhi Hal. assert (length (segment log lo hi) = (hi - lo)%nat) as Hl.
  { unfold segment. rewrite length_drop, length_take. lia. }
  destruct (segment log lo hi) as [|e0 es] eqn:E.
  { cbn in Hl. unfold segment. rewrite drop_ge by (rewrite length_take; lia). done. }
  assert (eIndex e0 = Z.of_nat lo + 1) as He0.
  { assert (log !! lo = Some e0) as H.
    { assert (segment log lo hi !! 0%nat = Some e0) as H0 by (by rewrite E). unfold segment in H0.
      rewrite lookup_drop, Nat.add_0_r, lookup_take_lt in H0; [done|]. cbn in Hl. lia. }
    rewrite (Hnum _ _ H). lia. }
  unfold entriesToApply. cbv [mbind M_bind get]. rewrite Ha, He0. unfold zlen in Hlen.
  rewrite (u64_id (Z.of_nat a + 1)) by lia. rewrite (proj2 (Z.ltb_ge _ _)) by lia. cbv zeta.
  assert (u64 (u64 (Z.of_nat a - (Z.of_nat lo + 1)) + 1) = Z.of_nat (a - lo)) as ->.
  { unfold u64. rewrite Zplus_mod_idemp_l, Z.mod_small by lia. lia. }
  rewrite <- E in Hl |- *. assert (zlen (segment log lo hi) = Z.of_nat (hi - lo)) as -> by (unfold zlen; by rewrite Hl).
  destruct (Z.ltb_spec (Z.of_nat (a - lo)) (Z.of_nat (hi - lo))).
  - rewrite zslice_ok by (unfold zlen; lia). unfold lift. do 2 f_equal.
    rewrite take_ge by (rewrite length_drop; lia). unfold segment. rewrite drop_drop. f_equal. lia.
  - unfold segment. rewrite (drop_ge _ a) by (rewrite length_take; lia). done.
Qed.

Lemma segment_carries lo hi : Forall2 carries (segment log lo hi) (segment os lo hi).
Proof using Hlog. apply Forall2_drop, Forall2_take, Hlog. Qed.

Lemma segment_last lo hi : (lo < hi <= length log)%nat -> (eIndex <$> last (segment log lo hi)) = Some (Z.of_nat hi).
Proof using Hnum.
  intros Hh. unfold segment. rewrite last_lookup, lookup_drop, length_drop, length_take.
  replace (lo + pred (hi `min` length log - lo))%nat with (hi - 1)%nat by lia. rewrite lookup_take_lt by lia.
  destruct (lookup_lt_is_Some_2 log (hi - 1)) as [e E]; [lia|]. rewrite E. cbn. f_equal. rewrite (Hnum _ _ E). lia.
Qed.

Lemma publish_segment lo hi rc a : appliedIndex rc = Z.of_nat a -> (lo <= a <= length log)%nat -> (lo <= hi <= length log)%nat ->
  exists rc' new, publish_committed (segment log lo hi) rc = Ret (tt, rc') /\ appliedIndex rc' = Z.of_nat (Nat.max a hi) /\
    outs rc' = outs rc ++ new /\ delivered new = received_all (segment os a (Nat.max a hi)).
Proof using Hlog Hnum Hlen.
  intros Ha Hlo Hhi. unfold publish_committed. cbv [mbind M_bind].
  rewrite (entriesToApply_segment lo hi rc a) by (done || lia).
  destruct (publishEntries_normal _ _ rc (segment_carries a hi)) as (rc' & new & E & Hap & Ho & Hd). rewrite E.
  exists rc', new. split; [done|]. destruct (decide (a < hi)%nat).
  - rewrite Nat.max_r by lia. rewrite Hap, segment_last by lia. done.
  - rewrite Nat.max_l by lia. assert (forall B (l : list B), segment l a hi = []) as En.
    { intros B l. unfold segment. apply drop_ge. rewrite length_take. lia. }
    rewrite En in Hap, Hd. assert (segment os a a = []) as -> by (unfold segment; apply drop_ge; rewrite length_take; lia).
    split; [by rewrite Hap|done].
Qed.

Lemma publish_segments bs : forall a rc, appliedIndex rc = Z.of_nat a -> (a <= length log)%nat ->
  batches_fit (length log) a bs ->
  exists rc' new, forM bs (fun '(lo, hi) => publish_committed (segment log lo hi)) rc = Ret (tt, rc') /\
    appliedIndex rc' = Z.of_nat (reached a bs) /\ outs rc' = outs rc ++ new /\ delivered new = received_all (segment os a (reached a bs)).
Proof using Hlog Hnum Hlen.
  induction bs as [|[lo hi] bs IH]; intros a rc Ha Hal Hf.
  { exists rc, []. rewrite app_nil_r. split; [done|]. split; [done|]. split; [done|]. unfold segment. cbn [reached].
    rewrite drop_ge by (rewrite length_take; lia). done. }
  destruct Hf as (Hlo & Hhi & Hf). destruct (publish_segment lo hi rc a Ha ltac:(lia) Hhi) as (rc1 & new1 & E1 & Ha1 & Ho1 & Hd1).
  destruct (IH _ _ Ha1 ltac:(lia) Hf) as (rc2 & new2 & E2 & Ha2 & Ho2 & Hd2).
  exists rc2, (new1 ++ new2). split; [unfold forM in *; cbn [foldM]; unfold mbind, M_bind; by rewrite E1|]. split; [exact Ha2|].
  split; [by rewrite Ho2, Ho1, app_assoc|]. rewrite delivered_app, Hd1, Hd2. cbn [reached]. unfold received_all.
  rewrite <- fmap_app, <- omap_app. do 2 f_equal. apply segment_app. pose proof (reached_ge bs (Nat.max a hi)). lia.
Qed.
End publish.


(* ===================================================================== *)
(** ** Instances of the theorems                                         *)
(* ===================================================================== *)

(** A node with a given storage and a new write-ahead log. *)
Lemma demo_rc ms snap applied : exists rc, raftStorage rc = ms /\ snapshotIndex rc = snap /\ appliedIndex rc = applied /\
  snapCount rc = defaultSnapshotCount /\ confState rc = mkConfState [1; 2; 3] [] [] [] false /\ sim None (rcWal rc) abs_init.
Proof.
  assert (exists n, @RestartNode MemoryStorage _ plain_runtime demo_env (demo_conf 1 saved_storage) 0 = Ret n) as [n _].
  { eexists. vm_compute. reflexivity. }
  destruct (Create_sim 4096 ltac:(lia) ltac:(done) None ltac:(done)) as (w & _ & Hs).
  exists (set_raftStorage ms (mkRaftNode 1 [] (mkConfState [1; 2; 3] [] [] [] false) snap applied defaultSnapshotCount n w ∅ [])).
  split_and!; try reflexivity. exact Hs.
Qed.

(** Four committed entries, of which the first has no command, in batches that
    overlap; the first two are applied already. *)
Definition demo_proposals : list (option RaftProposal) :=
  [None; Some (mkProposal (bs "set a 1") (bs "x")); Some (mkProposal (bs "incr a") (bs "y")); Some (mkProposal (bs "get a") (bs "z"))].

Definition demo_log : list Entry :=
  imap (fun i o => mkEntry 1 (Z.of_nat i + 1) EntryNormal (proposal_ToBytes <$> o)) demo_proposals.

