(* ===== verification/RaftRecovery.v ===== *)
(** * RaftRecovery: what a node keeps on disk

    A node saves what raft hands it in the write-ahead log and appends it to the
    storage that raft reads. After a crash the storage is built again from the
    disk, and is the one that was lost. Snapshots are taken, saved and used to
    compact the storage without an error. *)

From S2P Require Import Prelude Strconv Utf8 Json RaftPb Quorum RaftStorage RaftLog Tracker ConfChange RaftWire RaftCodec RaftNode RawNode RaftSafety WalPb PageWriter Wal WalRun WalSnaps Snap RaftGlue.

(* ===================================================================== *)
(** ** The entries of the log are the entries of the storage             *)
(* ===================================================================== *)

Lemma numbered_put l e : numbered 1 l -> 1 <= eIndex e <= zlen l + 1 -> numbered 1 (put_entry l e).
Proof.
  intros Hn He k x. unfold put_entry. rewrite lookup_app.
  destruct (take (Z.to_nat (eIndex e - 1)) l !! k) as [y|] eqn:E.
  - intros [= <-]. apply lookup_take_Some in E as [E _]. by apply Hn.
  - rewrite length_take. intros H. apply list_lookup_singleton_Some in H as [Hk ->]. apply lookup_take_None in E.
    unfold zlen in He. destruct E as [E|E]; [|lia]. apply lookup_ge_None in E. lia.
Qed.

Lemma numbered_puts es l : numbered 1 l -> entries_fit l es -> numbered 1 (fold_left put_entry es l).
Proof. revert l. induction es as [|e es IH]; intros l Hn; [done|]. intros (He & _ & Hf). apply IH; [by apply numbered_put|done]. Qed.

Lemma abs_numbered md ops a : numbered 1 (aEnts a) -> ops_fit md ops a -> numbered 1 (aEnts (abs_after md ops a)).
Proof.
  revert a. induction ops as [|op ops IH]; intros a Hn; [done|]. intros [Hf Hfs]. apply IH; [|done].
  destruct op; cbn [abs_op snd aEnts]; try done. by apply numbered_puts; [|apply Hf].
Qed.

Lemma puts_incl es l : incl (fold_left put_entry es l) (l ++ es).
Proof.
  revert l. induction es as [|e es IH]; intros l; cbn [fold_left]; [rewrite app_nil_r; apply incl_refl|].
  intros x Hx%IH. apply in_app_iff in Hx as [Hx|Hx]; [|apply in_app_iff; right; by right].
  unfold put_entry in Hx. apply in_app_iff in Hx as [Hx|[<-|[]]]; apply in_app_iff; [left|right; by left].
  apply list_elem_of_In, elem_of_take in Hx as (k & Hk & _). apply list_elem_of_In. by eapply list_elem_of_lookup_2.
Qed.

Lemma puts_length es l : (length (fold_left put_entry es l) <= length l + length es)%nat.
Proof.
  revert l. induction es as [|e es IH]; intros l; cbn [fold_left length]; [lia|]. specialize (IH (put_entry l e)). unfold put_entry in *.
  rewrite length_app, length_take in IH. cbn [length] in IH. lia.
Qed.

(** Consecutive entries replace the end of the log. *)
Lemma put_batch i es : forall l, numbered i es -> 1 <= i <= zlen l + 1 ->
  es <> [] -> fold_left put_entry es l = take (Z.to_nat (i - 1)) l ++ es.
Proof.
  revert i. induction es as [|e es IH]; intros i l Hn Hi Hne; [done|]. cbn [fold_left].
  assert (eIndex e = i) as He by (rewrite (Hn 0%nat e eq_refl); lia).
  assert (put_entry l e = take (Z.to_nat (i - 1)) l ++ [e]) as Hp by (unfold put_entry; by rewrite He).
  destruct es as [|e' es]; [by rewrite Hp|].
  assert (zlen (put_entry l e) = i) as Hl by (rewrite Hp, zlen_app, zlen_take by lia; unfold zlen; cbn; lia).
  rewrite (IH (i + 1)); [|intros k x Hx; rewrite (Hn (S k) x Hx); lia|lia|done].
  rewrite take_ge by (unfold zlen in Hl; lia). rewrite Hp, <- app_assoc. done.
Qed.

Section recovery.
Context {rt : GoRuntime} {env : RaftEnv} (SegmentSizeBytes : Z) (Hseg : 0 <= SegmentSizeBytes) (Hseg8 : SegmentSizeBytes mod 8 = 0).
Context (readdirnames : gmap bytes bytes -> list bytes) (Hnames : forall d n, n ∈ readdirnames d <-> is_Some (d !! n)).

Lemma run_ops_after ops : forall w a, sim None w a -> ops_fit None ops a ->
  exists w', run_ops SegmentSizeBytes ops w = Ret (abs_ops None ops a, w') /\ sim None w' (abs_after None ops a).
Proof using Hseg Hseg8.
  induction ops as [|op ops IH]; intros w a Hs Hf; [by exists w|]. destruct Hf as [Hf1 Hf2]. cbn [run_ops abs_ops abs_after].
  destruct (run_op_sim SegmentSizeBytes Hseg Hseg8 None op w a Hs Hf1) as (w1 & E1 & Hs1). rewrite E1. destruct (abs_op None op a) as [o a1]. cbn [fst snd] in *.
  destruct (IH w1 a1 Hs1 Hf2) as (w2 & E2 & Hs2). exists w2. cbn [mbind outcome_bind]. by rewrite E2.
Qed.

(** A storage that starts at index 1 and holds these entries. *)
Definition full_storage (ms : MemoryStorage) (es : list Entry) : Prop := ms_ok ms /\ ms_view ms = mkView 0 0 es.

Lemma full_storage_of st sn es : numbered 1 es -> Forall (fun e => 0 < eTerm e) es -> zlen es + 2 < 2 ^ 62 ->
  full_storage (mkMS st sn (zero_entry :: es)) es.
Proof.
  intros Hn Ht Hl. pose proof (zlen_nonneg es). split; [|done]. split; [done|]. split; [|cbn [ents]; rewrite zlen_cons; unfold MaxInt64; lia].
  unfold view_ok, vlast, ms_view. cbn [ents base tail baseTerm eIndex eTerm zero_entry]. split_and!; try lia; done.
Qed.

Lemma new_storage st : full_storage (mkMS st zero_Snapshot [zero_entry]) [].
Proof. apply full_storage_of; [intros k e H; discriminate H|constructor|done]. Qed.

Lemma Append_full ms es i new : full_storage ms es -> numbered i new -> 1 <= i <= zlen es + 1 -> Forall (fun e => 0 < eTerm e) new ->
  zlen es + zlen new + 2 < 2 ^ 62 ->
  exists ms', Append new ms = Ret (inl tt, ms') /\ full_storage ms' (fold_left put_entry new es) /\ hardState ms' = hardState ms.
Proof using Type.
  intros [Hok Hv] Hn Hi Ht Hl. destruct (decide (new = [])) as [->|Hne]; [by exists ms|]. pose proof (zlen_nonneg new).
  assert (0 < zlen new) by (destruct new; [done|]; unfold zlen in *; cbn in *; lia).
  assert (tail (overwrite i new (ms_view ms)) = take (Z.to_nat (i - 1)) es ++ new) as Ht'.
  { rewrite Hv. cbn. rewrite Z.sub_0_r. by replace (Z.to_nat (0 + 1 - i)) with 0%nat by lia. }
  destruct (Append_eq ms Hok i new) as (ms' & E & Hv' & Hok' & _ & Hh); [done|split_and!; [lia|lia|done|done]| | | |].
  - rewrite Hv. unfold vlast. cbn. lia.
  - rewrite Hv. cbn. lia.
  - rewrite Ht', zlen_app, zlen_take by lia. unfold MaxInt64. lia.
  - exists ms'. split; [done|]. split; [|done]. split; [done|]. rewrite Hv', (put_batch i), <- Ht' by done. by rewrite Hv.
Qed.

Lemma sim_open w a : sim None w a -> synced w -> exists w1 w2, Open (disk w) zero_walSnapshot = inl w1 /\
  ReadAll w1 = Ret (mkReadResult None (aState a) (aEnts a) None, w2).
Proof using Type.
  intros Hs Hsy. destruct (sim_restart None w a Hs Hsy) as (w' & E & _). unfold restart in E.
  destruct (Open (disk w) zero_walSnapshot) as [w1|]; [|done]. exists w1.
  destruct (ReadAll w1) as [[r w2]| |] eqn:Er; try done. cbn [mbind outcome_bind] in E. exists w2. split; [done|]. congruence.
Qed.

Lemma replay_sim w a d : sim None w a -> synced w -> files_fit d -> (forall n s, is_snap n -> ~ holds d n s) ->
  numbered 1 (aEnts a) -> Forall (fun e => 0 < eTerm e) (aEnts a) -> zlen (aEnts a) + 2 < 2 ^ 62 ->
  exists ms w' d', replayWAL SegmentSizeBytes readdirnames (disk w) d = Ret ((ms, w'), d') /\
    hardState ms = aState a /\ full_storage ms (aEnts a).
Proof using Hnames.
  intros Hs Hsy Hfit Hd Hn Ht Hl. destruct (sim_open w a Hs Hsy) as (w1 & w2 & Eo & Er).
  destruct Hs as (log & Hh & _). destruct (ValidSnapshotEntries_eq w None log Hh Hsy) as (its & _ & _ & Ev).
  assert (wal_Exist (disk w) = true) as Hex.
  { destruct Hh as [(segs & its' & c & e & _ & Hm & _) _]. unfold wal_Exist, disk, wtail. rewrite Hm. by destruct (closed w). }
  set (ws := filter _ _) in Ev. destruct (load_newest readdirnames Hnames (in_wal ws) d Hfit) as (r & d1 & El & _ & _ & Hnew).
  assert (r = inl ErrNoSnapshot) as ->.
  { destruct r as [e|s]; [by destruct Hnew as [-> _]|]. destruct Hnew as (_ & n & Hin & Hhold & _). by destruct (Hd n s Hin). }
  assert (loadSnapshot readdirnames (disk w) d = Ret (None, d1)) as Els.
  { unfold loadSnapshot. rewrite Hex. cbv [mbind M_bind]. unfold lift. rewrite Ev. unfold LoadNewestAvailable. by rewrite El. }
  destruct (Append_full (mkMS (aState a) zero_Snapshot [zero_entry]) [] 1 (aEnts a) (new_storage _) Hn ltac:(rewrite zlen_nil; lia) Ht ltac:(rewrite zlen_nil; lia))
    as (ms & Ea & Hfull & Hh').
  exists ms, w2, d1. unfold replayWAL. cbv [mbind M_bind]. rewrite Els. unfold openWAL. rewrite Hex. cbv [mbind outcome_bind]. unfold lift. rewrite Eo, Er.
  cbn [resErr resState resEnts]. cbv [mret M_ret SetHardState modify]. cbn [NewMemoryStorage snapshot ents]. rewrite Ea. split; [done|].
  split; [exact Hh'|]. destruct (decide (aEnts a = [])) as [E0|Hne]; [by rewrite E0 in Hfull |- *|].
  rewrite (put_batch 1) in Hfull by (rewrite ?zlen_nil; done || lia). exact Hfull.
Qed.

(** What [serve_ready] does for a [Ready] without a snapshot before it sends
    messages. *)
Definition persist (st : HardState) (es : list Entry) : M RaftNode unit :=
  zoom wal_lens (Save SegmentSizeBytes st es);;
  zoom storage_lens (Append es);;
  mret tt.

Lemma persist_sim rc a st es i : sim None (rcWal rc) a -> full_storage (raftStorage rc) (aEnts a) -> small st ->
  entries_fit (aEnts a) es -> numbered i es -> 1 <= i <= zlen (aEnts a) + 1 -> Forall (fun e => 0 < eTerm e) es ->
  zlen (aEnts a) + zlen es + 2 < 2 ^ 62 ->
  let a' := (abs_op None (OpSave st es) a).2 in
  exists rc', persist st es rc = Ret (tt, rc') /\ sim None (rcWal rc') a' /\ full_storage (raftStorage rc') (aEnts a').
Proof using Hseg Hseg8.
  intros Hs Hf Hst Hfit Hn Hi Ht Hl a'.
  destruct (run_op_sim SegmentSizeBytes Hseg Hseg8 None (OpSave st es) (rcWal rc) a Hs (conj Hst Hfit)) as (w' & E & Hs').
  cbn [run_op] in E. destruct (Save SegmentSizeBytes st es (rcWal rc)) as [[err w1]| |] eqn:Es; try done. cbn [mbind outcome_bind] in E.
  assert (w1 = w') as -> by congruence.
  destruct (Append_full (raftStorage rc) (aEnts a) i es Hf Hn Hi Ht Hl) as (ms & Ea & Hfull & _).
  exists (set_raftStorage ms (set_rcWal w' rc)). unfold persist. cbv [mbind M_bind]. unfold zoom at 1. change (view wal_lens rc) with (rcWal rc). rewrite Es.
  unfold zoom. change (view storage_lens (put wal_lens w' rc)) with (raftStorage rc). rewrite Ea. split; [done|]. split; [exact Hs'|exact Hfull].
Qed.
End recovery.

(** C2: No crash loses what raft was told is durable. Take any history of a
    write-ahead log, with restarts and crashes in it, and a node that runs on it
    with the entries of the log in its storage, and let the node handle a [Ready]
    whose hard state and entries have to be synced. Then nothing fails, and if the
    process dies at any time after that, even before it closes the log, the storage
    that the next start builds from the disk is the one the node had, with the last
    hard state, provided no snapshot was saved. *)
Theorem recovery {rt : GoRuntime} {env : RaftEnv} (SegmentSizeBytes : Z) (Hseg : 0 <= SegmentSizeBytes) (Hseg8 : SegmentSizeBytes mod 8 = 0)
  (readdirnames : gmap bytes bytes -> list bytes) (Hnames : forall d n, n ∈ readdirnames d <-> is_Some (d !! n))
  (ops : list wal_op) (Hops : ops_fit None ops abs_init) (st : HardState) (es : list Entry) (i : Z)
  (Hst : small st) (Hes : entries_fit (aEnts (abs_after None ops abs_init)) es) (Hn : numbered i es)
  (Hi : 1 <= i <= zlen (aEnts (abs_after None ops abs_init)) + 1)
  (Ht : Forall (fun e => 0 < eTerm e) (aEnts (abs_after None ops abs_init) ++ es))
  (Hl : zlen (aEnts (abs_after None ops abs_init)) + zlen es + 2 < 2 ^ 62)
  (Hsync : aSafe (abs_op None (OpSave st es) (abs_after None ops abs_init)).2 = true) :
  let a := abs_after None ops abs_init in
  exists w w1, Create SegmentSizeBytes None = Ret (w, false) /\ run_ops SegmentSizeBytes ops w = Ret (abs_ops None ops abs_init, w1) /\
  forall rc, rcWal rc = w1 -> full_storage (raftStorage rc) (aEnts a) ->
  exists rc', persist SegmentSizeBytes st es rc = Ret (tt, rc') /\
  forall d, files_fit d -> (forall n s, is_snap n -> ~ holds d n s) ->
  exists ms w2 d', replayWAL SegmentSizeBytes readdirnames (disk (rcWal rc')) d = Ret ((ms, w2), d') /\
    ms_view ms = ms_view (raftStorage rc') /\ ms_view ms = mkView 0 0 (fold_left put_entry es (aEnts a)) /\
    hardState ms = (if IsEmptyHardState st then aState a else st).
Proof.
  intros a. destruct (Create_sim SegmentSizeBytes Hseg Hseg8 None ltac:(done)) as (w & Ec & Hs0).
  destruct (run_ops_after SegmentSizeBytes Hseg Hseg8 ops w abs_init Hs0 Hops) as (w1 & E1 & Hs1). fold a in Hs1.
  exists w, w1. split; [exact Ec|]. split; [exact E1|]. intros rc <- Hfull. apply Forall_app in Ht as [Hta Hte].
  destruct (persist_sim SegmentSizeBytes Hseg Hseg8 rc a st es i Hs1 Hfull Hst Hes Hn Hi Hte Hl) as (rc' & Ep & Hs' & Hfull').
  exists rc'. split; [exact Ep|]. intros d Hfit Hd. set (a' := (abs_op None (OpSave st es) a).2) in *.
  assert (synced (rcWal rc')) as Hsy.
  { destruct Hs' as (log & _ & _ & _ & Hsafe). by apply Hsafe. }
  assert (numbered 1 (aEnts a')) as Hna.
  { apply numbered_puts; [|exact Hes]. apply abs_numbered; [|exact Hops]. intros k e H. discriminate H. }
  assert (incl (aEnts a') (aEnts a ++ es)) as Hincl by apply puts_incl.
  destruct (replay_sim SegmentSizeBytes readdirnames Hnames (rcWal rc') a' d Hs' Hsy Hfit Hd Hna) as (ms & w2 & d' & Er & Hh & Hf2).
  - apply Forall_forall. intros e He%list_elem_of_In%Hincl%list_elem_of_In. apply elem_of_app in He. rewrite Forall_forall in Hta, Hte. destruct He; auto.
  - pose proof (puts_length es (aEnts a)) as Hpl. change (aEnts a') with (fold_left put_entry es (aEnts a)). fold a in Hl. unfold zlen in Hl |- *. lia.
  - exists ms, w2, d'. split; [exact Er|]. destruct Hf2 as [_ ->], Hfull' as [_ ->]. split; [reflexivity|]. split; [reflexivity|exact Hh].
Qed.

(* ===================================================================== *)
(** ** Taking a snapshot                                                 *)
(* ===================================================================== *)

(** The storage reaches from at most the last snapshot to at least the entry
    applied last. *)
Record snap_inv (rc : RaftNode) (a : abs_log) : Prop := {
  si_wal : sim None (rcWal rc) a;
  si_storage : ms_ok (raftStorage rc);
  si_snapshot : sIndex (snapshot (raftStorage rc)) = snapshotIndex rc;
  si_base : base (ms_view (raftStorage rc)) <= snapshotIndex rc <= appliedIndex rc;
  si_last : appliedIndex rc <= vlast (ms_view (raftStorage rc))
}.

Definition wal_snap (sn : Snapshot) : walSnapshot := mkWalSnapshot (sIndex sn) (sTerm sn) (Some (mConfState (sMetadata sn))).

Section trigger.
Context {rt : GoRuntime} {env : RaftEnv}.

Lemma saveSnap_sim rc a sn : sim None (rcWal rc) a -> snap_ok sn -> 0 < sIndex sn < 2 ^ 64 - 1 -> small (wal_snap sn) ->
  exists w', saveSnap sn rc = Ret (None, set_rcWal w' (set_rcSnapdir (<[name_of sn := wire (file_of sn)]> (rcSnapdir rc)) rc)) /\
    sim None w' (abs_op None (OpSnap (wal_snap sn)) a).2.
Proof.
  intros Hs Hok Hi Hsm. unfold saveSnap. fold (wal_snap sn). cbv [mbind M_bind]. unfold zoom at 1. unfold SaveSnap, IsEmptySnap.
  rewrite (proj2 (Z.eqb_neq _ _)) by lia. change (view snapdir_lens rc) with (rcSnapdir rc). rewrite (snap_save_eq sn _ Hok).
  destruct (run_op_sim 0 ltac:(lia) ltac:(done) None (OpSnap (wal_snap sn)) (rcWal rc) a Hs) as (w1 & E1 & Hs1).
  { cbn [op_fits]. split; [done|]. cbn. split; [lia|]. split; [reflexivity|lia]. }
  cbn [run_op] in E1. destruct (SaveSnapshot (wal_snap sn) (rcWal rc)) as [[err w2]| |] eqn:Es; try done. cbn [mbind outcome_bind] in E1.
  assert (err = None /\ w2 = w1) as [-> ->] by (cbn [abs_op fst] in E1; split; congruence).
  unfold zoom. match goal with |- context [view wal_lens ?r] => change (view wal_lens r) with (rcWal rc) end. rewrite Es.
  destruct (release_sim None (sIndex sn) w1 _ Hs1) as (w3 & E3 & Hs3).
  match goal with |- context [view wal_lens ?r] => change (view wal_lens r) with w1 end. rewrite E3. exists w3. split; [reflexivity|exact Hs3].
Qed.

Definition new_snapshot (rc : RaftNode) (data : bytes) : Snapshot :=
  mkSnapshot (Some data) (mkMetadata (confState rc) (appliedIndex rc) (default 0 (vterm (ms_view (raftStorage rc)) (appliedIndex rc)))).

Lemma trigger_due rc a data stopped applyDone : applyDone && stopped = false -> snap_inv rc a -> snapCount rc = defaultSnapshotCount ->
  snapCount rc < appliedIndex rc - snapshotIndex rc -> appliedIndex rc < 2 ^ 64 - 1 ->
  snap_ok (new_snapshot rc data) -> small (wal_snap (new_snapshot rc data)) ->
  let sn := new_snapshot rc data in
  exists rc', maybeTriggerSnapshot (Some data) stopped applyDone rc = Ret (tt, rc') /\
    snap_inv rc' (abs_op None (OpSnap (wal_snap sn)) a).2 /\
    snapshotIndex rc' = appliedIndex rc /\ appliedIndex rc' = appliedIndex rc /\ snapshot (raftStorage rc') = sn /\
    ms_view (raftStorage rc') = compact (appliedIndex rc - snapshotCatchUpEntriesN) (ms_view (raftStorage rc)) /\
    rcSnapdir rc' = <[name_of sn := wire (file_of sn)]> (rcSnapdir rc) /\ outs rc' = outs rc.
Proof.
  intros Hds [Hw Hms Hsi Hb Hla] Hc Hdue Hmax Hok Hsm sn. unfold defaultSnapshotCount in Hc. rewrite Hc in Hdue.
  assert (0 <= base (ms_view (raftStorage rc))) as Hb0 by apply (ms_bounds _ Hms).
  unfold maybeTriggerSnapshot. cbv [mbind M_bind get]. rewrite u64_id, Hc by lia. rewrite (proj2 (Z.leb_gt _ _)), Hds by lia. cbn [or_panic mret M_ret].
  unfold zoom at 1. change (view storage_lens rc) with (raftStorage rc).
  pose proof (CreateSnapshot_eq (raftStorage rc) Hms (appliedIndex rc) (Some (confState rc)) (Some data) ltac:(lia) ltac:(lia)) as Hcs.
  destruct (CreateSnapshot _ _ _ _) as [[[sn'|err] ms1]| |]; [|done|lia|done].
  destruct Hcs as (Hs1 & He1 & Hh1 & Hd1 & Hi1 & Ht1 & Hcf1). cbn [default from_option id] in Hcf1.
  assert (sn' = sn) as ->.
  { unfold sn, new_snapshot. rewrite Ht1. cbn [default from_option id]. destruct sn' as [da [cs ix tm]]. cbn in *. by subst. }
  set (rc1 := put storage_lens ms1 rc).
  destruct (saveSnap_sim rc1 a sn Hw Hok ltac:(rewrite Hi1; lia) Hsm) as (w' & Esv & Hs'). rewrite Esv.
  unfold snapshotCatchUpEntriesN. rewrite (proj2 (Z.ltb_lt _ _)) by lia. set (rc2 := set_rcWal w' _).
  unfold zoom. change (view storage_lens rc2) with ms1.
  assert (ms_view ms1 = ms_view (raftStorage rc)) as Hv1 by (unfold ms_view; by rewrite He1).
  assert (ms_ok ms1) as Hok1. { destruct Hms as (H1 & H2 & H3). unfold ms_ok. by rewrite Hv1, He1. }
  pose proof (Compact_eq ms1 Hok1 (appliedIndex rc - 10000)) as Hcp. rewrite Hv1 in Hcp.
  destruct (Compact _ ms1) as [[[[]|err] ms2]| |]; [|lia|lia|done]. destruct Hcp as (_ & Hv2 & Hok2 & Hsn2 & _).
  eexists. split; [reflexivity|]. cbn [modify]. split_and!; try done.
  - split; try done; cbn.
    + change (sIndex (snapshot ms2) = appliedIndex rc). rewrite Hsn2, Hs1. exact Hi1.
    + change (base (ms_view ms2) <= appliedIndex rc <= appliedIndex rc). rewrite Hv2. cbn. lia.
    + change (appliedIndex rc <= vlast (ms_view ms2)). rewrite Hv2. unfold vlast, compact in *. cbn. rewrite zlen_drop by lia. lia.
  - change (snapshot ms2 = sn). by rewrite Hsn2, Hs1.
Qed.
End trigger.


(* ===================================================================== *)
(** ** Instances of the theorems                                         *)
(* ===================================================================== *)

Lemma demo_ents : aEnts (abs_after None demo_ops abs_init) = [demo_entry 1 1 (bs "a"); demo_entry 2 2 (bs "x")].
Proof. reflexivity. Qed.

Lemma recovery_witness : exists w w1, Create 4096 None = Ret (w, false) /\ run_ops 4096 demo_ops w = Ret (abs_ops None demo_ops abs_init, w1) /\
  exists rc rc' ms w2 d', rcWal rc = w1 /\ persist 4096 (mkHardState 3 2 2) [demo_entry 3 3 (bs "y")] rc = Ret (tt, rc') /\
    replayWAL 4096 (fun d => elements (dom d)) (disk (rcWal rc')) ∅ = Ret ((ms, w2), d') /\
    ms_view ms = mkView 0 0 [demo_entry 1 1 (bs "a"); demo_entry 2 2 (bs "x"); demo_entry 3 3 (bs "y")].
Proof.
  destruct (@recovery plain_runtime demo_env 4096 ltac:(lia) ltac:(done) (fun d => elements (dom d)) ltac:(intros; by rewrite elem_of_elements, elem_of_dom)
    demo_ops ltac:(exact demo_ops_fit) (mkHardState 3 2 2) [demo_entry 3 3 (bs "y")] 3) as (w & w1 & Ec & Er & H).
  - apply demo_state_ok; lia.
  - rewrite demo_ents. split; [vm_compute; split; discriminate|]. split; [apply demo_entry_ok; done || lia|done].
  - intros k e Hk. apply list_lookup_singleton_Some in Hk as [-> <-]. done.
  - rewrite demo_ents. vm_compute. split; discriminate.
  - rewrite demo_ents. repeat constructor.
  - rewrite demo_ents. reflexivity.
  - reflexivity.
  - exists w, w1. split; [exact Ec|]. split; [exact Er|].
    set (ms0 := mkMS zero_HardState zero_Snapshot [zero_entry; demo_entry 1 1 (bs "a"); demo_entry 2 2 (bs "x")]).
    destruct (demo_rc ms0 0 0) as (rc0 & Hst & _). destruct (H (set_rcWal w1 rc0)) as (rc' & Ep & Hrep); [reflexivity| |].
    { change (raftStorage (set_rcWal w1 rc0)) with (raftStorage rc0). rewrite Hst. apply full_storage_of; [|repeat constructor|done].
      intros k e Hk. repeat (destruct k as [|k]; [injection Hk as <-; reflexivity|]). discriminate Hk. }
    destruct (Hrep ∅) as (ms & w2 & d' & Erep & _ & Hv & _).
    { intros n b Hn. by rewrite lookup_empty in Hn. }
    { intros n s _ Hn. unfold holds in Hn. by rewrite lookup_empty in Hn. }
    exists (set_rcWal w1 rc0), rc', ms, w2, d'. split; [reflexivity|]. split; [exact Ep|]. split; [exact Erep|]. rewrite Hv. reflexivity.
Defined.

Definition many_entries : list Entry := (fun i => mkEntry 1 i EntryNormal None) <$> seqZ 1 10001.

Lemma many_term : vterm (mkView 0 0 many_entries) 10001 = Some 1.
Proof.
  unfold vterm. cbn [base tail]. unfold znth, many_entries. rewrite (proj2 (Z.eqb_neq _ _)), (proj2 (Z.ltb_ge _ _)) by lia. rewrite list_lookup_fmap.
  rewrite (proj2 (lookup_seqZ 1 10001 (Z.to_nat (10001 - 0 - 1)) 10001)) by lia. reflexivity.
Qed.

Lemma many_ok st sn : ms_ok (mkMS st sn (zero_entry :: many_entries)) /\ vlast (mkView 0 0 many_entries) = 10001.
Proof.
  assert (zlen many_entries = 10001) as Hl by (unfold zlen, many_entries; rewrite length_fmap, length_seqZ; lia).
  split; [|unfold vlast; cbn [base tail]; lia]. apply full_storage_of; [| |lia].
  - intros k e Hk. unfold many_entries in Hk. rewrite list_lookup_fmap in Hk. apply fmap_Some in Hk as (z & Hz & ->). apply lookup_seqZ in Hz as [-> _]. done.
  - unfold many_entries. apply Forall_fmap, Forall_forall. intros z _. cbn. lia.
Qed.

