(* ===== verification/Cluster.v ===== *)
(** * Cluster: committed commands and the membership commands
    (src/server/server.go, src/memdb/raft_command.go)

    In cluster mode a command goes into the raft log as a string, and every node
    executes what the node of RaftGlue.v delivers. [rconf] sends a change of the
    membership to the node; the changes that were sent are its state. [Member] reads
    the addresses of the node. *)

From S2P Require Import Prelude Strconv Utf8 Json RaftPb Quorum RaftStorage RaftLog Tracker ConfChange RaftWire RaftCodec RaftNode RawNode RaftSafety WalPb PageWriter Wal WalRun Snap RaftGlue.
From S2P Require Import Prelude Strconv Resp RespParser Util ConcurrentMap Locks ListStruct HashStruct SetStruct Db Keys StringCmds ListCmds HashCmds SetCmds Commands Server.

(* ===================================================================== *)
(** ** The membership commands                                           *)
(* ===================================================================== *)

Section commands.
Context {rt : GoRuntime}.

(** The second half of [rconf]: the change, and its way to the node. *)
Definition rconf_send (cmd : list slice) (actType : ConfChangeType) (url : bytes) : M (list ConfChangeV2) (option RedisData) :=
  c2 ← or_panic (cmd !! 2%nat);
  match ParseUint (str c2) with
  | None => mret (err (bs "ERR value is not integer or out of range"))
  | Some nodeID =>
    if nodeID <? 0 then mret (err (bs "ID should be a positive integer"))
    else
      let cc := mkChange actType nodeID in
      let changeV2 := mkConfChangeV2 ConfChangeTransitionJointExplicit [cc] (Some url) in
      modify (fun sent => sent ++ [changeV2]);;
      mret (simple (bs "send changeV2 to confChange"))
  end.

(** [confChangeC] tells whether the context of the command has the channel. *)
Definition rconf (confChangeC : bool) (cmd : list slice) : M (list ConfChangeV2) (option RedisData) :=
  if zlen cmd <? 3 then mret (Some (MakeWrongNumberArgs (bs "rconf")))
  else if negb confChangeC then
    mret (err (bs "ERR can not resolve conf change channel.l Make sure server runs in cluster mode. "))
  else
    c1 ← or_panic (cmd !! 1%nat);
    let name := ToLower (str c1) in
    if beq name (bs "add") then
      c3 ← or_panic (cmd !! 3%nat);
      rconf_send cmd ConfChangeAddNode (str c3)
    else if beq name (bs "delete") then rconf_send cmd ConfChangeRemoveNode []
    else if beq name (bs "update") then rconf_send cmd ConfChangeUpdateNode []
    else mret (err (bs "unrecognized key")).

(** [raft] holds the addresses of the node, or is nil. *)
Definition MemberList (raft : option (list bytes)) : option RedisData :=
  match raft with
  | None => err (bs "raft node is not initialized. ")
  | Some peers => array (map MakeStringData peers)
  end.

Definition Member (raft : option (list bytes)) (cmd : list slice) : outcome (option RedisData) :=
  match cmd !! 1%nat with
  | None => Panic
  | Some c1 =>
    if beq (ToLower (str c1)) (bs "list") then Ret (MemberList raft)
    else Ret (Some (MakeErrorData [bs "command not found for member "; str c1]))
  end.

(** The two commands in the table of a node: what [rconf] sends is not part of the
    database. *)
Definition rconf_handler : Handler := fun cmd w =>
  match rconf true cmd [] with
  | Ret (res, _) => Ret (res, w)
  | Panic => Panic
  | Block => Block
  end.

Definition member_handler (raft : option (list bytes)) : Handler := fun cmd => lift (Member raft cmd).

Definition RegisterRaftCommand (raft : option (list bytes)) (t : Table) : Table :=
  RegisterCommand (bs "member") (member_handler raft) (RegisterCommand (bs "rconf") rconf_handler t).

(* ===================================================================== *)
(** ** What is committed is executed                                     *)
(* ===================================================================== *)

Context (t : Table).

(** One command: its reply goes to the connection that waits for it, if it is one
    of this node. *)
Definition exec_committed (resultCallback : bytes -> bool) (cmd : RaftProposal) : M Manager (list (bytes * option RedisData)) :=
  res ← ExecStrCommand t (pData cmd);
  mret (if resultCallback (pID cmd) then [(pID cmd, res)] else []).

(** [handleClusterCommits] on what comes over [commitC]: the replies that it
    sends. *)
Definition handleClusterCommits (resultCallback : bytes -> bool) (commitC : list (option (list RaftProposal))) :
    M Manager (list (bytes * option RedisData)) :=
  foldM (fun replies msg =>
    match msg with
    | None => mret replies
    | Some data =>
      foldM (fun replies cmd => r ← exec_committed resultCallback cmd; mret (replies ++ r)) replies data
    end) [] commitC.
End commands.

(* ===================================================================== *)
(** ** Replicas                                                          *)
(* ===================================================================== *)

(** What a node sends over [commitC]. *)
Definition commits (es : list effect) : list (option (list RaftProposal)) :=
  omap (fun e => match e with CommitC c => Some c | _ => None end) es.

Section replicas.
Context {rt : GoRuntime} (t : Table).

(** The commands one after the other. *)
Definition exec_all (ps : list RaftProposal) : M Manager unit := forM ps (fun p => ExecStrCommand t (pData p);; mret tt).

(** The state, without the replies. *)
Definition state_of {A} (o : outcome (A * Manager)) : outcome Manager :=
  match o with
  | Ret (_, m) => Ret m
  | Panic => Panic
  | Block => Block
  end.

Lemma exec_all_app a b mgr : exec_all (a ++ b) mgr = (exec_all a;; exec_all b) mgr.
Proof.
  unfold exec_all, forM. revert mgr. induction a as [|p a IH]; intros mgr; [done|]. cbn [app foldM]. unfold mbind, M_bind in *.
  destruct (ExecStrCommand t (pData p) mgr) as [[r m]| |]; try done. cbn [mret M_ret]. apply IH.
Qed.

Lemma exec_data cb data replies mgr :
  state_of (foldM (fun replies cmd => r ← exec_committed t cb cmd; mret (replies ++ r)) replies data mgr) = state_of (exec_all data mgr).
Proof.
  unfold exec_all, forM, exec_committed. revert replies mgr. induction data as [|p data IH]; intros replies mgr; [done|]. cbn [foldM].
  unfold mbind, M_bind in *. destruct (ExecStrCommand t (pData p) mgr) as [[r m]| |]; try done. cbn [mret M_ret]. apply IH.
Qed.

Lemma handle_all cb es mgr : state_of (handleClusterCommits t cb (commits es) mgr) = state_of (exec_all (delivered es) mgr).
Proof.
  unfold handleClusterCommits. generalize (@nil (bytes * option RedisData)). revert mgr.
  induction es as [|e es IH]; intros mgr replies; [done|]. unfold commits, delivered in *. cbn [omap list_omap mbind list_bind].
  destruct e as [[data|]| | | | |]; cbn [foldM app]; try apply IH.
  rewrite exec_all_app. pose proof (exec_data cb data replies mgr) as E. unfold mbind, M_bind in *.
  destruct (foldM _ replies data mgr) as [[r m]| |], (exec_all data mgr) as [[u m']| |]; cbn in E; try done. injection E as ->. apply IH.
Qed.
End replicas.


(* ===================================================================== *)
(** ** Changes of the membership                                         *)
(* ===================================================================== *)

(** What [rconf] sends. *)
Definition rconf_change (c : ConfChangeV2) : Prop :=
  exists typ id url, c = mkConfChangeV2 ConfChangeTransitionJointExplicit [mkChange typ id] (Some url) /\
    (typ = ConfChangeAddNode \/ typ = ConfChangeRemoveNode \/ typ = ConfChangeUpdateNode) /\ is_u64 id.

Section membership.
Context {rt : GoRuntime}.

Lemma rconf_send_sends cmd typ url sent res sent' : (typ = ConfChangeAddNode \/ typ = ConfChangeRemoveNode \/ typ = ConfChangeUpdateNode) ->
  rconf_send cmd typ url sent = Ret (res, sent') -> sent' = sent \/ exists c, sent' = sent ++ [c] /\ rconf_change c.
Proof.
  intros Ht. unfold rconf_send. cbv [mbind M_bind or_panic mret M_ret panic modify]. destruct (cmd !! 2%nat) as [c2|]; [|done].
  destruct (ParseUint (str c2)) as [n|] eqn:E; [|intros [= _ <-]; by left]. destruct (Z.ltb_spec n 0); [intros [= _ <-]; by left|].
  intros [= _ <-]. right. eexists. split; [done|]. exists typ, n, url. split; [done|]. split; [done|].
  unfold ParseUint in E. destruct (parse_nat (str c2)) as [m|]; [|done]. destruct (Z.ltb_spec m (2 ^ 64)); [|done]. injection E as <-. unfold is_u64. lia.
Qed.

Lemma rconf_sends b cmd sent res sent' : rconf b cmd sent = Ret (res, sent') -> sent' = sent \/ exists c, sent' = sent ++ [c] /\ rconf_change c.
Proof.
  unfold rconf. destruct (zlen cmd <? 3); [intros [= _ <-]; by left|]. destruct b; [|intros [= _ <-]; by left].
  cbv [mbind M_bind or_panic]. destruct (cmd !! 1%nat) as [c1|]; [|done]. cbv [mret M_ret negb]. destruct (beq _ (bs "add")).
  { destruct (cmd !! 3%nat) as [c3|]; [|done]. apply rconf_send_sends. by left. }
  destruct (beq _ (bs "delete")); [apply rconf_send_sends; by right; left|].
  destruct (beq _ (bs "update")); [apply rconf_send_sends; by right; right|]. intros [= _ <-]. by left.
Qed.

(** A joint configuration that is not left automatically. *)
Lemma EnterJoint_stays c ccs cfg ps : changer_ok c -> EnterJoint c false ccs = Some (cfg, ps) -> joint cfg = true /\ AutoLeave cfg = false.
Proof.
  intros [Hc _] E. pose proof (EnterJoint_single _ _ _ _ E) as Hj. rewrite (EnterJoint_eq c Hc false ccs Hj) in E.
  destruct (Z.eqb_spec (Z.of_nat (base.size (VotersIn (tConfig (cTracker c))))) 0) as [|Hne]; [done|].
  apply bind_Some in E as ([cfg' ps'] & Ea & [= <- <-]). split; [|done].
  apply apply_ok in Ea as (_ & (Eo & _) & _); [|by apply doubled_ok]. cbn in Eo. unfold joint. cbn. rewrite Eo. cbn. apply Z.ltb_lt. lia.
Qed.

Context {env : RaftEnv} (Hequal : forall a b, Equal a b = true -> a = b).
#[local] Abbreviation raft := (raft MemoryStorage).

Lemma rconf_enters c (r : raft) : rconf_change c ->
  applyConfChange c r = (li ← ask_log lastIndex; '(cfg, ps) ← or_panic (EnterJoint (mkChanger (prs r) li) false (Changes c)); switchToConfig cfg ps) r.
Proof using Hequal.
  intros (typ & id & url & -> & _ & _). unfold applyConfChange, V2_LeaveJoint. cbn [Transition Changes].
  destruct (Equal _ _) eqn:E; [by apply Hequal in E|]. reflexivity.
Qed.

Lemma rconf_refused c (r : raft) : rconf_change c -> ConfChangeV2_Size c <= MaxInt64 -> joint (tConfig (prs r)) = true ->
  exists d, MarshalConfChange (V2 c) = Ret (EntryConfChangeV2, d) /\
    screen_entries 0 [mkEntry 0 0 EntryConfChangeV2 (Some d)] r = Ret ([zero_entry], r).
Proof using Type.
  intros (typ & nodeID & url & Ec & Ht & Hid) Hsz Hj. set (c2 := c) in *.
  assert (wire_ok c2) as Hw.
  { split; [|exact Hsz]. rewrite Ec. split; [done|]. constructor; [|constructor]. split; [|exact Hid]. by destruct Ht as [->|[->| ->]]. }
  exists (wire c2). split.
  { unfold MarshalConfChange. assert (ConfChangeV2_Marshal c2 = Ret (wire c2)) as ->; [|done].
    rewrite <- (marshal_eq _ _ (wire_fills c2 Hw)), (wire_size c2 Hw). reflexivity. }
  cbn [screen_entries]. unfold proposed_change. cbn [eType eData to_string default from_option id].
  assert (ConfChangeV2_Unmarshal (wire c2) zero_ConfChangeV2 = DOk c2) as Hu by exact (codec_unmarshal c2 Hw).
  unfold to_string. cbn [default from_option id]. rewrite Hu. cbv [mbind M_bind mret M_ret unmarshalled get].
  unfold joint in Hj. rewrite Hj, Ec. cbn [Changes]. rewrite orb_true_r. reflexivity.
Qed.
End membership.

(** C39: The membership can be changed once. What [rconf] sends takes raft into a
    joint configuration, for [rconf] asks for an explicit transition, and raft does
    not leave it on its own. In such a configuration a leader replaces every
    further change of [rconf] by an empty entry, while the client is told that its
    change was sent; and [rconf] cannot send the change that leaves it. *)
Theorem rconf_works_once {rt : GoRuntime} {env : RaftEnv} (Hequal : forall a b, Equal a b = true -> a = b)
  (cmd1 cmd2 : list slice) (res1 res2 : option RedisData) (c1 c2 : ConfChangeV2)
  (H1 : rconf true cmd1 [] = Ret (res1, [c1])) (H2 : rconf true cmd2 [] = Ret (res2, [c2])) (Hsz : ConfChangeV2_Size c2 <= MaxInt64) :
  (forall r : raft MemoryStorage, applyConfChange c1 r =
    (li ← ask_log lastIndex; '(cfg, ps) ← or_panic (EnterJoint (mkChanger (prs r) li) false (Changes c1)); switchToConfig cfg ps) r) /\
  forall tr li cfg ps, changer_ok (mkChanger tr li) -> EnterJoint (mkChanger tr li) false (Changes c1) = Some (cfg, ps) ->
    AutoLeave cfg = false /\ forall r : raft MemoryStorage, tConfig (prs r) = cfg ->
    exists d, MarshalConfChange (V2 c2) = Ret (EntryConfChangeV2, d) /\
      screen_entries 0 [mkEntry 0 0 EntryConfChangeV2 (Some d)] r = Ret ([zero_entry], r).
Proof.
  apply rconf_sends in H1 as [?|(c & [= <-] & Hc1)]; [done|]. apply rconf_sends in H2 as [?|(c & [= <-] & Hc2)]; [done|].
  split; [intros r; by apply rconf_enters|]. intros tr li cfg ps Hok E. destruct (EnterJoint_stays _ _ _ _ Hok E) as [Hj Ha].
  split; [done|]. intros r Hr. apply rconf_refused; [done|done|by rewrite Hr].
Qed.

(** One command can stop the whole cluster. [rconf add] without an address
    indexes past its arguments. A connection keeps [rconf] out of the log only if it
    is written in lower case; in any other case every node that applies the entry
    panics, and does so again when it restarts and replays its log. *)
Theorem rconf_add_crashes {rt : GoRuntime} (raft : option (list bytes)) (t : Table) (cb : bytes -> bool) (mgr : Manager) (w : World)
  (name sub id pid : bytes) (Hdb : DBs mgr !! CurrentDB mgr = Some w) (Hname : ToLower name = bs "rconf") (Hcase : name <> bs "rconf")
  (Hsub : ToLower sub = bs "add") (Hb : Forall (fun s => " "%char ∉ s) [name; sub; id]) :
  cluster_command (RegisterRaftCommand raft t) clusterFilter (Some (map (fun a => BulkData (Slice a [])) [name; sub; id])) mgr = Panic /\
  handleClusterCommits (RegisterRaftCommand raft t) cb [Some [mkProposal (Join (bs " ") [name; sub; id]) pid]] mgr = Panic.
Proof.
  assert (ExecStrCommand (RegisterRaftCommand raft t) (Join (bs " ") [name; sub; id]) mgr = Panic) as E.
  { rewrite ExecStrCommand_words by done. cbn [map]. rewrite ExecCommand_cons. change (str (of_string name)) with name. rewrite Hname.
    change (beq (bs "rconf") (bs "select")) with false. cbv iota. unfold RegisterRaftCommand, RegisterCommand.
    rewrite lookup_insert_ne by discriminate. rewrite lookup_insert_eq. unfold on_current. rewrite Hdb. unfold rconf_handler, rconf.
    change (zlen _ <? 3) with false. cbv [mbind M_bind or_panic negb mret M_ret panic lookup list_lookup].
    change (str (of_string sub)) with sub. rewrite Hsub. reflexivity. }
  split.
  - unfold cluster_command. rewrite ToStringCommand_bulks. unfold clusterFilter. cbv [mbind M_bind lift].
    assert (Filter [ClusterCmdFilter] (ToCommand (Some (map (fun a => BulkData (Slice a [])) [name; sub; id]))) =
      Ret (inl (ToCommand (Some (map (fun a => BulkData (Slice a [])) [name; sub; id]))))) as ->.
    { cbn. rewrite Hname. reflexivity. }
    cbn [or_panic lookup list_lookup mret M_ret]. rewrite (proj2 (beq_false _ _)) by done. unfold commit. by rewrite E.
  - unfold handleClusterCommits. cbn [foldM]. unfold exec_committed. cbv [mbind M_bind]. cbn [pData]. by rewrite E.
Qed.

(** C40: The database is not restored from a snapshot. A node that receives a
    snapshot, or starts with one, counts all entries up to its index as applied and
    never delivers them, but what it announces to the server is ignored: the
    databases stay as they are. *)
Theorem snapshot_not_loaded {rt : GoRuntime} (t : Table) (cb : bytes -> bool) (mgr : Manager) (rc : RaftNode) (sn : Snapshot)
  (Ha : 0 <= appliedIndex rc < sIndex sn) :
  (exists rc' new, publishSnapshot sn rc = Ret (tt, rc') /\ appliedIndex rc' = sIndex sn /\ outs rc' = outs rc ++ new /\
     handleClusterCommits t cb (commits new) mgr = Ret ([], mgr)) /\
  (exists rc', serve_start rc = Ret (tt, rc') /\ appliedIndex rc' = sIndex (snapshot (raftStorage rc)) /\ outs rc' = outs rc).
Proof.
  split.
  - exists (set_appliedIndex (sIndex sn) (set_snapshotIndex (sIndex sn) (set_confState (mConfState (sMetadata sn)) (emit (CommitC None) rc)))), [CommitC None].
    split_and!; try reflexivity. unfold publishSnapshot, IsEmptySnap. rewrite (proj2 (Z.eqb_neq _ _)) by lia. cbv [mbind M_bind get].
    rewrite (proj2 (Z.leb_gt _ _)) by lia. reflexivity.
  - eexists. split; [reflexivity|]. done.
Qed.

(* ===================================================================== *)
(** ** Commands whose effect is left to the runtime                      *)
(* ===================================================================== *)

(** Maps are visited in the opposite order. *)
Definition backward_runtime : GoRuntime := {|
  append_extra := fun _ _ => 0%nat;
  conv_extra := fun _ => 0%nat;
  range_order := fun _ X => rev (elements X);
  range_order_perm := fun _ X => symmetry (Permutation_rev (elements X));
  range_ids := fun _ X => elements X;
  range_ids_perm := fun _ _ => Permutation_refl _;
  unicode_lower := fun s => s
|}.

(** What a node answers after it has executed some commands. *)
Definition reply_after {rt : GoRuntime} (cmds : list bytes) (q : bytes) : outcome (option RedisData) :=
  match (exec_all (CmdTable ∅) (map (fun c => mkProposal c []) cmds);; ExecStrCommand (CmdTable ∅) q) (mkManager 0 [Db.boot 4 0]) with
  | Ret (r, _) => Ret r
  | Panic => Panic
  | Block => Block
  end.

(** Replicas can differ although their logs agree: a command that takes an
    element of a set takes the first one in the order in which the runtime of the
    node happens to visit a map. *)
Theorem replicas_diverge :
  @reply_after plain_runtime [bs "sadd s a b"; bs "spop s"] (bs "sismember s a") <>
  @reply_after backward_runtime [bs "sadd s a b"; bs "spop s"] (bs "sismember s a").
Proof. vm_compute. discriminate. Qed.

(* ===================================================================== *)
(** ** Instances of the theorems                                         *)
(* ===================================================================== *)

#[local] Abbreviation demo_publish := (fun '(lo, hi) =>
  @publish_committed plain_runtime demo_env (fun _ => zero_ConfChange) (fun _ => zero_ConfChangeV2) (segment demo_log lo hi)).


(** [proto.Equal] where [raft] uses it: is a change the zero one. *)
Definition equal_env : RaftEnv := {|
  Intn := fun _ _ => 0;
  Intn_range := fun _ n Hn => conj (Z.le_refl 0) Hn;
  Equal := fun a b =>
    match a, b with
    | mkConfChangeV2 ConfChangeTransitionAuto [] None, mkConfChangeV2 ConfChangeTransitionAuto [] None => true
    | _, _ => false
    end
|}.

Definition one_node : Changer :=
  mkChanger (mkTracker (mkConfig {[1]} None false None None) {[1 := mkProgress 0 1 StateProbe 0 true false (NewInflights 256) false]} ∅ 256) 1.

Lemma rconf_works_once_witness : exists c1 c2 cfg ps,
  @rconf plain_runtime true [word "rconf"; word "add"; word "2"; word "http://b"] [] = Ret (simple (bs "send changeV2 to confChange"), [c1]) /\
  @rconf plain_runtime true [word "rconf"; word "add"; word "3"; word "http://c"] [] = Ret (simple (bs "send changeV2 to confChange"), [c2]) /\
  EnterJoint one_node false (Changes c1) = Some (cfg, ps) /\ AutoLeave cfg = false /\
  exists (r : raft MemoryStorage) d, tConfig (prs r) = cfg /\ screen_entries 0 [mkEntry 0 0 EntryConfChangeV2 (Some d)] r = Ret ([zero_entry], r).
Proof.
  set (change id url := mkConfChangeV2 ConfChangeTransitionJointExplicit [mkChange ConfChangeAddNode id] (Some url)).
  assert (EnterJoint one_node false (Changes (change 2 (bs "http://b"))) <> None) as Hj by (vm_compute; discriminate).
  destruct (EnterJoint one_node false (Changes (change 2 (bs "http://b")))) as [[cfg ps]|] eqn:Ej; [|done]. clear Hj.
  destruct (@rconf_works_once plain_runtime equal_env ltac:(intros [[] [|] [|]] [[] [|] [|]]; done)
    [word "rconf"; word "add"; word "2"; word "http://b"] [word "rconf"; word "add"; word "3"; word "http://c"]
    (simple (bs "send changeV2 to confChange")) (simple (bs "send changeV2 to confChange")) (change 2 (bs "http://b")) (change 3 (bs "http://c"))
    ltac:(vm_compute; reflexivity) ltac:(vm_compute; reflexivity) ltac:(vm_compute; discriminate)) as [_ H].
  destruct (H (cTracker one_node) 1 cfg ps) as [Ha Hr].
  - split; [vm_compute; reflexivity|]. intros id Hid. vm_compute in Hid. done.
  - exact Ej.
  - destruct (demo_rc NewMemoryStorage 0 0) as (rc & _). set (r0 := rnRaft (rn (rcNode rc))).
    destruct (Hr (set_prs (mkTracker cfg ps ∅ 256) r0) eq_refl) as (d & _ & Es).
    exists (change 2 (bs "http://b")), (change 3 (bs "http://c")), cfg, ps.
    split; [vm_compute; reflexivity|]. split; [vm_compute; reflexivity|]. split; [exact Ej|]. split; [exact Ha|].
    exists (set_prs (mkTracker cfg ps ∅ 256) r0), d. split; [reflexivity|exact Es].
Defined.

Lemma rconf_add_crashes_witness :
  @cluster_command plain_runtime (@RegisterRaftCommand plain_runtime None ∅) (@clusterFilter plain_runtime)
    (Some (map (fun a => BulkData (Slice a [])) [bs "RCONF"; bs "add"; bs "4"])) demo_mgr = Panic /\
  @handleClusterCommits plain_runtime (@RegisterRaftCommand plain_runtime None ∅) (fun _ => false) [Some [mkProposal (bs "RCONF add 4") (bs "x")]] demo_mgr = Panic.
Proof.
  apply (@rconf_add_crashes plain_runtime None ∅ (fun _ => false) demo_mgr (Db.boot 4 0) (bs "RCONF") (bs "add") (bs "4") (bs "x")); try reflexivity.
  - discriminate.
  - apply (bool_decide_unpack _). vm_compute. exact I.
Defined.

Lemma snapshot_not_loaded_witness : exists rc rc' new,
  publishSnapshot (snap_at 2 10 (bs "[]")) rc = Ret (tt, rc') /\ appliedIndex rc' = 10 /\ outs rc' = outs rc ++ new /\
  @handleClusterCommits plain_runtime (@CmdTable plain_runtime ∅) (fun _ => true) (commits new) demo_mgr = Ret ([], demo_mgr).
Proof.
  destruct (demo_rc NewMemoryStorage 0 0) as (rc & _ & _ & Ha & _).
  destruct (@snapshot_not_loaded plain_runtime (@CmdTable plain_runtime ∅) (fun _ => true) demo_mgr rc (snap_at 2 10 (bs "[]"))) as [(rc' & new & E & H & Ho & Hh) _].
  - rewrite Ha. cbn. lia.
  - exists rc, rc', new. split_and!; [exact E|exact H|exact Ho|exact Hh].
Defined.
